(* ===== verification/_CoqProject ===== *)
-Q . S2P
Prelude.v
Leb128.v
CMem.v
PbTypes.v
FieldIter.v
Encode.v
Decode.v
Wire.v
Codec.v
Scalar.v
Layout.v
Cct.v
FirebaseCore.v
EncodeSpec.v
DecodeSafety.v
Required.v
Base64.v
Findings.v
LdbCoding.v
LdbCrc.v
LdbStatus.v
LdbLog.v
LdbFilename.v
LdbFormat.v
LdbBatch.v
LdbBloom.v
LdbSkiplist.v
LdbMemtable.v
LdbIterator.v
LdbTwoLevel.v
LdbMerger.v
LdbBlock.v
LdbCache.v
LdbLru.v
LdbEnvPosix.v
LdbEnv.v
LdbTableFormat.v
LdbTableBuilder.v
LdbTable.v
LdbVersionEdit.v
LdbDbIter.v
LdbVersion.v
LdbVersionRead.v
LdbBuilder.v
LdbCompaction.v
LdbDoCompaction.v
LdbVersionSet.v
LdbManifest.v
LdbDbWrite.v
LdbBuildTable.v
LdbDbRecover.v
