(* ===== verification/Prelude.v ===== *)
(** Verification of the native code that ships inside the DyeIsLife blog
    application (src/flutter_blog_app): its iOS pods in C and C++.

    The application is a Flutter front end (Dart) over Firebase.  Its own logic is
    user interface and remote calls; what is algorithmic, and what this
    development models, is the C and C++ the pods bring with them (all paths below
    are under src/flutter_blog_app/ios/Pods/):

    - nanopb, the protocol buffer library, with the messages compiled for it: the
      log upload protocol (GoogleDataTransportCCTSupport, cct.nanopb.c) and the
      configuration report (FirebaseCoreDiagnostics, firebasecore.nanopb.c);
    - the base64 routines of the web socket client (FirebaseDatabase,
      SocketRocket/fbase64.c);
    - leveldb, the store under the Firebase Database cache.

    * nanopb

    The code works on raw memory through descriptor tables, so it is modelled on a
    flat byte memory with faults.

    - CMem: the machine: memory, malloc heap, the error monad [M] ([Ok] or [Fault])
      and its weakest precondition [wp].
    - PbTypes: pb.h, pb_encode.h, pb_decode.h: types, masks, streams, errors.
      User callbacks, [realloc] and [free] are parameters (record [UserCode]).
    - FieldIter: pb_common.c.  [iter_traversal], [iter_find_correct]: the iterator
      visits every field once with the reference offsets; find is a search.
    - Encode, Decode: pb_encode.c and pb_decode.c, one definition per C function.
    - Wire, Codec, Scalar: what the encoders of the wire primitives and of scalar
      fields write, and that the decoders read it back; [pb_skip_field_exact],
      [substream_exact].
    - EncodeSpec: the reference encoding [spec_message] and the refinement:
      [pb_encode_refines_spec], [pb_get_encoded_size_exact],
      [pb_encode_stream_full].
    - DecodeSafety: [pb_decode_safe]: decoding any bytes into a static message
      returns and writes only the struct.
    - Required: the bitmap of required fields.
    - Layout, Cct, FirebaseCore: C struct layout, the PB_FIELD macros, and the ten
      shipped tables: the iterator stands on the members of the structs.
    - Findings: behaviours that differ from what the code or its comments intend.

    * base64

    - Base64: [f_b64_ntop_correct], [f_b64_pton_correct], [b64_roundtrip]: exact
      behaviour on every input, inside the buffers.

    * leveldb

    The components are objects with methods, so their state is a record and a
    method a function on it; bytes are [list byte].

    - LdbCoding (util/coding.cc, slice.h), LdbCrc (util/crc32c.cc), LdbStatus
      (util/status.cc, and the interfaces of files), LdbFilename (util/logging.cc,
      db/filename.cc): the foundations.  [Extend_correct]: the table-driven CRC is
      CRC-32C by polynomial division.
    - LdbLog (db/log_writer.cc, db/log_reader.cc): the write-ahead log against the
      file interfaces of LdbStatus.  [log_crash_recovery]: any prefix of a log
      reads back as exactly its complete records.
    - LdbFormat (db/dbformat.cc, util/comparator.cc): internal keys; comparators are
      a class with laws, and the internal order is an instance over any user order.
    - LdbBatch (db/write_batch.cc): batches against a class of handlers.
    - LdbBloom (util/bloom.cc, util/hash.cc, table/filter_block.cc): filters against
      a class of policies: no false negatives.
    - LdbSkiplist (db/skiplist.h, util/random.h): the skip list over any ordered
      keys refines the ordered list of its keys, and does so between any two
      stores of an insertion.
    - LdbMemtable (db/memtable.cc): the memtable, built on the two above: reading
      is reading the newest visible entry.
    - LdbBlock (table/block_builder.cc, table/block.cc): blocks of a table.
    - LdbVersionEdit (db/version_edit.cc): the records of the manifest.
    - LdbIterator (include/leveldb/iterator.h): the iterator interface and its
      contract [cursor]: a position in a list of entries.
    - LdbTwoLevel, LdbMerger (table/two_level_iterator.cc, table/merger.cc): the
      iterators built from iterators; each is a cursor when its parts are.
    - LdbCache (include/leveldb/cache.h): the interface of caches.  LdbLru (util/cache.cc):
      the cache itself, in a store of nodes, under any sequence of calls.
    - LdbEnvPosix (util/env_posix.cc): files, locks, the limiter and the queue of background
      work over a class of system calls; every interleaving of the atomic steps.
    - LdbTableFormat (table/format.cc): handles, footers and the reading of blocks.
    - LdbTableBuilder (table/table_builder.cc): the builder, against a layout of
      tables stated apart from it.
    - LdbTable (table/table.cc): opening a table, its iterator and its lookups.
    - LdbDbIter (db/db_iter.cc): the iterator of the database, against the view of a
      snapshot stated apart from it.
    - LdbVersion, LdbVersionRead (db/version_set.cc): the files of each level: searches
      among them, lookups and iterators over all of them, against the same view.
    - LdbBuilder (db/version_set.cc, VersionSet::Builder): a new version from a version
      and edits, against the same an edit at a time.
    - LdbCompaction (db/version_set.cc, class Compaction): scores, the inputs of a
      compaction, and the tests its loop makes.
    - LdbDoCompaction (db/db_impl.cc, DoCompactionWork): what the loop drops and writes;
      no view of a snapshot in use changes.
    - LdbEnv (include/leveldb/env.h, util/env.cc, SetCurrentFile of db/filename.cc): files
      of an environment as a class, its laws when calls fail, and a good environment;
      CURRENT is replaced as a whole.
    - LdbVersionSet (db/version_set.cc, class VersionSet): numbers, the live versions and
      their references, LogAndApply and Recover.  LdbManifest: what Recover makes of a
      manifest that LogAndApply wrote, whole or cut.
    - LdbDbWrite (db/db_impl.cc, Write, BuildBatchGroup, MakeRoomForWrite): the queue of
      writers as steps between which other threads and the background work take theirs;
      groups go to the log and to the memtable in the order of the queue.
    - LdbBuildTable (db/builder.cc, MemTableIterator of db/memtable.cc): a table from the
      iterator of a memtable.
    - LdbDbRecover (db/db_impl.cc, RecoverLogFile, WriteLevel0Table): the log files that an
      opened database reads back, with the tables it writes meanwhile.  The log has the form
      in which LdbDbWrite leaves it, so a write whose record is whole is recovered.

    How they interact: a write batch is appended to the log as one record
    (LdbLog) and then inserted into the memtable (LdbBatch calls a handler, the
    handler of LdbMemtable adds entries, the skip list orders them by the
    comparator of LdbFormat); recovery reads the log's records back; a memtable is
    written out as a table (LdbTableBuilder over LdbBlock and LdbBloom), which is
    opened and read through LdbTwoLevel (LdbTable); a merging iterator joins the
    memtable and the tables.

    * Machine integers, fuel and bounds

    Every conversion is written out ([u8], [u32], [u64], [s32], ... below).  Where a
    loop is not structural it takes fuel, and a theorem says that the fuel given
    is enough: message nesting depth for the nanopb recursions (the theorems
    conclude [wp], which excludes [OutOfFuel]); the bytes left for readers and
    iterators; the number of nodes plus levels for the skip list.  Lengths are
    assumed below 2 ^ 32 (or the stated bound) where the code stores them in 32
    bits.

    * Not modelled

    The Objective-C pods (Foundation objects, networking), the Dart application, the
    prebuilt frameworks and their headers; of leveldb, what only calls the system (the logger
    and the threads of env_posix.cc), the opening and closing of a database, its reads through
    snapshots and its statistics (the rest of db_impl.cc), repair.cc, c.cc, and the parts
    listed as such in the manifest. *)

From Stdlib Require Export ZArith Lia NArith Strings.Byte.
From stdpp Require Export base tactics list gmap strings option.

Open Scope Z_scope.

(** * Machine integers

    A w-bit unsigned integer is a [Z] reduced modulo [2 ^ w]; a signed one is
    reduced into the symmetric range.  Every conversion the C code performs is
    written with one of these. *)

Definition u8 (x : Z) : Z := x mod 2 ^ 8.
Definition u32 (x : Z) : Z := x mod 2 ^ 32.
Definition u64 (x : Z) : Z := x mod 2 ^ 64.

Definition sx (w x : Z) : Z :=
  let y := x mod 2 ^ w in if y <? 2 ^ (w - 1) then y else y - 2 ^ w.

Definition s8 (x : Z) : Z := sx 8 x.
Definition s16 (x : Z) : Z := sx 16 x.
Definition s32 (x : Z) : Z := sx 32 x.
Definition s64 (x : Z) : Z := sx 64 x.

(** [~x] on a 64-bit unsigned integer. *)
Definition not64 (x : Z) : Z := 2 ^ 64 - 1 - u64 x.

Definition SIZE_MAX : Z := 2 ^ 64 - 1.

(** * Bytes *)

Definition b2z (b : byte) : Z := Z.of_N (Byte.to_N b).

Definition z2b (z : Z) : byte :=
  match Byte.of_N (Z.to_N (z mod 256)) with Some b => b | None => x00 end.

#[export] Instance byte_eq_dec : EqDecision byte := Byte.byte_eq_dec.
#[export] Instance byte_countable : Countable byte := inj_countable Byte.to_N Byte.of_N Byte.of_to_N.

(** Little-endian representation of an integer in [n] bytes. *)
Fixpoint le_bytes (n : nat) (z : Z) : list byte :=
  match n with
  | O => []
  | S n => z2b z :: le_bytes n (z / 256)
  end.

Fixpoint le_val (bs : list byte) : Z :=
  match bs with
  | [] => 0
  | b :: bs => b2z b + 256 * le_val bs
  end.

(** * Lemmas on bytes and integers *)

Lemma b2z_bound (b : byte) : 0 <= b2z b < 256.
Proof. unfold b2z. pose proof (Byte.to_N_bounded b). lia. Qed.

Lemma b2z_z2b (z : Z) : b2z (z2b z) = z mod 256.
Proof.
  unfold b2z, z2b. pose proof (Z.mod_pos_bound z 256 ltac:(lia)) as Hb.
  destruct (Byte.of_N (Z.to_N (z mod 256))) as [b|] eqn:E.
  - apply Byte.to_of_N in E. rewrite E. lia.
  - apply Byte.of_N_None_iff in E. lia.
Qed.

Lemma b2z_inj (a b : byte) : b2z a = b2z b -> a = b.
Proof.
  unfold b2z. intros H. apply N2Z.inj in H.
  pose proof (Byte.of_to_N a) as Ha. pose proof (Byte.of_to_N b) as Hb.
  rewrite H in Ha. congruence.
Qed.

Lemma z2b_b2z (b : byte) : z2b (b2z b) = b.
Proof.
  apply b2z_inj. rewrite b2z_z2b. apply Z.mod_small. apply b2z_bound.
Qed.

Lemma b2z_z2b_small (z : Z) : 0 <= z < 256 -> b2z (z2b z) = z.
Proof. intros. rewrite b2z_z2b. by apply Z.mod_small. Qed.

Lemma z2b_mod (z : Z) : z2b (z mod 256) = z2b z.
Proof. apply b2z_inj. rewrite !b2z_z2b. by rewrite Z.mod_mod by lia. Qed.

Lemma length_le_bytes (n : nat) (z : Z) : length (le_bytes n z) = n.
Proof. revert z; induction n as [|n IH]; intros z; cbn; [done | by rewrite IH]. Qed.

Lemma le_val_bound (bs : list byte) : 0 <= le_val bs < 256 ^ Z.of_nat (length bs).
Proof.
  induction bs as [|b bs IH]; cbn [le_val length]; [lia|].
  pose proof (b2z_bound b). rewrite Nat2Z.inj_succ, Z.pow_succ_r by lia. lia.
Qed.

Lemma le_val_bytes (n : nat) (z : Z) : le_val (le_bytes n z) = z mod 256 ^ Z.of_nat n.
Proof.
  revert z; induction n as [|n IH]; intros z; cbn [le_val le_bytes].
  { change (256 ^ Z.of_nat 0) with 1. by rewrite Z.mod_1_r. }
  rewrite IH, b2z_z2b, Nat2Z.inj_succ, Z.pow_succ_r by lia.
  assert (0 < 256 ^ Z.of_nat n) by (apply Z.pow_pos_nonneg; lia).
  rewrite Z.rem_mul_r by lia. lia.
Qed.

Lemma le_bytes_val (bs : list byte) : le_bytes (length bs) (le_val bs) = bs.
Proof.
  induction bs as [|b bs IH]; cbn [le_val le_bytes length]; [done|].
  pose proof (b2z_bound b).
  replace (b2z b + 256 * le_val bs) with (le_val bs * 256 + b2z b) by lia.
  f_equal.
  - apply b2z_inj. rewrite b2z_z2b, Z.add_comm, Z_mod_plus_full.
    by apply Z.mod_small.
  - rewrite Z.div_add_l by lia.
    by rewrite (Z.div_small (b2z b)), Z.add_0_r.
Qed.

Lemma le_bytes_val_n (n : nat) (bs : list byte) :
  length bs = n -> le_bytes n (le_val bs) = bs.
Proof. intros <-. apply le_bytes_val. Qed.

Lemma u8_bound (x : Z) : 0 <= u8 x < 2 ^ 8.
Proof. apply Z.mod_pos_bound; lia. Qed.
Lemma u32_bound (x : Z) : 0 <= u32 x < 2 ^ 32.
Proof. apply Z.mod_pos_bound; lia. Qed.
Lemma u64_bound (x : Z) : 0 <= u64 x < 2 ^ 64.
Proof. apply Z.mod_pos_bound; lia. Qed.
Lemma u8_small (x : Z) : 0 <= x < 2 ^ 8 -> u8 x = x.
Proof. apply Z.mod_small. Qed.
Lemma u32_small (x : Z) : 0 <= x < 2 ^ 32 -> u32 x = x.
Proof. apply Z.mod_small. Qed.
Lemma u64_small (x : Z) : 0 <= x < 2 ^ 64 -> u64 x = x.
Proof. apply Z.mod_small. Qed.
Lemma u64_idemp (x : Z) : u64 (u64 x) = u64 x.
Proof. apply Z.mod_mod; lia. Qed.

Lemma sx_bound (w x : Z) : 0 < w -> - 2 ^ (w - 1) <= sx w x < 2 ^ (w - 1).
Proof.
  intros Hw. unfold sx.
  assert (2 ^ w = 2 * 2 ^ (w - 1)) as E.
  { rewrite <- Z.pow_succ_r by lia. f_equal; lia. }
  assert (0 < 2 ^ (w - 1)) by (apply Z.pow_pos_nonneg; lia).
  pose proof (Z.mod_pos_bound x (2 ^ w) ltac:(lia)).
  destruct (x mod 2 ^ w <? 2 ^ (w - 1)) eqn:El; lia.
Qed.

Lemma sx_small (w x : Z) : 0 < w -> - 2 ^ (w - 1) <= x < 2 ^ (w - 1) -> sx w x = x.
Proof.
  intros Hw Hx. unfold sx.
  assert (2 ^ w = 2 * 2 ^ (w - 1)) as E.
  { rewrite <- Z.pow_succ_r by lia. f_equal; lia. }
  destruct (Z.le_gt_cases 0 x).
  - rewrite Z.mod_small by lia. destruct (x <? 2 ^ (w - 1)) eqn:El; lia.
  - rewrite <- (Z_mod_plus_full x 1 (2 ^ w)), Z.mod_small by lia.
    destruct (x + 1 * 2 ^ w <? 2 ^ (w - 1)) eqn:El; lia.
Qed.

Lemma sx_mod (w x : Z) : 0 < w -> sx w x mod 2 ^ w = x mod 2 ^ w.
Proof.
  intros Hw. unfold sx.
  assert (0 < 2 ^ w) by (apply Z.pow_pos_nonneg; lia).
  destruct (x mod 2 ^ w <? 2 ^ (w - 1)).
  - by rewrite Z.mod_mod by lia.
  - rewrite <- (Z_mod_plus_full (x mod 2 ^ w - 2 ^ w) 1 (2 ^ w)).
    replace (x mod 2 ^ w - 2 ^ w + 1 * 2 ^ w) with (x mod 2 ^ w) by lia.
    by rewrite Z.mod_mod by lia.
Qed.

Lemma le_bytes_mod (n : nat) (z : Z) : le_bytes n (z mod 256 ^ Z.of_nat n) = le_bytes n z.
Proof.
  rewrite <- le_val_bytes, <- (length_le_bytes n z) at 1. by rewrite le_bytes_val.
Qed.

Lemma mod_mod_pow (x a b : Z) : 0 <= a <= b -> (x mod 2 ^ b) mod 2 ^ a = x mod 2 ^ a.
Proof.
  intros H. apply Z.mod_mod_divide.
  exists (2 ^ (b - a)). rewrite <- Z.pow_add_r by lia. f_equal. lia.
Qed.

Lemma sx_eq_mod (w x y : Z) : x mod 2 ^ w = y mod 2 ^ w -> sx w x = sx w y.
Proof. unfold sx. by intros ->. Qed.

Lemma sx_u64 (w x : Z) :
  0 < w <= 64 -> - 2 ^ (w - 1) <= x < 2 ^ (w - 1) -> sx w (u64 x) = x.
Proof.
  intros Hw Hx. rewrite <- (sx_small w x) at 2 by lia.
  apply sx_eq_mod. apply mod_mod_pow. lia.
Qed.

(** Sign-extending the value of [n] bytes and storing it gives the bytes back. *)
Lemma le_bytes_sx (bs : list byte) :
  bs <> [] -> le_bytes (length bs) (sx (8 * Z.of_nat (length bs)) (le_val bs)) = bs.
Proof.
  intros Hne. rewrite <- le_bytes_mod.
  assert (0 < Z.of_nat (length bs)) by (destruct bs; cbn; [done|lia]).
  assert (256 ^ Z.of_nat (length bs) = 2 ^ (8 * Z.of_nat (length bs))) as E.
  { change 256 with (2 ^ 8). by rewrite <- Z.pow_mul_r by lia. }
  pose proof (le_val_bound bs). rewrite E, sx_mod, <- E, Z.mod_small by lia.
  apply le_bytes_val.
Qed.

(** ** Bits *)

Lemma land_disjoint (p r x : Z) : 0 <= p -> 0 <= r < 2 ^ p -> Z.land r (x * 2 ^ p) = 0.
Proof.
  intros Hp Hr. apply Z.bits_inj'. intros i Hi. rewrite Z.land_spec, Z.bits_0.
  destruct (Z.lt_ge_cases i p).
  - rewrite Z.mul_pow2_bits_low by lia. by rewrite andb_false_r.
  - rewrite <- (Z.mod_small r (2 ^ p)) by lia. by rewrite Z.mod_pow2_bits_high by lia.
Qed.

Lemma lor_add (p r x : Z) : 0 <= p -> 0 <= r < 2 ^ p -> Z.lor r (x * 2 ^ p) = r + x * 2 ^ p.
Proof. intros. symmetry. apply Z.add_nocarry_lor. by apply land_disjoint. Qed.

Lemma lor_add_l (p r x : Z) : 0 <= p -> 0 <= r < 2 ^ p -> Z.lor (x * 2 ^ p) r = x * 2 ^ p + r.
Proof. intros. rewrite Z.lor_comm, lor_add by done. lia. Qed.

Lemma lor_128 (r : Z) : 0 <= r < 128 -> Z.lor r 0x80 = r + 128.
Proof. intros. exact (lor_add 7 r 1 ltac:(lia) ltac:(lia)). Qed.

Lemma mod_128_hi (r : Z) : 0 <= r < 128 -> (r + 128) mod 128 = r.
Proof. intros. rewrite <- (Z.mul_1_l 128) at 1. rewrite Z_mod_plus_full. by apply Z.mod_small. Qed.

Lemma land_127 (v : Z) : Z.land v 0x7F = v mod 128.
Proof. change 0x7F with (Z.ones 7). by rewrite Z.land_ones. Qed.

Lemma land_255 (v : Z) : Z.land v 0xFF = v mod 256.
Proof. change 0xFF with (Z.ones 8). by rewrite Z.land_ones. Qed.

Lemma land_7 (v : Z) : Z.land v 7 = v mod 8.
Proof. change 7 with (Z.ones 3). by rewrite Z.land_ones. Qed.

Lemma land_1 (v : Z) : Z.land v 1 = v mod 2.
Proof. change 1 with (Z.ones 1). by rewrite Z.land_ones. Qed.

(** The continuation bit of a byte. *)
Lemma land_128 (x : Z) : 0 <= x < 256 -> (Z.land x 0x80 =? 0) = (x <? 128).
Proof.
  intros Hx. replace (Z.land x 0x80) with (Z.land (Z.shiftr x 7) 1 * 128).
  - rewrite land_1, Z.shiftr_div_pow2 by lia. change (2 ^ 7) with 128.
    destruct (Z.ltb_spec x 128).
    + by rewrite (Z.div_small x) by lia.
    + assert (x / 128 = 1) as ->; [|done].
      symmetry. apply (Z.div_unique _ _ _ (x - 128)); lia.
  - change 128 with (2 ^ 7). rewrite <- Z.shiftl_mul_pow2 by lia.
    rewrite Z.shiftl_land, <- Z.ldiff_ones_r by lia.
    apply Z.bits_inj'. intros i Hi. rewrite !Z.land_spec, Z.ldiff_spec.
    change (1 ≪ 7) with (2 ^ 7). rewrite Z.pow2_bits_eqb by lia.
    destruct (Z.eqb_spec 7 i) as [<-|_]; [|by rewrite !andb_false_r].
    change (Z.testbit (Z.ones 7) 7) with false. cbn [negb]. by rewrite andb_true_r.
Qed.

Lemma last_nth {A} (l : list A) (d : A) : List.last l d = nth (pred (length l)) l d.
Proof.
  induction l as [|x l IH]; [done|]. destruct l as [|y l]; [done|].
  change (List.last (x :: y :: l) d) with (List.last (y :: l) d). by rewrite IH.
Qed.

Lemma nth_alter {A} (d : A) f (l : list A) i k :
  (k < length l)%nat -> nth i (alter f k l) d = if Nat.eqb i k then f (nth k l d) else nth i l d.
Proof.
  revert i k; induction l as [|x l IH]; intros i k Hk; [cbn in Hk; lia|].
  destruct k as [|k], i as [|i]; try done. cbn [length] in Hk.
  exact (IH i k ltac:(lia)).
Qed.

(** * Hint databases and tactics

    [cint] rewrites conversions that lose nothing; [bounds] holds the range
    lemmas. *)

Create HintDb bounds.
#[export] Hint Resolve b2z_bound u8_bound u32_bound u64_bound : bounds.

Ltac ints := unfold s8, s16, s32, s64 in *; rewrite ?u8_small, ?u32_small, ?u64_small by lia.

(** Splits the boolean test that guards the goal, keeping the equation. *)
Ltac split_if :=
  match goal with
  | |- context [if ?b then _ else _] => let E := fresh "E" in destruct b eqn:E
  end.

(** Evaluates the tests of the goal between integer literals and constants. *)
Ltac is_pos p :=
  lazymatch p with xH => idtac | xO ?q => is_pos q | xI ?q => is_pos q end.
Ltac is_lit a :=
  lazymatch a with
  | Z0 => idtac
  | Zpos ?p => is_pos p
  | Zneg ?p => is_pos p
  | _ => is_const a
  end.
Ltac eqbs :=
  repeat match goal with
  | |- context [?a =? ?b] =>
      is_lit a; is_lit b;
      let r := eval vm_compute in (a =? b) in
      lazymatch r with
      | true => change (a =? b) with true
      | false => change (a =? b) with false
      end
  end; cbn [andb orb negb]; cbv iota.
