(* ===== verification/Leb128.v ===== *)
(** Varints: base-128 digits, shared by the two programs that use them (the
    protocol buffers of nanopb and the tables and logs of leveldb).

    [leb128] is the reference definition; nothing here is a translation of
    code. *)

From S2P Require Import Prelude.
Open Scope Z_scope.

(** * Reference encodings *)

(** Base-128 digits, least significant first, the continuation bit on all but
    the last. *)
Fixpoint leb128 (n : nat) (v : Z) : list byte :=
  match n with
  | O => []
  | S n => if v <? 128 then [z2b v] else z2b (v mod 128 + 128) :: leb128 n (v / 128)
  end.

Definition varint (v : Z) : list byte := leb128 10 v.

Lemma varint_small v : v <= 127 -> varint v = [z2b v].
Proof. intros H. unfold varint. cbn [leb128]. by rewrite (proj2 (Z.ltb_lt _ _)) by lia. Qed.

Lemma varint_cons v : 128 <= v -> varint v = z2b (v mod 128 + 128) :: leb128 9 (v / 128).
Proof.
  intros H. change (varint v) with
    (if v <? 128 then [z2b v] else z2b (v mod 128 + 128) :: leb128 9 (v / 128)).
  by rewrite (proj2 (Z.ltb_ge _ _)) by lia.
Qed.

Lemma length_leb128 n v : (length (leb128 n v) <= n)%nat.
Proof.
  revert v; induction n as [|n IH]; intros v; cbn [leb128]; [done|].
  destruct (v <? 128); cbn [length]; [lia|]. specialize (IH (v / 128)). lia.
Qed.

Lemma length_varint v : 1 <= Z.of_nat (length (varint v)) <= 10.
Proof.
  pose proof (length_leb128 10 v) as H. unfold varint in *. split; [|lia].
  cbn [leb128]. destruct (v <? 128); cbn [length]; lia.
Qed.

(** One digit of the varint loop. *)
Lemma digit_step_w w result v bitpos :
  0 <= bitpos -> 0 <= result < 2 ^ bitpos -> 0 <= v ->
  result + v * 2 ^ bitpos < 2 ^ w ->
  Z.lor result (Z.shiftl (v mod 128) bitpos mod 2 ^ w) = result + v mod 128 * 2 ^ bitpos /\
  result + v mod 128 * 2 ^ bitpos < 2 ^ (bitpos + 7).
Proof.
  intros Hb Hr Hv Hlt. assert (0 < 2 ^ bitpos) by (apply Z.pow_pos_nonneg; lia).
  pose proof (Z.mod_pos_bound v 128 ltac:(lia)).
  pose proof (Z.mod_le v 128 Hv ltac:(lia)).
  rewrite Z.shiftl_mul_pow2, Z.mod_small by nia. rewrite lor_add by lia.
  split; [done|]. rewrite Z.pow_add_r by lia. nia.
Qed.

Lemma digit_step result v bitpos :
  0 <= bitpos -> 0 <= result < 2 ^ bitpos -> 0 <= v ->
  result + v * 2 ^ bitpos < 2 ^ 64 ->
  Z.lor result (u64 (Z.shiftl (v mod 128) bitpos)) = result + v mod 128 * 2 ^ bitpos /\
  result + v mod 128 * 2 ^ bitpos < 2 ^ (bitpos + 7).
Proof. apply digit_step_w. Qed.
