(* ===== verification/CMem.v ===== *)
(** The C machine the library runs on: a flat byte memory, a malloc heap, and
    the error monad [M] in which every stateful function of the model lives.

    A run either returns ([Ok]) or stops ([Fault]) where the C program would
    have undefined behaviour: an access to unmapped memory, a call of [free] or
    [realloc] on something that is not a live block, a call through a null
    function pointer.  [OutOfFuel] is the model's own fault; the theorems that
    conclude [wp] exclude every fault, this one included. *)

From S2P Require Import Prelude.
Open Scope Z_scope.

(** * State and faults *)

Inductive fault : Type :=
| OutOfFuel
| MemFault (a : Z)
| BadFree (a : Z)
| NullCall
| DivByZero
| BadIndex (i : Z)
| BadDescriptor (a : Z).

(** [w_mem]: the mapped bytes by address.  [w_heap]: the live malloc blocks,
    base address to size in bytes. *)
Record world : Type := mk_world {
  w_mem : gmap Z byte;
  w_heap : gmap Z Z;
}.

Inductive outcome (A : Type) : Type :=
| Ok (a : A) (w : world)
| Fault (f : fault).
Arguments Ok {A} a w.
Arguments Fault {A} f.

Definition M (A : Type) : Type := world -> outcome A.

#[export] Instance M_ret : MRet M := fun A a w => Ok a w.
#[export] Instance M_bind : MBind M := fun A B k m w =>
  match m w with Ok a w' => k a w' | Fault f => Fault f end.

Definition stop {A : Type} (f : fault) : M A := fun _ => Fault f.

(** * Memory *)

(** Total update and partial read of a run of bytes. *)
Fixpoint mem_write (m : gmap Z byte) (a : Z) (bs : list byte) : gmap Z byte :=
  match bs with
  | [] => m
  | b :: bs => mem_write (<[a := b]> m) (a + 1) bs
  end.

Fixpoint mem_erase (m : gmap Z byte) (a : Z) (n : nat) : gmap Z byte :=
  match n with
  | O => m
  | S n => mem_erase (delete a m) (a + 1) n
  end.

Fixpoint mem_read (m : gmap Z byte) (a : Z) (n : nat) : option (list byte) :=
  match n with
  | O => Some []
  | S n => b ← m !! a; bs ← mem_read m (a + 1) n; Some (b :: bs)
  end.

Definition load8 (a : Z) : M byte := fun w =>
  match w_mem w !! a with Some b => Ok b w | None => Fault (MemFault a) end.

Definition store8 (a : Z) (b : byte) : M unit := fun w =>
  match w_mem w !! a with
  | Some _ => Ok tt (mk_world (<[a := b]> (w_mem w)) (w_heap w))
  | None => Fault (MemFault a)
  end.

Fixpoint load_bytes (a : Z) (n : nat) : M (list byte) :=
  match n with
  | O => mret []
  | S n => b ← load8 a; bs ← load_bytes (a + 1) n; mret (b :: bs)
  end.

Fixpoint store_bytes (a : Z) (bs : list byte) : M unit :=
  match bs with
  | [] => mret tt
  | b :: bs => store8 a b;; store_bytes (a + 1) bs
  end.

(** The loop [for (i = 0; i < n; i++) dst[i] = src[i]]: byte by byte, upwards,
    so overlapping regions behave as the loop does. *)
Fixpoint copy_bytes (dst src : Z) (n : nat) : M unit :=
  match n with
  | O => mret tt
  | S n => b ← load8 src; store8 dst b;; copy_bytes (dst + 1) (src + 1) n
  end.

(** [memset]. *)
Definition memset (a : Z) (b : byte) (n : Z) : M unit :=
  store_bytes a (replicate (Z.to_nat n) b).

(** Integers and pointers in memory: little-endian, pointers of 8 bytes. *)
Definition load_uint (n : nat) (a : Z) : M Z :=
  bs ← load_bytes a n; mret (le_val bs).
Definition store_uint (n : nat) (a v : Z) : M unit := store_bytes a (le_bytes n v).
Definition load_ptr (a : Z) : M Z := load_uint 8 a.
Definition store_ptr (a p : Z) : M unit := store_uint 8 a p.

(** * Heap and stack *)

(** The C library's allocator and the placement of addressable locals are not
    code of the repository: they are a parameter.  [malloc w n] is [None] when
    the allocation fails, else the address and the (indeterminate) contents of
    the new block; [stack_slot w n] is where an [n]-byte local lives, with its
    initial contents. *)
Class Libc : Type := {
  malloc : world -> Z -> option (Z * list byte);
  stack_slot : world -> Z -> Z;
}.

Definition unmapped (m : gmap Z byte) (a n : Z) : Prop :=
  forall x, a <= x < a + n -> m !! x = None.

(** What the C standard says of [malloc] and of automatic storage: storage is
    non-null, of the asked size, and overlaps no live object. *)
Class LibcOk (L : Libc) : Prop := {
  malloc_spec : forall w n a bs, 0 < n -> malloc w n = Some (a, bs) ->
    0 < a /\ a + n <= 2 ^ 64 /\ Z.of_nat (length bs) = n /\
    unmapped (w_mem w) a n /\ w_heap w !! a = None;
  stack_slot_spec : forall w n, 0 < n ->
    0 < stack_slot w n /\ unmapped (w_mem w) (stack_slot w n) n;
}.

Definition map_block (w : world) (a : Z) (bs : list byte) : world :=
  mk_world (mem_write (w_mem w) a bs)
           (<[a := Z.of_nat (length bs)]> (w_heap w)).

Definition unmap_block (w : world) (a n : Z) : world :=
  mk_world (mem_erase (w_mem w) a (Z.to_nat n)) (delete a (w_heap w)).

Section Alloc.
Context `{Libc}.

(** [free(p)]. *)
Definition c_free (p : Z) : M unit := fun w =>
  if p =? 0 then Ok tt w
  else match w_heap w !! p with
       | Some n => Ok tt (unmap_block w p n)
       | None => Fault (BadFree p)
       end.

(** [realloc(p, n)] with [n > 0]: 0 on failure, and then the old block
    stays. *)
Definition c_realloc (p n : Z) : M Z := fun w =>
  if p =? 0 then
    match malloc w n with
    | Some (a, bs) => Ok a (map_block w a bs)
    | None => Ok 0 w
    end
  else
    match w_heap w !! p with
    | None => Fault (BadFree p)
    | Some s =>
        let old := default [] (mem_read (w_mem w) p (Z.to_nat s)) in
        let w1 := unmap_block w p s in
        match malloc w1 n with
        | Some (a, bs) =>
            Ok a (map_block w1 a (take (length bs) old ++ drop (length old) bs))
        | None => Ok 0 w
        end
    end.

(** An addressable local of [length init] bytes, live during [k]. *)
Definition with_local {A : Type} (init : list byte) (k : Z -> M A) : M A := fun w =>
  let n := Z.of_nat (length init) in
  let a := stack_slot w n in
  match k a (mk_world (mem_write (w_mem w) a init) (w_heap w)) with
  | Ok r w' => Ok r (mk_world (mem_erase (w_mem w') a (length init)) (w_heap w'))
  | Fault f => Fault f
  end.
End Alloc.

(** * Total-correctness weakest precondition *)

Definition wp {A : Type} (m : M A) (w : world) (Q : A -> world -> Prop) : Prop :=
  match m w with Ok a w' => Q a w' | Fault _ => False end.

(** [w'] is [w] except for the contents of the addresses [P]. *)
Record frame (P : Z -> Prop) (w w' : world) : Prop := {
  frame_heap : w_heap w' = w_heap w;
  frame_dom : forall x, is_Some (w_mem w' !! x) <-> is_Some (w_mem w !! x);
  frame_same : forall x, ~ P x -> w_mem w' !! x = w_mem w !! x;
}.

Definition within (a n : Z) (x : Z) : Prop := a <= x < a + n.

Definition mapped (m : gmap Z byte) (a n : Z) : Prop :=
  forall x, within a n x -> is_Some (m !! x).

Definition set_mem (w : world) (m : gmap Z byte) : world := mk_world m (w_heap w).

(** * Rules of [wp] *)

Lemma wp_ret {A} (a : A) w Q : Q a w -> wp (mret a) w Q.
Proof. done. Qed.

Lemma wp_bind {A B} (m : M A) (k : A -> M B) w Q :
  wp m w (fun a w' => wp (k a) w' Q) -> wp (m ≫= k) w Q.
Proof. unfold wp, mbind, M_bind. by destruct (m w). Qed.

Lemma wp_mono {A} (m : M A) w (Q Q' : A -> world -> Prop) :
  wp m w Q -> (forall a w', Q a w' -> Q' a w') -> wp m w Q'.
Proof. unfold wp. destruct (m w); eauto. Qed.

Lemma wp_eq {A} (m : M A) w a w' (Q : A -> world -> Prop) :
  m w = Ok a w' -> Q a w' -> wp m w Q.
Proof. unfold wp. by intros ->. Qed.

Lemma wp_inv {A} (m : M A) w (Q : A -> world -> Prop) :
  wp m w Q -> exists a w', m w = Ok a w' /\ Q a w'.
Proof. unfold wp. destruct (m w); naive_solver. Qed.

Lemma bind_eq {A B} (m : M A) (k : A -> M B) w a w' :
  m w = Ok a w' -> (m ≫= k) w = k a w'.
Proof. unfold mbind, M_bind. by intros ->. Qed.

Lemma bind_inv {A B} (m : M A) (k : A -> M B) w b w' :
  (m ≫= k) w = Ok b w' -> exists a w1, m w = Ok a w1 /\ k a w1 = Ok b w'.
Proof. unfold mbind, M_bind. destruct (m w); naive_solver. Qed.

Lemma ret_inv {A} (a b : A) w w' : (mret a : M A) w = Ok b w' -> a = b /\ w = w'.
Proof. unfold mret, M_ret. naive_solver. Qed.

(** * Memory lemmas *)

Lemma lookup_mem_write m a bs x :
  mem_write m a bs !! x =
    if decide (a <= x < a + Z.of_nat (length bs)) then bs !! Z.to_nat (x - a) else m !! x.
Proof.
  revert m a; induction bs as [|b bs IH]; intros m a; cbn [mem_write length].
  { case_decide; [lia | done]. }
  rewrite IH. repeat case_decide; try lia; try done.
  - replace (Z.to_nat (x - a)) with (S (Z.to_nat (x - (a + 1)))) by lia. done.
  - assert (x = a) as -> by lia. rewrite lookup_insert_eq.
    by replace (Z.to_nat (a - a)) with 0%nat by lia.
  - rewrite lookup_insert_ne by lia. done.
Qed.

Lemma lookup_mem_erase m a n x :
  mem_erase m a n !! x = if decide (a <= x < a + Z.of_nat n) then None else m !! x.
Proof.
  revert m a; induction n as [|n IH]; intros m a; cbn [mem_erase].
  { case_decide; [lia | done]. }
  rewrite IH. repeat case_decide; try lia; try done.
  - assert (x = a) as -> by lia. by rewrite lookup_delete_eq.
  - rewrite lookup_delete_ne by lia. done.
Qed.

Lemma mem_read_Some m a n bs :
  mem_read m a n = Some bs <->
  length bs = n /\ forall i : nat, (i < n)%nat -> m !! (a + Z.of_nat i) = bs !! i.
Proof.
  revert a bs; induction n as [|n IH]; intros a bs; cbn [mem_read].
  { split; [intros [= <-]; split; [done | lia] |]. intros [H _].
    by apply nil_length_inv in H as ->. }
  split.
  - intros H. destruct (m !! a) as [b|] eqn:Ea; [|done]. cbn in H.
    destruct (mem_read m (a + 1) n) as [bs'|] eqn:Er; [|done]. cbn in H.
    injection H as <-. apply IH in Er as [Hl Hi]. cbn [length]. split; [lia|].
    intros [|i] Hlt; cbn [lookup list_lookup].
    + by replace (a + Z.of_nat 0) with a by lia.
    + rewrite <- Hi by lia. f_equal. lia.
  - intros [Hl Hi]. destruct bs as [|b bs]; [done|].
    pose proof (Hi 0%nat ltac:(lia)) as H0.
    replace (a + Z.of_nat 0) with a in H0 by lia. rewrite H0. cbn.
    rewrite (proj2 (IH (a + 1) bs)); [done|].
    split; [cbn in Hl; lia|]. intros i Hlt.
    specialize (Hi (S i) ltac:(lia)). change (m !! (a + Z.of_nat (S i)) = bs !! i) in Hi.
    rewrite <- Hi. f_equal. lia.
Qed.

Lemma mem_read_length m a n bs : mem_read m a n = Some bs -> length bs = n.
Proof. intros H. by apply mem_read_Some in H as [? _]. Qed.

Lemma mapped_read m a n :
  mapped m a (Z.of_nat n) -> exists bs, mem_read m a n = Some bs /\ length bs = n.
Proof.
  revert a; induction n as [|n IH]; intros a Hm; cbn [mem_read].
  { by exists []. }
  destruct (Hm a) as [b ->]; [unfold within; lia|].
  destruct (IH (a + 1)) as (bs & -> & Hl).
  { intros x Hx. apply Hm. unfold within in *; lia. }
  exists (b :: bs). cbn. by rewrite Hl.
Qed.

Lemma mem_read_agree m m' a n :
  (forall x, within a (Z.of_nat n) x -> m' !! x = m !! x) ->
  mem_read m' a n = mem_read m a n.
Proof.
  revert a; induction n as [|n IH]; intros a H; cbn [mem_read]; [done|].
  rewrite (H a) by (unfold within; lia).
  rewrite IH; [done|]. intros x Hx. apply H. unfold within in *; lia.
Qed.

Lemma mem_read_write_eq m a bs : mem_read (mem_write m a bs) a (length bs) = Some bs.
Proof.
  apply mem_read_Some. split; [done|]. intros i Hi.
  rewrite lookup_mem_write. rewrite decide_True by lia. f_equal. lia.
Qed.

Lemma mem_read_write_ne m a bs b n :
  b + Z.of_nat n <= a \/ a + Z.of_nat (length bs) <= b ->
  mem_read (mem_write m a bs) b n = mem_read m b n.
Proof.
  intros H. apply mem_read_agree. intros x Hx. rewrite lookup_mem_write.
  rewrite decide_False; [done | unfold within in *; lia].
Qed.

Lemma mem_write_app m a bs1 bs2 :
  mem_write m a (bs1 ++ bs2) = mem_write (mem_write m a bs1) (a + Z.of_nat (length bs1)) bs2.
Proof.
  revert m a; induction bs1 as [|b bs1 IH]; intros m a; cbn [mem_write app length].
  { by replace (a + Z.of_nat 0) with a by lia. }
  rewrite IH. f_equal. lia.
Qed.

Lemma mapped_write m a bs b n : mapped m b n -> mapped (mem_write m a bs) b n.
Proof.
  intros H x Hx. rewrite lookup_mem_write. case_decide; [|by apply H].
  apply lookup_lt_is_Some. lia.
Qed.

Lemma mapped_sub m a n b k : mapped m a n -> a <= b -> b + k <= a + n -> mapped m b k.
Proof. intros H H1 H2 x Hx. apply H. unfold within in *; lia. Qed.

(** * Memory operations of [M] *)

Lemma load_bytes_eq a n bs w :
  mem_read (w_mem w) a n = Some bs -> load_bytes a n w = Ok bs w.
Proof.
  revert a bs; induction n as [|n IH]; intros a bs H; cbn [mem_read load_bytes] in *.
  { by injection H as <-. }
  destruct (w_mem w !! a) as [b|] eqn:Ea; [|done]. cbn in H.
  destruct (mem_read (w_mem w) (a + 1) n) as [bs'|] eqn:Er; [|done].
  injection H as <-.
  rewrite (bind_eq _ _ _ b w) by (unfold load8; by rewrite Ea).
  rewrite (bind_eq _ _ _ bs' w) by (by apply IH). done.
Qed.

Lemma load_bytes_inv a n bs w w' :
  load_bytes a n w = Ok bs w' -> w' = w /\ mem_read (w_mem w) a n = Some bs.
Proof.
  revert a bs w'; induction n as [|n IH]; intros a bs w' H; cbn [mem_read load_bytes] in *.
  { apply ret_inv in H as [-> ->]. done. }
  apply bind_inv in H as (b & w1 & H1 & H). unfold load8 in H1.
  destruct (w_mem w !! a) as [b'|]; [|done]. injection H1 as -> <-.
  apply bind_inv in H as (bs' & w2 & H2 & H). apply IH in H2 as [-> ->].
  apply ret_inv in H as [<- <-]. done.
Qed.

Lemma store_bytes_eq a bs w :
  mapped (w_mem w) a (Z.of_nat (length bs)) ->
  store_bytes a bs w = Ok tt (set_mem w (mem_write (w_mem w) a bs)).
Proof.
  revert a w; induction bs as [|b bs IH]; intros a w H; cbn [store_bytes mem_write].
  { by destruct w. }
  destruct (H a) as [b0 Hb]; [unfold within; cbn; lia|].
  erewrite bind_eq by (unfold store8; rewrite Hb; done).
  rewrite IH; [done|]. cbn. intros x Hx.
  rewrite lookup_insert. case_decide; [done|]. apply H. unfold within in *; cbn; lia.
Qed.

Lemma store_bytes_inv a bs w w' :
  store_bytes a bs w = Ok tt w' ->
  mapped (w_mem w) a (Z.of_nat (length bs)) /\ w' = set_mem w (mem_write (w_mem w) a bs).
Proof.
  intros H. enough (mapped (w_mem w) a (Z.of_nat (length bs))) as Hm.
  { split; [done|]. rewrite store_bytes_eq in H by done. by injection H as <-. }
  revert a w H; induction bs as [|b bs IH]; intros a w H; cbn [store_bytes] in *.
  { intros x Hx. unfold within in Hx; cbn in Hx; lia. }
  apply bind_inv in H as ([] & w1 & H1 & H). unfold store8 in H1.
  destruct (w_mem w !! a) eqn:Ea; [|done]. injection H1 as <-.
  apply IH in H. cbn in H. intros x Hx.
  destruct (decide (x = a)) as [->|Hne]; [by eexists|].
  specialize (H x). rewrite lookup_insert_ne in H by done. apply H.
  unfold within in *; cbn in *; lia.
Qed.

Lemma wp_load_bytes a n w Q :
  mapped (w_mem w) a (Z.of_nat n) ->
  (forall bs, length bs = n -> mem_read (w_mem w) a n = Some bs -> Q bs w) ->
  wp (load_bytes a n) w Q.
Proof.
  intros Hm HQ. destruct (mapped_read _ _ _ Hm) as (bs & Hr & Hl).
  eapply wp_eq; [by apply load_bytes_eq|]. by apply HQ.
Qed.

Lemma wp_store_bytes a bs w Q :
  mapped (w_mem w) a (Z.of_nat (length bs)) ->
  Q tt (set_mem w (mem_write (w_mem w) a bs)) ->
  wp (store_bytes a bs) w Q.
Proof. intros Hm HQ. eapply wp_eq; [by apply store_bytes_eq|done]. Qed.

Lemma load_uint_eq n a bs w :
  mem_read (w_mem w) a n = Some bs -> load_uint n a w = Ok (le_val bs) w.
Proof. intros H. unfold load_uint. by erewrite bind_eq by (by apply load_bytes_eq). Qed.

Lemma load_uint_inv n a v w w' :
  load_uint n a w = Ok v w' ->
  w' = w /\ exists bs, mem_read (w_mem w) a n = Some bs /\ v = le_val bs.
Proof.
  unfold load_uint. intros (bs & w1 & H1 & H)%bind_inv.
  apply load_bytes_inv in H1 as [-> Hr]. apply ret_inv in H as [<- <-]. eauto.
Qed.

Lemma wp_load_uint n a w Q :
  mapped (w_mem w) a (Z.of_nat n) ->
  (forall v, 0 <= v < 256 ^ Z.of_nat n -> Q v w) ->
  wp (load_uint n a) w Q.
Proof.
  intros Hm HQ. apply wp_bind, wp_load_bytes; [done|]. intros bs Hl Hr.
  apply wp_ret, HQ. rewrite <- Hl. apply le_val_bound.
Qed.

(** [copy_bytes] between regions that do not overlap moves the source bytes. *)
Lemma copy_bytes_eq dst src bs n w :
  mem_read (w_mem w) src n = Some bs ->
  mapped (w_mem w) dst (Z.of_nat n) ->
  dst + Z.of_nat n <= src \/ src + Z.of_nat n <= dst ->
  copy_bytes dst src n w = Ok tt (set_mem w (mem_write (w_mem w) dst bs)).
Proof.
  revert dst src bs w; induction n as [|n IH]; intros dst src bs w Hr Hm Hd.
  { cbn in Hr. injection Hr as <-. by destruct w. }
  cbn [copy_bytes mem_read] in *.
  destruct (w_mem w !! src) as [b|] eqn:Eb; [|done]. cbn in Hr.
  destruct (mem_read (w_mem w) (src + 1) n) as [bs'|] eqn:Er; [|done].
  injection Hr as <-.
  erewrite bind_eq by (unfold load8; rewrite Eb; done).
  destruct (Hm dst) as [b0 Hb0]; [unfold within; lia|].
  erewrite bind_eq by (unfold store8; rewrite Hb0; done).
  rewrite (IH _ _ bs'); [done | | | lia].
  - cbn. rewrite <- Er. apply mem_read_agree. intros x Hx.
    rewrite lookup_insert_ne; [done | unfold within in *; lia].
  - cbn. intros x Hx. rewrite lookup_insert. case_decide; [done|].
    apply Hm. unfold within in *; lia.
Qed.

(** * Frames *)

Lemma frame_refl P w : frame P w w.
Proof. by split. Qed.

Lemma frame_trans P w1 w2 w3 : frame P w1 w2 -> frame P w2 w3 -> frame P w1 w3.
Proof.
  intros [H1 D1 S1] [H2 D2 S2]. split.
  - by rewrite H2.
  - intros x. by rewrite D2.
  - intros x Hx. by rewrite S2, S1.
Qed.

#[export] Instance frame_preorder P : PreOrder (frame P).
Proof. split; [exact (frame_refl P) | exact (frame_trans P)]. Qed.

Lemma frame_mono (P P' : Z -> Prop) w w' :
  (forall x, P x -> P' x) -> frame P w w' -> frame P' w w'.
Proof. intros HP [Hh Hd Hs]. split; [done | done |]. intros x Hx. apply Hs. auto. Qed.

Lemma frame_mapped P w w' a n :
  frame P w w' -> mapped (w_mem w) a n -> mapped (w_mem w') a n.
Proof. intros [_ D _] Hm x Hx. by apply D, Hm. Qed.

Lemma frame_read P w w' a n :
  frame P w w' -> (forall x, within a (Z.of_nat n) x -> ~ P x) ->
  mem_read (w_mem w') a n = mem_read (w_mem w) a n.
Proof. intros [_ _ S] Hn. apply mem_read_agree. eauto. Qed.

Lemma frame_write (P : Z -> Prop) w a bs :
  mapped (w_mem w) a (Z.of_nat (length bs)) ->
  (forall x, within a (Z.of_nat (length bs)) x -> P x) ->
  frame P w (set_mem w (mem_write (w_mem w) a bs)).
Proof.
  intros Hm HP. split; [done | |]; cbn; intros x.
  - rewrite lookup_mem_write. case_decide as Hd; [|done].
    split; intros _; [by apply Hm|]. apply lookup_lt_is_Some. lia.
  - intros Hx. rewrite lookup_mem_write, decide_False; [done|].
    intros Hd. by apply Hx, HP.
Qed.

Lemma wp_store_frame (P : Z -> Prop) a bs w Q :
  mapped (w_mem w) a (Z.of_nat (length bs)) ->
  (forall x, within a (Z.of_nat (length bs)) x -> P x) ->
  (forall w', frame P w w' -> Q tt w') ->
  wp (store_bytes a bs) w Q.
Proof. intros Hm HP HQ. apply wp_store_bytes; [done|]. by apply HQ, frame_write. Qed.

Lemma wp_store_uint (P : Z -> Prop) n a v w Q :
  mapped (w_mem w) a (Z.of_nat n) ->
  (forall x, within a (Z.of_nat n) x -> P x) ->
  (forall w', frame P w w' -> Q tt w') ->
  wp (store_uint n a v) w Q.
Proof.
  intros Hm HP HQ. unfold store_uint.
  apply (wp_store_frame P); rewrite ?length_le_bytes; auto.
Qed.

Lemma wp_memset (P : Z -> Prop) a b n w Q :
  0 <= n -> mapped (w_mem w) a n -> (forall x, within a n x -> P x) ->
  (forall w', frame P w w' -> Q tt w') ->
  wp (memset a b n) w Q.
Proof.
  intros Hn Hm HP HQ. unfold memset.
  apply (wp_store_frame P); rewrite ?length_replicate, ?Z2Nat.id; auto.
Qed.

Lemma wp_copy_bytes (P : Z -> Prop) dst src n w Q :
  mapped (w_mem w) src (Z.of_nat n) -> mapped (w_mem w) dst (Z.of_nat n) ->
  (forall x, within dst (Z.of_nat n) x -> P x) ->
  (forall w', frame P w w' -> Q tt w') ->
  wp (copy_bytes dst src n) w Q.
Proof.
  revert dst src w; induction n as [|n IH]; intros dst src w Hs Hd HP HQ; cbn [copy_bytes].
  { apply wp_ret, HQ, frame_refl. }
  destruct (Hs src) as [b Hb]; [unfold within; lia|].
  destruct (Hd dst) as [b0 Hb0]; [unfold within; lia|].
  apply wp_bind. eapply wp_eq; [unfold load8; rewrite Hb; done|].
  apply wp_bind. eapply wp_eq; [unfold store8; rewrite Hb0; done|].
  assert (frame P w (mk_world (<[dst := b]> (w_mem w)) (w_heap w))) as Hf.
  { apply (frame_write P w dst [b]); cbn [length].
    - intros x Hx. apply Hd. unfold within in *; lia.
    - intros x Hx. apply HP. unfold within in *; lia. }
  apply IH.
  - eapply frame_mapped; [done|]. eapply mapped_sub; [exact Hs | lia | lia].
  - eapply frame_mapped; [done|]. eapply mapped_sub; [exact Hd | lia | lia].
  - intros x Hx. apply HP. unfold within in *; lia.
  - intros w' Hw. apply HQ. by etrans.
Qed.

(** [keeps P m w]: [m] runs from [w] without a fault and changes nothing but the
    contents of [P]. *)
Definition keeps {A} (P : Z -> Prop) (m : M A) (w : world) : Prop :=
  wp m w (fun _ w' => frame P w w').

Lemma keeps_ret {A} P (a : A) w : keeps P (mret a) w.
Proof. apply frame_refl. Qed.

Lemma keeps_bind {A B} P (m : M A) (k : A -> M B) w :
  keeps P m w -> (forall a w', frame P w w' -> keeps P (k a) w') -> keeps P (m ≫= k) w.
Proof.
  intros Hm Hk. apply wp_bind. eapply wp_mono; [exact Hm|]. intros a w' Hf.
  eapply wp_mono; [exact (Hk a w' Hf)|]. intros b w'' Hf'. exact (frame_trans _ _ _ _ Hf Hf').
Qed.

(** The same with a fact [R] about the value. *)
Lemma keeps_bind_R {A B} (R : A -> Prop) P (m : M A) (k : A -> M B) w :
  wp m w (fun a w' => R a /\ frame P w w') ->
  (forall a w', R a -> frame P w w' -> keeps P (k a) w') -> keeps P (m ≫= k) w.
Proof.
  intros Hm Hk. apply wp_bind. eapply wp_mono; [exact Hm|]. intros a w' [HR Hf].
  eapply wp_mono; [exact (Hk a w' HR Hf)|]. intros b w'' Hf'. exact (frame_trans _ _ _ _ Hf Hf').
Qed.

(** After an operation that changes nothing. *)
Lemma keeps_load_uint {A} P n a w (k : Z -> M A) :
  mapped (w_mem w) a (Z.of_nat n) ->
  (forall v, 0 <= v < 256 ^ Z.of_nat n -> keeps P (k v) w) ->
  keeps P (load_uint n a ≫= k) w.
Proof. intros Hm Hk. apply wp_bind, wp_load_uint; [done|]. intros v Hv. by apply Hk. Qed.

Lemma keeps_store_uint (P : Z -> Prop) n a v w :
  mapped (w_mem w) a (Z.of_nat n) -> (forall x, within a (Z.of_nat n) x -> P x) ->
  keeps P (store_uint n a v) w.
Proof. intros Hm HP. apply (wp_store_uint P); auto. Qed.

Lemma keeps_store8 (P : Z -> Prop) a b w :
  mapped (w_mem w) a 1 -> P a -> keeps P (store8 a b) w.
Proof.
  intros Hm HP. destruct (Hm a) as [b0 Hb0]; [unfold within; lia|].
  unfold keeps, wp, store8. rewrite Hb0.
  apply (frame_write P w a [b]); cbn [length].
  - intros x Hx. by apply Hm.
  - intros x Hx. unfold within in Hx. by replace x with a by (cbn in Hx; lia).
Qed.

Lemma keeps_memset (P : Z -> Prop) a b n w :
  0 <= n -> mapped (w_mem w) a n -> (forall x, within a n x -> P x) -> keeps P (memset a b n) w.
Proof. intros Hn Hm HP. by apply (wp_memset P). Qed.

Lemma keeps_mono {A} (P P' : Z -> Prop) (m : M A) w :
  (forall x, P x -> P' x) -> keeps P m w -> keeps P' m w.
Proof. intros HP Hm. eapply wp_mono; [exact Hm|]. intros a w' Hf. by eapply frame_mono. Qed.

(** A local: the body may also change the local's bytes; afterwards they are
    gone. *)
Lemma wp_with_local `{L : Libc} {HL : LibcOk L} {A} (P : Z -> Prop) init (k : Z -> M A) w
    (R : A -> Prop) :
  (0 < length init)%nat ->
  (forall a w1, w1 = mk_world (mem_write (w_mem w) a init) (w_heap w) ->
     unmapped (w_mem w) a (Z.of_nat (length init)) ->
     wp (k a) w1 (fun r w' =>
       R r /\ frame (fun x => P x \/ within a (Z.of_nat (length init)) x) w1 w')) ->
  wp (with_local init k) w (fun r w' => R r /\ frame P w w').
Proof.
  intros Hn Hk. unfold wp, with_local.
  set (n := Z.of_nat (length init)) in *. set (a := stack_slot w n).
  destruct (stack_slot_spec w n ltac:(lia)) as [_ Hu]. fold a in Hu.
  specialize (Hk a _ eq_refl Hu). unfold wp in Hk.
  destruct (k a _) as [r w'|f]; [|done]. destruct Hk as [HR [Hh Hd Hs]].
  split; [done|]. cbn in *. split; cbn; [done | |]; intros x; rewrite lookup_mem_erase.
  - case_decide as Hx.
    + by rewrite (Hu x Hx).
    + rewrite Hd, lookup_mem_write. fold n. by rewrite decide_False by done.
  - intros Hx. case_decide as Hxl.
    + by rewrite (Hu x Hxl).
    + rewrite Hs; [|tauto]. rewrite lookup_mem_write. fold n. by rewrite decide_False by done.
Qed.

Create HintDb frame.
#[export] Hint Resolve frame_refl : frame.

(** * A concrete C library

    A bump allocator with a budget: a new block or local lies above everything
    in use, its bytes are 0xA5, and an allocation fails when it would exceed the
    budget. *)

Definition above {A} (m : gmap Z A) (a : Z) : Z :=
  map_fold (fun k _ acc => Z.max (k + 1) acc) a m.

Lemma above_spec {A} (m : gmap Z A) a :
  a <= above m a /\ forall k, is_Some (m !! k) -> k < above m a.
Proof.
  unfold above. apply (map_fold_weak_ind (fun r m => a <= r /\ forall k, is_Some (m !! k) -> k < r)).
  - split; [lia|]. intros k. rewrite lookup_empty. by intros [].
  - intros i x m' r Hi [Ha Hk]. split; [lia|]. intros k.
    rewrite lookup_insert. case_decide; [subst; lia|]. intros Hs%Hk. lia.
Qed.

Definition round16 (a : Z) : Z := 16 * ((a + 15) / 16).

Definition bump_addr (w : world) : Z := round16 (above (w_heap w) (above (w_mem w) 4096)).

Definition heap_used (w : world) : Z := map_fold (fun _ n acc => n + acc) 0 (w_heap w).

#[local] Instance bump_libc (budget : Z) : Libc := {
  malloc w n :=
    let a := bump_addr w in
    if (heap_used w + n <=? budget) && (a + n <=? 2 ^ 64)
    then Some (a, replicate (Z.to_nat n) xa5) else None;
  stack_slot w n := bump_addr w;
}.

Lemma bump_addr_spec w :
  0 < bump_addr w /\ (forall n, unmapped (w_mem w) (bump_addr w) n) /\
  w_heap w !! bump_addr w = None.
Proof.
  unfold bump_addr, round16.
  destruct (above_spec (w_mem w) 4096) as [H1 H2].
  destruct (above_spec (w_heap w) (above (w_mem w) 4096)) as [H3 H4].
  set (b := above (w_heap w) (above (w_mem w) 4096)) in *.
  assert (b <= 16 * ((b + 15) / 16)).
  { pose proof (Z.div_mod (b + 15) 16 ltac:(lia)).
    pose proof (Z.mod_pos_bound (b + 15) 16 ltac:(lia)). lia. }
  split_and!; [lia | |].
  - intros n x Hx. apply eq_None_not_Some. intros Hs%H2. lia.
  - apply eq_None_not_Some. intros Hs%H4. lia.
Qed.

#[export] Instance bump_libc_ok budget : LibcOk (bump_libc budget).
Proof.
  split; cbn.
  - intros w n a bs Hn Hm. destruct (bump_addr_spec w) as (H1 & H2 & H3).
    destruct ((heap_used w + n <=? budget) && (bump_addr w + n <=? 2 ^ 64)) eqn:E; [|done].
    injection Hm as <- <-. rewrite length_replicate. split_and!; auto; lia.
  - intros w n Hn. destruct (bump_addr_spec w) as (H1 & H2 & H3). auto.
Qed.

(** * Worlds with given contents *)

Definition world_of (blocks : list (Z * list byte)) : world :=
  mk_world (foldr (fun '(a, bs) m => mem_write m a bs) ∅ blocks) ∅.

Definition covered (blocks : list (Z * list byte)) (a n : Z) : bool :=
  existsb (fun '(b, bs) => (b <=? a) && (a + n <=? b + Z.of_nat (length bs))) blocks.

Lemma mapped_world_of blocks a n :
  covered blocks a n = true -> mapped (w_mem (world_of blocks)) a n.
Proof.
  unfold world_of. cbn [w_mem]. induction blocks as [|[b bs] blocks IH]; cbn; [done|].
  intros [Hb|Hb]%orb_prop; [|apply mapped_write; auto].
  intros x Hx. rewrite lookup_mem_write. unfold within in Hx.
  rewrite decide_True by lia. apply lookup_lt_is_Some. lia.
Qed.

Definition apart (blocks : list (Z * list byte)) (a n : Z) : bool :=
  forallb (fun '(b, bs) => (a + n <=? b) || (b + Z.of_nat (length bs) <=? a)) blocks.

Lemma unmapped_world_of blocks a n :
  apart blocks a n = true -> unmapped (w_mem (world_of blocks)) a n.
Proof.
  unfold world_of. cbn [w_mem]. induction blocks as [|[b bs] blocks IH]; cbn.
  - intros _ x _. apply lookup_empty.
  - intros [Hb Ha]%andb_prop x Hx. rewrite lookup_mem_write.
    rewrite decide_False by lia. by apply IH.
Qed.

Lemma world_of_cons blocks a bs :
  apart blocks a (Z.of_nat (length bs)) = true ->
  w_mem (world_of blocks) ⊆ w_mem (world_of ((a, bs) :: blocks)).
Proof.
  intros Ha. apply map_subseteq_spec. intros x b Hx. unfold world_of; cbn [w_mem foldr].
  rewrite lookup_mem_write. case_decide as Hd; [|done].
  rewrite (unmapped_world_of _ _ _ Ha x Hd) in Hx. done.
Qed.
