(* ===== verification/PbTypes.v ===== *)
(** pb.h, pb_encode.h and pb_decode.h: the constants, the descriptor entry
    [pb_field_t], the two stream structs, and the code the library calls but
    does not contain (stream callbacks, field callbacks, extension handlers),
    which is a parameter.

    Configuration: the one the pods are built with, PB_FIELD_32BIT,
    PB_ENABLE_MALLOC and PB_NO_PACKED_STRUCTS, on an LP64 little-endian target
    (8-byte pointers and size_t, uint_fast8_t of 8 bits). *)

From S2P Require Import Prelude CMem.
Open Scope Z_scope.

(** * Field types *)

Definition PB_LTYPE_VARINT : Z := 0x00.
Definition PB_LTYPE_UVARINT : Z := 0x01.
Definition PB_LTYPE_SVARINT : Z := 0x02.
Definition PB_LTYPE_FIXED32 : Z := 0x03.
Definition PB_LTYPE_FIXED64 : Z := 0x04.
Definition PB_LTYPE_LAST_PACKABLE : Z := 0x04.
Definition PB_LTYPE_BYTES : Z := 0x05.
Definition PB_LTYPE_STRING : Z := 0x06.
Definition PB_LTYPE_SUBMESSAGE : Z := 0x07.
Definition PB_LTYPE_EXTENSION : Z := 0x08.
Definition PB_LTYPE_FIXED_LENGTH_BYTES : Z := 0x09.
Definition PB_LTYPE_MASK : Z := 0x0F.

Definition PB_HTYPE_REQUIRED : Z := 0x00.
Definition PB_HTYPE_OPTIONAL : Z := 0x10.
Definition PB_HTYPE_REPEATED : Z := 0x20.
Definition PB_HTYPE_ONEOF : Z := 0x30.
Definition PB_HTYPE_MASK : Z := 0x30.

Definition PB_ATYPE_STATIC : Z := 0x00.
Definition PB_ATYPE_POINTER : Z := 0x80.
Definition PB_ATYPE_CALLBACK : Z := 0x40.
Definition PB_ATYPE_MASK : Z := 0xC0.

Definition PB_ATYPE (x : Z) : Z := Z.land x PB_ATYPE_MASK.
Definition PB_HTYPE (x : Z) : Z := Z.land x PB_HTYPE_MASK.
Definition PB_LTYPE (x : Z) : Z := Z.land x PB_LTYPE_MASK.

(** [pb_size_t] is uint32_t. *)
Definition PB_SIZE_MAX : Z := 2 ^ 32 - 1.
Definition sizeof_pb_size_t : nat := 4.
Definition sizeof_ptr : Z := 8.

Definition PB_MAX_REQUIRED_FIELDS : Z := 64.

(** [struct pb_field_s].  [ptr] is an address: 0, or that of the submessage's
    descriptor array, or that of the field's default value. *)
Record pb_field_t : Type := mk_field {
  tag : Z;
  type : Z;
  data_offset : Z;
  size_offset : Z;
  data_size : Z;
  array_size : Z;
  ptr : Z;
}.

#[export] Instance pb_field_t_eq_dec : EqDecision pb_field_t.
Proof. solve_decision. Defined.

Definition PB_LAST_FIELD : pb_field_t := mk_field 0 0 0 0 0 0 0.

(** [pb_bytes_array_t]: the size, then the bytes, at this offset. *)
Definition offsetof_bytes : Z := 4.
Definition PB_BYTES_ARRAY_T_ALLOCSIZE (n : Z) : Z := u64 (n + offsetof_bytes).

Definition PB_WT_VARINT : Z := 0.
Definition PB_WT_64BIT : Z := 1.
Definition PB_WT_STRING : Z := 2.
Definition PB_WT_32BIT : Z := 5.

(** Offsets in [pb_callback_t], [pb_extension_t] and [pb_extension_type_t]. *)
Definition cb_funcs : Z := 0.
Definition cb_arg : Z := 8.
Definition ext_type : Z := 0.
Definition ext_dest : Z := 8.
Definition ext_next : Z := 16.
Definition ext_found : Z := 24.
Definition ext_type_decode : Z := 0.
Definition ext_type_encode : Z := 8.
Definition ext_type_arg : Z := 16.

(** * Streams

    [callback] is a function pointer: the library's own buffer function, or one
    of the application's, named by its address.  A null output callback marks a
    sizing stream. *)

Inductive icallback : Type := buf_read_cb | user_read_cb (f : Z).
Inductive ocallback : Type := null_cb | buf_write_cb | user_write_cb (f : Z).

#[export] Instance icallback_eq_dec : EqDecision icallback.
Proof. solve_decision. Defined.
#[export] Instance ocallback_eq_dec : EqDecision ocallback.
Proof. solve_decision. Defined.

Record pb_istream_t : Type := mk_istream {
  i_callback : icallback;
  i_state : Z;
  bytes_left : Z;
  i_errmsg : option string;
}.

Record pb_ostream_t : Type := mk_ostream {
  o_callback : ocallback;
  o_state : Z;
  max_size : Z;
  bytes_written : Z;
  o_errmsg : option string;
}.

Definition PB_OSTREAM_SIZING : pb_ostream_t := mk_ostream null_cb 0 0 0 None.

Definition set_i_state (s : pb_istream_t) (a : Z) : pb_istream_t :=
  mk_istream (i_callback s) a (bytes_left s) (i_errmsg s).
Definition set_bytes_left (s : pb_istream_t) (n : Z) : pb_istream_t :=
  mk_istream (i_callback s) (i_state s) n (i_errmsg s).
Definition set_i_errmsg (s : pb_istream_t) (e : option string) : pb_istream_t :=
  mk_istream (i_callback s) (i_state s) (bytes_left s) e.
Definition set_o_state (s : pb_ostream_t) (a : Z) : pb_ostream_t :=
  mk_ostream (o_callback s) a (max_size s) (bytes_written s) (o_errmsg s).
Definition set_bytes_written (s : pb_ostream_t) (n : Z) : pb_ostream_t :=
  mk_ostream (o_callback s) (o_state s) (max_size s) n (o_errmsg s).
Definition set_o_errmsg (s : pb_ostream_t) (e : option string) : pb_ostream_t :=
  mk_ostream (o_callback s) (o_state s) (max_size s) (bytes_written s) e.

(** PB_SET_ERROR: the first message stays. *)
Definition PB_SET_ERROR (old : option string) (msg : string) : option string :=
  match old with Some m => Some m | None => Some msg end.

(** PB_RETURN_ERROR: sets the message and returns false. *)
Definition i_error (s : pb_istream_t) (msg : string) : M (bool * pb_istream_t) :=
  mret (false, set_i_errmsg s (PB_SET_ERROR (i_errmsg s) msg)).
Definition o_error (s : pb_ostream_t) (msg : string) : M (bool * pb_ostream_t) :=
  mret (false, set_o_errmsg s (PB_SET_ERROR (o_errmsg s) msg)).

(** * Code outside the library

    [image p] is the descriptor array the program has at address [p].  A stream
    callback may change its own [state] and set an error message (pb_encode.h
    and pb_decode.h, rules 1 to 4); a field callback or an extension handler is
    handed the stream itself. *)
Class UserCode : Type := {
  image : Z -> option (list pb_field_t);
  user_read : Z -> pb_istream_t -> Z -> M (bool * list byte * Z * option string);
  user_write : Z -> pb_ostream_t -> list byte -> M (bool * Z * option string);
  user_decode : Z -> pb_istream_t -> pb_field_t -> Z -> M (bool * pb_istream_t);
  user_encode : Z -> pb_ostream_t -> pb_field_t -> Z -> M (bool * pb_ostream_t);
  ext_decode : Z -> pb_istream_t -> Z -> Z -> Z -> M (bool * pb_istream_t);
  ext_encode : Z -> pb_ostream_t -> Z -> M (bool * pb_ostream_t);
}.

(** [(const pb_field_t* )p]: reading a descriptor array through a pointer. *)
Definition get_fields `{UserCode} (p : Z) : M (list pb_field_t) :=
  match image p with Some fs => mret fs | None => stop (BadDescriptor p) end.

(** Early return: [s <-? m; k] runs [k] on the stream when [m] returned true,
    and returns false otherwise. *)
Declare Scope pb_scope.
Notation "s <-? m ; k" :=
  (m ≫= fun r => let '(ok, s) := r in if negb ok then mret (false, s) else k)
  (at level 20, m at level 100, k at level 200, right associativity) : pb_scope.
Open Scope pb_scope.

(** A program without callbacks, over a given image. *)
Definition no_callbacks (img : Z -> option (list pb_field_t)) : UserCode := {|
  image := img;
  user_read _ s _ := mret (false, [], i_state s, i_errmsg s);
  user_write _ s _ := mret (false, o_state s, o_errmsg s);
  user_decode _ s _ _ := mret (false, s);
  user_encode _ s _ _ := mret (false, s);
  ext_decode _ s _ _ _ := mret (false, s);
  ext_encode _ s _ := mret (false, s);
|}.
