(* ===== verification/FieldIter.v ===== *)
(** pb_common.c: the iterator over a message's descriptor array, which both the
    encoder and the decoder drive.

    Contents: the iterator struct and its three operations; the reference
    layout [field_offset] (where field [k] lies in the C struct, by summing the
    sizes before it); the invariant [iter_at]; and the theorems that [next]
    visits the fields in order with the reference offsets and wraps around, and
    that [find] is a search of the whole array from any starting position. *)

From S2P Require Import Prelude CMem PbTypes.
Open Scope Z_scope.

(** * The iterator

    [pos] is the index of the current entry of [start].  [fld] reads an entry;
    the index never passes the terminator ([iter_pos_bound]), so the default is
    never used. *)

Record pb_field_iter_t : Type := mk_iter {
  start : list pb_field_t;
  pos : nat;
  required_field_index : Z;
  dest_struct : Z;
  pData : Z;
  pSize : Z;
}.

Definition fld (fields : list pb_field_t) (k : nat) : pb_field_t :=
  nth k fields PB_LAST_FIELD.

Definition cur (iter : pb_field_iter_t) : pb_field_t := fld (start iter) (pos iter).

Definition set_pSize (iter : pb_field_iter_t) (a : Z) : pb_field_iter_t :=
  mk_iter (start iter) (pos iter) (required_field_index iter) (dest_struct iter)
          (pData iter) a.

Definition pb_field_iter_begin (fields : list pb_field_t) (dest : Z)
  : bool * pb_field_iter_t :=
  let pd := dest + data_offset (fld fields 0) in
  let iter := mk_iter fields 0 0 dest pd (pd + size_offset (fld fields 0)) in
  (negb (tag (fld fields 0) =? 0), iter).

(** The bytes field [prev] takes in the struct. *)
Definition prev_size (prev : pb_field_t) : Z :=
  if (PB_ATYPE (type prev) =? PB_ATYPE_STATIC) &&
     (PB_HTYPE (type prev) =? PB_HTYPE_REPEATED)
  then u64 (data_size prev * array_size prev)
  else if PB_ATYPE (type prev) =? PB_ATYPE_POINTER then sizeof_ptr
  else data_size prev.

Definition pb_field_iter_next (iter : pb_field_iter_t) : bool * pb_field_iter_t :=
  let prev_field := cur iter in
  if tag prev_field =? 0 then (false, iter)
  else
    let p := S (pos iter) in
    let new := fld (start iter) p in
    if tag new =? 0 then
      (false, snd (pb_field_iter_begin (start iter) (dest_struct iter)))
    else if (PB_HTYPE (type prev_field) =? PB_HTYPE_ONEOF) &&
            (PB_HTYPE (type new) =? PB_HTYPE_ONEOF) &&
            (data_offset new =? PB_SIZE_MAX)
    then
      (true, mk_iter (start iter) p (required_field_index iter) (dest_struct iter)
                     (pData iter) (pSize iter))
    else
      let req := if PB_HTYPE (type prev_field) =? PB_HTYPE_REQUIRED
                 then u32 (required_field_index iter + 1)
                 else required_field_index iter in
      let pd := pData iter + prev_size prev_field + data_offset new in
      (true, mk_iter (start iter) p req (dest_struct iter) pd (pd + size_offset new)).

(** The [do ... while (iter->pos != start)] of [pb_field_iter_find]; a round
    over the array takes [length] steps, which is the fuel. *)
Fixpoint find_loop (n : nat) (start_pos : nat) (iter : pb_field_iter_t) (t : Z)
  : bool * pb_field_iter_t :=
  if (tag (cur iter) =? t) && negb (PB_LTYPE (type (cur iter)) =? PB_LTYPE_EXTENSION)
  then (true, iter)
  else
    let iter' := snd (pb_field_iter_next iter) in
    if Nat.eqb (pos iter') start_pos then (false, iter')
    else match n with
         | O => (false, iter')
         | S n => find_loop n start_pos iter' t
         end.

Definition pb_field_iter_find (iter : pb_field_iter_t) (t : Z) : bool * pb_field_iter_t :=
  find_loop (length (start iter)) (pos iter) iter t.

(** * Reference layout *)

(** A descriptor array: entries with non-zero tags, then the terminator. *)
Definition wf_fields (fields : list pb_field_t) : Prop :=
  exists body, fields = body ++ [PB_LAST_FIELD] /\ Forall (fun f => tag f <> 0) body.

(** The executable form, with the bound on the length the iterator relies on. *)
Definition wf_fieldsb (fields : list pb_field_t) : bool :=
  (Z.of_nat (length fields) <=? 2 ^ 32) &&
  match rev fields with
  | f :: body => bool_decide (f = PB_LAST_FIELD) && forallb (fun f => negb (tag f =? 0)) body
  | [] => false
  end.

Definition nfields (fields : list pb_field_t) : nat := pred (length fields).

(** A later member of a oneof shares its predecessor's place. *)
Definition in_union (prev new : pb_field_t) : bool :=
  (PB_HTYPE (type prev) =? PB_HTYPE_ONEOF) && (PB_HTYPE (type new) =? PB_HTYPE_ONEOF) &&
  (data_offset new =? PB_SIZE_MAX).

(** Offset in the struct of the data of field [k]. *)
Fixpoint field_offset (fields : list pb_field_t) (k : nat) : Z :=
  match k with
  | O => data_offset (fld fields 0)
  | S j =>
      let off := field_offset fields j in
      if in_union (fld fields j) (fld fields k) then off
      else off + prev_size (fld fields j) + data_offset (fld fields k)
  end.

(** Offset of the count, has or which member of field [k]: the members of one
    oneof share the first member's. *)
Fixpoint size_offset_at (fields : list pb_field_t) (k : nat) : Z :=
  match k with
  | O => field_offset fields 0 + size_offset (fld fields 0)
  | S j =>
      if in_union (fld fields j) (fld fields k) then size_offset_at fields j
      else field_offset fields k + size_offset (fld fields k)
  end.

(** Number of required fields before field [k]. *)
Fixpoint required_before (fields : list pb_field_t) (k : nat) : Z :=
  match k with
  | O => 0
  | S j =>
      required_before fields j +
      (if PB_HTYPE (type (fld fields j)) =? PB_HTYPE_REQUIRED then 1 else 0)
  end.

(** The iterator stands at field [k] of [fields], for the struct at [dest]. *)
Definition iter_at (fields : list pb_field_t) (dest : Z) (k : nat) : pb_field_iter_t :=
  mk_iter fields k (required_before fields k) dest
          (dest + field_offset fields k) (dest + size_offset_at fields k).

(** [t] is the tag of a regular (not extension) field [k]. *)
Definition is_field (fields : list pb_field_t) (t : Z) (k : nat) : bool :=
  (tag (fld fields k) =? t) && negb (PB_LTYPE (type (fld fields k)) =? PB_LTYPE_EXTENSION).

(** The iterators a [do ... while (pb_field_iter_next(&iter))] loop sees, with
    the one it ends with; [k] bounds the rounds. *)
Fixpoint iter_walk (k : nat) (iter : pb_field_iter_t)
  : list pb_field_iter_t * pb_field_iter_t :=
  match k with
  | O => ([], iter)
  | S k =>
      let '(more, iter') := pb_field_iter_next iter in
      if more then let '(seen, last) := iter_walk k iter' in (iter :: seen, last)
      else ([iter], iter')
  end.

(** * Lemmas *)

Lemma wf_fieldsb_ok fields :
  wf_fieldsb fields = true -> wf_fields fields /\ Z.of_nat (length fields) <= 2 ^ 32.
Proof.
  unfold wf_fieldsb. intros [Hl H]%andb_prop. split; [|lia].
  destruct (rev fields) as [|f body] eqn:E; [done|].
  apply andb_prop in H as [Hf Hb]. apply bool_decide_eq_true in Hf as ->.
  exists (rev body). split.
  - rewrite <- (rev_involutive fields), E. done.
  - apply Forall_forall. intros x Hx. apply in_rev in Hx.
    rewrite forallb_forall in Hb. specialize (Hb x Hx). lia.
Qed.

Lemma fld_tag_nonzero fields k :
  wf_fields fields -> (k < nfields fields)%nat -> tag (fld fields k) <> 0.
Proof.
  intros (body & -> & Hb). unfold nfields, fld. rewrite length_app. cbn. intros Hk.
  rewrite app_nth1 by lia. rewrite Forall_forall in Hb. apply Hb.
  apply nth_In. lia.
Qed.

Lemma fld_end fields : wf_fields fields -> fld fields (nfields fields) = PB_LAST_FIELD.
Proof.
  intros (body & -> & _). unfold nfields, fld. rewrite length_app. cbn.
  rewrite app_nth2 by lia. by replace (_ - _)%nat with 0%nat by lia.
Qed.

Lemma nfields_lt_length fields : wf_fields fields -> (nfields fields < length fields)%nat.
Proof. intros (body & -> & _). unfold nfields. rewrite length_app. cbn. lia. Qed.

Lemma required_before_bound fields k : 0 <= required_before fields k <= Z.of_nat k.
Proof.
  induction k as [|k IH]; cbn [required_before]; [lia|].
  destruct (PB_HTYPE (type (fld fields k)) =? PB_HTYPE_REQUIRED); lia.
Qed.

Lemma begin_at fields dest :
  pb_field_iter_begin fields dest
  = (negb (tag (fld fields 0) =? 0), iter_at fields dest 0).
Proof.
  unfold pb_field_iter_begin, iter_at. cbn [required_before field_offset size_offset_at].
  by rewrite Z.add_assoc.
Qed.

Lemma cur_at fields dest k : cur (iter_at fields dest k) = fld fields k.
Proof. done. Qed.

Lemma pos_at fields dest k : pos (iter_at fields dest k) = k.
Proof. done. Qed.

Section Traverse.
Context (fields : list pb_field_t) (Hwf : wf_fields fields)
        (Hlen : Z.of_nat (length fields) <= 2 ^ 32).

Lemma next_at dest k :
  (k < nfields fields)%nat ->
  pb_field_iter_next (iter_at fields dest k) =
    if Nat.eqb (S k) (nfields fields) then (false, iter_at fields dest 0)
    else (true, iter_at fields dest (S k)).
Proof.
  intros Hk. unfold pb_field_iter_next. rewrite cur_at.
  cbn [start pos dest_struct pData pSize required_field_index iter_at].
  pose proof (fld_tag_nonzero _ _ Hwf Hk) as Ht.
  rewrite (proj2 (Z.eqb_neq _ _) Ht).
  destruct (Nat.eqb_spec (S k) (nfields fields)) as [E|E].
  - rewrite E, (fld_end _ Hwf). cbn [tag PB_LAST_FIELD]. by rewrite begin_at.
  - pose proof (fld_tag_nonzero _ (S k) Hwf ltac:(lia)) as Ht'.
    rewrite (proj2 (Z.eqb_neq _ _) Ht').
    pose proof (required_before_bound fields k).
    pose proof (nfields_lt_length _ Hwf).
    unfold iter_at. cbn [required_before field_offset size_offset_at].
    fold (in_union (fld fields k) (fld fields (S k))).
    destruct (in_union (fld fields k) (fld fields (S k))) eqn:Eu;
      cbn [required_field_index pData pSize].
    + unfold in_union in Eu. apply andb_prop in Eu as [Eu _].
      apply andb_prop in Eu as [Eu _]. apply Z.eqb_eq in Eu. rewrite Eu.
      cbn [Z.eqb PB_HTYPE_ONEOF PB_HTYPE_REQUIRED]. by rewrite Z.add_0_r.
    + rewrite !Z.add_assoc.
      destruct (PB_HTYPE (type (fld fields k)) =? PB_HTYPE_REQUIRED);
        rewrite ?u32_small by lia; rewrite ?Z.add_0_r; done.
Qed.

(** The positions a search from [k] tries, in order. *)
Definition round (k : nat) : list nat := seq k (nfields fields - k) ++ seq 0 k.

(** [next_pos] is the position the iterator moves to from [j]. *)
Definition next_pos (j : nat) : nat :=
  if Nat.eqb (S j) (nfields fields) then 0%nat else S j.

Lemma snd_next_at dest j :
  (j < nfields fields)%nat ->
  snd (pb_field_iter_next (iter_at fields dest j)) = iter_at fields dest (next_pos j).
Proof. intros Hj. rewrite next_at by done. unfold next_pos. by destruct (Nat.eqb _ _). Qed.

Lemma find_loop_at t dest k js :
  forall n j,
  (k < nfields fields)%nat -> (j < nfields fields)%nat -> (length js < n)%nat ->
  (forall i, (i < length js)%nat -> nth i (js ++ [k]) 0%nat
      = next_pos (nth i (j :: js) 0%nat)) ->
  next_pos (List.last (j :: js) 0%nat) = k -> ~ k ∈ js -> Forall (fun i => i < nfields fields)%nat js ->
  find_loop n k (iter_at fields dest j) t =
    match List.find (is_field fields t) (j :: js) with
    | Some i => (true, iter_at fields dest i)
    | None => (false, iter_at fields dest k)
    end.
Proof.
  induction js as [|j' js IH]; intros n j Hk Hj Hn Hnext Hlast Hin Hall;
    (destruct n as [|n]; [cbn in Hn; lia|]); cbn [find_loop List.find];
    rewrite cur_at; fold (is_field fields t j); (destruct (is_field fields t j); [done|]);
    rewrite snd_next_at by done; rewrite pos_at.
  - cbn in Hlast. by rewrite Hlast, Nat.eqb_refl.
  - pose proof (Hnext 0%nat ltac:(cbn; lia)) as H0. cbn in H0. rewrite <- H0.
    apply not_elem_of_cons in Hin as [Hne Hin]. pose proof (Forall_inv Hall) as Hj'. apply Forall_inv_tail in Hall.
    destruct (Nat.eqb_spec j' k) as [->|_]; [done|].
    apply IH; try done; [cbn in Hn; lia|].
    intros i Hi. specialize (Hnext (S i) ltac:(cbn; lia)). exact Hnext.
Qed.

Lemma round_cons k :
  (k < nfields fields)%nat ->
  round k = k :: (seq (S k) (nfields fields - S k) ++ seq 0 k).
Proof.
  intros Hk. unfold round.
  by replace (nfields fields - k)%nat with (S (nfields fields - S k)) by lia.
Qed.

Lemma length_round k : (k < nfields fields)%nat -> length (round k) = nfields fields.
Proof. intros Hk. unfold round. rewrite length_app, !length_seq. lia. Qed.

Lemma nth_round k i :
  (k < nfields fields)%nat -> (i < nfields fields)%nat ->
  nth i (round k) 0%nat =
    (if Nat.ltb (k + i) (nfields fields) then k + i else k + i - nfields fields)%nat.
Proof.
  intros Hk Hi. unfold round.
  destruct (Nat.ltb_spec (k + i) (nfields fields)).
  - rewrite app_nth1 by (rewrite length_seq; lia). by rewrite seq_nth by lia.
  - rewrite app_nth2; rewrite length_seq; [|lia]. rewrite seq_nth by lia. lia.
Qed.

(** The iterator's search, from any position, is a search of one round of the
    array; when it fails the iterator is back where it was. *)
Lemma find_at t dest k :
  (k < nfields fields)%nat ->
  pb_field_iter_find (iter_at fields dest k) t =
    match List.find (is_field fields t) (round k) with
    | Some i => (true, iter_at fields dest i)
    | None => (false, iter_at fields dest k)
    end.
Proof.
  intros Hk. unfold pb_field_iter_find. rewrite pos_at, round_cons by done.
  change (start (iter_at fields dest k)) with fields.
  pose proof (nfields_lt_length _ Hwf) as Hlt.
  pose proof (length_round k Hk) as Hlr.
  assert (forall i, (i < nfields fields)%nat -> nth i
    (k :: seq (S k) (nfields fields - S k) ++ seq 0 k) 0%nat = nth i (round k) 0%nat) as Hr.
  { intros i _. by rewrite round_cons. }
  apply find_loop_at; try done.
  - rewrite length_app, !length_seq. lia.
  - rewrite length_app, !length_seq. intros i Hi.
    rewrite Hr, nth_round by lia.
    destruct (Nat.eq_dec (S i) (nfields fields)) as [E|E]; [lia|].
    rewrite app_nth1 by (rewrite length_app, !length_seq; lia).
    change (nth (S i) (k :: seq (S k) (nfields fields - S k) ++ seq 0 k) 0%nat
      = next_pos (if (k + i <? nfields fields)%nat then k + i else k + i - nfields fields)).
    rewrite Hr, nth_round by lia. unfold next_pos.
    destruct (Nat.ltb_spec (k + S i) (nfields fields)),
      (Nat.ltb_spec (k + i) (nfields fields)); try lia;
      destruct (Nat.eqb_spec (S (k + i)) (nfields fields)); try lia.
    destruct (Nat.eqb_spec (S (k + i - nfields fields)) (nfields fields)); lia.
  - rewrite <- round_cons by done. rewrite last_nth, Hlr, nth_round by lia.
    replace (pred (nfields fields)) with (nfields fields - 1)%nat by lia. unfold next_pos.
    destruct (Nat.ltb_spec (k + (nfields fields - 1)) (nfields fields)).
    + destruct (Nat.eqb_spec (S (k + (nfields fields - 1))) (nfields fields)); lia.
    + destruct (Nat.eqb_spec (S (k + (nfields fields - 1) - nfields fields)) (nfields fields));
        lia.
  - rewrite elem_of_app, !elem_of_seq. lia.
  - apply Forall_forall. intros i. rewrite in_app_iff, !in_seq. lia.
Qed.

Lemma find_round_iff t k :
  (k < nfields fields)%nat ->
  List.find (is_field fields t) (round k) = None <->
  forall j, (j < nfields fields)%nat -> is_field fields t j = false.
Proof.
  intros Hk. split.
  - intros H j Hj. eapply find_none; [exact H|]. unfold round.
    rewrite in_app_iff, !in_seq. lia.
  - intros H. destruct (List.find _ _) as [i|] eqn:E; [|done].
    apply find_some in E as [Hin Hi]. rewrite H in Hi; [done|].
    unfold round in Hin. rewrite in_app_iff, !in_seq in Hin. lia.
Qed.

Lemma find_round_some t k i :
  (k < nfields fields)%nat ->
  List.find (is_field fields t) (round k) = Some i ->
  (i < nfields fields)%nat /\ is_field fields t i = true.
Proof.
  intros Hk [Hin Hi]%find_some. split; [|done].
  unfold round in Hin. rewrite in_app_iff, !in_seq in Hin. lia.
Qed.

(** A search from an iterator whose [pSize] was redirected: if the field is
    the one the iterator stands at, the redirection stays. *)
Lemma find_set_pSize t dest k a :
  (k < nfields fields)%nat ->
  PB_HTYPE (type (fld fields k)) <> PB_HTYPE_ONEOF ->
  pb_field_iter_find (set_pSize (iter_at fields dest k) a) t =
    if is_field fields t k then (true, set_pSize (iter_at fields dest k) a)
    else pb_field_iter_find (iter_at fields dest k) t.
Proof.
  intros Hk Hone. unfold pb_field_iter_find.
  change (start (set_pSize (iter_at fields dest k) a)) with fields.
  change (start (iter_at fields dest k)) with fields.
  change (pos (set_pSize (iter_at fields dest k) a)) with k. rewrite pos_at.
  assert (exists n, length fields = S n) as [n ->].
  { pose proof (nfields_lt_length _ Hwf). destruct (length fields); [lia | eauto]. }
  cbn [find_loop]. change (cur (set_pSize (iter_at fields dest k) a)) with (fld fields k).
  rewrite cur_at. fold (is_field fields t k).
  destruct (is_field fields t k); [done|].
  assert (pb_field_iter_next (set_pSize (iter_at fields dest k) a)
          = pb_field_iter_next (iter_at fields dest k)) as ->; [|done].
  unfold pb_field_iter_next, cur.
  cbn [start pos dest_struct pData required_field_index iter_at set_pSize].
  by rewrite (proj2 (Z.eqb_neq _ _) Hone),
    (proj2 (Z.eqb_neq _ _) (fld_tag_nonzero _ _ Hwf Hk)).
Qed.

Lemma iter_walk_at dest k n :
  (k < nfields fields)%nat -> (nfields fields - k <= n)%nat ->
  iter_walk n (iter_at fields dest k) =
    (map (iter_at fields dest) (seq k (nfields fields - k)), iter_at fields dest 0).
Proof.
  revert k; induction n as [|n IH]; intros k Hk Hn; [lia|]. cbn [iter_walk].
  rewrite next_at by done.
  destruct (Nat.eqb_spec (S k) (nfields fields)) as [E|E].
  - by replace (nfields fields - k)%nat with 1%nat by lia.
  - rewrite IH by lia. by replace (nfields fields - k)%nat with (S (nfields fields - S k)) by lia.
Qed.

(** A [do ... while (pb_field_iter_next)] loop over a message visits every
    field of the descriptor exactly once and in order, with the reference
    offsets and the running count of required fields, ends after as many
    rounds as there are fields, and leaves the iterator at the first field. *)
Theorem iter_traversal dest n :
  (0 < nfields fields)%nat -> (nfields fields <= n)%nat ->
  fst (pb_field_iter_begin fields dest) = true /\
  iter_walk n (snd (pb_field_iter_begin fields dest)) =
    (map (iter_at fields dest) (seq 0 (nfields fields)), iter_at fields dest 0).
Proof.
  intros H0 Hn. rewrite begin_at. split.
  - pose proof (fld_tag_nonzero _ 0 Hwf H0). cbn. lia.
  - cbn [snd]. rewrite (iter_walk_at dest 0 n) by lia. by rewrite Nat.sub_0_r.
Qed.

(** [pb_field_iter_find] is a search of the whole array from wherever the
    iterator stands: true, at a regular field with the tag, exactly when there
    is one; otherwise false, and the iterator is where it was. *)
Theorem iter_find_correct t dest k :
  (k < nfields fields)%nat ->
  match pb_field_iter_find (iter_at fields dest k) t with
  | (true, iter) =>
      exists i, (i < nfields fields)%nat /\ is_field fields t i = true /\
                iter = iter_at fields dest i
  | (false, iter) =>
      iter = iter_at fields dest k /\
      forall j, (j < nfields fields)%nat -> is_field fields t j = false
  end.
Proof.
  intros Hk. rewrite find_at by done.
  destruct (List.find (is_field fields t) (round k)) as [i|] eqn:E.
  - destruct (find_round_some _ _ _ Hk E). eauto.
  - split; [done|]. by apply (find_round_iff t k).
Qed.
End Traverse.

(** A two-field descriptor for the witnesses. *)
Definition demo_fields : list pb_field_t :=
  [ mk_field 1 (Z.lor PB_HTYPE_REQUIRED PB_LTYPE_UVARINT) 0 0 4 0 0;
    mk_field 5 (Z.lor PB_HTYPE_REPEATED PB_LTYPE_FIXED32) 4 (-4) 4 3 0;
    PB_LAST_FIELD ].

Lemma demo_fields_wf : wf_fields demo_fields.
Proof.
  exists (take 2 demo_fields). split; [done|]. repeat constructor; done.
Qed.

Lemma iter_traversal_witness :
  snd (iter_walk 2 (snd (pb_field_iter_begin demo_fields 0x1000))) = iter_at demo_fields 0x1000 0.
Proof.
  destruct (iter_traversal demo_fields demo_fields_wf ltac:(vm_compute; discriminate)
              0x1000 2 ltac:(vm_compute; lia) ltac:(vm_compute; lia)) as [_ ->].
  reflexivity.
Defined.

Lemma iter_find_correct_witness :
  (exists i, (i < 2)%nat /\ is_field demo_fields 1 i = true /\
             iter_at demo_fields 0x1000 0 = iter_at demo_fields 0x1000 i).
Proof.
  exact (iter_find_correct demo_fields demo_fields_wf ltac:(vm_compute; discriminate)
           1 0x1000 1 ltac:(vm_compute; lia)).
Defined.
