(* ===== verification/Encode.v ===== *)
(** pb_encode.c: output streams, the wire encoders of pb_encode.h, the field
    encoders and the message encoder.

    Every C function of the file is a definition of the same name.  A stream is
    passed by value and returned with the result; the C functions that return
    [bool] return [M (bool * pb_ostream_t)].  The message encoder and the field
    encoders call each other, so the field encoders take the recursive call
    ([rec]) as an argument and [pb_encode] ties the knot with a fuel, the depth
    of message nesting. *)

From S2P Require Import Prelude CMem PbTypes FieldIter.
Open Scope Z_scope.
Open Scope pb_scope.

(** The source of a write: an array of the C stack, or memory (a null pointer
    is [SrcMem 0]). *)
Inductive wsrc : Type := SrcLocal (bs : list byte) | SrcMem (a : Z).

(** The varint loop: [while (value) { buffer[i] = (value & 0x7F) | 0x80;
    value >>= 7; i++; }].  Ten rounds empty a 64-bit value. *)
Fixpoint varint_loop (n : nat) (value : Z) : list byte :=
  match n with
  | O => []
  | S n =>
      if value =? 0 then []
      else z2b (Z.lor (Z.land value 0x7F) 0x80) :: varint_loop n (Z.shiftr value 7)
  end.

(** [buffer[i-1] &= 0x7F]. *)
Fixpoint clear_last (bs : list byte) : list byte :=
  match bs with
  | [] => []
  | [b] => [z2b (Z.land (b2z b) 0x7F)]
  | b :: bs => b :: clear_last bs
  end.

Definition varint_buffer (value : Z) : list byte := clear_last (varint_loop 10 value).

(** The four and eight bytes of the fixed encodings. *)
Definition fixed32_bytes (v : Z) : list byte :=
  [ z2b (Z.land v 0xFF); z2b (Z.land (Z.shiftr v 8) 0xFF);
    z2b (Z.land (Z.shiftr v 16) 0xFF); z2b (Z.land (Z.shiftr v 24) 0xFF) ].

Definition fixed64_bytes (v : Z) : list byte :=
  [ z2b (Z.land v 0xFF); z2b (Z.land (Z.shiftr v 8) 0xFF);
    z2b (Z.land (Z.shiftr v 16) 0xFF); z2b (Z.land (Z.shiftr v 24) 0xFF);
    z2b (Z.land (Z.shiftr v 32) 0xFF); z2b (Z.land (Z.shiftr v 40) 0xFF);
    z2b (Z.land (Z.shiftr v 48) 0xFF); z2b (Z.land (Z.shiftr v 56) 0xFF) ].

Definition zigzag (value : Z) : Z :=
  if value <? 0 then not64 (Z.shiftl (u64 value) 1) else u64 (Z.shiftl (u64 value) 1).

(** The entries of PB_ENCODERS. *)
Inductive pb_encoder_t : Type :=
| pb_enc_varint_fn | pb_enc_uvarint_fn | pb_enc_svarint_fn | pb_enc_fixed32_fn
| pb_enc_fixed64_fn | pb_enc_bytes_fn | pb_enc_string_fn | pb_enc_submessage_fn
| pb_enc_fixed_length_bytes_fn.

Definition PB_ENCODERS : list (option pb_encoder_t) :=
  [ Some pb_enc_varint_fn; Some pb_enc_uvarint_fn; Some pb_enc_svarint_fn;
    Some pb_enc_fixed32_fn; Some pb_enc_fixed64_fn; Some pb_enc_bytes_fn;
    Some pb_enc_string_fn; Some pb_enc_submessage_fn; None;
    Some pb_enc_fixed_length_bytes_fn ].

Section Encode.
Context `{UserCode}.

(** ** Streams *)

Definition buf_write (stream : pb_ostream_t) (buf : wsrc) (count : Z)
  : M (bool * pb_ostream_t) :=
  let dest := o_state stream in
  let stream := set_o_state stream (dest + count) in
  match buf with
  | SrcLocal bs => store_bytes dest bs
  | SrcMem a => copy_bytes dest a (Z.to_nat count)
  end;;
  mret (true, stream).

Definition pb_ostream_from_buffer (buf bufsize : Z) : pb_ostream_t :=
  mk_ostream buf_write_cb buf bufsize 0 None.

(** The bytes a user callback is handed. *)
Definition src_bytes (buf : wsrc) (count : Z) : M (list byte) :=
  match buf with SrcLocal bs => mret bs | SrcMem a => load_bytes a (Z.to_nat count) end.

Definition pb_write (stream : pb_ostream_t) (buf : wsrc) (count : Z)
  : M (bool * pb_ostream_t) :=
  let finish s := mret (true, set_bytes_written s (u64 (bytes_written s + count))) in
  match o_callback stream with
  | null_cb => finish stream
  | cb =>
      if u64 (bytes_written stream + count) >? max_size stream
      then o_error stream "stream full"
      else
        '(ok, s) ←
          match cb with
          | user_write_cb f =>
              bs ← src_bytes buf count;
              '(ok, st, e) ← user_write f stream bs;
              mret (ok, set_o_errmsg (set_o_state stream st) e)
          | _ => buf_write stream buf count
          end;
        if negb ok then o_error s "io error" else finish s
  end.

(** ** Helper functions *)

Definition pb_encode_varint (stream : pb_ostream_t) (value : Z)
  : M (bool * pb_ostream_t) :=
  if value <=? 0x7F
  then pb_write stream (SrcLocal [z2b value]) 1
  else
    let buffer := varint_buffer value in
    pb_write stream (SrcLocal buffer) (Z.of_nat (length buffer)).

Definition pb_encode_svarint (stream : pb_ostream_t) (value : Z)
  : M (bool * pb_ostream_t) :=
  pb_encode_varint stream (zigzag value).

Definition pb_encode_fixed32 (stream : pb_ostream_t) (value : Z)
  : M (bool * pb_ostream_t) :=
  val ← load_uint 4 value;
  pb_write stream (SrcLocal (fixed32_bytes val)) 4.

Definition pb_encode_fixed64 (stream : pb_ostream_t) (value : Z)
  : M (bool * pb_ostream_t) :=
  val ← load_uint 8 value;
  pb_write stream (SrcLocal (fixed64_bytes val)) 8.

Definition pb_encode_tag (stream : pb_ostream_t) (wiretype field_number : Z)
  : M (bool * pb_ostream_t) :=
  pb_encode_varint stream (Z.lor (u64 (Z.shiftl field_number 3)) wiretype).

(** The switch of [pb_encode_tag_for_field]. *)
Definition wiretype_of (ltype : Z) : option Z :=
  if (ltype =? PB_LTYPE_VARINT) || (ltype =? PB_LTYPE_UVARINT) ||
     (ltype =? PB_LTYPE_SVARINT) then Some PB_WT_VARINT
  else if ltype =? PB_LTYPE_FIXED32 then Some PB_WT_32BIT
  else if ltype =? PB_LTYPE_FIXED64 then Some PB_WT_64BIT
  else if (ltype =? PB_LTYPE_BYTES) || (ltype =? PB_LTYPE_STRING) ||
          (ltype =? PB_LTYPE_SUBMESSAGE) || (ltype =? PB_LTYPE_FIXED_LENGTH_BYTES)
  then Some PB_WT_STRING
  else None.

Definition pb_encode_tag_for_field (stream : pb_ostream_t) (field : pb_field_t)
  : M (bool * pb_ostream_t) :=
  match wiretype_of (PB_LTYPE (type field)) with
  | Some wiretype => pb_encode_tag stream wiretype (tag field)
  | None => o_error stream "invalid field type"
  end.

Definition pb_encode_string (stream : pb_ostream_t) (buffer size : Z)
  : M (bool * pb_ostream_t) :=
  stream <-? pb_encode_varint stream size;
  pb_write stream (SrcMem buffer) size.

(** The recursive call: encode the message at an address. *)
Definition encode_fn : Type :=
  pb_ostream_t -> list pb_field_t -> Z -> M (bool * pb_ostream_t).

Definition pb_encode_submessage (rec : encode_fn) (stream : pb_ostream_t)
    (fields : list pb_field_t) (src_struct : Z) : M (bool * pb_ostream_t) :=
  '(ok, substream) ← rec PB_OSTREAM_SIZING fields src_struct;
  if negb ok then mret (false, set_o_errmsg stream (o_errmsg substream))
  else
    let size := bytes_written substream in
    stream <-? pb_encode_varint stream size;
    if bool_decide (o_callback stream = null_cb)
    then pb_write stream (SrcMem 0) size
    else if u64 (bytes_written stream + size) >? max_size stream
    then o_error stream "stream full"
    else
      '(status, substream) ←
        rec (mk_ostream (o_callback stream) (o_state stream) size 0 None)
            fields src_struct;
      let stream := mk_ostream (o_callback stream) (o_state substream)
                      (max_size stream)
                      (u64 (bytes_written stream + bytes_written substream))
                      (o_errmsg substream) in
      if negb (bytes_written substream =? size)
      then o_error stream "submsg size changed"
      else mret (status, stream).

(** ** Field encoders *)

(** The value of an integer field of [size] bytes, as a signed number. *)
Definition pb_enc_varint (stream : pb_ostream_t) (field : pb_field_t) (src : Z)
  : M (bool * pb_ostream_t) :=
  if data_size field =? 1 then v ← load_uint 1 src; pb_encode_varint stream (u64 (s8 v))
  else if data_size field =? 2 then v ← load_uint 2 src; pb_encode_varint stream (u64 (s16 v))
  else if data_size field =? 4 then v ← load_uint 4 src; pb_encode_varint stream (u64 (s32 v))
  else if data_size field =? 8 then v ← load_uint 8 src; pb_encode_varint stream (u64 (s64 v))
  else o_error stream "invalid data_size".

Definition pb_enc_uvarint (stream : pb_ostream_t) (field : pb_field_t) (src : Z)
  : M (bool * pb_ostream_t) :=
  if data_size field =? 1 then v ← load_uint 1 src; pb_encode_varint stream v
  else if data_size field =? 2 then v ← load_uint 2 src; pb_encode_varint stream v
  else if data_size field =? 4 then v ← load_uint 4 src; pb_encode_varint stream v
  else if data_size field =? 8 then v ← load_uint 8 src; pb_encode_varint stream v
  else o_error stream "invalid data_size".

Definition pb_enc_svarint (stream : pb_ostream_t) (field : pb_field_t) (src : Z)
  : M (bool * pb_ostream_t) :=
  if data_size field =? 1 then v ← load_uint 1 src; pb_encode_svarint stream (s8 v)
  else if data_size field =? 2 then v ← load_uint 2 src; pb_encode_svarint stream (s16 v)
  else if data_size field =? 4 then v ← load_uint 4 src; pb_encode_svarint stream (s32 v)
  else if data_size field =? 8 then v ← load_uint 8 src; pb_encode_svarint stream (s64 v)
  else o_error stream "invalid data_size".

Definition pb_enc_fixed64 (stream : pb_ostream_t) (field : pb_field_t) (src : Z)
  : M (bool * pb_ostream_t) := pb_encode_fixed64 stream src.

Definition pb_enc_fixed32 (stream : pb_ostream_t) (field : pb_field_t) (src : Z)
  : M (bool * pb_ostream_t) := pb_encode_fixed32 stream src.

Definition pb_enc_bytes (stream : pb_ostream_t) (field : pb_field_t) (src : Z)
  : M (bool * pb_ostream_t) :=
  if src =? 0 then pb_encode_string stream 0 0
  else
    size ← load_uint 4 src;
    if (PB_ATYPE (type field) =? PB_ATYPE_STATIC) &&
       (PB_BYTES_ARRAY_T_ALLOCSIZE size >? data_size field)
    then o_error stream "bytes size exceeded"
    else pb_encode_string stream (src + offsetof_bytes) size.

(** [while (size < max_size && *p != '\0') { size++; p++; }].  The fuel only
    bounds the walk over a string without terminator. *)
Fixpoint strnlen_loop (n : nat) (max_size size p : Z) : M Z :=
  match n with
  | O => stop OutOfFuel
  | S n =>
      if negb (size <? max_size) then mret size
      else c ← load8 p;
           if b2z c =? 0 then mret size
           else strnlen_loop n max_size (size + 1) (p + 1)
  end.

(** Every byte the loop passes is a mapped one: the number of mapped bytes
    bounds its rounds. *)
Definition strnlen_fuel : M nat := fun w => Ok (S (S (size (w_mem w)))) w.

Definition pb_enc_string (stream : pb_ostream_t) (field : pb_field_t) (src : Z)
  : M (bool * pb_ostream_t) :=
  let max_size :=
    if PB_ATYPE (type field) =? PB_ATYPE_POINTER then SIZE_MAX else data_size field in
  size ← (if src =? 0 then mret 0
          else n ← strnlen_fuel; strnlen_loop n max_size 0 src);
  pb_encode_string stream src size.

Definition pb_enc_submessage (rec : encode_fn) (stream : pb_ostream_t)
    (field : pb_field_t) (src : Z) : M (bool * pb_ostream_t) :=
  if ptr field =? 0 then o_error stream "invalid field descriptor"
  else
    submsg_fields ← get_fields (ptr field);
    pb_encode_submessage rec stream submsg_fields src.

Definition pb_enc_fixed_length_bytes (stream : pb_ostream_t) (field : pb_field_t)
    (src : Z) : M (bool * pb_ostream_t) :=
  pb_encode_string stream src (data_size field).

(** A call through an entry of PB_ENCODERS. *)
Definition call_encoder (rec : encode_fn) (func : option pb_encoder_t)
    (stream : pb_ostream_t) (field : pb_field_t) (src : Z) : M (bool * pb_ostream_t) :=
  match func with
  | None => stop NullCall
  | Some pb_enc_varint_fn => pb_enc_varint stream field src
  | Some pb_enc_uvarint_fn => pb_enc_uvarint stream field src
  | Some pb_enc_svarint_fn => pb_enc_svarint stream field src
  | Some pb_enc_fixed32_fn => pb_enc_fixed32 stream field src
  | Some pb_enc_fixed64_fn => pb_enc_fixed64 stream field src
  | Some pb_enc_bytes_fn => pb_enc_bytes stream field src
  | Some pb_enc_string_fn => pb_enc_string stream field src
  | Some pb_enc_submessage_fn => pb_enc_submessage rec stream field src
  | Some pb_enc_fixed_length_bytes_fn => pb_enc_fixed_length_bytes stream field src
  end.

(** ** Encode a single field *)

(** The loop [for (i = 0; i < count; i++) { if (!body(p)) return false;
    p += data_size; }]. *)
Fixpoint items_loop (n : nat) (body : pb_ostream_t -> Z -> M (bool * pb_ostream_t))
    (step : Z) (stream : pb_ostream_t) (p : Z) : M (bool * pb_ostream_t) :=
  match n with
  | O => mret (true, stream)
  | S n =>
      stream <-? body stream p;
      items_loop n body step stream (p + step)
  end.

Definition encode_array (rec : encode_fn) (stream : pb_ostream_t) (field : pb_field_t)
    (pData count : Z) (func : option pb_encoder_t) : M (bool * pb_ostream_t) :=
  let n := Z.to_nat count in
  let call s p := call_encoder rec func s field p in
  if count =? 0 then mret (true, stream)
  else if negb (PB_ATYPE (type field) =? PB_ATYPE_POINTER) && (count >? array_size field)
  then o_error stream "array max size exceeded"
  else if PB_LTYPE (type field) <=? PB_LTYPE_LAST_PACKABLE then
    stream <-? pb_encode_tag stream PB_WT_STRING (tag field);
    '(ok, size) ←
      (if PB_LTYPE (type field) =? PB_LTYPE_FIXED32 then mret (true, u64 (4 * count))
       else if PB_LTYPE (type field) =? PB_LTYPE_FIXED64 then mret (true, u64 (8 * count))
       else
         '(ok, sizestream) ← items_loop n call (data_size field) PB_OSTREAM_SIZING pData;
         mret (ok, bytes_written sizestream));
    if negb ok then mret (false, stream)
    else
      stream <-? pb_encode_varint stream size;
      if bool_decide (o_callback stream = null_cb)
      then pb_write stream (SrcMem 0) size
      else items_loop n call (data_size field) stream pData
  else
    let deref := (PB_ATYPE (type field) =? PB_ATYPE_POINTER) &&
                 ((PB_LTYPE (type field) =? PB_LTYPE_STRING) ||
                  (PB_LTYPE (type field) =? PB_LTYPE_BYTES)) in
    items_loop n
      (fun s p =>
         s <-? pb_encode_tag_for_field s field;
         if deref then q ← load_ptr p; call s q else call s p)
      (data_size field) stream pData.

Definition load_bool (a : Z) : M bool := v ← load_uint 1 a; mret (negb (v =? 0)).

(** Byte-per-byte comparison of [data_size] bytes with zero, stopping at the
    first that differs. *)
Fixpoint all_zero (n : nat) (p : Z) : M bool :=
  match n with
  | O => mret true
  | S n => c ← load8 p; if b2z c =? 0 then all_zero n (p + 1) else mret false
  end.

(** [do { if (!check(iter)) return false; } while (next)]. *)
Fixpoint check_loop (k : nat) (check : pb_field_t -> Z -> M bool)
    (iter : pb_field_iter_t) : M bool :=
  match k with
  | O => stop OutOfFuel
  | S k =>
      b ← check (cur iter) (pData iter);
      if negb b then mret false
      else let '(more, iter) := pb_field_iter_next iter in
           if more then check_loop k check iter else mret true
  end.

Fixpoint pb_check_proto3_default_value (n : nat) (field : pb_field_t) (pData : Z)
  : M bool :=
  match n with
  | O => stop OutOfFuel
  | S n =>
      let t := type field in
      let pSize := pData + size_offset field in
      if PB_HTYPE t =? PB_HTYPE_REQUIRED then mret false
      else if PB_HTYPE t =? PB_HTYPE_REPEATED then
        v ← load_uint sizeof_pb_size_t pSize; mret (v =? 0)
      else if PB_HTYPE t =? PB_HTYPE_ONEOF then
        v ← load_uint sizeof_pb_size_t pSize; mret (v =? 0)
      else if (PB_HTYPE t =? PB_HTYPE_OPTIONAL) && negb (size_offset field =? 0) then
        b ← load_bool pSize; mret (negb b)
      else if (PB_ATYPE t =? PB_ATYPE_STATIC) && (PB_LTYPE t =? PB_LTYPE_BYTES) then
        v ← load_uint sizeof_pb_size_t pData; mret (v =? 0)
      else if (PB_ATYPE t =? PB_ATYPE_STATIC) && (PB_LTYPE t =? PB_LTYPE_STRING) then
        c ← load8 pData; mret (b2z c =? 0)
      else if (PB_ATYPE t =? PB_ATYPE_STATIC) &&
              (PB_LTYPE t =? PB_LTYPE_FIXED_LENGTH_BYTES) then
        mret (data_size field =? 0)
      else if (PB_ATYPE t =? PB_ATYPE_STATIC) && (PB_LTYPE t =? PB_LTYPE_SUBMESSAGE) then
        fields ← get_fields (ptr field);
        let '(some, iter) := pb_field_iter_begin fields pData in
        if some
        then check_loop (length fields) (pb_check_proto3_default_value n) iter
        else mret true
      else all_zero (Z.to_nat (data_size field)) pData
  end.

Definition encode_basic_field (rec : encode_fn) (n : nat) (stream : pb_ostream_t)
    (field : pb_field_t) (pData : Z) : M (bool * pb_ostream_t) :=
  match PB_ENCODERS !! Z.to_nat (PB_LTYPE (type field)) with
  | None => stop (BadIndex (PB_LTYPE (type field)))
  | Some func =>
      let pSize := pData + size_offset field in
      implicit_has ←
        (if negb (size_offset field =? 0) then mret true
         else if PB_HTYPE (type field) =? PB_HTYPE_OPTIONAL
         then b ← pb_check_proto3_default_value n field pData; mret (negb b)
         else mret true);
      '(pData, implicit_has) ←
        (if PB_ATYPE (type field) =? PB_ATYPE_POINTER
         then p ← load_ptr pData; mret (p, negb (p =? 0))
         else mret (pData, implicit_has));
      let h := PB_HTYPE (type field) in
      if h =? PB_HTYPE_REQUIRED then
        if pData =? 0 then o_error stream "missing required field"
        else
          stream <-? pb_encode_tag_for_field stream field;
          call_encoder rec func stream field pData
      else if h =? PB_HTYPE_OPTIONAL then
        has ← (if size_offset field =? 0 then mret implicit_has else load_bool pSize);
        if has : bool then
          stream <-? pb_encode_tag_for_field stream field;
          call_encoder rec func stream field pData
        else mret (true, stream)
      else if h =? PB_HTYPE_REPEATED then
        count ← (if size_offset field =? 0 then mret (array_size field)
                 else load_uint sizeof_pb_size_t pSize);
        encode_array rec stream field pData count func
      else
        (* a oneof without a which_ member reads four bytes of a bool *)
        which ← (if size_offset field =? 0 then stop (MemFault 0)
                 else load_uint sizeof_pb_size_t pSize);
        if which =? tag field then
          stream <-? pb_encode_tag_for_field stream field;
          call_encoder rec func stream field pData
        else mret (true, stream)
  end.

Definition encode_callback_field (stream : pb_ostream_t) (field : pb_field_t)
    (pData : Z) : M (bool * pb_ostream_t) :=
  f ← load_ptr (pData + cb_funcs);
  if negb (f =? 0) then
    '(ok, s) ← user_encode f stream field (pData + cb_arg);
    if negb ok then o_error s "callback error" else mret (true, s)
  else mret (true, stream).

Definition encode_field (rec : encode_fn) (n : nat) (stream : pb_ostream_t)
    (field : pb_field_t) (pData : Z) : M (bool * pb_ostream_t) :=
  let a := PB_ATYPE (type field) in
  if (a =? PB_ATYPE_STATIC) || (a =? PB_ATYPE_POINTER)
  then encode_basic_field rec n stream field pData
  else if a =? PB_ATYPE_CALLBACK then encode_callback_field stream field pData
  else o_error stream "invalid field type".

Definition default_extension_encoder (rec : encode_fn) (n : nat)
    (stream : pb_ostream_t) (extension : Z) : M (bool * pb_ostream_t) :=
  ty ← load_ptr (extension + ext_type);
  arg ← load_ptr (ty + ext_type_arg);
  fields ← get_fields arg;
  let field := fld fields 0 in
  if PB_ATYPE (type field) =? PB_ATYPE_POINTER
  then encode_field rec n stream field (extension + ext_dest)
  else
    dest ← load_ptr (extension + ext_dest);
    encode_field rec n stream field dest.

(** The walk over the linked list of extensions; [k] bounds its length. *)
Fixpoint extension_loop (rec : encode_fn) (n k : nat) (stream : pb_ostream_t)
    (extension : Z) : M (bool * pb_ostream_t) :=
  if extension =? 0 then mret (true, stream)
  else match k with
  | O => stop OutOfFuel
  | S k =>
      ty ← load_ptr (extension + ext_type);
      enc ← load_ptr (ty + ext_type_encode);
      stream <-? (if negb (enc =? 0) then ext_encode enc stream extension
                  else default_extension_encoder rec n stream extension);
      next ← load_ptr (extension + ext_next);
      extension_loop rec n k stream next
  end.

Definition encode_extension_field (rec : encode_fn) (n : nat) (stream : pb_ostream_t)
    (pData : Z) : M (bool * pb_ostream_t) :=
  extension ← load_ptr pData;
  extension_loop rec n n stream extension.

(** ** Encode all fields *)

(** The [do ... while (pb_field_iter_next(&iter))] of [pb_encode]. *)
Fixpoint encode_loop (rec : encode_fn) (n k : nat) (stream : pb_ostream_t)
    (iter : pb_field_iter_t) : M (bool * pb_ostream_t) :=
  match k with
  | O => stop OutOfFuel
  | S k =>
      stream <-?
        (if PB_LTYPE (type (cur iter)) =? PB_LTYPE_EXTENSION
         then encode_extension_field rec n stream (pData iter)
         else encode_field rec n stream (cur iter) (pData iter));
      let '(more, iter) := pb_field_iter_next iter in
      if more then encode_loop rec n k stream iter else mret (true, stream)
  end.

Fixpoint pb_encode (n : nat) (stream : pb_ostream_t) (fields : list pb_field_t)
    (src_struct : Z) : M (bool * pb_ostream_t) :=
  match n with
  | O => stop OutOfFuel
  | S n =>
      let '(some, iter) := pb_field_iter_begin fields src_struct in
      if negb some then mret (true, stream)
      else encode_loop (pb_encode n) n (length fields) stream iter
  end.

Definition pb_encode_delimited (n : nat) (stream : pb_ostream_t)
    (fields : list pb_field_t) (src_struct : Z) : M (bool * pb_ostream_t) :=
  pb_encode_submessage (pb_encode n) stream fields src_struct.

Definition pb_encode_nullterminated (n : nat) (stream : pb_ostream_t)
    (fields : list pb_field_t) (src_struct : Z) : M (bool * pb_ostream_t) :=
  stream <-? pb_encode n stream fields src_struct;
  pb_write stream (SrcLocal [z2b 0]) 1.

(** [None] stands for the return value false: [*size] is then not written. *)
Definition pb_get_encoded_size (n : nat) (fields : list pb_field_t) (src_struct : Z)
  : M (option Z) :=
  '(ok, stream) ← pb_encode n PB_OSTREAM_SIZING fields src_struct;
  mret (if ok : bool then Some (bytes_written stream) else None).
End Encode.
