(* ===== verification/Decode.v ===== *)
(** pb_decode.c: input streams, the wire decoders of pb_decode.h, the field
    decoders, defaults, the message decoder, and the release of allocated
    fields (PB_ENABLE_MALLOC).

    Out-parameters of the C functions ([*dest], [*eof], [*tag], ...) that are
    locals of the caller are returned with the result.  The functions that call
    each other take the recursive calls as arguments; [pb_decode_noinit],
    [pb_message_set_to_defaults] and [pb_release] tie the knots, each with a
    fuel that is the depth of message nesting. *)

From S2P Require Import Prelude CMem PbTypes FieldIter.
Open Scope Z_scope.
Open Scope pb_scope.

(** Where a read goes: nowhere (a null [buf]), an array of the C stack (its
    contents are returned), or memory. *)
Inductive rdest : Type := ToNull | ToLocal | ToMem (a : Z).

(** The entries of PB_DECODERS. *)
Inductive pb_decoder_t : Type :=
| pb_dec_varint_fn | pb_dec_uvarint_fn | pb_dec_svarint_fn | pb_dec_fixed32_fn
| pb_dec_fixed64_fn | pb_dec_bytes_fn | pb_dec_string_fn | pb_dec_submessage_fn
| pb_dec_fixed_length_bytes_fn.

Definition PB_DECODERS : list (option pb_decoder_t) :=
  [ Some pb_dec_varint_fn; Some pb_dec_uvarint_fn; Some pb_dec_svarint_fn;
    Some pb_dec_fixed32_fn; Some pb_dec_fixed64_fn; Some pb_dec_bytes_fn;
    Some pb_dec_string_fn; Some pb_dec_submessage_fn; None;
    Some pb_dec_fixed_length_bytes_fn ].

(** [*dest = bytes[0] << 0 | ... | bytes[n-1] << 8(n-1)]. *)
Fixpoint or_bytes (shift : Z) (bs : list byte) : Z :=
  match bs with
  | [] => 0
  | b :: bs => Z.lor (Z.shiftl (b2z b) shift) (or_bytes (shift + 8) bs)
  end.

Definition unzigzag (value : Z) : Z :=
  if negb (Z.land value 1 =? 0) then s64 (not64 (Z.shiftr value 1))
  else s64 (Z.shiftr value 1).

Section Streams.
Context `{UserCode}.

Definition buf_read (stream : pb_istream_t) (buf : rdest) (count : Z)
  : M (bool * list byte * pb_istream_t) :=
  let source := i_state stream in
  let stream := set_i_state stream (source + count) in
  bs ← match buf with
       | ToNull => mret []
       | ToLocal => load_bytes source (Z.to_nat count)
       | ToMem a => copy_bytes a source (Z.to_nat count);; mret []
       end;
  mret (true, bs, stream).

(** [stream->callback(stream, buf, count)], [buf] not null for a callback of
    the application. *)
Definition call_read (stream : pb_istream_t) (buf : rdest) (count : Z)
  : M (bool * list byte * pb_istream_t) :=
  match i_callback stream with
  | buf_read_cb => buf_read stream buf count
  | user_read_cb f =>
      '(ok, bs, st, e) ← user_read f stream count;
      let stream := set_i_errmsg (set_i_state stream st) e in
      match buf with
      | ToMem a => store_bytes a bs;; mret (ok, [], stream)
      | _ => mret (ok, bs, stream)
      end
  end.

(** The part of [pb_read] after the skip loop. *)
Definition pb_read_chunk (stream : pb_istream_t) (buf : rdest) (count : Z)
  : M (bool * list byte * pb_istream_t) :=
  if bytes_left stream <? count then
    '(b, s) ← i_error stream "end-of-stream"; mret (b, [], s)
  else
    '(ok, bs, s) ← call_read stream buf count;
    if negb ok then '(b, s) ← i_error s "io error"; mret (b, bs, s)
    else mret (true, bs, set_bytes_left s (u64 (bytes_left s - count))).

(** The skip loop of [pb_read] for a null [buf] and a callback of the
    application: chunks of 16 bytes into a scratch array. *)
Fixpoint skip_loop (n : nat) (stream : pb_istream_t) (count : Z)
  : M (bool * list byte * pb_istream_t) :=
  match n with
  | O => stop OutOfFuel
  | S n =>
      if count >? 16 then
        '(ok, _, s) ← pb_read_chunk stream ToLocal 16;
        if negb ok then mret (false, [], s) else skip_loop n s (count - 16)
      else
        '(ok, _, s) ← pb_read_chunk stream ToLocal count; mret (ok, [], s)
  end.

Definition pb_read (stream : pb_istream_t) (buf : rdest) (count : Z)
  : M (bool * list byte * pb_istream_t) :=
  match buf, i_callback stream with
  | ToNull, user_read_cb _ => skip_loop (S (Z.to_nat count)) stream count
  | _, _ => pb_read_chunk stream buf count
  end.

(** [pb_read] when the bytes read are not in a local. *)
Definition pb_read_ (stream : pb_istream_t) (buf : rdest) (count : Z)
  : M (bool * pb_istream_t) :=
  '(ok, _, s) ← pb_read stream buf count; mret (ok, s).

Definition pb_readbyte (stream : pb_istream_t) : M (bool * Z * pb_istream_t) :=
  if bytes_left stream =? 0 then
    '(b, s) ← i_error stream "end-of-stream"; mret (b, 0, s)
  else
    '(ok, bs, s) ← call_read stream ToLocal 1;
    if negb ok then '(b, s) ← i_error s "io error"; mret (b, 0, s)
    else mret (true, le_val (take 1 bs), set_bytes_left s (u64 (bytes_left s - 1))).

Definition pb_istream_from_buffer (buf bufsize : Z) : pb_istream_t :=
  mk_istream buf_read_cb buf bufsize None.

(** ** Helper functions *)

(** The [do ... while (byte & 0x80)] of [pb_decode_varint32_eof]; [bitpos] is
    a uint_fast8_t.  Returns the result, the last byte and the final
    [bitpos]. *)
Fixpoint varint32_loop (n : nat) (stream : pb_istream_t) (result bitpos : Z)
  : M (bool * (Z * Z * Z) * pb_istream_t) :=
  match n with
  | O => stop OutOfFuel
  | S n =>
      '(ok, byte, stream) ← pb_readbyte stream;
      if negb ok then mret (false, (result, byte, bitpos), stream)
      else if bitpos >=? 32 then
        let sign_extension := if bitpos <? 63 then 0xFF else 0x01 in
        if negb (Z.land byte 0x7F =? 0) &&
           ((Z.shiftr result 31 =? 0) || negb (byte =? sign_extension))
        then '(b, s) ← i_error stream "varint overflow";
             mret (b, (result, byte, bitpos), s)
        else
          let bitpos := u8 (bitpos + 7) in
          if negb (Z.land byte 0x80 =? 0) then varint32_loop n stream result bitpos
          else mret (true, (result, byte, bitpos), stream)
      else
        let result := Z.lor result (u32 (Z.shiftl (Z.land byte 0x7F) bitpos)) in
        let bitpos := u8 (bitpos + 7) in
        if negb (Z.land byte 0x80 =? 0) then varint32_loop n stream result bitpos
        else mret (true, (result, byte, bitpos), stream)
  end.

(** Returns (ok, *dest, *eof). *)
Definition pb_decode_varint32_eof (stream : pb_istream_t)
  : M (bool * (Z * bool) * pb_istream_t) :=
  '(ok, byte, stream) ← pb_readbyte stream;
  if negb ok then mret (false, (0, bytes_left stream =? 0), stream)
  else if Z.land byte 0x80 =? 0 then mret (true, (byte, false), stream)
  else
    '(ok, (result, byte, bitpos), stream) ←
      varint32_loop (S (Z.to_nat (bytes_left stream))) stream (Z.land byte 0x7F) 7;
    if negb ok then mret (false, (0, false), stream)
    else if (bitpos =? 35) && negb (Z.land byte 0x70 =? 0) then
      '(b, s) ← i_error stream "varint overflow"; mret (b, (0, false), s)
    else mret (true, (result, false), stream).

Definition pb_decode_varint32 (stream : pb_istream_t) : M (bool * Z * pb_istream_t) :=
  '(ok, (v, _), stream) ← pb_decode_varint32_eof stream; mret (ok, v, stream).

(** The [do ... while (byte & 0x80)] of [pb_decode_varint]: at most ten
    rounds, then [bitpos >= 64]. *)
Fixpoint varint_read_loop (n : nat) (stream : pb_istream_t) (result bitpos : Z)
  : M (bool * Z * pb_istream_t) :=
  match n with
  | O => stop OutOfFuel
  | S n =>
      if bitpos >=? 64 then
        '(b, s) ← i_error stream "varint overflow"; mret (b, 0, s)
      else
        '(ok, byte, stream) ← pb_readbyte stream;
        if negb ok then mret (false, 0, stream)
        else
          let result := Z.lor result (u64 (Z.shiftl (Z.land byte 0x7F) bitpos)) in
          let bitpos := u8 (bitpos + 7) in
          if negb (Z.land byte 0x80 =? 0) then varint_read_loop n stream result bitpos
          else mret (true, result, stream)
  end.

Definition pb_decode_varint (stream : pb_istream_t) : M (bool * Z * pb_istream_t) :=
  varint_read_loop 11 stream 0 0.

Fixpoint skip_varint_loop (n : nat) (stream : pb_istream_t) : M (bool * pb_istream_t) :=
  match n with
  | O => stop OutOfFuel
  | S n =>
      '(ok, bs, stream) ← pb_read stream ToLocal 1;
      if negb ok then mret (false, stream)
      else if negb (Z.land (le_val bs) 0x80 =? 0) then skip_varint_loop n stream
      else mret (true, stream)
  end.

Definition pb_skip_varint (stream : pb_istream_t) : M (bool * pb_istream_t) :=
  skip_varint_loop (S (Z.to_nat (bytes_left stream))) stream.

Definition pb_skip_string (stream : pb_istream_t) : M (bool * pb_istream_t) :=
  '(ok, length, stream) ← pb_decode_varint32 stream;
  if negb ok then mret (false, stream) else pb_read_ stream ToNull length.

(** Returns (ok, (wire_type, tag, eof)). *)
Definition pb_decode_tag (stream : pb_istream_t)
  : M (bool * (Z * Z * bool) * pb_istream_t) :=
  '(ok, (temp, eof), stream) ← pb_decode_varint32_eof stream;
  if negb ok then mret (false, (0, 0, eof), stream)
  else if temp =? 0 then mret (false, (0, 0, true), stream)
  else mret (true, (Z.land temp 7, Z.shiftr temp 3, eof), stream).

Definition pb_skip_field (stream : pb_istream_t) (wire_type : Z)
  : M (bool * pb_istream_t) :=
  if wire_type =? PB_WT_VARINT then pb_skip_varint stream
  else if wire_type =? PB_WT_64BIT then pb_read_ stream ToNull 8
  else if wire_type =? PB_WT_STRING then pb_skip_string stream
  else if wire_type =? PB_WT_32BIT then pb_read_ stream ToNull 4
  else i_error stream "invalid wire_type".

(** [read_raw_value] for PB_WT_VARINT: one byte at a time into [buf], at most
    [max_size].  Returns the size. *)
Fixpoint raw_varint_loop (n : nat) (stream : pb_istream_t) (buf size max_size : Z)
  : M (bool * Z * pb_istream_t) :=
  match n with
  | O => stop OutOfFuel
  | S n =>
      let size := size + 1 in
      if size >? max_size then mret (false, size, stream)
      else
        '(ok, stream) ← pb_read_ stream (ToMem buf) 1;
        if negb ok then mret (false, size, stream)
        else
          b ← load8 buf;
          if negb (Z.land (b2z b) 0x80 =? 0)
          then raw_varint_loop n stream (buf + 1) size max_size
          else mret (true, size, stream)
  end.

Definition read_raw_value (stream : pb_istream_t) (wire_type buf max_size : Z)
  : M (bool * Z * pb_istream_t) :=
  if wire_type =? PB_WT_VARINT
  then raw_varint_loop (S (Z.to_nat max_size)) stream buf 0 max_size
  else if wire_type =? PB_WT_64BIT then
    '(ok, s) ← pb_read_ stream (ToMem buf) 8; mret (ok, 8, s)
  else if wire_type =? PB_WT_32BIT then
    '(ok, s) ← pb_read_ stream (ToMem buf) 4; mret (ok, 4, s)
  else '(b, s) ← i_error stream "invalid wire_type"; mret (b, max_size, s).

(** Returns (ok, stream, substream). *)
Definition pb_make_string_substream (stream : pb_istream_t)
  : M (bool * pb_istream_t * pb_istream_t) :=
  '(ok, size, stream) ← pb_decode_varint32 stream;
  if negb ok then mret (false, stream, stream)
  else if bytes_left stream <? size then
    '(b, s) ← i_error stream "parent stream too short"; mret (b, s, stream)
  else
    mret (true, set_bytes_left stream (u64 (bytes_left stream - size)),
          set_bytes_left stream size).

Definition pb_close_string_substream (stream substream : pb_istream_t)
  : M (bool * pb_istream_t) :=
  '(ok, substream) ←
    (if negb (bytes_left substream =? 0)
     then pb_read_ substream ToNull (bytes_left substream)
     else mret (true, substream));
  if negb ok then mret (false, stream)
  else mret (true, set_i_errmsg (set_i_state stream (i_state substream))
                     (i_errmsg substream)).

(** ** Wire decoders of pb_decode.h *)

Definition pb_decode_svarint (stream : pb_istream_t) : M (bool * Z * pb_istream_t) :=
  '(ok, value, stream) ← pb_decode_varint stream;
  mret (ok, unzigzag value, stream).

Definition pb_decode_fixed32 (stream : pb_istream_t) (dest : Z)
  : M (bool * pb_istream_t) :=
  '(ok, bytes, stream) ← pb_read stream ToLocal 4;
  if negb ok then mret (false, stream)
  else store_uint 4 dest (or_bytes 0 bytes);; mret (true, stream).

Definition pb_decode_fixed64 (stream : pb_istream_t) (dest : Z)
  : M (bool * pb_istream_t) :=
  '(ok, bytes, stream) ← pb_read stream ToLocal 8;
  if negb ok then mret (false, stream)
  else store_uint 8 dest (or_bytes 0 bytes);; mret (true, stream).
End Streams.

(** * Extensions and default values *)

Section Defaults.
Context `{UserCode}.

(** A fake iterator for an extension field. *)
Definition iter_from_extension (extension : Z) : M pb_field_iter_t :=
  ty ← load_ptr (extension + ext_type);
  arg ← load_ptr (ty + ext_type_arg);
  fields ← get_fields arg;
  dest ← load_ptr (extension + ext_dest);
  let iter := snd (pb_field_iter_begin fields dest) in
  let pd := if PB_ATYPE (type (fld fields 0)) =? PB_ATYPE_POINTER
            then extension + ext_dest else dest in
  mret (mk_iter (start iter) (pos iter) (required_field_index iter)
                (FieldIter.dest_struct iter) pd (extension + ext_found)).

(** The walk over a linked list of extensions. *)
Fixpoint for_extensions (k : nat) (body : Z -> M unit) (ext : Z) : M unit :=
  if ext =? 0 then mret tt
  else match k with
  | O => stop OutOfFuel
  | S k => body ext;; next ← load_ptr (ext + ext_next); for_extensions k body next
  end.

(** [do { body(iter) } while (pb_field_iter_next(&iter))]. *)
Fixpoint for_fields (k : nat) (body : pb_field_iter_t -> M unit)
    (iter : pb_field_iter_t) : M unit :=
  match k with
  | O => stop OutOfFuel
  | S k =>
      body iter;;
      let '(more, iter) := pb_field_iter_next iter in
      if more then for_fields k body iter else mret tt
  end.

Definition pb_message_set_to_defaults (set_field : pb_field_iter_t -> M unit)
    (fields : list pb_field_t) (dest_struct : Z) : M unit :=
  let '(some, iter) := pb_field_iter_begin fields dest_struct in
  if negb some then mret tt else for_fields (length fields) set_field iter.

Fixpoint pb_field_set_to_default (n : nat) (iter : pb_field_iter_t) : M unit :=
  match n with
  | O => stop OutOfFuel
  | S n =>
      let field := cur iter in
      let t := type field in
      if PB_LTYPE t =? PB_LTYPE_EXTENSION then
        ext ← load_ptr (pData iter);
        for_extensions n (fun ext =>
          store8 (ext + ext_found) x00;;
          ext_iter ← iter_from_extension ext;
          pb_field_set_to_default n ext_iter) ext
      else if PB_ATYPE t =? PB_ATYPE_STATIC then
        init_data ←
          (if (PB_HTYPE t =? PB_HTYPE_OPTIONAL) && negb (pSize iter =? pData iter) then
             store8 (pSize iter) x00;; mret true
           else if (PB_HTYPE t =? PB_HTYPE_REPEATED) || (PB_HTYPE t =? PB_HTYPE_ONEOF) then
             store_uint sizeof_pb_size_t (pSize iter) 0;; mret false
           else mret true);
        if init_data : bool then
          if PB_LTYPE t =? PB_LTYPE_SUBMESSAGE then
            sub ← get_fields (ptr field);
            pb_message_set_to_defaults (pb_field_set_to_default n) sub (pData iter)
          else if negb (ptr field =? 0) then
            copy_bytes (pData iter) (ptr field) (Z.to_nat (data_size field))
          else memset (pData iter) x00 (data_size field)
        else mret tt
      else if PB_ATYPE t =? PB_ATYPE_POINTER then
        store_ptr (pData iter) 0;;
        if (PB_HTYPE t =? PB_HTYPE_REPEATED) || (PB_HTYPE t =? PB_HTYPE_ONEOF)
        then store_uint sizeof_pb_size_t (pSize iter) 0
        else mret tt
      else mret tt
  end.
End Defaults.

(** * Release of allocated fields *)

Section Release.
Context `{UserCode} `{Libc}.

(** [while (count--) { body(p); p += step; }]. *)
Fixpoint for_items (count : nat) (body : Z -> M unit) (step p : Z) : M unit :=
  match count with
  | O => mret tt
  | S count => body p;; for_items count body step (p + step)
  end.

Definition pb_release (release_field : pb_field_iter_t -> M unit)
    (fields : list pb_field_t) (dest_struct : Z) : M unit :=
  if dest_struct =? 0 then mret tt
  else
    let '(some, iter) := pb_field_iter_begin fields dest_struct in
    if negb some then mret tt else for_fields (length fields) release_field iter.

Fixpoint pb_release_single_field (n : nat) (iter : pb_field_iter_t) : M unit :=
  match n with
  | O => stop OutOfFuel
  | S n =>
      let field := cur iter in
      let t := type field in
      current ←
        (if PB_HTYPE t =? PB_HTYPE_ONEOF
         then which ← load_uint sizeof_pb_size_t (pSize iter); mret (which =? tag field)
         else mret true);
      if negb current then mret tt
      else
        (if PB_LTYPE t =? PB_LTYPE_EXTENSION then
           ext ← load_ptr (pData iter);
           for_extensions n (fun ext =>
             ext_iter ← iter_from_extension ext;
             pb_release_single_field n ext_iter) ext
         else if PB_LTYPE t =? PB_LTYPE_SUBMESSAGE then
           pItem ← (if PB_ATYPE t =? PB_ATYPE_POINTER then load_ptr (pData iter)
                    else mret (pData iter));
           count ←
             (if PB_HTYPE t =? PB_HTYPE_REPEATED then
                count ← (if (PB_ATYPE t =? PB_ATYPE_STATIC) && (pSize iter =? pData iter)
                         then mret (array_size field)
                         else load_uint sizeof_pb_size_t (pSize iter));
                mret (if (PB_ATYPE t =? PB_ATYPE_STATIC) && (count >? array_size field)
                      then array_size field else count)
              else mret 1);
           if pItem =? 0 then mret tt
           else
             (* [iter->pos->ptr] is only read when there is an item *)
             for_items (Z.to_nat count)
               (fun p => sub ← get_fields (ptr field);
                         pb_release (pb_release_single_field n) sub p)
               (data_size field) pItem
         else mret tt);;
        if PB_ATYPE t =? PB_ATYPE_POINTER then
          (if (PB_HTYPE t =? PB_HTYPE_REPEATED) &&
              ((PB_LTYPE t =? PB_LTYPE_STRING) || (PB_LTYPE t =? PB_LTYPE_BYTES)) then
             pItem ← load_ptr (pData iter);
             count ← load_uint sizeof_pb_size_t (pSize iter);
             for_items (Z.to_nat count)
               (fun p => q ← load_ptr p; c_free q;; store_ptr p 0) sizeof_ptr pItem
           else mret tt);;
          (if PB_HTYPE t =? PB_HTYPE_REPEATED
           then store_uint sizeof_pb_size_t (pSize iter) 0 else mret tt);;
          q ← load_ptr (pData iter);
          c_free q;;
          store_ptr (pData iter) 0
        else mret tt
  end.

(** Returns the stream and the iterator, which the search moves. *)
Definition pb_release_union_field (n : nat) (stream : pb_istream_t)
    (iter : pb_field_iter_t) : M (bool * pb_istream_t * pb_field_iter_t) :=
  old_tag ← load_uint sizeof_pb_size_t (pSize iter);
  let new_tag := tag (cur iter) in
  if old_tag =? 0 then mret (true, stream, iter)
  else if old_tag =? new_tag then mret (true, stream, iter)
  else
    let '(found, iter) := pb_field_iter_find iter old_tag in
    if negb found then
      '(b, s) ← i_error stream "invalid union tag"; mret (b, s, iter)
    else
      pb_release_single_field n iter;;
      let '(found, iter) := pb_field_iter_find iter new_tag in
      if negb found then
        '(b, s) ← i_error stream "iterator error"; mret (b, s, iter)
      else mret (true, stream, iter).
End Release.

(** * Field decoders *)

Section Decode.
Context `{UserCode} `{Libc}.

(** The recursive calls: decode a message into the struct at an address. *)
Definition decode_fn : Type :=
  pb_istream_t -> list pb_field_t -> Z -> M (bool * pb_istream_t).

(** [pb_decode] over a given [pb_decode_noinit]; [n] is the fuel of the
    defaults and of the release. *)
Definition pb_decode_of (noinit : decode_fn) (n : nat) : decode_fn :=
  fun stream fields dest_struct =>
    pb_message_set_to_defaults (pb_field_set_to_default n) fields dest_struct;;
    '(status, stream) ← noinit stream fields dest_struct;
    (if status : bool then mret tt
     else pb_release (pb_release_single_field n) fields dest_struct);;
    mret (status, stream).

Definition allocate_field (stream : pb_istream_t) (pData data_size array_size : Z)
  : M (bool * pb_istream_t) :=
  p ← load_ptr pData;
  if (data_size =? 0) || (array_size =? 0) then i_error stream "invalid size"
  else if ((data_size >=? 2 ^ 32) || (array_size >=? 2 ^ 32)) &&
          (SIZE_MAX / array_size <? data_size)
  then i_error stream "size too large"
  else
    p ← c_realloc p (u64 (array_size * data_size));
    if p =? 0 then i_error stream "realloc failed"
    else store_ptr pData p;; mret (true, stream).

Definition initialize_pointer_field (n : nat) (pItem : Z) (iter : pb_field_iter_t)
  : M unit :=
  let field := cur iter in
  let l := PB_LTYPE (type field) in
  if (l =? PB_LTYPE_STRING) || (l =? PB_LTYPE_BYTES) then store_ptr pItem 0
  else if l =? PB_LTYPE_SUBMESSAGE then
    memset pItem x00 (data_size field);;
    sub ← get_fields (ptr field);
    pb_message_set_to_defaults (pb_field_set_to_default n) sub pItem
  else mret tt.

(** The store and the overflow check that end the integer decoders:
    [clamped = *(intN_t* )dest = (intN_t)value; if (clamped != value) ...]. *)
Definition store_clamped (stream : pb_istream_t) (size : nat) (cast : Z -> Z)
    (dest value : Z) : M (bool * pb_istream_t) :=
  store_uint size dest (cast value);;
  if negb (cast value =? value) then i_error stream "integer too large"
  else mret (true, stream).

Definition pb_dec_varint (stream : pb_istream_t) (field : pb_field_t) (dest : Z)
  : M (bool * pb_istream_t) :=
  '(ok, value, stream) ← pb_decode_varint stream;
  if negb ok then mret (false, stream)
  else
    let svalue := if data_size field =? 8 then s64 value else s32 value in
    if data_size field =? 8 then store_clamped stream 8 s64 dest svalue
    else if data_size field =? 4 then store_clamped stream 4 s32 dest svalue
    else if data_size field =? 2 then store_clamped stream 2 s16 dest svalue
    else if data_size field =? 1 then store_clamped stream 1 s8 dest svalue
    else i_error stream "invalid data_size".

Definition pb_dec_uvarint (stream : pb_istream_t) (field : pb_field_t) (dest : Z)
  : M (bool * pb_istream_t) :=
  '(ok, value, stream) ← pb_decode_varint stream;
  if negb ok then mret (false, stream)
  else if data_size field =? 8 then store_clamped stream 8 u64 dest value
  else if data_size field =? 4 then store_clamped stream 4 u32 dest value
  else if data_size field =? 2 then store_clamped stream 2 (fun v => v mod 2 ^ 16) dest value
  else if data_size field =? 1 then store_clamped stream 1 u8 dest value
  else i_error stream "invalid data_size".

Definition pb_dec_svarint (stream : pb_istream_t) (field : pb_field_t) (dest : Z)
  : M (bool * pb_istream_t) :=
  '(ok, value, stream) ← pb_decode_svarint stream;
  if negb ok then mret (false, stream)
  else if data_size field =? 8 then store_clamped stream 8 s64 dest value
  else if data_size field =? 4 then store_clamped stream 4 s32 dest value
  else if data_size field =? 2 then store_clamped stream 2 s16 dest value
  else if data_size field =? 1 then store_clamped stream 1 s8 dest value
  else i_error stream "invalid data_size".

Definition pb_dec_fixed32 (stream : pb_istream_t) (field : pb_field_t) (dest : Z)
  : M (bool * pb_istream_t) := pb_decode_fixed32 stream dest.

Definition pb_dec_fixed64 (stream : pb_istream_t) (field : pb_field_t) (dest : Z)
  : M (bool * pb_istream_t) := pb_decode_fixed64 stream dest.

Definition pb_dec_bytes (stream : pb_istream_t) (field : pb_field_t) (dest : Z)
  : M (bool * pb_istream_t) :=
  '(ok, size, stream) ← pb_decode_varint32 stream;
  if negb ok then mret (false, stream)
  else if size >? PB_SIZE_MAX then i_error stream "bytes overflow"
  else
    let alloc_size := PB_BYTES_ARRAY_T_ALLOCSIZE size in
    if size >? alloc_size then i_error stream "size too large"
    else
      '(bdest, stream) ←
        (if PB_ATYPE (type field) =? PB_ATYPE_POINTER then
           '(ok, stream) ← allocate_field stream dest alloc_size 1;
           if negb ok then mret (None, stream)
           else bdest ← load_ptr dest; mret (Some bdest, stream)
         else if alloc_size >? data_size field then
           '(_, stream) ← i_error stream "bytes overflow"; mret (None, stream)
         else mret (Some dest, stream));
      match bdest with
      | None => mret (false, stream)
      | Some bdest =>
          store_uint sizeof_pb_size_t bdest size;;
          pb_read_ stream (ToMem (bdest + offsetof_bytes)) size
      end.

(** [alloc_size = size + 1] is computed in 32 bits. *)
Definition pb_dec_string (stream : pb_istream_t) (field : pb_field_t) (dest : Z)
  : M (bool * pb_istream_t) :=
  '(ok, size, stream) ← pb_decode_varint32 stream;
  if negb ok then mret (false, stream)
  else
    let alloc_size := u32 (size + 1) in
    if alloc_size <? size then i_error stream "size too large"
    else
      '(dest, stream) ←
        (if PB_ATYPE (type field) =? PB_ATYPE_POINTER then
           '(ok, stream) ← allocate_field stream dest alloc_size 1;
           if negb ok then mret (None, stream)
           else d ← load_ptr dest; mret (Some d, stream)
         else if alloc_size >? data_size field then
           '(_, stream) ← i_error stream "string overflow"; mret (None, stream)
         else mret (Some dest, stream));
      match dest with
      | None => mret (false, stream)
      | Some dest =>
          '(status, stream) ← pb_read_ stream (ToMem dest) size;
          store8 (dest + size) x00;;
          mret (status, stream)
      end.

Definition pb_dec_submessage (rec : decode_fn) (n : nat) (stream : pb_istream_t)
    (field : pb_field_t) (dest : Z) : M (bool * pb_istream_t) :=
  '(ok, stream, substream) ← pb_make_string_substream stream;
  if negb ok then mret (false, stream)
  else if ptr field =? 0 then i_error stream "invalid field descriptor"
  else
    submsg_fields ← get_fields (ptr field);
    '(status, substream) ←
      (if PB_HTYPE (type field) =? PB_HTYPE_REPEATED
       then pb_decode_of rec n substream submsg_fields dest
       else rec substream submsg_fields dest);
    '(ok, stream) ← pb_close_string_substream stream substream;
    if negb ok then mret (false, stream) else mret (status, stream).

Definition pb_dec_fixed_length_bytes (stream : pb_istream_t) (field : pb_field_t)
    (dest : Z) : M (bool * pb_istream_t) :=
  '(ok, size, stream) ← pb_decode_varint32 stream;
  if negb ok then mret (false, stream)
  else if size >? PB_SIZE_MAX then i_error stream "bytes overflow"
  else if size =? 0 then memset dest x00 (data_size field);; mret (true, stream)
  else if negb (size =? data_size field)
  then i_error stream "incorrect fixed length bytes size"
  else pb_read_ stream (ToMem dest) (data_size field).

(** A call through an entry of PB_DECODERS. *)
Definition call_decoder (rec : decode_fn) (n : nat) (func : option pb_decoder_t)
    (stream : pb_istream_t) (field : pb_field_t) (dest : Z) : M (bool * pb_istream_t) :=
  match func with
  | None => stop NullCall
  | Some pb_dec_varint_fn => pb_dec_varint stream field dest
  | Some pb_dec_uvarint_fn => pb_dec_uvarint stream field dest
  | Some pb_dec_svarint_fn => pb_dec_svarint stream field dest
  | Some pb_dec_fixed32_fn => pb_dec_fixed32 stream field dest
  | Some pb_dec_fixed64_fn => pb_dec_fixed64 stream field dest
  | Some pb_dec_bytes_fn => pb_dec_bytes stream field dest
  | Some pb_dec_string_fn => pb_dec_string stream field dest
  | Some pb_dec_submessage_fn => pb_dec_submessage rec n stream field dest
  | Some pb_dec_fixed_length_bytes_fn => pb_dec_fixed_length_bytes stream field dest
  end.

(** ** Decode a single field *)

(** The packed loop of [decode_static_field].  Each successful round reads at
    least one byte, so [bytes_left] bounds the rounds. *)
Fixpoint packed_loop (k : nat) (call : pb_istream_t -> Z -> M (bool * pb_istream_t))
    (field : pb_field_t) (pData pSize : Z) (substream : pb_istream_t)
  : M (bool * pb_istream_t) :=
  match k with
  | O => stop OutOfFuel
  | S k =>
      if negb (bytes_left substream >? 0) then mret (true, substream)
      else
        size ← load_uint sizeof_pb_size_t pSize;
        if negb (size <? array_size field) then mret (true, substream)
        else
          '(ok, substream) ← call substream (pData + u32 (data_size field * size));
          if negb ok then mret (false, substream)
          else
            size ← load_uint sizeof_pb_size_t pSize;
            store_uint sizeof_pb_size_t pSize (u32 (size + 1));;
            packed_loop k call field pData pSize substream
  end.

Definition decode_static_field (rec : decode_fn) (n : nat) (stream : pb_istream_t)
    (wire_type : Z) (iter : pb_field_iter_t) : M (bool * pb_istream_t) :=
  let field := cur iter in
  let t := type field in
  match PB_DECODERS !! Z.to_nat (PB_LTYPE t) with
  | None => stop (BadIndex (PB_LTYPE t))
  | Some func =>
      let h := PB_HTYPE t in
      if h =? PB_HTYPE_REQUIRED then call_decoder rec n func stream field (pData iter)
      else if h =? PB_HTYPE_OPTIONAL then
        (if negb (pSize iter =? pData iter) then store8 (pSize iter) x01 else mret tt);;
        call_decoder rec n func stream field (pData iter)
      else if h =? PB_HTYPE_REPEATED then
        if (wire_type =? PB_WT_STRING) && (PB_LTYPE t <=? PB_LTYPE_LAST_PACKABLE) then
          '(ok, stream, substream) ← pb_make_string_substream stream;
          if negb ok then mret (false, stream)
          else
            '(status, substream) ←
              packed_loop (S (Z.to_nat (bytes_left substream)))
                (fun s p => call_decoder rec n func s field p) field
                (pData iter) (pSize iter) substream;
            if negb (bytes_left substream =? 0) then i_error stream "array overflow"
            else
              '(ok, stream) ← pb_close_string_substream stream substream;
              if negb ok then mret (false, stream) else mret (status, stream)
        else
          size ← load_uint sizeof_pb_size_t (pSize iter);
          let pItem := pData iter + u32 (data_size field * size) in
          store_uint sizeof_pb_size_t (pSize iter) (u32 (size + 1));;
          if size >=? array_size field then i_error stream "array overflow"
          else call_decoder rec n func stream field pItem
      else
        store_uint sizeof_pb_size_t (pSize iter) (tag field);;
        (if PB_LTYPE t =? PB_LTYPE_SUBMESSAGE then
           memset (pData iter) x00 (data_size field);;
           sub ← get_fields (ptr field);
           pb_message_set_to_defaults (pb_field_set_to_default n) sub (pData iter)
         else mret tt);;
        call_decoder rec n func stream field (pData iter)
  end.

(** The packed loop of [decode_pointer_field]: grows the array by a guess of
    the number of remaining entries. *)
Fixpoint packed_alloc_loop (k n : nat)
    (call : pb_istream_t -> Z -> M (bool * pb_istream_t)) (iter : pb_field_iter_t)
    (stream substream : pb_istream_t) (allocated_size : Z)
  : M (bool * pb_istream_t * pb_istream_t) :=
  match k with
  | O => stop OutOfFuel
  | S k =>
      let field := cur iter in
      if bytes_left substream =? 0 then mret (true, stream, substream)
      else
        size ← load_uint sizeof_pb_size_t (pSize iter);
        '(ok, substream, allocated_size) ←
          (if size + 1 >? allocated_size then
             (if data_size field =? 0 then stop DivByZero else mret tt);;
             let allocated_size :=
               u64 (allocated_size + ((bytes_left substream - 1) / data_size field + 1)) in
             '(ok, substream) ←
               allocate_field substream (pData iter) (data_size field) allocated_size;
             mret (ok, substream, allocated_size)
           else mret (true, substream, allocated_size));
        if negb ok then mret (false, stream, substream)
        else
          base ← load_ptr (pData iter);
          size ← load_uint sizeof_pb_size_t (pSize iter);
          let pItem := base + u32 (data_size field * size) in
          initialize_pointer_field n pItem iter;;
          '(ok, substream) ← call substream pItem;
          if negb ok then mret (false, stream, substream)
          else
            size ← load_uint sizeof_pb_size_t (pSize iter);
            if size =? PB_SIZE_MAX
            then mret (false, set_i_errmsg stream (Some "too many array entries"%string),
                       substream)
            else
              store_uint sizeof_pb_size_t (pSize iter) (u32 (size + 1));;
              packed_alloc_loop k n call iter stream substream allocated_size
  end.

Definition decode_pointer_field (rec : decode_fn) (n : nat) (stream : pb_istream_t)
    (wire_type : Z) (iter : pb_field_iter_t) : M (bool * pb_istream_t) :=
  let field := cur iter in
  let t := type field in
  match PB_DECODERS !! Z.to_nat (PB_LTYPE t) with
  | None => stop (BadIndex (PB_LTYPE t))
  | Some func =>
      let h := PB_HTYPE t in
      if (h =? PB_HTYPE_REQUIRED) || (h =? PB_HTYPE_OPTIONAL) || (h =? PB_HTYPE_ONEOF) then
        (if PB_LTYPE t =? PB_LTYPE_SUBMESSAGE then
           q ← load_ptr (pData iter);
           if negb (q =? 0) then pb_release_single_field n iter else mret tt
         else mret tt);;
        (if h =? PB_HTYPE_ONEOF
         then store_uint sizeof_pb_size_t (pSize iter) (tag field) else mret tt);;
        if (PB_LTYPE t =? PB_LTYPE_STRING) || (PB_LTYPE t =? PB_LTYPE_BYTES)
        then call_decoder rec n func stream field (pData iter)
        else
          '(ok, stream) ← allocate_field stream (pData iter) (data_size field) 1;
          if negb ok then mret (false, stream)
          else
            q ← load_ptr (pData iter);
            initialize_pointer_field n q iter;;
            q ← load_ptr (pData iter);
            call_decoder rec n func stream field q
      else
        if (wire_type =? PB_WT_STRING) && (PB_LTYPE t <=? PB_LTYPE_LAST_PACKABLE) then
          allocated_size ← load_uint sizeof_pb_size_t (pSize iter);
          '(ok, stream, substream) ← pb_make_string_substream stream;
          if negb ok then mret (false, stream)
          else
            '(status, stream, substream) ←
              packed_alloc_loop (S (Z.to_nat (bytes_left substream))) n
                (fun s p => call_decoder rec n func s field p) iter
                stream substream allocated_size;
            '(ok, stream) ← pb_close_string_substream stream substream;
            if negb ok then mret (false, stream) else mret (status, stream)
        else
          size ← load_uint sizeof_pb_size_t (pSize iter);
          if size =? PB_SIZE_MAX then i_error stream "too many array entries"
          else
            store_uint sizeof_pb_size_t (pSize iter) (u32 (size + 1));;
            size ← load_uint sizeof_pb_size_t (pSize iter);
            '(ok, stream) ← allocate_field stream (pData iter) (data_size field) size;
            if negb ok then mret (false, stream)
            else
              base ← load_ptr (pData iter);
              size ← load_uint sizeof_pb_size_t (pSize iter);
              let pItem := base + u32 (data_size field * u32 (size - 1)) in
              initialize_pointer_field n pItem iter;;
              call_decoder rec n func stream field pItem
  end.

(** [do { if (!decode(...)) error; } while (substream.bytes_left)]; a callback
    that returns true without reading makes the C loop forever, and the model
    run out of fuel. *)
Fixpoint callback_loop (k : nat) (f : Z) (field : pb_field_t) (arg : Z)
    (substream : pb_istream_t) : M (bool * pb_istream_t) :=
  match k with
  | O => stop OutOfFuel
  | S k =>
      '(ok, substream) ← user_decode f substream field arg;
      if negb ok then mret (false, substream)
      else if negb (bytes_left substream =? 0)
      then callback_loop k f field arg substream
      else mret (true, substream)
  end.

Definition decode_callback_field (stream : pb_istream_t) (wire_type : Z)
    (iter : pb_field_iter_t) : M (bool * pb_istream_t) :=
  let pCallback := pData iter in
  f ← (if pCallback =? 0 then mret 0 else load_ptr (pCallback + cb_funcs));
  if f =? 0 then pb_skip_field stream wire_type
  else if wire_type =? PB_WT_STRING then
    '(ok, stream, substream) ← pb_make_string_substream stream;
    if negb ok then mret (false, stream)
    else
      '(ok, substream) ←
        callback_loop (S (Z.to_nat (bytes_left substream))) f (cur iter)
          (pCallback + cb_arg) substream;
      if negb ok then i_error stream "callback failed"
      else pb_close_string_substream stream substream
  else
    with_local (replicate 10 x00) (fun buffer =>
      '(ok, size, stream) ← read_raw_value stream wire_type buffer 10;
      if negb ok then mret (false, stream)
      else
        '(ok, _) ← user_decode f (pb_istream_from_buffer buffer size) (cur iter)
                     (pCallback + cb_arg);
        mret (ok, stream)).

(** Returns the iterator too: releasing a union field moves it. *)
Definition decode_field (rec : decode_fn) (n : nat) (stream : pb_istream_t)
    (wire_type : Z) (iter : pb_field_iter_t)
  : M (bool * pb_istream_t * pb_field_iter_t) :=
  '(ok, stream, iter) ←
    (if PB_HTYPE (type (cur iter)) =? PB_HTYPE_ONEOF
     then pb_release_union_field n stream iter
     else mret (true, stream, iter));
  if negb ok then mret (false, stream, iter)
  else
    let a := PB_ATYPE (type (cur iter)) in
    '(ok, stream) ←
      (if a =? PB_ATYPE_STATIC then decode_static_field rec n stream wire_type iter
       else if a =? PB_ATYPE_POINTER then decode_pointer_field rec n stream wire_type iter
       else if a =? PB_ATYPE_CALLBACK then decode_callback_field stream wire_type iter
       else i_error stream "invalid field type");
    mret (ok, stream, iter).

Definition default_extension_decoder (rec : decode_fn) (n : nat)
    (stream : pb_istream_t) (extension t wire_type : Z) : M (bool * pb_istream_t) :=
  ty ← load_ptr (extension + ext_type);
  arg ← load_ptr (ty + ext_type_arg);
  fields ← get_fields arg;
  if negb (tag (fld fields 0) =? t) then mret (true, stream)
  else
    iter ← iter_from_extension extension;
    store8 (extension + ext_found) x01;;
    '(ok, stream, _) ← decode_field rec n stream wire_type iter;
    mret (ok, stream).

Fixpoint decode_extension_loop (rec : decode_fn) (n k : nat) (stream : pb_istream_t)
    (t wire_type extension p : Z) : M (bool * pb_istream_t) :=
  if (extension =? 0) || negb (p =? bytes_left stream) then mret (true, stream)
  else match k with
  | O => stop OutOfFuel
  | S k =>
      ty ← load_ptr (extension + ext_type);
      dec ← load_ptr (ty + ext_type_decode);
      '(status, stream) ←
        (if negb (dec =? 0) then ext_decode dec stream extension t wire_type
         else default_extension_decoder rec n stream extension t wire_type);
      if negb status then mret (false, stream)
      else
        next ← load_ptr (extension + ext_next);
        decode_extension_loop rec n k stream t wire_type next p
  end.

Definition decode_extension (rec : decode_fn) (n : nat) (stream : pb_istream_t)
    (t wire_type : Z) (iter : pb_field_iter_t) : M (bool * pb_istream_t) :=
  extension ← load_ptr (pData iter);
  decode_extension_loop rec n n stream t wire_type extension (bytes_left stream).

(** ** Decode all fields *)

(** [find_extension_field]: the loop stops back at [start_pos]. *)
Fixpoint find_ext_loop (k start_pos : nat) (iter : pb_field_iter_t)
  : bool * pb_field_iter_t :=
  if PB_LTYPE (type (cur iter)) =? PB_LTYPE_EXTENSION then (true, iter)
  else
    let iter := snd (pb_field_iter_next iter) in
    if Nat.eqb (pos iter) start_pos then (false, iter)
    else match k with
         | O => (false, iter)
         | S k => find_ext_loop k start_pos iter
         end.

Definition find_extension_field (iter : pb_field_iter_t) : bool * pb_field_iter_t :=
  find_ext_loop (length (start iter)) (pos iter) iter.

(** The locals of [pb_decode_noinit] that its loop changes.  [fixed_count]
    is the index of [fixed_count_field]; [fixed_count_size] is in memory,
    because [iter.pSize] may point to it. *)
Record decode_state : Type := mk_dstate {
  ds_stream : pb_istream_t;
  ds_iter : pb_field_iter_t;
  fields_seen : list Z;
  extension_range_start : Z;
  fixed_count_field : option nat;
}.

(** [fields_seen[index >> 5] |= (uint32_t)1 << (index & 31)], for the first
    PB_MAX_REQUIRED_FIELDS required fields. *)
Definition mark_seen (iter : pb_field_iter_t) (seen : list Z) : list Z :=
  let i := required_field_index iter in
  if (PB_HTYPE (type (cur iter)) =? PB_HTYPE_REQUIRED) && (i <? PB_MAX_REQUIRED_FIELDS)
  then alter (fun wd => Z.lor wd (u32 (Z.shiftl 1 (Z.land i 31))))
             (Z.to_nat (Z.shiftr i 5)) seen
  else seen.

(** A tag without a regular field: an extension, or data to skip. *)
Definition decode_unknown (rec : decode_fn) (n : nat) (st : decode_state)
    (t wire_type : Z) : M (bool * decode_state) :=
  let skip (stream : pb_istream_t) (iter : pb_field_iter_t) (start : Z) :=
    '(ok, stream) ← pb_skip_field stream wire_type;
    mret (ok, mk_dstate stream iter (fields_seen st) start (fixed_count_field st)) in
  if t >=? extension_range_start st then
    let '(found, iter) := find_extension_field (ds_iter st) in
    let start := if found : bool then tag (cur iter) else 2 ^ 32 - 1 in
    if t >=? start then
      let p := bytes_left (ds_stream st) in
      '(ok, stream) ← decode_extension rec n (ds_stream st) t wire_type iter;
      if negb ok then
        mret (false, mk_dstate stream iter (fields_seen st) start (fixed_count_field st))
      else if negb (p =? bytes_left stream) then
        mret (true, mk_dstate stream iter (fields_seen st) start (fixed_count_field st))
      else skip stream iter start
    else skip (ds_stream st) iter start
  else skip (ds_stream st) (ds_iter st) (extension_range_start st).

(** Redirects [iter.pSize] for a repeated field without a count member. *)
Definition fixed_count_setup (fields : list pb_field_t) (fixed_count_size : Z)
    (st : decode_state) : M (bool * decode_state) :=
  let iter := ds_iter st in
  if (PB_HTYPE (type (cur iter)) =? PB_HTYPE_REPEATED) && (pSize iter =? pData iter) then
    '(ok, st) ←
      (if bool_decide (fixed_count_field st = Some (pos iter)) then mret (true, st)
       else
         bad ← match fixed_count_field st with
               | None => mret false
               | Some i =>
                   c ← load_uint sizeof_pb_size_t fixed_count_size;
                   mret (negb (c =? array_size (fld fields i)))
               end;
         if bad : bool then
           '(b, s) ← i_error (ds_stream st) "wrong size for fixed count field";
           mret (b, mk_dstate s iter (fields_seen st) (extension_range_start st)
                      (fixed_count_field st))
         else
           store_uint sizeof_pb_size_t fixed_count_size 0;;
           mret (true, mk_dstate (ds_stream st) iter (fields_seen st)
                         (extension_range_start st) (Some (pos iter))));
    if negb ok then mret (false, st)
    else mret (true, mk_dstate (ds_stream st) (set_pSize iter fixed_count_size)
                       (fields_seen st) (extension_range_start st)
                       (fixed_count_field st))
  else mret (true, st).

(** The [while (stream->bytes_left)] loop; every round that continues has
    read a tag, so [bytes_left] bounds the rounds. *)
Fixpoint decode_loop (rec : decode_fn) (n k : nat) (fields : list pb_field_t)
    (fixed_count_size : Z) (st : decode_state) : M (bool * decode_state) :=
  match k with
  | O => stop OutOfFuel
  | S k =>
      if bytes_left (ds_stream st) =? 0 then mret (true, st)
      else
        '(ok, (wire_type, t, eof), stream) ← pb_decode_tag (ds_stream st);
        let st := mk_dstate stream (ds_iter st) (fields_seen st)
                    (extension_range_start st) (fixed_count_field st) in
        if negb ok then mret (eof, st)
        else
          let '(found, iter) := pb_field_iter_find (ds_iter st) t in
          let st := mk_dstate stream iter (fields_seen st)
                      (extension_range_start st) (fixed_count_field st) in
          '(ok, st) ←
            (if negb found then decode_unknown rec n st t wire_type
             else
               '(ok, st) ← fixed_count_setup fields fixed_count_size st;
               if negb ok then mret (false, st)
               else
                 let seen := mark_seen (ds_iter st) (fields_seen st) in
                 '(ok, stream, iter) ←
                   decode_field rec n (ds_stream st) wire_type (ds_iter st);
                 mret (ok, mk_dstate stream iter seen (extension_range_start st)
                             (fixed_count_field st)));
          if negb ok then mret (false, st)
          else decode_loop rec n k fields fixed_count_size st
  end.

(** [do { req_field_count = ...; last_type = ...; } while (next)]. *)
Fixpoint last_field_loop (k : nat) (iter : pb_field_iter_t)
  : Z * Z * pb_field_iter_t :=
  let '(more, iter') := pb_field_iter_next iter in
  match k with
  | O => (required_field_index iter, type (cur iter), iter')
  | S k => if more then last_field_loop k iter'
           else (required_field_index iter, type (cur iter), iter')
  end.

Definition req_field_count (iter : pb_field_iter_t) : Z :=
  let '(count, last_type, iter) := last_field_loop (length (start iter)) iter in
  let count := if (PB_HTYPE last_type =? PB_HTYPE_REQUIRED) && negb (tag (cur iter) =? 0)
               then u32 (count + 1) else count in
  if count >? PB_MAX_REQUIRED_FIELDS then PB_MAX_REQUIRED_FIELDS else count.

(** The comparison of [fields_seen] with the expected bits. *)
Definition all_required_seen (count : Z) (seen : list Z) : bool :=
  let allbits := 2 ^ 32 - 1 in
  let words := Z.shiftr count 5 in
  forallb (fun wd => wd =? allbits) (take (Z.to_nat words) seen) &&
  ((Z.land count 31 =? 0) ||
   (nth (Z.to_nat words) seen 0 =? Z.shiftr allbits (32 - Z.land count 31))).

Definition decode_noinit_body (rec : decode_fn) (n : nat) (stream : pb_istream_t)
    (fields : list pb_field_t) (dest_struct : Z) : M (bool * pb_istream_t) :=
  with_local (le_bytes sizeof_pb_size_t 0) (fun fixed_count_size =>
    let iter := snd (pb_field_iter_begin fields dest_struct) in
    '(ok, st) ← decode_loop rec n (S (Z.to_nat (bytes_left stream))) fields
                  fixed_count_size (mk_dstate stream iter [0; 0] 0 None);
    let stream := ds_stream st in
    if negb ok then mret (false, stream)
    else
      bad ← match fixed_count_field st with
            | None => mret false
            | Some i =>
                c ← load_uint sizeof_pb_size_t fixed_count_size;
                mret (negb (c =? array_size (fld fields i)))
            end;
      if bad : bool then i_error stream "wrong size for fixed count field"
      else
        let count := req_field_count (ds_iter st) in
        if (count >? 0) && negb (all_required_seen count (fields_seen st))
        then i_error stream "missing required field"
        else mret (true, stream)).

Fixpoint pb_decode_noinit (n : nat) (stream : pb_istream_t)
    (fields : list pb_field_t) (dest_struct : Z) : M (bool * pb_istream_t) :=
  match n with
  | O => stop OutOfFuel
  | S n => decode_noinit_body (pb_decode_noinit n) n stream fields dest_struct
  end.

Definition pb_decode (n : nat) : decode_fn := pb_decode_of (pb_decode_noinit n) n.

(** [pb_decode_delimited] and its noinit form differ in the inner call. *)
Definition decode_delimited_with (inner : decode_fn) : decode_fn :=
  fun stream fields dest_struct =>
    '(ok, stream, substream) ← pb_make_string_substream stream;
    if negb ok then mret (false, stream)
    else
      '(status, substream) ← inner substream fields dest_struct;
      '(ok, stream) ← pb_close_string_substream stream substream;
      if negb ok then mret (false, stream) else mret (status, stream).

Definition pb_decode_delimited_noinit (n : nat) : decode_fn :=
  decode_delimited_with (pb_decode_noinit n).

Definition pb_decode_delimited (n : nat) : decode_fn :=
  decode_delimited_with (pb_decode n).

Definition pb_decode_nullterminated (n : nat) : decode_fn := pb_decode n.
End Decode.
