(* ===== verification/Wire.v ===== *)
(** The wire primitives: what the encoders of pb_encode.h write, and that the
    decoders of pb_decode.h read it back.

    The reference varint is [Leb128.leb128].  [ibuf w s bs] says that
    the input stream [s] is a memory buffer that still holds the bytes [bs];
    [oroom w s n] that the output stream [s] is a memory buffer with room for
    [n] more. *)

From S2P Require Import Prelude CMem PbTypes Encode Decode Leb128.
Open Scope Z_scope.
Open Scope pb_scope.

(** * Buffer streams *)

Definition iadv (s : pb_istream_t) (k : Z) : pb_istream_t :=
  mk_istream (i_callback s) (i_state s + k) (bytes_left s - k) (i_errmsg s).

Record ibuf (w : world) (s : pb_istream_t) (bs : list byte) : Prop := {
  ibuf_cb : i_callback s = buf_read_cb;
  ibuf_left : bytes_left s = Z.of_nat (length bs);
  ibuf_lt : Z.of_nat (length bs) < 2 ^ 64;
  ibuf_read : mem_read (w_mem w) (i_state s) (length bs) = Some bs;
}.

Definition oadv (s : pb_ostream_t) (k : Z) : pb_ostream_t :=
  mk_ostream (o_callback s) (o_state s + k) (max_size s) (bytes_written s + k) (o_errmsg s).

Record oroom (w : world) (s : pb_ostream_t) (n : Z) : Prop := {
  oroom_cb : o_callback s = buf_write_cb;
  oroom_mapped : mapped (w_mem w) (o_state s) n;
  oroom_written : 0 <= bytes_written s;
  oroom_fits : bytes_written s + n <= max_size s;
  oroom_max : max_size s < 2 ^ 64;
}.

(** [w] with [bs] written where the output stream stands. *)
Definition put (w : world) (s : pb_ostream_t) (bs : list byte) : world :=
  set_mem w (mem_write (w_mem w) (o_state s) bs).

Lemma oroom_le w s n m : oroom w s n -> m <= n -> oroom w s m.
Proof.
  intros [H1 H2 H3 H4 H5] Hm. split; auto; [|lia].
  eapply mapped_sub; [exact H2 | lia | lia].
Qed.

Lemma ibuf_put w s bs :
  Z.of_nat (length bs) < 2 ^ 64 ->
  ibuf (put w s bs) (pb_istream_from_buffer (o_state s) (Z.of_nat (length bs))) bs.
Proof. intros Hl. split; try done. apply mem_read_write_eq. Qed.

(** * Bytes of the varint loop *)

Lemma varint_loop_0 n : varint_loop n 0 = [].
Proof. by destruct n. Qed.

Lemma clear_last_cons b bs : bs <> [] -> clear_last (b :: bs) = b :: clear_last bs.
Proof. by destruct bs. Qed.

Lemma varint_loop_nonempty n v : 0 < v -> n <> O -> varint_loop n v <> [].
Proof.
  intros Hv Hn. destruct n as [|n]; [done|]. cbn [varint_loop].
  by rewrite (proj2 (Z.eqb_neq _ _)) by lia.
Qed.

Lemma varint_loop_leb n v :
  0 < v -> v < 128 ^ Z.of_nat n -> clear_last (varint_loop n v) = leb128 n v.
Proof.
  revert v; induction n as [|n IH]; intros v Hv Hlt; [cbn in Hlt; lia|].
  cbn [varint_loop leb128]. rewrite (proj2 (Z.eqb_neq _ _)) by lia.
  rewrite land_127, Z.shiftr_div_pow2 by lia. change (2 ^ 7) with 128.
  pose proof (Z.mod_pos_bound v 128 ltac:(lia)).
  rewrite lor_128 by lia.
  destruct (Z.ltb_spec v 128).
  - rewrite (Z.div_small v), varint_loop_0 by lia. cbn [clear_last].
    rewrite b2z_z2b_small, (Z.mod_small v) by lia.
    rewrite land_127. rewrite <- (Z.mul_1_l 128) at 1. rewrite Z_mod_plus_full.
    by rewrite Z.mod_small by lia.
  - assert (0 < v / 128) by (apply Z.div_str_pos; lia).
    rewrite Nat2Z.inj_succ, Z.pow_succ_r in Hlt by lia.
    assert (v / 128 < 128 ^ Z.of_nat n) by (apply Z.div_lt_upper_bound; lia).
    assert (n <> O).
    { intros ->. cbn in Hlt. lia. }
    rewrite clear_last_cons by (apply varint_loop_nonempty; [lia | done]).
    f_equal. by apply IH.
Qed.

Lemma varint_buffer_eq v : 0 < v < 2 ^ 64 -> varint_buffer v = varint v.
Proof.
  intros Hv. apply varint_loop_leb; [lia|].
  apply (Z.lt_trans _ (2 ^ 64)); [lia | reflexivity].
Qed.

(** * Output *)

Section Output.
Context `{UserCode}.

Lemma set_bytes_written_eq s k :
  0 <= bytes_written s -> bytes_written s + k <= max_size s -> max_size s < 2 ^ 64 -> 0 <= k ->
  set_bytes_written (set_o_state s (o_state s + k)) (u64 (bytes_written s + k)) = oadv s k.
Proof. intros. unfold set_bytes_written, set_o_state, oadv; cbn. by rewrite u64_small by lia. Qed.

Lemma pb_write_sizing s buf n w :
  o_callback s = null_cb ->
  pb_write s buf n w = Ok (true, set_bytes_written s (u64 (bytes_written s + n))) w.
Proof. intros Hc. unfold pb_write. by rewrite Hc. Qed.

Lemma pb_write_local s bs w :
  oroom w s (Z.of_nat (length bs)) ->
  pb_write s (SrcLocal bs) (Z.of_nat (length bs)) w
  = Ok (true, oadv s (Z.of_nat (length bs))) (put w s bs).
Proof.
  intros [Hc Hm H0 Hf Hx]. unfold pb_write. rewrite Hc.
  rewrite u64_small by lia.
  destruct (_ >? _) eqn:E; [lia|].
  erewrite bind_eq.
  2: { unfold buf_write. erewrite bind_eq by (by apply store_bytes_eq). done. }
  cbn [negb]. unfold mret, M_ret. do 2 f_equal.
  rewrite <- set_bytes_written_eq by lia. cbn. by rewrite u64_small by lia.
Qed.
End Output.

(** * Encoders emit the reference bytes *)

Section Encoders.
Context `{UserCode}.

Lemma pb_encode_varint_eq s v :
  0 <= v < 2 ^ 64 ->
  pb_encode_varint s v = pb_write s (SrcLocal (varint v)) (Z.of_nat (length (varint v))).
Proof.
  intros Hv. unfold pb_encode_varint. destruct (Z.leb_spec v 0x7F).
  - by rewrite varint_small.
  - by rewrite varint_buffer_eq by lia.
Qed.

Lemma tag_value t wt :
  0 <= t < 2 ^ 32 -> 0 <= wt < 8 ->
  Z.lor (u64 (Z.shiftl t 3)) wt = t * 8 + wt /\ 0 <= t * 8 + wt < 2 ^ 64.
Proof.
  intros Ht Hw. rewrite Z.shiftl_mul_pow2, u64_small by lia.
  rewrite lor_add_l by lia. lia.
Qed.

Lemma pb_encode_tag_eq s t wt :
  0 <= t < 2 ^ 32 -> 0 <= wt < 8 ->
  pb_encode_tag s wt t = pb_encode_varint s (t * 8 + wt).
Proof. intros Ht Hw. unfold pb_encode_tag. by destruct (tag_value t wt) as [-> _]. Qed.
End Encoders.

(** * Input *)

Lemma iadv_iadv s a b : iadv (iadv s a) b = iadv s (a + b).
Proof. unfold iadv; cbn. f_equal; lia. Qed.

Lemma iadv_0 s : iadv s 0 = s.
Proof. destruct s; unfold iadv; cbn. f_equal; lia. Qed.

Lemma ibuf_adv w s xs ys :
  ibuf w s (xs ++ ys) -> ibuf w (iadv s (Z.of_nat (length xs))) ys.
Proof.
  intros [Hc Hl Hlt Hr]. rewrite length_app in *. split; cbn; [done | lia | lia |].
  apply mem_read_Some in Hr as [_ Hi]. apply mem_read_Some. split; [done|].
  intros i Hlti. specialize (Hi (length xs + i)%nat ltac:(lia)).
  rewrite lookup_app_r in Hi by lia.
  replace (length xs + i - length xs)%nat with i in Hi by lia.
  rewrite <- Hi. f_equal. lia.
Qed.

Lemma ibuf_take w s xs ys :
  ibuf w s (xs ++ ys) -> mem_read (w_mem w) (i_state s) (length xs) = Some xs.
Proof.
  intros [_ _ _ Hr]. rewrite length_app in Hr.
  apply mem_read_Some in Hr as [_ Hi]. apply mem_read_Some. split; [done|].
  intros i Hlt. rewrite Hi by lia. by rewrite lookup_app_l by lia.
Qed.

Section Input.
Context `{UserCode}.

Lemma pb_readbyte_cons w s b bs :
  ibuf w s (b :: bs) -> pb_readbyte s w = Ok (true, b2z b, iadv s 1) w.
Proof.
  intros Hb. pose proof (ibuf_take w s [b] bs Hb) as Hr.
  destruct Hb as [Hc Hl Hlt _]. cbn [length] in *.
  unfold pb_readbyte. rewrite (proj2 (Z.eqb_neq _ _)) by lia.
  unfold call_read. rewrite Hc.
  erewrite bind_eq.
  2: { unfold buf_read. erewrite bind_eq by (by apply load_bytes_eq). done. }
  cbn [negb take le_val]. unfold mret, M_ret, iadv, set_bytes_left, set_i_state; cbn.
  rewrite Hc, u64_small by lia. by rewrite Z.add_0_r.
Qed.

Lemma pb_readbyte_nil w s :
  ibuf w s [] ->
  pb_readbyte s w =
    Ok (false, 0, set_i_errmsg s (PB_SET_ERROR (i_errmsg s) "end-of-stream")) w.
Proof. intros [_ Hl _ _]. unfold pb_readbyte. by rewrite Hl. Qed.

Lemma pb_read_local w s xs ys :
  ibuf w s (xs ++ ys) ->
  pb_read s ToLocal (Z.of_nat (length xs)) w
  = Ok (true, xs, iadv s (Z.of_nat (length xs))) w.
Proof.
  intros Hb. pose proof (ibuf_take _ _ _ _ Hb) as Hr.
  destruct Hb as [Hc Hl Hlt _]. rewrite length_app in *.
  unfold pb_read, pb_read_chunk.
  destruct (Z.ltb_spec (bytes_left s) (Z.of_nat (length xs))); [lia|].
  unfold call_read. rewrite Hc.
  erewrite bind_eq.
  2: { unfold buf_read. rewrite Nat2Z.id.
       erewrite bind_eq by (by apply load_bytes_eq). done. }
  cbn [negb]. unfold mret, M_ret, iadv, set_bytes_left, set_i_state; cbn.
  by rewrite Hc, u64_small by lia.
Qed.

Lemma pb_read_null w s xs ys :
  ibuf w s (xs ++ ys) ->
  pb_read s ToNull (Z.of_nat (length xs)) w
  = Ok (true, [], iadv s (Z.of_nat (length xs))) w.
Proof.
  intros [Hc Hl Hlt _]. rewrite length_app in *.
  unfold pb_read, pb_read_chunk. rewrite Hc.
  destruct (Z.ltb_spec (bytes_left s) (Z.of_nat (length xs))); [lia|].
  unfold call_read. rewrite Hc.
  unfold buf_read, mbind, M_bind, mret, M_ret; cbn [negb].
  unfold iadv, set_bytes_left, set_i_state; cbn.
  by rewrite Hc, u64_small by lia.
Qed.

Lemma varint_read_loop_leb n k :
  forall v s result bitpos rest w,
  ibuf w s (leb128 k v ++ rest) -> 0 <= v -> v < 128 ^ Z.of_nat k -> (k <= n)%nat ->
  0 <= result < 2 ^ bitpos -> 0 <= bitpos -> bitpos + 7 * Z.of_nat k <= 70 ->
  result + v * 2 ^ bitpos < 2 ^ 64 -> k <> O ->
  varint_read_loop n s result bitpos w =
    Ok (true, result + v * 2 ^ bitpos, iadv s (Z.of_nat (length (leb128 k v)))) w.
Proof.
  revert k; induction n as [|n IH];
    intros k v s result bitpos rest w Hb Hv Hvk Hk Hr Hp Hpk Hlt Hk0; [lia|].
  destruct k as [|k]; [done|]. cbn [varint_read_loop].
  destruct (Z.geb_spec bitpos 64); [lia|].
  destruct (digit_step result v bitpos) as [Hd Hd']; [lia..|].
  cbn [leb128] in *. pose proof (Z.mod_pos_bound v 128 ltac:(lia)).
  destruct (Z.ltb_spec v 128) as [Hs|Hs].
  - erewrite bind_eq by (exact (pb_readbyte_cons _ _ _ _ Hb)). cbn [negb].
    rewrite b2z_z2b_small, land_127, land_128 by lia.
    rewrite (proj2 (Z.ltb_lt _ _)) by lia. cbn [negb length].
    rewrite Hd, (Z.mod_small v) by lia. done.
  - erewrite bind_eq by (exact (pb_readbyte_cons _ _ _ _ Hb)). cbn [negb].
    rewrite b2z_z2b_small, land_127, land_128 by lia.
    destruct (Z.ltb_spec (v mod 128 + 128) 128); [lia|]. cbn [negb].
    rewrite mod_128_hi, Hd by lia.
    rewrite u8_small by lia.
    assert (0 < 2 ^ bitpos) by (apply Z.pow_pos_nonneg; lia).
    pose proof (Z.div_mod v 128 ltac:(lia)) as Hdm.
    assert (1 <= v / 128) by (apply Z.div_le_lower_bound; lia).
    rewrite Nat2Z.inj_succ, Z.pow_succ_r in Hvk by lia.
    assert (v / 128 < 128 ^ Z.of_nat k) by (apply Z.div_lt_upper_bound; lia).
    assert (k <> O) by (intros ->; cbn in *; lia).
    assert (result + v mod 128 * 2 ^ bitpos + v / 128 * 2 ^ (bitpos + 7)
            = result + v * 2 ^ bitpos) as Hsum.
    { rewrite Z.pow_add_r by lia. change (2 ^ 7) with 128. nia. }
    rewrite (IH k (v / 128) _ _ _ rest).
    + rewrite Hsum, iadv_iadv. cbn [length]. do 3 f_equal. lia.
    + exact (ibuf_adv w s [_] _ Hb).
    + lia.
    + done.
    + lia.
    + nia.
    + lia.
    + lia.
    + lia.
    + done.
Qed.

(** [pb_decode_varint] reads a varint back. *)
Lemma pb_decode_varint_read w s v rest :
  0 <= v < 2 ^ 64 -> ibuf w s (varint v ++ rest) ->
  pb_decode_varint s w = Ok (true, v, iadv s (Z.of_nat (length (varint v)))) w.
Proof.
  intros Hv Hb. unfold pb_decode_varint.
  rewrite (varint_read_loop_leb 11 10 v s 0 0 rest); try done; try lia.
  do 3 f_equal. lia.
Qed.
End Input.

(** * 32-bit varints: lengths and tags *)

Section Input32.
Context `{UserCode}.

Lemma varint32_loop_leb n k :
  forall v s result bitpos rest w,
  ibuf w s (leb128 k v ++ rest) -> 0 < v -> v < 128 ^ Z.of_nat k ->
  (length (leb128 k v) <= n)%nat ->
  0 <= result < 2 ^ bitpos -> 7 <= bitpos ->
  result + v * 2 ^ bitpos < 2 ^ 32 -> k <> O ->
  exists b bp,
  varint32_loop n s result bitpos w =
    Ok (true, (result + v * 2 ^ bitpos, b, bp), iadv s (Z.of_nat (length (leb128 k v)))) w
  /\ 0 <= b < 128 /\ (bp = 35 -> b < 16).
Proof.
  revert k; induction n as [|n IH];
    intros k v s result bitpos rest w Hb Hv Hvk Hk Hr Hp Hlt Hk0;
    (destruct k as [|k]; [done|]).
  { cbn [leb128] in Hk. destruct (v <? 128); cbn in Hk; lia. }
  cbn [varint32_loop].
  assert (0 < 2 ^ bitpos) by (apply Z.pow_pos_nonneg; lia).
  assert (bitpos < 32) as Hp32.
  { apply (Z.pow_lt_mono_r_iff 2); nia. }
  destruct (digit_step result v bitpos) as [Hd Hd']; [nia..|].
  assert (u32 (Z.shiftl (v mod 128) bitpos) = u64 (Z.shiftl (v mod 128) bitpos)) as Hu.
  { pose proof (Z.mod_pos_bound v 128 ltac:(lia)).
    pose proof (Z.mod_le v 128 ltac:(lia) ltac:(lia)).
    rewrite Z.shiftl_mul_pow2, u32_small, u64_small by nia. done. }
  rewrite <- Hu in Hd. clear Hu.
  cbn [leb128] in *. pose proof (Z.mod_pos_bound v 128 ltac:(lia)).
  destruct (Z.ltb_spec v 128) as [Hs|Hs].
  - erewrite bind_eq by (exact (pb_readbyte_cons _ _ _ _ Hb)). cbn [negb].
    destruct (Z.geb_spec bitpos 32); [lia|].
    rewrite b2z_z2b_small, land_127, land_128 by lia.
    rewrite (proj2 (Z.ltb_lt _ _)) by lia. cbn [negb length].
    rewrite Hd, (Z.mod_small v), u8_small by lia.
    exists v, (bitpos + 7). split_and!; [done | lia | lia |].
    intros Hbp. replace bitpos with 28 in Hlt by lia. lia.
  - erewrite bind_eq by (exact (pb_readbyte_cons _ _ _ _ Hb)). cbn [negb].
    destruct (Z.geb_spec bitpos 32); [lia|].
    rewrite b2z_z2b_small, land_127, land_128 by lia.
    destruct (Z.ltb_spec (v mod 128 + 128) 128); [lia|]. cbn [negb].
    rewrite mod_128_hi, Hd by lia.
    rewrite u8_small by lia.
    pose proof (Z.div_mod v 128 ltac:(lia)) as Hdm.
    assert (1 <= v / 128) by (apply Z.div_le_lower_bound; lia).
    rewrite Nat2Z.inj_succ, Z.pow_succ_r in Hvk by lia.
    assert (v / 128 < 128 ^ Z.of_nat k) by (apply Z.div_lt_upper_bound; lia).
    assert (k <> O) by (intros ->; cbn in *; lia).
    assert (result + v mod 128 * 2 ^ bitpos + v / 128 * 2 ^ (bitpos + 7)
            = result + v * 2 ^ bitpos) as Hsum.
    { rewrite Z.pow_add_r by lia. change (2 ^ 7) with 128. nia. }
    destruct (IH k (v / 128) (iadv s 1) (result + v mod 128 * 2 ^ bitpos)
                (bitpos + 7) rest w) as (b & bp & E & Hb1 & Hb2); try done; try (cbn [length] in Hk; lia).
    + exact (ibuf_adv w s [_] _ Hb).
    + exists b, bp. split; [|done].
      rewrite E, Hsum, iadv_iadv. cbn [length]. do 3 f_equal. lia.
Qed.

Lemma pb_decode_varint32_eof_read w s v rest :
  0 <= v < 2 ^ 32 -> ibuf w s (varint v ++ rest) ->
  pb_decode_varint32_eof s w =
    Ok (true, (v, false), iadv s (Z.of_nat (length (varint v)))) w.
Proof.
  intros Hv Hb. unfold pb_decode_varint32_eof.
  pose proof (Z.mod_pos_bound v 128 ltac:(lia)).
  destruct (Z.lt_ge_cases v 128) as [Hs|Hs].
  - rewrite varint_small in * by lia.
    erewrite bind_eq by (exact (pb_readbyte_cons _ _ _ _ Hb)). cbn [negb].
    rewrite b2z_z2b_small, land_128 by lia. by rewrite (proj2 (Z.ltb_lt _ _)) by lia.
  - rewrite varint_cons in * by lia.
    erewrite bind_eq by (exact (pb_readbyte_cons _ _ _ _ Hb)). cbn [negb].
    rewrite b2z_z2b_small, land_127, land_128 by lia.
    destruct (Z.ltb_spec (v mod 128 + 128) 128); [lia|].
    rewrite mod_128_hi by lia.
    pose proof (Z.div_mod v 128 ltac:(lia)) as Hdm.
    assert (1 <= v / 128) by (apply Z.div_le_lower_bound; lia).
    assert (ibuf w (iadv s 1) (leb128 9 (v / 128) ++ rest)) as Hb' by exact (ibuf_adv w s [_] _ Hb).
    destruct (varint32_loop_leb (S (Z.to_nat (bytes_left (iadv s 1)))) 9 (v / 128)
                (iadv s 1) (v mod 128) 7 rest w) as (b & bp & E & Hb1 & Hb2);
      try done; try lia.
    + rewrite (ibuf_left _ _ _ Hb'), length_app. lia.
    + erewrite bind_eq by exact E. cbn [negb].
      replace ((bp =? 35) && negb (Z.land b 0x70 =? 0)) with false.
      * cbn [length]. rewrite iadv_iadv. unfold mret, M_ret. do 3 f_equal; [|lia].
        f_equal. change (2 ^ 7) with 128. lia.
      * destruct (Z.eqb_spec bp 35) as [E35|]; [|done].
        specialize (Hb2 E35). change 0x70 with (7 * 2 ^ 4).
        by rewrite land_disjoint by lia.
Qed.

Lemma pb_decode_varint32_read w s v rest :
  0 <= v < 2 ^ 32 -> ibuf w s (varint v ++ rest) ->
  pb_decode_varint32 s w = Ok (true, v, iadv s (Z.of_nat (length (varint v)))) w.
Proof.
  intros Hv Hb. unfold pb_decode_varint32.
  by erewrite bind_eq by (by eapply pb_decode_varint32_eof_read).
Qed.

Lemma pb_decode_tag_read w s t wt rest :
  0 < t < 2 ^ 29 -> 0 <= wt < 8 -> ibuf w s (varint (t * 8 + wt) ++ rest) ->
  pb_decode_tag s w =
    Ok (true, (wt, t, false), iadv s (Z.of_nat (length (varint (t * 8 + wt))))) w.
Proof.
  intros Ht Hw Hb. unfold pb_decode_tag.
  erewrite bind_eq by (apply (pb_decode_varint32_eof_read w s (t * 8 + wt) rest); [lia | exact Hb]).
  cbn [negb]. rewrite (proj2 (Z.eqb_neq _ _)) by lia.
  rewrite land_7, Z.shiftr_div_pow2 by lia. change (2 ^ 3) with 8.
  rewrite Z.div_add_l, (Z.div_small wt 8), Z.add_0_r by lia.
  rewrite Z.add_comm, Z_mod_plus_full, Z.mod_small by lia.
  by rewrite (Z.add_comm wt).
Qed.
End Input32.

(** * Fixed-width values and zigzag *)

Lemma or_bytes_val sh bs : 0 <= sh -> or_bytes sh bs = le_val bs * 2 ^ sh.
Proof.
  revert sh; induction bs as [|b bs IH]; intros sh Hsh; cbn [or_bytes le_val]; [done|].
  rewrite IH by lia. rewrite Z.pow_add_r by lia.
  rewrite (Z.mul_comm (2 ^ sh) (2 ^ 8)), Z.mul_assoc, <- !Z.shiftl_mul_pow2 by lia.
  rewrite <- Z.shiftl_lor. f_equal. pose proof (b2z_bound b).
  rewrite Z.shiftl_mul_pow2, lor_add by lia. lia.
Qed.

Lemma z2b_byte v d k : 0 <= k -> d = 2 ^ k -> z2b (Z.land (Z.shiftr v k) 0xFF) = z2b (v / d).
Proof. intros Hk ->. by rewrite land_255, z2b_mod, Z.shiftr_div_pow2 by lia. Qed.

Lemma z2b_byte0 v : z2b (Z.land v 0xFF) = z2b v.
Proof. by rewrite land_255, z2b_mod. Qed.

Ltac bytes_eq :=
  cbn [le_bytes]; rewrite !Zdiv.Zdiv_Zdiv by lia; rewrite z2b_byte0; f_equal;
  repeat (apply (f_equal2 cons); [by apply z2b_byte|]); done.

Lemma fixed32_bytes_eq v : fixed32_bytes v = le_bytes 4 v.
Proof. unfold fixed32_bytes. bytes_eq. Qed.

Lemma fixed64_bytes_eq v : fixed64_bytes v = le_bytes 8 v.
Proof. unfold fixed64_bytes. bytes_eq. Qed.

Lemma zigzag_eq v : - 2 ^ 63 <= v < 2 ^ 63 -> zigzag v = if v <? 0 then -2 * v - 1 else 2 * v.
Proof.
  intros Hv. unfold zigzag, not64, u64. rewrite !Z.shiftl_mul_pow2 by lia.
  destruct (Z.ltb_spec v 0).
  - rewrite <- (Z_mod_plus_full v 1), (Z.mod_small (v + 1 * 2 ^ 64)) by lia.
    replace ((v + 1 * 2 ^ 64) * 2 ^ 1) with ((2 * v + 2 ^ 64) + 1 * 2 ^ 64) by lia.
    rewrite Z_mod_plus_full, Z.mod_small by lia. lia.
  - rewrite (Z.mod_small v), Z.mod_small by lia. lia.
Qed.

Lemma zigzag_bound v : - 2 ^ 63 <= v < 2 ^ 63 -> 0 <= zigzag v < 2 ^ 64.
Proof. intros Hv. rewrite zigzag_eq by done. destruct (Z.ltb_spec v 0); lia. Qed.

Lemma unzigzag_zigzag v : - 2 ^ 63 <= v < 2 ^ 63 -> unzigzag (zigzag v) = v.
Proof.
  intros Hv. rewrite zigzag_eq by done. unfold unzigzag, not64.
  rewrite land_1, Z.shiftr_div_pow2 by lia. change (2 ^ 1) with 2.
  destruct (Z.ltb_spec v 0).
  - replace (-2 * v - 1) with (1 + (- v - 1) * 2) by lia.
    rewrite Z_mod_plus_full, Z.div_add by lia. change (1 / 2) with 0. cbn [Z.modulo negb].
    change (negb (1 mod 2 =? 0)) with true. cbv iota.
    rewrite u64_small by lia. unfold s64.
    rewrite (sx_eq_mod 64 _ v); [by apply sx_small|].
    rewrite <- (Z_mod_plus_full v 1 (2 ^ 64)). f_equal. lia.
  - replace (2 * v) with (0 + v * 2) by lia.
    rewrite Z_mod_plus_full, Z.div_add by lia.
    change (negb (0 mod 2 =? 0)) with false. cbv iota. apply sx_small; lia.
Qed.
