(* ===== verification/Codec.v ===== *)
(** The primitives of the wire format, written and read back.

    What one of pb_encode.h's primitives writes into a buffer, the matching
    primitive of pb_decode.h reads from it, taking exactly the bytes written;
    [pb_skip_field] takes exactly the bytes of a value of any wire type; a
    substream covers exactly one delimited value, and closing it leaves the
    parent right after that value, however much of it was read. *)

From S2P Require Import Prelude CMem PbTypes Encode Decode Wire Leb128.
Open Scope Z_scope.
Open Scope pb_scope.

(** * Values on the wire *)

(** [wire_value wt bs]: [bs] is the encoding of some value of wire type [wt].
    The bytes of a varint but the last have the top bit set. *)
Inductive wire_value : Z -> list byte -> Prop :=
| WireVarint bs b :
    Forall (fun c => 128 <= b2z c) bs -> b2z b < 128 -> wire_value PB_WT_VARINT (bs ++ [b])
| Wire64 bs : length bs = 8%nat -> wire_value PB_WT_64BIT bs
| WireString bs :
    Z.of_nat (length bs) < 2 ^ 32 ->
    wire_value PB_WT_STRING (varint (Z.of_nat (length bs)) ++ bs)
| Wire32 bs : length bs = 4%nat -> wire_value PB_WT_32BIT bs.

Section Codec.
Context `{UserCode}.

(** ** Round trips *)

(** What was written is all the stream over it holds. *)
Lemma written_stream w os bs :
  Z.of_nat (length bs) < 2 ^ 64 ->
  ibuf (put w os bs) (pb_istream_from_buffer (o_state os) (Z.of_nat (length bs))) (bs ++ []).
Proof. intros Hl. rewrite app_nil_r. by apply ibuf_put. Qed.

(** Every 64-bit value is written as a varint of one to ten bytes, the
    base-128 digits, and [pb_decode_varint] reads it back, taking all of them. *)
Theorem varint_roundtrip v os w :
  0 <= v < 2 ^ 64 -> oroom w os 10 ->
  exists k w1,
    1 <= k <= 10 /\
    pb_encode_varint os v w = Ok (true, oadv os k) w1 /\
    mem_read (w_mem w1) (o_state os) (Z.to_nat k) = Some (leb128 10 v) /\
    pb_decode_varint (pb_istream_from_buffer (o_state os) k) w1
      = Ok (true, v, iadv (pb_istream_from_buffer (o_state os) k) k) w1.
Proof.
  intros Hv Ho. pose proof (length_varint v) as Hl.
  exists (Z.of_nat (length (varint v))), (put w os (varint v)). split_and!; try lia.
  - rewrite pb_encode_varint_eq by done. apply pb_write_local.
    eapply oroom_le; [exact Ho | lia].
  - rewrite Nat2Z.id. apply mem_read_write_eq.
  - apply (pb_decode_varint_read _ _ _ []); [done | apply written_stream; lia].
Qed.

(** Every signed 64-bit value written by [pb_encode_svarint] is read back by
    [pb_decode_svarint]; on the wire it is the zigzag number of the value, so
    that small magnitudes of either sign take few bytes. *)
Theorem svarint_roundtrip v os w :
  - 2 ^ 63 <= v < 2 ^ 63 -> oroom w os 10 ->
  exists k w1,
    1 <= k <= 10 /\
    pb_encode_svarint os v w = Ok (true, oadv os k) w1 /\
    mem_read (w_mem w1) (o_state os) (Z.to_nat k)
      = Some (leb128 10 (if v <? 0 then -2 * v - 1 else 2 * v)) /\
    pb_decode_svarint (pb_istream_from_buffer (o_state os) k) w1
      = Ok (true, v, iadv (pb_istream_from_buffer (o_state os) k) k) w1.
Proof.
  intros Hv Ho. pose proof (length_varint (zigzag v)) as Hl. pose proof (zigzag_bound v Hv) as Hz.
  exists (Z.of_nat (length (varint (zigzag v)))), (put w os (varint (zigzag v))).
  split_and!; try lia.
  - unfold pb_encode_svarint. rewrite pb_encode_varint_eq by done. apply pb_write_local.
    eapply oroom_le; [exact Ho | lia].
  - rewrite Nat2Z.id, <- zigzag_eq by done. apply mem_read_write_eq.
  - unfold pb_decode_svarint.
    erewrite bind_eq by (apply (pb_decode_varint_read _ _ (zigzag v) []);
      [done | apply written_stream; lia]).
    cbv beta iota. by rewrite unzigzag_zigzag.
Qed.

(** The key of a field, written by [pb_encode_tag], is read back by
    [pb_decode_tag] as the same wire type and field number, and not as the end
    of the message. *)
Theorem tag_roundtrip t wt os w :
  0 < t < 2 ^ 29 -> 0 <= wt < 8 -> oroom w os 10 ->
  exists k w1,
    pb_encode_tag os wt t w = Ok (true, oadv os k) w1 /\
    pb_decode_tag (pb_istream_from_buffer (o_state os) k) w1
      = Ok (true, (wt, t, false), iadv (pb_istream_from_buffer (o_state os) k) k) w1.
Proof.
  intros Ht Hwt Ho. pose proof (length_varint (t * 8 + wt)) as Hl.
  exists (Z.of_nat (length (varint (t * 8 + wt)))), (put w os (varint (t * 8 + wt))). split.
  - rewrite pb_encode_tag_eq, pb_encode_varint_eq by lia. apply pb_write_local.
    eapply oroom_le; [exact Ho | lia].
  - apply (pb_decode_tag_read _ _ _ _ []); [done | done | apply written_stream; lia].
Qed.

(** ** Skipping *)

Lemma skip_varint_loop_read bs : forall n b s rest w,
  Forall (fun c => 128 <= b2z c) bs -> b2z b < 128 -> (length bs < n)%nat ->
  ibuf w s ((bs ++ [b]) ++ rest) ->
  skip_varint_loop n s w = Ok (true, iadv s (Z.of_nat (length (bs ++ [b])))) w.
Proof.
  assert (forall c, (Z.land (le_val [c]) 0x80 =? 0) = (b2z c <? 128)) as Hbit.
  { intros c. cbn [le_val]. rewrite Z.mul_0_r, Z.add_0_r. apply land_128, b2z_bound. }
  induction bs as [|c bs IH]; intros n b s rest w Hbs Hb Hn Hi;
    (destruct n as [|n]; [cbn in Hn; lia|]); cbn [skip_varint_loop].
  - erewrite bind_eq by (exact (pb_read_local w s [b] rest Hi)). cbn [negb].
    rewrite Hbit, (proj2 (Z.ltb_lt _ _)) by lia. done.
  - pose proof (Forall_inv Hbs) as Hc. apply Forall_inv_tail in Hbs. cbn beta in Hc.
    erewrite bind_eq by (exact (pb_read_local w s [c] _ Hi)). cbn [negb].
    rewrite Hbit, (proj2 (Z.ltb_ge _ _)) by lia. cbn [negb].
    rewrite (IH n b _ rest); try done; [|cbn in Hn; lia|].
    + rewrite iadv_iadv. cbn [length app]. do 3 f_equal. lia.
    + exact (ibuf_adv w s [c] _ Hi).
Qed.

(** [pb_skip_field] on a value of any of the four wire types succeeds and
    takes exactly the bytes of the value, whatever follows. *)
Theorem pb_skip_field_exact wt bs rest s w :
  wire_value wt bs -> ibuf w s (bs ++ rest) ->
  pb_skip_field s wt w = Ok (true, iadv s (Z.of_nat (length bs))) w.
Proof.
  intros Hv Hi. unfold pb_skip_field. pose proof (ibuf_left _ _ _ Hi) as Hleft.
  rewrite length_app in Hleft.
  assert (forall n, n = Z.of_nat (length bs) ->
    pb_read_ s ToNull n w = Ok (true, iadv s (Z.of_nat (length bs))) w) as Hfix.
  { intros n ->. unfold pb_read_. by erewrite bind_eq by (by eapply pb_read_null). }
  destruct Hv as [bs b Hbs Hb|bs Hl|bs Hl|bs Hl]; cbn [Z.eqb]; eqbs.
  - unfold pb_skip_varint. eapply skip_varint_loop_read; [done | done | | exact Hi].
    rewrite length_app in Hleft. cbn in Hleft. lia.
  - apply Hfix. by rewrite Hl.
  - clear Hfix. unfold pb_skip_string. rewrite <- app_assoc in Hi.
    erewrite bind_eq by (exact (pb_decode_varint32_read w s (Z.of_nat (length bs)) _ ltac:(lia) Hi)).
    cbn [negb]. unfold pb_read_.
    erewrite bind_eq by (exact (pb_read_null _ _ _ _ (ibuf_adv _ _ _ _ Hi))).
    unfold mret, M_ret. rewrite iadv_iadv, length_app. do 3 f_equal. lia.
  - apply Hfix. by rewrite Hl.
Qed.

(** ** Substreams *)

(** [pb_make_string_substream] on a delimited value gives a substream that
    holds exactly the value; closing the substream, after any part of it has
    been read, leaves the parent stream exactly after the value. *)
Theorem substream_exact bs rest s w :
  Z.of_nat (length bs) < 2 ^ 32 ->
  ibuf w s (varint (Z.of_nat (length bs)) ++ bs ++ rest) ->
  exists s1 sub,
    pb_make_string_substream s w = Ok (true, s1, sub) w /\ ibuf w sub bs /\
    forall xs ys e, bs = xs ++ ys ->
      let sub' := set_i_errmsg (iadv sub (Z.of_nat (length xs))) e in
      exists s2, pb_close_string_substream s1 sub' w = Ok (true, s2) w /\
        ibuf w s2 rest /\ i_errmsg s2 = e /\
        i_state s2 = i_state s +
          Z.of_nat (length (varint (Z.of_nat (length bs)) ++ bs)).
Proof.
  intros Hl Hi. set (v := varint (Z.of_nat (length bs))) in *.
  pose proof (ibuf_adv _ _ _ _ Hi) as Hi1. set (s0 := iadv s (Z.of_nat (length v))) in *.
  pose proof Hi1 as [Hc Hleft Hlt Hr]. rewrite length_app in Hleft, Hlt.
  exists (set_bytes_left s0 (bytes_left s0 - Z.of_nat (length bs))),
    (set_bytes_left s0 (Z.of_nat (length bs))).
  assert (ibuf w (set_bytes_left s0 (Z.of_nat (length bs))) bs) as Hsub.
  { split; cbn; try done; [lia|]. exact (ibuf_take _ _ _ _ Hi1). }
  split_and!.
  - unfold pb_make_string_substream.
    erewrite bind_eq by (exact (pb_decode_varint32_read w s (Z.of_nat (length bs)) _ ltac:(lia) Hi)).
    cbn [negb]. fold v. fold s0. destruct (Z.ltb_spec (bytes_left s0) (Z.of_nat (length bs))); [lia|].
    by rewrite u64_small by lia.
  - exact Hsub.
  - intros xs ys e -> sub'.
    assert (ibuf w sub' (ys ++ [])) as Hys.
    { rewrite app_nil_r. destruct (ibuf_adv _ _ xs ys Hsub) as [K1 K2 K3 K4]. by split. }
    pose proof (ibuf_adv _ _ _ _ Hi1) as [_ Hleft2 Hlt2 Hrest].
    exists (mk_istream (i_callback s0) (i_state s0 + Z.of_nat (length (xs ++ ys)))
              (bytes_left s0 - Z.of_nat (length (xs ++ ys))) e).
    split_and!; [| by split | done | fold v; rewrite (length_app v (xs ++ ys)), Nat2Z.inj_add, Z.add_assoc; reflexivity].
    unfold pb_close_string_substream.
    assert (bytes_left sub' = Z.of_nat (length ys)) as El.
    { rewrite (ibuf_left _ _ _ Hys), app_nil_r. done. }
    rewrite El. destruct (Z.eqb_spec (Z.of_nat (length ys)) 0) as [E0|E0]; cbn [negb].
    + erewrite bind_eq by reflexivity. cbn [negb]. unfold mret, M_ret. do 2 f_equal.
      unfold set_i_errmsg, set_i_state, sub'; cbn. rewrite length_app. f_equal. lia.
    + unfold pb_read_. erewrite bind_eq by
        (erewrite bind_eq by (exact (pb_read_null _ _ _ _ Hys)); reflexivity).
      cbn [negb]. unfold mret, M_ret. do 2 f_equal.
      unfold set_i_errmsg, set_i_state, sub'; cbn. rewrite length_app. f_equal. lia.
Qed.
End Codec.

(** * Witnesses *)

Definition demo_world : world := world_of [(0x1000, replicate 16 xff)].
Definition demo_code : UserCode := no_callbacks (fun _ => None).
Definition demo_ostream : pb_ostream_t := pb_ostream_from_buffer 0x1000 16.

Lemma demo_room : oroom demo_world demo_ostream 10.
Proof. split; [done | by apply mapped_world_of | by cbn | by cbn | by cbn]. Qed.

Lemma varint_roundtrip_witness :
  exists k w1,
    1 <= k <= 10 /\
    pb_encode_varint (H := demo_code) demo_ostream (2 ^ 64 - 1) demo_world
      = Ok (true, oadv demo_ostream k) w1 /\
    mem_read (w_mem w1) 0x1000 (Z.to_nat k) = Some (leb128 10 (2 ^ 64 - 1)) /\
    pb_decode_varint (H := demo_code) (pb_istream_from_buffer 0x1000 k) w1
      = Ok (true, 2 ^ 64 - 1, iadv (pb_istream_from_buffer 0x1000 k) k) w1.
Proof. apply (@varint_roundtrip demo_code); [lia | exact demo_room]. Defined.

Lemma svarint_roundtrip_witness :
  exists k w1,
    1 <= k <= 10 /\
    pb_encode_svarint (H := demo_code) demo_ostream (-3) demo_world
      = Ok (true, oadv demo_ostream k) w1 /\
    mem_read (w_mem w1) 0x1000 (Z.to_nat k) = Some (leb128 10 5) /\
    pb_decode_svarint (H := demo_code) (pb_istream_from_buffer 0x1000 k) w1
      = Ok (true, -3, iadv (pb_istream_from_buffer 0x1000 k) k) w1.
Proof. apply (@svarint_roundtrip demo_code (-3)); [lia | exact demo_room]. Defined.

Lemma tag_roundtrip_witness :
  exists k w1,
    pb_encode_tag (H := demo_code) demo_ostream PB_WT_STRING 23 demo_world
      = Ok (true, oadv demo_ostream k) w1 /\
    pb_decode_tag (H := demo_code) (pb_istream_from_buffer 0x1000 k) w1
      = Ok (true, (PB_WT_STRING, 23, false), iadv (pb_istream_from_buffer 0x1000 k) k) w1.
Proof. apply (@tag_roundtrip demo_code); [lia | by vm_compute | exact demo_room]. Defined.

(** Five bytes at [0x2000]: a delimited value of three bytes, and one more. *)
Definition demo_input : world := world_of [(0x2000, [x03; x61; x62; x63; xff])].

Lemma demo_ibuf : ibuf demo_input (pb_istream_from_buffer 0x2000 5) [x03; x61; x62; x63; xff].
Proof. by split. Qed.

Lemma pb_skip_field_exact_witness :
  pb_skip_field (H := demo_code) (pb_istream_from_buffer 0x2000 5) PB_WT_STRING demo_input
  = Ok (true, iadv (pb_istream_from_buffer 0x2000 5) 4) demo_input.
Proof.
  apply (@pb_skip_field_exact demo_code PB_WT_STRING [x03; x61; x62; x63] [xff]).
  - by apply (WireString [x61; x62; x63]).
  - exact demo_ibuf.
Defined.

Lemma substream_exact_witness :
  exists s1 sub,
    pb_make_string_substream (H := demo_code) (pb_istream_from_buffer 0x2000 5) demo_input
      = Ok (true, s1, sub) demo_input /\ ibuf demo_input sub [x61; x62; x63].
Proof.
  destruct (@substream_exact demo_code [x61; x62; x63] [xff] (pb_istream_from_buffer 0x2000 5)
              demo_input) as (s1 & sub & E & Hb & _); [by vm_compute | exact demo_ibuf|].
  by exists s1, sub.
Defined.
