(* ===== verification/Scalar.v ===== *)
(** Scalar fields: the value encoders and decoders that PB_ENCODERS and
    PB_DECODERS hold for the five packable types, at every data size.

    [scalar_wire f bs] is the reference encoding of a field [f] whose value in
    the struct is the bytes [bs]; the encoder writes it, and the decoder of the
    same field reads it back to [bs]. *)

From S2P Require Import Prelude CMem PbTypes Encode Decode Wire Leb128.
Open Scope Z_scope.
Open Scope pb_scope.

(** * Reference *)

Definition int_size (n : Z) : bool := (n =? 1) || (n =? 2) || (n =? 4) || (n =? 8).

(** The descriptors of integer fields the code generator emits. *)
Definition scalar_ok (f : pb_field_t) : bool :=
  let l := PB_LTYPE (type f) in
  if (l =? PB_LTYPE_VARINT) || (l =? PB_LTYPE_UVARINT) || (l =? PB_LTYPE_SVARINT)
  then int_size (data_size f)
  else if l =? PB_LTYPE_FIXED32 then data_size f =? 4
  else if l =? PB_LTYPE_FIXED64 then data_size f =? 8
  else false.

(** The value of a field of [data_size] bytes, read as a signed number. *)
Definition signed_value (bs : list byte) : Z :=
  sx (8 * Z.of_nat (length bs)) (le_val bs).

Definition scalar_wire (f : pb_field_t) (bs : list byte) : list byte :=
  let l := PB_LTYPE (type f) in
  if l =? PB_LTYPE_VARINT then varint (u64 (signed_value bs))
  else if l =? PB_LTYPE_UVARINT then varint (le_val bs)
  else if l =? PB_LTYPE_SVARINT then varint (zigzag (signed_value bs))
  else bs.

(** * Lemmas *)

(** The case split on the type and the size of a scalar field. *)
Lemma scalar_ok_case f :
  scalar_ok f = true ->
  (PB_LTYPE (type f) = PB_LTYPE_VARINT \/ PB_LTYPE (type f) = PB_LTYPE_UVARINT \/
   PB_LTYPE (type f) = PB_LTYPE_SVARINT) /\
  (data_size f = 1 \/ data_size f = 2 \/ data_size f = 4 \/ data_size f = 8) \/
  PB_LTYPE (type f) = PB_LTYPE_FIXED32 /\ data_size f = 4 \/
  PB_LTYPE (type f) = PB_LTYPE_FIXED64 /\ data_size f = 8.
Proof. unfold scalar_ok, int_size. repeat split_if; lia. Qed.

Lemma signed_value_bound bs :
  (0 < length bs <= 8)%nat -> - 2 ^ 63 <= signed_value bs < 2 ^ 63.
Proof.
  intros Hl. unfold signed_value.
  pose proof (sx_bound (8 * Z.of_nat (length bs)) (le_val bs) ltac:(lia)).
  pose proof (Z.pow_le_mono_r 2 (8 * Z.of_nat (length bs) - 1) 63 ltac:(lia) ltac:(lia)). lia.
Qed.

Lemma le_val_bound64 bs : (length bs <= 8)%nat -> 0 <= le_val bs < 2 ^ 64.
Proof.
  intros Hl. pose proof (le_val_bound bs).
  pose proof (Z.pow_le_mono_r 256 (Z.of_nat (length bs)) 8 ltac:(lia) ltac:(lia)). lia.
Qed.

Lemma signed_value_bytes bs : bs <> [] -> le_bytes (length bs) (signed_value bs) = bs.
Proof. apply le_bytes_sx. Qed.

(** Casting the sign-extended value to its own width changes nothing. *)
Lemma sx_signed_value bs n :
  length bs = n -> (0 < n <= 8)%nat ->
  sx (8 * Z.of_nat n) (signed_value bs) = signed_value bs.
Proof.
  intros <- Hn. unfold signed_value. apply sx_small; [lia|].
  apply sx_bound. lia.
Qed.

Lemma sx_u64_signed w bs :
  (0 < length bs)%nat -> 8 * Z.of_nat (length bs) <= w <= 64 ->
  sx w (u64 (signed_value bs)) = signed_value bs.
Proof.
  intros Hl Hw. apply sx_u64; [lia|].
  pose proof (sx_bound (8 * Z.of_nat (length bs)) (le_val bs) ltac:(lia)).
  pose proof (Z.pow_le_mono_r 2 (8 * Z.of_nat (length bs) - 1) (w - 1) ltac:(lia) ltac:(lia)).
  unfold signed_value. lia.
Qed.

(** A small value is in the range of every cast at least as wide. *)
Lemma le_val_small bs w : 8 * Z.of_nat (length bs) <= w -> le_val bs mod 2 ^ w = le_val bs.
Proof.
  intros Hw. apply Z.mod_small. pose proof (le_val_bound bs) as H.
  change 256 with (2 ^ 8) in H. rewrite <- Z.pow_mul_r in H by lia.
  pose proof (Z.pow_le_mono_r 2 (8 * Z.of_nat (length bs)) w ltac:(lia) ltac:(lia)). lia.
Qed.

Lemma scalar_wire_length f bs :
  scalar_ok f = true -> length bs = Z.to_nat (data_size f) ->
  1 <= Z.of_nat (length (scalar_wire f bs)) <= 10.
Proof.
  intros Hok Hl. unfold scalar_wire.
  pose proof (length_varint (u64 (signed_value bs))).
  pose proof (length_varint (le_val bs)).
  pose proof (length_varint (zigzag (signed_value bs))).
  destruct (scalar_ok_case _ Hok) as [[[-> | [-> | ->]] Hn] | [[-> Hn] | [-> Hn]]];
    cbn [Z.eqb]; try done; change (1 <= Z.of_nat (length bs) <= 10); lia.
Qed.

Section Scalar.
Context `{UserCode} `{Libc}.

(** The encoder of the field's type, found as [encode_basic_field] finds it,
    writes the reference encoding. *)
Lemma scalar_encode rec f s src bs w :
  scalar_ok f = true -> mem_read (w_mem w) src (Z.to_nat (data_size f)) = Some bs ->
  exists func,
    PB_ENCODERS !! Z.to_nat (PB_LTYPE (type f)) = Some func /\
    call_encoder rec func s f src w =
      pb_write s (SrcLocal (scalar_wire f bs)) (Z.of_nat (length (scalar_wire f bs))) w.
Proof.
  intros Hok Hr. pose proof (mem_read_length _ _ _ _ Hr) as Hl.
  unfold scalar_wire.
  destruct (scalar_ok_case _ Hok) as [[Hlt Hn] | [[-> Hn] | [-> Hn]]]; cycle 1.
  - eexists; split; [done|]. cbn [call_encoder]. unfold pb_enc_fixed32, pb_encode_fixed32.
    rewrite Hn in *. erewrite bind_eq by (by apply load_uint_eq).
    rewrite fixed32_bytes_eq, le_bytes_val_n by done. eqbs. by rewrite Hl.
  - eexists; split; [done|]. cbn [call_encoder]. unfold pb_enc_fixed64, pb_encode_fixed64.
    rewrite Hn in *. erewrite bind_eq by (by apply load_uint_eq).
    rewrite fixed64_bytes_eq, le_bytes_val_n by done. eqbs. by rewrite Hl.
  - assert (0 < length bs <= 8)%nat as Hb by lia.
    pose proof (le_val_bound64 bs ltac:(lia)). pose proof (u64_bound (signed_value bs)).
    pose proof (zigzag_bound _ (signed_value_bound bs Hb)).
    assert (forall k, length bs = k -> load_uint k src w = Ok (le_val bs) w) as Hld.
    { intros k <-. apply load_uint_eq. by rewrite Hl. }
    destruct Hlt as [-> | [-> | ->]]; (eexists; split; [done|]); cbn [call_encoder]; eqbs;
      rewrite <- pb_encode_varint_eq by done;
      unfold pb_enc_varint, pb_enc_uvarint, pb_enc_svarint, pb_encode_svarint, signed_value;
      rewrite ?Hl; destruct Hn as [Hn | [Hn | [Hn | Hn]]]; rewrite Hn in *; eqbs;
      by rewrite (bind_eq _ _ _ (le_val bs) w) by (by apply Hld).
Qed.

Lemma store_clamped_ok s n cast dest v bs w :
  n = length bs -> le_bytes n (cast v) = bs -> cast v = v ->
  mapped (w_mem w) dest (Z.of_nat n) ->
  store_clamped s n cast dest v w = Ok (true, s) (set_mem w (mem_write (w_mem w) dest bs)).
Proof.
  intros -> Hb Hc Hm. unfold store_clamped, store_uint. rewrite Hb.
  rewrite (bind_eq _ _ _ tt (set_mem w (mem_write (w_mem w) dest bs)))
    by (by apply store_bytes_eq).
  by rewrite Hc, Z.eqb_refl.
Qed.
Lemma store_signed_ok s n dest bs w :
  length bs = n -> bs <> [] -> (n <= 8)%nat -> mapped (w_mem w) dest (Z.of_nat n) ->
  store_clamped s n (sx (8 * Z.of_nat n)) dest (signed_value bs) w =
    Ok (true, s) (set_mem w (mem_write (w_mem w) dest bs)).
Proof.
  intros <- Hne Hn Hm.
  assert (0 < length bs)%nat by (by destruct bs; cbn; [done|lia]).
  apply store_clamped_ok; try done; rewrite sx_signed_value by lia;
    [by apply signed_value_bytes | done].
Qed.

Lemma pb_decode_svarint_read w s v rest :
  - 2 ^ 63 <= v < 2 ^ 63 -> ibuf w s (varint (zigzag v) ++ rest) ->
  pb_decode_svarint s w = Ok (true, v, iadv s (Z.of_nat (length (varint (zigzag v))))) w.
Proof.
  intros Hv Hb. unfold pb_decode_svarint.
  erewrite bind_eq by (apply (pb_decode_varint_read w s (zigzag v) rest);
    [by apply zigzag_bound | exact Hb]).
  cbv beta iota. by rewrite unzigzag_zigzag.
Qed.

(** The decoder of the field's type reads the reference encoding back. *)
Lemma scalar_decode rec n f s dest bs rest w :
  scalar_ok f = true -> length bs = Z.to_nat (data_size f) ->
  ibuf w s (scalar_wire f bs ++ rest) -> mapped (w_mem w) dest (data_size f) ->
  exists func,
    PB_DECODERS !! Z.to_nat (PB_LTYPE (type f)) = Some func /\
    call_decoder rec n func s f dest w =
      Ok (true, iadv s (Z.of_nat (length (scalar_wire f bs))))
         (set_mem w (mem_write (w_mem w) dest bs)).
Proof.
  intros Hok Hl. unfold scalar_wire.
  destruct (scalar_ok_case _ Hok) as [[Hlt Hn] | [[-> Hn] | [-> Hn]]]; cycle 1.
  - eqbs. intros Hb Hm. eexists; split; [done|]. cbn [call_decoder].
    unfold pb_dec_fixed32, pb_decode_fixed32. rewrite Hn in *.
    erewrite bind_eq by (change 4 with (Z.of_nat 4); rewrite <- Hl at 1; by eapply pb_read_local).
    cbn [negb]. rewrite or_bytes_val, Z.mul_1_r by lia. unfold store_uint.
    rewrite le_bytes_val_n by done.
    by erewrite bind_eq by (apply store_bytes_eq; by rewrite Hl).
  - eqbs. intros Hb Hm. eexists; split; [done|]. cbn [call_decoder].
    unfold pb_dec_fixed64, pb_decode_fixed64. rewrite Hn in *.
    erewrite bind_eq by (change 8 with (Z.of_nat 8); rewrite <- Hl at 1; by eapply pb_read_local).
    cbn [negb]. rewrite or_bytes_val, Z.mul_1_r by lia. unfold store_uint.
    rewrite le_bytes_val_n by done.
    by erewrite bind_eq by (apply store_bytes_eq; by rewrite Hl).
  - assert (0 < length bs <= 8)%nat as Hb8 by lia.
    assert (bs <> []) as Hne by (by destruct bs; [cbn in Hb8; lia|]).
    pose proof (le_val_bound64 bs ltac:(lia)) as Hvb.
    pose proof (signed_value_bound bs Hb8) as Hsb.
    destruct Hlt as [-> | [-> | ->]]; eqbs; intros Hb Hm; (eexists; split; [done|]);
      cbn [call_decoder]; unfold pb_dec_varint, pb_dec_uvarint, pb_dec_svarint.
    + erewrite bind_eq by (exact (pb_decode_varint_read _ _ _ _ (u64_bound _) Hb)). cbn [negb].
      destruct Hn as [Hn | [Hn | [Hn | Hn]]]; rewrite Hn in *; eqbs; unfold s32, s64;
        rewrite sx_u64_signed by lia; exact (store_signed_ok _ _ _ _ _ Hl Hne ltac:(lia) Hm).
    + erewrite bind_eq by (exact (pb_decode_varint_read _ _ _ _ Hvb Hb)). cbn [negb].
      destruct Hn as [Hn | [Hn | [Hn | Hn]]]; rewrite Hn in *; eqbs;
        (apply store_clamped_ok; [done | | apply le_val_small; rewrite Hl; lia | done]);
        unfold u64, u32, u8; rewrite le_val_small by (rewrite Hl; lia);
        by apply le_bytes_val_n.
    + erewrite bind_eq by (exact (pb_decode_svarint_read _ _ _ _ Hsb Hb)). cbn [negb].
      destruct Hn as [Hn | [Hn | [Hn | Hn]]]; rewrite Hn in *; eqbs;
        exact (store_signed_ok _ _ _ _ _ Hl Hne ltac:(lia) Hm).
Qed.

(** A scalar field encoded into a buffer and decoded from it by the same
    descriptor gives back exactly the bytes of the value, at every packable
    type and data size, consuming exactly what was written (at most ten
    bytes). *)
Theorem scalar_roundtrip f rec drec n src dest bs os w :
  scalar_ok f = true ->
  mem_read (w_mem w) src (Z.to_nat (data_size f)) = Some bs ->
  oroom w os 10 -> mapped (w_mem w) dest (data_size f) ->
  exists enc dec k w1 w2,
    PB_ENCODERS !! Z.to_nat (PB_LTYPE (type f)) = Some enc /\
    PB_DECODERS !! Z.to_nat (PB_LTYPE (type f)) = Some dec /\
    1 <= k <= 10 /\
    call_encoder rec enc os f src w = Ok (true, oadv os k) w1 /\
    call_decoder drec n dec (pb_istream_from_buffer (o_state os) k) f dest w1
      = Ok (true, iadv (pb_istream_from_buffer (o_state os) k) k) w2 /\
    mem_read (w_mem w2) dest (Z.to_nat (data_size f)) = Some bs.
Proof.
  intros Hok Hr Ho Hm. pose proof (mem_read_length _ _ _ _ Hr) as Hl.
  destruct (scalar_encode rec f os src bs w Hok Hr) as (enc & He & Eq).
  pose proof (scalar_wire_length f bs Hok Hl) as Hk.
  set (bs' := scalar_wire f bs) in *.
  assert (oroom w os (Z.of_nat (length bs'))) as Ho' by (eapply oroom_le; [done|lia]).
  destruct (scalar_decode drec n f (pb_istream_from_buffer (o_state os) (Z.of_nat (length bs')))
              dest bs [] (put w os bs') Hok Hl) as (dec & Hd & Ed).
  - fold bs'. rewrite app_nil_r. apply ibuf_put. lia.
  - by apply mapped_write.
  - exists enc, dec, (Z.of_nat (length bs')), (put w os bs').
    eexists. split_and!; try done; try lia.
    + rewrite Eq. by apply pb_write_local.
    + cbn. rewrite <- Hl. apply mem_read_write_eq.
Qed.
End Scalar.

(** The witness: a 32-bit signed field holding -2. *)
Lemma scalar_roundtrip_witness :
  let f := mk_field 1 PB_LTYPE_VARINT 0 0 4 0 0 in
  let w := world_of [(0x1000, [xfe; xff; xff; xff]); (0x2000, replicate 16 x00);
                     (0x3000, replicate 4 x00)] in
  let code := no_callbacks (fun _ => None) in
  let libc := bump_libc 0 in
  exists enc dec k w1 w2,
    PB_ENCODERS !! 0%nat = Some enc /\ PB_DECODERS !! 0%nat = Some dec /\ 1 <= k <= 10 /\
    call_encoder (pb_encode 1) enc (pb_ostream_from_buffer 0x2000 16) f 0x1000 w
      = Ok (true, oadv (pb_ostream_from_buffer 0x2000 16) k) w1 /\
    call_decoder (pb_decode_noinit 1) 1 dec (pb_istream_from_buffer 0x2000 k) f 0x3000 w1
      = Ok (true, iadv (pb_istream_from_buffer 0x2000 k) k) w2 /\
    mem_read (w_mem w2) 0x3000 4 = Some [xfe; xff; xff; xff].
Proof.
  intros f w code libc.
  apply (scalar_roundtrip f (pb_encode 1) (pb_decode_noinit 1) 1 0x1000 0x3000 _
           (pb_ostream_from_buffer 0x2000 16) w); try reflexivity.
  - split; [done | by apply mapped_world_of | by cbn | by cbn | by cbn].
  - by apply mapped_world_of.
Defined.
