(* ===== verification/Layout.v ===== *)
(** The struct layout the descriptors describe: C types with the natural
    alignment of the LP64 ABI, [offsetof], and the PB_FIELD macros of pb.h that
    turn a member of a struct into a descriptor entry.

    The main lemma, [layout_offset], says that a table the macros build makes
    the iterator of pb_common.c stand exactly at [offsetof] of each member, and
    at the member's [has_], [_count] companion. *)

From S2P Require Import Prelude PbTypes FieldIter.
Open Scope Z_scope.

(** * C types *)

Inductive ctype : Type :=
| CBool | CInt32 | CUInt32 | CEnum | CInt64 | CUInt64
| CBytes (n : Z)
| CCallback
| CPtr (t : ctype)
| CArray (t : ctype) (n : Z)
| CStruct (members : list (string * ctype)).

(** The next multiple of [a] from [x] on. *)
Definition align_up (a x : Z) : Z := a * ((x + a - 1) / a).

Fixpoint alignof (t : ctype) : Z :=
  match t with
  | CBool | CBytes _ => 1
  | CInt32 | CUInt32 | CEnum => 4
  | CInt64 | CUInt64 | CPtr _ | CCallback => 8
  | CArray t _ => alignof t
  | CStruct ms =>
      (fix go (ms : list (string * ctype)) : Z :=
         match ms with [] => 1 | (_, t) :: ms => Z.max (alignof t) (go ms) end) ms
  end.

Fixpoint sizeof (t : ctype) : Z :=
  match t with
  | CBool => 1
  | CInt32 | CUInt32 | CEnum => 4
  | CInt64 | CUInt64 | CPtr _ => 8
  | CCallback => 16
  | CBytes n => n
  | CArray t n => sizeof t * n
  | CStruct ms =>
      align_up (alignof (CStruct ms))
        ((fix go (off : Z) (ms : list (string * ctype)) : Z :=
            match ms with
            | [] => off
            | (_, t) :: ms => go (align_up (alignof t) off + sizeof t) ms
            end) 0 ms)
  end.

(** Offsets of the members: each after the previous one, aligned. *)
Fixpoint member_offsets (off : Z) (ms : list (string * ctype)) : list (string * (Z * ctype)) :=
  match ms with
  | [] => []
  | (m, t) :: ms =>
      let o := align_up (alignof t) off in
      (m, (o, t)) :: member_offsets (o + sizeof t) ms
  end.

Definition member (st : list (string * ctype)) (m : string) : option (Z * ctype) :=
  snd <$> List.find (fun p => String.eqb (fst p) m) (member_offsets 0 st).

Definition offsetof (st : list (string * ctype)) (m : string) : Z :=
  match member st m with Some (o, _) => o | None => 0 end.

Definition pb_membersize (st : list (string * ctype)) (m : string) : Z :=
  match member st m with Some (_, t) => sizeof t | None => 0 end.

(** [pb_membersize(st, m[0])]. *)
Definition pb_elemsize (st : list (string * ctype)) (m : string) : Z :=
  match member st m with
  | Some (_, CPtr t) | Some (_, CArray t _) => sizeof t
  | Some (_, CBytes _) => 1
  | _ => 0
  end.

Definition pb_arraysize (st : list (string * ctype)) (m : string) : Z :=
  pb_membersize st m / pb_elemsize st m.

Definition pb_delta (st : list (string * ctype)) (m1 m2 : string) : Z :=
  s32 (offsetof st m1 - offsetof st m2).

(** [struct pb_bytes_array_s]. *)
Definition pb_bytes_array_t : ctype := CStruct [("size", CUInt32); ("bytes", CBytes 1)].

(** * The macros of pb.h *)

Inductive ftype : Type :=
| BOOL | BYTES | DOUBLE | ENUM | UENUM | FIXED32 | FIXED64 | FLOAT | INT32 | INT64
| MESSAGE | SFIXED32 | SFIXED64 | SINT32 | SINT64 | STRING | UINT32 | UINT64
| EXTENSION | FIXED_LENGTH_BYTES.

Inductive rules : Type := REQUIRED | OPTIONAL | SINGULAR | REPEATED | OPTEXT.
Inductive allocation : Type := STATIC | POINTER | CALLBACK.
Inductive placement : Type := FIRST | OTHER | UNION.

Definition PB_LTYPE_MAP (t : ftype) : Z :=
  match t with
  | BOOL | ENUM | INT32 | INT64 => PB_LTYPE_VARINT
  | UENUM | UINT32 | UINT64 => PB_LTYPE_UVARINT
  | SINT32 | SINT64 => PB_LTYPE_SVARINT
  | FIXED32 | SFIXED32 | FLOAT => PB_LTYPE_FIXED32
  | FIXED64 | SFIXED64 | DOUBLE => PB_LTYPE_FIXED64
  | BYTES => PB_LTYPE_BYTES
  | STRING => PB_LTYPE_STRING
  | MESSAGE => PB_LTYPE_SUBMESSAGE
  | EXTENSION => PB_LTYPE_EXTENSION
  | FIXED_LENGTH_BYTES => PB_LTYPE_FIXED_LENGTH_BYTES
  end.

(** [data_offset] is a pb_size_t; the subtraction is in size_t. *)
Definition PB_DATAOFFSET (p : placement) (st : list (string * ctype)) (m1 m2 : string) : Z :=
  match p with
  | FIRST => u32 (offsetof st m1)
  | OTHER => u32 (offsetof st m1 - offsetof st m2 - pb_membersize st m2)
  | UNION => PB_SIZE_MAX
  end.

Definition atype_of (a : allocation) : Z :=
  match a with
  | STATIC => PB_ATYPE_STATIC | POINTER => PB_ATYPE_POINTER | CALLBACK => PB_ATYPE_CALLBACK
  end.

(** One use of the PB_FIELD macro, with its nine arguments. *)
Record field_row : Type := PB_FIELD {
  r_tag : Z;
  r_type : ftype;
  r_rules : rules;
  r_alloc : allocation;
  r_place : placement;
  r_st : list (string * ctype);
  r_m : string;
  r_prev : string;
  r_ptr : Z;
}.

Definition htype_of (r : rules) (a : allocation) : Z :=
  match r, a with
  | REQUIRED, _ | OPTEXT, STATIC => PB_HTYPE_REQUIRED
  | (OPTIONAL | SINGULAR), _ | OPTEXT, _ => PB_HTYPE_OPTIONAL
  | REPEATED, _ => PB_HTYPE_REPEATED
  end.

(** The macro's expansion, PB_<rules>_<allocation>(...). *)
Definition expand (x : field_row) : pb_field_t :=
  let st := r_st x in
  let m := r_m x in
  let fd := PB_DATAOFFSET (r_place x) st m (r_prev x) in
  let entry h off so ds n :=
    mk_field (r_tag x) (Z.lor (Z.lor (atype_of (r_alloc x)) h) (PB_LTYPE_MAP (r_type x)))
             off so (u32 ds) (u32 n) (r_ptr x) in
  match r_rules x, r_alloc x with
  | REQUIRED, STATIC => entry PB_HTYPE_REQUIRED fd 0 (pb_membersize st m) 0
  | OPTIONAL, STATIC =>
      entry PB_HTYPE_OPTIONAL fd (pb_delta st ("has_" +:+ m) m) (pb_membersize st m) 0
  | SINGULAR, STATIC => entry PB_HTYPE_OPTIONAL fd 0 (pb_membersize st m) 0
  | REPEATED, STATIC =>
      entry PB_HTYPE_REPEATED fd (pb_delta st (m +:+ "_count") m) (pb_elemsize st m)
            (pb_arraysize st m)
  | OPTEXT, STATIC => entry PB_HTYPE_REQUIRED 0 0 (pb_membersize st m) 0
  | REQUIRED, POINTER => entry PB_HTYPE_REQUIRED fd 0 (pb_elemsize st m) 0
  | (OPTIONAL | SINGULAR | OPTEXT), POINTER =>
      entry PB_HTYPE_OPTIONAL fd 0 (pb_elemsize st m) 0
  | REPEATED, POINTER =>
      entry PB_HTYPE_REPEATED fd (pb_delta st (m +:+ "_count") m) (pb_elemsize st m) 0
  | REQUIRED, CALLBACK => entry PB_HTYPE_REQUIRED fd 0 (pb_membersize st m) 0
  | (OPTIONAL | SINGULAR | OPTEXT), CALLBACK =>
      entry PB_HTYPE_OPTIONAL fd 0 (pb_membersize st m) 0
  | REPEATED, CALLBACK => entry PB_HTYPE_REPEATED fd 0 (pb_membersize st m) 0
  end.

(** [const pb_field_t X_fields[] = { rows..., PB_LAST_FIELD };] *)
Definition field_table (rows : list field_row) : list pb_field_t :=
  map expand rows ++ [PB_LAST_FIELD].

Definition PB_REPEATED_FIXED_COUNT (tag : Z) (ty : ftype) (p : placement)
    (st : list (string * ctype)) (m prev : string) (ptr : Z) : pb_field_t :=
  mk_field tag (Z.lor (Z.lor PB_ATYPE_STATIC PB_HTYPE_REPEATED) (PB_LTYPE_MAP ty))
           (PB_DATAOFFSET p st m prev) 0 (u32 (pb_elemsize st m)) (u32 (pb_arraysize st m)) ptr.

(** * Tables and layouts *)

(** The member that holds the count or the presence of a field: the field's own
    member when there is none ([size_offset] 0). *)
Definition companion (x : field_row) : string :=
  match r_rules x, r_alloc x with
  | OPTIONAL, STATIC => "has_" +:+ r_m x
  | REPEATED, (STATIC | POINTER) => r_m x +:+ "_count"
  | _, _ => r_m x
  end.

(** The member's C type is the one the rules and the allocation ask for. *)
Definition kind_ok (st : list (string * ctype)) (x : field_row) : bool :=
  match r_rules x, r_alloc x, member st (r_m x) with
  | _, POINTER, Some (_, CPtr _) => true
  | REPEATED, STATIC, Some (_, CArray t n) => (0 <? sizeof t) && (0 <? n)
  | (REQUIRED | OPTIONAL | SINGULAR), STATIC, Some _ => true
  | (REQUIRED | OPTIONAL | SINGULAR | REPEATED), CALLBACK, Some _ => true
  | _, _, _ => false
  end.

Definition span_ok (st : list (string * ctype)) (lo : Z) (x : field_row) : bool :=
  (lo <=? offsetof st (r_m x)) && (0 <=? pb_membersize st (r_m x)) &&
  (offsetof st (r_m x) + pb_membersize st (r_m x) <? 2 ^ 31) &&
  (0 <=? offsetof st (companion x)) && (offsetof st (companion x) <? 2 ^ 31).

(** The rows from one that follows member [prev] on: placement OTHER, the right
    predecessor, members in the order of the struct. *)
Fixpoint rows_follow (st : list (string * ctype)) (prev : string) (rows : list field_row)
  : bool :=
  match rows with
  | [] => true
  | x :: rows =>
      match r_place x with OTHER => true | _ => false end &&
      String.eqb (r_prev x) prev && negb (r_tag x =? 0) && kind_ok st x &&
      span_ok st (offsetof st prev + pb_membersize st prev) x &&
      rows_follow st (r_m x) rows
  end.

Definition rows_ok (st : list (string * ctype)) (rows : list field_row) : bool :=
  match rows with
  | [] => true
  | x :: rows =>
      match r_place x with FIRST => true | _ => false end && negb (r_tag x =? 0) &&
      kind_ok st x && span_ok st 0 x && rows_follow st (r_m x) rows
  end.

(** * Lemmas *)

Lemma type_bits a r t :
  let ty := Z.lor (Z.lor (atype_of a) (htype_of r a)) (PB_LTYPE_MAP t) in
  PB_ATYPE ty = atype_of a /\ PB_HTYPE ty = htype_of r a /\ PB_LTYPE ty = PB_LTYPE_MAP t.
Proof. destruct a, r, t; repeat split; reflexivity. Qed.

Lemma expand_type x :
  type (expand x) =
    Z.lor (Z.lor (atype_of (r_alloc x)) (htype_of (r_rules x) (r_alloc x)))
          (PB_LTYPE_MAP (r_type x)).
Proof. unfold expand. destruct (r_rules x), (r_alloc x); reflexivity. Qed.

Lemma expand_tag x : tag (expand x) = r_tag x.
Proof. unfold expand. destruct (r_rules x), (r_alloc x); reflexivity. Qed.

Lemma expand_data_offset st x :
  kind_ok st x = true ->
  data_offset (expand x) = PB_DATAOFFSET (r_place x) (r_st x) (r_m x) (r_prev x).
Proof. unfold expand, kind_ok. by destruct (r_rules x), (r_alloc x). Qed.

Lemma expand_htype x : PB_HTYPE (type (expand x)) <> PB_HTYPE_ONEOF.
Proof.
  rewrite expand_type. destruct (type_bits (r_alloc x) (r_rules x) (r_type x)) as (_ & -> & _).
  by destruct (r_rules x), (r_alloc x).
Qed.

Lemma expand_size_offset st x :
  kind_ok st x = true -> span_ok st 0 x = true -> r_st x = st ->
  size_offset (expand x) = offsetof st (companion x) - offsetof st (r_m x).
Proof.
  unfold kind_ok, span_ok, expand, companion. intros Hk Hs ->.
  revert Hk Hs. destruct (r_rules x), (r_alloc x); cbn [size_offset]; intros Hk Hs;
    try lia; try done; unfold pb_delta, s32. 
  all: rewrite sx_small; [done | lia | change (2 ^ (32 - 1)) with (2 ^ 31); lia].
Qed.

Lemma member_sizes st x :
  kind_ok st x = true ->
  match r_rules x, r_alloc x with
  | _, POINTER => pb_membersize st (r_m x) = sizeof_ptr
  | REPEATED, STATIC =>
      0 < pb_elemsize st (r_m x) /\ 0 < pb_arraysize st (r_m x) /\
      pb_elemsize st (r_m x) * pb_arraysize st (r_m x) = pb_membersize st (r_m x)
  | _, _ => True
  end.
Proof.
  unfold kind_ok, pb_arraysize, pb_membersize, pb_elemsize. intros Hk.
  destruct (r_rules x), (r_alloc x); try done;
    destruct (member st (r_m x)) as [[o t]|]; try done; destruct t; try done.
  cbn [sizeof] in *. assert (0 < sizeof t /\ 0 < n) as [H1 H2] by lia.
  rewrite (Z.mul_comm (sizeof t)), Z.div_mul by lia. lia.
Qed.

Lemma expand_prev_size st x :
  kind_ok st x = true -> span_ok st 0 x = true -> r_st x = st ->
  prev_size (expand x) = pb_membersize st (r_m x).
Proof.
  intros Hk Hs Hst. pose proof (member_sizes st x Hk) as Hm.
  unfold prev_size. rewrite expand_type.
  destruct (type_bits (r_alloc x) (r_rules x) (r_type x)) as (-> & -> & _).
  assert (0 <= offsetof st (r_m x) /\ 0 <= pb_membersize st (r_m x) /\
          offsetof st (r_m x) + pb_membersize st (r_m x) < 2 ^ 31) as (H1 & H2 & H3)
    by (unfold span_ok in Hs; lia).
  unfold expand. rewrite Hst.
  destruct (r_rules x), (r_alloc x); cbn [htype_of atype_of data_size array_size]; eqbs;
    rewrite ?u32_small by lia; try done.
  all: destruct Hm as (Ha & Hb & Hc).
  clear Hk Hs Hst.
  rewrite ?u32_small, u64_small by nia. done.
Qed.

(** ** Field tables *)

Lemma fld_table_body rows k x :
  rows !! k = Some x -> fld (field_table rows) k = expand x.
Proof.
  intros Hx. unfold fld, field_table. rewrite nth_lookup, lookup_app_l.
  - by rewrite list_lookup_fmap, Hx.
  - rewrite length_map. by apply lookup_lt_Some in Hx.
Qed.

Lemma nfields_table rows : nfields (field_table rows) = length rows.
Proof. unfold nfields, field_table. rewrite length_app, length_map. cbn. lia. Qed.

Lemma span_ok_weaken st lo x : 0 <= lo -> span_ok st lo x = true -> span_ok st 0 x = true.
Proof. unfold span_ok. lia. Qed.

(** What [rows_ok] says of the row at each position. *)
Record row_at (st : list (string * ctype)) (prev : option string) (x : field_row) : Prop := {
  ra_tag : r_tag x <> 0;
  ra_kind : kind_ok st x = true;
  ra_span : span_ok st 0 x = true;
  ra_place : match prev with
             | None => r_place x = FIRST
             | Some p => r_place x = OTHER /\ r_prev x = p /\
                         offsetof st p + pb_membersize st p <= offsetof st (r_m x)
             end;
}.

Lemma rows_follow_at st prev rows k x :
  0 <= offsetof st prev + pb_membersize st prev ->
  rows_follow st prev rows = true -> rows !! k = Some x ->
  row_at st (match k with O => Some prev | S j => r_m <$> rows !! j end) x.
Proof.
  revert prev k; induction rows as [|y rows IH]; intros prev k H0 Hr Hx; [done|].
  cbn [rows_follow] in Hr. repeat (apply andb_prop in Hr as [Hr ?]).
  destruct k as [|k]; cbn in Hx.
  - injection Hx as <-. split.
    + lia.
    + done.
    + by eapply span_ok_weaken.
    + destruct (r_place y); try done. split_and!; [done | by apply String.eqb_eq |].
      unfold span_ok in *. lia.
  - specialize (IH (r_m y) k). destruct k as [|k]; cbn; apply IH; try done;
      unfold span_ok in *; lia.
Qed.

Lemma rows_ok_at st rows k x :
  rows_ok st rows = true -> rows !! k = Some x ->
  row_at st (match k with O => None | S j => r_m <$> rows !! j end) x.
Proof.
  intros Hr Hx. destruct rows as [|y rows]; [done|]. cbn [rows_ok] in Hr.
  repeat (apply andb_prop in Hr as [Hr ?]).
  destruct k as [|k]; cbn in Hx.
  - injection Hx as <-. split; try done; [lia|]. by destruct (r_place y).
  - pose proof (rows_follow_at st (r_m y) rows k x) as H3.
    destruct k as [|k]; cbn in *; apply H3; try done; unfold span_ok in *; lia.
Qed.

Lemma table_wf st rows : rows_ok st rows = true -> wf_fields (field_table rows).
Proof.
  intros Hr. exists (map expand rows). split; [done|].
  apply Forall_map, Forall_lookup. intros k x Hk. cbn. rewrite expand_tag.
  by destruct (rows_ok_at _ _ _ _ Hr Hk).
Qed.

(** The reference offsets of pb_common.c are the compiler's [offsetof]. *)
Lemma layout_offset st rows k x :
  rows_ok st rows = true -> Forall (fun r => r_st r = st) rows -> rows !! k = Some x ->
  field_offset (field_table rows) k = offsetof st (r_m x) /\
  size_offset_at (field_table rows) k = offsetof st (companion x).
Proof.
  intros Hr Hst. revert x. induction k as [|k IH]; intros x Hx;
    pose proof (rows_ok_at _ _ _ _ Hr Hx) as [_ Hk Hs Hp];
    pose proof (Forall_lookup_1 _ _ _ _ Hst Hx) as Hxst; cbn beta in Hxst;
    cbn [field_offset size_offset_at]; rewrite !(fld_table_body _ _ _ Hx).
  - rewrite (expand_size_offset st) by done.
    enough (data_offset (expand x) = offsetof st (r_m x)) as -> by lia.
    erewrite expand_data_offset by done. rewrite Hp, Hxst. cbn [PB_DATAOFFSET].
    apply u32_small. unfold span_ok in Hs. lia.
  - destruct (rows !! k) as [y|] eqn:Ey.
    2: { apply lookup_ge_None in Ey. apply lookup_lt_Some in Hx. lia. }
    cbn in Hp. destruct Hp as (Hpl & Hpr & Hle).
    destruct (IH y eq_refl) as [IHo _].
    pose proof (rows_ok_at _ _ _ _ Hr Ey) as [_ Hky Hsy _].
    pose proof (Forall_lookup_1 _ _ _ _ Hst Ey) as Hyst; cbn beta in Hyst.
    rewrite (fld_table_body _ _ _ Ey).
    assert (in_union (expand y) (expand x) = false) as ->.
    { unfold in_union. by rewrite (proj2 (Z.eqb_neq _ _) (expand_htype y)). }
    enough (field_offset (field_table rows) k + prev_size (expand y) + data_offset (expand x)
            = offsetof st (r_m x)) as Ho.
    { rewrite Ho, (expand_size_offset st) by done. lia. }
    rewrite IHo, (expand_prev_size st) by done. erewrite expand_data_offset by done.
    rewrite Hpl, Hpr, Hxst. cbn [PB_DATAOFFSET].
    rewrite u32_small; unfold span_ok in *; lia.
Qed.

Lemma walk_map_iter fields dest n :
  wf_fields fields -> Z.of_nat (length fields) <= 2 ^ 32 -> (0 < nfields fields)%nat ->
  (nfields fields <= n)%nat ->
  fst (iter_walk n (snd (pb_field_iter_begin fields dest)))
    = map (iter_at fields dest) (seq 0 (nfields fields)).
Proof.
  intros Hw Hl H0 Hn. rewrite begin_at. cbn [snd].
  rewrite (iter_walk_at fields Hw Hl dest 0 n) by lia. by rewrite Nat.sub_0_r.
Qed.

(** A list of rows and the struct they describe. *)
Definition describes (st : list (string * ctype)) (rows : list field_row) : Prop :=
  rows_ok st rows = true /\ Forall (fun r => r_st r = st) rows /\ rows <> [] /\
  Z.of_nat (length rows) < 2 ^ 32.

(** Iterator [k] of a walk over a struct at [dest] stands at row [x]. *)
Definition stands_at (st : list (string * ctype)) (rows : list field_row) (dest : Z)
    (k : nat) (x : field_row) : Prop :=
  exists iter,
    fst (iter_walk (length rows) (snd (pb_field_iter_begin (field_table rows) dest))) !! k
      = Some iter /\
    tag (cur iter) = r_tag x /\
    pData iter = dest + offsetof st (r_m x) /\
    pSize iter = dest + offsetof st (companion x).

Lemma walk_stands_at st rows dest k x :
  describes st rows -> rows !! k = Some x -> stands_at st rows dest k x.
Proof.
  intros (Hr & Hst & Hne & Hl) Hx. pose proof (lookup_lt_Some _ _ _ Hx) as Hk.
  exists (iter_at (field_table rows) dest k). split_and!.
  - rewrite walk_map_iter; rewrite ?nfields_table; [| by eapply table_wf | | |]; try lia.
    + rewrite list_lookup_fmap, lookup_seq_lt by lia. done.
    + unfold field_table. rewrite length_app, length_map. cbn. lia.
  - rewrite cur_at, (fld_table_body _ _ _ Hx). apply expand_tag.
  - cbn. by destruct (layout_offset st rows k x Hr Hst Hx) as [-> _].
  - cbn. by destruct (layout_offset st rows k x Hr Hst Hx) as [_ ->].
Qed.

(** For every table the PB_FIELD macros build over a struct, the [k]-th
    iterator of a walk over a struct at [dest] points its [pData] at the member
    of row [k], at the compiler's [offsetof], and its [pSize] at the member's
    has_ or _count companion: relative offsets, wrapped into the 32-bit
    descriptor entries, and sizes add up to the struct's layout. *)
Theorem iterator_follows_layout st rows dest k x :
  describes st rows -> rows !! k = Some x -> stands_at st rows dest k x.
Proof. apply walk_stands_at. Qed.

(** A struct with a count and an array after it, for the witness. *)
Definition demo_struct : list (string * ctype) :=
  [ ("has_a", CBool); ("a", CInt64); ("b_count", CUInt32); ("b", CArray CUInt32 3) ].

Definition demo_rows : list field_row :=
  [ PB_FIELD 1 INT64 OPTIONAL STATIC FIRST demo_struct "a" "a" 0;
    PB_FIELD 2 UINT32 REPEATED STATIC OTHER demo_struct "b" "a" 0 ].

Lemma iterator_follows_layout_witness :
  stands_at demo_struct demo_rows 0x1000 1
    (PB_FIELD 2 UINT32 REPEATED STATIC OTHER demo_struct "b" "a" 0).
Proof.
  apply iterator_follows_layout; [|reflexivity].
  split; [reflexivity|]. split; [repeat constructor|]. split; [discriminate | reflexivity].
Defined.

(** Checks [describes] of closed tables. *)
Ltac describe :=
  repeat match goal with
  | |- _ /\ _ => split
  | |- Forall _ _ => constructor
  | |- describes _ _ => split_and!; [reflexivity | repeat constructor | discriminate | reflexivity]
  end.
