(* ===== verification/Cct.v ===== *)
(** GoogleDataTransportCCTSupport: the messages of the log upload protocol
    (cct.nanopb.h and cct.nanopb.c).

    Contents: the enums with their C values, the structs, the default values,
    the nine descriptor tables (each a list of PB_FIELD rows, as in the source),
    the image that gives a descriptor for each of their symbols, and the check
    that the iterator of pb_common.c lands on the members of the structs. *)

From S2P Require Import Prelude CMem PbTypes FieldIter Layout.
Open Scope Z_scope.

(** * cct.nanopb.h *)

Inductive gdt_cct_NetworkConnectionInfo_NetworkType : Type :=
| gdt_cct_NetworkConnectionInfo_NetworkType_NONE
| gdt_cct_NetworkConnectionInfo_NetworkType_MOBILE
| gdt_cct_NetworkConnectionInfo_NetworkType_WIFI
| gdt_cct_NetworkConnectionInfo_NetworkType_MOBILE_MMS
| gdt_cct_NetworkConnectionInfo_NetworkType_MOBILE_SUPL
| gdt_cct_NetworkConnectionInfo_NetworkType_MOBILE_DUN
| gdt_cct_NetworkConnectionInfo_NetworkType_MOBILE_HIPRI
| gdt_cct_NetworkConnectionInfo_NetworkType_WIMAX
| gdt_cct_NetworkConnectionInfo_NetworkType_BLUETOOTH
| gdt_cct_NetworkConnectionInfo_NetworkType_DUMMY
| gdt_cct_NetworkConnectionInfo_NetworkType_ETHERNET
| gdt_cct_NetworkConnectionInfo_NetworkType_MOBILE_FOTA
| gdt_cct_NetworkConnectionInfo_NetworkType_MOBILE_IMS
| gdt_cct_NetworkConnectionInfo_NetworkType_MOBILE_CBS
| gdt_cct_NetworkConnectionInfo_NetworkType_WIFI_P2P
| gdt_cct_NetworkConnectionInfo_NetworkType_MOBILE_IA
| gdt_cct_NetworkConnectionInfo_NetworkType_MOBILE_EMERGENCY
| gdt_cct_NetworkConnectionInfo_NetworkType_PROXY
| gdt_cct_NetworkConnectionInfo_NetworkType_VPN.

Definition gdt_cct_NetworkConnectionInfo_NetworkType_value
    (x : gdt_cct_NetworkConnectionInfo_NetworkType) : Z :=
  match x with
  | gdt_cct_NetworkConnectionInfo_NetworkType_NONE => -1
  | gdt_cct_NetworkConnectionInfo_NetworkType_MOBILE => 0
  | gdt_cct_NetworkConnectionInfo_NetworkType_WIFI => 1
  | gdt_cct_NetworkConnectionInfo_NetworkType_MOBILE_MMS => 2
  | gdt_cct_NetworkConnectionInfo_NetworkType_MOBILE_SUPL => 3
  | gdt_cct_NetworkConnectionInfo_NetworkType_MOBILE_DUN => 4
  | gdt_cct_NetworkConnectionInfo_NetworkType_MOBILE_HIPRI => 5
  | gdt_cct_NetworkConnectionInfo_NetworkType_WIMAX => 6
  | gdt_cct_NetworkConnectionInfo_NetworkType_BLUETOOTH => 7
  | gdt_cct_NetworkConnectionInfo_NetworkType_DUMMY => 8
  | gdt_cct_NetworkConnectionInfo_NetworkType_ETHERNET => 9
  | gdt_cct_NetworkConnectionInfo_NetworkType_MOBILE_FOTA => 10
  | gdt_cct_NetworkConnectionInfo_NetworkType_MOBILE_IMS => 11
  | gdt_cct_NetworkConnectionInfo_NetworkType_MOBILE_CBS => 12
  | gdt_cct_NetworkConnectionInfo_NetworkType_WIFI_P2P => 13
  | gdt_cct_NetworkConnectionInfo_NetworkType_MOBILE_IA => 14
  | gdt_cct_NetworkConnectionInfo_NetworkType_MOBILE_EMERGENCY => 15
  | gdt_cct_NetworkConnectionInfo_NetworkType_PROXY => 16
  | gdt_cct_NetworkConnectionInfo_NetworkType_VPN => 17
  end.

Inductive gdt_cct_NetworkConnectionInfo_MobileSubtype : Type :=
| gdt_cct_NetworkConnectionInfo_MobileSubtype_UNKNOWN_MOBILE_SUBTYPE
| gdt_cct_NetworkConnectionInfo_MobileSubtype_GPRS
| gdt_cct_NetworkConnectionInfo_MobileSubtype_EDGE
| gdt_cct_NetworkConnectionInfo_MobileSubtype_UMTS
| gdt_cct_NetworkConnectionInfo_MobileSubtype_CDMA
| gdt_cct_NetworkConnectionInfo_MobileSubtype_EVDO_0
| gdt_cct_NetworkConnectionInfo_MobileSubtype_EVDO_A
| gdt_cct_NetworkConnectionInfo_MobileSubtype_RTT
| gdt_cct_NetworkConnectionInfo_MobileSubtype_HSDPA
| gdt_cct_NetworkConnectionInfo_MobileSubtype_HSUPA
| gdt_cct_NetworkConnectionInfo_MobileSubtype_HSPA
| gdt_cct_NetworkConnectionInfo_MobileSubtype_IDEN
| gdt_cct_NetworkConnectionInfo_MobileSubtype_EVDO_B
| gdt_cct_NetworkConnectionInfo_MobileSubtype_LTE
| gdt_cct_NetworkConnectionInfo_MobileSubtype_EHRPD
| gdt_cct_NetworkConnectionInfo_MobileSubtype_HSPAP
| gdt_cct_NetworkConnectionInfo_MobileSubtype_GSM
| gdt_cct_NetworkConnectionInfo_MobileSubtype_TD_SCDMA
| gdt_cct_NetworkConnectionInfo_MobileSubtype_IWLAN
| gdt_cct_NetworkConnectionInfo_MobileSubtype_LTE_CA
| gdt_cct_NetworkConnectionInfo_MobileSubtype_COMBINED.

Definition gdt_cct_NetworkConnectionInfo_MobileSubtype_value
    (x : gdt_cct_NetworkConnectionInfo_MobileSubtype) : Z :=
  match x with
  | gdt_cct_NetworkConnectionInfo_MobileSubtype_UNKNOWN_MOBILE_SUBTYPE => 0
  | gdt_cct_NetworkConnectionInfo_MobileSubtype_GPRS => 1
  | gdt_cct_NetworkConnectionInfo_MobileSubtype_EDGE => 2
  | gdt_cct_NetworkConnectionInfo_MobileSubtype_UMTS => 3
  | gdt_cct_NetworkConnectionInfo_MobileSubtype_CDMA => 4
  | gdt_cct_NetworkConnectionInfo_MobileSubtype_EVDO_0 => 5
  | gdt_cct_NetworkConnectionInfo_MobileSubtype_EVDO_A => 6
  | gdt_cct_NetworkConnectionInfo_MobileSubtype_RTT => 7
  | gdt_cct_NetworkConnectionInfo_MobileSubtype_HSDPA => 8
  | gdt_cct_NetworkConnectionInfo_MobileSubtype_HSUPA => 9
  | gdt_cct_NetworkConnectionInfo_MobileSubtype_HSPA => 10
  | gdt_cct_NetworkConnectionInfo_MobileSubtype_IDEN => 11
  | gdt_cct_NetworkConnectionInfo_MobileSubtype_EVDO_B => 12
  | gdt_cct_NetworkConnectionInfo_MobileSubtype_LTE => 13
  | gdt_cct_NetworkConnectionInfo_MobileSubtype_EHRPD => 14
  | gdt_cct_NetworkConnectionInfo_MobileSubtype_HSPAP => 15
  | gdt_cct_NetworkConnectionInfo_MobileSubtype_GSM => 16
  | gdt_cct_NetworkConnectionInfo_MobileSubtype_TD_SCDMA => 17
  | gdt_cct_NetworkConnectionInfo_MobileSubtype_IWLAN => 18
  | gdt_cct_NetworkConnectionInfo_MobileSubtype_LTE_CA => 19
  | gdt_cct_NetworkConnectionInfo_MobileSubtype_COMBINED => 100
  end.

Inductive gdt_cct_ClientInfo_ClientType : Type :=
| gdt_cct_ClientInfo_ClientType_CLIENT_UNKNOWN
| gdt_cct_ClientInfo_ClientType_IOS_FIREBASE.

Definition gdt_cct_ClientInfo_ClientType_value
    (x : gdt_cct_ClientInfo_ClientType) : Z :=
  match x with
  | gdt_cct_ClientInfo_ClientType_CLIENT_UNKNOWN => 0
  | gdt_cct_ClientInfo_ClientType_IOS_FIREBASE => 15
  end.

Inductive gdt_cct_QosTierConfiguration_QosTier : Type :=
| gdt_cct_QosTierConfiguration_QosTier_DEFAULT
| gdt_cct_QosTierConfiguration_QosTier_UNMETERED_ONLY
| gdt_cct_QosTierConfiguration_QosTier_UNMETERED_OR_DAILY
| gdt_cct_QosTierConfiguration_QosTier_FAST_IF_RADIO_AWAKE
| gdt_cct_QosTierConfiguration_QosTier_NEVER.

Definition gdt_cct_QosTierConfiguration_QosTier_value
    (x : gdt_cct_QosTierConfiguration_QosTier) : Z :=
  match x with
  | gdt_cct_QosTierConfiguration_QosTier_DEFAULT => 0
  | gdt_cct_QosTierConfiguration_QosTier_UNMETERED_ONLY => 1
  | gdt_cct_QosTierConfiguration_QosTier_UNMETERED_OR_DAILY => 2
  | gdt_cct_QosTierConfiguration_QosTier_FAST_IF_RADIO_AWAKE => 3
  | gdt_cct_QosTierConfiguration_QosTier_NEVER => 4
  end.

Definition gdt_cct_IosClientInfo : list (string * ctype) :=
  [ ("os_major_version", CPtr pb_bytes_array_t);
    ("os_full_version", CPtr pb_bytes_array_t);
    ("application_build", CPtr pb_bytes_array_t);
    ("country", CPtr pb_bytes_array_t);
    ("model", CPtr pb_bytes_array_t);
    ("language_code", CPtr pb_bytes_array_t);
    ("application_bundle_id", CPtr pb_bytes_array_t) ].

Definition gdt_cct_ClientInfo : list (string * ctype) :=
  [ ("has_client_type", CBool);
    ("client_type", CEnum);
    ("has_ios_client_info", CBool);
    ("ios_client_info", CStruct gdt_cct_IosClientInfo) ].

Definition gdt_cct_NetworkConnectionInfo : list (string * ctype) :=
  [ ("has_network_type", CBool);
    ("network_type", CEnum);
    ("has_mobile_subtype", CBool);
    ("mobile_subtype", CEnum) ].

Definition gdt_cct_QosTierConfiguration : list (string * ctype) :=
  [ ("has_qos_tier", CBool);
    ("qos_tier", CEnum);
    ("has_log_source", CBool);
    ("log_source", CInt32) ].

Definition gdt_cct_QosTiersOverride : list (string * ctype) :=
  [ ("qos_tier_configuration_count", CUInt32);
    ("qos_tier_configuration", CPtr (CStruct gdt_cct_QosTierConfiguration));
    ("has_qos_tier_fingerprint", CBool);
    ("qos_tier_fingerprint", CInt64) ].

Definition gdt_cct_LogEvent : list (string * ctype) :=
  [ ("has_event_time_ms", CBool);
    ("event_time_ms", CInt64);
    ("source_extension", CPtr pb_bytes_array_t);
    ("has_event_code", CBool);
    ("event_code", CInt32);
    ("has_timezone_offset_seconds", CBool);
    ("timezone_offset_seconds", CInt64);
    ("has_event_uptime_ms", CBool);
    ("event_uptime_ms", CInt64);
    ("has_network_connection_info", CBool);
    ("network_connection_info", CStruct gdt_cct_NetworkConnectionInfo) ].

Definition gdt_cct_LogRequest : list (string * ctype) :=
  [ ("has_client_info", CBool);
    ("client_info", CStruct gdt_cct_ClientInfo);
    ("has_log_source", CBool);
    ("log_source", CInt32);
    ("log_event_count", CUInt32);
    ("log_event", CPtr (CStruct gdt_cct_LogEvent));
    ("has_request_time_ms", CBool);
    ("request_time_ms", CInt64);
    ("has_request_uptime_ms", CBool);
    ("request_uptime_ms", CInt64);
    ("has_qos_tier", CBool);
    ("qos_tier", CEnum) ].

Definition gdt_cct_BatchedLogRequest : list (string * ctype) :=
  [ ("log_request_count", CUInt32);
    ("log_request", CPtr (CStruct gdt_cct_LogRequest)) ].

Definition gdt_cct_LogResponse : list (string * ctype) :=
  [ ("has_next_request_wait_millis", CBool);
    ("next_request_wait_millis", CInt64);
    ("has_qos_tier", CBool);
    ("qos_tier", CStruct gdt_cct_QosTiersOverride) ].

Definition gdt_cct_NetworkConnectionInfo_size : Z := 13.

Definition gdt_cct_QosTierConfiguration_size : Z := 13.

Definition gdt_cct_NetworkConnectionInfo_network_type_default : list byte := le_bytes 4 (gdt_cct_NetworkConnectionInfo_NetworkType_value gdt_cct_NetworkConnectionInfo_NetworkType_NONE).

Definition gdt_cct_NetworkConnectionInfo_mobile_subtype_default : list byte := le_bytes 4 (gdt_cct_NetworkConnectionInfo_MobileSubtype_value gdt_cct_NetworkConnectionInfo_MobileSubtype_UNKNOWN_MOBILE_SUBTYPE).

Definition gdt_cct_LogRequest_qos_tier_default : list byte := le_bytes 4 (gdt_cct_QosTierConfiguration_QosTier_value gdt_cct_QosTierConfiguration_QosTier_DEFAULT).

Definition gdt_cct_QosTierConfiguration_log_source_default : list byte := le_bytes 4 (0).

Section Tables.
(** The address the linker gives each symbol. *)
Context (sym : string -> Z).

Definition gdt_cct_LogEvent_rows : list field_row :=
  [ PB_FIELD 1 INT64 OPTIONAL STATIC FIRST gdt_cct_LogEvent
      "event_time_ms" "event_time_ms" 0;
    PB_FIELD 6 BYTES OPTIONAL POINTER OTHER gdt_cct_LogEvent
      "source_extension" "event_time_ms" 0;
    PB_FIELD 11 INT32 OPTIONAL STATIC OTHER gdt_cct_LogEvent
      "event_code" "source_extension" 0;
    PB_FIELD 15 SINT64 OPTIONAL STATIC OTHER gdt_cct_LogEvent
      "timezone_offset_seconds" "event_code" 0;
    PB_FIELD 17 INT64 OPTIONAL STATIC OTHER gdt_cct_LogEvent
      "event_uptime_ms" "timezone_offset_seconds" 0;
    PB_FIELD 23 MESSAGE OPTIONAL STATIC OTHER gdt_cct_LogEvent
      "network_connection_info" "event_uptime_ms" (sym "gdt_cct_NetworkConnectionInfo_fields") ].

Definition gdt_cct_LogEvent_fields : list pb_field_t :=
  field_table gdt_cct_LogEvent_rows.

Definition gdt_cct_NetworkConnectionInfo_rows : list field_row :=
  [ PB_FIELD 1 ENUM OPTIONAL STATIC FIRST gdt_cct_NetworkConnectionInfo
      "network_type" "network_type" (sym "gdt_cct_NetworkConnectionInfo_network_type_default");
    PB_FIELD 2 UENUM OPTIONAL STATIC OTHER gdt_cct_NetworkConnectionInfo
      "mobile_subtype" "network_type" (sym "gdt_cct_NetworkConnectionInfo_mobile_subtype_default") ].

Definition gdt_cct_NetworkConnectionInfo_fields : list pb_field_t :=
  field_table gdt_cct_NetworkConnectionInfo_rows.

Definition gdt_cct_IosClientInfo_rows : list field_row :=
  [ PB_FIELD 3 BYTES OPTIONAL POINTER FIRST gdt_cct_IosClientInfo
      "os_major_version" "os_major_version" 0;
    PB_FIELD 4 BYTES OPTIONAL POINTER OTHER gdt_cct_IosClientInfo
      "os_full_version" "os_major_version" 0;
    PB_FIELD 5 BYTES OPTIONAL POINTER OTHER gdt_cct_IosClientInfo
      "application_build" "os_full_version" 0;
    PB_FIELD 6 BYTES OPTIONAL POINTER OTHER gdt_cct_IosClientInfo
      "country" "application_build" 0;
    PB_FIELD 7 BYTES OPTIONAL POINTER OTHER gdt_cct_IosClientInfo
      "model" "country" 0;
    PB_FIELD 8 BYTES OPTIONAL POINTER OTHER gdt_cct_IosClientInfo
      "language_code" "model" 0;
    PB_FIELD 11 BYTES OPTIONAL POINTER OTHER gdt_cct_IosClientInfo
      "application_bundle_id" "language_code" 0 ].

Definition gdt_cct_IosClientInfo_fields : list pb_field_t :=
  field_table gdt_cct_IosClientInfo_rows.

Definition gdt_cct_ClientInfo_rows : list field_row :=
  [ PB_FIELD 1 UENUM OPTIONAL STATIC FIRST gdt_cct_ClientInfo
      "client_type" "client_type" 0;
    PB_FIELD 4 MESSAGE OPTIONAL STATIC OTHER gdt_cct_ClientInfo
      "ios_client_info" "client_type" (sym "gdt_cct_IosClientInfo_fields") ].

Definition gdt_cct_ClientInfo_fields : list pb_field_t :=
  field_table gdt_cct_ClientInfo_rows.

Definition gdt_cct_BatchedLogRequest_rows : list field_row :=
  [ PB_FIELD 1 MESSAGE REPEATED POINTER FIRST gdt_cct_BatchedLogRequest
      "log_request" "log_request" (sym "gdt_cct_LogRequest_fields") ].

Definition gdt_cct_BatchedLogRequest_fields : list pb_field_t :=
  field_table gdt_cct_BatchedLogRequest_rows.

Definition gdt_cct_LogRequest_rows : list field_row :=
  [ PB_FIELD 1 MESSAGE OPTIONAL STATIC FIRST gdt_cct_LogRequest
      "client_info" "client_info" (sym "gdt_cct_ClientInfo_fields");
    PB_FIELD 2 INT32 OPTIONAL STATIC OTHER gdt_cct_LogRequest
      "log_source" "client_info" 0;
    PB_FIELD 3 MESSAGE REPEATED POINTER OTHER gdt_cct_LogRequest
      "log_event" "log_source" (sym "gdt_cct_LogEvent_fields");
    PB_FIELD 4 INT64 OPTIONAL STATIC OTHER gdt_cct_LogRequest
      "request_time_ms" "log_event" 0;
    PB_FIELD 8 INT64 OPTIONAL STATIC OTHER gdt_cct_LogRequest
      "request_uptime_ms" "request_time_ms" 0;
    PB_FIELD 9 UENUM OPTIONAL STATIC OTHER gdt_cct_LogRequest
      "qos_tier" "request_uptime_ms" (sym "gdt_cct_LogRequest_qos_tier_default") ].

Definition gdt_cct_LogRequest_fields : list pb_field_t :=
  field_table gdt_cct_LogRequest_rows.

Definition gdt_cct_QosTierConfiguration_rows : list field_row :=
  [ PB_FIELD 2 UENUM OPTIONAL STATIC FIRST gdt_cct_QosTierConfiguration
      "qos_tier" "qos_tier" 0;
    PB_FIELD 3 INT32 OPTIONAL STATIC OTHER gdt_cct_QosTierConfiguration
      "log_source" "qos_tier" (sym "gdt_cct_QosTierConfiguration_log_source_default") ].

Definition gdt_cct_QosTierConfiguration_fields : list pb_field_t :=
  field_table gdt_cct_QosTierConfiguration_rows.

Definition gdt_cct_QosTiersOverride_rows : list field_row :=
  [ PB_FIELD 1 MESSAGE REPEATED POINTER FIRST gdt_cct_QosTiersOverride
      "qos_tier_configuration" "qos_tier_configuration" (sym "gdt_cct_QosTierConfiguration_fields");
    PB_FIELD 2 INT64 OPTIONAL STATIC OTHER gdt_cct_QosTiersOverride
      "qos_tier_fingerprint" "qos_tier_configuration" 0 ].

Definition gdt_cct_QosTiersOverride_fields : list pb_field_t :=
  field_table gdt_cct_QosTiersOverride_rows.

Definition gdt_cct_LogResponse_rows : list field_row :=
  [ PB_FIELD 1 INT64 OPTIONAL STATIC FIRST gdt_cct_LogResponse
      "next_request_wait_millis" "next_request_wait_millis" 0;
    PB_FIELD 3 MESSAGE OPTIONAL STATIC OTHER gdt_cct_LogResponse
      "qos_tier" "next_request_wait_millis" (sym "gdt_cct_QosTiersOverride_fields") ].

Definition gdt_cct_LogResponse_fields : list pb_field_t :=
  field_table gdt_cct_LogResponse_rows.
End Tables.

(** * Checks *)

(** The structs with their rows. *)
Definition cct_tables (sym : string -> Z) : list (list (string * ctype) * list field_row) :=
  [ (gdt_cct_LogEvent, gdt_cct_LogEvent_rows sym);
    (gdt_cct_NetworkConnectionInfo, gdt_cct_NetworkConnectionInfo_rows sym);
    (gdt_cct_IosClientInfo, gdt_cct_IosClientInfo_rows);
    (gdt_cct_ClientInfo, gdt_cct_ClientInfo_rows sym);
    (gdt_cct_BatchedLogRequest, gdt_cct_BatchedLogRequest_rows sym);
    (gdt_cct_LogRequest, gdt_cct_LogRequest_rows sym);
    (gdt_cct_QosTierConfiguration, gdt_cct_QosTierConfiguration_rows sym);
    (gdt_cct_QosTiersOverride, gdt_cct_QosTiersOverride_rows sym);
    (gdt_cct_LogResponse, gdt_cct_LogResponse_rows sym) ].

Lemma cct_tables_describe sym :
  Forall (fun p => describes (fst p) (snd p)) (cct_tables sym).
Proof. unfold cct_tables. describe. Qed.

(** Each of the nine descriptor tables of the log upload protocol fits its
    struct: wherever the linker puts the symbols, a walk of the iterator over a
    struct at any address stands, row by row, at the member the row names and at
    its has_ or _count companion. *)
Theorem cct_iterators sym st rows dest k x :
  (st, rows) ∈ cct_tables sym -> rows !! k = Some x -> stands_at st rows dest k x.
Proof.
  intros Hin. apply walk_stands_at.
  exact (proj1 (Forall_forall _ _) (cct_tables_describe sym) _ (proj1 (list_elem_of_In _ _) Hin)).
Qed.

Lemma cct_iterators_witness :
  exists x, r_m x = "request_time_ms" /\
    stands_at gdt_cct_LogRequest (gdt_cct_LogRequest_rows (fun _ => 0x500)) 0x1000 3 x.
Proof.
  eexists. split; [|apply (cct_iterators (fun _ => 0x500)); [|reflexivity]]; [reflexivity|].
  unfold cct_tables. repeat constructor.
Defined.

(** * A program image

    The symbols at fixed addresses, for running the library on the tables. *)

Definition cct_sym (name : string) : Z :=
  if String.eqb name "gdt_cct_LogEvent_fields" then 0x100
  else if String.eqb name "gdt_cct_NetworkConnectionInfo_fields" then 0x200
  else if String.eqb name "gdt_cct_IosClientInfo_fields" then 0x300
  else if String.eqb name "gdt_cct_ClientInfo_fields" then 0x400
  else if String.eqb name "gdt_cct_BatchedLogRequest_fields" then 0x500
  else if String.eqb name "gdt_cct_LogRequest_fields" then 0x600
  else if String.eqb name "gdt_cct_QosTierConfiguration_fields" then 0x700
  else if String.eqb name "gdt_cct_QosTiersOverride_fields" then 0x800
  else if String.eqb name "gdt_cct_LogResponse_fields" then 0x900
  else if String.eqb name "gdt_cct_NetworkConnectionInfo_network_type_default" then 0xa00
  else if String.eqb name "gdt_cct_NetworkConnectionInfo_mobile_subtype_default" then 0xa04
  else if String.eqb name "gdt_cct_LogRequest_qos_tier_default" then 0xa08
  else if String.eqb name "gdt_cct_QosTierConfiguration_log_source_default" then 0xa0c
  else 0.

Definition cct_image (p : Z) : option (list pb_field_t) :=
  if p =? 0x100 then Some (gdt_cct_LogEvent_fields cct_sym)
  else if p =? 0x200 then Some (gdt_cct_NetworkConnectionInfo_fields cct_sym)
  else if p =? 0x300 then Some gdt_cct_IosClientInfo_fields
  else if p =? 0x400 then Some (gdt_cct_ClientInfo_fields cct_sym)
  else if p =? 0x500 then Some (gdt_cct_BatchedLogRequest_fields cct_sym)
  else if p =? 0x600 then Some (gdt_cct_LogRequest_fields cct_sym)
  else if p =? 0x700 then Some (gdt_cct_QosTierConfiguration_fields cct_sym)
  else if p =? 0x800 then Some (gdt_cct_QosTiersOverride_fields cct_sym)
  else if p =? 0x900 then Some (gdt_cct_LogResponse_fields cct_sym)
  else None.

(** The constants the descriptors point to. *)
Definition cct_constants : list byte :=
  gdt_cct_NetworkConnectionInfo_network_type_default ++
  gdt_cct_NetworkConnectionInfo_mobile_subtype_default ++
  gdt_cct_LogRequest_qos_tier_default ++
  gdt_cct_QosTierConfiguration_log_source_default.
Definition cct_rodata : list (Z * Z) := [(0xa00, 16)].

(** A batch of one request with one event, in memory at [0x10000]. *)
Definition cct_message : list (Z * list byte) :=
  [ (0xa00, cct_constants);
    (0x10000, le_bytes 8 1 ++ le_bytes 8 0x11000);
    (0x11000, replicate 80 x00 ++ le_bytes 4 1 ++ le_bytes 4 1018 ++ le_bytes 8 1 ++
              le_bytes 8 0x12000 ++ le_bytes 8 1 ++ le_bytes 8 77 ++ le_bytes 8 0 ++
              le_bytes 8 0 ++ le_bytes 4 1 ++ le_bytes 4 3);
    (0x12000, le_bytes 8 1 ++ le_bytes 8 300 ++ le_bytes 8 0x13000 ++ le_bytes 8 0 ++
              le_bytes 8 1 ++ le_bytes 8 (-3600) ++ le_bytes 8 0 ++ le_bytes 8 0 ++
              le_bytes 4 1 ++ le_bytes 4 1 ++ le_bytes 4 1 ++ le_bytes 4 1 ++
              le_bytes 4 13 ++ le_bytes 4 0);
    (0x13000, le_bytes 4 3 ++ [x61; x62; x63]) ].
