(* ===== verification/FirebaseCore.v ===== *)
(** FirebaseCoreDiagnostics: the configuration message that the Firebase SDK
    reports (firebasecore.nanopb.h and firebasecore.nanopb.c): enums, struct,
    descriptor table, and the check of the table against the struct. *)

From S2P Require Import Prelude CMem PbTypes FieldIter Layout.
Open Scope Z_scope.

(** * firebasecore.nanopb.h *)

Inductive logs_proto_mobilesdk_ios_ICoreConfiguration_ConfigurationType : Type :=
| logs_proto_mobilesdk_ios_ICoreConfiguration_ConfigurationType_UNKNOWN_CONFIGURATION_TYPE
| logs_proto_mobilesdk_ios_ICoreConfiguration_ConfigurationType_CORE
| logs_proto_mobilesdk_ios_ICoreConfiguration_ConfigurationType_SDK.

Definition logs_proto_mobilesdk_ios_ICoreConfiguration_ConfigurationType_value
    (x : logs_proto_mobilesdk_ios_ICoreConfiguration_ConfigurationType) : Z :=
  match x with
  | logs_proto_mobilesdk_ios_ICoreConfiguration_ConfigurationType_UNKNOWN_CONFIGURATION_TYPE => 0
  | logs_proto_mobilesdk_ios_ICoreConfiguration_ConfigurationType_CORE => 1
  | logs_proto_mobilesdk_ios_ICoreConfiguration_ConfigurationType_SDK => 2
  end.

Inductive logs_proto_mobilesdk_ios_ICoreConfiguration_BuildType : Type :=
| logs_proto_mobilesdk_ios_ICoreConfiguration_BuildType_UNKNOWN_BUILD_TYPE
| logs_proto_mobilesdk_ios_ICoreConfiguration_BuildType_INTERNAL
| logs_proto_mobilesdk_ios_ICoreConfiguration_BuildType_EAP
| logs_proto_mobilesdk_ios_ICoreConfiguration_BuildType_PROD.

Definition logs_proto_mobilesdk_ios_ICoreConfiguration_BuildType_value
    (x : logs_proto_mobilesdk_ios_ICoreConfiguration_BuildType) : Z :=
  match x with
  | logs_proto_mobilesdk_ios_ICoreConfiguration_BuildType_UNKNOWN_BUILD_TYPE => 0
  | logs_proto_mobilesdk_ios_ICoreConfiguration_BuildType_INTERNAL => 1
  | logs_proto_mobilesdk_ios_ICoreConfiguration_BuildType_EAP => 2
  | logs_proto_mobilesdk_ios_ICoreConfiguration_BuildType_PROD => 3
  end.

Inductive logs_proto_mobilesdk_ios_ICoreConfiguration_ServiceType : Type :=
| logs_proto_mobilesdk_ios_ICoreConfiguration_ServiceType_UNKNOWN_SDK_SERVICE
| logs_proto_mobilesdk_ios_ICoreConfiguration_ServiceType_ICORE
| logs_proto_mobilesdk_ios_ICoreConfiguration_ServiceType_ADMOB
| logs_proto_mobilesdk_ios_ICoreConfiguration_ServiceType_APP_INVITE
| logs_proto_mobilesdk_ios_ICoreConfiguration_ServiceType_SIGN_IN
| logs_proto_mobilesdk_ios_ICoreConfiguration_ServiceType_GCM
| logs_proto_mobilesdk_ios_ICoreConfiguration_ServiceType_MAPS
| logs_proto_mobilesdk_ios_ICoreConfiguration_ServiceType_SCION
| logs_proto_mobilesdk_ios_ICoreConfiguration_ServiceType_ANALYTICS
| logs_proto_mobilesdk_ios_ICoreConfiguration_ServiceType_APP_INDEXING
| logs_proto_mobilesdk_ios_ICoreConfiguration_ServiceType_CONFIG
| logs_proto_mobilesdk_ios_ICoreConfiguration_ServiceType_DURABLE_DEEP_LINKS
| logs_proto_mobilesdk_ios_ICoreConfiguration_ServiceType_CRASH
| logs_proto_mobilesdk_ios_ICoreConfiguration_ServiceType_AUTH
| logs_proto_mobilesdk_ios_ICoreConfiguration_ServiceType_DATABASE
| logs_proto_mobilesdk_ios_ICoreConfiguration_ServiceType_STORAGE
| logs_proto_mobilesdk_ios_ICoreConfiguration_ServiceType_MESSAGING
| logs_proto_mobilesdk_ios_ICoreConfiguration_ServiceType_MEASUREMENT
| logs_proto_mobilesdk_ios_ICoreConfiguration_ServiceType_REMOTE_CONFIG
| logs_proto_mobilesdk_ios_ICoreConfiguration_ServiceType_DYNAMIC_LINKS
| logs_proto_mobilesdk_ios_ICoreConfiguration_ServiceType_INVITES
| logs_proto_mobilesdk_ios_ICoreConfiguration_ServiceType_AUTH_UI
| logs_proto_mobilesdk_ios_ICoreConfiguration_ServiceType_FIRESTORE
| logs_proto_mobilesdk_ios_ICoreConfiguration_ServiceType_PERFORMANCE
| logs_proto_mobilesdk_ios_ICoreConfiguration_ServiceType_ML_VISION_ON_DEVICE_FACE
| logs_proto_mobilesdk_ios_ICoreConfiguration_ServiceType_ML_VISION_ON_DEVICE_BARCODE
| logs_proto_mobilesdk_ios_ICoreConfiguration_ServiceType_ML_VISION_ON_DEVICE_TEXT
| logs_proto_mobilesdk_ios_ICoreConfiguration_ServiceType_ML_VISION_ON_DEVICE_LABEL
| logs_proto_mobilesdk_ios_ICoreConfiguration_ServiceType_ML_MODEL_INTERPRETER
| logs_proto_mobilesdk_ios_ICoreConfiguration_ServiceType_IN_APP_MESSAGING
| logs_proto_mobilesdk_ios_ICoreConfiguration_ServiceType_FUNCTIONS
| logs_proto_mobilesdk_ios_ICoreConfiguration_ServiceType_ML_NATURAL_LANGUAGE
| logs_proto_mobilesdk_ios_ICoreConfiguration_ServiceType_ML_VISION_ON_DEVICE_AUTOML
| logs_proto_mobilesdk_ios_ICoreConfiguration_ServiceType_ML_VISION_ON_DEVICE_OBJECT_DETECTION.

Definition logs_proto_mobilesdk_ios_ICoreConfiguration_ServiceType_value
    (x : logs_proto_mobilesdk_ios_ICoreConfiguration_ServiceType) : Z :=
  match x with
  | logs_proto_mobilesdk_ios_ICoreConfiguration_ServiceType_UNKNOWN_SDK_SERVICE => 0
  | logs_proto_mobilesdk_ios_ICoreConfiguration_ServiceType_ICORE => 1
  | logs_proto_mobilesdk_ios_ICoreConfiguration_ServiceType_ADMOB => 2
  | logs_proto_mobilesdk_ios_ICoreConfiguration_ServiceType_APP_INVITE => 3
  | logs_proto_mobilesdk_ios_ICoreConfiguration_ServiceType_SIGN_IN => 5
  | logs_proto_mobilesdk_ios_ICoreConfiguration_ServiceType_GCM => 6
  | logs_proto_mobilesdk_ios_ICoreConfiguration_ServiceType_MAPS => 7
  | logs_proto_mobilesdk_ios_ICoreConfiguration_ServiceType_SCION => 8
  | logs_proto_mobilesdk_ios_ICoreConfiguration_ServiceType_ANALYTICS => 9
  | logs_proto_mobilesdk_ios_ICoreConfiguration_ServiceType_APP_INDEXING => 10
  | logs_proto_mobilesdk_ios_ICoreConfiguration_ServiceType_CONFIG => 11
  | logs_proto_mobilesdk_ios_ICoreConfiguration_ServiceType_DURABLE_DEEP_LINKS => 12
  | logs_proto_mobilesdk_ios_ICoreConfiguration_ServiceType_CRASH => 13
  | logs_proto_mobilesdk_ios_ICoreConfiguration_ServiceType_AUTH => 14
  | logs_proto_mobilesdk_ios_ICoreConfiguration_ServiceType_DATABASE => 15
  | logs_proto_mobilesdk_ios_ICoreConfiguration_ServiceType_STORAGE => 16
  | logs_proto_mobilesdk_ios_ICoreConfiguration_ServiceType_MESSAGING => 17
  | logs_proto_mobilesdk_ios_ICoreConfiguration_ServiceType_MEASUREMENT => 18
  | logs_proto_mobilesdk_ios_ICoreConfiguration_ServiceType_REMOTE_CONFIG => 19
  | logs_proto_mobilesdk_ios_ICoreConfiguration_ServiceType_DYNAMIC_LINKS => 20
  | logs_proto_mobilesdk_ios_ICoreConfiguration_ServiceType_INVITES => 21
  | logs_proto_mobilesdk_ios_ICoreConfiguration_ServiceType_AUTH_UI => 22
  | logs_proto_mobilesdk_ios_ICoreConfiguration_ServiceType_FIRESTORE => 23
  | logs_proto_mobilesdk_ios_ICoreConfiguration_ServiceType_PERFORMANCE => 24
  | logs_proto_mobilesdk_ios_ICoreConfiguration_ServiceType_ML_VISION_ON_DEVICE_FACE => 26
  | logs_proto_mobilesdk_ios_ICoreConfiguration_ServiceType_ML_VISION_ON_DEVICE_BARCODE => 27
  | logs_proto_mobilesdk_ios_ICoreConfiguration_ServiceType_ML_VISION_ON_DEVICE_TEXT => 28
  | logs_proto_mobilesdk_ios_ICoreConfiguration_ServiceType_ML_VISION_ON_DEVICE_LABEL => 29
  | logs_proto_mobilesdk_ios_ICoreConfiguration_ServiceType_ML_MODEL_INTERPRETER => 30
  | logs_proto_mobilesdk_ios_ICoreConfiguration_ServiceType_IN_APP_MESSAGING => 31
  | logs_proto_mobilesdk_ios_ICoreConfiguration_ServiceType_FUNCTIONS => 32
  | logs_proto_mobilesdk_ios_ICoreConfiguration_ServiceType_ML_NATURAL_LANGUAGE => 33
  | logs_proto_mobilesdk_ios_ICoreConfiguration_ServiceType_ML_VISION_ON_DEVICE_AUTOML => 34
  | logs_proto_mobilesdk_ios_ICoreConfiguration_ServiceType_ML_VISION_ON_DEVICE_OBJECT_DETECTION => 35
  end.

Inductive logs_proto_mobilesdk_ios_ICoreConfiguration_PodName : Type :=
| logs_proto_mobilesdk_ios_ICoreConfiguration_PodName_UNKNOWN_POD_NAME
| logs_proto_mobilesdk_ios_ICoreConfiguration_PodName_GOOGLE
| logs_proto_mobilesdk_ios_ICoreConfiguration_PodName_FIREBASE.

Definition logs_proto_mobilesdk_ios_ICoreConfiguration_PodName_value
    (x : logs_proto_mobilesdk_ios_ICoreConfiguration_PodName) : Z :=
  match x with
  | logs_proto_mobilesdk_ios_ICoreConfiguration_PodName_UNKNOWN_POD_NAME => 0
  | logs_proto_mobilesdk_ios_ICoreConfiguration_PodName_GOOGLE => 1
  | logs_proto_mobilesdk_ios_ICoreConfiguration_PodName_FIREBASE => 2
  end.

Inductive logs_proto_mobilesdk_ios_ICoreConfiguration_DeploymentType : Type :=
| logs_proto_mobilesdk_ios_ICoreConfiguration_DeploymentType_UNKNOWN
| logs_proto_mobilesdk_ios_ICoreConfiguration_DeploymentType_COCOAPODS
| logs_proto_mobilesdk_ios_ICoreConfiguration_DeploymentType_ZIP_FILE
| logs_proto_mobilesdk_ios_ICoreConfiguration_DeploymentType_CARTHAGE
| logs_proto_mobilesdk_ios_ICoreConfiguration_DeploymentType_SPM.

Definition logs_proto_mobilesdk_ios_ICoreConfiguration_DeploymentType_value
    (x : logs_proto_mobilesdk_ios_ICoreConfiguration_DeploymentType) : Z :=
  match x with
  | logs_proto_mobilesdk_ios_ICoreConfiguration_DeploymentType_UNKNOWN => 0
  | logs_proto_mobilesdk_ios_ICoreConfiguration_DeploymentType_COCOAPODS => 1
  | logs_proto_mobilesdk_ios_ICoreConfiguration_DeploymentType_ZIP_FILE => 2
  | logs_proto_mobilesdk_ios_ICoreConfiguration_DeploymentType_CARTHAGE => 3
  | logs_proto_mobilesdk_ios_ICoreConfiguration_DeploymentType_SPM => 4
  end.

Definition logs_proto_mobilesdk_ios_ICoreConfiguration : list (string * ctype) :=
  [ ("has_configuration_type", CBool);
    ("configuration_type", CEnum);
    ("sdk_service_installed_count", CUInt32);
    ("sdk_service_installed", CPtr CEnum);
    ("device_model", CPtr pb_bytes_array_t);
    ("app_id", CPtr pb_bytes_array_t);
    ("bundle_id", CPtr pb_bytes_array_t);
    ("has_pod_name", CBool);
    ("pod_name", CEnum);
    ("icore_version", CPtr pb_bytes_array_t);
    ("sdk_version", CPtr pb_bytes_array_t);
    ("has_sdk_name", CBool);
    ("sdk_name", CEnum);
    ("has_app_count", CBool);
    ("app_count", CInt32);
    ("os_version", CPtr pb_bytes_array_t);
    ("min_supported_ios_version", CPtr pb_bytes_array_t);
    ("has_use_default_app", CBool);
    ("use_default_app", CBool);
    ("has_deployed_in_app_store", CBool);
    ("deployed_in_app_store", CBool);
    ("has_dynamic_framework_count", CBool);
    ("dynamic_framework_count", CInt32);
    ("apple_framework_version", CPtr pb_bytes_array_t);
    ("has_using_zip_file", CBool);
    ("using_zip_file", CBool);
    ("has_deployment_type", CBool);
    ("deployment_type", CEnum);
    ("platform_info", CPtr pb_bytes_array_t);
    ("has_swizzling_enabled", CBool);
    ("swizzling_enabled", CBool);
    ("has_using_gdt", CBool);
    ("using_gdt", CBool) ].

Section Tables.
(** The address the linker gives each symbol. *)
Context (sym : string -> Z).

Definition logs_proto_mobilesdk_ios_ICoreConfiguration_rows : list field_row :=
  [ PB_FIELD 1 UENUM OPTIONAL STATIC FIRST logs_proto_mobilesdk_ios_ICoreConfiguration
      "configuration_type" "configuration_type" 0;
    PB_FIELD 7 UENUM REPEATED POINTER OTHER logs_proto_mobilesdk_ios_ICoreConfiguration
      "sdk_service_installed" "configuration_type" 0;
    PB_FIELD 9 BYTES OPTIONAL POINTER OTHER logs_proto_mobilesdk_ios_ICoreConfiguration
      "device_model" "sdk_service_installed" 0;
    PB_FIELD 10 BYTES OPTIONAL POINTER OTHER logs_proto_mobilesdk_ios_ICoreConfiguration
      "app_id" "device_model" 0;
    PB_FIELD 12 BYTES OPTIONAL POINTER OTHER logs_proto_mobilesdk_ios_ICoreConfiguration
      "bundle_id" "app_id" 0;
    PB_FIELD 16 UENUM OPTIONAL STATIC OTHER logs_proto_mobilesdk_ios_ICoreConfiguration
      "pod_name" "bundle_id" 0;
    PB_FIELD 18 BYTES OPTIONAL POINTER OTHER logs_proto_mobilesdk_ios_ICoreConfiguration
      "icore_version" "pod_name" 0;
    PB_FIELD 19 BYTES OPTIONAL POINTER OTHER logs_proto_mobilesdk_ios_ICoreConfiguration
      "sdk_version" "icore_version" 0;
    PB_FIELD 20 UENUM OPTIONAL STATIC OTHER logs_proto_mobilesdk_ios_ICoreConfiguration
      "sdk_name" "sdk_version" 0;
    PB_FIELD 21 INT32 OPTIONAL STATIC OTHER logs_proto_mobilesdk_ios_ICoreConfiguration
      "app_count" "sdk_name" 0;
    PB_FIELD 22 BYTES OPTIONAL POINTER OTHER logs_proto_mobilesdk_ios_ICoreConfiguration
      "os_version" "app_count" 0;
    PB_FIELD 24 BYTES OPTIONAL POINTER OTHER logs_proto_mobilesdk_ios_ICoreConfiguration
      "min_supported_ios_version" "os_version" 0;
    PB_FIELD 25 BOOL OPTIONAL STATIC OTHER logs_proto_mobilesdk_ios_ICoreConfiguration
      "use_default_app" "min_supported_ios_version" 0;
    PB_FIELD 26 BOOL OPTIONAL STATIC OTHER logs_proto_mobilesdk_ios_ICoreConfiguration
      "deployed_in_app_store" "use_default_app" 0;
    PB_FIELD 27 INT32 OPTIONAL STATIC OTHER logs_proto_mobilesdk_ios_ICoreConfiguration
      "dynamic_framework_count" "deployed_in_app_store" 0;
    PB_FIELD 28 BYTES OPTIONAL POINTER OTHER logs_proto_mobilesdk_ios_ICoreConfiguration
      "apple_framework_version" "dynamic_framework_count" 0;
    PB_FIELD 29 BOOL OPTIONAL STATIC OTHER logs_proto_mobilesdk_ios_ICoreConfiguration
      "using_zip_file" "apple_framework_version" 0;
    PB_FIELD 30 UENUM OPTIONAL STATIC OTHER logs_proto_mobilesdk_ios_ICoreConfiguration
      "deployment_type" "using_zip_file" 0;
    PB_FIELD 31 BYTES OPTIONAL POINTER OTHER logs_proto_mobilesdk_ios_ICoreConfiguration
      "platform_info" "deployment_type" 0;
    PB_FIELD 33 BOOL OPTIONAL STATIC OTHER logs_proto_mobilesdk_ios_ICoreConfiguration
      "swizzling_enabled" "platform_info" 0;
    PB_FIELD 36 BOOL OPTIONAL STATIC OTHER logs_proto_mobilesdk_ios_ICoreConfiguration
      "using_gdt" "swizzling_enabled" 0 ].

Definition logs_proto_mobilesdk_ios_ICoreConfiguration_fields : list pb_field_t :=
  field_table logs_proto_mobilesdk_ios_ICoreConfiguration_rows.
End Tables.

(** The descriptor of the configuration message fits its struct: a walk of
    the iterator over a struct at any address stands, row by row, at the member
    the row names and at its has_ or _count companion. *)
Theorem icore_iterators dest k x :
  logs_proto_mobilesdk_ios_ICoreConfiguration_rows !! k = Some x ->
  stands_at logs_proto_mobilesdk_ios_ICoreConfiguration
    logs_proto_mobilesdk_ios_ICoreConfiguration_rows dest k x.
Proof. apply walk_stands_at. describe. Qed.

Lemma icore_iterators_witness :
  exists x, r_m x = "using_gdt" /\
    stands_at logs_proto_mobilesdk_ios_ICoreConfiguration
      logs_proto_mobilesdk_ios_ICoreConfiguration_rows 0x1000 20 x.
Proof. eexists. split; [|apply icore_iterators; reflexivity]. reflexivity. Defined.
