(* ===== verification/EncodeSpec.v ===== *)
(** The message encoder against a reference encoding.

    [spec_message] gives, for a message in memory, the bytes of its protobuf
    encoding: a concatenation over the fields, without streams, sizes or error
    states.  The refinement theorem: whenever the reference encoding of a
    message exists, [pb_encode] counts exactly its length on a sizing stream,
    writes exactly its bytes into a buffer that has room for them, and returns
    false, without overrunning it, on a buffer that has not. *)

From S2P Require Import Prelude CMem PbTypes FieldIter Encode Decode Wire Scalar Cct Leb128.
Open Scope Z_scope.
Open Scope pb_scope.

(** * Reading the message

    [ext w w']: [w'] has all the bytes of [w], and possibly others. *)
Definition ext (w w' : world) : Prop := w_mem w ⊆ w_mem w'.

(** The value a computation reads, if it ends. *)
Definition peek {A} (m : M A) (w : world) : option A :=
  match m w with Ok a _ => Some a | Fault _ => None end.

(** The computation only reads, and reads the same in every extension. *)
Definition stable {A} (m : M A) : Prop :=
  forall w a, peek m w = Some a -> forall w', ext w w' -> m w' = Ok a w'.

(** * The reference encoding *)

Section Spec.
Context `{UserCode} (w : world).

Definition spec_key (t wiretype : Z) : option (list byte) :=
  if (0 <=? t) && (t <? 2 ^ 32) then Some (varint (t * 8 + wiretype)) else None.

Definition delimited (bs : list byte) : list byte := varint (Z.of_nat (length bs)) ++ bs.

Definition spec_fixed (a n : Z) : option (list byte) :=
  if 0 <=? n then mem_read (w_mem w) a (Z.to_nat n) else None.

(** The characters from [a] up to a NUL, at most [max] of them. *)
Fixpoint c_string (n : nat) (max a : Z) : option (list byte) :=
  match n with
  | O => None
  | S n =>
      if max <=? 0 then Some []
      else c ← w_mem w !! a;
           if b2z c =? 0 then Some []
           else rest ← c_string n (max - 1) (a + 1); Some (c :: rest)
  end.

(** The value of a field at address [a], after its key.  [sub] encodes
    submessages. *)
Definition spec_value (sub : list pb_field_t -> Z -> option (list byte))
    (f : pb_field_t) (a : Z) : option (list byte) :=
  let l := PB_LTYPE (type f) in
  if scalar_ok f then scalar_wire f <$> spec_fixed a (data_size f)
  else if l =? PB_LTYPE_BYTES then
    if a =? 0 then Some (delimited [])
    else n ← peek (load_uint 4 a) w;
         if (PB_ATYPE (type f) =? PB_ATYPE_STATIC) && (n + 4 >? data_size f) then None
         else delimited <$> spec_fixed (a + 4) n
  else if l =? PB_LTYPE_STRING then
    let max := if PB_ATYPE (type f) =? PB_ATYPE_POINTER then SIZE_MAX else data_size f in
    delimited <$> (if a =? 0 then Some [] else c_string (S (S (size (w_mem w)))) max a)
  else if l =? PB_LTYPE_SUBMESSAGE then
    if ptr f =? 0 then None
    else fields ← image (ptr f); delimited <$> sub fields a
  else if l =? PB_LTYPE_FIXED_LENGTH_BYTES then delimited <$> spec_fixed a (data_size f)
  else None.

Fixpoint spec_items (n : nat) (item : Z -> option (list byte)) (step p : Z)
  : option (list byte) :=
  match n with
  | O => Some []
  | S n => x ← item p; xs ← spec_items n item step (p + step); Some (x ++ xs)
  end.

(** A key and a value. *)
Definition spec_keyed (sub : list pb_field_t -> Z -> option (list byte))
    (f : pb_field_t) (a : Z) : option (list byte) :=
  wiretype ← wiretype_of (PB_LTYPE (type f));
  key ← spec_key (tag f) wiretype; v ← spec_value sub f a; Some (key ++ v).

(** Numbers are packed into one delimited value; other items have a key each. *)
Definition spec_array (sub : list pb_field_t -> Z -> option (list byte))
    (f : pb_field_t) (a count : Z) : option (list byte) :=
  let l := PB_LTYPE (type f) in
  if count =? 0 then Some []
  else if (count <? 0) ||
          negb (PB_ATYPE (type f) =? PB_ATYPE_POINTER) && (count >? array_size f) then None
  else if l <=? PB_LTYPE_LAST_PACKABLE then
    if scalar_ok f then
      key ← spec_key (tag f) PB_WT_STRING;
      body ← spec_items (Z.to_nat count) (spec_value sub f) (data_size f) a;
      Some (key ++ delimited body)
    else None
  else
    let deref := (PB_ATYPE (type f) =? PB_ATYPE_POINTER) &&
                 ((l =? PB_LTYPE_STRING) || (l =? PB_LTYPE_BYTES)) in
    spec_items (Z.to_nat count)
      (fun p => q ← (if deref then peek (load_ptr p) w else Some p); spec_keyed sub f q)
      (data_size f) a.

(** A static or pointer field, at [pData] in the struct. *)
Definition spec_basic (sub : list pb_field_t -> Z -> option (list byte)) (n : nat)
    (f : pb_field_t) (pData : Z) : option (list byte) :=
  let h := PB_HTYPE (type f) in
  let pSize := pData + size_offset f in
  if negb (PB_LTYPE (type f) <? 10) then None
  else
  default ← (if (size_offset f =? 0) && (h =? PB_HTYPE_OPTIONAL)
             then peek (pb_check_proto3_default_value n f pData) w else Some false);
  a ← (if PB_ATYPE (type f) =? PB_ATYPE_POINTER then peek (load_ptr pData) w
       else Some pData);
  let present := if PB_ATYPE (type f) =? PB_ATYPE_POINTER then negb (a =? 0)
                 else negb default in
  if h =? PB_HTYPE_REQUIRED then
    if a =? 0 then None else spec_keyed sub f a
  else if h =? PB_HTYPE_OPTIONAL then
    has ← (if size_offset f =? 0 then Some present else peek (load_bool pSize) w);
    if has : bool then spec_keyed sub f a else Some []
  else if h =? PB_HTYPE_REPEATED then
    count ← (if size_offset f =? 0 then Some (array_size f)
             else peek (load_uint sizeof_pb_size_t pSize) w);
    spec_array sub f a count
  else
    which ← (if size_offset f =? 0 then None
             else peek (load_uint sizeof_pb_size_t pSize) w);
    if which =? tag f then spec_keyed sub f a else Some [].

(** A callback field without a function has no encoding; one with a function
    is left to the user code. *)
Definition spec_field (sub : list pb_field_t -> Z -> option (list byte)) (n : nat)
    (f : pb_field_t) (pData : Z) : option (list byte) :=
  let a := PB_ATYPE (type f) in
  if (a =? PB_ATYPE_STATIC) || (a =? PB_ATYPE_POINTER) then spec_basic sub n f pData
  else if a =? PB_ATYPE_CALLBACK then
    fn ← peek (load_ptr (pData + cb_funcs)) w; if fn =? 0 then Some [] else None
  else None.

(** The list of extensions, for those with the default encoder. *)
Fixpoint spec_extensions (sub : list pb_field_t -> Z -> option (list byte)) (n k : nat)
    (extension : Z) : option (list byte) :=
  if extension =? 0 then Some []
  else match k with
  | O => None
  | S k =>
      ty ← peek (load_ptr (extension + ext_type)) w;
      enc ← peek (load_ptr (ty + ext_type_encode)) w;
      if negb (enc =? 0) then None
      else
        arg ← peek (load_ptr (ty + ext_type_arg)) w;
        fields ← image arg;
        let f := fld fields 0 in
        a ← (if PB_ATYPE (type f) =? PB_ATYPE_POINTER then Some (extension + ext_dest)
             else peek (load_ptr (extension + ext_dest)) w);
        x ← spec_field sub n f a;
        next ← peek (load_ptr (extension + ext_next)) w;
        xs ← spec_extensions sub n k next;
        Some (x ++ xs)
  end.

Definition spec_entry (sub : list pb_field_t -> Z -> option (list byte)) (n : nat)
    (f : pb_field_t) (pData : Z) : option (list byte) :=
  if PB_LTYPE (type f) =? PB_LTYPE_EXTENSION then
    extension ← peek (load_ptr pData) w; spec_extensions sub n n extension
  else spec_field sub n f pData.

(** The concatenation of the fields from the [k]-th, each at its place in the
    struct. *)
Fixpoint spec_fields (enc : pb_field_t -> Z -> option (list byte))
    (fields : list pb_field_t) (src : Z) (ks : list nat) : option (list byte) :=
  match ks with
  | [] => Some []
  | k :: ks =>
      x ← enc (fld fields k) (src + field_offset fields k);
      xs ← spec_fields enc fields src ks; Some (x ++ xs)
  end.

(** [n] bounds the nesting of messages, and the length of extension lists. *)
Fixpoint spec_message (n : nat) (fields : list pb_field_t) (src : Z)
  : option (list byte) :=
  match n with
  | O => None
  | S n =>
      if wf_fieldsb fields then
        spec_fields (spec_entry (spec_message n) n) fields src (seq 0 (nfields fields))
      else None
  end.
End Spec.

(** * What an encoding step does *)

(** The place where the output goes is not part of the message. *)
Definition fresh (w : world) (t : pb_ostream_t) (n : Z) : Prop :=
  unmapped (w_mem w) (o_state t) n.

Definition blen (bs : list byte) : Z := Z.of_nat (length bs).

(** [m] puts [out] on its stream, in every world that extends [w]: it counts it
    on a sizing stream, writes it to a buffer that has room, and returns false
    on a buffer that has not, after writing at most up to its end. *)
Record emits `{UserCode} (m : pb_ostream_t -> M (bool * pb_ostream_t)) (w : world)
    (out : list byte) : Prop := {
  em_dry : forall t w', ext w w' -> o_callback t = null_cb ->
    0 <= bytes_written t < 2 ^ 64 -> blen out < 2 ^ 64 ->
    m t w' = Ok (true, set_bytes_written t (u64 (bytes_written t + blen out))) w';
  em_buf : forall t w', ext w w' -> fresh w t (blen out) -> oroom w' t (blen out) ->
    exists e, m t w' = Ok (true, set_o_errmsg (oadv t (blen out)) e) (put w' t out);
  em_full : forall t w' room, ext w w' -> fresh w t room -> oroom w' t room -> 0 <= room ->
    bytes_written t + room = max_size t -> room < blen out ->
    bytes_written t + blen out < 2 ^ 64 ->
    exists t' w'', m t w' = Ok (false, t') w'' /\ frame (within (o_state t) room) w' w'';
}.

(** * Composition *)

Lemma ext_refl w : ext w w.
Proof. by unfold ext. Qed.

Lemma ext_read w w' a n bs :
  ext w w' -> mem_read (w_mem w) a n = Some bs -> mem_read (w_mem w') a n = Some bs.
Proof.
  intros He [Hl Hi]%mem_read_Some. apply mem_read_Some. split; [done|]. intros i Hlt.
  rewrite <- Hi by done. destruct (w_mem w !! (a + Z.of_nat i)) as [b|] eqn:E.
  - by eapply lookup_weaken.
  - rewrite Hi in E by done. apply lookup_ge_None in E. lia.
Qed.

Lemma ext_put w w' t out : ext w w' -> fresh w t (blen out) -> ext w (put w' t out).
Proof.
  intros He Hf. apply map_subseteq_spec. intros x b Hx. cbn. rewrite lookup_mem_write.
  case_decide as Hd; [|by eapply lookup_weaken]. rewrite (Hf x) in Hx; [done|]. exact Hd.
Qed.

Lemma fresh_le w t n m : fresh w t n -> m <= n -> fresh w t m.
Proof. intros Hf Hm x Hx. apply Hf. lia. Qed.

Lemma fresh_adv w t n k e :
  fresh w t (k + n) -> 0 <= k -> fresh w (set_o_errmsg (oadv t k) e) n.
Proof. intros Hf Hk x Hx. apply Hf. cbn in Hx. lia. Qed.

Lemma oroom_adv w t n bs e :
  oroom w t (blen bs + n) -> oroom (put w t bs) (set_o_errmsg (oadv t (blen bs)) e) n.
Proof.
  intros [H1 H2 H3 H4 H5]. unfold blen in *. split; cbn; try done; try lia.
  apply mapped_write. eapply mapped_sub; [exact H2 | lia | lia].
Qed.

Lemma put_put w t xs ys e :
  put (put w t xs) (set_o_errmsg (oadv t (blen xs)) e) ys = put w t (xs ++ ys).
Proof. unfold put, set_mem, blen; cbn. by rewrite mem_write_app. Qed.

Lemma oadv_oadv t a b e e' :
  set_o_errmsg (oadv (set_o_errmsg (oadv t a) e) b) e' = set_o_errmsg (oadv t (a + b)) e'.
Proof. unfold set_o_errmsg, oadv; cbn. f_equal; lia. Qed.

Lemma blen_app xs ys : blen (xs ++ ys) = blen xs + blen ys.
Proof. unfold blen. rewrite length_app. lia. Qed.

Lemma blen_nonneg bs : 0 <= blen bs.
Proof. unfold blen. lia. Qed.

Lemma frame_put w t bs n :
  oroom w t n -> blen bs <= n -> frame (within (o_state t) n) w (put w t bs).
Proof.
  intros [H1 H2 H3 H4 H5] Hl. apply frame_write.
  - eapply mapped_sub; [exact H2 | lia | unfold blen in Hl; lia].
  - intros x Hx. unfold within, blen in *. lia.
Qed.

Section Emits.
Context `{UserCode}.

Lemma emits_ext m m' w out :
  emits m w out -> (forall t w', ext w w' -> m' t w' = m t w') -> emits m' w out.
Proof.
  intros [H1 H2 H3] E. split; intros; rewrite E by done; auto.
Qed.

Lemma emits_nil w : emits (fun t => mret (true, t)) w [].
Proof.
  split.
  - intros t w' He Hc Hb Hl. unfold mret, M_ret, blen. cbn [length].
    rewrite Z.add_0_r, u64_small by lia. by destruct t.
  - intros t w' He Hf Ho. exists (o_errmsg t). unfold mret, M_ret, blen, put, oadv, set_o_errmsg.
    cbn. rewrite !Z.add_0_r. by destruct t, w'.
  - intros t w' room _ _ _ H0 _ Hr _. change (room < 0) in Hr. lia.
Qed.

(** What a step does on a stream of either kind. *)
Lemma emits_bind m k w o1 o2 :
  emits m w o1 -> emits k w o2 -> emits (fun t => t <-? m t; k t) w (o1 ++ o2).
Proof.
  intros H1 H2. pose proof (blen_nonneg o1). pose proof (blen_nonneg o2). split.
  - intros t w' He Hc Hb Hl. rewrite blen_app in *.
    rewrite (bind_eq _ _ _ _ _ (em_dry _ _ _ H1 t w' He Hc Hb ltac:(lia))). cbn [negb].
    rewrite (em_dry _ _ _ H2) by (done || apply u64_bound || lia). unfold mret, M_ret. do 2 f_equal.
    unfold set_bytes_written; cbn. f_equal. unfold u64. rewrite Zplus_mod_idemp_l. f_equal. lia.
  - intros t w' He Hf Ho. rewrite blen_app in *.
    destruct (em_buf _ _ _ H1 t w' He) as [e E1];
      [exact (fresh_le _ _ _ (blen o1) Hf ltac:(lia)) | exact (oroom_le _ _ _ (blen o1) Ho ltac:(lia))|].
    rewrite (bind_eq _ _ _ _ _ E1). cbn [negb].
    destruct (em_buf _ _ _ H2 (set_o_errmsg (oadv t (blen o1)) e) (put w' t o1)) as [e' E2].
    + apply ext_put; [done|]. exact (fresh_le _ _ _ (blen o1) Hf ltac:(lia)).
    + by apply fresh_adv.
    + by apply oroom_adv.
    + exists e'. rewrite E2, oadv_oadv, put_put. done.
  - intros t w' room He Hf Ho Hr0 Hmax Hr Hlt. rewrite blen_app in *.
    destruct (decide (blen o1 <= room)) as [Hle|Hgt].
    + destruct (em_buf _ _ _ H1 t w' He) as [e E1];
        [exact (fresh_le _ _ _ (blen o1) Hf ltac:(lia)) | exact (oroom_le _ _ _ (blen o1) Ho ltac:(lia))|].
      rewrite (bind_eq _ _ _ _ _ E1). cbn [negb].
      destruct (em_full _ _ _ H2 (set_o_errmsg (oadv t (blen o1)) e) (put w' t o1)
                  (room - blen o1)) as (t' & w'' & E2 & Hfr); try (cbn; lia).
      * apply ext_put; [done|]. exact (fresh_le _ _ _ (blen o1) Hf ltac:(lia)).
      * apply fresh_adv; [|lia]. by replace (blen o1 + (room - blen o1)) with room by lia.
      * apply oroom_adv. by replace (blen o1 + (room - blen o1)) with room by lia.
      * exists t', w''. split; [exact E2|].
        eapply frame_trans; [by eapply frame_put|].
        eapply frame_mono; [|exact Hfr]. intros x Hx. unfold within in *. cbn in Hx. lia.
    + destruct (em_full _ _ _ H1 t w' room He Hf Ho Hr0 Hmax) as (t' & w'' & E1 & Hfr);
        [lia | lia |].
      exists t', w''. split; [|exact Hfr]. by rewrite (bind_eq _ _ _ _ _ E1).
Qed.

(** A step that first reads. *)
Lemma emits_read {A} (ld : M A) x k w out :
  stable ld -> peek ld w = Some x -> emits (k x) w out ->
  emits (fun t => ld ≫= fun y => k y t) w out.
Proof.
  intros Hst Hp Hk. apply (emits_ext _ _ _ _ Hk). intros t w' He.
  by rewrite (bind_eq _ _ _ _ _ (Hst w x Hp w' He)).
Qed.

Lemma emits_write w src bs :
  (forall t w', ext w w' -> fresh w t (blen bs) -> oroom w' t (blen bs) ->
     buf_write t src (blen bs) w' =
       Ok (true, set_o_state t (o_state t + blen bs)) (put w' t bs)) ->
  emits (fun t => pb_write t src (blen bs)) w bs.
Proof.
  intros Hw. split.
  - intros t w' He Hc Hb Hl. by apply pb_write_sizing.
  - intros t w' He Hf Ho. exists (o_errmsg t).
    pose proof Ho as [Hc Hm Hb0 Hfit Hx]. pose proof (blen_nonneg bs).
    unfold pb_write. rewrite Hc, u64_small by lia.
    destruct (Z.gtb_spec (bytes_written t + blen bs) (max_size t)); [lia|].
    rewrite (bind_eq _ _ _ _ _ (Hw t w' He Hf Ho)). cbn [negb]. unfold mret, M_ret.
    do 2 f_equal. rewrite <- set_bytes_written_eq by lia. cbn.
    unfold set_bytes_written, set_o_state, set_o_errmsg; cbn. by rewrite u64_small by lia.
  - intros t w' room He Hf Ho Hr0 Hmax Hr Hlt. pose proof Ho as [Hc Hm Hb Hfit Hx].
    unfold pb_write. rewrite Hc, u64_small by lia.
    destruct (Z.gtb_spec (bytes_written t + blen bs) (max_size t)); [|lia].
    eexists _, _. split; [reflexivity | apply frame_refl].
Qed.

Lemma emits_local w bs : emits (fun t => pb_write t (SrcLocal bs) (blen bs)) w bs.
Proof.
  apply emits_write. intros t w' He Hf Ho. unfold buf_write.
  by rewrite (bind_eq _ _ _ _ _ (store_bytes_eq (o_state t) bs w' (oroom_mapped _ _ _ Ho))).
Qed.

(** The source was there before the buffer, so they do not overlap. *)
Lemma fresh_disjoint w t a n bs :
  fresh w t (Z.of_nat n) -> mem_read (w_mem w) a n = Some bs -> n <> 0%nat ->
  o_state t + Z.of_nat n <= a \/ a + Z.of_nat n <= o_state t.
Proof.
  intros Hf [Hl Hi]%mem_read_Some Hn.
  destruct (decide (o_state t + Z.of_nat n <= a)) as [|H1]; [by left|].
  destruct (decide (a + Z.of_nat n <= o_state t)) as [|H2]; [by right|]. exfalso.
  set (x := Z.max a (o_state t)).
  assert (w_mem w !! x = bs !! Z.to_nat (x - a)) as E.
  { rewrite <- Hi by lia. f_equal. lia. }
  rewrite (Hf x) in E by lia. symmetry in E. apply lookup_ge_None in E. lia.
Qed.

Lemma emits_mem w a n bs :
  mem_read (w_mem w) a n = Some bs ->
  emits (fun t => pb_write t (SrcMem a) (blen bs)) w bs.
Proof.
  intros Hr. pose proof (mem_read_length _ _ _ _ Hr) as Hl. apply emits_write.
  intros t w' He Hf Ho. unfold buf_write, blen in *. rewrite Nat2Z.id, Hl in *.
  destruct (decide (n = 0%nat)) as [->|Hn].
  - apply nil_length_inv in Hl as ->. unfold put; cbn. by destruct w'.
  - rewrite (bind_eq _ _ _ _ _ (copy_bytes_eq (o_state t) a bs n w' (ext_read _ _ _ _ _ He Hr)
      (oroom_mapped _ _ _ Ho) (fresh_disjoint _ _ _ _ _ Hf Hr Hn))). done.
Qed.

Lemma emits_varint w v :
  0 <= v < 2 ^ 64 -> emits (fun t => pb_encode_varint t v) w (varint v).
Proof.
  intros Hv. apply (emits_ext _ _ _ _ (emits_local w (varint v))). intros t w' _.
  by rewrite pb_encode_varint_eq.
Qed.

Lemma emits_key w t wiretype key :
  0 <= wiretype < 8 -> spec_key t wiretype = Some key ->
  emits (fun s => pb_encode_tag s wiretype t) w key.
Proof.
  unfold spec_key. intros Hwt Hk. destruct ((0 <=? t) && (t <? 2 ^ 32)) eqn:E; [|done].
  injection Hk as <-. apply andb_prop in E as [E1%Z.leb_le E2%Z.ltb_lt].
  pose proof (tag_value t wiretype ltac:(lia) Hwt) as [_ Hb].
  apply (emits_ext _ _ _ _ (emits_varint w _ Hb)). intros s w' _.
  by rewrite pb_encode_tag_eq.
Qed.

Lemma emits_string w a n bs :
  mem_read (w_mem w) a n = Some bs -> blen bs < 2 ^ 64 ->
  emits (fun t => pb_encode_string t a (blen bs)) w (delimited bs).
Proof.
  intros Hr Hl. unfold pb_encode_string, delimited. apply emits_bind.
  - apply emits_varint. pose proof (blen_nonneg bs). unfold blen in *. lia.
  - by eapply emits_mem.
Qed.


(** ** Steps that read *)

Lemma stable_ret {A} (a : A) : stable (mret a).
Proof. intros w b [= ->] w' _. done. Qed.

Lemma stable_stop {A} f : stable (stop f : M A).
Proof. by intros w a Hp. Qed.

Lemma stable_inv {A} (m : M A) w a : stable m -> peek m w = Some a -> m w = Ok a w.
Proof. intros Hm Hp. by apply (Hm w a Hp w (ext_refl w)). Qed.

Lemma stable_bind {A B} (m : M A) (k : A -> M B) :
  stable m -> (forall a, stable (k a)) -> stable (m ≫= k).
Proof.
  intros Hm Hk w b Hp w' He. unfold peek, mbind, M_bind in *.
  destruct (m w) as [a w1|] eqn:E; [|done].
  assert (peek m w = Some a) as Hpa by (unfold peek; by rewrite E).
  rewrite (stable_inv _ _ _ Hm Hpa) in E. injection E as ->.
  rewrite (Hm w1 a Hpa w' He). by apply (Hk a w1 b Hp w' He).
Qed.

Lemma stable_if {A} (b : bool) (m1 m2 : M A) : stable m1 -> stable m2 -> stable (if b then m1 else m2).
Proof. by destruct b. Qed.

Lemma stable_load8 a : stable (load8 a).
Proof.
  intros w b Hp w' He. unfold peek, load8 in *.
  destruct (w_mem w !! a) as [c|] eqn:E; [|done]. injection Hp as ->.
  by rewrite (lookup_weaken _ _ _ _ E He).
Qed.

Lemma stable_load_bytes a n : stable (load_bytes a n).
Proof.
  revert a; induction n as [|n IH]; intros a; cbn [load_bytes]; [apply stable_ret|].
  apply stable_bind; [apply stable_load8|]. intros b. apply stable_bind; [apply IH|].
  intros bs. apply stable_ret.
Qed.

Lemma stable_load_uint n a : stable (load_uint n a).
Proof. apply stable_bind; [apply stable_load_bytes | intros; apply stable_ret]. Qed.

Lemma stable_load_bool a : stable (load_bool a).
Proof. apply stable_bind; [apply stable_load_uint | intros; apply stable_ret]. Qed.

Lemma stable_get_fields p : stable (get_fields p).
Proof. unfold get_fields. destruct (image p); [apply stable_ret | apply stable_stop]. Qed.

Lemma stable_all_zero n : forall p, stable (all_zero n p).
Proof.
  induction n as [|n IH]; intros p; cbn [all_zero]; [apply stable_ret|].
  apply stable_bind; [apply stable_load8|]. intros c. apply stable_if; [apply IH | apply stable_ret].
Qed.

Lemma stable_check_loop k check : (forall f a, stable (check f a)) ->
  forall iter, stable (check_loop k check iter).
Proof.
  intros Hc. induction k as [|k IH]; intros iter; cbn [check_loop]; [apply stable_stop|].
  apply stable_bind; [apply Hc|]. intros b. destruct b; cbn [negb]; [|apply stable_ret].
  destruct (pb_field_iter_next iter) as [[] it]; [apply IH | apply stable_ret].
Qed.

Lemma stable_check n : forall f a, stable (pb_check_proto3_default_value n f a).
Proof.
  induction n as [|n IH]; intros f a; cbn [pb_check_proto3_default_value]; [apply stable_stop|].
  cbv zeta. repeat apply stable_if; try apply stable_ret; try apply stable_all_zero;
    (apply stable_bind; [apply stable_load_uint || apply stable_load_bool || apply stable_load8
                         || apply stable_get_fields|]); intros v; try apply stable_ret.
  destruct (pb_field_iter_begin v a) as [[] it]; [by apply stable_check_loop | apply stable_ret].
Qed.

(** ** Values *)

(** Nothing is claimed of an output that no counter can count. *)
Lemma emits_huge m w out : 2 ^ 64 <= blen out -> emits m w out.
Proof.
  intros Hl. split.
  - intros t w' _ _ _ Hlt. lia.
  - intros t w' _ _ [_ _ H0 H1 H2]. lia.
  - intros t w' room _ _ [_ _ H0 _ _] Hr Hm Hlt Hs. lia.
Qed.

Lemma emits_scalar rec w f a bs :
  scalar_ok f = true -> mem_read (w_mem w) a (Z.to_nat (data_size f)) = Some bs ->
  exists func, PB_ENCODERS !! Z.to_nat (PB_LTYPE (type f)) = Some func /\
    emits (fun t => call_encoder rec func t f a) w (scalar_wire f bs).
Proof.
  intros Hok Hr. destruct (scalar_encode rec f PB_OSTREAM_SIZING a bs w Hok Hr) as (func & Hf & _).
  exists func. split; [done|]. apply (emits_ext _ _ _ _ (emits_local w _)). intros t w' He.
  destruct (scalar_encode rec f t a bs w' Hok (ext_read _ _ _ _ _ He Hr)) as (func' & Hf' & E).
  rewrite Hf' in Hf. by injection Hf as ->.
Qed.

Lemma spec_fixed_read w a n bs :
  spec_fixed w a n = Some bs ->
  0 <= n /\ mem_read (w_mem w) a (Z.to_nat n) = Some bs /\ blen bs = n.
Proof.
  unfold spec_fixed. destruct (Z.leb_spec 0 n); [|done]. intros Hr.
  pose proof (mem_read_length _ _ _ _ Hr) as Hl. split_and!; [done | done | unfold blen; lia].
Qed.

Lemma emits_bytes w f a v sub :
  PB_LTYPE (type f) = PB_LTYPE_BYTES -> spec_value w sub f a = Some v ->
  emits (fun t => pb_enc_bytes t f a) w v.
Proof.
  intros El. unfold spec_value, scalar_ok. rewrite El. eqbs. unfold pb_enc_bytes.
  destruct (a =? 0).
  { intros [= <-]. by apply (emits_string w 0 0 []). }
  destruct (peek (load_uint 4 a) w) as [n|] eqn:En; [|done]. cbn [mbind option_bind].
  intros Hv. apply (emits_read _ n _ _ _ (stable_load_uint 4 a) En).
  pose proof (stable_inv _ _ _ (stable_load_uint 4 a) En) as (_ & bs & Hbs & ->)%load_uint_inv.
  pose proof (le_val_bound bs) as Hb. rewrite (mem_read_length _ _ _ _ Hbs) in Hb.
  unfold PB_BYTES_ARRAY_T_ALLOCSIZE, offsetof_bytes. rewrite u64_small by lia.
  destruct (_ && _); [done|].
  destruct (spec_fixed w (a + 4) (le_val bs)) as [out|] eqn:Eo; [|done]. injection Hv as <-.
  apply spec_fixed_read in Eo as (H0 & Hr & Hl). rewrite <- Hl.
  eapply emits_string; [exact Hr | lia].
Qed.

Lemma c_string_read w n : forall max a s,
  c_string w n max a = Some s -> mem_read (w_mem w) a (length s) = Some s.
Proof.
  induction n as [|n IH]; intros max a s; cbn [c_string]; [done|].
  destruct (max <=? 0); [by intros [= <-]|].
  destruct (w_mem w !! a) as [c|] eqn:E; [|done]. cbn [mbind option_bind].
  destruct (b2z c =? 0); [by intros [= <-]|].
  destruct (c_string w n (max - 1) (a + 1)) as [r|] eqn:Er; [|done]. intros [= <-].
  cbn [length mem_read]. rewrite E. cbn [mbind option_bind]. by rewrite (IH _ _ _ Er).
Qed.

Lemma c_string_loop w w' n : forall n' max size a s,
  c_string w n max a = Some s -> ext w w' -> (n <= n')%nat ->
  strnlen_loop n' (size + max) size a w' = Ok (size + blen s) w'.
Proof.
  induction n as [|n IH]; intros n' max size a s; cbn [c_string]; [done|]. intros Hs He Hn.
  destruct n' as [|n']; [lia|]. cbn [strnlen_loop].
  destruct (Z.leb_spec max 0).
  { injection Hs as <-. rewrite (proj2 (Z.ltb_ge _ _)) by lia. cbn [negb].
    unfold mret, M_ret, blen. cbn. do 2 f_equal. lia. }
  rewrite (proj2 (Z.ltb_lt _ _)) by lia. cbn [negb].
  destruct (w_mem w !! a) as [c|] eqn:E; [|done]. cbn [mbind option_bind] in Hs.
  erewrite bind_eq by (unfold load8; rewrite (lookup_weaken _ _ _ _ E He); reflexivity).
  destruct (b2z c =? 0).
  { injection Hs as <-. unfold mret, M_ret, blen. cbn. do 2 f_equal. lia. }
  destruct (c_string w n (max - 1) (a + 1)) as [r|] eqn:Er; [|done]. injection Hs as <-.
  replace (size + max) with (size + 1 + (max - 1)) by lia.
  rewrite (IH _ _ _ _ _ Er He) by lia. unfold blen. cbn [length]. f_equal. lia.
Qed.

Lemma emits_str w f a v sub :
  PB_LTYPE (type f) = PB_LTYPE_STRING -> spec_value w sub f a = Some v ->
  emits (fun t => pb_enc_string t f a) w v.
Proof.
  intros El. unfold spec_value, scalar_ok. rewrite El. eqbs. unfold pb_enc_string.
  set (max := if PB_ATYPE (type f) =? PB_ATYPE_POINTER then SIZE_MAX else data_size f).
  destruct (if a =? 0 then Some [] else c_string w (S (S (size (w_mem w)))) max a) as [s|] eqn:Es;
    [|done]. intros [= <-].
  assert (mem_read (w_mem w) a (length s) = Some s) as Hr.
  { destruct (a =? 0); [by injection Es as <- | by eapply c_string_read]. }
  destruct (decide (2 ^ 64 <= blen s)) as [|Hlt].
  { apply emits_huge. unfold delimited. rewrite blen_app. pose proof (blen_nonneg (varint (Z.of_nat (length s)))).
    lia. }
  apply (emits_ext (fun t => pb_encode_string t a (blen s)));
    [eapply emits_string; [exact Hr | lia]|].
  intros t w' He. apply bind_eq. destruct (a =? 0).
  - by injection Es as <-.
  - unfold strnlen_fuel. erewrite bind_eq by reflexivity.
    pose proof (c_string_loop w w' _ (S (S (size (w_mem w')))) max 0 a s Es He) as Hk.
    rewrite !Z.add_0_l in Hk. apply Hk.
    apply le_n_S, le_n_S. by apply map_subseteq_size.
Qed.

(** A submessage is encoded twice: first counted, then, unless the stream only
    counts, written through a stream of exactly the counted size. *)
Lemma emits_submessage rec w fields a out :
  emits (fun t => rec t fields a) w out ->
  emits (fun t => pb_encode_submessage rec t fields a) w (delimited out).
Proof.
  intros Hrec. pose proof (blen_nonneg out) as Hb0.
  destruct (decide (2 ^ 64 <= blen out)) as [|Hlt].
  { apply emits_huge. unfold delimited. rewrite blen_app.
    pose proof (blen_nonneg (varint (Z.of_nat (length out)))). lia. }
  assert (emits (fun t => t <-? pb_encode_varint t (blen out);
    if bool_decide (o_callback t = null_cb) then pb_write t (SrcMem 0) (blen out)
    else if u64 (bytes_written t + blen out) >? max_size t then o_error t "stream full"
    else
      '(status, substream) ←
        rec (mk_ostream (o_callback t) (o_state t) (blen out) 0 None) fields a;
      let stream := mk_ostream (o_callback t) (o_state substream) (max_size t)
                      (u64 (bytes_written t + bytes_written substream)) (o_errmsg substream) in
      if negb (bytes_written substream =? blen out) then o_error stream "submsg size changed"
      else mret (status, stream)) w (delimited out)) as Hbody.
  { apply emits_bind; [apply emits_varint; unfold blen in *; lia|]. split.
    - intros t w' He Hc _ _. rewrite bool_decide_true by done. by apply pb_write_sizing.
    - intros t w' He Hf Ho. pose proof Ho as [Hc Hm H0 Hfit Hx]. rewrite Hc.
      rewrite bool_decide_false by done. rewrite u64_small by lia.
      destruct (Z.gtb_spec (bytes_written t + blen out) (max_size t)); [lia|].
      destruct (em_buf _ _ _ Hrec (mk_ostream buf_write_cb (o_state t) (blen out) 0 None) w' He)
        as [e E]; [exact Hf | by split; cbn; try lia|].
      exists e. rewrite (bind_eq _ _ _ _ _ E). cbn. rewrite Z.eqb_refl. cbn [negb].
      unfold mret, M_ret. rewrite u64_small by lia. unfold oadv, set_o_errmsg; cbn.
      by rewrite Hc.
    - intros t w' room He Hf Ho Hr0 Hmax Hr Hs. pose proof Ho as [Hc Hm H0 Hfit Hx].
      rewrite Hc, bool_decide_false by done. rewrite u64_small by lia.
      destruct (Z.gtb_spec (bytes_written t + blen out) (max_size t)); [|lia].
      eexists _, _. split; [reflexivity | apply frame_refl]. }
  apply (emits_ext _ _ _ _ Hbody). intros t w' He. unfold pb_encode_submessage.
  erewrite bind_eq by (apply (em_dry _ _ _ Hrec PB_OSTREAM_SIZING w' He); (done || cbn; lia)).
  cbn [negb]. cbn [bytes_written set_bytes_written PB_OSTREAM_SIZING].
  by rewrite Z.add_0_l, u64_small by lia.
Qed.

(** The encoder for the type of a field. *)
Lemma emits_value rec sub w f a v :
  (forall fields p out, sub fields p = Some out -> emits (fun t => rec t fields p) w out) ->
  spec_value w sub f a = Some v ->
  exists func, PB_ENCODERS !! Z.to_nat (PB_LTYPE (type f)) = Some func /\
    emits (fun t => call_encoder rec func t f a) w v.
Proof.
  intros Hsub Hv. destruct (scalar_ok f) eqn:Hok.
  { unfold spec_value in Hv. rewrite Hok in Hv.
    destruct (spec_fixed w a (data_size f)) as [bs|] eqn:E; [|done]. injection Hv as <-.
    apply emits_scalar; [done | by apply spec_fixed_read]. }
  pose proof Hv as Hv'. unfold spec_value in Hv'. rewrite Hok in Hv'.
  destruct (Z.eqb_spec (PB_LTYPE (type f)) PB_LTYPE_BYTES) as [El|_].
  { rewrite El. eexists; split; [reflexivity|]. by eapply emits_bytes. }
  destruct (Z.eqb_spec (PB_LTYPE (type f)) PB_LTYPE_STRING) as [El|_].
  { rewrite El. eexists; split; [reflexivity|]. by eapply emits_str. }
  destruct (Z.eqb_spec (PB_LTYPE (type f)) PB_LTYPE_SUBMESSAGE) as [El|_].
  { rewrite El. eexists; split; [reflexivity|]. cbn [call_encoder]. unfold pb_enc_submessage.
    destruct (ptr f =? 0); [done|]. destruct (image (ptr f)) as [fs|] eqn:Ei; [|done].
    cbn [mbind option_bind] in Hv'. destruct (sub fs a) as [out|] eqn:Es; [|done].
    injection Hv' as <-. apply (emits_read _ fs); [apply stable_get_fields | |].
    - unfold peek, get_fields. by rewrite Ei.
    - by apply emits_submessage, Hsub. }
  destruct (Z.eqb_spec (PB_LTYPE (type f)) PB_LTYPE_FIXED_LENGTH_BYTES) as [El|_]; [|done].
  rewrite El. eexists; split; [reflexivity|]. cbn [call_encoder].
  unfold pb_enc_fixed_length_bytes.
  destruct (spec_fixed w a (data_size f)) as [bs|] eqn:E; [|done]. injection Hv' as <-.
  apply spec_fixed_read in E as (H0 & Hr & Hl). rewrite <- Hl.
  destruct (decide (2 ^ 64 <= blen bs)) as [|Hlt].
  { apply emits_huge. unfold delimited. rewrite blen_app.
    pose proof (blen_nonneg (varint (Z.of_nat (length bs)))). lia. }
  eapply emits_string; [exact Hr | lia].
Qed.

(** ** Fields *)

Lemma opt_bind_Some {A B} (m : option A) (k : A -> option B) b :
  m ≫= k = Some b -> exists a, m = Some a /\ k a = Some b.
Proof. destruct m; [eauto | done]. Qed.

Lemma wiretype_bound l wt : wiretype_of l = Some wt -> 0 <= wt < 8.
Proof. unfold wiretype_of. repeat split_if; intros [= <-]; done. Qed.

Lemma emits_tag_for_field w f wt key :
  wiretype_of (PB_LTYPE (type f)) = Some wt -> spec_key (tag f) wt = Some key ->
  emits (fun t => pb_encode_tag_for_field t f) w key.
Proof.
  intros Hwt Hk. unfold pb_encode_tag_for_field. rewrite Hwt.
  apply emits_key; [by eapply wiretype_bound | done].
Qed.

Lemma emits_items body item w step n : forall p xs,
  (forall p x, item p = Some x -> emits (fun t => body t p) w x) ->
  spec_items n item step p = Some xs -> emits (fun t => items_loop n body step t p) w xs.
Proof.
  induction n as [|n IH]; intros p xs Hbody; cbn [spec_items items_loop].
  - intros [= <-]. apply emits_nil.
  - intros (x & Hx & (ys & Hys & [= <-])%opt_bind_Some)%opt_bind_Some.
    apply emits_bind; [by apply Hbody | by apply IH].
Qed.

Lemma length_spec_items item step k : forall n p xs,
  (forall p x, item p = Some x -> blen x = k) ->
  spec_items n item step p = Some xs -> blen xs = Z.of_nat n * k.
Proof.
  induction n as [|n IH]; intros p xs Hitem; cbn [spec_items].
  - intros [= <-]. done.
  - intros (x & Hx & (ys & Hys & [= <-])%opt_bind_Some)%opt_bind_Some.
    rewrite blen_app, (Hitem _ _ Hx), (IH _ _ Hitem Hys). lia.
Qed.

Section Fields.
Context (rec : encode_fn) (w : world) (sub : list pb_field_t -> Z -> option (list byte))
        (Hsub : forall fields p out, sub fields p = Some out ->
                emits (fun t => rec t fields p) w out).

Lemma emits_call f func a v :
  PB_ENCODERS !! Z.to_nat (PB_LTYPE (type f)) = Some func -> spec_value w sub f a = Some v ->
  emits (fun t => call_encoder rec func t f a) w v.
Proof.
  intros Hf Hv. destruct (emits_value rec sub w f a v Hsub Hv) as (func' & Hf' & He).
  rewrite Hf in Hf'. by injection Hf' as ->.
Qed.

Lemma emits_keyed f func a out :
  PB_ENCODERS !! Z.to_nat (PB_LTYPE (type f)) = Some func -> spec_keyed w sub f a = Some out ->
  emits (fun t => t <-? pb_encode_tag_for_field t f; call_encoder rec func t f a) w out.
Proof.
  intros Hf (wt & Hwt & (key & Hk & (v & Hv & [= <-])%opt_bind_Some)%opt_bind_Some)%opt_bind_Some.
  apply emits_bind; [by eapply emits_tag_for_field | by apply emits_call].
Qed.

(** The size a packed array announces is the size of its items. *)
Lemma packed_size f func a count body t w' :
  PB_ENCODERS !! Z.to_nat (PB_LTYPE (type f)) = Some func ->
  scalar_ok f = true -> 0 <= count ->
  spec_items (Z.to_nat count) (spec_value w sub f) (data_size f) a = Some body ->
  ext w w' -> blen body < 2 ^ 64 ->
  (if PB_LTYPE (type f) =? PB_LTYPE_FIXED32 then mret (true, u64 (4 * count))
   else if PB_LTYPE (type f) =? PB_LTYPE_FIXED64 then mret (true, u64 (8 * count))
   else
     '(ok, sizestream) ← items_loop (Z.to_nat count) (fun s p => call_encoder rec func s f p)
                           (data_size f) t a;
     mret (ok, bytes_written sizestream)) w' =
  (if (PB_LTYPE (type f) =? PB_LTYPE_FIXED32) || (PB_LTYPE (type f) =? PB_LTYPE_FIXED64)
   then Ok (true, blen body) w'
   else ('(ok, s) ← items_loop (Z.to_nat count) (fun s p => call_encoder rec func s f p)
                      (data_size f) t a; mret (ok, bytes_written s)) w').
Proof.
  intros Hf Hok Hc Hb He Hlt.
  assert (forall k, PB_LTYPE (type f) = PB_LTYPE_FIXED32 \/ PB_LTYPE (type f) = PB_LTYPE_FIXED64 ->
    data_size f = k -> blen body = count * k) as Hlen.
  { intros k Hl Hk. rewrite <- (Z2Nat.id count) by done.
    apply (length_spec_items _ _ k _ _ _) in Hb; [done|]. intros p x Hx.
    unfold spec_value in Hx. rewrite Hok in Hx.
    destruct (spec_fixed w p (data_size f)) as [bs|] eqn:E; [|done]. injection Hx as <-.
    apply spec_fixed_read in E as (_ & _ & E). unfold scalar_wire.
    destruct Hl as [-> | ->]; cbn [Z.eqb]; eqbs; lia. }
  destruct (scalar_ok_case _ Hok) as [[Hlt' Hn] | [[El Hn] | [El Hn]]].
  - destruct Hlt' as [-> | [-> | ->]]; done.
  - rewrite El. eqbs. cbn [orb]. rewrite (Hlen 4) in * by auto. unfold mret, M_ret.
    rewrite u64_small by lia. do 2 f_equal. lia.
  - rewrite El. eqbs. cbn [orb]. rewrite (Hlen 8) in * by auto. unfold mret, M_ret.
    rewrite u64_small by lia. do 2 f_equal. lia.
Qed.

Lemma emits_packed f func a count key body :
  PB_ENCODERS !! Z.to_nat (PB_LTYPE (type f)) = Some func ->
  scalar_ok f = true -> 0 <= count -> spec_key (tag f) PB_WT_STRING = Some key ->
  spec_items (Z.to_nat count) (spec_value w sub f) (data_size f) a = Some body ->
  emits (fun stream =>
    stream <-? pb_encode_tag stream PB_WT_STRING (tag f);
    '(ok, size) ←
      (if PB_LTYPE (type f) =? PB_LTYPE_FIXED32 then mret (true, u64 (4 * count))
       else if PB_LTYPE (type f) =? PB_LTYPE_FIXED64 then mret (true, u64 (8 * count))
       else
         '(ok, sizestream) ← items_loop (Z.to_nat count) (fun s p => call_encoder rec func s f p)
                               (data_size f) PB_OSTREAM_SIZING a;
         mret (ok, bytes_written sizestream));
    if negb ok then mret (false, stream)
    else
      stream <-? pb_encode_varint stream size;
      if bool_decide (o_callback stream = null_cb)
      then pb_write stream (SrcMem 0) size
      else items_loop (Z.to_nat count) (fun s p => call_encoder rec func s f p)
             (data_size f) stream a) w (key ++ delimited body).
Proof.
  intros Hf Hok Hc Hk Hb. apply emits_bind; [by apply emits_key|].
  destruct (decide (2 ^ 64 <= blen body)) as [|Hlt].
  { apply emits_huge. unfold delimited. rewrite blen_app.
    pose proof (blen_nonneg (varint (Z.of_nat (length body)))). lia. }
  assert (emits (fun t => items_loop (Z.to_nat count) (fun s p => call_encoder rec func s f p)
    (data_size f) t a) w body) as Hitems.
  { eapply emits_items; [|exact Hb]. intros p x Hx. by apply emits_call. }
  apply (emits_ext (fun t => t <-? pb_encode_varint t (blen body);
    if bool_decide (o_callback t = null_cb) then pb_write t (SrcMem 0) (blen body)
    else items_loop (Z.to_nat count) (fun s p => call_encoder rec func s f p)
           (data_size f) t a)).
  - apply emits_bind; [apply emits_varint; unfold blen in *; lia|]. split.
    + intros t w' He Hc' _ _. rewrite bool_decide_true by done. by apply pb_write_sizing.
    + intros t w' He Hfr Ho. rewrite bool_decide_false by (by rewrite (oroom_cb _ _ _ Ho)).
      by apply (em_buf _ _ _ Hitems).
    + intros t w' room He Hfr Ho. rewrite bool_decide_false by (by rewrite (oroom_cb _ _ _ Ho)).
      by apply (em_full _ _ _ Hitems).
  - intros t w' He. rewrite (bind_eq _ _ _ (true, blen body) w'); [reflexivity|].
    rewrite (packed_size f func a count body _ w' Hf Hok Hc Hb He) by lia.
    destruct (_ || _); [done|]. pose proof (blen_nonneg body).
    erewrite bind_eq by (apply (em_dry _ _ _ Hitems PB_OSTREAM_SIZING w' He); (done || cbn; lia)).
    unfold mret, M_ret. cbn [bytes_written set_bytes_written PB_OSTREAM_SIZING].
    by rewrite Z.add_0_l, u64_small by lia.
Qed.
Lemma emits_array f func a count out :
  PB_ENCODERS !! Z.to_nat (PB_LTYPE (type f)) = Some func ->
  spec_array w sub f a count = Some out ->
  emits (fun t => encode_array rec t f a count func) w out.
Proof.
  intros Hf. unfold spec_array, encode_array. cbv zeta.
  destruct (count =? 0); [intros [= <-]; apply emits_nil|].
  destruct (Z.ltb_spec count 0); [done|]. cbn [orb].
  destruct (_ && _); [done|].
  destruct (_ <=? _).
  - destruct (scalar_ok f) eqn:Hok; [|done].
    intros (key & Hk & (body & Hb & [= <-])%opt_bind_Some)%opt_bind_Some.
    by apply emits_packed.
  - set (deref := _ && _). apply emits_items. intros p x (q & Hq & Hx)%opt_bind_Some. revert Hx.
    intros (wt & Hwt & (key & Hk & (v & Hv & [= <-])%opt_bind_Some)%opt_bind_Some)%opt_bind_Some.
    apply emits_bind; [by eapply emits_tag_for_field|]. destruct deref.
    + apply (emits_read (load_ptr p) q); [apply stable_load_uint | done | by apply emits_call].
    + injection Hq as ->. by apply emits_call.
Qed.

(** Reading steps that are skipped in some cases. *)
Lemma emits_read_if {A} (b : bool) (ld : M A) (x y : A) k out :
  stable ld -> (if b then peek ld w else Some y) = Some x -> emits (k x) w out ->
  emits (fun t => (if b then ld else mret y) ≫= fun z => k z t) w out.
Proof.
  intros Hst Hp. apply emits_read; [by destruct b; [|apply stable_ret] | by destruct b].
Qed.

Lemma stable_check_has n f a b :
  stable (if b : bool then c ← pb_check_proto3_default_value n f a; mret (negb c) else mret true).
Proof.
  destruct b; [|apply stable_ret].
  apply stable_bind; [apply stable_check | intros; apply stable_ret].
Qed.

Lemma ltype_encoder f : negb (PB_LTYPE (type f) <? 10) = false ->
  exists func, PB_ENCODERS !! Z.to_nat (PB_LTYPE (type f)) = Some func.
Proof.
  intros Hl. apply lookup_lt_is_Some. change (length PB_ENCODERS) with 10%nat.
  assert (0 <= PB_LTYPE (type f)) by (apply Z.land_nonneg; by right). lia.
Qed.

Lemma emits_basic n f pData out :
  spec_basic w sub n f pData = Some out ->
  emits (fun t => encode_basic_field rec n t f pData) w out.
Proof.
  unfold spec_basic, encode_basic_field. cbv zeta.
  destruct (negb (PB_LTYPE (type f) <? 10)) eqn:El; [done|].
  destruct (ltype_encoder f El) as [func Hf]. rewrite Hf.
  intros (dflt & Hd & (a & Ha & Hout)%opt_bind_Some)%opt_bind_Some.
  set (present := if PB_ATYPE (type f) =? PB_ATYPE_POINTER then negb (a =? 0) else negb dflt) in *.
  apply (emits_read _ (negb dflt)).
  { destruct (size_offset f =? 0); cbn [negb]; [|apply stable_ret].
    apply stable_check_has. }
  { destruct (size_offset f =? 0); cbn [negb andb] in *; [|by injection Hd as <-].
    destruct (_ =? _); [|by injection Hd as <-].
    unfold peek in *. by rewrite (bind_eq _ _ _ dflt w) by
      (apply stable_inv; [apply stable_check | exact Hd]). }
  apply (emits_read _ (a, present)).
  { destruct (PB_ATYPE (type f) =? PB_ATYPE_POINTER); [|apply stable_ret].
    apply stable_bind; [apply stable_load_uint | intros; apply stable_ret]. }
  { unfold present. destruct (PB_ATYPE (type f) =? PB_ATYPE_POINTER); [|by injection Ha as <-].
    unfold peek in *. by rewrite (bind_eq _ _ _ a w) by
      (apply stable_inv; [apply stable_load_uint | exact Ha]). }
  destruct (_ =? PB_HTYPE_REQUIRED).
  { destruct (a =? 0); [done|]. by apply emits_keyed. }
  destruct (_ =? PB_HTYPE_OPTIONAL).
  { apply opt_bind_Some in Hout as (has & Hh & Hout).
    apply (emits_read _ has).
    - destruct (size_offset f =? 0); [apply stable_ret | apply stable_load_bool].
    - by destruct (size_offset f =? 0).
    - destruct has; [by apply emits_keyed | injection Hout as <-; apply emits_nil]. }
  destruct (_ =? PB_HTYPE_REPEATED).
  { apply opt_bind_Some in Hout as (count & Hc & Hout).
    apply (emits_read _ count).
    - destruct (size_offset f =? 0); [apply stable_ret | apply stable_load_uint].
    - by destruct (size_offset f =? 0).
    - by apply emits_array. }
  apply opt_bind_Some in Hout as (which & Hwh & Hout).
  apply (emits_read _ which).
  - destruct (size_offset f =? 0); [apply stable_stop | apply stable_load_uint].
  - by destruct (size_offset f =? 0).
  - destruct (which =? tag f); [by apply emits_keyed | injection Hout as <-; apply emits_nil].
Qed.

Lemma emits_field n f pData out :
  spec_field w sub n f pData = Some out ->
  emits (fun t => encode_field rec n t f pData) w out.
Proof.
  unfold spec_field, encode_field. cbv zeta. destruct (_ || _); [by apply emits_basic|].
  destruct (_ =? _); [|done]. intros (fn & Hfn & Hout)%opt_bind_Some.
  unfold encode_callback_field.
  apply (emits_read _ fn); [apply stable_load_uint | done|].
  destruct (fn =? 0); [|done]. injection Hout as <-. cbn [negb]. apply emits_nil.
Qed.

Lemma emits_extensions n k : forall extension out,
  spec_extensions w sub n k extension = Some out ->
  emits (fun t => extension_loop rec n k t extension) w out.
Proof.
  induction k as [|k IH]; intros extension out; cbn [spec_extensions extension_loop];
    (destruct (extension =? 0); [intros [= <-]; apply emits_nil|]); [done|].
  intros (ty & Hty & (enc & Henc & Hout)%opt_bind_Some)%opt_bind_Some.
  apply (emits_read _ ty); [apply stable_load_uint | done|].
  apply (emits_read _ enc); [apply stable_load_uint | done|].
  destruct (enc =? 0); cbn [negb] in *; [|done].
  revert Hout. intros (arg & Harg & (fields & Hfs & (a & Ha & (x & Hx & (next & Hn &
    (xs & Hxs & [= <-])%opt_bind_Some)%opt_bind_Some)%opt_bind_Some)%opt_bind_Some)%opt_bind_Some)%opt_bind_Some.
  apply emits_bind.
  - unfold default_extension_encoder. apply (emits_read _ ty); [apply stable_load_uint | done|].
    apply (emits_read _ arg); [apply stable_load_uint | done|].
    apply (emits_read _ fields); [apply stable_get_fields | unfold peek, get_fields; by rewrite Hfs|].
    cbv zeta. destruct (_ =? _).
    + injection Ha as <-. by apply emits_field.
    + apply (emits_read _ a); [apply stable_load_uint | done | by apply emits_field].
  - apply (emits_read _ next); [apply stable_load_uint | done | by apply IH].
Qed.

Lemma emits_entry n f pData out :
  spec_entry w sub n f pData = Some out ->
  emits (fun t => if PB_LTYPE (type f) =? PB_LTYPE_EXTENSION
                  then encode_extension_field rec n t pData
                  else encode_field rec n t f pData) w out.
Proof.
  unfold spec_entry. destruct (_ =? _); [|by apply emits_field].
  intros (ex & Hex & Hout)%opt_bind_Some. unfold encode_extension_field.
  apply (emits_read _ ex); [apply stable_load_uint | done | by apply emits_extensions].
Qed.

(** The loop from field [k] to the last. *)
Lemma emits_loop n fields src m : forall k out,
  wf_fields fields -> Z.of_nat (length fields) <= 2 ^ 32 ->
  (k < nfields fields)%nat -> (nfields fields - k <= m)%nat ->
  spec_fields (spec_entry w sub n) fields src (seq k (nfields fields - k)) = Some out ->
  emits (fun t => encode_loop rec n m t (iter_at fields src k)) w out.
Proof.
  induction m as [|m IH]; intros k out Hwf Hlen Hk Hm; [lia|].
  replace (nfields fields - k)%nat with (S (nfields fields - S k)) by lia.
  cbn [seq spec_fields encode_loop].
  intros (x & Hx & (xs & Hxs & [= <-])%opt_bind_Some)%opt_bind_Some.
  rewrite cur_at. cbn [pData iter_at]. apply emits_bind; [by apply emits_entry|].
  rewrite next_at by done. destruct (Nat.eqb_spec (S k) (nfields fields)) as [E|E].
  - rewrite E, Nat.sub_diag in Hxs. injection Hxs as <-. apply emits_nil.
  - apply IH; (done || lia).
Qed.
End Fields.

Lemma emits_message w n : forall fields src out,
  spec_message w n fields src = Some out ->
  emits (fun t => pb_encode n t fields src) w out.
Proof.
  induction n as [|n IH]; intros fields src out; cbn [spec_message pb_encode]; [done|].
  destruct (wf_fieldsb fields) eqn:Ewf; [|done]. apply wf_fieldsb_ok in Ewf as [Hwf Hlen].
  rewrite begin_at. destruct (decide (nfields fields = 0%nat)) as [E0|Hn].
  - rewrite E0. intros [= <-]. pose proof (fld_end _ Hwf) as Ef. rewrite E0 in Ef. rewrite Ef.
    cbn. apply emits_nil.
  - intros Hs. pose proof (fld_tag_nonzero _ 0 Hwf ltac:(lia)) as Ht.
    rewrite (proj2 (Z.eqb_neq _ _) Ht). cbn [negb].
    pose proof (nfields_lt_length _ Hwf).
    eapply emits_loop; [exact IH | done | done | lia | lia | by rewrite Nat.sub_0_r].
Qed.
End Emits.

(** * The encoder implements the reference encoding *)

Section Refinement.
Context `{UserCode}.

Lemma fresh_ext_buffer w w' buf n :
  ext w w' -> unmapped (w_mem w) buf n -> mapped (w_mem w') buf n ->
  forall bufsize, n <= bufsize < 2 ^ 64 ->
  fresh w (pb_ostream_from_buffer buf bufsize) n /\
  oroom w' (pb_ostream_from_buffer buf bufsize) n.
Proof. intros He Hu Hm bufsize Hn. split; [exact Hu | split; cbn; (done || lia)]. Qed.

(** C30: [pb_get_encoded_size] gives the length of the reference encoding, and
    changes nothing, for every message that has one of less than 2^64 bytes. *)
Theorem pb_get_encoded_size_exact n fields src out w :
  spec_message w n fields src = Some out -> blen out < 2 ^ 64 ->
  pb_get_encoded_size n fields src w = Ok (Some (blen out)) w.
Proof.
  intros Hs Hlt. pose proof (emits_message w n fields src out Hs) as He.
  pose proof (blen_nonneg out). unfold pb_get_encoded_size.
  erewrite bind_eq by (apply (em_dry _ _ _ He PB_OSTREAM_SIZING w (ext_refl w)); (done || cbn; lia)).
  unfold mret, M_ret. cbn [bytes_written set_bytes_written PB_OSTREAM_SIZING].
  by rewrite Z.add_0_l, u64_small by lia.
Qed.

(** C10: [pb_encode] into a buffer outside the message, of at least the length of
    the reference encoding, succeeds: the buffer then starts with exactly the
    reference encoding, whose length [bytes_written] counts, and nothing else
    changed, neither the rest of the buffer nor any other memory. *)
Theorem pb_encode_refines_spec n fields src out w w' buf bufsize :
  spec_message w n fields src = Some out ->
  ext w w' -> unmapped (w_mem w) buf (blen out) -> mapped (w_mem w') buf (blen out) ->
  blen out <= bufsize < 2 ^ 64 ->
  exists s w'',
    pb_encode n (pb_ostream_from_buffer buf bufsize) fields src w' = Ok (true, s) w'' /\
    bytes_written s = blen out /\
    mem_read (w_mem w'') buf (length out) = Some out /\
    frame (within buf (blen out)) w' w''.
Proof.
  intros Hs He Hu Hm Hn. pose proof (emits_message w n fields src out Hs) as Hem.
  destruct (fresh_ext_buffer w w' buf (blen out) He Hu Hm bufsize Hn) as [Hf Ho].
  destruct (em_buf _ _ _ Hem _ w' He Hf Ho) as [e E].
  eexists _, _. split_and!; [exact E | done | apply mem_read_write_eq|].
  by apply (frame_put w' (pb_ostream_from_buffer buf bufsize)).
Qed.

(** C34: [pb_encode] into a buffer shorter than the reference encoding returns
    false, and the bytes it has written by then are all inside the buffer. *)
Theorem pb_encode_stream_full n fields src out w w' buf bufsize :
  spec_message w n fields src = Some out -> blen out < 2 ^ 64 ->
  ext w w' -> unmapped (w_mem w) buf bufsize -> mapped (w_mem w') buf bufsize ->
  0 <= bufsize < blen out ->
  exists s w'',
    pb_encode n (pb_ostream_from_buffer buf bufsize) fields src w' = Ok (false, s) w'' /\
    frame (within buf bufsize) w' w''.
Proof.
  intros Hs Hlt He Hu Hm Hn. pose proof (emits_message w n fields src out Hs) as Hem.
  destruct (fresh_ext_buffer w w' buf bufsize He Hu Hm bufsize ltac:(lia)) as [Hf Ho].
  exact (em_full _ _ _ Hem _ w' bufsize He Hf Ho ltac:(lia) eq_refl ltac:(lia) ltac:(cbn; lia)).
Qed.

(** [pb_encode_delimited] writes the length of the reference encoding as a
    varint and then the reference encoding. *)
Theorem pb_encode_delimited_refines n fields src out w w' buf bufsize :
  spec_message w n fields src = Some out ->
  ext w w' -> unmapped (w_mem w) buf (blen (delimited out)) ->
  mapped (w_mem w') buf (blen (delimited out)) -> blen (delimited out) <= bufsize < 2 ^ 64 ->
  exists s w'',
    pb_encode_delimited n (pb_ostream_from_buffer buf bufsize) fields src w' = Ok (true, s) w'' /\
    bytes_written s = blen (delimited out) /\
    mem_read (w_mem w'') buf (length (delimited out)) = Some (delimited out).
Proof.
  intros Hs He Hu Hm Hn.
  pose proof (emits_submessage (pb_encode n) w fields src out (emits_message w n fields src out Hs))
    as Hem.
  destruct (fresh_ext_buffer w w' buf _ He Hu Hm bufsize Hn) as [Hf Ho].
  destruct (em_buf _ _ _ Hem _ w' He Hf Ho) as [e E].
  eexists _, _. split_and!; [exact E | done | apply mem_read_write_eq].
Qed.
End Refinement.

(** * Witnesses: the log upload batch of [cct_message] *)

Definition cct_world : world := world_of cct_message.
Definition cct_batch_fields : list pb_field_t := gdt_cct_BatchedLogRequest_fields cct_sym.

(** The encoding, as the protocol buffer specification gives it. *)
Definition cct_encoding : list byte :=
  [x0a; x1b;
     x10; xfa; x07;
     x1a; x12;
       x08; xac; x02;
       x32; x03; x61; x62; x63;
       x78; x9f; x38;
       xba; x01; x04; x08; x01; x10; x0d;
     x20; x4d;
     x48; x03].

Example cct_spec :
  spec_message (H := no_callbacks cct_image) cct_world 5 cct_batch_fields 0x10000
  = Some cct_encoding.
Proof. vm_compute. reflexivity. Qed.

(** The batch with a buffer of [n] bytes at [0x20000]. *)
Definition cct_world_with (n : nat) : world :=
  world_of ((0x20000, replicate n xff) :: cct_message).

Lemma pb_get_encoded_size_exact_witness :
  pb_get_encoded_size (H := no_callbacks cct_image) 5 cct_batch_fields 0x10000 cct_world
  = Ok (Some 29) cct_world.
Proof.
  apply (@pb_get_encoded_size_exact (no_callbacks cct_image) 5 cct_batch_fields 0x10000
           cct_encoding); [exact cct_spec | vm_compute; reflexivity].
Defined.

Lemma pb_encode_refines_spec_witness :
  let w' := cct_world_with 40 in
  exists s w'',
    pb_encode (H := no_callbacks cct_image) 5 (pb_ostream_from_buffer 0x20000 40)
      cct_batch_fields 0x10000 w' = Ok (true, s) w'' /\
    bytes_written s = 29 /\
    mem_read (w_mem w'') 0x20000 29 = Some cct_encoding /\
    frame (within 0x20000 29) w' w''.
Proof.
  apply (@pb_encode_refines_spec (no_callbacks cct_image) 5 cct_batch_fields 0x10000
           cct_encoding cct_world).
  - exact cct_spec.
  - by apply world_of_cons.
  - by apply unmapped_world_of.
  - by apply mapped_world_of.
  - by vm_compute.
Defined.

Lemma pb_encode_stream_full_witness :
  let w' := cct_world_with 28 in
  exists s w'',
    pb_encode (H := no_callbacks cct_image) 5 (pb_ostream_from_buffer 0x20000 28)
      cct_batch_fields 0x10000 w' = Ok (false, s) w'' /\
    frame (within 0x20000 28) w' w''.
Proof.
  apply (@pb_encode_stream_full (no_callbacks cct_image) 5 cct_batch_fields 0x10000
           cct_encoding cct_world).
  - exact cct_spec.
  - by vm_compute.
  - by apply world_of_cons.
  - by apply unmapped_world_of.
  - by apply mapped_world_of.
  - by vm_compute.
Defined.

Lemma pb_encode_delimited_refines_witness :
  let w' := cct_world_with 30 in
  exists s w'',
    pb_encode_delimited (H := no_callbacks cct_image) 5 (pb_ostream_from_buffer 0x20000 30)
      cct_batch_fields 0x10000 w' = Ok (true, s) w'' /\
    bytes_written s = 30 /\
    mem_read (w_mem w'') 0x20000 30 = Some (x1d :: cct_encoding).
Proof.
  apply (@pb_encode_delimited_refines (no_callbacks cct_image) 5 cct_batch_fields 0x10000
           cct_encoding cct_world).
  - exact cct_spec.
  - by apply world_of_cons.
  - by apply unmapped_world_of.
  - by apply mapped_world_of.
  - by vm_compute.
Defined.
