(* ===== verification/DecodeSafety.v ===== *)
(** Memory safety and termination of pb_decode.c on hostile input, for
    statically allocated messages read from a memory buffer.

    [safe_msgb] is an executable check of a descriptor against the size of its
    struct.  For a descriptor that passes it, decoding any bytes into any struct
    contents returns (true or false) without a fault, within fuel that depends
    only on the nesting depth, and changes nothing outside the struct. *)

From S2P Require Import Prelude CMem PbTypes FieldIter Decode Cct.
Open Scope Z_scope.
Open Scope pb_scope.

(** * Input streams on a buffer *)

(** [s'] is what is left of [s], or of a part of it. *)
Record sub_of (s' s : pb_istream_t) : Prop := {
  so_cb : i_callback s' = i_callback s;
  so_lo : i_state s <= i_state s';
  so_hi : i_state s' + bytes_left s' <= i_state s + bytes_left s;
  so_left : 0 <= bytes_left s -> 0 <= bytes_left s';
}.

(** [s] is a buffer whose bytes are all mapped. *)
Record rd (w : world) (s : pb_istream_t) : Prop := {
  rd_cb : i_callback s = buf_read_cb;
  rd_left : 0 <= bytes_left s < 2 ^ 64;
  rd_mapped : mapped (w_mem w) (i_state s) (bytes_left s);
}.

#[export] Instance sub_of_preorder : PreOrder sub_of.
Proof.
  split.
  - intros s. by split.
  - intros s1 s2 s3 [H1 H2 H3 H4] [K1 K2 K3 K4]. split; [congruence | lia | lia | auto].
Qed.

Lemma sub_of_le s' s : sub_of s' s -> bytes_left s' <= bytes_left s.
Proof. intros [_ H1 H2 _]. lia. Qed.

Lemma rd_sub w s s' : rd w s -> sub_of s' s -> rd w s'.
Proof.
  intros [H1 H2 H3] Hs. pose proof (sub_of_le _ _ Hs). destruct Hs as [K1 K2 K3 K4].
  split; [congruence | lia |]. eapply mapped_sub; [exact H3 | lia | lia].
Qed.

Lemma rd_frame P w w' s : rd w s -> frame P w w' -> rd w' s.
Proof. intros [H1 H2 H3] Hf. split; [done | done |]. by eapply frame_mapped. Qed.

Lemma sub_of_adv s n :
  0 <= n <= bytes_left s -> bytes_left s < 2 ^ 64 ->
  sub_of (set_bytes_left (set_i_state s (i_state s + n)) (u64 (bytes_left s - n))) s.
Proof. intros Hn Hl. split; cbn; rewrite ?u64_small by lia; lia || done. Qed.

Lemma sub_of_err s e : sub_of (set_i_errmsg s e) s.
Proof. by split. Qed.

Create HintDb safe.
#[export] Hint Resolve sub_of_err : safe.
#[export] Hint Extern 1 (sub_of ?s ?s) => reflexivity : safe.
#[export] Hint Extern 1 (frame _ ?w ?w) => reflexivity : safe.

Section Streams.
Context `{UserCode}.

(** [pb_read] into a local returns as many bytes as asked for. *)
Lemma wp_pb_read_local s n w Q :
  rd w s -> 0 <= n ->
  (forall ok bs s', sub_of s' s ->
     (ok = true -> length bs = Z.to_nat n /\ bytes_left s' = bytes_left s - n) ->
     Q (ok, bs, s') w) ->
  wp (pb_read s ToLocal n) w Q.
Proof.
  intros [Hc Hl Hm] Hn HQ. unfold pb_read, pb_read_chunk.
  destruct (Z.ltb_spec (bytes_left s) n).
  - apply wp_bind, wp_ret, wp_ret, HQ; [apply sub_of_err | done].
  - unfold call_read. rewrite Hc. unfold buf_read.
    apply wp_bind, wp_bind, wp_load_bytes.
    + eapply mapped_sub; [exact Hm | lia | lia].
    + intros bs Hbs _. apply wp_ret. cbn [negb]. apply wp_ret, HQ.
      * exact (sub_of_adv s n ltac:(lia) ltac:(lia)).
      * intros _. split; [done|]. cbn. rewrite u64_small by lia. done.
Qed.

Lemma wp_pb_read_null s n w Q :
  rd w s -> 0 <= n ->
  (forall ok s', sub_of s' s -> Q (ok, s') w) ->
  wp (pb_read_ s ToNull n) w Q.
Proof.
  intros [Hc Hl Hm] Hn HQ. unfold pb_read_, pb_read, pb_read_chunk. rewrite Hc.
  apply wp_bind. destruct (Z.ltb_spec (bytes_left s) n).
  - apply wp_bind, wp_ret, wp_ret, wp_ret, HQ, sub_of_err.
  - unfold call_read. rewrite Hc. unfold buf_read.
    apply wp_bind, wp_bind, wp_ret, wp_ret. cbn [negb]. apply wp_ret, wp_ret, HQ. exact (sub_of_adv s n ltac:(lia) ltac:(lia)).
Qed.

(** [pb_read] to memory: the destination only has to be writable for what the
    stream can deliver. *)
Lemma wp_pb_read_mem (P : Z -> Prop) s a n w Q :
  rd w s -> 0 <= n -> mapped (w_mem w) a n -> (forall x, within a n x -> P x) ->
  (forall ok s' w', sub_of s' s -> frame P w w' -> Q (ok, s') w') ->
  wp (pb_read_ s (ToMem a) n) w Q.
Proof.
  intros [Hc Hl Hm] Hn Ha HP HQ. unfold pb_read_, pb_read, pb_read_chunk.
  apply wp_bind. destruct (Z.ltb_spec (bytes_left s) n).
  - apply wp_bind, wp_ret, wp_ret, wp_ret, HQ; [apply sub_of_err | reflexivity].
  - unfold call_read. rewrite Hc. unfold buf_read.
    apply wp_bind, wp_bind, wp_bind.
    apply (wp_copy_bytes P); rewrite ?Z2Nat.id by lia; [| done | done |].
    + eapply mapped_sub; [exact Hm | lia | lia].
    + intros w' Hw. apply wp_ret, wp_ret. cbn [negb]. apply wp_ret, wp_ret, HQ; [|done].
      exact (sub_of_adv s n ltac:(lia) ltac:(lia)).
Qed.

Lemma wp_pb_readbyte s w Q :
  rd w s ->
  (forall ok b s', sub_of s' s -> 0 <= b < 256 ->
     (ok = true -> bytes_left s' = bytes_left s - 1) -> Q (ok, b, s') w) ->
  wp (pb_readbyte s) w Q.
Proof.
  intros [Hc Hl Hm] HQ. unfold pb_readbyte.
  destruct (Z.eqb_spec (bytes_left s) 0).
  - apply wp_bind, wp_ret, wp_ret, HQ; [apply sub_of_err | lia | done].
  - unfold call_read. rewrite Hc. unfold buf_read.
    apply wp_bind, wp_bind, wp_load_bytes.
    + eapply mapped_sub; [exact Hm | lia | lia].
    + intros bs Hbs _. apply wp_ret. cbn [negb]. apply wp_ret, HQ.
      * exact (sub_of_adv s 1 ltac:(lia) ltac:(lia)).
      * destruct bs as [|b [|? ?]]; cbn in *; try lia. pose proof (b2z_bound b). lia.
      * intros _. cbn. by rewrite u64_small by lia.
Qed.

(** A value is a 32-bit word. *)
Definition is_u32 (v : Z) : Prop := 0 <= v < 2 ^ 32.

Lemma lor_u32 a b : is_u32 a -> is_u32 b -> is_u32 (Z.lor a b).
Proof.
  unfold is_u32. intros Ha Hb. split; [apply Z.lor_nonneg; lia|].
  destruct (Z.eq_dec (Z.lor a b) 0) as [->|Hn]; [lia|].
  assert (0 <= Z.lor a b) by (apply Z.lor_nonneg; lia).
  apply Z.log2_lt_pow2; [lia|]. rewrite Z.log2_lor by lia.
  apply Z.max_lub_lt; (destruct (Z.eq_dec a 0) as [->|]; [cbn; try lia|]);
    (destruct (Z.eq_dec b 0) as [->|]; [cbn; try lia|]); try (apply Z.log2_lt_pow2; lia); lia.
Qed.

Lemma wp_varint32_loop n : forall s result bitpos w Q,
  rd w s -> bytes_left s < Z.of_nat n -> is_u32 result ->
  (forall ok r b bp s', sub_of s' s -> is_u32 r -> Q (ok, (r, b, bp), s') w) ->
  wp (varint32_loop n s result bitpos) w Q.
Proof.
  induction n as [|n IH]; intros s result bitpos w Q Hrd Hn Hr HQ.
  { destruct Hrd. lia. }
  cbn [varint32_loop]. apply wp_bind, wp_pb_readbyte; [done|].
  intros ok b s' Hs Hb Hleft. destruct ok; cbn [negb]; [|by apply wp_ret, HQ].
  specialize (Hleft eq_refl).
  assert (forall r bp, is_u32 r ->
    wp (if negb (Z.land b 0x80 =? 0) then varint32_loop n s' r bp
        else mret (true, (r, b, bp), s')) w Q) as Hnext.
  { intros r bp Hr'. split_if; [|by apply wp_ret, HQ].
    apply IH; [by eapply rd_sub | lia | done |]. intros ok' r' b' bp' s'' Hs' Hr''.
    apply HQ; [by etrans | done]. }
  destruct (bitpos >=? 32).
  - split_if; [|by apply Hnext]. apply wp_bind, wp_ret, wp_ret, HQ; [|done].
    etrans; [apply sub_of_err | done].
  - apply Hnext. apply lor_u32; [done|]. apply u32_bound.
Qed.

Lemma wp_pb_decode_varint32_eof s w Q :
  rd w s ->
  (forall ok v eof s', sub_of s' s -> is_u32 v ->
     (ok = true -> bytes_left s' < bytes_left s) -> Q (ok, (v, eof), s') w) ->
  wp (pb_decode_varint32_eof s) w Q.
Proof.
  intros Hrd HQ. unfold pb_decode_varint32_eof.
  apply wp_bind, wp_pb_readbyte; [done|]. intros ok b s' Hs Hb Hleft.
  assert (is_u32 0) by (unfold is_u32; lia).
  destruct ok; cbn [negb]; [specialize (Hleft eq_refl)|by apply wp_ret, HQ].
  destruct (Z.land b 0x80 =? 0).
  - apply wp_ret, HQ; [done | unfold is_u32; lia | lia].
  - pose proof (rd_sub _ _ _ Hrd Hs) as Hrd'.
    apply wp_bind, wp_varint32_loop; [done | destruct Hrd'; lia | |].
    { rewrite land_127. unfold is_u32. pose proof (Z.mod_pos_bound b 128 ltac:(lia)). lia. }
    intros ok r byte bp s'' Hs' Hr. pose proof (sub_of_le _ _ Hs').
    assert (sub_of s'' s) by (by etrans).
    destruct ok; cbn [negb]; [|by apply wp_ret, HQ].
    split_if; [|by apply wp_ret, HQ; [| |lia]].
    apply wp_bind, wp_ret, wp_ret, HQ; [|done|done]. etrans; [apply sub_of_err | done].
Qed.

Lemma wp_pb_decode_varint32 s w Q :
  rd w s ->
  (forall ok v s', sub_of s' s -> is_u32 v ->
     (ok = true -> bytes_left s' < bytes_left s) -> Q (ok, v, s') w) ->
  wp (pb_decode_varint32 s) w Q.
Proof.
  intros Hrd HQ. unfold pb_decode_varint32.
  apply wp_bind, wp_pb_decode_varint32_eof; [done|]. intros. by apply wp_ret, HQ.
Qed.

Lemma wp_varint_read_loop n : forall s result bitpos w Q,
  rd w s -> 0 <= bitpos -> 64 <= bitpos + 7 * Z.of_nat n -> bitpos <= 70 -> (0 < n)%nat ->
  (forall ok v s', sub_of s' s -> (ok = true -> bytes_left s' < bytes_left s) ->
     Q (ok, v, s') w) ->
  (64 <= bitpos \/ 70 <= bitpos + 7 * (Z.of_nat n - 1)) ->
  wp (varint_read_loop n s result bitpos) w Q.
Proof.
  induction n as [|n IH]; intros s result bitpos w Q Hrd H0 H64 H70 Hn HQ Hfuel; [lia|].
  cbn [varint_read_loop]. destruct (Z.geb_spec bitpos 64).
  - apply wp_bind, wp_ret, wp_ret, HQ; [apply sub_of_err | done].
  - apply wp_bind, wp_pb_readbyte; [done|]. intros ok b s' Hs Hb Hleft.
    destruct ok; cbn [negb]; [|by apply wp_ret, HQ]. specialize (Hleft eq_refl).
    rewrite u8_small by lia. split_if; [|apply wp_ret, HQ; [done | lia]].
    apply IH; try lia; [by eapply rd_sub|]. intros ok v s'' Hs' Hl.
    apply HQ; [by etrans | intros Eo; specialize (Hl Eo); lia].
Qed.

Lemma wp_pb_decode_varint s w Q :
  rd w s ->
  (forall ok v s', sub_of s' s -> (ok = true -> bytes_left s' < bytes_left s) ->
     Q (ok, v, s') w) ->
  wp (pb_decode_varint s) w Q.
Proof. intros Hrd HQ. apply wp_varint_read_loop; (done || lia). Qed.

Lemma wp_pb_decode_svarint s w Q :
  rd w s ->
  (forall ok v s', sub_of s' s -> (ok = true -> bytes_left s' < bytes_left s) ->
     Q (ok, v, s') w) ->
  wp (pb_decode_svarint s) w Q.
Proof.
  intros Hrd HQ. unfold pb_decode_svarint. apply wp_bind, wp_pb_decode_varint; [done|].
  intros. by apply wp_ret, HQ.
Qed.

Lemma wp_skip_varint_loop n : forall s w Q,
  rd w s -> bytes_left s < Z.of_nat n -> (forall ok s', sub_of s' s -> Q (ok, s') w) ->
  wp (skip_varint_loop n s) w Q.
Proof.
  induction n as [|n IH]; intros s w Q Hrd Hn HQ; [destruct Hrd; lia|].
  cbn [skip_varint_loop]. apply wp_bind, wp_pb_read_local; [done | lia |].
  intros ok bs s' Hs Hok. destruct ok; cbn [negb]; [|by apply wp_ret, HQ].
  destruct (Hok eq_refl) as [_ Hl]. split_if; [|by apply wp_ret, HQ].
  apply IH; [by eapply rd_sub | lia |]. intros. apply HQ. by etrans.
Qed.

Lemma wp_pb_skip_varint s w Q :
  rd w s -> (forall ok s', sub_of s' s -> Q (ok, s') w) -> wp (pb_skip_varint s) w Q.
Proof. intros Hrd HQ. apply wp_skip_varint_loop; [done | destruct Hrd; lia | done]. Qed.

Lemma wp_pb_skip_string s w Q :
  rd w s -> (forall ok s', sub_of s' s -> Q (ok, s') w) -> wp (pb_skip_string s) w Q.
Proof.
  intros Hrd HQ. unfold pb_skip_string. apply wp_bind, wp_pb_decode_varint32; [done|].
  intros ok v s' Hs Hv _. destruct ok; cbn [negb]; [|by apply wp_ret, HQ].
  apply wp_pb_read_null; [by eapply rd_sub | unfold is_u32 in Hv; lia |].
  intros. apply HQ. by etrans.
Qed.

(** A tag that was read used up input; field numbers have 29 bits. *)
Lemma wp_pb_decode_tag s w Q :
  rd w s ->
  (forall ok wt t eof s', sub_of s' s -> 0 <= t < 2 ^ 29 ->
     (ok = true -> bytes_left s' < bytes_left s) -> Q (ok, (wt, t, eof), s') w) ->
  wp (pb_decode_tag s) w Q.
Proof.
  intros Hrd HQ. unfold pb_decode_tag. apply wp_bind, wp_pb_decode_varint32_eof; [done|].
  intros ok v eof s' Hs Hv Hl. destruct ok; cbn [negb]; [|by apply wp_ret, HQ; [|lia|]].
  destruct (v =? 0); [by apply wp_ret, HQ; [|lia|]|].
  apply wp_ret, HQ; [done | | done]. unfold is_u32 in Hv.
  rewrite Z.shiftr_div_pow2 by lia. split; [apply Z.div_pos; lia | apply Z.div_lt_upper_bound; lia].
Qed.

Lemma wp_pb_skip_field s wt w Q :
  rd w s -> (forall ok s', sub_of s' s -> Q (ok, s') w) -> wp (pb_skip_field s wt) w Q.
Proof.
  intros Hrd HQ. unfold pb_skip_field.
  repeat split_if; [by apply wp_pb_skip_varint | apply wp_pb_read_null; (done || lia)
    | by apply wp_pb_skip_string | apply wp_pb_read_null; (done || lia)
    | apply wp_ret, HQ, sub_of_err].
Qed.

(** A substream and its parent share the input: the substream comes first. *)
Record split_of (s s1 sub : pb_istream_t) : Prop := {
  sp_parent : sub_of s1 s;
  sp_sub : sub_of sub s;
  sp_state : i_state sub = i_state s1;
  sp_next : i_state sub + bytes_left sub + bytes_left s1 <= i_state s + bytes_left s;
  sp_left : 0 <= bytes_left s1;
  sp_less : bytes_left sub < bytes_left s;
}.

Lemma wp_pb_make_string_substream s w Q :
  rd w s ->
  (forall s1 sub, sub_of s1 s -> Q (false, s1, sub) w) ->
  (forall s1 sub, split_of s s1 sub -> Q (true, s1, sub) w) ->
  wp (pb_make_string_substream s) w Q.
Proof.
  intros Hrd Hno Hyes. unfold pb_make_string_substream.
  apply wp_bind, wp_pb_decode_varint32; [done|]. intros ok v s' Hs Hv Hl.
  destruct ok; cbn [negb]; [|by apply wp_ret, Hno]. specialize (Hl eq_refl).
  unfold is_u32 in Hv. pose proof (rd_sub _ _ _ Hrd Hs) as [_ Hl' _].
  destruct (Z.ltb_spec (bytes_left s') v).
  - apply wp_bind, wp_ret, wp_ret, Hno. etrans; [apply sub_of_err | done].
  - apply wp_ret, Hyes. destruct Hs as [K1 K2 K3 K4]. split; cbn; rewrite ?u64_small by lia;
      try lia; try done; split; cbn; rewrite ?u64_small by lia; lia || done.
Qed.

(** Closing after any use of the substream leaves a stream within the parent. *)
Lemma wp_pb_close_string_substream s s1 sub sub' w Q :
  split_of s s1 sub -> rd w s -> sub_of sub' sub ->
  (forall ok s', sub_of s' s -> Q (ok, s') w) ->
  wp (pb_close_string_substream s1 sub') w Q.
Proof.
  intros Hsp Hrd Hs HQ. unfold pb_close_string_substream.
  pose proof (rd_sub _ _ _ Hrd (sp_sub _ _ _ Hsp)) as Hrds.
  pose proof (rd_sub _ _ _ Hrds Hs) as Hrds'.
  assert (forall ok sub'', sub_of sub'' sub ->
    wp (if negb ok then mret (false, s1)
        else mret (true, set_i_errmsg (set_i_state s1 (i_state sub'')) (i_errmsg sub''))) w Q)
    as Hend.
  { intros ok sub'' Hs''. destruct ok; cbn [negb]; apply wp_ret, HQ; [|apply Hsp].
    destruct Hsp as [[P1 P2 P3 P4] [S1 S2 S3 S4] E1 E2 E3 E4]. destruct Hs'' as [T1 T2 T3 T4].
    destruct Hrds as [_ Hb _]. specialize (T4 ltac:(lia)).
    split; cbn; [done | lia | lia | done]. }
  apply wp_bind. destruct (bytes_left sub' =? 0); cbn [negb].
  - by apply wp_ret, Hend.
  - apply wp_pb_read_null; [done | destruct Hrds'; lia |].
    intros ok s' Hs'. apply Hend. by etrans.
Qed.
End Streams.

(** * Safe descriptors *)

Definition in_regions (regions : list (Z * Z)) (a n : Z) : bool :=
  existsb (fun '(b, k) => (b <=? a) && (a + n <=? b + k)) regions.

(** The count, has or which member of a field lies in the struct. *)
Definition size_member_ok (h off soff size : Z) : bool :=
  if h =? PB_HTYPE_REQUIRED then true
  else if h =? PB_HTYPE_OPTIONAL then (soff =? off) || ((0 <=? soff) && (soff <? size))
  else (0 <=? soff) && (soff + 4 <=? size).

Definition field_extent (f : pb_field_t) : Z :=
  if PB_HTYPE (type f) =? PB_HTYPE_REPEATED then data_size f * array_size f else data_size f.

(** What the value of a field asks: a fixed-width member of that width, a
    submessage with a descriptor that fits, a default value that is there. *)
Definition value_ok `{UserCode} (rodata : list (Z * Z))
    (sub_ok : list pb_field_t -> Z -> bool) (f : pb_field_t) : bool :=
  let l := PB_LTYPE (type f) in
  if l =? PB_LTYPE_SUBMESSAGE then
    negb (ptr f =? 0) &&
    match image (ptr f) with Some sub => sub_ok sub (data_size f) | None => false end
  else
    (if l =? PB_LTYPE_FIXED32 then 4 <=? data_size f else true) &&
    (if l =? PB_LTYPE_FIXED64 then 8 <=? data_size f else true) &&
    ((ptr f =? 0) || in_regions rodata (ptr f) (data_size f)).

Definition safe_fieldb `{UserCode} (rodata : list (Z * Z))
    (sub_ok : list pb_field_t -> Z -> bool) (fields : list pb_field_t) (size : Z) (k : nat)
  : bool :=
  let f := fld fields k in
  let off := field_offset fields k in
  (PB_ATYPE (type f) =? PB_ATYPE_STATIC) &&
  (PB_LTYPE (type f) <? 10) && negb (PB_LTYPE (type f) =? PB_LTYPE_EXTENSION) &&
  (0 <=? off) && (0 <=? data_size f) && (data_size f <? 2 ^ 32) && (0 <=? array_size f) &&
  (off + field_extent f <=? size) && (field_extent f <? 2 ^ 32) &&
  size_member_ok (PB_HTYPE (type f)) off (size_offset_at fields k) size &&
  value_ok rodata sub_ok f.

(** [fields] describes a static struct of [size] bytes, nested at most [n] deep;
    the default values are within [rodata]. *)
Fixpoint safe_msgb `{UserCode} (rodata : list (Z * Z)) (n : nat) (fields : list pb_field_t)
    (size : Z) : bool :=
  match n with
  | O => false
  | S n =>
      wf_fieldsb fields && (0 <=? size) &&
      forallb (safe_fieldb rodata (safe_msgb rodata n) fields size) (seq 0 (nfields fields))
  end.

(** The facts of [safe_fieldb], unbundled. *)
Record safe_field `{UserCode} (rodata : list (Z * Z)) (sub_ok : list pb_field_t -> Z -> bool)
    (fields : list pb_field_t) (size : Z) (k : nat) : Prop := {
  sf_static : PB_ATYPE (type (fld fields k)) = PB_ATYPE_STATIC;
  sf_ltype : 0 <= PB_LTYPE (type (fld fields k)) < 10;
  sf_not_ext : PB_LTYPE (type (fld fields k)) <> PB_LTYPE_EXTENSION;
  sf_off : 0 <= field_offset fields k;
  sf_ds : 0 <= data_size (fld fields k) < 2 ^ 32;
  sf_as : 0 <= array_size (fld fields k);
  sf_extent : field_offset fields k + field_extent (fld fields k) <= size;
  sf_extent32 : field_extent (fld fields k) < 2 ^ 32;
  sf_size : size_member_ok (PB_HTYPE (type (fld fields k))) (field_offset fields k)
              (size_offset_at fields k) size = true;
  sf_value : value_ok rodata sub_ok (fld fields k) = true;
}.

Lemma safe_msg_inv `{UserCode} rodata n fields size :
  safe_msgb rodata n fields size = true ->
  exists n', n = S n' /\ wf_fields fields /\ Z.of_nat (length fields) <= 2 ^ 32 /\
    forall k, (k < nfields fields)%nat ->
              safe_field rodata (safe_msgb rodata n') fields size k.
Proof.
  destruct n as [|n]; [done|]. cbn [safe_msgb]. intros [[Hwf _]%andb_prop Hf]%andb_prop.
  apply wf_fieldsb_ok in Hwf as [Hwf Hl]. exists n. split_and!; try done.
  intros k Hk. rewrite forallb_forall in Hf.
  specialize (Hf k ltac:(apply in_seq; lia)). unfold safe_fieldb in Hf.
  repeat (apply andb_prop in Hf as [Hf ?]).
  split; try done; try lia. split; [|lia]. apply Z.land_nonneg. by right.
Qed.

(** The positions an iterator can take: the fields, or the terminator of a
    message without fields, which is as safe as a field. *)
Definition npos (fields : list pb_field_t) : nat := Nat.max 1 (nfields fields).

Lemma safe_msg_at `{UserCode} rodata n fields size k :
  safe_msgb rodata (S n) fields size = true -> (k < npos fields)%nat ->
  safe_field rodata (safe_msgb rodata n) fields size k.
Proof.
  intros Hs Hk. destruct (safe_msg_inv _ _ _ _ Hs) as (n' & [= <-] & Hwf & Hl & Hf).
  destruct (decide (k < nfields fields)%nat) as [|Hge]; [by apply Hf|].
  unfold npos in Hk. assert (nfields fields = 0%nat) as E0 by lia.
  assert (k = 0%nat) as -> by lia. pose proof (fld_end _ Hwf) as Ef. rewrite E0 in Ef.
  cbn [safe_msgb] in Hs. apply andb_prop in Hs as [[_ Hsz]%andb_prop _].
  split; cbn [field_offset size_offset_at]; rewrite Ef; cbn; try done; try lia.
  change (0 + 0 <= size). lia.
Qed.

Lemma htype_cases t :
  PB_HTYPE t = PB_HTYPE_REQUIRED \/ PB_HTYPE t = PB_HTYPE_OPTIONAL \/
  PB_HTYPE t = PB_HTYPE_REPEATED \/ PB_HTYPE t = PB_HTYPE_ONEOF.
Proof.
  assert (PB_HTYPE t = Z.land (t mod 64) 0x30) as E.
  { unfold PB_HTYPE, PB_HTYPE_MASK. change 64 with (2 ^ 6).
    rewrite <- Z.land_ones, <- Z.land_assoc by lia. done. }
  assert (forall r, 0 <= r < Z.of_nat 64 -> let h := Z.land r 0x30 in
    h = 0 \/ h = 16 \/ h = 32 \/ h = 48) as H.
  { intros r Hr. rewrite <- (Z2Nat.id r) by lia.
    assert (Z.to_nat r < 64)%nat as Hlt by lia. revert Hlt. generalize (Z.to_nat r). clear.
    intros n Hn. do 64 (destruct n as [|n]; [vm_compute; auto|]). lia. }
  rewrite E. apply H. change (Z.of_nat 64) with 64. apply Z.mod_pos_bound. lia.
Qed.

(** Iterating over the fields of a message. *)
Lemma keeps_for_fields P fields dest body n : forall k w,
  wf_fields fields -> Z.of_nat (length fields) <= 2 ^ 32 ->
  (k < nfields fields)%nat -> (nfields fields <= k + n)%nat ->
  (forall j w', (j < nfields fields)%nat -> frame P w w' ->
     keeps P (body (iter_at fields dest j)) w') ->
  keeps P (for_fields n body (iter_at fields dest k)) w.
Proof.
  induction n as [|n IH]; intros k w Hwf Hlen Hk Hn Hbody; [lia|].
  cbn [for_fields]. apply keeps_bind.
  - apply Hbody; [done | reflexivity].
  - intros _ w' Hf. rewrite next_at by done.
    destruct (Nat.eqb_spec (S k) (nfields fields)); [apply keeps_ret|].
    apply IH; try done; [lia | lia |]. intros j w'' Hj Hf'. apply Hbody; [done|]. by etrans.
Qed.

(** The loop over a whole message, as the operations of the library start it. *)
Lemma keeps_message P fields dest body w :
  wf_fields fields -> Z.of_nat (length fields) <= 2 ^ 32 ->
  (forall j w', (j < nfields fields)%nat -> frame P w w' ->
     keeps P (body (iter_at fields dest j)) w') ->
  keeps P (let '(some, iter) := pb_field_iter_begin fields dest in
           if negb some then mret tt else for_fields (length fields) body iter) w.
Proof.
  intros Hwf Hlen Hbody. rewrite begin_at.
  destruct (Z.eqb_spec (tag (fld fields 0)) 0) as [E|E]; cbn [negb]; [apply keeps_ret|].
  assert (0 < nfields fields)%nat.
  { destruct (nfields fields) as [|m] eqn:En; [|lia]. exfalso. apply E.
    rewrite <- En. by rewrite fld_end. }
  apply keeps_for_fields; try done. pose proof (nfields_lt_length _ Hwf). lia.
Qed.

Section Safe.
Context `{UserCode} `{L : Libc} {HL : LibcOk L} (rodata : list (Z * Z)).

Definition rodata_ok (w : world) : Prop :=
  Forall (fun r => mapped (w_mem w) (fst r) (snd r)) rodata.

Lemma rodata_frame P w w' : rodata_ok w -> frame P w w' -> rodata_ok w'.
Proof.
  unfold rodata_ok. rewrite !Forall_forall. intros Hr Hf r Hin.
  eapply frame_mapped; [exact Hf | by apply Hr].
Qed.

Lemma in_regions_mapped w a n :
  rodata_ok w -> in_regions rodata a n = true -> mapped (w_mem w) a n.
Proof.
  intros Hr Hi. unfold in_regions in Hi. apply existsb_exists in Hi as ([b k] & Hin & Hb).
  unfold rodata_ok in Hr. rewrite Forall_forall in Hr. specialize (Hr _ Hin). cbn in Hr.
  eapply mapped_sub; [exact Hr | lia | lia].
Qed.

(** The struct at [dest] is mapped and may change. *)
Record dest_ok (P : Z -> Prop) (dest size : Z) (w : world) : Prop := {
  do_mapped : mapped (w_mem w) dest size;
  do_in : forall x, within dest size x -> P x;
}.

Lemma dest_frame P P' dest size w w' : dest_ok P dest size w -> frame P' w w' -> dest_ok P dest size w'.
Proof. intros [Hm HP] Hf. split; [|done]. by eapply frame_mapped. Qed.

Lemma dest_sub P dest size w a n :
  dest_ok P dest size w -> dest <= a -> a + n <= dest + size -> dest_ok P a n w.
Proof.
  intros [Hm HP] H1 H2. split; [by eapply mapped_sub|]. intros x Hx. apply HP.
  unfold within in *. lia.
Qed.

(** The parts of the struct a field uses. *)
Lemma extent_ge sub_ok fields size k :
  safe_field rodata sub_ok fields size k ->
  PB_HTYPE (type (fld fields k)) <> PB_HTYPE_REPEATED ->
  field_extent (fld fields k) = data_size (fld fields k).
Proof. intros _ Hh. unfold field_extent. by rewrite (proj2 (Z.eqb_neq _ _) Hh). Qed.

Lemma dest_field P sub_ok fields size dest w k :
  safe_field rodata sub_ok fields size k -> dest_ok P dest size w ->
  PB_HTYPE (type (fld fields k)) <> PB_HTYPE_REPEATED ->
  dest_ok P (dest + field_offset fields k) (data_size (fld fields k)) w.
Proof.
  intros Hs Hd Hh. pose proof (extent_ge _ _ _ _ Hs Hh). destruct Hs.
  eapply dest_sub; [exact Hd | lia | lia].
Qed.

Lemma dest_count P sub_ok fields size dest w k :
  safe_field rodata sub_ok fields size k -> dest_ok P dest size w ->
  PB_HTYPE (type (fld fields k)) = PB_HTYPE_REPEATED \/
  PB_HTYPE (type (fld fields k)) = PB_HTYPE_ONEOF ->
  dest_ok P (dest + size_offset_at fields k) 4 w.
Proof.
  intros Hs Hd Hh. destruct Hs. unfold size_member_ok in sf_size0.
  destruct Hh as [Hh|Hh]; rewrite Hh in sf_size0; cbn in sf_size0;
    (eapply dest_sub; [exact Hd | lia | lia]).
Qed.

Lemma dest_has P sub_ok fields size dest w k :
  safe_field rodata sub_ok fields size k -> dest_ok P dest size w ->
  PB_HTYPE (type (fld fields k)) = PB_HTYPE_OPTIONAL ->
  size_offset_at fields k <> field_offset fields k ->
  dest_ok P (dest + size_offset_at fields k) 1 w.
Proof.
  intros Hs Hd Hh Hne. destruct Hs. unfold size_member_ok in sf_size0.
  rewrite Hh in sf_size0. cbn in sf_size0. eapply dest_sub; [exact Hd | lia | lia].
Qed.

(** ** Default values *)

Definition defaults_keep (m d : nat) : Prop :=
  forall fields size dest w P,
  safe_msgb rodata d fields size = true -> dest_ok P dest size w -> rodata_ok w ->
  keeps P (pb_message_set_to_defaults (pb_field_set_to_default m) fields dest) w.

(** Writing the initial value of a static field that is not a submessage. *)
Lemma keeps_init_value P f a w sub_ok :
  PB_LTYPE (type f) <> PB_LTYPE_SUBMESSAGE -> value_ok rodata sub_ok f = true ->
  0 <= data_size f -> dest_ok P a (data_size f) w -> rodata_ok w ->
  keeps P (if negb (ptr f =? 0) then copy_bytes a (ptr f) (Z.to_nat (data_size f))
           else memset a x00 (data_size f)) w.
Proof.
  intros Hl Hv Hds [Hm HP] Hr. unfold value_ok in Hv.
  rewrite (proj2 (Z.eqb_neq _ _) Hl) in Hv. apply andb_prop in Hv as [_ Hv].
  destruct (Z.eqb_spec (ptr f) 0); cbn [negb orb] in *.
  - by apply keeps_memset.
  - pose proof (in_regions_mapped _ _ _ Hr Hv) as Hsrc.
    apply (wp_copy_bytes P); rewrite ?Z2Nat.id by done; auto.
Qed.

(** A submessage field of a safe message. *)
Lemma safe_sub d f :
  PB_LTYPE (type f) = PB_LTYPE_SUBMESSAGE -> value_ok rodata (safe_msgb rodata d) f = true ->
  ptr f <> 0 /\ exists sub, image (ptr f) = Some sub /\
                            safe_msgb rodata d sub (data_size f) = true.
Proof.
  intros Hl Hv. unfold value_ok in Hv. rewrite Hl, Z.eqb_refl in Hv.
  apply andb_prop in Hv as [H0 Hv]. split; [lia|].
  destruct (image (ptr f)) as [sub|]; [|done]. eauto.
Qed.

Lemma wp_get_fields p sub (w : world) Q : image p = Some sub -> Q sub w -> wp (get_fields p) w Q.
Proof. intros E HQ. unfold get_fields. by rewrite E. Qed.

Lemma keeps_set_default_field m d fields size dest k w P :
  defaults_keep m d ->
  safe_field rodata (safe_msgb rodata d) fields size k ->
  dest_ok P dest size w -> rodata_ok w ->
  keeps P (pb_field_set_to_default (S m) (iter_at fields dest k)) w.
Proof.
  intros Hrec Hs Hd Hr. cbn [pb_field_set_to_default]. rewrite cur_at.
  cbn [pData pSize iter_at].
  rewrite (proj2 (Z.eqb_neq _ _) (sf_not_ext _ _ _ _ _ Hs)), (sf_static _ _ _ _ _ Hs).
  rewrite Z.eqb_refl. set (f := fld fields k) in *. set (pd := dest + field_offset fields k).
  set (ps := dest + size_offset_at fields k).
  assert (forall w', PB_HTYPE (type f) <> PB_HTYPE_REPEATED -> frame P w w' ->
    keeps P (if PB_LTYPE (type f) =? PB_LTYPE_SUBMESSAGE then
               sub ← get_fields (ptr f);
               pb_message_set_to_defaults (pb_field_set_to_default m) sub pd
             else if negb (ptr f =? 0) then
               copy_bytes pd (ptr f) (Z.to_nat (data_size f))
             else memset pd x00 (data_size f)) w') as Hval.
  { intros w' Hh Hf.
    pose proof (dest_frame _ _ _ _ _ _ (dest_field _ _ _ _ _ _ _ Hs Hd Hh) Hf) as Hfd.
    pose proof (rodata_frame _ _ _ Hr Hf) as Hr'.
    destruct (Z.eqb_spec (PB_LTYPE (type f)) PB_LTYPE_SUBMESSAGE) as [El|El].
    - destruct (safe_sub d f El (sf_value _ _ _ _ _ Hs)) as (_ & sub & Ei & Hsub).
      apply wp_bind. eapply wp_get_fields; [exact Ei|].
      by eapply Hrec.
    - eapply keeps_init_value; try done; [apply (sf_value _ _ _ _ _ Hs)|].
      apply (sf_ds _ _ _ _ _ Hs). }
  apply (keeps_bind_R (fun b : bool => b = true -> PB_HTYPE (type f) <> PB_HTYPE_REPEATED)).
  - destruct (htype_cases (type f)) as [Eh|[Eh|[Eh|Eh]]]; rewrite Eh; eqbs.
    + apply wp_ret. split; [done | reflexivity].
    + destruct (Z.eqb_spec ps pd) as [E|E]; cbn [negb].
      * apply wp_ret. split; [done | reflexivity].
      * destruct (dest_has _ _ _ _ _ _ _ Hs Hd Eh ltac:(lia)) as [Hm HP].
        apply wp_bind. eapply wp_mono; [apply (keeps_store8 P); [exact Hm|]|].
        -- apply HP. unfold within. lia.
        -- intros ? w' Hf. by apply wp_ret.
    + destruct (dest_count _ _ _ _ _ _ _ Hs Hd ltac:(auto)) as [Hm HP].
      apply wp_bind. eapply wp_mono; [apply (keeps_store_uint P); [exact Hm | exact HP]|].
      intros ? w' Hf. by apply wp_ret.
    + destruct (dest_count _ _ _ _ _ _ _ Hs Hd ltac:(auto)) as [Hm HP].
      apply wp_bind. eapply wp_mono; [apply (keeps_store_uint P); [exact Hm | exact HP]|].
      intros ? w' Hf. by apply wp_ret.
  - intros b w' Hb Hf. destruct b; [|apply keeps_ret]. by apply Hval; [apply Hb|].
Qed.

Lemma keeps_defaults m d : (d <= m)%nat -> defaults_keep m d.
Proof.
  revert d; induction m as [|m IH]; intros d Hd fields size dest w P Hs Hdest Hr;
    destruct (safe_msg_inv _ _ _ _ Hs) as (d' & -> & Hwf & Hl & Hf); [lia|].
  unfold pb_message_set_to_defaults. apply keeps_message; [done | done |].
  intros j w' Hj Hfr. eapply keeps_set_default_field.
  - apply (IH d'). lia.
  - by apply Hf.
  - by eapply dest_frame.
  - by eapply rodata_frame.
Qed.

(** ** Release: a static message owns nothing, but its counts are read *)

Definition release_keeps (m d : nat) : Prop :=
  forall fields size dest w P,
  safe_msgb rodata d fields size = true -> dest_ok P dest size w ->
  keeps P (pb_release (pb_release_single_field m) fields dest) w.

Lemma keeps_for_items P body step k : forall p w,
  (forall i w', 0 <= i < Z.of_nat k -> frame P w w' -> keeps P (body (p + i * step)) w') ->
  keeps P (for_items k body step p) w.
Proof.
  induction k as [|k IH]; intros p w Hb; cbn [for_items]; [apply keeps_ret|].
  apply keeps_bind.
  - specialize (Hb 0 w ltac:(lia)). rewrite Z.mul_0_l, Z.add_0_r in Hb. by apply Hb.
  - intros _ w' Hf. apply IH. intros i w'' Hi Hf'.
    replace (p + step + i * step) with (p + (i + 1) * step) by lia.
    apply Hb; [lia|]. by etrans.
Qed.

(** The number of submessages a static field releases is within its array. *)
Lemma wp_release_count fields size dest k w P sub_ok (f := fld fields k) Q :
  safe_field rodata sub_ok fields size k -> dest_ok P dest size w ->
  (forall count, 0 <= count -> PB_LTYPE (type f) = PB_LTYPE (type f) ->
     count * data_size f <= field_extent f -> Q count w) ->
  wp (if PB_HTYPE (type f) =? PB_HTYPE_REPEATED then
        count ← (if (PB_ATYPE (type f) =? PB_ATYPE_STATIC) &&
                    (dest + size_offset_at fields k =? dest + field_offset fields k)
                 then mret (array_size f)
                 else load_uint sizeof_pb_size_t (dest + size_offset_at fields k));
        mret (if (PB_ATYPE (type f) =? PB_ATYPE_STATIC) && (count >? array_size f)
              then array_size f else count)
      else mret 1) w Q.
Proof.
  intros Hs Hd HQ. destruct (Z.eqb_spec (PB_HTYPE (type f)) PB_HTYPE_REPEATED) as [Eh|Eh].
  - pose proof (sf_as _ _ _ _ _ Hs) as Has. pose proof (sf_ds _ _ _ _ _ Hs) as Hds.
    fold f in Has, Hds.
    assert (field_extent f = data_size f * array_size f) as Ee.
    { unfold field_extent. by rewrite Eh. }
    rewrite (sf_static _ _ _ _ _ Hs : PB_ATYPE (type f) = _), Z.eqb_refl. cbn [andb].
    assert (forall c, 0 <= c -> Q (if c >? array_size f then array_size f else c) w) as Hend.
    { intros c Hc. destruct (Z.gtb_spec c (array_size f)); apply HQ; try done.
      - rewrite Ee. lia.
      - rewrite Ee, (Z.mul_comm c). apply Z.mul_le_mono_nonneg_l; lia. }
    apply wp_bind. destruct (_ =? _); [apply wp_ret, wp_ret, Hend; lia|].
    apply wp_load_uint; [apply (dest_count _ _ _ _ _ _ _ Hs Hd); auto|].
    intros v Hv. apply wp_ret, Hend. lia.
  - apply wp_ret, HQ; [lia | done |]. unfold field_extent.
    rewrite (proj2 (Z.eqb_neq _ _) Eh). lia.
Qed.

Lemma keeps_release_field m d fields size dest k w P :
  release_keeps m d ->
  safe_field rodata (safe_msgb rodata d) fields size k ->
  dest_ok P dest size w ->
  keeps P (pb_release_single_field (S m) (iter_at fields dest k)) w.
Proof.
  intros Hrec Hs Hd. cbn [pb_release_single_field]. rewrite cur_at.
  cbn [pData pSize iter_at].
  rewrite (proj2 (Z.eqb_neq _ _) (sf_not_ext _ _ _ _ _ Hs)).
  pose proof (sf_static _ _ _ _ _ Hs) as Hst.
  apply keeps_bind.
  { destruct (Z.eqb_spec (PB_HTYPE (type (fld fields k))) PB_HTYPE_ONEOF); [|apply keeps_ret].
    apply keeps_load_uint; [|intros; apply keeps_ret].
    apply (dest_count _ _ _ _ _ _ _ Hs Hd). auto. }
  intros current w1 Hf1. destruct current; cbn [negb]; [|apply keeps_ret].
  pose proof (dest_frame _ _ _ _ _ _ Hd Hf1) as Hd1.
  apply keeps_bind.
  2: { intros _u w2 Hf2. rewrite Hst. eqbs. apply keeps_ret. }
  destruct (Z.eqb_spec (PB_LTYPE (type (fld fields k))) PB_LTYPE_SUBMESSAGE) as [El|El];
    [|apply keeps_ret].
  rewrite Hst at 1. eqbs. apply keeps_bind_R with (R := fun p => p = dest + field_offset fields k).
  { apply wp_ret. split; [done | reflexivity]. }
  intros p w2 -> Hf2. pose proof (dest_frame _ _ _ _ _ _ Hd1 Hf2) as Hd2.
  apply wp_bind, (wp_release_count _ _ _ _ _ _ _ _ Hs Hd2). intros count Hc _ Hle.
  destruct (_ =? 0); [apply keeps_ret|]. apply keeps_for_items. intros i w3 Hi Hf3.
  destruct (safe_sub d _ El (sf_value _ _ _ _ _ Hs)) as (_ & sub & Ei & Hsub).
  apply wp_bind. eapply wp_get_fields; [exact Ei|]. eapply Hrec; [exact Hsub|].
  pose proof (dest_frame _ _ _ _ _ _ Hd2 Hf3) as Hd3.
  pose proof (sf_off _ _ _ _ _ Hs). pose proof (sf_extent _ _ _ _ _ Hs).
  pose proof (sf_ds _ _ _ _ _ Hs).
  assert ((i + 1) * data_size (fld fields k) <= count * data_size (fld fields k)) by
    (apply Z.mul_le_mono_nonneg_r; lia).
  assert (0 <= i * data_size (fld fields k)) by (apply Z.mul_nonneg_nonneg; lia).
  eapply dest_sub; [exact Hd3 | lia | lia].
Qed.

Lemma keeps_release m d : (d <= m)%nat -> release_keeps m d.
Proof.
  revert d; induction m as [|m IH]; intros d Hd fields size dest w P Hs Hdest;
    destruct (safe_msg_inv _ _ _ _ Hs) as (d' & -> & Hwf & Hl & Hf); [lia|].
  unfold pb_release. destruct (dest =? 0); [apply keeps_ret|].
  apply keeps_message; [done | done |]. intros j w' Hj Hfr. eapply keeps_release_field.
  - apply (IH d'). lia.
  - by apply Hf.
  - by eapply dest_frame.
Qed.

(** ** Operations that read the stream

    [QS P s w] is the postcondition of a decoding step started on stream [s]
    in world [w]: the stream it returns is within [s], and only [P] changed. *)

Definition QS (P : Z -> Prop) (s : pb_istream_t) (w : world)
    (r : bool * pb_istream_t) (w' : world) : Prop :=
  sub_of (snd r) s /\ frame P w w'.

Lemma QS_ret P ok s' s w : sub_of s' s -> wp (mret (ok, s')) w (QS P s w).
Proof. intros Hs. apply wp_ret. split; [done | reflexivity]. Qed.

Lemma QS_error P s' s w msg : sub_of s' s -> wp (i_error s' msg) w (QS P s w).
Proof. intros Hs. apply QS_ret. etrans; [apply sub_of_err | done]. Qed.

Lemma QS_from P s s1 (m : M (bool * pb_istream_t)) w w1 :
  sub_of s1 s -> frame P w w1 -> wp m w1 (QS P s1 w1) -> wp m w1 (QS P s w).
Proof.
  intros Hs Hf Hm. eapply wp_mono; [exact Hm|]. intros r w2 [Hs' Hf']. split; by etrans.
Qed.

Lemma QS_bind P s (m : M (bool * pb_istream_t)) (k : bool * pb_istream_t -> M (bool * pb_istream_t)) w :
  wp m w (QS P s w) ->
  (forall ok s' w', sub_of s' s -> frame P w w' -> wp (k (ok, s')) w' (QS P s' w')) ->
  wp (m ≫= k) w (QS P s w).
Proof.
  intros Hm Hk. apply wp_bind. eapply wp_mono; [exact Hm|]. intros [ok s'] w' [Hs Hf].
  eapply QS_from; [exact Hs | exact Hf | by apply Hk].
Qed.

Lemma QS_keeps {A} P s (m : M A) (k : A -> M (bool * pb_istream_t)) w :
  keeps P m w ->
  (forall a w', frame P w w' -> wp (k a) w' (QS P s w')) -> wp (m ≫= k) w (QS P s w).
Proof.
  intros Hm Hk. apply wp_bind. eapply wp_mono; [exact Hm|]. intros a w' Hf.
  eapply QS_from; [reflexivity | exact Hf | by apply Hk].
Qed.

Definition rec_safe (rec : decode_fn) (d : nat) : Prop :=
  forall fields size dest s w P,
  safe_msgb rodata d fields size = true -> rd w s -> dest_ok P dest size w ->
  rodata_ok w -> wp (rec s fields dest) w (QS P s w).

Lemma wp_pb_decode_of rec n d :
  rec_safe rec d -> (d <= n)%nat -> rec_safe (pb_decode_of rec n) d.
Proof.
  intros Hrec Hn fields size dest s w P Hs Hrd Hd Hr. unfold pb_decode_of.
  apply QS_keeps; [by eapply keeps_defaults|]. intros _u w1 Hf1.
  apply QS_bind.
  - eapply Hrec; [exact Hs | by eapply rd_frame | by eapply dest_frame | by eapply rodata_frame].
  - intros ok s' w2 Hs2 Hf2. apply QS_keeps; [|intros; by apply QS_ret].
    destruct ok; [apply keeps_ret|]. eapply keeps_release; [exact Hn | exact Hs |].
    eapply dest_frame; [by eapply dest_frame | exact Hf2].
Qed.

(** *** Value decoders

    A packed array is decoded item by item until its bytes are used up: the
    scalar decoders take at least one byte when they succeed. *)

Definition QC (P : Z -> Prop) (s : pb_istream_t) (w : world)
    (r : bool * pb_istream_t) (w' : world) : Prop :=
  QS P s w r w' /\ (fst r = true -> bytes_left (snd r) < bytes_left s).

Lemma QS_QC P s w (m : M (bool * pb_istream_t)) : wp m w (QC P s w) -> wp m w (QS P s w).
Proof. intros Hm. eapply wp_mono; [exact Hm | by intros r w' []]. Qed.

Lemma QC_error P s' s w msg : sub_of s' s -> wp (i_error s' msg) w (QC P s w).
Proof. intros Hs. apply wp_ret. split; [|done]. split; [|reflexivity]. etrans; [apply sub_of_err | done]. Qed.

Lemma QC_fail P s' s w : sub_of s' s -> wp (mret (false, s')) w (QC P s w).
Proof. intros Hs. apply wp_ret. split; [|done]. by split. Qed.

Lemma QC_keeps P s s' (m : M unit) w :
  sub_of s' s -> bytes_left s' < bytes_left s -> keeps P m w ->
  wp (m ;; mret (true, s')) w (QC P s w).
Proof.
  intros Hs Hl Hm. apply wp_bind. eapply wp_mono; [exact Hm|]. intros _u w' Hf.
  apply wp_ret. by split.
Qed.

Lemma wp_store_clamped P s0 s size cast dest v w :
  sub_of s s0 -> bytes_left s < bytes_left s0 -> dest_ok P dest (Z.of_nat size) w ->
  wp (store_clamped s size cast dest v) w (QC P s0 w).
Proof.
  intros Hs Hl [Hm HP]. unfold store_clamped. apply wp_bind.
  eapply wp_mono; [by apply (keeps_store_uint P)|].
  intros _u w' Hf. split_if; apply wp_ret; (split; [split; [|done]|]); try done.
  etrans; [apply sub_of_err | done].
Qed.

(** The integer decoders store at most [data_size] bytes. *)
Lemma wp_int_decoders P s f dest w :
  rd w s -> dest_ok P dest (data_size f) w ->
  wp (pb_dec_varint s f dest) w (QC P s w) /\ wp (pb_dec_uvarint s f dest) w (QC P s w) /\
  wp (pb_dec_svarint s f dest) w (QC P s w).
Proof.
  intros Hrd Hd. split_and!; unfold pb_dec_varint, pb_dec_uvarint, pb_dec_svarint;
    apply wp_bind;
    (apply wp_pb_decode_varint || apply wp_pb_decode_svarint); try done;
    intros ok v s' Hs Hl; (destruct ok; cbn [negb]; [|by apply QC_fail]);
    repeat match goal with
    | |- context [data_size f =? ?n] => destruct (Z.eqb_spec (data_size f) n) as [Ed|_]
    end;
    try (apply wp_store_clamped; [done | by apply Hl | rewrite Ed in Hd; exact Hd]);
    by apply QC_error.
Qed.

Lemma wp_fixed_decoders P s dest w :
  rd w s ->
  (dest_ok P dest 4 w -> wp (pb_decode_fixed32 s dest) w (QC P s w)) /\
  (dest_ok P dest 8 w -> wp (pb_decode_fixed64 s dest) w (QC P s w)).
Proof.
  intros Hrd. split; intros [Hm HP]; unfold pb_decode_fixed32, pb_decode_fixed64;
    apply wp_bind, wp_pb_read_local; try done; intros ok bs s' Hs Hl;
    (destruct ok; cbn [negb]; [|by apply QC_fail]);
    specialize (Hl eq_refl) as [_ Hl];
    (apply QC_keeps; [done | lia | by apply keeps_store_uint]).
Qed.

Lemma wp_pb_dec_bytes P s f dest w :
  PB_ATYPE (type f) = PB_ATYPE_STATIC -> data_size f < 2 ^ 32 ->
  rd w s -> dest_ok P dest (data_size f) w -> wp (pb_dec_bytes s f dest) w (QS P s w).
Proof.
  intros Ha Hds Hrd Hd. unfold pb_dec_bytes. apply wp_bind, wp_pb_decode_varint32; [done|].
  intros ok v s' Hs Hv _. destruct ok; cbn [negb]; [|by apply QS_ret].
  unfold is_u32 in Hv. unfold PB_BYTES_ARRAY_T_ALLOCSIZE, offsetof_bytes.
  rewrite u64_small by lia.
  destruct (v >? PB_SIZE_MAX); [by apply QS_error|].
  destruct (Z.gtb_spec v (v + 4)); [lia|]. rewrite Ha. eqbs.
  destruct (Z.gtb_spec (v + 4) (data_size f)).
  - apply wp_bind, wp_bind, wp_ret, wp_ret, QS_ret. etrans; [apply sub_of_err | done].
  - apply wp_bind, wp_ret. destruct (dest_sub _ _ _ _ dest 4 Hd) as [Hm HP]; [lia | lia |].
    eapply QS_from; [exact Hs | reflexivity |].
    apply QS_keeps; [by apply keeps_store_uint|]. intros _u w1 Hf.
    destruct (dest_sub _ _ _ _ (dest + 4) v (dest_frame _ _ _ _ _ _ Hd Hf)) as [Hm' HP'];
      [lia | lia |].
    apply (wp_pb_read_mem P); try done; try lia.
    eapply rd_frame; [|exact Hf]. by eapply rd_sub.
Qed.

Lemma wp_pb_dec_string P s f dest w :
  PB_ATYPE (type f) = PB_ATYPE_STATIC -> data_size f < 2 ^ 32 ->
  rd w s -> dest_ok P dest (data_size f) w -> wp (pb_dec_string s f dest) w (QS P s w).
Proof.
  intros Ha Hds Hrd Hd. unfold pb_dec_string. apply wp_bind, wp_pb_decode_varint32; [done|].
  intros ok v s' Hs Hv _. destruct ok; cbn [negb]; [|by apply QS_ret].
  unfold is_u32 in Hv. destruct (Z.ltb_spec (u32 (v + 1)) v); [by apply QS_error|].
  assert (u32 (v + 1) = v + 1) as E.
  { destruct (Z.eq_dec v (2 ^ 32 - 1)) as [->|]; [|apply u32_small; lia].
    change (u32 (2 ^ 32 - 1 + 1)) with 0 in *. lia. }
  rewrite E, Ha. eqbs. destruct (Z.gtb_spec (v + 1) (data_size f)).
  - apply wp_bind, wp_bind, wp_ret, wp_ret, QS_ret. etrans; [apply sub_of_err | done].
  - apply wp_bind, wp_ret. destruct (dest_sub _ _ _ _ dest v Hd) as [Hm HP]; [lia | lia |].
    eapply QS_from; [exact Hs | reflexivity |].
    apply QS_bind.
    + apply (wp_pb_read_mem P); try done; try lia. by eapply rd_sub.
    + intros ok s'' w1 Hs' Hf.
      destruct (dest_sub _ _ _ _ (dest + v) 1 (dest_frame _ _ _ _ _ _ Hd Hf)) as [Hm' HP'];
        [lia | lia |].
      apply QS_keeps; [|intros; by apply QS_ret]. apply keeps_store8; [done|].
      apply HP'. unfold within. lia.
Qed.

Lemma wp_pb_dec_fixed_length_bytes P s f dest w :
  0 <= data_size f ->
  rd w s -> dest_ok P dest (data_size f) w ->
  wp (pb_dec_fixed_length_bytes s f dest) w (QS P s w).
Proof.
  intros Hds Hrd [Hm HP]. unfold pb_dec_fixed_length_bytes.
  apply wp_bind, wp_pb_decode_varint32; [done|].
  intros ok v s' Hs Hv _. destruct ok; cbn [negb]; [|by apply QS_ret].
  destruct (v >? PB_SIZE_MAX); [by apply QS_error|].
  destruct (v =? 0).
  - apply QS_keeps; [by apply keeps_memset | intros; by apply QS_ret].
  - destruct (v =? data_size f); cbn [negb]; [|by apply QS_error].
    eapply QS_from; [exact Hs | reflexivity |].
    apply (wp_pb_read_mem P); try done. by eapply rd_sub.
Qed.

Lemma wp_pb_dec_submessage rec n d P s f dest w :
  rec_safe rec d -> (d <= n)%nat ->
  PB_LTYPE (type f) = PB_LTYPE_SUBMESSAGE -> value_ok rodata (safe_msgb rodata d) f = true ->
  rd w s -> dest_ok P dest (data_size f) w -> rodata_ok w ->
  wp (pb_dec_submessage rec n s f dest) w (QS P s w).
Proof.
  intros Hrec Hn El Hv Hrd Hd Hr. unfold pb_dec_submessage.
  apply wp_bind, wp_pb_make_string_substream; [done | intros; by apply QS_ret|].
  intros s1 sub Hsp. cbn [negb]. destruct (safe_sub d f El Hv) as (Hp & sf & Ei & Hsub).
  rewrite (proj2 (Z.eqb_neq _ _) Hp). apply wp_bind. eapply wp_get_fields; [exact Ei|].
  pose proof (rd_sub _ _ _ Hrd (sp_sub _ _ _ Hsp)) as Hrds.
  apply wp_bind. eapply wp_mono with (Q := QS P sub w).
  { destruct (_ =? _); [by apply (wp_pb_decode_of rec n d Hrec Hn _ (data_size f)) | by apply Hrec with (size := data_size f)]. }
  intros [ok sub'] w' [Hs' Hf]. cbn [fst snd] in *.
  apply wp_bind. eapply (wp_pb_close_string_substream s); [done | by eapply rd_frame | done |].
  intros ok' s' Hs2. destruct ok'; cbn [negb]; apply wp_ret; by split.
Qed.

(** The entry of PB_DECODERS for a safe value; the packable types also take
    at least one byte. *)
Lemma wp_call_decoder rec n d f :
  rec_safe rec d -> (d <= n)%nat ->
  PB_ATYPE (type f) = PB_ATYPE_STATIC -> 0 <= PB_LTYPE (type f) < 10 ->
  PB_LTYPE (type f) <> PB_LTYPE_EXTENSION -> 0 <= data_size f < 2 ^ 32 ->
  value_ok rodata (safe_msgb rodata d) f = true ->
  exists func, PB_DECODERS !! Z.to_nat (PB_LTYPE (type f)) = Some func /\
    forall P s dest w, rd w s -> dest_ok P dest (data_size f) w -> rodata_ok w ->
    wp (call_decoder rec n func s f dest) w (QS P s w) /\
    (PB_LTYPE (type f) <= PB_LTYPE_LAST_PACKABLE ->
     wp (call_decoder rec n func s f dest) w (QC P s w)).
Proof.
  intros Hrec Hn Ha Hl Hext Hds Hv.
  assert (forall P s w (m : M (bool * pb_istream_t)), wp m w (QC P s w) ->
    wp m w (QS P s w) /\ (PB_LTYPE (type f) <= PB_LTYPE_LAST_PACKABLE -> wp m w (QC P s w)))
    as Hc. { intros P s w m Hm. split; [by apply QS_QC | done]. }
  assert (PB_LTYPE (type f) = 0 \/ PB_LTYPE (type f) = 1 \/ PB_LTYPE (type f) = 2 \/
    PB_LTYPE (type f) = 3 \/ PB_LTYPE (type f) = 4 \/ PB_LTYPE (type f) = 5 \/
    PB_LTYPE (type f) = 6 \/ PB_LTYPE (type f) = 7 \/ PB_LTYPE (type f) = 9) as Hcases.
  { unfold PB_LTYPE_EXTENSION in Hext. lia. }
  pose proof Hv as Hv'. unfold value_ok in Hv'.
  assert (forall P s w (m : M (bool * pb_istream_t)), wp m w (QS P s w) ->
    PB_LTYPE (type f) > PB_LTYPE_LAST_PACKABLE ->
    wp m w (QS P s w) /\ (PB_LTYPE (type f) <= PB_LTYPE_LAST_PACKABLE -> wp m w (QC P s w)))
    as Hnc. { intros P s w m Hm Hgt. split; [done | lia]. }
  destruct Hcases as [El|[El|[El|[El|[El|[El|[El|[El|El]]]]]]]]; rewrite El in *;
    (eexists; split; [reflexivity|]); intros P s dest w Hrd Hd Hr; cbn [call_decoder].
  - exact (Hc _ _ _ _ (proj1 (wp_int_decoders P s f dest w Hrd Hd))).
  - exact (Hc _ _ _ _ (proj1 (proj2 (wp_int_decoders P s f dest w Hrd Hd)))).
  - exact (Hc _ _ _ _ (proj2 (proj2 (wp_int_decoders P s f dest w Hrd Hd)))).
  - apply Hc. unfold pb_dec_fixed32. apply (proj1 (wp_fixed_decoders P s dest w Hrd)).
    cbn in Hv'. eapply dest_sub; [exact Hd | lia | lia].
  - apply Hc. unfold pb_dec_fixed64. apply (proj2 (wp_fixed_decoders P s dest w Hrd)).
    cbn in Hv'. eapply dest_sub; [exact Hd | lia | lia].
  - apply Hnc; [apply wp_pb_dec_bytes; done || lia | done].
  - apply Hnc; [apply wp_pb_dec_string; done || lia | done].
  - apply Hnc; [by apply (wp_pb_dec_submessage rec n d) | done].
  - apply Hnc; [apply wp_pb_dec_fixed_length_bytes; done || lia | done].
Qed.

(** *** Static fields *)

Lemma item_ok P pd f i w :
  0 <= data_size f -> data_size f * array_size f < 2 ^ 32 -> 0 <= i < array_size f ->
  dest_ok P pd (data_size f * array_size f) w ->
  dest_ok P (pd + u32 (data_size f * i)) (data_size f) w.
Proof.
  intros Hds Hlt Hi Hd.
  assert (data_size f * (i + 1) <= data_size f * array_size f) by
    (apply Z.mul_le_mono_nonneg_l; lia).
  assert (0 <= data_size f * i) by (apply Z.mul_nonneg_nonneg; lia).
  rewrite u32_small by lia. eapply dest_sub; [exact Hd | lia | lia].
Qed.

Lemma wp_packed_loop P f pd ps call k : forall s w,
  0 <= data_size f -> data_size f * array_size f < 2 ^ 32 ->
  (forall s a w, rd w s -> dest_ok P a (data_size f) w -> rodata_ok w ->
                 wp (call s a) w (QC P s w)) ->
  rd w s -> bytes_left s < Z.of_nat k -> dest_ok P pd (data_size f * array_size f) w ->
  dest_ok P ps 4 w -> rodata_ok w ->
  wp (packed_loop k call f pd ps s) w (QS P s w).
Proof.
  induction k as [|k IH]; intros s w Hds Hlt Hcall Hrd Hk Hpd Hps Hr;
    [destruct Hrd; lia|]. cbn [packed_loop].
  destruct (bytes_left s >? 0); cbn [negb]; [|by apply QS_ret].
  apply wp_bind, wp_load_uint; [apply Hps|]. intros c Hc.
  destruct (Z.ltb_spec c (array_size f)); cbn [negb]; [|by apply QS_ret].
  apply wp_bind. eapply wp_mono.
  { apply Hcall; [done | by apply item_ok; [..|lia|] | done]. }
  intros [ok s'] w' [[Hs Hf] Hl]. cbn [fst snd] in *.
  eapply QS_from; [exact Hs | exact Hf |]. destruct ok; cbn [negb]; [|by apply QS_ret].
  specialize (Hl eq_refl). pose proof (dest_frame _ _ _ _ _ _ Hps Hf) as Hps'.
  apply wp_bind, wp_load_uint; [apply Hps'|]. intros c' _.
  apply QS_keeps; [apply keeps_store_uint; apply Hps'|]. intros _u w2 Hf2.
  pose proof (frame_trans _ _ _ _ Hf Hf2) as Hf3.
  apply IH; [exact Hds | exact Hlt | exact Hcall | | lia | | | ].
  - exact (rd_frame _ _ _ _ (rd_sub _ _ _ Hrd Hs) Hf3).
  - exact (dest_frame _ _ _ _ _ _ Hpd Hf3).
  - exact (dest_frame _ _ _ _ _ _ Hps Hf3).
  - exact (rodata_frame _ _ _ Hr Hf3).
Qed.

(** The iterator of the decoding loop stands at field [k]; for an array without
    a count member its [pSize] may point to a count elsewhere. *)
Definition iter_ok (P : Z -> Prop) fields dest (k : nat) (w : world) (it : pb_field_iter_t)
  : Prop :=
  it = iter_at fields dest k \/
  PB_HTYPE (type (fld fields k)) = PB_HTYPE_REPEATED /\
  exists a, it = set_pSize (iter_at fields dest k) a /\ dest_ok P a 4 w.

Lemma iter_ok_frame P P' fields dest k w w' it :
  iter_ok P fields dest k w it -> frame P' w w' -> iter_ok P fields dest k w' it.
Proof.
  intros [->|(Hh & a & -> & Ha)] Hf; [by left|]. right. split; [done|].
  exists a. split; [done | by eapply dest_frame].
Qed.

Lemma iter_ok_cur P fields dest k w it :
  iter_ok P fields dest k w it ->
  cur it = fld fields k /\ pData it = dest + field_offset fields k /\ start it = fields /\
  (PB_HTYPE (type (fld fields k)) <> PB_HTYPE_REPEATED -> it = iter_at fields dest k).
Proof. by intros [->|(Hh & a & -> & Ha)]. Qed.

Lemma iter_ok_count P sub_ok fields size dest k w it :
  safe_field rodata sub_ok fields size k -> dest_ok P dest size w ->
  iter_ok P fields dest k w it ->
  PB_HTYPE (type (fld fields k)) = PB_HTYPE_REPEATED -> dest_ok P (pSize it) 4 w.
Proof.
  intros Hs Hd [->|(Hh & a & -> & Ha)] Hrep; [|done].
  eapply dest_count; eauto.
Qed.

Lemma dest_array P sub_ok fields size dest w k (f := fld fields k) :
  safe_field rodata sub_ok fields size k -> dest_ok P dest size w ->
  PB_HTYPE (type f) = PB_HTYPE_REPEATED ->
  data_size f * array_size f < 2 ^ 32 /\
  dest_ok P (dest + field_offset fields k) (data_size f * array_size f) w.
Proof.
  intros Hs Hd Hh. pose proof (sf_extent32 _ _ _ _ _ Hs) as H32.
  pose proof (sf_extent _ _ _ _ _ Hs) as He. pose proof (sf_off _ _ _ _ _ Hs).
  unfold field_extent in *. fold f in H32, He. rewrite Hh in H32, He. cbn in H32, He.
  split; [done|]. eapply dest_sub; [exact Hd | lia | lia].
Qed.

(** The array branch of a static field. *)
Lemma wp_static_array P f pd ps call s wt w :
  0 <= data_size f -> data_size f * array_size f < 2 ^ 32 ->
  (forall s a w, rd w s -> dest_ok P a (data_size f) w -> rodata_ok w ->
     wp (call s a) w (QS P s w) /\
     (PB_LTYPE (type f) <= PB_LTYPE_LAST_PACKABLE -> wp (call s a) w (QC P s w))) ->
  rd w s -> dest_ok P pd (data_size f * array_size f) w ->
  dest_ok P ps 4 w -> rodata_ok w ->
  wp (if (wt =? PB_WT_STRING) && (PB_LTYPE (type f) <=? PB_LTYPE_LAST_PACKABLE) then
        '(ok, stream, substream) ← pb_make_string_substream s;
        if negb ok then mret (false, stream)
        else
          '(status, substream) ←
            packed_loop (S (Z.to_nat (bytes_left substream))) call f pd ps substream;
          if negb (bytes_left substream =? 0) then i_error stream "array overflow"
          else
            '(ok, stream) ← pb_close_string_substream stream substream;
            if negb ok then mret (false, stream) else mret (status, stream)
      else
        size ← load_uint sizeof_pb_size_t ps;
        let pItem := pd + u32 (data_size f * size) in
        store_uint sizeof_pb_size_t ps (u32 (size + 1));;
        if size >=? array_size f then i_error s "array overflow"
        else call s pItem) w (QS P s w).
Proof.
  intros Hds Hlt Hcall Hrd Hpd Hps Hr. destruct (_ && _) eqn:E.
  - apply andb_prop in E as [_ El]. apply Z.leb_le in El.
    apply wp_bind, wp_pb_make_string_substream; [done | intros; by apply QS_ret|].
    intros s1 sub Hsp. cbn [negb]. pose proof (rd_sub _ _ _ Hrd (sp_sub _ _ _ Hsp)) as Hrds.
    apply wp_bind. eapply wp_mono.
    { apply (wp_packed_loop P); try done; [|destruct Hrds; lia].
      intros s' a w' H1 H2 H3. by apply Hcall. }
    intros [ok sub'] w' [Hs' Hf]. cbn [fst snd] in *.
    eapply QS_from; [reflexivity | exact Hf|].
    destruct (_ =? 0); cbn [negb]; [|by apply QS_error; apply Hsp].
    apply wp_bind, (wp_pb_close_string_substream s _ sub); [done | by eapply rd_frame | done|].
    intros ok' s' Hs2. by destruct ok'; cbn [negb]; apply QS_ret.
  - apply wp_bind, wp_load_uint; [apply Hps|]. intros c Hc. cbv zeta.
    apply QS_keeps; [by apply keeps_store_uint; apply Hps|]. intros _u w' Hf.
    destruct (Z.geb_spec c (array_size f)); [by apply QS_error|].
    apply Hcall; [by eapply rd_frame | | by eapply rodata_frame].
    eapply dest_frame; [|exact Hf]. apply item_ok; [done | done | lia | done].
Qed.

Lemma wp_decode_static_field rec n d P fields size dest s wt it k w :
  rec_safe rec d -> (d <= n)%nat ->
  safe_field rodata (safe_msgb rodata d) fields size k ->
  iter_ok P fields dest k w it -> rd w s -> dest_ok P dest size w -> rodata_ok w ->
  wp (decode_static_field rec n s wt it) w (QS P s w).
Proof.
  intros Hrec Hn Hs Hit Hrd Hd Hr.
  destruct (iter_ok_cur _ _ _ _ _ _ Hit) as (Ec & Ep & _ & Eit).
  unfold decode_static_field. rewrite Ec, Ep.
  destruct (wp_call_decoder rec n d (fld fields k) Hrec Hn (sf_static _ _ _ _ _ Hs) (sf_ltype _ _ _ _ _ Hs)
              (sf_not_ext _ _ _ _ _ Hs) (sf_ds _ _ _ _ _ Hs) (sf_value _ _ _ _ _ Hs))
    as (func & -> & Hcall).
  destruct (htype_cases (type (fld fields k))) as [Eh|[Eh|[Eh|Eh]]]; rewrite Eh; eqbs.
  - apply Hcall; [done | | done]. eapply dest_field; [exact Hs | exact Hd | by rewrite Eh].
  - rewrite Eit by (by rewrite Eh). cbn [pSize pData iter_at].
    pose proof (dest_field _ _ _ _ _ _ _ Hs Hd ltac:(by rewrite Eh)) as Hpd.
    apply QS_keeps.
    + destruct (Z.eqb_spec (dest + size_offset_at fields k) (dest + field_offset fields k));
        cbn [negb]; [apply keeps_ret|].
      destruct (dest_has _ _ _ _ _ _ _ Hs Hd Eh ltac:(lia)) as [Hm HP].
      apply keeps_store8; [exact Hm | apply HP; unfold within; lia].
    + intros _u w' Hf. apply Hcall; [by eapply rd_frame | by eapply dest_frame |
        by eapply rodata_frame].
  - destruct (dest_array _ _ _ _ _ _ _ Hs Hd Eh) as [H32 Hpd].
    apply wp_static_array; try done; [apply (sf_ds _ _ _ _ _ Hs) | |
      by eapply iter_ok_count].
    intros s' a w' H1 H2 H3. by apply Hcall.
  - rewrite Eit by (by rewrite Eh). cbn [pSize pData iter_at].
    pose proof (dest_field _ _ _ _ _ _ _ Hs Hd ltac:(by rewrite Eh)) as Hpd.
    destruct (dest_count _ _ _ _ _ _ _ Hs Hd ltac:(auto)) as [Hm HP].
    apply QS_keeps; [by apply keeps_store_uint|]. intros _u w1 Hf1.
    pose proof (dest_frame _ _ _ _ _ _ Hpd Hf1) as Hpd1.
    pose proof (rodata_frame _ _ _ Hr Hf1) as Hr1.
    apply QS_keeps.
    + destruct (Z.eqb_spec (PB_LTYPE (type (fld fields k))) PB_LTYPE_SUBMESSAGE) as [El|El];
        [|apply keeps_ret].
      destruct Hpd1 as [Hm1 HP1].
      apply keeps_bind; [apply keeps_memset; [apply (sf_ds _ _ _ _ _ Hs) | done | done]|].
      intros _u' w2 Hf2. destruct (safe_sub d _ El (sf_value _ _ _ _ _ Hs)) as (_ & sub & Ei & Hsub).
      apply wp_bind. eapply wp_get_fields; [exact Ei|].
      eapply keeps_defaults; [exact Hn | exact Hsub | | by eapply rodata_frame].
      eapply dest_frame; [|exact Hf2]. by split.
    + intros _u' w2 Hf2. pose proof (frame_trans _ _ _ _ Hf1 Hf2) as Hf3.
      apply Hcall; [by eapply rd_frame | by eapply dest_frame | by eapply rodata_frame].
Qed.

(** ** The decoding loop *)

Section Loop.
Context (fields : list pb_field_t) (Hwf : wf_fields fields)
        (Hlen : Z.of_nat (length fields) <= 2 ^ 32) (dest : Z).

Lemma next_any k :
  (k < npos fields)%nat ->
  exists k', snd (pb_field_iter_next (iter_at fields dest k)) = iter_at fields dest k' /\
             (k' < npos fields)%nat.
Proof.
  unfold npos. intros Hk. destruct (decide (k < nfields fields)%nat) as [Hlt|Hge].
  - exists (next_pos fields k). rewrite snd_next_at by done. split; [done|].
    unfold next_pos. destruct (Nat.eqb_spec (S k) (nfields fields)); lia.
  - assert (k = 0%nat) as -> by lia. exists 0%nat. split; [|lia].
    unfold pb_field_iter_next. rewrite cur_at. pose proof (fld_end _ Hwf) as Ef.
    replace (nfields fields) with 0%nat in Ef by lia. by rewrite Ef.
Qed.

Lemma find_loop_any t p n : forall k,
  (k < npos fields)%nat ->
  exists b k', find_loop n p (iter_at fields dest k) t = (b, iter_at fields dest k') /\
               (k' < npos fields)%nat.
Proof.
  induction n as [|n IH]; intros k Hk; cbn [find_loop];
    (destruct (_ && _); [by eauto|]); destruct (next_any k Hk) as (k' & -> & Hk');
    (destruct (Nat.eqb _ _); [by eauto|]); [by eauto | by apply IH].
Qed.

Lemma find_any t k :
  (k < npos fields)%nat ->
  exists b k', pb_field_iter_find (iter_at fields dest k) t = (b, iter_at fields dest k') /\
               (k' < npos fields)%nat.
Proof. apply find_loop_any. Qed.

Lemma find_ext_loop_none p n : forall k,
  (k < npos fields)%nat ->
  (forall j, (j < npos fields)%nat -> PB_LTYPE (type (fld fields j)) <> PB_LTYPE_EXTENSION) ->
  exists k', find_ext_loop n p (iter_at fields dest k) = (false, iter_at fields dest k') /\
             (k' < npos fields)%nat.
Proof.
  induction n as [|n IH]; intros k Hk Hext; cbn [find_ext_loop]; rewrite cur_at;
    rewrite (proj2 (Z.eqb_neq _ _) (Hext k Hk)); destruct (next_any k Hk) as (k' & -> & Hk');
    (destruct (Nat.eqb _ _); [by eauto|]); [by eauto | by apply IH].
Qed.

(** A redirected iterator behaves as the plain one, or has not moved. *)
Lemma next_set_pSize k a :
  PB_HTYPE (type (fld fields k)) <> PB_HTYPE_ONEOF -> tag (fld fields k) <> 0 ->
  pb_field_iter_next (set_pSize (iter_at fields dest k) a)
  = pb_field_iter_next (iter_at fields dest k).
Proof.
  intros Hone Ht. unfold pb_field_iter_next, cur.
  cbn [start pos dest_struct pData required_field_index iter_at set_pSize].
  by rewrite (proj2 (Z.eqb_neq _ _) Hone), (proj2 (Z.eqb_neq _ _) Ht).
Qed.
Lemma iter_ok_tag P k w it :
  (k < npos fields)%nat -> iter_ok P fields dest k w it ->
  it = iter_at fields dest k \/
  tag (fld fields k) <> 0 /\ PB_HTYPE (type (fld fields k)) <> PB_HTYPE_ONEOF /\
  exists a, it = set_pSize (iter_at fields dest k) a.
Proof.
  intros Hk [->|(Hh & a & -> & _)]; [by left|]. right. split; [|split; [by rewrite Hh | by exists a]].
  unfold npos in Hk. destruct (decide (k < nfields fields)%nat) as [Hlt|Hge];
    [by apply fld_tag_nonzero|].
  exfalso. pose proof (fld_end _ Hwf) as Ef. assert (k = 0%nat) as -> by lia.
  replace (nfields fields) with 0%nat in Ef by lia. by rewrite Ef in Hh.
Qed.

Lemma find_ok P k w it t :
  (k < npos fields)%nat -> iter_ok P fields dest k w it ->
  exists b k' it', pb_field_iter_find it t = (b, it') /\ (k' < npos fields)%nat /\
                   iter_ok P fields dest k' w it'.
Proof.
  intros Hk Hit. destruct (iter_ok_tag _ _ _ _ Hk Hit) as [->|(Ht & Hone & a & ->)].
  - destruct (find_any t k Hk) as (b & k' & E & Hk'). exists b, k', (iter_at fields dest k').
    split_and!; [done | done | by left].
  - destruct (decide (k < nfields fields)%nat) as [Hlt|Hge].
    + rewrite find_set_pSize by done. destruct (is_field fields t k).
      * exists true, k, (set_pSize (iter_at fields dest k) a). split_and!; [done | exact Hk | exact Hit].
      * destruct (find_any t k Hk) as (b & k' & E & Hk'). exists b, k', (iter_at fields dest k').
        split_and!; [done | done | by left].
    + exfalso. pose proof (fld_end _ Hwf) as Ef. unfold npos in Hk. apply Ht.
      assert (k = 0%nat) as -> by lia. replace (nfields fields) with 0%nat in Ef by lia.
      by rewrite Ef.
Qed.

Lemma find_extension_ok P k w it :
  (k < npos fields)%nat -> iter_ok P fields dest k w it ->
  (forall j, (j < npos fields)%nat -> PB_LTYPE (type (fld fields j)) <> PB_LTYPE_EXTENSION) ->
  exists k', find_extension_field it = (false, iter_at fields dest k') /\ (k' < npos fields)%nat.
Proof.
  intros Hk Hit Hext. destruct (iter_ok_tag _ _ _ _ Hk Hit) as [->|(Ht & Hone & a & ->)];
    [by apply find_ext_loop_none|].
  pose proof (find_ext_loop_none k (length fields) k Hk Hext) as (k' & E & Hk').
  exists k'. split; [|done]. rewrite <- E. unfold find_extension_field.
  change (start (set_pSize (iter_at fields dest k) a)) with fields.
  change (pos (set_pSize (iter_at fields dest k) a)) with k.
  destruct (length fields); cbn [find_ext_loop];
    change (cur (set_pSize (iter_at fields dest k) a)) with (fld fields k);
    rewrite cur_at, (proj2 (Z.eqb_neq _ _) (Hext k Hk)), next_set_pSize by done; done.
Qed.
End Loop.

(** A decoding step that also moves the iterator. *)
Definition QI (P : Z -> Prop) fields dest (s : pb_istream_t) (w : world)
    (r : bool * pb_istream_t * pb_field_iter_t) (w' : world) : Prop :=
  sub_of (snd (fst r)) s /\ frame P w w' /\
  exists k, (k < npos fields)%nat /\ iter_ok P fields dest k w' (snd r).

(** The same, ending at a plain iterator. *)
Definition QU (P : Z -> Prop) (fields : list pb_field_t) (dest : Z) (s : pb_istream_t) (w : world)
    (r : bool * pb_istream_t * pb_field_iter_t) (w' : world) : Prop :=
  sub_of (snd (fst r)) s /\ frame P w w' /\
  exists k, (k < npos fields)%nat /\ snd r = iter_at fields dest k.

Section Body.
Context (rec : decode_fn) (n d : nat) (Hrec : rec_safe rec d) (Hn : (S d <= n)%nat)
        (fields : list pb_field_t) (size : Z)
        (Hs : safe_msgb rodata (S d) fields size = true) (dest : Z) (P : Z -> Prop).

Let Hwf : wf_fields fields.
Proof. by destruct (safe_msg_inv _ _ _ _ Hs) as (? & _ & ? & _). Qed.

Let Hlen : Z.of_nat (length fields) <= 2 ^ 32.
Proof. by destruct (safe_msg_inv _ _ _ _ Hs) as (? & _ & _ & ? & _). Qed.

Lemma body_field k : (k < npos fields)%nat ->
  safe_field rodata (safe_msgb rodata d) fields size k.
Proof. intros Hk. by apply safe_msg_at. Qed.

Lemma wp_pb_release_union_field s k w :
  (k < npos fields)%nat -> PB_HTYPE (type (fld fields k)) = PB_HTYPE_ONEOF ->
  dest_ok P dest size w ->
  wp (pb_release_union_field n s (iter_at fields dest k)) w (QU P fields dest s w).
Proof.
  intros Hk Hh Hd. unfold pb_release_union_field.
  apply wp_bind, wp_load_uint; [apply (dest_count _ _ _ _ _ _ _ (body_field k Hk) Hd); auto|].
  intros old Hold.
  assert (forall b s', sub_of s' s -> wp (mret (b, s', iter_at fields dest k)) w
    (QU P fields dest s w)) as Hret.
  { intros b s' Hs'. apply wp_ret. split_and!; [done | reflexivity | by exists k]. }
  destruct (old =? 0); [by apply Hret|]. destruct (_ =? _); [by apply Hret|].
  destruct (find_any fields Hwf Hlen dest old k Hk) as (b & k' & -> & Hk').
  destruct b; cbn [negb].
  2: { apply wp_bind, wp_ret, wp_ret. split_and!; [apply sub_of_err | reflexivity | by exists k']. }
  apply wp_bind. eapply wp_mono.
  { destruct n as [|m]; [lia|]. eapply (keeps_release_field m d); [|by apply body_field | exact Hd].
    apply keeps_release. lia. }
  intros _u w' Hf.
  destruct (find_any fields Hwf Hlen dest (tag (cur (iter_at fields dest k))) k' Hk')
    as (b & k2 & -> & Hk2).
  destruct b; cbn [negb].
  - apply wp_ret. split_and!; [done | done | by exists k2].
  - apply wp_bind, wp_ret, wp_ret. split_and!; [apply sub_of_err | done | by exists k2].
Qed.

Lemma wp_decode_field s wt k it w :
  (k < npos fields)%nat -> iter_ok P fields dest k w it ->
  rd w s -> dest_ok P dest size w -> rodata_ok w ->
  wp (decode_field rec n s wt it) w (QI P fields dest s w).
Proof.
  intros Hk Hit Hrd Hd Hr. unfold decode_field.
  destruct (iter_ok_cur _ _ _ _ _ _ Hit) as (Ec & _ & _ & Eit). rewrite Ec.
  apply wp_bind. eapply wp_mono with (Q := QI P fields dest s w).
  { destruct (Z.eqb_spec (PB_HTYPE (type (fld fields k))) PB_HTYPE_ONEOF) as [Eh|Eh].
    - rewrite Eit by (by rewrite Eh).
      eapply wp_mono; [by apply wp_pb_release_union_field|].
      intros r w' (H1 & H2 & k' & Hk' & E). split_and!; [done | done|]. exists k'.
      split; [done | by left].
    - apply wp_ret. split_and!; [done | reflexivity | by exists k]. }
  intros [[ok s'] it'] w' (Hs' & Hf & k' & Hk' & Hit'). cbn [fst snd] in *.
  destruct ok; cbn [negb]; [|apply wp_ret; split_and!; [done | done | by exists k']].
  destruct (iter_ok_cur _ _ _ _ _ _ Hit') as (Ec' & _). rewrite Ec'.
  rewrite (sf_static _ _ _ _ _ (body_field k' Hk')). eqbs.
  apply wp_bind. eapply wp_mono.
  { eapply (wp_decode_static_field rec n d P fields size dest); [done | lia | by apply body_field
      | exact Hit' | | by eapply dest_frame | by eapply rodata_frame].
    eapply rd_frame; [by eapply rd_sub | exact Hf]. }
  intros [ok2 s2] w2 [Hs2 Hf2]. cbn [fst snd] in *. apply wp_ret.
  split_and!; [by etrans | by etrans|]. exists k'. split; [done | by eapply iter_ok_frame].
Qed.
(** A step of the loop, on its state. *)
Definition QL (st : decode_state) (w : world) (r : bool * decode_state) (w' : world) : Prop :=
  sub_of (ds_stream (snd r)) (ds_stream st) /\ frame P w w' /\
  exists k, (k < npos fields)%nat /\ iter_ok P fields dest k w' (ds_iter (snd r)).

Lemma wp_decode_unknown st t wt k w :
  (k < npos fields)%nat -> iter_ok P fields dest k w (ds_iter st) ->
  t < 2 ^ 29 -> rd w (ds_stream st) ->
  wp (decode_unknown rec n st t wt) w (QL st w).
Proof.
  intros Hk Hit Ht Hrd. unfold decode_unknown.
  assert (forall it start, (exists k, (k < npos fields)%nat /\ iter_ok P fields dest k w it) ->
    wp ('(ok, stream) ← pb_skip_field (ds_stream st) wt;
        mret (ok, mk_dstate stream it (fields_seen st) start (fixed_count_field st))) w
       (QL st w)) as Hskip.
  { intros it start Hpos. apply wp_bind, wp_pb_skip_field; [done|]. intros ok s' Hs'.
    apply wp_ret. split_and!; [done | reflexivity | done]. }
  destruct (t >=? _); [|apply Hskip; by exists k].
  destruct (find_extension_ok fields Hwf Hlen dest P k w _ Hk Hit) as (k' & -> & Hk').
  { intros j Hj. apply (sf_not_ext _ _ _ _ _ (body_field j Hj)). }
  destruct (Z.geb_spec t (2 ^ 32 - 1)); [lia|].
  apply Hskip. exists k'. split; [done | by left].
Qed.

Lemma wp_fixed_count_check fc a w Q :
  dest_ok P a 4 w -> (forall b, Q b w) ->
  wp (match fc with
      | None => mret false
      | Some i => c ← load_uint sizeof_pb_size_t a; mret (negb (c =? array_size (fld fields i)))
      end) w Q.
Proof.
  intros [Hm _] HQ. destruct fc; [|by apply wp_ret].
  apply wp_bind, wp_load_uint; [done|]. intros v _. by apply wp_ret.
Qed.

Lemma wp_fixed_count_setup fcs st k w :
  (k < npos fields)%nat -> iter_ok P fields dest k w (ds_iter st) -> dest_ok P fcs 4 w ->
  wp (fixed_count_setup fields fcs st) w (QL st w).
Proof.
  intros Hk Hit Hfc. unfold fixed_count_setup.
  destruct (iter_ok_cur _ _ _ _ _ _ Hit) as (Ec & _). rewrite Ec.
  destruct (Z.eqb_spec (PB_HTYPE (type (fld fields k))) PB_HTYPE_REPEATED) as [Eh|Eh];
    cbn [andb]; [|apply wp_ret; split_and!; [done | reflexivity | by exists k]].
  destruct (_ =? _); [|apply wp_ret; split_and!; [done | reflexivity | by exists k]].
  apply wp_bind. apply wp_mono with (Q := QL st w).
  - destruct (bool_decide _); [apply wp_ret; split_and!; [done | reflexivity | by exists k]|].
    apply wp_bind, wp_fixed_count_check; [done|]. intros bad. destruct bad.
    + apply wp_bind, wp_ret, wp_ret. split_and!; [apply sub_of_err | reflexivity | by exists k].
    + apply wp_bind. destruct Hfc as [Hm HP].
      eapply wp_mono; [by apply (keeps_store_uint P)|]. intros _u w' Hf. apply wp_ret.
      split_and!; [done | done|]. exists k.
      split; [done|]. eapply iter_ok_frame; [exact Hit | exact Hf].
  - intros [ok st'] w' (H1 & H2 & k' & Hk' & Hit'). cbn [fst snd] in *.
    destruct ok; cbn [negb]; apply wp_ret; (split_and!; [done | done|]); [|by exists k'].
    exists k. split; [done|]. right. split; [done|]. exists fcs. cbn [ds_iter snd].
    split; [|by eapply dest_frame]. by destruct Hit as [->|(_ & a & -> & _)].
Qed.

Lemma wp_decode_loop fcs m : forall st k w,
  (k < npos fields)%nat -> iter_ok P fields dest k w (ds_iter st) -> dest_ok P fcs 4 w ->
  rd w (ds_stream st) -> bytes_left (ds_stream st) < Z.of_nat m ->
  dest_ok P dest size w -> rodata_ok w ->
  wp (decode_loop rec n m fields fcs st) w (QL st w).
Proof.
  induction m as [|m IH]; intros st k w Hk Hit Hfc Hrd Hm Hd Hr; [destruct Hrd; lia|].
  cbn [decode_loop]. destruct (_ =? 0).
  { apply wp_ret. split_and!; [done | reflexivity | by exists k]. }
  apply wp_bind, wp_pb_decode_tag; [done|]. intros ok wt t eof s' Hs' Ht Hl.
  destruct ok; cbn [negb];
    [|apply wp_ret; split_and!; [done | reflexivity | by exists k]].
  specialize (Hl eq_refl). cbn [ds_iter].
  destruct (find_ok fields Hwf Hlen dest P k w _ t Hk Hit) as (b & k' & it' & -> & Hk' & Hit').
  set (st1 := mk_dstate s' it' _ _ _). pose proof (rd_sub _ _ _ Hrd Hs') as Hrd'.
  apply wp_bind. apply wp_mono with (Q := QL st1 w).
  - destruct b; cbn [negb]; [|apply (wp_decode_unknown st1 _ _ k'); (done || lia)].
    apply wp_bind. eapply wp_mono; [by apply (wp_fixed_count_setup fcs st1 k')|].
    intros [ok st2] w2 (H1 & H2 & k2 & Hk2 & Hit2). cbn [fst snd] in *.
    destruct ok; cbn [negb]; [|apply wp_ret; split_and!; [done | done | by exists k2]].
    apply wp_bind. eapply wp_mono.
    { apply (wp_decode_field _ _ k2); [done | exact Hit2 | | by eapply dest_frame
        | by eapply rodata_frame]. eapply rd_frame; [by eapply rd_sub | exact H2]. }
    intros [[ok s3] it3] w3 (K1 & K2 & k3 & Hk3 & Hit3). cbn [fst snd] in *. apply wp_ret.
    split_and!; [by etrans | by etrans | by exists k3].
  - intros [ok st2] w2 (H1 & H2 & k2 & Hk2 & Hit2). cbn [fst snd] in *.
    assert (sub_of (ds_stream st2) (ds_stream st)) as Hsub by (by etrans).
    destruct ok; cbn [negb]; [|apply wp_ret; split_and!; [done | done | by exists k2]].
    eapply wp_mono.
    { apply (IH st2 k2); [done | exact Hit2 | by eapply dest_frame | | | by eapply dest_frame
        | by eapply rodata_frame].
      - eapply rd_frame; [by eapply rd_sub | exact H2].
      - pose proof (sub_of_le _ _ H1). unfold st1 in *. cbn [ds_stream] in *. lia. }
    intros [ok st3] w3 (K1 & K2 & K3). split_and!; [by etrans | by etrans | done].
Qed.
End Body.

(** ** The whole decoder *)

Lemma with_slot_ok P a bs w w1 :
  w1 = mk_world (mem_write (w_mem w) a bs) (w_heap w) ->
  let P1 x := P x \/ within a (Z.of_nat (length bs)) x in
  (forall s, rd w s -> rd w1 s) /\
  (forall dest size, dest_ok P dest size w -> dest_ok P1 dest size w1) /\
  (rodata_ok w -> rodata_ok w1) /\ dest_ok P1 a (Z.of_nat (length bs)) w1.
Proof.
  intros -> P1.
  assert (forall b n, mapped (w_mem w) b n -> mapped (mem_write (w_mem w) a bs) b n) as Hmap.
  { intros b n Hm. by apply mapped_write. }
  split_and!.
  - intros s [H1 H2 H3]. split; [done | done | by apply Hmap].
  - intros dest size [Hm HP]. split; [by apply Hmap|]. intros x Hx. left. by apply HP.
  - unfold rodata_ok. rewrite !Forall_forall. intros Hr r Hin. by apply Hmap, Hr.
  - split; [|by right]. intros x Hx. cbn [w_mem]. rewrite lookup_mem_write.
    rewrite decide_True by done. apply lookup_lt_is_Some. unfold within in Hx. lia.
Qed.

Lemma wp_decode_noinit_body rec n d fields size dest s w P :
  rec_safe rec d -> (S d <= n)%nat -> safe_msgb rodata (S d) fields size = true ->
  rd w s -> dest_ok P dest size w -> rodata_ok w ->
  wp (decode_noinit_body rec n s fields dest) w (QS P s w).
Proof.
  intros Hrec Hn Hs Hrd Hd Hr. unfold decode_noinit_body.
  eapply wp_mono; [apply (wp_with_local P) with (R := fun r => sub_of (snd r) s)|].
  { rewrite length_le_bytes. unfold sizeof_pb_size_t. lia. }
  2: { intros r w' [H1 H2]. by split. }
  intros a w1 Ew1 _. destruct (with_slot_ok P _ _ _ _ Ew1) as (K1 & K2 & K3 & K4).
  rewrite length_le_bytes in *. change (Z.of_nat sizeof_pb_size_t) with 4 in *.
  set (P1 := fun x => P x \/ within a 4 x) in *.
  specialize (K1 s Hrd). specialize (K2 _ _ Hd). specialize (K3 Hr).
  apply wp_bind. rewrite begin_at. cbn [snd]. eapply wp_mono.
  { apply (wp_decode_loop rec n d Hrec Hn fields size Hs dest P1 a _ _ 0%nat); try done;
      [unfold npos; lia | by left | destruct Hrd; cbn; lia]. }
  intros [ok st] w2 (H1 & H2 & k & Hk & Hit). cbn [fst snd ds_stream] in *.
  assert (forall r, sub_of (snd r) s -> wp (mret r) w2 (fun (r : bool * pb_istream_t) w' =>
    sub_of (snd r) s /\ frame P1 w1 w')) as Hret by (intros r Hr'; by apply wp_ret).
  destruct ok; cbn [negb]; [|by apply Hret].
  apply wp_bind, (wp_fixed_count_check fields P1); [by eapply dest_frame|]. intros bad.
  assert (forall msg, sub_of (set_i_errmsg (ds_stream st) msg) s) as Herr.
  { intros msg. etrans; [apply sub_of_err | done]. }
  destruct bad; [apply Hret, Herr|]. cbv zeta. destruct (_ && _); [apply Hret, Herr | by apply Hret].
Qed.

Lemma wp_pb_decode_noinit n : forall d, (S d <= n)%nat -> rec_safe (pb_decode_noinit n) d.
Proof.
  induction n as [|n IH]; intros d Hn; [lia|]. intros fields size dest s w P Hs Hrd Hd Hr.
  destruct (safe_msg_inv _ _ _ _ Hs) as (d' & -> & _). cbn [pb_decode_noinit].
  eapply wp_decode_noinit_body; [|by apply le_S_n | exact Hs | done | done | done].
  apply IH. lia.
Qed.

Lemma wp_pb_decode n d : (S d <= n)%nat -> rec_safe (pb_decode n) d.
Proof. intros Hn. apply wp_pb_decode_of; [by apply wp_pb_decode_noinit | lia]. Qed.

(** C4: Decoding any bytes into a static message never leaves mapped memory and
    always returns: whatever the input of [len] bytes and whatever the struct
    holds, [pb_decode] on a descriptor that passes [safe_msgb] ends without a
    fault (fuel one above the nesting depth is enough), leaves a stream inside
    the input, and changes no byte outside the struct and no heap block. *)
Theorem pb_decode_safe n d fields size dest buf len w :
  safe_msgb rodata d fields size = true -> (d < n)%nat ->
  0 <= len < 2 ^ 64 -> mapped (w_mem w) buf len -> mapped (w_mem w) dest size ->
  rodata_ok w ->
  exists ok s w',
    pb_decode n (pb_istream_from_buffer buf len) fields dest w = Ok (ok, s) w' /\
    buf <= i_state s /\ 0 <= bytes_left s /\ i_state s + bytes_left s <= buf + len /\
    frame (within dest size) w w'.
Proof.
  intros Hs Hn Hlen Hbuf Hdest Hr.
  pose proof (wp_pb_decode n d ltac:(lia) fields size dest (pb_istream_from_buffer buf len) w
    (within dest size) Hs) as Hwp.
  destruct (wp_inv _ _ _ (Hwp ltac:(by split) ltac:(by split) Hr)) as ([ok s] & w' & E & Hsub & Hf).
  destruct Hsub as [_ H1 H2 H3]. cbn in H1, H2, H3. exists ok, s, w'.
  split_and!; try done; lia.
Qed.
End Safe.

(** The witness decodes five arbitrary bytes into a struct full of arbitrary
    bytes, with a shipped descriptor. *)
Lemma pb_decode_safe_witness :
  let w := world_of [(0xa00, cct_constants); (0x2000, replicate 16 xff);
                     (0x3000, [x08; xff; x8b; xff; x00])] in
  let code := no_callbacks cct_image in
  let libc := bump_libc 4096 in
  exists ok s w',
    pb_decode 3 (pb_istream_from_buffer 0x3000 5)
      (gdt_cct_NetworkConnectionInfo_fields cct_sym) 0x2000 w = Ok (ok, s) w' /\
    0x3000 <= i_state s /\ 0 <= bytes_left s /\ i_state s + bytes_left s <= 0x3000 + 5 /\
    frame (within 0x2000 16) w w'.
Proof.
  intros w code libc. apply (pb_decode_safe cct_rodata 3 1).
  - vm_compute. reflexivity.
  - lia.
  - lia.
  - apply mapped_world_of. vm_compute. reflexivity.
  - apply mapped_world_of. vm_compute. reflexivity.
  - apply Forall_forall. intros r [<-|[]]. apply mapped_world_of. vm_compute. reflexivity.
Defined.
