(* ===== verification/Required.v ===== *)
(** The bookkeeping of required fields in pb_decode.c.

    [fields_seen] is a bitmap of the first PB_MAX_REQUIRED_FIELDS required
    fields of a message.  The theorems: marking a field sets its bit and no
    other, the count the final check uses is the number of required fields (at
    most 64), and the check passes exactly when every one of them was seen. *)

From S2P Require Import Prelude CMem PbTypes FieldIter Decode.
Open Scope Z_scope.

(** Bit [i] of the bitmap. *)
Definition seen_bit (seen : list Z) (i : Z) : bool :=
  Z.testbit (nth (Z.to_nat (i / 32)) seen 0) (i mod 32).

(** The bitmap of [pb_decode_noinit]: two 32-bit words. *)
Definition bitmap (seen : list Z) : Prop :=
  length seen = 2%nat /\ Forall (fun w => 0 <= w < 2 ^ 32) seen.

(** Number of required fields of a message. *)
Definition required_fields (fields : list pb_field_t) : Z :=
  required_before fields (nfields fields).

(** * Bits *)

Lemma shiftl_one_bit k j : 0 <= k < 32 -> 0 <= j ->
  Z.testbit (u32 (Z.shiftl 1 k)) j = (j =? k).
Proof.
  intros Hk Hj. rewrite Z.shiftl_1_l, u32_small.
  - rewrite Z.pow2_bits_eqb by lia. apply Z.eqb_sym.
  - split; [apply Z.pow_nonneg; lia | apply Z.pow_lt_mono_r; lia].
Qed.

Lemma lor_32 a b : 0 <= a < 2 ^ 32 -> 0 <= b < 2 ^ 32 -> 0 <= Z.lor a b < 2 ^ 32.
Proof.
  intros Ha Hb. split; [apply Z.lor_nonneg; lia|].
  assert (Z.lor a b = Z.lor a b mod 2 ^ 32) as ->; [|apply Z.mod_pos_bound; lia].
  symmetry. rewrite <- Z.land_ones, Z.land_lor_distr_l by lia.
  rewrite !Z.land_ones, !Z.mod_small by lia. done.
Qed.

(** A word of 32 bits is determined by them. *)
Lemma word_ext a b :
  0 <= a < 2 ^ 32 -> 0 <= b < 2 ^ 32 ->
  (forall j, 0 <= j < 32 -> Z.testbit a j = Z.testbit b j) -> a = b.
Proof.
  intros Ha Hb H. apply Z.bits_inj'. intros j Hj.
  destruct (Z.lt_ge_cases j 32); [by apply H|].
  rewrite <- (Z.mod_small a (2 ^ 32)), <- (Z.mod_small b (2 ^ 32)) by done.
  by rewrite !Z.mod_pow2_bits_high by lia.
Qed.

Lemma index_split i : 0 <= i < 64 -> exists k r,
  i = 32 * k + r /\ 0 <= r < 32 /\ (k = 0 \/ k = 1) /\
  i / 32 = k /\ i mod 32 = r /\ Z.shiftr i 5 = k /\ Z.land i 31 = r.
Proof.
  intros Hi. exists (i / 32), (i mod 32). pose proof (Z.mod_pos_bound i 32 ltac:(lia)).
  split_and!; try done; try lia.
  - apply Z.div_mod. lia.
  - assert (0 <= i / 32 < 2); [|lia].
    split; [apply Z.div_pos | apply Z.div_lt_upper_bound]; lia.
  - by rewrite Z.shiftr_div_pow2.
  - change 31 with (Z.ones 5). by rewrite Z.land_ones.
Qed.

(** * Marking *)

(** Decoding a field sets the bit of that field in the bitmap if the field
    is required and one of the first 64 required fields, and changes no other
    bit. *)
Theorem mark_seen_bits iter seen j :
  bitmap seen -> 0 <= required_field_index iter -> 0 <= j < 64 ->
  bitmap (mark_seen iter seen) /\
  seen_bit (mark_seen iter seen) j =
    seen_bit seen j ||
    ((PB_HTYPE (type (cur iter)) =? PB_HTYPE_REQUIRED) && (j =? required_field_index iter)).
Proof.
  intros Hb Hi Hj. unfold mark_seen. set (i := required_field_index iter) in *.
  destruct (_ =? PB_HTYPE_REQUIRED); cbn [andb]; [|by rewrite orb_false_r].
  unfold PB_MAX_REQUIRED_FIELDS. destruct (Z.ltb_spec i 64) as [Hlt|Hge].
  2: { replace (j =? i) with false by lia. by rewrite orb_false_r. }
  destruct (index_split i ltac:(lia)) as (ki & ri & -> & Hri & Hki & _ & _ & -> & ->).
  destruct (index_split j Hj) as (kj & rj & -> & Hrj & Hkj & Ekj & Erj & _).
  unfold seen_bit. rewrite Ekj, Erj. destruct Hb as [Hl Hf].
  destruct seen as [|a [|b [|]]]; try done.
  pose proof (Forall_inv Hf) as Ha. pose proof (Forall_inv (Forall_inv_tail Hf)) as Hb.
  cbn beta in Ha, Hb. pose proof (u32_bound (Z.shiftl 1 ri)) as Hu.
  assert (forall x, Z.testbit (Z.lor x (u32 (Z.shiftl 1 ri))) rj = Z.testbit x rj || (rj =? ri))
    as Hbit by (intros x; rewrite Z.lor_spec, shiftl_one_bit by lia; done).
  destruct Hki as [-> | ->], Hkj as [-> | ->]; change (Z.to_nat 0) with 0%nat;
    change (Z.to_nat 1) with 1%nat; cbn [alter list_alter nth]; rewrite ?Hbit;
    (split; [split; [done|]; repeat (apply List.Forall_cons; [first [done | by apply lor_32]|]); apply List.Forall_nil|]).
  - f_equal; lia.
  - rewrite (proj2 (Z.eqb_neq _ _)) by lia. by rewrite orb_false_r.
  - rewrite (proj2 (Z.eqb_neq _ _)) by lia. by rewrite orb_false_r.
  - f_equal; lia.
Qed.

(** * Counting *)

Lemma last_field_loop_at fields dest n : forall k,
  wf_fields fields -> Z.of_nat (length fields) <= 2 ^ 32 ->
  (k < nfields fields)%nat -> (nfields fields - k <= S n)%nat ->
  last_field_loop n (iter_at fields dest k) =
    (required_before fields (pred (nfields fields)), type (fld fields (pred (nfields fields))),
     iter_at fields dest 0).
Proof.
  induction n as [|n IH]; intros k Hwf Hlen Hk Hn; cbn [last_field_loop]; rewrite next_at by done;
    destruct (Nat.eqb_spec (S k) (nfields fields)) as [E|E].
  - by rewrite <- E.
  - lia.
  - by rewrite <- E.
  - apply IH; (done || lia).
Qed.

(** The count the final check uses is the number of required fields of the
    message, or 64 if there are more, wherever the iterator was left. *)
Theorem req_field_count_correct fields dest k :
  wf_fields fields -> Z.of_nat (length fields) <= 2 ^ 32 -> (k < nfields fields)%nat ->
  req_field_count (iter_at fields dest k) = Z.min PB_MAX_REQUIRED_FIELDS (required_fields fields).
Proof.
  intros Hwf Hlen Hk. unfold req_field_count. pose proof (nfields_lt_length _ Hwf).
  change (start (iter_at fields dest k)) with fields.
  rewrite last_field_loop_at by (done || lia). rewrite cur_at.
  pose proof (fld_tag_nonzero _ 0 Hwf ltac:(lia)) as Ht. rewrite (proj2 (Z.eqb_neq _ _) Ht).
  cbn [negb]. rewrite andb_true_r. unfold required_fields.
  destruct (nfields fields) as [|m] eqn:En; [lia|]. cbn [pred required_before].
  pose proof (required_before_bound fields m) as Hb.
  destruct (PB_HTYPE (type (fld fields m)) =? PB_HTYPE_REQUIRED); rewrite ?u32_small by lia;
    unfold PB_MAX_REQUIRED_FIELDS;
    match goal with |- context [?a >? 64] => destruct (Z.gtb_spec a 64) end; lia.
Qed.

(** * Checking *)

Lemma ones_bits r j : 0 <= r <= 32 -> 0 <= j < 32 ->
  Z.testbit (Z.shiftr (2 ^ 32 - 1) (32 - r)) j = (j <? r).
Proof.
  intros Hr Hj. rewrite Z.shiftr_spec by lia. change (2 ^ 32 - 1) with (Z.ones 32).
  rewrite Z.testbit_ones by lia. lia.
Qed.

(** A word equals the mask of its low [r] bits when exactly those are set. *)
Lemma word_mask w r :
  0 <= w < 2 ^ 32 -> 0 <= r <= 32 ->
  (w =? Z.shiftr (2 ^ 32 - 1) (32 - r)) = true <->
  forall j, 0 <= j < 32 -> Z.testbit w j = (j <? r).
Proof.
  intros Hw Hr. rewrite Z.eqb_eq. split.
  - intros -> j Hj. by apply ones_bits.
  - intros H. apply word_ext; [done | |].
    + rewrite Z.shiftr_div_pow2 by lia. pose proof (Z.pow_pos_nonneg 2 (32 - r) ltac:(lia) ltac:(lia)).
      split; [apply Z.div_pos; lia|]. apply Z.div_lt_upper_bound; nia.
    + intros j Hj. by rewrite H, ones_bits by lia.
Qed.

Lemma seen_bit_words a b j :
  0 <= j < 32 -> seen_bit [a; b] j = Z.testbit a j /\ seen_bit [a; b] (32 + j) = Z.testbit b j.
Proof.
  intros Hj. unfold seen_bit. rewrite Z.div_small, Z.mod_small by lia.
  replace (32 + j) with (j + 1 * 32) by lia.
  by rewrite Z.div_add, Z_mod_plus_full, Z.div_small, Z.mod_small by lia.
Qed.

(** The final check passes exactly when the bits of all counted required
    fields are set, given that no other bit is. *)
Theorem all_required_seen_correct count seen :
  bitmap seen -> 0 <= count <= 64 ->
  (forall i, count <= i < 64 -> seen_bit seen i = false) ->
  all_required_seen count seen = true <-> forall i, 0 <= i < count -> seen_bit seen i = true.
Proof.
  intros [Hl Hf] Hc Hhi. destruct seen as [|a [|b [|]]]; try done.
  pose proof (Forall_inv Hf) as Ha. pose proof (Forall_inv (Forall_inv_tail Hf)) as Hb.
  cbn beta in Ha, Hb.
  assert (forall j, 0 <= j < 32 -> seen_bit [a; b] j = Z.testbit a j) as Hlo
    by (intros; by apply seen_bit_words).
  assert (forall j, 0 <= j < 32 -> seen_bit [a; b] (32 + j) = Z.testbit b j) as Hup
    by (intros; by apply seen_bit_words).
  (* one word, of which the low [r] bits are expected *)
  assert (forall w r, 0 <= w < 2 ^ 32 -> 0 <= r <= 32 ->
    (forall j, r <= j < 32 -> Z.testbit w j = false) ->
    (w =? Z.shiftr (2 ^ 32 - 1) (32 - r)) = true <->
    forall j, 0 <= j < r -> Z.testbit w j = true) as Hword.
  { intros w r Hw Hr Hhi'. rewrite word_mask by done. split; intros H j Hj.
    - rewrite H by lia. lia.
    - destruct (Z.ltb_spec j r); [apply H | apply Hhi']; lia. }
  unfold all_required_seen. destruct (decide (count = 64)) as [->|Hne].
  - change (Z.to_nat (Z.shiftr 64 5)) with 2%nat. cbn [take forallb].
    change (Z.land 64 31 =? 0) with true. cbn [orb]. rewrite !andb_true_r, andb_true_iff.
    change (2 ^ 32 - 1) with (Z.shiftr (2 ^ 32 - 1) (32 - 32)).
    rewrite (Hword a 32), (Hword b 32) by (done || lia). split.
    + intros [H1 H2] i Hi. destruct (Z.lt_ge_cases i 32); [rewrite Hlo by lia; apply H1; lia|].
      replace i with (32 + (i - 32)) by lia. rewrite Hup by lia. apply H2. lia.
    + intros H. split; intros j Hj; [rewrite <- Hlo by lia | rewrite <- Hup by lia]; apply H; lia.
  - destruct (index_split count ltac:(lia)) as (k & r & Ek & Hr & Hk & _ & _ & -> & ->).
    assert (forall w : bool, (r =? 0) || w = true <-> (r = 0 \/ w = true)) as Hor.
    { intros w. rewrite orb_true_iff, Z.eqb_eq. done. }
    destruct Hk as [-> | ->].
    + change (Z.to_nat 0) with 0%nat. cbn [take forallb nth andb]. rewrite Hor.
      rewrite (Hword a r Ha ltac:(lia)) by (intros j Hj; rewrite <- Hlo by lia; apply Hhi; lia).
      split.
      * intros [->|H] i Hi; [lia|]. rewrite Hlo by lia. apply H. lia.
      * intros H. right. intros j Hj. rewrite <- Hlo by lia. apply H. lia.
    + change (Z.to_nat 1) with 1%nat. cbn [take forallb nth]. rewrite andb_true_r, andb_true_iff, Hor.
      change (2 ^ 32 - 1) with (Z.shiftr (2 ^ 32 - 1) (32 - 32)) at 1.
      rewrite (Hword a 32) by (done || lia).
      rewrite (Hword b r Hb ltac:(lia)) by (intros j Hj; rewrite <- Hup by lia; apply Hhi; lia).
      split.
      * intros [H1 H2] i Hi. destruct (Z.lt_ge_cases i 32); [rewrite Hlo by lia; apply H1; lia|].
        replace i with (32 + (i - 32)) by lia. rewrite Hup by lia.
        destruct H2 as [->|H2]; [lia | apply H2; lia].
      * intros H. split; [|right]; intros j Hj; [rewrite <- Hlo by lia | rewrite <- Hup by lia];
          apply H; lia.
Qed.

(** * Witnesses *)

Lemma mark_seen_bits_witness :
  let iter := mk_iter [mk_field 1 PB_HTYPE_REQUIRED 0 0 4 0 0; PB_LAST_FIELD] 0 33 0 0 0 in
  bitmap (mark_seen iter [1; 0]) /\ seen_bit (mark_seen iter [1; 0]) 33 = true.
Proof.
  intros iter. apply (mark_seen_bits iter [1; 0] 33); [|cbn; lia | lia].
  split; [reflexivity|]. repeat (apply List.Forall_cons; [lia|]). apply List.Forall_nil.
Defined.

Lemma req_field_count_correct_witness :
  req_field_count (iter_at demo_fields 0x1000 1) = Z.min 64 (required_fields demo_fields).
Proof.
  destruct (wf_fieldsb_ok demo_fields eq_refl) as [Hwf Hl].
  by apply (req_field_count_correct demo_fields 0x1000 1 Hwf Hl); vm_compute; lia.
Defined.

Lemma all_required_seen_correct_witness :
  all_required_seen 33 [2 ^ 32 - 1; 1] = true <->
  forall i, 0 <= i < 33 -> seen_bit [2 ^ 32 - 1; 1] i = true.
Proof.
  apply all_required_seen_correct; [|lia|].
  - split; [reflexivity|]. repeat (apply List.Forall_cons; [lia|]). apply List.Forall_nil.
  - intros i Hi. destruct (index_split i ltac:(lia)) as (k & r & -> & Hr & Hk & Ek & Er & _).
    unfold seen_bit. rewrite Ek, Er. destruct Hk as [-> | ->]; [lia|].
    change (nth (Z.to_nat 1) [2 ^ 32 - 1; 1] 0) with (2 ^ 0).
    apply Z.pow2_bits_false. lia.
Defined.
