(* ===== verification/Base64.v ===== *)
(** FirebaseDatabase, SocketRocket: the base64 encoder and decoder of fbase64.c
    that the web socket handshake uses.

    Contents: [f_b64_ntop] and [f_b64_pton] over bounds-checked buffers; the
    reference encoding [b64_encode], on 24-bit groups as in RFC 1521; the
    theorems that the encoder writes the reference encoding or reports lack of
    room, and that the decoder accepts exactly the reference encodings with
    white space anywhere, gives the data back, and never leaves its buffers. *)

From S2P Require Import Prelude.
From Stdlib Require String.
Open Scope Z_scope.

(** * The code *)

Definition Base64 : list byte :=
  String.list_byte_of_string "ABCDEFGHIJKLMNOPQRSTUVWXYZabcdefghijklmnopqrstuvwxyz0123456789+/".
Definition Pad64 : Z := 61.

(** A call stops with undefined behaviour (an access outside a buffer), or
    returns its int and the target it leaves; a null target is [None]. *)
Inductive b64_outcome : Type :=
| B64Fault
| B64Ret (r : Z) (target : option (list byte)).

Definition tget (t : list byte) (i : Z) : option byte :=
  if i <? 0 then None else t !! Z.to_nat i.

Definition tset (t : list byte) (i v : Z) : option (list byte) :=
  if (0 <=? i) && (i <? Z.of_nat (length t)) then Some (<[Z.to_nat i := z2b v]> t) else None.

(** [Base64[i]]. *)
Definition digit (i : Z) : option Z := b2z <$> tget Base64 i.

(** Successive stores [target[datalength++] = c]. *)
Fixpoint put_all (t : list byte) (i : Z) (cs : list (option Z)) : option (list byte) :=
  match cs with
  | [] => Some t
  | c :: cs => c ← c; t ← tset t i c; put_all t (i + 1) cs
  end.

(** The [while (2 < srclength)] loop and the code after it.  [src] holds the
    [srclength] bytes that are left. *)
Fixpoint ntop_loop (src target : list byte) (datalength targsize : Z) : b64_outcome :=
  let ret r := B64Ret r (Some target) in
  let room t i :=
    if i >=? targsize then B64Ret (-1) (Some t)
    else match tset t i 0 with
         | Some t => B64Ret (s32 i) (Some t)
         | None => B64Fault
         end in
  match src with
  | b0 :: b1 :: b2 :: src =>
      let i0 := b2z b0 in let i1 := b2z b1 in let i2 := b2z b2 in
      let o0 := Z.shiftr i0 2 in
      let o1 := u8 (Z.shiftl (Z.land i0 0x03) 4 + Z.shiftr i1 4) in
      let o2 := u8 (Z.shiftl (Z.land i1 0x0f) 2 + Z.shiftr i2 6) in
      let o3 := Z.land i2 0x3f in
      if u64 (datalength + 4) >? targsize then ret (-1)
      else match put_all target datalength [digit o0; digit o1; digit o2; digit o3] with
           | None => B64Fault
           | Some target => ntop_loop src target (datalength + 4) targsize
           end
  | [] => room target datalength
  | _ =>
      let i0 := b2z (nth 0 src x00) in let i1 := b2z (nth 1 src x00) in
      let o0 := Z.shiftr i0 2 in
      let o1 := u8 (Z.shiftl (Z.land i0 0x03) 4 + Z.shiftr i1 4) in
      let o2 := u8 (Z.shiftl (Z.land i1 0x0f) 2 + Z.shiftr 0 6) in
      if u64 (datalength + 4) >? targsize then ret (-1)
      else match put_all target datalength
                   [digit o0; digit o1;
                    if Nat.eqb (length src) 1 then Some Pad64 else digit o2;
                    Some Pad64] with
           | None => B64Fault
           | Some target => room target (datalength + 4)
           end
  end.

Definition f_b64_ntop (src target : list byte) (targsize : Z) : b64_outcome :=
  ntop_loop src target 0 targsize.

(** [isspace] in the C locale: tab to carriage return, and space. *)
Definition isspace (ch : Z) : bool := (9 <=? ch) && (ch <=? 13) || (ch =? 32).

(** [strchr(Base64, ch) - Base64], for a non-zero [ch]. *)
Fixpoint strchr_from (s : list byte) (ch i : Z) : option Z :=
  match s with
  | [] => None
  | b :: s => if s8 (b2z b) =? ch then Some i else strchr_from s ch (i + 1)
  end.
Definition strchr_Base64 (ch : Z) : option Z := strchr_from Base64 ch 0.

(** A step either leaves the function or goes on with (state, tarindex,
    target). *)
Definition pton_state : Type := (Z * Z * option (list byte))%type.

(** [if (target) { if (bound >= targsize) return (-1); stores }]. *)
Definition guarded (target : option (list byte)) (bound targsize : Z)
    (stores : list byte -> option (list byte)) (next : option (list byte) -> pton_state)
  : b64_outcome + pton_state :=
  match target with
  | None => inr (next None)
  | Some t =>
      if bound >=? targsize then inl (B64Ret (-1) target)
      else match stores t with
           | Some t => inr (next (Some t))
           | None => inl B64Fault
           end
  end.

(** [target[i] |= v]. *)
Definition tor (t : list byte) (i v : Z) : option (list byte) :=
  b ← tget t i; tset t i (Z.lor (b2z b) v).

(** The [switch (state)] of the loop. *)
Definition pton_step (st : pton_state) (pos targsize : Z) : b64_outcome + pton_state :=
  let '(state, tarindex, target) := st in
  if state =? 0 then
    guarded target tarindex targsize
      (fun t => tset t tarindex (Z.shiftl pos 2))
      (fun t => (1, tarindex, t))
  else if state =? 1 then
    guarded target (u32 (tarindex + 1)) targsize
      (fun t => t ← tor t tarindex (Z.shiftr pos 4);
                tset t (u32 (tarindex + 1)) (Z.shiftl (Z.land pos 0x0f) 4))
      (fun t => (2, u32 (tarindex + 1), t))
  else if state =? 2 then
    guarded target (u32 (tarindex + 1)) targsize
      (fun t => t ← tor t tarindex (Z.shiftr pos 2);
                tset t (u32 (tarindex + 1)) (Z.shiftl (Z.land pos 0x03) 6))
      (fun t => (3, u32 (tarindex + 1), t))
  else
    guarded target tarindex targsize
      (fun t => tor t tarindex pos)
      (fun t => (0, u32 (tarindex + 1), t)).

(** Skips spaces: returns the first other character, with what follows. *)
Fixpoint skip_spaces (ch : Z) (src : list byte) : option (Z * list byte) :=
  if (ch =? 0) || negb (isspace ch) then Some (ch, src)
  else match src with
       | [] => None
       | b :: src => skip_spaces (s8 (b2z b)) src
       end.

(** The "single trailing =" case: only white space up to the end, and no bits
    in the byte that was begun. *)
Definition pton_tail (ch : Z) (src : list byte) (st : pton_state) : b64_outcome :=
  let '(state, tarindex, target) := st in
  match skip_spaces ch src with
  | None => B64Fault
  | Some (ch, _) =>
      if negb (ch =? 0) then B64Ret (-1) target
      else match target with
           | None => B64Ret (s32 tarindex) target
           | Some t =>
               match tget t tarindex with
               | None => B64Fault
               | Some b => if negb (b2z b =? 0) then B64Ret (-1) target
                           else B64Ret (s32 tarindex) target
               end
           end
  end.

(** After a pad character; [src] is what follows it. *)
Definition pton_pad (src : list byte) (st : pton_state) : b64_outcome :=
  let '(state, tarindex, target) := st in
  match src with
  | [] => B64Fault
  | b :: src =>
      let ch := s8 (b2z b) in
      if (state =? 0) || (state =? 1) then B64Ret (-1) target
      else if state =? 2 then
        match skip_spaces ch src with
        | None => B64Fault
        | Some (ch, src) =>
            if negb (ch =? Pad64) then B64Ret (-1) target
            else match src with
                 | [] => B64Fault
                 | b :: src => pton_tail (s8 (b2z b)) src st
                 end
        end
      else pton_tail ch src st
  end.

(** The main loop.  [src] is the string from the current position, with its
    terminator: reading past the list is a fault. *)
Fixpoint pton_loop (src : list byte) (st : pton_state) (targsize : Z) : b64_outcome :=
  match src with
  | [] => B64Fault
  | b :: src =>
      let ch := s8 (b2z b) in
      let '(state, tarindex, target) := st in
      if ch =? 0 then
        if negb (state =? 0) then B64Ret (-1) target else B64Ret (s32 tarindex) target
      else if isspace ch then pton_loop src st targsize
      else if ch =? Pad64 then pton_pad src st
      else match strchr_Base64 ch with
           | None => B64Ret (-1) target
           | Some pos =>
               match pton_step st pos targsize with
               | inl r => r
               | inr st => pton_loop src st targsize
               end
           end
  end.

Definition f_b64_pton (src : list byte) (target : option (list byte)) (targsize : Z)
  : b64_outcome :=
  pton_loop src (0, 0, target) targsize.

(** * Reference encoding *)

(** The character of a 6-bit group. *)
Definition b64_char (d : Z) : byte := nth (Z.to_nat d) Base64 x00.
Definition pad : byte := z2b Pad64.

(** Each 24-bit group is four 6-bit groups, most significant first; a final
    group of 8 or 16 bits is filled with zero bits and padded. *)
Fixpoint b64_encode (bs : list byte) : list byte :=
  match bs with
  | [] => []
  | [a] =>
      let n := b2z a * 65536 in
      [b64_char (n / 262144); b64_char (n / 4096 mod 64); pad; pad]
  | [a; b] =>
      let n := b2z a * 65536 + b2z b * 256 in
      [b64_char (n / 262144); b64_char (n / 4096 mod 64); b64_char (n / 64 mod 64); pad]
  | a :: b :: c :: bs =>
      let n := b2z a * 65536 + b2z b * 256 + b2z c in
      b64_char (n / 262144) :: b64_char (n / 4096 mod 64) :: b64_char (n / 64 mod 64) ::
      b64_char (n mod 64) :: b64_encode bs
  end.

Definition b64_length (n : nat) : Z := 4 * ((Z.of_nat n + 2) / 3).

(** A string without its white space. *)
Definition strip (s : list byte) : list byte :=
  List.filter (fun b => negb (isspace (s8 (b2z b)))) s.

(** The value of a character, and the reference decoder: whole groups, then at
    most one padded group whose unused bits are zero. *)
Definition b64_val (b : byte) : option Z := strchr_Base64 (s8 (b2z b)).

Fixpoint b64_decode (s : list byte) : option (list byte) :=
  match s with
  | [] => Some []
  | a :: b :: c :: d :: s =>
      x ← b64_val a; y ← b64_val b;
      let b0 := z2b (x * 4 + y / 16) in
      if decide (c = pad) then
        if decide (d = pad /\ s = [] /\ y mod 16 = 0) then Some [b0] else None
      else
        z ← b64_val c;
        let b1 := z2b (y mod 16 * 16 + z / 4) in
        if decide (d = pad) then
          if decide (s = [] /\ z mod 4 = 0) then Some [b0; b1] else None
        else
          w ← b64_val d; bs ← b64_decode s; Some (b0 :: b1 :: z2b (z mod 4 * 64 + w) :: bs)
  | _ => None
  end.

(** A C string: the bytes before the terminator. *)
Fixpoint cstr (s : list byte) : list byte :=
  match s with
  | [] => []
  | b :: s => if decide (b = x00) then [] else b :: cstr s
  end.

(** * Lemmas on characters *)

Lemma Base64_length : length Base64 = 64%nat.
Proof. reflexivity. Qed.

Lemma small_nat_ind (P : Z -> Prop) n :
  forallb (fun _ => true) (seq 0 n) = true ->
  Forall (fun i => P (Z.of_nat i)) (seq 0 n) -> forall d, 0 <= d < Z.of_nat n -> P d.
Proof.
  intros _ H d Hd. rewrite <- (Z2Nat.id d) by lia.
  apply (proj1 (Forall_forall _ _) H). apply in_seq. lia.
Qed.

(** The four facts about the characters of the alphabet. *)
Lemma b64_char_facts d :
  0 <= d < 64 ->
  strchr_Base64 (s8 (b2z (b64_char d))) = Some d /\ isspace (s8 (b2z (b64_char d))) = false /\
  b64_char d <> x00 /\ b64_char d <> pad /\ digit d = Some (b2z (b64_char d)).
Proof.
  revert d. apply (small_nat_ind _ 64 eq_refl). repeat constructor; vm_compute; congruence.
Qed.

Lemma b64_val_char d : 0 <= d < 64 -> b64_val (b64_char d) = Some d.
Proof. intros Hd. by destruct (b64_char_facts d Hd). Qed.

Lemma b64_val_inv b d : b64_val b = Some d -> b = b64_char d /\ 0 <= d < 64.
Proof. destruct b; vm_compute; intros H; inversion H; subst; split; (reflexivity || lia || easy). Qed.

Lemma b64_val_pad : b64_val pad = None.
Proof. reflexivity. Qed.

Lemma ch_zero b : (s8 (b2z b) =? 0) = bool_decide (b = x00).
Proof. by destruct b. Qed.

Lemma ch_pad b : (s8 (b2z b) =? Pad64) = bool_decide (b = pad).
Proof. by destruct b. Qed.

(** * Encoder *)

(** The 6-bit groups the shifts and masks compute. *)
Lemma groups_eq (a b c : byte) :
  let n := b2z a * 65536 + b2z b * 256 + b2z c in
  Z.shiftr (b2z a) 2 = n / 262144 /\
  u8 (Z.shiftl (Z.land (b2z a) 0x03) 4 + Z.shiftr (b2z b) 4) = n / 4096 mod 64 /\
  u8 (Z.shiftl (Z.land (b2z b) 0x0f) 2 + Z.shiftr (b2z c) 6) = n / 64 mod 64 /\
  Z.land (b2z c) 0x3f = n mod 64.
Proof.
  intros n. subst n. pose proof (b2z_bound a). pose proof (b2z_bound b). pose proof (b2z_bound c).
  change 0x03 with (Z.ones 2). change 0x0f with (Z.ones 4). change 0x3f with (Z.ones 6).
  rewrite !Z.land_ones, !Z.shiftr_div_pow2, !Z.shiftl_mul_pow2 by lia.
  unfold u8. change (2 ^ 2) with 4. change (2 ^ 4) with 16. change (2 ^ 6) with 64.
  change (2 ^ 8) with 256.
  generalize dependent (b2z a); generalize dependent (b2z b); generalize dependent (b2z c).
  intros z Hz y Hy x Hx.
  assert ((x * 65536 + y * 256 + z) / 64 = x * 1024 + y * 4 + z / 64) as ->.
  { Z.div_mod_to_equations. lia. }
  split_and!; [Z.div_mod_to_equations; lia | Z.div_mod_to_equations; lia | |
               Z.div_mod_to_equations; lia].
  assert (0 <= z / 64 < 4) as Hq by (Z.div_mod_to_equations; lia).
  generalize dependent (z / 64). intros q Hq.
  pose proof (Z.mod_pos_bound y 16 ltac:(lia)). rewrite Z.mod_small by lia.
  apply (Z.mod_unique _ _ (x * 16 + y / 16)); [lia|].
  pose proof (Z.div_mod y 16 ltac:(lia)). lia.
Qed.

Lemma groups_bound n : 0 <= n < 16777216 ->
  0 <= n / 262144 < 64 /\ 0 <= n / 4096 mod 64 < 64 /\ 0 <= n / 64 mod 64 < 64 /\ 0 <= n mod 64 < 64.
Proof. intros Hn. split_and!; Z.div_mod_to_equations; lia. Qed.

Lemma tset_app xs y ys v :
  tset (xs ++ y :: ys) (Z.of_nat (length xs)) v = Some (xs ++ z2b v :: ys).
Proof.
  unfold tset. rewrite length_app. cbn [length].
  rewrite (proj2 (Z.leb_le _ _)), (proj2 (Z.ltb_lt _ _)) by lia. cbn [andb]. rewrite Nat2Z.id.
  rewrite insert_app_r_alt by lia. by rewrite Nat.sub_diag.
Qed.

Lemma tget_app xs y ys : tget (xs ++ y :: ys) (Z.of_nat (length xs)) = Some y.
Proof.
  unfold tget. destruct (Z.ltb_spec (Z.of_nat (length xs)) 0); [lia|].
  rewrite Nat2Z.id, lookup_app_r by lia. by rewrite Nat.sub_diag.
Qed.

Lemma tor_app xs y ys v :
  tor (xs ++ y :: ys) (Z.of_nat (length xs)) v = Some (xs ++ z2b (Z.lor (b2z y) v) :: ys).
Proof. unfold tor. rewrite tget_app. cbn. apply tset_app. Qed.

Lemma put_all_app xs cs : forall ys,
  (length cs <= length ys)%nat ->
  put_all (xs ++ ys) (Z.of_nat (length xs)) (map (fun b => Some (b2z b)) cs)
  = Some (xs ++ cs ++ drop (length cs) ys).
Proof.
  revert xs; induction cs as [|c cs IH]; intros xs ys Hl; cbn [put_all map length] in *; [done|].
  destruct ys as [|y ys]; [cbn in Hl; lia|]. cbn [mbind option_bind drop].
  rewrite tset_app. cbn. rewrite z2b_b2z.
  replace (Z.of_nat (length xs) + 1) with (Z.of_nat (length (xs ++ [c])))
    by (rewrite length_app; cbn; lia).
  replace (xs ++ c :: ys) with ((xs ++ [c]) ++ ys) by (by rewrite <- app_assoc).
  rewrite IH by (cbn in Hl; lia). by rewrite <- app_assoc.
Qed.

(** Induction three bytes at a time. *)
Lemma list_ind3 (P : list byte -> Prop) :
  P [] -> (forall a, P [a]) -> (forall a b, P [a; b]) ->
  (forall a b c l, P l -> P (a :: b :: c :: l)) -> forall l, P l.
Proof.
  intros H0 H1 H2 H3. fix IH 1. intros [|a [|b [|c l]]]; [done | done | done |].
  apply H3. apply IH.
Qed.

Lemma b64_length_step n : b64_length (S (S (S n))) = b64_length n + 4.
Proof.
  unfold b64_length. replace (Z.of_nat (S (S (S n))) + 2) with (Z.of_nat n + 2 + 1 * 3) by lia.
  rewrite Z.div_add by lia. lia.
Qed.

Lemma length_b64_encode bs : Z.of_nat (length (b64_encode bs)) = b64_length (length bs).
Proof.
  induction bs as [| | |a b c bs IH] using list_ind3; [done..|].
  cbn [b64_encode length]. rewrite b64_length_step. lia.
Qed.

Lemma b64_length_bound n : 0 <= b64_length n /\ (n <> O -> 4 <= b64_length n).
Proof.
  unfold b64_length. split; [Z.div_mod_to_equations; lia|]. intros.
  Z.div_mod_to_equations; lia.
Qed.

(** Stores of four characters of the alphabet or pads. *)
Lemma put_chars xs ys cs vs :
  vs = map (fun b => Some (b2z b)) cs -> length cs = 4%nat ->
  Z.of_nat (length xs) + 4 <= Z.of_nat (length (xs ++ ys)) ->
  put_all (xs ++ ys) (Z.of_nat (length xs)) vs = Some ((xs ++ cs) ++ drop 4 ys).
Proof.
  intros -> Hc Hl. rewrite length_app in Hl. rewrite put_all_app by lia.
  by rewrite Hc, app_assoc.
Qed.

(** What the encoder does from any point: [xs] is already written. *)
Definition ntop_post (src xs ys : list byte) (targsize : Z) (out : b64_outcome) : Prop :=
  let total := Z.of_nat (length xs) + b64_length (length src) in
  if total <? targsize then
    out = B64Ret total (Some (xs ++ b64_encode src ++
                              x00 :: drop (S (Z.to_nat (b64_length (length src)))) ys))
  else exists t, out = B64Ret (-1) (Some t) /\ length t = length (xs ++ ys).

Lemma ntop_room xs ys targsize :
  Z.of_nat (length (xs ++ ys)) = targsize -> targsize < 2 ^ 31 ->
  ntop_post [] xs ys targsize (ntop_loop [] (xs ++ ys) (Z.of_nat (length xs)) targsize).
Proof.
  intros Ht Hs. unfold ntop_post. cbn [ntop_loop length b64_encode app].
  change (b64_length 0) with 0. rewrite Z.add_0_r.
  destruct (Z.ltb_spec (Z.of_nat (length xs)) targsize).
  - destruct (Z.geb_spec (Z.of_nat (length xs)) targsize); [lia|].
    rewrite length_app in Ht. destruct ys as [|y ys]; [cbn in Ht; lia|].
    rewrite tset_app. unfold s32. rewrite sx_small by lia. done.
  - destruct (Z.geb_spec (Z.of_nat (length xs)) targsize); [|lia].
    exists (xs ++ ys). done.
Qed.

(** A full step of the encoder: a group of four characters, or no room. *)
Lemma ntop_post_step src1 src cs xs ys targsize out :
  Z.of_nat (length (xs ++ ys)) = targsize -> targsize < 2 ^ 31 -> length cs = 4%nat ->
  b64_encode src1 = cs ++ b64_encode src ->
  b64_length (length src1) = b64_length (length src) + 4 ->
  (Z.of_nat (length xs) + 4 <= targsize ->
   ntop_post src (xs ++ cs) (drop 4 ys) targsize out) ->
  (targsize < Z.of_nat (length xs) + 4 -> out = B64Ret (-1) (Some (xs ++ ys))) ->
  ntop_post src1 xs ys targsize out.
Proof.
  intros Ht Hs Hc He Hl Hyes Hno. unfold ntop_post in *. rewrite Hl, He.
  pose proof (proj1 (b64_length_bound (length src))) as H0.
  destruct (Z.lt_ge_cases targsize (Z.of_nat (length xs) + 4)) as [Hr|Hr].
  - destruct (Z.ltb_spec (Z.of_nat (length xs) + (b64_length (length src) + 4)) targsize); [lia|].
    exists (xs ++ ys). by rewrite Hno.
  - specialize (Hyes Hr). rewrite length_app, Hc, !Nat2Z.inj_add in Hyes.
    change (Z.of_nat 4) with 4 in Hyes.
    replace (Z.of_nat (length xs) + 4 + b64_length (length src)) with
      (Z.of_nat (length xs) + (b64_length (length src) + 4)) in Hyes by lia.
    destruct (_ <? targsize).
    + rewrite Hyes, <- !app_assoc, drop_drop.
      by replace (S (Z.to_nat (b64_length (length src) + 4)))
        with (4 + S (Z.to_nat (b64_length (length src))))%nat by lia.
    + destruct Hyes as (t & -> & Hlt). exists t. split; [done|].
      rewrite length_app in Ht. rewrite !length_app, length_drop in Hlt.
      rewrite Hc in Hlt. rewrite Hlt, length_app. lia.
Qed.

Lemma u64_room n : 0 <= n -> n < 2 ^ 32 -> u64 (n + 4) = n + 4.
Proof. intros. apply u64_small. lia. Qed.

Lemma digit_char d : 0 <= d < 64 -> digit d = Some (b2z (b64_char d)).
Proof. intros Hd. by destruct (b64_char_facts d Hd) as (_ & _ & _ & _ & ?). Qed.

Lemma length_app4 (xs cs : list byte) :
  length cs = 4%nat -> Z.of_nat (length (xs ++ cs)) = Z.of_nat (length xs) + 4.
Proof. intros H. rewrite length_app, H. lia. Qed.

Lemma ntop_room4 xs cs ys targsize :
  length cs = 4%nat -> Z.of_nat (length (xs ++ ys)) = targsize -> targsize < 2 ^ 31 ->
  Z.of_nat (length xs) + 4 <= targsize ->
  ntop_post [] (xs ++ cs) (drop 4 ys) targsize
    (ntop_loop [] ((xs ++ cs) ++ drop 4 ys) (Z.of_nat (length xs) + 4) targsize).
Proof.
  intros Hc Ht Hs Hr. rewrite <- (length_app4 xs cs Hc). apply ntop_room; [|done].
  rewrite !length_app, length_drop in *. lia.
Qed.

Lemma ntop_loop_spec src : forall xs ys targsize,
  Z.of_nat (length (xs ++ ys)) = targsize -> targsize < 2 ^ 31 ->
  ntop_post src xs ys targsize (ntop_loop src (xs ++ ys) (Z.of_nat (length xs)) targsize).
Proof.
  induction src as [|a|a b|a b c src IH] using list_ind3; intros xs ys targsize Ht Hs;
    [by apply ntop_room | | |];
    pose proof (b2z_bound a);
    assert (Z.of_nat (length xs) < 2 ^ 31) by (rewrite length_app in Ht; lia).
  - destruct (groups_eq a x00 x00) as (E0 & E1 & E2 & _).
    change (b2z x00) with 0 in *. replace (b2z a * 65536 + 0 * 256 + 0) with (b2z a * 65536) in * by lia.
    destruct (groups_bound (b2z a * 65536) ltac:(lia)) as (B0 & B1 & _).
    cbn [ntop_loop nth length Nat.eqb]. rewrite u64_room by lia.
    change (b2z x00) with 0. rewrite E0, E1, !digit_char by done.
    change (b2z (z2b Pad64)) with Pad64.
    pose (cs := [b64_char (b2z a * 65536 / 262144);
             b64_char (b2z a * 65536 / 4096 mod 64); pad; pad]).
    apply (ntop_post_step [a] [] cs); try done;
      intros Hr; (destruct (Z.gtb_spec (Z.of_nat (length xs) + 4) targsize); [try lia; done|]);
      [|lia].
    rewrite (put_chars xs ys cs) by (try done; rewrite Ht; lia). by apply ntop_room4.
  - destruct (groups_eq a b x00) as (E0 & E1 & E2 & _). pose proof (b2z_bound b).
    change (b2z x00) with 0 in *.
    replace (b2z a * 65536 + b2z b * 256 + 0) with (b2z a * 65536 + b2z b * 256) in * by lia.
    destruct (groups_bound (b2z a * 65536 + b2z b * 256) ltac:(lia)) as (B0 & B1 & B2 & _).
    cbn [ntop_loop nth length Nat.eqb]. rewrite u64_room by lia.
    rewrite E0, E1, E2, !digit_char by done.
    pose (cs := [b64_char ((b2z a * 65536 + b2z b * 256) / 262144);
             b64_char ((b2z a * 65536 + b2z b * 256) / 4096 mod 64);
             b64_char ((b2z a * 65536 + b2z b * 256) / 64 mod 64); pad]).
    apply (ntop_post_step [a; b] [] cs); try done;
      intros Hr; (destruct (Z.gtb_spec (Z.of_nat (length xs) + 4) targsize); [try lia; done|]);
      [|lia].
    rewrite (put_chars xs ys cs) by (try done; rewrite Ht; lia). by apply ntop_room4.
  - destruct (groups_eq a b c) as (E0 & E1 & E2 & E3). pose proof (b2z_bound b).
    pose proof (b2z_bound c).
    destruct (groups_bound (b2z a * 65536 + b2z b * 256 + b2z c) ltac:(lia)) as (B0 & B1 & B2 & B3).
    cbn [ntop_loop]. rewrite u64_room by lia.
    rewrite E0, E1, E2, E3, !digit_char by done.
    set (n := b2z a * 65536 + b2z b * 256 + b2z c) in *.
    pose (cs := [b64_char (n / 262144);
             b64_char (n / 4096 mod 64); b64_char (n / 64 mod 64); b64_char (n mod 64)]).
    apply (ntop_post_step (a :: b :: c :: src) src cs);
      try done; [apply b64_length_step | |];
      intros Hr; (destruct (Z.gtb_spec (Z.of_nat (length xs) + 4) targsize); [try lia; done|]);
      [|lia].
    rewrite (put_chars xs ys cs) by (try done; rewrite Ht; lia).
    rewrite <- (length_app4 xs cs) by done. apply IH; [|done].
    rewrite !length_app, length_drop in *. change (length cs) with 4%nat. lia.
Qed.

(** * Reference decoder *)

(** Putting the 6-bit groups back together. *)
Lemma bytes_of_groups (a b c : byte) :
  let n := b2z a * 65536 + b2z b * 256 + b2z c in
  n / 262144 * 4 + n / 4096 mod 64 / 16 = b2z a /\
  n / 4096 mod 64 mod 16 * 16 + n / 64 mod 64 / 4 = b2z b /\
  n / 64 mod 64 mod 4 * 64 + n mod 64 = b2z c.
Proof.
  intros n. subst n. pose proof (b2z_bound a). pose proof (b2z_bound b). pose proof (b2z_bound c).
  generalize dependent (b2z a); generalize dependent (b2z b); generalize dependent (b2z c).
  intros z Hz y Hy x Hx.
  assert ((x * 65536 + y * 256 + z) / 64 = x * 1024 + y * 4 + z / 64) as ->.
  { Z.div_mod_to_equations. lia. }
  assert ((x * 65536 + y * 256 + z) / 4096 = x * 16 + y / 16) as ->.
  { Z.div_mod_to_equations. lia. }
  assert ((x * 65536 + y * 256 + z) / 262144 = x / 4) as -> by (Z.div_mod_to_equations; lia).
  assert ((x * 65536 + y * 256 + z) mod 64 = z mod 64) as ->.
  { replace (x * 65536 + y * 256 + z) with (z + (x * 1024 + y * 4) * 64) by lia.
    by rewrite Z_mod_plus_full. }
  assert ((x * 16 + y / 16) mod 64 = x mod 4 * 16 + y / 16) as ->.
  { symmetry. apply (Z.mod_unique _ _ (x / 4)); Z.div_mod_to_equations; lia. }
  assert ((x * 1024 + y * 4 + z / 64) mod 64 = y mod 16 * 4 + z / 64) as ->.
  { symmetry. apply (Z.mod_unique _ _ (x * 16 + y / 16)); Z.div_mod_to_equations; lia. }
  split_and!; Z.div_mod_to_equations; lia.
Qed.

(** And taking them apart. *)
Lemma groups_of_bytes x y z w :
  0 <= x < 64 -> 0 <= y < 64 -> 0 <= z < 64 -> 0 <= w < 64 ->
  let b0 := x * 4 + y / 16 in let b1 := y mod 16 * 16 + z / 4 in let b2 := z mod 4 * 64 + w in
  let n := b0 * 65536 + b1 * 256 + b2 in
  0 <= b0 < 256 /\ 0 <= b1 < 256 /\ 0 <= b2 < 256 /\
  n / 262144 = x /\ n / 4096 mod 64 = y /\ n / 64 mod 64 = z /\ n mod 64 = w.
Proof.
  intros Hx Hy Hz Hw b0 b1 b2 n.
  assert (n = x * 262144 + y * 4096 + z * 64 + w) as ->.
  { subst n b0 b1 b2. Z.div_mod_to_equations. lia. }
  subst b0 b1 b2. split_and!; Z.div_mod_to_equations; lia.
Qed.

Lemma b64_char_not_pad d : 0 <= d < 64 -> b64_char d <> pad.
Proof. intros Hd. by destruct (b64_char_facts d Hd) as (_ & _ & _ & ? & _). Qed.

Lemma b64_decode_encode bs : b64_decode (b64_encode bs) = Some bs.
Proof.
  assert (b2z x00 = 0) as Hx0 by reflexivity.
  induction bs as [|a|a b|a b c bs IH] using list_ind3; [done| | |]; pose proof (b2z_bound a).
  - pose proof (bytes_of_groups a x00 x00) as (E0 & E1 & E2). rewrite Hx0 in *.
    replace (b2z a * 65536 + 0 * 256 + 0) with (b2z a * 65536) in * by lia.
    destruct (groups_bound (b2z a * 65536)) as (B0 & B1 & B2 & B3); [lia|].
    cbn [b64_encode b64_decode]. rewrite !b64_val_char by done. cbn [mbind option_bind].
    rewrite !decide_True; [| |done].
    + by rewrite E0, z2b_b2z.
    + split_and!; [done..|]. Z.div_mod_to_equations; lia.
  - pose proof (bytes_of_groups a b x00) as (E0 & E1 & E2). rewrite Hx0 in *.
    pose proof (b2z_bound b). rewrite Z.add_0_r in *.
    destruct (groups_bound (b2z a * 65536 + b2z b * 256)) as (B0 & B1 & B2 & B3); [lia|].
    cbn [b64_encode b64_decode]. rewrite !b64_val_char by done. cbn [mbind option_bind].
    rewrite decide_False by (by apply b64_char_not_pad).
    rewrite !decide_True; [| |done].
    + by rewrite E0, E1, !z2b_b2z.
    + split; [done|]. Z.div_mod_to_equations; lia.
  - pose proof (bytes_of_groups a b c) as (E0 & E1 & E2).
    pose proof (b2z_bound b). pose proof (b2z_bound c).
    destruct (groups_bound (b2z a * 65536 + b2z b * 256 + b2z c)) as (B0 & B1 & B2 & B3); [lia|].
    cbn [b64_encode b64_decode]. rewrite !b64_val_char by done. cbn [mbind option_bind].
    rewrite !decide_False by (by apply b64_char_not_pad). rewrite IH. cbn [option_bind].
    by rewrite E0, E1, E2, !z2b_b2z.
Qed.

Lemma b64_encode_decode_len k : forall s bs,
  (length s <= k)%nat -> b64_decode s = Some bs -> b64_encode bs = s.
Proof.
  assert (b2z x00 = 0) as Hx0 by reflexivity.
  induction k as [|k IH]; intros s bs Hk Hd;
    destruct s as [|a [|b [|c [|d s]]]];
    [by injection Hd as <- | done | done | done | by cbn in Hk; lia |
     by injection Hd as <- | done | done | done |].
  cbn [b64_decode] in Hd.
  destruct (b64_val a) as [x|] eqn:Ex; [|done]. cbn [mbind option_bind] in Hd.
  destruct (b64_val b) as [y|] eqn:Ey; [|done]. cbn [mbind option_bind] in Hd.
  apply b64_val_inv in Ex as [-> Hx]. apply b64_val_inv in Ey as [-> Hy].
  destruct (decide (c = pad)) as [->|Hc].
  - destruct (decide _) as [(-> & -> & H0)|]; [|done]. injection Hd as <-.
    cbn [b64_encode]. destruct (groups_of_bytes x y 0 0) as (B0 & _ & _ & G0 & G1 & _ & _);
      [lia..|]. rewrite b2z_z2b_small by done.
    rewrite H0 in G0, G1. change (0 * 16 + 0 / 4) with 0 in *.
    change (0 mod 4 * 64 + 0) with 0 in *. rewrite Z.mul_0_l, !Z.add_0_r in G0, G1.
    by rewrite G0, G1.
  - destruct (b64_val c) as [z|] eqn:Ez; [|done]. cbn [mbind option_bind] in Hd.
    apply b64_val_inv in Ez as [-> Hz].
    destruct (decide (d = pad)) as [->|Hdp].
    + destruct (decide _) as [(-> & H0)|]; [|done]. injection Hd as <-.
      cbn [b64_encode].
      destruct (groups_of_bytes x y z 0) as (B0 & B1 & _ & G0 & G1 & G2 & _); [lia..|].
      rewrite !b2z_z2b_small by done.
      rewrite H0, Z.mul_0_l, !Z.add_0_r in G0, G1, G2. by rewrite G0, G1, G2.
    + destruct (b64_val d) as [v|] eqn:Ev; [|done]. cbn [mbind option_bind] in Hd.
      destruct (b64_decode s) as [bs'|] eqn:Es; [|done]. cbn [option_bind] in Hd.
      injection Hd as <-. apply b64_val_inv in Ev as [-> Hv].
      cbn [b64_encode].
      destruct (groups_of_bytes x y z v) as (B0 & B1 & B2 & G0 & G1 & G2 & G3); [lia..|].
      rewrite !b2z_z2b_small by done. rewrite G0, G1, G2, G3.
      rewrite (IH s) by (done || (cbn in Hk; lia)). done.
Qed.

(** The accepted strings are exactly the encodings. *)
Lemma b64_decode_iff s bs : b64_decode s = Some bs <-> s = b64_encode bs.
Proof.
  split.
  - intros H. symmetry. by apply (b64_encode_decode_len (length s)).
  - intros ->. apply b64_decode_encode.
Qed.

(** * Decoder *)

(** The bytes begun by the groups read since the last multiple of four. *)
Definition part_bytes (part : list Z) : list Z :=
  match part with
  | [x] => [x * 4]
  | [x; y] => [x * 4 + y / 16; y mod 16 * 16]
  | [x; y; z] => [x * 4 + y / 16; y mod 16 * 16 + z / 4; z mod 4 * 64]
  | _ => []
  end.

(** The state of the decoder after the characters that decode to [out] and then
    those of the 6-bit groups [part]. *)
Record pton_inv (targsize : Z) (out : list byte) (part : list Z) (st : pton_state) : Prop := {
  pi_part : Forall (fun x => 0 <= x < 64) part;
  pi_len : (length part < 4)%nat;
  pi_state : st.1.1 = Z.of_nat (length part);
  pi_index : st.1.2 = Z.of_nat (length out) + Z.max 0 (Z.of_nat (length part) - 1);
  pi_target : exists rest, st.2 = Some (out ++ map z2b (part_bytes part) ++ rest) /\
    Z.of_nat (length (out ++ map z2b (part_bytes part) ++ rest)) = targsize;
}.

(** The stores of states 1 and 2: complete a byte, begin the next. *)
Lemma tor_tset xs b y ys v v' :
  (t ← tor (xs ++ b :: y :: ys) (Z.of_nat (length xs)) v;
   tset t (Z.of_nat (length xs) + 1) v')
  = Some (xs ++ z2b (Z.lor (b2z b) v) :: z2b v' :: ys).
Proof.
  rewrite tor_app. cbn [mbind option_bind]. set (b' := z2b (Z.lor (b2z b) v)).
  replace (Z.of_nat (length xs) + 1) with (Z.of_nat (length (xs ++ [b'])))
    by (rewrite length_app; cbn; lia).
  replace (xs ++ b' :: y :: ys) with ((xs ++ [b']) ++ y :: ys) by (by rewrite <- app_assoc).
  rewrite tset_app. by rewrite <- app_assoc.
Qed.

(** Merging a begun byte with the high bits of the next group. *)
Lemma merge x k p v :
  0 <= p <= 8 -> x * 2 ^ p = k -> 0 <= k < 256 -> 0 <= v < 2 ^ p ->
  z2b (Z.lor (b2z (z2b k)) v) = z2b (k + v).
Proof.
  intros Hp <- Hk Hv. rewrite b2z_z2b_small by done. by rewrite lor_add_l by lia.
Qed.

(** The bytes of a whole group. *)
Definition group_bytes (part : list Z) (w : Z) : list byte :=
  match part with
  | [x; y; z] => map z2b [x * 4 + y / 16; y mod 16 * 16 + z / 4; z mod 4 * 64 + w]
  | _ => []
  end.

Definition step_out (out : list byte) (part : list Z) (pos : Z) : list byte * list Z :=
  if Nat.eqb (length part) 3 then (out ++ group_bytes part pos, []) else (out, part ++ [pos]).

(** The index the next character makes the decoder write to. *)
Definition write_index (part : list Z) : Z := Z.min 2 (Z.of_nat (length part)).

Definition step_post (targsize : Z) (out : list byte) (part : list Z) (pos : Z)
    (r : b64_outcome + pton_state) : Prop :=
  match r with
  | inr st' => pton_inv targsize (fst (step_out out part pos)) (snd (step_out out part pos)) st'
  | inl r => exists t, r = B64Ret (-1) (Some t) /\ Z.of_nat (length t) = targsize /\
      targsize <= Z.of_nat (length out) + write_index part
  end.

Ltac in_range := repeat first [apply List.Forall_nil | apply List.Forall_cons; [lia|]].

Lemma pton_step_0 targsize out st pos :
  pton_inv targsize out [] st -> 0 <= pos < 64 ->
  step_post targsize out [] pos (pton_step st pos targsize).
Proof.
  intros [_ _ Hs Hi (rest & Ht & Hl)] Hp. destruct st as [[state ti] tgt]. cbn in *.
  subst state ti tgt. cbn [pton_step Z.eqb guarded].
  rewrite Z.add_0_r. destruct (Z.geb_spec (Z.of_nat (length out)) targsize).
  - exists (out ++ rest). unfold write_index. cbn. split_and!; [done | done | lia].
  - rewrite length_app in Hl. destruct rest as [|r rest]; [cbn in Hl; lia|].
    rewrite tset_app. cbn. split; cbn; try lia.
    + by constructor.
    + rewrite Z.shiftl_mul_pow2 by lia. change (2 ^ 2) with 4.
      exists rest. split; [done|]. rewrite length_app. cbn in *. lia.
Qed.

Lemma pton_step_1 targsize out x st pos :
  pton_inv targsize out [x] st -> 0 <= pos < 64 -> Z.of_nat (length out) + 4 < 2 ^ 32 ->
  step_post targsize out [x] pos (pton_step st pos targsize).
Proof.
  intros [Hpt _ Hs Hi (rest & Ht & Hl)] Hp Hsm. destruct st as [[state ti] tgt]. cbn in *.
  pose proof (Forall_inv Hpt) as Hx. cbn in Hx.
  subst state ti tgt. cbn [pton_step Z.eqb guarded]. rewrite Z.add_0_r, u32_small by lia.
  destruct (Z.geb_spec (Z.of_nat (length out) + 1) targsize).
  - eexists. unfold write_index. cbn. split_and!; [done | done | lia].
  - rewrite length_app in Hl. destruct rest as [|r rest]; [cbn in Hl; lia|].
    rewrite tor_tset, (merge x _ 2), Z.shiftr_div_pow2;
      try lia; [|rewrite Z.shiftr_div_pow2; Z.div_mod_to_equations; lia].
    change 0x0f with (Z.ones 4). rewrite Z.land_ones, (Z.shiftl_mul_pow2 (pos mod 2 ^ 4) 4) by lia.
    change (2 ^ 4) with 16. cbn. split; cbn; try lia.
    + in_range.
    + exists rest. split; [done|]. rewrite length_app. cbn in *. lia.
Qed.

Lemma length_snoc {A} (xs : list A) b : Z.of_nat (length (xs ++ [b])) = Z.of_nat (length xs) + 1.
Proof. rewrite length_app. cbn. lia. Qed.

Lemma pton_step_2 targsize out x y st pos :
  pton_inv targsize out [x; y] st -> 0 <= pos < 64 -> Z.of_nat (length out) + 4 < 2 ^ 32 ->
  step_post targsize out [x; y] pos (pton_step st pos targsize).
Proof.
  intros [Hpt _ Hs Hi (rest & Ht & Hl)] Hp Hsm. destruct st as [[state ti] tgt]. cbn in *.
  pose proof (Forall_inv Hpt) as Hx. cbn in Hx. apply Forall_inv_tail in Hpt.
  pose proof (Forall_inv Hpt) as Hy. cbn in Hy.
  assert (state = 2) as -> by lia.
  assert (ti = Z.of_nat (length out) + 1) as -> by lia. subst tgt.
  cbn [pton_step Z.eqb Pos.eqb guarded]. rewrite u32_small by lia.
  destruct (Z.geb_spec (Z.of_nat (length out) + 1 + 1) targsize).
  - eexists. unfold write_index. cbn. split_and!; [done | done | lia].
  - rewrite length_app in Hl. destruct rest as [|r rest]; [cbn in Hl; lia|].
    set (b0 := z2b (x * 4 + y / 16)).
    rewrite <- (length_snoc out b0).
    replace (out ++ b0 :: z2b (y mod 16 * 16) :: r :: rest)
      with ((out ++ [b0]) ++ z2b (y mod 16 * 16) :: r :: rest) by (by rewrite <- app_assoc).
    rewrite tor_tset, (merge (y mod 16) _ 4), Z.shiftr_div_pow2;
      try lia; [| Z.div_mod_to_equations; lia
                | rewrite Z.shiftr_div_pow2; Z.div_mod_to_equations; lia].
    change (Z.land pos 0x03) with (Z.land pos (Z.ones 2)). rewrite Z.land_ones, (Z.shiftl_mul_pow2 (pos mod 2 ^ 2) 6) by lia.
    change (2 ^ 2) with 4. change (2 ^ 6) with 64. cbn.
    split; cbn; rewrite ?length_snoc; try lia.
    + in_range.
    + exists rest. rewrite <- app_assoc. split; [done|]. rewrite length_app. cbn in *. lia.
Qed.

Lemma pton_step_3 targsize out x y z st pos :
  pton_inv targsize out [x; y; z] st -> 0 <= pos < 64 -> Z.of_nat (length out) + 4 < 2 ^ 32 ->
  step_post targsize out [x; y; z] pos (pton_step st pos targsize).
Proof.
  intros [Hpt _ Hs Hi (rest & Ht & Hl)] Hp Hsm. destruct st as [[state ti] tgt]. cbn in *.
  assert (state = 3) as -> by lia.
  assert (ti = Z.of_nat (length out) + 2) as -> by lia. subst tgt.
  cbn [pton_step Z.eqb Pos.eqb guarded].
  destruct (Z.geb_spec (Z.of_nat (length out) + 2) targsize).
  - eexists. unfold write_index. cbn. split_and!; [done | done | lia].
  - set (b0 := z2b (x * 4 + y / 16)). set (b1 := z2b (y mod 16 * 16 + z / 4)).
    replace (Z.of_nat (length out) + 2) with (Z.of_nat (length (out ++ [b0; b1])))
      by (rewrite length_app; cbn; lia).
    replace (out ++ b0 :: b1 :: z2b (z mod 4 * 64) :: rest)
      with ((out ++ [b0; b1]) ++ z2b (z mod 4 * 64) :: rest) by (by rewrite <- app_assoc).
    rewrite tor_app, (merge (z mod 4) _ 6); try lia; [|Z.div_mod_to_equations; lia].
    rewrite <- app_assoc. cbn. split; cbn; try lia.
    + in_range.
    + rewrite !length_app. cbn. rewrite u32_small by lia. lia.
    + exists rest. rewrite <- !app_assoc. split; [done|].
      rewrite length_app in *. cbn in *. lia.
Qed.

Lemma pton_step_spec targsize out part st pos :
  pton_inv targsize out part st -> 0 <= pos < 64 -> Z.of_nat (length out) + 4 < 2 ^ 32 ->
  step_post targsize out part pos (pton_step st pos targsize).
Proof.
  intros Hi Hp Hs. pose proof (pi_len _ _ _ _ Hi) as Hl.
  destruct part as [|x [|y [|z [|w part]]]]; [| | | |cbn in Hl; lia].
  - by apply pton_step_0.
  - by apply pton_step_1.
  - by apply pton_step_2.
  - by apply pton_step_3.
Qed.

(** ** Rejections of the reference decoder *)

Lemma Forall_range3 x y z :
  Forall (fun x => 0 <= x < 64) [x; y; z] -> 0 <= x < 64 /\ 0 <= y < 64 /\ 0 <= z < 64.
Proof. intros H. repeat (apply List.Forall_cons_iff in H as [? H]). done. Qed.

Lemma decode_short part :
  part <> [] -> (length part < 4)%nat -> b64_decode (map b64_char part) = None.
Proof. by destruct part as [|x [|y [|z [|w part]]]]; cbn; intros; try lia. Qed.

(** A character outside the alphabet and not a pad, anywhere. *)
Lemma decode_bad part b s :
  (length part < 4)%nat -> Forall (fun x => 0 <= x < 64) part -> b64_val b = None ->
  b <> pad -> b64_decode (map b64_char part ++ b :: s) = None.
Proof.
  intros Hl Hp Hb Hn.
  destruct part as [|x [|y [|z [|w part]]]]; [| | | | cbn in Hl; lia];
    cbn [map app b64_decode]; destruct s as [|s0 [|s1 [|s2 s]]]; try done;
    repeat (apply List.Forall_cons_iff in Hp as [? Hp]);
    rewrite ?b64_val_char by done; rewrite ?Hb; cbn [mbind option_bind];
    rewrite ?(decide_False _ _ Hn); try done.
  all: try (destruct (b64_val s0); done).
  all: rewrite ?decide_False by (by apply b64_char_not_pad); try done.
Qed.

(** A pad as the first or second character of a group. *)
Lemma decode_early_pad part s :
  (length part < 2)%nat -> Forall (fun x => 0 <= x < 64) part ->
  b64_decode (map b64_char part ++ pad :: s) = None.
Proof.
  intros Hl Hp. destruct part as [|x [|y part]]; [| | cbn in Hl; lia];
    cbn [map app b64_decode]; destruct s as [|s0 [|s1 [|s2 s]]]; try done;
    repeat (apply List.Forall_cons_iff in Hp as [? Hp]);
    rewrite ?b64_val_char by done; done.
Qed.

Lemma decode_pad2 x y s :
  0 <= x < 64 -> 0 <= y < 64 ->
  b64_decode (map b64_char [x; y] ++ pad :: s) =
    if decide (s = [pad] /\ y mod 16 = 0) then Some [z2b (x * 4 + y / 16)] else None.
Proof.
  intros Hx Hy. cbn [map app b64_decode].
  destruct s as [|s0 s]; [rewrite decide_False; [done|]; by intros [? ?]|].
  rewrite !b64_val_char by done. cbn [mbind option_bind]. rewrite (decide_True _ _ eq_refl).
  apply decide_ext. split; [by intros (-> & -> & ?) | by intros ([= -> ->] & ?)].
Qed.

Lemma decode_pad3 x y z s :
  0 <= x < 64 -> 0 <= y < 64 -> 0 <= z < 64 ->
  b64_decode (map b64_char [x; y; z] ++ pad :: s) =
    if decide (s = [] /\ z mod 4 = 0)
    then Some [z2b (x * 4 + y / 16); z2b (y mod 16 * 16 + z / 4)] else None.
Proof.
  intros Hx Hy Hz. cbn [map app b64_decode].
  rewrite !b64_val_char by done. cbn [mbind option_bind].
  rewrite decide_False by (by apply b64_char_not_pad). by rewrite (decide_True _ _ eq_refl).
Qed.

Lemma decode_group x y z w s :
  0 <= x < 64 -> 0 <= y < 64 -> 0 <= z < 64 -> 0 <= w < 64 ->
  b64_decode (map b64_char [x; y; z] ++ b64_char w :: s) =
    bs ← b64_decode s; Some (group_bytes [x; y; z] w ++ bs).
Proof.
  intros Hx Hy Hz Hw. cbn [map app b64_decode].
  rewrite !b64_val_char by done. cbn [mbind option_bind].
  by rewrite !decide_False by (by apply b64_char_not_pad).
Qed.

(** Enough characters make enough bytes. *)
Lemma decode_length part pos s d :
  (length part < 4)%nat -> Forall (fun x => 0 <= x < 64) part -> 0 <= pos < 64 ->
  b64_decode (map b64_char part ++ b64_char pos :: s) = Some d ->
  write_index part <= Z.of_nat (length d).
Proof.
  intros Hl Hp Hpos H. unfold write_index.
  destruct part as [|x [|y [|z [|w part]]]]; [cbn; lia | | | | cbn in Hl; lia];
    repeat (apply List.Forall_cons_iff in Hp as [? Hp]).
  - cbn [map app b64_decode] in H. destruct s as [|s0 [|s1 s]]; try done.
    rewrite !b64_val_char in H by done. cbn [mbind option_bind] in H.
    destruct (decide (s0 = pad)) as [->|Hns0].
    { match type of H with context [decide ?P] => destruct (decide P) end; [|done].
      by injection H as <-. }
    destruct (b64_val s0); [|done]. cbn [mbind option_bind] in H.
    destruct (decide (s1 = pad)) as [->|Hns1].
    { match type of H with context [decide ?P] => destruct (decide P) end; [|done].
      by injection H as <-. }
    destruct (b64_val s1); [|done]. cbn [mbind option_bind] in H.
    destruct (b64_decode s); [|done]. injection H as <-. cbn. lia.
  - cbn [map app b64_decode] in H. destruct s as [|s1 s]; try done.
    rewrite !b64_val_char in H by done. cbn [mbind option_bind] in H.
    rewrite decide_False in H by (by apply b64_char_not_pad).
    destruct (decide (s1 = pad)) as [->|Hns1].
    { match type of H with context [decide ?P] => destruct (decide P) end; [|done].
      by injection H as <-. }
    destruct (b64_val s1); [|done]. cbn [mbind option_bind] in H.
    destruct (b64_decode s); [|done]. injection H as <-. cbn. lia.
  - rewrite decode_group in H by done. destruct (b64_decode s); [|done].
    injection H as <-. cbn. lia.
Qed.

(** ** Strings *)

Lemma cstr_cons b s : b <> x00 -> cstr (b :: s) = b :: cstr s.
Proof. intros H. cbn. by rewrite decide_False. Qed.

Lemma strip_cons_space b s : isspace (s8 (b2z b)) = true -> strip (b :: s) = strip s.
Proof. intros H. unfold strip. cbn. by rewrite H. Qed.

Lemma strip_cons b s : isspace (s8 (b2z b)) = false -> strip (b :: s) = b :: strip s.
Proof. intros H. unfold strip. cbn. by rewrite H. Qed.

Lemma terminated_tail b s : b <> x00 -> x00 ∈ b :: s -> x00 ∈ s.
Proof. intros Hb H. apply elem_of_cons in H as [H|H]; [congruence | exact H]. Qed.

(** [skip_spaces] stops at the terminator or at the next character that is not
    a space. *)
Lemma skip_spaces_spec src : forall b,
  x00 ∈ b :: src ->
  exists ch rest, skip_spaces (s8 (b2z b)) src = Some (ch, rest) /\
    (ch = 0 /\ strip (cstr (b :: src)) = [] \/
     exists c, ch = s8 (b2z c) /\ c <> x00 /\ x00 ∈ rest /\
               strip (cstr (b :: src)) = c :: strip (cstr rest)).
Proof.
  induction src as [|c src IH]; intros b Hin; cbn [skip_spaces];
    rewrite ch_zero; destruct (decide (b = x00)) as [->|Hb].
  - eexists _, _. split; [done|]. by left.
  - by apply terminated_tail, not_elem_of_nil in Hin.
  - eexists _, _. split; [done|]. by left.
  - rewrite bool_decide_false by done. cbn [orb].
    pose proof (terminated_tail _ _ Hb Hin) as Hin'. rewrite (cstr_cons b) by done.
    destruct (isspace (s8 (b2z b))) eqn:Es; cbn [negb].
    + rewrite strip_cons_space by done. by apply IH.
    + eexists _, _. split; [done|]. right. exists b. rewrite strip_cons by done. done.
Qed.

(** The outcome promised for the characters [s], decoded after [out]. *)
Definition pton_post (targsize : Z) (out s : list byte) (res : b64_outcome) : Prop :=
  exists r t, res = B64Ret r (Some t) /\ Z.of_nat (length t) = targsize /\
    match b64_decode s with
    | None => r = -1
    | Some d =>
        r = Z.of_nat (length (out ++ d)) /\ take (length (out ++ d)) t = out ++ d \/
        r = -1 /\ targsize <= Z.of_nat (length out) + Z.of_nat (length d)
    end.

(** The end of a padded group: [d] is what it decodes to if nothing follows and
    the spare bits [v] are zero. *)
Lemma pton_tail_spec targsize out d v rest b src state t ti :
  t = (out ++ d) ++ z2b v :: rest -> Z.of_nat (length t) = targsize ->
  ti = Z.of_nat (length (out ++ d)) -> ti < 2 ^ 31 -> 0 <= v < 256 ->
  x00 ∈ b :: src ->
  exists r, pton_tail (s8 (b2z b)) src (state, ti, Some t) = B64Ret r (Some t) /\
    r = (if decide (strip (cstr (b :: src)) = [] /\ v = 0) then ti else -1).
Proof.
  intros Ht Hl -> Hti Hv Hin. unfold pton_tail.
  destruct (skip_spaces_spec src b Hin) as (ch & rs & -> & H).
  destruct H as [[-> Hs] | (c & -> & Hc & _ & Hs)].
  - cbn [Z.eqb negb]. rewrite Ht, tget_app, b2z_z2b_small by done. rewrite Hs.
    destruct (Z.eqb_spec v 0) as [->|Hv0]; cbn [negb].
    + rewrite decide_True by done. eexists. split; [done|]. unfold s32. apply sx_small; lia.
    + rewrite decide_False by (by intros []). by eexists.
  - rewrite ch_zero, bool_decide_false by done. cbn [negb]. rewrite Hs.
    rewrite decide_False by (by intros []). by eexists.
Qed.

Lemma elem_of_cons_ne (b : byte) s : x00 ∈ s -> exists c s', s = c :: s' /\ x00 ∈ c :: s'.
Proof. destruct s as [|c s']; [by intros ?%elem_of_nil|]. eauto. Qed.

Lemma mul_zero_iff a k : 0 < k -> a * k = 0 <-> a = 0.
Proof. lia. Qed.

(** A pad after the characters of [part]. *)
Lemma pton_pad_spec targsize out part st src :
  pton_inv targsize out part st -> Z.of_nat (length out) + 4 < 2 ^ 31 -> x00 ∈ src ->
  pton_post targsize out (map b64_char part ++ pad :: strip (cstr src)) (pton_pad src st).
Proof.
  intros [Hpt Hl Hs Hi (rest & Ht & Hlen)] Hsm Hin. destruct st as [[state ti] tgt]. unfold pton_post.
  cbn [fst snd] in *. destruct (elem_of_cons_ne x00 src Hin) as (b & s & -> & Hin').
  assert (Hz : Z.of_nat (length part) < 4) by lia.
  destruct part as [|x [|y [|z [|w part]]]]; [| | | |cbn in Hl; lia].
  - assert (state = 0) as -> by (cbn in Hs; lia). cbn [pton_pad Z.eqb orb]. rewrite Ht.
    eexists _, _. split; [done|]. split; [done|]. by rewrite decode_early_pad by (cbn; lia || done).
  - assert (state = 1) as -> by (cbn in Hs; lia). cbn [pton_pad Z.eqb Pos.eqb orb]. rewrite Ht.
    eexists _, _. split; [done|]. split; [done|]. by rewrite decode_early_pad by (cbn; lia || done).
  - assert (state = 2) as -> by (cbn in Hs; lia). cbn [pton_pad Z.eqb Pos.eqb orb].
    apply List.Forall_cons_iff in Hpt as [Hx Hpt]. apply List.Forall_cons_iff in Hpt as [Hy _].
    rewrite decode_pad2 by done.
    destruct (skip_spaces_spec s b Hin') as (ch & rs & -> & H).
    destruct H as [[-> Hst] | (c & -> & Hc & Hr & Hst)].
    + cbn [Z.eqb negb Pad64]. rewrite Hst, Ht. eexists _, _. split; [done|]. split; [done|].
      by rewrite decide_False by (by intros []).
    + rewrite ch_pad. destruct (decide (c = pad)) as [->|Hcp].
      * rewrite bool_decide_true by done. cbn [negb].
        destruct (elem_of_cons_ne x00 rs Hr) as (b2 & s2 & -> & Hr').
        rewrite Ht.
        destruct (pton_tail_spec targsize out [z2b (x * 4 + y / 16)] (y mod 16 * 16) rest b2 s2 2
          (out ++ map z2b (part_bytes [x; y]) ++ rest) ti) as (r & -> & Hr2); try done;
          [by rewrite <- app_assoc | rewrite length_app; cbn in *; lia | cbn in *; lia
          | Z.div_mod_to_equations; lia |].
        eexists _, _. split; [done|]. split; [done|]. rewrite Hst.
        rewrite Hr2. clear Hr2.
        destruct (decide (strip (cstr (b2 :: s2)) = [] /\ _)) as [[E1 E2]|E].
        -- rewrite decide_True by (rewrite E1; split; [done|lia]).
           left. split; [rewrite length_app; cbn in *; lia|].
           assert (out ++ map z2b (part_bytes [x; y]) ++ rest =
             (out ++ [z2b (x * 4 + y / 16)]) ++ z2b (y mod 16 * 16) :: rest) as ->
             by (by rewrite <- app_assoc).
           apply take_app_length.
        -- rewrite decide_False; [done|]. intros [[= E1] E2]. apply E. split; [done|lia].
      * rewrite bool_decide_false by done. cbn [negb]. rewrite Hst, Ht.
        eexists _, _. split; [done|]. split; [done|].
        rewrite decide_False; [done|]. by intros [[= ? ?] ?].
  - assert (state = 3) as -> by (cbn in Hs; lia). cbn [pton_pad Z.eqb Pos.eqb orb].
    apply Forall_range3 in Hpt as (Hx & Hy & Hz'). rewrite decode_pad3 by done. rewrite Ht.
    destruct (pton_tail_spec targsize out [z2b (x * 4 + y / 16); z2b (y mod 16 * 16 + z / 4)]
      (z mod 4 * 64) rest b s 3
      (out ++ map z2b (part_bytes [x; y; z]) ++ rest) ti) as (r & -> & Hr2); try done;
      [by rewrite <- app_assoc | rewrite length_app; cbn in *; lia | cbn in *; lia
      | Z.div_mod_to_equations; lia |].
    eexists _, _. split; [done|]. split; [done|]. rewrite Hr2. clear Hr2.
    destruct (decide (strip (cstr (b :: s)) = [] /\ _)) as [[E1 E2]|E].
    + rewrite decide_True by (rewrite E1; split; [done|lia]).
      left. split; [rewrite length_app; cbn in *; lia|].
      assert (out ++ map z2b (part_bytes [x; y; z]) ++ rest =
        (out ++ [z2b (x * 4 + y / 16); z2b (y mod 16 * 16 + z / 4)]) ++
        z2b (z mod 4 * 64) :: rest) as -> by (by rewrite <- app_assoc).
      apply take_app_length.
    + rewrite decide_False; [done|]. intros [E1 E2]. apply E. split; [done|lia].
Qed.

(** The characters of a group, finished or not. *)
Lemma pton_post_step targsize out part pos s res :
  (length part < 4)%nat -> Forall (fun x => 0 <= x < 64) part -> 0 <= pos < 64 ->
  pton_post targsize (fst (step_out out part pos))
    (map b64_char (snd (step_out out part pos)) ++ s) res ->
  pton_post targsize out (map b64_char part ++ b64_char pos :: s) res.
Proof.
  intros Hl Hp Hpos. unfold step_out.
  destruct (Nat.eqb_spec (length part) 3) as [H3|H3]; cbn [fst snd].
  - destruct part as [|x [|y [|z [|w part]]]]; try done.
    apply Forall_range3 in Hp as (Hx & Hy & Hz). cbn [map app].
    intros (r & t & -> & Ht & H). exists r, t. split; [done|]. split; [done|].
    change (b64_char x :: b64_char y :: b64_char z :: b64_char pos :: s)
      with (map b64_char [x; y; z] ++ b64_char pos :: s).
    rewrite decode_group by done. destruct (b64_decode s) as [d|]; [|done].
    cbn [mbind option_bind]. rewrite app_assoc.
    destruct H as [H|[H1 H2]]; [by left|]. right. split; [done|].
    rewrite length_app in *. lia.
  - rewrite map_app, <- app_assoc. done.
Qed.

Lemma pton_loop_post src : forall targsize out part st,
  pton_inv targsize out part st -> x00 ∈ src ->
  Z.of_nat (length out) + Z.of_nat (length src) * 3 + 4 < 2 ^ 31 ->
  pton_post targsize out (map b64_char part ++ strip (cstr src)) (pton_loop src st targsize).
Proof.
  induction src as [|b src IH]; intros targsize out part st Hi Hin Hsm; [by apply not_elem_of_nil in Hin|].
  pose proof Hi as [Hpt Hl Hs Hix (rest & Ht & Hlen)].
  cbn [pton_loop]. destruct st as [[state ti] tgt]. cbn [fst snd] in *.
  rewrite ch_zero, ch_pad.
  destruct (decide (b = x00)) as [->|Hb].
  - rewrite bool_decide_true by done. cbn [cstr strip]. rewrite decide_True by done.
    cbn [strip List.filter]. rewrite app_nil_r. destruct (Z.eqb_spec state 0) as [->|Hst]; cbn [negb]; rewrite Ht.
    + destruct part; [|cbn in Hs; lia]. cbn in Hix. rewrite Z.add_0_r in Hix.
      eexists _, _. split; [done|]. split; [done|]. cbn. left. rewrite app_nil_r.
      split; [unfold s32; rewrite sx_small; cbn in *; lia|]. apply take_app_length.
    + eexists _, _. split; [done|]. split; [done|].
      by rewrite decode_short by (done || (destruct part; [cbn in Hs; lia | done])).
  - rewrite bool_decide_false by done. pose proof (terminated_tail _ _ Hb Hin) as Hin'.
    rewrite cstr_cons by done. destruct (isspace (s8 (b2z b))) eqn:Esp.
    { rewrite strip_cons_space by done. apply IH; [done | done | cbn in Hsm; lia]. }
    rewrite strip_cons by done. destruct (decide (b = pad)) as [->|Hbp].
    { rewrite bool_decide_true by done. by apply pton_pad_spec; [|cbn in Hsm; lia|]. }
    rewrite bool_decide_false by done.
    destruct (strchr_Base64 (s8 (b2z b))) as [pos|] eqn:Ech.
    + apply b64_val_inv in Ech as [-> Hpos].
      pose proof (pton_step_spec targsize out part _ pos Hi Hpos ltac:(cbn in Hsm; lia)) as Hst.
      destruct (pton_step _ pos targsize) as [res|st'].
      * destruct Hst as (t & -> & Htl & Hw). exists (-1), t. split; [done|]. split; [done|].
        destruct (b64_decode _) as [d|] eqn:Ed; [|done]. right. split; [done|].
        pose proof (decode_length part pos _ d Hl Hpt Hpos Ed). lia.
      * apply pton_post_step; try done. apply IH; try done.
        unfold step_out. destruct (Nat.eqb _ 3); cbn [fst] in *; [|cbn in Hsm; lia].
        rewrite length_app. unfold group_bytes.
        destruct part as [|x [|y [|z [|w part]]]]; cbn in *; lia.
    + rewrite Ht. eexists _, _. split; [done|]. split; [done|].
      by rewrite decode_bad.
Qed.

(** * Properties *)

(** [f_b64_ntop] never leaves its buffers; when the target has room for the
    encoding and a terminator it writes exactly the reference encoding of the
    whole input, the terminator, and nothing after it, and returns the encoded
    length; otherwise it returns -1. *)
Theorem f_b64_ntop_correct src target targsize :
  Z.of_nat (length target) = targsize -> targsize < 2 ^ 31 ->
  let n := b64_length (length src) in
  if n <? targsize then
    f_b64_ntop src target targsize =
      B64Ret n (Some (b64_encode src ++ x00 :: drop (S (Z.to_nat n)) target))
  else exists t, f_b64_ntop src target targsize = B64Ret (-1) (Some t) /\
                 length t = length target.
Proof. intros Ht Hs. exact (ntop_loop_spec src [] target targsize Ht Hs). Qed.

Lemma f_b64_ntop_correct_witness :
  f_b64_ntop [x66; x6f; x6f; x62] (replicate 10 xff) 10 =
    B64Ret 8 (Some (b64_encode [x66; x6f; x6f; x62] ++ [x00; xff])).
Proof. exact (f_b64_ntop_correct [x66; x6f; x6f; x62] (replicate 10 xff) 10 eq_refl eq_refl). Defined.

(** C35: [f_b64_pton] on any terminated string, however malformed, never reads or
    writes outside its buffers; it accepts exactly the strings that are, white
    space aside, the encoding of some data (padding complete, spare bits zero),
    and then leaves that data at the start of the target and returns its length;
    an encoding is only refused when the target is too small for its data. *)
Theorem f_b64_pton_correct src target targsize :
  x00 ∈ src -> Z.of_nat (length target) = targsize ->
  Z.of_nat (length src) * 3 + 4 < 2 ^ 31 ->
  exists r t, f_b64_pton src (Some target) targsize = B64Ret r (Some t) /\
    length t = length target /\
    ((exists d, strip (cstr src) = b64_encode d /\ r = Z.of_nat (length d) /\
                take (length d) t = d) \/
     (r = -1 /\ forall d, strip (cstr src) = b64_encode d -> targsize <= Z.of_nat (length d))).
Proof.
  intros Hin Ht Hs.
  destruct (pton_loop_post src targsize [] [] (0, 0, Some target)) as (r & t & E & Hl & H);
    [| done | cbn; lia |].
  - split; [apply List.Forall_nil | cbn; lia | done | done |]. by exists target.
  - exists r, t. split; [exact E|]. split; [lia|].
    cbn [map app] in H. destruct (b64_decode (strip (cstr src))) as [d|] eqn:Ed.
    + destruct H as [[-> Htk] | [-> Hsm]].
      * left. exists d. split; [by apply b64_decode_iff | done].
      * right. split; [done|]. intros d' Hd'. apply b64_decode_iff in Hd'.
        rewrite Hd' in Ed. injection Ed as ->. cbn in Hsm. lia.
    + right. split; [done|]. intros d Hd. apply b64_decode_iff in Hd. congruence.
Qed.

Lemma f_b64_pton_correct_witness :
  x00 ∈ [x5a; x67; x20; x3d; x3d; x00] /\
  exists r t, f_b64_pton [x5a; x67; x20; x3d; x3d; x00] (Some (replicate 2 xff)) 2
                = B64Ret r (Some t) /\ r = 1.
Proof.
  assert (x00 ∈ [x5a; x67; x20; x3d; x3d; x00]) as Hin by (apply list_elem_of_In; cbn; tauto).
  split; [exact Hin|].
  destruct (f_b64_pton_correct [x5a; x67; x20; x3d; x3d; x00] (replicate 2 xff) 2 Hin eq_refl
              ltac:(cbn; lia)) as (r & t & E & _).
  exists r, t. split; [exact E|]. vm_compute in E. by injection E as <-.
Defined.

Lemma strip_encode bs : strip (b64_encode bs) = b64_encode bs.
Proof.
  assert (forall d, 0 <= d < 64 -> forall s, strip (b64_char d :: s) = b64_char d :: strip s) as Hc.
  { intros d Hd s. apply strip_cons. by destruct (b64_char_facts d Hd) as (_ & ? & _). }
  assert (forall s, strip (pad :: s) = pad :: strip s) as Hp by (intros; by apply strip_cons).
  induction bs as [|a|a b|a b c bs IH] using list_ind3; [done| | |]; cbn [b64_encode];
    pose proof (b2z_bound a); try pose proof (b2z_bound b); try pose proof (b2z_bound c).
  - destruct (groups_bound (b2z a * 65536)) as (? & ? & ? & ?); [lia|]. by rewrite !Hc, !Hp by done.
  - destruct (groups_bound (b2z a * 65536 + b2z b * 256)) as (? & ? & ? & ?); [lia|].
    by rewrite !Hc, !Hp by done.
  - destruct (groups_bound (b2z a * 65536 + b2z b * 256 + b2z c)) as (? & ? & ? & ?); [lia|].
    rewrite !Hc by done. by rewrite IH.
Qed.

Lemma cstr_encode bs s : cstr (b64_encode bs ++ x00 :: s) = b64_encode bs.
Proof.
  assert (forall d, 0 <= d < 64 -> forall s, cstr (b64_char d :: s) = b64_char d :: cstr s) as Hc.
  { intros d Hd s'. apply cstr_cons. by destruct (b64_char_facts d Hd) as (_ & _ & ? & _). }
  induction bs as [|a|a b|a b c bs IH] using list_ind3; [done| | |]; cbn [b64_encode app];
    pose proof (b2z_bound a); try pose proof (b2z_bound b); try pose proof (b2z_bound c).
  - destruct (groups_bound (b2z a * 65536)) as (? & ? & ? & ?); [lia|]. by rewrite !Hc by done.
  - destruct (groups_bound (b2z a * 65536 + b2z b * 256)) as (? & ? & ? & ?); [lia|].
    by rewrite !Hc by done.
  - destruct (groups_bound (b2z a * 65536 + b2z b * 256 + b2z c)) as (? & ? & ? & ?); [lia|].
    rewrite !Hc by done. by rewrite IH.
Qed.

(** Whatever [f_b64_ntop] puts in its target, [f_b64_pton] decodes back to
    the original data, for every input, in any second buffer larger than the
    data. *)
Theorem b64_roundtrip src target targsize target' targsize' n t :
  Z.of_nat (length target) = targsize -> targsize * 3 + 4 < 2 ^ 31 ->
  f_b64_ntop src target targsize = B64Ret n (Some t) -> n <> -1 ->
  Z.of_nat (length target') = targsize' -> Z.of_nat (length src) < targsize' ->
  exists t', f_b64_pton t (Some target') targsize' = B64Ret (Z.of_nat (length src)) (Some t') /\
             take (length src) t' = src.
Proof.
  intros Ht Hs He Hn Ht' Hroom.
  pose proof (ntop_loop_spec src [] target targsize Ht ltac:(lia)) as H.
  change (ntop_loop src ([] ++ target) (Z.of_nat (length [])) targsize)
    with (f_b64_ntop src target targsize) in H. rewrite He in H. unfold ntop_post in H.
  destruct (Z.ltb_spec (Z.of_nat (@length byte []) + b64_length (length src)) targsize);
    [|destruct H as (? & [= -> ->] & _); done].
  injection H as -> ->. cbn [app] in *.
  set (L := Z.to_nat (b64_length (length src))) in *.
  destruct (pton_loop_post (b64_encode src ++ x00 :: drop (S L) target) targsize' [] []
              (0, 0, Some target')) as (r & t & E & Hl & H).
  - split; [apply List.Forall_nil | cbn; lia | done | done |]. by exists target'.
  - apply elem_of_app. right. apply elem_of_cons. by left.
  - assert (length (b64_encode src ++ x00 :: drop (S L) target) = length target) as ->.
    { rewrite length_app. cbn [length]. rewrite length_drop.
      pose proof (length_b64_encode src). subst L. cbn in *. lia. }
    cbn. lia.
  - cbn [map app] in H. rewrite cstr_encode, strip_encode, b64_decode_encode in H.
    cbn [length app] in H. exists t.
    destruct H as [[-> Htk] | [_ Hbad]]; [done|]. cbn in Hbad. lia.
Qed.

Lemma b64_roundtrip_witness :
  exists t', f_b64_pton (b64_encode [x01; x02] ++ [x00; xff]) (Some (replicate 3 xff)) 3
             = B64Ret 2 (Some t') /\ take 2 t' = [x01; x02].
Proof.
  apply (b64_roundtrip [x01; x02] (replicate 6 xff) 6 (replicate 3 xff) 3 4);
    vm_compute; congruence.
Defined.
