(* ===== verification/Findings.v ===== *)
(** What modelling showed: behaviours of the code that differ from what its
    comments say or its callers rely on, each with a run that exhibits it. *)

From S2P Require Import Prelude CMem PbTypes FieldIter Encode Decode Layout Cct Base64 Leb128.
Open Scope Z_scope.
Open Scope string_scope.

(** What a run returns, without the final world. *)
Definition result {A} (o : outcome A) : A + fault :=
  match o with Ok a _ => inl a | Fault f => inr f end.

Definition plain : UserCode := no_callbacks (fun _ => None).

(** ** Overlong varints: [pb_decode_varint32_eof]

    [bitpos] is a [uint_fast8_t] and wraps around: the last byte of a varint of
    38 bytes lands at bit 3 again, and the value 8 is returned.  The 64-bit
    decoder rejects the same bytes ("varint overflow"). *)
Definition overlong : list byte := replicate 37 x80 ++ [x01].

(** The 32-bit varint decoder accepts an encoding of 38 bytes, as the value
    8, which the 64-bit decoder reports as an overflow. *)
Example overlong_varint32_accepted :
  let w := world_of [(0x1000, overlong)] in
  let s := pb_istream_from_buffer 0x1000 38 in
  result (pb_decode_varint32 (H := plain) s w) = inl (true, 8, mk_istream buf_read_cb 0x1026 0 None) /\
  result (pb_decode_varint (H := plain) s w) =
    inl (false, 0, mk_istream buf_read_cb 0x100a 28 (Some "varint overflow")).
Proof. vm_compute. done. Qed.

(** ** A failed reallocation: [decode_pointer_field] and [pb_release]

    [decode_pointer_field] counts the new item before [allocate_field] makes
    room for it.  When [realloc] fails, [pb_decode] releases the message, and
    [pb_release_single_field] walks one item past the end of the old block: on
    a batch of two log requests, with memory for the first one only, it reads
    unmapped memory. *)
(** Decoding a batch of two log requests when memory runs out at the second
    one ends in an access outside every object; it reports the failure when the
    first allocation fails, and succeeds when there is memory. *)
Example realloc_failure_overruns :
  let w := world_of [(0xa00, cct_constants); (0x1000, [x0a; x00; x0a; x00]);
                     (0x2000, replicate 16 x00)] in
  let run budget := result (pb_decode (H := no_callbacks cct_image) (H0 := bump_libc budget) 5
    (pb_istream_from_buffer 0x1000 4) (gdt_cct_BatchedLogRequest_fields cct_sym) 0x2000 w) in
  run 100 = inl (false, mk_istream buf_read_cb 0x1001 3 (Some "realloc failed")) /\
  run 200 = inr (MemFault 8392) /\
  run 4096 = inl (true, mk_istream buf_read_cb 0x1004 0 None).
Proof. vm_compute. done. Qed.

(** ** Defaults of a fixed-count array: [pb_field_set_to_default]

    PB_REPEATED_FIXED_COUNT makes [pSize] equal to [pData]; the default value
    stores a 32-bit zero count there, past the end of an array of fewer than
    four bytes. *)
(** PB_REPEATED_FIXED_COUNT(1, UINT32, FIRST, ...) on [uint8_t pair[2]]. *)
Definition pair_fields : list pb_field_t :=
  [ mk_field 1 (Z.lor (Z.lor PB_ATYPE_STATIC PB_HTYPE_REPEATED) PB_LTYPE_UVARINT) 0 0 1 2 0;
    PB_LAST_FIELD ].

(** Setting a message with a fixed-count array of two bytes to its defaults
    writes past the end of the struct. *)
Example fixed_count_default_overruns :
  let defaults a w := result (pb_message_set_to_defaults (@pb_field_set_to_default plain 2)
    pair_fields a w) in
  defaults 0x1000 (world_of [(0x1000, replicate 2 x00)]) = inr (MemFault 0x1002) /\
  defaults 0x1000 (world_of [(0x1000, replicate 4 x00)]) = inl tt.
Proof. vm_compute. done. Qed.

(** ** The default check of a pointer field: [pb_check_proto3_default_value]

    The comment says that pointer fields are compared with zero; the loop
    compares [data_size] bytes, the size of the value pointed to.  A pointer to
    a 32-bit value whose low half is zero counts as null. *)
Definition int_pointer : pb_field_t :=
  mk_field 1 (Z.lor PB_ATYPE_POINTER (Z.lor PB_HTYPE_OPTIONAL PB_LTYPE_UVARINT)) 0 0 4 0 0.

Example pointer_default_check_truncated :
  let w := world_of [(0x1000, le_bytes 8 0x100000000)] in
  result (load_ptr 0x1000 w) = inl 0x100000000 /\
  result (@pb_check_proto3_default_value plain 1 int_pointer 0x1000 w) = inl true.
Proof. vm_compute. done. Qed.

(** ** Spare bits with a null target: [f_b64_pton]

    The comment asks that the bits past the last full byte be zero; with a null
    target (a caller that only asks for the size) the check is skipped, so the
    two calls disagree on the same string. *)
Definition spare_bits : list byte := [x5a; x52; x3d; x3d; x00].

Example spare_bits_unchecked_for_null_target :
  f_b64_pton spare_bits None 0 = B64Ret 1 None /\
  exists t, f_b64_pton spare_bits (Some [x00; x00; x00]) 3 = B64Ret (-1) t.
Proof. split; [reflexivity | eexists; reflexivity]. Qed.
