(* ===== verification/LdbCoding.v ===== *)
(** leveldb: slices and the coding of integers and strings
    (include/leveldb/slice.h, util/coding.cc, util/coding.h).

    A [Slice] and the range between two pointers are the list of the bytes they
    cover; a function that moves a pointer or a slice forward returns what is
    left, and one that can fail returns an option.

    [get_varint_exact] says which byte strings the decoders accept and with
    which value,
    [ldb_varint_roundtrip] and [length_prefixed_roundtrip] that what the encoders
    append is read back whatever follows it, [varint_prefix_rejected] that a
    truncated varint is refused. *)

From S2P Require Import Prelude Leb128.
Open Scope Z_scope.

(** * Slices *)

(** [memcmp] on ranges of the same length: the sign of the first difference of
    bytes taken as unsigned. *)
Fixpoint memcmp (a b : list byte) : Z :=
  match a, b with
  | x :: a, y :: b =>
      if b2z x <? b2z y then -1 else if b2z y <? b2z x then 1 else memcmp a b
  | _, _ => 0
  end.

Definition size (s : list byte) : Z := Z.of_nat (length s).
Definition empty (s : list byte) : bool := size s =? 0.
Definition remove_prefix (n : Z) (s : list byte) : list byte := drop (Z.to_nat n) s.
Definition starts_with (s x : list byte) : bool :=
  (size s >=? size x) && (memcmp (take (length x) s) x =? 0).
Definition slice_eqb (x y : list byte) : bool :=
  (size x =? size y) && (memcmp x y =? 0).

Definition slice_compare (a b : list byte) : Z :=
  let min_len := if size a <? size b then size a else size b in
  let r := memcmp (take (Z.to_nat min_len) a) (take (Z.to_nat min_len) b) in
  if r =? 0 then
    if size a <? size b then -1 else if size a >? size b then 1 else r
  else r.

(** * Fixed-width integers *)

(** The pods are built for little-endian hosts. *)
Definition kLittleEndian : bool := true.

(** The branch for other hosts, byte by byte. *)
Definition EncodeFixed32_bytes (value : Z) : list byte :=
  [z2b (Z.land value 0xff); z2b (Z.land (Z.shiftr value 8) 0xff);
   z2b (Z.land (Z.shiftr value 16) 0xff); z2b (Z.land (Z.shiftr value 24) 0xff)].

Definition EncodeFixed32 (value : Z) : list byte :=
  if kLittleEndian then le_bytes 4 value else EncodeFixed32_bytes value.

Definition EncodeFixed64_bytes (value : Z) : list byte :=
  [z2b (Z.land value 0xff); z2b (Z.land (Z.shiftr value 8) 0xff);
   z2b (Z.land (Z.shiftr value 16) 0xff); z2b (Z.land (Z.shiftr value 24) 0xff);
   z2b (Z.land (Z.shiftr value 32) 0xff); z2b (Z.land (Z.shiftr value 40) 0xff);
   z2b (Z.land (Z.shiftr value 48) 0xff); z2b (Z.land (Z.shiftr value 56) 0xff)].

Definition EncodeFixed64 (value : Z) : list byte :=
  if kLittleEndian then le_bytes 8 value else EncodeFixed64_bytes value.

Definition PutFixed32 (dst : list byte) (value : Z) : list byte := dst ++ EncodeFixed32 value.
Definition PutFixed64 (dst : list byte) (value : Z) : list byte := dst ++ EncodeFixed64 value.

(** The decoders read a pointer without a bound: the bytes given must be there. *)
Definition DecodeFixed32_bytes (ptr : list byte) : Z :=
  let byte_at i := b2z (nth i ptr x00) in
  Z.lor (Z.lor (Z.lor (byte_at 0%nat) (u32 (Z.shiftl (byte_at 1%nat) 8)))
               (u32 (Z.shiftl (byte_at 2%nat) 16)))
        (u32 (Z.shiftl (byte_at 3%nat) 24)).

Definition DecodeFixed32 (ptr : list byte) : Z :=
  if kLittleEndian then le_val (take 4 ptr) else DecodeFixed32_bytes ptr.

Definition DecodeFixed64 (ptr : list byte) : Z :=
  if kLittleEndian then le_val (take 8 ptr)
  else
    let lo := DecodeFixed32 ptr in
    let hi := DecodeFixed32 (drop 4 ptr) in
    Z.lor (u64 (Z.shiftl hi 32)) lo.

(** * Varints *)

Definition EncodeVarint32 (v : Z) : list byte :=
  let B := 128 in
  if v <? Z.shiftl 1 7 then [z2b v]
  else if v <? Z.shiftl 1 14 then [z2b (Z.lor v B); z2b (Z.shiftr v 7)]
  else if v <? Z.shiftl 1 21 then
    [z2b (Z.lor v B); z2b (Z.lor (Z.shiftr v 7) B); z2b (Z.shiftr v 14)]
  else if v <? Z.shiftl 1 28 then
    [z2b (Z.lor v B); z2b (Z.lor (Z.shiftr v 7) B); z2b (Z.lor (Z.shiftr v 14) B);
     z2b (Z.shiftr v 21)]
  else
    [z2b (Z.lor v B); z2b (Z.lor (Z.shiftr v 7) B); z2b (Z.lor (Z.shiftr v 14) B);
     z2b (Z.lor (Z.shiftr v 21) B); z2b (Z.shiftr v 28)].

(** The loop of [EncodeVarint64]; a 64-bit value is below 128 after at most nine
    shifts. *)
Fixpoint encode_varint_loop (fuel : nat) (v : Z) : list byte :=
  match fuel with
  | O => [z2b v]
  | S fuel =>
      if v >=? 128 then z2b (Z.lor v 128) :: encode_varint_loop fuel (Z.shiftr v 7)
      else [z2b v]
  end.

Definition EncodeVarint64 (v : Z) : list byte := encode_varint_loop 10 v.

Definition PutVarint32 (dst : list byte) (v : Z) : list byte := dst ++ EncodeVarint32 v.
Definition PutVarint64 (dst : list byte) (v : Z) : list byte := dst ++ EncodeVarint64 v.

(** [value.size()] is converted from [size_t] to [uint32_t]. *)
Definition PutLengthPrefixedSlice (dst value : list byte) : list byte :=
  PutVarint32 dst (u32 (size value)) ++ value.

Fixpoint varint_length_loop (fuel : nat) (len v : Z) : Z :=
  match fuel with
  | O => len
  | S fuel => if v >=? 128 then varint_length_loop fuel (len + 1) (Z.shiftr v 7) else len
  end.

Definition VarintLength (v : Z) : Z := varint_length_loop 10 1 v.

(** The loop of the two decoders: [lim] is the largest shift (28 or 63), [w] the
    width of [result]; at most [lim / 7 + 1] iterations. *)
Fixpoint get_varint_loop (fuel : nat) (lim w shift result : Z) (p : list byte)
  : option (Z * list byte) :=
  match fuel, p with
  | S fuel, b :: p =>
      if shift <=? lim then
        if negb (Z.land (b2z b) 128 =? 0) then
          get_varint_loop fuel lim w (shift + 7)
            (Z.lor result (Z.shiftl (Z.land (b2z b) 127) shift mod 2 ^ w)) p
        else Some (Z.lor result (Z.shiftl (b2z b) shift mod 2 ^ w), p)
      else None
  | _, _ => None
  end.

Definition GetVarint32PtrFallback (p : list byte) : option (Z * list byte) :=
  get_varint_loop 6 28 32 0 0 p.

Definition GetVarint32Ptr (p : list byte) : option (Z * list byte) :=
  match p with
  | b :: p' =>
      if Z.land (b2z b) 128 =? 0 then Some (b2z b, p') else GetVarint32PtrFallback p
  | [] => GetVarint32PtrFallback p
  end.

Definition GetVarint32 (input : list byte) : option (Z * list byte) :=
  match GetVarint32Ptr input with
  | None => None
  | Some (value, q) => Some (value, q)
  end.

Definition GetVarint64Ptr (p : list byte) : option (Z * list byte) :=
  get_varint_loop 11 63 64 0 0 p.

Definition GetVarint64 (input : list byte) : option (Z * list byte) :=
  match GetVarint64Ptr input with
  | None => None
  | Some (value, q) => Some (value, q)
  end.

(** The pointer version and the slice version: the slice and what follows it. *)
Definition GetLengthPrefixedSlicePtr (p : list byte) : option (list byte * list byte) :=
  match GetVarint32Ptr p with
  | None => None
  | Some (len, p) =>
      if len >? size p then None else Some (take (Z.to_nat len) p, drop (Z.to_nat len) p)
  end.

Definition GetLengthPrefixedSlice (input : list byte) : option (list byte * list byte) :=
  match GetVarint32 input with
  | Some (len, input) =>
      if size input >=? len then Some (take (Z.to_nat len) input, remove_prefix len input)
      else None
  | None => None
  end.

(** * The encoders write the reference encodings *)

Lemma lor_128_byte v : 0 <= v -> z2b (Z.lor v 128) = z2b (v mod 128 + 128).
Proof.
  intros Hv. apply b2z_inj. rewrite !b2z_z2b.
  pose proof (Z.mod_pos_bound v 128 ltac:(lia)).
  rewrite <- (lor_128 (v mod 128)) by lia.
  change 256 with (2 ^ 8). change 0x80 with (2 ^ 7). change (v mod 128) with (v mod 2 ^ 7).
  apply Z.bits_inj'. intros i Hi. destruct (Z.lt_ge_cases i 8).
  - rewrite !Z.mod_pow2_bits_low, !Z.lor_spec, Z.pow2_bits_eqb by lia.
    destruct (Z.eqb_spec 7 i) as [<-|?]; [by rewrite !orb_true_r|].
    by rewrite Z.mod_pow2_bits_low by lia.
  - by rewrite !Z.mod_pow2_bits_high by lia.
Qed.

Lemma encode_varint_loop_leb n v :
  0 <= v < 128 ^ Z.of_nat (S n) -> encode_varint_loop n v = leb128 (S n) v.
Proof.
  revert v; induction n as [|n IH]; intros v Hv; cbn [encode_varint_loop].
  { cbn in Hv |- *. by destruct (Z.ltb_spec v 128); [|lia]. }
  rewrite Nat2Z.inj_succ, Z.pow_succ_r in Hv by lia.
  assert (leb128 (S (S n)) v
    = if v <? 128 then [z2b v] else z2b (v mod 128 + 128) :: leb128 (S n) (v / 128)) as -> by done.
  destruct (Z.geb_spec v 128), (Z.ltb_spec v 128); try lia; [|done].
  rewrite lor_128_byte, Z.shiftr_div_pow2 by lia. change (2 ^ 7) with 128.
  rewrite IH; [done|]. split; [apply Z.div_pos; lia | apply Z.div_lt_upper_bound; lia].
Qed.

Lemma leb128_more n m v :
  0 <= v < 128 ^ Z.of_nat n -> n <> O -> (n <= m)%nat -> leb128 m v = leb128 n v.
Proof.
  revert m v; induction n as [|n IH]; intros m v Hv Hn Hm; [done|].
  destruct m as [|m]; [lia|]. cbn [leb128]. destruct (Z.ltb_spec v 128); [done|].
  rewrite Nat2Z.inj_succ, Z.pow_succ_r in Hv by lia.
  rewrite IH; [done | | | lia].
  - split; [apply Z.div_pos; lia | apply Z.div_lt_upper_bound; lia].
  - intros ->. change (128 ^ Z.of_nat 0) with 1 in Hv. lia.
Qed.

Lemma EncodeVarint64_eq v : 0 <= v < 2 ^ 64 -> EncodeVarint64 v = varint v.
Proof.
  intros Hv. unfold EncodeVarint64, varint.
  assert (2 ^ 64 < 128 ^ 10) by reflexivity.
  rewrite encode_varint_loop_leb; [|change (Z.of_nat 11) with 11; lia].
  apply leb128_more; [change (Z.of_nat 10) with 10| |]; lia.
Qed.

(** The five branches of [EncodeVarint32] are the loop unrolled. *)
Lemma EncodeVarint32_loop v : 0 <= v < 2 ^ 32 -> EncodeVarint32 v = encode_varint_loop 4 v.
Proof.
  intros Hv. unfold EncodeVarint32. cbn [encode_varint_loop].
  rewrite !Z.shiftr_shiftr by lia.
  change (7 + 7) with 14. change (14 + 7) with 21. change (21 + 7) with 28.
  rewrite !Z.shiftl_1_l, !Z.shiftr_div_pow2 by lia.
  assert (forall k, 0 < k -> (v <? 128 * k) = negb (v / k >=? 128)) as Hk.
  { intros k Hk. destruct (Z.ltb_spec v (128 * k)), (Z.geb_spec (v / k) 128); try done.
    - assert (v / k < 128) by (apply Z.div_lt_upper_bound; lia). lia.
    - assert (128 <= v / k) by (apply Z.div_le_lower_bound; lia). lia. }
  change (2 ^ 28) with (128 * 2 ^ 21) at 1. change (2 ^ 21) with (128 * 2 ^ 14) at 1.
  change (2 ^ 14) with (128 * 2 ^ 7) at 1. change (v <? 2 ^ 7) with (v <? 128 * 1).
  rewrite !Hk, Z.div_1_r by lia.
  by destruct (v >=? 128), (v / 2 ^ 7 >=? 128), (v / 2 ^ 14 >=? 128), (v / 2 ^ 21 >=? 128).
Qed.

Lemma EncodeVarint32_eq v : 0 <= v < 2 ^ 32 -> EncodeVarint32 v = varint v.
Proof.
  intros Hv. rewrite EncodeVarint32_loop by done.
  assert (2 ^ 32 < 128 ^ 5) by reflexivity.
  rewrite encode_varint_loop_leb; [|change (Z.of_nat 5) with 5; lia].
  symmetry. apply leb128_more; [change (Z.of_nat 5) with 5| |]; lia.
Qed.

Lemma length_EncodeVarint32 v : 0 <= v < 2 ^ 32 -> (1 <= length (EncodeVarint32 v) <= 5)%nat.
Proof. intros _. unfold EncodeVarint32. repeat split_if; cbn; lia. Qed.

Lemma varint_length_loop_eq n len v :
  varint_length_loop n len v = len + Z.of_nat (length (encode_varint_loop n v)) - 1.
Proof.
  revert len v; induction n as [|n IH]; intros len v;
    cbn [varint_length_loop encode_varint_loop]; [cbn; lia|].
  destruct (v >=? 128); [rewrite IH|]; cbn [length]; lia.
Qed.

(** * The decoders *)

(** Reference decoding: the digits of a varint of at most [n] bytes at the front
    of [bs], with what follows it. *)
Fixpoint split_varint (n : nat) (bs : list byte) : option (list byte * list byte) :=
  match n, bs with
  | S n, b :: bs =>
      if b2z b <? 128 then Some ([b], bs)
      else match split_varint n bs with
           | Some (ds, rest) => Some (b :: ds, rest)
           | None => None
           end
  | _, _ => None
  end.

Fixpoint digits_val (ds : list byte) : Z :=
  match ds with
  | [] => 0
  | b :: ds => b2z b mod 128 + 128 * digits_val ds
  end.

Definition varint_ref (n : nat) (w : Z) (bs : list byte) : option (Z * list byte) :=
  match split_varint n bs with
  | Some (ds, rest) => Some (digits_val ds mod 2 ^ w, rest)
  | None => None
  end.

Lemma lor_shift_mod w s r d :
  0 <= s <= w -> 0 <= r < 2 ^ s -> 0 <= d ->
  Z.lor r (Z.shiftl d s mod 2 ^ w) = (r + d * 2 ^ s) mod 2 ^ w.
Proof.
  intros Hs Hr Hd. rewrite Z.shiftl_mul_pow2 by lia.
  assert (2 ^ w = 2 ^ (w - s) * 2 ^ s) as -> by (rewrite <- Z.pow_add_r by lia; f_equal; lia).
  assert (0 < 2 ^ (w - s)) by (apply Z.pow_pos_nonneg; lia).
  rewrite Z.mul_mod_distr_r, lor_add by lia.
  pose proof (Z.mod_pos_bound d (2 ^ (w - s)) ltac:(lia)).
  rewrite (Z.div_mod d (2 ^ (w - s))) at 2 by lia.
  replace (r + (2 ^ (w - s) * (d / 2 ^ (w - s)) + d mod 2 ^ (w - s)) * 2 ^ s)
    with (r + d mod 2 ^ (w - s) * 2 ^ s + (d / 2 ^ (w - s)) * (2 ^ (w - s) * 2 ^ s)) by ring.
  rewrite Z_mod_plus_full, (Z.mod_small (r + _)); [done|]. nia.
Qed.

Lemma get_varint_loop_ref n fuel lim w s r bs :
  0 <= s -> 0 <= r < 2 ^ s -> (n < fuel)%nat -> lim <= w ->
  s + 7 * Z.of_nat n <= lim + 7 -> lim < s + 7 * Z.of_nat n ->
  get_varint_loop fuel lim w s r bs =
  match split_varint n bs with
  | Some (ds, rest) => Some ((r + digits_val ds * 2 ^ s) mod 2 ^ w, rest)
  | None => None
  end.
Proof.
  intros Hs Hr Hf Hlw. revert n s r bs Hs Hr Hf.
  induction fuel as [|fuel IH]; intros n s r bs Hs Hr Hf Hn Hl; [lia|].
  cbn [get_varint_loop]. destruct n as [|n].
  { destruct bs; [done|]. destruct (Z.leb_spec s lim); [lia | done]. }
  destruct bs as [|b bs]; [done|]. cbn [split_varint].
  destruct (Z.leb_spec s lim); [|lia].
  pose proof (b2z_bound b) as Hb. rewrite land_128, land_127 by lia.
  destruct (Z.ltb_spec (b2z b) 128); cbn [negb].
  - rewrite lor_shift_mod by lia. cbn [digits_val]. by rewrite (Z.mod_small _ 128), Z.mul_0_r, Z.add_0_r by lia.
  - destruct n as [|n].
    { cbn [split_varint]. destruct fuel as [|fuel]; [done|]. destruct bs; [done|].
      cbn [get_varint_loop]. destruct (Z.leb_spec (s + 7) lim); [lia | done]. }
    pose proof (Z.mod_pos_bound (b2z b) 128 ltac:(lia)) as Hd.
    assert (0 < 2 ^ s) by (apply Z.pow_pos_nonneg; lia).
    assert (2 ^ (s + 7) = 128 * 2 ^ s) as E7.
    { rewrite Z.pow_add_r by lia. change (2 ^ 7) with 128. lia. }
    assert (2 ^ (s + 7) <= 2 ^ w) by (apply Z.pow_le_mono_r; lia).
    rewrite lor_shift_mod, Z.mod_small by nia.
    rewrite (IH (S n)) by nia.
    destruct (split_varint (S n) bs) as [[ds rest]|]; [|done].
    cbn [digits_val]. do 2 f_equal. rewrite E7. f_equal. ring.
Qed.

Lemma GetVarint32_ref input : GetVarint32 input = varint_ref 5 32 input.
Proof.
  unfold GetVarint32, GetVarint32Ptr, GetVarint32PtrFallback.
  assert (get_varint_loop 6 28 32 0 0 input = varint_ref 5 32 input) as E.
  { rewrite (get_varint_loop_ref 5) by lia. unfold varint_ref.
    destruct (split_varint 5 input) as [[ds rest]|]; [|done]. by rewrite Z.add_0_l, Z.mul_1_r. }
  destruct input as [|b input]; [done|]. pose proof (b2z_bound b).
  rewrite E, land_128 by lia. destruct (Z.ltb_spec (b2z b) 128).
  - unfold varint_ref. cbn [split_varint]. rewrite (proj2 (Z.ltb_lt _ _)) by lia.
    cbn [digits_val]. by rewrite Z.mul_0_r, Z.add_0_r, (Z.mod_small _ 128), Z.mod_small by lia.
  - by destruct (varint_ref 5 32 (b :: input)) as [[]|].
Qed.

Lemma GetVarint64_ref input : GetVarint64 input = varint_ref 10 64 input.
Proof.
  unfold GetVarint64, GetVarint64Ptr, varint_ref. rewrite (get_varint_loop_ref 10) by lia.
  destruct (split_varint 10 input) as [[ds rest]|]; [|done]. by rewrite Z.add_0_l, Z.mul_1_r.
Qed.

(** Varints are decoded exactly as the reference says: for 32 bits the input
    must start with at most four bytes that have the continuation bit and one that
    has not, for 64 bits with at most nine and one; the value is that of the
    digits, less the bits that do not fit (the last digit is shifted out of the
    word without an error), and everything after these bytes is left. *)
Theorem get_varint_exact input :
  GetVarint32 input = varint_ref 5 32 input /\ GetVarint64 input = varint_ref 10 64 input.
Proof. split; [apply GetVarint32_ref | apply GetVarint64_ref]. Qed.

Lemma split_varint_leb n m v rest :
  0 <= v < 128 ^ Z.of_nat n -> n <> O -> (length (leb128 n v) <= m)%nat ->
  split_varint m (leb128 n v ++ rest) = Some (leb128 n v, rest) /\ digits_val (leb128 n v) = v.
Proof.
  revert m v; induction n as [|n IH]; intros m v Hv Hn Hm; [done|].
  cbn [leb128] in *. pose proof (Z.mod_pos_bound v 128 ltac:(lia)).
  destruct (Z.ltb_spec v 128); (destruct m as [|m]; [cbn in Hm; lia|]);
    cbn [split_varint digits_val app length] in *; rewrite b2z_z2b_small by lia.
  - rewrite (proj2 (Z.ltb_lt _ _)) by lia. rewrite Z.mod_small by lia. by rewrite Z.mul_0_r, Z.add_0_r.
  - destruct (Z.ltb_spec (v mod 128 + 128) 128); [lia|].
    rewrite Nat2Z.inj_succ, Z.pow_succ_r in Hv by lia.
    destruct (IH m (v / 128)) as [-> ->].
    + split; [apply Z.div_pos; lia | apply Z.div_lt_upper_bound; lia].
    + intros ->. change (128 ^ Z.of_nat 0) with 1 in Hv. lia.
    + lia.
    + split; [done|]. rewrite mod_128_hi by lia. pose proof (Z.div_mod v 128). lia.
Qed.

Lemma varint_ref_leb n w v rest :
  0 <= v < 2 ^ w -> v < 2 ^ 64 -> (length (varint v) <= n)%nat ->
  varint_ref n w (varint v ++ rest) = Some (v, rest).
Proof.
  intros Hv H64 Hn. unfold varint_ref, varint in *.
  assert (2 ^ 64 < 128 ^ 10) by reflexivity.
  destruct (split_varint_leb 10 n v rest) as [-> ->];
    [change (Z.of_nat 10) with 10; lia | done | done |].
  by rewrite Z.mod_small by lia.
Qed.

(** Varints round trip: what [EncodeVarint32] or [EncodeVarint64] writes is
    decoded to the same value, leaving exactly what follows it; [VarintLength] is
    the number of bytes written, and a 32-bit value is written in the same bytes
    by both encoders. *)
Theorem ldb_varint_roundtrip v rest :
  0 <= v < 2 ^ 64 ->
  GetVarint64 (EncodeVarint64 v ++ rest) = Some (v, rest) /\
  VarintLength v = size (EncodeVarint64 v) /\
  (v < 2 ^ 32 ->
   GetVarint32 (EncodeVarint32 v ++ rest) = Some (v, rest) /\
   EncodeVarint32 v = EncodeVarint64 v).
Proof.
  intros Hv. rewrite GetVarint64_ref, EncodeVarint64_eq by done.
  split; [|split].
  - pose proof (length_varint v). apply varint_ref_leb; lia.
  - unfold VarintLength, size. rewrite varint_length_loop_eq.
    fold (EncodeVarint64 v). rewrite EncodeVarint64_eq by done. lia.
  - intros H32. pose proof (length_EncodeVarint32 v) as Hl.
    rewrite GetVarint32_ref, EncodeVarint32_eq in * by lia.
    split; [|done]. apply varint_ref_leb; lia.
Qed.

Lemma ldb_varint_roundtrip_witness :
  GetVarint64 (EncodeVarint64 300 ++ [x07]) = Some (300, [x07]) /\
  GetVarint32 (EncodeVarint32 300 ++ [x07]) = Some (300, [x07]).
Proof.
  pose proof (ldb_varint_roundtrip 300 [x07] ltac:(lia)) as (H & _ & H').
  split; [exact H | apply H'; lia].
Defined.

Lemma VarintLength_32 v : 0 <= v < 2 ^ 32 -> VarintLength v = size (EncodeVarint32 v).
Proof.
  intros Hv. unfold VarintLength, size. rewrite varint_length_loop_eq, EncodeVarint32_eq by done.
  fold (EncodeVarint64 v). rewrite EncodeVarint64_eq by lia. lia.
Qed.

Lemma leb128_prefix n m v p q :
  0 <= v < 128 ^ Z.of_nat n -> leb128 n v = p ++ q -> q <> [] -> split_varint m p = None.
Proof.
  revert m v p; induction n as [|n IH]; intros m v p Hv E Hq.
  { by destruct p, q. }
  destruct m as [|m]; [done|]. destruct p as [|b p]; [done|].
  cbn [leb128 app split_varint] in *. pose proof (Z.mod_pos_bound v 128 ltac:(lia)).
  destruct (Z.ltb_spec v 128).
  { injection E as _ E. by destruct p, q. }
  injection E as <- E. rewrite b2z_z2b_small by lia.
  destruct (Z.ltb_spec (v mod 128 + 128) 128); [lia|].
  rewrite Nat2Z.inj_succ, Z.pow_succ_r in Hv by lia.
  rewrite (IH m (v / 128) p); try done.
  split; [apply Z.div_pos; lia | apply Z.div_lt_upper_bound; lia].
Qed.

Lemma varint_cut v p q :
  0 <= v < 2 ^ 64 -> varint v = p ++ q -> q <> [] ->
  GetVarint64 p = None /\ GetVarint32 p = None.
Proof.
  intros Hv E Hq. assert (2 ^ 64 < 128 ^ 10) by reflexivity.
  rewrite GetVarint32_ref, GetVarint64_ref. unfold varint_ref.
  by rewrite !(leb128_prefix 10 _ v p q) by (done || (change (Z.of_nat 10) with 10; lia)).
Qed.

(** A varint cut short is refused: neither decoder accepts a proper prefix of
    what an encoder writes. *)
Theorem varint_prefix_rejected v p q :
  0 <= v < 2 ^ 64 -> EncodeVarint64 v = p ++ q -> q <> [] ->
  GetVarint64 p = None /\ GetVarint32 p = None.
Proof.
  intros Hv E Hq. rewrite EncodeVarint64_eq in E by done. by apply (varint_cut v p q).
Qed.

Lemma varint_prefix_rejected_witness :
  GetVarint64 [xac] = None /\ GetVarint32 [xac] = None.
Proof. apply (varint_prefix_rejected 300 [xac] [x02]); [lia | reflexivity | discriminate]. Defined.

(** ** Length-prefixed slices *)

Lemma size_app a b : size (a ++ b) = size a + size b.
Proof. unfold size. rewrite length_app. lia. Qed.

Lemma size_nonneg a : 0 <= size a.
Proof. unfold size. lia. Qed.

Lemma size_take n (l : list byte) : 0 <= n -> size (take (Z.to_nat n) l) = Z.min n (size l).
Proof. intros Hn. unfold size. rewrite length_take. lia. Qed.

Lemma size_drop_Z n (l : list byte) : 0 <= n -> size (drop (Z.to_nat n) l) = Z.max 0 (size l - n).
Proof. intros Hn. unfold size. rewrite length_drop. lia. Qed.

Lemma size_take_drop n (l : list byte) :
  size (take n l) + size (drop n l) = size l.
Proof. rewrite <- size_app. by rewrite take_drop. Qed.

Lemma take_size_app a b : take (Z.to_nat (size a)) (a ++ b) = a.
Proof. unfold size. by rewrite Nat2Z.id, take_app_length. Qed.

Lemma drop_size_app a b : drop (Z.to_nat (size a)) (a ++ b) = b.
Proof. unfold size. by rewrite Nat2Z.id, drop_app_length. Qed.

Lemma GetVarint32_app v rest :
  0 <= v < 2 ^ 32 -> GetVarint32 (EncodeVarint32 v ++ rest) = Some (v, rest).
Proof.
  intros Hv. pose proof (length_EncodeVarint32 v Hv).
  rewrite GetVarint32_ref, EncodeVarint32_eq in * by done.
  apply varint_ref_leb; lia.
Qed.

Lemma GetVarint64_app v rest :
  0 <= v < 2 ^ 64 -> GetVarint64 (EncodeVarint64 v ++ rest) = Some (v, rest).
Proof.
  intros Hv. rewrite GetVarint64_ref, EncodeVarint64_eq by done.
  pose proof (length_varint v). apply varint_ref_leb; lia.
Qed.

Lemma GetVarint32Ptr_eq p : GetVarint32Ptr p = GetVarint32 p.
Proof. unfold GetVarint32. by destruct (GetVarint32Ptr p) as [[]|]. Qed.

Lemma GetLengthPrefixedSlicePtr_eq p : GetLengthPrefixedSlicePtr p = GetLengthPrefixedSlice p.
Proof.
  unfold GetLengthPrefixedSlicePtr, GetLengthPrefixedSlice, remove_prefix.
  rewrite GetVarint32Ptr_eq. destruct (GetVarint32 p) as [[len q]|]; [|done].
  by destruct (Z.gtb_spec len (size q)), (Z.geb_spec (size q) len); try lia.
Qed.

Lemma get_length_prefixed_app s rest :
  size s < 2 ^ 32 ->
  GetLengthPrefixedSlice (EncodeVarint32 (size s) ++ s ++ rest) = Some (s, rest).
Proof.
  intros Hs. pose proof (size_nonneg s). pose proof (size_nonneg rest).
  unfold GetLengthPrefixedSlice.
  rewrite GetVarint32_app, size_app by lia.
  destruct (Z.geb_spec (size s + size rest) (size s)); [|lia].
  unfold remove_prefix. by rewrite take_size_app, drop_size_app.
Qed.

Lemma get_length_prefixed_cut s p q :
  size s < 2 ^ 32 -> EncodeVarint32 (size s) ++ s = p ++ q -> q <> [] ->
  GetLengthPrefixedSlice p = None.
Proof.
  intros Hs E Hq. pose proof (size_nonneg s). unfold GetLengthPrefixedSlice.
  apply app_eq_inv in E as [(r & E1 & E2)|(r & -> & ->)].
  - destruct r as [|b r].
    + rewrite app_nil_r in E1. subst p. cbn [app] in E2. subst q.
      rewrite <- (app_nil_r (EncodeVarint32 _)), GetVarint32_app by lia.
      destruct s; [done|]. destruct (Z.geb_spec (size []) (size (b :: s))) as [Hg|]; [|done].
      unfold size in Hg; cbn [length] in Hg. lia.
    + rewrite EncodeVarint32_eq in E1 by lia.
      destruct (varint_cut (size s) p (b :: r)) as [_ ->]; done || lia.
  - rewrite GetVarint32_app by lia. rewrite size_app.
    destruct (Z.geb_spec (size r) (size r + size q)) as [Hg|]; [|done].
    destruct q; [done|]. unfold size in Hg; cbn [length] in Hg. lia.
Qed.

(** A length-prefixed slice of fewer than [2 ^ 32] bytes is read back, by both
    versions of the function, leaving exactly what follows it; when the length
    read says more bytes than there are, the read fails. *)
Theorem length_prefixed_roundtrip s rest :
  size s < 2 ^ 32 ->
  let bs := PutLengthPrefixedSlice [] s ++ rest in
  GetLengthPrefixedSlice bs = Some (s, rest) /\
  GetLengthPrefixedSlicePtr bs = Some (s, rest) /\
  (forall n, size rest < n -> size s + n < 2 ^ 32 ->
     GetLengthPrefixedSlice (EncodeVarint32 (size s + n) ++ s ++ rest) = None).
Proof.
  intros Hs. pose proof (size_nonneg s). unfold PutLengthPrefixedSlice, PutVarint32.
  cbn [app]. rewrite u32_small, <- app_assoc, GetLengthPrefixedSlicePtr_eq by lia.
  repeat split; try by apply get_length_prefixed_app.
  intros n Hn Hl. pose proof (size_nonneg rest).
  unfold GetLengthPrefixedSlice. rewrite GetVarint32_app, size_app by lia.
  destruct (Z.geb_spec (size s + size rest) (size s + n)); [lia | done].
Qed.

Lemma length_prefixed_roundtrip_witness :
  GetLengthPrefixedSlice (PutLengthPrefixedSlice [] [x61; x62] ++ [x63]) = Some ([x61; x62], [x63]).
Proof. apply (length_prefixed_roundtrip [x61; x62] [x63]). reflexivity. Defined.

(** ** Fixed-width integers *)

Lemma le_bytes_shift n v :
  le_bytes (S n) v = z2b (Z.land v 0xff) :: le_bytes n (Z.shiftr v 8).
Proof.
  cbn [le_bytes]. rewrite Z.shiftr_div_pow2, land_255, z2b_mod by lia. done.
Qed.

(** The two branches of the encoders write the same bytes. *)
Lemma EncodeFixed32_portable v : EncodeFixed32_bytes v = le_bytes 4 v.
Proof. rewrite !le_bytes_shift, !Z.shiftr_shiftr by lia. reflexivity. Qed.

Lemma EncodeFixed64_portable v : EncodeFixed64_bytes v = le_bytes 8 v.
Proof. rewrite !le_bytes_shift, !Z.shiftr_shiftr by lia. reflexivity. Qed.

Lemma DecodeFixed32_portable ptr :
  (4 <= length ptr)%nat -> DecodeFixed32_bytes ptr = le_val (take 4 ptr).
Proof.
  intros Hl. destruct ptr as [|a [|b [|c [|d ptr]]]]; cbn in Hl; try lia.
  unfold DecodeFixed32_bytes. change (take 4 (a :: b :: c :: d :: ptr)) with [a; b; c; d].
  cbn [nth le_val].
  pose proof (b2z_bound a). pose proof (b2z_bound b).
  pose proof (b2z_bound c). pose proof (b2z_bound d).
  rewrite !Z.shiftl_mul_pow2 by lia.
  rewrite !u32_small by lia.
  rewrite (lor_add 8 (b2z a)) by lia. rewrite (lor_add 16) by lia. rewrite (lor_add 24) by lia.
  change (2 ^ 8) with 256. change (2 ^ 16) with 65536. change (2 ^ 24) with 16777216. lia.
Qed.

Lemma DecodeFixed32_app v rest : DecodeFixed32 (EncodeFixed32 v ++ rest) = u32 v.
Proof.
  unfold DecodeFixed32, EncodeFixed32, kLittleEndian.
  rewrite take_app_length' by (by rewrite length_le_bytes). apply le_val_bytes.
Qed.

Lemma DecodeFixed64_app v rest : DecodeFixed64 (EncodeFixed64 v ++ rest) = u64 v.
Proof.
  unfold DecodeFixed64, EncodeFixed64, kLittleEndian.
  rewrite take_app_length' by (by rewrite length_le_bytes). apply le_val_bytes.
Qed.

Lemma length_EncodeFixed32 v : length (EncodeFixed32 v) = 4%nat.
Proof. apply length_le_bytes. Qed.
Lemma length_EncodeFixed64 v : length (EncodeFixed64 v) = 8%nat.
Proof. apply length_le_bytes. Qed.

Lemma DecodeFixed32_bound ptr : 0 <= DecodeFixed32 ptr < 2 ^ 32.
Proof.
  unfold DecodeFixed32, kLittleEndian. pose proof (le_val_bound (take 4 ptr)) as H.
  assert (256 ^ Z.of_nat (length (take 4 ptr)) <= 256 ^ 4); [|lia].
  apply Z.pow_le_mono_r; [lia|]. rewrite length_take. lia.
Qed.

Lemma DecodeFixed64_bound ptr : 0 <= DecodeFixed64 ptr < 2 ^ 64.
Proof.
  unfold DecodeFixed64, kLittleEndian. pose proof (le_val_bound (take 8 ptr)) as H.
  assert (256 ^ Z.of_nat (length (take 8 ptr)) <= 256 ^ 8); [|lia].
  apply Z.pow_le_mono_r; [lia|]. rewrite length_take. lia.
Qed.

Lemma EncodeFixed32_mod v : EncodeFixed32 (u32 v) = EncodeFixed32 v.
Proof. apply (le_bytes_mod 4). Qed.
Lemma EncodeFixed64_mod v : EncodeFixed64 (u64 v) = EncodeFixed64 v.
Proof. apply (le_bytes_mod 8). Qed.

(** ** Comparing slices *)

Lemma memcmp_0 a b : length a = length b -> memcmp a b = 0 <-> a = b.
Proof.
  revert b; induction a as [|x a IH]; intros [|y b] Hl; cbn in Hl |- *; try lia; [done|].
  destruct (Z.ltb_spec (b2z x) (b2z y)); [split; [done | intros [= -> ->]; lia]|].
  destruct (Z.ltb_spec (b2z y) (b2z x)); [split; [done | intros [= -> ->]; lia]|].
  rewrite IH by lia. split; [|by intros [= -> ->]].
  intros ->. f_equal. apply b2z_inj. lia.
Qed.

Lemma slice_eqb_eq x y : slice_eqb x y = true <-> x = y.
Proof.
  unfold slice_eqb, size. rewrite andb_true_iff, !Z.eqb_eq. split.
  - intros [Hl Hm]. apply memcmp_0; [lia | done].
  - intros ->. split; [done | by apply memcmp_0].
Qed.

Lemma slice_eqb_false x y : slice_eqb x y = false <-> x <> y.
Proof. rewrite <- not_true_iff_false, slice_eqb_eq. done. Qed.

Lemma starts_with_app s t : starts_with (s ++ t) s = true.
Proof.
  unfold starts_with. rewrite size_app, take_app_length.
  pose proof (size_nonneg t). rewrite (proj2 (memcmp_0 s s eq_refl) eq_refl), Z.eqb_refl.
  rewrite andb_true_r. apply Z.geb_le. lia.
Qed.

Lemma starts_with_inv s x : starts_with s x = true -> exists t, s = x ++ t.
Proof.
  unfold starts_with, size. rewrite andb_true_iff, Z.geb_le, Z.eqb_eq. intros [Hl Hm].
  apply memcmp_0 in Hm; [|rewrite length_take; lia].
  exists (drop (length x) s). rewrite <- Hm at 1. symmetry. apply take_drop.
Qed.

(** ** What the decoders return on any input *)

Lemma varint_ref_bound n w bs v rest :
  0 <= w -> varint_ref n w bs = Some (v, rest) -> 0 <= v < 2 ^ w /\ size rest < size bs.
Proof.
  intros Hw. unfold varint_ref. destruct (split_varint n bs) as [[ds r]|] eqn:E; [|done].
  intros [= <- <-]. split; [apply Z.mod_pos_bound, Z.pow_pos_nonneg; lia|].
  revert bs ds r E. induction n as [|n IH]; intros [|b bs] ds r E; try done.
  cbn [split_varint] in E. destruct (b2z b <? 128).
  - injection E as <- <-. unfold size. cbn [length]. lia.
  - destruct (split_varint n bs) as [[ds' r']|] eqn:E'; [|done]. injection E as <- <-.
    specialize (IH bs ds' r' E'). unfold size in *. cbn [length]. lia.
Qed.

Lemma GetVarint32_bound p v rest :
  GetVarint32 p = Some (v, rest) -> 0 <= v < 2 ^ 32 /\ size rest < size p.
Proof. rewrite GetVarint32_ref. by apply varint_ref_bound. Qed.

Lemma GetVarint64_bound p v rest :
  GetVarint64 p = Some (v, rest) -> 0 <= v < 2 ^ 64 /\ size rest < size p.
Proof. rewrite GetVarint64_ref. by apply varint_ref_bound. Qed.

Lemma GetVarint32Ptr_bound p v rest :
  GetVarint32Ptr p = Some (v, rest) -> 0 <= v < 2 ^ 32 /\ size rest < size p.
Proof. rewrite GetVarint32Ptr_eq. apply GetVarint32_bound. Qed.

Lemma GetLengthPrefixedSlice_bound p s rest :
  GetLengthPrefixedSlice p = Some (s, rest) -> size s < 2 ^ 32 /\ size rest < size p.
Proof.
  unfold GetLengthPrefixedSlice. destruct (GetVarint32 p) as [[len q]|] eqn:E; [|done].
  apply GetVarint32_bound in E. destruct (Z.geb_spec (size q) len); [|done]. intros [= <- <-].
  unfold remove_prefix. rewrite size_take, size_drop_Z by lia. lia.
Qed.

(** ** Readers *)

(** The reader [get] takes exactly the bytes [bs], whatever follows them, as the
    value [v], and refuses any proper prefix of them. *)
Definition parses {A} (get : list byte -> option (A * list byte)) (v : A) (bs : list byte) : Prop :=
  (forall rest, get (bs ++ rest) = Some (v, rest)) /\
  (forall p q, bs = p ++ q -> q <> [] -> get p = None).

Lemma parses_ret {A} (v : A) : parses (fun i => Some (v, i)) v [].
Proof. split; [done|]. intros p q E Hq. by destruct p, q. Qed.

Lemma parses_bind {A B} get (v : A) bs (k : A * list byte -> option (B * list byte)) w bs' :
  parses get v bs -> parses (fun i => k (v, i)) w bs' -> parses (fun i => get i ≫= k) w (bs ++ bs').
Proof.
  intros [H1 C1] [H2 C2]. split.
  - intros rest. rewrite <- app_assoc, H1. apply H2.
  - intros p q E Hq. apply app_eq_inv in E as [(r & E1 & E2)|(r & -> & E2)].
    + destruct r as [|b r].
      * rewrite app_nil_r in E1. cbn [app] in E2. subst bs. rewrite <- (app_nil_r p), H1.
        by apply (C2 [] q).
      * by rewrite (C1 p (b :: r)).
    + rewrite H1. by apply (C2 r q).
Qed.

Lemma parses_map {A B} get (v : A) bs (f : A -> B) :
  parses get v bs ->
  parses (fun i => match get i with Some (a, i) => Some (f a, i) | None => None end) (f v) bs.
Proof.
  intros [H C]. split.
  - intros rest. by rewrite H.
  - intros p q E Hq. by rewrite (C p q).
Qed.

Lemma parses_ext {A} get get' (v : A) bs :
  (forall i, get i = get' i) -> parses get v bs -> parses get' v bs.
Proof.
  intros E [H C]. split; [intros rest; by rewrite <- E|].
  intros p q Ep Hq. rewrite <- E. by apply (C p q).
Qed.

Lemma parses_varint32 v : 0 <= v < 2 ^ 32 -> parses GetVarint32 v (EncodeVarint32 v).
Proof.
  intros Hv. split; [intros rest; by apply GetVarint32_app|].
  intros p q E Hq. rewrite EncodeVarint32_eq in E by done. by apply (varint_cut v p q); [lia|..].
Qed.

Lemma parses_varint64 v : 0 <= v < 2 ^ 64 -> parses GetVarint64 v (EncodeVarint64 v).
Proof.
  intros Hv. split; [intros rest; by apply GetVarint64_app|].
  intros p q E Hq. rewrite EncodeVarint64_eq in E by done. by apply (varint_cut v p q).
Qed.

Lemma parses_slice s :
  size s < 2 ^ 32 -> parses GetLengthPrefixedSlice s (EncodeVarint32 (size s) ++ s).
Proof.
  intros Hs. split.
  - intros rest. rewrite <- app_assoc. by apply get_length_prefixed_app.
  - intros p q. by apply get_length_prefixed_cut.
Qed.

Lemma parses_last {A B} get (v : A) bs (k : A * list byte -> option (B * list byte)) w :
  parses get v bs -> (forall i, k (v, i) = Some (w, i)) -> parses (fun i => get i ≫= k) w bs.
Proof.
  intros H Hk. rewrite <- (app_nil_r bs). apply (parses_bind _ v); [done|].
  apply (parses_ext (fun i => Some (w, i))); [done | apply parses_ret].
Qed.

#[export] Hint Resolve parses_slice parses_varint32 parses_varint64 parses_ret : core.

(** Reads the fields of a chain of readers one after the other. *)
Ltac read_chain :=
  repeat (eapply parses_bind; [by auto|cbn beta iota]);
  eapply parses_last; [by auto | done].

Lemma put_prefixed dst s : size s < 2 ^ 32 -> PutLengthPrefixedSlice dst s = dst ++ EncodeVarint32 (size s) ++ s.
Proof.
  intros Hs. pose proof (size_nonneg s). unfold PutLengthPrefixedSlice, PutVarint32.
  by rewrite u32_small, <- app_assoc by lia.
Qed.
