(* ===== verification/LdbStatus.v ===== *)
(** leveldb: the result of an operation (include/leveldb/status.h,
    util/status.cc), and the interfaces of files (include/leveldb/env.h).

    A status is the array [state_] the code allocates, or null for success.
    The file classes are abstract in the code; [WritableFile] and
    [SequentialFile] give their operations, [GoodWritable] and [GoodSequential]
    the documented behaviour of files on which no call fails. *)

From stdpp Require Import pretty.
From S2P Require Import Prelude LdbCoding.
Open Scope Z_scope.

(** The bytes of a C string literal. *)
Definition cstr (s : string) : list byte := String.list_byte_of_string s.

(** * Status *)

Definition Status := option (list byte).

Definition OK : Status := None.
Definition ok (s : Status) : bool := match s with None => true | Some _ => false end.

Definition kOk : Z := 0.
Definition kNotFound : Z := 1.
Definition kCorruption : Z := 2.
Definition kNotSupported : Z := 3.
Definition kInvalidArgument : Z := 4.
Definition kIOError : Z := 5.

(** [state_[0..3]] is the length of the message, [state_[4]] the code. *)
Definition make_status (code : Z) (msg msg2 : list byte) : Status :=
  let len1 := u32 (size msg) in
  let len2 := u32 (size msg2) in
  let sz := u32 (len1 + (if negb (len2 =? 0) then u32 (2 + len2) else 0)) in
  Some (le_bytes 4 sz ++ [z2b code] ++ take (Z.to_nat len1) msg ++
        (if negb (len2 =? 0) then [x3a; x20] ++ take (Z.to_nat len2) msg2 else [])).

Definition NotFound (msg msg2 : list byte) : Status := make_status kNotFound msg msg2.
Definition Corruption (msg msg2 : list byte) : Status := make_status kCorruption msg msg2.
Definition NotSupported (msg msg2 : list byte) : Status := make_status kNotSupported msg msg2.
Definition InvalidArgument (msg msg2 : list byte) : Status := make_status kInvalidArgument msg msg2.
Definition IOError (msg msg2 : list byte) : Status := make_status kIOError msg msg2.

Definition status_code (s : Status) : Z :=
  match s with None => kOk | Some state => sx 8 (b2z (nth 4 state x00)) end.

Definition IsNotFound (s : Status) : bool := status_code s =? kNotFound.
Definition IsCorruption (s : Status) : bool := status_code s =? kCorruption.
Definition IsIOError (s : Status) : bool := status_code s =? kIOError.
Definition IsNotSupportedError (s : Status) : bool := status_code s =? kNotSupported.
Definition IsInvalidArgument (s : Status) : bool := status_code s =? kInvalidArgument.

Definition CopyState (state : list byte) : list byte :=
  let sz := le_val (take 4 state) in take (Z.to_nat (sz + 5)) state.

Definition copy_status (rhs : Status) : Status :=
  match rhs with None => None | Some state => Some (CopyState state) end.

Definition status_type (code : Z) : list byte :=
  if code =? kOk then cstr "OK"
  else if code =? kNotFound then cstr "NotFound: "
  else if code =? kCorruption then cstr "Corruption: "
  else if code =? kNotSupported then cstr "Not implemented: "
  else if code =? kInvalidArgument then cstr "Invalid argument: "
  else if code =? kIOError then cstr "IO error: "
  else cstr "Unknown code(" ++ cstr (pretty code) ++ cstr "): ".

Definition ToString (s : Status) : list byte :=
  match s with
  | None => cstr "OK"
  | Some state =>
      let length := le_val (take 4 state) in
      status_type (status_code s) ++ take (Z.to_nat length) (drop 5 state)
  end.

(** The text of a message pair. *)
Definition status_text (msg msg2 : list byte) : list byte :=
  if decide (msg2 = []) then msg else msg ++ cstr ": " ++ msg2.

Lemma make_status_eq code msg msg2 :
  size msg + size msg2 + 2 < 2 ^ 32 ->
  make_status code msg msg2
  = Some (le_bytes 4 (size (status_text msg msg2)) ++ [z2b code] ++ status_text msg msg2).
Proof.
  intros Hl. pose proof (size_nonneg msg). pose proof (size_nonneg msg2).
  unfold make_status, status_text. rewrite !(u32_small (size _)) by lia.
  replace (take (Z.to_nat (size msg)) msg) with msg by (unfold size; by rewrite Nat2Z.id, take_ge).
  replace (take (Z.to_nat (size msg2)) msg2) with msg2
    by (unfold size; by rewrite Nat2Z.id, take_ge).
  destruct (decide (msg2 = [])) as [->|Hn].
  - cbn [negb Z.eqb size length Z.of_nat]. rewrite Z.add_0_r, u32_small, app_nil_r by lia. done.
  - assert (size msg2 <> 0) by (destruct msg2; [done | unfold size; cbn [length]; lia]).
    rewrite (proj2 (Z.eqb_neq _ _)) by lia. cbn [negb]. rewrite !u32_small by (rewrite ?u32_small; lia).
    rewrite !size_app. change (size (cstr ": ")) with 2.
    done.
Qed.

(** A status keeps what it was made from: a code from one to five and two
    messages shorter than 4 GiB together give a status that is not OK, has that
    code, prints as the code's text followed by the messages joined by a colon,
    and is equal to its copies. *)
Theorem status_roundtrip code msg msg2 :
  1 <= code <= 5 -> size msg + size msg2 + 2 < 2 ^ 32 ->
  let s := make_status code msg msg2 in
  ok s = false /\ status_code s = code /\ copy_status s = s /\
  ToString s = status_type code ++ status_text msg msg2.
Proof.
  intros Hc Hl. cbv zeta. rewrite make_status_eq by done.
  set (text := status_text msg msg2).
  assert (0 <= size text < 2 ^ 32) as Ht.
  { split; [apply size_nonneg|]. unfold text, status_text.
    pose proof (size_nonneg msg2). pose proof (size_nonneg msg).
    destruct (decide _); [lia|]. rewrite !size_app. change (size (cstr ": ")) with 2. lia. }
  assert (le_val (take 4 (le_bytes 4 (size text) ++ [z2b code] ++ text)) = size text) as Hv.
  { rewrite take_app_length' by (by rewrite length_le_bytes).
    rewrite le_val_bytes. apply Z.mod_small. exact Ht. }
  assert (status_code (Some (le_bytes 4 (size text) ++ [z2b code] ++ text)) = code) as Hcode.
  { unfold status_code. rewrite app_nth2 by (rewrite length_le_bytes; lia).
    rewrite length_le_bytes. cbn [Nat.sub app nth].
    rewrite b2z_z2b_small by lia. apply sx_small; lia. }
  split; [done|]. split; [done|]. split.
  - unfold copy_status, CopyState. rewrite Hv. f_equal. apply take_ge.
    rewrite !length_app, length_le_bytes. unfold size. cbn [length]. lia.
  - unfold ToString. rewrite Hv, Hcode. f_equal.
    rewrite app_assoc, drop_app_length' by (rewrite length_app, length_le_bytes; done).
    apply take_ge. unfold size. lia.
Qed.

Lemma status_roundtrip_witness :
  ToString (Corruption (cstr "log") (cstr "bad")) = cstr "Corruption: log: bad".
Proof.
  exact (proj2 (proj2 (proj2 (status_roundtrip 2 (cstr "log") (cstr "bad")
    ltac:(lia) ltac:(vm_compute; reflexivity))))).
Defined.

(** * Files *)

Class WritableFile (F : Type) := {
  Append : F -> list byte -> Status * F;
  Flush : F -> Status * F;
}.

(** No call fails, and the contents grow by what is appended. *)
Class GoodWritable (F : Type) `{WritableFile F} := {
  contents : F -> list byte;
  Append_ok f data : fst (Append f data) = OK;
  Append_contents f data : contents (snd (Append f data)) = contents f ++ data;
  Flush_ok f : fst (Flush f) = OK;
  Flush_contents f : contents (snd (Flush f)) = contents f;
}.

Class SequentialFile (F : Type) := {
  Read : F -> Z -> Status * list byte * F;
  Skip : F -> Z -> Status * F;
}.

(** Every read returns as many of the remaining bytes as asked for. *)
Class GoodSequential (F : Type) `{SequentialFile F} := {
  remaining : F -> list byte;
  Read_eq f n : 0 <= n ->
    fst (Read f n) = (OK, take (Z.to_nat n) (remaining f)) /\
    remaining (snd (Read f n)) = drop (Z.to_nat n) (remaining f);
  Skip_eq f n : 0 <= n ->
    fst (Skip f n) = OK /\ remaining (snd (Skip f n)) = drop (Z.to_nat n) (remaining f);
}.

(** A file in memory: what was written, or what is left to read. *)
#[export] Instance mem_writable : WritableFile (list byte) := {
  Append f data := (OK, f ++ data);
  Flush f := (OK, f);
}.

#[export, refine] Instance mem_good_writable : GoodWritable (list byte) := { contents f := f }.
Proof. all: done. Defined.

#[export] Instance mem_sequential : SequentialFile (list byte) := {
  Read f n := (OK, take (Z.to_nat n) f, drop (Z.to_nat n) f);
  Skip f n := (OK, drop (Z.to_nat n) f);
}.

#[export, refine] Instance mem_good_sequential : GoodSequential (list byte) := { remaining f := f }.
Proof. all: done. Defined.
