(* ===== verification/LdbLog.v ===== *)
(** leveldb: the write-ahead log (db/log_format.h, db/log_writer.cc,
    db/log_writer.h, db/log_reader.cc, db/log_reader.h).

    A log is a sequence of 32 KiB blocks; a record is cut into fragments so that
    no header or payload crosses a block boundary, and each fragment carries a
    masked CRC, a length and a type.  [Writer] and [Reader] are the records of the
    members of the two classes; the reports made to the reader's [Reporter] are
    kept in the order made.

    [log_crash_recovery]: what a writer appended is read back record by record;
    when only a prefix of the file survived, exactly the records that were
    complete in it are read back, and nothing is reported as corrupt.
    [read_physical_checked]: on any file, no fragment with a wrong checksum is
    returned. *)

From stdpp Require Import pretty.
From S2P Require Import Prelude LdbCoding LdbCrc LdbStatus.
Open Scope Z_scope.

(** * Format *)

Definition kZeroType : Z := 0.
Definition kFullType : Z := 1.
Definition kFirstType : Z := 2.
Definition kMiddleType : Z := 3.
Definition kLastType : Z := 4.
Definition kMaxRecordType : Z := kLastType.
Definition kBlockSize : Z := 32768.
Definition kHeaderSize : Z := 4 + 2 + 1.

Definition kEof : Z := kMaxRecordType + 1.
Definition kBadRecord : Z := kMaxRecordType + 2.

(** * Writer *)

(** [type_crc_]: the CRC of each type byte. *)
Definition InitTypeCrc : list Z :=
  map (fun i => Value [z2b (Z.of_nat i)]) (seq 0 (Z.to_nat (kMaxRecordType + 1))).

Record Writer (F : Type) := mk_writer { dest : F; block_offset : Z; type_crc : list Z }.
Arguments mk_writer {F}. Arguments dest {F}. Arguments block_offset {F}. Arguments type_crc {F}.

Definition new_Writer {F} (f : F) : Writer F := mk_writer f 0 InitTypeCrc.
Definition new_Writer_at {F} (f : F) (dest_length : Z) : Writer F :=
  mk_writer f (s32 (dest_length mod kBlockSize)) InitTypeCrc.

Section Writing.
Context {F : Type} `{WritableFile F}.

Definition set_dest (w : Writer F) (f : F) : Writer F := mk_writer f (block_offset w) (type_crc w).
Definition set_block_offset (w : Writer F) (o : Z) : Writer F := mk_writer (dest w) o (type_crc w).

Definition EmitPhysicalRecord (w : Writer F) (t : Z) (payload : list byte)
  : Status * Writer F :=
  let len := size payload in
  let crc := Extend (nth (Z.to_nat t) (type_crc w) 0) 0 payload in
  let crc := Mask crc in
  let buf := EncodeFixed32 crc ++ [z2b (Z.land len 0xff); z2b (Z.shiftr len 8); z2b t] in
  let '(s, f) := Append (dest w) buf in
  let w := set_dest w f in
  let '(s, w) :=
    if ok s then
      let '(s, f) := Append (dest w) payload in
      let w := set_dest w f in
      if ok s then
        let '(s, f) := Flush (dest w) in (s, set_dest w f)
      else (s, w)
    else (s, w) in
  (s, set_block_offset w (block_offset w + (kHeaderSize + len))).

(** One iteration: the fragment emitted, and what is left of the record. *)
Definition fragment_type (begin end_ : bool) : Z :=
  if begin && end_ then kFullType
  else if begin then kFirstType
  else if end_ then kLastType
  else kMiddleType.

Fixpoint add_record_loop (fuel : nat) (w : Writer F) (begin : bool) (ptr : list byte)
  : Status * Writer F :=
  match fuel with
  | O => (OK, w)
  | S fuel =>
      let leftover := kBlockSize - block_offset w in
      let w :=
        if leftover <? kHeaderSize then
          let w :=
            if leftover >? 0 then
              set_dest w (snd (Append (dest w) (replicate (Z.to_nat leftover) x00)))
            else w in
          set_block_offset w 0
        else w in
      let avail := kBlockSize - block_offset w - kHeaderSize in
      let left := size ptr in
      let fragment_length := if left <? avail then left else avail in
      let end_ := left =? fragment_length in
      let type := fragment_type begin end_ in
      let '(s, w) := EmitPhysicalRecord w type (take (Z.to_nat fragment_length) ptr) in
      let ptr := drop (Z.to_nat fragment_length) ptr in
      if ok s && (size ptr >? 0) then add_record_loop fuel w false ptr else (s, w)
  end.

(** Only the first fragment can be empty, so one iteration per byte and two more
    are enough ([record_bytes_fuel]). *)
Definition AddRecord (w : Writer F) (slice : list byte) : Status * Writer F :=
  add_record_loop (length slice + 2) w true slice.
End Writing.

(** * Reader *)

Record Reader (F : Type) := mk_reader {
  file : F;
  has_reporter : bool;
  checksum : bool;
  buffer : list byte;
  eof : bool;
  last_record_offset : Z;
  end_of_buffer_offset : Z;
  initial_offset : Z;
  resyncing : bool;
  reports : list (Z * Status);
}.
Arguments mk_reader {F}. Arguments file {F}. Arguments has_reporter {F}. Arguments checksum {F}.
Arguments buffer {F}. Arguments eof {F}. Arguments last_record_offset {F}.
Arguments end_of_buffer_offset {F}. Arguments initial_offset {F}. Arguments resyncing {F}.
Arguments reports {F}.

Definition new_Reader {F} (f : F) (reporter check : bool) (initial : Z) : Reader F :=
  mk_reader f reporter check [] false 0 0 initial (initial >? 0) [].

Section Reading.
Context {F : Type} `{SequentialFile F}.

Definition set_buffer (r : Reader F) (b : list byte) : Reader F :=
  mk_reader (file r) (has_reporter r) (checksum r) b (eof r) (last_record_offset r)
    (end_of_buffer_offset r) (initial_offset r) (resyncing r) (reports r).
Definition set_eof (r : Reader F) (e : bool) : Reader F :=
  mk_reader (file r) (has_reporter r) (checksum r) (buffer r) e (last_record_offset r)
    (end_of_buffer_offset r) (initial_offset r) (resyncing r) (reports r).
Definition set_file (r : Reader F) (f : F) : Reader F :=
  mk_reader f (has_reporter r) (checksum r) (buffer r) (eof r) (last_record_offset r)
    (end_of_buffer_offset r) (initial_offset r) (resyncing r) (reports r).
Definition set_end_of_buffer_offset (r : Reader F) (o : Z) : Reader F :=
  mk_reader (file r) (has_reporter r) (checksum r) (buffer r) (eof r) (last_record_offset r)
    o (initial_offset r) (resyncing r) (reports r).
Definition set_last_record_offset (r : Reader F) (o : Z) : Reader F :=
  mk_reader (file r) (has_reporter r) (checksum r) (buffer r) (eof r) o
    (end_of_buffer_offset r) (initial_offset r) (resyncing r) (reports r).
Definition set_resyncing (r : Reader F) (b : bool) : Reader F :=
  mk_reader (file r) (has_reporter r) (checksum r) (buffer r) (eof r) (last_record_offset r)
    (end_of_buffer_offset r) (initial_offset r) b (reports r).

Definition ReportDrop (r : Reader F) (bytes : Z) (reason : Status) : Reader F :=
  if has_reporter r &&
     (u64 (end_of_buffer_offset r - size (buffer r) - bytes) >=? initial_offset r)
  then mk_reader (file r) (has_reporter r) (checksum r) (buffer r) (eof r) (last_record_offset r)
         (end_of_buffer_offset r) (initial_offset r) (resyncing r)
         (reports r ++ [(bytes, reason)])
  else r.

Definition ReportCorruption (r : Reader F) (bytes : Z) (reason : list byte) : Reader F :=
  ReportDrop r bytes (Corruption reason []).

Definition SkipToInitialBlock (r : Reader F) : bool * Reader F :=
  let offset_in_block := initial_offset r mod kBlockSize in
  let block_start_location := initial_offset r - offset_in_block in
  let block_start_location :=
    if offset_in_block >? kBlockSize - 6 then u64 (block_start_location + kBlockSize)
    else block_start_location in
  let r := set_end_of_buffer_offset r block_start_location in
  if block_start_location >? 0 then
    let '(skip_status, f) := Skip (file r) block_start_location in
    let r := set_file r f in
    if negb (ok skip_status) then (false, ReportDrop r block_start_location skip_status)
    else (true, r)
  else (true, r).

(** The loop goes round at most once: a short read sets [eof_] and a full one
    fills the buffer ([read_physical_fuel]).  [result] keeps its value where the
    code does not set it. *)
Fixpoint read_physical_loop (fuel : nat) (r : Reader F) (result : list byte)
  : Z * list byte * Reader F :=
  match fuel with
  | O => (kEof, result, r)
  | S fuel =>
      if size (buffer r) <? kHeaderSize then
        if negb (eof r) then
          let r := set_buffer r [] in
          let '(status, bytes, f) := Read (file r) kBlockSize in
          let r := set_buffer (set_file r f) bytes in
          let r := set_end_of_buffer_offset r (u64 (end_of_buffer_offset r + size (buffer r))) in
          if negb (ok status) then
            let r := set_buffer r [] in
            let r := ReportDrop r kBlockSize status in
            (kEof, result, set_eof r true)
          else if size (buffer r) <? kBlockSize then
            read_physical_loop fuel (set_eof r true) result
          else read_physical_loop fuel r result
        else (kEof, result, set_buffer r [])
      else
        let header := buffer r in
        let byte_at i := b2z (nth i header x00) in
        let a := Z.land (u32 (sx 8 (byte_at 4%nat))) 0xff in
        let b := Z.land (u32 (sx 8 (byte_at 5%nat))) 0xff in
        let type := u32 (sx 8 (byte_at 6%nat)) in
        let len := Z.lor a (u32 (Z.shiftl b 8)) in
        if kHeaderSize + len >? size (buffer r) then
          let drop_size := size (buffer r) in
          let r := set_buffer r [] in
          if negb (eof r) then
            (kBadRecord, result, ReportCorruption r drop_size (cstr "bad record length"))
          else (kEof, result, r)
        else if (type =? kZeroType) && (len =? 0) then
          (kBadRecord, result, set_buffer r [])
        else
          let expected_crc := Unmask (DecodeFixed32 header) in
          let actual_crc := Value (take (Z.to_nat (1 + len)) (drop 6 header)) in
          if checksum r && negb (actual_crc =? expected_crc) then
            let drop_size := size (buffer r) in
            let r := set_buffer r [] in
            (kBadRecord, result, ReportCorruption r drop_size (cstr "checksum mismatch"))
          else
            let r := set_buffer r (remove_prefix (kHeaderSize + len) (buffer r)) in
            if u64 (end_of_buffer_offset r - size (buffer r) - kHeaderSize - len)
               <? initial_offset r
            then (kBadRecord, [], r)
            else (type, take (Z.to_nat len) (drop (Z.to_nat kHeaderSize) header), r)
  end.

Definition ReadPhysicalRecord (r : Reader F) (result : list byte) : Z * list byte * Reader F :=
  read_physical_loop 2 r result.

(** The local variables of [ReadRecord] that live across iterations. *)
Record rr_state := mk_rr {
  rr_in_fragmented_record : bool;
  rr_prospective : Z;
  rr_fragment : list byte;
  rr_scratch : list byte;
}.

(** The loop of [ReadRecord]: [Some record], or [None] at the end of the input. *)
Fixpoint read_record_loop (fuel : nat) (r : Reader F) (st : rr_state)
  : option (option (list byte) * list byte * Reader F) :=
  match fuel with
  | O => None
  | S fuel =>
      let '(record_type, fragment, r) := ReadPhysicalRecord r (rr_fragment st) in
      let physical_record_offset :=
        u64 (end_of_buffer_offset r - size (buffer r) - kHeaderSize - size fragment) in
      let in_fragmented_record := rr_in_fragmented_record st in
      let prospective := rr_prospective st in
      let scratch := rr_scratch st in
      let continue r infr pro scr := read_record_loop fuel r (mk_rr infr pro fragment scr) in
      if resyncing r && (record_type =? kMiddleType) then
        continue r in_fragmented_record prospective scratch
      else if resyncing r && (record_type =? kLastType) then
        continue (set_resyncing r false) in_fragmented_record prospective scratch
      else
        let r := if resyncing r then set_resyncing r false else r in
        if record_type =? kFullType then
          let r :=
            if in_fragmented_record && negb (empty scratch)
            then ReportCorruption r (size scratch) (cstr "partial record without end(1)")
            else r in
          Some (Some fragment, [], set_last_record_offset r physical_record_offset)
        else if record_type =? kFirstType then
          let r :=
            if in_fragmented_record && negb (empty scratch)
            then ReportCorruption r (size scratch) (cstr "partial record without end(2)")
            else r in
          continue r true physical_record_offset fragment
        else if record_type =? kMiddleType then
          if negb in_fragmented_record then
            continue (ReportCorruption r (size fragment)
                        (cstr "missing start of fragmented record(1)"))
              in_fragmented_record prospective scratch
          else continue r in_fragmented_record prospective (scratch ++ fragment)
        else if record_type =? kLastType then
          if negb in_fragmented_record then
            continue (ReportCorruption r (size fragment)
                        (cstr "missing start of fragmented record(2)"))
              in_fragmented_record prospective scratch
          else
            let scratch := scratch ++ fragment in
            Some (Some scratch, scratch, set_last_record_offset r prospective)
        else if record_type =? kEof then
          Some (None, if in_fragmented_record then [] else scratch, r)
        else if record_type =? kBadRecord then
          if in_fragmented_record then
            continue (ReportCorruption r (size scratch) (cstr "error in middle of record"))
              false prospective []
          else continue r in_fragmented_record prospective scratch
        else
          continue (ReportCorruption r
                      (u64 (size fragment + (if in_fragmented_record then size scratch else 0)))
                      (cstr "unknown record type " ++ cstr (pretty record_type)))
            false prospective []
  end.

(** [Some (record, scratch, reader)]: [record] is [None] when the function returns
    false; [None] when the fuel does not do. *)
Definition ReadRecord (fuel : nat) (r : Reader F) (scratch : list byte)
  : option (option (list byte) * list byte * Reader F) :=
  let loop r := read_record_loop fuel r (mk_rr false 0 [] []) in
  if last_record_offset r <? initial_offset r then
    let '(found, r) := SkipToInitialBlock r in
    if negb found then Some (None, scratch, r) else loop r
  else loop r.

Definition LastRecordOffset (r : Reader F) : Z := last_record_offset r.
End Reading.

(** * Reference: the bytes of a record *)

Definition phys (t : Z) (payload : list byte) : list byte :=
  EncodeFixed32 (Mask (Value (z2b t :: payload))) ++
  [z2b (size payload mod 256); z2b (size payload / 256); z2b t] ++ payload.

(** The padding of a block that has no room for a header, and the offset after
    it. *)
Definition pad_at (o : Z) : list byte :=
  if kBlockSize - o <? kHeaderSize then replicate (Z.to_nat (kBlockSize - o)) x00 else [].
Definition start_at (o : Z) : Z := if kBlockSize - o <? kHeaderSize then 0 else o.

(** The bytes appended for [data] from offset [o] of a block, and the offset
    reached. *)
Fixpoint rec_bytes (fuel : nat) (begin : bool) (o : Z) (data : list byte) : list byte * Z :=
  match fuel with
  | O => ([], o)
  | S fuel =>
      let o1 := start_at o in
      let n := Z.min (size data) (kBlockSize - o1 - kHeaderSize) in
      let rest := drop (Z.to_nat n) data in
      let out := pad_at o ++ phys (fragment_type begin (size data =? n))
                               (take (Z.to_nat n) data) in
      if size rest >? 0 then
        let '(bs, o') := rec_bytes fuel false (o1 + kHeaderSize + n) rest in (out ++ bs, o')
      else (out, o1 + kHeaderSize + n)
  end.

Definition record_bytes (o : Z) (data : list byte) : list byte * Z :=
  rec_bytes (length data + 2) true o data.

Fixpoint log_bytes (o : Z) (rs : list (list byte)) : list byte * Z :=
  match rs with
  | [] => ([], o)
  | r :: rs =>
      let '(b, o1) := record_bytes o r in
      let '(bs, o2) := log_bytes o1 rs in (b ++ bs, o2)
  end.

(** The fuel that a record needs: a header that ends a block exactly is followed
    by an empty fragment. *)
Definition need (o : Z) (data : list byte) : nat :=
  length data + (if o =? kBlockSize - kHeaderSize then 2 else 1).

Definition in_block (o : Z) : Prop := 0 <= o <= kBlockSize.

Lemma length_phys t p : size (phys t p) = kHeaderSize + size p.
Proof.
  unfold phys, size. rewrite !length_app, length_EncodeFixed32. cbn [length].
  unfold kHeaderSize. lia.
Qed.

Lemma start_at_bound o : in_block o -> 0 <= start_at o <= kBlockSize - kHeaderSize.
Proof.
  unfold in_block, start_at, kBlockSize, kHeaderSize. intros Ho.
  destruct (Z.ltb_spec (32768 - o) (4 + 2 + 1)); lia.
Qed.

(** What an iteration leaves: the whole fragment fits the block, and when more
    is to come the block is full and less fuel is needed. *)
Lemma fragment_bounds o data :
  in_block o ->
  let o1 := start_at o in
  let n := Z.min (size data) (kBlockSize - o1 - kHeaderSize) in
  let rest := drop (Z.to_nat n) data in
  0 <= n <= size data /\ o1 + kHeaderSize + n <= kBlockSize /\
  in_block (o1 + kHeaderSize + n) /\
  size (take (Z.to_nat n) data) = n /\
  (size data = n <-> size rest = 0) /\
  (0 < size rest -> o1 + kHeaderSize + n = kBlockSize /\ (need kBlockSize rest < need o data)%nat).
Proof.
  intros Ho. cbv zeta. pose proof (start_at_bound o Ho) as Hs. pose proof (size_nonneg data).
  set (o1 := start_at o) in *. set (n := Z.min _ _).
  assert (0 <= n <= size data) by (unfold n; lia).
  rewrite size_take, size_drop_Z by lia.
  unfold in_block, kBlockSize, kHeaderSize in *.
  do 5 (split; [lia|]). intros Hr. split; [lia|]. unfold need, kBlockSize, kHeaderSize. rewrite length_drop. unfold size in *.
  change (32768 =? 32768 - (4 + 2 + 1)) with false. cbv iota.
  assert (n = 32768 - o1 - (4 + 2 + 1)) by lia.
  destruct (Z.eqb_spec o (32768 - (4 + 2 + 1))); [lia|].
  assert (0 < n); [|lia].
  unfold o1, start_at, kBlockSize, kHeaderSize in *.
  destruct (Z.ltb_spec (32768 - o) (4 + 2 + 1)); lia.
Qed.

Lemma need_record o data : (need o data <= length data + 2)%nat.
Proof. unfold need. destruct (_ =? _); lia. Qed.

(** One step of the reference, unfolded. *)
Lemma rec_bytes_S fuel begin o data :
  rec_bytes (S fuel) begin o data =
  let o1 := start_at o in
  let n := Z.min (size data) (kBlockSize - o1 - kHeaderSize) in
  let rest := drop (Z.to_nat n) data in
  let out := pad_at o ++ phys (fragment_type begin (size data =? n))
                           (take (Z.to_nat n) data) in
  if size rest >? 0 then
    let '(bs, o') := rec_bytes fuel false (o1 + kHeaderSize + n) rest in (out ++ bs, o')
  else (out, o1 + kHeaderSize + n).
Proof. reflexivity. Qed.

(** * The writer appends the reference bytes *)

Lemma type_crc_eq t payload :
  0 <= t <= 4 -> Extend (nth (Z.to_nat t) InitTypeCrc 0) 0 payload = Value (z2b t :: payload).
Proof.
  intros Ht. assert (nth (Z.to_nat t) InitTypeCrc 0 = Value [z2b t]) as ->.
  { assert (t = 0 \/ t = 1 \/ t = 2 \/ t = 3 \/ t = 4) as Hc by lia.
    destruct Hc as [->|[->|[->|[->| ->]]]]; vm_compute; reflexivity. }
  apply Extend_Value.
Qed.

Lemma fragment_type_bound b e : 1 <= fragment_type b e <= 4.
Proof. destruct b, e; vm_compute; split; discriminate. Qed.

Section Written.
Context {F : Type} `{GoodWritable F}.

(** [w] is [w0] after [bs] were appended, now at offset [o] of its block. *)
Definition wrote (w0 w : Writer F) (bs : list byte) (o : Z) : Prop :=
  contents (dest w) = contents (dest w0) ++ bs /\ block_offset w = o /\
  type_crc w = type_crc w0.

Lemma EmitPhysicalRecord_eq w t p :
  type_crc w = InitTypeCrc -> 0 <= t <= 4 -> size p < 2 ^ 16 ->
  exists w', EmitPhysicalRecord w t p = (OK, w') /\
    wrote w w' (phys t p) (block_offset w + kHeaderSize + size p).
Proof.
  intros Hcrc Ht Hp. unfold EmitPhysicalRecord. rewrite Hcrc, type_crc_eq by done.
  set (buf := _ ++ [_; _; _]).
  destruct (Append (dest w) buf) as [s1 f1] eqn:E1.
  pose proof (Append_ok (dest w) buf) as O1. pose proof (Append_contents (dest w) buf) as C1.
  rewrite E1 in O1, C1. cbn [fst snd] in O1, C1. subst s1. cbn [ok].
  cbn [dest set_dest].
  destruct (Append f1 p) as [s2 f2] eqn:E2.
  pose proof (Append_ok f1 p) as O2. pose proof (Append_contents f1 p) as C2.
  rewrite E2 in O2, C2. cbn [fst snd] in O2, C2. subst s2. cbn [ok].
  cbn [dest set_dest].
  destruct (Flush f2) as [s3 f3] eqn:E3.
  pose proof (Flush_ok f2) as O3. pose proof (Flush_contents f2) as C3.
  rewrite E3 in O3, C3. cbn [fst snd] in O3, C3. subst s3.
  eexists. split; [reflexivity|]. unfold wrote; cbn [dest block_offset type_crc set_block_offset set_dest].
  split; [|split; [lia | done]].
  rewrite C3, C2, C1. unfold buf, phys. rewrite <- !app_assoc.
  rewrite land_255, Z.shiftr_div_pow2 by lia. done.
Qed.

Lemma add_record_loop_eq fuel w begin data bs o :
  type_crc w = InitTypeCrc -> in_block (block_offset w) ->
  (need (block_offset w) data <= fuel)%nat ->
  rec_bytes fuel begin (block_offset w) data = (bs, o) ->
  exists w', add_record_loop fuel w begin data = (OK, w') /\ wrote w w' bs o /\ in_block o.
Proof.
  revert w begin data bs o; induction fuel as [|fuel IH]; intros w begin data bs o Hcrc Ho Hn E.
  { unfold need in Hn. destruct (_ =? _) in Hn; lia. }
  rewrite rec_bytes_S in E. cbn [add_record_loop].
  pose proof (fragment_bounds _ data Ho) as (Hb1 & Hb2 & Hb3 & Hb4 & Hb5 & Hb6).
  set (w1 := if kBlockSize - block_offset w <? kHeaderSize then _ else w).
  assert (wrote w w1 (pad_at (block_offset w)) (start_at (block_offset w))) as Hw1.
  { unfold w1, pad_at, start_at, wrote.
    destruct (Z.ltb_spec (kBlockSize - block_offset w) kHeaderSize).
    - destruct (Z.gtb_spec (kBlockSize - block_offset w) 0); cbn.
      + by rewrite Append_contents.
      + unfold in_block in Ho. replace (Z.to_nat (kBlockSize - block_offset w)) with O by lia.
        by rewrite app_nil_r.
    - by rewrite app_nil_r. }
  destruct Hw1 as (W1 & W2 & W3). rewrite W2.
  replace (if size data <? kBlockSize - start_at (block_offset w) - kHeaderSize then size data
           else kBlockSize - start_at (block_offset w) - kHeaderSize)
    with (Z.min (size data) (kBlockSize - start_at (block_offset w) - kHeaderSize))
    by (destruct (Z.ltb_spec (size data) (kBlockSize - start_at (block_offset w) - kHeaderSize)); lia).
  cbv zeta in E. set (n := Z.min _ _) in *. set (t := fragment_type _ _) in *.
  destruct (EmitPhysicalRecord_eq w1 t (take (Z.to_nat n) data)) as (w2 & -> & V1 & V2 & V3).
  { by rewrite W3. }
  { pose proof (fragment_type_bound begin (size data =? n)). unfold t. lia. }
  { rewrite Hb4. unfold kBlockSize, kHeaderSize in *.
    pose proof (start_at_bound _ Ho). unfold kBlockSize, kHeaderSize in *. lia. }
  cbn [ok andb]. rewrite W2, Hb4 in V2.
  destruct (Z.gtb_spec (size (drop (Z.to_nat n) data)) 0) as [Hg|Hg].
  - destruct (Hb6 ltac:(lia)) as [Hfull Hneed].
    destruct (rec_bytes fuel false _ _) as [bs' o'] eqn:E'. injection E as <- <-.
    rewrite <- V2 in E'.
    destruct (IH w2 false (drop (Z.to_nat n) data) bs' o' ltac:(congruence))
      as (w' & -> & (U1 & U2 & U3) & Ho').
    + rewrite V2. exact Hb3.
    + rewrite V2, Hfull. lia.
    + exact E'.
    + exists w'. split; [done|]. split; [|done]. split; [|split; congruence].
      by rewrite U1, V1, W1, <- !app_assoc.
  - injection E as <- <-. exists w2. split; [done|]. split; [|done].
    split; [|split; congruence]. by rewrite V1, W1, <- !app_assoc.
Qed.

Lemma AddRecord_eq w data bs o :
  type_crc w = InitTypeCrc -> in_block (block_offset w) ->
  record_bytes (block_offset w) data = (bs, o) ->
  exists w', AddRecord w data = (OK, w') /\ wrote w w' bs o /\ in_block o.
Proof. intros Hc Ho E. apply add_record_loop_eq; auto using need_record. Qed.
End Written.

(** * Reading back *)

Section ReadBack.
Context {G : Type} `{GoodSequential G}.

(** The reader stands at offset [o] of a block with [S] left to read: the buffer
    holds the rest of the block; [eof_] tells whether the block was cut short. *)
Record reading_at (r : Reader G) (o : Z) (S : list byte) : Prop := {
  ra_block : in_block o;
  ra_buffer : buffer r = take (Z.to_nat (kBlockSize - o)) S;
  ra_rest : remaining (file r) = drop (Z.to_nat (kBlockSize - o)) S;
  ra_eof : eof r = (size (buffer r) <? kBlockSize - o);
  ra_initial : initial_offset r = 0;
  ra_resyncing : resyncing r = false;
  ra_last : 0 <= last_record_offset r;
}.

Lemma new_reading_at g rep chk : reading_at (new_Reader g rep chk 0) kBlockSize (remaining g).
Proof. by split. Qed.

Lemma size_buffer r o S : reading_at r o S -> size (buffer r) = Z.min (kBlockSize - o) (size S).
Proof. intros [Hb Hbuf _ _ _ _ _]. rewrite Hbuf. apply size_take. unfold in_block in Hb. lia. Qed.

(** Less than a header is left of the block: the next block is read. *)
Lemma read_next_block fuel r o S result :
  reading_at r o S -> kBlockSize - o < kHeaderSize -> kBlockSize - o <= size S ->
  exists r', read_physical_loop (Datatypes.S fuel) r result = read_physical_loop fuel r' result /\
    reading_at r' 0 (drop (Z.to_nat (kBlockSize - o)) S) /\ reports r' = reports r.
Proof.
  intros Ha Ho Hs. pose proof (size_buffer _ _ _ Ha) as Hsz.
  destruct Ha as [Hb Hbuf Hrest Heof Hi Hr Hl]. unfold in_block in Hb.
  cbn [read_physical_loop]. rewrite (proj2 (Z.ltb_lt _ _)) by lia.
  rewrite Heof, (proj2 (Z.ltb_ge _ _)) by lia. cbn [negb].
  cbn [file set_buffer].
  pose proof (Read_eq (file r) kBlockSize ltac:(unfold kBlockSize; lia)) as [R1 R2].
  destruct (Read (file r) kBlockSize) as [[st bytes] g'].
  cbn [fst snd] in R1, R2. injection R1 as -> ->. cbn [ok negb].
  cbn [buffer set_buffer set_file set_end_of_buffer_offset].
  rewrite Hrest in *. set (S' := drop (Z.to_nat (kBlockSize - o)) S) in *.
  destruct (Z.ltb_spec (size (take (Z.to_nat kBlockSize) S')) kBlockSize) as [Hlt|Hge];
    (eexists; split; [reflexivity|]; split; [|reflexivity]);
    (split; cbn [buffer eof file initial_offset resyncing last_record_offset set_eof set_buffer
                 set_file set_end_of_buffer_offset]; rewrite ?Z.sub_0_r; try done).
  - symmetry. by apply Z.ltb_lt.
  - rewrite Heof. transitivity false; [|symmetry; by apply Z.ltb_ge]. apply Z.ltb_ge. lia.
Qed.

(** A [char] as the byte it was. *)
Lemma char_byte b : Z.land (u32 (sx 8 (b2z b))) 0xff = b2z b.
Proof.
  rewrite land_255. unfold u32. change 256 with (2 ^ 8). rewrite mod_mod_pow, sx_mod by lia. apply Z.mod_small, b2z_bound.
Qed.

(** The header of a fragment. *)
Lemma phys_header t p rest :
  1 <= t <= 4 -> size p < 2 ^ 15 ->
  let header := phys t p ++ rest in
  DecodeFixed32 header = Mask (Value (z2b t :: p)) /\
  u32 (sx 8 (b2z (nth 6 header x00))) = t /\
  Z.lor (Z.land (u32 (sx 8 (b2z (nth 4 header x00)))) 0xff)
        (u32 (Z.shiftl (Z.land (u32 (sx 8 (b2z (nth 5 header x00)))) 0xff) 8)) = size p /\
  take (Z.to_nat (1 + size p)) (drop 6 header) = z2b t :: p /\
  take (Z.to_nat (size p)) (drop (Z.to_nat kHeaderSize) header) = p /\
  remove_prefix (kHeaderSize + size p) header = rest.
Proof.
  intros Ht Hp. cbv zeta. pose proof (size_nonneg p).
  unfold phys. rewrite <- !app_assoc.
  set (crc := Mask _). pose proof (length_EncodeFixed32 crc) as Hl.
  rewrite !(app_nth2 (EncodeFixed32 crc)) by lia. rewrite !Hl. cbn [Nat.sub app nth].
  split; [|split; [|split; [|split; [|split]]]].
  - rewrite DecodeFixed32_app. apply u32_small.
    apply Mask_bound.
  - rewrite b2z_z2b_small, sx_small, u32_small by lia. done.
  - rewrite !char_byte, !b2z_z2b, Z.mod_mod by lia. rewrite (Z.mod_small (size p / 256)).
    2: { split; [apply Z.div_pos; lia | apply Z.div_lt_upper_bound; lia]. }
    rewrite Z.shiftl_mul_pow2 by lia. pose proof (Z.mod_pos_bound (size p) 256 ltac:(lia)).
    pose proof (Z.div_mod (size p) 256 ltac:(lia)).
    assert (0 <= size p / 256 < 256).
    { split; [apply Z.div_pos; lia | apply Z.div_lt_upper_bound; lia]. }
    rewrite u32_small, lor_add by lia. lia.
  - replace 6%nat with (length (EncodeFixed32 crc) + 2)%nat by lia.
    rewrite <- drop_drop, drop_app_length. cbn [drop].
    replace (Z.to_nat (1 + size p)) with (length (z2b t :: p)) by (unfold size; cbn [length]; lia).
    change (z2b t :: p ++ rest) with ((z2b t :: p) ++ rest). apply take_app_length.
  - replace (Z.to_nat kHeaderSize) with (length (EncodeFixed32 crc) + 3)%nat
      by (unfold kHeaderSize; lia).
    rewrite <- drop_drop, drop_app_length. cbn [drop]. apply take_size_app.
  - unfold remove_prefix.
    replace (Z.to_nat (kHeaderSize + size p)) with (length (EncodeFixed32 crc) + (3 + length p))%nat
      by (unfold kHeaderSize, size; lia).
    rewrite <- drop_drop, drop_app_length. cbn [drop Nat.add]. apply drop_app_length.
Qed.

(** A whole fragment of the block is returned. *)
Lemma read_fragment fuel r o t p T result :
  reading_at r o (phys t p ++ T) -> 1 <= t <= 4 -> o + kHeaderSize + size p <= kBlockSize ->
  exists r', read_physical_loop (S fuel) r result = (t, p, r') /\
    reading_at r' (o + kHeaderSize + size p) T /\ reports r' = reports r.
Proof.
  intros Ha Ht Ho. pose proof (size_buffer _ _ _ Ha) as Hsz.
  destruct Ha as [Hb Hbuf Hrest Heof Hi Hr Hl].
  pose proof (size_nonneg p) as Hp. pose proof (size_nonneg T).
  assert (kHeaderSize = 7) as H7 by done. assert (kBlockSize = 32768) as HB by done.
  unfold in_block in Hb. rewrite size_app, length_phys in Hsz.
  assert (buffer r = phys t p ++ take (Z.to_nat (kBlockSize - (o + kHeaderSize + size p))) T)
    as Hbuf'.
  { rewrite Hbuf, take_app. pose proof (length_phys t p) as Hlp. unfold size in *.
    rewrite take_ge by lia. do 2 f_equal. lia. }
  destruct (phys_header t p (take (Z.to_nat (kBlockSize - (o + kHeaderSize + size p))) T))
    as (P1 & P2 & P3 & P4 & P5 & P6); [done | lia |].
  cbn [read_physical_loop]. cbv zeta. rewrite (proj2 (Z.ltb_ge _ _)) by lia.
  rewrite <- Hbuf' in *. rewrite P3.
  destruct (Z.gtb_spec (kHeaderSize + size p) (size (buffer r))); [lia|].
  rewrite P2. destruct (Z.eqb_spec t kZeroType) as [E|_]; [unfold kZeroType in E; lia|].
  cbn [andb]. rewrite P1, P4, P5. rewrite Unmask_Mask by apply Value_bound.
  rewrite Z.eqb_refl, andb_false_r.
  cbn [end_of_buffer_offset set_buffer initial_offset buffer]. rewrite Hi.
  destruct (Z.ltb_spec (u64 (end_of_buffer_offset r
    - size (remove_prefix (kHeaderSize + size p) (buffer r)) - kHeaderSize - size p)) 0) as [Hlt|_].
  { pose proof (u64_bound (end_of_buffer_offset r
      - size (remove_prefix (kHeaderSize + size p) (buffer r)) - kHeaderSize - size p)). lia. }
  eexists. split; [reflexivity|]. split; [|reflexivity].
  split; cbn [buffer eof file initial_offset resyncing last_record_offset set_buffer]; try done.
  - unfold in_block. lia.
  - rewrite Hrest, drop_app. pose proof (length_phys t p) as Hlp. unfold size in *.
    rewrite drop_ge by lia. cbn [app]. f_equal. lia.
  - rewrite Heof, P6, size_take by lia.
    destruct (Z.ltb_spec (size (buffer r)) (kBlockSize - o)),
      (Z.ltb_spec (Z.min (kBlockSize - (o + kHeaderSize + size p)) (size T))
                  (kBlockSize - (o + kHeaderSize + size p))); lia || done.
Qed.

(** A fragment cut short by the end of the file ends the reading. *)
Lemma read_cut fuel r o t p S q result :
  reading_at r o S -> phys t p = S ++ q -> q <> [] -> 1 <= t <= 4 ->
  o + kHeaderSize + size p <= kBlockSize ->
  exists r', read_physical_loop (Datatypes.S fuel) r result = (kEof, result, r') /\
    reports r' = reports r.
Proof.
  intros Ha E Hq Ht Ho. pose proof (size_buffer _ _ _ Ha) as Hsz.
  destruct Ha as [Hb Hbuf Hrest Heof Hi Hr Hl].
  pose proof (f_equal size E) as El. rewrite length_phys, size_app in El.
  assert (0 < size q) by (destruct q; [done | unfold size; cbn [length]; lia]).
  pose proof (size_nonneg p). pose proof (size_nonneg S).
  assert (kHeaderSize = 7) as H7 by done. assert (kBlockSize = 32768) as HB by done.
  unfold in_block in Hb.
  assert (buffer r = S) as Hbuf' by (rewrite Hbuf; apply take_ge; unfold size in *; lia).
  rewrite (proj2 (Z.ltb_lt _ _)) in Heof by lia.
  cbn [read_physical_loop]. rewrite Heof, Hbuf'.
  destruct (Z.ltb_spec (size S) kHeaderSize); cbn [negb].
  { eexists. split; reflexivity. }
  destruct (phys_header t p []) as (_ & _ & P3 & _); [done | lia |].
  rewrite app_nil_r, E in P3. cbv zeta.
  rewrite !(app_nth1 S) in P3 by (unfold size in *; lia). rewrite P3.
  destruct (Z.gtb_spec (kHeaderSize + size p) (size S)); [|lia].
  cbn [eof set_buffer]. rewrite Heof. cbn [negb]. eexists. split; reflexivity.
Qed.

Lemma size_pad o : in_block o -> size (pad_at o) = if kBlockSize - o <? kHeaderSize then kBlockSize - o else 0.
Proof.
  unfold in_block, pad_at. intros Ho. destruct (_ <? _); [|done].
  unfold size. rewrite length_replicate. lia.
Qed.

(** The padding of a block and the fragment after it. *)
Lemma read_piece r o t p T result :
  reading_at r o ((pad_at o ++ phys t p) ++ T) -> 1 <= t <= 4 ->
  start_at o + kHeaderSize + size p <= kBlockSize ->
  exists r', ReadPhysicalRecord r result = (t, p, r') /\
    reading_at r' (start_at o + kHeaderSize + size p) T /\ reports r' = reports r.
Proof.
  intros Ha Ht Ho. unfold ReadPhysicalRecord. pose proof (ra_block _ _ _ Ha) as Hb.
  rewrite <- app_assoc in Ha. pose proof (size_pad o Hb) as Hpad.
  unfold start_at in *. destruct (Z.ltb_spec (kBlockSize - o) kHeaderSize) as [Hlt|Hge].
  - pose proof (size_nonneg (phys t p ++ T)) as Hn.
    destruct (read_next_block 1 r o _ result Ha Hlt) as (r1 & -> & Ha1 & Hr1).
    { rewrite size_app, Hpad. lia. }
    rewrite <- Hpad, drop_size_app in Ha1.
    destruct (read_fragment 0 r1 0 t p T result Ha1 Ht) as (r2 & -> & Ha2 & Hr2); [lia|].
    exists r2. by rewrite Hr2.
  - unfold pad_at in Ha. rewrite (proj2 (Z.ltb_ge _ _)) in Ha by lia.
    exact (read_fragment 1 r o t p T result Ha Ht Ho).
Qed.

Lemma read_piece_cut r o t p S q result :
  reading_at r o S -> pad_at o ++ phys t p = S ++ q -> q <> [] -> 1 <= t <= 4 ->
  start_at o + kHeaderSize + size p <= kBlockSize ->
  exists r', ReadPhysicalRecord r result = (kEof, result, r') /\ reports r' = reports r.
Proof.
  intros Ha E Hq Ht Ho. unfold ReadPhysicalRecord. pose proof (ra_block _ _ _ Ha) as Hb.
  pose proof (size_pad o Hb) as Hpad. unfold start_at in *.
  destruct (Z.ltb_spec (kBlockSize - o) kHeaderSize) as [Hlt|Hge].
  - destruct (Z.le_gt_cases (kBlockSize - o) (size S)) as [Hs|Hs].
    + destruct (read_next_block 1 r o _ result Ha Hlt Hs) as (r1 & -> & Ha1 & Hr1).
      assert (S = pad_at o ++ drop (length (pad_at o)) S) as ES.
      { rewrite <- (take_drop (length (pad_at o)) S) at 1. f_equal.
        apply (f_equal (take (length (pad_at o)))) in E. rewrite take_app_length in E.
        rewrite take_app_le in E by (unfold size in *; lia). done. }
      rewrite ES, <- app_assoc in E. apply app_inv_head in E.
      replace (Z.to_nat (kBlockSize - o)) with (length (pad_at o)) in Ha1 by (unfold size in *; lia).
      destruct (read_cut 0 r1 0 t p _ q result Ha1 E Hq Ht) as (r2 & -> & Hr2); [lia|].
      exists r2. by rewrite Hr2.
    + pose proof (size_buffer _ _ _ Ha) as Hsz. destruct Ha as [_ _ _ Heof _ _ _].
      unfold in_block in Hb. cbn [read_physical_loop].
      rewrite (proj2 (Z.ltb_lt (size (buffer r)) kHeaderSize)) by lia.
      rewrite Heof, (proj2 (Z.ltb_lt _ _)) by lia. cbn [negb]. eexists. split; reflexivity.
  - unfold pad_at in E. rewrite (proj2 (Z.ltb_ge _ _)) in E by lia.
    exact (read_cut 1 r o t p S q result Ha E Hq Ht Ho).
Qed.

(** ** Records *)


Lemma reading_at_last r o S x :
  reading_at r o S -> 0 <= x -> reading_at (set_last_record_offset r x) o S.
Proof. intros [] Hx. by split. Qed.

(** One iteration of [ReadRecord] on a fragment or at the end of the file. *)
Lemma rr_step fuel r st t p r' o S :
  ReadPhysicalRecord r (rr_fragment st) = (t, p, r') -> reading_at r' o S ->
  1 <= t <= 4 ->
  (rr_in_fragmented_record st = negb ((t =? kFullType) || (t =? kFirstType))) ->
  let off := u64 (end_of_buffer_offset r' - size (buffer r') - kHeaderSize - size p) in
  read_record_loop (Datatypes.S fuel) r st =
    if t =? kFullType then Some (Some p, [], set_last_record_offset r' off)
    else if t =? kFirstType then read_record_loop fuel r' (mk_rr true off p p)
    else if t =? kMiddleType then
      read_record_loop fuel r' (mk_rr true (rr_prospective st) p (rr_scratch st ++ p))
    else Some (Some (rr_scratch st ++ p), rr_scratch st ++ p,
               set_last_record_offset r' (rr_prospective st)).
Proof.
  intros E Ha Ht Hf. cbv zeta. cbn [read_record_loop]. rewrite E, (ra_resyncing _ _ _ Ha), Hf.
  cbn [andb]. assert (t = 1 \/ t = 2 \/ t = 3 \/ t = 4) as Hc by lia.
  by destruct Hc as [->|[->|[->| ->]]].
Qed.

Lemma rr_eof fuel r st r' p :
  ReadPhysicalRecord r (rr_fragment st) = (kEof, p, r') ->
  exists scr r2, read_record_loop (Datatypes.S fuel) r st = Some (None, scr, r2) /\
    reports r2 = reports r'.
Proof.
  intros E. cbn [read_record_loop]. rewrite E. eqbs. rewrite !andb_false_r.
  destruct (resyncing r'); eexists _, _; split; reflexivity.
Qed.

Lemma fragment_type_mode begin end_ :
  negb begin = negb ((fragment_type begin end_ =? kFullType) || (fragment_type begin end_ =? kFirstType)).
Proof. by destruct begin, end_. Qed.

(** A whole record is returned. *)
Lemma rr_complete fw rf begin o data B o' r pro frag scr T :
  reading_at r o (B ++ T) -> (need o data <= fw)%nat -> (fw <= rf)%nat ->
  rec_bytes fw begin o data = (B, o') -> 0 <= pro ->
  exists scr' r', read_record_loop rf r (mk_rr (negb begin) pro frag scr)
      = Some (Some ((if begin then [] else scr) ++ data), scr', r') /\
    reading_at r' o' T /\ reports r' = reports r.
Proof.
  revert rf begin o data B r pro frag scr.
  induction fw as [|fw IH]; intros rf begin o data B r pro frag scr Ha Hn Hf E Hpro.
  { unfold need in Hn. destruct (_ =? _) in Hn; lia. }
  destruct rf as [|rf]; [lia|]. rewrite rec_bytes_S in E. cbv zeta in E.
  pose proof (fragment_bounds o data (ra_block _ _ _ Ha)) as (Hb1 & Hb2 & Hb3 & Hb4 & Hb5 & Hb6).
  set (n := Z.min _ _) in *. set (t := fragment_type _ _) in *.
  pose proof (fragment_type_bound begin (size data =? n)) as Ht. fold t in Ht.
  destruct (Z.gtb_spec (size (drop (Z.to_nat n) data)) 0) as [Hg|Hg].
  - destruct (Hb6 ltac:(lia)) as [Hfull Hneed].
    destruct (rec_bytes fw false _ _) as [bs o2] eqn:E'. injection E as <- <-.
    rewrite <- (app_assoc _ bs) in Ha.
    destruct (read_piece r o t _ (bs ++ T) frag Ha Ht) as (r1 & Ep & Ha1 & Hr1); [by rewrite Hb4|].
    rewrite Hb4 in Ha1.
    rewrite (rr_step rf r (mk_rr (negb begin) pro frag scr) t _ r1 _ _ Ep Ha1 Ht
               (fragment_type_mode begin _)).
    assert ((size data =? n) = false) as Hend by (apply Z.eqb_neq; lia).
    unfold t. rewrite Hend. rewrite Hfull in *.
    destruct begin; cbn [fragment_type andb]; eqbs; cbn [rr_prospective rr_scratch].
    + destruct (IH rf false kBlockSize (drop (Z.to_nat n) data) bs r1
        (u64 (end_of_buffer_offset r1 - size (buffer r1) - kHeaderSize - size (take (Z.to_nat n) data)))
        (take (Z.to_nat n) data) (take (Z.to_nat n) data) Ha1 ltac:(lia) ltac:(lia) E'
        ltac:(apply u64_bound)) as (scr' & r' & Er & Ha' & Hr').
      exists scr', r'. cbn [negb] in Er. rewrite Er, take_drop, Hr'. done.
    + destruct (IH rf false kBlockSize (drop (Z.to_nat n) data) bs r1 pro (take (Z.to_nat n) data) (scr ++ take (Z.to_nat n) data)
        Ha1 ltac:(lia) ltac:(lia) E' Hpro) as (scr' & r' & Er & Ha' & Hr').
      exists scr', r'. cbn [negb] in Er. rewrite Er, <- app_assoc, take_drop, Hr'. done.
  - injection E as <- <-. pose proof (size_nonneg (drop (Z.to_nat n) data)).
    destruct (read_piece r o t _ T frag Ha Ht) as (r1 & Ep & Ha1 & Hr1); [by rewrite Hb4|].
    rewrite Hb4 in Ha1.
    rewrite (rr_step rf r (mk_rr (negb begin) pro frag scr) t _ r1 _ _ Ep Ha1 Ht
               (fragment_type_mode begin _)).
    assert ((size data =? n) = true) as Hend by (apply Z.eqb_eq; lia).
    assert (take (Z.to_nat n) data = data) as Hd.
    { apply take_ge. unfold size in *. lia. }
    unfold t. rewrite Hend, Hd.
    destruct begin; cbn [fragment_type andb]; eqbs; cbn [rr_prospective rr_scratch];
      (eexists _, _; split; [reflexivity|]; split; [|exact Hr1]).
    + apply reading_at_last; [exact Ha1 | apply u64_bound].
    + by apply reading_at_last.
Qed.

(** A record cut short by the end of the file is dropped. *)
Lemma rr_cut fw rf begin o data S q o' r pro frag scr :
  reading_at r o S -> (need o data <= fw)%nat -> (fw <= rf)%nat ->
  rec_bytes fw begin o data = (S ++ q, o') -> q <> [] ->
  exists scr' r', read_record_loop rf r (mk_rr (negb begin) pro frag scr) = Some (None, scr', r') /\
    reports r' = reports r.
Proof.
  revert rf begin o data S r pro frag scr.
  induction fw as [|fw IH]; intros rf begin o data S r pro frag scr Ha Hn Hf E Hq.
  { unfold need in Hn. destruct (_ =? _) in Hn; lia. }
  destruct rf as [|rf]; [lia|]. rewrite rec_bytes_S in E. cbv zeta in E.
  pose proof (fragment_bounds o data (ra_block _ _ _ Ha)) as (Hb1 & Hb2 & Hb3 & Hb4 & Hb5 & Hb6).
  set (n := Z.min _ _) in *. set (t := fragment_type _ _) in *.
  set (out := pad_at o ++ phys t (take (Z.to_nat n) data)) in *.
  pose proof (fragment_type_bound begin (size data =? n)) as Ht. fold t in Ht.
  assert (forall q', out = S ++ q' -> q' <> [] ->
    exists scr' r', read_record_loop (Datatypes.S rf) r (mk_rr (negb begin) pro frag scr)
      = Some (None, scr', r') /\ reports r' = reports r) as Hcut.
  { intros q' Eq Hq'. destruct (read_piece_cut r o t _ S q' frag Ha Eq Hq' Ht) as (r1 & Ep & Hr1); [by rewrite Hb4|].
    destruct (rr_eof rf r (mk_rr (negb begin) pro frag scr) r1 _ Ep) as (scr' & r2 & Er & Hr2).
    exists scr', r2. by rewrite Hr2, Hr1. }
  destruct (Z.gtb_spec (size (drop (Z.to_nat n) data)) 0) as [Hg|Hg].
  2: { injection E as E _. by apply (Hcut q). }
  destruct (Hb6 ltac:(lia)) as [Hfull Hneed].
  destruct (rec_bytes fw false _ _) as [bs o2] eqn:E'. injection E as E <-.
  destruct (Nat.lt_ge_cases (length S) (length out)) as [Hlt|Hge].
  { apply (Hcut (drop (length S) out)).
    - apply (f_equal (take (length S))) in E. rewrite take_app_length, take_app_le in E by lia.
      rewrite <- E at 1. symmetry. apply take_drop.
    - intros Hnil%(f_equal length). rewrite length_drop in Hnil. cbn in Hnil. lia. }
  assert (S = out ++ drop (length out) S) as ES.
  { apply (f_equal (take (length out))) in E. rewrite take_app_length, take_app_le in E by lia.
    rewrite E at 1. symmetry. apply take_drop. }
  set (S2 := drop (length out) S) in *. rewrite ES in Ha, E.
  rewrite <- app_assoc in E. apply app_inv_head in E.
  destruct (read_piece r o t _ S2 frag Ha Ht) as (r1 & Ep & Ha1 & Hr1); [by rewrite Hb4|].
  rewrite Hb4, Hfull in Ha1. rewrite Hfull, E in E'.
  rewrite (rr_step rf r (mk_rr (negb begin) pro frag scr) t _ r1 _ _ Ep Ha1 Ht
             (fragment_type_mode begin _)).
  assert ((size data =? n) = false) as Hend by (apply Z.eqb_neq; lia).
  unfold t. rewrite Hend.
  destruct begin; cbn [fragment_type andb]; eqbs; cbn [rr_prospective rr_scratch];
    rewrite <- Hr1; apply (IH rf false kBlockSize (drop (Z.to_nat n) data) S2 r1 _ _ _ Ha1 ltac:(lia) ltac:(lia) E' Hq).
Qed.

(** ** Whole logs *)

(** Reads records until the reader returns false, as recovery does. *)
Fixpoint read_all (fuel rf : nat) (r : Reader G) : option (list (list byte) * Reader G) :=
  match fuel with
  | O => None
  | S fuel =>
      match ReadRecord rf r [] with
      | Some (Some record, _, r) =>
          match read_all fuel rf r with
          | Some (rs, r) => Some (record :: rs, r)
          | None => None
          end
      | Some (None, _, r) => Some ([], r)
      | None => None
      end
  end.

Lemma ReadRecord_loop rf r o S scr :
  reading_at r o S -> ReadRecord rf r scr = read_record_loop rf r (mk_rr false 0 [] []).
Proof.
  intros [_ _ _ _ Hi _ Hl]. unfold ReadRecord. rewrite Hi.
  by rewrite (proj2 (Z.ltb_ge _ _)) by lia.
Qed.

Lemma log_bytes_cons o r rs :
  log_bytes o (r :: rs) =
  (fst (record_bytes o r) ++ fst (log_bytes (snd (record_bytes o r)) rs),
   snd (log_bytes (snd (record_bytes o r)) rs)).
Proof. cbn [log_bytes]. destruct (record_bytes o r) as [b o1]. cbn [fst snd]. by destruct (log_bytes o1 rs). Qed.

Lemma rec_bytes_nonempty fuel begin o data :
  (need o data <= fuel)%nat -> fst (rec_bytes fuel begin o data) <> [].
Proof.
  intros Hn. destruct fuel as [|fuel]; [unfold need in Hn; destruct (_ =? _) in Hn; lia|].
  rewrite rec_bytes_S. cbv zeta. set (out := pad_at o ++ _).
  assert (out <> []) as Ho.
  { intros E%(f_equal length). unfold out, phys in E. rewrite !length_app in E. cbn in E. lia. }
  destruct (_ >? 0); [|done]. destruct (rec_bytes fuel _ _ _). cbn [fst]. by destruct out.
Qed.

(** At the end of the bytes. *)
Lemma read_prefix_end rf r o scr :
  reading_at r o [] -> (2 <= rf)%nat ->
  exists scr' r', ReadRecord rf r scr = Some (None, scr', r') /\ reports r' = reports r.
Proof.
  intros Ha H2. rewrite (ReadRecord_loop rf r o [] scr Ha).
  destruct (record_bytes o []) as [B o'] eqn:EB. unfold record_bytes in EB.
  apply (rr_cut _ rf true o [] [] B o' r 0 [] [] Ha (need_record o []) ltac:(cbn; lia) EB).
  pose proof (rec_bytes_nonempty _ true o [] (need_record o [])) as Hne. by rewrite EB in Hne.
Qed.

(** A record of which the bytes are all there is read, one that is cut is not. *)
Lemma read_prefix_step rf d rs r o S q scr :
  reading_at r o S -> fst (log_bytes o (d :: rs)) = S ++ q -> (length d + 2 <= rf)%nat ->
  (exists scr' r' S', ReadRecord rf r scr = Some (Some d, scr', r') /\ S = fst (record_bytes o d) ++ S' /\
    reading_at r' (snd (record_bytes o d)) S' /\ fst (log_bytes (snd (record_bytes o d)) rs) = S' ++ q /\
    reports r' = reports r) \/
  (exists scr' r', ReadRecord rf r scr = Some (None, scr', r') /\ reports r' = reports r /\
    (length S < length (fst (record_bytes o d)))%nat).
Proof.
  intros Ha E Hd. destruct (record_bytes o d) as [B o'] eqn:EB.
  rewrite log_bytes_cons, EB in E. cbn [fst snd] in *. unfold record_bytes in EB.
  rewrite (ReadRecord_loop rf r o _ scr Ha).
  destruct (Nat.le_gt_cases (length B) (length S)) as [Hle|Hgt]; [left|right].
  - assert (S = B ++ drop (length B) S) as ES.
    { apply (f_equal (take (length B))) in E. rewrite take_app_length, take_app_le in E by lia.
      rewrite E at 1. symmetry. apply take_drop. }
    set (S2 := drop (length B) S) in *. rewrite ES in Ha, E.
    rewrite <- app_assoc in E. apply app_inv_head in E.
    destruct (rr_complete _ rf true o d B o' r 0 [] [] S2 Ha (need_record o d) Hd EB ltac:(lia))
      as (scr' & r1 & Er & Ha1 & Hr1).
    exists scr', r1, S2. by cbn [negb app] in Er.
  - assert (B = S ++ drop (length S) B) as EBS.
    { apply (f_equal (take (length S))) in E. rewrite take_app_length, take_app_le in E by lia.
      rewrite <- E at 1. symmetry. apply take_drop. }
    rewrite EBS in EB.
    destruct (rr_cut _ rf true o d S _ o' r 0 [] [] Ha (need_record o d) Hd EB) as (scr' & r' & Er & Hr').
    { intros Hnil%(f_equal length). rewrite length_drop in Hnil. cbn in Hnil. lia. }
    cbn [negb] in Er. by exists scr', r'.
Qed.

(** Reading a prefix [S] of the bytes of [rs]. *)
Lemma read_all_prefix rf rs r o S q :
  reading_at r o S -> fst (log_bytes o rs) = S ++ q ->
  Forall (fun d => (length d + 2 <= rf)%nat) rs -> (2 <= rf)%nat ->
  exists k r', (k <= length rs)%nat /\ read_all (Datatypes.S (length rs)) rf r = Some (take k rs, r') /\
    reports r' = reports r /\
    (length (fst (log_bytes o (take k rs))) <= length S)%nat /\
    (k < length rs -> length S < length (fst (log_bytes o (take (Datatypes.S k) rs))))%nat.
Proof.
  revert r o S; induction rs as [|d rs IH]; intros r o S Ha E Hrf H2.
  - destruct S as [|? ?]; [|done]. exists O. cbn [read_all length take log_bytes fst].
    destruct (read_prefix_end rf r o [] Ha H2) as (scr' & r' & -> & Hr'). exists r'.
    repeat split; [lia | exact Hr' | lia | lia].
  - apply List.Forall_cons_iff in Hrf as [Hd Hrf]. cbn [read_all length].
    destruct (read_prefix_step rf d rs r o S q [] Ha E Hd) as [(scr' & r1 & S2 & Er & -> & Ha1 & E1 & Hr1)|(scr' & r' & Er & Hr' & Hs)].
    + destruct (IH r1 _ S2 Ha1 E1 Hrf H2) as (k & r2 & Hk & Eall & Hr2 & Hl1 & Hl2).
      exists (Datatypes.S k), r2. split; [lia|]. rewrite Er. cbn [read_all] in Eall. rewrite Eall.
      split; [done|]. split; [by rewrite Hr2|].
      change (take (Datatypes.S k) (d :: rs)) with (d :: take k rs).
      change (take (Datatypes.S (Datatypes.S k)) (d :: rs)) with (d :: take (Datatypes.S k) rs).
      rewrite !log_bytes_cons. cbn [fst]. rewrite !length_app. lia.
    + exists O. rewrite Er. exists r'. cbn [take]. split; [lia|]. split; [done|]. split; [done|].
      split; [cbn; lia|]. intros _. rewrite log_bytes_cons. cbn [fst]. rewrite length_app. lia.
Qed.
End ReadBack.

(** Appends records until one fails. *)
Fixpoint add_all {F} `{WritableFile F} (w : Writer F) (rs : list (list byte)) : Status * Writer F :=
  match rs with
  | [] => (OK, w)
  | r :: rs => let '(s, w) := AddRecord w r in if ok s then add_all w rs else (s, w)
  end.

Lemma add_all_eq {F} `{GoodWritable F} (w : Writer F) rs :
  type_crc w = InitTypeCrc -> in_block (block_offset w) ->
  exists w', add_all w rs = (OK, w') /\
    wrote w w' (fst (log_bytes (block_offset w) rs)) (snd (log_bytes (block_offset w) rs)) /\
    in_block (block_offset w').
Proof.
  revert w; induction rs as [|d rs IH]; intros w Hc Ho.
  - exists w. split; [done|]. split; [|done]. unfold wrote. by rewrite app_nil_r.
  - cbn [add_all]. destruct (record_bytes (block_offset w) d) as [b o1] eqn:E.
    destruct (AddRecord_eq w d b o1 Hc Ho E) as (w1 & -> & (W1 & W2 & W3) & Ho1). cbn [ok].
    destruct (IH w1) as (w2 & -> & (V1 & V2 & V3) & Ho2); [congruence | by rewrite W2 |].
    exists w2. split; [done|]. split; [|done]. rewrite W2 in V1, V2.
    rewrite log_bytes_cons, E. cbn [fst snd]. split; [by rewrite V1, W1, <- app_assoc|].
    split; congruence.
Qed.

(** The file after appending [rs] to an empty one. *)
Definition log_file {F} `{GoodWritable F} (f : F) (rs : list (list byte)) : list byte :=
  contents (dest (snd (add_all (new_Writer f) rs))).

Lemma log_file_eq {F} `{GoodWritable F} (f : F) rs :
  contents f = [] -> log_file f rs = fst (log_bytes 0 rs).
Proof.
  intros Hf. unfold log_file.
  destruct (add_all_eq (new_Writer f) rs eq_refl) as (w & -> & (W1 & _) & _).
  { unfold in_block, kBlockSize. cbn. lia. }
  cbn [snd]. rewrite W1. cbn [new_Writer dest block_offset]. by rewrite Hf.
Qed.

(** A full block and an empty one are the same place. *)
Lemma record_bytes_block_end data : record_bytes kBlockSize data = record_bytes 0 data.
Proof. unfold record_bytes. rewrite Nat.add_comm. reflexivity. Qed.

Lemma log_bytes_take_le o k rs :
  (length (fst (log_bytes o (take k rs))) <= length (fst (log_bytes o rs)))%nat.
Proof.
  revert o k; induction rs as [|d rs IH]; intros o k; [by rewrite take_nil|].
  destruct k as [|k]; [cbn; lia|]. change (take (S k) (d :: rs)) with (d :: take k rs).
  rewrite !log_bytes_cons. cbn [fst]. rewrite !length_app.
  specialize (IH (snd (record_bytes o d)) k). lia.
Qed.

(** C9: the log survives a crash: let records be appended to an empty file and any
    prefix of the file be read back, with or without checking sums and reporting.
    Every append succeeds; the reader returns, in order, exactly the records
    whose bytes are all in the prefix, then false, and reports no corruption; from
    the whole file it returns all records. *)
Theorem log_crash_recovery {F} `{GoodWritable F} {G} `{GoodSequential G}
    (f : F) (g : G) (rs : list (list byte)) (cut rf : nat) (reporter check : bool) :
  contents f = [] -> remaining g = take cut (log_file f rs) ->
  Forall (fun d => (length d + 2 <= rf)%nat) rs -> (2 <= rf)%nat ->
  fst (add_all (new_Writer f) rs) = OK /\
  exists k r, read_all (S (length rs)) rf (new_Reader g reporter check 0) = Some (take k rs, r) /\
    reports r = [] /\ (k <= length rs)%nat /\
    (length (log_file f (take k rs)) <= length (take cut (log_file f rs)))%nat /\
    (k < length rs ->
     length (take cut (log_file f rs)) < length (log_file f (take (S k) rs)))%nat /\
    ((length (log_file f rs) <= cut)%nat -> k = length rs).
Proof.
  intros Hf Hg Hrf Hrf2. split.
  { destruct (add_all_eq (new_Writer f) rs eq_refl) as (w & -> & _); [|done].
    unfold in_block, kBlockSize. cbn. lia. }
  rewrite !log_file_eq in * by done. pose proof (new_reading_at g reporter check) as Ha.
  rewrite Hg in Ha.
  assert (forall l, fst (log_bytes kBlockSize l) = fst (log_bytes 0 l)) as Hb.
  { intros [|d l]; [done|]. by rewrite !log_bytes_cons, record_bytes_block_end. }
  destruct (read_all_prefix rf rs _ _ _ (drop cut (fst (log_bytes 0 rs))) Ha)
    as (k & r & Hk & E & Hr & Hl); [by rewrite Hb, take_drop | exact Hrf | exact Hrf2 |].
  rewrite !Hb in Hl. exists k, r. rewrite !log_file_eq by done. destruct Hl as [Hl1 Hl2].
  split; [exact E|]. split; [exact Hr|]. split; [exact Hk|]. split; [exact Hl1|].
  split; [exact Hl2|]. intros Hcut. destruct (Nat.lt_ge_cases k (length rs)) as [Hlt|]; [|lia].
  specialize (Hl2 Hlt). rewrite take_ge in Hl2 by done.
  pose proof (log_bytes_take_le 0 (S k) rs). lia.
Qed.

Lemma log_crash_recovery_witness :
  exists k r, read_all (G := list byte) 3 10
    (new_Reader (take 20 (log_file [] [[x61; x62]; [x63]])) true true 0) = Some (take k [[x61; x62]; [x63]], r) /\
    reports r = [].
Proof.
  destruct (log_crash_recovery [] (take 20 (log_file [] [[x61; x62]; [x63]])) [[x61; x62]; [x63]]
    20 10 true true) as (_ & k & r & E & Hr & _).
  - reflexivity.
  - reflexivity.
  - repeat constructor.
  - lia.
  - exists k, r. split; [exact E | exact Hr].
Defined.

(** * Any file *)

Section AnyFile.
Context {G : Type} `{SequentialFile G}.

(** The fields that reporting and reading leave alone. *)
Lemma ReportDrop_fields (r : Reader G) n s :
  buffer (ReportDrop r n s) = buffer r /\ eof (ReportDrop r n s) = eof r /\
  file (ReportDrop r n s) = file r /\ resyncing (ReportDrop r n s) = resyncing r /\
  initial_offset (ReportDrop r n s) = initial_offset r.
Proof. unfold ReportDrop. by destruct (_ && _). Qed.

(** The bytes in which [ReadPhysicalRecord] looks for a header: the buffer, or, when less than a
    header is left in it, the next block as the file gives it. *)
Definition scanned (r : Reader G) : list byte :=
  if size (buffer r) <? kHeaderSize then if eof r then [] else snd (fst (Read (file r) kBlockSize)) else buffer r.

(** What a returned fragment is: at the front of these bytes a header with its type and its
    length, after it the payload, and the checksum in the header is that of both. *)
Definition checked_fragment (t : Z) (p : list byte) (header : list byte) : Prop :=
  kHeaderSize + size p <= size header /\
  t = u32 (sx 8 (b2z (nth 6 header x00))) /\
  size p = b2z (nth 4 header x00) + 256 * b2z (nth 5 header x00) /\
  p = take (length p) (drop (Z.to_nat kHeaderSize) header) /\
  Unmask (DecodeFixed32 header) = Value (nth 6 header x00 :: p).

Lemma header_payload header len :
  0 <= len -> kHeaderSize + len <= size header ->
  take (Z.to_nat (1 + len)) (drop 6 header)
  = nth 6 header x00 :: take (Z.to_nat len) (drop (Z.to_nat kHeaderSize) header).
Proof.
  intros Hl Hs. change (Z.to_nat kHeaderSize) with 7%nat.
  unfold size, kHeaderSize in Hs. replace (Z.to_nat (1 + len)) with (S (Z.to_nat len)) by lia.
  do 6 (destruct header as [|? header]; [cbn in Hs; lia|]).
  destruct header as [|b6 header]; [cbn in Hs; lia|]. reflexivity.
Qed.

Lemma length_field_bound a b :
  0 <= a < 256 -> 0 <= b < 256 -> 0 <= Z.lor a (u32 (Z.shiftl b 8)) < 2 ^ 16.
Proof.
  intros Ha Hb. rewrite Z.shiftl_mul_pow2, u32_small, lor_add by lia. lia.
Qed.

Lemma byte_field_bound x : 0 <= Z.land (u32 x) 0xff < 256.
Proof. rewrite land_255. apply Z.mod_pos_bound. lia. Qed.

Lemma length_field a b : Z.lor (Z.land (u32 (sx 8 (b2z a))) 0xff) (u32 (Z.shiftl (Z.land (u32 (sx 8 (b2z b))) 0xff) 8)) = b2z a + 256 * b2z b.
Proof.
  rewrite !char_byte. pose proof (b2z_bound a). pose proof (b2z_bound b). rewrite Z.shiftl_mul_pow2, u32_small, lor_add by lia. lia.
Qed.

(** A header is in the buffer. *)
Lemma parse_buffer fuel r result t p r' :
  read_physical_loop (S fuel) r result = (t, p, r') -> checksum r = true -> kHeaderSize <= size (buffer r) ->
  t = kEof \/ t = kBadRecord \/ checked_fragment t p (buffer r) /\ buffer r' = drop (Z.to_nat kHeaderSize + length p) (buffer r).
Proof.
  intros E Hc Hge. cbn [read_physical_loop] in E. rewrite (proj2 (Z.ltb_ge _ _) Hge) in E.
  cbv zeta in E. rewrite length_field in E. set (len := b2z (nth 4 _ _) + _) in E.
  assert (0 <= len) as Hl by (unfold len; pose proof (b2z_bound (nth 4 (buffer r) x00)); pose proof (b2z_bound (nth 5 (buffer r) x00)); lia).
  destruct (Z.gtb_spec (kHeaderSize + len) (size (buffer r))).
  { destruct (negb _); injection E as <- _ _; auto. }
  destruct (_ && _); [injection E as <- _ _; auto|].
  rewrite Hc in E. cbn [andb] in E.
  destruct (Z.eqb_spec (Value (take (Z.to_nat (1 + len)) (drop 6 (buffer r))))
                       (Unmask (DecodeFixed32 (buffer r)))) as [Hcrc|]; cbn [negb] in E.
  2: { injection E as <- _ _; auto. }
  destruct (_ <? _); injection E as <- <- <-; [auto|]. right; right.
  rewrite header_payload in Hcrc by lia.
  assert (length (take (Z.to_nat len) (drop (Z.to_nat kHeaderSize) (buffer r))) = Z.to_nat len) as El.
  { rewrite length_take, length_drop. unfold size, kHeaderSize in *. lia. }
  unfold checked_fragment. rewrite El. split.
  - split; [unfold size at 1; rewrite El; lia|]. split; [done|]. split; [unfold size; rewrite El; lia|]. split; [done|by rewrite <- Hcrc].
  - cbn [buffer set_buffer]. unfold remove_prefix. f_equal. change kHeaderSize with 7. lia.
Qed.

(** C37: no fragment with a wrong checksum is returned: whatever the file gives
    and whichever of its reads fail, when checking is on, [ReadPhysicalRecord]
    returns end of file, a bad record, or a fragment that is at the front of the bytes
    it scans (its buffer, or the block it just read): a header, with the type that is
    returned and the length of the payload, and the payload, whole, and their CRC is the
    one stored in that header.  The buffer then goes on right after the payload. *)
Theorem read_physical_checked (r : Reader G) result t p r' :
  ReadPhysicalRecord r result = (t, p, r') -> checksum r = true ->
  t = kEof \/ t = kBadRecord \/
  checked_fragment t p (scanned r) /\ buffer r' = drop (Z.to_nat kHeaderSize + length p) (scanned r).
Proof.
  unfold ReadPhysicalRecord, scanned. intros E Hc. destruct (Z.ltb_spec (size (buffer r)) kHeaderSize) as [Hlt|Hge]; [|by apply (parse_buffer 1 r result)].
  assert (exists n, read_physical_loop (S n) r result = (t, p, r') /\ n = 1%nat) as (n & E1 & En) by (by exists 1%nat). clear E. rename E1 into E.
  cbn [read_physical_loop] in E. rewrite (proj2 (Z.ltb_lt _ _) Hlt) in E. destruct (eof r); cbn [negb] in E; [left; by injection E as <- _ _|].
  cbn [file set_buffer] in E. destruct (Read (file r) kBlockSize) as [[s bytes] g]. cbn [fst snd]. destruct (negb (ok s)); [left; by injection E as <- _ _|].
  match type of E with (if ?b then read_physical_loop n (set_eof ?x _) _ else _) = _ => set (r1 := x) in E end. subst n. destruct (size (buffer r1) <? kBlockSize) eqn:Eb.
  - destruct (Z.ltb_spec (size bytes) kHeaderSize) as [Hs|Hs]; [|exact (parse_buffer 0 (set_eof r1 true) result t p r' E Hc Hs)].
    cbn [read_physical_loop] in E. change (buffer (set_eof r1 true)) with bytes in E. rewrite (proj2 (Z.ltb_lt _ _) Hs) in E. left. by injection E as <- _ _.
  - destruct (Z.ltb_spec (size bytes) kHeaderSize) as [Hs|Hs]; [|exact (parse_buffer 0 r1 result t p r' E Hc Hs)].
    apply Z.ltb_ge in Eb. change (kBlockSize <= size bytes) in Eb. change kBlockSize with 32768 in Eb. change kHeaderSize with 7 in Hs. lia.
Qed.
End AnyFile.

Lemma read_physical_checked_witness :
  exists r',
    ReadPhysicalRecord (new_Reader (phys kFullType [x61; x62]) true true 0) []
      = (kFullType, [x61; x62], r') /\
    checked_fragment kFullType [x61; x62] (phys kFullType [x61; x62]) /\ buffer r' = [].
Proof.
  destruct (ReadPhysicalRecord (new_Reader (phys kFullType [x61; x62]) true true 0) [])
    as [[t p] r'] eqn:E.
  pose proof (read_physical_checked _ _ _ _ _ E eq_refl) as H.
  vm_compute in E. injection E as <- <- <-.
  eexists. split; [reflexivity|]. destruct H as [H|[H|H]]; [discriminate H|discriminate H|exact H].
Defined.

(** ** Termination *)

Section Terminates.
Context {G : Type} `{GoodSequential G}.

(** What is left to read. *)
Definition to_read (r : Reader G) : Z := size (buffer r) + size (remaining (file r)).

(** A read moves bytes from the file to the buffer. *)
Lemma read_conserves (g : G) n s bytes g' :
  Read g n = (s, bytes, g') -> 0 <= n ->
  s = OK /\ size bytes + size (remaining g') = size (remaining g).
Proof.
  intros E Hn. destruct (Read_eq g n Hn) as [R1 R2]. rewrite E in R1, R2. cbn [fst snd] in *.
  injection R1 as -> ->. split; [done|]. rewrite R2. apply size_take_drop.
Qed.

Lemma read_physical_progress fuel r result t p r' :
  read_physical_loop fuel r result = (t, p, r') -> t <> kEof -> to_read r' < to_read r.
Proof.
  revert r; induction fuel as [|fuel IH]; intros r E Ht; cbn [read_physical_loop] in E.
  { injection E as <- _ _. contradiction. }
  pose proof (size_nonneg (buffer r)) as Hn. unfold to_read.
  destruct (Z.ltb_spec (size (buffer r)) kHeaderSize) as [Hlt|Hge].
  - destruct (negb (eof r)); [|injection E as <- _ _; contradiction].
    cbn [file set_buffer] in E.
    destruct (Read (file r) kBlockSize) as [[s bytes] g] eqn:ER.
    apply read_conserves in ER as [-> Hread]; [|done]. cbn [ok negb] in E.
    destruct (_ <? _); (apply IH in E; [|exact Ht]);
      unfold to_read in E; cbn [buffer file set_eof set_buffer set_file set_end_of_buffer_offset] in E; lia.
  - cbv zeta in E. set (len := Z.lor _ _) in E.
    pose proof (length_field_bound _ _ (byte_field_bound (sx 8 (b2z (nth 4 (buffer r) x00))))
                  (byte_field_bound (sx 8 (b2z (nth 5 (buffer r) x00))))) as Hl. fold len in Hl.
    assert (0 < kHeaderSize) by reflexivity.
    assert (forall n s, size (buffer (ReportDrop (set_buffer r []) n s))
      + size (remaining (file (ReportDrop (set_buffer r []) n s))) < size (buffer r) + size (remaining (file r)))
      as Hdrop.
    { intros n s. destruct (ReportDrop_fields (set_buffer r []) n s) as (-> & _ & -> & _).
      cbn [buffer file set_buffer]. change (size []) with 0. lia. }
    destruct (Z.gtb_spec (kHeaderSize + len) (size (buffer r))).
    { destruct (negb _); injection E as <- _ <-; [apply Hdrop | contradiction]. }
    destruct (_ && _).
    { injection E as <- _ <-. cbn [buffer file set_buffer]. change (size []) with 0. lia. }
    destruct (_ && _); [injection E as <- _ <-; apply Hdrop|].
    pose proof (size_drop_Z (kHeaderSize + len) (buffer r) ltac:(lia)) as Hsd.
    destruct (_ <? _); injection E as <- <- <-;
      cbn [buffer file set_buffer]; unfold remove_prefix; lia.
Qed.

Lemma to_read_report r n s : to_read (ReportCorruption r n s) = to_read r.
Proof.
  unfold to_read, ReportCorruption. by destruct (ReportDrop_fields r n (Corruption s [])) as (-> & _ & -> & _).
Qed.

Lemma to_read_report_if (b : bool) r n s :
  to_read (if b then ReportCorruption r n s else r) = to_read r.
Proof. destruct b; [apply to_read_report | done]. Qed.

Lemma to_read_nonneg r : 0 <= to_read r.
Proof. unfold to_read. pose proof (size_nonneg (buffer r)). pose proof (size_nonneg (remaining (file r))). lia. Qed.

Lemma read_record_loop_total fuel r st :
  to_read r < Z.of_nat fuel -> exists x, read_record_loop fuel r st = Some x.
Proof.
  revert r st; induction fuel as [|fuel IH]; intros r st Hf.
  { pose proof (to_read_nonneg r). lia. }
  cbn [read_record_loop]. destruct (ReadPhysicalRecord r (rr_fragment st)) as [[t p] r'] eqn:E.
  destruct (Z.eq_dec t kEof) as [->|Ht].
  { eqbs. rewrite !andb_false_r. destruct (resyncing r'); by eexists. }
  pose proof (read_physical_progress _ _ _ _ _ _ E Ht) as Hp.
  assert (forall b, to_read (set_resyncing r' b) = to_read r') as Hs by done.
  destruct (resyncing r') eqn:Er; cbn [andb];
    repeat lazymatch goal with
    | |- exists x, (if ?b then _ else _) = _ => destruct b
    end; try (by eexists); apply IH; rewrite ?to_read_report_if, ?to_read_report, ?Hs; lia.
Qed.

(** C38: [ReadRecord] returns: on any finite file, with any initial offset, damaged
    or not, its loop ends after at most one iteration for each byte that is left
    (every fragment and every drop takes at least a header from the input). *)
Theorem read_record_terminates (r : Reader G) fuel scratch :
  to_read r < Z.of_nat fuel -> 0 <= initial_offset r < 2 ^ 64 ->
  exists record scr r', ReadRecord fuel r scratch = Some (record, scr, r').
Proof.
  intros Hf Hi. unfold ReadRecord.
  assert (forall r st, to_read r < Z.of_nat fuel ->
    exists a b c, read_record_loop fuel r st = Some (a, b, c)) as Hl.
  { intros r1 st H1. destruct (read_record_loop_total fuel r1 st H1) as [[[a b] c] E]. by exists a, b, c. }
  destruct (_ <? _); [|by apply Hl].
  unfold SkipToInitialBlock. cbv zeta.
  match goal with |- context [set_end_of_buffer_offset r ?l] => set (loc := l) end.
  assert (0 <= loc) as Hloc.
  { unfold loc. destruct (_ >? _); [apply u64_bound|].
    pose proof (Z.mod_le (initial_offset r) kBlockSize ltac:(lia) ltac:(reflexivity)). lia. }
  destruct (loc >? 0); [|by apply Hl].
  cbn [file set_end_of_buffer_offset]. pose proof (Skip_eq (file r) loc Hloc) as [S1 S2].
  destruct (Skip (file r) loc) as [s g]. cbn [fst snd] in S1, S2. subst s. cbn [ok negb].
  apply Hl. unfold to_read in *. cbn [buffer file set_file set_end_of_buffer_offset]. rewrite S2.
  pose proof (size_take_drop (Z.to_nat loc) (remaining (file r))).
  pose proof (size_nonneg (take (Z.to_nat loc) (remaining (file r)))). lia.
Qed.
End Terminates.

Definition damaged_reader : Reader (list byte) :=
  new_Reader (replicate 9 x07) true true 100000.

Lemma read_record_terminates_witness :
  exists record scr r', ReadRecord 12 damaged_reader [] = Some (record, scr, r').
Proof.
  apply (read_record_terminates damaged_reader);
    [reflexivity | split; [discriminate | reflexivity]].
Defined.
