(* ===== verification/LdbFilename.v ===== *)
(** leveldb: numbers in text (util/logging.cc) and the names of the files of a
    database (db/filename.cc).

    [consume_exact]: the parser of decimal numbers takes the longest run of
    digits and refuses exactly the runs that are empty or do not fit 64 bits.
    [number_roundtrip]: a printed number is read back.  [filename_roundtrip]:
    every name that the program makes is recognised, with its type and
    number. *)

From S2P Require Import Prelude LdbCoding LdbStatus.
Open Scope Z_scope.

(** * Numbers *)

(** [snprintf] of [%llu]: the decimal digits of a number below [10 ^ fuel]. *)
Fixpoint digits (fuel : nat) (num : Z) : list byte :=
  match fuel with
  | O => []
  | S fuel => (if num <? 10 then [] else digits fuel (num / 10)) ++ [z2b (48 + num mod 10)]
  end.

Definition llu (num : Z) : list byte := digits 20 num.

(** [%06llu]: at least six digits. *)
Definition llu06 (num : Z) : list byte := replicate (6 - length (llu num)) x30 ++ llu num.

Definition AppendNumberTo (str : list byte) (num : Z) : list byte := str ++ llu num.
Definition NumberToString (num : Z) : list byte := AppendNumberTo [] num.

(** [%02x] of a byte. *)
Definition hex_digit (d : Z) : byte := if d <? 10 then z2b (48 + d) else z2b (87 + d).
Definition hex02 (c : Z) : list byte := [hex_digit (c / 16); hex_digit (c mod 16)].

(** [char] is signed: a byte above 127 is below the space. *)
Definition AppendEscapedStringTo (str value : list byte) : list byte :=
  str ++ concat (map (fun b =>
    let c := sx 8 (b2z b) in
    if (32 <=? c) && (c <=? 126) then [b] else [x5c; x78] ++ hex02 (Z.land (u32 c) 0xff)) value).
Definition EscapeString (value : list byte) : list byte := AppendEscapedStringTo [] value.

Definition kMaxUint64 : Z := 2 ^ 64 - 1.
Definition kLastDigitOfMaxUint64 : Z := 48 + kMaxUint64 mod 10.

(** The loop: [None] on overflow, else the value, the number of digits consumed
    and what is left. *)
Fixpoint consume_loop (value consumed : Z) (current : list byte)
  : option (Z * Z * list byte) :=
  match current with
  | [] => Some (value, consumed, [])
  | b :: rest =>
      let ch := b2z b in
      if (ch <? 48) || (ch >? 57) then Some (value, consumed, current)
      else if (value >? kMaxUint64 / 10) ||
              ((value =? kMaxUint64 / 10) && (ch >? kLastDigitOfMaxUint64))
      then None
      else consume_loop (u64 (u64 (value * 10) + (ch - 48))) (consumed + 1) rest
  end.

(** The value and what follows the number; [None] where the code returns false. *)
Definition ConsumeDecimalNumber (input : list byte) : option (Z * list byte) :=
  match consume_loop 0 0 input with
  | None => None
  | Some (value, digits_consumed, rest) =>
      if negb (digits_consumed =? 0) then Some (value, rest) else None
  end.

(** * File names *)

Inductive FileType :=
  | kLogFile
  | kDBLockFile
  | kTableFile
  | kDescriptorFile
  | kCurrentFile
  | kTempFile
  | kInfoLogFile.

#[export] Instance FileType_eq_dec : EqDecision FileType.
Proof. solve_decision. Defined.

(** [snprintf] writes at most 99 characters of the name. *)
Definition MakeFileName (dbname : list byte) (number : Z) (suffix : list byte) : list byte :=
  dbname ++ take 99 (cstr "/" ++ llu06 number ++ cstr "." ++ suffix).

Definition LogFileName (dbname : list byte) (number : Z) : list byte :=
  MakeFileName dbname number (cstr "log").
Definition TableFileName (dbname : list byte) (number : Z) : list byte :=
  MakeFileName dbname number (cstr "ldb").
Definition SSTTableFileName (dbname : list byte) (number : Z) : list byte :=
  MakeFileName dbname number (cstr "sst").
Definition DescriptorFileName (dbname : list byte) (number : Z) : list byte :=
  dbname ++ take 99 (cstr "/MANIFEST-" ++ llu06 number).
Definition CurrentFileName (dbname : list byte) : list byte := dbname ++ cstr "/CURRENT".
Definition LockFileName (dbname : list byte) : list byte := dbname ++ cstr "/LOCK".
Definition TempFileName (dbname : list byte) (number : Z) : list byte :=
  MakeFileName dbname number (cstr "dbtmp").
Definition InfoLogFileName (dbname : list byte) : list byte := dbname ++ cstr "/LOG".
Definition OldInfoLogFileName (dbname : list byte) : list byte := dbname ++ cstr "/LOG.old".

Definition ParseFileName (filename : list byte) : option (Z * FileType) :=
  let rest := filename in
  if slice_eqb rest (cstr "CURRENT") then Some (0, kCurrentFile)
  else if slice_eqb rest (cstr "LOCK") then Some (0, kDBLockFile)
  else if slice_eqb rest (cstr "LOG") || slice_eqb rest (cstr "LOG.old")
  then Some (0, kInfoLogFile)
  else if starts_with rest (cstr "MANIFEST-") then
    let rest := remove_prefix (size (cstr "MANIFEST-")) rest in
    match ConsumeDecimalNumber rest with
    | None => None
    | Some (num, rest) => if negb (empty rest) then None else Some (num, kDescriptorFile)
    end
  else
    match ConsumeDecimalNumber rest with
    | None => None
    | Some (num, suffix) =>
        if slice_eqb suffix (cstr ".log") then Some (num, kLogFile)
        else if slice_eqb suffix (cstr ".sst") || slice_eqb suffix (cstr ".ldb")
        then Some (num, kTableFile)
        else if slice_eqb suffix (cstr ".dbtmp") then Some (num, kTempFile)
        else None
    end.

(** * Decimal numbers *)

Definition is_digit (b : byte) : bool := (48 <=? b2z b) && (b2z b <=? 57).

Fixpoint dec_val (acc : Z) (ds : list byte) : Z :=
  match ds with
  | [] => acc
  | b :: ds => dec_val (acc * 10 + (b2z b - 48)) ds
  end.

(** Reference: the longest run of digits at the front. *)
Fixpoint digit_run (bs : list byte) : list byte * list byte :=
  match bs with
  | b :: rest =>
      if is_digit b then let '(ds, rest) := digit_run rest in (b :: ds, rest) else ([], bs)
  | [] => ([], [])
  end.

Lemma dec_val_mono ds a : Forall (fun b => is_digit b = true) ds -> 0 <= a -> a <= dec_val a ds.
Proof.
  revert a; induction ds as [|b ds IH]; intros a Hd Ha; cbn [dec_val]; [lia|].
  apply List.Forall_cons_iff in Hd as [Hb Hd]. unfold is_digit in Hb.
  transitivity (a * 10 + (b2z b - 48)); [lia | apply IH; [done | lia]].
Qed.

Lemma digit_run_digits bs ds rest :
  digit_run bs = (ds, rest) -> Forall (fun b => is_digit b = true) ds /\ bs = ds ++ rest.
Proof.
  revert ds rest; induction bs as [|b bs IH]; intros ds rest E; cbn in E.
  { injection E as <- <-. split; [by constructor | done]. }
  destruct (is_digit b) eqn:Eb; [|injection E as <- <-; split; [by constructor | done]].
  destruct (digit_run bs) as [ds' rest']. injection E as <- <-.
  destruct (IH _ _ eq_refl) as [Hf ->]. split; [by constructor | done].
Qed.

Lemma consume_loop_eq bs v c :
  0 <= v <= kMaxUint64 ->
  consume_loop v c bs =
  let '(ds, rest) := digit_run bs in
  if dec_val v ds <=? kMaxUint64 then Some (dec_val v ds, c + size ds, rest) else None.
Proof.
  revert v c; induction bs as [|b bs IH]; intros v c Hv; cbn [consume_loop digit_run].
  { cbn [dec_val]. rewrite (proj2 (Z.leb_le _ _)) by lia. by rewrite Z.add_0_r. }
  assert ((b2z b <? 48) || (b2z b >? 57) = negb (is_digit b)) as ->.
  { unfold is_digit. destruct (Z.ltb_spec (b2z b) 48), (Z.gtb_spec (b2z b) 57),
      (Z.leb_spec 48 (b2z b)), (Z.leb_spec (b2z b) 57); done || lia. }
  destruct (is_digit b) eqn:Eb; cbn [negb].
  2: { cbn [dec_val]. rewrite (proj2 (Z.leb_le _ _)) by lia. by rewrite Z.add_0_r. }
  destruct (digit_run bs) as [ds rest] eqn:Er.
  destruct (digit_run_digits _ _ _ Er) as [Hds _].
  assert (48 <= b2z b <= 57) as Hb by (unfold is_digit in Eb; lia).
  change (kMaxUint64 / 10) with 1844674407370955161.
  change kLastDigitOfMaxUint64 with 53. cbn [dec_val]. unfold kMaxUint64 in *.
  destruct (Z.gtb_spec v 1844674407370955161) as [Hg|Hg]; cbn [orb].
  { pose proof (dec_val_mono ds (v * 10 + (b2z b - 48)) Hds ltac:(lia)).
    by rewrite (proj2 (Z.leb_gt _ _)) by lia. }
  destruct (Z.eqb_spec v 1844674407370955161) as [->|Hne]; cbn [andb];
    [destruct (Z.gtb_spec (b2z b) 53) as [Hg'|Hg']|].
  - pose proof (dec_val_mono ds (1844674407370955161 * 10 + (b2z b - 48)) Hds ltac:(lia)).
    by rewrite (proj2 (Z.leb_gt _ _)) by lia.
  - rewrite (u64_small (_ * 10)), u64_small by lia. rewrite IH by lia. unfold size; cbn [length].
    destruct (_ <=? _); [|done]. do 3 f_equal. lia.
  - rewrite (u64_small (_ * 10)), u64_small by lia. rewrite IH by lia. unfold size; cbn [length].
    destruct (_ <=? _); [|done]. do 3 f_equal. lia.
Qed.

Lemma consume_ref input :
  ConsumeDecimalNumber input =
  let '(ds, rest) := digit_run input in
  if negb (bool_decide (ds = [])) && (dec_val 0 ds <? 2 ^ 64)
  then Some (dec_val 0 ds, rest) else None.
Proof.
  unfold ConsumeDecimalNumber. rewrite consume_loop_eq by (unfold kMaxUint64; lia).
  destruct (digit_run input) as [ds rest]. unfold kMaxUint64.
  destruct (Z.leb_spec (dec_val 0 ds) (2 ^ 64 - 1)), (Z.ltb_spec (dec_val 0 ds) (2 ^ 64)); try lia.
  - destruct ds as [|b ds]; [done|]. rewrite (proj2 (Z.eqb_neq _ _)) by (unfold size; cbn [length]; lia).
    done.
  - by rewrite andb_false_r.
Qed.

(** Decimal numbers are parsed exactly: the longest run of digits at the front
    is taken, its value is exact (the overflow test lets no value wrap and
    refuses none that fits), and the parse fails precisely when the run is empty or
    its value needs more than 64 bits. *)
Theorem consume_exact input :
  ConsumeDecimalNumber input =
  let '(ds, rest) := digit_run input in
  if negb (bool_decide (ds = [])) && (dec_val 0 ds <? 2 ^ 64)
  then Some (dec_val 0 ds, rest) else None.
Proof. apply consume_ref. Qed.

Lemma dec_val_app a x y : dec_val a (x ++ y) = dec_val (dec_val a x) y.
Proof. revert a; induction x as [|b x IH]; intros a; [done|]. cbn [app dec_val]. apply IH. Qed.

Lemma digits_val n num :
  0 <= num < 10 ^ Z.of_nat n -> n <> O ->
  dec_val 0 (digits n num) = num /\ Forall (fun b => is_digit b = true) (digits n num) /\
  digits n num <> [].
Proof.
  revert num; induction n as [|n IH]; intros num Hn H0; [done|]. cbn [digits].
  pose proof (Z.mod_pos_bound num 10 ltac:(lia)) as Hm.
  assert (b2z (z2b (48 + num mod 10)) = 48 + num mod 10) as Hb by (apply b2z_z2b_small; lia).
  assert (is_digit (z2b (48 + num mod 10)) = true) as Hd.
  { unfold is_digit. rewrite Hb. apply andb_true_iff. split; apply Z.leb_le; lia. }
  rewrite Nat2Z.inj_succ, Z.pow_succ_r in Hn by lia.
  destruct (Z.ltb_spec num 10).
  - cbn [app dec_val]. rewrite Hb, Z.mod_small by lia.
    split; [lia|]. split; [|done]. constructor; [by rewrite Z.mod_small in Hd by lia | constructor].
  - destruct (IH (num / 10)) as (Hv & Hf & Hne).
    + split; [apply Z.div_pos; lia | apply Z.div_lt_upper_bound; lia].
    + intros ->. change (10 ^ Z.of_nat 0) with 1 in Hn. lia.
    + rewrite dec_val_app, Hv. cbn [dec_val]. rewrite Hb.
      split; [pose proof (Z.div_mod num 10); lia|]. split; [|by destruct (digits n (num / 10))].
      apply List.Forall_app. by split; [|constructor].
Qed.

Lemma llu_val num :
  0 <= num < 2 ^ 64 ->
  dec_val 0 (llu num) = num /\ Forall (fun b => is_digit b = true) (llu num) /\ llu num <> [].
Proof.
  intros Hn. assert (2 ^ 64 < 10 ^ 20) by reflexivity.
  apply digits_val; [change (Z.of_nat 20) with 20; lia | done].
Qed.

Lemma llu06_val num :
  0 <= num < 2 ^ 64 ->
  dec_val 0 (llu06 num) = num /\ Forall (fun b => is_digit b = true) (llu06 num) /\ llu06 num <> [].
Proof.
  intros Hn. destruct (llu_val num Hn) as (Hv & Hf & Hne). unfold llu06.
  set (k := (6 - length (llu num))%nat).
  split; [|split].
  - rewrite dec_val_app. replace (dec_val 0 (replicate k x30)) with 0; [done|].
    induction k as [|k IH]; [done|]. exact IH.
  - apply List.Forall_app. split; [|done]. induction k as [|k IH]; [constructor|]. by constructor.
  - intros E. apply app_eq_nil in E as [_ E]. done.
Qed.

Lemma length_digits n num : (length (digits n num) <= n)%nat.
Proof.
  revert num; induction n as [|n IH]; intros num; cbn [digits]; [done|]. rewrite length_app.
  destruct (num <? 10); cbn [length]; [lia|]. specialize (IH (num / 10)). lia.
Qed.

Lemma length_llu06 num : (length (llu06 num) <= 20)%nat.
Proof.
  unfold llu06, llu. rewrite length_app, length_replicate. pose proof (length_digits 20 num). lia.
Qed.

(** Digits followed by something that is not a digit are all consumed. *)
Lemma consume_digits ds rest :
  Forall (fun b => is_digit b = true) ds ->
  match rest with [] => True | b :: _ => is_digit b = false end ->
  digit_run (ds ++ rest) = (ds, rest).
Proof.
  induction ds as [|b ds IH]; intros Hf Hr; cbn [app digit_run].
  - destruct rest as [|b rest]; [done|]. cbn [digit_run]. by rewrite Hr.
  - apply List.Forall_cons_iff in Hf as [Hb Hf]. by rewrite Hb, IH.
Qed.

Lemma consume_number ds num rest :
  dec_val 0 ds = num -> Forall (fun b => is_digit b = true) ds -> ds <> [] ->
  num < 2 ^ 64 ->
  match rest with [] => True | b :: _ => is_digit b = false end ->
  ConsumeDecimalNumber (ds ++ rest) = Some (num, rest).
Proof.
  intros Hv Hf Hne Hn Hr. rewrite consume_ref, consume_digits, Hv by done.
  rewrite bool_decide_eq_false_2 by done. by rewrite (proj2 (Z.ltb_lt _ _)) by done.
Qed.

(** A number printed by [NumberToString] is read back, up to what follows
    it. *)
Theorem number_roundtrip num rest :
  0 <= num < 2 ^ 64 -> match rest with [] => True | b :: _ => is_digit b = false end ->
  ConsumeDecimalNumber (NumberToString num ++ rest) = Some (num, rest).
Proof.
  intros Hn Hr. unfold NumberToString, AppendNumberTo. cbn [app].
  destruct (llu_val num Hn) as (Hv & Hf & Hne). apply consume_number; done || lia.
Qed.

Lemma number_roundtrip_witness :
  ConsumeDecimalNumber (NumberToString 18446744073709551615 ++ [x2e])
  = Some (18446744073709551615, [x2e]).
Proof. apply number_roundtrip; [lia | reflexivity]. Defined.

(** * File names *)

(** A name whose first byte is not that of [x] is not [x]. *)
Lemma digit_name ds rest x b :
  Forall (fun b => is_digit b = true) ds -> ds <> [] -> is_digit b = false ->
  slice_eqb (ds ++ rest) (b :: x) = false /\ starts_with (ds ++ rest) (b :: x) = false.
Proof.
  intros Hf Hne Hb. destruct ds as [|d ds]; [done|].
  apply List.Forall_cons_iff in Hf as [Hd _]. split.
  - apply slice_eqb_false. intros [= -> _]. congruence.
  - apply not_true_iff_false. intros [t [= -> _]]%starts_with_inv. congruence.
Qed.

Lemma ParseFileName_digits ds rest :
  Forall (fun b => is_digit b = true) ds -> ds <> [] ->
  ParseFileName (ds ++ rest) =
    match ConsumeDecimalNumber (ds ++ rest) with
    | None => None
    | Some (num, suffix) =>
        if slice_eqb suffix (cstr ".log") then Some (num, kLogFile)
        else if slice_eqb suffix (cstr ".sst") || slice_eqb suffix (cstr ".ldb")
        then Some (num, kTableFile)
        else if slice_eqb suffix (cstr ".dbtmp") then Some (num, kTempFile)
        else None
    end.
Proof.
  intros Hf Hne. unfold ParseFileName.
  assert (forall b x, is_digit b = false -> slice_eqb (ds ++ rest) (b :: x) = false) as E1
    by (intros; by apply digit_name).
  assert (forall b x, is_digit b = false -> starts_with (ds ++ rest) (b :: x) = false) as E2
    by (intros; by apply digit_name).
  change (cstr "CURRENT") with (x43 :: cstr "URRENT"). change (cstr "LOCK") with (x4c :: cstr "OCK").
  change (cstr "LOG") with (x4c :: cstr "OG"). change (cstr "LOG.old") with (x4c :: cstr "OG.old").
  change (cstr "MANIFEST-") with (x4d :: cstr "ANIFEST-").
  by rewrite !E1, E2 by reflexivity.
Qed.

(** What the program's own names are parsed as. *)
Definition named (name : list byte -> list byte) (number : Z) (t : FileType) : Prop :=
  forall dbname, exists base,
    name dbname = dbname ++ cstr "/" ++ base /\ ParseFileName base = Some (number, t).

Lemma MakeFileName_named number suffix t :
  0 <= number < 2 ^ 64 -> (length suffix <= 60)%nat ->
  ParseFileName (llu06 number ++ cstr "." ++ suffix) = Some (number, t) ->
  named (fun d => MakeFileName d number suffix) number t.
Proof.
  intros Hn Hl Hp dbname. exists (llu06 number ++ cstr "." ++ suffix). split; [|done].
  unfold MakeFileName. rewrite take_ge; [done|].
  rewrite !length_app. pose proof (length_llu06 number).
  change (length (cstr "/")) with 1%nat. change (length (cstr ".")) with 1%nat. lia.
Qed.

Lemma parse_suffix number suffix t :
  0 <= number < 2 ^ 64 ->
  (if slice_eqb (cstr "." ++ suffix) (cstr ".log") then Some (number, kLogFile)
   else if slice_eqb (cstr "." ++ suffix) (cstr ".sst") || slice_eqb (cstr "." ++ suffix) (cstr ".ldb")
   then Some (number, kTableFile)
   else if slice_eqb (cstr "." ++ suffix) (cstr ".dbtmp") then Some (number, kTempFile)
   else None) = Some (number, t) ->
  ParseFileName (llu06 number ++ cstr "." ++ suffix) = Some (number, t).
Proof.
  intros Hn E. destruct (llu06_val number Hn) as (Hv & Hf & Hne).
  rewrite ParseFileName_digits by done.
  rewrite (consume_number _ number) by (done || lia). exact E.
Qed.

(** Every file name that the program makes is recognised, without the
    directory, as a file of the right type with the same number (zero for the
    names without one), for every 64-bit number. *)
Theorem filename_roundtrip number :
  0 <= number < 2 ^ 64 ->
  named (fun d => LogFileName d number) number kLogFile /\
  named (fun d => TableFileName d number) number kTableFile /\
  named (fun d => SSTTableFileName d number) number kTableFile /\
  named (fun d => TempFileName d number) number kTempFile /\
  named (fun d => DescriptorFileName d number) number kDescriptorFile /\
  named CurrentFileName 0 kCurrentFile /\ named LockFileName 0 kDBLockFile /\
  named InfoLogFileName 0 kInfoLogFile /\ named OldInfoLogFileName 0 kInfoLogFile.
Proof.
  intros Hn.
  do 4 (split; [apply MakeFileName_named; [done | cbn; lia | by apply parse_suffix]|]).
  split; [|by repeat split; intros d; eexists].
  intros dbname. exists (cstr "MANIFEST-" ++ llu06 number). split.
  - unfold DescriptorFileName. rewrite take_ge; [done|]. rewrite length_app.
    pose proof (length_llu06 number). change (length (cstr "/MANIFEST-")) with 10%nat. lia.
  - destruct (llu06_val number Hn) as (Hv & Hf & Hne).
    unfold ParseFileName. rewrite starts_with_app.
    unfold remove_prefix. rewrite drop_size_app.
    rewrite <- (app_nil_r (llu06 number)) at 5.
    rewrite (consume_number _ number) by (done || lia).
    by rewrite !(proj2 (slice_eqb_false _ _)) by done.
Qed.

Lemma filename_roundtrip_witness : named (fun d => LogFileName d 7) 7 kLogFile.
Proof. apply (filename_roundtrip 7). lia. Defined.
