(* ===== verification/LdbFormat.v ===== *)
(** leveldb: the order of keys (include/leveldb/comparator.h,
    util/comparator.cc) and internal keys (db/dbformat.h, db/dbformat.cc).

    [Comparator] is the interface; [ComparatorLaws] what its clients rely on,
    for the keys that satisfy [valid].  [bytewise_laws] and [internal_laws]
    discharge the laws for the two comparators of the program; the second is
    built on any user comparator that satisfies them.

    [internal_key_exact]: internal keys are parsed exactly.
    [internal_order]: user keys increase, sequence numbers decrease.
    [separator_correct]: the shortened keys stay between the keys they separate.
    [lookup_key_views]: the three views of a lookup key, and its buffer is large
    enough. *)

From stdpp Require Import pretty.
From S2P Require Import Prelude Leb128 LdbCoding LdbStatus LdbFilename.
Open Scope Z_scope.

(** * Comparators *)

Class Comparator := {
  Compare : list byte -> list byte -> Z;
  FindShortestSeparator : list byte -> list byte -> list byte;
  FindShortSuccessor : list byte -> list byte;
}.

(** ** BytewiseComparatorImpl *)

(** The length of the common prefix. *)
Fixpoint diff_loop (start limit : list byte) : nat :=
  match start, limit with
  | a :: start, b :: limit => if Byte.byte_eq_dec a b then S (diff_loop start limit) else O
  | _, _ => O
  end.

Definition bytewise_separator (start limit : list byte) : list byte :=
  let min_length := Nat.min (length start) (length limit) in
  let diff_index := diff_loop start limit in
  if (min_length <=? diff_index)%nat then start
  else
    let diff_byte := b2z (nth diff_index start x00) in
    if (diff_byte <? 0xff) && (diff_byte + 1 <? b2z (nth diff_index limit x00))
    then take diff_index start ++ [z2b (diff_byte + 1)]
    else start.

Fixpoint bytewise_successor (key : list byte) : list byte :=
  match key with
  | [] => []
  | byte :: key => if negb (b2z byte =? 0xff) then [z2b (b2z byte + 1)] else byte :: bytewise_successor key
  end.

Definition BytewiseComparator : Comparator := {|
  Compare := slice_compare;
  FindShortestSeparator := bytewise_separator;
  FindShortSuccessor := bytewise_successor;
|}.

(** * Internal keys *)

Definition kTypeDeletion : Z := 0.
Definition kTypeValue : Z := 1.
Definition kValueTypeForSeek : Z := kTypeValue.
Definition kMaxSequenceNumber : Z := u64 (Z.shiftl 1 56) - 1.

Record ParsedInternalKey := mk_key { user_key : list byte; sequence : Z; vtype : Z }.

Definition InternalKeyEncodingLength (key : ParsedInternalKey) : Z := size (user_key key) + 8.

Definition PackSequenceAndType (seq t : Z) : Z := Z.lor (u64 (Z.shiftl seq 8)) t.

Definition AppendInternalKey (result : list byte) (key : ParsedInternalKey) : list byte :=
  PutFixed64 (result ++ user_key key) (PackSequenceAndType (sequence key) (vtype key)).

(** Requires eight bytes. *)
Definition ExtractUserKey (internal_key : list byte) : list byte :=
  take (Z.to_nat (size internal_key - 8)) internal_key.

(** [DecodeFixed64(key.data() + key.size() - 8)]. *)
Definition key_tag (key : list byte) : Z := DecodeFixed64 (drop (Z.to_nat (size key - 8)) key).

(** [None] where the code returns false and leaves the result undefined. *)
Definition ParseInternalKey (internal_key : list byte) : option ParsedInternalKey :=
  let n := size internal_key in
  if n <? 8 then None
  else
    let num := key_tag internal_key in
    let c := Z.land num 0xff in
    if c <=? kTypeValue
    then Some (mk_key (ExtractUserKey internal_key) (Z.shiftr num 8) c) else None.

(** [%d] of the type; [char buf[50]] holds any such text. *)
Definition ParsedInternalKey_DebugString (k : ParsedInternalKey) : list byte :=
  cstr "'" ++ EscapeString (user_key k) ++
  take 49 (cstr "' @ " ++ llu (sequence k) ++ cstr " : " ++ cstr (pretty (vtype k))).

Definition InternalKey_DebugString (rep : list byte) : list byte :=
  match ParseInternalKey rep with
  | Some parsed => ParsedInternalKey_DebugString parsed
  | None => cstr "(bad)" ++ EscapeString rep
  end.

(** ** InternalKeyComparator *)

Section Internal.
Context (user_comparator : Comparator).

Definition internal_compare (akey bkey : list byte) : Z :=
  let r := @Compare user_comparator (ExtractUserKey akey) (ExtractUserKey bkey) in
  if r =? 0 then
    let anum := key_tag akey in
    let bnum := key_tag bkey in
    if anum >? bnum then -1 else if anum <? bnum then 1 else r
  else r.

Definition internal_separator (start limit : list byte) : list byte :=
  let user_start := ExtractUserKey start in
  let user_limit := ExtractUserKey limit in
  let tmp := @FindShortestSeparator user_comparator user_start user_limit in
  if (size tmp <? size user_start) && (@Compare user_comparator user_start tmp <? 0)
  then PutFixed64 tmp (PackSequenceAndType kMaxSequenceNumber kValueTypeForSeek)
  else start.

Definition internal_successor (key : list byte) : list byte :=
  let user_key := ExtractUserKey key in
  let tmp := @FindShortSuccessor user_comparator user_key in
  if (size tmp <? size user_key) && (@Compare user_comparator user_key tmp <? 0)
  then PutFixed64 tmp (PackSequenceAndType kMaxSequenceNumber kValueTypeForSeek)
  else key.

Definition InternalKeyComparator : Comparator := {|
  Compare := internal_compare;
  FindShortestSeparator := internal_separator;
  FindShortSuccessor := internal_successor;
|}.
End Internal.

(** * Lookup keys *)

(** The bytes from [start_] to [end_], and [kstart_ - start_]. *)
Record LookupKey := mk_lookup { lk_bytes : list byte; lk_kstart : nat }.

Definition new_LookupKey (user_key : list byte) (s : Z) : LookupKey :=
  let usize := size user_key in
  let dst := EncodeVarint32 (u32 (usize + 8)) in
  mk_lookup (dst ++ user_key ++ EncodeFixed64 (PackSequenceAndType s kValueTypeForSeek)) (length dst).

(** The bytes allocated for a lookup key. *)
Definition lookup_capacity (user_key : list byte) : Z :=
  let needed := size user_key + 13 in if needed <=? 200 then 200 else needed.

Definition memtable_key (k : LookupKey) : list byte := lk_bytes k.
Definition internal_key (k : LookupKey) : list byte := drop (lk_kstart k) (lk_bytes k).
Definition lookup_user_key (k : LookupKey) : list byte :=
  take (Z.to_nat (size (lk_bytes k) - Z.of_nat (lk_kstart k) - 8)) (internal_key k).

(** * The laws of comparators *)

(** A total preorder on the keys used, and the documented behaviour of the two
    shortening operations ([sep_keep]: nothing is shortened when the start is not
    below the limit). *)
Class ComparatorLaws (valid : list byte -> Prop) (c : Comparator) : Prop := {
  cmp_refl a : valid a -> Compare a a = 0;
  cmp_antisym a b : valid a -> valid b -> Z.sgn (Compare a b) = - Z.sgn (Compare b a);
  cmp_trans a b d : valid a -> valid b -> valid d ->
    Compare a b <= 0 -> Compare b d <= 0 -> Compare a d <= 0;
  cmp_trans_lt a b d : valid a -> valid b -> valid d ->
    Compare a b < 0 -> Compare b d <= 0 -> Compare a d < 0;
  sep_valid s l : valid s -> valid l -> valid (FindShortestSeparator s l);
  sep_between s l : valid s -> valid l -> Compare s l < 0 ->
    Compare s (FindShortestSeparator s l) <= 0 /\ Compare (FindShortestSeparator s l) l < 0;
  sep_keep s l : valid s -> valid l -> 0 <= Compare s l -> FindShortestSeparator s l = s;
  succ_valid k : valid k -> valid (FindShortSuccessor k);
  succ_above k : valid k -> Compare k (FindShortSuccessor k) <= 0;
}.

Section Order.
Context {valid : list byte -> Prop} {c : Comparator} {laws : ComparatorLaws valid c}.

Lemma cmp_le_ge a b : valid a -> valid b -> Compare a b <= 0 <-> 0 <= Compare b a.
Proof. intros Ha Hb. pose proof (cmp_antisym a b Ha Hb). lia. Qed.

Lemma cmp_lt_gt a b : valid a -> valid b -> Compare a b < 0 <-> 0 < Compare b a.
Proof. intros Ha Hb. pose proof (cmp_antisym a b Ha Hb). lia. Qed.

Lemma cmp_eq_sym a b : valid a -> valid b -> Compare a b = 0 <-> Compare b a = 0.
Proof. intros Ha Hb. pose proof (cmp_antisym a b Ha Hb). lia. Qed.

Lemma cmp_trans_lt_r a b d :
  valid a -> valid b -> valid d -> Compare a b <= 0 -> Compare b d < 0 -> Compare a d < 0.
Proof.
  intros Ha Hb Hd Hab Hbd. destruct (Z.lt_ge_cases (Compare a d) 0) as [|Hge]; [done|].
  assert (Compare d a <= 0) as Hda by (by apply cmp_le_ge).
  assert (Compare d b <= 0) by (by apply (cmp_trans d a b)).
  assert (0 <= Compare b d) by (by apply cmp_le_ge). lia.
Qed.

End Order.

(** ** The bytewise order is the lexicographic order *)

Fixpoint lex (a b : list byte) : Z :=
  match a, b with
  | [], [] => 0
  | [], _ :: _ => -1
  | _ :: _, [] => 1
  | x :: a, y :: b => if b2z x <? b2z y then -1 else if b2z y <? b2z x then 1 else lex a b
  end.

Lemma slice_compare_lex a b : slice_compare a b = lex a b.
Proof.
  unfold slice_compare, size. revert b; induction a as [|x a IH]; intros [|y b]; try done.
  specialize (IH b). cbn [length lex].
  set (m := if Z.of_nat (length a) <? _ then _ else _) in IH.
  assert ((if Z.of_nat (S (length a)) <? Z.of_nat (S (length b)) then Z.of_nat (S (length a))
           else Z.of_nat (S (length b))) = m + 1) as ->.
  { unfold m. destruct (Z.ltb_spec (Z.of_nat (length a)) (Z.of_nat (length b))),
      (Z.ltb_spec (Z.of_nat (S (length a))) (Z.of_nat (S (length b)))); lia. }
  assert (0 <= m) by (unfold m; destruct (_ <? _); lia).
  replace (Z.to_nat (m + 1)) with (S (Z.to_nat m)) by lia. cbn [take memcmp].
  destruct (b2z x <? b2z y); [done|]. destruct (b2z y <? b2z x); [done|].
  rewrite <- IH, !Nat2Z.inj_succ.
  assert (forall p q, (Z.succ p <? Z.succ q) = (p <? q)) as Hlt.
  { intros p q. by destruct (Z.ltb_spec (Z.succ p) (Z.succ q)), (Z.ltb_spec p q); try lia. }
  rewrite !Z.gtb_ltb, !Hlt. done.
Qed.

Lemma lex_refl a : lex a a = 0.
Proof. induction a as [|x a IH]; [done|]. cbn. by rewrite Z.ltb_irrefl. Qed.

Lemma lex_sgn a b : lex a b = - lex b a.
Proof.
  revert b; induction a as [|x a IH]; intros [|y b]; try done. cbn. rewrite (IH b).
  destruct (Z.ltb_spec (b2z x) (b2z y)), (Z.ltb_spec (b2z y) (b2z x)); lia.
Qed.

Lemma lex_0 a b : lex a b = 0 <-> a = b.
Proof.
  split; [|intros ->; apply lex_refl].
  revert b; induction a as [|x a IH]; intros [|y b]; try done. cbn.
  destruct (Z.ltb_spec (b2z x) (b2z y)), (Z.ltb_spec (b2z y) (b2z x)); try lia.
  intros ->%IH. f_equal. apply b2z_inj. lia.
Qed.

Lemma slice_compare_0 a b : slice_compare a b = 0 <-> a = b.
Proof. rewrite slice_compare_lex. apply lex_0. Qed.

Lemma lex_trans a b d : lex a b < 0 -> lex b d < 0 -> lex a d < 0.
Proof.
  revert b d; induction a as [|x a IH]; intros [|y b] [|z d]; cbn; try lia.
  specialize (IH b d).
  destruct (Z.ltb_spec (b2z x) (b2z y)), (Z.ltb_spec (b2z y) (b2z x)),
    (Z.ltb_spec (b2z y) (b2z z)), (Z.ltb_spec (b2z z) (b2z y)),
    (Z.ltb_spec (b2z x) (b2z z)), (Z.ltb_spec (b2z z) (b2z x)); lia.
Qed.

Lemma lex_trans_le a b d : lex a b < 0 -> lex b d <= 0 -> lex a d < 0.
Proof.
  intros H1 H2. destruct (Z.eq_dec (lex b d) 0) as [->%lex_0|Hne]; [done|].
  apply (lex_trans a b d); lia.
Qed.

Lemma bytewise_separator_cons a s b l :
  bytewise_separator (a :: s) (b :: l) =
  if Byte.byte_eq_dec a b then a :: bytewise_separator s l
  else if (b2z a <? 0xff) && (b2z a + 1 <? b2z b) then [z2b (b2z a + 1)] else a :: s.
Proof.
  unfold bytewise_separator. cbn [length diff_loop Nat.min].
  destruct (Byte.byte_eq_dec a b) as [->|Hne]; [|done].
  cbn [nth take app Nat.leb]. destruct (_ <=? _)%nat; [done|]. by destruct (_ && _).
Qed.

Lemma bytewise_separator_ok s l :
  (lex s l < 0 -> lex s (bytewise_separator s l) <= 0 /\ lex (bytewise_separator s l) l < 0) /\
  (0 <= lex s l -> bytewise_separator s l = s) /\
  (length (bytewise_separator s l) <= length s)%nat.
Proof.
  revert l; induction s as [|a s IH]; intros [|b l]; try by (cbn; repeat split; lia).
  rewrite bytewise_separator_cons. cbn [lex length]. destruct (Byte.byte_eq_dec a b) as [->|Hne].
  - destruct (IH l) as (H1 & H2 & H3). cbn [lex length]. rewrite !Z.ltb_irrefl.
    split; [done|]. split; [intros H; by rewrite H2 | lia].
  - assert (b2z a <> b2z b) by (intros E; by apply Hne, b2z_inj).
    destruct (Z.ltb_spec (b2z a) (b2z b)).
    + destruct ((b2z a <? 0xff) && (b2z a + 1 <? b2z b)) eqn:Eb.
      * pose proof (b2z_bound a). cbn [lex length]. rewrite b2z_z2b_small by lia.
        rewrite !(proj2 (Z.ltb_lt _ _)) by lia. repeat split; lia.
      * cbn [lex length]. rewrite lex_refl, Z.ltb_irrefl, (proj2 (Z.ltb_lt _ _)) by lia.
        repeat split; lia.
    + rewrite (proj2 (Z.ltb_lt (b2z b) (b2z a))) by lia.
      assert ((b2z a + 1 <? b2z b) = false) as -> by (apply Z.ltb_ge; lia).
      rewrite andb_false_r. split; [lia|]. by split.
Qed.

Lemma bytewise_successor_ok k :
  lex k (bytewise_successor k) <= 0 /\ (length (bytewise_successor k) <= length k)%nat.
Proof.
  induction k as [|a k IH]; [done|]. cbn [bytewise_successor].
  destruct (Z.eqb_spec (b2z a) 0xff); cbn [negb lex length].
  - rewrite !Z.ltb_irrefl. lia.
  - pose proof (b2z_bound a). rewrite b2z_z2b_small, (proj2 (Z.ltb_lt _ _)) by lia. lia.
Qed.

#[export] Instance bytewise_laws : ComparatorLaws (fun _ => True) BytewiseComparator.
Proof.
  split; cbn [Compare BytewiseComparator FindShortestSeparator FindShortSuccessor];
    intros; rewrite ?slice_compare_lex in *; try done.
  - apply lex_refl.
  - pose proof (lex_sgn a b). lia.
  - destruct (Z.eq_dec (lex a b) 0) as [->%lex_0|Hne]; [done|].
    pose proof (lex_trans_le a b d). lia.
  - by apply (lex_trans_le a b d).
  - by apply bytewise_separator_ok.
  - by apply bytewise_separator_ok.
  - apply bytewise_successor_ok.
Qed.

(** * Internal keys *)

Lemma pack_value seq t :
  0 <= seq < 2 ^ 56 -> 0 <= t < 256 ->
  PackSequenceAndType seq t = seq * 256 + t /\ 0 <= PackSequenceAndType seq t < 2 ^ 64.
Proof.
  intros Hs Ht. unfold PackSequenceAndType. rewrite Z.shiftl_mul_pow2, u64_small by lia.
  rewrite lor_add_l by lia. change (2 ^ 8) with 256. lia.
Qed.

Lemma append_internal_key k :
  AppendInternalKey [] k = user_key k ++ EncodeFixed64 (PackSequenceAndType (sequence k) (vtype k)).
Proof. reflexivity. Qed.

Lemma extract_app u n : ExtractUserKey (u ++ EncodeFixed64 n) = u.
Proof.
  unfold ExtractUserKey, size. rewrite length_app, length_EncodeFixed64.
  replace (Z.to_nat (Z.of_nat (length u + 8) - 8)) with (length u) by lia. apply take_app_length.
Qed.

Lemma tag_app u n : key_tag (u ++ EncodeFixed64 n) = u64 n.
Proof.
  unfold key_tag, size. rewrite length_app, length_EncodeFixed64.
  replace (Z.to_nat (Z.of_nat (length u + 8) - 8)) with (length u) by lia.
  rewrite drop_app_length, <- (app_nil_r (EncodeFixed64 n)). apply DecodeFixed64_app.
Qed.

Lemma size_fixed64 u n : size (u ++ EncodeFixed64 n) = size u + 8.
Proof. unfold size. rewrite length_app, length_EncodeFixed64. lia. Qed.

(** A key of eight bytes or more is its user part followed by its tag. *)
Lemma key_split k : 8 <= size k -> k = ExtractUserKey k ++ EncodeFixed64 (key_tag k).
Proof.
  intros Hk. unfold ExtractUserKey, key_tag.
  rewrite <- (take_drop (Z.to_nat (size k - 8)) k) at 1. f_equal.
  unfold EncodeFixed64, DecodeFixed64, kLittleEndian.
  rewrite take_ge by (rewrite length_drop; unfold size in *; lia).
  symmetry. apply le_bytes_val_n. rewrite length_drop. unfold size in *. lia.
Qed.

Lemma key_tag_bound k : 0 <= key_tag k < 2 ^ 64.
Proof. apply DecodeFixed64_bound. Qed.

(** Internal keys are parsed exactly: a key made from a user key, a sequence
    number below [2 ^ 56] and one of the two types is parsed back; conversely
    what is parsed gives the same bytes again, and parsing fails only when there
    are fewer than eight bytes or the type is unknown. *)
Theorem internal_key_exact key bytes :
  0 <= sequence key < 2 ^ 56 -> 0 <= vtype key <= 1 ->
  ParseInternalKey (AppendInternalKey [] key) = Some key /\
  size (AppendInternalKey [] key) = InternalKeyEncodingLength key /\
  match ParseInternalKey bytes with
  | Some k => AppendInternalKey [] k = bytes /\ 0 <= sequence k < 2 ^ 56 /\ 0 <= vtype k <= 1
  | None => size bytes < 8 \/ 1 < b2z (nth (length bytes - 8) bytes x00)
  end.
Proof.
  intros Hs Ht. destruct (pack_value (sequence key) (vtype key) Hs ltac:(lia)) as [Hp Hpb].
  split; [|split].
  - unfold ParseInternalKey. rewrite append_internal_key, size_fixed64.
    pose proof (size_nonneg (user_key key)). rewrite (proj2 (Z.ltb_ge _ _)) by lia.
    rewrite tag_app, extract_app, u64_small, Hp by lia.
    rewrite land_255, Z.shiftr_div_pow2 by lia. change (2 ^ 8) with 256.
    rewrite Z.add_comm, Z_mod_plus_full, Z.mod_small, Z.div_add, Z.div_small by lia.
    rewrite (proj2 (Z.leb_le _ _)) by (unfold kTypeValue; lia). by destruct key.
  - rewrite append_internal_key. apply size_fixed64.
  - unfold ParseInternalKey. destruct (Z.ltb_spec (size bytes) 8) as [Hl|Hl]; [by left|].
    pose proof (key_tag_bound bytes) as Hb. rewrite land_255, Z.shiftr_div_pow2 by lia.
    change (2 ^ 8) with 256. pose proof (Z.mod_pos_bound (key_tag bytes) 256 ltac:(lia)).
    destruct (Z.leb_spec (key_tag bytes mod 256) kTypeValue) as [Hc|Hc]; unfold kTypeValue in Hc.
    + assert (0 <= key_tag bytes / 256 < 2 ^ 56) as Hq.
      { split; [apply Z.div_pos; lia | apply Z.div_lt_upper_bound; lia]. }
      rewrite append_internal_key; cbn [user_key sequence vtype]. split; [|lia].
      destruct (pack_value (key_tag bytes / 256) (key_tag bytes mod 256) Hq ltac:(lia)) as [-> _].
      rewrite (key_split bytes Hl) at 4. do 2 f_equal. pose proof (Z.div_mod (key_tag bytes) 256). lia.
    + right. assert (key_tag bytes mod 256 = b2z (nth (length bytes - 8) bytes x00)) as <-; [|lia].
      unfold key_tag, DecodeFixed64, kLittleEndian, size in *.
      replace (Z.to_nat (Z.of_nat (length bytes) - 8)) with (length bytes - 8)%nat by lia.
      assert (nth (length bytes - 8) bytes x00 = nth 0 (drop (length bytes - 8) bytes) x00) as ->
        by (by rewrite nth_skipn, Nat.add_0_r).
      destruct (drop (length bytes - 8) bytes) as [|b rest] eqn:E.
      { apply (f_equal length) in E. rewrite length_drop in E. cbn in E. lia. }
      cbn [take le_val nth]. pose proof (b2z_bound b).
      rewrite Z.mul_comm, Z_mod_plus_full. apply Z.mod_small. lia.
Qed.

Lemma internal_key_exact_witness :
  ParseInternalKey (AppendInternalKey [] (mk_key [x61] 7 kTypeValue)) = Some (mk_key [x61] 7 kTypeValue).
Proof. apply (internal_key_exact (mk_key [x61] 7 kTypeValue) []); cbn; unfold kTypeValue; lia. Defined.

(** ** Their order *)

Section InternalLaws.
Context {valid : list byte -> Prop} {c : Comparator} {laws : ComparatorLaws valid c}.

Definition ivalid (k : list byte) : Prop := 8 <= size k /\ valid (ExtractUserKey k).

#[local] Abbreviation icmp := (internal_compare c).
#[local] Abbreviation ucmp a b := (@Compare c (ExtractUserKey a) (ExtractUserKey b)).

Lemma icmp_le a b : icmp a b <= 0 <-> ucmp a b < 0 \/ ucmp a b = 0 /\ key_tag b <= key_tag a.
Proof.
  unfold internal_compare. destruct (Z.eqb_spec (ucmp a b) 0) as [E|]; [|lia].
  destruct (Z.gtb_spec (key_tag a) (key_tag b)), (Z.ltb_spec (key_tag a) (key_tag b)); lia.
Qed.

Lemma icmp_lt a b : icmp a b < 0 <-> ucmp a b < 0 \/ ucmp a b = 0 /\ key_tag b < key_tag a.
Proof.
  unfold internal_compare. destruct (Z.eqb_spec (ucmp a b) 0) as [E|]; [|lia].
  destruct (Z.gtb_spec (key_tag a) (key_tag b)), (Z.ltb_spec (key_tag a) (key_tag b)); lia.
Qed.

Lemma icmp_sgn a b :
  Z.sgn (icmp a b) = if ucmp a b =? 0 then Z.sgn (key_tag b - key_tag a) else Z.sgn (ucmp a b).
Proof.
  unfold internal_compare. destruct (Z.eqb_spec (ucmp a b) 0) as [E|]; [|done].
  destruct (Z.gtb_spec (key_tag a) (key_tag b)), (Z.ltb_spec (key_tag a) (key_tag b)); lia.
Qed.

Lemma icmp_trans a b d : ivalid a -> ivalid b -> ivalid d ->
  icmp a b <= 0 -> icmp b d <= 0 ->
  icmp a d <= 0 /\ (icmp a b < 0 -> icmp a d < 0).
Proof.
  intros [_ Ha] [_ Hb] [_ Hd]. rewrite !icmp_le, !icmp_lt.
  pose proof (cmp_trans _ _ _ Ha Hb Hd). pose proof (cmp_trans_lt _ _ _ Ha Hb Hd).
  pose proof (cmp_trans_lt_r _ _ _ Ha Hb Hd).
  pose proof (cmp_antisym _ _ Ha Hb). pose proof (cmp_antisym _ _ Hb Hd).
  pose proof (cmp_antisym _ _ Ha Hd). pose proof (cmp_trans _ _ _ Hd Hb Ha). lia.
Qed.

(** The shortened user key with the largest tag. *)
Lemma short_key_fields u :
  valid u ->
  let k := PutFixed64 u (PackSequenceAndType kMaxSequenceNumber kValueTypeForSeek) in
  ivalid k /\ ExtractUserKey k = u /\ size k = size u + 8.
Proof.
  intros Hu. cbv zeta. unfold PutFixed64, ivalid. rewrite extract_app, size_fixed64.
  pose proof (size_nonneg u). split; [split; [lia | done] | done].
Qed.

Lemma size_extract k : 8 <= size k -> size (ExtractUserKey k) = size k - 8.
Proof.
  intros Hk. unfold ExtractUserKey. rewrite size_take by lia. lia.
Qed.

Lemma internal_separator_ok s l :
  ivalid s -> ivalid l ->
  let r := internal_separator c s l in
  ivalid r /\ size r <= size s /\ (0 <= icmp s l -> r = s) /\
  (icmp s l < 0 -> icmp s r <= 0 /\ icmp r l < 0).
Proof.
  intros Hs Hl. cbv zeta. unfold internal_separator.
  set (tmp := @FindShortestSeparator c _ _).
  assert (icmp s s <= 0) as Hss.
  { apply icmp_le. right. split; [apply cmp_refl, Hs | lia]. }
  destruct (Z.ltb_spec (size tmp) (size (ExtractUserKey s))) as [Hsz|]; cbn [andb];
    [|repeat split; (done || lia || apply Hs)].
  destruct (Z.ltb_spec (@Compare c (ExtractUserKey s) tmp) 0) as [Hc|];
    [|repeat split; (done || lia || apply Hs)].
  assert (valid tmp) as Hv by (apply sep_valid; [apply Hs | apply Hl]).
  destruct (short_key_fields tmp Hv) as (Hk & Ek & Sk).
  set (k := PutFixed64 tmp _) in *.
  assert (ucmp s l < 0) as Hul.
  { destruct (Z.lt_ge_cases (ucmp s l) 0) as [|Hge]; [done|].
    pose proof (sep_keep _ _ (proj2 Hs) (proj2 Hl) Hge) as E. fold tmp in E. rewrite E in Hsz. lia. }
  destruct (sep_between _ _ (proj2 Hs) (proj2 Hl) Hul) as [_ Hlt]. fold tmp in Hlt.
  assert (icmp s k < 0) as H1 by (apply icmp_lt; left; by rewrite Ek).
  assert (icmp s l < 0) as H2 by (apply icmp_lt; by left).
  split; [done|]. pose proof (size_extract s (proj1 Hs)). split; [lia|]. split; [lia|].
  intros _. split; [lia|]. apply icmp_lt. left. by rewrite Ek.
Qed.

Lemma internal_successor_ok k :
  ivalid k -> let r := internal_successor c k in
  ivalid r /\ size r <= size k /\ icmp k r <= 0.
Proof.
  intros Hk. cbv zeta. unfold internal_successor. set (tmp := @FindShortSuccessor c _).
  assert (icmp k k <= 0) as Hkk.
  { apply icmp_le. right. split; [apply cmp_refl, Hk | lia]. }
  destruct (Z.ltb_spec (size tmp) (size (ExtractUserKey k))) as [Hsz|]; cbn [andb];
    [|split; [done|]; split; [lia | done]].
  destruct (Z.ltb_spec (@Compare c (ExtractUserKey k) tmp) 0) as [Hc|];
    [|split; [done|]; split; [lia | done]].
  assert (valid tmp) as Hv by (apply succ_valid, Hk).
  destruct (short_key_fields tmp Hv) as (Hr & Er & Sr).
  split; [done|]. pose proof (size_extract k (proj1 Hk)). split; [lia|].
  apply icmp_le. left. by rewrite Er.
Qed.

#[export] Instance internal_laws : ComparatorLaws ivalid (InternalKeyComparator c).
Proof.
  split; cbn [Compare InternalKeyComparator FindShortestSeparator FindShortSuccessor].
  - intros a Ha. unfold internal_compare. rewrite cmp_refl by apply Ha.
    by rewrite Z.eqb_refl, Z.gtb_ltb, Z.ltb_irrefl.
  - intros a b [_ Ha] [_ Hb]. rewrite !icmp_sgn.
    pose proof (cmp_antisym _ _ Ha Hb). 
    destruct (Z.eqb_spec (ucmp a b) 0), (Z.eqb_spec (ucmp b a) 0); lia.
  - intros a b d Ha Hb Hd H1 H2. by apply (icmp_trans a b d).
  - intros a b d Ha Hb Hd H1 H2. apply (icmp_trans a b d); try done. lia.
  - intros s l Hs Hl. by apply internal_separator_ok.
  - intros s l Hs Hl. by apply internal_separator_ok.
  - intros s l Hs Hl. by apply internal_separator_ok.
  - intros k Hk. by apply internal_successor_ok.
  - intros k Hk. by apply internal_successor_ok.
Qed.

(** C39: internal keys are ordered by user key first; of two entries of the same
    user key the one with the larger sequence number comes first, and of two
    with the same number the value comes before the deletion. *)
Theorem internal_order (a b : ParsedInternalKey) :
  0 <= sequence a < 2 ^ 56 -> 0 <= vtype a <= 1 ->
  0 <= sequence b < 2 ^ 56 -> 0 <= vtype b <= 1 ->
  let u := @Compare c (user_key a) (user_key b) in
  Z.sgn (internal_compare c (AppendInternalKey [] a) (AppendInternalKey [] b)) =
  if negb (u =? 0) then Z.sgn u
  else if negb (sequence a =? sequence b) then Z.sgn (sequence b - sequence a)
  else Z.sgn (vtype b - vtype a).
Proof.
  intros Ha Ha' Hb Hb'. cbv zeta. rewrite icmp_sgn, !append_internal_key, !extract_app, !tag_app.
  destruct (pack_value (sequence a) (vtype a)) as [Ea Ha2]; [lia..|].
  destruct (pack_value (sequence b) (vtype b)) as [Eb Hb2]; [lia..|].
  rewrite !u64_small, Ea, Eb by lia.
  destruct (@Compare c (user_key a) (user_key b) =? 0); cbn [negb]; [|done].
  destruct (Z.eqb_spec (sequence a) (sequence b)); cbn [negb]; lia.
Qed.

(** The keys that an index block stores in place of the real ones separate the
    same keys: between two internal keys in order, the shortened key is at or
    after the first and strictly before the second, and never longer than the
    first; a short successor is at or after its key and never longer. *)
Theorem separator_correct s l :
  ivalid s -> ivalid l -> internal_compare c s l < 0 ->
  let r := internal_separator c s l in
  (internal_compare c s r <= 0 /\ internal_compare c r l < 0 /\ size r <= size s) /\
  let r := internal_successor c s in
  internal_compare c s r <= 0 /\ size r <= size s.
Proof.
  intros Hs Hl H. cbv zeta.
  destruct (internal_separator_ok s l Hs Hl) as (_ & H1 & _ & H2).
  destruct (H2 H) as [H5 H6]. destruct (internal_successor_ok s Hs) as (_ & H7 & H8). done.
Qed.
End InternalLaws.

Lemma internal_order_witness :
  Z.sgn (internal_compare BytewiseComparator (AppendInternalKey [] (mk_key [x61] 9 kTypeValue))
           (AppendInternalKey [] (mk_key [x61] 8 kTypeDeletion))) = -1.
Proof.
  exact (@internal_order BytewiseComparator (mk_key [x61] 9 kTypeValue) (mk_key [x61] 8 kTypeDeletion)
    ltac:(cbn; lia) ltac:(cbn; unfold kTypeValue; lia) ltac:(cbn; lia)
    ltac:(cbn; unfold kTypeDeletion; lia)).
Defined.

Lemma separator_correct_witness :
  let s := AppendInternalKey [] (mk_key [x61; x62; x63; x64] 9 kTypeValue) in
  let l := AppendInternalKey [] (mk_key [x61; x7a] 8 kTypeValue) in
  internal_compare BytewiseComparator (internal_separator BytewiseComparator s l) l < 0.
Proof.
  cbv zeta. apply (separator_correct (valid := fun _ => True) (laws := bytewise_laws)).
  - split; [vm_compute; discriminate | exact I].
  - split; [vm_compute; discriminate | exact I].
  - reflexivity.
Defined.

(** ** Lookup keys *)

(** The three views of a lookup key are what the memtable and the tables
    expect: the internal key is the user key with the sequence number and the
    seek type, the memtable key is that with its length in front, the user key is
    the one given; and everything written fits the buffer chosen for it. *)
Theorem lookup_key_views ukey s :
  size ukey + 8 < 2 ^ 32 ->
  let k := new_LookupKey ukey s in
  internal_key k = AppendInternalKey [] (mk_key ukey s kValueTypeForSeek) /\
  memtable_key k = PutLengthPrefixedSlice [] (internal_key k) /\
  lookup_user_key k = ukey /\
  size (lk_bytes k) <= lookup_capacity ukey.
Proof.
  intros Hu. cbv zeta. pose proof (size_nonneg ukey).
  unfold lookup_user_key, memtable_key, internal_key, new_LookupKey; cbn [lk_bytes lk_kstart].
  rewrite u32_small by lia. rewrite drop_app_length. split; [done|].
  pose proof (length_EncodeVarint32 (size ukey + 8) ltac:(lia)) as Hl.
  unfold PutLengthPrefixedSlice, PutVarint32. rewrite size_fixed64, u32_small by lia.
  split; [done|]. split.
  - unfold size. rewrite !length_app, length_EncodeFixed64.
    match goal with |- take ?n _ = _ => replace n with (length ukey) by lia end.
    apply take_app_length.
  - unfold lookup_capacity. rewrite !size_app. unfold size in *. rewrite length_EncodeFixed64.
    destruct (_ <=? _) eqn:E; lia.
Qed.

Lemma lookup_key_views_witness : lookup_user_key (new_LookupKey [x61; x62] 5) = [x61; x62].
Proof. apply (lookup_key_views [x61; x62] 5). reflexivity. Defined.
