(* ===== verification/LdbBatch.v ===== *)
(** leveldb: write batches (db/write_batch.cc, db/write_batch_internal.h).

    A batch is the string [rep_]: a sequence number, a count and the records.
    The handler that [Iterate] calls is the interface [Handler].

    [batch_iterate]: a batch built by any sequence of puts, deletes and appends
    calls the handler for exactly these operations, in order.
    [batch_truncated]: a batch cut short is refused, after a prefix of its
    operations. *)

From S2P Require Import Prelude Leb128 LdbCoding LdbStatus LdbFormat.
Open Scope Z_scope.

Definition kHeader : nat := 12.

(** [WriteBatch::Clear]: twelve zero bytes. *)
Definition WriteBatch := list byte.
Definition Clear : WriteBatch := replicate kHeader x00.
Definition new_WriteBatch : WriteBatch := Clear.

Definition ApproximateSize (b : WriteBatch) : Z := size b.

(** Overwrites the bytes from [pos]. *)
Definition overwrite (pos : nat) (bs rep : list byte) : list byte :=
  take pos rep ++ bs ++ drop (pos + length bs) rep.

Definition Count (b : WriteBatch) : Z := s32 (DecodeFixed32 (drop 8 b)).
Definition SetCount (b : WriteBatch) (n : Z) : WriteBatch := overwrite 8 (EncodeFixed32 (u32 n)) b.
Definition Sequence (b : WriteBatch) : Z := DecodeFixed64 b.
Definition SetSequence (b : WriteBatch) (seq : Z) : WriteBatch := overwrite 0 (EncodeFixed64 seq) b.
Definition Contents (b : WriteBatch) : list byte := b.
Definition ByteSize (b : WriteBatch) : Z := size b.
Definition SetContents (b : WriteBatch) (contents : list byte) : WriteBatch := contents.

Definition Put (b : WriteBatch) (key value : list byte) : WriteBatch :=
  let b := SetCount b (Count b + 1) in
  let b := b ++ [z2b kTypeValue] in
  PutLengthPrefixedSlice (PutLengthPrefixedSlice b key) value.

Definition Delete (b : WriteBatch) (key : list byte) : WriteBatch :=
  let b := SetCount b (Count b + 1) in
  let b := b ++ [z2b kTypeDeletion] in
  PutLengthPrefixedSlice b key.

Definition Append (dst src : WriteBatch) : WriteBatch :=
  SetCount dst (Count dst + Count src) ++ drop kHeader src.

(** ** Iterate *)

Class Handler (H : Type) := {
  handler_Put : H -> list byte -> list byte -> H;
  handler_Delete : H -> list byte -> H;
}.

Section Iterating.
Context {H : Type} `{Handler H}.

(** Each record takes a byte of the input at least. *)
Fixpoint iterate_loop (fuel : nat) (count found : Z) (h : H) (input : list byte) : Status * H :=
  match fuel with
  | O => (OK, h)
  | S fuel =>
      match input with
      | [] =>
          if negb (found =? count) then (Corruption (cstr "WriteBatch has wrong count") [], h)
          else (OK, h)
      | b :: input =>
          let found := s32 (found + 1) in
          let tag := sx 8 (b2z b) in
          if tag =? kTypeValue then
            match GetLengthPrefixedSlice input with
            | Some (key, input) =>
                match GetLengthPrefixedSlice input with
                | Some (value, input) =>
                    iterate_loop fuel count found (handler_Put h key value) input
                | None => (Corruption (cstr "bad WriteBatch Put") [], h)
                end
            | None => (Corruption (cstr "bad WriteBatch Put") [], h)
            end
          else if tag =? kTypeDeletion then
            match GetLengthPrefixedSlice input with
            | Some (key, input) => iterate_loop fuel count found (handler_Delete h key) input
            | None => (Corruption (cstr "bad WriteBatch Delete") [], h)
            end
          else (Corruption (cstr "unknown WriteBatch tag") [], h)
      end
  end.

Definition Iterate (b : WriteBatch) (h : H) : Status * H :=
  if size b <? Z.of_nat kHeader then (Corruption (cstr "malformed WriteBatch (too small)") [], h)
  else
    let input := drop kHeader b in
    iterate_loop (S (length input)) (Count b) 0 h input.
End Iterating.

(** * Reference: the operations of a batch *)

Inductive batch_op :=
  | OpPut (key value : list byte)
  | OpDelete (key : list byte).

Definition op_ok (op : batch_op) : Prop :=
  match op with
  | OpPut key value => size key < 2 ^ 32 /\ size value < 2 ^ 32
  | OpDelete key => size key < 2 ^ 32
  end.

Definition op_bytes (op : batch_op) : list byte :=
  match op with
  | OpPut key value =>
      z2b kTypeValue :: (EncodeVarint32 (size key) ++ key) ++ (EncodeVarint32 (size value) ++ value)
  | OpDelete key => z2b kTypeDeletion :: EncodeVarint32 (size key) ++ key
  end.

Definition apply_op {H} `{Handler H} (h : H) (op : batch_op) : H :=
  match op with
  | OpPut key value => handler_Put h key value
  | OpDelete key => handler_Delete h key
  end.

Definition batch_rep (seq : Z) (ops : list batch_op) : list byte :=
  EncodeFixed64 seq ++ EncodeFixed32 (Z.of_nat (length ops)) ++ concat (map op_bytes ops).

(** Applies an operation to a batch. *)
Definition batch_add (b : WriteBatch) (op : batch_op) : WriteBatch :=
  match op with OpPut key value => Put b key value | OpDelete key => Delete b key end.

(** * Building a batch *)

Lemma overwrite_app a b c bs :
  length a = length bs -> overwrite (length c) bs (c ++ a ++ b) = c ++ bs ++ b.
Proof.
  intros Hl. unfold overwrite. rewrite take_app_length. do 2 f_equal.
  rewrite <- Hl, (app_assoc c a b), <- length_app. apply drop_app_length.
Qed.

Lemma Count_rep seq ops : Z.of_nat (length ops) < 2 ^ 31 -> Count (batch_rep seq ops) = Z.of_nat (length ops).
Proof.
  intros Hn. unfold Count, batch_rep. change 8%nat with (length (EncodeFixed64 seq)).
  rewrite drop_app_length, DecodeFixed32_app, u32_small by lia. apply sx_small; lia.
Qed.

Lemma SetCount_rep seq ops n :
  SetCount (batch_rep seq ops) n = EncodeFixed64 seq ++ EncodeFixed32 n ++ concat (map op_bytes ops).
Proof.
  unfold SetCount, batch_rep. change 8%nat with (length (EncodeFixed64 seq)).
  rewrite overwrite_app by done. by rewrite EncodeFixed32_mod.
Qed.

Lemma Sequence_rep seq ops : Sequence (batch_rep seq ops) = u64 seq.
Proof. apply DecodeFixed64_app. Qed.

Lemma SetSequence_rep seq seq' ops : SetSequence (batch_rep seq ops) seq' = batch_rep seq' ops.
Proof.
  exact (overwrite_app (EncodeFixed64 seq) _ [] (EncodeFixed64 seq') eq_refl).
Qed.

Lemma batch_add_rep seq ops op :
  op_ok op -> Z.of_nat (length ops) + 1 < 2 ^ 31 ->
  batch_add (batch_rep seq ops) op = batch_rep seq (ops ++ [op]).
Proof.
  intros Ho Hn. assert (Z.of_nat (length (ops ++ [op])) = Z.of_nat (length ops) + 1) as El
    by (rewrite length_app; cbn [length]; lia).
  unfold batch_rep at 2. rewrite El, map_app, concat_app. cbn [map concat].
  destruct op as [key value|key]; cbn [batch_add op_ok op_bytes] in *;
    unfold Put, Delete; rewrite Count_rep, SetCount_rep, !put_prefixed by (lia || apply Ho);
    rewrite <- !app_assoc, ?app_nil_r; done.
Qed.

Lemma Append_rep seq seq' ops ops' :
  Z.of_nat (length ops) + Z.of_nat (length ops') < 2 ^ 31 ->
  Append (batch_rep seq ops) (batch_rep seq' ops') = batch_rep seq (ops ++ ops').
Proof.
  intros Hn. unfold Append. rewrite !Count_rep, SetCount_rep by lia.
  unfold batch_rep at 2. rewrite length_app, Nat2Z.inj_add, map_app, concat_app, <- !app_assoc.
  reflexivity.
Qed.

Lemma batch_built_from ops pre :
  Forall op_ok ops -> Z.of_nat (length pre) + Z.of_nat (length ops) < 2 ^ 31 ->
  fold_left batch_add ops (batch_rep 0 pre) = batch_rep 0 (pre ++ ops).
Proof.
  revert pre; induction ops as [|op ops IH]; intros pre Ho Hl; [by rewrite app_nil_r|].
  apply List.Forall_cons_iff in Ho as [Hop Ho]. cbn [fold_left length] in *.
  rewrite batch_add_rep, IH by (done || rewrite ?length_app; cbn [length]; lia).
  by rewrite <- app_assoc.
Qed.

Lemma batch_built ops :
  Forall op_ok ops -> Z.of_nat (length ops) < 2 ^ 31 ->
  fold_left batch_add ops new_WriteBatch = batch_rep 0 ops.
Proof. intros Ho Hn. by apply (batch_built_from ops []). Qed.

(** * Iterating over it *)

Section Iterated.
Context {H : Type} `{Handler H}.

Lemma iterate_op fuel count found (h : H) op rest :
  op_ok op ->
  iterate_loop (S fuel) count found h (op_bytes op ++ rest)
  = iterate_loop fuel count (s32 (found + 1)) (apply_op h op) rest.
Proof.
  intros Ho. destruct op as [key value|key]; cbn [op_bytes app iterate_loop op_ok] in *.
  - rewrite <- !app_assoc. by rewrite !get_length_prefixed_app by apply Ho.
  - rewrite <- !app_assoc. by rewrite !get_length_prefixed_app by apply Ho.
Qed.

Lemma op_bytes_length op : (1 <= length (op_bytes op))%nat.
Proof. destruct op; cbn [op_bytes length]; lia. Qed.

Lemma iterate_ops fuel count found (h : H) ops rest :
  Forall op_ok ops -> (length ops <= fuel)%nat ->
  0 <= found -> found + Z.of_nat (length ops) < 2 ^ 31 ->
  iterate_loop fuel count found h (concat (map op_bytes ops) ++ rest)
  = iterate_loop (fuel - length ops) count (found + Z.of_nat (length ops))
      (fold_left apply_op ops h) rest.
Proof.
  revert fuel found h; induction ops as [|op ops IH]; intros fuel found h Ho Hf Hfound Hn.
  - cbn [length map concat app fold_left]. by rewrite Z.add_0_r, Nat.sub_0_r.
  - apply List.Forall_cons_iff in Ho as [Hop Ho]. cbn [length] in *.
    destruct fuel as [|fuel]; [lia|]. cbn [map concat fold_left]. rewrite <- app_assoc.
    rewrite iterate_op by done. unfold s32. rewrite sx_small by lia.
    rewrite IH by (done || lia). f_equal. lia.
Qed.

Lemma length_concat_ops ops : (length ops <= length (concat (map op_bytes ops)))%nat.
Proof.
  induction ops as [|op ops IH]; [done|]. cbn [map concat length]. rewrite length_app.
  pose proof (op_bytes_length op). lia.
Qed.

Lemma size_batch_rep seq ops :
  size (batch_rep seq ops) = 12 + size (concat (map op_bytes ops)).
Proof.
  unfold batch_rep, size. rewrite !length_app, length_EncodeFixed64, length_EncodeFixed32. lia.
Qed.

Lemma drop_batch_rep seq ops : drop kHeader (batch_rep seq ops) = concat (map op_bytes ops).
Proof. reflexivity. Qed.

Lemma iterate_rep seq ops (h : H) :
  Forall op_ok ops -> Z.of_nat (length ops) < 2 ^ 31 ->
  Iterate (batch_rep seq ops) h = (OK, fold_left apply_op ops h).
Proof.
  intros Ho Hn. unfold Iterate. rewrite size_batch_rep, drop_batch_rep, Count_rep by lia.
  pose proof (size_nonneg (concat (map op_bytes ops))) as Hs.
  change (Z.of_nat kHeader) with 12. rewrite (proj2 (Z.ltb_ge _ _)) by lia.
  pose proof (length_concat_ops ops). rewrite <- (app_nil_r (concat _)) at 2.
  rewrite iterate_ops by (done || lia). rewrite Z.add_0_l.
  replace (S _ - _)%nat with (S (length (concat (map op_bytes ops)) - length ops)) by lia.
  cbn [iterate_loop]. by rewrite Z.eqb_refl.
Qed.

(** Iterating over a batch calls the handler for exactly the operations that
    built it: any puts and deletes, any appends of other such batches, and any
    setting of the sequence number, in the order they were made; the status is OK
    and the count and the sequence number read back. *)
Theorem batch_iterate (ops1 ops2 : list batch_op) seq (h : H) :
  Forall op_ok ops1 -> Forall op_ok ops2 ->
  Z.of_nat (length ops1) + Z.of_nat (length ops2) < 2 ^ 31 ->
  0 <= seq < 2 ^ 64 ->
  let b1 := fold_left batch_add ops1 new_WriteBatch in
  let b2 := fold_left batch_add ops2 new_WriteBatch in
  let b := SetSequence (Append b1 b2) seq in
  Iterate b h = (OK, fold_left apply_op (ops1 ++ ops2) h) /\
  Count b = Z.of_nat (length (ops1 ++ ops2)) /\ Sequence b = seq.
Proof.
  intros Hops1 Hops2 Hn Hs. cbv zeta.
  rewrite !batch_built by (done || lia).
  rewrite Append_rep, SetSequence_rep, Count_rep, Sequence_rep, u64_small
    by (done || rewrite ?length_app; lia).
  split; [|done]. apply iterate_rep; [by apply List.Forall_app | rewrite length_app; lia].
Qed.
(** A batch cut short. *)
Lemma iterate_cut fuel count found (h : H) ops S q :
  Forall op_ok ops -> concat (map op_bytes ops) = S ++ q -> q <> [] ->
  (length S < fuel)%nat -> 0 <= found -> found + Z.of_nat (length ops) = count -> count < 2 ^ 31 ->
  exists k st, (k <= length ops)%nat /\
    iterate_loop fuel count found h S = (st, fold_left apply_op (take k ops) h) /\ ok st = false.
Proof.
  revert fuel found h S; induction ops as [|op ops IH]; intros fuel found h S Ho E Hq Hf Hfound Hc Hn.
  { by destruct S, q. }
  apply List.Forall_cons_iff in Ho as [Hop Ho]. cbn [map concat length] in *.
  destruct fuel as [|fuel]; [lia|].
  apply app_eq_inv in E as [(r & E1 & E2)|(r & -> & E2)].
  - destruct r as [|x r].
    { rewrite app_nil_r in E1. cbn [app] in E2. subst S q.
      rewrite <- (app_nil_r (op_bytes op)), iterate_op by done.
      destruct (IH fuel (s32 (found + 1)) (apply_op h op) []) as (k & st & Hk & E & Hst);
        [done | done | done | pose proof (op_bytes_length op); cbn [length]; lia | | | done |].
      - unfold s32. rewrite sx_small by lia. lia.
      - unfold s32. rewrite sx_small by lia. lia.
      - exists (Datatypes.S k), st. split; [lia|]. by rewrite E. }
    exists O. cbn [take fold_left]. destruct S as [|b S].
    { cbn [iterate_loop]. rewrite (proj2 (Z.eqb_neq _ _)) by lia. cbn [negb].
      eexists. split; [lia|]. by split. }
    destruct op as [key value|key]; cbn [op_bytes op_ok app iterate_loop] in *;
      injection E1 as <- E1; eqbs; rewrite b2z_z2b.
    + change (sx 8 (kTypeValue mod 256) =? kTypeValue) with true. cbv iota.
      apply app_eq_inv in E1 as [(r' & E1 & E3)|(r' & -> & E3)].
      * destruct r' as [|x' r'].
        { rewrite app_nil_r in E1. subst S. rewrite <- (app_nil_r (_ ++ key)), <- app_assoc.
          rewrite get_length_prefixed_app by apply Hop.
          rewrite (get_length_prefixed_cut value [] (x :: r)) by (done || apply Hop).
          eexists. split; [lia|]. by split. }
        rewrite (get_length_prefixed_cut key S (x' :: r')) by (done || apply Hop).
        eexists. split; [lia|]. by split.
      * rewrite <- app_assoc, get_length_prefixed_app by apply Hop.
        rewrite (get_length_prefixed_cut value r' (x :: r)) by (done || apply Hop).
        eexists. split; [lia|]. by split.
    + change (sx 8 (kTypeDeletion mod 256) =? kTypeValue) with false.
      change (sx 8 (kTypeDeletion mod 256) =? kTypeDeletion) with true. cbv iota.
      rewrite (get_length_prefixed_cut key S (x :: r)) by (done || apply Hop).
      eexists. split; [lia|]. by split.
  - rewrite iterate_op by done. rewrite length_app in Hf. pose proof (op_bytes_length op).
    destruct (IH fuel (s32 (found + 1)) (apply_op h op) r) as (k & st & Hk & E & Hst);
      [done | done | done | lia | | | done |].
    + unfold s32. rewrite sx_small by lia. lia.
    + unfold s32. rewrite sx_small by lia. lia.
    + exists (Datatypes.S k), st. split; [lia|]. by rewrite E.
Qed.

(** A batch cut short is refused: iterating over a proper prefix of a batch
    calls the handler for a prefix of the operations and then returns an error (also
    when the cut falls between two records: then the count is wrong). *)
Theorem batch_truncated seq ops (h : H) cut :
  Forall op_ok ops -> Z.of_nat (length ops) < 2 ^ 31 ->
  (cut < length (batch_rep seq ops))%nat ->
  exists k st, (k <= length ops)%nat /\
    Iterate (take cut (batch_rep seq ops)) h = (st, fold_left apply_op (take k ops) h) /\
    ok st = false.
Proof.
  intros Ho Hn Hcut. unfold Iterate, size. rewrite length_take, Nat.min_l by lia.
  change (Z.of_nat kHeader) with 12.
  destruct (Z.ltb_spec (Z.of_nat cut) 12).
  { exists O, (Corruption (cstr "malformed WriteBatch (too small)") []). split; [lia|]. by split. }
  assert (take cut (batch_rep seq ops) = EncodeFixed64 seq ++
    EncodeFixed32 (Z.of_nat (length ops)) ++ take (cut - 12) (concat (map op_bytes ops))) as ->.
  { unfold batch_rep. rewrite (app_assoc (EncodeFixed64 seq)), take_app.
    rewrite length_app, length_EncodeFixed64, length_EncodeFixed32.
    rewrite take_ge by (rewrite length_app, length_EncodeFixed64, length_EncodeFixed32; lia).
    by rewrite <- app_assoc. }
  assert (Count (EncodeFixed64 seq ++ EncodeFixed32 (Z.of_nat (length ops)) ++
    take (cut - 12) (concat (map op_bytes ops))) = Z.of_nat (length ops)) as ->.
  { unfold Count. change 8%nat with (length (EncodeFixed64 seq)).
    rewrite drop_app_length, DecodeFixed32_app, u32_small by lia. apply sx_small; lia. }
  change (drop kHeader _) with (take (cut - 12) (concat (map op_bytes ops))).
  apply (iterate_cut _ _ _ h ops _ (drop (cut - 12) (concat (map op_bytes ops)))); try done; try lia.
  - symmetry. apply take_drop.
  - intros E%(f_equal length). rewrite length_drop in E. cbn [length] in E.
    pose proof (size_batch_rep seq ops). unfold size in *. lia.
Qed.
End Iterated.

(** A handler that records the calls. *)
#[export] Instance trace_handler : Handler (list batch_op) := {
  handler_Put h k v := h ++ [OpPut k v];
  handler_Delete h k := h ++ [OpDelete k];
}.

Lemma batch_iterate_witness :
  Iterate (SetSequence (Append (Put new_WriteBatch [x61] [x62]) (Delete new_WriteBatch [x63])) 7) []
  = (OK, [OpPut [x61] [x62]; OpDelete [x63]]).
Proof.
  exact (proj1 (batch_iterate [OpPut [x61] [x62]] [OpDelete [x63]] 7 []
    ltac:(repeat constructor) ltac:(repeat constructor) ltac:(cbn; lia) ltac:(lia))).
Defined.

Lemma batch_truncated_witness :
  exists k st, (k <= 2)%nat /\
    Iterate (take 16 (batch_rep 7 [OpPut [x61] [x62]; OpDelete [x63]])) []
      = (st, fold_left apply_op (take k [OpPut [x61] [x62]; OpDelete [x63]]) []) /\ ok st = false.
Proof.
  apply (batch_truncated 7 [OpPut [x61] [x62]; OpDelete [x63]] [] 16);
    [|reflexivity | apply Nat.ltb_lt; reflexivity].
  constructor; [split; reflexivity | constructor; [reflexivity | constructor]].
Defined.
