(* ===== verification/LdbBloom.v ===== *)
(** leveldb: filters (util/hash.cc, util/bloom.cc, table/filter_block.cc,
    include/leveldb/filter_policy.h).

    [FilterPolicy] is the interface, [FilterPolicyLaws] its contract: a filter is
    appended, and it matches every key it was made from.  [bloom_laws] discharges
    it for the Bloom filter; [filter_block_no_miss] is proved against the
    interface: a filter block never rejects a key that was added for the block
    asked about. *)

From Stdlib Require Import Sorting.Sorted.
From S2P Require Import Prelude Leb128 LdbCoding.
Open Scope Z_scope.

(** * Hash *)

Definition hash_m : Z := 0xc6a4a793.

Fixpoint hash_loop (fuel : nat) (h : Z) (data : list byte) : Z * list byte :=
  match fuel with
  | O => (h, data)
  | S fuel =>
      if 4 <=? size data then
        let w := DecodeFixed32 data in
        let data := drop 4 data in
        let h := u32 (h + w) in
        let h := u32 (h * hash_m) in
        let h := Z.lxor h (Z.shiftr h 16) in
        hash_loop fuel h data
      else (h, data)
  end.

Definition Hash (data : list byte) (seed : Z) : Z :=
  let n := size data in
  let h := u32 (Z.lxor seed (u64 (n * hash_m))) in
  let '(h, data) := hash_loop (length data) h data in
  let byte_at i := b2z (nth i data x00) in
  let h := if size data =? 3 then u32 (h + Z.shiftl (byte_at 2%nat) 16) else h in
  let h := if (size data =? 3) || (size data =? 2) then u32 (h + Z.shiftl (byte_at 1%nat) 8) else h in
  if (size data =? 3) || (size data =? 2) || (size data =? 1) then
    let h := u32 (h + byte_at 0%nat) in
    let h := u32 (h * hash_m) in
    Z.lxor h (Z.shiftr h 24)
  else h.

(** * Bloom filters *)

Definition BloomHash (key : list byte) : Z := Hash key 0xbc9f1d34.

Record BloomFilterPolicy := mk_bloom { bits_per_key : Z; bloom_k : Z }.

(** [bits_per_key * 0.69] in doubles, rounded down; [k_] is at most 30, and up to
    45 bits the product is at least 0.01 away from an integer, so exact arithmetic
    gives the same number. *)
Definition new_BloomFilterPolicy (bits_per_key : Z) : BloomFilterPolicy :=
  let k := bits_per_key * 69 / 100 in
  let k := if k <? 1 then 1 else k in
  let k := if k >? 30 then 30 else k in
  mk_bloom (u64 bits_per_key) k.

Definition bloom_delta (h : Z) : Z := Z.lor (Z.shiftr h 17) (u32 (Z.shiftl h 15)).

(** [array[bitpos / 8] |= (1 << (bitpos % 8))]. *)
Definition set_bit (bitpos : Z) (array : list byte) : list byte :=
  alter (fun b => z2b (Z.lor (b2z b) (Z.shiftl 1 (bitpos mod 8)))) (Z.to_nat (bitpos / 8)) array.

Definition get_bit (bitpos : Z) (array : list byte) : bool :=
  negb (Z.land (b2z (nth (Z.to_nat (bitpos / 8)) array x00)) (Z.shiftl 1 (bitpos mod 8)) =? 0).

Fixpoint add_probes (k : nat) (h delta bits : Z) (array : list byte) : list byte :=
  match k with
  | O => array
  | S k =>
      let bitpos := u32 (h mod bits) in
      add_probes k (u32 (h + delta)) delta bits (set_bit bitpos array)
  end.

Definition add_bloom_key (k bits : Z) (array : list byte) (key : list byte) : list byte :=
  let h := BloomHash key in add_probes (Z.to_nat k) h (bloom_delta h) bits array.

(** The number of bytes of the bit array. *)
Definition bloom_bytes (p : BloomFilterPolicy) (n : Z) : Z :=
  let bits := u64 (n * bits_per_key p) in
  let bits := if bits <? 64 then 64 else bits in
  u64 (bits + 7) / 8.

Definition bloom_CreateFilter (p : BloomFilterPolicy) (keys : list (list byte)) (dst : list byte)
  : list byte :=
  let bytes := bloom_bytes p (Z.of_nat (length keys)) in
  let bits := u64 (bytes * 8) in
  let array := replicate (Z.to_nat bytes) x00 in
  let array := fold_left (add_bloom_key (bloom_k p) bits) keys array in
  dst ++ array ++ [z2b (bloom_k p)].

Fixpoint check_probes (k : nat) (h delta bits : Z) (array : list byte) : bool :=
  match k with
  | O => true
  | S k =>
      let bitpos := u32 (h mod bits) in
      if negb (get_bit bitpos array) then false
      else check_probes k (u32 (h + delta)) delta bits array
  end.

(** The last byte is read as a signed [char] and converted to [size_t]. *)
Definition bloom_KeyMayMatch (key bloom_filter : list byte) : bool :=
  let len := size bloom_filter in
  if len <? 2 then false
  else
    let array := bloom_filter in
    let bits := (len - 1) * 8 in
    let k := u64 (sx 8 (b2z (nth (Z.to_nat (len - 1)) array x00))) in
    if k >? 30 then true
    else
      let h := BloomHash key in
      check_probes (Z.to_nat k) h (bloom_delta h) bits array.

(** * The interface *)

Class FilterPolicy := {
  CreateFilter : list (list byte) -> list byte -> list byte;
  KeyMayMatch : list byte -> list byte -> bool;
}.

(** [limit] bounds the number of keys given to one filter. *)
Class FilterPolicyLaws (limit : Z) (policy : FilterPolicy) : Prop := {
  create_appends keys dst :
    Z.of_nat (length keys) <= limit ->
    CreateFilter keys dst = dst ++ CreateFilter keys [];
  create_matches keys key :
    Z.of_nat (length keys) <= limit -> key ∈ keys ->
    KeyMayMatch key (CreateFilter keys []) = true;
}.

Definition bloom_policy (p : BloomFilterPolicy) : FilterPolicy := {|
  CreateFilter := bloom_CreateFilter p;
  KeyMayMatch := bloom_KeyMayMatch;
|}.

(** * Filter blocks *)

Definition kFilterBaseLg : Z := 11.
Definition kFilterBase : Z := Z.shiftl 1 kFilterBaseLg.

Record FilterBlockBuilder := mk_fbb {
  fb_keys : list byte;
  fb_start : list Z;
  fb_result : list byte;
  fb_offsets : list Z;
}.

Definition new_FilterBlockBuilder : FilterBlockBuilder := mk_fbb [] [] [] [].

Section FilterBlocks.
Context {policy : FilterPolicy}.

(** [tmp_keys_]: the keys between consecutive starts. *)
Fixpoint tmp_keys (keys : list byte) (start : list Z) : list (list byte) :=
  match start with
  | s :: ((s' :: _) as start) =>
      take (Z.to_nat (s' - s)) (drop (Z.to_nat s) keys) :: tmp_keys keys start
  | _ => []
  end.

Definition GenerateFilter (b : FilterBlockBuilder) : FilterBlockBuilder :=
  if Z.of_nat (length (fb_start b)) =? 0 then
    mk_fbb (fb_keys b) (fb_start b) (fb_result b) (fb_offsets b ++ [u32 (size (fb_result b))])
  else
    let start := fb_start b ++ [size (fb_keys b)] in
    let tmp := tmp_keys (fb_keys b) start in
    let offsets := fb_offsets b ++ [u32 (size (fb_result b))] in
    mk_fbb [] [] (CreateFilter tmp (fb_result b)) offsets.

Fixpoint start_block_loop (fuel : nat) (filter_index : Z) (b : FilterBlockBuilder)
  : FilterBlockBuilder :=
  match fuel with
  | O => b
  | S fuel =>
      if filter_index >? Z.of_nat (length (fb_offsets b))
      then start_block_loop fuel filter_index (GenerateFilter b) else b
  end.

(** Each iteration adds an offset. *)
Definition StartBlock (b : FilterBlockBuilder) (block_offset : Z) : FilterBlockBuilder :=
  let filter_index := block_offset / kFilterBase in
  start_block_loop (Z.to_nat filter_index) filter_index b.

Definition AddKey (b : FilterBlockBuilder) (key : list byte) : FilterBlockBuilder :=
  mk_fbb (fb_keys b ++ key) (fb_start b ++ [size (fb_keys b)]) (fb_result b) (fb_offsets b).

Definition Finish (b : FilterBlockBuilder) : list byte :=
  let b := if negb (Z.of_nat (length (fb_start b)) =? 0) then GenerateFilter b else b in
  let array_offset := u32 (size (fb_result b)) in
  let result := fold_left PutFixed32 (fb_offsets b) (fb_result b) in
  let result := PutFixed32 result array_offset in
  result ++ [z2b kFilterBaseLg].

Record FilterBlockReader := mk_fbr {
  fr_data : list byte;
  fr_offset : Z;
  fr_num : Z;
  fr_base_lg : Z;
}.

Definition new_FilterBlockReader (contents : list byte) : FilterBlockReader :=
  let n := size contents in
  if n <? 5 then mk_fbr [] 0 0 0
  else
    let base_lg := u64 (sx 8 (b2z (nth (Z.to_nat (n - 1)) contents x00))) in
    let last_word := DecodeFixed32 (drop (Z.to_nat (n - 5)) contents) in
    if last_word >? n - 5 then mk_fbr [] 0 0 base_lg
    else mk_fbr contents last_word ((n - 5 - last_word) / 4) base_lg.

Definition block_KeyMayMatch (r : FilterBlockReader) (block_offset : Z) (key : list byte) : bool :=
  let index := Z.shiftr block_offset (fr_base_lg r) in
  if index <? fr_num r then
    let start := DecodeFixed32 (drop (Z.to_nat (fr_offset r + index * 4)) (fr_data r)) in
    let limit := DecodeFixed32 (drop (Z.to_nat (fr_offset r + index * 4 + 4)) (fr_data r)) in
    if (start <=? limit) && (limit <=? fr_offset r) then
      let filter := take (Z.to_nat (limit - start)) (drop (Z.to_nat start) (fr_data r)) in
      KeyMayMatch key filter
    else if start =? limit then false
    else true
  else true.
End FilterBlocks.

(** * Bits of the array *)

Lemma land_pow2_testbit x i : 0 <= i -> negb (Z.land x (Z.shiftl 1 i) =? 0) = Z.testbit x i.
Proof.
  intros Hi. rewrite Z.shiftl_1_l. destruct (Z.testbit x i) eqn:E.
  - destruct (Z.eqb_spec (Z.land x (2 ^ i)) 0) as [E0|]; [|done].
    apply (f_equal (fun y => Z.testbit y i)) in E0.
    rewrite Z.land_spec, E, Z.pow2_bits_true, Z.bits_0 in E0 by done. done.
  - assert (Z.land x (2 ^ i) = 0) as ->; [|done].
    apply Z.bits_inj'. intros j Hj. rewrite Z.land_spec, Z.bits_0, Z.pow2_bits_eqb by done.
    destruct (Z.eqb_spec i j) as [<-|]; [by rewrite E | by rewrite andb_false_r].
Qed.

Lemma get_bit_testbit p a :
  0 <= p -> get_bit p a = Z.testbit (b2z (nth (Z.to_nat (p / 8)) a x00)) (p mod 8).
Proof. intros Hp. apply land_pow2_testbit. apply Z.mod_pos_bound. lia. Qed.

Lemma get_set_bit p q a :
  0 <= p -> 0 <= q -> p / 8 < size a ->
  get_bit q (set_bit p a) = get_bit q a || (p =? q).
Proof.
  intros Hp Hq Ha. rewrite !get_bit_testbit by done. unfold set_bit.
  pose proof (Z.mod_pos_bound p 8 ltac:(lia)). pose proof (Z.mod_pos_bound q 8 ltac:(lia)).
  pose proof (Z.div_pos p 8 Hp ltac:(lia)). pose proof (Z.div_pos q 8 Hq ltac:(lia)).
  rewrite nth_alter by (unfold size in Ha; lia).
  destruct (Nat.eqb_spec (Z.to_nat (q / 8)) (Z.to_nat (p / 8))) as [E|Hne].
  - rewrite E, b2z_z2b. change 256 with (2 ^ 8). rewrite Z.mod_pow2_bits_low by lia.
    rewrite Z.lor_spec, Z.shiftl_1_l, Z.pow2_bits_eqb by lia. f_equal.
    pose proof (Z.div_mod p 8). pose proof (Z.div_mod q 8).
    destruct (Z.eqb_spec (p mod 8) (q mod 8)), (Z.eqb_spec p q); lia || done.
  - destruct (Z.eqb_spec p q) as [->|]; [congruence|]. by rewrite orb_false_r.
Qed.

Lemma length_set_bit p a : length (set_bit p a) = length a.
Proof. apply length_alter. Qed.

Lemma length_add_probes k h d bits a : length (add_probes k h d bits a) = length a.
Proof.
  revert h a; induction k as [|k IH]; intros h a; [done|]. cbn [add_probes].
  by rewrite IH, length_set_bit.
Qed.

(** The positions probed lie in the array. *)
Lemma probe_bound h bits a :
  bits = size a * 8 -> 0 < size a ->
  0 <= u32 (h mod bits) /\ u32 (h mod bits) / 8 < size a.
Proof.
  intros -> Ha. pose proof (Z.mod_pos_bound h (size a * 8) ltac:(lia)).
  pose proof (u32_bound (h mod (size a * 8))).
  assert (u32 (h mod (size a * 8)) <= h mod (size a * 8)) by (apply Z.mod_le; lia).
  split; [lia|]. apply Z.div_lt_upper_bound; lia.
Qed.

Definition bits_sub (a b : list byte) : Prop :=
  length a = length b /\ forall q, 0 <= q -> get_bit q a = true -> get_bit q b = true.

#[export] Instance bits_sub_preorder : PreOrder bits_sub.
Proof.
  split; [by intros a|]. intros a b d [H1 H2] [H3 H4]. split; [congruence | auto].
Qed.

Lemma set_bit_sub p a : 0 <= p -> p / 8 < size a -> bits_sub a (set_bit p a).
Proof.
  intros Hp Ha. split; [by rewrite length_set_bit|]. intros q Hq Hb.
  by rewrite get_set_bit, Hb.
Qed.

Lemma add_probes_sub k h d bits a :
  bits = size a * 8 -> 0 < size a -> bits_sub a (add_probes k h d bits a).
Proof.
  revert h a; induction k as [|k IH]; intros h a Hb Ha; [done|]. cbn [add_probes].
  destruct (probe_bound h bits a Hb Ha) as [H1 H2].
  etransitivity; [by apply set_bit_sub|].
  apply IH; unfold size in *; by rewrite length_set_bit.
Qed.

Lemma check_probes_mono k h d bits a b :
  bits_sub a b -> check_probes k h d bits a = true -> check_probes k h d bits b = true.
Proof.
  intros [Hl Hs]. revert h; induction k as [|k IH]; intros h Hc; [done|]. cbn [check_probes] in *.
  destruct (get_bit (u32 (h mod bits)) a) eqn:E; [|done]. cbn [negb] in Hc.
  rewrite Hs by (done || apply u32_bound). by apply IH.
Qed.

(** All probes of a key that was added are found. *)
Lemma check_add_probes k h d bits a :
  bits = size a * 8 -> 0 < size a -> check_probes k h d bits (add_probes k h d bits a) = true.
Proof.
  revert h a; induction k as [|k IH]; intros h a Hb Ha; [done|]. cbn [check_probes add_probes].
  destruct (probe_bound h bits a Hb Ha) as [H1 H2].
  assert (bits = size (set_bit (u32 (h mod bits)) a) * 8) as Hb'
    by (unfold size in *; by rewrite length_set_bit).
  assert (0 < size (set_bit (u32 (h mod bits)) a)) as Ha'
    by (unfold size in *; by rewrite length_set_bit).
  destruct (add_probes_sub k (u32 (h + d)) d bits (set_bit (u32 (h mod bits)) a) Hb' Ha') as [_ Hsub].
  rewrite Hsub; [cbn [negb]; by apply IH | exact H1 |].
  rewrite get_set_bit by assumption. by rewrite Z.eqb_refl, orb_true_r.
Qed.

Lemma length_add_bloom_key k bits a key : length (add_bloom_key k bits a key) = length a.
Proof. apply length_add_probes. Qed.

Lemma length_add_keys k bits keys a : length (fold_left (add_bloom_key k bits) keys a) = length a.
Proof.
  revert a; induction keys as [|key keys IH]; intros a; [done|]. cbn [fold_left].
  rewrite IH. apply length_add_probes.
Qed.

Lemma add_keys_sub k bits keys a :
  bits = size a * 8 -> 0 < size a -> bits_sub a (fold_left (add_bloom_key k bits) keys a).
Proof.
  revert a; induction keys as [|key keys IH]; intros a Hb Ha; [done|]. cbn [fold_left].
  etransitivity; [by apply add_probes_sub|].
  apply IH; unfold size in *; by rewrite length_add_bloom_key.
Qed.

Lemma check_added k bits keys key a :
  bits = size a * 8 -> 0 < size a -> key ∈ keys ->
  check_probes (Z.to_nat k) (BloomHash key) (bloom_delta (BloomHash key)) bits
    (fold_left (add_bloom_key k bits) keys a) = true.
Proof.
  revert a; induction keys as [|key' keys IH]; intros a Hb Ha Hin.
  { by apply not_elem_of_nil in Hin. }
  cbn [fold_left].
  assert (bits = size (add_bloom_key k bits a key') * 8) as Hb'
    by (unfold size in *; by rewrite length_add_bloom_key).
  assert (0 < size (add_bloom_key k bits a key')) as Ha'
    by (unfold size in *; by rewrite length_add_bloom_key).
  apply elem_of_cons in Hin as [->|Hin]; [|by apply IH].
  eapply check_probes_mono; [by apply add_keys_sub|]. by apply check_add_probes.
Qed.

Lemma bloom_bytes_bound p n :
  0 <= bits_per_key p -> 0 <= n -> n * bits_per_key p + 7 < 2 ^ 64 ->
  8 <= bloom_bytes p n < 2 ^ 61.
Proof.
  intros Hb Hn Hl. unfold bloom_bytes. rewrite (u64_small (n * _)) by nia.
  set (bits := if _ <? 64 then 64 else _).
  assert (64 <= bits /\ bits + 7 < 2 ^ 64) as [H1 H2].
  { unfold bits. destruct (Z.ltb_spec (n * bits_per_key p) 64); lia. }
  rewrite u64_small by lia.
  split; [apply Z.div_le_lower_bound | apply Z.div_lt_upper_bound]; lia.
Qed.

Lemma bloom_match p keys key :
  1 <= bloom_k p <= 30 -> 0 <= bits_per_key p ->
  Z.of_nat (length keys) * bits_per_key p + 7 < 2 ^ 64 -> key ∈ keys ->
  bloom_KeyMayMatch key (bloom_CreateFilter p keys []) = true.
Proof.
  intros Hk Hb Hl Hin. unfold bloom_CreateFilter. cbn [app].
  pose proof (bloom_bytes_bound p (Z.of_nat (length keys)) Hb ltac:(lia) Hl) as Hbytes.
  set (bytes := bloom_bytes p _) in *. rewrite u64_small by lia.
  set (a0 := replicate (Z.to_nat bytes) x00).
  assert (size a0 = bytes) as Hs by (unfold size, a0; rewrite length_replicate; lia).
  set (a := fold_left _ keys a0).
  assert (size a = bytes) as Hsa by (unfold a, size in *; by rewrite length_add_keys).
  unfold bloom_KeyMayMatch. rewrite size_app, Hsa. change (size [z2b (bloom_k p)]) with 1.
  rewrite (proj2 (Z.ltb_ge _ _)) by lia.
  replace (bytes + 1 - 1) with bytes by lia.
  rewrite app_nth2 by (unfold size in Hsa; lia).
  replace (Z.to_nat bytes - length a)%nat with O by (unfold size in Hsa; lia). cbn [nth].
  rewrite b2z_z2b_small, sx_small, u64_small by lia.
  destruct (Z.gtb_spec (bloom_k p) 30); [lia|].
  assert (check_probes (Z.to_nat (bloom_k p)) (BloomHash key) (bloom_delta (BloomHash key)) (bytes * 8) a = true) as Hc
    by (apply check_added; [by rewrite Hs | lia | done]).
  rewrite <- Hc. clear Hc.
  generalize (BloomHash key) at 1 3. generalize (bloom_delta (BloomHash key)). intros d.
  induction (Z.to_nat (bloom_k p)) as [|k IH]; intros h; [done|]. cbn [check_probes].
  destruct (probe_bound h (bytes * 8) a ltac:(by rewrite Hsa) ltac:(lia)) as [H1 H2].
  unfold get_bit. rewrite app_nth1 by (unfold size in *; pose proof (Z.div_pos _ 8 H1); lia).
  destruct (Z.land _ _ =? 0); [done|]. cbn [negb]. apply IH.
Qed.

Lemma bloom_laws p limit :
  1 <= bloom_k p <= 30 -> 0 <= bits_per_key p -> 0 <= limit ->
  limit * bits_per_key p + 7 < 2 ^ 64 ->
  FilterPolicyLaws limit (bloom_policy p).
Proof.
  intros Hk Hb H0 Hl. split; cbn [CreateFilter KeyMayMatch bloom_policy].
  - intros keys dst _. reflexivity.
  - intros keys key Hn Hin. apply bloom_match; try done. nia.
Qed.

Lemma new_bloom_k b : 1 <= bloom_k (new_BloomFilterPolicy b) <= 30.
Proof.
  cbn [new_BloomFilterPolicy bloom_k].
  destruct (Z.ltb_spec (b * 69 / 100) 1), (Z.gtb_spec (if b * 69 / 100 <? 1 then 1 else b * 69 / 100) 30);
    repeat match goal with |- context [if ?c then _ else _] => destruct c eqn:? end; lia.
Qed.

(** A Bloom filter has no false negatives: for any non-negative number of bits
    per key and any list of keys whose size does not overflow, whatever already
    stood in the destination is kept, a filter is appended to it, and every key of
    the list matches that filter. *)
Theorem bloom_no_false_negative b keys dst key :
  0 <= b < 2 ^ 31 -> Z.of_nat (length keys) < 2 ^ 31 -> key ∈ keys ->
  let p := new_BloomFilterPolicy b in
  exists filter,
    bloom_CreateFilter p keys dst = dst ++ filter /\
    bloom_KeyMayMatch key filter = true /\
    size filter = bloom_bytes p (Z.of_nat (length keys)) + 1.
Proof.
  intros Hb Hn Hin. cbv zeta. set (p := new_BloomFilterPolicy b).
  exists (bloom_CreateFilter p keys []). split; [done|].
  assert (bits_per_key p = b) as Eb by (apply u64_small; lia).
  assert (Z.of_nat (length keys) * bits_per_key p + 7 < 2 ^ 64) as Hl by (rewrite Eb; nia).
  split.
  - apply bloom_match; [apply new_bloom_k | rewrite Eb; lia | done | done].
  - pose proof (bloom_bytes_bound p (Z.of_nat (length keys)) ltac:(rewrite Eb; lia) ltac:(lia) Hl).
    unfold bloom_CreateFilter. rewrite !size_app. unfold size. cbn [length].
    rewrite length_add_keys, length_replicate. lia.
Qed.

Lemma bloom_no_false_negative_witness :
  exists filter, bloom_CreateFilter (new_BloomFilterPolicy 10) [[x61]; [x62; x63]] [x07] = [x07] ++ filter /\
    bloom_KeyMayMatch [x62; x63] filter = true.
Proof.
  destruct (bloom_no_false_negative 10 [[x61]; [x62; x63]] [x07] [x62; x63]) as (f & H1 & H2 & _).
  - lia.
  - reflexivity.
  - right. left.
  - exists f. exact (conj H1 H2).
Defined.

(** * Filter blocks *)

Section FilterBlockProofs.
Context {limit : Z} {policy : FilterPolicy} {laws : FilterPolicyLaws limit policy}.

(** The filter of a group of keys; a group without keys has none. *)
Definition filt (group : list (list byte)) : list byte :=
  match group with [] => [] | _ => CreateFilter group [] end.

Fixpoint starts (acc : Z) (keys : list (list byte)) : list Z :=
  match keys with [] => [] | k :: keys => acc :: starts (acc + size k) keys end.

Fixpoint offs (acc : Z) (groups : list (list (list byte))) : list Z :=
  match groups with [] => [] | g :: groups => acc :: offs (acc + size (filt g)) groups end.

(** The builder after the groups [done], collecting [cur]. *)
Definition built (b : FilterBlockBuilder) (groups : list (list (list byte)))
    (cur : list (list byte)) : Prop :=
  b = mk_fbb (concat cur) (starts 0 cur) (concat (map filt groups)) (map u32 (offs 0 groups)).

Lemma starts_app acc ks k : starts acc (ks ++ [k]) = starts acc ks ++ [acc + size (concat ks)].
Proof.
  revert acc; induction ks as [|x ks IH]; intros acc; cbn [app starts concat].
  - by rewrite Z.add_0_r.
  - rewrite IH, size_app. cbn [app]. do 3 f_equal. lia.
Qed.

Lemma offs_app acc gs g :
  offs acc (gs ++ [g]) = offs acc gs ++ [acc + size (concat (map filt gs))].
Proof.
  revert acc; induction gs as [|x gs IH]; intros acc; cbn [app offs map concat].
  - by rewrite Z.add_0_r.
  - rewrite IH, size_app. cbn [app]. do 3 f_equal. lia.
Qed.

Lemma length_starts acc ks : length (starts acc ks) = length ks.
Proof. revert acc; induction ks as [|k ks IH]; intros acc; [done|]. cbn. by rewrite IH. Qed.

Lemma length_offs acc gs : length (offs acc gs) = length gs.
Proof. revert acc; induction gs as [|g gs IH]; intros acc; [done|]. cbn. by rewrite IH. Qed.

(** The flattened keys are cut where they were joined. *)
Lemma tmp_keys_starts pre ks :
  tmp_keys (pre ++ concat ks) (starts (size pre) ks ++ [size pre + size (concat ks)]) = ks.
Proof.
  revert pre; induction ks as [|k ks IH]; intros pre; [done|].
  cbn [starts concat app]. specialize (IH (pre ++ k)).
  rewrite <- app_assoc, size_app in IH. rewrite size_app, Z.add_assoc.
  assert (exists l, starts (size pre + size k) ks ++ [size pre + size k + size (concat ks)]
    = (size pre + size k) :: l) as [l El].
  { destruct ks as [|k' ks]; cbn [starts app concat]; [|by eexists].
    exists []. by rewrite Z.add_0_r. }
  rewrite El in *. cbn [tmp_keys]. f_equal; [|exact IH].
  replace (size pre + size k - size pre) with (size k) by lia.
  by rewrite drop_size_app, take_size_app.
Qed.

Lemma GenerateFilter_built b groups cur :
  built b groups cur -> Z.of_nat (length cur) <= limit -> built (GenerateFilter b) (groups ++ [cur]) [].
Proof.
  intros -> Hl. unfold GenerateFilter, built. cbn [fb_start fb_keys fb_result fb_offsets].
  rewrite length_starts, offs_app, !map_app, concat_app. cbn [map concat].
  rewrite app_nil_r. destruct cur as [|k cur].
  - cbn [length filt concat starts]. by rewrite app_nil_r.
  - rewrite (proj2 (Z.eqb_neq _ _)) by (cbn [length]; lia).
    pose proof (tmp_keys_starts [] (k :: cur)) as E. change (size []) with 0 in E.
    rewrite Z.add_0_l in E. cbn [app] in E. rewrite E. cbn [filt].
    rewrite (create_appends (k :: cur)) by done. by rewrite Z.add_0_l.
Qed.

Lemma AddKey_built b groups cur k : built b groups cur -> built (AddKey b k) groups (cur ++ [k]).
Proof.
  intros ->. unfold AddKey, built. cbn [fb_start fb_keys fb_result fb_offsets].
  rewrite concat_app, starts_app. cbn [concat]. by rewrite app_nil_r, Z.add_0_l.
Qed.

(** Starting a block closes the groups before it. *)
Lemma start_block_loop_built fuel i b groups cur :
  built b groups cur -> Z.of_nat (length cur) <= limit -> 0 <= limit ->
  i <= Z.of_nat (length groups) + Z.of_nat fuel -> Z.of_nat (length groups) <= i ->
  exists groups' cur' more, built (start_block_loop fuel i b) groups' cur' /\
    groups' ++ [cur'] = (groups ++ [cur]) ++ more /\ Forall (fun g => g = []) more /\
    Z.of_nat (length groups') = i.
Proof.
  revert b groups cur; induction fuel as [|fuel IH]; intros b groups cur Hb Hl H0 Hi Hg.
  { exists groups, cur, []. rewrite app_nil_r. repeat split; [done | constructor | lia]. }
  cbn [start_block_loop].
  assert (length (fb_offsets b) = length groups) as ->
    by (unfold built in Hb; rewrite Hb; cbn [fb_offsets]; by rewrite length_map, length_offs).
  destruct (Z.gtb_spec i (Z.of_nat (length groups))).
  - destruct (IH _ _ _ (GenerateFilter_built _ _ _ Hb Hl)) as (g' & c' & more & H1 & H2 & H3 & H4);
      [cbn [length]; lia | lia | rewrite length_app; cbn [length]; lia
      | rewrite length_app; cbn [length]; lia |].
    exists g', c', ([[]] ++ more). split; [done|]. split; [by rewrite H2, <- !app_assoc|].
    split; [by constructor | done].
  - exists groups, cur, []. rewrite app_nil_r. repeat split; [done | constructor | lia].
Qed.

(** Adding the blocks of a table: each starts at its offset and has its keys. *)
Definition add_block (b : FilterBlockBuilder) (block : Z * list (list byte)) : FilterBlockBuilder :=
  fold_left AddKey (snd block) (StartBlock b (fst block)).

Lemma fold_AddKey_built keys b groups cur :
  built b groups cur -> built (fold_left AddKey keys b) groups (cur ++ keys).
Proof.
  revert b cur; induction keys as [|k keys IH]; intros b cur Hb; [by rewrite app_nil_r|].
  cbn [fold_left]. apply (AddKey_built _ _ _ k) in Hb. apply IH in Hb. by rewrite <- app_assoc in Hb.
Qed.

(** [key] was added while the block at [off] was open. *)
Definition placed (groups : list (list (list byte))) (off : Z) (key : list byte) : Prop :=
  exists g, groups !! Z.to_nat (off / kFilterBase) = Some g /\ key ∈ g.

Lemma placed_app groups more off key : placed groups off key -> placed (groups ++ more) off key.
Proof. intros (g & Hg & Hk). exists g. split; [by apply lookup_app_l_Some | done]. Qed.

Lemma placed_cur groups cur keys off key :
  placed (groups ++ [cur]) off key -> placed (groups ++ [cur ++ keys]) off key.
Proof.
  intros (g & Hg & Hk). apply lookup_app_Some in Hg as [Hg|[Hl Hg]].
  - exists g. split; [by apply lookup_app_l_Some | done].
  - apply list_lookup_singleton_Some in Hg as [E ->]. exists (g ++ keys).
    split; [|by apply elem_of_app; left].
    apply lookup_app_Some. right. split; [done|]. by rewrite E.
Qed.

Fixpoint nkeys (blocks : list (Z * list (list byte))) : Z :=
  match blocks with [] => 0 | (_, keys) :: blocks => Z.of_nat (length keys) + nkeys blocks end.

Lemma nkeys_nonneg blocks : 0 <= nkeys blocks.
Proof. induction blocks as [|[o k] bs IH]; cbn [nkeys]; lia. Qed.

Lemma add_blocks_built blocks b groups cur last :
  built b groups cur -> Z.of_nat (length cur) + nkeys blocks <= limit ->
  Z.of_nat (length groups) = last / kFilterBase -> 0 <= last ->
  Sorted Z.le (last :: map fst blocks) ->
  (forall g, g ∈ groups -> Z.of_nat (length g) <= limit) ->
  exists groups' cur', built (fold_left add_block blocks b) groups' cur' /\
    Z.of_nat (length cur') <= limit /\
    (forall g, g ∈ groups' -> Z.of_nat (length g) <= limit) /\
    (forall off key, placed (groups ++ [cur]) off key -> placed (groups' ++ [cur']) off key) /\
    (forall off keys key, (off, keys) ∈ blocks -> key ∈ keys -> placed (groups' ++ [cur']) off key).
Proof.
  revert b groups cur last; induction blocks as [|[off keys] blocks IH];
    intros b groups cur last Hb Hn Hlast H0 Hs Hgl.
  { exists groups, cur. cbn [nkeys] in Hn. split; [done|]. split; [lia|]. split; [done|].
    split; [done|].
    intros off keys key Hin. by apply not_elem_of_nil in Hin. }
  cbn [nkeys map fst] in *. apply Sorted_inv in Hs as [Hs Hh]. apply HdRel_inv in Hh.
  pose proof (nkeys_nonneg blocks).
  assert (0 < kFilterBase) as Hbase by reflexivity.
  assert (last / kFilterBase <= off / kFilterBase) as Hdiv by (apply Z.div_le_mono; lia).
  destruct (start_block_loop_built (Z.to_nat (off / kFilterBase)) (off / kFilterBase) b groups cur Hb)
    as (g1 & c1 & more & H1 & H2 & H3 & H4); [lia | lia | lia | lia |].
  assert (Z.of_nat (length c1) <= Z.of_nat (length cur)) as Hc1.
  { destruct more as [|m more] using rev_ind.
    - rewrite app_nil_r in H2. apply app_inj_tail in H2 as [_ ->]. lia.
    - rewrite app_assoc in H2. apply app_inj_tail in H2 as [_ ->].
      apply List.Forall_app in H3 as [_ H3]. apply Forall_inv in H3. subst m. cbn [length]. lia. }
  assert (forall g, g ∈ g1 -> Z.of_nat (length g) <= limit) as Hgl1.
  { intros g Hg. assert (g ∈ g1 ++ [c1]) as Hin by (apply elem_of_app; by left).
    rewrite H2 in Hin. apply elem_of_app in Hin as [[Hin|Hin]%elem_of_app|Hin]; [by apply Hgl | |].
    - apply list_elem_of_singleton in Hin as ->. lia.
    - rewrite List.Forall_forall in H3. rewrite (H3 g) by (by apply list_elem_of_In). cbn [length]. lia. }
  apply (fold_AddKey_built keys) in H1.
  destruct (IH _ g1 (c1 ++ keys) off H1) as (g2 & c2 & E1 & E2 & E2' & E3 & E4);
    [rewrite length_app; lia | done | lia | done | exact Hgl1 |].
  exists g2, c2. split; [exact E1|]. split; [exact E2|]. split; [exact E2'|]. split.
  - intros o key Hp. apply E3, placed_cur. rewrite H2. by apply placed_app.
  - intros o ks key Hin Hk. apply elem_of_cons in Hin as [[= -> ->]|Hin]; [|by apply (E4 o ks)].
    apply E3. exists (c1 ++ keys). split; [|by apply elem_of_app; right].
    apply lookup_app_Some. right. split; [lia|].
    apply list_lookup_singleton_Some. split; [lia | done].
Qed.

(** ** Reading the block back *)

Lemma fold_PutFixed32 ws dst : fold_left PutFixed32 ws dst = dst ++ concat (map EncodeFixed32 ws).
Proof.
  revert dst; induction ws as [|w ws IH]; intros dst; [by rewrite app_nil_r|].
  cbn [fold_left map concat]. rewrite IH. unfold PutFixed32. by rewrite <- app_assoc.
Qed.

Lemma length_words ws : length (concat (map EncodeFixed32 ws)) = (4 * length ws)%nat.
Proof.
  induction ws as [|w ws IH]; [done|]. cbn [map concat length].
  rewrite length_app, IH, length_EncodeFixed32. lia.
Qed.

(** Word [i] of an array of words. *)
Lemma decode_word ws i w rest :
  ws !! i = Some w ->
  DecodeFixed32 (drop (4 * i) (concat (map EncodeFixed32 ws) ++ rest)) = u32 w.
Proof.
  revert i; induction ws as [|w' ws IH]; intros i Hi; [done|]. cbn [map concat].
  rewrite <- app_assoc. destruct i as [|i]; cbn in Hi.
  - injection Hi as ->. apply DecodeFixed32_app.
  - rewrite <- (IH i Hi). f_equal. replace (4 * S i)%nat with (length (EncodeFixed32 w') + 4 * i)%nat
      by (rewrite length_EncodeFixed32; lia).
    by rewrite <- drop_drop, drop_app_length.
Qed.

Lemma offs_lookup acc gs i g :
  gs !! i = Some g -> offs acc gs !! i = Some (acc + size (concat (map filt (take i gs)))).
Proof.
  revert acc i; induction gs as [|x gs IH]; intros acc i Hi; [done|].
  destruct i as [|i]; cbn in Hi |- *; [by rewrite Z.add_0_r|].
  rewrite (IH _ _ Hi), size_app. f_equal. lia.
Qed.

(** The filter array and its offsets, as [Finish] lays them out. *)
Definition filter_block (groups : list (list (list byte))) : list byte :=
  let result := concat (map filt groups) in
  result ++ concat (map EncodeFixed32 (map u32 (offs 0 groups) ++ [u32 (size result)])) ++
  [z2b kFilterBaseLg].

Lemma Finish_built b groups cur :
  built b groups cur -> Z.of_nat (length cur) <= limit ->
  Finish b = filter_block (match cur with [] => groups | _ => groups ++ [cur] end).
Proof.
  intros Hb Hl. unfold Finish, filter_block.
  assert (length (fb_start b) = length cur) as ->
    by (unfold built in Hb; rewrite Hb; cbn [fb_start]; apply length_starts).
  set (b' := if negb (Z.of_nat (length cur) =? 0) then GenerateFilter b else b).
  set (gs := match cur with [] => groups | _ => _ end).
  assert (built b' gs []) as Hb'.
  { unfold b', gs. destruct cur as [|k cur]; [done|].
    rewrite (proj2 (Z.eqb_neq _ _)) by (cbn [length]; lia). cbn [negb]. by apply GenerateFilter_built. }
  unfold built in Hb'. rewrite Hb'. cbn [fb_offsets fb_result].
  rewrite fold_PutFixed32. unfold PutFixed32.
  rewrite (map_app EncodeFixed32), concat_app. cbn [map concat].
  by rewrite app_nil_r, <- !app_assoc.
Qed.

Lemma u32_words_lookup groups i w :
  (offs 0 groups ++ [size (concat (map filt groups))]) !! i = Some w ->
  (map u32 (offs 0 groups) ++ [u32 (size (concat (map filt groups)))]) !! i = Some (u32 w).
Proof.
  intros H. change (map u32 (offs 0 groups) ++ [u32 (size (concat (map filt groups)))])
    with (map u32 (offs 0 groups) ++ map u32 [size (concat (map filt groups))]).
  rewrite <- map_app. apply list_lookup_fmap_Some. eauto.
Qed.

(** The end of group [i] is the next offset, or the start of the offsets. *)
Lemma next_offset groups i g :
  groups !! i = Some g ->
  (offs 0 groups ++ [size (concat (map filt groups))]) !! S i
  = Some (size (concat (map filt (take i groups))) + size (filt g)).
Proof.
  intros Hi. assert (take (S i) groups = take i groups ++ [g]) as Et by (by apply take_S_r).
  assert (size (concat (map filt (take (S i) groups)))
    = size (concat (map filt (take i groups))) + size (filt g)) as Es.
  { rewrite Et, map_app, concat_app, size_app. cbn [map concat]. by rewrite app_nil_r. }
  pose proof (lookup_lt_Some _ _ _ Hi). destruct (Nat.lt_ge_cases (S i) (length groups)) as [Hlt|Hge].
  - rewrite lookup_app_l by (by rewrite length_offs).
    destruct (lookup_lt_is_Some_2 groups (S i) Hlt) as [g' Hg'].
    rewrite (offs_lookup _ _ _ _ Hg'), Z.add_0_l. by rewrite Es.
  - rewrite lookup_app_r by (rewrite length_offs; lia). rewrite length_offs.
    replace (S i - length groups)%nat with O by lia. cbn. rewrite <- Es.
    by rewrite take_ge by lia.
Qed.

Lemma concat_split groups i g :
  groups !! i = Some g ->
  concat (map filt groups)
  = concat (map filt (take i groups)) ++ filt g ++ concat (map filt (drop (S i) groups)).
Proof.
  intros Hi. rewrite <- (take_drop_middle groups i g Hi) at 1.
  by rewrite map_app, concat_app.
Qed.

Lemma filter_block_match groups off key :
  placed groups off key -> 0 <= off -> size (filter_block groups) < 2 ^ 32 ->
  (forall g, g ∈ groups -> Z.of_nat (length g) <= limit) ->
  block_KeyMayMatch (new_FilterBlockReader (filter_block groups)) off key = true.
Proof.
  intros (g & Hg & Hk) Hoff Hsz Hlim. set (i := Z.to_nat (off / kFilterBase)) in *.
  pose proof (lookup_lt_Some _ _ _ Hg) as Hi.
  set (R := concat (map filt groups)).
  set (ws := map u32 (offs 0 groups) ++ [u32 (size R)]).
  assert (length ws = S (length groups)) as Hws.
  { unfold ws. rewrite length_app, length_map, length_offs. cbn [length]. lia. }
  assert (filter_block groups = R ++ concat (map EncodeFixed32 ws) ++ [z2b kFilterBaseLg]) as Ef by done.
  assert (size (filter_block groups) = size R + 4 * Z.of_nat (length groups) + 5) as En.
  { rewrite Ef, !size_app. unfold size at 2 3. rewrite length_words, Hws. cbn [length]. lia. }
  pose proof (size_nonneg R) as HR.
  unfold new_FilterBlockReader. rewrite En.
  rewrite (proj2 (Z.ltb_ge _ _)) by lia.
  replace (nth (Z.to_nat (size R + 4 * Z.of_nat (length groups) + 5 - 1)) (filter_block groups) x00)
    with (z2b kFilterBaseLg).
  2: { rewrite Ef, app_assoc, app_nth2 by (rewrite length_app, length_words, Hws; unfold size; lia).
       rewrite length_app, length_words, Hws.
       replace (_ - _)%nat with O by (unfold size; lia). done. }
  assert (DecodeFixed32 (drop (Z.to_nat (size R + 4 * Z.of_nat (length groups) + 5 - 5)) (filter_block groups))
    = size R) as Elast.
  { rewrite Ef. replace (Z.to_nat _) with (length R + 4 * length groups)%nat by (unfold size; lia).
    rewrite <- drop_drop, drop_app_length, (decode_word _ _ (u32 (size R))).
    - rewrite u32_small by apply u32_bound. apply u32_small. lia.
    - unfold ws. rewrite lookup_app_r by (rewrite length_map, length_offs; lia).
      rewrite length_map, length_offs, Nat.sub_diag. done. }
  rewrite Elast. destruct (Z.gtb_spec (size R) (size R + 4 * Z.of_nat (length groups) + 5 - 5)); [lia|].
  change (u64 (sx 8 (b2z (z2b kFilterBaseLg)))) with 11.
  unfold block_KeyMayMatch. cbn [fr_data fr_offset fr_num fr_base_lg].
  rewrite Z.shiftr_div_pow2 by lia. change (2 ^ 11) with kFilterBase.
  assert (0 <= off / kFilterBase) as Hq by (apply Z.div_pos; [lia | reflexivity]).
  replace (size R + 4 * Z.of_nat (length groups) + 5 - 5 - size R)
    with (Z.of_nat (length groups) * 4) by lia.
  rewrite Z.div_mul by lia.
  rewrite (proj2 (Z.ltb_lt (off / kFilterBase) _)) by lia.
  set (s := size (concat (map filt (take i groups)))).
  pose proof (size_nonneg (concat (map filt (take i groups)))) as Hs0. fold s in Hs0.
  pose proof (size_nonneg (filt g)) as Hf0.
  assert (s + size (filt g) <= size R) as HsR.
  { unfold R. rewrite (concat_split groups i g Hg), !size_app. fold s.
    pose proof (size_nonneg (concat (map filt (drop (S i) groups)))). lia. }
  assert (DecodeFixed32 (drop (Z.to_nat (size R + off / kFilterBase * 4)) (filter_block groups)) = s) as E1.
  { rewrite Ef. replace (Z.to_nat _) with (length R + 4 * i)%nat by (unfold size, i; lia).
    rewrite <- drop_drop, drop_app_length, (decode_word _ _ (u32 s)).
    - rewrite u32_small by apply u32_bound. apply u32_small. lia.
    - apply u32_words_lookup. rewrite lookup_app_l by (by rewrite length_offs).
      by rewrite (offs_lookup _ _ _ _ Hg), Z.add_0_l. }
  assert (DecodeFixed32 (drop (Z.to_nat (size R + off / kFilterBase * 4 + 4)) (filter_block groups))
    = s + size (filt g)) as E2.
  { rewrite Ef. replace (Z.to_nat _) with (length R + 4 * S i)%nat by (unfold size, i; lia).
    rewrite <- drop_drop, drop_app_length, (decode_word _ _ (u32 (s + size (filt g)))).
    - rewrite u32_small by apply u32_bound. apply u32_small. lia.
    - apply u32_words_lookup. by apply next_offset. }
  rewrite E1, E2. rewrite (proj2 (Z.leb_le s _)), (proj2 (Z.leb_le _ (size R))) by lia. cbn [andb].
  replace (s + size (filt g) - s) with (size (filt g)) by lia.
  assert (take (Z.to_nat (size (filt g))) (drop (Z.to_nat s) (filter_block groups)) = filt g) as ->.
  { rewrite Ef. unfold R. rewrite (concat_split groups i g Hg), <- !app_assoc. unfold s.
    by rewrite drop_size_app, take_size_app. }
  destruct g as [|k g]; [by apply not_elem_of_nil in Hk|]. cbn [filt].
  apply create_matches; [|done]. apply Hlim. by apply list_elem_of_lookup_2 in Hg.
Qed.

(** A finished filter block matches the keys of its blocks. *)
Lemma filter_block_matches (blocks : list (Z * list (list byte))) off keys key :
  let contents := Finish (fold_left add_block blocks new_FilterBlockBuilder) in
  Sorted Z.le (0 :: map fst blocks) -> nkeys blocks <= limit -> size contents < 2 ^ 32 ->
  (off, keys) ∈ blocks -> key ∈ keys ->
  block_KeyMayMatch (new_FilterBlockReader contents) off key = true.
Proof.
  intros contents Hs Hn Hsz Hin Hk. pose proof (nkeys_nonneg blocks).
  destruct (add_blocks_built blocks new_FilterBlockBuilder [] [] 0) as (gs & cur & E1 & E2 & E3 & _ & E4);
    [done | cbn [length]; lia | done | lia | done | by intros g Hg%not_elem_of_nil |].
  specialize (E4 off keys key Hin Hk).
  unfold contents in *. rewrite (Finish_built _ gs cur E1 E2) in *.
  assert (0 <= off) as Hoff.
  { apply Sorted_extends in Hs; [|intros ? ? ?; lia]. rewrite List.Forall_forall in Hs.
    apply Hs, in_map_iff. exists (off, keys). split; [done|]. by apply list_elem_of_In. }
  apply filter_block_match; try done.
  - destruct cur as [|k cur]; [|done]. destruct E4 as (g & Hg & Hkg).
    exists g. split; [|done]. apply lookup_app_Some in Hg as [Hg|[_ Hg]]; [done|].
    apply list_lookup_singleton_Some in Hg as [_ <-]. by apply not_elem_of_nil in Hkg.
  - destruct cur as [|k cur]; [done|]. intros g [Hg|Hg]%elem_of_app; [by apply E3|].
    by apply list_elem_of_singleton in Hg as ->.
Qed.
(** C33: a filter block never rejects a key that is there: for any policy that
    keeps the contract, when blocks are started at non-decreasing offsets and the
    keys of each are added, the finished filter block, read back, matches every
    key at the offset of its block. *)
Theorem filter_block_no_miss (blocks : list (Z * list (list byte))) off keys key :
  let contents := Finish (fold_left add_block blocks new_FilterBlockBuilder) in
  Sorted Z.le (0 :: map fst blocks) -> nkeys blocks <= limit -> size contents < 2 ^ 32 ->
  (off, keys) ∈ blocks -> key ∈ keys ->
  block_KeyMayMatch (new_FilterBlockReader contents) off key = true.
Proof. apply filter_block_matches. Qed.
End FilterBlockProofs.

Lemma filter_block_no_miss_witness :
  let policy := bloom_policy (new_BloomFilterPolicy 10) in
  let blocks := [(0, [[x61]; [x62]]); (5000, [[x63; x64]])] in
  @block_KeyMayMatch policy
    (new_FilterBlockReader (@Finish policy (fold_left (@add_block policy) blocks new_FilterBlockBuilder)))
    5000 [x63; x64] = true.
Proof.
  cbv zeta.
  refine (@filter_block_no_miss 1000 _ (bloom_laws (new_BloomFilterPolicy 10) 1000 _ _ _ _)
    [(0, [[x61]; [x62]]); (5000, [[x63; x64]])] 5000 [[x63; x64]] [x63; x64] _ _ _ _ _).
  - apply new_bloom_k.
  - reflexivity || (vm_compute; discriminate).
  - lia.
  - vm_compute; reflexivity.
  - cbn [map fst]. repeat (apply Sorted_cons; [|first [apply HdRel_nil | apply HdRel_cons; lia]]).
    apply Sorted_nil.
  - vm_compute; discriminate.
  - vm_compute; reflexivity.
  - right. left.
  - left.
Defined.
