(* ===== verification/LdbSkiplist.v ===== *)
(** leveldb: the skip list (db/skiplist.h) and its random numbers
    (util/random.h).

    Nodes live in a store and are named by their index; node 0 is [head_].  A read
    of a node or of a link that is not there (undefined behaviour in the code) is
    [None], as is running out of fuel; the theorems give results, so neither
    happens.

    [holds s ks]: the list [s] contains the keys [ks], in order.
    [skiplist_insert]: inserting puts a key in its place.  [skiplist_search]: the
    searches and the iterator operations are those of the ordered list of keys.
    [insert_published]: at every step of an insertion a search sees the list
    with or without the new key.  [random_next]: the generator is
    multiplication modulo [2 ^ 31 - 1]. *)

From Stdlib Require Import Sorting.Sorted.
From S2P Require Import Prelude.
Open Scope Z_scope.

(** * Random *)

Definition Random := Z.

Definition new_Random (s : Z) : Random :=
  let seed := Z.land s 0x7fffffff in
  if (seed =? 0) || (seed =? 2147483647) then 1 else seed.

(** The number and the new seed are the same value. *)
Definition rnd_Next (seed : Random) : Random :=
  let M := 2147483647 in
  let A := 16807 in
  let product := u64 (seed * A) in
  let seed := u32 (Z.shiftr product 31 + Z.land product M) in
  if seed >? M then u32 (seed - M) else seed.

Definition Uniform (seed : Random) (n : Z) : Z * Random :=
  let r := rnd_Next seed in (r mod u32 n, r).
Definition OneIn (seed : Random) (n : Z) : bool * Random :=
  let r := rnd_Next seed in (r mod u32 n =? 0, r).
Definition Skewed (seed : Random) (max_log : Z) : Z * Random :=
  let '(k, seed) := Uniform seed (max_log + 1) in Uniform seed (Z.shiftl 1 k).

(** * The list *)

Definition kMaxHeight : nat := 12.

Section SkipList.
Context {Key : Type} (compare : Key -> Key -> Z).

(** [next] has as many links as the node is high; [head_] has no key. *)
Record Node := mk_node { node_key : option Key; node_next : list (option nat) }.

Record SkipList := mk_sl { sl_nodes : list Node; sl_max_height : nat; sl_rnd : Random }.

Definition head_ : nat := 0.

Definition new_SkipList : SkipList :=
  mk_sl [mk_node None (replicate kMaxHeight None)] 1 (new_Random 0xdeadbeef).

(** [x->Next(n)]: [None] when there is no such link. *)
Definition Next (s : SkipList) (x n : nat) : option (option nat) :=
  nd ← sl_nodes s !! x; node_next nd !! n.

Definition set_nodes (s : SkipList) (nodes : list Node) : SkipList :=
  mk_sl nodes (sl_max_height s) (sl_rnd s).

Definition SetNext (s : SkipList) (x n : nat) (y : option nat) : option SkipList :=
  nd ← sl_nodes s !! x;
  if (n <? length (node_next nd))%nat
  then Some (set_nodes s (<[x := mk_node (node_key nd) (<[n := y]> (node_next nd))]> (sl_nodes s)))
  else None.

(** The key of a node other than [head_]. *)
Definition key_of (s : SkipList) (x : nat) : option Key :=
  nd ← sl_nodes s !! x; node_key nd.

Fixpoint random_height_loop (fuel : nat) (height : nat) (rnd : Random) : nat * Random :=
  match fuel with
  | O => (height, rnd)
  | S fuel =>
      if (height <? kMaxHeight)%nat then
        let rnd := rnd_Next rnd in
        if rnd mod 4 =? 0 then random_height_loop fuel (S height) rnd else (height, rnd)
      else (height, rnd)
  end.

Definition RandomHeight (rnd : Random) : nat * Random := random_height_loop kMaxHeight 1 rnd.

Definition KeyIsAfterNode (s : SkipList) (key : Key) (n : option nat) : option bool :=
  match n with
  | None => Some false
  | Some n => k ← key_of s n; Some (compare k key <? 0)
  end.

Fixpoint find_ge_loop (fuel : nat) (s : SkipList) (key : Key) (prev : list (option nat))
    (x level : nat) : option (option nat * list (option nat)) :=
  match fuel with
  | O => None
  | S fuel =>
      next ← Next s x level;
      after ← KeyIsAfterNode s key next;
      if (after : bool) then
        y ← next; find_ge_loop fuel s key prev y level
      else
        let prev := <[level := Some x]> prev in
        match level with
        | O => Some (next, prev)
        | S level => find_ge_loop fuel s key prev x level
        end
  end.

(** Each step moves forward or down. *)
Definition search_fuel (s : SkipList) : nat := length (sl_nodes s) + sl_max_height s.

(** The node found, and [prev]. *)
Definition FindGreaterOrEqual (s : SkipList) (key : Key)
  : option (option nat * list (option nat)) :=
  find_ge_loop (search_fuel s) s key (replicate kMaxHeight None) head_ (pred (sl_max_height s)).

Fixpoint find_lt_loop (fuel : nat) (s : SkipList) (key : Key) (x level : nat) : option nat :=
  match fuel with
  | O => None
  | S fuel =>
      next ← Next s x level;
      stop ← match next with
             | None => Some true
             | Some y => k ← key_of s y; Some (compare k key >=? 0)
             end;
      if (stop : bool) then
        match level with O => Some x | S level => find_lt_loop fuel s key x level end
      else y ← next; find_lt_loop fuel s key y level
  end.

Definition FindLessThan (s : SkipList) (key : Key) : option nat :=
  find_lt_loop (search_fuel s) s key head_ (pred (sl_max_height s)).

Fixpoint find_last_loop (fuel : nat) (s : SkipList) (x level : nat) : option nat :=
  match fuel with
  | O => None
  | S fuel =>
      next ← Next s x level;
      match next with
      | None => match level with O => Some x | S level => find_last_loop fuel s x level end
      | Some y => find_last_loop fuel s y level
      end
  end.

Definition FindLast (s : SkipList) : option nat :=
  find_last_loop (search_fuel s) s head_ (pred (sl_max_height s)).

(** ** Insert *)

(** [prev[i] = head_] for [max_height_ <= i < height]. *)
Fixpoint fill_prev (n i : nat) (prev : list (option nat)) : list (option nat) :=
  match n with O => prev | S n => fill_prev n (S i) (<[i := Some head_]> prev) end.

Definition NewNode (s : SkipList) (key : Key) (height : nat) : nat * SkipList :=
  (length (sl_nodes s),
   set_nodes s (sl_nodes s ++ [mk_node (Some key) (replicate height None)])).

(** One iteration of the linking loop: two stores. *)
Definition link (s : SkipList) (prev : list (option nat)) (x i : nat) : option SkipList :=
  p ← prev !! i; p ← p;
  n ← Next s p i;
  s ← SetNext s x i n;
  SetNext s p i (Some x).

(** Levels [i] to [i + n - 1]. *)
Fixpoint link_loop (n i : nat) (s : SkipList) (prev : list (option nat)) (x : nat) : option SkipList :=
  match n with
  | O => Some s
  | S n => s ← link s prev x i; link_loop n (S i) s prev x
  end.

(** The list before the linking loop, the node, its height and [prev]. *)
Definition insert_prepare (s : SkipList) (key : Key)
  : option (SkipList * nat * nat * list (option nat)) :=
  '(_, prev) ← FindGreaterOrEqual s key;
  let '(height, rnd) := RandomHeight (sl_rnd s) in
  let s := mk_sl (sl_nodes s) (sl_max_height s) rnd in
  let '(s, prev) :=
    if (sl_max_height s <? height)%nat
    then (mk_sl (sl_nodes s) height (sl_rnd s),
          fill_prev (height - sl_max_height s) (sl_max_height s) prev)
    else (s, prev) in
  let '(x, s) := NewNode s key height in
  Some (s, x, height, prev).

Definition Insert (s : SkipList) (key : Key) : option SkipList :=
  '(s, x, height, prev) ← insert_prepare s key;
  link_loop height 0 s prev x.

Definition Contains (s : SkipList) (key : Key) : option bool :=
  '(x, _) ← FindGreaterOrEqual s key;
  match x with
  | None => Some false
  | Some x => k ← key_of s x; Some (compare key k =? 0)
  end.

(** ** Iterator: [node_] *)

Definition sl_Iterator := option nat.

Definition new_Iterator : sl_Iterator := None.
Definition iter_Valid (it : sl_Iterator) : bool := match it with Some _ => true | None => false end.
Definition iter_key (s : SkipList) (it : sl_Iterator) : option Key := x ← it; key_of s x.
Definition iter_Next (s : SkipList) (it : sl_Iterator) : option sl_Iterator := x ← it; Next s x 0.
Definition iter_Prev (s : SkipList) (it : sl_Iterator) : option sl_Iterator :=
  k ← iter_key s it;
  n ← FindLessThan s k;
  Some (if (n =? head_)%nat then None else Some n).
Definition iter_Seek (s : SkipList) (target : Key) : option sl_Iterator :=
  '(n, _) ← FindGreaterOrEqual s target; Some n.
Definition iter_SeekToFirst (s : SkipList) : option sl_Iterator := Next s head_ 0.
Definition iter_SeekToLast (s : SkipList) : option sl_Iterator :=
  n ← FindLast s; Some (if (n =? head_)%nat then None else Some n).
End SkipList.

Arguments Node : clear implicits.
Arguments SkipList : clear implicits.

(** * Random numbers *)

Definition rnd_ok (seed : Z) : Prop := 1 <= seed < 2 ^ 31 - 1.

Lemma rnd_Next_eq seed :
  rnd_ok seed -> rnd_Next seed = seed * 16807 mod (2 ^ 31 - 1) /\ rnd_ok (rnd_Next seed).
Proof.
  unfold rnd_ok, rnd_Next. intros Hs. cbv zeta. rewrite (u64_small (seed * 16807)) by lia.
  change 2147483647 with (Z.ones 31). rewrite Z.land_ones, Z.shiftr_div_pow2 by lia.
  change (Z.ones 31) with (2 ^ 31 - 1).
  set (p := seed * 16807).
  assert (0 < p < 16807 * (2 ^ 31 - 1)) as Hp by (unfold p; lia).
  pose proof (Z.div_mod p (2 ^ 31) ltac:(lia)) as Hd.
  pose proof (Z.mod_pos_bound p (2 ^ 31) ltac:(lia)) as Hm.
  assert (0 <= p / 2 ^ 31 < 16807) as Hq.
  { split; [apply Z.div_pos; lia | apply Z.div_lt_upper_bound; lia]. }
  set (q := p / 2 ^ 31) in *. set (m := p mod 2 ^ 31) in *.
  rewrite (u32_small (q + m)) by lia.
  (* 2 ^ 31 - 1 is prime to 16807 and to the seed, so the sum is no multiple of it *)
  assert (p mod (2 ^ 31 - 1) <> 0) as Hne.
  { intros E. apply Z.mod_divide in E as [k Hk]; [|lia]. unfold p in Hk.
    assert ((2 ^ 31 - 1 | seed)) as [j Hj]; [|nia].
    apply (Z.gauss _ 16807); [exists k; lia | reflexivity]. }
  assert (p = (q + m) + q * (2 ^ 31 - 1)) as Ep by lia.
  assert (p mod (2 ^ 31 - 1) = (q + m) mod (2 ^ 31 - 1)) as Em by (rewrite Ep; apply Z_mod_plus_full).
  rewrite Em in *.
  destruct (Z.gtb_spec (q + m) (2 ^ 31 - 1)).
  - rewrite u32_small by lia.
    assert ((q + m) mod (2 ^ 31 - 1) = q + m - (2 ^ 31 - 1)) as ->.
    { symmetry. apply (Z.mod_unique _ _ 1); lia. }
    split; [done | lia].
  - assert (q + m <> 2 ^ 31 - 1) by (intros E; rewrite E, Z.mod_same in Hne by lia; lia).
    rewrite Z.mod_small by lia.
    assert (q + m <> 0) by (intros E; rewrite E in Hne; by rewrite Z.mod_0_l in Hne by lia). lia.
Qed.

(** The generator is the one it is documented to be: from a seed in
    [1, 2 ^ 31 - 2] the next value is the seed times 16807 modulo the prime
    [2 ^ 31 - 1], computed without division, and it stays in that range (never
    zero, which would stay zero). *)
Theorem random_next seed :
  1 <= seed < 2 ^ 31 - 1 ->
  rnd_Next seed = seed * 16807 mod (2 ^ 31 - 1) /\ 1 <= rnd_Next seed < 2 ^ 31 - 1.
Proof. apply rnd_Next_eq. Qed.

Lemma random_next_witness : rnd_Next 2147483646 = 2147483646 * 16807 mod (2 ^ 31 - 1).
Proof. exact (proj1 (random_next 2147483646 ltac:(lia))). Defined.

Lemma random_height_bound fuel h rnd :
  (1 <= h <= kMaxHeight)%nat -> (1 <= fst (random_height_loop fuel h rnd) <= kMaxHeight)%nat.
Proof.
  revert h rnd; induction fuel as [|fuel IH]; intros h rnd Hh; [done|].
  cbn [random_height_loop]. destruct (Nat.ltb_spec h kMaxHeight); [|done].
  destruct (_ =? 0); [apply IH; lia | done].
Qed.

(** * Lists of nodes *)

(** The first node of [l] that is higher than [i]. *)
Definition above (hgt : nat -> nat) (i : nat) (l : list nat) : option nat :=
  find (fun y => (i <? hgt y)%nat) l.

Lemma above_app hgt i l1 l2 :
  above hgt i (l1 ++ l2) = match above hgt i l1 with Some y => Some y | None => above hgt i l2 end.
Proof. unfold above. induction l1 as [|x l1 IH]; [done|]. cbn [app find]. destruct (i <? hgt x)%nat; [done | exact IH]. Qed.

Lemma above_Some hgt i l y :
  above hgt i l = Some y ->
  exists l1 l2, l = l1 ++ y :: l2 /\ (i < hgt y)%nat /\ above hgt i l1 = None.
Proof.
  unfold above. induction l as [|x l IH]; [done|]. cbn [find]. destruct (Nat.ltb_spec i (hgt x)).
  - intros [= ->]. by exists [], l.
  - intros E. destruct (IH E) as (l1 & l2 & -> & H1 & H2). exists (x :: l1), l2.
    split; [done|]. split; [done|]. cbn [find]. by rewrite (proj2 (Nat.ltb_ge _ _)).
Qed.

Lemma above_None hgt i l : above hgt i l = None <-> forall y, y ∈ l -> (hgt y <= i)%nat.
Proof.
  unfold above. induction l as [|x l IH]; cbn [find].
  { split; [|done]. intros _ y Hy. by apply not_elem_of_nil in Hy. }
  destruct (Nat.ltb_spec i (hgt x)).
  - split; [done|]. intros Hall. specialize (Hall x ltac:(left)). lia.
  - rewrite IH. split.
    + intros Hall y [->|Hy]%elem_of_cons; [done | by apply Hall].
    + intros Hall y Hy. apply Hall. by right.
Qed.

Lemma above_ext hgt hgt' i l :
  (forall y, y ∈ l -> (i <? hgt y)%nat = (i <? hgt' y)%nat) -> above hgt i l = above hgt' i l.
Proof.
  unfold above. induction l as [|x l IH]; intros Hx; [done|]. cbn [find]. rewrite (Hx x) by left.
  rewrite IH; [done|]. intros y Hy. apply Hx. by right.
Qed.

(** Two ways of picking an element of the same list. *)
Lemma split_cases {A} (l1 m1 : list A) z p l2 m2 :
  l1 ++ z :: l2 = m1 ++ p :: m2 -> (l1 = m1 /\ z = p /\ l2 = m2) \/ p ∈ l2 \/ z ∈ m2.
Proof.
  revert m1; induction l1 as [|x l1 IH]; intros [|y m1]; cbn; intros [= -> E].
  - by left.
  - subst. right; left. apply elem_of_app. right. left.
  - subst. right; right. apply elem_of_app. right. left.
  - apply IH in E as [(-> & -> & ->)|[?|?]]; auto.
Qed.

Lemma split_unique {A} (l1 m1 : list A) z l2 m2 :
  NoDup (l1 ++ z :: l2) -> l1 ++ z :: l2 = m1 ++ z :: m2 -> l1 = m1 /\ l2 = m2.
Proof.
  intros Hnd E. pose proof Hnd as Hnd'. rewrite E in Hnd'.
  apply list.NoDup_app in Hnd as (_ & _ & Hz%list.NoDup_cons_1_1).
  apply list.NoDup_app in Hnd' as (_ & _ & Hz'%list.NoDup_cons_1_1).
  by apply split_cases in E as [(-> & _ & ->)|[?|?]].
Qed.

(** An element of a list, seen from another. *)
Lemma split_around {A} (l m : list A) n l1 z l2 :
  l ++ n :: m = l1 ++ z :: l2 -> z <> n ->
  (exists x2, l = l1 ++ z :: x2 /\ l2 = x2 ++ n :: m) \/ (exists y1, m = y1 ++ z :: l2 /\ l1 = l ++ n :: y1).
Proof.
  revert l1; induction l as [|x l IH]; intros [|y l1] E Hne; cbn in E; injection E as -> E.
  - done.
  - right. by exists l1.
  - left. by exists l.
  - apply IH in E as [(x2 & -> & ->)|(y1 & -> & ->)]; [left; by exists x2 | right; by exists y1 | done].
Qed.

(** * The invariant *)

Class KeyOrder {Key : Type} (valid : Key -> Prop) (compare : Key -> Key -> Z) : Prop := {
  ko_sgn a b : valid a -> valid b -> Z.sgn (compare a b) = - Z.sgn (compare b a);
  ko_lt_le a b c : valid a -> valid b -> valid c ->
    compare a b < 0 -> compare b c <= 0 -> compare a c < 0;
  ko_le_lt a b c : valid a -> valid b -> valid c ->
    compare a b <= 0 -> compare b c < 0 -> compare a c < 0;
}.

Section Correct.
Context {Key : Type} {compare : Key -> Key -> Z} {valid : Key -> Prop}.
Context {order : KeyOrder valid compare}.

Definition has_key (s : SkipList Key) (x : nat) (k : Key) : Prop := key_of s x = Some k /\ valid k.

(** [L]: the nodes in order; [hgt]: how many links of each are in use (a node
    being inserted is higher than it is linked). *)
Record sl_inv (s : SkipList Key) (L : list nat) (ks : list Key) (hgt : nat -> nat) : Prop := {
  inv_nodup : NoDup (head_ :: L);
  inv_node x : x ∈ head_ :: L ->
    exists nd, sl_nodes s !! x = Some nd /\ (hgt x <= length (node_next nd))%nat;
  inv_keys : Forall2 (has_key s) L ks;
  inv_head : hgt head_ = kMaxHeight;
  inv_links l1 x l2 i :
    head_ :: L = l1 ++ x :: l2 -> (i < hgt x)%nat -> Next s x i = Some (above hgt i l2);
  inv_sorted : StronglySorted (fun a b => compare a b < 0) ks;
  inv_max : (1 <= sl_max_height s <= kMaxHeight)%nat;
  inv_high x : x ∈ L -> (hgt x <= sl_max_height s)%nat;
}.

(** A target key cuts the list in two. *)
Record cut_at (s : SkipList Key) (k : Key) (A B : list nat) (ka kb : list Key) : Prop := {
  cut_A : Forall2 (has_key s) A ka;
  cut_B : Forall2 (has_key s) B kb;
  cut_lt : Forall (fun x => compare x k < 0) ka;
  cut_ge : Forall (fun x => 0 <= compare x k) kb;
}.

Lemma sorted_cut k ks :
  valid k -> Forall valid ks -> StronglySorted (fun a b => compare a b < 0) ks ->
  exists ka kb, ks = ka ++ kb /\ Forall (fun x => compare x k < 0) ka /\
    Forall (fun x => 0 <= compare x k) kb.
Proof.
  intros Hk. induction ks as [|x ks IH]; intros Hv Hs.
  { exists [], []. by repeat split. }
  apply List.Forall_cons_iff in Hv as [Hx Hv]. apply StronglySorted_inv in Hs as [Hs Hxs].
  destruct (Z.lt_ge_cases (compare x k) 0) as [Hlt|Hge].
  - destruct (IH Hv Hs) as (ka & kb & -> & Ha & Hb). exists (x :: ka), kb.
    split; [done|]. split; [by constructor | done].
  - exists [], (x :: ks). split; [done|]. split; [constructor|]. constructor; [done|].
    apply List.Forall_forall. intros y Hy. rewrite List.Forall_forall in Hxs, Hv.
    specialize (Hxs y Hy). specialize (Hv y Hy).
    destruct (Z.lt_ge_cases (compare y k) 0) as [Hyk|]; [|done].
    pose proof (ko_lt_le x y k Hx Hv Hk Hxs ltac:(lia)). lia.
Qed.

Lemma Forall2_valid s L ks : Forall2 (has_key s) L ks -> Forall valid ks.
Proof. induction 1 as [|x k L ks [_ Hv] _ IH]; by constructor. Qed.

Lemma cut_exists s L ks hgt k :
  sl_inv s L ks hgt -> valid k ->
  exists A B ka kb, L = A ++ B /\ ks = ka ++ kb /\ cut_at s k A B ka kb.
Proof.
  intros Hi Hk. destruct (sorted_cut k ks Hk (Forall2_valid _ _ _ (inv_keys _ _ _ _ Hi))
    (inv_sorted _ _ _ _ Hi)) as (ka & kb & -> & Ha & Hb).
  pose proof (inv_keys _ _ _ _ Hi) as HF. apply Forall2_app_inv_r in HF as (A & B & HA & HB & ->).
  exists A, B, ka, kb. by repeat split.
Qed.

Lemma Forall2_elem s A ka x :
  Forall2 (has_key s) A ka -> x ∈ A -> exists k, k ∈ ka /\ key_of s x = Some k /\ valid k.
Proof.
  intros H Hx. apply list_elem_of_lookup in Hx as [i Hi].
  destruct (Forall2_lookup_l _ _ _ _ _ H Hi) as (k & Hk & Hkey & Hv).
  exists k. split; [by apply list_elem_of_lookup_2 in Hk | done].
Qed.

Lemma key_A s k A B ka kb x :
  cut_at s k A B ka kb -> x ∈ A -> exists kx, key_of s x = Some kx /\ compare kx k < 0.
Proof.
  intros [HA _ Hlt _] Hx. destruct (Forall2_elem _ _ _ _ HA Hx) as (kx & Hin & Hkey & _).
  exists kx. split; [done|]. rewrite List.Forall_forall in Hlt. apply Hlt. by apply list_elem_of_In.
Qed.

Lemma key_B s k A B ka kb x :
  cut_at s k A B ka kb -> x ∈ B -> exists kx, key_of s x = Some kx /\ 0 <= compare kx k.
Proof.
  intros [_ HB _ Hge] Hx. destruct (Forall2_elem _ _ _ _ HB Hx) as (kx & Hin & Hkey & _).
  exists kx. split; [done|]. rewrite List.Forall_forall in Hge. apply Hge. by apply list_elem_of_In.
Qed.

(** [p] is the last of [head_ :: A] that is higher than [i]. *)
Definition last_at (hgt : nat -> nat) (A : list nat) (i p : nat) : Prop :=
  exists m1 m2, head_ :: A = m1 ++ p :: m2 /\ (i < hgt p)%nat /\ above hgt i m2 = None.

Lemma tail_elem A l1 x l2 y : head_ :: A = l1 ++ x :: l2 -> y ∈ l2 -> y ∈ A.
Proof.
  intros E Hy. destruct l1 as [|z l1]; cbn in E; injection E as _ E; subst A; [done|].
  apply elem_of_app. right. by right.
Qed.

(** What a search step sees. *)
Lemma next_in_cut s A B ks hgt l1 x l2 level :
  sl_inv s (A ++ B) ks hgt -> head_ :: A = l1 ++ x :: l2 -> (level < hgt x)%nat ->
  Next s x level = Some (match above hgt level l2 with Some y => Some y | None => above hgt level B end).
Proof.
  intros Hi E Hl. rewrite <- above_app. apply (inv_links _ _ _ _ Hi l1); [|done].
  transitivity ((l1 ++ x :: l2) ++ B); [exact (f_equal (fun l => l ++ B) E) | by rewrite <- app_assoc].
Qed.

(** The search for the first node not below [k]. *)
Lemma find_ge_ok s A B ka kb hgt k fuel prev l1 x l2 level :
  sl_inv s (A ++ B) (ka ++ kb) hgt -> cut_at s k A B ka kb ->
  head_ :: A = l1 ++ x :: l2 -> (level < hgt x)%nat -> (level < length prev)%nat ->
  (length l2 + level < fuel)%nat ->
  exists prev', find_ge_loop compare fuel s k prev x level = Some (above hgt 0 B, prev') /\
    length prev' = length prev /\
    (forall i, (i <= level)%nat -> exists p, prev' !! i = Some (Some p) /\ last_at hgt A i p) /\
    (forall i, (level < i)%nat -> prev' !! i = prev !! i).
Proof.
  intros Hi Hc. revert prev l1 x l2 level.
  induction fuel as [|fuel IH]; intros prev l1 x l2 level E Hl Hp Hf; [lia|].
  cbn [find_ge_loop]. rewrite (next_in_cut s A B _ hgt l1 x l2 level Hi E Hl). cbn [mbind option_bind].
  destruct (above hgt level l2) as [y|] eqn:Ey.
  - apply above_Some in Ey as (m1 & m2 & -> & Hy & _).
    destruct (key_A s k A B ka kb y Hc) as (ky & Hky & Hlt).
    { apply (tail_elem A l1 x (m1 ++ y :: m2)); [done|]. apply elem_of_app. right. left. }
    unfold KeyIsAfterNode. rewrite Hky. cbn [mbind option_bind].
    rewrite (proj2 (Z.ltb_lt _ _)) by done. cbn [mbind option_bind].
    apply (IH prev (l1 ++ x :: m1) y m2); try done.
    + by rewrite E, <- app_assoc.
    + rewrite length_app in Hf. cbn [length] in Hf. lia.
  - assert (KeyIsAfterNode compare s k (above hgt level B) = Some false) as ->.
    { destruct (above hgt level B) as [y|] eqn:Eb; [|done].
      apply above_Some in Eb as (m1 & m2 & EB & _).
      destruct (key_B s k A B ka kb y Hc) as (ky & Hky & Hge).
      { rewrite EB. apply elem_of_app. right. left. }
      cbn [KeyIsAfterNode]. rewrite Hky. cbn [mbind option_bind].
      by rewrite (proj2 (Z.ltb_ge _ _)). }
    cbn [mbind option_bind].
    assert (last_at hgt A level x) as Hlast by (exists l1, l2; done).
    destruct level as [|level].
    + eexists. split; [reflexivity|]. split; [apply length_insert|]. split.
      * intros i Hi0. assert (i = 0)%nat as -> by lia. exists x. split; [|done].
        by apply list_lookup_insert_eq.
      * intros i Hi0. apply list_lookup_insert_ne. lia.
    + destruct (IH (<[S level := Some x]> prev) l1 x l2 level E) as (prev' & -> & Hlen & Hle & Hgt);
        [lia | rewrite length_insert; lia | lia |].
      exists prev'. rewrite length_insert in Hlen. split; [done|]. split; [done|]. split.
      * intros i Hi0. destruct (Nat.eq_dec i (S level)) as [->|Hne].
        -- exists x. split; [|done]. rewrite Hgt by lia. by apply list_lookup_insert_eq.
        -- apply Hle. lia.
      * intros i Hi0. rewrite Hgt by lia. apply list_lookup_insert_ne. lia.
Qed.

(** There are at least as many nodes in the store as in the list. *)
Lemma length_nodes s L ks hgt : sl_inv s L ks hgt -> (length L < length (sl_nodes s))%nat.
Proof.
  intros Hi. pose proof (inv_nodup _ _ _ _ Hi) as Hnd.
  assert (head_ :: L ⊆+ seq 0 (length (sl_nodes s))) as Hsub.
  { apply NoDup_submseteq; [done|]. intros x Hx.
    destruct (inv_node _ _ _ _ Hi x Hx) as (nd & Hnd' & _).
    apply lookup_lt_Some in Hnd'. apply elem_of_seq. lia. }
  apply submseteq_length in Hsub. rewrite length_seq in Hsub. cbn [length] in Hsub. lia.
Qed.

Lemma FindGreaterOrEqual_ok s A B ka kb hgt k :
  sl_inv s (A ++ B) (ka ++ kb) hgt -> cut_at s k A B ka kb ->
  exists prev, FindGreaterOrEqual compare s k = Some (above hgt 0 B, prev) /\
    length prev = kMaxHeight /\
    forall i, (i < sl_max_height s)%nat -> exists p, prev !! i = Some (Some p) /\ last_at hgt A i p.
Proof.
  intros Hi Hc. pose proof (inv_max _ _ _ _ Hi) as Hm.
  pose proof (length_nodes _ _ _ _ Hi) as Hlen. rewrite length_app in Hlen.
  destruct (find_ge_ok s A B ka kb hgt k (search_fuel s) (replicate kMaxHeight None) [] head_ A
    (pred (sl_max_height s)) Hi Hc eq_refl) as (prev & E & Hl & Hle & _).
  - rewrite (inv_head _ _ _ _ Hi). lia.
  - rewrite length_replicate. lia.
  - unfold search_fuel. lia.
  - exists prev. rewrite length_replicate in Hl. split; [exact E|]. split; [done|].
    intros i Hi0. apply Hle. lia.
Qed.

(** ** Linking *)

Lemma SetNext_eq (s : SkipList Key) x i y nd :
  sl_nodes s !! x = Some nd -> (i < length (node_next nd))%nat ->
  exists s', SetNext s x i y = Some s' /\
    (forall z j, Next s' z j = if decide (z = x /\ j = i) then Some y else Next s z j) /\
    (forall z, key_of s' z = key_of s z) /\
    (forall z nz, sl_nodes s !! z = Some nz ->
       exists nz', sl_nodes s' !! z = Some nz' /\ length (node_next nz') = length (node_next nz)) /\
    sl_max_height s' = sl_max_height s /\ length (sl_nodes s') = length (sl_nodes s).
Proof.
  intros Hx Hi. pose proof (lookup_lt_Some _ _ _ Hx) as Hlt.
  unfold SetNext. rewrite Hx. cbn [mbind option_bind].
  rewrite (proj2 (Nat.ltb_lt _ _)) by done. eexists. split; [reflexivity|].
  split; [|split; [|split; [|split; [done | apply length_insert]]]].
  - intros z j. unfold Next, set_nodes; cbn [sl_nodes].
    destruct (decide (z = x)) as [->|Hne].
    + rewrite list_lookup_insert_eq, Hx by done. cbn [mbind option_bind node_next].
      destruct (decide (j = i)) as [->|Hnj].
      * rewrite list_lookup_insert_eq by done. by rewrite decide_True.
      * rewrite list_lookup_insert_ne by done. rewrite decide_False by naive_solver. done.
    + rewrite list_lookup_insert_ne by done. by rewrite decide_False by naive_solver.
  - intros z. unfold key_of, set_nodes; cbn [sl_nodes]. destruct (decide (z = x)) as [->|Hne].
    + by rewrite list_lookup_insert_eq, Hx by done.
    + by rewrite list_lookup_insert_ne by done.
  - intros z nz Hz. cbn [sl_nodes set_nodes]. destruct (decide (z = x)) as [->|Hne].
    + rewrite list_lookup_insert_eq by done. eexists. split; [reflexivity|]. cbn [node_next].
      rewrite length_insert. congruence.
    + rewrite list_lookup_insert_ne by done. eauto.
Qed.

(** [n] is being inserted between [A] and [B] and is linked at [i] levels. *)
Definition hgt_at (hgt : nat -> nat) (n i : nat) : nat -> nat :=
  fun x => if decide (x = n) then i else hgt x.

Lemma hgt_at_ne hgt n i x : x <> n -> hgt_at hgt n i x = hgt x.
Proof. intros Hne. unfold hgt_at. by rewrite decide_False. Qed.

Lemma hgt_at_eq hgt n i : hgt_at hgt n i n = i.
Proof. unfold hgt_at. by rewrite decide_True. Qed.

(** Being linked at one more level only shows at that level. *)
Lemma above_hgt_at hgt n i j l :
  (j <> i \/ n ∉ l) -> above (hgt_at hgt n (S i)) j l = above (hgt_at hgt n i) j l.
Proof.
  intros H. apply above_ext. intros y Hy. unfold hgt_at. destruct (decide (y = n)) as [->|]; [|done].
  destruct H as [Hj|Hn]; [|done].
  destruct (Nat.ltb_spec j (S i)), (Nat.ltb_spec j i); lia || done.
Qed.

Lemma has_key_ext (s s' : SkipList Key) L ks :
  (forall z, key_of s' z = key_of s z) -> Forall2 (has_key s) L ks -> Forall2 (has_key s') L ks.
Proof. intros Hk. apply Forall2_impl. intros x k [H1 H2]. split; [by rewrite Hk | done]. Qed.

(** One iteration of the linking loop. *)
Lemma link_ok s A B ks hgt n i p prev nd :
  sl_inv s (A ++ n :: B) ks (hgt_at hgt n i) -> n <> head_ ->
  sl_nodes s !! n = Some nd -> (i < length (node_next nd))%nat -> (i < sl_max_height s)%nat ->
  prev !! i = Some (Some p) -> last_at hgt A i p ->
  exists s', link s prev n i = Some s' /\ sl_inv s' (A ++ n :: B) ks (hgt_at hgt n (S i)) /\
    (exists nd', sl_nodes s' !! n = Some nd' /\ length (node_next nd') = length (node_next nd)) /\
    sl_max_height s' = sl_max_height s.
Proof.
  intros Hi Hn0 Hnd Hlen Hmax Hprev (m1 & m2 & EA & Hp & Hm2).
  pose proof (inv_nodup _ _ _ _ Hi) as Hdup.
  assert (forall x, x ∈ head_ :: A -> x <> n) as HnA.
  { intros x Hx ->. rewrite app_comm_cons in Hdup.
    apply list.NoDup_app in Hdup as (_ & Hd & _). apply (Hd n Hx). left. }
  assert (n ∉ B) as HnB.
  { rewrite app_comm_cons in Hdup. apply list.NoDup_app in Hdup as (_ & _ & Hd).
    by apply list.NoDup_cons_1_1 in Hd. }
  assert (p ∈ head_ :: A) as HpA by (rewrite EA; apply elem_of_app; right; left).
  assert (head_ :: A ++ n :: B = m1 ++ p :: (m2 ++ n :: B)) as EL.
  { rewrite app_comm_cons, EA, <- app_assoc. done. }
  assert (Next s p i = Some (above hgt i B)) as HNp.
  { rewrite (inv_links _ _ _ _ Hi m1 p (m2 ++ n :: B) i EL) by (by rewrite hgt_at_ne by auto).
    f_equal. rewrite above_app.
    assert (above (hgt_at hgt n i) i m2 = None) as ->.
    { rewrite <- Hm2. apply above_ext. intros y Hy. rewrite hgt_at_ne; [done|].
      apply HnA. rewrite EA. apply elem_of_app. right. by right. }
    cbn [above find]. rewrite hgt_at_eq, Nat.ltb_irrefl.
    apply above_ext. intros y Hy. by rewrite hgt_at_ne by (intros ->; done). }
  unfold link. rewrite Hprev. cbn [mbind option_bind]. rewrite HNp. cbn [mbind option_bind].
  destruct (SetNext_eq s n i (above hgt i B) nd Hnd Hlen)
    as (s1 & -> & N1 & K1 & D1 & M1 & L1). cbn [mbind option_bind].
  destruct (inv_node _ _ _ _ Hi p) as (ndp & Hndp & Hhp).
  { rewrite app_comm_cons. apply elem_of_app. by left. }
  rewrite hgt_at_ne in Hhp by auto.
  destruct (D1 p ndp Hndp) as (ndp1 & Hndp1 & Hlp).
  destruct (SetNext_eq s1 p i (Some n) ndp1 Hndp1 ltac:(lia)) as (s2 & -> & N2 & K2 & D2 & M2 & L2).
  exists s2. split; [done|]. split; [|split].
  2: { destruct (D1 n nd Hnd) as (nd1 & H1 & E1). destruct (D2 n nd1 H1) as (nd2 & H2 & E2).
       exists nd2. split; [done | congruence]. }
  2: congruence.
  assert (forall z j, Next s2 z j = if decide (z = p /\ j = i) then Some (Some n)
    else if decide (z = n /\ j = i) then Some (above hgt i B) else Next s z j) as HN.
  { intros z j. by rewrite N2, N1. }
  split.
  - done.
  - intros x Hx. destruct (inv_node _ _ _ _ Hi x Hx) as (ndx & Hx1 & Hx2).
    destruct (D1 x ndx Hx1) as (nd1 & H1 & E1). destruct (D2 x nd1 H1) as (nd2 & H2 & E2).
    exists nd2. split; [done|]. destruct (decide (x = n)) as [->|Hne].
    + rewrite hgt_at_eq. replace ndx with nd in * by congruence. lia.
    + rewrite hgt_at_ne in * by done. lia.
  - apply (has_key_ext s); [|apply (inv_keys _ _ _ _ Hi)]. intros z. by rewrite K2, K1.
  - rewrite hgt_at_ne by auto. pose proof (inv_head _ _ _ _ Hi) as Hh. by rewrite hgt_at_ne in Hh by auto.
  - intros l1 z l2 j E Hj. rewrite HN.
    assert (NoDup (l1 ++ z :: l2)) as Hdl by (by rewrite <- E).
    destruct (decide (z = n)) as [->|Hzn].
    + rewrite decide_False by (intros [-> _]; by apply (HnA p)).
      rewrite hgt_at_eq in Hj.
      destruct (split_unique l1 (head_ :: A) n l2 B Hdl) as [-> ->]; [by rewrite <- E|].
      rewrite above_hgt_at by auto. destruct (decide (n = n /\ j = i)) as [[_ ->]|Hne].
      * f_equal. symmetry. apply above_ext. intros y Hy. by rewrite hgt_at_ne by (intros ->; done).
      * apply (inv_links _ _ _ _ Hi (head_ :: A)); [done|]. rewrite hgt_at_eq.
        destruct (Nat.eq_dec j i); [naive_solver | lia].
    + rewrite hgt_at_ne in Hj by done.
      assert (Next s z j = Some (above (hgt_at hgt n i) j l2)) as HNz.
      { apply (inv_links _ _ _ _ Hi l1); [done|]. by rewrite hgt_at_ne. }
      rewrite (decide_False (P := z = n /\ j = i)) by naive_solver.
      destruct (decide (z = p /\ j = i)) as [[-> ->]|Hne].
      * destruct (split_unique l1 m1 p l2 (m2 ++ n :: B) Hdl) as [-> ->]; [by rewrite <- E, EL|].
        f_equal. rewrite above_app.
        assert (above (hgt_at hgt n (S i)) i m2 = None) as ->.
        { rewrite <- Hm2. apply above_ext. intros y Hy. rewrite hgt_at_ne; [done|].
          apply HnA. rewrite EA. apply elem_of_app. right. by right. }
        cbn [above find]. rewrite hgt_at_eq. by rewrite (proj2 (Nat.ltb_lt i (S i))) by lia.
      * rewrite HNz. f_equal. destruct (Nat.eq_dec j i) as [->|Hji].
        2: { symmetry. apply above_hgt_at. by left. }
        assert (z <> p) as Hzp by naive_solver.
        destruct (split_around (head_ :: A) B n l1 z l2) as [(x2 & Ex & ->)|(y1 & EB & _)]; [done..| |].
        -- assert (n ∉ x2) as Hnx.
           { intros Hx. apply (HnA n); [|done]. rewrite Ex. apply elem_of_app. right. by right. }
           rewrite !above_app, (above_hgt_at hgt n i i x2) by auto.
           destruct (above (hgt_at hgt n i) i x2) eqn:Ea; [done|]. exfalso.
           rewrite above_None in Ea. rewrite above_None in Hm2.
           pose proof (eq_trans (eq_sym Ex) EA) as E2.
           apply split_cases in E2 as [(_ & -> & _)|[Hin|Hin]]; [done| |].
           ++ specialize (Ea p Hin). rewrite hgt_at_ne in Ea by auto. lia.
           ++ specialize (Hm2 z Hin). lia.
        -- symmetry. apply above_hgt_at. right. intros Hy. apply HnB. rewrite EB.
           apply elem_of_app. right. by right.
  - apply (inv_sorted _ _ _ _ Hi).
  - rewrite M2, M1. apply (inv_max _ _ _ _ Hi).
  - intros x Hx. rewrite M2, M1. destruct (decide (x = n)) as [->|Hne].
    + rewrite hgt_at_eq. lia.
    + rewrite hgt_at_ne by done. pose proof (inv_high _ _ _ _ Hi x Hx) as Hh.
      by rewrite hgt_at_ne in Hh by done.
Qed.

(** The levels from [i] to [i + m - 1]. *)
Lemma link_loop_ok m s A B ks hgt n i prev nd :
  sl_inv s (A ++ n :: B) ks (hgt_at hgt n i) -> n <> head_ ->
  sl_nodes s !! n = Some nd -> (i + m <= length (node_next nd))%nat -> (i + m <= sl_max_height s)%nat ->
  (forall j, (i <= j < i + m)%nat -> exists p, prev !! j = Some (Some p) /\ last_at hgt A j p) ->
  exists s', link_loop m i s prev n = Some s' /\ sl_inv s' (A ++ n :: B) ks (hgt_at hgt n (i + m)) /\
    (exists nd', sl_nodes s' !! n = Some nd' /\ length (node_next nd') = length (node_next nd)).
Proof.
  revert s i nd; induction m as [|m IH]; intros s i nd Hi Hn Hnd Hl Hm Hp; cbn [link_loop].
  { exists s. rewrite Nat.add_0_r. eauto. }
  destruct (Hp i ltac:(lia)) as (p & Ep & Hlast).
  destruct (link_ok s A B ks hgt n i p prev nd) as (s1 & -> & Hi1 & (nd1 & Hnd1 & El) & Hm1);
    try done; try lia. cbn [mbind option_bind].
  destruct (IH s1 (S i) nd1) as (s2 & -> & Hi2 & nd2 & Hnd2 & El2); try done; try lia.
  { intros j Hj. apply Hp. lia. }
  exists s2. split; [done|]. rewrite Nat.add_succ_comm in Hi2.
  split; [done|]. exists nd2. split; [done | congruence].
Qed.

(** Storing a link the node does not use yet. *)
Lemma store_unused s L ks hgt n i y nd :
  sl_inv s L ks hgt -> (n ∈ head_ :: L -> (hgt n <= i)%nat) ->
  sl_nodes s !! n = Some nd -> (i < length (node_next nd))%nat ->
  exists s', SetNext s n i y = Some s' /\ sl_inv s' L ks hgt.
Proof.
  intros Hi Hun Hnd Hl. destruct (SetNext_eq s n i y nd Hnd Hl) as (s' & -> & N & K & D & M & _).
  exists s'. split; [done|]. destruct Hi as [H1 H2 H3 H4 H5 H6 H7 H8]. split; try done.
  - intros x Hx. destruct (H2 x Hx) as (ndx & Hx1 & Hx2). destruct (D x ndx Hx1) as (nd' & Hd & El).
    exists nd'. split; [done | lia].
  - by apply (has_key_ext s).
  - intros l1 x l2 j E Hj. rewrite N. rewrite decide_False; [by apply (H5 l1)|].
    intros [-> ->]. specialize (Hun ltac:(rewrite E; apply elem_of_app; right; left)). lia.
  - by rewrite M.
  - intros x Hx. rewrite M. by apply H8.
Qed.

(** ** The node before it is linked *)

Lemma fill_prev_lookup m i prev j :
  (i + m <= length prev)%nat ->
  fill_prev m i prev !! j = if decide (i <= j < i + m)%nat then Some (Some head_) else prev !! j.
Proof.
  revert i prev; induction m as [|m IH]; intros i prev Hl; cbn [fill_prev].
  { rewrite decide_False by lia. done. }
  rewrite IH by (rewrite length_insert; lia). destruct (Nat.eq_dec j i) as [->|Hne].
  - rewrite decide_False by lia. rewrite decide_True by lia. apply list_lookup_insert_eq. lia.
  - rewrite list_lookup_insert_ne by done.
    destruct (decide (S i <= j < S i + m)%nat); [rewrite decide_True by lia | rewrite decide_False by lia]; done.
Qed.

Lemma sorted_insert k ka kb :
  StronglySorted (fun a b => compare a b < 0) (ka ++ kb) ->
  Forall (fun x => compare x k < 0) ka -> Forall (fun x => compare k x < 0) kb ->
  StronglySorted (fun a b => compare a b < 0) (ka ++ k :: kb).
Proof.
  induction ka as [|a ka IH]; cbn [app]; intros Hs Ha Hb; [by constructor|].
  apply StronglySorted_inv in Hs as [Hs Hall]. inversion Ha as [|? ? Hak Ha']; subst.
  constructor; [by apply IH|]. apply List.Forall_app in Hall as [Hx Hy].
  apply List.Forall_app. split; [done|]. by constructor.
Qed.

(** A new node at the end of the store and a raised [max_height_]. *)
Definition with_node (s : SkipList Key) (k : Key) (h m : nat) (rnd : Random) : SkipList Key :=
  mk_sl (sl_nodes s ++ [mk_node (Some k) (replicate h None)]) m rnd.

Lemma with_node_old s k h m rnd L ks hgt :
  sl_inv s L ks hgt -> (sl_max_height s <= m <= kMaxHeight)%nat ->
  sl_inv (with_node s k h m rnd) L ks hgt.
Proof.
  intros [H1 H2 H3 H4 H5 H6 H7 H8] Hm.
  assert (forall x nd, sl_nodes s !! x = Some nd -> sl_nodes (with_node s k h m rnd) !! x = Some nd) as Hold.
  { intros x nd Hx. apply lookup_app_l_Some. done. }
  split; try done.
  - intros x Hx. destruct (H2 x Hx) as (nd & Hnd & Hl). eauto.
  - revert H3. apply Forall2_impl. unfold has_key, key_of. intros x kx [Hx Hv]. split; [|done].
    destruct (sl_nodes s !! x) as [nd|] eqn:E; [|done]. by rewrite (Hold x nd E).
  - intros l1 x l2 i E Hi. specialize (H5 l1 x l2 i E Hi). unfold Next in *.
    destruct (sl_nodes s !! x) as [nd|] eqn:En; [|done]. by rewrite (Hold x nd En).
  - cbn. lia.
  - intros x Hx. specialize (H8 x Hx). cbn. lia.
Qed.

Lemma fresh_node s L ks hgt x : sl_inv s L ks hgt -> x ∈ head_ :: L -> x <> length (sl_nodes s).
Proof.
  intros Hi Hx ->. destruct (inv_node _ _ _ _ Hi _ Hx) as (nd & Hnd & _).
  apply lookup_lt_Some in Hnd. lia.
Qed.

Lemma above_fresh hgt n i l : n ∉ l -> above (hgt_at hgt n 0) i l = above hgt i l.
Proof. intros Hn. apply above_ext. intros y Hy. by rewrite hgt_at_ne by (intros ->; done). Qed.

Lemma with_node_new s k h m rnd A B ka kb hgt :
  sl_inv s (A ++ B) (ka ++ kb) hgt -> (sl_max_height s <= m <= kMaxHeight)%nat -> valid k ->
  Forall2 (has_key s) A ka -> Forall2 (has_key s) B kb ->
  Forall (fun x => compare x k < 0) ka -> Forall (fun x => compare k x < 0) kb ->
  sl_inv (with_node s k h m rnd) (A ++ length (sl_nodes s) :: B) (ka ++ k :: kb)
    (hgt_at hgt (length (sl_nodes s)) 0).
Proof.
  intros Hi Hm Hk HA HB Hlt Hgt. set (n := length (sl_nodes s)).
  pose proof (fun x => fresh_node s _ _ hgt x Hi) as Hfresh. fold n in Hfresh.
  pose proof (with_node_old s k h m rnd _ _ _ Hi Hm) as Hi'.
  assert (n ∉ A ++ B) as Hn by (intros Hn; apply (Hfresh n); [by right | done]).
  assert ((n ∉ A) /\ (n ∉ B)) as [HnA HnB] by (rewrite elem_of_app in Hn; tauto).
  assert (sl_nodes (with_node s k h m rnd) !! n = Some (mk_node (Some k) (replicate h None))) as Enew.
  { cbn [with_node sl_nodes]. by rewrite lookup_app_r, Nat.sub_diag by lia. }
  destruct Hi' as [H1 H2 H3 H4 H5 H6 H7 H8].
  split; [| | | | | | done |].
  - rewrite app_comm_cons, <- Permutation_middle. constructor; [|done].
    rewrite <- app_comm_cons, elem_of_cons. intros [E|Hx]; [|done].
    apply (Hfresh n); [|done]. rewrite E. left.
  - intros x Hx. destruct (decide (x = n)) as [->|Hne].
    + eexists. split; [exact Enew|]. rewrite hgt_at_eq. lia.
    + rewrite hgt_at_ne by done. apply H2. revert Hx. rewrite !elem_of_cons, !elem_of_app, elem_of_cons. tauto.
  - apply Forall2_app_inv in H3 as [HA' HB']; [|by apply Forall2_length in HA].
    apply Forall2_app; [done|]. constructor; [|done]. split; [|done].
    unfold key_of. by rewrite Enew.
  - rewrite hgt_at_ne; [done|]. apply (not_eq_sym). intros E. apply (Hfresh head_); [left | done].
  - intros l1 x l2 i E Hx. destruct (decide (x = n)) as [->|Hne]; [rewrite hgt_at_eq in Hx; lia|].
    rewrite hgt_at_ne in Hx by done.
    destruct (split_around (head_ :: A) B n l1 x l2) as [(x2 & Ex & ->)|(y1 & EB & ->)]; [done..| |].
    + rewrite (H5 l1 x (x2 ++ B) i); [|by rewrite app_comm_cons, Ex, <- app_assoc|done].
      assert (n ∉ x2) as Hnx2.
      { intros Hx2. apply (Hfresh n); [|done]. rewrite app_comm_cons, Ex.
        apply elem_of_app. left. apply elem_of_app. right. by right. }
      f_equal. rewrite !above_app. cbn [above find]. rewrite hgt_at_eq. cbn [Nat.ltb Nat.leb].
      rewrite (above_fresh _ _ _ x2) by done. destruct (above hgt i x2); [done|].
      symmetry. by apply (above_fresh _ _ _ B).
    + rewrite (H5 (head_ :: A ++ y1) x l2 i); [|by rewrite EB, <- app_comm_cons, <- app_assoc|done].
      f_equal. symmetry. apply above_fresh. intros Hx2. apply HnB. rewrite EB.
      apply elem_of_app. right. by right.
  - by apply sorted_insert.
  - intros x Hx. destruct (decide (x = n)) as [->|Hne]; [rewrite hgt_at_eq; lia|].
    rewrite hgt_at_ne by done. apply H8. revert Hx. rewrite !elem_of_app, elem_of_cons. tauto.
Qed.

Lemma insert_prepare_ok s A B ka kb hgt k :
  sl_inv s (A ++ B) (ka ++ kb) hgt -> cut_at s k A B ka kb ->
  exists h m rnd prev,
    insert_prepare compare s k = Some (with_node s k h m rnd, length (sl_nodes s), h, prev) /\
    (1 <= h <= m)%nat /\ (sl_max_height s <= m <= kMaxHeight)%nat /\
    forall i, (i < h)%nat -> exists p, prev !! i = Some (Some p) /\ last_at hgt A i p.
Proof.
  intros Hi Hc. destruct (FindGreaterOrEqual_ok s A B ka kb hgt k Hi Hc) as (prev & E & Hlen & Hp).
  pose proof (inv_max _ _ _ _ Hi) as Hm. unfold insert_prepare. rewrite E. cbn [mbind option_bind].
  pose proof (random_height_bound kMaxHeight 1 (sl_rnd s)) as Hh. specialize (Hh ltac:(unfold kMaxHeight; lia)).
  unfold RandomHeight. destruct (random_height_loop kMaxHeight 1 (sl_rnd s)) as [h rnd] eqn:Er.
  cbn [fst] in Hh. cbn [sl_max_height]. destruct (Nat.ltb_spec (sl_max_height s) h) as [Hlt|Hge].
  - exists h, h, rnd. eexists. split; [reflexivity|]. split; [lia|]. split; [lia|].
    intros i Hi0. rewrite fill_prev_lookup by lia.
    destruct (decide _) as [Hd|Hd]; [|apply Hp; lia].
    exists head_. split; [done|]. exists [], A. split; [done|]. split; [rewrite (inv_head _ _ _ _ Hi); lia|].
    apply above_None. intros y Hy. pose proof (inv_high _ _ _ _ Hi y) as Hy'.
    rewrite elem_of_app in Hy'. specialize (Hy' (or_introl Hy)). lia.
  - exists h, (sl_max_height s), rnd, prev. split; [reflexivity|]. split; [lia|]. split; [lia|].
    intros i Hi0. apply Hp. lia.
Qed.

(** The list [s] contains the keys [ks], in order. *)
Definition holds (s : SkipList Key) (ks : list Key) : Prop :=
  exists L hgt, sl_inv s L ks hgt /\ forall x, x ∈ L -> (1 <= hgt x)%nat.

(** The keys of [ka] come before [k], those of [kb] after. *)
Record place (k : Key) (ka kb : list Key) : Prop := {
  place_valid : valid k;
  place_before : Forall (fun x => compare x k < 0) ka;
  place_after : Forall (fun x => compare k x < 0) kb;
}.

Lemma place_ge k ka kb : place k ka kb -> Forall valid kb -> Forall (fun x => 0 <= compare x k) kb.
Proof.
  intros [Hk _ Hb] Hv. apply List.Forall_forall. intros x Hx. rewrite List.Forall_forall in Hb, Hv.
  pose proof (ko_sgn k x Hk (Hv x Hx)). specialize (Hb x Hx). lia.
Qed.

Lemma place_cut s L ka kb hgt k :
  sl_inv s L (ka ++ kb) hgt -> place k ka kb ->
  exists A B, L = A ++ B /\ cut_at s k A B ka kb.
Proof.
  intros Hi Hpl. pose proof (inv_keys _ _ _ _ Hi) as HF.
  apply Forall2_app_inv_r in HF as (A & B & HA & HB & ->). exists A, B. split; [done|].
  split; try done; [apply Hpl | apply (place_ge k ka kb Hpl), (Forall2_valid _ _ _ HB)].
Qed.

(** The insertion, store by store. *)
Lemma insert_steps s ka kb k :
  holds s (ka ++ kb) -> place k ka kb ->
  exists s1 x h prev,
    insert_prepare compare s k = Some (s1, x, h, prev) /\ (1 <= h)%nat /\
    forall i, (i <= h)%nat -> exists si, link_loop i 0 s1 prev x = Some si /\
      let now := if (i =? 0)%nat then ka ++ kb else ka ++ k :: kb in
      holds si now /\
      ((i < h)%nat -> forall y, exists sh, SetNext si x i y = Some sh /\ holds sh now).
Proof.
  intros (L & hgt & Hi & Hpos) Hpl. destruct (place_cut s L ka kb hgt k Hi Hpl) as (A & B & -> & Hc).
  destruct (insert_prepare_ok s A B ka kb hgt k Hi Hc) as (h & m & rnd & prev & E & Hh & Hm & Hp).
  set (n := length (sl_nodes s)) in *.
  pose proof (with_node_old s k h m rnd _ _ _ Hi Hm) as Hold.
  pose proof (with_node_new s k h m rnd A B ka kb hgt Hi Hm (place_valid _ _ _ Hpl)
    (cut_A _ _ _ _ _ _ Hc) (cut_B _ _ _ _ _ _ Hc) (place_before _ _ _ Hpl) (place_after _ _ _ Hpl)) as Hnew.
  fold n in Hnew. assert (n ∉ head_ :: A ++ B) as Hfresh by (intros Hn; by apply (fresh_node s _ _ hgt n Hi)).
  assert (sl_nodes (with_node s k h m rnd) !! n = Some (mk_node (Some k) (replicate h None))) as Enew.
  { cbn [with_node sl_nodes]. unfold n. by rewrite lookup_app_r, Nat.sub_diag by lia. }
  exists (with_node s k h m rnd), n, h, prev. split; [exact E|]. split; [lia|]. intros i Hle.
  destruct (link_loop_ok i (with_node s k h m rnd) A B (ka ++ k :: kb) hgt n 0 prev
    (mk_node (Some k) (replicate h None)) Hnew) as
    (si & Ei & Hsi & nd' & Hnd' & Hl'); try done.
  { intros ->. apply Hfresh. left. }
  { cbn. rewrite length_replicate. lia. }
  { cbn. lia. }
  { intros j Hj. apply Hp. lia. }
  exists si. split; [exact Ei|]. cbn [node_next] in Hl'. rewrite length_replicate in Hl'.
  cbv zeta. destruct (Nat.eqb_spec i 0) as [->|Hne].
  - cbn [link_loop] in Ei. injection Ei as <-. split; [by exists (A ++ B), hgt|].
    intros Hi0 y. destruct (store_unused _ _ _ hgt n 0 y nd' Hold) as (sh & Esh & Hsh); [| exact Hnd' | lia |].
    { intros Hn. destruct (Hfresh Hn). }
    exists sh. split; [exact Esh|]. by exists (A ++ B), hgt.
  - assert (forall x, x ∈ A ++ n :: B -> (1 <= hgt_at hgt n (0 + i) x)%nat) as Hpos'.
    { intros x Hx. destruct (decide (x = n)) as [->|Hx']; [rewrite hgt_at_eq; lia|].
      rewrite hgt_at_ne by done. apply Hpos. revert Hx. rewrite !elem_of_app, elem_of_cons. tauto. }
    split; [by exists (A ++ n :: B), (hgt_at hgt n (0 + i))|]. intros Hi0 y.
    destruct (store_unused _ _ _ _ n i y nd' Hsi) as (sh & Esh & Hsh); [| exact Hnd' | lia |].
    { intros _. by rewrite hgt_at_eq. }
    exists sh. split; [exact Esh|]. by exists (A ++ n :: B), (hgt_at hgt n (0 + i)).
Qed.

Lemma Insert_ok s ka kb k :
  holds s (ka ++ kb) -> place k ka kb ->
  exists s', Insert compare s k = Some s' /\ holds s' (ka ++ k :: kb).
Proof.
  intros Hs Hpl. destruct (insert_steps s ka kb k Hs Hpl) as (s1 & x & h & prev & E & Hh & Hall).
  destruct (Hall h ltac:(lia)) as (s' & Es & Hhold & _). exists s'.
  unfold Insert. rewrite E. cbn [mbind option_bind]. split; [exact Es|].
  destruct (Nat.eqb_spec h 0); [lia | done].
Qed.

(** A key that compares equal to none has a place. *)
Lemma place_exists s ks k :
  holds s ks -> valid k -> Forall (fun x => compare x k <> 0) ks ->
  exists ka kb, ks = ka ++ kb /\ place k ka kb.
Proof.
  intros (L & hgt & Hi & _) Hk Hne. pose proof (Forall2_valid _ _ _ (inv_keys _ _ _ _ Hi)) as Hv.
  destruct (sorted_cut k ks Hk Hv (inv_sorted _ _ _ _ Hi)) as (ka & kb & -> & Ha & Hb).
  exists ka, kb. split; [done|]. split; [done | done |]. apply List.Forall_forall. intros x Hx.
  rewrite List.Forall_forall in Hne, Hv, Hb. pose proof (in_or_app ka kb x (or_intror Hx)) as Hin.
  specialize (Hne x Hin). specialize (Hv x Hin). specialize (Hb x Hx).
  pose proof (ko_sgn x k Hv Hk). lia.
Qed.

(** Insertions in sequence. *)
Fixpoint insert_all (s : SkipList Key) (l : list Key) : option (SkipList Key) :=
  match l with [] => Some s | k :: l => s ← Insert compare s k; insert_all s l end.

(** C26: inserting keys that are all different, in any order, always succeeds
    (every node and link read exists, and the walks end), and the list then
    contains, in increasing order, exactly the keys it had and those inserted;
    each key goes to its place, whatever the heights the random numbers give. *)
Theorem skiplist_insert s ks l :
  holds s ks -> Forall valid l ->
  (forall x k, In x ks -> In k l -> compare x k <> 0) ->
  ForallOrdPairs (fun a b => compare a b <> 0) l ->
  exists s' ks', insert_all s l = Some s' /\ ks' ≡ₚ ks ++ l /\ holds s' ks'.
Proof.
  revert s ks; induction l as [|k l IH]; intros s ks Hs Hv Hne Hd.
  { exists s, ks. by rewrite app_nil_r. }
  inversion Hv as [|? ? Hk Hv']; inversion Hd as [|? ? Hkl Hd']; subst.
  destruct (place_exists s ks k Hs Hk) as (ka & kb & -> & Hpl).
  { apply List.Forall_forall. intros x Hx. apply Hne; [done | by left]. }
  destruct (Insert_ok s ka kb k Hs Hpl) as (s1 & E1 & Hs1).
  destruct (IH s1 (ka ++ k :: kb) Hs1 Hv') as (s2 & ks2 & E2 & Hp & Hs2); [|done|].
  - intros x y Hx Hy. rewrite List.Forall_forall in Hkl.
    apply in_app_or in Hx as [Hx|[<-|Hx]]; [|by apply Hkl|];
      apply Hne; [|by right| |by right]; apply in_or_app; [by left | by right].
  - exists s2, ks2. cbn [insert_all]. rewrite E1. split; [exact E2|]. split; [|done].
    rewrite Hp, <- !app_assoc. cbn [app]. apply Permutation_app_head, Permutation_middle.
Qed.

(** ** Searches and iterators *)

Lemma find_lt_ok s A B ka kb hgt k fuel l1 x l2 level :
  sl_inv s (A ++ B) (ka ++ kb) hgt -> cut_at s k A B ka kb ->
  head_ :: A = l1 ++ x :: l2 -> (level < hgt x)%nat -> (length l2 + level < fuel)%nat ->
  exists y, find_lt_loop compare fuel s k x level = Some y /\ last_at hgt A 0 y.
Proof.
  intros Hi Hc. revert l1 x l2 level.
  induction fuel as [|fuel IH]; intros l1 x l2 level E Hl Hf; [lia|].
  cbn [find_lt_loop]. rewrite (next_in_cut s A B _ hgt l1 x l2 level Hi E Hl). cbn [mbind option_bind].
  destruct (above hgt level l2) as [y|] eqn:Ey.
  - apply above_Some in Ey as (m1 & m2 & -> & Hy & _).
    destruct (key_A s k A B ka kb y Hc) as (ky & -> & Hlt).
    { apply (tail_elem A l1 x (m1 ++ y :: m2)); [done|]. apply elem_of_app. right. left. }
    cbn [mbind option_bind]. rewrite Z.geb_leb, (proj2 (Z.leb_gt _ _)) by done. cbn [mbind option_bind].
    apply (IH (l1 ++ x :: m1) y m2); [by rewrite E, <- app_assoc | done |].
    rewrite length_app in Hf. cbn [length] in Hf. lia.
  - assert (match above hgt level B with
            | None => Some true | Some y => k0 ← key_of s y; Some (compare k0 k >=? 0) end = Some true) as ->.
    { destruct (above hgt level B) as [y|] eqn:Eb; [|done].
      apply above_Some in Eb as (m1 & m2 & EB & _).
      destruct (key_B s k A B ka kb y Hc) as (ky & -> & Hge).
      { rewrite EB. apply elem_of_app. right. left. }
      cbn [mbind option_bind]. by rewrite Z.geb_leb, (proj2 (Z.leb_le _ _)). }
    cbn [mbind option_bind]. destruct level as [|level].
    + exists x. split; [done|]. by exists l1, l2.
    + apply (IH l1 x l2); [done | lia | lia].
Qed.

Lemma find_last_ok s L ks hgt fuel l1 x l2 level :
  sl_inv s L ks hgt -> head_ :: L = l1 ++ x :: l2 -> (level < hgt x)%nat ->
  (length l2 + level < fuel)%nat ->
  exists y, find_last_loop fuel s x level = Some y /\ last_at hgt L 0 y.
Proof.
  intros Hi. revert l1 x l2 level.
  induction fuel as [|fuel IH]; intros l1 x l2 level E Hl Hf; [lia|].
  cbn [find_last_loop]. rewrite (inv_links _ _ _ _ Hi l1 x l2 level E Hl). cbn [mbind option_bind].
  destruct (above hgt level l2) as [y|] eqn:Ey.
  - apply above_Some in Ey as (m1 & m2 & -> & Hy & _).
    apply (IH (l1 ++ x :: m1) y m2); [by rewrite E, <- app_assoc | done |].
    rewrite length_app in Hf. cbn [length] in Hf. lia.
  - destruct level as [|level].
    + exists x. split; [done|]. by exists l1, l2.
    + apply (IH l1 x l2); [done | lia | lia].
Qed.

(** Every node of the list is linked at level 0. *)
Lemma above_0 hgt l : (forall x, x ∈ l -> (1 <= hgt x)%nat) -> above hgt 0 l = head l.
Proof.
  intros Hx. destruct l as [|x l]; [done|]. cbn [above find head].
  by rewrite (proj2 (Nat.ltb_lt 0 (hgt x))) by (apply Hx; left).
Qed.

Lemma last_at_0 hgt A p :
  (forall x, x ∈ A -> (1 <= hgt x)%nat) -> last_at hgt A 0 p -> list.last (head_ :: A) = Some p.
Proof.
  intros Hx (m1 & m2 & E & _ & Hm2). rewrite E. destruct m2 as [|y m2]; [apply list.last_snoc|].
  exfalso. rewrite above_0 in Hm2; [done|]. intros z Hz. apply Hx. by apply (tail_elem A m1 p (y :: m2)).
Qed.

(** What the operations of an iterator are, over the ordered list of keys:
    [pos i] is the iterator at the [i]-th key, or past the end. *)
Record cursor_spec (s : SkipList Key) (ks : list Key) (pos : nat -> sl_Iterator) : Prop := {
  cur_valid i : iter_Valid (pos i) = (i <? length ks)%nat;
  cur_key i : iter_key s (pos i) = ks !! i;
  cur_first : iter_SeekToFirst s = Some (pos 0%nat);
  cur_next i : (i < length ks)%nat -> iter_Next s (pos i) = Some (pos (S i));
  cur_prev i : (i < length ks)%nat ->
    iter_Prev compare s (pos i) = Some (match i with O => None | S j => pos j end);
  cur_last : iter_SeekToLast s = Some (match length ks with O => None | S j => pos j end);
  cur_seek k ka kb : valid k -> ks = ka ++ kb ->
    Forall (fun x => compare x k < 0) ka -> Forall (fun x => 0 <= compare x k) kb ->
    iter_Seek compare s k = Some (pos (length ka));
  cur_contains k : valid k -> exists b,
    Contains compare s k = Some b /\ (b = true <-> exists x, x ∈ ks /\ compare k x = 0);
}.

Lemma search_lt s A B ka kb hgt k :
  sl_inv s (A ++ B) (ka ++ kb) hgt -> cut_at s k A B ka kb ->
  (forall x, x ∈ A ++ B -> (1 <= hgt x)%nat) ->
  exists y, FindLessThan compare s k = Some y /\ list.last (head_ :: A) = Some y.
Proof.
  intros Hi Hc Hpos. pose proof (inv_max _ _ _ _ Hi) as Hm.
  pose proof (length_nodes _ _ _ _ Hi) as Hlen. rewrite length_app in Hlen.
  destruct (find_lt_ok s A B ka kb hgt k (search_fuel s) [] head_ A (pred (sl_max_height s))
    Hi Hc eq_refl) as (y & Ey & Hy).
  { rewrite (inv_head _ _ _ _ Hi). lia. }
  { unfold search_fuel. lia. }
  exists y. split; [exact Ey|]. apply (last_at_0 hgt); [|done].
  intros x Hx. apply Hpos. apply elem_of_app. by left.
Qed.

Lemma search_last s L ks hgt :
  sl_inv s L ks hgt -> (forall x, x ∈ L -> (1 <= hgt x)%nat) ->
  exists y, FindLast s = Some y /\ list.last (head_ :: L) = Some y.
Proof.
  intros Hi Hpos. pose proof (inv_max _ _ _ _ Hi) as Hm.
  pose proof (length_nodes _ _ _ _ Hi) as Hlen.
  destruct (find_last_ok s L ks hgt (search_fuel s) [] head_ L (pred (sl_max_height s))
    Hi eq_refl) as (y & Ey & Hy).
  { rewrite (inv_head _ _ _ _ Hi). lia. }
  { unfold search_fuel. lia. }
  exists y. split; [exact Ey|]. by apply (last_at_0 hgt).
Qed.

Lemma search_ge s A B ka kb hgt k :
  sl_inv s (A ++ B) (ka ++ kb) hgt -> cut_at s k A B ka kb ->
  (forall x, x ∈ A ++ B -> (1 <= hgt x)%nat) ->
  exists prev, FindGreaterOrEqual compare s k = Some (head B, prev).
Proof.
  intros Hi Hc Hpos. destruct (FindGreaterOrEqual_ok s A B ka kb hgt k Hi Hc) as (prev & -> & _).
  exists prev. rewrite above_0; [done|]. intros x Hx. apply Hpos. apply elem_of_app. by right.
Qed.

Lemma next_0 s L ks hgt l1 x l2 :
  sl_inv s L ks hgt -> (forall x, x ∈ L -> (1 <= hgt x)%nat) -> head_ :: L = l1 ++ x :: l2 ->
  Next s x 0 = Some (head l2).
Proof.
  intros Hi Hpos E. rewrite (inv_links _ _ _ _ Hi l1 x l2 0 E).
  - rewrite above_0; [done|]. intros y Hy. apply Hpos. by apply (tail_elem L l1 x l2).
  - destruct l1 as [|z l1]; injection E as E0 E; subst L.
    + rewrite <- E0, (inv_head _ _ _ _ Hi). unfold kMaxHeight. lia.
    + apply Hpos. apply elem_of_app. right. left.
Qed.

(** The keys before and after the [i]-th. *)
Lemma sorted_at ks i k :
  Forall valid ks -> StronglySorted (fun a b => compare a b < 0) ks -> ks !! i = Some k ->
  valid k /\ Forall (fun x => compare x k < 0) (take i ks) /\
  Forall (fun x => 0 <= compare x k) (drop i ks).
Proof.
  revert i; induction ks as [|a ks IH]; intros i Hv Hs Hi; [done|].
  inversion Hv as [|? ? Ha Hv']; subst. apply StronglySorted_inv in Hs as [Hs Hall].
  destruct i as [|i]; cbn in Hi |- *.
  - injection Hi as ->. split; [done|]. split; [constructor|]. constructor.
    { pose proof (ko_sgn k k Ha Ha). lia. }
    apply List.Forall_forall. intros x Hx. rewrite List.Forall_forall in Hall, Hv'.
    pose proof (ko_sgn k x Ha (Hv' x Hx)). specialize (Hall x Hx). lia.
  - destruct (IH i Hv' Hs Hi) as (H1 & H2 & H3). split; [done|]. split; [|done].
    constructor; [|done]. rewrite List.Forall_forall in Hall. apply Hall.
    apply list_elem_of_In. by apply list_elem_of_lookup_2 in Hi.
Qed.

Lemma last_take (L : list nat) i x :
  L !! i = Some x -> list.last (take (S i) L) = Some x.
Proof. intros H. erewrite take_S_r by exact H. apply list.last_snoc. Qed.

Lemma last_head_take (L : list nat) i :
  (i <= length L)%nat ->
  list.last (head_ :: take i L) = match i with O => Some head_ | S j => L !! j end.
Proof.
  intros Hi. destruct i as [|j]; [done|]. destruct (lookup_lt_is_Some_2 L j Hi) as [x Hx].
  rewrite Hx. pose proof (last_take L j x Hx) as El.
  destruct L as [|y L]; [done|]. cbn [take] in El |- *. exact El.
Qed.

Lemma contains_ok k ka kb :
  valid k -> Forall valid kb -> Forall valid ka ->
  StronglySorted (fun a b => compare a b < 0) (ka ++ kb) ->
  Forall (fun x => compare x k < 0) ka -> Forall (fun x => 0 <= compare x k) kb ->
  match head kb with None => False | Some y => compare k y = 0 end <->
  exists x, x ∈ ka ++ kb /\ compare k x = 0.
Proof.
  intros Hk Hvb Hva Hs Ha Hb. split.
  { destruct kb as [|y kb]; cbn [head]; [done|]. intros E. exists y. split; [|done].
    apply elem_of_app. right. left. }
  intros (x & Hx & E). pose proof Hx as Hx'. apply elem_of_app in Hx as [Hx|Hx].
  - apply list_elem_of_In in Hx. rewrite List.Forall_forall in Ha, Hva.
    pose proof (ko_sgn k x Hk (Hva x Hx)). specialize (Ha x Hx). lia.
  - destruct kb as [|y kb]; [by apply not_elem_of_nil in Hx|]. cbn [head].
    apply elem_of_cons in Hx as [->|Hx]; [done|].
    inversion Hvb as [|? ? Hy Hvb']; subst. inversion Hb as [|? ? Hyk _]; subst.
    assert (compare y x < 0) as Hlt.
    { clear - Hs Hx. induction ka as [|a ka IH]; cbn [app] in Hs; apply StronglySorted_inv in Hs as [Hs Hall].
      - rewrite List.Forall_forall in Hall. apply Hall. by apply list_elem_of_In.
      - by apply IH. }
    apply list_elem_of_In in Hx. rewrite List.Forall_forall in Hvb'. specialize (Hvb' x Hx).
    pose proof (ko_sgn k x Hk Hvb'). pose proof (ko_lt_le y x k Hy Hvb' Hk Hlt ltac:(lia)). lia.
Qed.

Lemma cut_of s L ks hgt ka kb k :
  sl_inv s L ks hgt -> ks = ka ++ kb ->
  Forall (fun x => compare x k < 0) ka -> Forall (fun x => 0 <= compare x k) kb ->
  exists A B, L = A ++ B /\ length A = length ka /\ cut_at s k A B ka kb.
Proof.
  intros Hi -> Ha Hb. pose proof (inv_keys _ _ _ _ Hi) as HF.
  apply Forall2_app_inv_r in HF as (A & B & HA & HB & ->). exists A, B.
  split; [done|]. split; [by apply Forall2_length in HA | done].
Qed.

Lemma not_head s L ks hgt i y : sl_inv s L ks hgt -> L !! i = Some y -> (y =? head_)%nat = false.
Proof.
  intros Hi Hy. apply Nat.eqb_neq. intros ->. pose proof (inv_nodup _ _ _ _ Hi) as Hnd.
  apply list.NoDup_cons_1_1 in Hnd. apply Hnd. by apply list_elem_of_lookup_2 in Hy.
Qed.

(** The iterator at the last node of [head_ :: take i L]. *)
Lemma before_ok s L ks hgt i y :
  sl_inv s L ks hgt -> (i <= length L)%nat -> list.last (head_ :: take i L) = Some y ->
  (if (y =? head_)%nat then None else Some y) = match i with O => None | S j => L !! j end.
Proof.
  intros Hi Hle Hy. rewrite last_head_take in Hy by lia. destruct i as [|i].
  - by injection Hy as <-.
  - by rewrite Hy, (not_head s L ks hgt i y Hi Hy).
Qed.

Lemma iter_Prev_ok s L ks hgt i :
  sl_inv s L ks hgt -> (forall x, x ∈ L -> (1 <= hgt x)%nat) -> (i < length L)%nat ->
  iter_Prev compare s (L !! i) = Some (match i with O => None | S j => L !! j end).
Proof.
  intros Hi Hpos Hlt. destruct (lookup_lt_is_Some_2 L i Hlt) as [x Ex].
  pose proof (inv_keys _ _ _ _ Hi) as HF.
  destruct (Forall2_lookup_l _ _ _ _ _ HF Ex) as (k & Ek & Hk & _).
  destruct (sorted_at ks i k (Forall2_valid _ _ _ HF) (inv_sorted _ _ _ _ Hi) Ek) as (Hkv & Ha & Hb).
  destruct (cut_of s L ks hgt _ _ k Hi (eq_sym (take_drop i ks)) Ha Hb) as (A & B & EL & HlA & Hc).
  apply lookup_lt_Some in Ek. rewrite length_take, Nat.min_l in HlA by lia.
  destruct (search_lt s A B (take i ks) (drop i ks) hgt k) as (y & Ey & Hy);
    [by rewrite <- EL, take_drop | done | by rewrite <- EL |].
  unfold iter_Prev, iter_key. rewrite Ex. cbn [mbind option_bind]. rewrite Hk. cbn [mbind option_bind].
  rewrite Ey. cbn [mbind option_bind]. f_equal. apply (before_ok s L ks hgt); [done | lia |].
  by rewrite EL, <- HlA, take_app_length.
Qed.

Lemma Contains_ok s L ks hgt k :
  sl_inv s L ks hgt -> (forall x, x ∈ L -> (1 <= hgt x)%nat) -> valid k ->
  exists b, Contains compare s k = Some b /\ (b = true <-> exists x, x ∈ ks /\ compare k x = 0).
Proof.
  intros Hi Hpos Hk. pose proof (inv_sorted _ _ _ _ Hi) as Hs.
  pose proof (Forall2_valid _ _ _ (inv_keys _ _ _ _ Hi)) as Hv.
  destruct (sorted_cut k ks Hk Hv Hs) as (ka & kb & E & Ha & Hb).
  destruct (cut_of s L ks hgt _ _ k Hi E Ha Hb) as (A & B & EL & HlA & Hc).
  destruct (search_ge s A B ka kb hgt k) as (prev & Ep); [by rewrite <- EL, <- E | done | by rewrite <- EL |].
  pose proof (Forall2_valid _ _ _ (cut_A _ _ _ _ _ _ Hc)) as HvA.
  pose proof (cut_B _ _ _ _ _ _ Hc) as HB. rewrite E in Hs |- *.
  pose proof (contains_ok k ka kb Hk (Forall2_valid _ _ _ HB) HvA Hs Ha Hb) as Hiff.
  unfold Contains. rewrite Ep. cbn [mbind option_bind].
  destruct HB as [|x y B kb [Hx _] _]; cbn [head] in *.
  - exists false. split; [done|]. rewrite <- Hiff. done.
  - rewrite Hx. cbn [mbind option_bind]. eexists. split; [reflexivity|]. rewrite Z.eqb_eq. exact Hiff.
Qed.

Lemma search_cursor s ks : holds s ks -> exists pos, cursor_spec s ks pos.
Proof.
  intros (L & hgt & Hi & Hpos). pose proof (inv_keys _ _ _ _ Hi) as HF.
  assert (length L = length ks) as Hlen by (by apply Forall2_length in HF).
  exists (fun i => L !! i). split.
  - intros i. destruct (Nat.ltb_spec i (length ks)).
    + by destruct (lookup_lt_is_Some_2 L i ltac:(lia)) as [x ->].
    + by rewrite lookup_ge_None_2 by lia.
  - intros i. unfold iter_key. destruct (L !! i) as [x|] eqn:Ex.
    + destruct (Forall2_lookup_l _ _ _ _ _ HF Ex) as (k & Ek & Hk & _). by rewrite Ek.
    + symmetry. apply lookup_ge_None_2. apply lookup_ge_None_1 in Ex. lia.
  - unfold iter_SeekToFirst. rewrite (next_0 s L ks hgt [] head_ L Hi Hpos eq_refl). by destruct L.
  - intros i Hlt. destruct (lookup_lt_is_Some_2 L i ltac:(lia)) as [x Ex]. rewrite Ex. cbn.
    rewrite (next_0 s L ks hgt (head_ :: take i L) x (drop (S i) L) Hi Hpos).
    + f_equal. rewrite head_lookup, lookup_drop. f_equal. lia.
    + cbn [app]. by rewrite take_drop_middle.
  - intros i Hlt. apply (iter_Prev_ok s L ks hgt i Hi Hpos). lia.
  - destruct (search_last s L ks hgt Hi Hpos) as (y & Ey & Hy). unfold iter_SeekToLast. rewrite Ey.
    cbn [mbind option_bind]. f_equal. rewrite <- Hlen. rewrite <- (take_ge L (length L)) in Hy by lia.
    by apply (before_ok s L ks hgt).
  - intros k ka kb Hk E Ha Hb.
    destruct (cut_of s L ks hgt _ _ k Hi E Ha Hb) as (A & B & EL & HlA & Hc).
    destruct (search_ge s A B ka kb hgt k) as (prev & Ep); [by rewrite <- EL, <- E | done | by rewrite <- EL |].
    unfold iter_Seek. rewrite Ep. cbn [mbind option_bind]. f_equal.
    rewrite EL, <- HlA, lookup_app_r, Nat.sub_diag by lia. apply head_lookup.
  - intros k Hk. by apply (Contains_ok s L ks hgt).
Qed.

(** The searches and the iterator are those of the ordered list of keys: at
    every position the iterator is valid exactly below the number of keys and
    reads that key; first, last, next and previous move as expected (back before
    the first key is invalid); [Seek] stops at the first key not below the
    target, and [Contains] tells whether some key compares equal.  All of them
    return: no walk runs out of fuel or off the list. *)
Theorem skiplist_search s ks : holds s ks -> exists pos, cursor_spec s ks pos.
Proof. apply search_cursor. Qed.

(** The order of the stores of an insertion keeps concurrent readers right:
    after every store of the linking loop (the new node's own link, then its
    predecessor's, level by level) the list holds exactly the old keys, or, from
    the moment the first predecessor is linked, the old keys and the new one; so
    by [skiplist_search] a reader between two stores sees one list or the
    other. *)
Theorem insert_published s ka kb k :
  holds s (ka ++ kb) -> place k ka kb ->
  exists s1 x h prev,
    insert_prepare compare s k = Some (s1, x, h, prev) /\ (1 <= h)%nat /\
    forall i, (i <= h)%nat -> exists si, link_loop i 0 s1 prev x = Some si /\
      let now := if (i =? 0)%nat then ka ++ kb else ka ++ k :: kb in
      holds si now /\
      ((i < h)%nat -> forall y, exists sh, SetNext si x i y = Some sh /\ holds sh now).
Proof. apply insert_steps. Qed.

Lemma holds_ordered s ks :
  holds s ks -> StronglySorted (fun a b => compare a b < 0) ks /\ Forall valid ks.
Proof.
  intros (L & hgt & Hi & _). split; [apply (inv_sorted _ _ _ _ Hi)|].
  apply (Forall2_valid _ _ _ (inv_keys _ _ _ _ Hi)).
Qed.

Lemma new_SkipList_holds : holds new_SkipList [].
Proof.
  exists [], (fun x => kMaxHeight). split; [|intros x Hx; by apply not_elem_of_nil in Hx].
  assert (forall x, x ∈ [head_] -> x = head_) as H1 by (intros x; by rewrite list_elem_of_singleton).
  split; try done.
  - constructor; [apply not_elem_of_nil | constructor].
  - intros x ->%H1. by eexists.
  - intros [|y l1] x l2 i E Hi; [|by destruct l1]. injection E as <- <-.
    unfold Next. cbn [new_SkipList sl_nodes]. cbn [lookup list_lookup head_ mbind option_bind node_next].
    by rewrite lookup_replicate_2.
  - constructor.
  - cbn. unfold kMaxHeight. lia.
  - intros x Hx. by apply not_elem_of_nil in Hx.
Qed.
End Correct.

(** * Integers as keys *)

#[export] Instance Z_KeyOrder : KeyOrder (fun _ : Z => True) Z.sub.
Proof. split; lia. Qed.

Lemma skiplist_insert_witness :
  exists s ks, insert_all (compare := Z.sub) new_SkipList [3; 1; 2] = Some s /\
    ks ≡ₚ [] ++ [3; 1; 2] /\ holds (valid := fun _ => True) (compare := Z.sub) s ks.
Proof.
  apply skiplist_insert; [exact new_SkipList_holds | repeat constructor | by intros x k [] |].
  repeat constructor; lia.
Defined.

(** The list after inserting 3, 1 and 2, and a fourth key on the way in. *)
Lemma holds_3 :
  exists s, insert_all (compare := Z.sub) new_SkipList [3; 1] = Some s /\
    holds (valid := fun _ => True) (compare := Z.sub) s ([1] ++ [3]).
Proof.
  destruct (Insert_ok (compare := Z.sub) new_SkipList [] [] 3) as (s1 & E1 & H1).
  { exact new_SkipList_holds. }
  { by split. }
  destruct (Insert_ok (compare := Z.sub) s1 [] [3] 1 H1) as (s2 & E2 & H2).
  { split; [done | constructor | by repeat constructor]. }
  exists s2. cbn [insert_all]. rewrite E1. cbn [mbind option_bind]. by rewrite E2.
Qed.

Lemma skiplist_search_witness :
  exists s pos, insert_all (compare := Z.sub) new_SkipList [3; 1] = Some s /\
    cursor_spec (compare := Z.sub) (valid := fun _ => True) s [1; 3] pos.
Proof.
  destruct holds_3 as (s & E & H). destruct (skiplist_search s ([1] ++ [3]) H) as [pos Hpos].
  exists s, pos. split; [exact E | exact Hpos].
Defined.

Lemma insert_published_witness :
  exists s s1 x h prev, insert_all (compare := Z.sub) new_SkipList [3; 1] = Some s /\
    insert_prepare Z.sub s 2 = Some (s1, x, h, prev) /\ (1 <= h)%nat.
Proof.
  destruct holds_3 as (s & E & H).
  destruct (insert_published s [1] [3] 2 H) as (s1 & x & h & prev & E1 & Hh & _).
  { split; [done | by repeat constructor | by repeat constructor]. }
  exists s, s1, x, h, prev. split; [exact E|]. split; [exact E1 | exact Hh].
Defined.

(** The walks of the definitions themselves. *)
Example skiplist_run :
  match insert_all (compare := Z.sub) new_SkipList [30; 10; 50; 20; 40] with
  | Some s => (Contains Z.sub s 40, Contains Z.sub s 45, it ← iter_Seek Z.sub s 25; iter_key s it,
               it ← iter_SeekToLast s; it ← iter_Prev Z.sub s it; iter_key s it,
               it ← iter_SeekToFirst s; iter_Prev Z.sub s it)
  | None => (None, None, None, None, None)
  end = (Some true, Some false, Some 30, Some 40, Some None).
Proof. vm_compute. reflexivity. Qed.
