(* ===== verification/LdbMemtable.v ===== *)
(** leveldb: the memtable (db/memtable.cc, db/memtable.h) and the insertion of a
    write batch into it (MemTableInserter and InsertInto of db/write_batch.cc).

    The keys of the skip list are pointers into the arena: an entry here is the
    bytes a pointer points to, which never change.  A read past the end of an
    entry is [None].

    [mem_holds t ents]: the table contains the entries [ents].  The reference is
    [mem_get]: the newest entry of the key that the snapshot sees.
    [memtable_get]: reading the table is reading the entries.
    [insert_into]: inserting a batch adds an entry for each of its operations,
    with consecutive sequence numbers. *)

From Stdlib Require Import Sorting.Sorted.
From S2P Require Import Prelude Leb128 LdbCoding LdbStatus LdbFilename LdbFormat LdbBatch LdbSkiplist.
Open Scope Z_scope.

(** * Entries *)

(** The slice at [data], and what follows it.  The number is read from the first
    five bytes. *)
Definition mem_GetLengthPrefixedSlice (data : list byte) : option (list byte * list byte) :=
  let first := take 5 data in
  '(len, p) ← GetVarint32Ptr first;
  let p := drop (length first - length p) data in
  if len <=? size p then Some (take (Z.to_nat len) p, drop (Z.to_nat len) p) else None.

Definition EncodeKey (target : list byte) : list byte :=
  PutVarint32 [] (u32 (size target)) ++ target.

Section MemTable.
Context {user_comparator : Comparator}.

(** [KeyComparator::operator()]; on bytes that are no entry, where the code reads
    out of bounds, the result is of no use. *)
Definition mem_KeyComparator (a b : list byte) : Z :=
  match mem_GetLengthPrefixedSlice a, mem_GetLengthPrefixedSlice b with
  | Some (a, _), Some (b, _) => internal_compare user_comparator a b
  | _, _ => 0
  end.

Record MemTable := mk_mem { mem_refs : Z; mem_table : SkipList (list byte) }.

Definition new_MemTable : MemTable := mk_mem 0 new_SkipList.

Definition mem_Ref (t : MemTable) : MemTable := mk_mem (s32 (mem_refs t + 1)) (mem_table t).

(** [None] when the table is deleted. *)
Definition mem_Unref (t : MemTable) : option MemTable :=
  let refs := s32 (mem_refs t - 1) in
  if refs <=? 0 then None else Some (mk_mem refs (mem_table t)).

(** The bytes asked from the arena. *)
Definition encoded_len (key value : list byte) : Z :=
  let internal_key_size := size key + 8 in
  u64 (VarintLength internal_key_size + internal_key_size + VarintLength (size value) + size value).

Definition encode_entry (s type : Z) (key value : list byte) : list byte :=
  EncodeVarint32 (u32 (size key + 8)) ++ key ++ EncodeFixed64 (Z.lor (u64 (Z.shiftl s 8)) type) ++
  EncodeVarint32 (u32 (size value)) ++ value.

Definition mem_Add (t : MemTable) (s type : Z) (key value : list byte) : option MemTable :=
  table ← Insert mem_KeyComparator (mem_table t) (encode_entry s type key value);
  Some (mk_mem (mem_refs t) table).

(** Whether the key was found, [*value] and [*s]. *)
Definition mem_Get (t : MemTable) (key : LookupKey) (value : list byte) (s : Status)
  : option (bool * list byte * Status) :=
  it ← iter_Seek mem_KeyComparator (mem_table t) (memtable_key key);
  if iter_Valid it then
    entry ← iter_key (mem_table t) it;
    '(key_length, _) ← GetVarint32Ptr (take 5 entry);
    '(ikey, rest) ← mem_GetLengthPrefixedSlice entry;
    if @Compare user_comparator (take (Z.to_nat (key_length - 8)) ikey) (lookup_user_key key) =? 0
    then
      let tag := DecodeFixed64 (drop (Z.to_nat (key_length - 8)) ikey) in
      if Z.land tag 0xff =? kTypeValue then
        '(v, _) ← mem_GetLengthPrefixedSlice rest;
        Some (true, v, s)
      else if Z.land tag 0xff =? kTypeDeletion then Some (true, value, NotFound [] [])
      else Some (false, value, s)
    else Some (false, value, s)
  else Some (false, value, s).

(** ** Iterator *)

Definition mem_iter_Seek (t : MemTable) (k : list byte) : option sl_Iterator :=
  iter_Seek mem_KeyComparator (mem_table t) (EncodeKey k).
Definition mem_iter_Prev (t : MemTable) (it : sl_Iterator) : option sl_Iterator :=
  iter_Prev mem_KeyComparator (mem_table t) it.
Definition mem_iter_key (t : MemTable) (it : sl_Iterator) : option (list byte) :=
  entry ← iter_key (mem_table t) it;
  '(key, _) ← mem_GetLengthPrefixedSlice entry; Some key.
Definition mem_iter_value (t : MemTable) (it : sl_Iterator) : option (list byte) :=
  entry ← iter_key (mem_table t) it;
  '(_, rest) ← mem_GetLengthPrefixedSlice entry;
  '(value, _) ← mem_GetLengthPrefixedSlice rest; Some value.

(** ** MemTableInserter *)

(** [sequence_] and [mem_] ([None] once an insertion has failed). *)
Definition MemTableInserter : Type := Z * option MemTable.

#[export] Instance inserter_handler : Handler MemTableInserter := {
  handler_Put h key value :=
    (u64 (fst h + 1), t ← snd h; mem_Add t (fst h) kTypeValue key value);
  handler_Delete h key :=
    (u64 (fst h + 1), t ← snd h; mem_Add t (fst h) kTypeDeletion key []);
}.

Definition InsertInto (b : WriteBatch) (t : MemTable) : Status * option MemTable :=
  let '(s, (_, t)) := Iterate b (Sequence b, Some t) in (s, t).
End MemTable.


(** * Reference *)

Record mem_entry := mk_entry { e_seq : Z; e_type : Z; e_key : list byte; e_value : list byte }.

Definition entry_bytes (e : mem_entry) : list byte :=
  encode_entry (e_seq e) (e_type e) (e_key e) (e_value e).

Definition entry_ikey (e : mem_entry) : list byte :=
  AppendInternalKey [] (mk_key (e_key e) (e_seq e) (e_type e)).

(** The newest entry of a list. *)
Fixpoint newest (ents : list mem_entry) : option mem_entry :=
  match ents with
  | [] => None
  | e :: ents =>
      match newest ents with
      | Some b => if e_seq b <=? e_seq e then Some e else Some b
      | None => Some e
      end
  end.

Section Reference.
Context {c : Comparator}.

(** Of the user key [u], and not newer than the snapshot [s]. *)
Definition visible (u : list byte) (s : Z) (e : mem_entry) : bool :=
  (@Compare c (e_key e) u =? 0) && (e_seq e <=? s).

Definition mem_get (ents : list mem_entry) (u : list byte) (s : Z) : option mem_entry :=
  newest (List.filter (visible u s) ents).
End Reference.

Lemma newest_None ents : newest ents = None -> ents = [].
Proof. destruct ents as [|e l]; [done|]. cbn. destruct (newest l) as [b|]; [destruct (_ <=? _)|]; done. Qed.

Lemma newest_Some ents e :
  newest ents = Some e -> In e ents /\ forall e', In e' ents -> e_seq e' <= e_seq e.
Proof.
  revert e; induction ents as [|x ents IH]; intros e; [done|]. cbn [newest].
  destruct (newest ents) as [b|] eqn:En.
  - destruct (IH b eq_refl) as [Hb Hmax].
    destruct (Z.leb_spec (e_seq b) (e_seq x)); intros [= <-]; split.
    + by left.
    + intros e' [<-|He']; [lia|]. specialize (Hmax e' He'). lia.
    + by right.
    + intros e' [<-|He']; [lia | by apply Hmax].
  - apply newest_None in En as ->. intros [= <-]. split; [by left|]. intros e' [<-|[]]. lia.
Qed.

Lemma NoDup_seq_eq ents e e' :
  NoDup (map e_seq ents) -> In e ents -> In e' ents -> e_seq e = e_seq e' -> e = e'.
Proof.
  induction ents as [|x ents IH]; cbn [map In]; [done|]. intros Hnd He He' E.
  inversion Hnd as [|? ? Hx Hnd']; subst.
  destruct He as [<-|He], He' as [<-|He']; [done| | |by apply IH].
  - destruct Hx. apply list_elem_of_In. rewrite E. by apply in_map.
  - destruct Hx. apply list_elem_of_In. rewrite <- E. by apply in_map.
Qed.

Section Visible.
Context {c : Comparator}.

Lemma visible_In (ents : list mem_entry) u s e :
  In e (List.filter (visible (c := c) u s) ents) <->
  In e ents /\ @Compare c (e_key e) u = 0 /\ e_seq e <= s.
Proof. rewrite filter_In. unfold visible. rewrite andb_true_iff, Z.eqb_eq, Z.leb_le. tauto. Qed.

Lemma mem_get_None (ents : list mem_entry) u s :
  (forall e, In e ents -> @Compare c (e_key e) u = 0 -> s < e_seq e) -> mem_get (c := c) ents u s = None.
Proof.
  intros H. unfold mem_get. destruct (newest _) as [e|] eqn:E; [|done].
  apply newest_Some in E as [(He & Hu & Hs)%visible_In _]. specialize (H e He Hu). lia.
Qed.

Lemma mem_get_Some (ents : list mem_entry) u s e :
  NoDup (map e_seq ents) -> In e ents -> @Compare c (e_key e) u = 0 -> e_seq e <= s ->
  (forall e', In e' ents -> @Compare c (e_key e') u = 0 -> e_seq e' <= s -> e_seq e' <= e_seq e) ->
  mem_get (c := c) ents u s = Some e.
Proof.
  intros Hnd He Hu Hs Hmax. unfold mem_get. destruct (newest _) as [b|] eqn:E.
  - apply newest_Some in E as [(Hb & Hub & Hsb)%visible_In Hall]. f_equal.
    apply (NoDup_seq_eq ents); [done..|]. specialize (Hmax b Hb Hub Hsb).
    specialize (Hall e). rewrite visible_In in Hall. specialize (Hall (conj He (conj Hu Hs))). lia.
  - apply newest_None in E. assert (In e (List.filter (visible (c := c) u s) ents)) as Hin by (by apply visible_In).
    rewrite E in Hin. destruct Hin.
Qed.
End Visible.

(** * Entries in the table *)

Lemma mem_slice_app s rest :
  size s < 2 ^ 32 -> mem_GetLengthPrefixedSlice (EncodeVarint32 (size s) ++ s ++ rest) = Some (s, rest).
Proof.
  intros Hs. pose proof (size_nonneg s) as Hn.
  pose proof (length_EncodeVarint32 (size s) ltac:(lia)) as Hl.
  unfold mem_GetLengthPrefixedSlice. rewrite take_app, take_ge, GetVarint32Ptr_eq by lia.
  rewrite GetVarint32_app by lia. cbn [mbind option_bind].
  set (v := EncodeVarint32 (size s)) in *. set (r := take (5 - length v) (s ++ rest)).
  replace (length (v ++ r) - length r)%nat with (length v) by (rewrite length_app; lia).
  rewrite drop_app_length, size_app. pose proof (size_nonneg rest).
  rewrite (proj2 (Z.leb_le _ _)) by lia. by rewrite take_size_app, drop_size_app.
Qed.

Section Table.
Context {c : Comparator} {valid : list byte -> Prop} {laws : ComparatorLaws valid c}.

Record entry_ok (e : mem_entry) : Prop := {
  eok_seq : 0 <= e_seq e < 2 ^ 56;
  eok_type : e_type e = kTypeValue \/ e_type e = kTypeDeletion;
  eok_valid : valid (e_key e);
  eok_key : size (e_key e) + 8 < 2 ^ 32;
  eok_value : size (e_value e) < 2 ^ 32;
}.

Lemma eok_type01 e : entry_ok e -> 0 <= e_type e <= 1.
Proof. intros He. destruct (eok_type e He) as [-> | ->]; unfold kTypeValue, kTypeDeletion; lia. Qed.

Lemma entry_tag e : entry_ok e ->
  key_tag (entry_ikey e) = e_seq e * 256 + e_type e /\ ExtractUserKey (entry_ikey e) = e_key e /\
  size (entry_ikey e) = size (e_key e) + 8.
Proof.
  intros He. pose proof (eok_type01 e He). pose proof (eok_seq e He).
  unfold entry_ikey. rewrite append_internal_key. cbn [user_key sequence vtype].
  rewrite tag_app, extract_app, size_fixed64.
  destruct (pack_value (e_seq e) (e_type e)) as [-> Hb]; [lia..|]. rewrite u64_small by lia. done.
Qed.

Lemma entry_slice e : entry_ok e ->
  mem_GetLengthPrefixedSlice (entry_bytes e)
  = Some (entry_ikey e, EncodeVarint32 (size (e_value e)) ++ e_value e).
Proof.
  intros He. destruct (entry_tag e He) as (_ & _ & Es). pose proof (size_nonneg (e_key e)).
  pose proof (size_nonneg (e_value e)). pose proof (eok_key e He). pose proof (eok_value e He).
  unfold entry_bytes, encode_entry. rewrite !u32_small by lia. rewrite <- Es.
  rewrite (app_assoc (e_key e)). change (e_key e ++ EncodeFixed64 _) with (entry_ikey e).
  apply mem_slice_app. lia.
Qed.

(** The bytes that can be compared. *)
Definition mem_valid (b : list byte) : Prop :=
  exists k rest, mem_GetLengthPrefixedSlice b = Some (k, rest) /\ ivalid (valid := valid) k.

Lemma entry_valid e : entry_ok e -> mem_valid (entry_bytes e).
Proof.
  intros He. eexists _, _. split; [by apply entry_slice|]. destruct (entry_tag e He) as (_ & Ek & Es).
  split; [pose proof (size_nonneg (e_key e)); lia | rewrite Ek; apply He].
Qed.

#[export] Instance mem_order : KeyOrder mem_valid (mem_KeyComparator (user_comparator := c)).
Proof.
  split; unfold mem_KeyComparator.
  - intros a b (ka & ra & -> & Ha) (kb & rb & -> & Hb).
    apply (@cmp_antisym _ _ (internal_laws (laws := laws)) ka kb Ha Hb).
  - intros a b d (ka & ra & -> & Ha) (kb & rb & -> & Hb) (kd & rd & -> & Hd).
    apply (@cmp_trans_lt _ _ (internal_laws (laws := laws)) ka kb kd Ha Hb Hd).
  - intros a b d (ka & ra & -> & Ha) (kb & rb & -> & Hb) (kd & rd & -> & Hd).
    apply (@cmp_trans_lt_r _ _ (internal_laws (laws := laws)) ka kb kd Ha Hb Hd).
Qed.

Abbreviation cmp_mem := (mem_KeyComparator (user_comparator := c)).

Lemma cmp_entries a b : entry_ok a -> entry_ok b ->
  cmp_mem (entry_bytes a) (entry_bytes b) = internal_compare c (entry_ikey a) (entry_ikey b).
Proof. intros Ha Hb. unfold mem_KeyComparator. by rewrite !entry_slice. Qed.

(** The table contains the entries [ents]. *)
Definition mem_holds (t : MemTable) (ents : list mem_entry) : Prop :=
  exists ks, holds (compare := cmp_mem) (valid := mem_valid) (mem_table t) ks /\
    ks ≡ₚ map entry_bytes ents /\ Forall entry_ok ents.

Lemma new_MemTable_holds : mem_holds new_MemTable [].
Proof. exists []. split; [apply new_SkipList_holds | done]. Qed.

Lemma Add_ok t ents e :
  mem_holds t ents -> entry_ok e -> Forall (fun e' => e_seq e' <> e_seq e) ents ->
  exists t', mem_Add (user_comparator := c) t (e_seq e) (e_type e) (e_key e) (e_value e) = Some t' /\
    mem_holds t' (e :: ents).
Proof.
  intros (ks & Hks & Hp & Hok) He Hne.
  destruct (place_exists (mem_table t) ks (entry_bytes e) Hks (entry_valid e He)) as (ka & kb & -> & Hpl).
  - apply List.Forall_forall. intros b Hb.
    apply list_elem_of_In in Hb. rewrite Hp in Hb. apply list_elem_of_In, in_map_iff in Hb as (e' & <- & Hin).
    rewrite List.Forall_forall in Hok, Hne. specialize (Hok e' Hin). specialize (Hne e' Hin).
    rewrite cmp_entries by done. destruct (entry_tag e He) as (Et & _), (entry_tag e' Hok) as (Et' & _).
    pose proof (eok_type01 e He). pose proof (eok_type01 e' Hok).
    pose proof (icmp_sgn (c := c) (entry_ikey e') (entry_ikey e)) as Hs. rewrite Et, Et' in Hs.
    intros E. rewrite E in Hs. destruct (Z.eqb_spec (@Compare c (ExtractUserKey (entry_ikey e'))
      (ExtractUserKey (entry_ikey e))) 0); lia.
  - destruct (Insert_ok (mem_table t) ka kb (entry_bytes e) Hks Hpl) as (tb & Ei & Htb).
    eexists. unfold mem_Add. change (encode_entry _ _ _ _) with (entry_bytes e). rewrite Ei.
    cbn [mbind option_bind]. split; [reflexivity|]. eexists. cbn [mem_table]. split; [exact Htb|].
    split; [|by constructor]. cbn [map]. rewrite <- Permutation_middle. by f_equiv.
Qed.

(** ** Reading *)

Lemma entry_of (ents : list mem_entry) ks b :
  ks ≡ₚ map entry_bytes ents ->
  In b ks <-> exists e, entry_bytes e = b /\ In e ents.
Proof. intros Hp. by rewrite <- list_elem_of_In, Hp, list_elem_of_In, in_map_iff. Qed.

Lemma mem_Seek_ok t ks k :
  holds (compare := cmp_mem) (valid := mem_valid) (mem_table t) ks -> mem_valid k ->
  exists ka kb, ks = ka ++ kb /\ Forall (fun b => cmp_mem b k < 0) ka /\
    Forall (fun b => 0 <= cmp_mem b k) kb /\
    StronglySorted (fun a b => cmp_mem a b < 0) kb /\
    exists it, iter_Seek cmp_mem (mem_table t) k = Some it /\
      iter_key (mem_table t) it = head kb /\ iter_Valid it = match kb with [] => false | _ => true end.
Proof.
  intros Hks Hk. destruct (holds_ordered _ _ Hks) as [Hs Hv].
  destruct (sorted_cut k ks Hk Hv Hs) as (ka & kb & -> & Ha & Hb). exists ka, kb.
  split; [done|]. split; [done|]. split; [done|]. split.
  { clear - Hs. induction ka as [|a ka IH]; [done|]. cbn [app] in Hs.
    apply StronglySorted_inv in Hs as [Hs _]. by apply IH. }
  destruct (search_cursor _ _ Hks) as [pos Hpos]. exists (pos (length ka)).
  split; [by apply (cur_seek _ _ _ Hpos k ka kb)|].
  rewrite (cur_key _ _ _ Hpos), (cur_valid _ _ _ Hpos), lookup_app_r, Nat.sub_diag, length_app by lia.
  destruct kb as [|b kb]; cbn [length head lookup list_lookup].
  - by rewrite Nat.add_0_r, Nat.ltb_irrefl.
  - by rewrite (proj2 (Nat.ltb_lt _ _)) by lia.
Qed.

(** The lookup key compares as an entry of the snapshot's number would. *)
Lemma lookup_entry u s :
  size u + 8 < 2 ^ 32 ->
  mem_GetLengthPrefixedSlice (memtable_key (new_LookupKey u s))
  = Some (entry_ikey (mk_entry s kTypeValue u []), []) /\
  lookup_user_key (new_LookupKey u s) = u.
Proof.
  intros Hu. pose proof (size_nonneg u). split.
  - unfold memtable_key, new_LookupKey; cbn [lk_bytes]. rewrite u32_small by lia.
    assert (size u + 8 = size (entry_ikey (mk_entry s kTypeValue u []))) as ->
      by (unfold entry_ikey; rewrite append_internal_key; cbn [user_key]; by rewrite size_fixed64).
    change (u ++ EncodeFixed64 _) with (entry_ikey (mk_entry s kTypeValue u [])).
    rewrite <- (app_nil_r (entry_ikey _)) at 2. apply mem_slice_app.
    unfold entry_ikey; rewrite append_internal_key, size_fixed64. cbn [user_key e_key]. lia.
  - unfold lookup_user_key, internal_key, new_LookupKey; cbn [lk_bytes lk_kstart].
    rewrite u32_small by lia. rewrite drop_app_length.
    pose proof (length_EncodeVarint32 (size u + 8) ltac:(lia)).
    unfold size. rewrite !length_app, length_EncodeFixed64.
    match goal with |- take ?n _ = _ => replace n with (length u) by lia end. apply take_app_length.
Qed.

Lemma lookup_ok u s : valid u -> size u + 8 < 2 ^ 32 -> 0 <= s < 2 ^ 56 ->
  entry_ok (mk_entry s kTypeValue u []).
Proof. intros. split; cbn; auto. reflexivity. Qed.

Lemma lookup_valid u s : valid u -> size u + 8 < 2 ^ 32 -> 0 <= s < 2 ^ 56 ->
  mem_valid (memtable_key (new_LookupKey u s)).
Proof.
  intros Hv Hu Hs. eexists _, _. split; [by apply lookup_entry|].
  destruct (entry_tag _ (lookup_ok u s Hv Hu Hs)) as (_ & Ek & Es).
  split; [rewrite Es; cbn; pose proof (size_nonneg u); lia | by rewrite Ek].
Qed.

Lemma cmp_lookup e u s :
  entry_ok e -> size u + 8 < 2 ^ 32 ->
  cmp_mem (entry_bytes e) (memtable_key (new_LookupKey u s))
  = internal_compare c (entry_ikey e) (entry_ikey (mk_entry s kTypeValue u [])).
Proof. intros He Hu. unfold mem_KeyComparator. rewrite entry_slice by done. by rewrite (proj1 (lookup_entry u s Hu)). Qed.

(** The order of entries, in terms of their fields. *)
Lemma ikey_lt a b : entry_ok a -> entry_ok b ->
  internal_compare c (entry_ikey a) (entry_ikey b) < 0 <->
  @Compare c (e_key a) (e_key b) < 0 \/
  @Compare c (e_key a) (e_key b) = 0 /\ e_seq b * 256 + e_type b < e_seq a * 256 + e_type a.
Proof.
  intros Ha Hb. destruct (entry_tag a Ha) as (Ta & Ua & _), (entry_tag b Hb) as (Tb & Ub & _).
  rewrite icmp_lt, Ta, Tb, Ua, Ub. done.
Qed.

(** What [Get] does with the entry it finds. *)
Lemma Get_entry t u s value st e it :
  entry_ok e -> size u + 8 < 2 ^ 32 ->
  iter_Seek cmp_mem (mem_table t) (memtable_key (new_LookupKey u s)) = Some it ->
  iter_Valid it = true -> iter_key (mem_table t) it = Some (entry_bytes e) ->
  mem_Get (user_comparator := c) t (new_LookupKey u s) value st
  = Some (if @Compare c (e_key e) u =? 0 then
            if e_type e =? kTypeValue then (true, e_value e, st) else (true, value, NotFound [] [])
          else (false, value, st)).
Proof.
  intros He Hu Es Hv Hk. unfold mem_Get. rewrite Es. cbn [mbind option_bind]. rewrite Hv, Hk.
  cbn [mbind option_bind]. destruct (entry_tag e He) as (Et & Ek & Esz).
  pose proof (size_nonneg (e_key e)). pose proof (eok_key e He). pose proof (eok_value e He).
  pose proof (length_EncodeVarint32 (size (e_key e) + 8) ltac:(lia)) as Hl.
  assert (exists r, GetVarint32Ptr (take 5 (entry_bytes e)) = Some (size (e_key e) + 8, r)) as [r ->].
  { unfold entry_bytes, encode_entry. rewrite u32_small, take_app, take_ge, GetVarint32Ptr_eq by lia.
    rewrite GetVarint32_app by lia. eauto. }
  cbn [mbind option_bind]. rewrite entry_slice by done. cbn [mbind option_bind].
  rewrite (proj2 (lookup_entry u s Hu)).
  assert (take (Z.to_nat (size (e_key e) + 8 - 8)) (entry_ikey e) = e_key e) as ->.
  { rewrite <- Esz. exact Ek. }
  assert (DecodeFixed64 (drop (Z.to_nat (size (e_key e) + 8 - 8)) (entry_ikey e))
          = e_seq e * 256 + e_type e) as ->.
  { rewrite <- Esz. exact Et. }
  destruct (Z.eqb_spec (@Compare c (e_key e) u) 0) as [E|E]; [|done].
  pose proof (eok_type01 e He). rewrite land_255, Z.add_comm, Z_mod_plus_full, Z.mod_small by lia.
  destruct (eok_type e He) as [-> | ->].
  - rewrite Z.eqb_refl. pose proof (mem_slice_app (e_value e) [] (eok_value e He)) as Hsl.
    rewrite app_nil_r in Hsl. by rewrite Hsl.
  - done.
Qed.

(** C11: reading the memtable is reading its entries: [Get] finds, among the
    entries of the user key that are not newer than the snapshot, the newest one,
    and returns its value, or NotFound if it is a deletion; if there is none it
    returns false and leaves both results alone.  It never fails. *)
Theorem memtable_get t ents u s value st :
  mem_holds t ents -> NoDup (map e_seq ents) ->
  valid u -> size u + 8 < 2 ^ 32 -> 0 <= s < 2 ^ 56 ->
  mem_Get (user_comparator := c) t (new_LookupKey u s) value st
  = Some (match mem_get (c := c) ents u s with
          | None => (false, value, st)
          | Some e => if e_type e =? kTypeValue then (true, e_value e, st) else (true, value, NotFound [] [])
          end).
Proof.
  intros (ks & Hks & Hp & Hok) Hnd Hv Hu Hs. rewrite List.Forall_forall in Hok.
  pose proof (lookup_ok u s Hv Hu Hs) as Hld. set (ld := mk_entry s kTypeValue u []) in *.
  destruct (mem_Seek_ok t ks _ Hks (lookup_valid u s Hv Hu Hs))
    as (ka & kb & Eks & Ha & Hb & Hsb & it & Hit & Hkey & Hval).
  rewrite List.Forall_forall in Ha.
  (* the entries that the snapshot sees are not before the lookup key *)
  assert (forall e, In e ents -> @Compare c (e_key e) u = 0 -> e_seq e <= s -> In (entry_bytes e) kb) as Hin.
  { intros e He Hue Hse. assert (In (entry_bytes e) ks) as Hi by (apply (entry_of ents ks); eauto).
    rewrite Eks in Hi. apply in_app_iff in Hi as [Hi|]; [|done]. specialize (Ha _ Hi).
    rewrite cmp_lookup, ikey_lt in Ha by auto. cbn [e_key e_seq e_type] in Ha.
    pose proof (eok_type01 e (Hok e He)). unfold kTypeValue in *. lia. }
  destruct kb as [|b kb]; cbn [head] in Hkey.
  - unfold mem_Get. rewrite Hit. cbn [mbind option_bind]. rewrite Hval. rewrite mem_get_None; [done|].
    intros e He Hue. destruct (Z.lt_ge_cases s (e_seq e)) as [|Hse]; [done|]. destruct (Hin e He Hue Hse).
  - assert (In b ks) as Hbk by (rewrite Eks; apply in_or_app; right; by left).
    apply (entry_of ents ks b Hp) in Hbk as (e & <- & He). specialize (Hok e He) as Heok.
    rewrite (Get_entry t u s value st e it) by done.
    apply StronglySorted_inv in Hsb as [_ Hsb]. rewrite List.Forall_forall in Hsb.
    inversion Hb as [|? ? Hge _]; subst. rewrite cmp_lookup in Hge by done.
    assert (forall e', In e' ents -> @Compare c (e_key e') u = 0 -> e_seq e' <= s ->
      e' = e \/ internal_compare c (entry_ikey e) (entry_ikey e') < 0) as Hafter.
    { intros e' He' Hu' Hs'. destruct (Hin e' He' Hu' Hs') as [E|Hi].
      - left. apply (NoDup_seq_eq ents); [done..|]. apply (f_equal mem_GetLengthPrefixedSlice) in E.
        rewrite !entry_slice in E by auto.
        assert (key_tag (entry_ikey e) = key_tag (entry_ikey e')) as E' by congruence. clear E. rename E' into E.
        destruct (entry_tag e Heok) as (Et & _), (entry_tag e' (Hok e' He')) as (Et' & _).
        rewrite Et, Et' in E. pose proof (eok_type01 e Heok).
        pose proof (eok_type01 e' (Hok e' He')). lia.
      - right. rewrite <- cmp_entries by auto. by apply Hsb. }
    assert (~ (@Compare c (e_key e) u < 0 \/
      @Compare c (e_key e) u = 0 /\ s * 256 + kTypeValue < e_seq e * 256 + e_type e)) as Hnlt.
    { intros Hor. apply (ikey_lt e ld Heok Hld) in Hor. exact (Zlt_not_le _ _ Hor Hge). }
    pose proof (eok_type01 e Heok). pose proof (eok_valid e Heok) as Hve.
    destruct (Z.eqb_spec (@Compare c (e_key e) u) 0) as [E|E].
    + rewrite (mem_get_Some (c := c) ents u s e); [done | done | done | done | unfold kTypeValue in *; lia |].
      intros e' He' Hu' Hs'. destruct (Hafter e' He' Hu' Hs') as [->|Hlt]; [lia|].
      specialize (Hok e' He'). rewrite ikey_lt in Hlt by done. pose proof (eok_type01 e' Hok).
      pose proof (cmp_trans_lt (e_key e) (e_key e') u Hve (eok_valid e' Hok) Hv) as Htr. lia.
    + rewrite mem_get_None; [done|]. intros e' He' Hu'.
      destruct (Z.lt_ge_cases s (e_seq e')) as [|Hs']; [done|].
      destruct (Hafter e' He' Hu' Hs') as [->|Hlt]; [done|].
      specialize (Hok e' He'). rewrite ikey_lt in Hlt by done.
      pose proof (cmp_trans (e_key e) (e_key e') u Hve (eok_valid e' Hok) Hv). lia.
Qed.

(** ** Iterating *)

(** The iterator over the entries [es] in the order of their internal keys. *)
Record mem_cursor (t : MemTable) (es : list mem_entry) (pos : nat -> sl_Iterator) : Prop := {
  mc_sorted : StronglySorted (fun a b => internal_compare c (entry_ikey a) (entry_ikey b) < 0) es;
  mc_valid i : iter_Valid (pos i) = (i <? length es)%nat;
  mc_key i : mem_iter_key t (pos i) = entry_ikey <$> es !! i;
  mc_value i : mem_iter_value t (pos i) = e_value <$> es !! i;
  mc_first : iter_SeekToFirst (mem_table t) = Some (pos 0%nat);
  mc_next i : (i < length es)%nat -> iter_Next (mem_table t) (pos i) = Some (pos (S i));
  mc_prev i : (i < length es)%nat ->
    mem_iter_Prev (user_comparator := c) t (pos i) = Some (match i with O => None | S j => pos j end);
  mc_last : iter_SeekToLast (mem_table t) = Some (match length es with O => None | S j => pos j end);
  mc_seek k ea eb : ivalid (valid := valid) k -> size k < 2 ^ 32 -> es = ea ++ eb ->
    Forall (fun e => internal_compare c (entry_ikey e) k < 0) ea ->
    Forall (fun e => 0 <= internal_compare c (entry_ikey e) k) eb ->
    mem_iter_Seek (user_comparator := c) t k = Some (pos (length ea));
}.

Lemma EncodeKey_slice k : size k < 2 ^ 32 -> mem_GetLengthPrefixedSlice (EncodeKey k) = Some (k, []).
Proof.
  intros Hk. pose proof (size_nonneg k). unfold EncodeKey, PutVarint32. rewrite u32_small by lia.
  cbn [app]. rewrite <- (app_nil_r k) at 2. by apply mem_slice_app.
Qed.

Lemma cmp_target es k : Forall entry_ok es -> size k < 2 ^ 32 ->
  Forall (fun b => cmp_mem b (EncodeKey k) < 0) (map entry_bytes es) <->
  Forall (fun e => internal_compare c (entry_ikey e) k < 0) es.
Proof.
  intros Hok Hk. rewrite Forall_map. induction Hok as [|e es He Hok IH]; [done|].
  rewrite !List.Forall_cons_iff, IH. unfold mem_KeyComparator. by rewrite entry_slice, EncodeKey_slice.
Qed.

Lemma cmp_target_ge es k : Forall entry_ok es -> size k < 2 ^ 32 ->
  Forall (fun b => 0 <= cmp_mem b (EncodeKey k)) (map entry_bytes es) <->
  Forall (fun e => 0 <= internal_compare c (entry_ikey e) k) es.
Proof.
  intros Hok Hk. rewrite Forall_map. induction Hok as [|e es He Hok IH]; [done|].
  rewrite !List.Forall_cons_iff, IH. unfold mem_KeyComparator. by rewrite entry_slice, EncodeKey_slice.
Qed.

(** The iterator of the memtable gives its entries, each once, with their
    internal keys and values, in the order of the internal keys (so the newest
    entry of a user key comes first); [Seek] stops at the first internal key not
    before the target.  Nothing fails. *)
Theorem memtable_iterator t ents :
  mem_holds t ents -> exists es pos, es ≡ₚ ents /\ mem_cursor t es pos.
Proof.
  intros (ks & Hks & Hp & Hok). apply Permutation_map_inv in Hp as (es & -> & Hp).
  exists es. destruct (search_cursor _ _ Hks) as [pos Hpos]. exists pos. split; [by symmetry|].
  assert (Forall entry_ok es) as Hoks by (by rewrite <- Hp).
  assert (forall i, iter_key (mem_table t) (pos i) = entry_bytes <$> es !! i) as Hkey.
  { intros i. rewrite (cur_key _ _ _ Hpos). apply list_lookup_fmap. }
  assert (forall i e, es !! i = Some e -> entry_ok e) as Hat.
  { intros i e Hi. rewrite List.Forall_forall in Hoks. apply Hoks, list_elem_of_In.
    by apply list_elem_of_lookup_2 in Hi. }
  destruct Hpos as [Pv _ P0 Pn Pp Pl Ps _]. rewrite length_map in *. split; try done.
  - destruct (holds_ordered _ _ Hks) as [Hs _]. clear - Hs Hoks laws.
    induction Hoks as [|e es He Hoks IH]; [constructor|]. cbn [map] in Hs.
    apply StronglySorted_inv in Hs as [Hs Hall]. constructor; [by apply IH|].
    rewrite Forall_map in Hall. rewrite List.Forall_forall in Hall, Hoks |- *. intros e' He'.
    rewrite <- cmp_entries by auto. by apply Hall.
  - intros i. unfold mem_iter_key. rewrite Hkey. destruct (es !! i) as [e|] eqn:Ei; [|done].
    cbn [fmap option_fmap option_map mbind option_bind]. by rewrite (entry_slice e (Hat i e Ei)).
  - intros i. unfold mem_iter_value. rewrite Hkey. destruct (es !! i) as [e|] eqn:Ei; [|done].
    cbn [fmap option_fmap option_map mbind option_bind]. rewrite (entry_slice e (Hat i e Ei)).
    cbn [mbind option_bind]. pose proof (mem_slice_app (e_value e) [] (eok_value e (Hat i e Ei))) as Hsl.
    rewrite app_nil_r in Hsl. by rewrite Hsl.
  - intros k ea eb Hk Hsz -> Ha Hb. unfold mem_iter_Seek. apply List.Forall_app in Hoks as [Hoa Hob].
    rewrite (Ps (EncodeKey k) (map entry_bytes ea) (map entry_bytes eb)); [by rewrite length_map| |
      apply map_app | by apply cmp_target | by apply cmp_target_ge].
    exists k, []. split; [by apply EncodeKey_slice | done].
Qed.

(** ** Inserting a batch *)

Definition op_entry (seq : Z) (op : batch_op) : mem_entry :=
  match op with
  | OpPut key value => mk_entry seq kTypeValue key value
  | OpDelete key => mk_entry seq kTypeDeletion key []
  end.

(** The entries of a batch that starts at [seq]. *)
Fixpoint batch_entries (seq : Z) (ops : list batch_op) : list mem_entry :=
  match ops with [] => [] | op :: ops => op_entry seq op :: batch_entries (seq + 1) ops end.

Definition op_fits (op : batch_op) : Prop :=
  match op with
  | OpPut key value => valid key /\ size key + 8 < 2 ^ 32 /\ size value < 2 ^ 32
  | OpDelete key => valid key /\ size key + 8 < 2 ^ 32
  end.

Lemma op_entry_ok seq op : 0 <= seq < 2 ^ 56 -> op_fits op -> entry_ok (op_entry seq op).
Proof.
  intros Hs Ho. destruct op as [key value|key]; cbn in Ho |- *; split; cbn; auto; try tauto. reflexivity.
Qed.

Lemma op_fits_ok op : op_fits op -> op_ok op.
Proof. destruct op as [key value|key]; cbn; intros H; [destruct H as (_ & H1 & H2) | destruct H as [_ H1]]; lia. Qed.

Lemma apply_op_ok t ents seq op :
  mem_holds t ents -> 0 <= seq < 2 ^ 56 -> op_fits op -> Forall (fun e => e_seq e < seq) ents ->
  exists t', apply_op (H := MemTableInserter) (seq, Some t) op = (seq + 1, Some t') /\
    mem_holds t' (op_entry seq op :: ents).
Proof.
  intros Ht Hs Ho Hlt. destruct (Add_ok t ents (op_entry seq op) Ht (op_entry_ok seq op Hs Ho)) as (t' & E & Ht').
  { revert Hlt. apply List.Forall_impl. intros e He. destruct op; cbn; lia. }
  exists t'. split; [|exact Ht']. destruct op as [key value|key]; cbn [op_entry e_seq e_type e_key e_value] in E;
    unfold apply_op; cbn; cbn in E; rewrite E; f_equal; apply u64_small; lia.
Qed.

Lemma apply_ops_ok t ents seq ops :
  mem_holds t ents -> 0 <= seq -> seq + Z.of_nat (length ops) <= 2 ^ 56 -> Forall op_fits ops ->
  Forall (fun e => e_seq e < seq) ents ->
  exists t', fold_left (apply_op (H := MemTableInserter)) ops (seq, Some t)
      = (seq + Z.of_nat (length ops), Some t') /\
    mem_holds t' (rev (batch_entries seq ops) ++ ents).
Proof.
  revert t ents seq; induction ops as [|op ops IH]; intros t ents seq Ht Hs Hn Ho Hlt.
  - exists t. cbn [fold_left length Z.of_nat]. by rewrite Z.add_0_r.
  - cbn [length] in Hn. apply List.Forall_cons_iff in Ho as [Hop Ho].
    destruct (apply_op_ok t ents seq op Ht ltac:(lia) Hop Hlt) as (t1 & E1 & Ht1).
    destruct (IH t1 (op_entry seq op :: ents) (seq + 1) Ht1) as (t2 & E2 & Ht2); [lia | lia | done | |].
    { constructor; [destruct op; cbn; lia|]. revert Hlt. apply List.Forall_impl. intros e He. lia. }
    exists t2. cbn [fold_left]. rewrite E1, E2. cbn [length]. split; [f_equal; lia|].
    cbn [batch_entries rev]. by rewrite <- app_assoc.
Qed.

Lemma InsertInto_ok t ents ops seq :
  mem_holds t ents -> 0 <= seq -> seq + Z.of_nat (length ops) <= 2 ^ 56 ->
  Z.of_nat (length ops) < 2 ^ 31 ->
  Forall op_fits ops -> Forall (fun e => e_seq e < seq) ents ->
  exists t', InsertInto (user_comparator := c)
      (SetSequence (fold_left batch_add ops new_WriteBatch) seq) t = (OK, Some t') /\
    mem_holds t' (rev (batch_entries seq ops) ++ ents).
Proof.
  intros Ht Hs Hn Hn' Ho Hlt.
  assert (Forall op_ok ops) as Hok by (revert Ho; apply List.Forall_impl, op_fits_ok).
  destruct (apply_ops_ok t ents seq ops Ht Hs Hn Ho Hlt) as (t' & E & Ht').
  exists t'. split; [|done]. unfold InsertInto. rewrite batch_built, SetSequence_rep, Sequence_rep by done.
  rewrite u64_small, iterate_rep by (done || lia).
  transitivity (let '(_, r) := fold_left (apply_op (H := MemTableInserter)) ops (seq, Some t) in (OK, r));
    [done | by rewrite E].
Qed.

Lemma entry_size e : entry_ok e -> size (entry_bytes e) = encoded_len (e_key e) (e_value e).
Proof.
  intros He. pose proof (eok_key e He). pose proof (eok_value e He).
  pose proof (size_nonneg (e_key e)). pose proof (size_nonneg (e_value e)).
  pose proof (length_EncodeVarint32 (size (e_key e) + 8) ltac:(lia)).
  pose proof (length_EncodeVarint32 (size (e_value e)) ltac:(lia)).
  unfold encoded_len, entry_bytes, encode_entry. rewrite !VarintLength_32, !u32_small by lia.
  unfold size in *. rewrite !length_app, length_EncodeFixed64, u64_small by lia. lia.
Qed.

Lemma batch_entries_ok seq ops :
  0 <= seq -> seq + Z.of_nat (length ops) <= 2 ^ 56 -> Forall op_fits ops ->
  Forall entry_ok (batch_entries seq ops).
Proof.
  revert seq; induction ops as [|op ops IH]; intros seq Hs Hn Ho; [constructor|].
  apply List.Forall_cons_iff in Ho as [Hop Ho]. cbn [length] in Hn. cbn [batch_entries].
  constructor; [apply op_entry_ok; [lia | done] | apply IH; lia || done].
Qed.

(** Inserting a batch into a memtable whose entries are older than the batch
    succeeds and adds one entry for each operation, in order, with consecutive
    sequence numbers from the batch's own; a put is a value, a delete a deletion
    of the key.  Every entry fills exactly the bytes allocated for it. *)
Theorem insert_into t ents ops seq :
  mem_holds t ents -> 0 <= seq -> seq + Z.of_nat (length ops) <= 2 ^ 56 ->
  Z.of_nat (length ops) < 2 ^ 31 ->
  Forall op_fits ops -> Forall (fun e => e_seq e < seq) ents ->
  let b := SetSequence (fold_left batch_add ops new_WriteBatch) seq in
  (exists t', InsertInto (user_comparator := c) b t = (OK, Some t') /\
    mem_holds t' (rev (batch_entries seq ops) ++ ents)) /\
  Forall (fun e => size (entry_bytes e) = encoded_len (e_key e) (e_value e)) (batch_entries seq ops).
Proof.
  intros Ht Hs Hn Hn' Ho Hlt. cbv zeta. split; [by apply InsertInto_ok|].
  pose proof (batch_entries_ok seq ops Hs Hn Ho) as Hall. revert Hall.
  apply List.Forall_impl, entry_size.
Qed.
End Table.

(** * Concrete tables *)

Definition demo_ops : list batch_op :=
  [OpPut [x61] [x01]; OpPut [x62] [x02]; OpDelete [x61]; OpPut [x61] [x03]].

(** After the batch at 10, [a] reads as deleted at 12 and as its last value at 13. *)
Example memtable_run :
  match InsertInto (user_comparator := BytewiseComparator)
          (SetSequence (fold_left batch_add demo_ops new_WriteBatch) 10) new_MemTable with
  | (_, Some t) =>
      map (fun s => mem_Get (user_comparator := BytewiseComparator) t (new_LookupKey [x61] s) [] OK)
        [9; 10; 12; 13]
  | _ => []
  end = [Some (false, [], OK); Some (true, [x01], OK); Some (true, [], NotFound [] []); Some (true, [x03], OK)].
Proof. vm_compute. reflexivity. Qed.

Abbreviation bytewise_holds := (mem_holds (c := BytewiseComparator) (valid := fun _ => True)).

Lemma demo_fits : Forall (op_fits (valid := fun _ => True)) demo_ops.
Proof. unfold demo_ops. repeat constructor. Qed.

Lemma demo_table :
  exists t, InsertInto (user_comparator := BytewiseComparator)
      (SetSequence (fold_left batch_add demo_ops new_WriteBatch) 10) new_MemTable = (OK, Some t) /\
    bytewise_holds t (rev (batch_entries 10 demo_ops) ++ []).
Proof.
  apply InsertInto_ok; [apply new_MemTable_holds | lia | cbn; lia | cbn; lia | apply demo_fits | constructor].
Qed.

Lemma memtable_get_witness :
  exists t, bytewise_holds t (rev (batch_entries 10 demo_ops) ++ []) /\
    mem_Get (user_comparator := BytewiseComparator) t (new_LookupKey [x61] 11) [] OK
    = Some (true, [x01], OK).
Proof.
  destruct demo_table as (t & _ & Ht). exists t. split; [exact Ht|].
  refine (eq_trans (memtable_get t _ [x61] 11 [] OK Ht _ I _ _) _); [|reflexivity|lia|reflexivity].
  apply (bool_decide_unpack _). vm_compute. exact I.
Defined.

Lemma memtable_iterator_witness :
  exists t es pos, es ≡ₚ rev (batch_entries 10 demo_ops) ++ [] /\
    mem_cursor (c := BytewiseComparator) (valid := fun _ => True) t es pos.
Proof.
  destruct demo_table as (t & _ & Ht). exists t.
  destruct (memtable_iterator t _ Ht) as (es & pos & H). exists es, pos. exact H.
Defined.

Lemma insert_into_witness :
  exists t, InsertInto (user_comparator := BytewiseComparator)
      (SetSequence (fold_left batch_add demo_ops new_WriteBatch) 10) new_MemTable = (OK, Some t) /\
    bytewise_holds t (rev (batch_entries 10 demo_ops) ++ []).
Proof.
  apply (insert_into (c := BytewiseComparator) (valid := fun _ => True) new_MemTable [] demo_ops 10);
    [apply new_MemTable_holds | lia | cbn; lia | cbn; lia | apply demo_fits | constructor].
Defined.
