(* ===== verification/LdbIterator.v ===== *)
(** leveldb: the iterator interface (include/leveldb/iterator.h, table/iterator.cc,
    table/iterator_wrapper.h).

    Iterators read memory they do not own, so an operation is a run: it ends with
    [Done], or with [OutOfBounds] where the code reads outside its data or uses a
    null pointer, or with [OutOfFuel], which the theorems exclude.

    [Iterator] is the abstract class.  [cursor kvs pos] is its contract: the
    iterator is a position in the list [kvs].  Every iterator of the program is
    proved to be a cursor, assuming only that those it is built from are. *)

From Stdlib Require Import Sorting.Sorted.
From S2P Require Import Prelude LdbCoding LdbStatus LdbFormat.
Open Scope Z_scope.

(** * Runs *)

Inductive run (A : Type) :=
  | Done (a : A)
  | OutOfBounds
  | OutOfFuel.
Arguments Done {A} a.
Arguments OutOfBounds {A}.
Arguments OutOfFuel {A}.

Definition run_bind {A B} (f : A -> run B) (r : run A) : run B :=
  match r with Done a => f a | OutOfBounds => OutOfBounds | OutOfFuel => OutOfFuel end.

#[export] Instance run_mret : MRet run := fun A a => Done a.
#[export] Instance run_mbind : MBind run := fun A B f r => run_bind f r.

(** The [n] bytes of [data] at [off]. *)
Definition read_at (data : list byte) (off n : Z) : run (list byte) :=
  if (0 <=? off) && (0 <=? n) && (off + n <=? size data)
  then Done (take (Z.to_nat n) (drop (Z.to_nat off) data)) else OutOfBounds.

Lemma read_at_app a b d : read_at (a ++ b ++ d) (size a) (size b) = Done b.
Proof.
  pose proof (size_nonneg a). pose proof (size_nonneg b). pose proof (size_nonneg d).
  unfold read_at. rewrite !(proj2 (Z.leb_le _ _)) by (rewrite ?size_app; lia).
  unfold size. by rewrite !Nat2Z.id, drop_app_length, take_app_length.
Qed.

Lemma run_bind_done {A B} (a : A) (f : A -> run B) : Done a ≫= f = f a.
Proof. reflexivity. Qed.

(** * The interface *)

Class Iterator (I : Type) := {
  Valid : I -> bool;
  SeekToFirst : I -> run I;
  SeekToLast : I -> run I;
  Seek : I -> list byte -> run I;
  Next : I -> run I;
  Prev : I -> run I;
  key : I -> run (list byte);
  value : I -> run (list byte);
  status : I -> Status;
}.

(** [EmptyIterator]: it has only a status. *)
Record EmptyIterator := mk_empty { empty_status : Status }.

Definition NewEmptyIterator : EmptyIterator := mk_empty OK.
Definition NewErrorIterator (s : Status) : EmptyIterator := mk_empty s.

#[export] Instance empty_iterator : Iterator EmptyIterator := {
  Valid _ := false;
  SeekToFirst it := Done it;
  SeekToLast it := Done it;
  Seek it _ := Done it;
  Next it := Done it;
  Prev it := Done it;
  key _ := Done [];
  value _ := Done [];
  status := empty_status;
}.

(** * IteratorWrapper *)

(** An iterator that may be null, with what it last said. *)
Record IteratorWrapper (I : Type) := mk_wrap {
  iter_ : option I;
  valid_ : bool;
  key_ : list byte;
}.
Arguments mk_wrap {I} iter_ valid_ key_.
Arguments iter_ {I} i.
Arguments valid_ {I} i.
Arguments key_ {I} i.

Section Wrapper.
Context {I : Type} `{Iterator I}.

Definition new_IteratorWrapper : IteratorWrapper I := mk_wrap None false [].

Definition wrap_Update (w : IteratorWrapper I) (it : I) : run (IteratorWrapper I) :=
  if Valid it then k ← key it; Done (mk_wrap (Some it) true k)
  else Done (mk_wrap (Some it) false (key_ w)).

Definition wrap_Set (w : IteratorWrapper I) (it : option I) : run (IteratorWrapper I) :=
  match it with
  | None => Done (mk_wrap None false (key_ w))
  | Some it => wrap_Update w it
  end.

(** The methods that need an iterator. *)
Definition wrap_call (op : I -> run I) (w : IteratorWrapper I) : run (IteratorWrapper I) :=
  match iter_ w with
  | None => OutOfBounds
  | Some it => it ← op it; wrap_Update w it
  end.

#[export] Instance wrapper_iterator : Iterator (IteratorWrapper I) := {
  Valid := valid_;
  SeekToFirst := wrap_call SeekToFirst;
  SeekToLast := wrap_call SeekToLast;
  Seek w k := wrap_call (fun it => Seek it k) w;
  Next := wrap_call Next;
  Prev := wrap_call Prev;
  key w := Done (key_ w);
  value w := match iter_ w with None => OutOfBounds | Some it => value it end;
  status w := match iter_ w with None => OK | Some it => status it end;
}.
End Wrapper.

(** * The contract *)

Section Contract.
Context {c : Comparator} {valid : list byte -> Prop}.

(** The entries below [target] are the first [m]. *)
Definition lower_bound (target : list byte) (kvs : list (list byte * list byte)) (m : nat) : Prop :=
  (m <= length kvs)%nat /\
  forall j kv, kvs !! j = Some kv -> Compare (fst kv) target < 0 <-> (j < m)%nat.

Context {I : Type} `{Iterator I}.

(** [pos i it]: the iterator [it] stands at entry [i] of [kvs], or past the last. *)
Record cursor (kvs : list (list byte * list byte)) (pos : nat -> I -> Prop) : Prop := {
  cu_bound i it : pos i it -> (i <= length kvs)%nat;
  cu_valid i it : pos i it -> Valid it = (i <? length kvs)%nat;
  cu_status i it : pos i it -> status it = OK;
  cu_entry i it k v : pos i it -> kvs !! i = Some (k, v) -> key it = Done k /\ value it = Done v;
  cu_first i it : pos i it -> exists it', SeekToFirst it = Done it' /\ pos 0%nat it';
  cu_last i it : pos i it -> exists it', SeekToLast it = Done it' /\ pos (pred (length kvs)) it';
  cu_next i it : pos i it -> (i < length kvs)%nat -> exists it', Next it = Done it' /\ pos (S i) it';
  cu_prev i it : pos i it -> (i < length kvs)%nat ->
    exists it', Prev it = Done it' /\ pos (match i with O => length kvs | S j => j end) it';
  cu_seek i it target : pos i it -> valid target ->
    exists it' m, Seek it target = Done it' /\ pos m it' /\ lower_bound target kvs m;
}.
End Contract.
Arguments cursor {c} valid {I _} kvs pos.
Arguments cu_bound {c valid I _ kvs pos} _ i it.
Arguments cu_valid {c valid I _ kvs pos} _ i it.
Arguments cu_status {c valid I _ kvs pos} _ i it.
Arguments cu_entry {c valid I _ kvs pos} _ i it k v.
Arguments cu_first {c valid I _ kvs pos} _ i it.
Arguments cu_last {c valid I _ kvs pos} _ i it.
Arguments cu_next {c valid I _ kvs pos} _ i it.
Arguments cu_prev {c valid I _ kvs pos} _ i it.
Arguments cu_seek {c valid I _ kvs pos} _ i it target.

(** The largest cursor: at a position of some cursor. *)
Section AnyCursor.
Context {c : Comparator} (valid : list byte -> Prop) {I : Type} `{Iterator I}.
Context (kvs : list (list byte * list byte)).

Definition any_pos (i : nat) (it : I) : Prop := exists pos, cursor valid kvs pos /\ pos i it.

Lemma any_cursor : cursor valid kvs any_pos.
Proof.
  split.
  - intros i it (pos & Hc & Hp). by apply (cu_bound Hc i it).
  - intros i it (pos & Hc & Hp). by apply (cu_valid Hc i it).
  - intros i it (pos & Hc & Hp). by apply (cu_status Hc i it).
  - intros i it k v (pos & Hc & Hp). by apply (cu_entry Hc i it).
  - intros i it (pos & Hc & Hp). destruct (cu_first Hc i it Hp) as (it' & E & Hp'). exists it'. split; [done|by exists pos].
  - intros i it (pos & Hc & Hp). destruct (cu_last Hc i it Hp) as (it' & E & Hp'). exists it'. split; [done|by exists pos].
  - intros i it (pos & Hc & Hp) Hi. destruct (cu_next Hc i it Hp Hi) as (it' & E & Hp').
    exists it'. split; [done|by exists pos].
  - intros i it (pos & Hc & Hp) Hi. destruct (cu_prev Hc i it Hp Hi) as (it' & E & Hp').
    exists it'. split; [done|by exists pos].
  - intros i it target (pos & Hc & Hp) Hv. destruct (cu_seek Hc i it target Hp Hv) as (it' & m & E & Hp' & Hl).
    exists it', m. split; [done|]. split; [by exists pos|done].
Qed.
End AnyCursor.

(** ** Lower bounds *)

Section LowerBound.
Context {c : Comparator}.
Implicit Types kvs a b : list (list byte * list byte).

Lemma lower_bound_unique target kvs m n :
  lower_bound target kvs m -> lower_bound target kvs n -> m = n.
Proof.
  intros [Hm H1] [Hn H2]. destruct (Nat.lt_trichotomy m n) as [Hlt|[|Hlt]]; [|done|].
  - destruct (lookup_lt_is_Some_2 kvs m ltac:(lia)) as [kv Hkv].
    pose proof (proj2 (H2 m kv Hkv) Hlt) as Hc. apply (H1 m kv Hkv) in Hc. lia.
  - destruct (lookup_lt_is_Some_2 kvs n ltac:(lia)) as [kv Hkv].
    pose proof (proj2 (H1 n kv Hkv) Hlt) as Hc. apply (H2 n kv Hkv) in Hc. lia.
Qed.

Lemma lower_bound_nil target : lower_bound target [] 0.
Proof. by split. Qed.

Lemma lower_bound_split target a b :
  Forall (fun kv => Compare kv.1 target < 0) a -> Forall (fun kv => 0 <= Compare kv.1 target) b ->
  lower_bound target (a ++ b) (length a).
Proof.
  intros Ha Hb. split; [rewrite length_app; lia|]. intros j kv Hj.
  apply lookup_app_Some in Hj as [Hj|[Hl Hj]].
  - pose proof (lookup_lt_Some _ _ _ Hj). split; [done|]. intros _.
    apply list_elem_of_lookup_2 in Hj. by apply (proj1 (list.Forall_forall _ _) Ha).
  - split; [|lia]. intros Hc. apply list_elem_of_lookup_2 in Hj.
    pose proof (proj1 (list.Forall_forall _ _) Hb _ Hj). cbn in *. lia.
Qed.

Lemma lower_bound_inv target kvs m :
  lower_bound target kvs m ->
  Forall (fun kv => Compare kv.1 target < 0) (take m kvs) /\
  Forall (fun kv => 0 <= Compare kv.1 target) (drop m kvs).
Proof.
  intros [Hm Hl]. split; apply list.Forall_forall; intros kv Hin; apply list_elem_of_lookup in Hin as [j Hj].
  - pose proof (lookup_lt_Some _ _ _ Hj) as Hlt. rewrite length_take in Hlt.
    rewrite lookup_take_lt in Hj by lia. apply (Hl j kv Hj). lia.
  - rewrite lookup_drop in Hj. destruct (Z.lt_ge_cases (Compare kv.1 target) 0) as [Hc|]; [|done].
    apply (Hl _ kv Hj) in Hc. lia.
Qed.

(** Searching a concatenation. *)
Lemma lower_bound_app_l target a b m :
  lower_bound target a m -> Forall (fun kv => 0 <= Compare kv.1 target) b ->
  lower_bound target (a ++ b) m.
Proof.
  intros Ha Hb. apply lower_bound_inv in Ha as Hi. destruct Ha as [Hm _], Hi as [H1 H2].
  rewrite <- (take_drop m a), <- app_assoc.
  replace m with (length (take m a)) at 3 by (rewrite length_take; lia).
  apply lower_bound_split; [done|]. by apply List.Forall_app.
Qed.

Lemma lower_bound_app_r target a b m :
  Forall (fun kv => Compare kv.1 target < 0) a -> lower_bound target b m ->
  lower_bound target (a ++ b) (length a + m).
Proof.
  intros Ha Hb. apply lower_bound_inv in Hb as Hi. destruct Hb as [Hm _], Hi as [H1 H2].
  rewrite <- (take_drop m b), app_assoc.
  replace (length a + m)%nat with (length (a ++ take m b)) by (rewrite length_app, length_take; lia).
  apply lower_bound_split; [by apply List.Forall_app | done].
Qed.

(** The lower bound of a key that is there is its entry. *)
Lemma lower_bound_exact kvs k v m :
  Sorting.Sorted.StronglySorted (fun x y => Compare (fst x) (fst y) < 0) kvs -> Compare k k = 0 ->
  lower_bound k kvs m -> (k, v) ∈ kvs -> kvs !! m = Some (k, v).
Proof.
  intros Hs Hk [Hm Hl] [j Hj]%list_elem_of_lookup. pose proof (Hl j _ Hj) as Hlj. cbn [fst] in Hlj.
  assert (m <= j)%nat as Hle by lia. destruct (decide (m = j)) as [-> |Hne]; [done|].
  destruct (lookup_lt_is_Some_2 kvs m) as [e He]; [apply lookup_lt_Some in Hj; lia|].
  pose proof (proj1 (Hl m e He)) as Hlm. exfalso. apply (Nat.lt_irrefl m), Hlm.
  rewrite <- (take_drop_middle kvs m e He) in Hs, Hj.
  assert (length (take m kvs) = m) as Hlen by (rewrite length_take; apply lookup_lt_Some in He; lia).
  rewrite lookup_app_r in Hj by lia. rewrite Hlen in Hj.
  destruct (j - m)%nat as [|d] eqn:Ed; [lia|]. cbn in Hj.
  assert (forall l, Sorting.Sorted.StronglySorted (fun x y => Compare (fst x) (fst y) < 0) (l ++ e :: drop (S m) kvs) ->
    Forall (fun x => Compare (fst e) (fst x) < 0) (drop (S m) kvs)) as Hall.
  { induction l as [|x l IH]; intros Hl'; inversion_clear Hl'; auto. }
  specialize (Hall _ Hs). rewrite list.Forall_forall in Hall. apply (Hall (k, v)).
  by apply list_elem_of_lookup_2 in Hj.
Qed.
End LowerBound.

(** ** The wrapper is a cursor of what it wraps *)

Section WrapperCursor.
Context {c : Comparator} {valid : list byte -> Prop} {I : Type} `{Iterator I}.
Context (kvs : list (list byte * list byte)) (pos : nat -> I -> Prop).

Definition wrap_pos (i : nat) (w : IteratorWrapper I) : Prop :=
  exists it, iter_ w = Some it /\ pos i it /\ valid_ w = Valid it /\
    (Valid it = true -> key it = Done (key_ w)).

Hypothesis cur : cursor valid kvs pos.

Lemma Update_pos w i it : pos i it -> exists w', wrap_Update w it = Done w' /\ wrap_pos i w'.
Proof.
  intros Hp. unfold wrap_Update. destruct (Valid it) eqn:E.
  - pose proof (cu_valid cur i it Hp) as Hv. rewrite E in Hv. symmetry in Hv.
    apply Nat.ltb_lt in Hv. destruct (lookup_lt_is_Some_2 kvs i Hv) as [[k v] Hkv].
    destruct (cu_entry cur i it k v Hp Hkv) as [Hk _]. rewrite Hk.
    eexists. split; [reflexivity|]. by exists it.
  - eexists. split; [reflexivity|]. exists it. cbn. by rewrite E.
Qed.

Lemma Set_pos w i it : pos i it -> exists w', wrap_Set w (Some it) = Done w' /\ wrap_pos i w'.
Proof. apply Update_pos. Qed.

Lemma wrap_call_pos op w i (P : nat -> Prop) :
  wrap_pos i w -> (forall it, pos i it -> exists it' m, op it = Done it' /\ pos m it' /\ P m) ->
  exists w' m, wrap_call op w = Done w' /\ wrap_pos m w' /\ P m.
Proof.
  intros (it & Hi & Hp & _) Hop. unfold wrap_call. rewrite Hi.
  destruct (Hop it Hp) as (it' & m & -> & Hp' & HP).
  destruct (Update_pos w m it' Hp') as (w' & E & Hw). rewrite run_bind_done. by exists w', m.
Qed.

Lemma wrap_call_at op w i m :
  wrap_pos i w -> (forall it, pos i it -> exists it', op it = Done it' /\ pos m it') ->
  exists w', wrap_call op w = Done w' /\ wrap_pos m w'.
Proof.
  intros Hw Hop. destruct (wrap_call_pos op w i (eq m) Hw) as (w' & m' & E & Hp & <-); [|by exists w'].
  intros it Hp. destruct (Hop it Hp) as (it' & E & Hp'). by exists it', m.
Qed.

Lemma wrapper_cursor : cursor valid kvs wrap_pos.
Proof.
  split; cbn [Valid SeekToFirst SeekToLast Seek Next Prev key value status wrapper_iterator].
  - intros i w (it & _ & Hp & _). by apply (cu_bound cur i it).
  - intros i w (it & _ & Hp & -> & _). by apply (cu_valid cur i it).
  - intros i w (it & -> & Hp & _). by apply (cu_status cur i it).
  - intros i w k v (it & Hi & Hp & Hv & Hk) Hkv. rewrite Hi.
    destruct (cu_entry cur i it k v Hp Hkv) as [Hk' Hv']. split; [|done].
    rewrite <- Hk', Hk; [done|]. rewrite (cu_valid cur i it Hp). apply Nat.ltb_lt.
    by apply lookup_lt_Some in Hkv.
  - intros i w Hw. apply (wrap_call_at _ w i); [done|]. intros it. by apply (cu_first cur).
  - intros i w Hw. apply (wrap_call_at _ w i); [done|]. intros it. by apply (cu_last cur).
  - intros i w Hw Hi. apply (wrap_call_at _ w i); [done|]. intros it Hp. by apply (cu_next cur).
  - intros i w Hw Hi. apply (wrap_call_at _ w i); [done|]. intros it Hp. by apply (cu_prev cur).
  - intros i w target Hw Hv. apply (wrap_call_pos _ w i); [done|].
    intros it Hp. by apply (cu_seek cur i).
Qed.
End WrapperCursor.

Lemma empty_cursor {c : Comparator} valid : cursor valid [] (fun i it => i = O /\ it = NewEmptyIterator).
Proof.
  split; cbn.
  - intros i it [-> _]. done.
  - intros i it [-> _]. done.
  - by intros i it [_ ->].
  - done.
  - intros i it [-> ->]. eauto.
  - intros i it [-> ->]. eauto.
  - lia.
  - lia.
  - intros i it target [-> ->] _. exists NewEmptyIterator, O. split; [done|]. split; [done|].
    apply lower_bound_nil.
Qed.

(** ** An iterator inside another type *)

Section Embedding.
Context {c : Comparator} {valid : list byte -> Prop} {I J : Type} {HI : Iterator I} {HJ : Iterator J}.
Context (emb : I -> J).

(** The operations of [J] on [emb it] are those of [I] on [it]. *)
Record embeds : Prop := {
  em_valid it : Valid (emb it) = Valid it;
  em_key it : key (emb it) = key it;
  em_value it : value (emb it) = value it;
  em_status it : status (emb it) = status it;
  em_first it : SeekToFirst (emb it) = (it ← SeekToFirst it; Done (emb it));
  em_last it : SeekToLast (emb it) = (it ← SeekToLast it; Done (emb it));
  em_seek it target : Seek (emb it) target = (it ← Seek it target; Done (emb it));
  em_next it : Next (emb it) = (it ← Next it; Done (emb it));
  em_prev it : Prev (emb it) = (it ← Prev it; Done (emb it));
}.

Definition emb_pos (pos : nat -> I -> Prop) (i : nat) (j : J) : Prop := exists it, j = emb it /\ pos i it.

Lemma embed_cursor kvs pos : embeds -> cursor valid kvs pos -> cursor valid kvs (emb_pos pos).
Proof.
  intros [Hv Hk Hva Hst Hf Hl Hs Hn Hp] cur.
  assert (forall (r : run I) i, (exists it, r = Done it /\ pos i it) ->
    exists j, (it ← r; Done (emb it)) = Done j /\ emb_pos pos i j) as Lift.
  { intros r i (it & -> & Hpos). eexists. split; [reflexivity|]. by exists it. }
  split.
  - intros i j (it & -> & Hpos). by apply (cu_bound cur i it).
  - intros i j (it & -> & Hpos). rewrite Hv. by apply (cu_valid cur i it).
  - intros i j (it & -> & Hpos). rewrite Hst. by apply (cu_status cur i it).
  - intros i j k v (it & -> & Hpos) Hkv. rewrite Hk, Hva. by apply (cu_entry cur i it).
  - intros i j (it & -> & Hpos). rewrite Hf. apply Lift. by apply (cu_first cur i it).
  - intros i j (it & -> & Hpos). rewrite Hl. apply Lift. by apply (cu_last cur i it).
  - intros i j (it & -> & Hpos) Hi. rewrite Hn. apply Lift. by apply (cu_next cur i it).
  - intros i j (it & -> & Hpos) Hi. rewrite Hp. apply Lift. by apply (cu_prev cur i it).
  - intros i j target (it & -> & Hpos) Ht. rewrite Hs.
    destruct (cu_seek cur i it target Hpos Ht) as (it' & m & -> & Hpos' & Hm).
    eexists _, m. split; [reflexivity|]. split; [by exists it'|done].
Qed.
End Embedding.

(** * The reference iterator: a list and a position *)

Record ListIterator := mk_list_iter { li_kvs : list (list byte * list byte); li_pos : nat }.

Definition li_move (it : ListIterator) (i : nat) : run ListIterator := Done (mk_list_iter (li_kvs it) i).
Definition li_entry (it : ListIterator) : run (list byte * list byte) :=
  match li_kvs it !! li_pos it with Some kv => Done kv | None => OutOfBounds end.

Fixpoint count_below {c : Comparator} (target : list byte) (kvs : list (list byte * list byte)) : nat :=
  match kvs with
  | [] => O
  | kv :: kvs => if Compare (fst kv) target <? 0 then S (count_below target kvs) else O
  end.

Definition list_iterator {c : Comparator} : Iterator ListIterator := {|
  Valid it := (li_pos it <? length (li_kvs it))%nat;
  SeekToFirst it := li_move it 0;
  SeekToLast it := li_move it (pred (length (li_kvs it)));
  Seek it target := li_move it (count_below target (li_kvs it));
  Next it := li_move it (S (li_pos it));
  Prev it := li_move it (match li_pos it with O => length (li_kvs it) | S j => j end);
  key it := '(k, _) ← li_entry it; Done k;
  value it := '(_, v) ← li_entry it; Done v;
  status _ := OK;
|}.

Section ListCursor.
Context {c : Comparator} {valid : list byte -> Prop} {laws : ComparatorLaws valid c}.

Lemma count_below_bound target kvs :
  valid target -> Forall (fun kv => valid (fst kv)) kvs ->
  StronglySorted (fun a b => Compare (fst a) (fst b) < 0) kvs ->
  lower_bound target kvs (count_below target kvs).
Proof.
  intros Hv. induction kvs as [|kv kvs IH]; intros Hk Hs; [apply lower_bound_nil|].
  apply List.Forall_cons_iff in Hk as [Hkv Hk]. apply StronglySorted_inv in Hs as [Hs Hall].
  cbn [count_below]. destruct (Z.ltb_spec (Compare kv.1 target) 0) as [Hlt|Hge].
  - apply (lower_bound_app_r target [kv]); [by repeat constructor | by apply IH].
  - apply (lower_bound_split target [] (kv :: kvs)); [constructor|]. constructor; [done|].
    apply list.Forall_forall. intros kv' Hin.
    pose proof (proj1 (list.Forall_forall _ _) Hall kv' Hin) as Hlt. cbn in Hlt.
    pose proof (proj1 (list.Forall_forall _ _) Hk kv' Hin) as Hv'. cbn in Hv'.
    apply cmp_le_ge in Hge; [|done..]. apply cmp_le_ge; [done..|].
    apply (cmp_trans target kv.1 kv'.1); [done..|lia].
Qed.

Lemma list_cursor kvs :
  Forall (fun kv => valid (fst kv)) kvs ->
  StronglySorted (fun a b => Compare (fst a) (fst b) < 0) kvs ->
  @cursor c valid _ list_iterator kvs (fun i it => (i <= length kvs)%nat /\ it = mk_list_iter kvs i).
Proof.
  intros Hk Hs.
  split; cbn [Valid SeekToFirst SeekToLast Seek Next Prev key value status list_iterator]; unfold li_move, li_entry.
  - by intros i it [].
  - by intros i it [_ ->].
  - done.
  - intros i it k v [_ ->] Hkv. cbn. by rewrite Hkv.
  - intros i it [_ ->]. eexists. split; [reflexivity|]. split; [lia | done].
  - intros i it [_ ->]. eexists. split; [reflexivity|]. split; [lia | done].
  - intros i it [_ ->] Hi. eexists. split; [reflexivity|]. split; [lia | done].
  - intros i it [_ ->] Hi. eexists. split; [reflexivity|]. split; [destruct i; lia | done].
  - intros i it target [_ ->] Hv. pose proof (count_below_bound target kvs Hv Hk Hs) as Hb.
    exists (mk_list_iter kvs (count_below target kvs)), (count_below target kvs).
    split; [done|]. split; [|done]. split; [apply Hb | done].
Qed.
End ListCursor.
