(* ===== verification/LdbTwoLevel.v ===== *)
(** leveldb: the two-level iterator (table/two_level_iterator.cc), that walks the
    blocks of a table, or the tables of a level, through an index.

    [two_level_correct]: when the index iterator is a cursor over the index entries
    and the block function opens a cursor for each of them, the two-level iterator
    is a cursor over the concatenation of the blocks, empty blocks included. *)

From Stdlib Require Import Sorting.Sorted.
From S2P Require Import Prelude LdbCoding LdbStatus LdbFormat LdbIterator.
Open Scope Z_scope.

Section TwoLevel.
(** [I]: the index iterator; [D]: the iterators of blocks; [A]: the argument of the
    block function, which the call may change (a block cache). *)
Context {I D A : Type} `{Iterator I} `{Iterator D}.
Context (block_function : A -> list byte -> run (D * A)).

Record TwoLevelIterator := mk_two {
  arg_ : A;
  status_ : Status;
  index_iter_ : IteratorWrapper I;
  data_iter_ : IteratorWrapper D;
  data_block_handle_ : list byte;
}.

Definition set_index (t : TwoLevelIterator) (w : IteratorWrapper I) : TwoLevelIterator :=
  mk_two (arg_ t) (status_ t) w (data_iter_ t) (data_block_handle_ t).
Definition set_data (t : TwoLevelIterator) (w : IteratorWrapper D) : TwoLevelIterator :=
  mk_two (arg_ t) (status_ t) (index_iter_ t) w (data_block_handle_ t).

Definition NewTwoLevelIterator (index_iter : I) (arg : A) : run TwoLevelIterator :=
  w ← wrap_Set new_IteratorWrapper (Some index_iter);
  Done (mk_two arg OK w new_IteratorWrapper []).

Definition SaveError (t : TwoLevelIterator) (s : Status) : TwoLevelIterator :=
  mk_two (arg_ t) (if ok (status_ t) && negb (ok s) then s else status_ t)
    (index_iter_ t) (data_iter_ t) (data_block_handle_ t).

Definition SetDataIterator (t : TwoLevelIterator) (data_iter : option D) : run TwoLevelIterator :=
  let t := match iter_ (data_iter_ t) with
           | Some _ => SaveError t (status (data_iter_ t))
           | None => t
           end in
  w ← wrap_Set (data_iter_ t) data_iter; Done (set_data t w).

Definition InitDataBlock (t : TwoLevelIterator) : run TwoLevelIterator :=
  if negb (Valid (index_iter_ t)) then SetDataIterator t None
  else
    handle ← value (index_iter_ t);
    if (match iter_ (data_iter_ t) with Some _ => true | None => false end) &&
       (slice_compare handle (data_block_handle_ t) =? 0)
    then Done t
    else
      '(iter, arg) ← block_function (arg_ t) handle;
      SetDataIterator (mk_two arg (status_ t) (index_iter_ t) (data_iter_ t) handle) (Some iter).

(** [if (data_iter_.iter() != nullptr) data_iter_.op();] *)
Definition if_data (op : IteratorWrapper D -> run (IteratorWrapper D)) (t : TwoLevelIterator)
  : run TwoLevelIterator :=
  match iter_ (data_iter_ t) with
  | Some _ => w ← op (data_iter_ t); Done (set_data t w)
  | None => Done t
  end.

Definition no_data (t : TwoLevelIterator) : bool :=
  match iter_ (data_iter_ t) with None => true | Some _ => negb (Valid (data_iter_ t)) end.

Fixpoint SkipEmptyDataBlocksForward (fuel : nat) (t : TwoLevelIterator) : run TwoLevelIterator :=
  match fuel with
  | O => OutOfFuel
  | S fuel =>
      if no_data t then
        if negb (Valid (index_iter_ t)) then SetDataIterator t None
        else
          w ← Next (index_iter_ t);
          t ← InitDataBlock (set_index t w);
          t ← if_data SeekToFirst t;
          SkipEmptyDataBlocksForward fuel t
      else Done t
  end.

Fixpoint SkipEmptyDataBlocksBackward (fuel : nat) (t : TwoLevelIterator) : run TwoLevelIterator :=
  match fuel with
  | O => OutOfFuel
  | S fuel =>
      if no_data t then
        if negb (Valid (index_iter_ t)) then SetDataIterator t None
        else
          w ← Prev (index_iter_ t);
          t ← InitDataBlock (set_index t w);
          t ← if_data SeekToLast t;
          SkipEmptyDataBlocksBackward fuel t
      else Done t
  end.

(** The loops turn once for each index entry and once past the last. *)
Context (fuel : nat).

Definition two_Seek (t : TwoLevelIterator) (target : list byte) : run TwoLevelIterator :=
  w ← Seek (index_iter_ t) target;
  t ← InitDataBlock (set_index t w);
  t ← if_data (fun w => Seek w target) t;
  SkipEmptyDataBlocksForward fuel t.

Definition two_SeekToFirst (t : TwoLevelIterator) : run TwoLevelIterator :=
  w ← SeekToFirst (index_iter_ t);
  t ← InitDataBlock (set_index t w);
  t ← if_data SeekToFirst t;
  SkipEmptyDataBlocksForward fuel t.

Definition two_SeekToLast (t : TwoLevelIterator) : run TwoLevelIterator :=
  w ← SeekToLast (index_iter_ t);
  t ← InitDataBlock (set_index t w);
  t ← if_data SeekToLast t;
  SkipEmptyDataBlocksBackward fuel t.

Definition two_Next (t : TwoLevelIterator) : run TwoLevelIterator :=
  w ← Next (data_iter_ t); SkipEmptyDataBlocksForward fuel (set_data t w).

Definition two_Prev (t : TwoLevelIterator) : run TwoLevelIterator :=
  w ← Prev (data_iter_ t); SkipEmptyDataBlocksBackward fuel (set_data t w).

Definition two_status (t : TwoLevelIterator) : Status :=
  if negb (ok (status (index_iter_ t))) then status (index_iter_ t)
  else if (match iter_ (data_iter_ t) with Some _ => true | None => false end) &&
          negb (ok (status (data_iter_ t))) then status (data_iter_ t)
  else status_ t.

Definition two_level_iterator : Iterator TwoLevelIterator := {|
  Valid t := Valid (data_iter_ t);
  SeekToFirst := two_SeekToFirst;
  SeekToLast := two_SeekToLast;
  Seek := two_Seek;
  Next := two_Next;
  Prev := two_Prev;
  key t := key (data_iter_ t);
  value t := value (data_iter_ t);
  status := two_status;
|}.
End TwoLevel.
Arguments TwoLevelIterator I D A : clear implicits.

(** * Positions in a list of blocks *)

Section Blocks.
Context {B : Type} (block : B -> list (list byte * list byte)).

Definition entries (hs : list B) : list (list byte * list byte) := concat (map block hs).

(** The position of the first entry of block [b]. *)
Definition starts (hs : list B) (b : nat) : nat := length (entries (take b hs)).

Lemma entries_app hs hs' : entries (hs ++ hs') = entries hs ++ entries hs'.
Proof. unfold entries. by rewrite map_app, concat_app. Qed.

Lemma entries_split hs b h :
  hs !! b = Some h -> entries hs = entries (take b hs) ++ block h ++ entries (drop (S b) hs).
Proof. intros Hb. rewrite <- (take_drop_middle hs b h Hb) at 1. by rewrite entries_app. Qed.

Lemma starts_S hs b h : hs !! b = Some h -> starts hs (S b) = (starts hs b + length (block h))%nat.
Proof.
  intros Hb. unfold starts. rewrite (take_S_r hs b h Hb), entries_app, length_app.
  unfold entries at 2. cbn [map concat]. by rewrite app_nil_r.
Qed.

Lemma starts_all hs : starts hs (length hs) = length (entries hs).
Proof. unfold starts. by rewrite firstn_all. Qed.

Lemma starts_0 hs : starts hs 0 = 0%nat.
Proof. reflexivity. Qed.

Lemma entries_lookup hs b h j :
  hs !! b = Some h -> (j < length (block h))%nat -> entries hs !! (starts hs b + j)%nat = block h !! j.
Proof.
  intros Hb Hj. rewrite (entries_split hs b h Hb). unfold starts.
  rewrite lookup_app_r by lia. rewrite lookup_app_l by lia. f_equal. lia.
Qed.

Lemma starts_bound hs b h : hs !! b = Some h -> (starts hs b + length (block h) <= length (entries hs))%nat.
Proof. intros Hb. rewrite (entries_split hs b h Hb), !length_app. unfold starts. lia. Qed.

Lemma elem_of_entries hs kv : kv ∈ entries hs <-> exists b h, hs !! b = Some h /\ kv ∈ block h.
Proof.
  unfold entries. rewrite list_elem_of_In, in_concat. split.
  - intros (l & Hl & Hkv). apply in_map_iff in Hl as (h & <- & Hh).
    apply list_elem_of_In, list_elem_of_lookup in Hh as [b Hb]. exists b, h.
    split; [done|]. by apply list_elem_of_In.
  - intros (b & h & Hb & Hkv). exists (block h). split; [|by apply list_elem_of_In].
    apply in_map, list_elem_of_In. by apply list_elem_of_lookup_2 in Hb.
Qed.
End Blocks.

(** * The two levels are one list *)

Section Correct.
Context {c : Comparator} {valid : list byte -> Prop} {laws : ComparatorLaws valid c}.
Context {I D A : Type} `{Iterator I} `{Iterator D}.
Context (block_function : A -> list byte -> run (D * A)) (fuel : nat).
Implicit Type t : TwoLevelIterator I D A.

(** The index: separators and handles, with a cursor. *)
Context (ix : list (list byte * list byte)) (ipos : nat -> I -> Prop).
Context (icur : cursor valid ix ipos).

(** The entries of the block of a handle; the block function opens a cursor on
    them, and keeps the invariant [inv] of its argument. *)
Context (block : list byte -> list (list byte * list byte)) (dpos : list byte -> nat -> D -> Prop).
Context (inv : A -> Prop).
Context (dcur : forall b s h, ix !! b = Some (s, h) -> cursor valid (block h) (dpos h)).
Context (opens : forall a b s h, inv a -> ix !! b = Some (s, h) ->
  exists d a' j, block_function a h = Done (d, a') /\ inv a' /\ dpos h j d).

(** A separator is not below the keys of its block, and below those of the next
    blocks. *)
Context (seps_valid : forall b s h, ix !! b = Some (s, h) -> valid s).
Context (keys_valid : forall b s h kv, ix !! b = Some (s, h) -> kv ∈ block h -> valid kv.1).
Context (sep_above : forall b s h kv, ix !! b = Some (s, h) -> kv ∈ block h -> Compare kv.1 s <= 0).
Context (sep_below : forall b s h b' s' h' kv, ix !! b = Some (s, h) -> ix !! b' = Some (s', h') ->
  (b < b')%nat -> kv ∈ block h' -> Compare s kv.1 < 0).
Context (fuel_enough : (length ix + 2 <= fuel)%nat).

#[local] Abbreviation handles := (map snd ix).
#[local] Abbreviation kvs := (entries block handles).

Lemma handles_lookup b s h : ix !! b = Some (s, h) -> handles !! b = Some h.
Proof. intros Hb. rewrite list_lookup_fmap. by rewrite Hb. Qed.

(** The state between operations, but for the positions. *)
Record idle t : Prop := {
  id_status : status_ t = OK;
  id_inv : inv (arg_ t);
  id_data : iter_ (data_iter_ t) = None \/
    exists b s j, ix !! b = Some (s, data_block_handle_ t) /\
      wrap_pos (dpos (data_block_handle_ t)) j (data_iter_ t);
}.

Definition at_index (b : nat) t : Prop := wrap_pos ipos b (index_iter_ t).

(** At entry [j] of block [b], perhaps past its last. *)
Record on_block (b j : nat) t : Prop := {
  ob_idle : idle t;
  ob_index : at_index b t;
  ob_block : exists s, ix !! b = Some (s, data_block_handle_ t);
  ob_pos : wrap_pos (dpos (data_block_handle_ t)) j (data_iter_ t);
}.

Record off_end t : Prop := {
  oe_idle : idle t;
  oe_index : at_index (length ix) t;
  oe_data : iter_ (data_iter_ t) = None;
  oe_valid : valid_ (data_iter_ t) = false;
}.

Definition at_entry (b j : nat) t : Prop :=
  on_block b j t /\ (j < length (block (data_block_handle_ t)))%nat.

Definition two_pos (i : nat) t : Prop :=
  (exists b j, at_entry b j t /\ i = (starts block handles b + j)%nat) \/ (off_end t /\ i = length kvs).

Lemma wrap_index : cursor valid ix (wrap_pos ipos).
Proof. by apply wrapper_cursor. Qed.

Lemma wrap_data b s h : ix !! b = Some (s, h) -> cursor valid (block h) (wrap_pos (dpos h)).
Proof. intros Hb. apply wrapper_cursor. by apply (dcur b s). Qed.

Lemma pos_idle i t : two_pos i t -> idle t /\ exists b, at_index b t.
Proof. intros [(b & j & [[] _] & _)|[[] _]]; eauto. Qed.

Lemma set_index_idle t w : idle t -> idle (set_index t w).
Proof. by intros []. Qed.

Lemma idle_data_ok t : idle t -> iter_ (data_iter_ t) = None \/ status (data_iter_ t) = OK.
Proof.
  intros [_ _ [E|(b & s & j & Hb & Hp)]]; [by left|right]. by apply (cu_status (wrap_data b s _ Hb) j).
Qed.

(** No error is saved when there is none. *)
Lemma SetDataIterator_eq t o :
  status_ t = OK -> iter_ (data_iter_ t) = None \/ status (data_iter_ t) = OK ->
  SetDataIterator t o = (w ← wrap_Set (data_iter_ t) o; Done (set_data t w)).
Proof.
  intros Hst Hd. unfold SetDataIterator. destruct (iter_ (data_iter_ t)) eqn:E; [|done].
  destruct Hd as [Hd|Hd]; [done|]. unfold SaveError. rewrite Hd, andb_false_r. by destruct t.
Qed.

Lemma SetDataIterator_None t : idle t -> at_index (length ix) t ->
  exists t', SetDataIterator t None = Done t' /\ off_end t'.
Proof.
  intros Hid Hi. rewrite SetDataIterator_eq by (apply Hid || by apply idle_data_ok).
  eexists. split; [reflexivity|]. split; try done. split; [apply Hid..|by left].
Qed.

Lemma InitDataBlock_end t : idle t -> at_index (length ix) t ->
  exists t', InitDataBlock block_function t = Done t' /\ off_end t'.
Proof.
  intros Hid Hi. unfold InitDataBlock. rewrite (cu_valid wrap_index _ _ Hi), Nat.ltb_irrefl. cbn [negb].
  by apply SetDataIterator_None.
Qed.

Lemma InitDataBlock_in t b s h : idle t -> at_index b t -> ix !! b = Some (s, h) ->
  exists t' j, InitDataBlock block_function t = Done t' /\ on_block b j t' /\ data_block_handle_ t' = h.
Proof.
  intros Hid Hi Hb. unfold InitDataBlock. pose proof (lookup_lt_Some _ _ _ Hb) as Hlt.
  rewrite (cu_valid wrap_index _ _ Hi), (proj2 (Nat.ltb_lt _ _) Hlt). cbn [negb].
  destruct (cu_entry wrap_index _ _ _ _ Hi Hb) as [_ ->]. rewrite run_bind_done.
  pose proof Hid as [Hst Hin Hd].
  destruct (match iter_ (data_iter_ t) with Some _ => true | None => false end &&
    (slice_compare h (data_block_handle_ t) =? 0)) eqn:E.
  - apply andb_true_iff in E as [E1 E2]. destruct Hd as [E0|(b' & s' & j & Hb' & Hp)]; [by rewrite E0 in E1|].
    assert (h = data_block_handle_ t) as Eh by (apply slice_compare_0; lia).
    exists t, j. split; [done|]. split; [|done]. split; try done. exists s. by rewrite <- Eh.
  - destruct (opens (arg_ t) b s h Hin Hb) as (d & a' & j & -> & Hin' & Hp). rewrite run_bind_done.
    rewrite SetDataIterator_eq by (exact Hst || exact (idle_data_ok t Hid)). cbn [data_iter_].
    destruct (Set_pos (block h) (dpos h) (dcur b s h Hb) (data_iter_ t) j d Hp) as (w & -> & Hw).
    rewrite run_bind_done. eexists _, j. split; [reflexivity|]. split; [|done].
    split; try done; [|by exists s]. split; [done|done|]. right. by exists b, s, j.
Qed.

(** Opening the block of the index entry and moving in it. *)
Lemma open_block t b s h op (P : nat -> Prop) :
  idle t -> at_index b t -> ix !! b = Some (s, h) ->
  (forall i w, wrap_pos (dpos h) i w -> exists w' m, op w = Done w' /\ wrap_pos (dpos h) m w' /\ P m) ->
  exists t' m, (InitDataBlock block_function t ≫= if_data op) = Done t' /\
    on_block b m t' /\ data_block_handle_ t' = h /\ P m.
Proof.
  intros Hid Hi Hb Hop. destruct (InitDataBlock_in t b s h Hid Hi Hb) as (t1 & j & -> & [Hid1 Hi1 Hb1 Hp] & Eh).
  rewrite run_bind_done. unfold if_data. pose proof Hp as (it & -> & _). rewrite Eh in *.
  destruct (Hop j _ Hp) as (w' & m & -> & Hp' & HP). rewrite run_bind_done.
  eexists _, m. split; [reflexivity|]. split; [|done]. cbn. rewrite <- Eh in *.
  split; try done. destruct Hid1. split; [done..|]. right. destruct Hb1 as [s' Hb1]. by exists b, s', m.
Qed.

Lemma open_end t op : idle t -> at_index (length ix) t ->
  exists t', (InitDataBlock block_function t ≫= if_data op) = Done t' /\ off_end t'.
Proof.
  intros Hid Hi. destruct (InitDataBlock_end t Hid Hi) as (t' & -> & Ho). rewrite run_bind_done.
  exists t'. split; [|done]. unfold if_data. by rewrite (oe_data t' Ho).
Qed.

(** ** Skipping empty blocks *)

Lemma no_data_on b j t : on_block b j t -> no_data t = negb (j <? length (block (data_block_handle_ t)))%nat.
Proof.
  intros [_ _ [s Hb] Hp]. unfold no_data. rewrite (cu_valid (wrap_data b s _ Hb) j _ Hp).
  by destruct Hp as (it & -> & _).
Qed.

Lemma on_block_le b j t : on_block b j t -> (j <= length (block (data_block_handle_ t)))%nat.
Proof. intros [_ _ [s Hb] Hp]. by apply (cu_bound (wrap_data b s _ Hb) j _ Hp). Qed.

Lemma on_block_entry b j t :
  on_block b j t -> (j < length (block (data_block_handle_ t)))%nat ->
  two_pos (starts block handles b + j)%nat t.
Proof. intros Ho Hj. left. by exists b, j. Qed.

Lemma forward_end f t : (0 < f)%nat -> off_end t ->
  exists t', SkipEmptyDataBlocksForward block_function f t = Done t' /\ off_end t'.
Proof.
  intros Hf Ho. destruct f as [|f]; [lia|]. cbn [SkipEmptyDataBlocksForward]. unfold no_data.
  rewrite (oe_data t Ho), (cu_valid wrap_index _ _ (oe_index t Ho)), Nat.ltb_irrefl. cbn [negb].
  apply SetDataIterator_None; apply Ho.
Qed.

Lemma backward_end f t : (0 < f)%nat -> off_end t ->
  exists t', SkipEmptyDataBlocksBackward block_function f t = Done t' /\ off_end t'.
Proof.
  intros Hf Ho. destruct f as [|f]; [lia|]. cbn [SkipEmptyDataBlocksBackward]. unfold no_data.
  rewrite (oe_data t Ho), (cu_valid wrap_index _ _ (oe_index t Ho)), Nat.ltb_irrefl. cbn [negb].
  apply SetDataIterator_None; apply Ho.
Qed.

Lemma first_data h : (exists b s, ix !! b = Some (s, h)) ->
  forall i w, wrap_pos (dpos h) i w ->
    exists w' m, SeekToFirst w = Done w' /\ wrap_pos (dpos h) m w' /\ m = 0%nat.
Proof.
  intros (b & s & Hb) i w Hw. destruct (cu_first (wrap_data b s h Hb) i w Hw) as (w' & E & Hp).
  by exists w', 0%nat.
Qed.

Lemma last_data h : (exists b s, ix !! b = Some (s, h)) ->
  forall i w, wrap_pos (dpos h) i w ->
    exists w' m, SeekToLast w = Done w' /\ wrap_pos (dpos h) m w' /\ m = pred (length (block h)).
Proof.
  intros (b & s & Hb) i w Hw. destruct (cu_last (wrap_data b s h Hb) i w Hw) as (w' & E & Hp).
  by exists w', (pred (length (block h))).
Qed.

Lemma run_bind_assoc {X Y Z} (r : run X) (f : X -> run Y) (g : Y -> run Z) :
  ((r ≫= f) ≫= g) = (r ≫= fun x => f x ≫= g).
Proof. by destruct r. Qed.

Lemma forward_ok f t b j : on_block b j t -> (length ix + 1 - b < f)%nat ->
  exists t', SkipEmptyDataBlocksForward block_function f t = Done t' /\
    two_pos (starts block handles b + j)%nat t'.
Proof.
  revert t b j; induction f as [|f IH]; intros t b j Ho Hf; [lia|]. cbn [SkipEmptyDataBlocksForward].
  rewrite (no_data_on b j t Ho). pose proof (on_block_le b j t Ho) as Hj.
  destruct (Nat.ltb_spec j (length (block (data_block_handle_ t)))) as [Hlt|Hge]; cbn [negb].
  { exists t. split; [done|]. by apply on_block_entry. }
  destruct (ob_block b j t Ho) as [s Hb]. pose proof (lookup_lt_Some _ _ _ Hb) as Hlt.
  rewrite (cu_valid wrap_index _ _ (ob_index b j t Ho)), (proj2 (Nat.ltb_lt _ _) Hlt). cbn [negb].
  destruct (cu_next wrap_index _ _ (ob_index b j t Ho) Hlt) as (w & -> & Hw). rewrite run_bind_done.
  assert (idle (set_index t w)) as Hid by (apply set_index_idle, Ho).
  replace (starts block handles b + j)%nat with (starts block handles (S b)).
  2: { rewrite (starts_S block handles b _ (handles_lookup b s _ Hb)). lia. }
  destruct (ix !! S b) as [[s' h']|] eqn:Hb'.
  - destruct (open_block (set_index t w) (S b) s' h' SeekToFirst (fun m => m = 0%nat) Hid Hw Hb')
      as (t' & m & E & Ho' & Eh & ->); [apply first_data; eauto|].
    rewrite <- (Nat.add_0_r (starts block handles (S b))).
    destruct (IH t' (S b) 0%nat Ho') as (t2 & E2 & Hp); [lia|]. exists t2. split; [|done].
    by rewrite <- (run_bind_assoc _ (if_data _)), E.
  - assert (S b = length ix) as Eb by (apply lookup_ge_None in Hb'; lia). rewrite Eb in *.
    destruct (open_end (set_index t w) SeekToFirst Hid Hw) as (t' & E & Ho').
    destruct (forward_end f t') as (t2 & E2 & Hp); [lia|done|]. exists t2. split.
    + by rewrite <- (run_bind_assoc _ (if_data _)), E.
    + right. split; [done|]. rewrite <- (starts_all block handles). by rewrite length_map.
Qed.

(** The entry before block [b], or past the last when there is none. *)
Definition back (n : nat) : nat := match n with O => length kvs | S m => m end.

Lemma backward_ok f t b j : on_block b j t -> (b + 2 <= f)%nat ->
  exists t', SkipEmptyDataBlocksBackward block_function f t = Done t' /\
    two_pos (if (j <? length (block (data_block_handle_ t)))%nat
             then (starts block handles b + j)%nat else back (starts block handles b)) t'.
Proof.
  revert t b j; induction f as [|f IH]; intros t b j Ho Hf; [lia|]. cbn [SkipEmptyDataBlocksBackward].
  rewrite (no_data_on b j t Ho). pose proof (on_block_le b j t Ho) as Hj.
  destruct (Nat.ltb_spec j (length (block (data_block_handle_ t)))) as [Hlt|Hge]; cbn [negb].
  { exists t. split; [done|]. by apply on_block_entry. }
  destruct (ob_block b j t Ho) as [s Hb]. pose proof (lookup_lt_Some _ _ _ Hb) as Hlt.
  rewrite (cu_valid wrap_index _ _ (ob_index b j t Ho)), (proj2 (Nat.ltb_lt _ _) Hlt). cbn [negb].
  destruct (cu_prev wrap_index _ _ (ob_index b j t Ho) Hlt) as (w & -> & Hw). rewrite run_bind_done.
  assert (idle (set_index t w)) as Hid by (apply set_index_idle, Ho).
  destruct b as [|b].
  - destruct (open_end (set_index t w) SeekToLast Hid Hw) as (t' & E & Ho').
    destruct (backward_end f t') as (t2 & E2 & Hp); [lia|done|]. exists t2.
    split; [by rewrite <- (run_bind_assoc _ (if_data _)), E|]. by right.
  - destruct (lookup_lt_is_Some_2 ix b ltac:(lia)) as [[s' h'] Hb'].
    destruct (open_block (set_index t w) b s' h' SeekToLast (fun m => m = pred (length (block h'))) Hid Hw Hb')
      as (t' & m & E & Ho' & Eh & ->); [apply last_data; eauto|].
    destruct (IH t' b (pred (length (block h'))) Ho') as (t2 & E2 & Hp); [lia|]. exists t2.
    split; [by rewrite <- (run_bind_assoc _ (if_data _)), E|].
    rewrite Eh in Hp. rewrite (starts_S block handles b _ (handles_lookup b s' _ Hb')).
    destruct (Nat.ltb_spec (pred (length (block h'))) (length (block h'))).
    + by replace (back (starts block handles b + length (block h')))
        with (starts block handles b + pred (length (block h')))%nat
        by (destruct (length (block h')); [lia|]; rewrite Nat.add_succ_r; cbn [back pred]; lia).
    + by replace (starts block handles b + length (block h'))%nat with (starts block handles b) by lia.
Qed.

(** ** The operations *)

Lemma two_SeekToFirst_ok i t : two_pos i t ->
  exists t', two_SeekToFirst block_function fuel t = Done t' /\ two_pos 0 t'.
Proof.
  intros Hp. destruct (pos_idle i t Hp) as [Hid [b Hi]]. unfold two_SeekToFirst.
  destruct (cu_first wrap_index _ _ Hi) as (w & -> & Hw). rewrite run_bind_done, <- (run_bind_assoc _ (if_data _)).
  pose proof (set_index_idle t w Hid) as Hid'. destruct (ix !! 0%nat) as [[s h]|] eqn:Hb.
  - destruct (open_block (set_index t w) 0 s h SeekToFirst (fun m => m = 0%nat) Hid' Hw Hb)
      as (t' & m & -> & Ho & _ & ->); [apply first_data; eauto|].
    apply (forward_ok fuel t' 0 0 Ho). lia.
  - assert (length ix = 0%nat) as E0 by (apply lookup_ge_None in Hb; lia).
    destruct (open_end (set_index t w) SeekToFirst Hid') as (t' & -> & Ho); [by rewrite E0|].
    destruct (forward_end fuel t') as (t2 & E2 & Ho2); [lia|done|]. exists t2. split; [done|]. right.
    split; [done|]. by destruct ix.
Qed.

Lemma two_SeekToLast_ok i t : two_pos i t ->
  exists t', two_SeekToLast block_function fuel t = Done t' /\ two_pos (pred (length kvs)) t'.
Proof.
  intros Hp. destruct (pos_idle i t Hp) as [Hid [b Hi]]. unfold two_SeekToLast.
  destruct (cu_last wrap_index _ _ Hi) as (w & -> & Hw). rewrite run_bind_done, <- (run_bind_assoc _ (if_data _)).
  pose proof (set_index_idle t w Hid) as Hid'. destruct (ix !! pred (length ix)) as [[s h]|] eqn:Hb.
  - destruct (open_block (set_index t w) _ s h SeekToLast (fun m => m = pred (length (block h))) Hid' Hw Hb)
      as (t' & m & -> & Ho & Eh & ->); [apply last_data; eauto|]. rewrite run_bind_done.
    destruct (backward_ok fuel t' _ _ Ho) as (t2 & -> & Hp2); [lia|]. exists t2. split; [done|].
    rewrite Eh in Hp2. pose proof (lookup_lt_Some _ _ _ Hb).
    pose proof (starts_S block handles _ _ (handles_lookup _ s _ Hb)) as Es.
    replace (S (pred (length ix))) with (length handles) in Es by (rewrite length_map; lia).
    rewrite starts_all in Es. rewrite Es.
    destruct (Nat.ltb_spec (pred (length (block h))) (length (block h))).
    + by replace (pred _) with (starts block handles (pred (length ix)) + pred (length (block h)))%nat by lia.
    + replace (_ + _)%nat with (starts block handles (pred (length ix))) by lia.
      unfold back in Hp2. rewrite Es in Hp2.
      replace (_ + _)%nat with (starts block handles (pred (length ix))) in Hp2 by lia.
      by destruct (starts block handles (pred (length ix))).
  - assert (length ix = 0%nat) as E0 by (apply lookup_ge_None in Hb; lia).
    destruct (open_end (set_index t w) SeekToLast Hid') as (t' & -> & Ho); [by rewrite E0 in *|].
    destruct (backward_end fuel t') as (t2 & E2 & Ho2); [lia|done|]. exists t2. split; [done|]. right.
    split; [done|]. by destruct ix.
Qed.

(** A valid position is an entry of a block. *)
Lemma pos_entry i t : two_pos i t -> (i < length kvs)%nat ->
  exists b j, at_entry b j t /\ i = (starts block handles b + j)%nat.
Proof. intros [Hp|[_ ->]] Hi; [done|lia]. Qed.

Lemma set_data_on b j m t w : on_block b j t -> wrap_pos (dpos (data_block_handle_ t)) m w ->
  on_block b m (set_data t w).
Proof.
  intros [[Hst Hin _] Hi [s Hb] _] Hw. split; try done; [|by exists s].
  split; [done|done|]. right. by exists b, s, m.
Qed.

Lemma two_Next_ok i t : two_pos i t -> (i < length kvs)%nat ->
  exists t', two_Next block_function fuel t = Done t' /\ two_pos (S i) t'.
Proof.
  intros Hp Hi. destruct (pos_entry i t Hp Hi) as (b & j & [Ho Hj] & ->).
  unfold two_Next. pose proof Ho as [_ _ [s Hb] Hd].
  destruct (cu_next (wrap_data b s _ Hb) j _ Hd Hj) as (w & -> & Hw). rewrite run_bind_done.
  rewrite <- Nat.add_succ_r. apply (forward_ok fuel (set_data t w) b (S j)); [by apply (set_data_on b j) | lia].
Qed.

Lemma two_Prev_ok i t : two_pos i t -> (i < length kvs)%nat ->
  exists t', two_Prev block_function fuel t = Done t' /\ two_pos (back i) t'.
Proof.
  intros Hp Hi. destruct (pos_entry i t Hp Hi) as (b & j & [Ho Hj] & ->).
  unfold two_Prev. pose proof Ho as [_ _ [s Hb] Hd].
  destruct (cu_prev (wrap_data b s _ Hb) j _ Hd Hj) as (w & -> & Hw). rewrite run_bind_done.
  pose proof (lookup_lt_Some _ _ _ Hb).
  destruct (backward_ok fuel (set_data t w) b _ (set_data_on b j _ t w Ho Hw)) as (t' & -> & Hp'); [lia|].
  exists t'. split; [done|]. cbn [data_block_handle_ set_data] in Hp'. destruct j as [|j].
  - rewrite Nat.ltb_irrefl in Hp'. by rewrite Nat.add_0_r.
  - rewrite (proj2 (Nat.ltb_lt _ _)) in Hp' by lia. by rewrite Nat.add_succ_r.
Qed.

Lemma entries_before target b b' :
  valid target -> lower_bound target ix b -> (b' <= b)%nat ->
  Forall (fun kv => Compare kv.1 target < 0) (entries block (take b' handles)).
Proof.
  intros Hv [_ Hl] Hle. apply list.Forall_forall. intros kv (i & h & Hi & Hkv)%elem_of_entries.
  pose proof (lookup_lt_Some _ _ _ Hi) as Hlt. rewrite length_take in Hlt.
  rewrite lookup_take_lt in Hi by lia. apply list_lookup_fmap_Some in Hi as ([s h'] & -> & Hi). cbn in *.
  apply (cmp_trans_lt_r kv.1 s target); eauto. apply (Hl i (s, h') Hi). lia.
Qed.

Lemma entries_after target b :
  valid target -> lower_bound target ix b ->
  Forall (fun kv => 0 <= Compare kv.1 target) (entries block (drop (S b) handles)).
Proof.
  intros Hv [_ Hl]. apply list.Forall_forall. intros kv (i & h & Hi & Hkv)%elem_of_entries.
  rewrite lookup_drop in Hi. apply list_lookup_fmap_Some in Hi as ([s' h'] & -> & Hi). cbn in *.
  pose proof (lookup_lt_Some _ _ _ Hi).
  destruct (lookup_lt_is_Some_2 ix b ltac:(lia)) as [[s h] Hb].
  assert (0 <= Compare s target) as Hs.
  { destruct (Z.lt_ge_cases (Compare s target) 0) as [Hc|]; [|done].
    apply (Hl b (s, h) Hb) in Hc. lia. }
  pose proof (sep_below b s h _ s' h' kv Hb Hi ltac:(lia) Hkv) as Hlt.
  assert (valid kv.1) by eauto. assert (valid s) by eauto.
  apply cmp_le_ge; [done..|]. apply cmp_le_ge in Hs; [|done..].
  apply (cmp_trans target s kv.1); [done..|lia].
Qed.

Lemma seek_block target b s h m :
  valid target -> lower_bound target ix b -> ix !! b = Some (s, h) -> lower_bound target (block h) m ->
  lower_bound target kvs (starts block handles b + m)%nat.
Proof.
  intros Hv Hb Hl Hm. rewrite (entries_split block handles b h (handles_lookup b s h Hl)).
  apply lower_bound_app_r; [by apply (entries_before target b)|].
  apply lower_bound_app_l; [done|]. by apply entries_after.
Qed.

Lemma seek_end target :
  valid target -> lower_bound target ix (length ix) -> lower_bound target kvs (length kvs).
Proof.
  intros Hv Hb. rewrite <- (app_nil_r kvs) at 1. apply lower_bound_split; [|constructor].
  pose proof (entries_before target _ (length ix) Hv Hb (le_n _)) as Hf.
  rewrite take_ge in Hf by (by rewrite length_map). done.
Qed.

Lemma two_Seek_ok i t target : two_pos i t -> valid target ->
  exists t' m, two_Seek block_function fuel t target = Done t' /\ two_pos m t' /\ lower_bound target kvs m.
Proof.
  intros Hp Hv. destruct (pos_idle i t Hp) as [Hid [b0 Hi]]. unfold two_Seek.
  destruct (cu_seek wrap_index _ _ target Hi Hv) as (w & b & -> & Hw & Hb).
  rewrite run_bind_done, <- (run_bind_assoc _ (if_data _)).
  pose proof (set_index_idle t w Hid) as Hid'. destruct (ix !! b) as [[s h]|] eqn:Hl.
  - destruct (open_block (set_index t w) b s h (fun w => Seek w target)
      (lower_bound target (block h)) Hid' Hw Hl) as (t' & m & -> & Ho & _ & Hm).
    { intros j w0 Hw0. by apply (cu_seek (wrap_data b s h Hl) j). }
    rewrite run_bind_done. destruct (forward_ok fuel t' b m Ho) as (t2 & -> & Hp2); [lia|].
    exists t2, (starts block handles b + m)%nat. split; [done|]. split; [done|].
    by apply (seek_block target b s h).
  - assert (b = length ix) as ->.
    { destruct Hb as [Hle _]. apply lookup_ge_None in Hl. lia. }
    destruct (open_end (set_index t w) (fun w => Seek w target) Hid' Hw) as (t' & -> & Ho).
    rewrite run_bind_done. destruct (forward_end fuel t') as (t2 & -> & Ho2); [lia|done|].
    exists t2, (length kvs). split; [done|]. split; [by right|]. by apply seek_end.
Qed.

Lemma status_ok i t : two_pos i t -> two_status t = OK.
Proof.
  intros Hp. destruct (pos_idle i t Hp) as [Hid [b Hi]]. unfold two_status.
  rewrite (cu_status wrap_index b _ Hi). cbn [ok OK negb].
  destruct (idle_data_ok t Hid) as [E|E]; [rewrite E|rewrite E, andb_false_r]; apply Hid.
Qed.

Lemma two_level_cursor :
  @cursor c valid _ (two_level_iterator block_function fuel) kvs two_pos.
Proof.
  split; cbn [Valid SeekToFirst SeekToLast Seek Next Prev key value status two_level_iterator].
  - intros i t [(b & j & [Ho Hj] & ->)|[_ ->]]; [|done].
    destruct (ob_block b j t Ho) as [s Hb].
    pose proof (starts_bound block handles b _ (handles_lookup b s _ Hb)). lia.
  - intros i t [(b & j & [Ho Hj] & ->)|[Ho ->]].
    + destruct (ob_block b j t Ho) as [s Hb].
      pose proof (starts_bound block handles b _ (handles_lookup b s _ Hb)).
      rewrite (proj2 (Nat.ltb_lt _ (length kvs))) by lia. fold (Valid (data_iter_ t)).
      rewrite (cu_valid (wrap_data b s _ Hb) j _ (ob_pos b j t Ho)). by apply Nat.ltb_lt.
    + rewrite Nat.ltb_irrefl. apply Ho.
  - apply status_ok.
  - intros i t k v [(b & j & [Ho Hj] & ->)|[_ ->]] Hkv; [|apply lookup_lt_Some in Hkv; lia].
    destruct (ob_block b j t Ho) as [s Hb].
    rewrite (entries_lookup block handles b _ j (handles_lookup b s _ Hb) Hj) in Hkv.
    apply (cu_entry (wrap_data b s _ Hb) j _ k v (ob_pos b j t Ho) Hkv).
  - apply two_SeekToFirst_ok.
  - apply two_SeekToLast_ok.
  - apply two_Next_ok.
  - apply two_Prev_ok.
  - apply two_Seek_ok.
Qed.

Lemma NewTwoLevelIterator_ok it a :
  ipos (length ix) it -> inv a ->
  exists t, NewTwoLevelIterator it a = Done t /\ two_pos (length kvs) t.
Proof.
  intros Hp Ha. unfold NewTwoLevelIterator.
  destruct (Set_pos ix ipos icur new_IteratorWrapper (length ix) it Hp) as (w & -> & Hw).
  rewrite run_bind_done. eexists. split; [reflexivity|]. right. split; [|done].
  split; try done. split; [done|done|by left].
Qed.

Lemma two_level_ok it a :
  ipos (length ix) it -> inv a ->
  exists t pos, NewTwoLevelIterator it a = Done t /\ pos (length kvs) t /\
    @cursor c valid _ (two_level_iterator block_function fuel) kvs pos.
Proof.
  intros Hp Ha. destruct (NewTwoLevelIterator_ok it a Hp Ha) as (t & E & Ht).
  exists t, two_pos. split; [done|]. split; [done|]. apply two_level_cursor.
Qed.

(** A two-level iterator is the concatenation of its blocks: when the index
    iterator is a cursor over the index entries, the block function opens a cursor
    for each of them, and the separators lie between the blocks, then the
    iterator starts out of range and is a cursor over all entries in order: first,
    last, next, previous and seek, with empty blocks skipped in both directions,
    whatever its block function does to its argument within an invariant. *)
Theorem two_level_correct it a :
  ipos (length ix) it -> inv a ->
  exists t pos, NewTwoLevelIterator it a = Done t /\ pos (length kvs) t /\
    @cursor c valid _ (two_level_iterator block_function fuel) kvs pos.
Proof. apply two_level_ok. Qed.
End Correct.

Definition demo_block (h : list byte) : list (list byte * list byte) :=
  if decide (h = [x00]) then [([x61], [x01]); ([x62], [x02])]
  else if decide (h = [x02]) then [([x65], [x03])] else [].

Definition demo_index : list (list byte * list byte) := [([x62], [x00]); ([x63], [x01]); ([x66], [x02])].

Lemma demo_index_cursor :
  @cursor BytewiseComparator (fun _ => True) _ (@list_iterator BytewiseComparator) demo_index
    (fun i it => (i <= length demo_index)%nat /\ it = mk_list_iter demo_index i).
Proof. apply (list_cursor (laws := bytewise_laws)); repeat constructor. Qed.

Lemma two_level_correct_witness :
  let bf (calls : nat) h := Done (mk_list_iter (demo_block h) 0, S calls) in
  let c := BytewiseComparator in let li := @list_iterator c in
  exists t pos, @NewTwoLevelIterator _ ListIterator nat li (mk_list_iter demo_index 3) 0%nat = Done t /\
    pos 3%nat t /\
    @cursor c (fun _ => True) _ (@two_level_iterator _ _ _ li li bf 5)
      [([x61], [x01]); ([x62], [x02]); ([x65], [x03])] pos.
Proof.
  cbv zeta.
  apply (@two_level_correct BytewiseComparator (fun _ => True) bytewise_laws _ _ nat
    (@list_iterator BytewiseComparator) (@list_iterator BytewiseComparator)
    (fun calls h => Done (mk_list_iter (demo_block h) 0, S calls)) 5
    demo_index _ demo_index_cursor
    demo_block (fun h i it => (i <= length (demo_block h))%nat /\ it = mk_list_iter (demo_block h) i)
    (fun _ => True)).
  - intros [|[|[|b]]] s h [= <- <-]; apply (list_cursor (laws := bytewise_laws)); repeat constructor.
  - intros a b s h _ _. exists (mk_list_iter (demo_block h) 0), (S a), 0%nat.
    split; [reflexivity|]. split; [done|]. split; [lia|done].
  - done.
  - done.
  - intros [|[|[|b]]] s h kv [= <- <-] Hin; apply list_elem_of_In in Hin; cbn in Hin;
      repeat destruct Hin as [<-|Hin]; try done; vm_compute; discriminate.
  - intros [|[|[|b]]] s h [|[|[|b']]] s' h' kv [= <- <-] [= <- <-] Hlt Hin; try lia;
      apply list_elem_of_In in Hin; cbn in Hin; repeat destruct Hin as [<-|Hin]; try done; vm_compute; reflexivity.
  - cbn; lia.
  - split; [cbn; lia|reflexivity].
  - done.
Defined.
