(* ===== verification/LdbMerger.v ===== *)
(** leveldb: the merging iterator (table/merger.cc).

    [merging_correct]: merging cursors over ordered lists without a key in common
    is a cursor over the ordered list of all their entries, in both directions
    and through any changes of direction.
    [merging_drops_duplicates]: a key that two children have is not always yielded
    twice. *)

From Stdlib Require Import Sorting.Sorted.
From stdpp Require Import sorting.
From S2P Require Import Prelude LdbCoding LdbStatus LdbFormat LdbIterator.
Open Scope Z_scope.

Inductive Direction := kForward | kReverse.

#[export] Instance Direction_eq_dec : EqDecision Direction.
Proof. solve_decision. Defined.

Section Merging.
Context {comparator : Comparator} {I : Type} `{Iterator I}.
#[local] Abbreviation W := (IteratorWrapper I).

(** [current_] points into the array [children_]. *)
Record MergingIterator := mk_merge {
  children_ : list W;
  current_ : option nat;
  direction_ : Direction;
}.

(** A loop over the children, each of which it may move. *)
Fixpoint for_children (i : nat) (body : nat -> W -> run W) (ws : list W) : run (list W) :=
  match ws with
  | [] => Done []
  | w :: ws => w ← body i w; ws ← for_children (S i) body ws; Done (w :: ws)
  end.

Fixpoint smallest_loop (i : nat) (ws : list W) (smallest : option (nat * list byte))
  : option (nat * list byte) :=
  match ws with
  | [] => smallest
  | child :: ws =>
      smallest_loop (S i) ws
        (if Valid child then
           match smallest with
           | None => Some (i, key_ child)
           | Some (_, k) => if Compare (key_ child) k <? 0 then Some (i, key_ child) else smallest
           end
         else smallest)
  end.

Definition FindSmallest (ws : list W) : option nat := fst <$> smallest_loop 0 ws None.

(** From the last child to the first. *)
Fixpoint largest_loop (i : nat) (ws : list W) : option (nat * list byte) :=
  match ws with
  | [] => None
  | child :: ws =>
      let largest := largest_loop (S i) ws in
      if Valid child then
        match largest with
        | None => Some (i, key_ child)
        | Some (_, k) => if Compare (key_ child) k >? 0 then Some (i, key_ child) else largest
        end
      else largest
  end.

Definition FindLargest (ws : list W) : option nat := fst <$> largest_loop 0 ws.

Definition new_MergingIterator (children : list I) : run MergingIterator :=
  ws ← (fix set_all (its : list I) : run (list W) :=
          match its with
          | [] => Done []
          | it :: its =>
              w ← wrap_Set new_IteratorWrapper (Some it); ws ← set_all its; Done (w :: ws)
          end) children;
  Done (mk_merge ws None kForward).

Definition m_Valid (m : MergingIterator) : bool :=
  match current_ m with Some _ => true | None => false end.

Definition m_SeekToFirst (m : MergingIterator) : run MergingIterator :=
  ws ← for_children 0 (fun _ w => SeekToFirst w) (children_ m);
  Done (mk_merge ws (FindSmallest ws) kForward).

Definition m_SeekToLast (m : MergingIterator) : run MergingIterator :=
  ws ← for_children 0 (fun _ w => SeekToLast w) (children_ m);
  Done (mk_merge ws (FindLargest ws) kReverse).

Definition m_Seek (m : MergingIterator) (target : list byte) : run MergingIterator :=
  ws ← for_children 0 (fun _ w => Seek w target) (children_ m);
  Done (mk_merge ws (FindSmallest ws) kForward).

(** [current_], where the code follows the pointer. *)
Definition current_child (m : MergingIterator) : run (nat * W) :=
  match current_ m with
  | None => OutOfBounds
  | Some i => match children_ m !! i with Some w => Done (i, w) | None => OutOfBounds end
  end.

Definition m_key (m : MergingIterator) : run (list byte) := '(_, w) ← current_child m; key w.
Definition m_value (m : MergingIterator) : run (list byte) := '(_, w) ← current_child m; value w.

(** [current_->op();] *)
Definition move_current (op : W -> run W) (cur : nat) (ws : list W) : run (list W) :=
  match ws !! cur with None => OutOfBounds | Some w => w ← op w; Done (<[cur := w]> ws) end.

Definition m_Next (m : MergingIterator) : run MergingIterator :=
  '(cur, w) ← current_child m;
  k ← key w;
  ws ← (if decide (direction_ m = kForward) then Done (children_ m)
        else for_children 0 (fun i child =>
               if (i =? cur)%nat then Done child
               else
                 child ← Seek child k;
                 if Valid child && (Compare k (key_ child) =? 0) then Next child else Done child)
             (children_ m));
  ws ← move_current Next cur ws;
  Done (mk_merge ws (FindSmallest ws) kForward).

Definition m_Prev (m : MergingIterator) : run MergingIterator :=
  '(cur, w) ← current_child m;
  k ← key w;
  ws ← (if decide (direction_ m = kReverse) then Done (children_ m)
        else for_children 0 (fun i child =>
               if (i =? cur)%nat then Done child
               else
                 child ← Seek child k;
                 if Valid child then Prev child else SeekToLast child)
             (children_ m));
  ws ← move_current Prev cur ws;
  Done (mk_merge ws (FindLargest ws) kReverse).

(** The first status that is not OK. *)
Fixpoint status_loop (ws : list W) (s : Status) : Status :=
  match ws with
  | [] => s
  | w :: ws => let s := status w in if negb (ok s) then s else status_loop ws s
  end.

Definition m_status (m : MergingIterator) : Status := status_loop (children_ m) OK.

(** What [NewMergingIterator] returns. *)
Inductive merged_iterator :=
  | MergedNone (e : EmptyIterator)
  | MergedOne (it : I)
  | MergedMany (m : MergingIterator).

Definition NewMergingIterator (children : list I) : run merged_iterator :=
  match children with
  | [] => Done (MergedNone NewEmptyIterator)
  | [it] => Done (MergedOne it)
  | _ => m ← new_MergingIterator children; Done (MergedMany m)
  end.

Definition merging_iterator : Iterator MergingIterator := {|
  Valid := m_Valid;
  SeekToFirst := m_SeekToFirst;
  SeekToLast := m_SeekToLast;
  Seek := m_Seek;
  Next := m_Next;
  Prev := m_Prev;
  key := m_key;
  value := m_value;
  status := m_status;
|}.

Definition merged_op (op0 : EmptyIterator -> run EmptyIterator) (op1 : I -> run I)
  (op2 : MergingIterator -> run MergingIterator) (it : merged_iterator) : run merged_iterator :=
  match it with
  | MergedNone e => e ← op0 e; Done (MergedNone e)
  | MergedOne it => it ← op1 it; Done (MergedOne it)
  | MergedMany m => m ← op2 m; Done (MergedMany m)
  end.

Definition merged_get {X} (get0 : EmptyIterator -> X) (get1 : I -> X) (get2 : MergingIterator -> X)
  (it : merged_iterator) : X :=
  match it with MergedNone e => get0 e | MergedOne it => get1 it | MergedMany m => get2 m end.

Definition merged_iterator_iterator : Iterator merged_iterator := {|
  Valid := merged_get Valid Valid m_Valid;
  SeekToFirst := merged_op SeekToFirst SeekToFirst m_SeekToFirst;
  SeekToLast := merged_op SeekToLast SeekToLast m_SeekToLast;
  Seek it target := merged_op (fun e => Seek e target) (fun it => Seek it target) (fun m => m_Seek m target) it;
  Next := merged_op Next Next m_Next;
  Prev := merged_op Prev Prev m_Prev;
  key := merged_get key key m_key;
  value := merged_get value value m_value;
  status := merged_get status status m_status;
|}.
End Merging.
Arguments MergingIterator I : clear implicits.
Arguments merged_iterator I : clear implicits.

(** * The smallest and the largest child *)

Section Extremes.
Context {comparator : Comparator} {I : Type} `{Iterator I}.
Implicit Type ws : list (IteratorWrapper I).

Lemma smallest_keep k ws b kb :
  (forall i w, ws !! i = Some w -> Valid w = true -> 0 <= Compare (key_ w) kb) ->
  smallest_loop k ws (Some (b, kb)) = Some (b, kb).
Proof.
  revert k; induction ws as [|w ws IH]; intros k Hw; [done|]. cbn [smallest_loop].
  destruct (Valid w) eqn:E.
  - rewrite (proj2 (Z.ltb_ge _ _)) by (by apply (Hw 0%nat w)). apply IH. intros i. apply (Hw (S i)).
  - apply IH. intros i. apply (Hw (S i)).
Qed.

Lemma smallest_find k ws cur w best :
  ws !! cur = Some w -> Valid w = true ->
  (forall i w', ws !! i = Some w' -> Valid w' = true -> i <> cur ->
     Compare (key_ w) (key_ w') < 0 /\ 0 <= Compare (key_ w') (key_ w)) ->
  match best with None => True | Some (_, kb) => Compare (key_ w) kb < 0 end ->
  smallest_loop k ws best = Some ((k + cur)%nat, key_ w).
Proof.
  revert k cur best; induction ws as [|x ws IH]; intros k cur best Hw Hv Ho Hb; [done|].
  cbn [smallest_loop]. destruct cur as [|cur]; cbn in Hw.
  - injection Hw as ->. rewrite Hv, Nat.add_0_r.
    assert (match best with None => Some (k, key_ w)
      | Some (_, kb) => if Compare (key_ w) kb <? 0 then Some (k, key_ w) else best end = Some (k, key_ w)) as ->.
    { destruct best as [[b kb]|]; [|done]. by rewrite (proj2 (Z.ltb_lt _ _)). }
    apply smallest_keep. intros i w' Hi Hv'. by apply (Ho (S i) w').
  - rewrite <- Nat.add_succ_comm. apply IH; try done.
    + intros i w' Hi Hv' Hne. apply (Ho (S i) w' Hi Hv'). lia.
    + destruct (Valid x) eqn:E; [|done].
      destruct (Ho 0%nat x) as [H1 _]; [done|done|lia|]. destruct best as [[b kb]|]; [|done].
      by destruct (Compare (key_ x) kb <? 0).
Qed.

Lemma smallest_none k ws : (forall i w, ws !! i = Some w -> Valid w = false) -> smallest_loop k ws None = None.
Proof.
  revert k; induction ws as [|w ws IH]; intros k Hw; [done|]. cbn [smallest_loop].
  rewrite (Hw 0%nat w) by done. apply IH. intros i. apply (Hw (S i)).
Qed.

Lemma largest_is k ws : match largest_loop k ws with None => True
  | Some (_, kb) => exists i w, ws !! i = Some w /\ Valid w = true /\ key_ w = kb end.
Proof.
  revert k; induction ws as [|w ws IH]; intros k; [done|]. cbn [largest_loop]. specialize (IH (S k)).
  destruct (largest_loop (S k) ws) as [[j kb]|].
  - destruct IH as (i & w' & Hi & Hv & E). assert (exists i w'', (w :: ws) !! i = Some w'' /\ Valid w'' = true /\ key_ w'' = kb)
      by (exists (S i), w'; done).
    destruct (Valid w) eqn:Ev; [|done]. destruct (_ >? 0); [|done]. by exists 0%nat, w.
  - destruct (Valid w) eqn:Ev; [|done]. by exists 0%nat, w.
Qed.

Lemma largest_find k ws cur w :
  ws !! cur = Some w -> Valid w = true ->
  (forall i w', ws !! i = Some w' -> Valid w' = true -> i <> cur ->
     0 < Compare (key_ w) (key_ w') /\ Compare (key_ w') (key_ w) <= 0) ->
  largest_loop k ws = Some ((k + cur)%nat, key_ w).
Proof.
  revert k cur; induction ws as [|x ws IH]; intros k cur Hw Hv Ho; [done|].
  cbn [largest_loop]. destruct cur as [|cur]; cbn in Hw.
  - injection Hw as ->. rewrite Hv, Nat.add_0_r. pose proof (largest_is (S k) ws) as Hl.
    destruct (largest_loop (S k) ws) as [[j kb]|]; [|done]. destruct Hl as (i & w' & Hi & Hv' & <-).
    destruct (Ho (S i) w' Hi Hv' ltac:(lia)) as [H1 _]. by rewrite Z.gtb_ltb, (proj2 (Z.ltb_lt _ _)).
  - rewrite <- Nat.add_succ_comm, (IH (S k) cur Hw Hv); [|intros i w' Hi Hv' Hne; apply (Ho (S i) w' Hi Hv'); lia].
    destruct (Valid x) eqn:E; [|done]. destruct (Ho 0%nat x) as [_ H2]; [done|done|lia|].
    by rewrite Z.gtb_ltb, (proj2 (Z.ltb_ge _ _)) by lia.
Qed.

Lemma largest_none k ws : (forall i w, ws !! i = Some w -> Valid w = false) -> largest_loop k ws = None.
Proof.
  intros Hw. pose proof (largest_is k ws) as Hl. destruct (largest_loop k ws) as [[j kb]|]; [|done].
  destruct Hl as (i & w & Hi & Hv & _). rewrite (Hw i w Hi) in Hv. done.
Qed.
End Extremes.

(** * The children, cut at an entry of the merged list *)

Section Correct.
Context {c : Comparator} {valid : list byte -> Prop} {laws : ComparatorLaws valid c}.
Context {I : Type} `{Iterator I}.
#[local] Abbreviation W := (IteratorWrapper I).
#[local] Abbreviation kv_lt := (fun a b : list byte * list byte => Compare (fst a) (fst b) < 0).
Implicit Types l kvs : list (list byte * list byte).

(** The lists of the children and their merge. *)
Context (ls : list (list (list byte * list byte))) (kvs : list (list byte * list byte)).
Context (cpos : nat -> nat -> I -> Prop).
Context (ccur : forall i l, ls !! i = Some l -> cursor valid l (cpos i)).
Context (merge : kvs ≡ₚ concat ls) (sorted : StronglySorted kv_lt kvs).
Context (child_sorted : forall i l, ls !! i = Some l -> StronglySorted kv_lt l).
Context (keys_valid : Forall (fun kv => valid (fst kv)) kvs).

Lemma kvs_valid g e : kvs !! g = Some e -> valid e.1.
Proof. intros Hg. apply (proj1 (list.Forall_forall _ _) keys_valid). by apply list_elem_of_lookup_2 in Hg. Qed.

Lemma strong_lookup l i j a b :
  StronglySorted kv_lt l -> l !! i = Some a -> l !! j = Some b -> (i < j)%nat -> kv_lt a b.
Proof.
  intros Hs. revert i j. induction Hs as [|x l Hs IH Hall]; intros i j Ha Hb Hij; [done|].
  destruct j as [|j]; [lia|]. destruct i as [|i]; cbn in Ha, Hb.
  - injection Ha as ->. apply (proj1 (list.Forall_forall _ _) Hall). by apply list_elem_of_lookup_2 in Hb.
  - apply (IH i j); [done..|lia].
Qed.

(** The order of the entries is the order of their positions. *)
Lemma kvs_lt g h a b : kvs !! g = Some a -> kvs !! h = Some b -> Compare a.1 b.1 < 0 <-> (g < h)%nat.
Proof.
  intros Ha Hb. pose proof (kvs_valid g a Ha). pose proof (kvs_valid h b Hb).
  split; [|by apply (strong_lookup kvs)]. intros Hlt.
  destruct (Nat.lt_trichotomy g h) as [|[->|Hgt]]; [done|exfalso..].
  - assert (a = b) as -> by congruence. rewrite cmp_refl in Hlt by done. lia.
  - pose proof (strong_lookup kvs h g b a sorted Hb Ha Hgt) as Hc. cbn in Hc.
    apply (cmp_lt_gt b.1 a.1) in Hc; [lia|done..].
Qed.

Lemma kvs_inj g h a : kvs !! g = Some a -> kvs !! h = Some a -> g = h.
Proof.
  intros Hg Hh. destruct (Nat.lt_trichotomy g h) as [Hlt|[|Hlt]]; [|done|];
    apply (kvs_lt _ _ a a) in Hlt; try done; rewrite cmp_refl in Hlt; lia || by apply (kvs_valid g).
Qed.

Lemma kvs_nodup : NoDup kvs.
Proof. apply NoDup_alt. intros g h a. apply kvs_inj. Qed.

Lemma child_index i l e : ls !! i = Some l -> e ∈ l -> exists h, kvs !! h = Some e.
Proof.
  intros Hi He. apply list_elem_of_lookup. rewrite merge, list_elem_of_In, in_concat. exists l.
  rewrite <- !list_elem_of_In. split; [by apply list_elem_of_lookup_2 in Hi | done].
Qed.

Lemma child_valid i l e : ls !! i = Some l -> e ∈ l -> valid e.1.
Proof. intros Hi He. destruct (child_index i l e Hi He) as [h Hh]. by apply (kvs_valid h). Qed.

(** Every entry belongs to one child. *)
Lemma holder g e : kvs !! g = Some e -> exists i l, ls !! i = Some l /\ e ∈ l.
Proof.
  intros Hg. apply list_elem_of_lookup_2 in Hg. rewrite merge, list_elem_of_In, in_concat in Hg.
  destruct Hg as (l & Hl & He). apply list_elem_of_In, list_elem_of_lookup in Hl as [i Hi].
  exists i, l. split; [done|]. by apply list_elem_of_In.
Qed.

Lemma holder_unique i i' l l' e :
  ls !! i = Some l -> ls !! i' = Some l' -> e ∈ l -> e ∈ l' -> i = i'.
Proof.
  intros Hi Hi' He He'. assert (NoDup (concat ls)) as Hnd by (rewrite <- merge; apply kvs_nodup).
  clear - Hi Hi' He He' Hnd. revert i i' Hi Hi'. induction ls as [|x xs IH]; intros i i' Hi Hi'; [done|].
  cbn [concat] in Hnd. apply list.NoDup_app in Hnd as (_ & Hd & Hnd).
  assert (forall i l, xs !! i = Some l -> e ∈ l -> e ∈ concat xs) as Hin.
  { intros k m Hk Hm. apply list_elem_of_In, in_concat. exists m.
    split; apply list_elem_of_In; [by apply list_elem_of_lookup_2 in Hk | done]. }
  destruct i as [|i], i' as [|i']; cbn in Hi, Hi'.
  - done.
  - injection Hi as ->. by destruct (Hd e He (Hin i' l' Hi' He')).
  - injection Hi' as ->. by destruct (Hd e He' (Hin i l Hi He)).
  - f_equal. by apply IH.
Qed.

(** The first [n] entries of [l] are those among the first [g] of the merge. *)
Definition cut (g : nat) l (n : nat) : Prop :=
  (n <= length l)%nat /\ forall j e, l !! j = Some e -> (j < n)%nat <-> e ∈ take g kvs.

Lemma take_index g h e : kvs !! h = Some e -> e ∈ take g kvs <-> (h < g)%nat.
Proof.
  intros Hh. rewrite list_elem_of_lookup. split.
  - intros [j Hj]. pose proof (lookup_lt_Some _ _ _ Hj) as Hlt. rewrite length_take in Hlt.
    rewrite lookup_take_lt in Hj by lia. rewrite (kvs_inj h j e Hh Hj). lia.
  - intros Hlt. exists h. by rewrite lookup_take_lt.
Qed.

Lemma cut_unique g l m n : cut g l m -> cut g l n -> m = n.
Proof.
  intros [Hm H1] [Hn H2]. destruct (Nat.lt_trichotomy m n) as [Hlt|[|Hlt]]; [|done|].
  - destruct (lookup_lt_is_Some_2 l m ltac:(lia)) as [e He].
    pose proof (proj1 (H2 m e He) Hlt) as Hin. apply (H1 m e He) in Hin. lia.
  - destruct (lookup_lt_is_Some_2 l n ltac:(lia)) as [e He].
    pose proof (proj1 (H1 n e He) Hlt) as Hin. apply (H2 n e He) in Hin. lia.
Qed.

Lemma cut_0 l : cut 0 l 0.
Proof. split; [lia|]. intros j e _. split; [lia|]. intros Hin. by apply not_elem_of_nil in Hin. Qed.

Lemma cut_all i l g : ls !! i = Some l -> (length kvs <= g)%nat -> cut g l (length l).
Proof.
  intros Hi Hg. split; [done|]. intros j e Hj. rewrite take_ge by done.
  pose proof (lookup_lt_Some _ _ _ Hj). split; [|done]. intros _.
  destruct (child_index i l e Hi) as [h Hh]; [by apply list_elem_of_lookup_2 in Hj|].
  by apply list_elem_of_lookup_2 in Hh.
Qed.

(** A search in a child ends at the cut of the search in the merge. *)
Lemma cut_search i l target g n :
  ls !! i = Some l -> lower_bound target kvs g -> lower_bound target l n -> cut g l n.
Proof.
  intros Hi [Hg Hl] [Hn Hln]. split; [done|]. intros j e Hj.
  destruct (child_index i l e Hi) as [h Hh]; [by apply list_elem_of_lookup_2 in Hj|].
  rewrite <- (Hln j e Hj), (Hl h e Hh). symmetry. by apply take_index.
Qed.

(** Where the holder of entry [g] has it. *)
Lemma cut_holder i l g e n :
  ls !! i = Some l -> kvs !! g = Some e -> e ∈ l -> cut g l n -> l !! n = Some e.
Proof.
  intros Hi Hg He [Hn Hc]. apply list_elem_of_lookup in He as [j Hj].
  assert (n <= j)%nat as Hnj.
  { destruct (Nat.le_gt_cases n j) as [|Hlt]; [done|]. apply (Hc j e Hj), (take_index g g e Hg) in Hlt. lia. }
  destruct (Nat.eq_dec n j) as [->|Hne]; [done|]. exfalso.
  pose proof (lookup_lt_Some _ _ _ Hj). destruct (lookup_lt_is_Some_2 l n ltac:(lia)) as [e' He'].
  destruct (child_index i l e' Hi) as [h Hh]; [by apply list_elem_of_lookup_2 in He'|].
  assert (kv_lt e' e) as Hlt by (apply (strong_lookup l n j); [by apply (child_sorted i)|done|done|lia]).
  apply (kvs_lt h g e' e Hh Hg), (take_index g h e' Hh), (Hc n e' He') in Hlt. lia.
Qed.

Lemma cut_next_holder i l g e n :
  ls !! i = Some l -> kvs !! g = Some e -> e ∈ l -> cut g l n -> cut (S g) l (S n).
Proof.
  intros Hi Hg He Hc. pose proof (cut_holder i l g e n Hi Hg He Hc) as Hn. destruct Hc as [_ Hc].
  split; [by apply lookup_lt_Some in Hn|]. intros j e' Hj.
  rewrite (take_S_r kvs g e Hg), elem_of_app, <- (Hc j e' Hj), list_elem_of_singleton.
  split; [|intros [Hlt| ->]; [lia|]].
  - intros Hlt. destruct (Nat.eq_dec j n) as [->|]; [right; congruence | left; lia].
  - destruct (Nat.lt_ge_cases j (S n)) as [|Hge]; [done|].
    pose proof (strong_lookup l n j e e (child_sorted i l Hi) Hn Hj ltac:(lia)) as Hlt. cbn in Hlt.
    rewrite cmp_refl in Hlt; [lia|]. by apply (kvs_valid g).
Qed.

Lemma cut_before_holder i l g e n :
  ls !! i = Some l -> kvs !! g = Some e -> e ∈ l -> cut (S g) l n -> exists m, cut g l m /\ n = S m.
Proof.
  intros Hi Hg He Hn. apply list_elem_of_lookup in He as He'. destruct He' as [j Hj]. exists j.
  assert (cut g l j) as Hcj.
  { split; [apply lookup_lt_Some in Hj; lia|]. intros j' e' Hj'.
    destruct (child_index i l e' Hi) as [h Hh]; [by apply list_elem_of_lookup_2 in Hj'|].
    rewrite (take_index g h e' Hh), <- (kvs_lt h g e' e Hh Hg). split.
    - by apply (strong_lookup l j' j e' e (child_sorted i l Hi)).
    - intros Hlt. destruct (Nat.lt_trichotomy j' j) as [|[->|Hgt]]; [done|exfalso..].
      + assert (e' = e) as -> by congruence. rewrite cmp_refl in Hlt; [lia|]. by apply (kvs_valid g).
      + pose proof (strong_lookup l j j' e e' (child_sorted i l Hi) Hj Hj' Hgt) as Hc'. cbn in Hc'.
        apply (cmp_lt_gt e'.1 e.1) in Hlt; [lia|by apply (kvs_valid h)|by apply (kvs_valid g)]. }
  split; [done|]. apply (cut_unique (S g) l); [done|]. by apply (cut_next_holder i l g e).
Qed.

Lemma cut_next_other l g e n :
  kvs !! g = Some e -> e ∉ l -> cut g l n <-> cut (S g) l n.
Proof.
  intros Hg He. unfold cut. rewrite (take_S_r kvs g e Hg).
  split; intros [Hn Hc]; (split; [done|]); intros j e' Hj; rewrite (Hc j e' Hj), elem_of_app, list_elem_of_singleton;
    (assert (e' <> e) by (intros ->; by apply list_elem_of_lookup_2 in Hj)); tauto.
Qed.

(** ** The state between operations *)

(** The position before [n] in a list of [len] entries: out of range at the first. *)
Definition prevp (len n : nat) : nat := match n with O => len | S j => j end.

(** Child [i] stands at [place i l n], its cut at [g] being [n]. *)
Definition cut_at (g : nat) (place : nat -> list (list byte * list byte) -> nat -> nat) (ws : list W) : Prop :=
  length ws = length ls /\
  forall i l, ls !! i = Some l -> exists w n, ws !! i = Some w /\ cut g l n /\ wrap_pos (cpos i) (place i l n) w.

Definition at_cut (i : nat) (l : list (list byte * list byte)) (n : nat) : nat := n.
Definition before_cut (i : nat) (l : list (list byte * list byte)) (n : nat) : nat := prevp (length l) n.
Definition before_but (cur i : nat) (l : list (list byte * list byte)) (n : nat) : nat :=
  if (i =? cur)%nat then n else prevp (length l) n.

Definition merge_pos (g : nat) (m : MergingIterator I) : Prop :=
  (exists e cur lc, kvs !! g = Some e /\ ls !! cur = Some lc /\ e ∈ lc /\ current_ m = Some cur /\
    cut_at g (match direction_ m with kForward => at_cut | kReverse => before_but cur end) (children_ m)) \/
  (g = length kvs /\ current_ m = None /\ length (children_ m) = length ls /\
    forall i l, ls !! i = Some l -> exists w n, children_ m !! i = Some w /\ wrap_pos (cpos i) n w).

Lemma wrap_child i l : ls !! i = Some l -> cursor valid l (wrap_pos (cpos i)).
Proof. intros Hi. by apply wrapper_cursor, ccur. Qed.

(** A loop that moves every child. *)
Lemma for_children_ok (body : nat -> W -> run W) (P Q : nat -> W -> Prop) k ws :
  (forall i w, ws !! i = Some w -> P (k + i)%nat w -> exists w', body (k + i)%nat w = Done w' /\ Q (k + i)%nat w') ->
  (forall i w, ws !! i = Some w -> P (k + i)%nat w) ->
  exists ws', for_children k body ws = Done ws' /\ length ws' = length ws /\
    forall i w, ws' !! i = Some w -> Q (k + i)%nat w.
Proof.
  revert k; induction ws as [|w ws IH]; intros k Hb HP; cbn [for_children].
  { by exists []. }
  destruct (Hb 0%nat w) as (w' & E & HQ); [done|by apply HP|]. rewrite Nat.add_0_r in *.
  rewrite E, run_bind_done. destruct (IH (S k)) as (ws' & -> & Hl & Hq).
  - intros i x Hi. rewrite Nat.add_succ_comm. by apply (Hb (S i)).
  - intros i x Hi. rewrite Nat.add_succ_comm. by apply (HP (S i)).
  - rewrite run_bind_done. exists (w' :: ws'). split; [done|]. split; [cbn; by rewrite Hl|].
    intros [|i] x Hi; cbn in Hi.
    + injection Hi as <-. by rewrite Nat.add_0_r.
    + rewrite <- Nat.add_succ_comm. by apply Hq.
Qed.

(** The same, from a position in each child to another. *)
Lemma move_children (body : nat -> W -> run W) (ws : list W) (p q : nat -> list (list byte * list byte) -> nat -> Prop) :
  length ws = length ls ->
  (forall i l, ls !! i = Some l -> exists w n, ws !! i = Some w /\ p i l n /\ wrap_pos (cpos i) n w) ->
  (forall i l n w, ls !! i = Some l -> p i l n -> wrap_pos (cpos i) n w ->
     exists w' n', body i w = Done w' /\ q i l n' /\ wrap_pos (cpos i) n' w') ->
  exists ws', for_children 0 body ws = Done ws' /\ length ws' = length ls /\
    forall i l, ls !! i = Some l -> exists w n, ws' !! i = Some w /\ q i l n /\ wrap_pos (cpos i) n w.
Proof.
  intros Hlen Hp Hb.
  destruct (for_children_ok body
    (fun i w => forall l, ls !! i = Some l -> exists n, p i l n /\ wrap_pos (cpos i) n w)
    (fun i w => forall l, ls !! i = Some l -> exists n, q i l n /\ wrap_pos (cpos i) n w) 0 ws)
    as (ws' & E & Hl & Hq).
  - intros i w Hi HP. cbn in *. pose proof (lookup_lt_Some _ _ _ Hi) as Hlt. rewrite Hlen in Hlt.
    destruct (lookup_lt_is_Some_2 ls i Hlt) as [l Hli]. destruct (HP l Hli) as (n & Hpn & Hw).
    destruct (Hb i l n w Hli Hpn Hw) as (w' & n' & Eb & Hqn & Hw'). exists w'. split; [done|].
    intros l' Hl'. assert (l' = l) as -> by congruence. by exists n'.
  - intros i w Hi l Hli. cbn in *. destruct (Hp i l Hli) as (w' & n & Hi' & Hpn & Hw).
    assert (w' = w) as -> by congruence. by exists n.
  - exists ws'. split; [done|]. split; [congruence|]. intros i l Hli.
    pose proof (lookup_lt_Some _ _ _ Hli) as Hlt. rewrite <- Hlen, <- Hl in Hlt.
    destruct (lookup_lt_is_Some_2 ws' i Hlt) as [w Hw]. destruct (Hq i w Hw l Hli) as (n & Hqn & Hpos).
    by exists w, n.
Qed.

(** ** Choosing the current child *)

Lemma child_entry i l n w : ls !! i = Some l -> wrap_pos (cpos i) n w -> Valid w = true ->
  exists e, l !! n = Some e /\ key_ w = e.1.
Proof.
  intros Hi Hw Hv. pose proof (cu_valid (wrap_child i l Hi) n w Hw) as E. rewrite Hv in E.
  symmetry in E. apply Nat.ltb_lt in E. destruct (lookup_lt_is_Some_2 l n E) as [[k v] He].
  exists (k, v). split; [done|]. destruct (cu_entry (wrap_child i l Hi) n w k v Hw He) as [Hk _].
  cbn in Hk. by injection Hk.
Qed.

Lemma child_at i l n w e : ls !! i = Some l -> wrap_pos (cpos i) n w -> l !! n = Some e ->
  Valid w = true /\ key_ w = e.1.
Proof.
  intros Hi Hw He. rewrite (cu_valid (wrap_child i l Hi) n w Hw). destruct e as [k v].
  pose proof (lookup_lt_Some _ _ _ He). rewrite (proj2 (Nat.ltb_lt _ _)) by done. split; [done|].
  destruct (cu_entry (wrap_child i l Hi) n w k v Hw He) as [Hk _]. cbn in Hk. by injection Hk.
Qed.

Lemma child_end i l w : ls !! i = Some l -> wrap_pos (cpos i) (length l) w -> Valid w = false.
Proof. intros Hi Hw. by rewrite (cu_valid (wrap_child i l Hi) _ w Hw), Nat.ltb_irrefl. Qed.

Lemma ws_child place g ws i w : cut_at g place ws -> ws !! i = Some w ->
  exists l n, ls !! i = Some l /\ cut g l n /\ wrap_pos (cpos i) (place i l n) w.
Proof.
  intros [Hlen Hc] Hw. pose proof (lookup_lt_Some _ _ _ Hw) as Hlt. rewrite Hlen in Hlt.
  destruct (lookup_lt_is_Some_2 ls i Hlt) as [l Hl]. destruct (Hc i l Hl) as (w' & n & Hw' & Hn & Hp).
  exists l, n. assert (w' = w) as -> by congruence. done.
Qed.

(** The keys of two different entries, compared in both directions. *)
Lemma kvs_lt_both g h a b : kvs !! g = Some a -> kvs !! h = Some b -> (g < h)%nat ->
  Compare a.1 b.1 < 0 /\ 0 < Compare b.1 a.1.
Proof.
  intros Ha Hb Hlt. pose proof (proj2 (kvs_lt g h a b Ha Hb) Hlt) as Hc. split; [done|].
  apply cmp_lt_gt; [by apply (kvs_valid g) | by apply (kvs_valid h) | done].
Qed.

Lemma find_smallest_at g e ws : kvs !! g = Some e -> cut_at g at_cut ws ->
  exists cur lc, ls !! cur = Some lc /\ e ∈ lc /\ FindSmallest ws = Some cur.
Proof.
  intros Hg Hc. destruct (holder g e Hg) as (cur & lc & Hcur & He). exists cur, lc.
  split; [done|]. split; [done|]. destruct (proj2 Hc cur lc Hcur) as (w & n & Hw & Hn & Hp).
  destruct (child_at cur lc n w e Hcur Hp (cut_holder cur lc g e n Hcur Hg He Hn)) as [Hv Hk].
  unfold FindSmallest. rewrite (smallest_find 0 ws cur w None); try done.
  intros i w' Hi Hv' Hne. destruct (ws_child _ _ _ _ _ Hc Hi) as (l & m & Hl & Hm & Hp').
  destruct (child_entry i l m w' Hl Hp' Hv') as (e' & He' & ->). rewrite Hk.
  destruct (child_index i l e' Hl) as [h Hh]; [by apply list_elem_of_lookup_2 in He'|].
  assert (g < h)%nat as Hlt.
  { destruct (Nat.lt_trichotomy g h) as [|[->|Hgt]]; [done|exfalso..].
    - assert (e' = e) as -> by congruence. apply Hne. apply (holder_unique i cur l lc e Hl Hcur); [|done].
      by apply list_elem_of_lookup_2 in He'.
    - apply (take_index g h e' Hh), (proj2 Hm m e' He') in Hgt. lia. }
  destruct (kvs_lt_both g h e e' Hg Hh Hlt). split; [done|lia].
Qed.

Lemma find_smallest_end ws : cut_at (length kvs) at_cut ws -> FindSmallest ws = None.
Proof.
  intros Hc. unfold FindSmallest. rewrite smallest_none; [done|]. intros i w Hi.
  destruct (ws_child _ _ _ _ _ Hc Hi) as (l & n & Hl & Hn & Hp).
  rewrite (cut_unique _ l n (length l) Hn (cut_all i l (length kvs) Hl ltac:(done))) in Hp.
  by apply (child_end i l).
Qed.

Lemma find_largest_at g e ws : kvs !! g = Some e -> cut_at (S g) before_cut ws ->
  exists cur lc, ls !! cur = Some lc /\ e ∈ lc /\ FindLargest ws = Some cur.
Proof.
  intros Hg Hc. destruct (holder g e Hg) as (cur & lc & Hcur & He). exists cur, lc.
  split; [done|]. split; [done|]. destruct (proj2 Hc cur lc Hcur) as (w & n & Hw & Hn & Hp).
  destruct (cut_before_holder cur lc g e n Hcur Hg He Hn) as (m & Hm & ->).
  destruct (child_at cur lc m w e Hcur Hp (cut_holder cur lc g e m Hcur Hg He Hm)) as [Hv Hk].
  unfold FindLargest. rewrite (largest_find 0 ws cur w); try done.
  intros i w' Hi Hv' Hne. destruct (ws_child _ _ _ _ _ Hc Hi) as (l & m' & Hl & Hm' & Hp').
  destruct (child_entry i l _ w' Hl Hp' Hv') as (e' & He' & ->). rewrite Hk.
  destruct (child_index i l e' Hl) as [h Hh]; [by apply list_elem_of_lookup_2 in He'|].
  assert (h < g)%nat as Hlt.
  { assert (h < S g)%nat as HS.
    { unfold before_cut in He'. destruct m' as [|m']; cbn [prevp] in He'; [apply lookup_lt_Some in He'; lia|].
      apply (take_index (S g) h e' Hh), (proj2 Hm' m' e' He'). lia. }
    destruct (Nat.eq_dec h g) as [->|]; [exfalso|lia].
    assert (e' = e) as -> by congruence. apply Hne. apply (holder_unique i cur l lc e Hl Hcur); [|done].
    by apply list_elem_of_lookup_2 in He'. }
  destruct (kvs_lt_both h g e' e Hh Hg Hlt). split; [done|lia].
Qed.

Lemma find_largest_end ws : cut_at 0 before_cut ws -> FindLargest ws = None.
Proof.
  intros Hc. unfold FindLargest. rewrite largest_none; [done|]. intros i w Hi.
  destruct (ws_child _ _ _ _ _ Hc Hi) as (l & n & Hl & Hn & Hp).
  rewrite (cut_unique _ l n 0 Hn (cut_0 l)) in Hp. by apply (child_end i l).
Qed.

(** ** The operations *)

Lemma smallest_pos g ws : (g <= length kvs)%nat -> cut_at g at_cut ws ->
  merge_pos g (mk_merge ws (FindSmallest ws) kForward).
Proof.
  intros Hg Hc. destruct (kvs !! g) as [e|] eqn:He.
  - destruct (find_smallest_at g e ws He Hc) as (cur & lc & Hcur & Hin & E). left. exists e, cur, lc. done.
  - assert (g = length kvs) as -> by (apply lookup_ge_None in He; lia). right.
    rewrite (find_smallest_end ws Hc). split; [done|]. split; [done|]. split; [apply Hc|].
    intros i l Hl. destruct (proj2 Hc i l Hl) as (w & n & Hw & _ & Hp). by exists w, n.
Qed.

(** All children stand before the cut at [g]: the entry before is the current one. *)
Lemma largest_pos g ws : (g <= length kvs)%nat -> cut_at g before_cut ws ->
  merge_pos (prevp (length kvs) g) (mk_merge ws (FindLargest ws) kReverse).
Proof.
  intros Hg Hc. destruct g as [|g]; cbn [prevp].
  - right. rewrite (find_largest_end ws Hc). split; [done|]. split; [done|]. split; [apply Hc|].
    intros i l Hl. destruct (proj2 Hc i l Hl) as (w & n & Hw & _ & Hp). by exists w, (before_cut i l n).
  - destruct (lookup_lt_is_Some_2 kvs g ltac:(lia)) as [e He].
    destruct (find_largest_at g e ws He Hc) as (cur & lc & Hcur & Hin & E). left. exists e, cur, lc.
    split; [done|]. split; [done|]. split; [done|]. split; [done|]. cbn [direction_ children_].
    split; [apply Hc|]. intros i l Hl. destruct (proj2 Hc i l Hl) as (w & n & Hw & Hn & Hp).
    unfold before_but, before_cut in *. destruct (Nat.eqb_spec i cur) as [->|Hne].
    + assert (l = lc) as -> by congruence.
      destruct (cut_before_holder cur lc g e n Hcur He Hin Hn) as (m & Hm & ->). by exists w, m.
    + exists w, n. split; [done|]. split; [|done]. apply (cut_next_other l g e); try done.
      intros Hin'. by apply Hne, (holder_unique i cur l lc e).
Qed.

Lemma merge_some g m : merge_pos g m -> length (children_ m) = length ls /\
  forall i l, ls !! i = Some l -> exists w n, children_ m !! i = Some w /\ wrap_pos (cpos i) n w.
Proof.
  intros [(e & cur & lc & _ & _ & _ & _ & Hlen & Hc)|(_ & _ & Hlen & Hc)]; [|done].
  split; [done|]. intros i l Hl. destruct (Hc i l Hl) as (w & n & Hw & _ & Hp). eauto.
Qed.

(** An operation that moves all children to the cut at [g]. *)
Lemma move_all (body : nat -> W -> run W) g place m g0 :
  merge_pos g0 m ->
  (forall i l n w, ls !! i = Some l -> wrap_pos (cpos i) n w ->
     exists w' n', body i w = Done w' /\ cut g l n' /\ wrap_pos (cpos i) (place i l n') w') ->
  exists ws, for_children 0 body (children_ m) = Done ws /\ cut_at g place ws.
Proof.
  intros Hm Hb. destruct (merge_some g0 m Hm) as [Hlen Hc].
  destruct (move_children body (children_ m) (fun _ _ _ => True)
    (fun i l n => exists n', n = place i l n' /\ cut g l n') Hlen) as (ws & E & Hl & Hw).
  - intros i l Hl. destruct (Hc i l Hl) as (w & n & Hw & Hp). by exists w, n.
  - intros i l n w Hl _ Hp. destruct (Hb i l n w Hl Hp) as (w' & n' & Eb & Hn' & Hp').
    exists w', (place i l n'). eauto.
  - exists ws. split; [done|]. split; [done|]. intros i l Hli.
    destruct (Hw i l Hli) as (w & n & Hwi & (n' & -> & Hn') & Hp). by exists w, n'.
Qed.

Lemma m_SeekToFirst_ok g m : merge_pos g m -> exists m', m_SeekToFirst m = Done m' /\ merge_pos 0 m'.
Proof.
  intros Hm. unfold m_SeekToFirst.
  destruct (move_all (fun _ w => SeekToFirst w) 0 at_cut m g Hm) as (ws & -> & Hc).
  - intros i l n w Hl Hp. destruct (cu_first (wrap_child i l Hl) n w Hp) as (w' & E & Hp').
    exists w', 0%nat. split; [done|]. split; [apply cut_0|done].
  - rewrite run_bind_done. eexists. split; [reflexivity|]. apply smallest_pos; [lia|done].
Qed.

Lemma m_SeekToLast_ok g m : merge_pos g m ->
  exists m', m_SeekToLast m = Done m' /\ merge_pos (pred (length kvs)) m'.
Proof.
  intros Hm. unfold m_SeekToLast.
  destruct (move_all (fun _ w => SeekToLast w) (length kvs) before_cut m g Hm) as (ws & -> & Hc).
  - intros i l n w Hl Hp. destruct (cu_last (wrap_child i l Hl) n w Hp) as (w' & E & Hp').
    exists w', (length l). split; [done|]. split; [by apply (cut_all i)|].
    unfold before_cut. by destruct (length l).
  - rewrite run_bind_done. eexists. split; [reflexivity|].
    pose proof (largest_pos (length kvs) ws ltac:(lia) Hc) as Hl. by destruct (length kvs).
Qed.

Lemma m_Seek_ok g m target : merge_pos g m -> valid target ->
  exists m' g', m_Seek m target = Done m' /\ merge_pos g' m' /\ lower_bound target kvs g'.
Proof.
  intros Hm Hv. unfold m_Seek.
  pose proof (count_below_bound target kvs Hv keys_valid sorted) as Hb. set (g' := count_below target kvs) in *.
  destruct (move_all (fun _ w => Seek w target) g' at_cut m g Hm) as (ws & -> & Hc).
  - intros i l n w Hl Hp. destruct (cu_seek (wrap_child i l Hl) n w target Hp Hv) as (w' & n' & E & Hp' & Hn').
    exists w', n'. split; [done|]. split; [by apply (cut_search i l target)|done].
  - rewrite run_bind_done. eexists _, g'. split; [reflexivity|]. split; [|done].
    apply smallest_pos; [apply Hb|done].
Qed.

(** The current child has the current entry. *)
Lemma current_ok g m e : merge_pos g m -> kvs !! g = Some e ->
  exists cur lc w n, current_ m = Some cur /\ ls !! cur = Some lc /\ e ∈ lc /\
    children_ m !! cur = Some w /\ cut g lc n /\ lc !! n = Some e /\ wrap_pos (cpos cur) n w /\ key_ w = e.1.
Proof.
  intros [(e' & cur & lc & He' & Hcur & Hin & Hc & Hca)|(-> & _)] He; [|by rewrite lookup_ge_None_2 in He].
  assert (e' = e) as -> by congruence. destruct (proj2 Hca cur lc Hcur) as (w & n & Hw & Hn & Hp).
  exists cur, lc, w, n. assert (wrap_pos (cpos cur) n w) as Hp'.
  { destruct (direction_ m); [exact Hp|]. unfold before_but in Hp. by rewrite Nat.eqb_refl in Hp. }
  pose proof (cut_holder cur lc g e n Hcur He Hin Hn) as Hen.
  destruct (child_at cur lc n w e Hcur Hp' Hen) as [_ Hk]. done.
Qed.

Lemma key_lower_bound g e : kvs !! g = Some e -> lower_bound e.1 kvs g.
Proof.
  intros Hg. split; [apply lookup_lt_Some in Hg; lia|]. intros h e' Hh. by apply kvs_lt.
Qed.

(** Moving the children other than the current one. *)
Lemma move_others (body : nat -> W -> run W) g cur place place' ws :
  cut_at g place ws ->
  (forall l n, place cur l n = n /\ place' cur l n = n) ->
  (forall i l n w, ls !! i = Some l -> i <> cur -> wrap_pos (cpos i) n w ->
     exists w' n', body i w = Done w' /\ cut g l n' /\ wrap_pos (cpos i) (place' i l n') w') ->
  exists ws', for_children 0 (fun i w => if (i =? cur)%nat then Done w else body i w) ws = Done ws' /\
    cut_at g place' ws'.
Proof.
  intros [Hlen Hc] Hcur Hb.
  destruct (move_children (fun i w => if (i =? cur)%nat then Done w else body i w) ws
    (fun i l n => exists n', n = place i l n' /\ cut g l n')
    (fun i l n => exists n', n = place' i l n' /\ cut g l n') Hlen) as (ws' & E & Hl & Hw).
  - intros i l Hl. destruct (Hc i l Hl) as (w & n & Hw & Hn & Hp). exists w, (place i l n). eauto.
  - intros i l n w Hl (n' & -> & Hn') Hp. destruct (Nat.eqb_spec i cur) as [->|Hne].
    + destruct (Hcur l n') as [E1 E2]. rewrite E1 in Hp. exists w, n'. split; [done|].
      split; [by exists n'|done].
    + destruct (Hb i l _ w Hl Hne Hp) as (w' & n2 & Eb & Hn2 & Hp'). exists w', (place' i l n2). eauto.
  - exists ws'. split; [done|]. split; [done|]. intros i l Hli.
    destruct (Hw i l Hli) as (w & n & Hwi & (n' & -> & Hn') & Hp). by exists w, n'.
Qed.

(** Moving the current child. *)
Lemma move_current_ok op cur lc g g' place place' ws :
  cut_at g place ws -> ls !! cur = Some lc ->
  (forall n w, wrap_pos (cpos cur) (place cur lc n) w -> cut g lc n ->
     exists w' n', op w = Done w' /\ cut g' lc n' /\ wrap_pos (cpos cur) (place' cur lc n') w') ->
  (forall i l n, ls !! i = Some l -> i <> cur -> cut g l n -> cut g' l n /\ place i l n = place' i l n) ->
  exists ws', move_current op cur ws = Done ws' /\ cut_at g' place' ws'.
Proof.
  intros [Hlen Hc] Hcur Hop Ho. destruct (Hc cur lc Hcur) as (w & n & Hw & Hn & Hp).
  unfold move_current. rewrite Hw. destruct (Hop n w Hp Hn) as (w' & n' & -> & Hn' & Hp').
  rewrite run_bind_done. eexists. split; [reflexivity|]. split; [by rewrite length_insert|].
  intros i l Hl. destruct (decide (i = cur)) as [->|Hne].
  - exists w', n'. assert (l = lc) as -> by congruence.
    rewrite list_lookup_insert_eq by (by apply lookup_lt_Some in Hw). done.
  - destruct (Hc i l Hl) as (x & m & Hx & Hm & Hpx). exists x, m.
    rewrite list_lookup_insert_ne by done. destruct (Ho i l m Hl Hne Hm) as [Hm' <-]. done.
Qed.

Lemma not_other i cur l lc e : ls !! i = Some l -> ls !! cur = Some lc -> e ∈ lc -> i <> cur -> e ∉ l.
Proof. intros Hl Hcur He Hne Hin. by apply Hne, (holder_unique i cur l lc e). Qed.

(** Repositioning for a step forward: the test for an equal key fails. *)
Lemma reposition_next g e cur lc i l n w :
  kvs !! g = Some e -> ls !! cur = Some lc -> e ∈ lc -> ls !! i = Some l -> i <> cur ->
  wrap_pos (cpos i) n w ->
  exists w' n', (child ← Seek w e.1;
                 if Valid child && (Compare e.1 (key_ child) =? 0) then Next child else Done child) = Done w' /\
    cut g l n' /\ wrap_pos (cpos i) (at_cut i l n') w'.
Proof.
  intros Hg Hcur He Hl Hne Hp.
  destruct (cu_seek (wrap_child i l Hl) n w e.1 Hp (kvs_valid g e Hg)) as (w' & n' & -> & Hp' & Hn').
  rewrite run_bind_done. exists w', n'.
  assert (Valid w' && (Compare e.1 (key_ w') =? 0) = false) as ->.
  { destruct (Valid w') eqn:Hv; [|done]. apply Z.eqb_neq. intros Hz.
    destruct (child_entry i l n' w' Hl Hp' Hv) as (e' & He' & Hk). rewrite Hk in Hz.
    apply list_elem_of_lookup_2 in He'. destruct (child_index i l e' Hl He') as [h Hh].
    destruct (Nat.lt_trichotomy g h) as [Hlt|[->|Hlt]].
    - destruct (kvs_lt_both g h e e' Hg Hh Hlt). lia.
    - assert (e' = e) as -> by congruence. by apply (not_other i cur l lc e Hl Hcur He Hne).
    - destruct (kvs_lt_both h g e' e Hh Hg Hlt). lia. }
  split; [done|]. split; [|done]. apply (cut_search i l e.1 g n' Hl (key_lower_bound g e Hg) Hn').
Qed.

Lemma reposition_prev g e i l n w :
  kvs !! g = Some e -> ls !! i = Some l -> wrap_pos (cpos i) n w ->
  exists w' n', (child ← Seek w e.1; if Valid child then Prev child else SeekToLast child) = Done w' /\
    cut g l n' /\ wrap_pos (cpos i) (prevp (length l) n') w'.
Proof.
  intros Hg Hl Hp. pose proof (wrap_child i l Hl) as Hcu.
  destruct (cu_seek Hcu n w e.1 Hp (kvs_valid g e Hg)) as (w1 & n1 & -> & Hp1 & Hn1).
  rewrite run_bind_done. pose proof (cut_search i l e.1 g n1 Hl (key_lower_bound g e Hg) Hn1) as Hcut.
  rewrite (cu_valid Hcu n1 w1 Hp1). destruct (Nat.ltb_spec n1 (length l)) as [Hlt|Hge].
  - destruct (cu_prev Hcu n1 w1 Hp1 Hlt) as (w2 & -> & Hp2). by exists w2, n1.
  - destruct (cu_last Hcu n1 w1 Hp1) as (w2 & -> & Hp2). exists w2, n1. split; [done|]. split; [done|].
    assert (n1 = length l) as -> by (destruct Hcut; lia). by destruct (length l).
Qed.

Lemma current_child_ok g m e : merge_pos g m -> kvs !! g = Some e ->
  exists cur lc w n, current_child m = Done (cur, w) /\ key w = Done e.1 /\ value w = Done e.2 /\
    ls !! cur = Some lc /\ e ∈ lc /\ cut g lc n /\ lc !! n = Some e /\
    cut_at g (match direction_ m with kForward => at_cut | kReverse => before_but cur end) (children_ m).
Proof.
  intros Hm He. destruct (current_ok g m e Hm He) as (cur & lc & w & n & Ec & Hcur & Hin & Hw & Hn & Hen & Hp & Hk).
  exists cur, lc, w, n. unfold current_child. rewrite Ec, Hw. split; [done|]. split; [cbn; by rewrite Hk|].
  destruct e as [k v]. split; [apply (cu_entry (wrap_child cur lc Hcur) n w k v Hp Hen)|].
  do 4 (split; [done|]). destruct Hm as [(e' & cur' & lc' & _ & _ & _ & Ec' & Hc)|(-> & _)].
  - assert (cur' = cur) as -> by congruence. done.
  - by rewrite lookup_ge_None_2 in He.
Qed.

Lemma m_Next_ok g m : merge_pos g m -> (g < length kvs)%nat ->
  exists m', m_Next m = Done m' /\ merge_pos (S g) m'.
Proof.
  intros Hm Hg. destruct (lookup_lt_is_Some_2 kvs g Hg) as [e He].
  destruct (current_child_ok g m e Hm He) as (cur & lc & w & n & Ec & Ek & _ & Hcur & Hin & _ & _ & Hc).
  unfold m_Next. rewrite Ec, run_bind_done. cbn beta iota. rewrite Ek, run_bind_done.
  assert (exists ws, (if decide (direction_ m = kForward) then Done (children_ m)
    else for_children 0 (fun i child => if (i =? cur)%nat then Done child else
           child ← Seek child e.1;
           if Valid child && (Compare e.1 (key_ child) =? 0) then Next child else Done child)
         (children_ m)) = Done ws /\ cut_at g at_cut ws) as (ws & -> & Hws).
  { destruct (direction_ m); cbn [decide]; [by exists (children_ m)|].
    apply (move_others _ g cur (before_but cur) at_cut); [done| |].
    - intros l n0. unfold before_but. by rewrite Nat.eqb_refl.
    - intros i l n0 w0 Hl Hne Hp. by apply (reposition_next g e cur lc i l n0). }
  rewrite run_bind_done.
  destruct (move_current_ok Next cur lc g (S g) at_cut at_cut ws Hws Hcur) as (ws' & -> & Hws').
  - intros n0 w0 Hp Hn0. pose proof (cut_holder cur lc g e n0 Hcur He Hin Hn0) as Hen.
    destruct (cu_next (wrap_child cur lc Hcur) n0 w0 Hp) as (w' & E & Hp'); [by apply lookup_lt_Some in Hen|].
    exists w', (S n0). split; [done|]. split; [|done]. by apply (cut_next_holder cur lc g e).
  - intros i l n0 Hl Hne Hn0. split; [|done]. apply (cut_next_other l g e); [done| |done].
    by apply (not_other i cur l lc e).
  - rewrite run_bind_done. eexists. split; [reflexivity|]. by apply smallest_pos.
Qed.

Lemma m_Prev_ok g m : merge_pos g m -> (g < length kvs)%nat ->
  exists m', m_Prev m = Done m' /\ merge_pos (prevp (length kvs) g) m'.
Proof.
  intros Hm Hg. destruct (lookup_lt_is_Some_2 kvs g Hg) as [e He].
  destruct (current_child_ok g m e Hm He) as (cur & lc & w & n & Ec & Ek & _ & Hcur & Hin & _ & _ & Hc).
  unfold m_Prev. rewrite Ec, run_bind_done. cbn beta iota. rewrite Ek, run_bind_done.
  assert (exists ws, (if decide (direction_ m = kReverse) then Done (children_ m)
    else for_children 0 (fun i child => if (i =? cur)%nat then Done child else
           child ← Seek child e.1; if Valid child then Prev child else SeekToLast child)
         (children_ m)) = Done ws /\ cut_at g (before_but cur) ws) as (ws & -> & Hws).
  { destruct (direction_ m); cbn [decide]; [|by exists (children_ m)].
    apply (move_others _ g cur at_cut (before_but cur)); [done| |].
    - intros l n0. unfold before_but. by rewrite Nat.eqb_refl.
    - intros i l n0 w0 Hl Hne Hp. destruct (reposition_prev g e i l n0 w0 He Hl Hp) as (w' & n' & E & Hn' & Hp').
      exists w', n'. split; [done|]. split; [done|]. unfold before_but.
      by rewrite (proj2 (Nat.eqb_neq i cur)). }
  rewrite run_bind_done.
  destruct (move_current_ok Prev cur lc g g (before_but cur) before_cut ws Hws Hcur) as (ws' & -> & Hws').
  - intros n0 w0 Hp Hn0. unfold before_but in Hp. rewrite Nat.eqb_refl in Hp.
    pose proof (cut_holder cur lc g e n0 Hcur He Hin Hn0) as Hen.
    destruct (cu_prev (wrap_child cur lc Hcur) n0 w0 Hp) as (w' & E & Hp'); [by apply lookup_lt_Some in Hen|].
    by exists w', n0.
  - intros i l n0 Hl Hne Hn0. split; [done|]. unfold before_but, before_cut.
    by rewrite (proj2 (Nat.eqb_neq i cur)).
  - rewrite run_bind_done. eexists. split; [reflexivity|]. apply largest_pos; [lia|done].
Qed.

Lemma status_loop_ok ws s : s = OK -> (forall i w, ws !! i = Some w -> status w = OK) -> status_loop ws s = OK.
Proof.
  revert s; induction ws as [|w ws IH]; intros s -> Hw; [done|]. cbn [status_loop].
  rewrite (Hw 0%nat w) by done. cbn [ok OK negb]. apply IH; [done|]. intros i. apply (Hw (S i)).
Qed.

Lemma merging_cursor : @cursor c valid _ merging_iterator kvs merge_pos.
Proof.
  split; cbn [Valid SeekToFirst SeekToLast Seek Next Prev key value status merging_iterator].
  - intros g m [(e & cur & lc & He & _)|[-> _]]; [|done]. apply lookup_lt_Some in He. lia.
  - intros g m [(e & cur & lc & He & _ & _ & Ec & _)|(-> & Ec & _)]; unfold m_Valid; rewrite Ec.
    + symmetry. apply Nat.ltb_lt. by apply lookup_lt_Some in He.
    + by rewrite Nat.ltb_irrefl.
  - intros g m Hm. apply status_loop_ok; [done|]. intros i w Hi.
    destruct (merge_some g m Hm) as [Hlen Hc]. pose proof (lookup_lt_Some _ _ _ Hi) as Hlt. rewrite Hlen in Hlt.
    destruct (lookup_lt_is_Some_2 ls i Hlt) as [l Hl]. destruct (Hc i l Hl) as (w' & n & Hw' & Hp).
    assert (w' = w) as -> by congruence. by apply (cu_status (wrap_child i l Hl) n).
  - intros g m k v Hm He.
    destruct (current_child_ok g m (k, v) Hm He) as (cur & lc & w & n & Ec & Ek & Ev & _).
    unfold m_key, m_value. by rewrite Ec, !run_bind_done.
  - apply m_SeekToFirst_ok.
  - apply m_SeekToLast_ok.
  - apply m_Next_ok.
  - apply m_Prev_ok.
  - intros g m target Hm Hv. by apply (m_Seek_ok g m target).
Qed.

(** ** NewMergingIterator *)

Context (its : list I).
Context (its_length : length its = length ls).
Context (its_end : forall i l it, ls !! i = Some l -> its !! i = Some it -> cpos i (length l) it).

Lemma set_all_ok (k : nat) (xs : list I) (ms : list (list (list byte * list byte))) :
  length xs = length ms ->
  (forall i l it, ms !! i = Some l -> xs !! i = Some it -> ls !! (k + i)%nat = Some l /\ cpos (k + i) (length l) it) ->
  exists ws, (fix set_all (its : list I) : run (list W) :=
          match its with
          | [] => Done []
          | it :: its =>
              w ← wrap_Set new_IteratorWrapper (Some it); ws ← set_all its; Done (w :: ws)
          end) xs = Done ws /\ length ws = length xs /\
    forall i l, ms !! i = Some l -> exists w, ws !! i = Some w /\ wrap_pos (cpos (k + i)) (length l) w.
Proof.
  revert k ms; induction xs as [|x xs IH]; intros k [|l ms] Hlen Hc; try done; [by exists []|].
  destruct (Hc 0%nat l x) as [Hl Hp]; [done|done|]. rewrite Nat.add_0_r in *.
  destruct (Set_pos l (cpos k) (ccur k l Hl) new_IteratorWrapper (length l) x Hp) as (w & -> & Hw).
  rewrite run_bind_done. destruct (IH (S k) ms) as (ws & -> & Hlws & Hws).
  - by injection Hlen.
  - intros i l' it Hi Hit. rewrite Nat.add_succ_comm. by apply (Hc (S i)).
  - rewrite run_bind_done. exists (w :: ws). split; [done|]. split; [cbn; by rewrite Hlws|].
    intros [|i] l' Hi; cbn in Hi.
    + injection Hi as <-. rewrite Nat.add_0_r. by exists w.
    + rewrite <- Nat.add_succ_comm. by apply Hws.
Qed.

Lemma new_MergingIterator_ok : exists m, new_MergingIterator its = Done m /\ merge_pos (length kvs) m.
Proof.
  unfold new_MergingIterator. destruct (set_all_ok 0 its ls its_length) as (ws & -> & Hl & Hw).
  - intros i l it Hi Hit. split; [done|]. by apply its_end.
  - rewrite run_bind_done. eexists. split; [reflexivity|]. right. split; [done|]. split; [done|].
    split; [cbn; congruence|]. intros i l Hi. destruct (Hw i l Hi) as (w & Hwi & Hp). by exists w, (length l).
Qed.

Lemma merge_one l : ls = [l] -> kvs = l.
Proof.
  intros E. apply (StronglySorted_unique_strong kv_lt); [|exact sorted| |].
  - intros x1 x2 H1 H2 Hlt Hgt. exfalso.
    assert (forall x, x ∈ kvs -> valid x.1) as Hv by (by apply list.Forall_forall).
    assert (x2 ∈ kvs) as H2' by (rewrite merge, E; cbn; by rewrite app_nil_r).
    apply cmp_lt_gt in Hlt; [lia|by apply Hv..].
  - apply (child_sorted 0). by rewrite E.
  - rewrite merge, E. cbn. by rewrite app_nil_r.
Qed.

Lemma NewMergingIterator_ok :
  exists r pos, NewMergingIterator its = Done r /\ pos (length kvs) r /\
    @cursor c valid _ merged_iterator_iterator kvs pos.
Proof.
  assert (its = [] /\ kvs = [] \/ (exists it l, its = [it] /\ ls = [l]) \/ (2 <= length its)%nat) as Hcase.
  { pose proof its_length as Hl. pose proof merge as Hm. clear - Hl Hm.
    destruct its as [|it [|it2 its']], ls as [|l [|l2 ls']]; try done.
    - left. split; [done|]. by apply Permutation_nil_r.
    - right. left. by exists it, l.
    - right. right. cbn. lia. }
  destruct Hcase as [[E Ekv]|[(it & l & E & Els)|Hlen]].
  - rewrite E, Ekv. eexists _, (emb_pos MergedNone (fun i e => i = 0%nat /\ e = NewEmptyIterator)).
    split; [reflexivity|]. split; [by eexists|]. apply embed_cursor; [by split|]. apply empty_cursor.
  - pose proof (merge_one l Els) as Ekv. rewrite Ekv, E.
    eexists _, (emb_pos MergedOne (cpos 0)). split; [reflexivity|]. split.
    + exists it. split; [done|]. apply (its_end 0); [by rewrite Els | by rewrite E].
    + apply embed_cursor; [by split|]. apply (ccur 0). by rewrite Els.
  - destruct new_MergingIterator_ok as (m & Em & Hm). exists (MergedMany m), (emb_pos MergedMany merge_pos).
    split; [|split; [by exists m|]].
    + unfold NewMergingIterator. rewrite Em. destruct its as [|? [|? ?]]; cbn in Hlen; try lia. done.
    + apply (embed_cursor (HI := merging_iterator)); [by split|]. apply merging_cursor.
Qed.

(** The merging iterator is the ordered merge of its children: when each child
    is a cursor over an ordered list, out of range, and no key is in two of the
    lists, what [NewMergingIterator] returns starts out of range and is a cursor
    over the ordered list [kvs] of all the entries: first, last, seek, and next and
    previous in any order, each change of direction included. *)
Theorem merging_correct :
  exists r pos, NewMergingIterator its = Done r /\ pos (length kvs) r /\
    @cursor c valid _ merged_iterator_iterator kvs pos.
Proof. apply NewMergingIterator_ok. Qed.
End Correct.

Definition demo_lists : list (list (list byte * list byte)) :=
  [[([x61], [x01]); ([x64], [x02])]; []; [([x62], [x03])]].

Lemma merging_correct_witness :
  let c := BytewiseComparator in let li := @list_iterator c in
  exists r pos,
    @NewMergingIterator _ li
      [mk_list_iter [([x61], [x01]); ([x64], [x02])] 2; mk_list_iter [] 0; mk_list_iter [([x62], [x03])] 1] = Done r /\
    pos 3%nat r /\
    @cursor c (fun _ => True) _ (@merged_iterator_iterator c _ li)
      [([x61], [x01]); ([x62], [x03]); ([x64], [x02])] pos.
Proof.
  cbv zeta.
  apply (@merging_correct BytewiseComparator (fun _ => True) bytewise_laws ListIterator
    (@list_iterator BytewiseComparator) demo_lists [([x61], [x01]); ([x62], [x03]); ([x64], [x02])]
    (fun i n it => (n <= length (default [] (demo_lists !! i)))%nat /\
                   it = mk_list_iter (default [] (demo_lists !! i)) n)).
  - intros [|[|[|i]]] l [= <-]; apply (list_cursor (laws := bytewise_laws)); repeat constructor.
  - cbn. apply Permutation_skip, Permutation_swap.
  - repeat constructor.
  - intros [|[|[|i]]] l [= <-]; repeat constructor.
  - repeat constructor.
  - reflexivity.
  - intros [|[|[|i]]] l it [= <-] [= <-]; split; done || (cbn; lia).
Defined.

(** The merging iterator does not always yield a key once for each child that
    has it: with the same key in two children it is yielded twice going forward,
    but after a change of direction the entry before is skipped. *)
Theorem merging_drops_duplicates :
  let li := @list_iterator BytewiseComparator in
  let child v := mk_list_iter [([x61], [v])] 1 in
  exists m1 m2 m3,
    (m ← @new_MergingIterator _ li [child x01; child x02];
     @m_SeekToFirst BytewiseComparator _ li m) = Done m1 /\
    @m_value _ li m1 = Done [x01] /\
    @m_Next BytewiseComparator _ li m1 = Done m2 /\ @m_value _ li m2 = Done [x02] /\
    @m_Prev BytewiseComparator _ li m2 = Done m3 /\ m_Valid m3 = false.
Proof. cbv zeta. do 3 eexists. repeat split; vm_compute; reflexivity. Qed.
