(* ===== verification/LdbBlock.v ===== *)
(** leveldb: the blocks of a table (table/block_builder.cc, table/block_builder.h,
    table/block.cc, table/block.h).

    [block_iterator_correct]: over a block made by the builder the iterator is the
    ordered list of the entries added: first, last, next, previous and seek.
    [block_iterator_safe]: over any bytes, damaged or hostile, every operation
    returns without reading outside the block, provided no entry makes the 32-bit
    sum of its two lengths wrap around; [entry_overflow] is a block where it
    does. *)

From Stdlib Require Import Sorting.Sorted.
From S2P Require Import Prelude Leb128 LdbCoding LdbStatus LdbFilename LdbFormat LdbIterator.
Open Scope Z_scope.

(** * BlockBuilder *)

Section BlockBuilder.
Context (block_restart_interval : Z).

Record BlockBuilder := mk_bb {
  bb_buffer : list byte;
  bb_restarts : list Z;
  bb_counter : Z;
  bb_finished : bool;
  bb_last_key : list byte;
}.

Definition new_BlockBuilder : BlockBuilder := mk_bb [] [0] 0 false [].
Definition bb_Reset (b : BlockBuilder) : BlockBuilder := mk_bb [] [0] 0 false [].

Definition bb_CurrentSizeEstimate (b : BlockBuilder) : Z :=
  size (bb_buffer b) + Z.of_nat (length (bb_restarts b)) * 4 + 4.

Definition bb_empty (b : BlockBuilder) : bool := empty (bb_buffer b).

Definition bb_Finish (b : BlockBuilder) : list byte * BlockBuilder :=
  let buffer := fold_left PutFixed32 (bb_restarts b) (bb_buffer b) in
  let buffer := PutFixed32 buffer (u32 (Z.of_nat (length (bb_restarts b)))) in
  (buffer, mk_bb buffer (bb_restarts b) (bb_counter b) true (bb_last_key b)).

(** The bytes that two keys start with in common. *)
Fixpoint shared_loop (last_key_piece key : list byte) : nat :=
  match last_key_piece, key with
  | a :: last, b :: key => if b2z a =? b2z b then S (shared_loop last key) else O
  | _, _ => O
  end.

Definition bb_Add (b : BlockBuilder) (key value : list byte) : BlockBuilder :=
  let '(shared, restarts, counter) :=
    if bb_counter b <? block_restart_interval
    then (shared_loop (bb_last_key b) key, bb_restarts b, bb_counter b)
    else (O, bb_restarts b ++ [u32 (size (bb_buffer b))], 0) in
  let non_shared := size key - Z.of_nat shared in
  let buffer := PutVarint32 (bb_buffer b) (u32 (Z.of_nat shared)) in
  let buffer := PutVarint32 buffer (u32 non_shared) in
  let buffer := PutVarint32 buffer (u32 (size value)) in
  let buffer := buffer ++ drop shared key ++ value in
  let last_key := take shared (bb_last_key b) ++ drop shared key in
  mk_bb buffer restarts (s32 (counter + 1)) (bb_finished b) last_key.
End BlockBuilder.

(** * Block *)

(** [restart_offset_] is not set when the contents are no block ([size_ = 0]). *)
Record Block := mk_block { blk_data : list byte; blk_size : Z; blk_restart_offset : Z }.

Definition NumRestarts (data : list byte) (size_ : Z) : Z :=
  DecodeFixed32 (drop (Z.to_nat (size_ - 4)) data).

Definition new_Block (contents : list byte) : Block :=
  let size_ := size contents in
  if size_ <? 4 then mk_block contents 0 0
  else
    let max_restarts_allowed := (size_ - 4) / 4 in
    if NumRestarts contents size_ >? max_restarts_allowed then mk_block contents 0 0
    else mk_block contents size_ (u32 (size_ - u32 (1 + NumRestarts contents size_) * 4)).

(** The lengths of an entry and what follows them, in the bytes from [p] to
    [limit]. *)
Definition DecodeEntry (input : list byte) : option (Z * Z * Z * list byte) :=
  if size input <? 3 then None
  else
    let shared := b2z (nth 0 input x00) in
    let non_shared := b2z (nth 1 input x00) in
    let value_length := b2z (nth 2 input x00) in
    '(shared, non_shared, value_length, p) ←
      (if Z.lor (Z.lor shared non_shared) value_length <? 128
       then Some (shared, non_shared, value_length, drop 3 input)
       else
         '(shared, p) ← GetVarint32Ptr input;
         '(non_shared, p) ← GetVarint32Ptr p;
         '(value_length, p) ← GetVarint32Ptr p;
         Some (shared, non_shared, value_length, p));
    if u32 (size p) <? u32 (non_shared + value_length) then None
    else Some (shared, non_shared, value_length, p).

(** ** Block::Iter *)

(** [value_] is the offset of the value and its length; a slice that points
    nowhere in the block is [None]. *)
Record Iter := mk_iter {
  it_data : list byte;
  it_restarts : Z;
  it_num_restarts : Z;
  it_current : Z;
  it_restart_index : Z;
  it_key : list byte;
  it_value : option (Z * Z);
  it_status : Status;
}.

Definition set_pos (it : Iter) (current restart_index : Z) : Iter :=
  mk_iter (it_data it) (it_restarts it) (it_num_restarts it) current restart_index (it_key it)
    (it_value it) (it_status it).
Definition set_entry (it : Iter) (key : list byte) (value : option (Z * Z)) : Iter :=
  mk_iter (it_data it) (it_restarts it) (it_num_restarts it) (it_current it) (it_restart_index it)
    key value (it_status it).

Definition new_Iter (data : list byte) (restarts num_restarts : Z) : Iter :=
  mk_iter data restarts num_restarts restarts num_restarts [] None OK.

Definition bit_Valid (it : Iter) : bool := it_current it <? it_restarts it.

Definition bit_value (it : Iter) : run (list byte) :=
  match it_value it with Some (off, n) => read_at (it_data it) off n | None => OutOfBounds end.

Definition NextEntryOffset (it : Iter) : run Z :=
  match it_value it with Some (off, n) => Done (u32 (off + n)) | None => OutOfBounds end.

Definition GetRestartPoint (it : Iter) (index : Z) : run Z :=
  bs ← read_at (it_data it) (it_restarts it + index * 4) 4; Done (DecodeFixed32 bs).

Definition SeekToRestartPoint (it : Iter) (index : Z) : run Iter :=
  offset ← GetRestartPoint it index;
  Done (set_entry (set_pos it (it_current it) index) [] (Some (offset, 0))).

Definition CorruptionError (it : Iter) : Iter :=
  mk_iter (it_data it) (it_restarts it) (it_num_restarts it) (it_restarts it) (it_num_restarts it)
    [] None (Corruption (cstr "bad entry in block") []).

Fixpoint restart_index_loop (fuel : nat) (it : Iter) : run Iter :=
  match fuel with
  | O => OutOfFuel
  | S fuel =>
      if u32 (it_restart_index it + 1) <? it_num_restarts it then
        r ← GetRestartPoint it (u32 (it_restart_index it + 1));
        if r <? it_current it
        then restart_index_loop fuel (set_pos it (it_current it) (u32 (it_restart_index it + 1)))
        else Done it
      else Done it
  end.

(** The bytes from offset [p] to the restart array. *)
Definition entry_view (it : Iter) (p : Z) : list byte :=
  drop (Z.to_nat p) (take (Z.to_nat (it_restarts it)) (it_data it)).

Definition ParseNextKey (it : Iter) : run (bool * Iter) :=
  current ← NextEntryOffset it;
  let it := set_pos it current (it_restart_index it) in
  if it_restarts it <=? current
  then Done (false, set_pos it (it_restarts it) (it_num_restarts it))
  else
    match DecodeEntry (entry_view it current) with
    | None => Done (false, CorruptionError it)
    | Some (shared, non_shared, value_length, p) =>
        if size (it_key it) <? shared then Done (false, CorruptionError it)
        else
          let p := it_restarts it - size p in
          delta ← read_at (it_data it) p non_shared;
          let it := set_entry it (take (Z.to_nat shared) (it_key it) ++ delta)
                      (Some (p + non_shared, value_length)) in
          it ← restart_index_loop (S (Z.to_nat (it_num_restarts it))) it;
          Done (true, it)
    end.

Definition bit_Next (it : Iter) : run Iter := '(_, it) ← ParseNextKey it; Done it.

(** [while (ParseNextKey() && NextEntryOffset() < limit)]. *)
Fixpoint parse_until (fuel : nat) (limit : Z) (it : Iter) : run Iter :=
  match fuel with
  | O => OutOfFuel
  | S fuel =>
      '(more, it) ← ParseNextKey it;
      if (more : bool) then
        next ← NextEntryOffset it;
        if next <? limit then parse_until fuel limit it else Done it
      else Done it
  end.

(** Every entry takes a byte at least. *)
Definition block_fuel (it : Iter) : nat := S (Z.to_nat (it_restarts it)).

(** The scan back to a restart point before [original]: [None] when there is
    none. *)
Fixpoint prev_restart_loop (fuel : nat) (original : Z) (it : Iter) : run (option Iter) :=
  match fuel with
  | O => OutOfFuel
  | S fuel =>
      r ← GetRestartPoint it (it_restart_index it);
      if original <=? r then
        if it_restart_index it =? 0 then Done None
        else prev_restart_loop fuel original (set_pos it (it_current it) (it_restart_index it - 1))
      else Done (Some it)
  end.

Definition bit_Prev (it : Iter) : run Iter :=
  let original := it_current it in
  r ← prev_restart_loop (S (Z.to_nat (it_num_restarts it))) original it;
  match r with
  | None => Done (set_pos it (it_restarts it) (it_num_restarts it))
  | Some it =>
      it ← SeekToRestartPoint it (it_restart_index it);
      parse_until (block_fuel it) original it
  end.

Definition bit_SeekToFirst (it : Iter) : run Iter :=
  it ← SeekToRestartPoint it 0; '(_, it) ← ParseNextKey it; Done it.

Definition bit_SeekToLast (it : Iter) : run Iter :=
  it ← SeekToRestartPoint it (u32 (it_num_restarts it - 1));
  parse_until (block_fuel it) (it_restarts it) it.

Section Seeking.
Context {comparator : Comparator}.

(** The binary search: [None] when the block is found to be corrupt. *)
Fixpoint seek_restart_loop (fuel : nat) (it : Iter) (target : list byte) (left right : Z)
  : run (option Z) :=
  match fuel with
  | O => OutOfFuel
  | S fuel =>
      if left <? right then
        let mid := u32 (left + right + 1) / 2 in
        region_offset ← GetRestartPoint it mid;
        match DecodeEntry (entry_view it region_offset) with
        | None => Done None
        | Some (shared, non_shared, value_length, p) =>
            if negb (shared =? 0) then Done None
            else
              mid_key ← read_at (it_data it) (it_restarts it - size p) non_shared;
              if @Compare comparator mid_key target <? 0
              then seek_restart_loop fuel it target mid right
              else seek_restart_loop fuel it target left (u32 (mid - 1))
        end
      else Done (Some left)
  end.

Fixpoint seek_linear_loop (fuel : nat) (it : Iter) (target : list byte) : run Iter :=
  match fuel with
  | O => OutOfFuel
  | S fuel =>
      '(more, it) ← ParseNextKey it;
      if negb more then Done it
      else if @Compare comparator (it_key it) target >=? 0 then Done it
      else seek_linear_loop fuel it target
  end.

Definition bit_Seek (it : Iter) (target : list byte) : run Iter :=
  r ← seek_restart_loop (S (Z.to_nat (it_num_restarts it))) it target 0 (u32 (it_num_restarts it - 1));
  match r with
  | None => Done (CorruptionError it)
  | Some start =>
      it ← SeekToRestartPoint it start;
      seek_linear_loop (block_fuel it) it target
  end.
End Seeking.

(** What [NewIterator] returns. *)
Inductive block_iterator :=
  | NoIter (e : EmptyIterator)
  | BlockIter (it : Iter).

Definition blk_NewIterator (b : Block) : block_iterator :=
  if blk_size b <? 4 then NoIter (NewErrorIterator (Corruption (cstr "bad block contents") []))
  else
    let num_restarts := NumRestarts (blk_data b) (blk_size b) in
    if num_restarts =? 0 then NoIter NewEmptyIterator
    else BlockIter (new_Iter (blk_data b) (blk_restart_offset b) num_restarts).

Definition iter_op (op : Iter -> run Iter) (b : block_iterator) : run block_iterator :=
  match b with NoIter e => Done b | BlockIter it => it ← op it; Done (BlockIter it) end.

(** The block's iterator implements the interface. *)
#[export] Instance block_iterator_iterator {c : Comparator} : Iterator block_iterator := {
  Valid b := match b with NoIter e => Valid e | BlockIter it => bit_Valid it end;
  SeekToFirst := iter_op bit_SeekToFirst;
  SeekToLast := iter_op bit_SeekToLast;
  Seek b target := iter_op (fun it => bit_Seek it target) b;
  Next := iter_op bit_Next;
  Prev := iter_op bit_Prev;
  key b := match b with NoIter e => key e | BlockIter it => Done (it_key it) end;
  value b := match b with NoIter e => value e | BlockIter it => bit_value it end;
  status b := match b with NoIter e => status e | BlockIter it => it_status it end;
}.

(** * Entries *)

Record blk_entry := mk_be { be_shared : nat; be_key : list byte; be_value : list byte }.

Definition entry_seg (e : blk_entry) : list byte :=
  EncodeVarint32 (Z.of_nat (be_shared e)) ++ EncodeVarint32 (size (be_key e) - Z.of_nat (be_shared e)) ++
  EncodeVarint32 (size (be_value e)) ++ drop (be_shared e) (be_key e) ++ be_value e.

Definition entry_fits (e : blk_entry) : Prop :=
  (be_shared e <= length (be_key e))%nat /\ size (be_key e) < 2 ^ 32 /\ size (be_value e) < 2 ^ 32.

Lemma GetVarint32Ptr_small b p : b2z b < 128 -> GetVarint32Ptr (b :: p) = Some (b2z b, p).
Proof.
  intros Hb. pose proof (b2z_bound b). rewrite GetVarint32Ptr_eq.
  replace (b :: p) with (EncodeVarint32 (b2z b) ++ p); [apply GetVarint32_app; lia|].
  rewrite EncodeVarint32_eq by lia. rewrite varint_small by lia. by rewrite z2b_b2z.
Qed.

Lemma lor_le_l x y : 0 <= x -> 0 <= y -> x <= Z.lor x y.
Proof.
  intros Hx Hy. apply Z.ldiff_le; [by apply Z.lor_nonneg|]. apply Z.bits_inj'. intros n Hn.
  rewrite Z.ldiff_spec, Z.lor_spec, Z.bits_0. by destruct (Z.testbit x n), (Z.testbit y n).
Qed.

(** Without the fast path. *)
Lemma DecodeEntry_slow input :
  DecodeEntry input =
  if size input <? 3 then None
  else '(shared, p) ← GetVarint32Ptr input;
       '(non_shared, p) ← GetVarint32Ptr p;
       '(value_length, p) ← GetVarint32Ptr p;
       if u32 (size p) <? u32 (non_shared + value_length) then None
       else Some (shared, non_shared, value_length, p).
Proof.
  unfold DecodeEntry. destruct (Z.ltb_spec (size input) 3) as [|Hl]; [done|].
  destruct input as [|a [|b [|d p]]]; try (unfold size in Hl; cbn [length] in Hl; lia).
  cbn [nth drop]. destruct (Z.ltb_spec (Z.lor (Z.lor (b2z a) (b2z b)) (b2z d)) 128) as [Hlt|_].
  2: { destruct (GetVarint32Ptr (a :: b :: d :: p)) as [[x1 p1]|]; [|done]. cbn [mbind option_bind].
       destruct (GetVarint32Ptr p1) as [[x2 p2]|]; [|done]. cbn [mbind option_bind].
       destruct (GetVarint32Ptr p2) as [[x3 p3]|]; done. }
  pose proof (b2z_bound a). pose proof (b2z_bound b). pose proof (b2z_bound d).
  pose proof (lor_le_l (b2z a) (b2z b) ltac:(lia) ltac:(lia)).
  pose proof (lor_le_l (b2z b) (b2z a) ltac:(lia) ltac:(lia)) as Hba. rewrite Z.lor_comm in Hba.
  assert (0 <= Z.lor (b2z a) (b2z b)) by (apply Z.lor_nonneg; lia).
  pose proof (lor_le_l (Z.lor (b2z a) (b2z b)) (b2z d) ltac:(lia) ltac:(lia)).
  pose proof (lor_le_l (b2z d) (Z.lor (b2z a) (b2z b)) ltac:(lia) ltac:(lia)) as Hd.
  rewrite (Z.lor_comm (b2z d)) in Hd.
  rewrite GetVarint32Ptr_small by lia. cbn [mbind option_bind].
  rewrite GetVarint32Ptr_small by lia. cbn [mbind option_bind].
  rewrite GetVarint32Ptr_small by lia. done.
Qed.

Lemma length_entry_seg e : (3 <= length (entry_seg e))%nat.
Proof.
  unfold entry_seg, EncodeVarint32. rewrite !length_app.
  repeat match goal with |- context [length (if ?b then _ else _)] => destruct b end; cbn [length]; lia.
Qed.

Lemma decode_entry e rest :
  entry_fits e -> size (entry_seg e ++ rest) < 2 ^ 32 ->
  DecodeEntry (entry_seg e ++ rest)
  = Some (Z.of_nat (be_shared e), size (be_key e) - Z.of_nat (be_shared e), size (be_value e),
          drop (be_shared e) (be_key e) ++ be_value e ++ rest).
Proof.
  intros (Hsh & Hk & Hv) Hsz. rewrite DecodeEntry_slow.
  pose proof (length_entry_seg e) as Hl. pose proof (size_nonneg rest) as Hr.
  rewrite (proj2 (Z.ltb_ge _ _)) by (rewrite size_app; unfold size; lia).
  pose proof (size_nonneg (be_value e)).
  assert (size (be_key e) = Z.of_nat (length (be_key e))) as Ek by done.
  assert (size (drop (be_shared e) (be_key e)) = size (be_key e) - Z.of_nat (be_shared e)) as Ed
    by (unfold size; rewrite length_drop; lia).
  unfold entry_seg in *. rewrite <- !app_assoc in *. rewrite GetVarint32Ptr_eq, GetVarint32_app by lia.
  cbn [mbind option_bind]. rewrite GetVarint32Ptr_eq, GetVarint32_app by lia. cbn [mbind option_bind].
  rewrite GetVarint32Ptr_eq, GetVarint32_app by lia. cbn [mbind option_bind].
  rewrite !size_app in Hsz. rewrite !size_app, !Ed in *.
  pose proof (size_nonneg (EncodeVarint32 (Z.of_nat (be_shared e)))).
  pose proof (size_nonneg (EncodeVarint32 (size (be_key e) - Z.of_nat (be_shared e)))).
  pose proof (size_nonneg (EncodeVarint32 (size (be_value e)))).
  rewrite !u32_small by lia. by rewrite (proj2 (Z.ltb_ge _ _)) by lia.
Qed.

Lemma size_fixed32s {A} (f : A -> Z) l : size (concat (map (fun j => EncodeFixed32 (f j)) l)) = 4 * Z.of_nat (length l).
Proof.
  induction l as [|j l IH]; [done|]. cbn [map concat length]. rewrite size_app, IH.
  unfold size. rewrite length_EncodeFixed32. lia.
Qed.

(** * The iterator over a well-formed block *)

(** The offset of entry [i]. *)
Definition entry_off (es : list blk_entry) (i : nat) : Z := size (concat (map entry_seg (take i es))).

Section Layout.
Context (data : list byte) (es : list blk_entry) (js : list nat).

Abbreviation off := (entry_off es).
Abbreviation len := (length es).

(** The key before entry [i]. *)
Definition prev_key (i : nat) : list byte :=
  match i with O => [] | S j => match es !! j with Some e => be_key e | None => [] end end.

(** [js]: the entries at the restart points. *)
Record layout : Prop := {
  lay_data : exists tail, data = concat (map entry_seg es) ++
               concat (map (fun j => EncodeFixed32 (off j)) js) ++ tail;
  lay_size : size data < 2 ^ 32;
  lay_fits i e : es !! i = Some e -> entry_fits e;
  lay_chain i e : es !! i = Some e ->
    (be_shared e <= length (prev_key i))%nat /\
    take (be_shared e) (prev_key i) = take (be_shared e) (be_key e);
  lay_first : js !! 0%nat = Some 0%nat;
  lay_inc k j j' : js !! k = Some j -> js !! S k = Some j' -> (j < j')%nat;
  lay_entry k j : js !! k = Some j -> (j < len)%nat \/ j = 0%nat;
  lay_whole k j e : js !! k = Some j -> es !! j = Some e -> be_shared e = 0%nat;
}.

(** An iterator over the block, without error so far. *)
Record over (it : Iter) : Prop := {
  ov_data : it_data it = data;
  ov_restarts : it_restarts it = off len;
  ov_num : it_num_restarts it = Z.of_nat (length js);
  ov_status : it_status it = OK;
}.

Lemma over_set_pos it c i : over it -> over (set_pos it c i).
Proof. by intros [? ? ? ?]. Qed.
Lemma over_set_entry it k v : over it -> over (set_entry it k v).
Proof. by intros [? ? ? ?]. Qed.

Lemma off_S i e : es !! i = Some e -> off (S i) = off i + size (entry_seg e).
Proof.
  intros Hi. unfold entry_off. erewrite take_S_r by exact Hi.
  rewrite map_app, concat_app, size_app. cbn [map concat]. by rewrite app_nil_r.
Qed.

Lemma off_nonneg i : 0 <= off i.
Proof. apply size_nonneg. Qed.

Lemma off_lt i j : (i < j <= len)%nat -> off i < off j.
Proof.
  intros [Hij Hj]. induction Hij as [|j Hij IH].
  - destruct (lookup_lt_is_Some_2 es i ltac:(lia)) as [e He]. rewrite (off_S i e He).
    pose proof (length_entry_seg e). unfold size. lia.
  - specialize (IH ltac:(lia)). destruct (lookup_lt_is_Some_2 es j ltac:(lia)) as [e He].
    rewrite (off_S j e He). pose proof (size_nonneg (entry_seg e)). lia.
Qed.

Lemma off_le i j : (i <= j <= len)%nat -> off i <= off j.
Proof. intros Hij. destruct (Nat.eq_dec i j) as [->|]; [lia|]. pose proof (off_lt i j). lia. Qed.

Lemma off_body : off len = size (concat (map entry_seg es)).
Proof. unfold entry_off. by rewrite firstn_all. Qed.

Lemma body_drop i : (i <= len)%nat ->
  drop (Z.to_nat (off i)) (concat (map entry_seg es)) = concat (map entry_seg (drop i es)).
Proof.
  intros Hi. rewrite <- (take_drop i es) at 2. rewrite map_app, concat_app.
  unfold entry_off, size. rewrite Nat2Z.id. apply drop_app_length.
Qed.

Hypothesis lay : layout.

Lemma data_size : off len + 4 * Z.of_nat (length js) <= size data < 2 ^ 32.
Proof.
  destruct (lay_data lay) as [tail E]. pose proof (lay_size lay). rewrite E at 1.
  rewrite !size_app, <- off_body. pose proof (size_nonneg tail).
  rewrite size_fixed32s. lia.
Qed.

Lemma view_at it i : over it -> (i <= len)%nat ->
  entry_view it (off i) = concat (map entry_seg (drop i es)).
Proof.
  intros [Hd Hr _ _] Hi. unfold entry_view. rewrite Hd, Hr, off_body.
  destruct (lay_data lay) as [tail ->]. rewrite take_size_app. by apply body_drop.
Qed.

Lemma restart_at it k j : over it -> js !! k = Some j ->
  GetRestartPoint it (Z.of_nat k) = Done (off j).
Proof.
  intros [Hd Hr _ _] Hk. pose proof data_size as Hs. pose proof (lookup_lt_Some _ _ _ Hk) as Hlt.
  pose proof (off_nonneg len). unfold GetRestartPoint, read_at. rewrite Hd, Hr.
  rewrite (proj2 (Z.leb_le 0 _)) by lia. rewrite (proj2 (Z.leb_le _ (size data))) by lia. cbn [andb].
  change (0 <=? 4) with true. cbn [andb].
  assert (take (Z.to_nat 4) (drop (Z.to_nat (off len + Z.of_nat k * 4)) data) = EncodeFixed32 (off j)) as ->.
  - destruct (lay_data lay) as [tail ->]. rewrite off_body. rewrite <- (take_drop_middle js k j Hk).
    rewrite map_app, concat_app. cbn [map concat]. rewrite <- !app_assoc.
    assert (length (concat (map (fun j => EncodeFixed32 (off j)) (take k js))) = (4 * k)%nat) as Hl.
    { pose proof (size_fixed32s off (take k js)) as Hs4. unfold size in Hs4. rewrite length_take in Hs4. lia. }
    rewrite app_assoc, drop_app_length' by (rewrite length_app, Hl; unfold size; lia).
    apply take_app_length'. by rewrite length_EncodeFixed32.
  - pose proof (DecodeFixed32_app (off j) []) as Hf. rewrite app_nil_r in Hf.
    cbn [mbind run_mbind run_bind]. rewrite Hf. f_equal. apply u32_small.
    pose proof (off_nonneg j). destruct (lay_entry lay k j Hk) as [Hj| ->].
    + pose proof (off_le j len ltac:(lia)). lia.
    + change (off 0%nat) with 0. lia.
Qed.

(** The restart points before entry [i]. *)
Definition index_ok (k i : nat) : Prop := exists j, js !! k = Some j /\ (j <= i)%nat.

Lemma restart_index_ok fuel it k i :
  over it -> it_restart_index it = Z.of_nat k -> index_ok k i -> (i < len)%nat -> it_current it = off i ->
  (length js - k < fuel)%nat ->
  exists k', restart_index_loop fuel it = Done (set_pos it (off i) (Z.of_nat k')) /\
    index_ok k' i /\ forall j', js !! S k' = Some j' -> (i <= j')%nat.
Proof.
  intros Hov. revert it k Hov. induction fuel as [|fuel IH]; intros it k Hov Hk Hok Hi Hc Hf; [lia|].
  cbn [restart_index_loop]. pose proof data_size as Hs. pose proof (off_nonneg len).
  destruct Hok as (j & Hj & Hji). pose proof (lookup_lt_Some _ _ _ Hj) as Hlt.
  rewrite Hk, (ov_num it Hov), u32_small by lia.
  destruct (Z.ltb_spec (Z.of_nat k + 1) (Z.of_nat (length js))) as [Hk1|Hk1].
  2: { exists k. split; [|split; [by exists j|]].
       - destruct it; cbn in *; subst; done.
       - intros j' Hj'. apply lookup_lt_Some in Hj'. lia. }
  destruct (lookup_lt_is_Some_2 js (S k) ltac:(lia)) as [j' Hj'].
  replace (Z.of_nat k + 1) with (Z.of_nat (S k)) by lia. rewrite (restart_at it (S k) j') by done.
  cbn [mbind run_mbind run_bind]. rewrite Hc. destruct (Z.ltb_spec (off j') (off i)) as [Hlt'|Hge].
  - destruct (IH (set_pos it (off i) (Z.of_nat (S k))) (S k)) as (k' & E & H1 & H2); try done.
    + by apply over_set_pos.
    + exists j'. split; [done|]. destruct (Nat.le_gt_cases j' i); [done|].
      destruct (lay_entry lay _ _ Hj'); [|lia]. pose proof (off_lt i j'). lia.
    + lia.
    + exists k'. split; [exact E|]. done.
  - exists k. split; [|split; [by exists j|]].
    + destruct it; cbn in *; subst; done.
    + intros j'' Hj''. assert (j'' = j') as -> by congruence.
      destruct (Nat.le_gt_cases i j'); [done|]. pose proof (off_lt j' i). lia.
Qed.

Lemma data_at i e : es !! i = Some e ->
  exists pre hdr tl, data = pre ++ hdr ++ drop (be_shared e) (be_key e) ++ be_value e ++ tl /\
    size pre = off i /\ entry_seg e = hdr ++ drop (be_shared e) (be_key e) ++ be_value e.
Proof.
  intros Hi. destruct (lay_data lay) as [tail E].
  assert (concat (map entry_seg es) = concat (map entry_seg (take i es)) ++ entry_seg e ++
    concat (map entry_seg (drop (S i) es))) as Eb.
  { rewrite <- (take_drop_middle es i e Hi) at 1. by rewrite map_app, concat_app. }
  rewrite Eb in E. set (r := concat (map (fun j => EncodeFixed32 (off j)) js) ++ tail) in E.
  set (hdr := EncodeVarint32 (Z.of_nat (be_shared e)) ++
    EncodeVarint32 (size (be_key e) - Z.of_nat (be_shared e)) ++ EncodeVarint32 (size (be_value e))).
  assert (entry_seg e = hdr ++ drop (be_shared e) (be_key e) ++ be_value e) as Es
    by (unfold entry_seg, hdr; by rewrite <- !app_assoc).
  exists (concat (map entry_seg (take i es))), hdr, (concat (map entry_seg (drop (S i) es)) ++ r).
  split; [|done]. rewrite E, Es. by rewrite <- !app_assoc.
Qed.

Lemma entry_sizes i e : es !! i = Some e ->
  off (S i) = off i + size (entry_seg e) /\ size (drop (be_shared e) (be_key e)) = size (be_key e) - Z.of_nat (be_shared e).
Proof.
  intros Hi. split; [by apply off_S|]. destruct (lay_fits lay i e Hi) as (Hsh & _).
  unfold size. rewrite length_drop. lia.
Qed.

Lemma read_delta i e : es !! i = Some e ->
  read_at data (off (S i) - size (be_value e) - (size (be_key e) - Z.of_nat (be_shared e)))
    (size (be_key e) - Z.of_nat (be_shared e)) = Done (drop (be_shared e) (be_key e)).
Proof.
  intros Hi. destruct (data_at i e Hi) as (pre & hdr & tl & E & Hp & Es).
  destruct (entry_sizes i e Hi) as [Eo Ed]. rewrite Es, !size_app in Eo. rewrite <- Ed.
  replace (off (S i) - size (be_value e) - _) with (size (pre ++ hdr)) by (rewrite size_app; lia).
  rewrite E, (app_assoc pre). apply read_at_app.
Qed.

Lemma read_value i e : es !! i = Some e ->
  read_at data (off (S i) - size (be_value e)) (size (be_value e)) = Done (be_value e).
Proof.
  intros Hi. destruct (data_at i e Hi) as (pre & hdr & tl & E & Hp & Es).
  destruct (entry_sizes i e Hi) as [Eo Ed]. rewrite Es, !size_app in Eo.
  replace (off (S i) - size (be_value e)) with (size ((pre ++ hdr) ++ drop (be_shared e) (be_key e)))
    by (rewrite !size_app; lia).
  rewrite E. rewrite (app_assoc pre hdr), (app_assoc (pre ++ hdr)). apply read_at_app.
Qed.

(** Right before entry [i] is parsed. *)
Record ready (it : Iter) (i : nat) : Prop := {
  rd_over : over it;
  rd_value : exists o n, it_value it = Some (o, n) /\ o + n = off i;
  rd_index : exists k, it_restart_index it = Z.of_nat k /\ index_ok k i;
  rd_key e : es !! i = Some e ->
    (be_shared e <= length (it_key it))%nat /\
    take (be_shared e) (it_key it) = take (be_shared e) (be_key e);
}.

(** At entry [i]. *)
Record at_entry (it : Iter) (i : nat) (e : blk_entry) : Prop := {
  ae_over : over it;
  ae_entry : es !! i = Some e;
  ae_current : it_current it = off i;
  ae_key : it_key it = be_key e;
  ae_value : it_value it = Some (off (S i) - size (be_value e), size (be_value e));
  ae_index : exists k, it_restart_index it = Z.of_nat k /\ index_ok k i /\
    forall j', js !! S k = Some j' -> (i <= j')%nat;
}.

Record at_end (it : Iter) : Prop := {
  en_over : over it;
  en_current : it_current it = off len;
}.

Lemma off_u32 i : (i <= len)%nat -> u32 (off i) = off i.
Proof.
  intros Hi. pose proof data_size. pose proof (off_nonneg i). pose proof (off_le i len ltac:(lia)).
  apply u32_small. lia.
Qed.

Lemma NextEntryOffset_ok it o n i : it_value it = Some (o, n) -> o + n = off i -> (i <= len)%nat ->
  NextEntryOffset it = Done (off i).
Proof. intros Hv E Hi. unfold NextEntryOffset. rewrite Hv, E. by rewrite off_u32. Qed.

Lemma parse_end it : ready it len -> exists it', ParseNextKey it = Done (false, it') /\ at_end it'.
Proof.
  intros [Hov (o & n & Hv & E) _ _]. unfold ParseNextKey. rewrite (NextEntryOffset_ok it o n len) by done.
  cbn [mbind run_mbind run_bind]. change (it_restarts (set_pos it (off len) _)) with (it_restarts it).
  rewrite (ov_restarts it Hov), Z.leb_refl. eexists. split; [reflexivity|].
  split; [by do 2 apply over_set_pos | done].
Qed.

Lemma decode_at it i e : over it -> es !! i = Some e ->
  exists p, DecodeEntry (entry_view it (off i))
      = Some (Z.of_nat (be_shared e), size (be_key e) - Z.of_nat (be_shared e), size (be_value e), p) /\
    off len - size p
    = off (S i) - size (be_value e) - (size (be_key e) - Z.of_nat (be_shared e)).
Proof.
  intros Hov Hi. pose proof (lookup_lt_Some _ _ _ Hi) as Hlt.
  rewrite (view_at it i Hov), (drop_S _ _ _ Hi) by lia. cbn [map concat].
  destruct (entry_sizes i e Hi) as [Eo Ed]. set (rest := concat (map entry_seg (drop (S i) es))).
  pose proof (off_le (S i) len ltac:(lia)). pose proof (off_nonneg (S i)).
  assert (size rest = off len - off (S i)) as Erest.
  { unfold rest. rewrite <- (body_drop (S i)), size_drop_Z, <- off_body by lia. lia. }
  eexists. rewrite decode_entry; [split; [reflexivity|] | by apply (lay_fits lay i) |].
  - rewrite !size_app, Ed, Erest. lia.
  - rewrite size_app, Erest. pose proof data_size. pose proof (off_nonneg i). lia.
Qed.

Lemma parse_step it i e : ready it i -> es !! i = Some e ->
  exists it', ParseNextKey it = Done (true, it') /\ at_entry it' i e.
Proof.
  intros [Hov (o & n & Hv & E) (k & Hk & Hok) Hkey] Hi. pose proof (lookup_lt_Some _ _ _ Hi) as Hlt.
  destruct (Hkey e Hi) as [Hsh Htake].
  unfold ParseNextKey. rewrite (NextEntryOffset_ok it o n i) by (done || lia).
  cbn [mbind run_mbind run_bind]. set (it1 := set_pos it (off i) _).
  assert (over it1) as Hov1 by (by apply over_set_pos).
  change (it_restarts it1) with (it_restarts it). rewrite (ov_restarts it Hov).
  pose proof (off_lt i len ltac:(lia)) as Hol.
  rewrite (proj2 (Z.leb_gt _ _)) by lia.
  destruct (decode_at it1 i e Hov1 Hi) as (p & -> & Ep).
  change (it_key it1) with (it_key it). rewrite (proj2 (Z.ltb_ge _ _)) by (unfold size; lia).
  rewrite Ep. change (it_data it1) with (it_data it). rewrite (ov_data it Hov).
  rewrite (read_delta i e Hi). cbn [mbind run_mbind run_bind].
  rewrite Nat2Z.id, Htake, take_drop.
  match goal with |- context [restart_index_loop _ ?x] => set (it2 := x) end.
  destruct (restart_index_ok (S (Z.to_nat (it_num_restarts it2))) it2 k i) as (k' & El & Hk' & Hn'); try done.
  { by apply over_set_entry. }
  { change (it_num_restarts it2) with (it_num_restarts it). rewrite (ov_num it Hov). lia. }
  rewrite El. cbn [mbind run_mbind run_bind]. eexists. split; [reflexivity|].
  split; try done.
  - apply over_set_pos. by apply over_set_entry.
  - cbn [set_pos it_value it2 set_entry]. do 2 f_equal. lia.
  - exists k'. done.
Qed.

(** ** Positions: [i] is [len] at the end *)

Definition at_pos (i : nat) (it : Iter) : Prop :=
  match es !! i with Some e => at_entry it i e | None => i = len /\ at_end it end.

Lemma at_pos_over i it : at_pos i it -> over it.
Proof. unfold at_pos. destruct (es !! i); intros H; [apply (ae_over _ _ _ H) | apply (en_over _ (proj2 H))]. Qed.

Lemma at_ready it i e : at_entry it i e -> ready it (S i).
Proof.
  intros [Hov Hi Hc Hk Hv (k & Ek & (j & Hj & Hji) & Hn)]. split; [done| | |].
  - eexists _, _. split; [exact Hv | lia].
  - exists k. split; [done|]. exists j. split; [done | lia].
  - intros e' He'. pose proof (lay_chain lay (S i) e' He') as Hch. cbn [prev_key] in Hch.
    rewrite Hi in Hch. by rewrite Hk.
Qed.

Lemma parse_any it i : ready it i -> (i <= len)%nat ->
  exists b it', ParseNextKey it = Done (b, it') /\ at_pos i it' /\ b = (i <? len)%nat.
Proof.
  intros Hr Hi. unfold at_pos. destruct (es !! i) as [e|] eqn:Ei.
  - destruct (parse_step it i e Hr Ei) as (it' & E & Hat). exists true, it'.
    apply lookup_lt_Some in Ei. split; [exact E|]. split; [exact Hat|]. symmetry. by apply Nat.ltb_lt.
  - apply lookup_ge_None_1 in Ei. assert (i = len) as -> by lia.
    destruct (parse_end it Hr) as (it' & E & Hat). exists false, it'. split; [exact E|].
    split; [done|]. by rewrite Nat.ltb_irrefl.
Qed.

Lemma parse_until_ok fuel it i m :
  ready it i -> (i < m <= len)%nat -> (m - i <= fuel)%nat ->
  exists it', parse_until fuel (off m) it = Done it' /\ at_pos (pred m) it'.
Proof.
  revert it i; induction fuel as [|fuel IH]; intros it i Hr Hm Hf; [lia|].
  cbn [parse_until]. destruct (lookup_lt_is_Some_2 es i ltac:(lia)) as [e He].
  destruct (parse_step it i e Hr He) as (it1 & -> & Hat). cbn [mbind run_mbind run_bind].
  rewrite (NextEntryOffset_ok it1 _ _ (S i) (ae_value _ _ _ Hat)) by lia. cbn [mbind run_mbind run_bind].
  destruct (Nat.eq_dec (S i) m) as [<-|Hne].
  - rewrite Z.ltb_irrefl. exists it1. split; [done|]. unfold at_pos. cbn [pred]. by rewrite He.
  - pose proof (off_lt (S i) m ltac:(lia)). rewrite (proj2 (Z.ltb_lt _ _)) by lia.
    apply (IH it1 (S i)); [by apply (at_ready it1 i e) | lia | lia].
Qed.

Lemma SeekToRestartPoint_ok it k j : over it -> js !! k = Some j ->
  exists it', SeekToRestartPoint it (Z.of_nat k) = Done it' /\ ready it' j.
Proof.
  intros Hov Hk. unfold SeekToRestartPoint. rewrite (restart_at it k j Hov Hk). cbn [mbind run_mbind run_bind].
  eexists. split; [reflexivity|]. split.
  - apply over_set_entry. by apply over_set_pos.
  - eexists _, _. split; [reflexivity | lia].
  - exists k. split; [done|]. by exists j.
  - intros e He. cbn [set_entry it_key]. rewrite (lay_whole lay k j e Hk He). cbn [length]. done.
Qed.

Lemma js_nonempty : (0 < length js)%nat.
Proof. apply (lookup_lt_Some js 0 0%nat), lay. Qed.

Lemma len_fuel it : over it -> (len <= Z.to_nat (it_restarts it))%nat.
Proof.
  intros Hov. rewrite (ov_restarts it Hov). clear.
  assert (forall i, (i <= len)%nat -> Z.of_nat i <= off i) as H; [|specialize (H len); lia].
  induction i as [|i IH]; intros Hi; [apply size_nonneg|].
  destruct (lookup_lt_is_Some_2 es i ltac:(lia)) as [e He]. rewrite (off_S i e He).
  pose proof (length_entry_seg e). specialize (IH ltac:(lia)). unfold size. lia.
Qed.

Lemma SeekToFirst_ok it : over it -> exists it', bit_SeekToFirst it = Done it' /\ at_pos 0 it'.
Proof.
  intros Hov. destruct (SeekToRestartPoint_ok it 0 0 Hov (lay_first lay)) as (it1 & E1 & Hr).
  destruct (parse_any it1 0 Hr ltac:(lia)) as (b & it2 & E2 & Hat & _). exists it2.
  unfold bit_SeekToFirst. change 0 with (Z.of_nat 0). rewrite E1. cbn [mbind run_mbind run_bind].
  rewrite E2. done.
Qed.

Lemma Next_ok it i : at_pos i it -> (i < len)%nat -> exists it', bit_Next it = Done it' /\ at_pos (S i) it'.
Proof.
  unfold at_pos at 1. intros Hat Hi. destruct (lookup_lt_is_Some_2 es i Hi) as [e He]. rewrite He in Hat.
  destruct (parse_any it (S i) (at_ready it i e Hat) Hi) as (b & it2 & E2 & Hat2 & _). exists it2.
  unfold bit_Next. by rewrite E2.
Qed.

Lemma SeekToLast_ok it : over it -> exists it', bit_SeekToLast it = Done it' /\ at_pos (pred len) it'.
Proof.
  intros Hov. pose proof js_nonempty. pose proof data_size. pose proof (off_nonneg len).
  destruct (lookup_lt_is_Some_2 js (pred (length js)) ltac:(lia)) as [j Hj].
  destruct (SeekToRestartPoint_ok it _ j Hov Hj) as (it1 & E1 & Hr).
  unfold bit_SeekToLast. rewrite (ov_num it Hov), u32_small by lia.
  replace (Z.of_nat (length js) - 1) with (Z.of_nat (pred (length js))) by lia. rewrite E1.
  cbn [mbind run_mbind run_bind]. rewrite (ov_restarts it1 (rd_over _ _ Hr)).
  destruct (Nat.eq_dec len 0%nat) as [E0|Hne].
  - assert (j = len) as -> by (destruct (lay_entry lay _ _ Hj); lia).
    destruct (parse_end it1 Hr) as (it2 & E2 & Hen). exists it2. unfold block_fuel. cbn [parse_until].
    rewrite E2. cbn [mbind run_mbind run_bind]. split; [done|]. unfold at_pos.
    rewrite E0. cbn [pred]. rewrite lookup_ge_None_2 by lia. done.
  - apply (parse_until_ok _ it1 j); [done | destruct (lay_entry lay _ _ Hj); lia |].
    pose proof (len_fuel it1 (rd_over _ _ Hr)). unfold block_fuel. lia.
Qed.

Lemma prev_restart_ok it k i j :
  over it -> it_restart_index it = Z.of_nat k -> js !! k = Some j -> (j <= i < len)%nat ->
  let r := prev_restart_loop (S (Z.to_nat (it_num_restarts it))) (off i) it in
  (i = 0%nat /\ r = Done None) \/
  exists it' k' j', r = Done (Some it') /\ over it' /\ it_restart_index it' = Z.of_nat k' /\
    js !! k' = Some j' /\ (j' < i)%nat.
Proof.
  intros Hov Hk Hj Hi. cbv zeta. pose proof (lookup_lt_Some _ _ _ Hj) as Hlt.
  rewrite (ov_num it Hov), Nat2Z.id. destruct (length js) as [|n] eqn:En; [lia|].
  cbn [prev_restart_loop]. rewrite Hk, (restart_at it k j Hov Hj). cbn [mbind run_mbind run_bind].
  destruct (Z.leb_spec (off i) (off j)) as [Hle|Hgt].
  - assert (j = i) as -> by (destruct (Nat.eq_dec j i); [done | pose proof (off_lt j i ltac:(lia)); lia]).
    destruct k as [|k].
    + left. assert (i = 0%nat) as -> by (pose proof (lay_first lay); congruence). done.
    + right. destruct (Z.eqb_spec (Z.of_nat (S k)) 0); [lia|].
      destruct (lookup_lt_is_Some_2 js k ltac:(lia)) as [j' Hj'].
      pose proof (lay_inc lay k j' i Hj' Hj) as Hlt'.
      replace (Z.of_nat (S k) - 1) with (Z.of_nat k) by lia.
      change (it_restart_index (set_pos it (it_current it) (Z.of_nat k))) with (Z.of_nat k).
      rewrite (restart_at _ k j' (over_set_pos it _ _ Hov) Hj'). cbn [mbind run_mbind run_bind].
      pose proof (off_lt j' i ltac:(lia)). rewrite (proj2 (Z.leb_gt _ _)) by lia.
      exists (set_pos it (it_current it) (Z.of_nat k)), k, j'. split; [done|].
      split; [by apply over_set_pos | done].
  - right. exists it, k, j. split; [done|]. split; [done|]. split; [done|]. split; [done|].
    destruct (Nat.eq_dec j i) as [->|]; [lia|]. lia.
Qed.

Lemma Prev_ok it i : at_pos i it -> (i < len)%nat ->
  exists it', bit_Prev it = Done it' /\ at_pos (match i with O => len | S j => j end) it'.
Proof.
  unfold at_pos at 1. intros Hat Hi. destruct (lookup_lt_is_Some_2 es i Hi) as [e He]. rewrite He in Hat.
  destruct Hat as [Hov _ Hc _ _ (k & Hk & (j & Hj & Hji) & _)].
  unfold bit_Prev. rewrite Hc. cbv zeta.
  destruct (prev_restart_ok it k i j Hov Hk Hj ltac:(lia)) as [[-> ->]|(it1 & k' & j' & -> & Hov1 & Hk' & Hj' & Hlt)];
    cbn [mbind run_mbind run_bind].
  - eexists. split; [reflexivity|]. unfold at_pos. rewrite lookup_ge_None_2 by lia. split; [done|].
    split; [by apply over_set_pos | by apply (ov_restarts it)].
  - rewrite Hk'. destruct (SeekToRestartPoint_ok it1 k' j' Hov1 Hj') as (it2 & -> & Hr).
    cbn [mbind run_mbind run_bind].
    destruct (parse_until_ok (block_fuel it2) it2 j' i Hr ltac:(lia)) as (it3 & E3 & Hat3).
    { pose proof (len_fuel it2 (rd_over _ _ Hr)). unfold block_fuel. lia. }
    exists it3. split; [exact E3|]. destruct i as [|i]; [lia | exact Hat3].
Qed.

(** ** Seek *)

Context {c : Comparator} (target : list byte).

Definition before (e : blk_entry) : Prop := @Compare c (be_key e) target < 0.

(** A restart point at which the search may start. *)
Definition starts_before (k : nat) : Prop :=
  exists j, js !! k = Some j /\ (k = 0%nat \/ exists e, es !! j = Some e /\ before e).

Lemma seek_restart_ok fuel it kl kr :
  over it -> (kl <= kr < length js)%nat -> starts_before kl -> (kr - kl < fuel)%nat ->
  exists k, seek_restart_loop (comparator := c) fuel it target (Z.of_nat kl) (Z.of_nat kr)
      = Done (Some (Z.of_nat k)) /\ starts_before k.
Proof.
  intros Hov. revert kl kr; induction fuel as [|fuel IH]; intros kl kr Hk Hst Hf; [lia|].
  pose proof data_size as Hs. pose proof (off_nonneg len). cbn [seek_restart_loop].
  destruct (Z.ltb_spec (Z.of_nat kl) (Z.of_nat kr)) as [Hlt|]; [|by exists kl].
  rewrite u32_small by lia.
  set (mid := ((kl + kr + 1) / 2)%nat).
  assert ((Z.of_nat kl + Z.of_nat kr + 1) / 2 = Z.of_nat mid) as ->.
  { unfold mid. rewrite Nat2Z.inj_div. f_equal. lia. }
  assert (kl < mid <= kr)%nat as Hmid.
  { unfold mid. pose proof (Nat.div_mod_eq (kl + kr + 1) 2). pose proof (Nat.mod_upper_bound (kl + kr + 1) 2). lia. }
  destruct (lookup_lt_is_Some_2 js mid ltac:(lia)) as [j Hj].
  assert (j < len)%nat as Hjl.
  { destruct (lay_entry lay mid j Hj) as [|Hj0]; [done|].
    destruct (lookup_lt_is_Some_2 js (pred mid) ltac:(lia)) as [j0 Hj0'].
    pose proof (lay_inc lay (pred mid) j0 j Hj0') as Hi. replace (S (pred mid)) with mid in Hi by lia.
    specialize (Hi Hj). lia. }
  destruct (lookup_lt_is_Some_2 es j Hjl) as [e He].
  rewrite (restart_at it mid j Hov Hj). cbn [mbind run_mbind run_bind].
  destruct (decode_at it j e Hov He) as (p & -> & Ep). rewrite (lay_whole lay mid j e Hj He) in *.
  cbn [Z.of_nat Z.eqb negb]. rewrite (ov_restarts it Hov), Ep, (ov_data it Hov).
  pose proof (read_delta j e He) as Hrd. rewrite (lay_whole lay mid j e Hj He) in Hrd. cbn [Z.of_nat] in Hrd.
  rewrite Hrd. cbn [mbind run_mbind run_bind]. rewrite drop_0.
  destruct (Z.ltb_spec (@Compare c (be_key e) target) 0) as [Hc|Hc].
  - apply IH; [lia | | lia]. exists j. split; [done|]. right. by exists e.
  - rewrite u32_small by lia. replace (Z.of_nat mid - 1) with (Z.of_nat (pred mid)) by lia.
    apply IH; [lia | done | lia].
Qed.

Lemma seek_linear_ok fuel it i :
  ready it i -> (i <= len)%nat -> (forall i' e, (i' < i)%nat -> es !! i' = Some e -> before e) ->
  (len - i < fuel)%nat ->
  exists it' m, seek_linear_loop (comparator := c) fuel it target = Done it' /\ at_pos m it' /\
    (forall i' e, (i' < m)%nat -> es !! i' = Some e -> before e) /\
    (forall e, es !! m = Some e -> ~ before e).
Proof.
  revert it i; induction fuel as [|fuel IH]; intros it i Hr Hi Hb Hf; [lia|].
  cbn [seek_linear_loop]. destruct (es !! i) as [e|] eqn:Ei.
  - destruct (parse_step it i e Hr Ei) as (it1 & -> & Hat). cbn [mbind run_mbind run_bind negb].
    rewrite (ae_key _ _ _ Hat). apply lookup_lt_Some in Ei as Hlt.
    destruct (Z.geb_spec (@Compare c (be_key e) target) 0) as [Hc|Hc].
    + exists it1, i. split; [done|]. split; [unfold at_pos; by rewrite Ei|]. split; [done|].
      intros e' He'. unfold before. replace e' with e by congruence. lia.
    + apply (IH it1 (S i)); [by apply (at_ready it1 i e) | lia | | lia].
      intros i' e' Hi' He'. destruct (Nat.eq_dec i' i) as [->|]; [|apply (Hb i'); [lia | done]].
      unfold before. replace e' with e by congruence. lia.
  - apply lookup_ge_None_1 in Ei as Hge. assert (i = len) as -> by lia.
    destruct (parse_end it Hr) as (it1 & -> & Hen). cbn [mbind run_mbind run_bind negb].
    exists it1, len. split; [done|]. split; [unfold at_pos; by rewrite Ei|]. split; [done|].
    intros e He. congruence.
Qed.

Lemma bit_Seek_ok it :
  over it ->
  (forall i j a b, es !! i = Some a -> es !! j = Some b -> (i < j)%nat -> before b -> before a) ->
  exists it' m, bit_Seek (comparator := c) it target = Done it' /\ at_pos m it' /\
    (forall i e, (i < m)%nat -> es !! i = Some e -> before e) /\
    (forall e, es !! m = Some e -> ~ before e).
Proof.
  intros Hov Hmono. pose proof js_nonempty. pose proof data_size. pose proof (off_nonneg len).
  unfold bit_Seek. rewrite (ov_num it Hov), u32_small by lia.
  replace (Z.of_nat (length js) - 1) with (Z.of_nat (pred (length js))) by lia.
  destruct (seek_restart_ok (S (Z.to_nat (Z.of_nat (length js)))) it 0 (pred (length js)) Hov) as (k & E & j & Hj & Hst).
  { lia. }
  { exists 0%nat. split; [apply lay | by left]. }
  { lia. }
  change (Z.of_nat 0) with 0 in E. rewrite E. cbn [mbind run_mbind run_bind].
  destruct (SeekToRestartPoint_ok it k j Hov Hj) as (it1 & -> & Hr). cbn [mbind run_mbind run_bind].
  apply (seek_linear_ok _ it1 j Hr).
  - destruct (lay_entry lay k j Hj); lia.
  - intros i' e Hi' He. destruct Hst as [-> | (ej & Hej & Hb)].
    + pose proof (lay_first lay). assert (j = 0%nat) by congruence. lia.
    + by apply (Hmono i' j e ej).
  - pose proof (len_fuel it1 (rd_over _ _ Hr)). unfold block_fuel. lia.
Qed.
End Layout.

(** * The blocks the builder makes *)

Section Builder.
Context (interval : Z) (interval_pos : 1 <= interval < 2 ^ 31).

Abbreviation Add := (bb_Add interval).

Lemma shared_loop_spec a b :
  let n := shared_loop a b in (n <= length a)%nat /\ (n <= length b)%nat /\ take n a = take n b.
Proof.
  cbv zeta. revert b; induction a as [|x a IH]; intros [|y b]; cbn [shared_loop length take]; try (split; [lia|]; split; [lia | done]).
  destruct (Z.eqb_spec (b2z x) (b2z y)) as [E|]; [|split; [lia|]; split; [lia | done]].
  destruct (IH b) as (H1 & H2 & H3). split; [lia|]. split; [lia|]. cbn [take]. apply b2z_inj in E. by rewrite E, H3.
Qed.

(** The builder [b] has taken the entries [kvs]. *)
Record built (b : BlockBuilder) (kvs : list (list byte * list byte)) (es : list blk_entry) (js : list nat) : Prop := {
  bt_kvs : map (fun e => (be_key e, be_value e)) es = kvs;
  bt_buffer : bb_buffer b = concat (map entry_seg es);
  bt_restarts : bb_restarts b = map (entry_off es) js;
  bt_last : bb_last_key b = prev_key es (length es);
  bt_counter : 0 <= bb_counter b <= interval;
  bt_started : 0 < bb_counter b -> (0 < length es)%nat;
  bt_first : js !! 0%nat = Some 0%nat;
  bt_inc k j j' : js !! k = Some j -> js !! S k = Some j' -> (j < j')%nat;
  bt_entry k j : js !! k = Some j -> (j < length es)%nat \/ j = 0%nat;
  bt_whole k j e : js !! k = Some j -> es !! j = Some e -> be_shared e = 0%nat;
  bt_chain i e : es !! i = Some e ->
    (be_shared e <= length (prev_key es i))%nat /\
    take (be_shared e) (prev_key es i) = take (be_shared e) (be_key e);
  bt_shared e : In e es -> (be_shared e <= length (be_key e))%nat;
}.

Lemma new_built : built new_BlockBuilder [] [] [0%nat].
Proof.
  split; try done; try (cbn; lia).
  intros [|k] j H; [right; by injection H as <- | by destruct k].
Qed.

Lemma entry_off_snoc es e j : (j <= length es)%nat -> entry_off (es ++ [e]) j = entry_off es j.
Proof. intros Hj. unfold entry_off. by rewrite take_app_le. Qed.

Lemma prev_key_snoc es e i : (i <= length es)%nat -> prev_key (es ++ [e]) i = prev_key es i.
Proof. intros Hi. destruct i as [|i]; [done|]. cbn [prev_key]. by rewrite lookup_app_l by lia. Qed.

Lemma lookup_snoc {A} (l : list A) x i y : (l ++ [x]) !! i = Some y -> l !! i = Some y \/ (i = length l /\ y = x).
Proof.
  intros H. apply lookup_app_Some in H as [H|[Hi H]]; [by left|]. right.
  assert (i - length l = 0)%nat as E; [|rewrite E in H; injection H as <-; split; [lia | done]].
  destruct (i - length l)%nat; [done|]. by destruct n.
Qed.

Lemma Add_eq b key value shared restarts counter :
  (if bb_counter b <? interval
   then (shared_loop (bb_last_key b) key, bb_restarts b, bb_counter b)
   else (0%nat, bb_restarts b ++ [u32 (size (bb_buffer b))], 0)) = (shared, restarts, counter) ->
  (shared <= length key)%nat -> size key < 2 ^ 32 -> size value < 2 ^ 32 ->
  take shared (bb_last_key b) = take shared key ->
  Add b key value = mk_bb (bb_buffer b ++ entry_seg (mk_be shared key value)) restarts (s32 (counter + 1))
                      (bb_finished b) key.
Proof.
  intros E Hs Hk Hv Ht. unfold bb_Add. rewrite E, Ht, take_drop. pose proof (size_nonneg value).
  assert (size key = Z.of_nat (length key)) by done.
  unfold PutVarint32. rewrite !u32_small by lia. unfold entry_seg. cbn [be_shared be_key be_value].
  by rewrite <- !app_assoc.
Qed.

Lemma js_bound b kvs es js k j : built b kvs es js -> js !! k = Some j -> (j <= length es)%nat.
Proof. intros Hb Hk. destruct (bt_entry _ _ _ _ Hb k j Hk); lia. Qed.

Lemma built_snoc b kvs es js sh key value js' counter fin :
  built b kvs es js -> let e := mk_be sh key value in
  (sh <= length (prev_key es (length es)))%nat -> (sh <= length key)%nat ->
  take sh (prev_key es (length es)) = take sh key ->
  js' = js \/ (js' = js ++ [length es] /\ sh = 0%nat /\ (0 < length es)%nat) ->
  0 <= counter <= interval ->
  built (mk_bb (bb_buffer b ++ entry_seg e) (map (entry_off es) js') counter fin key)
    (kvs ++ [(key, value)]) (es ++ [e]) js'.
Proof.
  intros Hb e Hsh1 Hsh2 Ht Hjs Hc.
  pose proof (js_bound b kvs es js) as Hbnd. 
  assert (forall k j, js' !! k = Some j -> js !! k = Some j \/ (k = length js /\ j = length es /\ sh = 0%nat)) as Hjs'.
  { intros k j Hk. destruct Hjs as [-> | (-> & H0 & _)]; [by left|].
    apply lookup_snoc in Hk as [|[-> ->]]; [by left | by right]. }
  assert (forall k j, js' !! k = Some j -> (j <= length es)%nat) as Hle.
  { intros k j Hk. destruct (Hjs' k j Hk) as [H|(_ & -> & _)]; [by apply (Hbnd k j) | done]. }
  split; cbn [bb_buffer bb_restarts bb_counter bb_last_key].
  - rewrite map_app, (bt_kvs _ _ _ _ Hb). done.
  - rewrite map_app, concat_app, (bt_buffer _ _ _ _ Hb). cbn [map concat]. by rewrite app_nil_r.
  - apply map_ext_in. intros j Hj. apply list_elem_of_In, list_elem_of_lookup in Hj as [k Hk].
    symmetry. apply entry_off_snoc. by apply (Hle k).
  - rewrite length_app. cbn [length]. rewrite Nat.add_1_r. cbn [prev_key].
    by rewrite lookup_app_r, Nat.sub_diag by lia.
  - done.
  - rewrite length_app. cbn [length]. lia.
  - pose proof (bt_first _ _ _ _ Hb) as H0. destruct Hjs as [-> | (-> & _)]; [done|]. by apply lookup_app_l_Some.
  - intros k j j' H1 H2. destruct (Hjs' _ _ H1) as [H1'|(-> & -> & _)].
    + destruct (Hjs' _ _ H2) as [H2'|(Ek & -> & _)]; [by apply (bt_inc _ _ _ _ Hb k)|].
      destruct Hjs as [-> | (-> & _ & Hpos)]; [apply lookup_lt_Some in H2; lia|].
      destruct (bt_entry _ _ _ _ Hb k j H1'); lia.
    + apply lookup_lt_Some in H2. destruct Hjs as [-> | (-> & _)]; [lia|]. rewrite length_app in H2. cbn [length] in H2. lia.
  - intros k j Hk. rewrite length_app. cbn [length]. specialize (Hle k j Hk). lia.
  - intros k j x Hk Hx. apply lookup_snoc in Hx as [Hx|[-> ->]].
    + destruct (Hjs' k j Hk) as [H|(_ & -> & _)]; [by apply (bt_whole _ _ _ _ Hb k j)|].
      apply lookup_lt_Some in Hx. lia.
    + destruct (Hjs' k _ Hk) as [H|(_ & _ & ->)]; [|done].
      destruct (bt_entry _ _ _ _ Hb k _ H) as [|E0]; [lia|].
      cbn [e be_shared]. rewrite E0 in Hsh1. cbn in Hsh1. lia.
  - intros i x Hx. apply lookup_snoc in Hx as [Hx|[-> ->]].
    + apply lookup_lt_Some in Hx as Hi. rewrite prev_key_snoc by lia. by apply (bt_chain _ _ _ _ Hb).
    + rewrite prev_key_snoc by lia. done.
  - intros x Hx. apply in_app_or in Hx as [Hx|[<-|[]]]; [by apply (bt_shared _ _ _ _ Hb) | done].
Qed.

Lemma Add_built b kvs es js key value :
  built b kvs es js -> size key < 2 ^ 32 -> size value < 2 ^ 32 -> size (bb_buffer b) < 2 ^ 32 ->
  exists es' js', built (Add b key value) (kvs ++ [(key, value)]) es' js'.
Proof.
  intros Hb Hk Hv Hsz. pose proof (bt_counter _ _ _ _ Hb) as Hc. pose proof (bt_last _ _ _ _ Hb) as El.
  destruct (Z.lt_ge_cases (bb_counter b) interval) as [Hlt|Hge].
  - pose proof (shared_loop_spec (bb_last_key b) key) as (Hs1 & Hs2 & Hs3).
    rewrite El in Hs1, Hs2, Hs3. eexists _, js.
    erewrite Add_eq; [| rewrite (proj2 (Z.ltb_lt _ _)) by lia; reflexivity | by rewrite El | done | done | by rewrite El].
    rewrite El, (bt_restarts _ _ _ _ Hb), (sx_small 32) by lia. apply (built_snoc b kvs es js); try done; [by left | lia].
  - exists (es ++ [mk_be 0 key value]), (js ++ [length es]).
    erewrite Add_eq; [| rewrite (proj2 (Z.ltb_ge _ _)) by lia; reflexivity | lia | done | done | done].
    pose proof (size_nonneg (bb_buffer b)). pose proof (bt_started _ _ _ _ Hb ltac:(lia)).
    assert (bb_restarts b ++ [u32 (size (bb_buffer b))] = map (entry_off es) (js ++ [length es])) as ->.
    { rewrite map_app, (bt_restarts _ _ _ _ Hb). cbn [map]. rewrite u32_small by lia.
      rewrite (bt_buffer _ _ _ _ Hb). by rewrite <- (off_body es). }
    rewrite (sx_small 32) by lia. apply (built_snoc b kvs es js); try done; [lia | lia | by right | lia].
Qed.

Lemma Add_grows b key value : exists suf, bb_buffer (Add b key value) = bb_buffer b ++ suf.
Proof.
  unfold bb_Add, PutVarint32. destruct (if bb_counter b <? interval then _ else _) as [[shared restarts] counter].
  cbn [bb_buffer]. rewrite <- !app_assoc. eauto.
Qed.

(** Adds the entries in order. *)
Definition add_entries (kvs : list (list byte * list byte)) (b : BlockBuilder) : BlockBuilder :=
  fold_left (fun b kv => Add b (fst kv) (snd kv)) kvs b.

Lemma add_entries_grows kvs b : size (bb_buffer b) <= size (bb_buffer (add_entries kvs b)).
Proof.
  revert b; induction kvs as [|[k v] kvs IH]; intros b; [done|]. cbn [add_entries fold_left fst snd].
  destruct (Add_grows b k v) as [suf E]. specialize (IH (Add b k v)). rewrite E, size_app in IH.
  pose proof (size_nonneg suf). unfold add_entries in IH. lia.
Qed.

Definition kv_fits (kv : list byte * list byte) : Prop := size (fst kv) < 2 ^ 32 /\ size (snd kv) < 2 ^ 32.

Lemma add_entries_built kvs b pre es js :
  built b pre es js -> Forall kv_fits kvs -> size (bb_buffer (add_entries kvs b)) < 2 ^ 32 ->
  exists es' js', built (add_entries kvs b) (pre ++ kvs) es' js'.
Proof.
  revert b pre es js; induction kvs as [|[k v] kvs IH]; intros b pre es js Hb Hk Hs.
  { rewrite app_nil_r. eauto. }
  apply List.Forall_cons_iff in Hk as [[Hk Hv] Hkvs]. cbn [fst snd] in *.
  pose proof (add_entries_grows ((k, v) :: kvs) b).
  destruct (Add_built b pre es js k v Hb Hk Hv ltac:(lia)) as (es1 & js1 & Hb1).
  destruct (IH _ _ _ _ Hb1 Hkvs Hs) as (es2 & js2 & Hb2). exists es2, js2.
  rewrite <- app_assoc in Hb2. exact Hb2.
Qed.

Lemma fold_PutFixed32_eq l buf : fold_left PutFixed32 l buf = buf ++ concat (map EncodeFixed32 l).
Proof.
  revert buf; induction l as [|x l IH]; intros buf; cbn [fold_left map concat]; [by rewrite app_nil_r|].
  rewrite IH. unfold PutFixed32. by rewrite <- app_assoc.
Qed.

(** A finished block is well formed, and opens. *)
Lemma Finish_layout kvs :
  Forall kv_fits kvs ->
  let data := fst (bb_Finish (add_entries kvs new_BlockBuilder)) in
  size data < 2 ^ 32 ->
  exists es js, map (fun e => (be_key e, be_value e)) es = kvs /\ layout data es js /\
    blk_NewIterator (new_Block data)
    = BlockIter (new_Iter data (entry_off es (length es)) (Z.of_nat (length js))).
Proof.
  intros Hk data Hsz. set (b := add_entries kvs new_BlockBuilder) in *.
  assert (data = bb_buffer b ++ concat (map EncodeFixed32 (bb_restarts b)) ++
    EncodeFixed32 (u32 (Z.of_nat (length (bb_restarts b))))) as Ed.
  { unfold data, bb_Finish. cbn [fst]. rewrite fold_PutFixed32_eq. unfold PutFixed32. by rewrite <- app_assoc. }
  rewrite Ed, !size_app in Hsz.
  pose proof (size_nonneg (concat (map EncodeFixed32 (bb_restarts b)))).
  pose proof (size_nonneg (EncodeFixed32 (u32 (Z.of_nat (length (bb_restarts b)))))).
  destruct (add_entries_built kvs new_BlockBuilder [] [] [0%nat] new_built Hk) as (es & js & Hb); [fold b; lia|].
  fold b in Hb. cbn [app] in Hb. exists es, js. rewrite (bt_buffer _ _ _ _ Hb), (bt_restarts _ _ _ _ Hb), map_map in *.
  rewrite length_map in *. rewrite <- !size_app in Hsz.
  assert (layout data es js) as Hl.
  { split; try apply Hb.
    - by eexists.
    - by rewrite Ed.
    - intros i e Hi. apply list_elem_of_lookup_2, list_elem_of_In in Hi.
      split; [by apply (bt_shared _ _ _ _ Hb)|]. rewrite List.Forall_forall in Hk.
      apply (Hk (be_key e, be_value e)). rewrite <- (bt_kvs _ _ _ _ Hb). by apply (in_map (fun e => (be_key e, be_value e))). }
  split; [apply Hb|]. split; [done|].
  pose proof (data_size _ es js Hl) as Hds. pose proof (off_nonneg es (length es)) as Hn.
  pose proof (js_nonempty _ es js Hl) as Hjs.
  assert (size data = entry_off es (length es) + 4 * Z.of_nat (length js) + 4) as Esz.
  { rewrite Ed, !size_app, <- (off_body es). rewrite size_fixed32s. unfold size. rewrite length_EncodeFixed32. lia. }
  unfold blk_NewIterator, new_Block.
  assert (NumRestarts data (size data) = Z.of_nat (length js)) as En.
  { assert (size (concat (map entry_seg es) ++ concat (map (fun j => EncodeFixed32 (entry_off es j)) js)) =
      size data - 4) as Hl4 by (rewrite size_app, <- (off_body es), size_fixed32s; lia).
    unfold NumRestarts. rewrite Ed at 2. rewrite app_assoc, drop_app_length' by (rewrite <- Hl4; unfold size; apply Nat2Z.id).
    pose proof (DecodeFixed32_app (u32 (Z.of_nat (length js))) []) as Hd. rewrite app_nil_r in Hd.
    rewrite Hd, !u32_small by (rewrite ?u32_small; lia). done. }
  rewrite En, (proj2 (Z.ltb_ge (size data) 4)) by lia.
  rewrite Z.gtb_ltb, (proj2 (Z.ltb_ge ((size data - 4) / 4) _)) by (apply Z.div_le_lower_bound; lia).
  cbn [blk_size blk_data blk_restart_offset]. rewrite (proj2 (Z.ltb_ge _ _)) by lia. rewrite En.
  destruct (Z.eqb_spec (Z.of_nat (length js)) 0); [lia|].
  rewrite (u32_small (1 + _)), u32_small by lia. do 2 f_equal. lia.
Qed.
End Builder.


(** * The iterator is the ordered list of the entries *)

Section Cursor.
Context {c : Comparator} {valid : list byte -> Prop} {laws : ComparatorLaws valid c}.

Definition be_kv (e : blk_entry) : list byte * list byte := (be_key e, be_value e).

Lemma lookup_kv es i e : es !! i = Some e -> map be_kv es !! i = Some (be_kv e).
Proof. intros H. rewrite list_lookup_fmap. by rewrite H. Qed.

Lemma lookup_kv_inv es i kv : map be_kv es !! i = Some kv -> exists e, es !! i = Some e /\ be_kv e = kv.
Proof. rewrite list_lookup_fmap. destruct (es !! i) as [e|]; [|done]. intros [= <-]. eauto. Qed.

Lemma sorted_lookup (kvs : list (list byte * list byte)) i j a b :
  StronglySorted (fun a b => @Compare c (fst a) (fst b) < 0) kvs ->
  kvs !! i = Some a -> kvs !! j = Some b -> (i < j)%nat -> @Compare c (fst a) (fst b) < 0.
Proof.
  revert i j; induction kvs as [|x kvs IH]; intros i j Hs Ha Hb Hij; [done|].
  apply StronglySorted_inv in Hs as [Hs Hall]. destruct j as [|j]; [lia|]. destruct i as [|i]; cbn in Ha, Hb.
  - injection Ha as ->. rewrite List.Forall_forall in Hall. apply Hall.
    by apply list_elem_of_In, (list_elem_of_lookup_2 _ j).
  - apply (IH i j); [done..|lia].
Qed.

(** The entry where a search stops is the lower bound. *)
Lemma seek_lower_bound es target m :
  Forall (fun kv => valid (fst kv)) (map be_kv es) -> valid target ->
  StronglySorted (fun a b => @Compare c (fst a) (fst b) < 0) (map be_kv es) ->
  (m <= length es)%nat ->
  (forall i e, (i < m)%nat -> es !! i = Some e -> before (c := c) target e) ->
  (forall e, es !! m = Some e -> ~ before (c := c) target e) -> lower_bound target (map be_kv es) m.
Proof.
  intros Hval Hv Hsort Hm H1 H2. split; [by rewrite length_map|]. intros j kv Hj.
  apply lookup_kv_inv in Hj as (e & He & <-). cbn [be_kv fst].
  split; [|intros Hlt; by apply (H1 j e)]. intros Hc. destruct (Nat.lt_ge_cases j m) as [|Hge]; [done|].
  exfalso. assert (j < length es)%nat by by apply lookup_lt_Some in He.
  destruct (lookup_lt_is_Some_2 es m ltac:(lia)) as [em Hem]. apply (H2 em Hem). unfold before.
  destruct (Nat.eq_dec j m) as [->|]; [by assert (em = e) as -> by congruence|].
  pose proof (sorted_lookup _ m j _ _ Hsort (lookup_kv es m em Hem) (lookup_kv es j e He) ltac:(lia)) as Hl.
  cbn [be_kv fst] in Hl.
  assert (forall i e, es !! i = Some e -> valid (be_key e)) as Hke.
  { intros i e' He'. apply lookup_kv, list_elem_of_lookup_2 in He'.
    exact (proj1 (list.Forall_forall _ _) Hval _ He'). }
  apply (cmp_trans_lt (be_key em) (be_key e) target); eauto; lia.
Qed.

(** The contract of a built block. *)
Lemma block_cursor interval kvs :
  1 <= interval < 2 ^ 31 -> Forall kv_fits kvs -> Forall (fun kv => valid (fst kv)) kvs ->
  StronglySorted (fun a b => @Compare c (fst a) (fst b) < 0) kvs ->
  let data := fst (bb_Finish (add_entries interval kvs new_BlockBuilder)) in
  size data < 2 ^ 32 ->
  exists pos, cursor valid kvs pos /\ pos (length kvs) (blk_NewIterator (new_Block data)).
Proof.
  intros Hint Hfit Hval Hsort data Hsz.
  destruct (Finish_layout interval Hint kvs Hfit Hsz) as (es & js & Ekv & lay & Eit). fold data in lay, Eit.
  change (map (fun e => (be_key e, be_value e)) es) with (map be_kv es) in Ekv.
  assert (length es = length kvs) as El by (rewrite <- Ekv; by rewrite length_map).
  exists (fun i b => exists it, b = BlockIter it /\ at_pos data es js i it). rewrite Eit. split.
  2: { eexists. split; [reflexivity|]. unfold at_pos. rewrite lookup_ge_None_2 by lia. by repeat split. }
  assert (forall i it, at_pos data es js i it -> over data es js it /\ (i <= length es)%nat) as Hov.
  { intros i it H. split; [by apply (at_pos_over data es js i)|]. unfold at_pos in H.
    destruct (es !! i) eqn:Ei; [apply lookup_lt_Some in Ei; lia | lia]. }
  assert (forall i (op : Iter -> run Iter) it, (exists it', op it = Done it' /\ at_pos data es js i it') ->
    exists b, iter_op op (BlockIter it) = Done b /\ exists it', b = BlockIter it' /\ at_pos data es js i it') as Lift.
  { intros i op it (it' & E & H). cbn. rewrite E. eexists. split; [reflexivity|]. by exists it'. }
  split; rewrite <- ?El;
    cbn [Valid SeekToFirst SeekToLast Seek Next Prev key value status block_iterator_iterator].
  - intros i b (it & -> & H). apply (Hov i it H).
  - intros i b (it & -> & H). pose proof (Hov i it H) as [Ho Hi]. unfold bit_Valid, at_pos in *.
    rewrite (ov_restarts _ _ _ _ Ho). destruct (es !! i) as [e|] eqn:Ei.
    + rewrite (ae_current _ _ _ _ _ _ H). apply lookup_lt_Some in Ei.
      rewrite (proj2 (Nat.ltb_lt _ _)) by lia. apply Z.ltb_lt. apply off_lt. lia.
    + destruct H as [-> H]. rewrite (en_current _ _ _ _ H), Z.ltb_irrefl. by rewrite Nat.ltb_irrefl.
  - intros i b (it & -> & H). apply (ov_status data es js), (Hov i it H).
  - intros i b k v (it & -> & H) Hkv. rewrite <- Ekv in Hkv. apply lookup_kv_inv in Hkv as (e & He & [= <- <-]).
    unfold at_pos in H. rewrite He in H. split; [f_equal; apply (ae_key _ _ _ _ _ _ H)|].
    unfold bit_value. rewrite (ae_value _ _ _ _ _ _ H), (ov_data _ _ _ _ (ae_over _ _ _ _ _ _ H)).
    by apply (read_value data es js lay).
  - intros i b (it & -> & H). apply Lift, SeekToFirst_ok; [done | apply (Hov i it H)].
  - intros i b (it & -> & H). apply Lift, SeekToLast_ok; [done | apply (Hov i it H)].
  - intros i b (it & -> & H) Hi. by apply Lift, Next_ok.
  - intros i b (it & -> & H) Hi. by apply Lift, Prev_ok.
  - intros i b target (it & -> & H) Hv.
    destruct (bit_Seek_ok data es js lay (c := c) target it (proj1 (Hov i it H))) as (it' & m & E & Hat & H1 & H2).
    + intros i1 i2 e1 e2 He1 He2 Hlt Hb2. unfold before in *. apply lookup_kv in He1, He2. rewrite Ekv in He1, He2.
      pose proof (sorted_lookup kvs i1 i2 _ _ Hsort He1 He2 Hlt) as Hc. cbn in Hc.
      rewrite List.Forall_forall in Hval.
      apply (cmp_trans_lt (be_key e1) (be_key e2) target); [| | done | done | lia].
      * apply (Hval (be_kv e1)), list_elem_of_In. by apply list_elem_of_lookup_2 in He1.
      * apply (Hval (be_kv e2)), list_elem_of_In. by apply list_elem_of_lookup_2 in He2.
    + cbn [iter_op]. rewrite E. eexists _, m. split; [reflexivity|]. split; [by exists it'|].
      rewrite <- Ekv in *. apply seek_lower_bound; try done. by apply (Hov m it' Hat).
Qed.

(** C29: a block written by the builder reads back as the ordered list of the entries
    added to it: whatever the restart interval and however the keys share
    prefixes, the iterator opens, starts out of range, visits every entry with its
    key and value forwards and backwards, and [Seek] stops at the first key not
    below the target.  Nothing is read outside the block and the status stays
    OK. *)
Theorem block_iterator_correct interval kvs :
  1 <= interval < 2 ^ 31 -> Forall kv_fits kvs -> Forall (fun kv => valid (fst kv)) kvs ->
  StronglySorted (fun a b => @Compare c (fst a) (fst b) < 0) kvs ->
  let data := fst (bb_Finish (add_entries interval kvs new_BlockBuilder)) in
  size data < 2 ^ 32 ->
  exists pos, cursor valid kvs pos /\ pos (length kvs) (blk_NewIterator (new_Block data)).
Proof. intros Hint Hfit Hval Hsort. by apply block_cursor. Qed.
End Cursor.

Definition demo_kvs : list (list byte * list byte) :=
  [([x61], [x01]); ([x61; x62], [x02]); ([x61; x62; x63], [x03]); ([x62], [])].

Lemma block_iterator_correct_witness :
  exists pos, @cursor BytewiseComparator (fun _ => True) _ (@block_iterator_iterator BytewiseComparator) demo_kvs pos /\
    pos 4%nat (blk_NewIterator (new_Block (fst (bb_Finish (add_entries 2 demo_kvs new_BlockBuilder))))).
Proof.
  apply (block_iterator_correct (laws := bytewise_laws)).
  - split; [lia | reflexivity].
  - repeat constructor.
  - repeat constructor.
  - repeat constructor.
  - vm_compute. reflexivity.
Defined.

(** * The iterator over arbitrary bytes *)

Lemma DecodeEntry_bound input sh ns vl p :
  DecodeEntry input = Some (sh, ns, vl, p) ->
  0 <= sh /\ 0 <= ns /\ 0 <= vl /\ size p < size input /\ u32 (ns + vl) <= u32 (size p).
Proof.
  rewrite DecodeEntry_slow. destruct (_ <? 3); [done|].
  destruct (GetVarint32Ptr input) as [[x1 p1]|] eqn:E1; [|done]. cbn [mbind option_bind].
  destruct (GetVarint32Ptr p1) as [[x2 p2]|] eqn:E2; [|done]. cbn [mbind option_bind].
  destruct (GetVarint32Ptr p2) as [[x3 p3]|] eqn:E3; [|done]. cbn [mbind option_bind].
  destruct (Z.ltb_spec (u32 (size p3)) (u32 (x2 + x3))); [done|]. intros [= <- <- <- <-].
  apply GetVarint32Ptr_bound in E1, E2, E3. lia.
Qed.

Section Safe.
Context (data : list byte) (r n : Z).
Context (r_bound : 0 <= r) (n_pos : 0 < n) (fits : r + 4 * n <= size data) (small : size data < 2 ^ 32).

(** No entry makes the sum of its lengths wrap around. *)
Context (nowrap : forall off sh ns vl p,
  DecodeEntry (drop off (take (Z.to_nat r) data)) = Some (sh, ns, vl, p) -> ns + vl < 2 ^ 32).

Record on_block (it : Iter) : Prop := {
  ob_data : it_data it = data;
  ob_restarts : it_restarts it = r;
  ob_num : it_num_restarts it = n;
}.

(** Where the next entry is looked for. *)
Record parsable (it : Iter) (next : Z) : Prop := {
  pa_on : on_block it;
  pa_value : exists o l, it_value it = Some (o, l) /\ o + l = next;
  pa_next : 0 <= next < 2 ^ 32;
  pa_index : 0 <= it_restart_index it < n;
}.

(** Out of range, or at an entry that lies in the block. *)
Definition in_block (it : Iter) : Prop :=
  on_block it /\
  (it_current it < r -> 0 <= it_current it /\ exists next, parsable it next /\ it_current it < next <= r /\
     exists v, bit_value it = Done v).

Lemma restart_read it k : on_block it -> 0 <= k < n -> exists o, GetRestartPoint it k = Done o /\ 0 <= o < 2 ^ 32.
Proof.
  intros [Hd Hr Hn] Hk. unfold GetRestartPoint, read_at. rewrite Hd, Hr.
  rewrite !(proj2 (Z.leb_le _ _)) by lia. cbn [andb mbind run_mbind run_bind].
  eexists. split; [reflexivity|]. apply DecodeFixed32_bound.
Qed.

Lemma restart_index_safe fuel it :
  on_block it -> 0 <= it_restart_index it < n -> (Z.to_nat (n - it_restart_index it) <= fuel)%nat ->
  exists k, restart_index_loop fuel it = Done (set_pos it (it_current it) k) /\ 0 <= k < n.
Proof.
  revert it; induction fuel as [|fuel IH]; intros it Hon Hk Hf; [lia|].
  cbn [restart_index_loop]. rewrite u32_small, (ob_num it Hon) by lia.
  destruct (Z.ltb_spec (it_restart_index it + 1) n) as [Hlt|Hge].
  - destruct (restart_read it (it_restart_index it + 1) Hon ltac:(lia)) as (o & -> & _).
    cbn [mbind run_mbind run_bind]. destruct (o <? it_current it).
    + destruct (IH (set_pos it (it_current it) (it_restart_index it + 1))) as (k & E & Hk').
      * by destruct Hon.
      * cbn. lia.
      * cbn. lia.
      * exists k. split; [exact E | done].
    + exists (it_restart_index it). split; [by destruct it | lia].
  - exists (it_restart_index it). split; [by destruct it | lia].
Qed.

Lemma view_size it off : on_block it -> 0 <= off <= r -> size (entry_view it off) = r - off.
Proof.
  intros [Hd Hr _] Ho. unfold entry_view. rewrite Hd, Hr, size_drop_Z, size_take by lia. lia.
Qed.

(** Every entry that decodes lies in the block. *)
Lemma decode_in it off sh ns vl p :
  on_block it -> 0 <= off <= r -> DecodeEntry (entry_view it off) = Some (sh, ns, vl, p) ->
  0 <= sh /\ 0 <= ns /\ 0 <= vl /\ off < r - size p /\ r - size p + ns + vl <= r.
Proof.
  intros Hon Ho E. pose proof (DecodeEntry_bound _ _ _ _ _ E) as (H1 & H2 & H3 & H4 & H5).
  rewrite view_size in H4 by done. unfold entry_view in E. rewrite (ob_data it Hon), (ob_restarts it Hon) in E.
  pose proof (nowrap _ _ _ _ _ E). pose proof (size_nonneg p). rewrite !u32_small in H5 by lia. lia.
Qed.

Lemma read_at_in a l : 0 <= a -> 0 <= l -> a + l <= size data -> exists bs, read_at data a l = Done bs.
Proof. intros. unfold read_at. rewrite !(proj2 (Z.leb_le _ _)) by lia. cbn [andb]. eauto. Qed.

Lemma out_of_range it : on_block it -> r <= it_current it -> in_block it.
Proof. intros Hon Hc. split; [done|]. lia. Qed.

Lemma parse_safe it next : parsable it next ->
  exists b it', ParseNextKey it = Done (b, it') /\ in_block it' /\ (b = true -> it_current it' = next /\ next < r).
Proof.
  intros [Hon (o & l & Hv & E) Hnx Hk]. unfold ParseNextKey, NextEntryOffset. rewrite Hv, E, u32_small by lia.
  cbn [mbind run_mbind run_bind]. set (it1 := set_pos it next _). assert (on_block it1) as Hon1 by (by destruct Hon).
  rewrite (ob_restarts it1 Hon1). destruct (Z.leb_spec r next) as [Hle|Hlt].
  { eexists _, _. split; [reflexivity|]. split; [|done]. apply out_of_range; [by destruct Hon | done]. }
  assert (in_block (CorruptionError it1)) as Hcorr.
  { apply out_of_range; [by destruct Hon1 | cbn; by rewrite (ob_restarts it Hon)]. }
  destruct (DecodeEntry (entry_view it1 next)) as [[[[sh ns] vl] p]|] eqn:Ed.
  2: { eexists _, _. split; [reflexivity|]. by split. }
  destruct (_ <? sh). { eexists _, _. split; [reflexivity|]. by split. }
  apply decode_in in Ed as (H1 & H2 & H3 & H4 & H5); [|done | lia].
  rewrite (ob_data it1 Hon1). destruct (read_at_in (r - size p) ns) as [delta ->]; [lia.. |].
  cbn [mbind run_mbind run_bind]. match goal with |- context [restart_index_loop _ ?x] => set (it2 := x) end.
  assert (on_block it2) as Hon2 by (by destruct Hon).
  destruct (restart_index_safe (S (Z.to_nat (it_num_restarts it2))) it2 Hon2) as (k & -> & Hk2).
  { exact Hk. }
  { rewrite (ob_num it2 Hon2). change (it_restart_index it2) with (it_restart_index it). lia. }
  cbn [mbind run_mbind run_bind]. eexists _, _. split; [reflexivity|]. split; [|done].
  split; [by destruct Hon|]. intros _. split; [cbn; lia|]. exists (r - size p + ns + vl).
  split; [split; [by destruct Hon | | lia | done]|].
  - eexists _, _. split; [reflexivity | lia].
  - split; [cbn; lia|]. unfold bit_value. cbn [it_value set_pos it2 set_entry it_data it1].
    rewrite (ob_data it Hon). apply read_at_in; lia.
Qed.

Lemma parse_until_safe fuel limit it next : parsable it next -> (Z.to_nat (r - next) < fuel)%nat ->
  exists it', parse_until fuel limit it = Done it' /\ in_block it'.
Proof.
  revert it next; induction fuel as [|fuel IH]; intros it next Hp Hf; [lia|].
  cbn [parse_until]. destruct (parse_safe it next Hp) as (b & it1 & -> & Hin & Hb).
  cbn [mbind run_mbind run_bind]. destruct b; [|by exists it1]. specialize (Hb eq_refl).
  destruct Hin as [Hon Hin]. destruct (Hin ltac:(lia)) as (H0 & next' & Hp' & Hn' & Hv').
  unfold NextEntryOffset. destruct (pa_value _ _ Hp') as (o & l & -> & El). rewrite El.
  rewrite u32_small by apply Hp'. cbn [mbind run_mbind run_bind].
  destruct (next' <? limit); [|exists it1; split; [done|]; split; [done|]; intros _; split; [done|]; by exists next'].
  apply (IH it1 next' Hp'). lia.
Qed.

Lemma SeekToRestartPoint_safe it k : on_block it -> 0 <= k < n ->
  exists it' next, SeekToRestartPoint it k = Done it' /\ parsable it' next.
Proof.
  intros Hon Hk. unfold SeekToRestartPoint. destruct (restart_read it k Hon Hk) as (o & -> & Ho).
  cbn [mbind run_mbind run_bind]. eexists _, o. split; [reflexivity|].
  split; [by destruct Hon | | done | done]. eexists _, _. split; [reflexivity | lia].
Qed.

Lemma prev_restart_safe fuel orig it :
  on_block it -> 0 <= it_restart_index it < n -> (Z.to_nat (it_restart_index it) < fuel)%nat ->
  exists o, prev_restart_loop fuel orig it = Done o /\
    match o with None => True | Some it' => on_block it' /\ 0 <= it_restart_index it' < n end.
Proof.
  revert it; induction fuel as [|fuel IH]; intros it Hon Hk Hf; [lia|]. cbn [prev_restart_loop].
  destruct (restart_read it _ Hon Hk) as (o & -> & _). cbn [mbind run_mbind run_bind].
  destruct (orig <=? o); [|by eexists].
  destruct (Z.eqb_spec (it_restart_index it) 0); [by eexists|]. apply IH; [by destruct Hon | cbn; lia | cbn; lia].
Qed.

Lemma fuel_enough it next : on_block it -> 0 <= next -> (Z.to_nat (r - next) < block_fuel it)%nat.
Proof. intros Hon Hn. unfold block_fuel. rewrite (ob_restarts it Hon). lia. Qed.

Lemma seek_restart_safe {c : Comparator} fuel it target left right :
  on_block it -> 0 <= left -> left <= right < n -> (Z.to_nat (right - left) < fuel)%nat ->
  exists o, seek_restart_loop (comparator := c) fuel it target left right = Done o /\
    match o with None => True | Some k => 0 <= k < n end.
Proof.
  intros Hon. revert left right; induction fuel as [|fuel IH]; intros left right Hl Hr Hf; [lia|].
  cbn [seek_restart_loop]. destruct (Z.ltb_spec left right) as [Hlt|]; [|exists (Some left); split; [done | lia]].
  rewrite u32_small by lia. set (mid := (left + right + 1) / 2).
  assert (left < mid <= right) as Hmid.
  { unfold mid. pose proof (Z.div_mod (left + right + 1) 2 ltac:(lia)).
    pose proof (Z.mod_pos_bound (left + right + 1) 2 ltac:(lia)). lia. }
  destruct (restart_read it mid Hon ltac:(lia)) as (o & -> & Ho). cbn [mbind run_mbind run_bind].
  destruct (DecodeEntry (entry_view it o)) as [[[[sh ns] vl] p]|] eqn:Ed; [|by exists None].
  destruct (negb (sh =? 0)); [by exists None|].
  assert (o <= r) as Hor.
  { destruct (Z.le_gt_cases o r) as [|Hgt]; [done|]. exfalso. apply DecodeEntry_bound in Ed as (_ & _ & _ & Ed & _).
    unfold entry_view in Ed. rewrite (ob_data it Hon), (ob_restarts it Hon), size_drop_Z, size_take in Ed by lia.
    pose proof (size_nonneg p). lia. }
  apply decode_in in Ed as (H1 & H2 & H3 & H4 & H5); [|done | lia].
  rewrite (ob_data it Hon), (ob_restarts it Hon).
  destruct (read_at_in (r - size p) ns) as [mk ->]; [lia.. |]. cbn [mbind run_mbind run_bind].
  destruct (_ <? 0); [apply IH; lia|]. rewrite u32_small by lia. apply IH; lia.
Qed.

Lemma seek_linear_safe {c : Comparator} fuel it target next :
  parsable it next -> (Z.to_nat (r - next) < fuel)%nat ->
  exists it', seek_linear_loop (comparator := c) fuel it target = Done it' /\ in_block it'.
Proof.
  revert it next; induction fuel as [|fuel IH]; intros it next Hp Hf; [lia|].
  cbn [seek_linear_loop]. destruct (parse_safe it next Hp) as (b & it1 & -> & Hin & Hb).
  cbn [mbind run_mbind run_bind]. destruct b; [|by exists it1]. specialize (Hb eq_refl). cbn [negb].
  destruct (_ >=? 0); [by exists it1|].
  destruct Hin as [Hon Hin]. destruct (Hin ltac:(lia)) as (H0 & next' & Hp' & Hn' & Hv').
  apply (IH it1 next' Hp'). lia.
Qed.

Lemma SeekToFirst_safe it : in_block it -> exists it', bit_SeekToFirst it = Done it' /\ in_block it'.
Proof.
  intros [Hon _]. unfold bit_SeekToFirst.
  destruct (SeekToRestartPoint_safe it 0 Hon ltac:(lia)) as (it1 & next & -> & Hp). cbn [mbind run_mbind run_bind].
  destruct (parse_safe it1 next Hp) as (b & it2 & -> & Hin & _). by exists it2.
Qed.

Lemma SeekToLast_safe it : in_block it -> exists it', bit_SeekToLast it = Done it' /\ in_block it'.
Proof.
  intros [Hon _]. unfold bit_SeekToLast. rewrite (ob_num it Hon), u32_small by lia.
  destruct (SeekToRestartPoint_safe it (n - 1) Hon ltac:(lia)) as (it1 & next & -> & Hp).
  cbn [mbind run_mbind run_bind]. apply (parse_until_safe _ _ it1 next Hp).
  apply fuel_enough; [apply Hp | apply (pa_next _ _ Hp)].
Qed.

Lemma Next_safe it : in_block it -> bit_Valid it = true -> exists it', bit_Next it = Done it' /\ in_block it'.
Proof.
  intros [Hon Hin] Hv. unfold bit_Valid in Hv. rewrite (ob_restarts it Hon) in Hv. apply Z.ltb_lt in Hv.
  destruct (Hin Hv) as (_ & next & Hp & _). unfold bit_Next.
  destruct (parse_safe it next Hp) as (b & it2 & -> & Hin2 & _). by exists it2.
Qed.

Lemma Prev_safe it : in_block it -> bit_Valid it = true -> exists it', bit_Prev it = Done it' /\ in_block it'.
Proof.
  intros [Hon Hin] Hv. unfold bit_Valid in Hv. rewrite (ob_restarts it Hon) in Hv. apply Z.ltb_lt in Hv.
  destruct (Hin Hv) as (_ & next & Hp & _). pose proof (pa_index _ _ Hp) as Hk. unfold bit_Prev.
  destruct (prev_restart_safe (S (Z.to_nat (it_num_restarts it))) (it_current it) it Hon Hk) as (o & E & Ho).
  { rewrite (ob_num it Hon). lia. }
  rewrite E. cbn [mbind run_mbind run_bind]. destruct o as [it1|].
  - destruct Ho as [Hon1 Hk1]. destruct (SeekToRestartPoint_safe it1 _ Hon1 Hk1) as (it2 & next2 & -> & Hp2).
    cbn [mbind run_mbind run_bind]. apply (parse_until_safe _ _ it2 next2 Hp2).
    apply fuel_enough; [apply Hp2 | apply (pa_next _ _ Hp2)].
  - eexists. split; [reflexivity|]. apply out_of_range; [by destruct Hon|]. cbn. by rewrite (ob_restarts it Hon).
Qed.

Lemma Seek_safe {c : Comparator} it target :
  in_block it -> exists it', bit_Seek (comparator := c) it target = Done it' /\ in_block it'.
Proof.
  intros [Hon _]. unfold bit_Seek. rewrite (ob_num it Hon), u32_small by lia.
  destruct (seek_restart_safe (c := c) (S (Z.to_nat n)) it target 0 (n - 1) Hon) as (o & -> & Ho); [lia.. |].
  cbn [mbind run_mbind run_bind]. destruct o as [k|].
  - destruct (SeekToRestartPoint_safe it k Hon Ho) as (it1 & next & -> & Hp). cbn [mbind run_mbind run_bind].
    apply (seek_linear_safe _ it1 target next Hp). apply fuel_enough; [apply Hp | apply (pa_next _ _ Hp)].
  - eexists. split; [reflexivity|]. apply out_of_range; [by destruct Hon|]. cbn. by rewrite (ob_restarts it Hon).
Qed.
End Safe.

(** Every operation whose precondition holds returns, and keeps [ok]. *)
Record safe_iteration {c : Comparator} (ok : Iter -> Prop) : Prop := {
  si_first it : ok it -> exists it', bit_SeekToFirst it = Done it' /\ ok it';
  si_last it : ok it -> exists it', bit_SeekToLast it = Done it' /\ ok it';
  si_seek it target : ok it -> exists it', bit_Seek (comparator := c) it target = Done it' /\ ok it';
  si_next it : ok it -> bit_Valid it = true -> exists it', bit_Next it = Done it' /\ ok it';
  si_prev it : ok it -> bit_Valid it = true -> exists it', bit_Prev it = Done it' /\ ok it';
  si_value it : ok it -> bit_Valid it = true -> exists v, bit_value it = Done v;
}.

Lemma NewIterator_inv data it0 :
  size data < 2 ^ 32 -> blk_NewIterator (new_Block data) = BlockIter it0 ->
  exists r n, it0 = new_Iter data r n /\ 0 <= r /\ 0 < n /\ r + 4 * n <= size data.
Proof.
  intros Hs. unfold blk_NewIterator, new_Block. pose proof (size_nonneg data).
  destruct (Z.ltb_spec (size data) 4) as [|H4]; [done|].
  destruct (Z.gtb_spec (NumRestarts data (size data)) ((size data - 4) / 4)) as [|Hle]; [done|].
  cbn [blk_size blk_data blk_restart_offset]. rewrite (proj2 (Z.ltb_ge _ _)) by lia.
  destruct (Z.eqb_spec (NumRestarts data (size data)) 0); [done|]. intros [= <-].
  pose proof (DecodeFixed32_bound (drop (Z.to_nat (size data - 4)) data)) as Hb.
  change (DecodeFixed32 _) with (NumRestarts data (size data)) in Hb.
  pose proof (Z.div_mod (size data - 4) 4 ltac:(lia)). pose proof (Z.mod_pos_bound (size data - 4) 4 ltac:(lia)).
  rewrite (u32_small (1 + _)), u32_small by lia. eexists _, _. split; [reflexivity|]. lia.
Qed.

(** C31: on any bytes that open as a block, damaged or hostile, every operation of
    the iterator returns without reading outside the block: it finds an entry that
    lies in the block, or goes out of range, perhaps with a corruption status,
    and this however the operations are combined.  The one condition is that no
    entry of the block makes the 32-bit sum of its key and value lengths wrap
    around. *)
Theorem block_iterator_safe {c : Comparator} data it0 :
  size data < 2 ^ 32 -> blk_NewIterator (new_Block data) = BlockIter it0 ->
  (forall off sh ns vl p,
     DecodeEntry (drop off (take (Z.to_nat (it_restarts it0)) data)) = Some (sh, ns, vl, p) ->
     ns + vl < 2 ^ 32) ->
  exists ok, safe_iteration (c := c) ok /\ ok it0.
Proof.
  intros Hs E Hw. destruct (NewIterator_inv data it0 Hs E) as (r & n & -> & Hr & Hn & Hfit).
  cbn [new_Iter it_restarts] in Hw. exists (in_block data r n). split; [split|].
  - by apply SeekToFirst_safe.
  - by apply SeekToLast_safe.
  - intros it target. by apply Seek_safe.
  - by apply Next_safe.
  - by apply Prev_safe.
  - intros it [Hon Hin] Hv. unfold bit_Valid in Hv. rewrite (ob_restarts _ _ _ it Hon) in Hv. apply Z.ltb_lt in Hv.
    destruct (Hin Hv) as (_ & next & _ & _ & H). exact H.
  - apply out_of_range; [done | cbn; lia].
Qed.

(** A block cut in the middle of its second entry. *)
Definition cut_block : list byte :=
  [x00; x01; x01; x61; x01;  x01; x05; x01; x62;  x00; x00; x00; x00;  x01; x00; x00; x00].

Lemma block_iterator_safe_witness :
  exists it0 ok, blk_NewIterator (new_Block cut_block) = BlockIter it0 /\
    safe_iteration (c := BytewiseComparator) ok /\ ok it0.
Proof.
  exists (new_Iter cut_block 9 1).
  destruct (block_iterator_safe (c := BytewiseComparator) cut_block (new_Iter cut_block 9 1)) as (ok & Hok & H0).
  - reflexivity.
  - reflexivity.
  - intros off sh ns vl p E.
    assert (match DecodeEntry (drop off (take 9 cut_block)) with
            | Some (_, ns, vl, _) => ns + vl <? 2 ^ 32 | None => true end = true) as H.
    { do 9 (destruct off as [|off]; [vm_compute; reflexivity|]).
      rewrite drop_ge; [reflexivity|]. change (length (take 9 cut_block)) with 9%nat. lia. }
    change (Z.to_nat (it_restarts (new_Iter cut_block 9 1))) with 9%nat in E.
    rewrite E in H. apply Z.ltb_lt. exact H.
  - exists ok. split; [reflexivity|]. split; [exact Hok | exact H0].
Defined.

Definition overflow_block : list byte :=
  [x00; xff; xff; xff; xff; x0f; x01;  x00; x00; x00; x00;  x01; x00; x00; x00].

(** The bounds check of an entry is not enough: with a key delta of [2 ^ 32 - 1]
    bytes and a value of one byte the sum of the lengths is 0 in 32 bits, the
    entry is taken to fit, and its key is read from beyond the block. *)
Theorem entry_overflow :
  exists it0, blk_NewIterator (new_Block overflow_block) = BlockIter it0 /\
    bit_SeekToFirst it0 = OutOfBounds.
Proof. eexists. split; [reflexivity|]. vm_compute. reflexivity. Qed.
