(* ===== verification/LdbCache.v ===== *)
(** leveldb: caches (util/cache.cc, include/leveldb/cache.h). *)

From S2P Require Import Prelude LdbCoding.
Open Scope Z_scope.

(** * The interface *)

(** The operations of include/leveldb/cache.h a table uses; [cache_Lookup] gives the
    value of the handle it returns. *)
Class Cache (C V : Type) := {
  cache_Lookup : C -> list byte -> option V * C;
  cache_Insert : C -> list byte -> V -> Z -> C;
  cache_NewId : C -> Z * C;
}.

(** A cache finds nothing but what was inserted under the key last; it may drop
    anything. *)
Class CacheLaws (C V : Type) `{Cache C V} := {
  cached : C -> list byte -> V -> Prop;
  Lookup_cached c k v : fst (cache_Lookup c k) = Some v -> cached c k v;
  Lookup_keeps c k k' v : cached (snd (cache_Lookup c k)) k' v -> cached c k' v;
  Insert_cached c k v charge k' v' : cached (cache_Insert c k v charge) k' v' -> k' = k /\ v' = v \/ cached c k' v';
  NewId_keeps c k v : cached (snd (cache_NewId c)) k v -> cached c k v;
}.


(** A cache that drops nothing, and the last id it gave. *)
Definition ListCache (V : Type) : Type := list (list byte * V) * Z.

#[export] Instance list_cache {V} : Cache (ListCache V) V := {
  cache_Lookup c k := (snd <$> find (fun e => slice_eqb (fst e) k) (fst c), c);
  cache_Insert c k v _ := ((k, v) :: fst c, snd c);
  cache_NewId c := (u64 (snd c + 1), (fst c, u64 (snd c + 1)));
}.

#[export, refine] Instance list_cache_laws {V} : CacheLaws (ListCache V) V := {
  cached c k v := (k, v) ∈ fst c;
}.
Proof.
  - intros [l n] k v. cbn. destruct (find _ l) as [[k' v']|] eqn:E; [|done]. intros [= <-].
    apply find_some in E as [Hin Hk]. cbn in Hk. apply slice_eqb_eq in Hk as ->. by apply list_elem_of_In.
  - done.
  - intros [l n] k v charge k' v'. cbn. rewrite elem_of_cons. intros [[= -> ->]|Hin]; auto.
  - done.
Defined.
