(* ===== verification/LdbLru.v ===== *)
(** leveldb: the cache of blocks and tables (util/cache.cc).

    The nodes of a shard live in a store of their own ([Heap]), with one map for each of
    their links: reading through a null or freed pointer is [OutOfBounds].  [rings] are the
    two circular lists, [chains] the lists of the hash table; [rep] is the invariant of a
    shard, with the handles that clients hold.  [call] is what a client may do, and the
    theorems are about every sequence of calls of a new cache; the hypothesis on their
    number keeps the 32-bit counts of references and entries from wrapping.

    The calls of a shard are atomic, since each holds its mutex. *)

From S2P Require Import Prelude Leb128 LdbCoding LdbStatus LdbFormat LdbIterator LdbBloom LdbCache.
Open Scope Z_scope.

Section Lru.
Context {V : Type}.

(** * Memory *)

(** The members of an LRUHandle that are not links.  The deleter is a parameter of the
    code: calls of it are recorded. *)
Record Entry := mk_entry {
  e_value : V;
  e_charge : Z;
  e_key : list byte;
  e_in_cache : bool;
  e_refs : Z;
  e_hash : Z;
}.

(** One map for each link.  The dummy heads of the lists have links only. *)
Record Heap := mk_heap {
  ents : gmap Z Entry;
  nexts : gmap Z Z;
  prevs : gmap Z Z;
  hash_nexts : gmap Z Z;
  next_addr : Z;
  deletions : list (list byte * V);
}.

Definition nullptr : Z := 0.
Definition lru_ : Z := 1.
Definition in_use_ : Z := 2.

(** Reading and writing through a pointer that is null or was freed is out of bounds. *)
Definition load {A} (m : gmap Z A) (a : Z) : run A := match m !! a with Some x => Done x | None => OutOfBounds end.
Definition store {A} (m : gmap Z A) (a : Z) (x : A) : run (gmap Z A) :=
  match m !! a with Some _ => Done (<[a := x]> m) | None => OutOfBounds end.

Definition with_ents (h : Heap) m : Heap := mk_heap m (nexts h) (prevs h) (hash_nexts h) (next_addr h) (deletions h).
Definition with_links (h : Heap) ns ps : Heap := mk_heap (ents h) ns ps (hash_nexts h) (next_addr h) (deletions h).
Definition with_hash (h : Heap) m : Heap := mk_heap (ents h) (nexts h) (prevs h) m (next_addr h) (deletions h).

Definition set_refs (e : Entry) (r : Z) : Entry := mk_entry (e_value e) (e_charge e) (e_key e) (e_in_cache e) r (e_hash e).
Definition set_in_cache (e : Entry) (b : bool) : Entry := mk_entry (e_value e) (e_charge e) (e_key e) b (e_refs e) (e_hash e).

(** [malloc] and the members that are set right after; the links are not. *)
Definition new_entry (h : Heap) (e : Entry) : Z * Heap :=
  let a := next_addr h in
  (a, mk_heap (<[a := e]> (ents h)) (<[a := nullptr]> (nexts h)) (<[a := nullptr]> (prevs h)) (<[a := nullptr]> (hash_nexts h)) (a + 1) (deletions h)).

(** The deleter, then [free]. *)
Definition delete_entry (h : Heap) (a : Z) (e : Entry) : Heap :=
  mk_heap (delete a (ents h)) (delete a (nexts h)) (delete a (prevs h)) (delete a (hash_nexts h)) (next_addr h) (deletions h ++ [(e_key e, e_value e)]).

(** * The hash table *)

Record HandleTable := mk_table { length_ : Z; elems_ : Z; list_ : list Z }.

(** A place that holds a pointer: of the array, or the [next_hash] of an entry. *)
Inductive Slot := InList (i : Z) | InNode (a : Z).

Definition read_slot (h : Heap) (t : HandleTable) (s : Slot) : run Z :=
  match s with
  | InList i => match list_ t !! Z.to_nat i with Some a => Done a | None => OutOfBounds end
  | InNode a => load (hash_nexts h) a
  end.

Definition write_slot (h : Heap) (t : HandleTable) (s : Slot) (x : Z) : run (Heap * HandleTable) :=
  match s with
  | InList i => match list_ t !! Z.to_nat i with
      | Some _ => Done (h, mk_table (length_ t) (elems_ t) (<[Z.to_nat i := x]> (list_ t)))
      | None => OutOfBounds
      end
  | InNode a => m ← store (hash_nexts h) a x; Done (with_hash h m, t)
  end.

Fixpoint FindPointer_loop (fuel : nat) (h : Heap) (t : HandleTable) (s : Slot) (key : list byte) (hash : Z) : run Slot :=
  match fuel with
  | O => OutOfFuel
  | S fuel =>
      a ← read_slot h t s;
      if a =? nullptr then Done s
      else
        e ← load (ents h) a;
        if negb (e_hash e =? hash) || negb (slice_eqb key (e_key e)) then FindPointer_loop fuel h t (InNode a) key hash else Done s
  end.

(** No entry is met twice. *)
Definition chain_fuel (h : Heap) : nat := S (base.size (ents h)).

Definition FindPointer (h : Heap) (t : HandleTable) (key : list byte) (hash : Z) : run Slot :=
  FindPointer_loop (chain_fuel h) h t (InList (Z.land hash (u32 (length_ t - 1)))) key hash.

Definition ht_Lookup (h : Heap) (t : HandleTable) (key : list byte) (hash : Z) : run Z :=
  s ← FindPointer h t key hash; read_slot h t s.

(** The entries of one list, each put first in its new list. *)
Fixpoint move_chain (fuel : nat) (h : Heap) (new_length : Z) (new_list : list Z) (a : Z) : run (Heap * list Z) :=
  match fuel with
  | O => OutOfFuel
  | S fuel =>
      if a =? nullptr then Done (h, new_list)
      else
        next ← load (hash_nexts h) a;
        e ← load (ents h) a;
        let i := Z.to_nat (Z.land (e_hash e) (u32 (new_length - 1))) in
        match new_list !! i with
        | None => OutOfBounds
        | Some first =>
            m ← store (hash_nexts h) a first;
            move_chain fuel (with_hash h m) new_length (<[i := a]> new_list) next
        end
  end.

Fixpoint move_lists (h : Heap) (new_length : Z) (new_list lists : list Z) : run (Heap * list Z) :=
  match lists with
  | [] => Done (h, new_list)
  | a :: lists =>
      '(h, new_list) ← move_chain (chain_fuel h) h new_length new_list a;
      move_lists h new_length new_list lists
  end.

Fixpoint length_loop (fuel : nat) (new_length elems : Z) : run Z :=
  match fuel with
  | O => OutOfFuel
  | S fuel => if new_length <? elems then length_loop fuel (u32 (new_length * 2)) elems else Done new_length
  end.

(** [new_length] doubles at most 30 times. *)
Definition Resize (h : Heap) (t : HandleTable) : run (Heap * HandleTable) :=
  new_length ← length_loop 32 4 (elems_ t);
  '(h, new_list) ← move_lists h new_length (replicate (Z.to_nat new_length) nullptr) (list_ t);
  Done (h, mk_table new_length (elems_ t) new_list).

Definition ht_Insert (h : Heap) (t : HandleTable) (a : Z) : run (Z * Heap * HandleTable) :=
  e ← load (ents h) a;
  ptr ← FindPointer h t (e_key e) (e_hash e);
  old ← read_slot h t ptr;
  after ← (if old =? nullptr then Done nullptr else load (hash_nexts h) old);
  m ← store (hash_nexts h) a after;
  '(h, t) ← write_slot (with_hash h m) t ptr a;
  if old =? nullptr then
    let t := mk_table (length_ t) (u32 (elems_ t + 1)) (list_ t) in
    if elems_ t >? length_ t then '(h, t) ← Resize h t; Done (old, h, t) else Done (old, h, t)
  else Done (old, h, t).

Definition ht_Remove (h : Heap) (t : HandleTable) (key : list byte) (hash : Z) : run (Z * Heap * HandleTable) :=
  ptr ← FindPointer h t key hash;
  result ← read_slot h t ptr;
  if result =? nullptr then Done (result, h, t)
  else
    after ← load (hash_nexts h) result;
    '(h, t) ← write_slot h t ptr after;
    Done (result, h, mk_table (length_ t) (u32 (elems_ t - 1)) (list_ t)).

(** * One shard *)

Record LRUCache := mk_lru { capacity_ : Z; usage_ : Z; heap : Heap; table_ : HandleTable }.

Definition with_heap (c : LRUCache) (h : Heap) : LRUCache := mk_lru (capacity_ c) (usage_ c) h (table_ c).
Definition with_usage (c : LRUCache) (n : Z) : LRUCache := mk_lru (capacity_ c) n (heap c) (table_ c).
Definition with_table (c : LRUCache) (h : Heap) (t : HandleTable) : LRUCache := mk_lru (capacity_ c) (usage_ c) h t.

Definition LRU_Remove (h : Heap) (e : Z) : run Heap :=
  n ← load (nexts h) e;
  p ← load (prevs h) e;
  ps ← store (prevs h) n p;
  p ← load ps e;
  ns ← store (nexts h) p n;
  Done (with_links h ns ps).

Definition LRU_Append (h : Heap) (lst e : Z) : run Heap :=
  ns ← store (nexts h) e lst;
  p ← load (prevs h) lst;
  ps ← store (prevs h) e p;
  ns ← store ns p e;
  n ← load ns e;
  ps ← store ps n e;
  Done (with_links h ns ps).

Definition Ref (h : Heap) (a : Z) : run Heap :=
  e ← load (ents h) a;
  h ← (if (e_refs e =? 1) && e_in_cache e then h ← LRU_Remove h a; LRU_Append h in_use_ a else Done h);
  m ← store (ents h) a (set_refs e (u32 (e_refs e + 1)));
  Done (with_ents h m).

Definition Unref (h : Heap) (a : Z) : run Heap :=
  e ← load (ents h) a;
  let e := set_refs e (u32 (e_refs e - 1)) in
  m ← store (ents h) a e;
  let h := with_ents h m in
  if e_refs e =? 0 then Done (delete_entry h a e)
  else if e_in_cache e && (e_refs e =? 1) then h ← LRU_Remove h a; LRU_Append h lru_ a
  else Done h.

(** The handle that [Lookup] returns may be null. *)
Definition lru_Lookup (c : LRUCache) (key : list byte) (hash : Z) : run (Z * LRUCache) :=
  a ← ht_Lookup (heap c) (table_ c) key hash;
  if a =? nullptr then Done (a, c) else h ← Ref (heap c) a; Done (a, with_heap c h).

Definition lru_Release (c : LRUCache) (handle : Z) : run LRUCache := h ← Unref (heap c) handle; Done (with_heap c h).

Definition FinishErase (c : LRUCache) (a : Z) : run (bool * LRUCache) :=
  if a =? nullptr then Done (false, c)
  else
    h ← LRU_Remove (heap c) a;
    e ← load (ents h) a;
    m ← store (ents h) a (set_in_cache e false);
    h ← Unref (with_ents h m) a;
    Done (true, with_usage (with_heap c h) (u64 (usage_ c - e_charge e))).

(** The oldest entry that no client uses is removed. *)
Definition evict_oldest (c : LRUCache) (old : Z) : run LRUCache :=
  e ← load (ents (heap c)) old;
  '(a, h, t) ← ht_Remove (heap c) (table_ c) (e_key e) (e_hash e);
  '(_, c) ← FinishErase (with_table c h t) a;
  Done c.

Fixpoint evict_loop (fuel : nat) (c : LRUCache) : run LRUCache :=
  match fuel with
  | O => OutOfFuel
  | S fuel =>
      if usage_ c >? capacity_ c then
        old ← load (nexts (heap c)) lru_;
        if negb (old =? lru_) then c ← evict_oldest c old; evict_loop fuel c else Done c
      else Done c
  end.

Definition lru_Insert (c : LRUCache) (key : list byte) (hash : Z) (value : V) (charge : Z) : run (Z * LRUCache) :=
  let '(e, h) := new_entry (heap c) (mk_entry value charge key (capacity_ c >? 0) (if capacity_ c >? 0 then 2 else 1) hash) in
  c ← (if capacity_ c >? 0 then
         h ← LRU_Append h in_use_ e;
         let c := with_usage (with_heap c h) (u64 (usage_ c + charge)) in
         '(old, h, t) ← ht_Insert (heap c) (table_ c) e;
         '(_, c) ← FinishErase (with_table c h t) old;
         Done c
       else Done (with_heap c h));
  c ← evict_loop (chain_fuel (heap c)) c;
  Done (e, c).

Definition lru_Erase (c : LRUCache) (key : list byte) (hash : Z) : run LRUCache :=
  '(a, h, t) ← ht_Remove (heap c) (table_ c) key hash;
  '(_, c) ← FinishErase (with_table c h t) a;
  Done c.

Fixpoint prune_loop (fuel : nat) (c : LRUCache) : run LRUCache :=
  match fuel with
  | O => OutOfFuel
  | S fuel =>
      e ← load (nexts (heap c)) lru_;
      if negb (e =? lru_) then c ← evict_oldest c e; prune_loop fuel c else Done c
  end.

Definition lru_Prune (c : LRUCache) : run LRUCache := prune_loop (chain_fuel (heap c)) c.

Definition lru_TotalCharge (c : LRUCache) : Z := usage_ c.

Definition lru_Value (c : LRUCache) (handle : Z) : run V := e ← load (ents (heap c)) handle; Done (e_value e).

(** The empty table is resized to four lists. *)
Definition new_HandleTable : HandleTable := mk_table 4 0 (replicate 4 nullptr).

Definition empty_heap : Heap := mk_heap ∅ {[lru_ := lru_; in_use_ := in_use_]} {[lru_ := lru_; in_use_ := in_use_]} ∅ 3 [].

(** With [SetCapacity]. *)
Definition new_LRUCache (capacity : Z) : LRUCache := mk_lru capacity 0 empty_heap new_HandleTable.

(** The destructor frees the entries that no client uses. *)
Fixpoint destroy_loop (fuel : nat) (c : LRUCache) (a : Z) : run LRUCache :=
  match fuel with
  | O => OutOfFuel
  | S fuel =>
      if a =? lru_ then Done c
      else
        next ← load (nexts (heap c)) a;
        e ← load (ents (heap c)) a;
        m ← store (ents (heap c)) a (set_in_cache e false);
        h ← Unref (with_ents (heap c) m) a;
        destroy_loop fuel (with_heap c h) next
  end.

Definition destroy_LRUCache (c : LRUCache) : run LRUCache :=
  a ← load (nexts (heap c)) lru_; destroy_loop (chain_fuel (heap c)) c a.

(** * The shards *)

Definition kNumShardBits : Z := 4.
Definition kNumShards : Z := Z.shiftl 1 kNumShardBits.

Definition HashSlice (s : list byte) : Z := Hash s 0.
Definition Shard (hash : Z) : Z := Z.shiftr hash (32 - kNumShardBits).

Record ShardedLRUCache := mk_sharded { shard_ : list LRUCache; last_id_ : Z }.

(** The shards have memory of their own: a handle says in which it lies. *)
Definition Handle : Type := Z * Z.

Definition new_ShardedLRUCache (capacity : Z) : ShardedLRUCache :=
  mk_sharded (replicate (Z.to_nat kNumShards) (new_LRUCache (u64 (capacity + (kNumShards - 1)) / kNumShards))) 0.

Definition get_shard (c : ShardedLRUCache) (i : Z) : run LRUCache :=
  match shard_ c !! Z.to_nat i with Some s => Done s | None => OutOfBounds end.
Definition set_shard (c : ShardedLRUCache) (i : Z) (s : LRUCache) : ShardedLRUCache := mk_sharded (<[Z.to_nat i := s]> (shard_ c)) (last_id_ c).

Definition Insert (c : ShardedLRUCache) (key : list byte) (value : V) (charge : Z) : run (Handle * ShardedLRUCache) :=
  let hash := HashSlice key in
  s ← get_shard c (Shard hash);
  '(a, s) ← lru_Insert s key hash value charge;
  Done ((Shard hash, a), set_shard c (Shard hash) s).

Definition Lookup (c : ShardedLRUCache) (key : list byte) : run (Handle * ShardedLRUCache) :=
  let hash := HashSlice key in
  s ← get_shard c (Shard hash);
  '(a, s) ← lru_Lookup s key hash;
  Done ((Shard hash, a), set_shard c (Shard hash) s).

(** The shard is that of the hash of the entry. *)
Definition Release (c : ShardedLRUCache) (handle : Handle) : run ShardedLRUCache :=
  s ← get_shard c (fst handle);
  e ← load (ents (heap s)) (snd handle);
  s ← get_shard c (Shard (e_hash e));
  s ← lru_Release s (snd handle);
  Done (set_shard c (Shard (e_hash e)) s).

Definition Erase (c : ShardedLRUCache) (key : list byte) : run ShardedLRUCache :=
  let hash := HashSlice key in
  s ← get_shard c (Shard hash);
  s ← lru_Erase s key hash;
  Done (set_shard c (Shard hash) s).

Definition Value (c : ShardedLRUCache) (handle : Handle) : run V :=
  s ← get_shard c (fst handle); lru_Value s (snd handle).

Definition NewId (c : ShardedLRUCache) : Z * ShardedLRUCache :=
  let id := u64 (last_id_ c + 1) in (id, mk_sharded (shard_ c) id).

Fixpoint prune_shards (shards : list LRUCache) : run (list LRUCache) :=
  match shards with
  | [] => Done []
  | s :: shards => s ← lru_Prune s; shards ← prune_shards shards; Done (s :: shards)
  end.

Definition Prune (c : ShardedLRUCache) : run ShardedLRUCache :=
  shards ← prune_shards (shard_ c); Done (mk_sharded shards (last_id_ c)).

Definition TotalCharge (c : ShardedLRUCache) : Z := fold_left (fun total s => u64 (total + lru_TotalCharge s)) (shard_ c) 0.

Definition NewLRUCache (capacity : Z) : ShardedLRUCache := new_ShardedLRUCache capacity.
End Lru.
Arguments Entry V : clear implicits.
Arguments Heap V : clear implicits.
Arguments LRUCache V : clear implicits.
Arguments ShardedLRUCache V : clear implicits.

(** * Rings *)

Section Rings.
Implicit Types (N P M : gmap Z Z) (l b : list Z) (a x y z hd : Z).

(** From [x] through [l] to [y], both ways. *)
Fixpoint seg N P x l y : Prop :=
  match l with
  | [] => N !! x = Some y /\ P !! y = Some x
  | z :: l => N !! x = Some z /\ P !! z = Some x /\ seg N P z l y
  end.

Definition ring N P hd l : Prop := seg N P hd l hd /\ NoDup (hd :: l).

Lemma seg_app N P x l1 z l2 y : seg N P x (l1 ++ z :: l2) y <-> seg N P x l1 z /\ seg N P z l2 y.
Proof.
  revert x. induction l1 as [|w l1 IH]; intros x; cbn [app seg]; [tauto|]. rewrite IH. tauto.
Qed.

Lemma seg_frame N P N' P' x l y : (forall a, a ∈ x :: l -> N' !! a = N !! a) -> (forall a, a ∈ l ++ [y] -> P' !! a = P !! a) ->
  seg N P x l y -> seg N' P' x l y.
Proof.
  revert x. induction l as [|z l IH]; intros x HN HP; cbn [seg app] in *.
  - rewrite (HN x), (HP y) by left. done.
  - rewrite (HN x), (HP z) by left. intros (H1 & H2 & H3). split; [done|]. split; [done|].
    apply IH; [intros a Ha; apply HN; by right|intros a Ha; apply HP; by right|done].
Qed.

Definition last_of x l : Z := default x (list.last l).
Definition first_of l y : Z := default y (head l).

Lemma last_of_cons x z l : last_of x (z :: l) = last_of z l.
Proof. unfold last_of. by rewrite last_cons; destruct (list.last l). Qed.

Lemma last_of_in x l : last_of x l ∈ x :: l.
Proof.
  revert x. induction l as [|z l IH]; intros x; [left|]. rewrite last_of_cons. right. apply IH.
Qed.

Lemma seg_ends N P x l y : seg N P x l y ->
  (N !! last_of x l = Some y /\ P !! y = Some (last_of x l)) /\ (N !! x = Some (first_of l y) /\ P !! first_of l y = Some x).
Proof.
  revert x. induction l as [|z l IH]; intros x; cbn [seg]; [done|]. intros (H1 & H2 & H3). rewrite last_of_cons. split; [|done]. by apply IH.
Qed.

(** Another end. *)
Lemma seg_join N P x l z y : NoDup (x :: l) -> y ∉ l -> seg N P x l z -> seg (<[last_of x l := y]> N) (<[y := last_of x l]> P) x l y.
Proof.
  revert x. induction l as [|w l IH]; intros x Hnd Hy; cbn [seg].
  - intros _. change (last_of x []) with x. by rewrite !lookup_insert_eq.
  - rewrite last_of_cons. intros (H1 & H2 & H3). apply list.NoDup_cons in Hnd as [Hx Hnd]. rewrite elem_of_cons in Hx.
    assert (last_of w l <> x) as Hne by (intros <-; apply Hx; pose proof (last_of_in w l) as Hl; by apply elem_of_cons in Hl).
    rewrite elem_of_cons in Hy. split; [by rewrite lookup_insert_ne|]. split; [rewrite lookup_insert_ne; [done|tauto]|]. apply IH; tauto.
Qed.

Lemma ring_remove N P hd l1 z l2 : ring N P hd (l1 ++ z :: l2) ->
  N !! z = Some (first_of l2 hd) /\ P !! z = Some (last_of hd l1) /\
  is_Some (N !! last_of hd l1) /\ is_Some (P !! first_of l2 hd) /\
  ring (<[last_of hd l1 := first_of l2 hd]> N) (<[first_of l2 hd := last_of hd l1]> P) hd (l1 ++ l2).
Proof.
  intros [Hs Hnd]. apply seg_app in Hs as [H1 H2]. destruct (seg_ends _ _ _ _ _ H1) as ([E1 E2] & _), (seg_ends _ _ _ _ _ H2) as (_ & E3 & E4).
  split; [done|]. split; [done|]. split; [by eexists|]. split; [by eexists|].
  assert (NoDup (hd :: l1 ++ l2)) as Hnd'.
  { apply list.NoDup_cons in Hnd as [Hh Hnd]. rewrite <- Permutation_middle in Hnd. apply list.NoDup_cons in Hnd as [_ Hnd].
    apply list.NoDup_cons. split; [|done]. rewrite elem_of_app in *. rewrite elem_of_cons in Hh. tauto. }
  split; [|done]. change (hd :: l1 ++ l2) with ((hd :: l1) ++ l2) in Hnd'. apply list.NoDup_app in Hnd' as (Hn1 & Hd & Hn2).
  destruct l2 as [|w l2].
  - change (first_of [] hd) with hd. rewrite app_nil_r. apply (seg_join _ _ _ _ z); [done| |done]. by apply list.NoDup_cons in Hn1 as [? _].
  - assert (w ∉ hd :: l1) as Hw by (intros Hw; apply (Hd w Hw); left). apply list.NoDup_cons in Hn2 as [Hw2 Hn2]. change (first_of (w :: l2) hd) with w.
    apply seg_app. split; [apply (seg_join _ _ _ _ z); [done| |done]; intros Hin; apply Hw; by right|].
    destruct H2 as (_ & _ & H2). revert H2. apply seg_frame.
    + intros a Ha. apply lookup_insert_ne. intros <-. apply (Hd (last_of hd l1) (last_of_in _ _) Ha).
    + intros a Ha. apply lookup_insert_ne. intros <-. apply elem_of_app in Ha as [Ha|Ha]; [done|].
      apply list_elem_of_singleton in Ha as ->. apply Hw. left.
Qed.

Lemma ring_append N P hd l e : ring N P hd l -> e ∉ hd :: l ->
  P !! hd = Some (last_of hd l) /\ is_Some (N !! last_of hd l) /\
  ring (<[last_of hd l := e]> (<[e := hd]> N)) (<[hd := e]> (<[e := last_of hd l]> P)) hd (l ++ [e]).
Proof.
  intros [Hs Hnd] He. destruct (seg_ends _ _ _ _ _ Hs) as ([E1 E2] & _). split; [done|]. split; [by eexists|]. split.
  - apply seg_app. pose proof (last_of_in hd l) as Hl. assert (last_of hd l <> e) as Hne by (intros E; by rewrite E in Hl). cbn [seg]. split.
    + assert (e ∉ l) as Hel by (intros Hin; apply He; by right). apply (seg_join N P hd l hd e Hnd Hel) in Hs. revert Hs. apply list.NoDup_cons in Hnd as [Hh Hnd]. apply seg_frame.
      * intros a Ha. destruct (decide (a = last_of hd l)) as [-> |Hna]; [by rewrite !lookup_insert_eq|]. rewrite !(lookup_insert_ne _ (last_of hd l)) by done.
        apply lookup_insert_ne. intros ->. done.
      * intros a Ha. apply lookup_insert_ne. intros <-. apply elem_of_app in Ha as [Ha|Ha]; [done|]. apply list_elem_of_singleton in Ha. apply He. rewrite Ha. left.
    + rewrite lookup_insert_ne by done. by rewrite !lookup_insert_eq.
  - change (hd :: l ++ [e]) with ((hd :: l) ++ [e]). apply list.NoDup_app. split; [done|]. split; [|apply NoDup_singleton].
    intros a Ha ->%list_elem_of_singleton. done.
Qed.

(** A ring that shares no node. *)
Lemma ring_frame N P N' P' hd l : (forall a, a ∈ hd :: l -> N' !! a = N !! a /\ P' !! a = P !! a) -> ring N P hd l -> ring N' P' hd l.
Proof.
  intros Hf [Hs Hnd]. split; [|done]. revert Hs. apply seg_frame; intros a Ha; [by apply Hf|].
  apply elem_of_app in Ha as [Ha|Ha]; [by apply Hf; right|]. apply list_elem_of_singleton in Ha as ->. apply Hf. left.
Qed.

(** * Chains *)

Fixpoint chain M a l : Prop :=
  match l with
  | [] => a = nullptr
  | x :: l => a = x /\ x <> nullptr /\ exists n, M !! x = Some n /\ chain M n l
  end.

Lemma chain_frame M M' a l : (forall x, x ∈ l -> M' !! x = M !! x) -> chain M a l -> chain M' a l.
Proof.
  revert a. induction l as [|x l IH]; intros a Hf; cbn [chain]; [done|]. intros (-> & Hx & n & En & Hc).
  split; [done|]. split; [done|]. exists n. rewrite (Hf x) by left. split; [done|]. apply IH; [|done]. intros y Hy. apply Hf. by right.
Qed.

(** The chain goes on from its [b1] with [c]. *)
Lemma chain_graft M a b1 b2 x c : chain M a (b1 ++ b2) -> b1 <> [] -> NoDup b1 -> last_of a b1 ∉ c -> chain M x c ->
  chain (<[last_of a b1 := x]> M) a (b1 ++ c).
Proof.
  revert a. induction b1 as [|y b1 IH]; intros a; [done|]. cbn [app chain]. intros (-> & Hy & n & En & Hc) _ Hnd Hl Hx.
  apply list.NoDup_cons in Hnd as [Hyb Hnd]. rewrite last_of_cons in *. split; [done|]. split; [done|]. destruct b1 as [|z b1].
  - exists x. change (last_of y []) with y in *. rewrite lookup_insert_eq. split; [done|]. revert Hx. apply chain_frame. intros w Hw. apply lookup_insert_ne. intros ->. done.
  - pose proof (last_of_in y (z :: b1)) as Hin. exists n. rewrite last_of_cons in *. split; [rewrite lookup_insert_ne; [done|]|].
    + intros E. apply Hyb. rewrite <- E. apply last_of_in.
    + pose proof Hc as Hc'. cbn [chain app] in Hc'. destruct Hc' as (-> & _).
      pose proof (IH z Hc) as G. rewrite last_of_cons in G. by apply G.
Qed.
End Rings.

(** * The hash table *)

Section TableProofs.
Context {V : Type}.
Implicit Types (h : Heap V) (t : HandleTable) (E : gmap Z (Entry V)) (M : gmap Z Z) (b : list Z) (bs : list (list Z)).

Definition matches E (key : list byte) (hash a : Z) : Prop := exists e, E !! a = Some e /\ e_hash e = hash /\ e_key e = key.

(** The list an entry of this hash is in. *)
Definition bucket (len hash : Z) : nat := Z.to_nat (Z.land hash (len - 1)).

Definition indexed E (len : Z) bs : Prop :=
  forall i b a, bs !! i = Some b -> a ∈ b -> exists e, E !! a = Some e /\ 0 <= e_hash e < 2 ^ 32 /\ bucket len (e_hash e) = i.

Definition pow2 (len : Z) : Prop := exists k, 2 <= k <= 31 /\ len = 2 ^ k.

(** The array [lst] has [len] chains, [bs]. *)
Record buckets_ok M E (len : Z) (lst : list Z) bs : Prop := {
  bo_len : length lst = Z.to_nat len;
  bo_pow : pow2 len;
  bo_chain : Forall2 (chain M) lst bs;
  bo_index : indexed E len bs;
  bo_nodup : NoDup (concat bs);
}.

Lemma pow2_bounds len : pow2 len -> 4 <= len <= 2 ^ 31.
Proof.
  intros (k & Hk & ->). split; [apply (Z.pow_le_mono_r 2 2 k); lia|apply Z.pow_le_mono_r; lia].
Qed.

Lemma bucket_bound len hash : pow2 len -> 0 <= hash -> (bucket len hash < Z.to_nat len)%nat.
Proof.
  intros Hp Hh. pose proof (pow2_bounds len Hp). destruct Hp as (k & Hk & ->). unfold bucket.
  replace (2 ^ k - 1) with (Z.ones k) by (rewrite Z.ones_equiv; lia). rewrite Z.land_ones by lia. pose proof (Z.mod_pos_bound hash (2 ^ k)). lia.
Qed.

Lemma size_bound {A} (m : gmap Z A) l : NoDup l -> (forall a, a ∈ l -> is_Some (m !! a)) -> (length l <= base.size m)%nat.
Proof.
  intros Hnd Hin. rewrite <- (size_list_to_set (C := gset Z) l Hnd), <- size_dom. apply subseteq_size.
  intros a Ha%elem_of_list_to_set. apply elem_of_dom. auto.
Qed.

Lemma with_hash_same h : with_hash h (hash_nexts h) = h.
Proof. by destruct h. Qed.

(** ** Searching *)

Fixpoint slot_after (s : Slot) b : Slot := match b with [] => s | x :: b => slot_after (InNode x) b end.

Lemma FindPointer_loop_ok h t key hash b : (forall x, x ∈ b -> is_Some (ents h !! x)) -> forall fuel s a, read_slot h t s = Done a -> chain (hash_nexts h) a b ->
  (length b < fuel)%nat ->
  exists b1 b2 a', FindPointer_loop fuel h t s key hash = Done (slot_after s b1) /\ b = b1 ++ b2 /\ read_slot h t (slot_after s b1) = Done a' /\
    chain (hash_nexts h) a' b2 /\ (forall x, x ∈ b1 -> ~ matches (ents h) key hash x) /\
    match b2 with [] => a' = nullptr | x :: _ => a' = x /\ matches (ents h) key hash x end.
Proof.
  induction b as [|x b IH]; intros Hin [|fuel] s a Hr Hc Hf; cbn [length] in Hf; [lia| |lia|]; cbn [FindPointer_loop]; rewrite Hr, run_bind_done; cbn [chain] in Hc.
  - subst a. exists [], [], nullptr. cbn. split; [done|]. split; [done|]. split; [done|]. split; [done|]. split; [by intros y ?%not_elem_of_nil|done].
  - destruct Hc as (-> & Hx & n & En & Hc). rewrite (proj2 (Z.eqb_neq _ _) Hx). destruct (Hin x ltac:(left)) as [e Ee]. unfold load. rewrite Ee, run_bind_done.
    assert (forall y, y ∈ b -> is_Some (ents h !! y)) as Hin' by (intros y Hy; apply Hin; by right).
    destruct (negb (e_hash e =? hash) || negb (slice_eqb key (e_key e))) eqn:Em.
    + destruct (IH Hin' fuel (InNode x) n) as (b1 & b2 & a' & E1 & -> & E2 & Hc' & Hno & Hend); [cbn; unfold load; by rewrite En|done|lia|].
      exists (x :: b1), b2, a'. split; [done|]. split; [done|]. split; [done|]. split; [done|]. split; [|done].
      intros y [-> |Hy]%elem_of_cons; [|by apply Hno]. intros (e' & Ee' & Eh & Ek). assert (e' = e) as -> by congruence.
      rewrite Eh, Ek, Z.eqb_refl in Em. by rewrite (proj2 (slice_eqb_eq key key) eq_refl) in Em.
    + apply orb_false_elim in Em as [Eh%negb_false_iff%Z.eqb_eq Ek%negb_false_iff%slice_eqb_eq].
      exists [], (x :: b), x. cbn [slot_after app chain]. split; [done|]. split; [done|]. split; [done|]. split; [by split; [|split; [|exists n]]|].
      split; [by intros y ?%not_elem_of_nil|]. split; [done|]. by exists e.
Qed.

Lemma bucket_in bs i b a : bs !! i = Some b -> a ∈ b -> a ∈ concat bs.
Proof. intros Hb Ha. apply list_elem_of_In, in_concat. exists b. rewrite <- !list_elem_of_In. split; [by apply list_elem_of_lookup_2 in Hb|done]. Qed.

Lemma concat_at bs i b : bs !! i = Some b -> concat bs ≡ₚ b ++ concat (delete i bs).
Proof.
  intros Hb. rewrite (delete_Permutation bs i b Hb) at 1. done.
Qed.

Lemma bucket_nodup bs i b : NoDup (concat bs) -> bs !! i = Some b -> NoDup b.
Proof. intros Hnd Hb. rewrite (concat_at bs i b Hb) in Hnd. by apply list.NoDup_app in Hnd as (? & _). Qed.

Lemma concat_disjoint bs i j b b' x : NoDup (concat bs) -> bs !! i = Some b -> bs !! j = Some b' -> i <> j -> x ∈ b -> x ∉ b'.
Proof.
  revert i j. induction bs as [|b0 bs IH]; intros i j Hnd Hi Hj Hne Hx Hx'; [done|]. cbn [concat] in Hnd. apply list.NoDup_app in Hnd as (_ & Hd & Hnd).
  destruct i as [|i], j as [|j]; [done| | |by apply (IH i j); auto]; cbn in Hi, Hj.
  - injection Hi as ->. apply (Hd x Hx). by apply (bucket_in bs j b').
  - injection Hj as ->. apply (Hd x Hx'). by apply (bucket_in bs i b).
Qed.

(** The slot found, in the list of the hash. *)
Lemma FindPointer_ok h t bs key hash : buckets_ok (hash_nexts h) (ents h) (length_ t) (list_ t) bs -> 0 <= hash < 2 ^ 32 ->
  exists b1 b2 a, let i := bucket (length_ t) hash in
    FindPointer h t key hash = Done (slot_after (InList (Z.of_nat i)) b1) /\ bs !! i = Some (b1 ++ b2) /\ read_slot h t (slot_after (InList (Z.of_nat i)) b1) = Done a /\
    chain (hash_nexts h) a b2 /\ match b2 with [] => a = nullptr | x :: _ => a = x /\ matches (ents h) key hash x end /\
    (b2 = [] -> forall x, x ∈ concat bs -> ~ matches (ents h) key hash x).
Proof.
  intros [Hl Hp Hc Hi Hnd] Hh. pose proof (pow2_bounds _ Hp) as Hb. pose proof (bucket_bound _ hash Hp ltac:(lia)) as Hbound.
  unfold FindPointer. rewrite u32_small by lia. set (i := bucket (length_ t) hash).
  assert (Z.land hash (length_ t - 1) = Z.of_nat i) as -> by (unfold i, bucket; rewrite Z2Nat.id; [done|apply Z.land_nonneg; lia]).
  destruct (lookup_lt_is_Some_2 (list_ t) i) as [a Ea]; [unfold i; lia|].
  destruct (Forall2_lookup_l _ _ _ _ _ Hc Ea) as (b & Eb & Hcb).
  assert (forall x, x ∈ b -> is_Some (ents h !! x)) as Hin by (intros x Hx; destruct (Hi i b x Eb Hx) as (e & Ee & _); by exists e).
  destruct (FindPointer_loop_ok h t key hash b Hin (chain_fuel h) (InList (Z.of_nat i)) a) as (b1 & b2 & a' & E1 & -> & E2 & Hc' & Hno & Hend); [cbn; by rewrite Nat2Z.id, Ea|done| |].
  { unfold chain_fuel. pose proof (size_bound (ents h) b (bucket_nodup bs i b Hnd Eb) Hin). lia. }
  exists b1, b2, a'. split; [done|]. split; [done|]. split; [done|]. split; [done|]. split; [done|].
  intros -> x Hx Hm. rewrite app_nil_r in *. apply list_elem_of_In, in_concat in Hx as (b & Hb' & Hx). apply list_elem_of_In in Hb', Hx.
  apply list_elem_of_lookup in Hb' as [j Hj]. destruct (Hi j b x Hj Hx) as (e & Ee & _ & Ebk). pose proof Hm as (e' & Ee' & Eh & _).
  assert (e' = e) as -> by congruence. rewrite Eh in Ebk. fold i in Ebk. subst j. assert (b = b1) as -> by congruence. by apply (Hno x).
Qed.

(** ** Writing *)

Lemma write_slot_ok h t bs i b1 b2 x c : Forall2 (chain (hash_nexts h)) (list_ t) bs -> NoDup (concat bs) -> bs !! i = Some (b1 ++ b2) ->
  chain (hash_nexts h) x c -> (forall y, y ∈ b1 -> y ∉ c) ->
  exists M' lst', write_slot h t (slot_after (InList (Z.of_nat i)) b1) x = Done (with_hash h M', mk_table (length_ t) (elems_ t) lst') /\
    length lst' = length (list_ t) /\ Forall2 (chain M') lst' (<[i := b1 ++ c]> bs) /\ (forall y, is_Some (M' !! y) <-> is_Some (hash_nexts h !! y)) /\
    (forall y, y ∉ concat bs -> M' !! y = hash_nexts h !! y).
Proof.
  intros Hc Hnd Eb Hx Hout. destruct (Forall2_lookup_r _ _ _ _ _ Hc Eb) as (a0 & Ea & Hcb).
  destruct (decide (b1 = [])) as [-> |Hne].
  - cbn [slot_after write_slot app]. rewrite Nat2Z.id, Ea. exists (hash_nexts h), (<[i := x]> (list_ t)). rewrite with_hash_same.
    split; [done|]. split; [by rewrite length_insert|]. split; [by apply Forall2_insert|]. done.
  - assert (forall s b, b <> [] -> slot_after s b = InNode (last_of 0 b)) as Hs.
    { intros s b'. revert s. induction b' as [|z b' IH]; intros s; [done|]. intros _. cbn [slot_after]. destruct b' as [|w b']; [done|]. rewrite IH by done. by rewrite !last_of_cons. }
    rewrite Hs by done. cbn [write_slot]. assert (last_of a0 b1 = last_of 0 b1 /\ last_of 0 b1 ∈ b1) as [El Hlast] by (destruct b1; [done|]; rewrite !last_of_cons; split; [done|apply last_of_in]).
    assert (NoDup (b1 ++ b2)) as Hndb by (by apply (bucket_nodup bs i)). apply list.NoDup_app in Hndb as (Hnd1 & _ & _).
    assert (is_Some (hash_nexts h !! last_of 0 b1)) as [n En].
    { clear -Hcb Hlast. revert a0 Hcb. induction b1 as [|z b1 IH]; intros a0; [by apply not_elem_of_nil in Hlast|]. cbn [app chain]. rewrite last_of_cons in *.
      intros (-> & _ & n & En & Hc). apply elem_of_cons in Hlast as [E|Hl]; [rewrite E; by exists n|].
      destruct b1 as [|w b1]; [by apply not_elem_of_nil in Hl|]. rewrite last_of_cons in *. apply (IH Hl n Hc). }
    unfold store. rewrite En, run_bind_done. eexists (<[last_of 0 b1 := x]> (hash_nexts h)), (list_ t). split; [by destruct t|]. split; [done|].
    split; [|split].
    + apply Forall2_same_length_lookup. split; [rewrite length_insert; by apply Forall2_length in Hc|]. intros j a b Ej Hj.
      destruct (decide (i = j)) as [<- |Hne'].
      * rewrite list_lookup_insert_eq in Hj by (by apply lookup_lt_Some in Eb). injection Hj as <-. assert (a = a0) as -> by congruence.
        rewrite <- El. apply (chain_graft _ _ b1 b2); [done|done|done| |done]. rewrite El. by apply Hout.
      * rewrite list_lookup_insert_ne in Hj by done. pose proof (Forall2_lookup_lr _ _ _ _ _ _ Hc Ej Hj) as Hcj. revert Hcj. apply chain_frame.
        intros z Hz. apply lookup_insert_ne. intros <-. apply (concat_disjoint bs i j (b1 ++ b2) b (last_of 0 b1)); auto. rewrite elem_of_app. by left.
    + intros y'. destruct (decide (last_of 0 b1 = y')) as [<- |Hne']; [rewrite lookup_insert_eq, En; by split; eexists|by rewrite lookup_insert_ne].
    + intros y' Hy'. apply lookup_insert_ne. intros <-. apply Hy', (bucket_in bs i _ _ Eb). rewrite elem_of_app. by left.
Qed.

(** ** The operations *)

Record table_ok h t bs : Prop := {
  to_buckets : buckets_ok (hash_nexts h) (ents h) (length_ t) (list_ t) bs;
  to_elems : elems_ t = Z.of_nat (length (concat bs));
  to_bound : elems_ t < 2 ^ 31;
}.

Lemma chain_nonnull M a b x : chain M a b -> x ∈ b -> x <> nullptr /\ is_Some (M !! x).
Proof.
  revert a. induction b as [|y b IH]; intros a; [by intros _ ?%not_elem_of_nil|]. cbn [chain]. intros (-> & Hy & n & En & Hc).
  intros [-> |Hx]%elem_of_cons; [split; [done|by exists n]|by apply (IH n)].
Qed.

Lemma in_table h t bs x : table_ok h t bs -> x ∈ concat bs -> x <> nullptr /\ is_Some (hash_nexts h !! x) /\ exists e, ents h !! x = Some e /\ 0 <= e_hash e < 2 ^ 32.
Proof.
  intros [[_ _ Hc Hi _] _ _] Hx. apply list_elem_of_In, in_concat in Hx as (b & Hb & Hx). apply list_elem_of_In in Hb, Hx. apply list_elem_of_lookup in Hb as [i Hb].
  destruct (Forall2_lookup_r _ _ _ _ _ Hc Hb) as (a & _ & Hca). destruct (chain_nonnull _ _ _ x Hca Hx). split; [done|]. split; [done|].
  destruct (Hi i b x Hb Hx) as (e & Ee & Hh & _). by exists e.
Qed.

Lemma ht_Lookup_ok h t bs key hash : table_ok h t bs -> 0 <= hash < 2 ^ 32 ->
  exists a, ht_Lookup h t key hash = Done a /\
    (a = nullptr /\ (forall x, x ∈ concat bs -> ~ matches (ents h) key hash x) \/ a <> nullptr /\ a ∈ concat bs /\ matches (ents h) key hash a).
Proof.
  intros Ht Hh. destruct (FindPointer_ok h t bs key hash (to_buckets _ _ _ Ht) Hh) as (b1 & b2 & a & E1 & Eb & Er & _ & Hend & Hno).
  unfold ht_Lookup. rewrite E1, run_bind_done, Er. exists a. split; [done|]. destruct b2 as [|x b2]; [left; by split; [|apply Hno]|right].
  destruct Hend as [-> Hm]. assert (x ∈ concat bs) as Hin by (apply (bucket_in bs _ _ x Eb); rewrite elem_of_app; right; left).
  by destruct (in_table h t bs x Ht Hin) as (? & _).
Qed.

Lemma concat_replace bs i b b' : bs !! i = Some b -> concat (<[i := b']> bs) ≡ₚ b' ++ concat (delete i bs).
Proof.
  revert i. induction bs as [|b0 bs IH]; intros i Hi; [done|]. destruct i as [|i]; cbn in Hi |- *; [done|]. change (delete (S i) (b0 :: bs)) with (b0 :: delete i bs).
  change (<[S i := b']> (b0 :: bs)) with (b0 :: <[i := b']> bs). cbn [concat]. rewrite (IH i Hi). solve_Permutation.
Qed.

Lemma indexed_replace E len bs i b b' : indexed E len bs -> bs !! i = Some b ->
  (forall a, a ∈ b' -> exists e, E !! a = Some e /\ 0 <= e_hash e < 2 ^ 32 /\ bucket len (e_hash e) = i) -> indexed E len (<[i := b']> bs).
Proof.
  intros Hi Hb Hb' j c a Hj Ha. destruct (decide (i = j)) as [<- |Hne].
  - rewrite list_lookup_insert_eq in Hj by (by apply lookup_lt_Some in Hb). injection Hj as <-. auto.
  - rewrite list_lookup_insert_ne in Hj by done. by apply (Hi j c a).
Qed.

Lemma ht_Remove_ok h t bs key hash : table_ok h t bs -> 0 <= hash < 2 ^ 32 ->
  exists a M' t', ht_Remove h t key hash = Done (a, with_hash h M', t') /\ (forall y, is_Some (M' !! y) <-> is_Some (hash_nexts h !! y)) /\
    (a = nullptr /\ (forall x, x ∈ concat bs -> ~ matches (ents h) key hash x) /\ table_ok (with_hash h M') t' bs \/
     a <> nullptr /\ matches (ents h) key hash a /\ exists bs', table_ok (with_hash h M') t' bs' /\ concat bs ≡ₚ a :: concat bs').
Proof.
  intros Ht Hh. pose proof Ht as [[Hl Hp Hc Hi Hnd] He Hb]. destruct (FindPointer_ok h t bs key hash (to_buckets _ _ _ Ht) Hh) as (b1 & b2 & a & E1 & Eb & Er & Hca & Hend & Hno).
  unfold ht_Remove. rewrite E1, run_bind_done, Er, run_bind_done. destruct b2 as [|x b2].
  - subst a. rewrite Z.eqb_refl. exists nullptr, (hash_nexts h), t. rewrite with_hash_same. split; [done|]. split; [done|]. left. split; [done|]. split; [by apply Hno|done].
  - destruct Hend as [-> Hm]. set (i := bucket _ hash) in *. assert (x ∈ concat bs) as Hin by (apply (bucket_in bs _ _ x Eb); rewrite elem_of_app; right; left).
    destruct (in_table h t bs x Ht Hin) as (Hx & [n En] & _). rewrite (proj2 (Z.eqb_neq _ _) Hx). unfold load. rewrite En, run_bind_done.
    pose proof (bucket_nodup bs i _ Hnd Eb) as Hndb. pose proof Hndb as Hndb'. apply list.NoDup_app in Hndb' as (_ & Hd & Hnd2).
    cbn [chain] in Hca. destruct Hca as (_ & _ & n' & En' & Hcn). assert (n' = n) as -> by congruence.
    destruct (write_slot_ok h t bs i b1 (x :: b2) n b2 Hc Hnd Eb Hcn) as (M' & lst' & -> & Hl' & Hc' & Hdom & _).
    { intros y Hy Hy'. apply (Hd y Hy). by right. }
    rewrite run_bind_done. eexists x, M', _. split; [reflexivity|]. split; [done|]. right. split; [done|]. split; [done|]. exists (<[i := b1 ++ b2]> bs).
    assert (concat bs ≡ₚ x :: concat (<[i := b1 ++ b2]> bs)) as Hperm.
    { rewrite (concat_at bs i _ Eb), (concat_replace bs i _ _ Eb). solve_Permutation. }
    split; [|done]. cbn [length_ elems_ list_ with_hash hash_nexts ents].
    pose proof (Permutation_length Hperm) as Hlen. cbn [length] in Hlen. split; cbn [length_ elems_ list_ with_hash hash_nexts ents].
    + split; [lia|done|done| |].
      * apply (indexed_replace _ _ _ _ _ _ Hi Eb). intros y Hy. apply (Hi i _ y Eb). rewrite elem_of_app, elem_of_cons in *. tauto.
      * rewrite Hperm in Hnd. by apply list.NoDup_cons in Hnd as [_ ?].
    + rewrite u32_small by lia. lia.
    + rewrite u32_small by lia. lia.
Qed.

(** ** Resizing *)

Lemma length_loop_ok elems : elems <= 2 ^ 31 -> forall fuel k, 2 <= k <= 31 -> 31 - k < Z.of_nat fuel ->
  exists k', 2 <= k' <= 31 /\ elems <= 2 ^ k' /\ length_loop fuel (2 ^ k) elems = Done (2 ^ k').
Proof.
  intros He. induction fuel as [|fuel IH]; intros k Hk Hf; [lia|]. cbn [length_loop]. destruct (Z.ltb_spec (2 ^ k) elems) as [Hlt|]; [|by exists k].
  assert (k <> 31) as Hne by (intros ->; lia). assert (2 ^ k * 2 = 2 ^ (k + 1)) as -> by (rewrite Z.pow_add_r by lia; lia).
  rewrite u32_small by (split; [lia|apply Z.pow_lt_mono_r; lia]). apply IH; lia.
Qed.

Lemma indexed_frame E E' len bs : (forall a, a ∈ concat bs -> E' !! a = E !! a) -> indexed E len bs -> indexed E' len bs.
Proof. intros Hf Hi i b a Hb Ha. rewrite (Hf a) by (by apply (bucket_in bs i b)). by apply (Hi i b a). Qed.

Lemma move_chain_ok len : pow2 len -> forall b fuel h nl nb a, length nl = Z.to_nat len -> Forall2 (chain (hash_nexts h)) nl nb -> indexed (ents h) len nb ->
  NoDup (b ++ concat nb) -> chain (hash_nexts h) a b -> (forall x, x ∈ b -> exists e, ents h !! x = Some e /\ 0 <= e_hash e < 2 ^ 32) -> (length b < fuel)%nat ->
  exists M' nl' nb', move_chain fuel h len nl a = Done (with_hash h M', nl') /\ length nl' = Z.to_nat len /\ Forall2 (chain M') nl' nb' /\
    indexed (ents h) len nb' /\ concat nb' ≡ₚ b ++ concat nb /\ (forall x, x ∉ b -> M' !! x = hash_nexts h !! x) /\ (forall x, is_Some (M' !! x) <-> is_Some (hash_nexts h !! x)).
Proof.
  intros Hp. pose proof (pow2_bounds len Hp) as Hb. induction b as [|x b IH]; intros [|fuel] h nl nb a Hl Hc Hi Hnd Hca Hin Hf; cbn [length] in Hf; [lia| |lia|]; cbn [move_chain]; cbn [chain] in Hca.
  - subst a. rewrite Z.eqb_refl. exists (hash_nexts h), nl, nb. rewrite with_hash_same. done.
  - destruct Hca as (-> & Hx & n & En & Hcb). rewrite (proj2 (Z.eqb_neq _ _) Hx). unfold load. rewrite En, run_bind_done.
    destruct (Hin x ltac:(left)) as (e & Ee & Hh). rewrite Ee, run_bind_done, u32_small by lia.
    pose proof (bucket_bound len (e_hash e) Hp ltac:(lia)) as Hbk. set (i := bucket len (e_hash e)) in *. fold (bucket len (e_hash e)). fold i.
    destruct (lookup_lt_is_Some_2 nl i) as [first Ef]; [lia|]. rewrite Ef. unfold store. rewrite En, run_bind_done.
    destruct (Forall2_lookup_l _ _ _ _ _ Hc Ef) as (bi & Ebi & Hcbi). cbn [app] in Hnd. apply list.NoDup_cons in Hnd as [Hxn Hnd]. rewrite elem_of_app in Hxn.
    assert (forall y, y ≠ x -> <[x := first]> (hash_nexts h) !! y = hash_nexts h !! y) as Hother by (intros y Hy; by apply lookup_insert_ne).
    destruct (IH fuel (with_hash h (<[x := first]> (hash_nexts h))) (<[i := x]> nl) (<[i := x :: bi]> nb) n) as (M' & nl' & nb' & E1 & Hl' & Hc' & Hi' & Hperm & Hout & Hdom).
    + by rewrite length_insert.
    + cbn [with_hash hash_nexts]. apply Forall2_insert.
      * apply Forall2_same_length_lookup. split; [by apply Forall2_length in Hc|]. intros j aj bj Ej Hj. pose proof (Forall2_lookup_lr _ _ _ _ _ _ Hc Ej Hj) as Hcj.
        revert Hcj. apply chain_frame. intros y Hy. apply Hother. intros ->. apply Hxn. right. by apply (bucket_in nb j bj).
      * cbn [chain]. split; [done|]. split; [done|]. exists first. split; [apply lookup_insert_eq|]. revert Hcbi. apply chain_frame. intros y Hy. apply Hother. intros ->. apply Hxn. right.
        by apply (bucket_in nb i bi).
    + cbn [with_hash ents]. apply (indexed_replace _ _ _ _ _ _ Hi Ebi). intros y [-> |Hy]%elem_of_cons; [by exists e|by apply (Hi i bi y)].
    + rewrite (concat_replace nb i _ _ Ebi). cbn [app]. rewrite <- Permutation_middle. rewrite (concat_at nb i bi Ebi) in Hxn, Hnd. apply list.NoDup_cons. split; [|exact Hnd].
      rewrite !elem_of_app in *. tauto.
    + cbn [with_hash hash_nexts]. revert Hcb. apply chain_frame. intros y Hy. apply Hother. intros ->. tauto.
    + intros y Hy. apply Hin. by right.
    + lia.
    + exists M', nl', nb'. split; [done|]. split; [done|]. split; [done|]. split; [done|]. split; [|split].
      * rewrite Hperm, (concat_replace nb i _ _ Ebi), (concat_at nb i bi Ebi). solve_Permutation.
      * intros y [Hy1 Hy2]%not_elem_of_cons. rewrite Hout by done. cbn [with_hash hash_nexts]. by apply Hother.
      * intros y. rewrite Hdom. cbn [with_hash hash_nexts]. destruct (decide (y = x)) as [-> |Hne]; [rewrite lookup_insert_eq, En; split; intros _; by eexists|by rewrite Hother].
Qed.

Lemma move_lists_ok len : pow2 len -> forall bs lists h nl nb, length nl = Z.to_nat len -> Forall2 (chain (hash_nexts h)) nl nb -> indexed (ents h) len nb ->
  NoDup (concat bs ++ concat nb) -> Forall2 (chain (hash_nexts h)) lists bs -> (forall x, x ∈ concat bs -> exists e, ents h !! x = Some e /\ 0 <= e_hash e < 2 ^ 32) ->
  exists M' nl' nb', move_lists h len nl lists = Done (with_hash h M', nl') /\ length nl' = Z.to_nat len /\ Forall2 (chain M') nl' nb' /\
    indexed (ents h) len nb' /\ concat nb' ≡ₚ concat bs ++ concat nb /\ (forall x, is_Some (M' !! x) <-> is_Some (hash_nexts h !! x)).
Proof.
  intros Hp. induction bs as [|b bs IH]; intros lists h nl nb Hl Hc Hi Hnd Hcl Hin.
  - inversion Hcl as [E1|]; subst. exists (hash_nexts h), nl, nb. rewrite with_hash_same. done.
  - inversion Hcl as [|a b' lists' bs' Hca Hcl' E1 E2]; subst. cbn [move_lists concat] in *. rewrite <- app_assoc in Hnd.
    assert (NoDup (b ++ concat nb)) as Hnd1.
    { rewrite (Permutation_app_comm (concat bs)), app_assoc in Hnd. by apply list.NoDup_app in Hnd as (? & _). }
    pose proof Hnd1 as Hndb. apply list.NoDup_app in Hndb as (Hndb & _).
    destruct (move_chain_ok len Hp b (chain_fuel h) h nl nb a Hl Hc Hi Hnd1 Hca) as (M1 & nl1 & nb1 & -> & Hl1 & Hc1 & Hi1 & Hp1 & Hout1 & Hdom1).
    { intros x Hx. apply Hin. rewrite elem_of_app. by left. }
    { unfold chain_fuel. enough (length b <= base.size (ents h))%nat by lia. apply size_bound; [done|]. intros x Hx. destruct (Hin x) as (e & -> & _); [rewrite elem_of_app; by left|by exists e]. }
    rewrite run_bind_done. destruct (IH lists' (with_hash h M1) nl1 nb1) as (M' & nl' & nb' & E1 & Hl' & Hc' & Hi' & Hp' & Hdom').
    + done.
    + done.
    + done.
    + rewrite Hp1. by rewrite app_assoc, (Permutation_app_comm (concat bs)), <- app_assoc.
    + cbn [with_hash hash_nexts]. apply Forall2_same_length_lookup. split; [by apply Forall2_length in Hcl'|]. intros j aj bj Ej Hj. pose proof (Forall2_lookup_lr _ _ _ _ _ _ Hcl' Ej Hj) as Hcj.
      revert Hcj. apply chain_frame. intros y Hy. apply Hout1. intros Hyb. apply list.NoDup_app in Hnd as (_ & Hd & _). apply (Hd y Hyb). rewrite elem_of_app. left. by apply (bucket_in bs j bj).
    + intros x Hx. apply Hin. rewrite elem_of_app. by right.
    + exists M', nl', nb'. split; [done|]. split; [done|]. split; [done|]. split; [done|]. split; [|intros x; by rewrite Hdom'].
      rewrite Hp', Hp1. solve_Permutation.
Qed.

Lemma chain_replicate M n : Forall2 (chain M) (replicate n nullptr) (replicate n []).
Proof. induction n as [|n IH]; [constructor|]. by constructor. Qed.

Lemma concat_replicate_nil n : concat (replicate n ([] : list Z)) = [].
Proof. by induction n. Qed.

Lemma Resize_ok h t bs : table_ok h t bs ->
  exists M' t' bs', Resize h t = Done (with_hash h M', t') /\ table_ok (with_hash h M') t' bs' /\ concat bs' ≡ₚ concat bs /\
    (forall x, is_Some (M' !! x) <-> is_Some (hash_nexts h !! x)) /\ elems_ t' <= length_ t'.
Proof.
  intros Ht. pose proof Ht as [[Hl Hp Hc Hi Hnd] He Hb]. unfold Resize.
  destruct (length_loop_ok (elems_ t) ltac:(lia) 32 2 ltac:(lia) ltac:(lia)) as (k & Hk & Hek & E1). change (2 ^ 2) with 4 in E1. rewrite E1, run_bind_done.
  assert (pow2 (2 ^ k)) as Hp' by (by exists k). destruct (move_lists_ok (2 ^ k) Hp' bs (list_ t) h (replicate (Z.to_nat (2 ^ k)) nullptr) (replicate (Z.to_nat (2 ^ k)) []))
    as (M' & nl' & nb' & -> & Hl' & Hc' & Hi' & Hperm & Hdom).
  - by rewrite length_replicate.
  - apply chain_replicate.
  - intros i b a Hib Ha. apply lookup_replicate in Hib as [-> _]. by apply not_elem_of_nil in Ha.
  - by rewrite concat_replicate_nil, app_nil_r.
  - done.
  - intros x Hx. by destruct (in_table h t bs x Ht Hx) as (_ & _ & ?).
  - rewrite run_bind_done. rewrite concat_replicate_nil, app_nil_r in Hperm. eexists M', _, nb'. split; [reflexivity|].
    split; [|split; [done|split; [done|done]]]. split; cbn [length_ elems_ list_ with_hash hash_nexts ents]; [|by rewrite Hperm|done]. split; [done|done|done|done|by rewrite Hperm].
Qed.

(** A new entry replaces the one of its key. *)
Lemma ht_Insert_ok h t bs a e : table_ok h t bs -> a ∉ concat bs -> a <> nullptr -> is_Some (hash_nexts h !! a) -> ents h !! a = Some e ->
  0 <= e_hash e < 2 ^ 32 -> elems_ t + 1 < 2 ^ 31 ->
  exists old M' t' bs', ht_Insert h t a = Done (old, with_hash h M', t') /\ (forall y, is_Some (M' !! y) <-> is_Some (hash_nexts h !! y)) /\
    table_ok (with_hash h M') t' bs' /\
    (old = nullptr /\ concat bs' ≡ₚ a :: concat bs /\ (forall x, x ∈ concat bs -> ~ matches (ents h) (e_key e) (e_hash e) x) \/
     old <> nullptr /\ matches (ents h) (e_key e) (e_hash e) old /\ exists r, concat bs ≡ₚ old :: r /\ concat bs' ≡ₚ a :: r).
Proof.
  intros Ht Ha Hna [n0 En0] Ee Hh Hlt. pose proof Ht as [[Hl Hp Hc Hi Hnd] He Hb].
  destruct (FindPointer_ok h t bs (e_key e) (e_hash e) (to_buckets _ _ _ Ht) Hh) as (b1 & b2 & old & E1 & Eb & Er & Hcold & Hend & Hno).
  unfold ht_Insert. unfold load at 2. rewrite Ee, run_bind_done, E1, run_bind_done, Er, run_bind_done. set (i := bucket (length_ t) (e_hash e)) in *.
  set (rest := tail b2).
  assert (exists after, (if old =? nullptr then Done nullptr else load (hash_nexts h) old) = Done after /\ chain (hash_nexts h) after rest) as (after & -> & Hcr).
  { destruct b2 as [|x b2]; [subst old; by exists nullptr|]. destruct Hend as [-> _]. cbn [chain] in Hcold. destruct Hcold as (_ & Hx & n & En & Hcn).
    rewrite (proj2 (Z.eqb_neq _ _) Hx). unfold load. rewrite En. by exists n. }
  rewrite run_bind_done. unfold store at 1. rewrite En0, run_bind_done. set (h1 := with_hash h (<[a := after]> (hash_nexts h))).
  assert (forall y, y ∈ concat bs -> <[a := after]> (hash_nexts h) !! y = hash_nexts h !! y) as Hother.
  { intros y Hy. apply lookup_insert_ne. by intros ->. }
  assert (Forall2 (chain (hash_nexts h1)) (list_ t) bs) as Hc1.
  { apply Forall2_same_length_lookup. split; [by apply Forall2_length in Hc|]. intros j aj bj Ej Hj. pose proof (Forall2_lookup_lr _ _ _ _ _ _ Hc Ej Hj) as Hcj.
    revert Hcj. apply chain_frame. intros y Hy. apply Hother. by apply (bucket_in bs j bj). }
  assert (forall y, y ∈ rest -> y ∈ b1 ++ b2) as Hrest by (intros y Hy; apply elem_of_app; right; destruct b2; [done|by right]).
  assert (chain (hash_nexts h1) a (a :: rest)) as Hca.
  { cbn [chain]. split; [done|]. split; [done|]. exists after. split; [apply lookup_insert_eq|]. revert Hcr. apply chain_frame. intros y Hy. apply Hother.
    apply (bucket_in bs i _ y Eb). by apply Hrest. }
  destruct (write_slot_ok h1 t bs i b1 b2 a (a :: rest) Hc1 Hnd Eb Hca) as (M' & lst' & E2 & Hl' & Hc' & Hdom & _).
  { intros y Hy [-> |Hy']%elem_of_cons; [apply Ha, (bucket_in bs i _ _ Eb); rewrite elem_of_app; by left|].
    pose proof (bucket_nodup bs i _ Hnd Eb) as Hndb. apply list.NoDup_app in Hndb as (_ & Hd & _). apply (Hd y Hy). destruct b2; [done|by right]. }
  rewrite E2, run_bind_done. change (with_hash h1 M') with (with_hash h M'). set (bs1 := <[i := b1 ++ a :: rest]> bs) in *.
  assert (forall y, is_Some (M' !! y) <-> is_Some (hash_nexts h !! y)) as Hdom'.
  { intros y. rewrite Hdom. cbn [h1 with_hash hash_nexts]. destruct (decide (y = a)) as [-> |Hne]; [rewrite lookup_insert_eq, En0; split; intros _; by eexists|by rewrite lookup_insert_ne]. }
  assert (indexed (ents h) (length_ t) bs1) as Hi1.
  { apply (indexed_replace _ _ _ _ _ _ Hi Eb). intros y Hy. apply elem_of_app in Hy as [Hy|[-> |Hy]%elem_of_cons]; [|by exists e|].
    - apply (Hi i _ y Eb). rewrite elem_of_app. by left.
    - apply (Hi i _ y Eb). by apply Hrest. }
  assert (concat bs1 ≡ₚ a :: (b1 ++ rest) ++ concat (delete i bs)) as Hp1 by (unfold bs1; rewrite (concat_replace bs i _ _ Eb); solve_Permutation).
  destruct b2 as [|x b2].
  - subst old. rewrite Z.eqb_refl. cbn [length_ elems_ list_]. assert (concat bs1 ≡ₚ a :: concat bs) as Hperm.
    { rewrite Hp1. constructor. rewrite (concat_at bs i _ Eb). done. }
    set (t1 := mk_table (length_ t) (u32 (elems_ t + 1)) lst'). assert (table_ok (with_hash h M') t1 bs1) as Ht1.
    { split; cbn [t1 length_ elems_ list_ with_hash hash_nexts ents].
      - split; [lia|done|done|done|]. rewrite Hperm. by apply list.NoDup_cons.
      - rewrite Hperm. cbn [length]. rewrite u32_small by lia. lia.
      - rewrite u32_small by lia. lia. }
    assert (forall x, x ∈ concat bs -> ~ matches (ents h) (e_key e) (e_hash e) x) as Hnone by (by apply Hno).
    destruct (_ >? _).
    + destruct (Resize_ok _ _ _ Ht1) as (M2 & t2 & bs2 & -> & Ht2 & Hperm2 & Hdom2 & _). rewrite run_bind_done. exists nullptr, M2, t2, bs2.
      split; [done|]. split; [intros y; rewrite Hdom2; apply Hdom'|]. split; [exact Ht2|]. left. split; [done|]. split; [by rewrite Hperm2|done].
    + exists nullptr, M', t1, bs1. split; [done|]. split; [done|]. split; [done|]. left. done.
  - destruct Hend as [-> Hm]. assert (x ∈ concat bs) as Hin by (apply (bucket_in bs _ _ x Eb); rewrite elem_of_app; right; left).
    destruct (in_table h t bs x Ht Hin) as (Hx & _). rewrite (proj2 (Z.eqb_neq _ _) Hx). cbn [length_ elems_ list_].
    assert (concat bs ≡ₚ x :: (b1 ++ rest) ++ concat (delete i bs)) as Hp0 by (rewrite (concat_at bs i _ Eb); unfold rest; cbn [tail]; solve_Permutation).
    eexists x, M', _, bs1. split; [reflexivity|]. split; [done|]. split.
    + split; cbn [length_ elems_ list_ with_hash hash_nexts ents].
      * split; [lia|done|done|done|]. rewrite Hp1. rewrite Hp0 in Hnd, Ha. apply list.NoDup_cons in Hnd as [_ Hnd]. apply list.NoDup_cons. split; [|done].
        intros Hin'. apply Ha. by right.
      * rewrite Hp1, He, Hp0. done.
      * done.
    + right. split; [done|]. split; [done|]. by eexists.
Qed.
End TableProofs.

(** * Entries, references and the two lists *)

Section Refs.
Context {V : Type} (hash_of : list byte -> Z) (hash_range : forall k, 0 <= hash_of k < 2 ^ 32).
Implicit Types (h : Heap V) (a b : Z) (e : Entry V) (held lru inuse l : list Z).

(** How many handles of [a] the clients hold. *)
Definition cnt a held : Z := Z.of_nat (count_occ Z.eq_dec held a).

Lemma cnt_cons a b held : cnt a (b :: held) = cnt a held + (if decide (b = a) then 1 else 0).
Proof. unfold cnt. cbn [count_occ]. destruct (Z.eq_dec b a), (decide (b = a)); lia. Qed.

Lemma cnt_perm a held held' : held ≡ₚ held' -> cnt a held = cnt a held'.
Proof. intros Hp. unfold cnt. f_equal. apply (proj1 (Permutation_count_occ Z.eq_dec held held') Hp). Qed.

Lemma cnt_bound a held : 0 <= cnt a held <= Z.of_nat (length held).
Proof. unfold cnt. pose proof (count_occ_bound Z.eq_dec a held). lia. Qed.

Lemma cnt_pos a held : 0 < cnt a held <-> a ∈ held.
Proof. unfold cnt. rewrite list_elem_of_In, (count_occ_In Z.eq_dec). lia. Qed.

Definition cache_ref e : Z := if e_in_cache e then 1 else 0.

Record hrep h lru inuse held : Prop := {
  hr_lru : ring (nexts h) (prevs h) lru_ lru;
  hr_inuse : ring (nexts h) (prevs h) in_use_ inuse;
  hr_nodup : NoDup (lru ++ inuse);
  hr_addr a : is_Some (ents h !! a) -> 3 <= a < next_addr h /\ is_Some (nexts h !! a) /\ is_Some (prevs h !! a) /\ is_Some (hash_nexts h !! a);
  hr_refs a e : ents h !! a = Some e -> e_refs e = cnt a held + cache_ref e /\ 0 < e_refs e;
  hr_hash a e : ents h !! a = Some e -> e_hash e = hash_of (e_key e);
  hr_cached a e : ents h !! a = Some e -> e_in_cache e = true <-> a ∈ lru ++ inuse;
  hr_in a : a ∈ lru ++ inuse -> is_Some (ents h !! a);
  hr_unused a : a ∈ lru -> cnt a held = 0;
  hr_used a : a ∈ inuse -> 0 < cnt a held;
  hr_held a : a ∈ held -> is_Some (ents h !! a);
  hr_next : 3 <= next_addr h;
}.

(** An entry keeps its key, value, charge and hash. *)
Definition same_data e e' : Prop := e_key e = e_key e' /\ e_value e = e_value e' /\ e_charge e = e_charge e' /\ e_hash e = e_hash e'.

Definition data_sub h' h : Prop := forall a e', ents h' !! a = Some e' -> exists e, ents h !! a = Some e /\ same_data e' e.

(** All entries there ever were: those that were given to the deleter, and the others. *)
Definition alive (m : gmap Z (Entry V)) : list (list byte * V) := (fun p => (e_key (snd p), e_value (snd p))) <$> map_to_list m.
Definition accounted h : list (list byte * V) := deletions h ++ alive (ents h).

Record kept h h' : Prop := {
  kp_data : data_sub h' h;
  kp_accounted : accounted h' ≡ₚ accounted h;
  kp_next : next_addr h' = next_addr h;
}.

Lemma data_sub_refl h : data_sub h h.
Proof. intros a e' Ee. by exists e'. Qed.

#[local] Instance kept_preorder : PreOrder kept.
Proof.
  split.
  - intros h. split; [apply data_sub_refl|done|done].
  - intros h1 h2 h3 [D1 A1 N1] [D2 A2 N2]. split; [|by rewrite A2|congruence]. intros a e Ee. destruct (D2 a e Ee) as (e2 & Ee2 & (K1 & K2 & K3 & K4)).
    destruct (D1 a e2 Ee2) as (e1 & Ee1 & (L1 & L2 & L3 & L4)). exists e1. split; [done|]. split; [congruence|]. split; [congruence|]. split; congruence.
Qed.

Lemma alive_insert m a e e' : m !! a = Some e -> e_key e' = e_key e -> e_value e' = e_value e -> alive (<[a := e']> m) ≡ₚ alive m.
Proof.
  intros Ee Ek Ev. unfold alive. rewrite <- (insert_delete_eq m a e') at 1. rewrite map_to_list_insert by apply lookup_delete_eq.
  rewrite <- (map_to_list_delete m a e Ee) at 1. cbn. by rewrite Ek, Ev.
Qed.

Lemma alive_delete m a e : m !! a = Some e -> alive m ≡ₚ (e_key e, e_value e) :: alive (delete a m).
Proof. intros Ee. unfold alive. by rewrite <- (map_to_list_delete m a e Ee) at 1. Qed.

Lemma kept_store h a e e' : ents h !! a = Some e -> same_data e' e -> kept h (with_ents h (<[a := e']> (ents h))).
Proof.
  intros Ee Hs. split.
  - intros b e1. cbn [with_ents ents]. destruct (decide (b = a)) as [-> |Hne]; [rewrite lookup_insert_eq|rewrite lookup_insert_ne by done].
    + intros [= <-]. by exists e.
    + intros Eb. by exists e1.
  - unfold accounted. cbn [with_ents ents deletions]. destruct Hs as (? & ? & _). by rewrite (alive_insert _ a e e').
  - done.
Qed.

Lemma kept_delete h a e : ents h !! a = Some e -> kept h (delete_entry h a e).
Proof.
  intros Ee. split.
  - intros b e1. cbn [delete_entry ents]. intros [_ Eb]%lookup_delete_Some. by exists e1.
  - unfold accounted. cbn [delete_entry ents deletions]. rewrite (alive_delete _ a e Ee). by rewrite <- app_assoc.
  - done.
Qed.

Lemma kept_links h ns ps : kept h (with_links h ns ps).
Proof. split; [exact (data_sub_refl h)|done|done]. Qed.

(** ** The two lists *)

(** Links of other nodes do not change, and none appears or goes. *)
Definition link_frame (N N' : gmap Z Z) (nodes : list Z) : Prop :=
  (forall a, a ∉ nodes -> N' !! a = N !! a) /\ forall a, is_Some (N' !! a) <-> is_Some (N !! a).

Lemma store_done {A} (m : gmap Z A) a x : is_Some (m !! a) -> store m a x = Done (<[a := x]> m).
Proof. intros [y E]. unfold store. by rewrite E. Qed.

Lemma insert_some {A} (m : gmap Z A) a x b : is_Some (m !! a) -> is_Some (<[a := x]> m !! b) <-> is_Some (m !! b).
Proof.
  intros Ha. destruct (decide (a = b)) as [<- |Hne]; [rewrite lookup_insert_eq; split; [done|intros _; by eexists]|by rewrite lookup_insert_ne].
Qed.

Lemma LRU_Remove_ok h hd l1 a l2 : ring (nexts h) (prevs h) hd (l1 ++ a :: l2) ->
  exists N P, LRU_Remove h a = Done (with_links h N P) /\ ring N P hd (l1 ++ l2) /\
    link_frame (nexts h) N (hd :: l1 ++ l2) /\ link_frame (prevs h) P (hd :: l1 ++ l2).
Proof.
  intros Hr. pose proof Hr as [_ Hnd]. destruct (ring_remove _ _ _ _ _ _ Hr) as (E1 & E2 & H1 & H2 & Hr').
  assert (last_of hd l1 ∈ hd :: l1 ++ l2) as Hl by (rewrite app_comm_cons, elem_of_app; left; apply last_of_in).
  assert (first_of l2 hd ∈ hd :: l1 ++ l2) as Hf by (destruct l2; [left|right; rewrite elem_of_app; right; left]).
  assert (a ∉ hd :: l1 ++ l2) as Hna.
  { intros Hin. rewrite <- Permutation_middle in Hnd. rewrite Permutation_swap in Hnd. by apply list.NoDup_cons in Hnd as [? _]. }
  unfold LRU_Remove, load. rewrite E1, run_bind_done, E2, run_bind_done, (store_done _ _ _ H2), run_bind_done.
  rewrite lookup_insert_ne by (intros E; by rewrite E in Hf). rewrite E2, run_bind_done, (store_done _ _ _ H1), run_bind_done.
  eexists _, _. split; [reflexivity|]. split; [exact Hr'|]. split; (split; [|intros b; by apply insert_some]); intros b Hb; apply lookup_insert_ne; intros <-; done.
Qed.

Lemma LRU_Append_ok h hd l a : ring (nexts h) (prevs h) hd l -> a ∉ hd :: l -> is_Some (nexts h !! a) -> is_Some (prevs h !! a) ->
  exists N P, LRU_Append h hd a = Done (with_links h N P) /\ ring N P hd (l ++ [a]) /\
    link_frame (nexts h) N (hd :: l ++ [a]) /\ link_frame (prevs h) P (hd :: l ++ [a]).
Proof.
  intros Hr Ha HN HP. destruct (ring_append _ _ _ _ _ Hr Ha) as (E1 & H1 & Hr').
  assert (last_of hd l ∈ hd :: l ++ [a]) as Hl by (rewrite app_comm_cons, elem_of_app; left; apply last_of_in).
  assert (last_of hd l <> a) as Hne by (intros E; apply Ha; rewrite <- E; apply last_of_in).
  assert (a <> hd) as Hnh by (intros ->; apply Ha; left).
  unfold LRU_Append, load. rewrite (store_done _ _ _ HN), run_bind_done, E1, run_bind_done, (store_done _ _ _ HP), run_bind_done.
  rewrite (store_done _ (last_of hd l)) by (by rewrite insert_some). rewrite run_bind_done, lookup_insert_ne, lookup_insert_eq, run_bind_done by done.
  rewrite (store_done _ hd) by (rewrite insert_some by done; by eexists). rewrite run_bind_done.
  eexists _, _. split; [reflexivity|]. split; [exact Hr'|].
  assert (a ∈ hd :: l ++ [a] /\ hd ∈ hd :: l ++ [a]) as [Hin1 Hin2] by (split; [right; rewrite elem_of_app; right; left|left]).
  split; (split; [intros b Hb; rewrite !lookup_insert_ne by (intros <-; done); done|intros b]).
  - rewrite insert_some; [by apply insert_some|]. by rewrite insert_some.
  - rewrite insert_some; [by apply insert_some|]. rewrite insert_some by done. by eexists.
Qed.

Lemma LRU_move_ok h hd1 l1 a l2 hd2 l : ring (nexts h) (prevs h) hd1 (l1 ++ a :: l2) -> ring (nexts h) (prevs h) hd2 l ->
  (forall x, x ∈ hd1 :: l1 ++ a :: l2 -> x ∉ hd2 :: l) ->
  exists N P, (h ← LRU_Remove h a; LRU_Append h hd2 a) = Done (with_links h N P) /\ ring N P hd1 (l1 ++ l2) /\ ring N P hd2 (l ++ [a]) /\
    (forall b, is_Some (N !! b) <-> is_Some (nexts h !! b)) /\ (forall b, is_Some (P !! b) <-> is_Some (prevs h !! b)).
Proof.
  intros Hr1 Hr2 Hd. destruct (LRU_Remove_ok h hd1 l1 a l2 Hr1) as (N1 & P1 & -> & Hr1' & [FN1 DN1] & [FP1 DP1]). rewrite run_bind_done.
  assert (a ∈ hd1 :: l1 ++ a :: l2) as Hain by (right; rewrite elem_of_app; right; left).
  assert (forall x, x ∈ hd1 :: l1 ++ l2 -> x ∈ hd1 :: l1 ++ a :: l2) as Hsub by (intros x; rewrite !elem_of_cons, !elem_of_app, elem_of_cons; tauto).
  destruct (ring_remove _ _ _ _ _ _ Hr1) as (E1 & E2 & _).
  assert (ring N1 P1 hd2 l) as Hr2'.
  { revert Hr2. apply ring_frame. intros x Hx. split; [apply FN1|apply FP1]; intros Hx'; by apply (Hd x (Hsub x Hx')). }
  destruct (LRU_Append_ok (with_links h N1 P1) hd2 l a Hr2' (Hd a Hain)) as (N2 & P2 & -> & Hr & [FN2 DN2] & [FP2 DP2]).
  - apply DN1. by eexists.
  - apply DP1. by eexists.
  - cbn [with_links nexts prevs] in *. exists N2, P2. split; [done|]. split; [|split; [done|split; intros b; [by rewrite DN2|by rewrite DP2]]].
    revert Hr1'. apply ring_frame. assert (forall x, x ∈ hd1 :: l1 ++ l2 -> x ∉ hd2 :: l ++ [a]) as Hd'.
    { intros x Hx. pose proof (Hd x (Hsub x Hx)) as Hd'. rewrite app_comm_cons, elem_of_app, list_elem_of_singleton. intros [?|E]; [done|].
      rewrite E in Hx. destruct Hr1 as [_ Hnd]. rewrite <- Permutation_middle in Hnd. rewrite Permutation_swap in Hnd. by apply list.NoDup_cons in Hnd as [? _]. }
    intros x Hx. split; [apply FN2|apply FP2]; by apply Hd'.
Qed.

Lemma lists_apart h lru inuse held : hrep h lru inuse held -> forall x, x ∈ lru_ :: lru -> x ∉ in_use_ :: inuse.
Proof.
  intros Hr x Hx Hx'. assert (forall y, y ∈ lru ++ inuse -> 3 <= y) as Hge.
  { intros y Hy. destruct (hr_addr _ _ _ _ Hr y (hr_in _ _ _ _ Hr y Hy)). lia. }
  pose proof (hr_nodup _ _ _ _ Hr) as Hnd. apply list.NoDup_app in Hnd as (_ & Hd & _). setoid_rewrite elem_of_app in Hge. unfold lru_, in_use_ in *.
  apply elem_of_cons in Hx as [-> |Hx]; apply elem_of_cons in Hx' as [E|Hx'].
  - lia.
  - specialize (Hge 1 ltac:(by right)). lia.
  - subst x. specialize (Hge 2 ltac:(by left)). lia.
  - by apply (Hd x).
Qed.

Lemma set_refs_same e r : same_data (set_refs e r) e.
Proof. done. Qed.

(** Storing another count of references. *)
Lemma refs_rep h lru inuse held held' a e r : hrep h lru inuse held -> ents h !! a = Some e -> r = cnt a held' + cache_ref e -> 0 < r ->
  (forall b, b <> a -> cnt b held' = cnt b held) -> (a ∈ lru -> cnt a held' = 0) -> (a ∈ inuse -> 0 < cnt a held') ->
  hrep (with_ents h (<[a := set_refs e r]> (ents h))) lru inuse held'.
Proof.
  intros [H1 H2 H3 H4 H5 H6 H7 H8 H9 H10 H11 H12] Ee Er Hr Hc Hlru Hinuse.
  assert (forall b, is_Some (<[a := set_refs e r]> (ents h) !! b) <-> is_Some (ents h !! b)) as Hdom by (intros b; apply insert_some; by eexists).
  split; cbn [with_ents nexts prevs ents next_addr hash_nexts]; try done.
  - intros b. rewrite Hdom. apply H4.
  - intros b e'. destruct (decide (b = a)) as [-> |Hne]; [rewrite lookup_insert_eq; intros [= <-]; by cbn|rewrite lookup_insert_ne, Hc by done; apply H5].
  - intros b e'. destruct (decide (b = a)) as [-> |Hne]; [rewrite lookup_insert_eq; intros [= <-]; exact (H6 a e Ee)|rewrite lookup_insert_ne by done; apply H6].
  - intros b e'. destruct (decide (b = a)) as [-> |Hne]; [rewrite lookup_insert_eq; intros [= <-]; exact (H7 a e Ee)|rewrite lookup_insert_ne by done; apply H7].
  - intros b Hb. rewrite Hdom. auto.
  - intros b Hb. destruct (decide (b = a)) as [-> |Hne]; [auto|rewrite Hc by done; auto].
  - intros b Hb. destruct (decide (b = a)) as [-> |Hne]; [auto|rewrite Hc by done; auto].
  - intros b Hb. rewrite Hdom. destruct (decide (b = a)) as [-> |Hne]; [by eexists|]. apply H11. apply cnt_pos. rewrite <- Hc by done. by apply cnt_pos.
Qed.

(** Links that make other rings of the same entries. *)
Lemma links_rep h lru inuse held N P lru' inuse' : hrep h lru inuse held -> ring N P lru_ lru' -> ring N P in_use_ inuse' ->
  (forall b, is_Some (N !! b) <-> is_Some (nexts h !! b)) -> (forall b, is_Some (P !! b) <-> is_Some (prevs h !! b)) ->
  lru' ++ inuse' ≡ₚ lru ++ inuse -> (forall a, a ∈ lru' -> cnt a held = 0) -> (forall a, a ∈ inuse' -> 0 < cnt a held) ->
  hrep (with_links h N P) lru' inuse' held.
Proof.
  intros [H1 H2 H3 H4 H5 H6 H7 H8 H9 H10 H11 H12] Hr1 Hr2 DN DP Hp Hl Hi. split; cbn [with_links nexts prevs ents next_addr hash_nexts]; try done.
  - by rewrite Hp.
  - intros a Ha. destruct (H4 a Ha) as (Hb & Hn & Hpv & Hh). by rewrite DN, DP.
  - intros a e Ee. rewrite Hp. by apply H7.
  - intros a. rewrite Hp. apply H8.
Qed.

Lemma app_split a l1 l2 : a ∈ l1 ++ l2 -> (exists l l', l1 = l ++ a :: l') \/ exists l l', l2 = l ++ a :: l'.
Proof. intros [Ha|Ha]%elem_of_app; [left|right]; apply list_elem_of_split in Ha as (l & l' & ->); by exists l, l'. Qed.

Lemma Ref_ok h lru inuse held a : hrep h lru inuse held -> a ∈ lru ++ inuse -> Z.of_nat (length held) + 2 < 2 ^ 32 ->
  exists h' lru' inuse', Ref h a = Done h' /\ hrep h' lru' inuse' (a :: held) /\ kept h h' /\ hash_nexts h' = hash_nexts h /\ lru' ++ inuse' ≡ₚ lru ++ inuse.
Proof.
  intros Hr Ha Hlen. destruct (hr_in _ _ _ _ Hr a Ha) as [e Ee]. pose proof (hr_refs _ _ _ _ Hr a e Ee) as [Erefs Hpos].
  pose proof (proj2 (hr_cached _ _ _ _ Hr a e Ee) Ha) as Ec. pose proof (cnt_bound a held) as Hcb. unfold cache_ref in Erefs. rewrite Ec in Erefs.
  unfold Ref. unfold load. rewrite Ee, run_bind_done, Ec, andb_true_r.
  destruct (Z.eqb_spec (e_refs e) 1) as [E1|E1].
  - destruct (app_split a lru inuse Ha) as [(l1 & l2 & ->)|(l1 & l2 & ->)].
    2: { assert (0 < cnt a held); [|lia]. apply (hr_used _ _ _ _ Hr). rewrite elem_of_app. right; left. }
    destruct (LRU_move_ok h lru_ l1 a l2 in_use_ inuse (hr_lru _ _ _ _ Hr) (hr_inuse _ _ _ _ Hr) (lists_apart _ _ _ _ Hr)) as (N & P & -> & R1 & R2 & DN & DP).
    rewrite run_bind_done. cbn [with_links ents]. rewrite (store_done _ a) by (by eexists). rewrite run_bind_done, u32_small by lia.
    assert ((l1 ++ l2) ++ inuse ++ [a] ≡ₚ (l1 ++ a :: l2) ++ inuse) as Hp by solve_Permutation.
    eexists _, (l1 ++ l2), (inuse ++ [a]). split; [reflexivity|].
    assert (forall b, b ∈ l1 ++ l2 -> b <> a) as Hne.
    { intros b Hb ->. pose proof (hr_nodup _ _ _ _ Hr) as Hnd. apply list.NoDup_app in Hnd as (Hnd & _). rewrite <- Permutation_middle in Hnd. by apply list.NoDup_cons in Hnd as [? _]. }
    assert (forall b, cnt b (a :: held) = cnt b held + (if decide (a = b) then 1 else 0)) as Hcc by (intros b; apply cnt_cons).
    split; [|split; [|split; [done|done]]].
    + destruct Hr as [H1 H2 H3 H4 H5 H6 H7 H8 H9 H10 H11 H12]. split; cbn [with_ents with_links nexts prevs ents next_addr hash_nexts]; try done.
      * by rewrite Hp.
      * intros b. rewrite insert_some by (by eexists). intros Hb. destruct (H4 b Hb) as (G1 & G2 & G3 & G4). by rewrite DN, DP.
      * intros b e'. rewrite Hcc. destruct (decide (a = b)) as [<- |Hab]; [rewrite lookup_insert_eq; intros [= <-]; cbn [set_refs e_refs]; unfold cache_ref; cbn [set_refs e_in_cache]; rewrite Ec; lia|].
        rewrite lookup_insert_ne by done. rewrite Z.add_0_r. apply H5.
      * intros b e'. destruct (decide (b = a)) as [-> |Hab]; [rewrite lookup_insert_eq; intros [= <-]; exact (H6 a e Ee)|rewrite lookup_insert_ne by done; apply H6].
      * intros b e'. rewrite Hp. destruct (decide (b = a)) as [-> |Hab]; [rewrite lookup_insert_eq; intros [= <-]; exact (H7 a e Ee)|rewrite lookup_insert_ne by done; apply H7].
      * intros b. rewrite Hp, insert_some by (by eexists). apply H8.
      * intros b Hb. rewrite Hcc, decide_False by (intros <-; by apply (Hne a)). rewrite Z.add_0_r. apply H9. rewrite elem_of_app, elem_of_cons in *. tauto.
      * intros b Hb. rewrite Hcc. apply elem_of_app in Hb as [Hb|Hb%list_elem_of_singleton]; [specialize (H10 b Hb); destruct (decide (a = b)); lia|].
        rewrite decide_True by done. pose proof (cnt_bound b held). lia.
      * intros b [-> |Hb]%elem_of_cons; rewrite insert_some by (by eexists); [by eexists|auto].
    + transitivity (with_links h N P); [apply kept_links|]. by apply (kept_store (with_links h N P) a e).
  - rewrite run_bind_done, (store_done _ a) by (by eexists). rewrite run_bind_done, u32_small by lia.
    eexists _, lru, inuse. split; [reflexivity|]. assert (0 < cnt a held) as Hc by lia.
    assert (a ∉ lru) as Hnl by (intros Hl; pose proof (hr_unused _ _ _ _ Hr a Hl); lia).
    split; [|split; [by apply (kept_store h a e)|done]]. apply (refs_rep h lru inuse held); [done|done| |lia| |done|].
    + rewrite cnt_cons, decide_True by done. unfold cache_ref. rewrite Ec. lia.
    + intros b Hb. rewrite cnt_cons, decide_False by done. lia.
    + intros _. rewrite cnt_cons, decide_True by done. lia.
Qed.

Lemma cnt_cons_eq a held : cnt a (a :: held) = cnt a held + 1.
Proof. by rewrite cnt_cons, decide_True. Qed.

Lemma cnt_cons_ne a b held : b <> a -> cnt b (a :: held) = cnt b held.
Proof. intros Hne. rewrite cnt_cons, decide_False by done. lia. Qed.

Lemma nodup_mid l1 a l2 : NoDup (l1 ++ a :: l2) -> a ∉ l1 ++ l2.
Proof. rewrite <- Permutation_middle. by intros [? _]%list.NoDup_cons. Qed.

(** Freeing an entry that is in no list. *)
Lemma delete_rep h lru inuse held a e e' : hrep h lru inuse (a :: held) -> ents h !! a = Some e -> a ∉ lru ++ inuse -> cnt a held = 0 ->
  same_data e' e -> hrep (delete_entry (with_ents h (<[a := e']> (ents h))) a e') lru inuse held.
Proof.
  intros [H1 H2 H3 H4 H5 H6 H7 H8 H9 H10 H11 H12] Ee Ha Hc Hs.
  assert (1 <> a /\ 2 <> a) as [Ha1 Ha2] by (destruct (H4 a); [by eexists|lia]).
  assert (forall b, b ∈ lru ++ inuse -> b <> a) as Hne by (intros b Hb ->; done). setoid_rewrite elem_of_app in Hne.
  split; cbn [delete_entry with_ents nexts prevs ents next_addr hash_nexts]; rewrite ?delete_insert_eq; try done.
  - revert H1. apply ring_frame. intros b Hb. assert (a <> b) as Hab; [|by rewrite !lookup_delete_ne]. intros <-. apply elem_of_cons in Hb as [E|Hb]; [by destruct Ha1|by apply (Hne a); [left|]].
  - revert H2. apply ring_frame. intros b Hb. assert (a <> b) as Hab; [|by rewrite !lookup_delete_ne]. intros <-. apply elem_of_cons in Hb as [E|Hb]; [by destruct Ha2|by apply (Hne a); [right|]].
  - intros b [e1 [Hab Eb]%lookup_delete_Some]. rewrite !lookup_delete_ne by done. apply H4. by eexists.
  - intros b e1 [Hab Eb]%lookup_delete_Some. rewrite <- (cnt_cons_ne a b held) by done. by apply H5.
  - intros b e1 [Hab Eb]%lookup_delete_Some. by apply (H6 b).
  - intros b e1 [Hab Eb]%lookup_delete_Some. by apply (H7 b).
  - intros b Hb. rewrite lookup_delete_ne; [by apply H8|]. intros <-. done.
  - intros b Hb. rewrite <- (cnt_cons_ne a b held); [by apply H9|]. apply Hne. by left.
  - intros b Hb. rewrite <- (cnt_cons_ne a b held); [by apply H10|]. apply Hne. by right.
  - intros b Hb. rewrite lookup_delete_ne; [apply H11; by right|]. intros <-. apply cnt_pos in Hb. lia.
Qed.

Lemma Unref_ok h lru inuse held a : hrep h lru inuse (a :: held) -> Z.of_nat (length held) + 2 < 2 ^ 32 ->
  exists h' lru' inuse', Unref h a = Done h' /\ hrep h' lru' inuse' held /\ kept h h' /\ (forall b, b <> a -> hash_nexts h' !! b = hash_nexts h !! b) /\
    (lru', inuse') = (if bool_decide (a ∈ inuse /\ cnt a held = 0) then (lru ++ [a], List.filter (fun b => negb (b =? a)) inuse) else (lru, inuse)) /\
    lru' ++ inuse' ≡ₚ lru ++ inuse /\
    (a ∈ lru ++ inuse \/ 0 < cnt a held -> hash_nexts h' = hash_nexts h).
Proof.
  intros Hr Hlen. destruct (hr_held _ _ _ _ Hr a ltac:(left)) as [e Ee]. pose proof (hr_refs _ _ _ _ Hr a e Ee) as [Erefs Hpos]. rewrite cnt_cons_eq in Erefs.
  pose proof (cnt_bound a held) as Hcb. assert (a ∉ lru) as Hnl.
  { intros Hl. pose proof (hr_unused _ _ _ _ Hr a Hl) as E. rewrite cnt_cons_eq in E. lia. }
  assert (e_in_cache e = true <-> a ∈ inuse) as Hin by (rewrite (hr_cached _ _ _ _ Hr a e Ee), elem_of_app; tauto).
  assert (0 <= cache_ref e <= 1) as Hcr by (unfold cache_ref; destruct (e_in_cache e); lia).
  unfold Unref. unfold load. rewrite Ee, run_bind_done, (store_done _ a) by (by eexists). rewrite run_bind_done, u32_small by lia.
  cbn [set_refs e_refs e_in_cache]. set (r := e_refs e - 1) in *.
  destruct (Z.eqb_spec r 0) as [E0|E0].
  - assert (cnt a held = 0 /\ e_in_cache e = false) as [Hc Ec] by (unfold r, cache_ref in *; destruct (e_in_cache e); split; (done || lia)).
    assert (a ∉ inuse) as Hni by (rewrite <- Hin, Ec; done). rewrite bool_decide_eq_false_2 by tauto.
    eexists _, lru, inuse. split; [reflexivity|]. split; [apply (delete_rep _ _ _ _ a e); [done|done|rewrite elem_of_app; tauto|done|done]|]. split.
    + transitivity (with_ents h (<[a := set_refs e r]> (ents h))); [by apply (kept_store h a e)|]. apply kept_delete. apply lookup_insert_eq.
    + split; [intros b Hb; cbn [delete_entry with_ents hash_nexts]; by apply lookup_delete_ne|]. split; [done|]. split; [done|]. intros [[?|?]%elem_of_app|?]; [done|done|lia].
  - assert (forall b, b <> a -> cnt b (a :: held) = cnt b held) as Hcn by (intros b Hb; by apply cnt_cons_ne).
    destruct (decide (a ∈ inuse /\ cnt a held = 0)) as [[Hi Hc]|Hno].
    + rewrite bool_decide_eq_true_2 by done. assert (e_in_cache e = true) as Ec by (by apply Hin). assert (r = 1) as -> by (unfold r, cache_ref in *; rewrite Ec in *; lia).
      rewrite Ec, Z.eqb_refl. cbn [andb]. set (h1 := with_ents h (<[a := set_refs e 1]> (ents h))).
      apply list_elem_of_split in Hi as (l1 & l2 & ->). destruct (LRU_move_ok h1 in_use_ l1 a l2 lru_ lru) as (N & P & E1 & R1 & R2 & DN & DP).
      { apply (hr_inuse _ _ _ _ Hr). } { apply (hr_lru _ _ _ _ Hr). } { intros x Hx Hx'. by apply (lists_apart _ _ _ _ Hr x). }
      rewrite E1. assert ((lru ++ [a]) ++ l1 ++ l2 ≡ₚ lru ++ l1 ++ a :: l2) as Hp by solve_Permutation.
      pose proof (hr_nodup _ _ _ _ Hr) as Hnd. apply list.NoDup_app in Hnd as (_ & _ & Hnd). pose proof (nodup_mid _ _ _ Hnd) as Hmid.
      assert (List.filter (fun b => negb (b =? a)) (l1 ++ a :: l2) = l1 ++ l2) as ->.
      { rewrite List.filter_app. cbn [List.filter]. rewrite Z.eqb_refl. cbn [negb]. rewrite <- List.filter_app.
        rewrite elem_of_app in Hmid. apply List.forallb_filter_id, forallb_forall. intros b Hb. apply negb_true_iff, Z.eqb_neq. intros ->. apply list_elem_of_In in Hb.
        rewrite elem_of_app in Hb. tauto. }
      eexists _, (lru ++ [a]), (l1 ++ l2). split; [reflexivity|]. split; [|split; [|split; [done|split; [done|split; [done|done]]]]].
      * destruct Hr as [H1 H2 H3 H4 H5 H6 H7 H8 H9 H10 H11 H12]. split; cbn [h1 with_ents with_links nexts prevs ents next_addr hash_nexts] in *; try done.
        { by rewrite Hp. }
        { intros b. rewrite insert_some by (by eexists). intros Hb. destruct (H4 b Hb) as (G1 & G2 & G3 & G4). by rewrite DN, DP. }
        { intros b e'. destruct (decide (a = b)) as [<- |Hab]; [rewrite lookup_insert_eq; intros [= <-]; cbn [set_refs e_refs]; unfold cache_ref; cbn [set_refs e_in_cache]; rewrite Ec, Hc; lia|].
          rewrite lookup_insert_ne by done. rewrite <- (Hcn b) by done. apply H5. }
        { intros b e'. destruct (decide (b = a)) as [-> |Hab]; [rewrite lookup_insert_eq; intros [= <-]; exact (H6 a e Ee)|rewrite lookup_insert_ne by done; apply H6]. }
        { intros b e'. rewrite Hp. destruct (decide (b = a)) as [-> |Hab]; [rewrite lookup_insert_eq; intros [= <-]; exact (H7 a e Ee)|rewrite lookup_insert_ne by done; apply H7]. }
        { intros b. rewrite Hp, insert_some by (by eexists). apply H8. }
        { intros b [Hb|Hb%list_elem_of_singleton]%elem_of_app; [|by subst b]. rewrite <- (Hcn b); [by apply H9|by intros ->]. }
        { intros b Hb. rewrite <- (Hcn b); [apply H10; rewrite elem_of_app, elem_of_cons in *; tauto|by intros ->]. }
        { intros b Hb. rewrite insert_some by (by eexists). apply H11. by right. }
      * transitivity h1; [by apply (kept_store h a e)|]. apply kept_links.
    + rewrite bool_decide_eq_false_2 by done.
      assert (e_in_cache e && (r =? 1) = false) as ->.
      { apply not_true_is_false. intros [Ec E1%Z.eqb_eq]%andb_prop. apply Hno. split; [by apply Hin|]. unfold r, cache_ref in *. rewrite Ec in *. lia. }
      eexists _, lru, inuse. split; [reflexivity|]. split; [|split; [by apply (kept_store h a e)|done]].
      apply (refs_rep h lru inuse (a :: held)); [done|done|unfold r; lia|unfold r; lia|intros b Hb; by rewrite Hcn|done|].
      intros Hi. destruct (Z.eq_dec (cnt a held) 0); [tauto|lia].
Qed.

(** ** What the table does not see *)

Lemma table_frame h h' t bs : table_ok h t bs ->
  (forall a e, a ∈ concat bs -> ents h !! a = Some e -> exists e', ents h' !! a = Some e' /\ e_hash e' = e_hash e) ->
  (forall a, a ∈ concat bs -> hash_nexts h' !! a = hash_nexts h !! a) -> table_ok h' t bs.
Proof.
  intros [[Hl Hp Hc Hi Hnd] He Hb] Hents Hf. split; [|done|done]. split; [done|done| | |done].
  - apply Forall2_same_length_lookup. split; [by apply Forall2_length in Hc|]. intros j aj bj Ej Hj. pose proof (Forall2_lookup_lr _ _ _ _ _ _ Hc Ej Hj) as Hcj.
    revert Hcj. apply chain_frame. intros y Hy. apply Hf. by apply (bucket_in bs j bj).
  - intros i b a Hib Ha. destruct (Hi i b a Hib Ha) as (e & Ee & Hr & Hbk). destruct (Hents a e (bucket_in bs i b a Hib Ha) Ee) as (e' & Ee' & Eh).
    exists e'. by rewrite Eh.
Qed.

Lemma kept_table h h' t bs : table_ok h t bs -> kept h h' -> (forall a, a ∈ concat bs -> is_Some (ents h' !! a) /\ hash_nexts h' !! a = hash_nexts h !! a) -> table_ok h' t bs.
Proof.
  intros Ht Hk Hf. apply (table_frame h); [done| |intros a Ha; by apply Hf]. intros a e Ha Ee. destruct (Hf a Ha) as [[e' Ee'] _].
  destruct (kp_data _ _ Hk a e' Ee') as (e1 & Ee1 & (_ & _ & _ & Eh)). exists e'. split; [done|]. congruence.
Qed.

Lemma hash_rep h lru inuse held M : hrep h lru inuse held -> (forall y, is_Some (M !! y) <-> is_Some (hash_nexts h !! y)) -> hrep (with_hash h M) lru inuse held.
Proof.
  intros [H1 H2 H3 H4 H5 H6 H7 H8 H9 H10 H11 H12] Hd. split; cbn [with_hash nexts prevs ents next_addr hash_nexts]; try done.
  intros a Ha. rewrite Hd. by apply H4.
Qed.

Lemma kept_hash h M : kept h (with_hash h M).
Proof. split; [exact (data_sub_refl h)|done|done]. Qed.

(** * One shard *)

Definition charge_of h a : Z := match ents h !! a with Some e => e_charge e | None => 0 end.
Definition charges h l : Z := foldr (fun a s => charge_of h a + s) 0 l.

Lemma charges_perm h l l' : l ≡ₚ l' -> charges h l = charges h l'.
Proof. unfold charges. intros Hp. induction Hp; cbn [foldr]; [done|by f_equal|lia|congruence]. Qed.

Lemma charges_kept h h' l : kept h h' -> (forall a, a ∈ l -> is_Some (ents h' !! a)) -> charges h' l = charges h l.
Proof.
  intros Hk. induction l as [|a l IH]; intros Hin; [done|]. cbn [charges foldr]. f_equal; [|apply IH; intros b Hb; apply Hin; by right].
  destruct (Hin a ltac:(left)) as [e' Ee']. destruct (kp_data _ _ Hk a e' Ee') as (e & Ee & (_ & _ & Ec & _)). unfold charge_of. by rewrite Ee, Ee'.
Qed.

Definition distinct_keys h l : Prop :=
  forall a b ea eb, a ∈ l -> b ∈ l -> ents h !! a = Some ea -> ents h !! b = Some eb -> e_key ea = e_key eb -> a = b.

Lemma distinct_kept h h' l l' : kept h h' -> (forall a, a ∈ l' -> a ∈ l) -> distinct_keys h l -> distinct_keys h' l'.
Proof.
  intros Hk Hsub Hd a b ea eb Ha Hb Ea Eb Ek. destruct (kp_data _ _ Hk a ea Ea) as (ea1 & Ea1 & (K1 & _)), (kp_data _ _ Hk b eb Eb) as (eb1 & Eb1 & (K2 & _)).
  apply (Hd a b ea1 eb1); auto. congruence.
Qed.

(** [lru] and [inuse]: the lists, the oldest entry first; [held]: the handles that clients
    hold; [gone]: the entries that left the table and are still in the lists. *)
Record rep (c : LRUCache V) bs lru inuse held gone : Prop := {
  rp_heap : hrep (heap c) lru inuse held;
  rp_table : table_ok (heap c) (table_ c) bs;
  rp_same : concat bs ++ gone ≡ₚ lru ++ inuse;
  rp_keys : distinct_keys (heap c) (concat bs);
  rp_usage : usage_ c = u64 (charges (heap c) (lru ++ inuse));
}.

Definition without a l : list Z := List.filter (fun b => negb (b =? a)) l.

Lemma without_notin a l : a ∉ l -> without a l = l.
Proof.
  intros Ha. unfold without. apply List.forallb_filter_id, forallb_forall. intros b Hb. apply negb_true_iff, Z.eqb_neq. intros ->. by apply list_elem_of_In in Hb.
Qed.

Lemma without_app a l l' : without a (l ++ l') = without a l ++ without a l'.
Proof. apply List.filter_app. Qed.

Lemma without_split l1 a l2 : NoDup (l1 ++ a :: l2) -> without a (l1 ++ a :: l2) = l1 ++ l2.
Proof.
  intros Hnd%nodup_mid. rewrite elem_of_app in Hnd. rewrite without_app. unfold without at 2. cbn [List.filter]. rewrite Z.eqb_refl. cbn [negb].
  fold (without a l2). rewrite !without_notin by tauto. done.
Qed.

Lemma in_without a l x : x ∈ without a l <-> x ∈ l /\ x <> a.
Proof. unfold without. by rewrite list_elem_of_In, filter_In, negb_true_iff, Z.eqb_neq, <- list_elem_of_In. Qed.

Lemma without_perm a l : NoDup l -> a ∈ l -> l ≡ₚ a :: without a l.
Proof. intros Hnd (l1 & l2 & ->)%list_elem_of_split. rewrite without_split by done. solve_Permutation. Qed.

(** Leaving the lists: the reference of the cache becomes one that is to be given back. *)
Lemma leave_lists h lru inuse held a : hrep h lru inuse held -> a ∈ lru ++ inuse ->
  exists e N P, ents h !! a = Some e /\ LRU_Remove h a = Done (with_links h N P) /\
    hrep (with_ents (with_links h N P) (<[a := set_in_cache e false]> (ents h))) (without a lru) (without a inuse) (a :: held).
Proof.
  intros Hr Ha. destruct (hr_in _ _ _ _ Hr a Ha) as [e Ee]. pose proof (proj2 (hr_cached _ _ _ _ Hr a e Ee) Ha) as Ec.
  pose proof (hr_refs _ _ _ _ Hr a e Ee) as [Erefs Hpos]. unfold cache_ref in Erefs. rewrite Ec in Erefs. pose proof (hr_nodup _ _ _ _ Hr) as Hnd.
  assert (exists N P, LRU_Remove h a = Done (with_links h N P) /\ ring N P lru_ (without a lru) /\ ring N P in_use_ (without a inuse) /\
    (forall b, is_Some (N !! b) <-> is_Some (nexts h !! b)) /\ (forall b, is_Some (P !! b) <-> is_Some (prevs h !! b))) as (N & P & E1 & R1 & R2 & DN & DP).
  { pose proof Hnd as Hnd'. apply list.NoDup_app in Hnd' as (Hnd1 & Hd & Hnd2). destruct (app_split a lru inuse Ha) as [(l1 & l2 & ->)|(l1 & l2 & ->)].
    - destruct (LRU_Remove_ok h lru_ l1 a l2 (hr_lru _ _ _ _ Hr)) as (N & P & E1 & R1 & [FN DN] & [FP DP]). exists N, P. split; [done|].
      rewrite without_split by done. rewrite (without_notin a inuse) by (apply Hd; rewrite elem_of_app; right; left). split; [done|]. split; [|done].
      pose proof (hr_inuse _ _ _ _ Hr) as R2. revert R2. apply ring_frame. intros b Hb. assert (b ∉ lru_ :: l1 ++ l2); [|by split; [apply FN|apply FP]].
      intros Hb'. apply (lists_apart _ _ _ _ Hr b); [|done]. rewrite !elem_of_cons, !elem_of_app, ?elem_of_cons in *. tauto.
    - destruct (LRU_Remove_ok h in_use_ l1 a l2 (hr_inuse _ _ _ _ Hr)) as (N & P & E1 & R2 & [FN DN] & [FP DP]). exists N, P. split; [done|].
      rewrite without_split by done. rewrite (without_notin a lru) by (intros Hl; apply (Hd a Hl); rewrite elem_of_app; right; left). split; [|done].
      pose proof (hr_lru _ _ _ _ Hr) as R1. revert R1. apply ring_frame. intros b Hb. assert (b ∉ in_use_ :: l1 ++ l2); [|by split; [apply FN|apply FP]].
      intros Hb'. apply (lists_apart _ _ _ _ Hr b); [done|]. rewrite !elem_of_cons, !elem_of_app, ?elem_of_cons in *. tauto. }
  exists e, N, P. split; [done|]. split; [done|]. pose proof (without_perm a _ Hnd Ha) as Hp.
  assert (forall b, b ∈ without a lru ++ without a inuse -> b ∈ lru ++ inuse /\ b <> a) as Hsub.
  { intros b. rewrite <- without_app. unfold without. rewrite list_elem_of_In, filter_In, negb_true_iff, Z.eqb_neq, <- list_elem_of_In. done. }
  assert (forall l b, b ∈ without a l -> b ∈ l /\ b <> a) as Hsub1.
  { intros l b. unfold without. rewrite list_elem_of_In, filter_In, negb_true_iff, Z.eqb_neq, <- list_elem_of_In. done. }
  destruct Hr as [H1 H2 H3 H4 H5 H6 H7 H8 H9 H10 H11 H12]. split; cbn [with_ents with_links nexts prevs ents next_addr hash_nexts]; try done.
  - rewrite <- without_app. rewrite Hp in Hnd. by apply list.NoDup_cons in Hnd as [_ ?].
  - intros b. rewrite insert_some by (by eexists). intros Hb. destruct (H4 b Hb) as (G1 & G2 & G3 & G4). by rewrite DN, DP.
  - intros b e'. destruct (decide (b = a)) as [-> |Hab]; [rewrite lookup_insert_eq, cnt_cons_eq; intros [= <-]; unfold cache_ref; cbn [set_in_cache e_refs e_in_cache]; lia|].
    rewrite lookup_insert_ne by done. rewrite cnt_cons_ne by done. apply H5.
  - intros b e'. destruct (decide (b = a)) as [-> |Hab]; [rewrite lookup_insert_eq; intros [= <-]; exact (H6 a e Ee)|rewrite lookup_insert_ne by done; apply H6].
  - intros b e'. destruct (decide (b = a)) as [-> |Hab].
    + rewrite lookup_insert_eq. intros [= <-]. cbn [set_in_cache e_in_cache]. split; [done|]. intros Hb. by destruct (Hsub a Hb).
    + rewrite lookup_insert_ne by done. intros Eb. rewrite (H7 b e' Eb). rewrite <- without_app. unfold without.
      rewrite (list_elem_of_In (List.filter _ _)), filter_In, negb_true_iff, Z.eqb_neq, <- list_elem_of_In. tauto.
  - intros b Hb. rewrite insert_some by (by eexists). apply H8. by apply Hsub.
  - intros b [Hb Hne]%Hsub1. rewrite cnt_cons_ne by done. auto.
  - intros b [Hb Hne]%Hsub1. rewrite cnt_cons_ne by done. auto.
  - intros b [-> |Hb]%elem_of_cons; rewrite insert_some by (by eexists); [by eexists|auto].
Qed.

Lemma FinishErase_ok c bs lru inuse held a : rep c bs lru inuse held [a] -> Z.of_nat (length held) + 2 < 2 ^ 32 ->
  exists c', FinishErase c a = Done (true, c') /\ rep c' bs (without a lru) (without a inuse) held [] /\ kept (heap c) (heap c') /\
    capacity_ c' = capacity_ c /\ table_ c' = table_ c /\ usage_ c' = u64 (usage_ c - charge_of (heap c) a).
Proof.
  intros [Hr Ht Hsame Hkeys Hu] Hlen. assert (a ∈ lru ++ inuse) as Ha by (rewrite <- Hsame, elem_of_app; right; left).
  destruct (leave_lists _ _ _ _ a Hr Ha) as (e & N & P & Ee & E1 & Hr1). destruct (hr_addr _ _ _ _ Hr a ltac:(by eexists)) as (Hge & _).
  unfold FinishErase. rewrite (proj2 (Z.eqb_neq _ _)) by (unfold nullptr; lia). rewrite E1, run_bind_done. unfold load. cbn [with_links ents]. rewrite Ee, run_bind_done, (store_done _ a) by (by eexists).
  rewrite run_bind_done. set (h1 := with_ents _ _) in *. assert (kept (heap c) h1) as Hk1.
  { transitivity (with_links (heap c) N P); [apply kept_links|]. by apply (kept_store (with_links (heap c) N P) a e). }
  pose proof (hr_nodup _ _ _ _ Hr) as Hnd. pose proof (without_perm a _ Hnd Ha) as Hp. rewrite without_app in Hp.
  assert (a ∉ without a lru ++ without a inuse) as Hna by (rewrite Hp in Hnd; by apply list.NoDup_cons in Hnd as [? _]).
  destruct (Unref_ok h1 _ _ held a Hr1 Hlen) as (h2 & lru2 & inuse2 & E2 & Hr2 & Hk2 & Hh2 & Elists & _ & _).
  rewrite bool_decide_eq_false_2 in Elists by (intros [Hi _]; apply Hna; rewrite elem_of_app; by right). injection Elists as -> ->.
  rewrite E2, run_bind_done. assert (kept (heap c) h2) as Hk by (by transitivity h1).
  assert (concat bs ≡ₚ without a lru ++ without a inuse) as Hsame'.
  { rewrite Hp in Hsame. rewrite Permutation_app_comm in Hsame. cbn [app] in Hsame. by apply Permutation_cons_inv in Hsame. }
  eexists. split; [reflexivity|]. cbn [with_usage with_heap heap capacity_ table_ usage_]. split; [|split; [done|split; [done|split; [done|by unfold charge_of; rewrite Ee]]]].
  split; cbn [with_usage with_heap heap capacity_ table_ usage_].
  - done.
  - apply (kept_table (heap c)); [done|done|]. intros b Hb. rewrite Hsame' in Hb. split; [by apply (hr_in _ _ _ _ Hr2)|]. apply Hh2. by intros ->.
  - by rewrite app_nil_r.
  - by apply (distinct_kept (heap c) h2 (concat bs)).
  - rewrite (charges_kept (heap c)) by (done || apply (hr_in _ _ _ _ Hr2)). rewrite Hu, (charges_perm _ _ _ Hp). cbn [charges foldr]. unfold charge_of at 1. rewrite Ee.
    unfold u64. rewrite Zminus_mod_idemp_l. f_equal. unfold charges. lia.
Qed.

Lemma matches_key h lru inuse held key a : hrep h lru inuse held -> matches (ents h) key (hash_of key) a <-> exists e, ents h !! a = Some e /\ e_key e = key.
Proof.
  intros Hr. split; [by intros (e & Ee & _ & Ek); exists e|]. intros (e & Ee & Ek). exists e. split; [done|]. split; [|done]. by rewrite (hr_hash _ _ _ _ Hr a e Ee), Ek.
Qed.

(** What a call that only takes entries away does. *)
Record shrinks (c c' : LRUCache V) : Prop := {
  sh_kept : kept (heap c) (heap c');
  sh_capacity : capacity_ c' = capacity_ c;
}.

#[local] Instance shrinks_preorder : PreOrder shrinks.
Proof.
  split; [intros c; split; reflexivity|]. intros c1 c2 c3 [K1 C1] [K2 C2]. split; [by transitivity (heap c2)|congruence].
Qed.

(** ** Removing by key *)

Lemma lru_Erase_ok c bs lru inuse held key : rep c bs lru inuse held [] -> Z.of_nat (length held) + 2 < 2 ^ 32 ->
  exists c', lru_Erase c key (hash_of key) = Done c' /\ shrinks c c' /\
    ((forall x e, x ∈ concat bs -> ents (heap c) !! x = Some e -> e_key e <> key) /\ rep c' bs lru inuse held [] /\ usage_ c' = usage_ c \/
     exists a e bs', ents (heap c) !! a = Some e /\ e_key e = key /\ concat bs ≡ₚ a :: concat bs' /\ rep c' bs' (without a lru) (without a inuse) held []).
Proof.
  intros [Hr Ht Hsame Hkeys Hu] Hlen. unfold lru_Erase.
  destruct (ht_Remove_ok _ _ _ key (hash_of key) Ht (hash_range key)) as (a & M' & t' & -> & Hdom & Hcase). rewrite run_bind_done.
  pose proof (hash_rep _ _ _ _ M' Hr Hdom) as Hr'. destruct Hcase as [(-> & Hno & Ht')|(Hna & Hm & bs' & Ht' & Hp)].
  - eexists. split; [reflexivity|]. split; [by split; [apply kept_hash|]|]. left. split; [|split; [|done]].
    + intros x e Hx Ee Ek. apply (Hno x Hx). apply (matches_key _ _ _ _ key x Hr). by exists e.
    + by split.
  - apply (matches_key _ _ _ _ key a Hr) in Hm as (e & Ee & Ek). rewrite app_nil_r in Hsame.
    destruct (FinishErase_ok (with_table c (with_hash (heap c) M') t') bs' lru inuse held a) as (c' & -> & Hrep & Hk & Hcap & _); [|done|].
    { split; cbn [with_table heap table_ usage_]; [done|done|by rewrite <- Permutation_cons_append, <- Hp| |done].
      apply (distinct_kept (heap c) _ (concat bs)); [apply kept_hash| |done]. intros x Hx. rewrite Hp. by right. }
    rewrite run_bind_done. exists c'. split; [done|]. split; [split; [|done]; transitivity (with_hash (heap c) M'); [apply kept_hash|done]|].
    right. by exists a, e, bs'.
Qed.

(** The entry that is first in the list of unused entries goes. *)
Lemma evict_oldest_ok c bs a lru inuse held : rep c bs (a :: lru) inuse held [] -> Z.of_nat (length held) + 2 < 2 ^ 32 ->
  exists c' bs', evict_oldest c a = Done c' /\ shrinks c c' /\ concat bs ≡ₚ a :: concat bs' /\ rep c' bs' lru inuse held [].
Proof.
  intros Hrep Hlen. pose proof Hrep as [Hr Ht Hsame Hkeys Hu]. assert (a ∈ concat bs) as Ha by (rewrite app_nil_r in Hsame; rewrite Hsame; left).
  destruct (hr_in _ _ _ _ Hr a ltac:(left)) as [e Ee]. unfold evict_oldest, load. rewrite Ee, run_bind_done, (hr_hash _ _ _ _ Hr a e Ee).
  destruct (lru_Erase_ok c bs _ inuse held (e_key e) Hrep Hlen) as (c' & E1 & Hsh & [(Hno & _)|(b & eb & bs' & Eb & Ek & Hp & Hrep')]); [by destruct (Hno a e Ha Ee)|].
  assert (b = a) as -> by (apply (Hkeys b a eb e); auto; rewrite Hp; left). exists c', bs'. split; [done|]. split; [done|]. split; [done|].
  pose proof (hr_nodup _ _ _ _ Hr) as Hnd. cbn [app] in Hnd. apply list.NoDup_cons in Hnd as [Hna _]. rewrite elem_of_app in Hna.
  rewrite (without_notin a inuse) in Hrep' by tauto. change (a :: lru) with ([a] ++ lru) in Hrep'. rewrite without_app, (without_notin a lru) in Hrep' by tauto.
  unfold without in Hrep'. cbn [List.filter] in Hrep'. by rewrite Z.eqb_refl in Hrep'.
Qed.

(** The next of the dummy head. *)
Lemma first_unused h lru inuse held : hrep h lru inuse held -> nexts h !! lru_ = Some (first_of lru lru_).
Proof. intros Hr. pose proof (hr_lru _ _ _ _ Hr) as [Hs _]. by destruct (seg_ends _ _ _ _ _ Hs) as (_ & ? & _). Qed.

Lemma first_not_head h a lru inuse held : hrep h (a :: lru) inuse held -> (a =? lru_) = false.
Proof.
  intros Hr. destruct (hr_addr _ _ _ _ Hr a (hr_in _ _ _ _ Hr a ltac:(left))) as (Ha & _). apply Z.eqb_neq. unfold lru_. lia.
Qed.

(** Entries go oldest first, and only while too much is charged. *)
Lemma evict_loop_ok fuel : forall c bs lru inuse held, rep c bs lru inuse held [] -> Z.of_nat (length held) + 2 < 2 ^ 32 -> (length lru < fuel)%nat ->
  exists c' bs' dropped lru', evict_loop fuel c = Done c' /\ shrinks c c' /\ lru = dropped ++ lru' /\ concat bs ≡ₚ dropped ++ concat bs' /\
    rep c' bs' lru' inuse held [] /\ (usage_ c' <= capacity_ c \/ lru' = []) /\
    (forall d x, dropped = d ++ [x] -> capacity_ c < u64 (charges (heap c) (x :: lru' ++ inuse))).
Proof.
  induction fuel as [|fuel IH]; intros c bs lru inuse held Hrep Hlen Hf; [lia|]. cbn [evict_loop]. pose proof (rp_heap _ _ _ _ _ _ Hrep) as Hr.
  assert (forall (P : Prop), (usage_ c <= capacity_ c \/ lru = []) -> exists c' bs' dropped lru', Done c = Done c' /\ shrinks c c' /\ lru = dropped ++ lru' /\ concat bs ≡ₚ dropped ++ concat bs' /\
    rep c' bs' lru' inuse held [] /\ (usage_ c' <= capacity_ c \/ lru' = []) /\ (forall d x, dropped = d ++ [x] -> capacity_ c < u64 (charges (heap c) (x :: lru' ++ inuse)))) as Hstop.
  { intros _ Hor. exists c, bs, [], lru. split; [done|]. split; [reflexivity|]. split; [done|]. split; [done|]. split; [done|]. split; [done|]. by intros [|] x. }
  rewrite Z.gtb_ltb. destruct (Z.ltb_spec (capacity_ c) (usage_ c)) as [Hu|Hu]; [|apply (Hstop True); by left]. unfold load. rewrite (first_unused _ _ _ _ Hr), run_bind_done.
  destruct lru as [|a lru]; [apply (Hstop True); by right|]. change (first_of (a :: lru) lru_) with a. rewrite (first_not_head _ _ _ _ _ Hr). cbn [negb].
  destruct (evict_oldest_ok c bs a lru inuse held Hrep Hlen) as (c1 & bs1 & -> & Hsh & Hp & Hrep1). rewrite run_bind_done.
  destruct (IH c1 bs1 lru inuse held Hrep1 Hlen) as (c' & bs' & dropped & lru' & -> & Hsh' & -> & Hp' & Hrep' & Hdone & Hmin); [cbn in Hf; lia|].
  pose proof (sh_capacity _ _ Hsh) as Ecap. rewrite Ecap in Hdone, Hmin. exists c', bs', (a :: dropped), lru'. split; [done|]. split; [by transitivity c1|]. split; [done|].
  split; [by rewrite Hp, Hp'|]. split; [done|]. split; [done|]. intros d x Ed. destruct dropped as [|y dropped].
  - destruct d as [|? [|]]; [|done|done]. injection Ed as <-. rewrite (rp_usage _ _ _ _ _ _ Hrep) in Hu. done.
  - destruct d as [|? d]; [done|]. injection Ed as _ Ed. pose proof (Hmin d x Ed) as Hm. rewrite (charges_kept (heap c)) in Hm; [done|apply Hsh|].
    intros b Hb. apply (hr_in _ _ _ _ (rp_heap _ _ _ _ _ _ Hrep1)). rewrite Ed. rewrite elem_of_cons, !elem_of_app in *. rewrite list_elem_of_singleton. tauto.
Qed.

Lemma prune_loop_ok fuel : forall c bs lru inuse held, rep c bs lru inuse held [] -> Z.of_nat (length held) + 2 < 2 ^ 32 -> (length lru < fuel)%nat ->
  exists c' bs', prune_loop fuel c = Done c' /\ shrinks c c' /\ concat bs ≡ₚ lru ++ concat bs' /\ rep c' bs' [] inuse held [].
Proof.
  induction fuel as [|fuel IH]; intros c bs lru inuse held Hrep Hlen Hf; [lia|]. cbn [prune_loop]. pose proof (rp_heap _ _ _ _ _ _ Hrep) as Hr.
  unfold load. rewrite (first_unused _ _ _ _ Hr), run_bind_done. destruct lru as [|a lru]; [exists c, bs; split; [done|]; split; [reflexivity|done]|].
  change (first_of (a :: lru) lru_) with a. rewrite (first_not_head _ _ _ _ _ Hr). cbn [negb].
  destruct (evict_oldest_ok c bs a lru inuse held Hrep Hlen) as (c1 & bs1 & -> & Hsh & Hp & Hrep1). rewrite run_bind_done.
  destruct (IH c1 bs1 lru inuse held Hrep1 Hlen) as (c' & bs' & -> & Hsh' & Hp' & Hrep'); [cbn in Hf; lia|].
  exists c', bs'. split; [done|]. split; [by transitivity c1|]. split; [by rewrite Hp, Hp'|done].
Qed.

Lemma unused_fuel h lru inuse held : hrep h lru inuse held -> (length lru < chain_fuel h)%nat.
Proof.
  intros Hr. unfold chain_fuel. enough (length lru <= base.size (ents h))%nat by lia. apply size_bound.
  - pose proof (hr_nodup _ _ _ _ Hr) as Hnd. by apply list.NoDup_app in Hnd as (? & _).
  - intros a Ha. apply (hr_in _ _ _ _ Hr). rewrite elem_of_app. by left.
Qed.

(** ** A new entry *)

Lemma fresh_addr h lru inuse held : hrep h lru inuse held -> ents h !! next_addr h = None.
Proof.
  intros Hr. destruct (ents h !! next_addr h) eqn:E; [|done]. destruct (hr_addr _ _ _ _ Hr (next_addr h) ltac:(by eexists)). lia.
Qed.

Lemma fresh_lists h lru inuse held : hrep h lru inuse held -> forall b, b ∈ lru_ :: in_use_ :: lru ++ inuse -> b <> next_addr h.
Proof.
  intros Hr b Hb ->. pose proof (hr_next _ _ _ _ Hr). unfold lru_, in_use_ in Hb. rewrite !elem_of_cons in Hb. destruct Hb as [|[|Hb]]; [lia|lia|].
  destruct (hr_in _ _ _ _ Hr _ Hb) as [e Ee]. by rewrite (fresh_addr _ _ _ _ Hr) in Ee.
Qed.

Lemma fresh_held h lru inuse held : hrep h lru inuse held -> cnt (next_addr h) held = 0.
Proof.
  intros Hr. pose proof (cnt_bound (next_addr h) held). destruct (Z.eq_dec (cnt (next_addr h) held) 0); [done|].
  destruct (hr_held _ _ _ _ Hr (next_addr h)) as [e Ee]; [apply cnt_pos; lia|]. by rewrite (fresh_addr _ _ _ _ Hr) in Ee.
Qed.

Lemma new_accounted h lru inuse held e : hrep h lru inuse held -> accounted (snd (new_entry h e)) ≡ₚ (e_key e, e_value e) :: accounted h.
Proof.
  intros Hr. unfold accounted, new_entry, alive. cbn [snd ents deletions]. rewrite map_to_list_insert by (by apply (fresh_addr _ _ _ _ Hr)). cbn. solve_Permutation.
Qed.

Lemma new_data h lru inuse held e : hrep h lru inuse held -> data_sub h (snd (new_entry h e)).
Proof.
  intros Hr a e' Ee. exists e'. split; [|done]. cbn [new_entry snd ents]. rewrite lookup_insert_ne; [done|]. intros <-. by rewrite (fresh_addr _ _ _ _ Hr) in Ee.
Qed.

(** The fields that the lists do not matter for. *)
Lemma new_rings h lru inuse held e : hrep h lru inuse held -> let h' := snd (new_entry h e) in ring (nexts h') (prevs h') lru_ lru /\ ring (nexts h') (prevs h') in_use_ inuse.
Proof.
  intros Hr h'. pose proof (fresh_lists _ _ _ _ Hr) as Hne. split; [pose proof (hr_lru _ _ _ _ Hr) as R|pose proof (hr_inuse _ _ _ _ Hr) as R]; revert R;
    apply ring_frame; intros b Hb; (assert (next_addr h <> b) as Hab; [|cbn [h' new_entry snd nexts prevs]; by rewrite !lookup_insert_ne]); intros E;
    apply (Hne b); auto; rewrite !elem_of_cons, elem_of_app in *; tauto.
Qed.

Lemma new_domain h lru inuse held e (N P : gmap Z Z) b : hrep h lru inuse held -> let h' := snd (new_entry h e) in
  (forall b, is_Some (N !! b) <-> is_Some (nexts h' !! b)) -> (forall b, is_Some (P !! b) <-> is_Some (prevs h' !! b)) -> is_Some (ents h' !! b) ->
  3 <= b < next_addr h' /\ is_Some (N !! b) /\ is_Some (P !! b) /\ is_Some (hash_nexts h' !! b).
Proof.
  intros Hr h' DN DP. rewrite DN, DP. cbn [h' new_entry snd nexts prevs ents next_addr hash_nexts]. pose proof (hr_next _ _ _ _ Hr) as Hn. destruct (decide (b = next_addr h)) as [-> |Hb].
  - rewrite !lookup_insert_eq. intros _. split; [lia|]. repeat split; by eexists.
  - rewrite !lookup_insert_ne by done. intros Hb'. destruct (hr_addr _ _ _ _ Hr b Hb') as (G1 & G2). split; [lia|done].
Qed.

(** Turned off, the cache only hands the entry out. *)
Lemma new_uncached_rep h lru inuse held e : hrep h lru inuse held -> e_in_cache e = false -> e_refs e = 1 -> e_hash e = hash_of (e_key e) ->
  hrep (snd (new_entry h e)) lru inuse (next_addr h :: held).
Proof.
  intros Hr Ec Er Eh. destruct (new_rings _ _ _ _ e Hr) as [R1 R2]. pose proof (fresh_lists _ _ _ _ Hr) as Hne. pose proof (fresh_held _ _ _ _ Hr) as Hc.
  pose proof (fun N P b => new_domain h _ _ _ e N P b Hr) as Hd. set (a := next_addr h) in *.
  assert (forall b, b ∈ lru ++ inuse -> b <> a) as Hna by (intros b Hb; apply Hne; by do 2 right).
  destruct Hr as [H1 H2 H3 H4 H5 H6 H7 H8 H9 H10 H11 H12]. cbn [new_entry snd] in *. fold a in R1, R2, Hd |- *. split; try done.
  - intros b. by apply Hd.
  - intros b e'. cbn [ents]. destruct (decide (b = a)) as [-> |Hb]; [rewrite lookup_insert_eq, cnt_cons_eq; intros [= <-]; unfold cache_ref; rewrite Ec; lia|].
    rewrite lookup_insert_ne, cnt_cons_ne by done. apply H5.
  - intros b e'. cbn [ents]. destruct (decide (b = a)) as [-> |Hb]; [rewrite lookup_insert_eq; by intros [= <-]|rewrite lookup_insert_ne by done; apply H6].
  - intros b e'. cbn [ents]. destruct (decide (b = a)) as [-> |Hb]; [|rewrite lookup_insert_ne by done; apply H7]. rewrite lookup_insert_eq. intros [= <-]. rewrite Ec.
    split; [done|]. intros Hb. by destruct (Hna a Hb).
  - intros b Hb. cbn [ents]. rewrite lookup_insert_ne; [by apply H8|]. intros E. by apply (Hna b Hb).
  - intros b Hb. rewrite cnt_cons_ne; [by apply H9|]. apply Hna. rewrite elem_of_app. by left.
  - intros b Hb. rewrite cnt_cons_ne; [by apply H10|]. apply Hna. rewrite elem_of_app. by right.
  - intros b [-> |Hb]%elem_of_cons; cbn [ents]; [rewrite lookup_insert_eq; by eexists|]. destruct (decide (b = a)) as [-> |Hba]; [rewrite lookup_insert_eq; by eexists|].
    rewrite lookup_insert_ne by done. auto.
  - cbn [next_addr]. lia.
Qed.

Lemma new_cached_rep h lru inuse held e : hrep h lru inuse held -> e_in_cache e = true -> e_refs e = 2 -> e_hash e = hash_of (e_key e) ->
  exists N P, let h' := snd (new_entry h e) in LRU_Append h' in_use_ (next_addr h) = Done (with_links h' N P) /\
    hrep (with_links h' N P) lru (inuse ++ [next_addr h]) (next_addr h :: held).
Proof.
  intros Hr Ec Er Eh. destruct (new_rings _ _ _ _ e Hr) as [R1 R2]. pose proof (fresh_lists _ _ _ _ Hr) as Hne. pose proof (fresh_held _ _ _ _ Hr) as Hc.
  pose proof (fun N P b => new_domain h _ _ _ e N P b Hr) as Hd. pose proof (lists_apart _ _ _ _ Hr) as Hapart. set (a := next_addr h) in *.
  assert (forall b, b ∈ lru ++ inuse -> b <> a) as Hna by (intros b Hb; apply Hne; by do 2 right).
  assert (a ∉ in_use_ :: inuse) as Hai by (intros Hb; apply (Hne a); [|done]; rewrite !elem_of_cons, elem_of_app in *; tauto).
  destruct (LRU_Append_ok (snd (new_entry h e)) in_use_ inuse a R2 Hai) as (N & P & E1 & R2' & [FN DN] & [FP DP]).
  { cbn [new_entry snd nexts]. fold a. rewrite lookup_insert_eq. by eexists. } { cbn [new_entry snd prevs]. fold a. rewrite lookup_insert_eq. by eexists. }
  exists N, P. split; [done|]. pose proof (hr_nodup _ _ _ _ Hr) as Hnd.
  assert (ring N P lru_ lru) as R1'.
  { revert R1. apply ring_frame. intros b Hb. assert (b ∉ in_use_ :: inuse ++ [a]) as Hb'; [|split; [by apply FN|by apply FP]].
    rewrite app_comm_cons, elem_of_app, list_elem_of_singleton. intros [Hi|E]; [by apply (Hapart b)|]. apply (Hne b); [|done]. rewrite !elem_of_cons, elem_of_app in *. tauto. }
  destruct Hr as [H1 H2 H3 H4 H5 H6 H7 H8 H9 H10 H11 H12]. cbn [new_entry snd] in *. fold a in R1, R2, Hd |- *. split; cbn [with_links nexts prevs ents next_addr hash_nexts]; try done.
  - rewrite app_assoc, <- Permutation_cons_append. apply list.NoDup_cons. split; [|done]. intros Hb. by apply (Hna a).
  - intros b. by apply Hd.
  - intros b e'. destruct (decide (b = a)) as [-> |Hb]; [rewrite lookup_insert_eq, cnt_cons_eq; intros [= <-]; unfold cache_ref; rewrite Ec; lia|].
    rewrite lookup_insert_ne, cnt_cons_ne by done. apply H5.
  - intros b e'. destruct (decide (b = a)) as [-> |Hb]; [rewrite lookup_insert_eq; by intros [= <-]|rewrite lookup_insert_ne by done; apply H6].
  - intros b e'. rewrite app_assoc, elem_of_app, list_elem_of_singleton. destruct (decide (b = a)) as [-> |Hb].
    + rewrite lookup_insert_eq. intros [= <-]. rewrite Ec. split; [by right|done].
    + rewrite lookup_insert_ne by done. intros Eb. rewrite (H7 b e' Eb). tauto.
  - intros b. rewrite app_assoc, elem_of_app, list_elem_of_singleton. destruct (decide (b = a)) as [-> |Hb]; [rewrite lookup_insert_eq; by eexists|]. rewrite lookup_insert_ne by done.
    intros [Hin|]; [by apply H8|done].
  - intros b Hb. rewrite cnt_cons_ne; [by apply H9|]. apply Hna. rewrite elem_of_app. by left.
  - intros b [Hb|Hb%list_elem_of_singleton]%elem_of_app; [|subst b; rewrite cnt_cons_eq; lia]. rewrite cnt_cons_ne; [by apply H10|]. apply Hna. rewrite elem_of_app. by right.
  - intros b [-> |Hb]%elem_of_cons; [rewrite lookup_insert_eq; by eexists|]. destruct (decide (b = a)) as [-> |Hba]; [rewrite lookup_insert_eq; by eexists|].
    rewrite lookup_insert_ne by done. auto.
  - lia.
Qed.

(** ** Inserting *)

(** [old]: the entry of the key, if there is one. *)
Definition replaced h bs key old : Prop :=
  old = nullptr /\ (forall x e, x ∈ concat bs -> ents h !! x = Some e -> e_key e <> key) \/
  old ∈ concat bs /\ exists e, ents h !! old = Some e /\ e_key e = key.

(** All data of [c'] is that of [c], but for the new entry. *)
Record grows (c c' : LRUCache V) key v charge : Prop := {
  gr_data b e' : ents (heap c') !! b = Some e' ->
    b = next_addr (heap c) /\ e_key e' = key /\ e_value e' = v /\ e_charge e' = charge \/ exists e, ents (heap c) !! b = Some e /\ same_data e' e;
  gr_accounted : accounted (heap c') ≡ₚ (key, v) :: accounted (heap c);
  gr_capacity : capacity_ c' = capacity_ c;
}.

Lemma grows_shrinks c c1 c' key v charge : grows c c1 key v charge -> shrinks c1 c' -> grows c c' key v charge.
Proof.
  intros [G1 G2 G3] [[K1 K2 K3] C]. split; [|by rewrite K2|congruence]. intros b e' Ee'. destruct (K1 b e' Ee') as (e1 & Ee1 & (A1 & A2 & A3 & A4)).
  destruct (G1 b e1 Ee1) as [(-> & B1 & B2 & B3)|(e & Ee & (B1 & B2 & B3 & B4))]; [left|right; exists e; split; [done|]; split; [congruence|]; split; [congruence|]; split; congruence].
  split; [done|]. split; [congruence|]. split; congruence.
Qed.

Lemma grows_new c c' lru inuse held e : hrep (heap c) lru inuse held -> kept (snd (new_entry (heap c) e)) (heap c') -> capacity_ c' = capacity_ c ->
  grows c c' (e_key e) (e_value e) (e_charge e).
Proof.
  intros Hr Hk Hc. split; [|by rewrite (kp_accounted _ _ Hk), (new_accounted _ _ _ _ e Hr)|done].
  intros b e' Ee'. destruct (kp_data _ _ Hk b e' Ee') as (e1 & Ee1 & Hs). cbn [new_entry snd ents] in Ee1. destruct (decide (b = next_addr (heap c))) as [-> |Hb].
  - rewrite lookup_insert_eq in Ee1. injection Ee1 as <-. left. destruct Hs as (? & ? & ? & _). done.
  - rewrite lookup_insert_ne in Ee1 by done. right. by exists e1.
Qed.

Lemma table_new h lru inuse held e t bs N P : hrep h lru inuse held -> table_ok h t bs -> (forall x, x ∈ concat bs -> x <> next_addr h) ->
  table_ok (with_links (snd (new_entry h e)) N P) t bs.
Proof.
  intros Hr Ht Hne. apply (table_frame h); [done| |]; intros a; cbn [new_entry snd with_links ents hash_nexts].
  - intros e0 Ha Ee. rewrite lookup_insert_ne by (intros <-; by apply (Hne (next_addr h))). by exists e0.
  - intros Ha. rewrite lookup_insert_ne; [done|]. intros <-. by apply (Hne (next_addr h)).
Qed.

Lemma charges_new h lru inuse held e N P l : hrep h lru inuse held -> (forall a, a ∈ l -> is_Some (ents h !! a)) -> charges (with_links (snd (new_entry h e)) N P) l = charges h l.
Proof.
  intros Hr. induction l as [|a l IH]; intros Hin; [done|]. cbn [charges foldr]. f_equal; [|apply IH; intros b Hb; apply Hin; by right].
  unfold charge_of. cbn [with_links new_entry snd ents]. rewrite lookup_insert_ne; [done|]. intros <-. destruct (Hin (next_addr h) ltac:(left)) as [e' Ee'].
  by rewrite (fresh_addr _ _ _ _ Hr) in Ee'.
Qed.

Lemma charges_put h lru inuse held e N P M : hrep h lru inuse held ->
  charges (with_hash (with_links (snd (new_entry h e)) N P) M) (lru ++ inuse ++ [next_addr h]) = charges h (lru ++ inuse) + e_charge e.
Proof.
  intros Hr. change (charges (with_hash ?h M)) with (charges h). set (h1 := with_links _ N P). rewrite (charges_perm h1 _ (next_addr h :: lru ++ inuse)) by solve_Permutation.
  change (charges h1 (next_addr h :: lru ++ inuse)) with (charge_of h1 (next_addr h) + charges h1 (lru ++ inuse)). unfold h1 at 2. rewrite (charges_new _ _ _ _ _ _ _ _ Hr) by (apply (hr_in _ _ _ _ Hr)).
  unfold charge_of. cbn [h1 with_links new_entry snd ents]. rewrite lookup_insert_eq. lia.
Qed.

Lemma in_lists c bs lru inuse held : rep c bs lru inuse held [] -> forall x, x ∈ concat bs <-> x ∈ lru ++ inuse.
Proof. intros Hrep x. pose proof (rp_same _ _ _ _ _ _ Hrep) as Hs. rewrite app_nil_r in Hs. by rewrite Hs. Qed.

Lemma elems_bound c bs lru inuse held : rep c bs lru inuse held [] -> elems_ (table_ c) <= Z.of_nat (base.size (ents (heap c))).
Proof.
  intros Hrep. rewrite (to_elems _ _ _ (rp_table _ _ _ _ _ _ Hrep)). apply inj_le, size_bound; [apply (bo_nodup _ _ _ _ _ (to_buckets _ _ _ (rp_table _ _ _ _ _ _ Hrep)))|].
  intros x Hx. apply (hr_in _ _ _ _ (rp_heap _ _ _ _ _ _ Hrep)). by apply (in_lists _ _ _ _ _ Hrep).
Qed.

(** The part of [Insert] that stores the entry, when the cache is on. *)
Definition put (c : LRUCache V) key v charge : run (LRUCache V) :=
  let '(a, h) := new_entry (heap c) (mk_entry v charge key true 2 (hash_of key)) in
  h ← LRU_Append h in_use_ a;
  let c := with_usage (with_heap c h) (u64 (usage_ c + charge)) in
  '(old, h, t) ← ht_Insert (heap c) (table_ c) a;
  '(_, c) ← FinishErase (with_table c h t) old;
  Done c.

Lemma put_ok c bs lru inuse held key v charge : rep c bs lru inuse held [] -> Z.of_nat (length held) + 3 < 2 ^ 32 -> Z.of_nat (base.size (ents (heap c))) + 1 < 2 ^ 31 ->
  let a := next_addr (heap c) in
  exists c' bs' old, put c key v charge = Done c' /\ grows c c' key v charge /\ replaced (heap c) bs key old /\ concat bs' ≡ₚ a :: without old (concat bs) /\
    rep c' bs' (without old lru) (without old inuse ++ [a]) (a :: held) [].
Proof.
  intros Hrep Hlen Hsize a. pose proof Hrep as [Hr Ht _ Hkeys Hu]. pose proof (in_lists _ _ _ _ _ Hrep) as Hin. pose proof (rp_same _ _ _ _ _ _ Hrep) as Hsame. rewrite app_nil_r in Hsame.
  pose proof (fresh_lists _ _ _ _ Hr) as Hne. fold a in Hne. assert (forall x, x ∈ concat bs -> x <> a) as Hnc by (intros x Hx%Hin; apply Hne; by do 2 right).
  set (e := mk_entry v charge key true 2 (hash_of key)). destruct (new_cached_rep _ _ _ _ e Hr eq_refl eq_refl eq_refl) as (N & P & E1 & Hr1).
  unfold put. change (new_entry (heap c) (mk_entry v charge key true 2 (hash_of key))) with (a, snd (new_entry (heap c) e)). cbn iota beta. fold a in E1, Hr1. rewrite E1, run_bind_done.
  set (h1 := with_links _ N P) in *. set (c1 := with_usage (with_heap c h1) (u64 (usage_ c + charge))). cbn zeta.
  pose proof (table_new _ _ _ _ e _ _ N P Hr Ht Hnc) as Ht1. fold h1 in Ht1. pose proof (elems_bound _ _ _ _ _ Hrep) as Hel.
  destruct (ht_Insert_ok h1 (table_ c) bs a e Ht1) as (old & M' & t' & bs' & E2 & Hdom & Ht' & Hcase).
  { intros Ha. by apply (Hnc a). } { intros E. pose proof (hr_next _ _ _ _ Hr). unfold nullptr in E. lia. }
  { cbn [h1 new_entry snd with_links hash_nexts]. fold a. rewrite lookup_insert_eq. by eexists. } { cbn [h1 new_entry snd with_links ents]. fold a. apply lookup_insert_eq. } { apply hash_range. } { lia. }
  change (ht_Insert (heap c1) (table_ c1) a) with (ht_Insert h1 (table_ c) a). rewrite E2, run_bind_done. cbn iota beta. set (c2 := with_table c1 (with_hash h1 M') t').
  pose proof (hash_rep _ _ _ _ M' Hr1 Hdom) as Hr2. assert (grows c c2 key v charge) as Hg.
  { apply (grows_new c c2 _ _ _ e Hr); [|done]. transitivity h1; [apply kept_links|apply kept_hash]. }
  assert (forall x, x ∈ concat bs -> ents h1 !! x = ents (heap c) !! x) as Hents.
  { intros x Hx. cbn [h1 new_entry snd with_links ents]. rewrite lookup_insert_ne; [done|]. intros E. by apply (Hnc x). }
  assert (ents h1 !! a = Some e) as Eea by (cbn [h1 new_entry snd with_links ents]; apply lookup_insert_eq).
  assert (distinct_keys (with_hash h1 M') (concat bs)) as Hkeys1.
  { intros x y ex ey Hx Hy. cbn [with_hash ents]. rewrite (Hents x Hx), (Hents y Hy). by apply Hkeys. }
  assert (usage_ c2 = u64 (charges (with_hash h1 M') (lru ++ inuse ++ [a]))) as Hu2.
  { pose proof (charges_put _ _ _ _ e N P M' Hr) as Hcp. fold h1 a in Hcp. rewrite Hcp. cbn [c2 c1 with_table with_usage usage_ e e_charge]. rewrite Hu. unfold u64. by rewrite Zplus_mod_idemp_l. }
  assert (forall r old', concat bs ≡ₚ r -> (forall x ex, x ∈ old' -> x ∈ concat bs /\ (ents (heap c) !! x = Some ex -> e_key ex <> key)) -> distinct_keys (with_hash h1 M') (a :: old')) as Hkeys2.
  { intros r old' _ Ho x y ex ey Hx Hy Ex Ey Ek. cbn [with_hash ents] in Ex, Ey. apply elem_of_cons in Hx as [-> |Hx], Hy as [-> |Hy]; [done| | |].
    - destruct (Ho y ey Hy) as [Hy' Hk]. rewrite (Hents y Hy') in Ey. assert (ex = e) as -> by congruence. by destruct (Hk Ey).
    - destruct (Ho x ex Hx) as [Hx' Hk]. rewrite (Hents x Hx') in Ex. assert (ey = e) as -> by congruence. by destruct (Hk Ex).
    - by apply (Hkeys1 x y ex ey); [apply (Ho x ex)|apply (Ho y ey)| | |]. }
  assert (forall x ex, ents h1 !! x = Some ex -> e_key ex = key -> matches (ents h1) (e_key e) (e_hash e) x) as Hmatch by (intros x ex Ex Ek; apply (matches_key _ _ _ _ key x Hr1); by exists ex).
  destruct Hcase as [(-> & Hp & Hno)|(Ho & Hm & r & Hp0 & Hp)].
  - assert (forall x ex, x ∈ concat bs -> ents (heap c) !! x = Some ex -> e_key ex <> key) as Hno'.
    { intros x ex Hx Ex Ek. apply (Hno x Hx). rewrite <- (Hents x Hx) in Ex. by apply (Hmatch x ex). }
    assert (forall l, (forall x, x ∈ l -> x ∈ lru ++ inuse) -> without nullptr l = l) as Hw.
    { intros l Hl. apply without_notin. intros Hx%Hl. destruct (hr_addr _ _ _ _ Hr _ (hr_in _ _ _ _ Hr _ Hx)). unfold nullptr in *. lia. }
    exists c2, bs', nullptr. unfold FinishErase. rewrite Z.eqb_refl, run_bind_done. split; [done|]. split; [done|]. split; [left; by split|].
    rewrite (Hw (concat bs)), (Hw lru), (Hw inuse) by (intros x; rewrite ?Hin, ?elem_of_app; tauto). split; [done|].
    split; cbn [c2 with_table heap table_]; [done|done|by rewrite app_nil_r, Hp, Hsame; solve_Permutation| |done].
    intros x y ex ey. rewrite Hp. apply (Hkeys2 (concat bs)); [done|]. intros z ez Hz. split; [done|]. by apply Hno'.
  - apply (matches_key _ _ _ _ key old Hr1) in Hm as (eo & Eo & Ek). assert (old ∈ concat bs) as Hold by (rewrite Hp0; left).
    pose proof (bo_nodup _ _ _ _ _ (to_buckets _ _ _ Ht)) as Hnd. assert (r ≡ₚ without old (concat bs)) as Hpr.
    { pose proof (without_perm old _ Hnd Hold) as Hpw. rewrite Hp0 in Hpw at 1. by apply Permutation_cons_inv in Hpw. }
    destruct (FinishErase_ok c2 bs' lru (inuse ++ [a]) (a :: held) old) as (c' & -> & Hrep' & Hk & Hcap & _); [|cbn [length]; lia|].
    { split; cbn [c2 with_table heap table_]; [done|done|rewrite Hp, app_assoc, <- Hsame, Hp0; solve_Permutation| |done].
      intros x y ex ey. rewrite Hp. apply (Hkeys2 (concat bs)); [done|]. intros z ez Hz. split; [rewrite Hp0; by right|].
      intros Ez Ekz. rewrite Hp0 in Hnd. apply list.NoDup_cons in Hnd as [Hor _]. apply Hor.
      assert (z ∈ concat bs) as Hzc by (rewrite Hp0; by right). rewrite (Hents old Hold) in Eo. by rewrite (Hkeys old z eo ez Hold Hzc Eo Ez) by congruence. }
    rewrite run_bind_done. exists c', bs', old. split; [done|]. split; [by apply (grows_shrinks c c2)|]. split.
    + right. split; [done|]. exists eo. by rewrite <- (Hents old Hold).
    + split; [by rewrite Hp, Hpr|]. rewrite without_app in Hrep'. rewrite (without_notin old [a]) in Hrep'; [done|]. rewrite list_elem_of_singleton. by apply Hnc.
Qed.

Lemma lru_Insert_on c key v charge : 0 < capacity_ c ->
  lru_Insert c key (hash_of key) v charge = (c1 ← put c key v charge; c' ← evict_loop (chain_fuel (heap c1)) c1; Done (next_addr (heap c), c')).
Proof. intros Hc. unfold lru_Insert. by rewrite (proj2 (Z.gtb_lt _ _) Hc). Qed.

Lemma charges_grows c c' key v charge lru inuse held l : hrep (heap c) lru inuse held -> grows c c' key v charge ->
  (forall b, b ∈ l -> b <> next_addr (heap c) /\ is_Some (ents (heap c') !! b)) -> charges (heap c') l = charges (heap c) l.
Proof.
  intros Hr [G1 _ _]. induction l as [|b l IH]; intros Hin; [done|]. cbn [charges foldr]. f_equal; [|apply IH; intros y Hy; apply Hin; by right].
  destruct (Hin b ltac:(left)) as [Hb [e' Ee']]. destruct (G1 b e' Ee') as [(-> & _)|(e & Ee & (_ & _ & Ec & _))]; [done|]. unfold charge_of. by rewrite Ee, Ee'.
Qed.

Lemma charge_new c c' key v charge lru inuse held : hrep (heap c) lru inuse held -> grows c c' key v charge -> is_Some (ents (heap c') !! next_addr (heap c)) ->
  charge_of (heap c') (next_addr (heap c)) = charge.
Proof.
  intros Hr [G1 _ _] [e' Ee']. unfold charge_of. rewrite Ee'. destruct (G1 _ e' Ee') as [(_ & _ & _ & ?)|(e & Ee & _)]; [done|]. by rewrite (fresh_addr _ _ _ _ Hr) in Ee.
Qed.

Lemma Insert_on_ok c bs lru inuse held key v charge : rep c bs lru inuse held [] -> Z.of_nat (length held) + 3 < 2 ^ 32 -> Z.of_nat (base.size (ents (heap c))) + 1 < 2 ^ 31 ->
  0 < capacity_ c -> let a := next_addr (heap c) in
  exists c' bs' old dropped lru', lru_Insert c key (hash_of key) v charge = Done (a, c') /\ grows c c' key v charge /\ replaced (heap c) bs key old /\
    a :: without old (concat bs) ≡ₚ dropped ++ concat bs' /\ without old lru = dropped ++ lru' /\ rep c' bs' lru' (without old inuse ++ [a]) (a :: held) [] /\
    (usage_ c' <= capacity_ c \/ lru' = []) /\
    (forall d x, dropped = d ++ [x] -> capacity_ c < u64 (charges (heap c) (x :: lru' ++ without old inuse) + charge)).
Proof.
  intros Hrep Hlen Hsize Hc a. destruct (put_ok c bs lru inuse held key v charge Hrep Hlen Hsize) as (c1 & bs1 & old & E1 & Hg & Hrepl & Hp1 & Hrep1).
  destruct (evict_loop_ok (chain_fuel (heap c1)) c1 bs1 _ _ _ Hrep1) as (c' & bs' & dropped & lru' & E2 & Hsh & Elru & Hp & Hrep' & Hu & Hmin).
  { cbn [length]. lia. } { apply (unused_fuel _ _ _ _ (rp_heap _ _ _ _ _ _ Hrep1)). }
  rewrite (gr_capacity _ _ _ _ _ Hg) in Hu, Hmin. rewrite lru_Insert_on, E1, run_bind_done, E2, run_bind_done by done. fold a in Hp1, Hmin, Hrep1.
  exists c', bs', old, dropped, lru'. split; [done|]. split; [by apply (grows_shrinks c c1)|]. split; [done|]. split; [by rewrite <- Hp1, Hp|].
  split; [done|]. split; [done|]. split; [done|]. intros d x Ed. specialize (Hmin d x Ed). pose proof (rp_heap _ _ _ _ _ _ Hrep) as Hr. pose proof (rp_heap _ _ _ _ _ _ Hrep1) as Hr1.
  rewrite (charges_perm _ _ (a :: x :: lru' ++ without old inuse)) in Hmin by solve_Permutation. cbn [charges foldr] in Hmin. fold (charges (heap c1) (lru' ++ without old inuse)) in Hmin.
  pose proof (charge_new c c1 key v charge _ _ _ Hr Hg) as Hcn. fold a in Hcn. rewrite Hcn in Hmin by (apply (hr_in _ _ _ _ Hr1); rewrite !elem_of_app, list_elem_of_singleton; tauto).
  rewrite <- (charges_grows c c1 key v charge _ _ _ _ Hr Hg); [by rewrite Z.add_comm|]. intros b Hb. assert (b ∈ without old lru ++ without old inuse) as Hb'.
  { rewrite Elru, Ed, !elem_of_app, list_elem_of_singleton. rewrite elem_of_cons, elem_of_app in Hb. tauto. }
  split; [|apply (hr_in _ _ _ _ Hr1); rewrite !elem_of_app in *; tauto]. apply (fresh_lists _ _ _ _ Hr). do 2 right. rewrite elem_of_app in *. rewrite !in_without in Hb'. tauto.
Qed.

(** A cache of capacity zero keeps nothing new. *)
Lemma Insert_off_ok c bs lru inuse held key v charge : rep c bs lru inuse held [] -> Z.of_nat (length held) + 3 < 2 ^ 32 -> capacity_ c <= 0 ->
  let a := next_addr (heap c) in
  exists c' bs' lru' inuse', lru_Insert c key (hash_of key) v charge = Done (a, c') /\ grows c c' key v charge /\ rep c' bs' lru' inuse' (a :: held) [] /\
    (forall x, x ∈ concat bs' -> x ∈ concat bs).
Proof.
  intros Hrep Hlen Hc a. pose proof Hrep as [Hr Ht Hsame Hkeys Hu]. pose proof (in_lists _ _ _ _ _ Hrep) as Hin. assert ((capacity_ c >? 0) = false) as Ec by (rewrite Z.gtb_ltb; apply Z.ltb_ge; lia).
  set (e := mk_entry v charge key false 1 (hash_of key)). pose proof (new_uncached_rep _ _ _ _ e Hr eq_refl eq_refl eq_refl) as Hr1.
  pose proof (fresh_lists _ _ _ _ Hr) as Hne. assert (forall x, x ∈ concat bs -> x <> a) as Hnc by (intros x Hx%Hin; apply Hne; by do 2 right).
  set (c1 := with_heap c (snd (new_entry (heap c) e))). assert (rep c1 bs lru inuse (a :: held) []) as Hrep1.
  { split; cbn [c1 with_heap heap table_ usage_]; [done| |done| |].
    - by apply (table_new _ _ _ _ e _ _ (nexts (snd (new_entry (heap c) e))) (prevs (snd (new_entry (heap c) e))) Hr Ht).
    - intros x y ex ey Hx Hy. cbn [new_entry snd ents]. rewrite !lookup_insert_ne by (apply not_eq_sym; by apply Hnc). by apply Hkeys.
    - pose proof (charges_new _ _ _ _ e (nexts (snd (new_entry (heap c) e))) (prevs (snd (new_entry (heap c) e))) (lru ++ inuse) Hr (hr_in _ _ _ _ Hr)) as Hcn.
      rewrite Hu, <- Hcn. done. }
  destruct (evict_loop_ok (chain_fuel (heap c1)) c1 bs _ _ _ Hrep1) as (c' & bs' & dropped & lru' & E2 & Hsh & Elru & Hp & Hrep' & _).
  { cbn [length]. lia. } { apply (unused_fuel _ _ _ _ Hr1). }
  exists c', bs', lru', inuse. split; [|split; [|split; [done|]]].
  - unfold lru_Insert. rewrite Ec. change (new_entry (heap c) (mk_entry v charge key false 1 (hash_of key))) with (a, snd (new_entry (heap c) e)). cbn iota beta. rewrite run_bind_done.
    fold c1. by rewrite E2, run_bind_done.
  - apply (grows_shrinks c c1); [|done]. by apply (grows_new c c1 _ _ _ e Hr).
  - intros x Hx. rewrite Hp, elem_of_app. by right.
Qed.

(** ** Looking up and giving back *)

Lemma lru_Lookup_ok c bs lru inuse held key : rep c bs lru inuse held [] -> Z.of_nat (length held) + 2 < 2 ^ 32 ->
  exists a c', lru_Lookup c key (hash_of key) = Done (a, c') /\ shrinks c c' /\
    (a = nullptr /\ c' = c /\ (forall x e, x ∈ concat bs -> ents (heap c) !! x = Some e -> e_key e <> key) \/
     a <> nullptr /\ a ∈ concat bs /\ (exists e, ents (heap c) !! a = Some e /\ e_key e = key) /\ exists lru' inuse', rep c' bs lru' inuse' (a :: held) []).
Proof.
  intros Hrep Hlen. pose proof Hrep as [Hr Ht Hsame Hkeys Hu]. pose proof (in_lists _ _ _ _ _ Hrep) as Hin. rewrite app_nil_r in Hsame.
  destruct (ht_Lookup_ok _ _ _ key (hash_of key) Ht (hash_range key)) as (a & E1 & Hcase). unfold lru_Lookup. rewrite E1, run_bind_done.
  destruct Hcase as [(-> & Hno)|(Hna & Ha & Hm)].
  - rewrite Z.eqb_refl. exists nullptr, c. split; [done|]. split; [reflexivity|]. left. split; [done|]. split; [done|]. intros x e Hx Ee Ek. apply (Hno x Hx).
    apply (matches_key _ _ _ _ key x Hr). by exists e.
  - rewrite (proj2 (Z.eqb_neq _ _) Hna). apply (matches_key _ _ _ _ key a Hr) in Hm.
    destruct (Ref_ok _ _ _ _ a Hr (proj1 (Hin a) Ha) Hlen) as (h' & lru' & inuse' & -> & Hr' & Hk & Eh & Hp). rewrite run_bind_done. exists a, (with_heap c h').
    split; [done|]. split; [by split|]. right. split; [done|]. split; [done|]. split; [done|]. exists lru', inuse'.
    assert (forall x, x ∈ concat bs -> is_Some (ents h' !! x)) as Hsome by (intros x Hx; apply (hr_in _ _ _ _ Hr'); by rewrite Hp, <- Hin).
    split; cbn [with_heap heap table_ usage_]; [done| |by rewrite app_nil_r, Hsame, Hp| |].
    + apply (kept_table (heap c)); [done|done|]. intros x Hx. split; [by apply Hsome|]. by rewrite Eh.
    + by apply (distinct_kept (heap c) h' (concat bs)).
    + rewrite (charges_perm _ _ _ Hp), (charges_kept (heap c)); [done|done|]. intros x Hx. by apply Hsome, Hin.
Qed.

Lemma lru_Release_ok c bs lru inuse held a : rep c bs lru inuse (a :: held) [] -> Z.of_nat (length held) + 2 < 2 ^ 32 ->
  exists c' lru' inuse', lru_Release c a = Done c' /\ shrinks c c' /\ rep c' bs lru' inuse' held [].
Proof.
  intros Hrep Hlen. pose proof Hrep as [Hr Ht Hsame Hkeys Hu]. pose proof (in_lists _ _ _ _ _ Hrep) as Hin. rewrite app_nil_r in Hsame.
  destruct (Unref_ok _ _ _ _ a Hr Hlen) as (h' & lru' & inuse' & E1 & Hr' & Hk & Hh & _ & Hp & Hh'). unfold lru_Release. rewrite E1, run_bind_done.
  exists (with_heap c h'), lru', inuse'. split; [done|]. split; [by split|].
  assert (forall x, x ∈ concat bs -> is_Some (ents h' !! x)) as Hsome by (intros x Hx; apply (hr_in _ _ _ _ Hr'); by rewrite Hp, <- Hin).
  split; cbn [with_heap heap table_ usage_]; [done| |by rewrite app_nil_r, Hsame, Hp| |].
  - apply (kept_table (heap c)); [done|done|]. intros x Hx. split; [by apply Hsome|]. destruct (decide (x = a)) as [-> |Hxa]; [|by apply Hh]. rewrite Hh'; [done|]. left. by apply Hin.
  - by apply (distinct_kept (heap c) h' (concat bs)).
  - rewrite (charges_perm _ _ _ Hp), (charges_kept (heap c)); [done|done|]. intros x Hx. by apply Hsome, Hin.
Qed.

Lemma lru_Prune_ok c bs lru inuse held : rep c bs lru inuse held [] -> Z.of_nat (length held) + 2 < 2 ^ 32 ->
  exists c' bs', lru_Prune c = Done c' /\ shrinks c c' /\ concat bs ≡ₚ lru ++ concat bs' /\ rep c' bs' [] inuse held [].
Proof. intros Hrep Hlen. apply prune_loop_ok; [done|done|]. apply (unused_fuel _ _ _ _ (rp_heap _ _ _ _ _ _ Hrep)). Qed.

Lemma new_rep capacity : rep (new_LRUCache capacity) [[]; []; []; []] [] [] [] [].
Proof.
  split; [split|split| | |]; cbn; try done; try (intros; done).
  - split; [done|]. apply NoDup_singleton.
  - split; [done|]. apply NoDup_singleton.
  - constructor.
  - by intros a [e Ee].
  - by intros a Ha%not_elem_of_nil.
  - by intros a Ha%not_elem_of_nil.
  - by intros a Ha%not_elem_of_nil.
  - split; [done|by exists 2| | |constructor].
    + repeat constructor.
    + intros i b a Hb Ha. do 4 (destruct i as [|i]; [injection Hb as <-; by apply not_elem_of_nil in Ha|]). done.
Qed.

(** ** Destroying the cache *)

Fixpoint forward (N : gmap Z Z) l : Prop := match l with [] => True | a :: l => N !! a = Some (first_of l lru_) /\ forward N l end.

Lemma seg_forward N P x l : seg N P x l lru_ -> forward N l.
Proof.
  revert x. induction l as [|z l IH]; intros x; [done|]. cbn [seg]. intros (_ & _ & Hs). cbn [forward]. split; [|by apply (IH z)].
  destruct (seg_ends _ _ _ _ _ Hs) as (_ & ? & _). done.
Qed.

Lemma forward_delete N l a : a ∉ l -> forward N l -> forward (delete a N) l.
Proof.
  induction l as [|z l IH]; intros Ha; [done|]. rewrite elem_of_cons in Ha. cbn [forward]. intros [E Hl]. split; [rewrite lookup_delete_ne; [done|intros ->; tauto]|]. apply IH; tauto.
Qed.

Lemma destroy_loop_ok l : forall fuel c, NoDup l -> lru_ ∉ l -> forward (nexts (heap c)) l -> (length l < fuel)%nat ->
  (forall a, a ∈ l -> exists e, ents (heap c) !! a = Some e /\ e_refs e = 1) -> (forall a, is_Some (ents (heap c) !! a) -> a ∈ l) ->
  exists c', destroy_loop fuel c (first_of l lru_) = Done c' /\ ents (heap c') = ∅ /\ accounted (heap c') ≡ₚ accounted (heap c).
Proof.
  induction l as [|a l IH]; intros [|fuel] c Hnd Hlru Hf Hfuel Hin Hall; cbn [length] in Hfuel; [lia| |lia|]; cbn [destroy_loop].
  - change (first_of [] lru_) with lru_. rewrite Z.eqb_refl. exists c. split; [done|]. split; [|done]. apply map_eq. intros a. rewrite lookup_empty.
    destruct (ents (heap c) !! a) eqn:E; [|done]. exfalso. apply (not_elem_of_nil a), Hall. by eexists.
  - change (first_of (a :: l) lru_) with a. rewrite elem_of_cons in Hlru. rewrite (proj2 (Z.eqb_neq _ _)) by (intros ->; tauto). cbn [forward] in Hf. destruct Hf as [En Hf].
    destruct (Hin a ltac:(left)) as (e & Ee & Er). unfold load at 1 2. rewrite En, run_bind_done, Ee, run_bind_done, (store_done _ a) by (by eexists). rewrite run_bind_done.
    unfold Unref, load. cbn [with_ents ents]. rewrite lookup_insert_eq, run_bind_done, (store_done _ a) by (rewrite lookup_insert_eq; by eexists). rewrite run_bind_done.
    cbn [set_refs set_in_cache e_refs]. rewrite Er. change (u32 (1 - 1) =? 0) with true. cbn iota. rewrite run_bind_done. apply list.NoDup_cons in Hnd as [Hal Hnd].
    set (e1 := set_refs (set_in_cache e false) (u32 (1 - 1))). set (h' := delete_entry _ a e1).
    assert (kept (heap c) h') as Hk.
    { transitivity (with_ents (heap c) (<[a := set_in_cache e false]> (ents (heap c)))); [by apply (kept_store (heap c) a e)|].
      transitivity (with_ents (heap c) (<[a := e1]> (<[a := set_in_cache e false]> (ents (heap c))))); [exact (kept_store (with_ents (heap c) (<[a := set_in_cache e false]> (ents (heap c)))) a (set_in_cache e false) e1 (lookup_insert_eq _ _ _) ltac:(done))|].
      apply kept_delete. apply lookup_insert_eq. }
    assert (ents h' = delete a (ents (heap c))) as Eh by (cbn [h' delete_entry with_ents ents]; by rewrite !delete_insert_eq).
    destruct (IH fuel (with_heap c h') Hnd) as (c' & -> & Hempty & Hacc); [tauto| |lia| | |].
    + cbn [with_heap heap h' delete_entry with_ents nexts]. by apply forward_delete.
    + intros b Hb. cbn [with_heap heap]. rewrite Eh, lookup_delete_ne by (by intros ->). apply Hin. by right.
    + intros b. cbn [with_heap heap]. rewrite Eh. intros [eb [Hab Eb]%lookup_delete_Some]. assert (b ∈ a :: l) as Hb by (apply Hall; by eexists).
      apply elem_of_cons in Hb as [->|Hb]; [done|done].
    + exists c'. split; [done|]. split; [done|]. rewrite Hacc. apply (kp_accounted _ _ Hk).
Qed.

Lemma destroy_ok c bs lru inuse : rep c bs lru inuse [] [] ->
  exists c', destroy_LRUCache c = Done c' /\ ents (heap c') = ∅ /\ deletions (heap c') ≡ₚ accounted (heap c).
Proof.
  intros Hrep. pose proof (rp_heap _ _ _ _ _ _ Hrep) as Hr. assert (inuse = []) as ->.
  { destruct inuse as [|a inuse]; [done|]. pose proof (hr_used _ _ _ _ Hr a ltac:(left)) as Hc. done. }
  unfold destroy_LRUCache, load. rewrite (first_unused _ _ _ _ Hr), run_bind_done. pose proof (hr_nodup _ _ _ _ Hr) as Hnd. rewrite app_nil_r in Hnd.
  destruct (destroy_loop_ok lru (chain_fuel (heap c)) c Hnd) as (c' & -> & He & Ha).
  - destruct (hr_lru _ _ _ _ Hr) as [_ Hn]. by apply list.NoDup_cons in Hn as [? _].
  - destruct (hr_lru _ _ _ _ Hr) as [Hs _]. by apply (seg_forward _ _ _ _ Hs).
  - apply (unused_fuel _ _ _ _ Hr).
  - intros a Hal. destruct (hr_in _ _ _ _ Hr a) as [e Ee]; [by rewrite app_nil_r|]. exists e. split; [done|]. destruct (hr_refs _ _ _ _ Hr a e Ee) as [-> _].
    unfold cache_ref. rewrite (proj2 (hr_cached _ _ _ _ Hr a e Ee)) by (by rewrite app_nil_r). done.
  - intros a [e Ee]. destruct (hr_refs _ _ _ _ Hr a e Ee) as [Er Hpos]. unfold cache_ref in Er. change (cnt a []) with 0 in Er. destruct (e_in_cache e) eqn:Ec; [|lia].
    apply (hr_cached _ _ _ _ Hr a e Ee) in Ec. by rewrite app_nil_r in Ec.
  - exists c'. split; [done|]. split; [done|]. rewrite <- Ha. unfold accounted. rewrite He. unfold alive. by rewrite map_to_list_empty, app_nil_r.
Qed.

(** * Clients *)

Inductive Call := CallInsert (key : list byte) (v : V) (charge : Z) | CallLookup (key : list byte) | CallRelease (i : nat) | CallErase (key : list byte) | CallPrune.

(** The cache, and what its clients know: the handles they hold, with the key and the value
    these were given for; the value that was inserted last under each key and not erased;
    all that was ever inserted. *)
Record Client := mk_client {
  cl_cache : LRUCache V;
  cl_held : list (Z * (list byte * V));
  cl_map : list byte -> option V;
  cl_inserted : list (list byte * V);
}.

Definition update (m : list byte -> option V) key x : list byte -> option V := fun k => if slice_eqb k key then x else m k.

Definition new_client capacity : Client := mk_client (new_LRUCache capacity) [] (fun _ => None) [].

Definition call (s : Client) (c : Call) : run Client :=
  match c with
  | CallInsert key v charge =>
      '(a, c) ← lru_Insert (cl_cache s) key (hash_of key) v charge;
      Done (mk_client c ((a, (key, v)) :: cl_held s) (update (cl_map s) key (Some v)) ((key, v) :: cl_inserted s))
  | CallLookup key =>
      '(a, c) ← lru_Lookup (cl_cache s) key (hash_of key);
      if a =? nullptr then Done (mk_client c (cl_held s) (cl_map s) (cl_inserted s))
      else v ← lru_Value c a; Done (mk_client c ((a, (key, v)) :: cl_held s) (cl_map s) (cl_inserted s))
  | CallRelease i =>
      match cl_held s !! i with
      | None => Done s
      | Some (a, _) => c ← lru_Release (cl_cache s) a; Done (mk_client c (delete i (cl_held s)) (cl_map s) (cl_inserted s))
      end
  | CallErase key => c ← lru_Erase (cl_cache s) key (hash_of key); Done (mk_client c (cl_held s) (update (cl_map s) key None) (cl_inserted s))
  | CallPrune => c ← lru_Prune (cl_cache s); Done (mk_client c (cl_held s) (cl_map s) (cl_inserted s))
  end.

Fixpoint calls (s : Client) (cs : list Call) : run Client := match cs with [] => Done s | c :: cs => s ← call s c; calls s cs end.

Definition latest s bs : Prop := forall x e, x ∈ concat bs -> ents (heap (cl_cache s)) !! x = Some e -> cl_map s (e_key e) = Some (e_value e).
Definition has_data h a k v : Prop := exists e, ents h !! a = Some e /\ e_key e = k /\ e_value e = v.

Record client_rep s bs lru inuse (n : Z) : Prop := {
  cr_rep : rep (cl_cache s) bs lru inuse (fst <$> cl_held s) [];
  cr_latest : latest s bs;
  cr_off : 0 < capacity_ (cl_cache s) \/ concat bs = [];
  cr_held a k v : (a, (k, v)) ∈ cl_held s -> has_data (heap (cl_cache s)) a k v;
  cr_inserted : accounted (heap (cl_cache s)) ≡ₚ cl_inserted s;
  cr_count : Z.of_nat (length (cl_held s)) <= n /\ Z.of_nat (length (cl_inserted s)) <= n;
}.

Lemma client_size s bs lru inuse n : client_rep s bs lru inuse n -> Z.of_nat (base.size (ents (heap (cl_cache s)))) <= n.
Proof.
  intros Hc. pose proof (Permutation_length (cr_inserted _ _ _ _ _ Hc)) as Hl. destruct (cr_count _ _ _ _ _ Hc). unfold accounted, alive in Hl.
  rewrite length_app, length_fmap, length_map_to_list in Hl. lia.
Qed.

Lemma update_eq m key x : update m key x key = x.
Proof. unfold update. by rewrite (proj2 (slice_eqb_eq key key) eq_refl). Qed.

Lemma update_ne m key x k : k <> key -> update m key x k = m k.
Proof. intros Hne. unfold update. destruct (slice_eqb k key) eqn:E; [|done]. by apply slice_eqb_eq in E. Qed.

Lemma hrep_perm h lru inuse held held' : held ≡ₚ held' -> hrep h lru inuse held -> hrep h lru inuse held'.
Proof.
  intros Hp [H1 H2 H3 H4 H5 H6 H7 H8 H9 H10 H11 H12]. pose proof (fun a => cnt_perm a _ _ Hp) as Hc. split; try done.
  - intros a e. rewrite <- Hc. apply H5.
  - intros a. rewrite <- Hc. apply H9.
  - intros a. rewrite <- Hc. apply H10.
  - intros a. rewrite <- Hp. apply H11.
Qed.

(** What a call that takes entries away leaves to the clients. *)
Lemma shrinks_held c c' bs lru inuse held gone a k v : shrinks c c' -> rep c' bs lru inuse held gone -> a ∈ held -> has_data (heap c) a k v -> has_data (heap c') a k v.
Proof.
  intros Hsh Hrep Ha (e & Ee & Ek & Ev). destruct (hr_held _ _ _ _ (rp_heap _ _ _ _ _ _ Hrep) a Ha) as [e' Ee'].
  destruct (kp_data _ _ (sh_kept _ _ Hsh) a e' Ee') as (e1 & Ee1 & (K1 & K2 & _)). exists e'. split; [done|]. assert (e1 = e) as -> by congruence. split; congruence.
Qed.

Lemma shrinks_client s c' bs bs' lru inuse (held' : list (Z * (list byte * V))) m n n' lru' inuse' : client_rep s bs lru inuse n -> shrinks (cl_cache s) c' -> rep c' bs' lru' inuse' (fst <$> held') [] ->
  (forall a k v, (a, (k, v)) ∈ held' -> has_data (heap (cl_cache s)) a k v) -> (forall x, x ∈ concat bs' -> x ∈ concat bs) ->
  (forall x e, x ∈ concat bs' -> ents (heap (cl_cache s)) !! x = Some e -> m (e_key e) = cl_map s (e_key e)) -> n <= n' -> Z.of_nat (length held') <= n' ->
  client_rep (mk_client c' held' m (cl_inserted s)) bs' lru' inuse' n'.
Proof.
  intros Hc Hsh Hrep Hheld Hsub Hm Hn Hl. split; cbn [cl_cache cl_held cl_map cl_inserted]; [done| | | | |destruct (cr_count _ _ _ _ _ Hc); lia].
  - intros x e Hx Ee. cbn [cl_cache cl_map] in *. destruct (kp_data _ _ (sh_kept _ _ Hsh) x e Ee) as (e0 & Ee0 & (K1 & K2 & _)).
    rewrite K1, K2, (Hm x e0 Hx Ee0). apply (cr_latest _ _ _ _ _ Hc x e0); [by apply Hsub|done].
  - rewrite (sh_capacity _ _ Hsh). destruct (cr_off _ _ _ _ _ Hc) as [|E]; [by left|right]. rewrite E in Hsub. destruct (concat bs') as [|x r]; [done|].
    destruct (not_elem_of_nil x). apply Hsub. left.
  - intros a k v Ha. apply (shrinks_held _ _ _ _ _ _ _ a k v Hsh Hrep); [|by apply Hheld]. apply list_elem_of_fmap. by exists (a, (k, v)).
  - rewrite (kp_accounted _ _ (sh_kept _ _ Hsh)). apply (cr_inserted _ _ _ _ _ Hc).
Qed.

Lemma in_table_entry c bs lru inuse held x : rep c bs lru inuse held [] -> x ∈ concat bs -> exists e, ents (heap c) !! x = Some e.
Proof. intros Hrep Hx. apply (hr_in _ _ _ _ (rp_heap _ _ _ _ _ _ Hrep)). by apply (in_lists _ _ _ _ _ Hrep). Qed.

Lemma call_lookup_ok s key bs lru inuse n : client_rep s bs lru inuse n -> n + 3 < 2 ^ 31 ->
  exists s' lru' inuse', call s (CallLookup key) = Done s' /\ client_rep s' bs lru' inuse' (n + 1).
Proof.
  intros Hc Hn. pose proof (cr_rep _ _ _ _ _ Hc) as Hrep. destruct (cr_count _ _ _ _ _ Hc) as [Hl _].
  destruct (lru_Lookup_ok _ _ _ _ _ key Hrep) as (a & c' & E1 & Hsh & Hcase); [rewrite length_fmap; lia|]. cbn [call]. rewrite E1, run_bind_done.
  destruct Hcase as [(-> & -> & _)|(Hna & Ha & (e & Ee & Ek) & lru' & inuse' & Hrep')].
  - rewrite Z.eqb_refl. eexists _, lru, inuse. split; [reflexivity|]. apply (shrinks_client s _ bs bs lru inuse _ _ n); [done|done|done|apply (cr_held _ _ _ _ _ Hc)|done|done|lia|lia].
  - rewrite (proj2 (Z.eqb_neq _ _) Hna). destruct (hr_held _ _ _ _ (rp_heap _ _ _ _ _ _ Hrep') a ltac:(left)) as [e' Ee'].
    destruct (kp_data _ _ (sh_kept _ _ Hsh) a e' Ee') as (e1 & Ee1 & (K1 & K2 & _)). assert (e1 = e) as -> by congruence.
    unfold lru_Value, load. rewrite Ee', run_bind_done, run_bind_done. eexists _, lru', inuse'. split; [reflexivity|].
    apply (shrinks_client s _ bs bs lru inuse _ _ n); [done|done|done| |done|done|lia|cbn [length]; lia].
    intros b k v [[= -> -> ->]|Hb]%elem_of_cons; [exists e; split; [done|]; split; [done|congruence]|by apply (cr_held _ _ _ _ _ Hc)].
Qed.

Lemma call_release_ok s i bs lru inuse n : client_rep s bs lru inuse n -> n + 3 < 2 ^ 31 ->
  exists s' lru' inuse', call s (CallRelease i) = Done s' /\ client_rep s' bs lru' inuse' (n + 1).
Proof.
  intros Hc Hn. pose proof (cr_rep _ _ _ _ _ Hc) as Hrep. destruct (cr_count _ _ _ _ _ Hc) as [Hl Hl']. cbn [call].
  destruct (cl_held s !! i) as [[a kv]|] eqn:Ei.
  - assert (fst <$> cl_held s ≡ₚ a :: (fst <$> delete i (cl_held s))) as Hp.
    { rewrite (delete_Permutation _ _ _ Ei) at 1. done. }
    assert (rep (cl_cache s) bs lru inuse (a :: (fst <$> delete i (cl_held s))) []) as Hrep1 by (destruct Hrep as [H1 H2 H3 H4 H5]; split; [by apply (hrep_perm _ _ _ _ _ Hp)|done|done|done|done]).
    pose proof (Permutation_length Hp) as Hlen. cbn [length] in Hlen. rewrite !length_fmap in Hlen.
    destruct (lru_Release_ok _ _ _ _ _ _ Hrep1) as (c' & lru' & inuse' & -> & Hsh & Hrep'); [rewrite length_fmap; lia|]. rewrite run_bind_done.
    eexists _, lru', inuse'. split; [reflexivity|]. apply (shrinks_client s _ bs bs lru inuse _ _ n); [done|done|done| |done|done|lia|lia].
    intros b k v Hb. apply (cr_held _ _ _ _ _ Hc). rewrite (delete_Permutation _ _ _ Ei). by right.
  - exists s, lru, inuse. split; [done|]. destruct Hc as [H1 H2 H3 H4 H5 H6]. split; [done..|lia].
Qed.

Lemma call_erase_ok s key bs lru inuse n : client_rep s bs lru inuse n -> n + 3 < 2 ^ 31 ->
  exists s' bs' lru' inuse', call s (CallErase key) = Done s' /\ client_rep s' bs' lru' inuse' (n + 1).
Proof.
  intros Hc Hn. pose proof (cr_rep _ _ _ _ _ Hc) as Hrep. destruct (cr_count _ _ _ _ _ Hc) as [Hl _]. cbn [call].
  destruct (lru_Erase_ok _ _ _ _ _ key Hrep) as (c' & -> & Hsh & Hcase); [rewrite length_fmap; lia|]. rewrite run_bind_done.
  destruct Hcase as [(Hno & Hrep' & _)|(a & e & bs' & Ee & Ek & Hp & Hrep')]; eexists _, _, _, _; (split; [reflexivity|]).
  - apply (shrinks_client s _ bs bs lru inuse _ _ n); [done|done|done|apply (cr_held _ _ _ _ _ Hc)|done| |lia|lia].
    intros x e Hx Ee. apply update_ne. by apply (Hno x e).
  - apply (shrinks_client s _ bs bs' lru inuse _ _ n); [done|done|done|apply (cr_held _ _ _ _ _ Hc)| | |lia|lia].
    + intros x Hx. rewrite Hp. by right.
    + intros x ex Hx Ex. apply update_ne. intros Ekx. assert (x ∈ concat bs /\ a ∈ concat bs) as [Hx' Ha] by (rewrite Hp; split; [by right|left]).
      pose proof (rp_keys _ _ _ _ _ _ Hrep x a ex e Hx' Ha Ex Ee ltac:(congruence)) as ->.
      pose proof (bo_nodup _ _ _ _ _ (to_buckets _ _ _ (rp_table _ _ _ _ _ _ Hrep))) as Hnd. rewrite Hp in Hnd. by apply list.NoDup_cons in Hnd as [? _].
Qed.

Lemma call_prune_ok s bs lru inuse n : client_rep s bs lru inuse n -> n + 3 < 2 ^ 31 ->
  exists s' bs', call s CallPrune = Done s' /\ client_rep s' bs' [] inuse (n + 1).
Proof.
  intros Hc Hn. pose proof (cr_rep _ _ _ _ _ Hc) as Hrep. destruct (cr_count _ _ _ _ _ Hc) as [Hl _]. cbn [call].
  destruct (lru_Prune_ok _ _ _ _ _ Hrep) as (c' & bs' & -> & Hsh & Hp & Hrep'); [rewrite length_fmap; lia|]. rewrite run_bind_done. eexists _, bs'. split; [reflexivity|].
  apply (shrinks_client s _ bs bs' lru inuse _ _ n); [done|done|done|apply (cr_held _ _ _ _ _ Hc)| |done|lia|lia]. intros x Hx. rewrite Hp, elem_of_app. by right.
Qed.

(** After an insertion. *)
Lemma grows_client s key v charge c' bs bs' lru inuse lru' inuse' n : client_rep s bs lru inuse n -> let a := next_addr (heap (cl_cache s)) in
  grows (cl_cache s) c' key v charge -> rep c' bs' lru' inuse' (a :: (fst <$> cl_held s)) [] ->
  (forall x, x ∈ concat bs' -> x = a \/ x ∈ concat bs /\ forall e, ents (heap (cl_cache s)) !! x = Some e -> e_key e <> key) ->
  (0 < capacity_ (cl_cache s) \/ concat bs' = []) ->
  client_rep (mk_client c' ((a, (key, v)) :: cl_held s) (update (cl_map s) key (Some v)) ((key, v) :: cl_inserted s)) bs' lru' inuse' (n + 1).
Proof.
  intros Hc a [G1 G2 G3] Hrep Hsub Hoff. pose proof (rp_heap _ _ _ _ _ _ (cr_rep _ _ _ _ _ Hc)) as Hr. pose proof (fresh_addr _ _ _ _ Hr) as Hfresh. fold a in Hfresh.
  assert (forall e', ents (heap c') !! a = Some e' -> e_key e' = key /\ e_value e' = v) as Hnew.
  { intros e' Ee'. destruct (G1 a e' Ee') as [(_ & ? & ? & _)|(e & Ee & _)]; [done|]. by rewrite Hfresh in Ee. }
  split; cbn [cl_cache cl_held cl_map cl_inserted fmap list_fmap fst]; [done| |by rewrite G3| | |destruct (cr_count _ _ _ _ _ Hc); cbn [length]; lia].
  - intros x e' Hx Ee'. cbn [cl_cache cl_map] in *. destruct (Hsub x Hx) as [-> |[Hx' Hk]].
    + destruct (Hnew e' Ee') as [-> ->]. apply update_eq.
    + destruct (G1 x e' Ee') as [(-> & _)|(e & Ee & (K1 & K2 & _))].
      * destruct (in_table_entry _ _ _ _ _ _ (cr_rep _ _ _ _ _ Hc) Hx') as [e Ee]. fold a in Ee. by rewrite Hfresh in Ee.
      * rewrite K1, K2, update_ne by (by apply Hk). by apply (cr_latest _ _ _ _ _ Hc x e).
  - intros b k w [[= -> -> ->]|Hb]%elem_of_cons.
    + destruct (hr_held _ _ _ _ (rp_heap _ _ _ _ _ _ Hrep) a ltac:(left)) as [e' Ee']. exists e'. split; [done|]. by apply Hnew.
    + destruct (cr_held _ _ _ _ _ Hc b k w Hb) as (e & Ee & Ek & Ev).
      destruct (hr_held _ _ _ _ (rp_heap _ _ _ _ _ _ Hrep) b) as [e' Ee']; [right; apply list_elem_of_fmap; by exists (b, (k, w))|]. exists e'. split; [done|].
      destruct (G1 b e' Ee') as [(-> & _)|(e1 & Ee1 & (K1 & K2 & _))]; [fold a in Ee; by rewrite Hfresh in Ee|]. assert (e1 = e) as -> by congruence. split; congruence.
  - rewrite G2. constructor. apply (cr_inserted _ _ _ _ _ Hc).
Qed.

Lemma replaced_others h bs key old x e : distinct_keys h (concat bs) -> replaced h bs key old -> x ∈ without old (concat bs) -> ents h !! x = Some e -> e_key e <> key.
Proof.
  intros Hk Hrepl [Hx Hne]%in_without Ee Ek. destruct Hrepl as [[_ Hno]|[Ho (eo & Eo & Eko)]]; [by apply (Hno x e)|]. apply Hne. by apply (Hk x old e eo); [| | | |congruence].
Qed.

Lemma call_insert_ok s key v charge bs lru inuse n : client_rep s bs lru inuse n -> n + 3 < 2 ^ 31 ->
  exists s' bs' lru' inuse', call s (CallInsert key v charge) = Done s' /\ client_rep s' bs' lru' inuse' (n + 1).
Proof.
  intros Hc Hn. pose proof (cr_rep _ _ _ _ _ Hc) as Hrep. destruct (cr_count _ _ _ _ _ Hc) as [Hl _]. cbn [call]. pose proof (client_size _ _ _ _ _ Hc) as Hsize.
  destruct (cr_off _ _ _ _ _ Hc) as [Hcap|Hoff]; [|destruct (Z.le_gt_cases (capacity_ (cl_cache s)) 0) as [Hcap|Hcap]].
  2: { destruct (Insert_off_ok _ _ _ _ _ key v charge Hrep) as (c' & bs' & lru' & inuse' & -> & Hg & Hrep' & Hsub); [rewrite length_fmap; lia|done|]. rewrite run_bind_done.
       eexists _, bs', lru', inuse'. split; [reflexivity|]. rewrite Hoff in Hsub. assert (concat bs' = []) as E0 by (destruct (concat bs') as [|x r]; [done|destruct (not_elem_of_nil x); apply Hsub; left]).
       apply (grows_client s key v charge c' bs bs' lru inuse); [done|done|done| |by right]. rewrite E0. by intros x Hx%not_elem_of_nil. }
  all: destruct (Insert_on_ok _ _ _ _ _ key v charge Hrep) as (c' & bs' & old & dropped & lru' & -> & Hg & Hrepl & Hp & _ & Hrep' & _); [rewrite length_fmap; lia|lia|done|]; rewrite run_bind_done;
    eexists _, bs', lru', _; (split; [reflexivity|]); apply (grows_client s key v charge c' bs bs' lru inuse); [done|done|done| |by left];
    intros x Hx; assert (x ∈ dropped ++ concat bs') as Hx' by (rewrite elem_of_app; by right); rewrite <- Hp in Hx'; apply elem_of_cons in Hx' as [-> |Hx']; [by left|right];
    (split; [exact (proj1 (proj1 (in_without _ _ _) Hx'))|]); intros e Ee; by apply (replaced_others _ _ _ _ x e (rp_keys _ _ _ _ _ _ Hrep) Hrepl).
Qed.

Lemma call_ok s c bs lru inuse n : client_rep s bs lru inuse n -> n + 3 < 2 ^ 31 -> exists s' bs' lru' inuse', call s c = Done s' /\ client_rep s' bs' lru' inuse' (n + 1).
Proof.
  intros Hc Hn. destruct c as [key v charge|key|i|key|].
  - by apply (call_insert_ok s key v charge bs lru inuse).
  - destruct (call_lookup_ok s key bs lru inuse n Hc Hn) as (s' & lru' & inuse' & ? & ?). by exists s', bs, lru', inuse'.
  - destruct (call_release_ok s i bs lru inuse n Hc Hn) as (s' & lru' & inuse' & ? & ?). by exists s', bs, lru', inuse'.
  - by apply (call_erase_ok s key bs lru inuse).
  - destruct (call_prune_ok s bs lru inuse n Hc Hn) as (s' & bs' & ? & ?). by exists s', bs', [], inuse.
Qed.

Lemma new_client_rep capacity : client_rep (new_client capacity) [[]; []; []; []] [] [] 0.
Proof.
  split; cbn; [apply new_rep| |by right| | |done].
  - intros x e Hx. by apply not_elem_of_nil in Hx.
  - intros a k v Ha. by apply not_elem_of_nil in Ha.
  - unfold accounted, alive. cbn. by rewrite map_to_list_empty.
Qed.

Lemma calls_ok cs : forall s bs lru inuse n, client_rep s bs lru inuse n -> n + Z.of_nat (length cs) + 3 < 2 ^ 31 ->
  exists s' bs' lru' inuse', calls s cs = Done s' /\ client_rep s' bs' lru' inuse' (n + Z.of_nat (length cs)).
Proof.
  induction cs as [|c cs IH]; intros s bs lru inuse n Hc Hn; cbn [calls length] in *; [exists s, bs, lru, inuse; by rewrite Z.add_0_r|].
  destruct (call_ok s c bs lru inuse n Hc ltac:(lia)) as (s1 & bs1 & lru1 & inuse1 & -> & Hc1). rewrite run_bind_done.
  destruct (IH s1 bs1 lru1 inuse1 (n + 1) Hc1 ltac:(lia)) as (s' & bs' & lru' & inuse' & -> & Hc'). exists s', bs', lru', inuse'. split; [done|]. by replace (n + Z.of_nat (S (length cs))) with (n + 1 + Z.of_nat (length cs)) by lia.
Qed.

Lemma call_capacity s c s' bs lru inuse n : client_rep s bs lru inuse n -> n + 3 < 2 ^ 31 -> call s c = Done s' -> capacity_ (cl_cache s') = capacity_ (cl_cache s).
Proof.
  intros Hc Hn. pose proof (cr_rep _ _ _ _ _ Hc) as Hrep. destruct (cr_count _ _ _ _ _ Hc) as [Hl _]. pose proof (client_size _ _ _ _ _ Hc) as Hsize.
  assert (Z.of_nat (length (fst <$> cl_held s)) + 3 < 2 ^ 32) as Hroom by (rewrite length_fmap; lia). destruct c as [key v charge|key|i|key|]; cbn [call].
  - destruct (Z.le_gt_cases (capacity_ (cl_cache s)) 0) as [Hcap|Hcap].
    + destruct (Insert_off_ok _ _ _ _ _ key v charge Hrep Hroom Hcap) as (c' & ? & ? & ? & -> & Hg & _). intros [= <-]. apply Hg.
    + destruct (Insert_on_ok _ _ _ _ _ key v charge Hrep Hroom ltac:(lia) ltac:(lia)) as (c' & ? & ? & ? & ? & -> & Hg & _). intros [= <-]. apply Hg.
  - destruct (lru_Lookup_ok _ _ _ _ _ key Hrep ltac:(lia)) as (a & c' & -> & Hsh & _). rewrite run_bind_done. destruct (a =? nullptr); [intros [= <-]; apply Hsh|].
    destruct (lru_Value c' a); [|done|done]. intros [= <-]. apply Hsh.
  - destruct (cl_held s !! i) as [[a kv]|] eqn:Ei; [|by intros [= <-]]. unfold lru_Release. destruct (Unref _ a); [|done|done]. by intros [= <-].
  - destruct (lru_Erase_ok _ _ _ _ _ key Hrep ltac:(lia)) as (c' & -> & Hsh & _). intros [= <-]. apply Hsh.
  - destruct (lru_Prune_ok _ _ _ _ _ Hrep ltac:(lia)) as (c' & bs' & -> & Hsh & _). intros [= <-]. apply Hsh.
Qed.

Lemma calls_capacity cs : forall s s' bs lru inuse n, client_rep s bs lru inuse n -> n + Z.of_nat (length cs) + 3 < 2 ^ 31 -> calls s cs = Done s' -> capacity_ (cl_cache s') = capacity_ (cl_cache s).
Proof.
  induction cs as [|c cs IH]; intros s s' bs lru inuse n Hc Hn; cbn [calls length] in *; [by intros [= <-]|].
  destruct (call_ok s c bs lru inuse n Hc ltac:(lia)) as (s1 & bs1 & lru1 & inuse1 & E1 & Hc1). rewrite E1, run_bind_done. intros E.
  rewrite (IH s1 s' bs1 lru1 inuse1 (n + 1) Hc1 ltac:(lia) E). by apply (call_capacity s c s1 bs lru inuse n); [|lia|].
Qed.
End Refs.

(** * The theorems of a shard *)

Lemma xor_shift_range h n : 0 <= h < 2 ^ 32 -> 0 <= n -> 0 <= Z.lxor h (Z.shiftr h n) < 2 ^ 32.
Proof.
  intros Hh Hn. assert (0 <= Z.shiftr h n <= h) as Hs.
  { rewrite Z.shiftr_div_pow2 by done. split; [apply Z.div_pos; [lia|apply Z.pow_pos_nonneg; lia]|].
    apply Z.div_le_upper_bound; [apply Z.pow_pos_nonneg; lia|]. assert (0 < 2 ^ n) by (apply Z.pow_pos_nonneg; lia). nia. }
  assert (0 <= Z.lxor h (Z.shiftr h n)) as H0 by (apply Z.lxor_nonneg; lia). split; [done|]. destruct (Z.eq_dec (Z.lxor h (Z.shiftr h n)) 0) as [-> |Hnz]; [done|].
  apply Z.log2_lt_pow2; [lia|]. eapply Z.le_lt_trans; [apply Z.log2_lxor; lia|]. rewrite Z.max_l by (apply Z.log2_le_mono; lia).
  destruct (Z.eq_dec h 0) as [-> |Hh0]; [done|]. apply Z.log2_lt_pow2; lia.
Qed.

Lemma hash_loop_range fuel : forall h data, 0 <= h < 2 ^ 32 -> 0 <= fst (hash_loop fuel h data) < 2 ^ 32.
Proof.
  induction fuel as [|fuel IH]; intros h data Hh; cbn [hash_loop]; [done|]. destruct (4 <=? size data); [|done]. apply IH. apply xor_shift_range; [apply u32_bound|lia].
Qed.

Lemma HashSlice_range key : 0 <= HashSlice key < 2 ^ 32.
Proof.
  unfold HashSlice, Hash. pose proof (hash_loop_range (length key) (u32 (Z.lxor 0 (u64 (size key * hash_m)))) key (u32_bound _)) as Hl.
  destruct (hash_loop _ _ key) as [h data]. cbn [fst] in Hl. cbn zeta.
  repeat match goal with |- context [if ?b then _ else _] => destruct b end; try (apply xor_shift_range; [apply u32_bound|lia]); try apply u32_bound; done.
Qed.

(** The shard of a hash is one of the sixteen. *)
Lemma Shard_range hash : 0 <= hash < 2 ^ 32 -> 0 <= Shard hash < kNumShards.
Proof.
  intros Hh. unfold Shard, kNumShards, kNumShardBits. rewrite Z.shiftr_div_pow2 by lia. change (2 ^ (32 - 4)) with 268435456. change (Z.shiftl 1 4) with 16.
  split; [apply Z.div_pos; lia|apply Z.div_lt_upper_bound; lia].
Qed.

Section ShardTheorems.
Context {V : Type}.
Implicit Types (cs : list (Call (V := V))) (s : Client (V := V)).

#[local] Abbreviation run_calls capacity cs := (calls HashSlice (new_client capacity) cs).

(** C3: whatever clients call: nothing faults, and a handle keeps its key and value for as long as it is held. *)
Theorem lru_calls_safe capacity cs : Z.of_nat (length cs) + 3 < 2 ^ 31 ->
  exists s, run_calls capacity cs = Done s /\
    forall a k v, (a, (k, v)) ∈ cl_held s -> lru_Value (cl_cache s) a = Done v /\ exists e, ents (heap (cl_cache s)) !! a = Some e /\ e_key e = k.
Proof.
  intros Hn. destruct (calls_ok HashSlice HashSlice_range cs (new_client capacity) _ _ _ 0 (new_client_rep HashSlice capacity) ltac:(lia)) as (s & bs & lru & inuse & E & Hc).
  exists s. split; [exact E|]. intros a k v Ha. destruct (cr_held _ _ _ _ _ _ Hc a k v Ha) as (e & Ee & Ek & Ev). unfold lru_Value, load. rewrite Ee, run_bind_done, Ev. split; [done|]. by exists e.
Qed.

(** C22: what a lookup finds was inserted under that key last. *)
Theorem lru_lookup_latest capacity cs key : Z.of_nat (length cs) + 3 < 2 ^ 31 ->
  exists s a c', run_calls capacity cs = Done s /\ lru_Lookup (cl_cache s) key (HashSlice key) = Done (a, c') /\
    (a = nullptr /\ c' = cl_cache s \/ exists v, lru_Value c' a = Done v /\ cl_map s key = Some v).
Proof.
  intros Hn. destruct (calls_ok HashSlice HashSlice_range cs (new_client capacity) _ _ _ 0 (new_client_rep HashSlice capacity) ltac:(lia)) as (s & bs & lru & inuse & E & Hc).
  pose proof (cr_rep _ _ _ _ _ _ Hc) as Hrep. destruct (cr_count _ _ _ _ _ _ Hc) as [Hl _].
  destruct (lru_Lookup_ok HashSlice HashSlice_range _ _ _ _ _ key Hrep) as (a & c' & E1 & Hsh & Hcase); [rewrite length_fmap; lia|].
  exists s, a, c'. split; [exact E|]. split; [done|]. destruct Hcase as [(-> & -> & _)|(Hna & Ha & (e & Ee & Ek) & lru' & inuse' & Hrep')]; [by left|right].
  destruct (hr_held _ _ _ _ _ (rp_heap _ _ _ _ _ _ _ Hrep') a ltac:(left)) as [e' Ee']. destruct (kp_data _ _ (sh_kept _ _ Hsh) a e' Ee') as (e1 & Ee1 & (K1 & K2 & _)).
  assert (e1 = e) as -> by congruence. exists (e_value e). unfold lru_Value, load. rewrite Ee', run_bind_done, K2. split; [done|]. rewrite <- Ek. by apply (cr_latest _ _ _ _ _ _ Hc a e).
Qed.

(** C21: an insertion into a cache that is on: the entry of the same key goes; of the unused
    entries, the oldest go, one by one and only while more is charged than the capacity; the
    charge is then within the capacity, or all that is left is in use; the new entry is found. *)
Theorem lru_insert_evicts capacity cs key v charge : 0 < capacity -> Z.of_nat (length cs) + 6 < 2 ^ 31 ->
  exists s bs lru inuse, run_calls capacity cs = Done s /\ rep HashSlice (cl_cache s) bs lru inuse (fst <$> cl_held s) [] /\
  exists a c' bs' old dropped lru', lru_Insert (cl_cache s) key (HashSlice key) v charge = Done (a, c') /\
    replaced (heap (cl_cache s)) bs key old /\ without old lru = dropped ++ lru' /\ rep HashSlice c' bs' lru' (without old inuse ++ [a]) (a :: (fst <$> cl_held s)) [] /\
    (lru_TotalCharge c' <= capacity \/ lru' = []) /\
    (forall d x, dropped = d ++ [x] -> capacity < u64 (charges (heap (cl_cache s)) (x :: lru' ++ without old inuse) + charge)) /\
    exists c'', lru_Lookup c' key (HashSlice key) = Done (a, c'').
Proof.
  intros Hcap Hn. destruct (calls_ok HashSlice HashSlice_range cs (new_client capacity) _ _ _ 0 (new_client_rep HashSlice capacity) ltac:(lia)) as (s & bs & lru & inuse & E & Hc).
  pose proof (cr_rep _ _ _ _ _ _ Hc) as Hrep. destruct (cr_count _ _ _ _ _ _ Hc) as [Hl _]. pose proof (client_size _ _ _ _ _ _ Hc) as Hsize.
  assert (capacity_ (cl_cache s) = capacity) as Ecap by (by apply (calls_capacity HashSlice HashSlice_range cs (new_client capacity) s _ _ _ 0 (new_client_rep HashSlice capacity) ltac:(lia))).
  exists s, bs, lru, inuse. split; [exact E|]. split; [done|].
  destruct (Insert_on_ok HashSlice HashSlice_range _ _ _ _ _ key v charge Hrep) as (c' & bs' & old & dropped & lru' & E1 & Hg & Hrepl & Hp & Elru & Hrep' & Hu & Hmin); [rewrite length_fmap; lia|lia|by rewrite Ecap|].
  rewrite Ecap in Hu, Hmin. pose proof (fresh_addr HashSlice _ _ _ _ (rp_heap _ _ _ _ _ _ _ Hrep)) as Hfresh. set (a := next_addr _) in *. exists a, c', bs', old, dropped, lru'. do 6 (split; [done|]).
  destruct (lru_Lookup_ok HashSlice HashSlice_range _ _ _ _ _ key Hrep') as (b & c'' & E2 & _ & Hcase); [cbn [length]; rewrite length_fmap; lia|]. exists c''. rewrite E2. do 2 f_equal.
  assert (a ∈ concat bs') as Ha by (apply (in_lists _ _ _ _ _ _ Hrep'); rewrite !elem_of_app, list_elem_of_singleton; tauto).
  destruct (in_table_entry _ _ _ _ _ _ _ Hrep' Ha) as [e Ee]. assert (e_key e = key) as Ek.
  { destruct (gr_data _ _ _ _ _ Hg a e Ee) as [(_ & ? & _)|(e0 & Ee0 & _)]; [done|]. by rewrite Hfresh in Ee0. }
  destruct Hcase as [(_ & _ & Hno)|(_ & Hb & (eb & Eb & Ekb) & _)]; [by destruct (Hno a e Ha Ee)|]. f_equal. apply (rp_keys _ _ _ _ _ _ _ Hrep' b a eb e); auto; congruence.
Qed.

(** C23: once all handles are released, destroying the cache gives every entry that was ever
    inserted to its deleter, once. *)
Theorem lru_deletes_once capacity cs : Z.of_nat (length cs) + 3 < 2 ^ 31 ->
  exists s, run_calls capacity cs = Done s /\ deletions (heap (cl_cache s)) ++ alive (ents (heap (cl_cache s))) ≡ₚ cl_inserted s /\
    (cl_held s = [] -> exists c', destroy_LRUCache (cl_cache s) = Done c' /\ ents (heap c') = ∅ /\ deletions (heap c') ≡ₚ cl_inserted s).
Proof.
  intros Hn. destruct (calls_ok HashSlice HashSlice_range cs (new_client capacity) _ _ _ 0 (new_client_rep HashSlice capacity) ltac:(lia)) as (s & bs & lru & inuse & E & Hc).
  exists s. split; [exact E|]. pose proof (cr_inserted _ _ _ _ _ _ Hc) as Hi. split; [exact Hi|]. intros Hh. pose proof (cr_rep _ _ _ _ _ _ Hc) as Hrep. rewrite Hh in Hrep.
  destruct (destroy_ok HashSlice _ _ _ _ Hrep) as (c' & E1 & He & Hd). exists c'. split; [done|]. split; [done|]. by rewrite Hd.
Qed.
End ShardTheorems.

(** * The cache the tables use *)

Lemma run_bind_inv {A B} (m : run A) (f : A -> run B) b : m ≫= f = Done b -> exists a, m = Done a /\ f a = Done b.
Proof. destruct m as [a| |]; [|done|done]. intros E. by exists a. Qed.

(** Takes a call that returned apart. *)
Ltac run_inv := repeat match goal with
  | H : (_ ≫= _) = Done _ |- _ => let E := fresh "E" in apply run_bind_inv in H as (? & E & H)
  | H : Done _ = Done _ |- _ => injection H as H; subst
  | H : (if ?b then _ else _) = Done _ |- _ => destruct b eqn:?
  | H : (let '(_, _) := ?p in _) = Done _ |- _ => destruct p
  | H : match ?x with _ => _ end = Done _ |- _ => destruct x eqn:?; try discriminate H
  | H : OutOfBounds = Done _ |- _ => discriminate H
  | H : OutOfFuel = Done _ |- _ => discriminate H
  end.

Section Laws.
Context {V : Type}.
Implicit Types (h : Heap V) (c : LRUCache V).

Lemma load_inv {A} (m : gmap Z A) a x : load m a = Done x -> m !! a = Some x.
Proof. unfold load. destruct (m !! a); [|done]. by intros [= ->]. Qed.

Lemma store_inv {A} (m : gmap Z A) a x m' : store m a x = Done m' -> m' = <[a := x]> m.
Proof. unfold store. destruct (m !! a); [|done]. by intros [= ->]. Qed.

Lemma LRU_Remove_ents h a h' : LRU_Remove h a = Done h' -> ents h' = ents h.
Proof. unfold LRU_Remove. intros H. by run_inv. Qed.

Lemma LRU_Append_ents h lst a h' : LRU_Append h lst a = Done h' -> ents h' = ents h.
Proof. unfold LRU_Append. intros H. by run_inv. Qed.

Lemma data_sub_ents h h1 h2 : ents h1 = ents h2 -> data_sub h1 h -> data_sub h2 h.
Proof. intros E Hd a e' Ee. apply Hd. by rewrite E. Qed.

Lemma data_sub_trans h1 h2 h3 : data_sub h2 h1 -> data_sub h3 h2 -> data_sub h3 h1.
Proof.
  intros D1 D2 a e Ee. destruct (D2 a e Ee) as (e2 & Ee2 & (K1 & K2 & K3 & K4)). destruct (D1 a e2 Ee2) as (e1 & Ee1 & (L1 & L2 & L3 & L4)).
  exists e1. split; [done|]. split; [congruence|]. split; [congruence|]. split; congruence.
Qed.

Lemma data_sub_store h a e e' : ents h !! a = Some e -> same_data e' e -> data_sub (with_ents h (<[a := e']> (ents h))) h.
Proof. intros Ee Hs. by apply (kp_data _ _ (kept_store h a e e' Ee Hs)). Qed.

(** What the steps that were taken apart say of the entries. *)
Ltac ents_inv := repeat match goal with
  | E : load _ _ = Done _ |- _ => apply load_inv in E
  | E : store _ _ _ = Done _ |- _ => apply store_inv in E; subst
  | E : LRU_Remove _ _ = Done _ |- _ => apply LRU_Remove_ents in E
  | E : LRU_Append _ _ _ = Done _ |- _ => apply LRU_Append_ents in E
  end; cbn [with_ents with_links with_hash ents] in *.

Lemma data_sub_set h h' a e e' : ents h !! a = Some e -> same_data e' e -> ents h' = <[a := e']> (ents h) -> data_sub h' h.
Proof. intros Ee Hs E. eapply data_sub_ents; [|by apply (data_sub_store h a e e')]. done. Qed.

Lemma Ref_data h a h' : Ref h a = Done h' -> data_sub h' h.
Proof.
  unfold Ref. intros H. run_inv; ents_inv; match goal with Ee : ents _ !! a = Some ?e |- data_sub _ ?h0 =>
    apply (data_sub_set h0 _ a e (set_refs e (u32 (e_refs e + 1)))); [congruence|done|cbn [with_ents ents]; congruence] end.
Qed.

Lemma Unref_data h a h' : Unref h a = Done h' -> data_sub h' h.
Proof.
  unfold Unref. intros H. run_inv; ents_inv; try match goal with Ee : ents _ !! a = Some ?e |- data_sub _ ?h0 =>
    apply (data_sub_set h0 _ a e (set_refs e (u32 (e_refs e - 1)))); [congruence|done|cbn [with_ents ents]; congruence] end.
  intros b e' Eb. cbn [delete_entry with_ents ents] in Eb. apply lookup_delete_Some in Eb as [Hne Eb]. rewrite lookup_insert_ne in Eb by done. by exists e'.
Qed.

Lemma write_slot_ents h t sl x h' t' : write_slot h t sl x = Done (h', t') -> ents h' = ents h.
Proof. unfold write_slot. intros H. destruct sl; run_inv; done. Qed.

Lemma move_chain_ents fuel : forall h n l a h' l', move_chain fuel h n l a = Done (h', l') -> ents h' = ents h.
Proof. induction fuel as [|fuel IH]; intros h n l a h' l' H; cbn [move_chain] in H; run_inv; [done|]. by apply IH in H. Qed.

Lemma move_lists_ents lists : forall h n l h' l', move_lists h n l lists = Done (h', l') -> ents h' = ents h.
Proof.
  induction lists as [|a lists IH]; intros h n l h' l' H; cbn [move_lists] in H; run_inv; [done|]. apply IH in H. apply move_chain_ents in E. congruence.
Qed.

Lemma ht_Insert_ents h t a old h' t' : ht_Insert h t a = Done (old, h', t') -> ents h' = ents h.
Proof.
  unfold ht_Insert. intros H. run_inv; repeat match goal with E : write_slot _ _ _ _ = Done _ |- _ => apply write_slot_ents in E end; cbn [with_hash ents] in *; try congruence.
  unfold Resize in *. run_inv. match goal with E : move_lists _ _ _ _ = Done _ |- _ => apply move_lists_ents in E end. congruence.
Qed.

Lemma ht_Remove_ents h t key hash old h' t' : ht_Remove h t key hash = Done (old, h', t') -> ents h' = ents h.
Proof. unfold ht_Remove. intros H. run_inv; [done|]. by match goal with E : write_slot _ _ _ _ = Done _ |- _ => apply write_slot_ents in E end. Qed.

Lemma FinishErase_data c a b c' : FinishErase c a = Done (b, c') -> data_sub (heap c') (heap c).
Proof.
  unfold FinishErase. intros H. run_inv; [apply data_sub_refl|]. ents_inv. cbn [with_usage with_heap heap].
  match goal with E : Unref ?h1 _ = Done _ |- _ => apply Unref_data in E; apply (data_sub_trans _ h1); [|exact E] end.
  match goal with Ee : ents _ !! a = Some ?e |- _ => apply (data_sub_set _ _ a e (set_in_cache e false)); [congruence|done|cbn [with_ents ents]; congruence] end.
Qed.

Lemma lru_Erase_data c key hash c' : lru_Erase c key hash = Done c' -> data_sub (heap c') (heap c).
Proof.
  unfold lru_Erase. intros H. run_inv. apply ht_Remove_ents in E. apply FinishErase_data in E0. cbn [with_table heap] in E0.
  eapply data_sub_trans; [|exact E0]. by eapply data_sub_ents; [|apply data_sub_refl].
Qed.

Lemma evict_loop_data fuel : forall c c', evict_loop fuel c = Done c' -> data_sub (heap c') (heap c).
Proof.
  induction fuel as [|fuel IH]; intros c c' H; cbn [evict_loop] in H; run_inv; try apply data_sub_refl. apply IH in H.
  match goal with E : evict_oldest _ _ = Done _ |- _ => unfold evict_oldest in E; apply run_bind_inv in E as (? & _ & E); apply lru_Erase_data in E end. by eapply data_sub_trans.
Qed.

Lemma lru_Insert_data c key hash v charge a c' : lru_Insert c key hash v charge = Done (a, c') ->
  forall b e, ents (heap c') !! b = Some e -> e_key e = key /\ e_value e = v \/ exists e0, ents (heap c) !! b = Some e0 /\ same_data e e0.
Proof.
  unfold lru_Insert, new_entry. intros H. set (e0 := mk_entry v charge key _ _ hash) in H. set (h0 := mk_heap _ _ _ _ _ _) in H.
  apply run_bind_inv in H as (c1 & E1 & H). apply run_bind_inv in H as (c2 & E2 & [= _ <-]). apply evict_loop_data in E2.
  assert (data_sub (heap c1) h0) as Hd.
  { run_inv; [|apply data_sub_refl]. apply LRU_Append_ents in E. apply ht_Insert_ents in E0. apply FinishErase_data in E3. cbn [with_table with_usage with_heap heap] in *.
    eapply data_sub_trans; [|exact E3]. eapply data_sub_ents; [|apply data_sub_refl]. congruence. }
  intros b e Ee. destruct (data_sub_trans _ _ _ Hd E2 b e Ee) as (e1 & Ee1 & Hs). cbn [h0 ents] in Ee1. destruct (decide (next_addr (heap c) = b)) as [<- |Hne].
  - rewrite lookup_insert_eq in Ee1. injection Ee1 as <-. left. by destruct Hs as (-> & -> & _).
  - rewrite lookup_insert_ne in Ee1 by done. right. by exists e1.
Qed.

Lemma FindPointer_loop_found h t key hash fuel : forall sl sl' a, FindPointer_loop fuel h t sl key hash = Done sl' -> read_slot h t sl' = Done a ->
  a = nullptr \/ exists e, ents h !! a = Some e /\ e_key e = key.
Proof.
  induction fuel as [|fuel IH]; intros sl sl' a H Ha; cbn [FindPointer_loop] in H; [done|]. apply run_bind_inv in H as (x & E & H). destruct (Z.eqb_spec x nullptr) as [-> |].
  - injection H as <-. left. congruence.
  - apply run_bind_inv in H as (e & Ee & H). destruct (_ || _) eqn:Em; [by apply (IH _ sl' a H)|]. injection H as <-. right. exists e. assert (a = x) as -> by congruence.
    split; [by apply load_inv|]. by apply orb_false_elim in Em as [_ Ek%negb_false_iff%slice_eqb_eq].
Qed.

Lemma lru_Lookup_data c key hash a c' : lru_Lookup c key hash = Done (a, c') -> data_sub (heap c') (heap c) /\ (a = nullptr \/ exists e, ents (heap c) !! a = Some e /\ e_key e = key).
Proof.
  unfold lru_Lookup, ht_Lookup, FindPointer. intros H. apply run_bind_inv in H as (x & E & H). apply run_bind_inv in E as (sl & E1 & E2).
  pose proof (FindPointer_loop_found _ _ _ _ _ _ _ _ E1 E2) as Hf. run_inv; [split; [apply data_sub_refl|done]|]. split; [by eapply Ref_data|done].
Qed.

(** An entry of this key and value in some shard. *)
Definition cached_in (c : ShardedLRUCache V) (k : list byte) (v : V) : Prop :=
  exists i s a e, shard_ c !! i = Some s /\ ents (heap s) !! a = Some e /\ e_key e = k /\ e_value e = v.

Lemma set_shard_cached (c : ShardedLRUCache V) i s' k v : cached_in (set_shard c i s') k v -> cached_in c k v \/ exists a e, ents (heap s') !! a = Some e /\ e_key e = k /\ e_value e = v.
Proof.
  intros (j & s & a & e & Hj & Ee & Ek & Ev). cbn [set_shard shard_] in Hj. apply list_lookup_insert_Some in Hj as [(_ & <- & _)|[_ Hj]]; [right; by exists a, e|left; by exists j, s, a, e].
Qed.

Lemma get_shard_inv (c : ShardedLRUCache V) i s : get_shard c i = Done s -> shard_ c !! Z.to_nat i = Some s.
Proof. unfold get_shard. destruct (shard_ c !! _); [|done]. by intros [= ->]. Qed.

Lemma sub_shard_cached (c : ShardedLRUCache V) i s s' k v : get_shard c i = Done s -> data_sub (heap s') (heap s) -> cached_in (set_shard c i s') k v -> cached_in c k v.
Proof.
  intros Hs%get_shard_inv Hd [?|(a & e & Ee & Ek & Ev)]%set_shard_cached; [done|]. destruct (Hd a e Ee) as (e0 & Ee0 & (K1 & K2 & _)).
  exists (Z.to_nat i), s, a, e0. split; [done|]. split; [done|]. split; congruence.
Qed.

Lemma Release_cached (c : ShardedLRUCache V) hd (c' : ShardedLRUCache V) k v : Release c hd = Done c' -> cached_in c' k v -> cached_in c k v.
Proof.
  unfold Release, lru_Release. intros H. run_inv. apply Unref_data in E3. by apply (sub_shard_cached _ _ _ _ _ _ E1).
Qed.
End Laws.

(** The tables give a handle back when they are done with the block, here at once. *)
#[export] Instance lru_cache {V} : Cache (ShardedLRUCache V) V := {
  cache_Lookup c k := match Lookup c k with
    | Done (hd, c') => if snd hd =? nullptr then (None, c') else match Value c' hd, Release c' hd with
        | Done v, Done c' => (Some v, c')
        | _, _ => (None, c')
        end
    | _ => (None, c)
    end;
  cache_Insert c k v charge := match Insert c k v charge with Done (hd, c') => match Release c' hd with Done c' => c' | _ => c' end | _ => c end;
  cache_NewId c := NewId c;
}.

#[export, refine] Instance lru_cache_laws {V} : CacheLaws (ShardedLRUCache V) V := { cached := cached_in }.
Proof.
  - intros c k v. cbn. destruct (Lookup c k) as [[hd c']| |] eqn:E; [|done|done]. destruct (Z.eqb_spec (snd hd) nullptr); [done|].
    destruct (Value c' hd) as [w| |] eqn:Ev; [|done|done]. destruct (Release c' hd); [|done|done]. cbn. intros [= ->].
    unfold Lookup in E. apply run_bind_inv in E as (s & Es & E). apply run_bind_inv in E as ([b s'] & El & [= <- <-]).
    destruct (lru_Lookup_data _ _ _ _ _ El) as [Hd [?|(e & Ee & Ek)]]; [done|]. apply get_shard_inv in Es. unfold Value, lru_Value in Ev. cbn [fst snd] in *.
    apply run_bind_inv in Ev as (s1 & Es1 & Ev). apply get_shard_inv in Es1. cbn [set_shard shard_] in Es1. rewrite list_lookup_insert_eq in Es1 by (by apply lookup_lt_Some in Es). injection Es1 as <-.
    apply run_bind_inv in Ev as (e1 & Ee1%load_inv & [= <-]). destruct (Hd _ _ Ee1) as (e0 & Ee0 & (K1 & K2 & _)).
    exists (Z.to_nat (Shard (HashSlice k))), s, b, e. split; [done|]. split; [done|]. split; [done|]. congruence.
  - intros c k k' v. cbn. destruct (Lookup c k) as [[hd c']| |] eqn:E; [|done|done]. assert (cached_in c' k' v -> cached_in c k' v) as Hsub.
    { unfold Lookup in E. apply run_bind_inv in E as (s & Es & E). apply run_bind_inv in E as ([a s'] & El & [= <- <-]). destruct (lru_Lookup_data _ _ _ _ _ El) as [Hd _]. by apply (sub_shard_cached _ _ _ _ _ _ Es). }
    destruct (snd hd =? nullptr); [done|]. destruct (Value c' hd); [|done|done]. destruct (Release c' hd) eqn:Er; [|done|done]. cbn. intros Hc. apply Hsub. by apply (Release_cached _ _ _ _ _ Er).
  - intros c k v charge k' v'. cbn. destruct (Insert c k v charge) as [[hd c']| |] eqn:E; [|by right|by right].
    assert (cached_in c' k' v' -> k' = k /\ v' = v \/ cached_in c k' v') as Hsub.
    { unfold Insert in E. apply run_bind_inv in E as (s & E0 & E). apply run_bind_inv in E as ([b s'] & E1 & [= <- <-]).
      intros [?|(a & e & Ee & Ek & Ev)]%set_shard_cached; [by right|]. destruct (lru_Insert_data _ _ _ _ _ _ _ E1 a e Ee) as [[? ?]|(e0 & Ee0 & (K1 & K2 & _))]; [left; split; congruence|right].
      apply get_shard_inv in E0. eexists _, _, a, e0. split; [exact E0|]. split; [done|]. split; congruence. }
    destruct (Release c' hd) eqn:Er; [|done|done]. intros Hc. apply Hsub. by apply (Release_cached _ _ _ _ _ Er).
  - intros c k v. cbn. done.
Defined.

(** * Examples *)

(** The constructor of the table resizes an empty one. *)
Example Resize_empty : Resize (V := Z) empty_heap (mk_table 0 0 []) = Done (empty_heap, new_HandleTable).
Proof. reflexivity. Qed.

Section Demo.
#[local] Abbreviation ka := [x61].
#[local] Abbreviation kb := [x62].
#[local] Abbreviation kc := [x63].

(** Three entries in a cache of two: that of [ka] is in use, so that of [kb] goes. *)
Definition demo_calls : list (Call (V := Z)) :=
  [CallInsert ka 1 1; CallInsert kb 2 1; CallRelease 0; CallInsert kc 3 1; CallLookup kb; CallLookup ka; CallInsert ka 4 1].

Example demo_run : match calls HashSlice (new_client 2) demo_calls with
  | Done s => ((fst <$> cl_held s), deletions (heap (cl_cache s)), usage_ (cl_cache s)) = ([6; 3; 5; 3], [(kb, 2)], 2)
  | _ => False
  end.
Proof. vm_compute. reflexivity. Qed.

Lemma lru_calls_safe_witness : exists s, calls HashSlice (new_client 2) demo_calls = Done s /\
  forall a k v, (a, (k, v)) ∈ cl_held s -> lru_Value (cl_cache s) a = Done v /\ exists e, ents (heap (cl_cache s)) !! a = Some e /\ e_key e = k.
Proof. apply (lru_calls_safe 2 demo_calls). vm_compute. reflexivity. Defined.

Lemma lru_lookup_latest_witness : exists s a c', calls HashSlice (new_client 2) demo_calls = Done s /\ lru_Lookup (cl_cache s) ka (HashSlice ka) = Done (a, c') /\
  (a = nullptr /\ c' = cl_cache s \/ exists v, lru_Value c' a = Done v /\ cl_map s ka = Some v).
Proof. apply (lru_lookup_latest 2 demo_calls). vm_compute. reflexivity. Defined.

Lemma lru_insert_evicts_witness : exists s bs lru inuse, calls HashSlice (new_client 2) demo_calls = Done s /\ rep HashSlice (cl_cache s) bs lru inuse (fst <$> cl_held s) [] /\
  exists a c' bs' old dropped lru', lru_Insert (cl_cache s) kb (HashSlice kb) 5 1 = Done (a, c') /\
    replaced (heap (cl_cache s)) bs kb old /\ without old lru = dropped ++ lru' /\ rep HashSlice c' bs' lru' (without old inuse ++ [a]) (a :: (fst <$> cl_held s)) [] /\
    (lru_TotalCharge c' <= 2 \/ lru' = []) /\
    (forall d x, dropped = d ++ [x] -> 2 < u64 (charges (heap (cl_cache s)) (x :: lru' ++ without old inuse) + 1)) /\
    exists c'', lru_Lookup c' kb (HashSlice kb) = Done (a, c'').
Proof. apply (lru_insert_evicts 2 demo_calls kb 5 1); vm_compute; reflexivity. Defined.

Lemma lru_deletes_once_witness : exists s, calls HashSlice (new_client 2) demo_calls = Done s /\ deletions (heap (cl_cache s)) ++ alive (ents (heap (cl_cache s))) ≡ₚ cl_inserted s /\
  (cl_held s = [] -> exists c', destroy_LRUCache (cl_cache s) = Done c' /\ ents (heap c') = ∅ /\ deletions (heap c') ≡ₚ cl_inserted s).
Proof. apply (lru_deletes_once 2 demo_calls). vm_compute. reflexivity. Defined.
End Demo.
