(* ===== verification/LdbEnvPosix.v ===== *)
(** leveldb: the POSIX environment (util/env_posix.cc).

    System calls are a class of operations on the state of the system, [Posix]; what the
    code relies on of them is the class [PosixLaws].  The counter that limits open files
    and the queue of background work are used by several threads: their atomic steps are
    relations, and the theorems are about every interleaving. *)

From stdpp Require Import strings gmap sets.
From S2P Require Import Prelude Leb128 LdbCoding LdbStatus LdbIterator.
Open Scope Z_scope.

(** * System calls *)

(** A result, or the error number. *)
Definition sys (A : Type) : Type := (Z + A)%type.

Class Posix (W : Type) := {
  ENOENT : Z; EINTR : Z; EINVAL : Z;
  strerror : Z -> list byte;
  open_read : W -> list byte -> sys Z * W;
  open_trunc : W -> list byte -> sys Z * W;
  open_append : W -> list byte -> sys Z * W;
  open_lock : W -> list byte -> sys Z * W;
  sys_close : W -> Z -> sys unit * W;
  sys_read : W -> Z -> Z -> sys (list byte) * W;
  sys_pread : W -> Z -> Z -> Z -> sys (list byte) * W;
  sys_lseek : W -> Z -> Z -> sys unit * W;
  sys_write : W -> Z -> list byte -> sys Z * W;
  sys_fullfsync : W -> Z -> sys unit * W;
  sys_fdatasync : W -> Z -> sys unit * W;
  sys_fsync : W -> Z -> sys unit * W;
  sys_mmap : W -> Z -> Z -> sys (list byte) * W;
  sys_access : W -> list byte -> bool;
  sys_readdir : W -> list byte -> sys (list (list byte)) * W;
  sys_unlink : W -> list byte -> sys unit * W;
  sys_mkdir : W -> list byte -> sys unit * W;
  sys_rmdir : W -> list byte -> sys unit * W;
  sys_stat : W -> list byte -> sys Z * W;
  sys_rename : W -> list byte -> list byte -> sys unit * W;
  sys_setlk : W -> Z -> bool -> sys unit * W;
}.

(** * The limiter *)

Record Limiter := mk_limiter { acquires_allowed_ : Z }.

(** The old value, and the counter after an atomic step. *)
Definition fetch_sub (l : Limiter) (n : Z) : Z * Limiter := (acquires_allowed_ l, mk_limiter (s32 (acquires_allowed_ l - n))).
Definition fetch_add (l : Limiter) (n : Z) : Z * Limiter := (acquires_allowed_ l, mk_limiter (s32 (acquires_allowed_ l + n))).

(** [Acquire] is one atomic step, and another if that shows that nothing is left. *)
Definition Acquire_try (l : Limiter) : bool * Limiter :=
  let '(old_acquires_allowed, l) := fetch_sub l 1 in (old_acquires_allowed >? 0, l).
Definition Acquire_undo (l : Limiter) : Limiter := snd (fetch_add l 1).

Definition Acquire (l : Limiter) : bool * Limiter :=
  let '(acquired, l) := Acquire_try l in if acquired then (true, l) else (false, Acquire_undo l).
Definition Release (l : Limiter) : Limiter := snd (fetch_add l 1).

(** * Names of files *)

Definition slash : byte := x2f.

(** The position after the last slash. *)
Fixpoint after_slash (s : list byte) : option Z :=
  match s with
  | [] => None
  | c :: s => match after_slash s with Some n => Some (n + 1) | None => if (c =? slash)%byte then Some 1 else None end
  end.

Definition rfind (s : list byte) : option Z := n ← after_slash s; Some (n - 1).

Definition Dirname (filename : list byte) : list byte :=
  match rfind filename with None => cstr "." | Some separator_pos => take (Z.to_nat separator_pos) filename end.

Definition Basename (filename : list byte) : list byte :=
  match rfind filename with None => filename | Some separator_pos => drop (Z.to_nat (separator_pos + 1)) filename end.

Definition IsManifest (filename : list byte) : bool := starts_with (Basename filename) (cstr "MANIFEST").

(** * Files *)

Definition kWritableFileBufferSize : Z := 65536.

Section Files.
Context {W : Type} `{Posix W}.
(** What the build found. *)
Context (HAVE_FULLFSYNC HAVE_FDATASYNC : bool).

Definition PosixError (context : list byte) (error_number : Z) : Status :=
  if error_number =? ENOENT then NotFound context (strerror error_number) else IOError context (strerror error_number).

(** The status of a call whose result is not used. *)
Definition posix_status {A} (context : list byte) (r : sys A) : Status :=
  match r with inl e => PosixError context e | inr _ => OK end.

(** ** Sequential reads *)

Record PosixSequentialFile := mk_seq { seq_fd : Z; seq_filename : list byte }.

(** The status and what was read. *)
Fixpoint seq_Read (fuel : nat) (f : PosixSequentialFile) (w : W) (n : Z) : run (Status * list byte * W) :=
  match fuel with
  | O => OutOfFuel
  | S fuel =>
      match sys_read w (seq_fd f) n with
      | (inl e, w) => if e =? EINTR then seq_Read fuel f w n else Done (PosixError (seq_filename f) e, [], w)
      | (inr data, w) => Done (OK, data, w)
      end
  end.

Definition seq_Skip (f : PosixSequentialFile) (w : W) (n : Z) : Status * W :=
  let '(r, w) := sys_lseek w (seq_fd f) n in (posix_status (seq_filename f) r, w).

(** The destructor. *)
Definition destroy_seq (f : PosixSequentialFile) (w : W) : W := snd (sys_close w (seq_fd f)).

(** ** Random access *)

Record PosixRandomAccessFile := mk_random { has_permanent_fd_ : bool; random_fd : Z; random_filename : list byte }.

(** The file, the limiter of descriptors, the system. *)
Definition new_PosixRandomAccessFile (filename : list byte) (fd : Z) (fd_limiter : Limiter) (w : W) : PosixRandomAccessFile * Limiter * W :=
  let '(has, fd_limiter) := Acquire fd_limiter in
  let f := mk_random has (if has then fd else -1) filename in
  if has then (f, fd_limiter, w) else (f, fd_limiter, snd (sys_close w fd)).

Definition destroy_random (f : PosixRandomAccessFile) (fd_limiter : Limiter) (w : W) : Limiter * W :=
  if has_permanent_fd_ f then (Release fd_limiter, snd (sys_close w (random_fd f))) else (fd_limiter, w).

Definition random_Read (f : PosixRandomAccessFile) (w : W) (offset n : Z) : Status * list byte * W :=
  let '(fd, w) := (if has_permanent_fd_ f then (inr (random_fd f), w) else open_read w (random_filename f)) in
  match fd with
  | inl e => (PosixError (random_filename f) e, [], w)
  | inr fd =>
      let '(r, w) := sys_pread w fd n (s64 offset) in
      let result := match r with inl _ => [] | inr data => data end in
      let status := posix_status (random_filename f) r in
      (status, result, if has_permanent_fd_ f then w else snd (sys_close w fd))
  end.

(** ** Mapped files *)

Record PosixMmapReadableFile := mk_mmap { mmap_base_ : list byte; mmap_length_ : Z; mmap_filename : list byte }.

(** A slice of the mapping that does not lie in it is out of bounds. *)
Definition mmap_Read (f : PosixMmapReadableFile) (offset n : Z) : run (Status * list byte) :=
  if u64 (offset + n) >? mmap_length_ f then Done (PosixError (mmap_filename f) EINVAL, [])
  else if offset + n <=? size (mmap_base_ f) then Done (OK, take (Z.to_nat n) (drop (Z.to_nat offset) (mmap_base_ f)))
  else OutOfBounds.

(** ** Buffered writes *)

Record PosixWritableFile := mk_writable {
  buf_ : list byte;
  pos_ : Z;
  fd_ : Z;
  is_manifest_ : bool;
  filename_ : list byte;
  dirname_ : list byte;
}.

Definition new_PosixWritableFile (filename : list byte) (fd : Z) : PosixWritableFile :=
  mk_writable (replicate (Z.to_nat kWritableFileBufferSize) x00) 0 fd (IsManifest filename) filename (Dirname filename).

Definition set_buf (f : PosixWritableFile) (b : list byte) : PosixWritableFile := mk_writable b (pos_ f) (fd_ f) (is_manifest_ f) (filename_ f) (dirname_ f).
Definition set_pos (f : PosixWritableFile) (n : Z) : PosixWritableFile := mk_writable (buf_ f) n (fd_ f) (is_manifest_ f) (filename_ f) (dirname_ f).
Definition set_fd (f : PosixWritableFile) (n : Z) : PosixWritableFile := mk_writable (buf_ f) (pos_ f) n (is_manifest_ f) (filename_ f) (dirname_ f).

(** [std::memcpy] into the buffer. *)
Definition buf_copy (f : PosixWritableFile) (offset : Z) (data : list byte) : run PosixWritableFile :=
  if (0 <=? offset) && (offset + size data <=? size (buf_ f)) then
    Done (set_buf f (take (Z.to_nat offset) (buf_ f) ++ data ++ drop (Z.to_nat (offset + size data)) (buf_ f)))
  else OutOfBounds.

(** [write] may write less than it was given, and may be interrupted. *)
Fixpoint WriteUnbuffered (fuel : nat) (f : PosixWritableFile) (w : W) (data : list byte) : run (Status * W) :=
  match fuel with
  | O => OutOfFuel
  | S fuel =>
      if size data >? 0 then
        match sys_write w (fd_ f) data with
        | (inl e, w) => if e =? EINTR then WriteUnbuffered fuel f w data else Done (PosixError (filename_ f) e, w)
        | (inr write_result, w) => WriteUnbuffered fuel f w (drop (Z.to_nat write_result) data)
        end
      else Done (OK, w)
  end.

Definition FlushBuffer (fuel : nat) (f : PosixWritableFile) (w : W) : run (Status * PosixWritableFile * W) :=
  '(status, w) ← WriteUnbuffered fuel f w (take (Z.to_nat (pos_ f)) (buf_ f));
  Done (status, set_pos f 0, w).

Definition posix_Append (fuel : nat) (f : PosixWritableFile) (w : W) (data : list byte) : run (Status * PosixWritableFile * W) :=
  let copy_size := Z.min (size data) (u64 (kWritableFileBufferSize - pos_ f)) in
  f ← buf_copy f (pos_ f) (take (Z.to_nat copy_size) data);
  let data := drop (Z.to_nat copy_size) data in
  let f := set_pos f (pos_ f + copy_size) in
  if size data =? 0 then Done (OK, f, w)
  else
    '(status, f, w) ← FlushBuffer fuel f w;
    if negb (ok status) then Done (status, f, w)
    else if size data <? kWritableFileBufferSize then
      f ← buf_copy f 0 data;
      Done (OK, set_pos f (size data), w)
    else
      '(status, w) ← WriteUnbuffered fuel f w data;
      Done (status, f, w).

Definition posix_Close (fuel : nat) (f : PosixWritableFile) (w : W) : run (Status * PosixWritableFile * W) :=
  '(status, f, w) ← FlushBuffer fuel f w;
  let '(close_result, w) := sys_close w (fd_ f) in
  let status := match close_result with inl e => if ok status then PosixError (filename_ f) e else status | inr _ => status end in
  Done (status, set_fd f (-1), w).

(** The destructor. *)
Definition destroy_writable (fuel : nat) (f : PosixWritableFile) (w : W) : run W :=
  if fd_ f >=? 0 then '(_, _, w) ← posix_Close fuel f w; Done w else Done w.

Definition posix_Flush (fuel : nat) (f : PosixWritableFile) (w : W) : run (Status * PosixWritableFile * W) := FlushBuffer fuel f w.

Definition SyncFd (fd : Z) (fd_path : list byte) (w : W) : Status * W :=
  let '(full, w) := (if HAVE_FULLFSYNC then sys_fullfsync w fd else (inl 0, w)) in
  match full with
  | inr _ => (OK, w)
  | inl _ =>
      let '(r, w) := (if HAVE_FDATASYNC then sys_fdatasync w fd else sys_fsync w fd) in
      (posix_status fd_path r, w)
  end.

Definition SyncDirIfManifest (f : PosixWritableFile) (w : W) : Status * W :=
  if negb (is_manifest_ f) then (OK, w)
  else
    match open_read w (dirname_ f) with
    | (inl e, w) => (PosixError (dirname_ f) e, w)
    | (inr fd, w) => let '(status, w) := SyncFd fd (dirname_ f) w in (status, snd (sys_close w fd))
    end.

Definition posix_Sync (fuel : nat) (f : PosixWritableFile) (w : W) : run (Status * PosixWritableFile * W) :=
  let '(status, w) := SyncDirIfManifest f w in
  if negb (ok status) then Done (status, f, w)
  else
    '(status, f, w) ← FlushBuffer fuel f w;
    if negb (ok status) then Done (status, f, w)
    else let '(status, w) := SyncFd (fd_ f) (filename_ f) w in Done (status, f, w).

(** * The environment *)

Record PosixFileLock := mk_lock { lock_fd : Z; lock_filename : list byte }.

(** The members that file operations change. *)
Record PosixEnv := mk_env { locks_ : gset (list byte); mmap_limiter_ : Limiter; fd_limiter_ : Limiter }.

Definition set_locks (e : PosixEnv) l : PosixEnv := mk_env l (mmap_limiter_ e) (fd_limiter_ e).
Definition set_mmap_limiter (e : PosixEnv) l : PosixEnv := mk_env (locks_ e) l (fd_limiter_ e).
Definition set_fd_limiter (e : PosixEnv) l : PosixEnv := mk_env (locks_ e) (mmap_limiter_ e) l.

(** class PosixLockTable *)
Definition lock_Insert (e : PosixEnv) (fname : list byte) : bool * PosixEnv := (bool_decide (fname ∉ locks_ e), set_locks e ({[fname]} ∪ locks_ e)).
Definition lock_Remove (e : PosixEnv) (fname : list byte) : PosixEnv := set_locks e (locks_ e ∖ {[fname]}).

Definition NewSequentialFile (w : W) (filename : list byte) : Status * option PosixSequentialFile * W :=
  match open_read w filename with
  | (inl e, w) => (PosixError filename e, None, w)
  | (inr fd, w) => (OK, Some (mk_seq fd filename), w)
  end.

Definition GetFileSize (w : W) (filename : list byte) : Status * Z * W :=
  match sys_stat w filename with
  | (inl e, w) => (PosixError filename e, 0, w)
  | (inr n, w) => (OK, n, w)
  end.

Definition NewRandomAccessFile (e : PosixEnv) (w : W) (filename : list byte) :
    Status * option (PosixRandomAccessFile + PosixMmapReadableFile) * PosixEnv * W :=
  match open_read w filename with
  | (inl err, w) => (PosixError filename err, None, e, w)
  | (inr fd, w) =>
      let '(acquired, l) := Acquire (mmap_limiter_ e) in
      let e := set_mmap_limiter e l in
      if negb acquired then
        let '(f, l, w) := new_PosixRandomAccessFile filename fd (fd_limiter_ e) w in
        (OK, Some (inl f), set_fd_limiter e l, w)
      else
        let '(status, file_size, w) := GetFileSize w filename in
        let '(status, result, w) := (if ok status then
            match sys_mmap w fd file_size with
            | (inl err, w) => (PosixError filename err, None, w)
            | (inr base, w) => (status, Some (inr (mk_mmap base file_size filename)), w)
            end
          else (status, None, w)) in
        let w := snd (sys_close w fd) in
        (status, result, if ok status then e else set_mmap_limiter e (Release (mmap_limiter_ e)), w)
  end.

(** The destructors of both kinds. *)
Definition destroy_file (e : PosixEnv) (w : W) (f : PosixRandomAccessFile + PosixMmapReadableFile) : PosixEnv * W :=
  match f with
  | inl f => let '(l, w) := destroy_random f (fd_limiter_ e) w in (set_fd_limiter e l, w)
  | inr _ => (set_mmap_limiter e (Release (mmap_limiter_ e)), w)
  end.

Definition posix_NewWritableFile (w : W) (filename : list byte) : Status * option PosixWritableFile * W :=
  match open_trunc w filename with
  | (inl e, w) => (PosixError filename e, None, w)
  | (inr fd, w) => (OK, Some (new_PosixWritableFile filename fd), w)
  end.

Definition posix_NewAppendableFile (w : W) (filename : list byte) : Status * option PosixWritableFile * W :=
  match open_append w filename with
  | (inl e, w) => (PosixError filename e, None, w)
  | (inr fd, w) => (OK, Some (new_PosixWritableFile filename fd), w)
  end.

Definition FileExists (w : W) (filename : list byte) : bool := sys_access w filename.

Definition GetChildren (w : W) (directory_path : list byte) : Status * list (list byte) * W :=
  match sys_readdir w directory_path with
  | (inl e, w) => (PosixError directory_path e, [], w)
  | (inr names, w) => (OK, names, w)
  end.

Definition env_DeleteFile (w : W) (filename : list byte) : Status * W := let '(r, w) := sys_unlink w filename in (posix_status filename r, w).
Definition CreateDir (w : W) (dirname : list byte) : Status * W := let '(r, w) := sys_mkdir w dirname in (posix_status dirname r, w).
Definition DeleteDir (w : W) (dirname : list byte) : Status * W := let '(r, w) := sys_rmdir w dirname in (posix_status dirname r, w).
Definition RenameFile (w : W) (from to : list byte) : Status * W := let '(r, w) := sys_rename w from to in (posix_status from r, w).

Definition LockFile (e : PosixEnv) (w : W) (filename : list byte) : Status * option PosixFileLock * PosixEnv * W :=
  match open_lock w filename with
  | (inl err, w) => (PosixError filename err, None, e, w)
  | (inr fd, w) =>
      let '(inserted, e) := lock_Insert e filename in
      if negb inserted then
        (IOError (cstr "lock " ++ filename) (cstr "already held by process"), None, e, snd (sys_close w fd))
      else
        match sys_setlk w fd true with
        | (inl lock_errno, w) => (PosixError (cstr "lock " ++ filename) lock_errno, None, lock_Remove e filename, snd (sys_close w fd))
        | (inr _, w) => (OK, Some (mk_lock fd filename), e, w)
        end
  end.

Definition UnlockFile (e : PosixEnv) (w : W) (lock : PosixFileLock) : Status * PosixEnv * W :=
  match sys_setlk w (lock_fd lock) false with
  | (inl err, w) => (PosixError (cstr "unlock " ++ lock_filename lock) err, e, w)
  | (inr _, w) => (OK, lock_Remove e (lock_filename lock), snd (sys_close w (lock_fd lock)))
  end.
End Files.

(** The limit of descriptors: what [getrlimit] gives, [None] when it fails; [RLIM_INFINITY] is
    the largest. *)
Definition MaxOpenFiles (g_open_read_only_file_limit : Z) (rlim : option Z) : Z :=
  if g_open_read_only_file_limit >=? 0 then g_open_read_only_file_limit
  else match rlim with
    | None => 50
    | Some cur => if cur =? 2 ^ 64 - 1 then 2 ^ 31 - 1 else s32 (cur / 5)
    end.

Definition NowMicros (tv_sec tv_usec : Z) : Z := u64 (u64 tv_sec * 1000000 + tv_usec).

(** * Background work *)

Section Background.
Context {A : Type}.

(** The one background thread: not started; about to take the mutex; asleep on the condition
    variable; running an item. *)
Inductive Thread := NotStarted | Ready | Asleep | Running (item : A).

(** [ran]: the items that were run to their end. *)
Record Background := mk_background { started_background_thread_ : bool; background_work_queue_ : list A; thread : Thread; ran : list A }.

Definition new_Background : Background := mk_background false [] NotStarted [].

(** [Signal] wakes the thread if it waits. *)
Definition signal (t : Thread) : Thread := match t with Asleep => Ready | _ => t end.

(** The body of [Schedule], under the mutex. *)
Definition Schedule (b : Background) (item : A) : Background :=
  let t := if negb (started_background_thread_ b) then Ready else thread b in
  let t := match background_work_queue_ b with [] => signal t | _ => t end in
  mk_background true (background_work_queue_ b ++ [item]) t (ran b).

(** A step of [BackgroundThreadMain]: from the lock to the wait or the unlock, or the run of
    an item. *)
Definition background_step (b : Background) : option Background :=
  match thread b with
  | NotStarted | Asleep => None
  | Ready =>
      match background_work_queue_ b with
      | [] => Some (mk_background (started_background_thread_ b) [] Asleep (ran b))
      | item :: queue => Some (mk_background (started_background_thread_ b) queue (Running item) (ran b))
      end
  | Running item => Some (mk_background (started_background_thread_ b) (background_work_queue_ b) Ready (ran b ++ [item]))
  end.
End Background.
Arguments Thread A : clear implicits.
Arguments Background A : clear implicits.

(** * The limiter, under any interleaving *)

(** Where a thread is: outside, between the two steps of a failing [Acquire], or holding
    what it acquired. *)
Inductive LimiterThread := LIdle | LUndo | LHold.

#[export] Instance file_lock_eq : EqDecision PosixFileLock.
Proof. solve_decision. Defined.

#[export] Instance limiter_thread_eq : EqDecision LimiterThread.
Proof. solve_decision. Defined.

Definition LimiterState : Type := Limiter * list LimiterThread.

(** An atomic step of the thread [i]. *)
Inductive limiter_step : LimiterState -> LimiterState -> Prop :=
| step_try l ts i : ts !! i = Some LIdle ->
    limiter_step (l, ts) (snd (Acquire_try l), <[i := if fst (Acquire_try l) then LHold else LUndo]> ts)
| step_undo l ts i : ts !! i = Some LUndo -> limiter_step (l, ts) (Acquire_undo l, <[i := LIdle]> ts)
| step_release l ts i : ts !! i = Some LHold -> limiter_step (l, ts) (Release l, <[i := LIdle]> ts).

Definition threads_at (t : LimiterThread) (ts : list LimiterThread) : Z := Z.of_nat (length (List.filter (fun t' => bool_decide (t' = t)) ts)).

Lemma threads_at_cons t t' ts : threads_at t (t' :: ts) = threads_at t ts + (if decide (t' = t) then 1 else 0).
Proof. unfold threads_at. cbn [List.filter]. case_bool_decide; destruct (decide (t' = t)); try done; cbn [length]; lia. Qed.

Lemma threads_at_insert t ts i t0 t1 : ts !! i = Some t0 ->
  threads_at t (<[i := t1]> ts) = threads_at t ts - (if decide (t0 = t) then 1 else 0) + (if decide (t1 = t) then 1 else 0).
Proof.
  revert i. induction ts as [|t' ts IH]; intros i Hi; [done|]. destruct i as [|i].
  - injection Hi as ->. change (<[0%nat := t1]> (t0 :: ts)) with (t1 :: ts). rewrite !threads_at_cons. lia.
  - change (<[S i := t1]> (t' :: ts)) with (t' :: <[i := t1]> ts). rewrite !threads_at_cons, (IH i Hi). lia.
Qed.

Lemma threads_at_bound t ts : 0 <= threads_at t ts <= Z.of_nat (length ts).
Proof. unfold threads_at. pose proof (List.filter_length_le (fun t' => bool_decide (t' = t)) ts). lia. Qed.

Lemma threads_at_total ts : threads_at LIdle ts + threads_at LUndo ts + threads_at LHold ts = Z.of_nat (length ts).
Proof.
  induction ts as [|t ts IH]; [done|]. rewrite !threads_at_cons. cbn [length]. destruct t; repeat destruct (decide _); try done; lia.
Qed.

Lemma threads_at_idle t n : t <> LIdle -> threads_at t (replicate n LIdle) = 0.
Proof. intros Ht. induction n as [|n IH]; [done|]. cbn [replicate]. rewrite threads_at_cons, IH. by destruct (decide (LIdle = t)). Qed.

(** The counter is what is left. *)
Definition limiter_inv (max : Z) (n : nat) (s : LimiterState) : Prop :=
  length (snd s) = n /\ acquires_allowed_ (fst s) = max - threads_at LHold (snd s) - threads_at LUndo (snd s) /\ threads_at LHold (snd s) <= max.

Lemma s32_small x : - 2 ^ 31 <= x < 2 ^ 31 -> s32 x = x.
Proof. intros Hx. apply (sx_small 32); lia. Qed.

Lemma threads_at_pos t ts i : ts !! i = Some t -> 1 <= threads_at t ts.
Proof.
  revert i. induction ts as [|t' ts IH]; intros i Hi; [done|]. rewrite threads_at_cons. pose proof (threads_at_bound t ts). destruct i as [|i].
  - injection Hi as ->. rewrite decide_True by done. lia.
  - specialize (IH i Hi). destruct (decide (t' = t)); lia.
Qed.

Lemma limiter_step_inv max n s s' : 0 <= max < 2 ^ 31 -> Z.of_nat n < 2 ^ 31 -> limiter_step s s' -> limiter_inv max n s -> limiter_inv max n s'.
Proof.
  intros Hmax Hn Hstep (Hl & Ha & Hb). unfold limiter_inv. destruct Hstep as [l ts i Hi|l ts i Hi|l ts i Hi]; cbn [fst snd] in *;
    pose proof (threads_at_pos _ ts i Hi); rewrite length_insert, !(threads_at_insert _ ts i _ _ Hi); pose proof (threads_at_total ts); pose proof (threads_at_bound LIdle ts);
    pose proof (threads_at_bound LUndo ts); pose proof (threads_at_bound LHold ts);
    cbn [Acquire_try fetch_sub fst snd acquires_allowed_ Acquire_undo Release fetch_add] in *; rewrite s32_small by lia; (split; [done|]).
  - rewrite Z.gtb_ltb. destruct (Z.ltb_spec 0 (acquires_allowed_ l)); repeat destruct (decide _); try done; lia.
  - repeat destruct (decide _); try done; lia.
  - repeat destruct (decide _); try done; lia.
Qed.

Lemma limiter_reach max n s : 0 <= max < 2 ^ 31 -> Z.of_nat n < 2 ^ 31 -> rtc limiter_step (mk_limiter max, replicate n LIdle) s -> limiter_inv max n s.
Proof.
  intros Hmax Hn. assert (limiter_inv max n (mk_limiter max, replicate n LIdle)) as H0.
  { unfold limiter_inv. cbn [fst snd acquires_allowed_]. rewrite length_replicate, !threads_at_idle by done. split; [done|]. lia. }
  revert H0. generalize (mk_limiter max, replicate n LIdle). intros s0 H0 Hr. induction Hr as [|s1 s2 s3 Hstep Hr IH]; [done|]. apply IH. by apply (limiter_step_inv max n s1 s2).
Qed.

(** C20: at no time do more threads hold a resource than the limit; and while no other thread is
    giving back what it could not have, a thread acquires one just when one is left. *)
Theorem limiter_bound max n l ts : 0 <= max < 2 ^ 31 -> Z.of_nat n < 2 ^ 31 -> rtc limiter_step (mk_limiter max, replicate n LIdle) (l, ts) ->
  threads_at LHold ts <= max /\ (threads_at LUndo ts = 0 -> fst (Acquire l) = true <-> threads_at LHold ts < max).
Proof.
  intros Hmax Hn Hr. destruct (limiter_reach max n _ Hmax Hn Hr) as (Hl & Ha & Hb). cbn [fst snd] in *. split; [done|]. intros Hu. unfold Acquire, Acquire_try, fetch_sub.
  rewrite Z.gtb_ltb. destruct (Z.ltb_spec 0 (acquires_allowed_ l)); cbn [fst]; split; (done || lia).
Qed.

(** One resource, three threads: the first holds it, the second fails, the first gives it
    back before the second has undone its step, and the third fails although nobody holds
    the resource. *)
Lemma limiter_spurious : exists l, rtc limiter_step (mk_limiter 1, replicate 3 LIdle) (l, [LIdle; LUndo; LIdle]) /\ fst (Acquire_try l) = false.
Proof.
  eexists. split; [|shelve].
  eapply rtc_l; [apply (step_try (mk_limiter 1) [LIdle; LIdle; LIdle] 0); reflexivity|].
  eapply rtc_l; [apply (step_try (mk_limiter 0) [LHold; LIdle; LIdle] 1); reflexivity|].
  eapply rtc_l; [apply (step_release (mk_limiter (-1)) [LHold; LUndo; LIdle] 0); reflexivity|].
  apply rtc_refl.
  Unshelve. reflexivity.
Qed.

Lemma limiter_bound_witness : threads_at LHold [LHold; LUndo] <= 1 /\ (threads_at LUndo [LHold; LUndo] = 0 -> fst (Acquire (mk_limiter (-1))) = true <-> threads_at LHold [LHold; LUndo] < 1).
Proof.
  apply (limiter_bound 1 2); [lia|lia|].
  eapply rtc_l; [apply (step_try (mk_limiter 1) [LIdle; LIdle] 0); reflexivity|].
  eapply rtc_l; [apply (step_try (mk_limiter 0) [LHold; LIdle] 1); reflexivity|]. apply rtc_refl.
Defined.

(** * Background work, under any interleaving *)

Section BackgroundProofs.
Context {A : Type}.
Implicit Types (b : Background A) (scheduled : list A).

(** A client schedules an item, the thread makes a step, or it wakes up without a signal. *)
Inductive env_step : Background A * list A -> Background A * list A -> Prop :=
| step_schedule b scheduled item : env_step (b, scheduled) (Schedule b item, scheduled ++ [item])
| step_thread b b' scheduled : background_step b = Some b' -> env_step (b, scheduled) (b', scheduled)
| step_wakeup b scheduled : thread b = Asleep ->
    env_step (b, scheduled) (mk_background (started_background_thread_ b) (background_work_queue_ b) Ready (ran b), scheduled).

Definition running (t : Thread A) : list A := match t with Running item => [item] | _ => [] end.

Record background_inv b scheduled : Prop := {
  bi_fifo : ran b ++ running (thread b) ++ background_work_queue_ b = scheduled;
  bi_asleep : thread b = Asleep -> background_work_queue_ b = [];
  bi_started : started_background_thread_ b = false <-> thread b = NotStarted;
  bi_not_started : thread b = NotStarted -> background_work_queue_ b = [];
}.

Lemma Schedule_inv b scheduled item : background_inv b scheduled -> background_inv (Schedule b item) (scheduled ++ [item]).
Proof.
  intros [Hf Ha Hs Hn]. destruct b as [st q t r]. cbn [thread background_work_queue_ started_background_thread_ ran] in *. unfold Schedule. cbn [thread background_work_queue_ started_background_thread_ ran].
  assert (exists t', (match q with [] => signal (if negb st then Ready else t) | _ => if negb st then Ready else t end) = t' /\ running t' = running t /\ t' <> Asleep /\ t' <> NotStarted) as (t' & -> & Hr & Hna & Hnn).
  { destruct st; cbn [negb].
    - destruct q as [|x q]; [destruct t; eexists; (split; [reflexivity|]); try done; exfalso; apply diff_true_false, Hs; done|].
      exists t. split; [done|]. split; [done|]. split; [by intros ->; specialize (Ha eq_refl)|]. by intros ->; specialize (Hn eq_refl).
    - destruct Hs as [Hs _]. rewrite (Hs eq_refl). exists Ready. by destruct q. }
  split; cbn [thread background_work_queue_ started_background_thread_ ran].
  - by rewrite Hr, <- Hf, !app_assoc.
  - done.
  - by split.
  - done.
Qed.

Lemma background_step_inv b b' scheduled : background_step b = Some b' -> background_inv b scheduled -> background_inv b' scheduled.
Proof.
  intros Hstep [Hf Ha Hs Hn]. destruct b as [st q t r]. unfold background_step in Hstep. cbn [thread background_work_queue_ started_background_thread_ ran] in *.
  destruct t as [| | |item]; [done| |done|].
  - destruct q as [|item q]; injection Hstep as <-; split; cbn [thread background_work_queue_ started_background_thread_ ran]; try done; split; try done; intros E; by apply Hs in E.
  - injection Hstep as <-. split; cbn [thread background_work_queue_ started_background_thread_ ran]; try done; [by rewrite <- Hf, <- app_assoc|split; try done; intros E; by apply Hs in E].
Qed.

Lemma env_step_inv s s' : env_step s s' -> background_inv (fst s) (snd s) -> background_inv (fst s') (snd s').
Proof.
  intros Hstep Hinv. destruct Hstep as [b scheduled item|b b' scheduled E|b scheduled E]; cbn [fst snd] in *.
  - by apply Schedule_inv.
  - by apply (background_step_inv b).
  - destruct Hinv as [Hf Ha Hs Hn]. split; cbn [thread background_work_queue_ started_background_thread_ ran]; try done; [by rewrite E in Hf|].
    split; [|done]. intros Est. apply Hs in Est. congruence.
Qed.

(** What the thread does when it is left alone for [n] steps. *)
Fixpoint thread_steps (n : nat) b : Background A :=
  match n with O => b | S n => match background_step b with Some b' => thread_steps n b' | None => b end end.

Definition work_left b : nat := 2 * length (background_work_queue_ b) + match thread b with Running _ => 1 | _ => 0 end.

Lemma thread_steps_done n : forall b scheduled, background_inv b scheduled -> (work_left b <= n)%nat -> ran (thread_steps n b) = scheduled.
Proof.
  induction n as [|n IH]; intros b scheduled Hinv Hn; pose proof (bi_fifo _ _ Hinv) as Hf; pose proof (bi_not_started _ _ Hinv) as Hns; pose proof (bi_asleep _ _ Hinv) as Has;
    destruct b as [st q t r]; unfold work_left in Hn; cbn [thread background_work_queue_ started_background_thread_ ran] in *.
  - destruct q as [|item q]; [|cbn [length] in Hn; lia]. destruct t; [..|lia]; cbn in *; by rewrite app_nil_r in Hf.
  - cbn [thread_steps]. unfold background_step. cbn [thread background_work_queue_ started_background_thread_ ran]. destruct t as [| | |item].
    + rewrite (Hns eq_refl) in Hf. by rewrite !app_nil_r in Hf.
    + destruct q as [|item q]; (apply IH; [eapply background_step_inv; [|exact Hinv]; reflexivity|unfold work_left; cbn [thread background_work_queue_ length] in *; lia]).
    + rewrite (Has eq_refl) in Hf. by rewrite !app_nil_r in Hf.
    + apply IH; [eapply background_step_inv; [|exact Hinv]; reflexivity|unfold work_left; cbn [thread background_work_queue_ length] in *; lia].
Qed.

Lemma background_reach b scheduled : rtc env_step (new_Background, []) (b, scheduled) -> background_inv b scheduled.
Proof.
  intros Hr. assert (background_inv (new_Background (A := A)) []) as H0 by (by split).
  change (background_inv (fst (b, scheduled)) (snd (b, scheduled))). revert H0. change (background_inv new_Background []) with (background_inv (fst (new_Background (A := A), @nil A)) (snd (new_Background (A := A), @nil A))).
  induction Hr as [|s1 s2 s3 Hstep Hr IH]; [done|]. intros H1. apply IH. by apply (env_step_inv s1 s2).
Qed.

(** C19: no wakeup is lost.  At any time the items that were run, that of the thread and those in
    the queue are what was scheduled, in order; and left alone the thread runs them all, in at
    most two steps for each and one more. *)
Theorem background_runs_all b scheduled : rtc env_step (new_Background, []) (b, scheduled) ->
  ran b ++ running (thread b) ++ background_work_queue_ b = scheduled /\
  ran (thread_steps (2 * length (background_work_queue_ b) + 1) b) = scheduled.
Proof.
  intros Hr. pose proof (background_reach _ _ Hr) as Hinv. split; [apply (bi_fifo _ _ Hinv)|]. apply thread_steps_done; [done|]. unfold work_left. destruct (thread b); lia.
Qed.
End BackgroundProofs.

(** Two items; the thread falls asleep before the second. *)
Lemma background_runs_all_witness :
  let b := mk_background true [2] Ready [1] in
  ran b ++ running (thread b) ++ background_work_queue_ b = [1; 2] /\ ran (thread_steps (2 * length (background_work_queue_ b) + 1) b) = [1; 2].
Proof.
  apply (background_runs_all (mk_background true [2] Ready [1]) [1; 2]).
  eapply rtc_l; [apply (step_schedule _ [] 1)|]. eapply rtc_l; [apply step_thread; reflexivity|]. eapply rtc_l; [apply step_thread; reflexivity|].
  eapply rtc_l; [apply step_thread; reflexivity|]. eapply rtc_l; [apply (step_schedule _ [1] 2)|]. apply rtc_refl.
Defined.

(** * Files *)

(** What the code relies on of the system: [written], what was written through a descriptor;
    [durable], how much of it is known to be on the medium; [interrupts], a bound on the
    signals still to come.  A write of some bytes writes at least one, or nothing when it
    fails; F_FULLFSYNC, when it succeeds, makes all that was written durable, but fsync and
    fdatasync do so only on a system where they reach the medium ([fsync_durable]; on macOS
    and iOS they do not); opening a directory, synchronising and closing write nothing. *)
Class PosixLaws (W : Type) `{Posix W} := {
  written : W -> Z -> list byte;
  durable : W -> Z -> list byte;
  interrupts : W -> nat;
  fsync_durable : bool;
  write_done w fd data n w' : data <> [] -> sys_write w fd data = (inr n, w') ->
    0 < n <= size data /\ written w' fd = written w fd ++ take (Z.to_nat n) data /\ (interrupts w' <= interrupts w)%nat;
  write_failed w fd data e w' : sys_write w fd data = (inl e, w') ->
    written w' fd = written w fd /\ (interrupts w' <= interrupts w)%nat /\ (e = EINTR -> (interrupts w' < interrupts w)%nat);
  fullfsync_done w fd r w' : sys_fullfsync w fd = (r, w') ->
    written w' = written w /\ (interrupts w' <= interrupts w)%nat /\ (r = inr tt -> durable w' fd = written w fd);
  fdatasync_done w fd r w' : sys_fdatasync w fd = (r, w') ->
    written w' = written w /\ (interrupts w' <= interrupts w)%nat /\ (r = inr tt -> fsync_durable = true -> durable w' fd = written w fd);
  fsync_done w fd r w' : sys_fsync w fd = (r, w') ->
    written w' = written w /\ (interrupts w' <= interrupts w)%nat /\ (r = inr tt -> fsync_durable = true -> durable w' fd = written w fd);
  open_read_done w name r w' : open_read w name = (r, w') -> written w' = written w /\ (interrupts w' <= interrupts w)%nat;
  close_done w fd r w' : sys_close w fd = (r, w') -> written w' = written w /\ (interrupts w' <= interrupts w)%nat;
}.

Section Writable.
Context {W : Type} `{PosixLaws W} (HAVE_FULLFSYNC HAVE_FDATASYNC : bool).
Implicit Types (f : PosixWritableFile) (w : W) (data : list byte).

(** The buffer is never overrun. *)
Definition file_wf f : Prop := size (buf_ f) = kWritableFileBufferSize /\ 0 <= pos_ f <= kWritableFileBufferSize.

Definition buffered f : list byte := take (Z.to_nat (pos_ f)) (buf_ f).

(** What was appended: written or still in the buffer. *)
Definition file_contents f w : list byte := written w (fd_ f) ++ buffered f.

(** One file all along. *)
Definition same_file f f' : Prop := fd_ f' = fd_ f /\ is_manifest_ f' = is_manifest_ f /\ filename_ f' = filename_ f /\ dirname_ f' = dirname_ f.

Lemma buffer_bound : 0 < kWritableFileBufferSize < 2 ^ 31.
Proof. done. Qed.

Lemma size_eq data : size data = Z.of_nat (length data).
Proof. done. Qed.

Lemma WriteUnbuffered_ok fuel f : forall w data, (interrupts w + length data < fuel)%nat ->
  exists s w' k, WriteUnbuffered fuel f w data = Done (s, w') /\ (interrupts w' <= interrupts w)%nat /\
    written w' (fd_ f) = written w (fd_ f) ++ take k data /\ (ok s = true -> take k data = data).
Proof.
  induction fuel as [|fuel IH]; intros w data Hf; [lia|]. cbn [WriteUnbuffered]. rewrite Z.gtb_ltb. destruct (Z.ltb_spec 0 (size data)) as [Hd|Hd].
  - assert (data <> []) as Hne by (intros ->; done). destruct (sys_write w (fd_ f) data) as [[e|n] w1] eqn:E.
    + destruct (write_failed _ _ _ _ _ E) as (E1 & E2 & E3). destruct (Z.eqb_spec e EINTR) as [He|He].
      * specialize (E3 He). destruct (IH w1 data ltac:(lia)) as (s & w' & k & -> & Hi & Hw & Hs). exists s, w', k. split; [done|]. split; [lia|]. by rewrite Hw, E1.
      * exists (PosixError (filename_ f) e), w1, 0%nat. split; [done|]. split; [lia|]. split; [by rewrite E1, take_0, app_nil_r|]. unfold PosixError. by destruct (e =? ENOENT).
    + destruct (write_done _ _ _ _ _ Hne E) as (Hn & E1 & E2). rewrite size_eq in Hn. destruct (IH w1 (drop (Z.to_nat n) data)) as (s & w' & k & -> & Hi & Hw & Hs); [rewrite length_drop; lia|].
      exists s, w', (Z.to_nat n + k)%nat. split; [done|]. split; [lia|]. assert (take (Z.to_nat n + k) data = take (Z.to_nat n) data ++ take k (drop (Z.to_nat n) data)) as Et.
      { rewrite <- (take_drop (Z.to_nat n) data) at 1. apply take_app_add'. rewrite length_take. lia. }
      rewrite Et. split; [by rewrite Hw, E1, <- app_assoc|]. intros Hok. by rewrite (Hs Hok), take_drop.
  - exists OK, w, 0%nat. split; [done|]. split; [lia|]. rewrite size_eq in Hd. destruct data; [|cbn in Hd; lia]. split; [by rewrite app_nil_r|done].
Qed.

Lemma FlushBuffer_ok fuel f w : file_wf f -> (interrupts w + Z.to_nat kWritableFileBufferSize < fuel)%nat ->
  exists s w' k, FlushBuffer fuel f w = Done (s, set_pos f 0, w') /\ (interrupts w' <= interrupts w)%nat /\
    written w' (fd_ f) = written w (fd_ f) ++ take k (buffered f) /\ (ok s = true -> take k (buffered f) = buffered f).
Proof.
  intros [Hb Hp] Hf. unfold FlushBuffer. fold (buffered f). destruct (WriteUnbuffered_ok fuel f w (buffered f)) as (s & w' & k & -> & Hi & Hw & Hs).
  { unfold buffered. rewrite length_take. lia. }
  rewrite run_bind_done. by exists s, w', k.
Qed.

Lemma buf_copy_ok f offset data : size (buf_ f) = kWritableFileBufferSize -> 0 <= offset -> offset + size data <= kWritableFileBufferSize ->
  exists f', buf_copy f offset data = Done f' /\ size (buf_ f') = kWritableFileBufferSize /\ pos_ f' = pos_ f /\ same_file f f' /\
    take (Z.to_nat (offset + size data)) (buf_ f') = take (Z.to_nat offset) (buf_ f) ++ data.
Proof.
  intros Hb Ho Hd. unfold buf_copy. rewrite Hb, (proj2 (Z.leb_le _ _) Ho), (proj2 (Z.leb_le _ _) Hd). cbn [andb]. eexists. split; [reflexivity|].
  cbn [set_buf buf_ pos_]. rewrite ?size_eq in *. split; [rewrite !length_app, length_take, length_drop; lia|]. split; [done|]. split; [done|].
  rewrite app_assoc, take_app_length'; [done|]. rewrite length_app, length_take. lia.
Qed.

(** Appending: the contents grow by the data, or a call failed and what is in the file is a
    beginning of them. *)
Lemma posix_Append_ok fuel f w data : file_wf f -> (interrupts w + Z.to_nat kWritableFileBufferSize + length data < fuel)%nat ->
  exists s f' w', posix_Append fuel f w data = Done (s, f', w') /\ file_wf f' /\ same_file f f' /\ (interrupts w' <= interrupts w)%nat /\
    (ok s = true -> file_contents f' w' = file_contents f w ++ data) /\
    (ok s = false -> buffered f' = []) /\
    (exists k, written w' (fd_ f) = written w (fd_ f) ++ take k (buffered f ++ data)).
Proof.
  intros [Hb Hp] Hf. unfold posix_Append. rewrite u64_small by (pose proof buffer_bound; lia).
  set (n := Z.min (size data) (kWritableFileBufferSize - pos_ f)). assert (0 <= n <= size data /\ pos_ f + n <= kWritableFileBufferSize) as [Hn Hn'] by (unfold n; rewrite size_eq; lia).
  assert (size (take (Z.to_nat n) data) = n) as Hsz by (rewrite ?size_eq in *; rewrite length_take; lia).
  destruct (buf_copy_ok f (pos_ f) (take (Z.to_nat n) data) Hb ltac:(lia)) as (f1 & -> & Hb1 & Hp1 & Hsame1 & Ht1); [by rewrite Hsz|]. rewrite Hsz in Ht1. rewrite run_bind_done.
  rewrite Hp1. set (f2 := set_pos f1 (pos_ f + n)). assert (file_wf f2) as Hwf2 by (split; cbn [f2 set_pos buf_ pos_]; [done|lia]).
  assert (same_file f f2) as Hsame2 by done. assert (fd_ f2 = fd_ f) as Efd by apply Hsame2.
  assert (buffered f2 = buffered f ++ take (Z.to_nat n) data) as Hbuf2 by done. assert (size (drop (Z.to_nat n) data) = size data - n) as Hrest by (rewrite ?size_eq in *; rewrite length_drop; lia).
  assert (buffered f ++ data = buffered f2 ++ drop (Z.to_nat n) data) as Esplit by (by rewrite Hbuf2, <- app_assoc, take_drop).
  rewrite Hrest. destruct (Z.eqb_spec (size data - n) 0) as [E0|E0].
  - assert (take (Z.to_nat n) data = data) as Eall by (apply take_ge; rewrite ?size_eq in *; lia). exists OK, f2, w. split; [done|]. split; [done|]. split; [done|]. split; [done|].
    split; [intros _; unfold file_contents; by rewrite Hbuf2, Efd, Eall, app_assoc|]. split; [done|]. exists 0%nat. by rewrite take_0, app_nil_r.
  - destruct (FlushBuffer_ok fuel f2 w Hwf2 ltac:(lia)) as (s & w1 & k & -> & Hi1 & Hw1 & Hs1). rewrite run_bind_done. rewrite Efd in Hw1.
    destruct (ok s) eqn:Es; cbn [negb].
    + rewrite (Hs1 eq_refl) in Hw1. destruct (Z.ltb_spec (size data - n) kWritableFileBufferSize) as [Hlt|Hge].
      * destruct (buf_copy_ok (set_pos f2 0) 0 (drop (Z.to_nat n) data)) as (f3 & -> & Hb3 & Hp3 & Hsame3 & Ht3); [by apply Hwf2|lia|rewrite Hrest; lia|]. rewrite run_bind_done.
        rewrite Hrest, Z.add_0_l, take_0 in Ht3. cbn [app] in Ht3. eexists OK, (set_pos f3 (size data - n)), w1. split; [done|].
        split; [split; cbn [set_pos buf_ pos_]; [done|lia]|]. assert (fd_ f3 = fd_ f) as Efd3 by (destruct Hsame3 as (-> & _); done).
        split; [destruct Hsame3 as (? & ? & ? & ?), Hsame1 as (? & ? & ? & ?); cbn [f2 set_pos fd_ is_manifest_ filename_ dirname_] in *; repeat split; cbn; congruence|]. split; [done|].
        split; [|split; [done|exists (length (buffered f2)); by rewrite Hw1, Esplit, take_app_length]].
        intros _. unfold file_contents, buffered. cbn [set_pos fd_ pos_ buf_]. rewrite Ht3, Efd3, Hw1, Hbuf2, <- !app_assoc, take_drop. done.
      * destruct (WriteUnbuffered_ok fuel (set_pos f2 0) w1 (drop (Z.to_nat n) data)) as (s2 & w2 & k2 & -> & Hi2 & Hw2 & Hs2); [rewrite length_drop; lia|]. rewrite run_bind_done.
        cbn [set_pos fd_] in Hw2. change (fd_ f1) with (fd_ f2) in Hw2. rewrite Efd in Hw2. exists s2, (set_pos f2 0), w2. split; [done|].
        split; [split; cbn [set_pos buf_ pos_]; [apply Hwf2|pose proof buffer_bound; lia]|]. split; [done|]. split; [lia|]. split.
        { intros Hok. unfold file_contents, buffered. cbn [set_pos fd_ pos_ buf_]. change (fd_ f1) with (fd_ f2). rewrite take_0, app_nil_r, Efd, Hw2, Hw1, (Hs2 Hok), Hbuf2, <- !app_assoc, take_drop. done. }
        split; [done|]. exists (length (buffered f2) + k2)%nat. rewrite Hw2, Hw1, <- app_assoc. f_equal. by rewrite Esplit, take_app_add.
    + exists s, (set_pos f2 0), w1. split; [done|]. split; [split; cbn [set_pos buf_ pos_]; [apply Hwf2|pose proof buffer_bound; lia]|]. split; [done|]. split; [done|]. split; [congruence|]. split; [done|].
      exists (Nat.min k (length (buffered f2))). rewrite Hw1, Esplit, take_app_le by lia. by rewrite <- take_take, firstn_all.
Qed.

(** Where a synchronisation that is reported as done reaches the medium: fsync does, or there
    is F_FULLFSYNC and its fallback does not succeed after it failed. *)
Definition sync_reaches (fd : Z) : Prop :=
  fsync_durable = true \/
  HAVE_FULLFSYNC = true /\ forall w e w', sys_fullfsync w fd = (inl e, w') -> fst (if HAVE_FDATASYNC then sys_fdatasync w' fd else sys_fsync w' fd) <> inr tt.

Lemma SyncFd_ok fd path w : exists s w', SyncFd HAVE_FULLFSYNC HAVE_FDATASYNC fd path w = (s, w') /\ written w' = written w /\ (interrupts w' <= interrupts w)%nat /\
  (ok s = true -> sync_reaches fd -> durable w' fd = written w fd).
Proof.
  set (fallback := fun w => if HAVE_FDATASYNC then sys_fdatasync w fd else sys_fsync w fd).
  assert (forall w1 : W, written w1 = written w -> (interrupts w1 <= interrupts w)%nat -> exists s w',
    (let '(r, w') := fallback w1 in (posix_status path r, w')) = (s, w') /\ written w' = written w /\ (interrupts w' <= interrupts w)%nat /\
    (ok s = true -> fst (fallback w1) = inr tt /\ (fsync_durable = true -> durable w' fd = written w fd))) as Hlast.
  { intros w1 E1 E2. destruct (fallback w1) as [r w2] eqn:E. exists (posix_status path r), w2. split; [done|].
    assert (written w2 = written w1 /\ (interrupts w2 <= interrupts w1)%nat /\ (r = inr tt -> fsync_durable = true -> durable w2 fd = written w1 fd)) as (G1 & G2 & G3)
      by (unfold fallback in E; destruct HAVE_FDATASYNC; [by apply fdatasync_done|by apply fsync_done]).
    split; [congruence|]. split; [lia|]. intros Hok. assert (r = inr tt) as Er by (destruct r as [e|[]]; [|done]; exfalso; revert Hok; cbn; unfold PosixError; by destruct (e =? ENOENT)).
    split; [done|]. rewrite <- E1. by apply G3. }
  unfold SyncFd, sync_reaches. fold fallback. destruct HAVE_FULLFSYNC.
  - destruct (sys_fullfsync w fd) as [[e|[]] w1] eqn:E; destruct (fullfsync_done _ _ _ _ E) as (G1 & G2 & G3); [|exists OK, w1; auto].
    destruct (Hlast w1 G1 G2) as (s & w' & E' & A1 & A2 & A3). exists s, w'. split; [exact E'|]. split; [done|]. split; [done|]. intros Hok [Hd|[_ Hf]]; [by apply A3|].
    by destruct (Hf w e w1 E (proj1 (A3 Hok))).
  - destruct (Hlast w eq_refl ltac:(done)) as (s & w' & E' & A1 & A2 & A3). exists s, w'. split; [exact E'|]. split; [done|]. split; [done|]. intros Hok [Hd|[? _]]; [by apply A3|done].
Qed.

Lemma SyncDir_ok f w : exists s w', SyncDirIfManifest HAVE_FULLFSYNC HAVE_FDATASYNC f w = (s, w') /\ written w' = written w /\ (interrupts w' <= interrupts w)%nat.
Proof.
  unfold SyncDirIfManifest. destruct (is_manifest_ f); cbn [negb]; [|by exists OK, w]. destruct (open_read w (dirname_ f)) as [[e|fd] w1] eqn:E; destruct (open_read_done _ _ _ _ E) as [E1 E2]; [by eexists _, w1|].
  destruct (SyncFd_ok fd (dirname_ f) w1) as (s & w2 & -> & E3 & E4 & _). destruct (sys_close w2 fd) as [r w3] eqn:E5. destruct (close_done _ _ _ _ E5) as [E6 E7]. exists s, w3. split; [done|].
  split; [congruence|lia].
Qed.

Lemma posix_Sync_ok fuel f w : file_wf f -> (interrupts w + Z.to_nat kWritableFileBufferSize < fuel)%nat ->
  exists s f' w', posix_Sync HAVE_FULLFSYNC HAVE_FDATASYNC fuel f w = Done (s, f', w') /\ file_wf f' /\ same_file f f' /\ (interrupts w' <= interrupts w)%nat /\
    (ok s = true -> file_contents f' w' = file_contents f w /\ written w' (fd_ f) = file_contents f w /\ (sync_reaches (fd_ f) -> durable w' (fd_ f) = file_contents f w)) /\
    (ok s = false -> buffered f' = [] \/ buffered f' = buffered f /\ written w' (fd_ f) = written w (fd_ f)) /\
    (exists k, written w' (fd_ f) = written w (fd_ f) ++ take k (buffered f)).
Proof.
  intros Hwf Hf. unfold posix_Sync. destruct (SyncDir_ok f w) as (s1 & w1 & -> & E1 & E2). destruct (ok s1) eqn:Es1; cbn [negb].
  2: { exists s1, f, w1. split; [done|]. split; [done|]. split; [done|]. split; [done|]. split; [congruence|]. split; [intros _; right; by rewrite E1|]. exists 0%nat. by rewrite E1, app_nil_r. }
  destruct (FlushBuffer_ok fuel f w1 Hwf ltac:(lia)) as (s2 & w2 & k & -> & Hi & Hw & Hs). rewrite run_bind_done. rewrite E1 in Hw.
  assert (file_wf (set_pos f 0)) as Hwf0 by (split; cbn [set_pos buf_ pos_]; [apply Hwf|pose proof buffer_bound; lia]).
  destruct (ok s2) eqn:Es2; cbn [negb].
  - rewrite (Hs eq_refl) in Hw. change (fd_ (set_pos f 0)) with (fd_ f). change (filename_ (set_pos f 0)) with (filename_ f).
    destruct (SyncFd_ok (fd_ f) (filename_ f) w2) as (s3 & w3 & -> & E3 & E4 & E5). exists s3, (set_pos f 0), w3. split; [done|]. split; [done|]. split; [done|]. split; [lia|].
    split; [|split; [by left|exists (length (buffered f)); by rewrite E3, Hw, firstn_all]]. intros Hok. unfold file_contents. change (buffered (set_pos f 0)) with (take 0 (buf_ f)). change (fd_ (set_pos f 0)) with (fd_ f).
    rewrite take_0, app_nil_r, E3, Hw. split; [done|]. split; [done|]. intros Hr. by rewrite (E5 Hok Hr).
  - exists s2, (set_pos f 0), w2. split; [done|]. split; [done|]. split; [done|]. split; [lia|]. split; [congruence|]. split; [by left|]. by exists k.
Qed.

(** ** A file under a sequence of calls *)

Inductive FileOp := OpAppend (data : list byte) | OpFlush | OpSync.

Definition op_data (op : FileOp) : list byte := match op with OpAppend data => data | _ => [] end.

Definition file_op fuel f w (op : FileOp) : run (Status * PosixWritableFile * W) :=
  match op with
  | OpAppend data => posix_Append fuel f w data
  | OpFlush => posix_Flush fuel f w
  | OpSync => posix_Sync HAVE_FULLFSYNC HAVE_FDATASYNC fuel f w
  end.

(** Whatever the calls return: their statuses. *)
Fixpoint file_ops fuel f w (ops : list FileOp) : run (list Status * PosixWritableFile * W) :=
  match ops with
  | [] => Done ([], f, w)
  | op :: ops => '(s, f, w) ← file_op fuel f w op; '(ss, f, w) ← file_ops fuel f w ops; Done (s :: ss, f, w)
  end.

Definition appended (ops : list FileOp) : list byte := concat (map op_data ops).

Lemma file_op_ok fuel f w op : file_wf f -> (interrupts w + Z.to_nat kWritableFileBufferSize + length (op_data op) < fuel)%nat ->
  exists s f' w', file_op fuel f w op = Done (s, f', w') /\ file_wf f' /\ same_file f f' /\ (interrupts w' <= interrupts w)%nat /\
    (ok s = true -> file_contents f' w' = file_contents f w ++ op_data op) /\
    (ok s = false -> buffered f' = [] \/ buffered f' = buffered f /\ written w' (fd_ f) = written w (fd_ f)) /\
    (exists k, written w' (fd_ f) = written w (fd_ f) ++ take k (buffered f ++ op_data op)).
Proof.
  intros Hwf Hf. destruct op as [data| |]; cbn [file_op op_data] in *.
  - destruct (posix_Append_ok fuel f w data Hwf Hf) as (s & f' & w' & -> & G1 & G2 & G3 & G4 & G5 & G6). exists s, f', w'. do 5 (split; [done|]). split; [|done]. intros Hok. left. by apply G5.
  - cbn [length] in Hf. rewrite Nat.add_0_r in Hf. destruct (FlushBuffer_ok fuel f w Hwf Hf) as (s & w' & k & E1 & Hi & Hw & Hs). exists s, (set_pos f 0), w'. split; [done|].
    split; [split; cbn [set_pos buf_ pos_]; [apply Hwf|pose proof buffer_bound; lia]|]. split; [done|]. split; [done|]. split; [|split; [by left|exists k; by rewrite app_nil_r]].
    intros Hok. unfold file_contents. change (buffered (set_pos f 0)) with (take 0 (buf_ f)). change (fd_ (set_pos f 0)) with (fd_ f). by rewrite take_0, !app_nil_r, Hw, (Hs Hok).
  - cbn [length] in Hf. rewrite Nat.add_0_r in Hf. destruct (posix_Sync_ok fuel f w Hwf Hf) as (s & f' & w' & -> & G1 & G2 & G3 & G4 & G5 & k & G6). exists s, f', w'. do 4 (split; [done|]).
    split; [|split; [done|exists k; by rewrite app_nil_r]]. intros Hok. destruct (G4 Hok) as (A1 & _). by rewrite app_nil_r.
Qed.

(** A call that succeeded splits what it was to write into what is in the file and what is in
    the buffer. *)
Lemma contents_split f w f' w' X k : fd_ f' = fd_ f -> file_contents f' w' = written w (fd_ f) ++ X -> written w' (fd_ f) = written w (fd_ f) ++ take k X -> X = take k X ++ buffered f'.
Proof. unfold file_contents. intros -> Hc Hw. rewrite Hw, <- app_assoc in Hc. by apply app_inv_head in Hc. Qed.

(** A call puts a part of the bytes in the file and leaves a later part in the buffer: nothing
    changes places, but a call that fails may lose what is between. *)
Lemma file_op_sublist fuel f w op s f' w' : file_wf f -> (interrupts w + Z.to_nat kWritableFileBufferSize + length (op_data op) < fuel)%nat -> file_op fuel f w op = Done (s, f', w') ->
  exists kept, written w' (fd_ f) = written w (fd_ f) ++ kept /\ kept ++ buffered f' `sublist_of` buffered f ++ op_data op.
Proof.
  intros Hwf Hf E. destruct (file_op_ok fuel f w op Hwf Hf) as (s1 & f1 & w1 & E1 & _ & Hsame & _ & Hs & Hn & k & Hw). rewrite E in E1. injection E1 as <- <- <-.
  destruct (ok s) eqn:Eok.
  - exists (take k (buffered f ++ op_data op)). split; [done|]. rewrite <- (contents_split f w f' w' _ k); [done|apply Hsame| |done]. rewrite (Hs eq_refl). unfold file_contents. by rewrite <- app_assoc.
  - destruct (Hn eq_refl) as [Eb|[Eb Ew]]; rewrite Eb; [exists (take k (buffered f ++ op_data op)); rewrite app_nil_r; split; [done|apply sublist_take]|].
    exists []. split; [by rewrite app_nil_r|]. apply sublist_inserts_r. done.
Qed.

Lemma file_ops_ok fuel ops : forall f w, file_wf f -> (interrupts w + Z.to_nat kWritableFileBufferSize + length (appended ops) < fuel)%nat ->
  exists ss f' w', file_ops fuel f w ops = Done (ss, f', w') /\ file_wf f' /\ same_file f f' /\ (interrupts w' <= interrupts w)%nat /\ length ss = length ops /\
    (forallb ok ss = true -> file_contents f' w' = file_contents f w ++ appended ops) /\
    (exists kept, written w' (fd_ f) = written w (fd_ f) ++ kept /\ kept ++ buffered f' `sublist_of` buffered f ++ appended ops) /\
    (forallb ok (removelast ss) = true -> exists k, written w' (fd_ f) = written w (fd_ f) ++ take k (buffered f ++ appended ops)).
Proof.
  induction ops as [|op ops IH]; intros f w Hwf Hf.
  - exists [], f, w. cbn [file_ops appended map concat]. do 5 (split; [done|]). split; [intros _; by rewrite app_nil_r|]. split; [exists []; by rewrite !app_nil_r|]. intros _. exists 0%nat. by rewrite app_nil_r.
  - cbn [file_ops]. change (appended (op :: ops)) with (op_data op ++ appended ops) in *. rewrite length_app in Hf.
    destruct (file_op_ok fuel f w op Hwf ltac:(lia)) as (s & f1 & w1 & E & Hwf1 & Hsame & Hi & Hs & _ & j & Hw). destruct (file_op_sublist fuel f w op s f1 w1 Hwf ltac:(lia) E) as (kept1 & Hk1 & Hsub1).
    rewrite E, run_bind_done. assert (fd_ f1 = fd_ f) as Efd by apply Hsame.
    destruct (IH f1 w1 Hwf1 ltac:(lia)) as (ss & f' & w' & E2 & Hwf' & Hsame' & Hi' & Hlen & Hs' & (kept2 & Hk2 & Hsub2) & Hpre). rewrite E2, run_bind_done. rewrite Efd in *. exists (s :: ss), f', w'. split; [done|]. split; [done|].
    split; [destruct Hsame as (? & ? & ? & ?), Hsame' as (? & ? & ? & ?); repeat split; congruence|]. split; [lia|]. split; [cbn; by rewrite Hlen|]. split; [|split].
    + cbn [forallb]. intros [Hok Hoks]%andb_true_iff. by rewrite (Hs' Hoks), (Hs Hok), app_assoc.
    + exists (kept1 ++ kept2). split; [by rewrite Hk2, Hk1, app_assoc|]. rewrite <- app_assoc. transitivity (kept1 ++ buffered f1 ++ appended ops); [by apply sublist_app|]. rewrite !(app_assoc _ _ (appended ops)). by apply sublist_app.
    + destruct ops as [|op2 ops].
      * injection E2 as <- <- <-. intros _. exists j. change (appended []) with (@nil byte). by rewrite app_nil_r.
      * destruct ss as [|s2 ss]; [done|]. change (removelast (s :: s2 :: ss)) with (s :: removelast (s2 :: ss)). cbn [forallb]. intros [Hok Hoks]%andb_true_iff. destruct (Hpre Hoks) as [k Hk].
        exists (length (take j (buffered f ++ op_data op)) + k)%nat. rewrite Hk, Hw, <- app_assoc. f_equal.
        pose proof (contents_split f w f1 w1 (buffered f ++ op_data op) j Efd ltac:(rewrite (Hs Hok); unfold file_contents; by rewrite <- app_assoc) Hw) as Esplit.
        assert (buffered f ++ op_data op ++ appended (op2 :: ops) = take j (buffered f ++ op_data op) ++ buffered f1 ++ appended (op2 :: ops)) as -> by (rewrite app_assoc; rewrite Esplit at 1; by rewrite <- app_assoc).
        by rewrite take_app_add.
Qed.

(** C17: a new file under any calls, whatever they return.  With room for the interrupts to come
    the calls end and the buffer is not overrun, however the writes are cut, interrupted or
    fail.  Up to and with the first call that fails the file has a beginning of what was
    appended; a call that fails drops its buffer, so after it the file has bytes of what was
    appended in their order, with gaps.  A [Sync] that reports success makes durable what the
    file has, where synchronising reaches the medium ([sync_reaches]: on macOS and iOS through
    F_FULLFSYNC); and that is all that was appended when no call before it failed. *)
Theorem posix_file_durable fuel filename fd w ops : (interrupts w + Z.to_nat kWritableFileBufferSize + length (appended ops) < fuel)%nat ->
  exists ss f1 w1, file_ops fuel (new_PosixWritableFile filename fd) w ops = Done (ss, f1, w1) /\ length ss = length ops /\
    (exists kept, written w1 fd = written w fd ++ kept /\ kept `sublist_of` appended ops) /\
    (forallb ok (removelast ss) = true -> exists k, written w1 fd = written w fd ++ take k (appended ops)) /\
    exists s2 f2 w2, posix_Sync HAVE_FULLFSYNC HAVE_FDATASYNC fuel f1 w1 = Done (s2, f2, w2) /\
      (ok s2 = true -> sync_reaches fd -> durable w2 fd = written w2 fd) /\
      (forallb ok ss = true -> ok s2 = true -> written w2 fd = written w fd ++ appended ops).
Proof.
  intros Hf. set (f := new_PosixWritableFile filename fd). assert (file_wf f) as Hwf.
  { split; cbn [f new_PosixWritableFile buf_ pos_]; [|pose proof buffer_bound; lia]. rewrite size_eq, length_replicate. pose proof buffer_bound. lia. }
  destruct (file_ops_ok fuel ops f w Hwf Hf) as (ss & f1 & w1 & -> & Hwf1 & Hsame & Hi & Hlen & Hs & (kept & Hk & Hsub) & Hpre). change (buffered f) with (@nil byte) in *. cbn [app] in *.
  assert (fd_ f1 = fd) as Efd by apply Hsame. exists ss, f1, w1. do 2 (split; [done|]). split; [exists kept; split; [done|]; refine (transitivity _ Hsub); by apply sublist_inserts_r|]. split; [done|].
  destruct (posix_Sync_ok fuel f1 w1 Hwf1 ltac:(lia)) as (s2 & f2 & w2 & -> & _ & _ & _ & Hs2 & _). rewrite Efd in Hs2. exists s2, f2, w2. split; [done|]. split.
  - intros Hok Hr. destruct (Hs2 Hok) as (_ & A2 & A3). by rewrite A2, (A3 Hr).
  - intros Hoks Hok. destruct (Hs2 Hok) as (_ & A2 & _). rewrite A2, (Hs Hoks). unfold file_contents. change (buffered f) with (@nil byte). by rewrite app_nil_r.
Qed.
End Writable.

(** * Names *)

Lemma after_slash_spec s : match after_slash s with
  | Some n => 1 <= n <= size s /\ s = take (Z.to_nat (n - 1)) s ++ slash :: drop (Z.to_nat n) s /\ slash ∉ drop (Z.to_nat n) s
  | None => slash ∉ s
  end.
Proof.
  unfold size. induction s as [|c s IH]; cbn [after_slash]; [apply not_elem_of_nil|]. destruct (after_slash s) as [n|].
  - destruct IH as (Hn & Hs & Hno). replace (Z.to_nat (n + 1 - 1)) with (S (Z.to_nat (n - 1))) by lia. replace (Z.to_nat (n + 1)) with (S (Z.to_nat n)) by lia. cbn [length take drop].
    split; [lia|]. split; [|done]. change (c :: s = c :: (take (Z.to_nat (n - 1)) s ++ slash :: drop (Z.to_nat n) s)). by f_equal.
  - destruct (Byte.eqb c slash) eqn:E.
    + apply byte_dec_bl in E as ->. cbn [length]. split; [lia|]. change (Z.to_nat (1 - 1)) with 0%nat. change (Z.to_nat 1) with 1%nat. cbn [take drop app]. by rewrite !drop_0.
    + rewrite elem_of_cons. intros [<- |]; [|done]. by rewrite (byte_dec_lb eq_refl) in E.
Qed.

(** A name is its directory, a slash and its base name, in which there is no other slash, so
    the assertions of both functions hold. *)
Lemma Dirname_Basename filename :
  slash ∉ Basename filename /\ (filename = Dirname filename ++ [slash] ++ Basename filename \/ Dirname filename = cstr "." /\ Basename filename = filename).
Proof.
  unfold Basename, Dirname, rfind. pose proof (after_slash_spec filename) as Hs. destruct (after_slash filename) as [n|]; cbn; [|by split; [|right]].
  destruct Hs as (Hn & Hs & Hno). replace (n - 1 + 1) with n by lia. by split; [|left].
Qed.

Example manifest_name : IsManifest (cstr "/db/MANIFEST-000005") = true /\ IsManifest (cstr "MANIFEST/000005.log") = false.
Proof. done. Qed.

(** * Mapped files *)

Section Mapped.
Context {W : Type} `{Posix W}.

(** A read inside the file gives its bytes. *)
Lemma mmap_Read_inside f offset n : mmap_length_ f = size (mmap_base_ f) -> 0 <= offset -> 0 <= n -> offset + n <= size (mmap_base_ f) < 2 ^ 64 ->
  mmap_Read f offset n = Done (OK, take (Z.to_nat n) (drop (Z.to_nat offset) (mmap_base_ f))).
Proof.
  intros Hl Ho Hn Hb. unfold mmap_Read. rewrite u64_small by lia. rewrite Z.gtb_ltb, (proj2 (Z.ltb_ge _ _)) by lia. by rewrite (proj2 (Z.leb_le _ _)) by lia.
Qed.

(** The sum of the offset and the length wraps: such a read passes the check. *)
Lemma mmap_Read_wraps f offset n : mmap_length_ f = size (mmap_base_ f) -> 0 <= size (mmap_base_ f) < 2 ^ 64 -> 0 <= offset < 2 ^ 64 -> 0 <= n < 2 ^ 64 ->
  2 ^ 64 <= offset + n <= 2 ^ 64 + size (mmap_base_ f) -> mmap_Read f offset n = OutOfBounds.
Proof.
  intros Hl Hs Ho Hn Hb. unfold mmap_Read. assert (u64 (offset + n) = offset + n - 2 ^ 64) as ->.
  { unfold u64. rewrite <- (Z.mod_small (offset + n - 2 ^ 64) (2 ^ 64)) by lia. by rewrite <- (Z.mod_add (offset + n - 2 ^ 64) 1) by lia; f_equal; lia. }
  rewrite Z.gtb_ltb, (proj2 (Z.ltb_ge _ _)) by lia. by rewrite (proj2 (Z.leb_gt _ _)) by lia.
Qed.
End Mapped.

(** * Permits *)

Section Permits.
Context {W : Type} `{Posix W}.

Definition counter_ok (l : Limiter) : Prop := - 2 ^ 31 < acquires_allowed_ l < 2 ^ 31.

Lemma Acquire_eq l : counter_ok l -> Acquire l = if acquires_allowed_ l >? 0 then (true, mk_limiter (acquires_allowed_ l - 1)) else (false, l).
Proof.
  unfold counter_ok. intros Hl. unfold Acquire, Acquire_try, fetch_sub, Acquire_undo, fetch_add. cbn [fst snd]. rewrite (s32_small (acquires_allowed_ l - 1)) by lia.
  rewrite Z.gtb_ltb. destruct (Z.ltb_spec 0 (acquires_allowed_ l)); [done|]. cbn [snd acquires_allowed_]. rewrite s32_small by lia. destruct l as [n]. cbn. do 2 f_equal. lia.
Qed.

Lemma Release_taken l : counter_ok l -> Release (mk_limiter (acquires_allowed_ l - 1)) = l.
Proof. unfold counter_ok. intros Hl. unfold Release, fetch_add. cbn [snd acquires_allowed_]. rewrite s32_small by lia. destruct l. cbn. f_equal. lia. Qed.

(** Opening a table takes at most one permit, and none when it fails; closing gives it back. *)
Theorem permits_balanced e w filename : counter_ok (mmap_limiter_ e) -> counter_ok (fd_limiter_ e) ->
  match NewRandomAccessFile e w filename with
  | (s, None, e', _) => e' = e /\ ok s = false
  | (s, Some f, e', _) => ok s = true /\ forall w', fst (destroy_file e' w' f) = e
  end.
Proof.
  intros Hm Hf. assert (forall c err, ok (PosixError (W := W) c err) = false) as Herr by (intros c err; unfold PosixError; by destruct (err =? ENOENT)).
  unfold NewRandomAccessFile. destruct (open_read w filename) as [[err|fd] w1]; [by rewrite Herr|]. rewrite (Acquire_eq _ Hm). destruct e as [lk m d]. cbn [mmap_limiter_ fd_limiter_ locks_ set_mmap_limiter] in *.
  destruct (acquires_allowed_ m >? 0); cbn [negb].
  - unfold GetFileSize. destruct (sys_stat w1 filename) as [[err|n] w2]; cbn beta iota zeta.
    + rewrite Herr. cbn beta iota zeta. rewrite Herr. unfold set_mmap_limiter. cbn [mmap_limiter_ locks_ fd_limiter_]. by rewrite (Release_taken m Hm).
    + cbn [ok OK]. destruct (sys_mmap w2 fd n) as [[err|base] w3]; cbn beta iota zeta.
      * rewrite Herr. unfold set_mmap_limiter. cbn [mmap_limiter_ locks_ fd_limiter_]. by rewrite (Release_taken m Hm).
      * split; [done|]. intros w'. unfold set_mmap_limiter. cbn -[Release]. by rewrite (Release_taken m Hm).
  - unfold new_PosixRandomAccessFile. rewrite (Acquire_eq _ Hf). destruct (acquires_allowed_ d >? 0); (split; [done|]); intros w'; unfold set_fd_limiter; cbn -[Release]; [|done]. by rewrite (Release_taken d Hf).
Qed.

(** * Locks *)

(** What a process does with locks: [outstanding] are those it holds. *)
Inductive LockCall := CallLock (filename : list byte) | CallUnlock (i : nat).

Definition lock_call (st : PosixEnv * W * list PosixFileLock) (c : LockCall) : PosixEnv * W * list PosixFileLock :=
  let '(e, w, outstanding) := st in
  match c with
  | CallLock filename => match LockFile e w filename with
      | (_, Some lock, e, w) => (e, w, lock :: outstanding)
      | (_, None, e, w) => (e, w, outstanding)
      end
  | CallUnlock i => match outstanding !! i with
      | None => (e, w, outstanding)
      | Some lock => match UnlockFile e w lock with
          | (s, e, w) => (e, w, if ok s then delete i outstanding else outstanding)
          end
      end
  end.

Definition locks_inv (e : PosixEnv) (outstanding : list PosixFileLock) : Prop :=
  NoDup (map lock_filename outstanding) /\ forall name, name ∈ locks_ e <-> name ∈ map lock_filename outstanding.

Lemma lock_call_inv e w outstanding c e' w' outstanding' : locks_inv e outstanding -> lock_call (e, w, outstanding) c = (e', w', outstanding') -> locks_inv e' outstanding'.
Proof.
  intros [Hnd Hl]. destruct c as [filename|i]; cbn [lock_call].
  - unfold LockFile. destruct (open_lock w filename) as [[err|fd] w1]; [by intros [= <- <- <-]|]. unfold lock_Insert. case_bool_decide as Hin; cbn [negb].
    + destruct (sys_setlk w1 fd true) as [[err|[]] w2]; intros [= <- <- <-].
      * split; [done|]. intros name. cbn [lock_Remove set_locks locks_]. rewrite <- Hl. set_solver.
      * split; cbn [map lock_filename]; [apply list.NoDup_cons; split; [by rewrite <- Hl|done]|]. intros name. cbn [set_locks locks_]. rewrite elem_of_cons, <- Hl. set_solver.
    + intros [= <- <- <-]. split; [done|]. intros name. cbn [set_locks locks_]. rewrite <- Hl. set_solver.
  - destruct (outstanding !! i) as [lock|] eqn:Ei; [|by intros [= <- <- <-]]. unfold UnlockFile. destruct (sys_setlk w (lock_fd lock) false) as [[err|[]] w1]; intros [= <- <- <-].
    + destruct (ok _) eqn:Eok; [|done]. exfalso. revert Eok. unfold PosixError. by destruct (err =? ENOENT).
    + cbn [ok OK]. assert (map lock_filename outstanding ≡ₚ lock_filename lock :: map lock_filename (delete i outstanding)) as Hp.
      { change (map lock_filename) with (fmap (M := list) lock_filename). rewrite (delete_Permutation _ _ _ Ei) at 1. done. }
      rewrite Hp in Hnd. apply list.NoDup_cons in Hnd as [Hno Hnd]. split; [done|]. intros name. cbn [lock_Remove set_locks locks_]. rewrite elem_of_difference, Hl, Hp, elem_of_cons, elem_of_singleton.
      split; [tauto|]. intros Hin. split; [tauto|]. by intros ->.
Qed.

(** C40: however a process locks and unlocks: it never holds two locks of one name, and the table
    of names is that of the locks it holds, failed calls included. *)
Theorem locks_exclusive m d w cs :
  match fold_left lock_call cs (mk_env ∅ m d, w, []) with (e, _, outstanding) => locks_inv e outstanding end.
Proof.
  assert (locks_inv (mk_env ∅ m d) []) as H0 by (split; [constructor|]; intros name; cbn; set_solver).
  revert w H0. generalize (mk_env ∅ m d) (@nil PosixFileLock). induction cs as [|c cs IH]; intros e outstanding w Hinv; cbn [fold_left]; [done|].
  destruct (lock_call (e, w, outstanding) c) as [[e1 w1] out1] eqn:E. apply IH. by apply (lock_call_inv e w outstanding c e1 w1 out1).
Qed.
End Permits.

(** * A system *)

(** Files as the descriptors see them; every write takes at most three bytes, and the first
    ones are interrupted.  As POSIX has it, closing any descriptor of a file gives up the
    locks of the process on it. *)
Record Os := mk_os {
  os_written : gmap Z (list byte);
  os_durable : gmap Z (list byte);
  os_signals : nat;
  os_names : gmap Z (list byte);
  os_locked : gset (list byte);
  os_next : Z;
}.

Definition os_open (w : Os) (name : list byte) : sys Z * Os :=
  (inr (os_next w), mk_os (os_written w) (os_durable w) (os_signals w) (<[os_next w := name]> (os_names w)) (os_locked w) (os_next w + 1)).

Definition os_sync (w : Os) (fd : Z) : sys unit * Os :=
  (inr tt, mk_os (os_written w) (<[fd := default [] (os_written w !! fd)]> (os_durable w)) (os_signals w) (os_names w) (os_locked w) (os_next w)).

(** The descriptors from 100 on are of a file system without F_FULLFSYNC. *)
Definition os_fullfsync (w : Os) (fd : Z) : sys unit * Os := if fd <? 100 then os_sync w fd else (inl 45, w).

(** The data stay in the cache of the drive. *)
Definition os_fsync (w : Os) (fd : Z) : sys unit * Os := (inr tt, w).

Definition os_close (w : Os) (fd : Z) : sys unit * Os :=
  (inr tt, mk_os (os_written w) (os_durable w) (os_signals w) (delete fd (os_names w)) (os_locked w ∖ {[default [] (os_names w !! fd)]}) (os_next w)).

Definition os_write (w : Os) (fd : Z) (data : list byte) : sys Z * Os :=
  match os_signals w with
  | S n => (inl 4, mk_os (os_written w) (os_durable w) n (os_names w) (os_locked w) (os_next w))
  | O => let n := Z.min 3 (size data) in
      (inr n, mk_os (<[fd := default [] (os_written w !! fd) ++ take (Z.to_nat n) data]> (os_written w)) (os_durable w) 0 (os_names w) (os_locked w) (os_next w))
  end.

Definition os_setlk (w : Os) (fd : Z) (lock : bool) : sys unit * Os :=
  let name := default [] (os_names w !! fd) in
  (inr tt, mk_os (os_written w) (os_durable w) (os_signals w) (os_names w) (if lock then {[name]} ∪ os_locked w else os_locked w ∖ {[name]}) (os_next w)).

#[export] Instance os_posix : Posix Os := {
  ENOENT := 2; EINTR := 4; EINVAL := 22;
  strerror _ := cstr "error";
  open_read := os_open; open_trunc := os_open; open_append := os_open; open_lock := os_open;
  sys_close := os_close;
  sys_read w _ _ := (inr [], w);
  sys_pread w _ _ _ := (inr [], w);
  sys_lseek w _ _ := (inr tt, w);
  sys_write := os_write;
  sys_fullfsync := os_fullfsync; sys_fdatasync := os_fsync; sys_fsync := os_fsync;
  sys_mmap w _ n := (inr (replicate (Z.to_nat n) x00), w);
  sys_access _ _ := true;
  sys_readdir w _ := (inr [], w);
  sys_unlink w _ := (inr tt, w); sys_mkdir w _ := (inr tt, w); sys_rmdir w _ := (inr tt, w);
  sys_stat w _ := (inr 5, w);
  sys_rename w _ _ := (inr tt, w);
  sys_setlk := os_setlk;
}.

#[export, refine] Instance os_laws : PosixLaws Os := {
  written w fd := default [] (os_written w !! fd);
  durable w fd := default [] (os_durable w !! fd);
  interrupts := os_signals;
  fsync_durable := false;
}.
Proof.
  - intros w fd data n w' Hne. cbn. unfold os_write. destruct (os_signals w); [|done]. intros [= <- <-]. unfold size. destruct data as [|b data]; [done|]. cbn [length].
    split; [lia|]. split; [|done]. cbn. by rewrite lookup_insert_eq.
  - intros w fd data e w'. cbn. unfold os_write. destruct (os_signals w) as [|n]; [done|]. intros [= <- <-]. cbn. split; [done|]. split; lia.
  - intros w fd r w'. cbn. unfold os_fullfsync. destruct (fd <? 100); intros [= <- <-]; [|done]. split; [done|]. split; [done|]. intros _. cbn. by rewrite lookup_insert_eq.
  - by intros w fd r w' [= <- <-].
  - by intros w fd r w' [= <- <-].
  - intros w name r w' [= <- <-]. done.
  - intros w fd r w' [= <- <-]. done.
Defined.

Definition demo_os : Os := mk_os ∅ ∅ 2 ∅ ∅ 3.
Definition demo_ops : list FileOp := [OpAppend (cstr "hello"); OpFlush; OpAppend (cstr " world")].

Lemma demo_reaches : sync_reaches (W := Os) true false 7.
Proof. right. split; [done|]. intros w e w' E. discriminate E. Qed.

Lemma posix_file_durable_witness : exists ss f1 w1, file_ops true false (Z.to_nat 70000) (new_PosixWritableFile (cstr "MANIFEST-1") 7) demo_os demo_ops = Done (ss, f1, w1) /\ length ss = length demo_ops /\
  (exists kept, written w1 7 = written demo_os 7 ++ kept /\ kept `sublist_of` appended demo_ops) /\
  (forallb ok (removelast ss) = true -> exists k, written w1 7 = written demo_os 7 ++ take k (appended demo_ops)) /\
  exists s2 f2 w2, posix_Sync true false (Z.to_nat 70000) f1 w1 = Done (s2, f2, w2) /\
    (ok s2 = true -> durable w2 7 = written w2 7) /\
    (forallb ok ss = true -> ok s2 = true -> written w2 7 = written demo_os 7 ++ appended demo_ops).
Proof.
  destruct (posix_file_durable true false (Z.to_nat 70000) (cstr "MANIFEST-1") 7 demo_os demo_ops) as (ss & f1 & w1 & E & Hl & Hk & Hp & s2 & f2 & w2 & E2 & Hd & Hw); [apply Nat.ltb_lt; vm_compute; reflexivity|].
  exists ss, f1, w1. split; [exact E|]. split; [exact Hl|]. split; [exact Hk|]. split; [exact Hp|]. exists s2, f2, w2. split; [exact E2|]. split; [|exact Hw]. intros Hok. exact (Hd Hok demo_reaches).
Defined.

(** The calls succeed. *)
Example demo_file_run : match file_ops true false (Z.to_nat 70000) (new_PosixWritableFile (cstr "MANIFEST-1") 7) demo_os demo_ops with
  | Done (ss, f, w) => match posix_Sync true false (Z.to_nat 70000) f w with
      | Done (s2, _, w2) => (forallb ok ss, ok s2, durable w2 7) = (true, true, cstr "hello world")
      | _ => False
      end
  | _ => False
  end.
Proof. vm_compute. reflexivity. Qed.

(** Where F_FULLFSYNC fails, for whatever reason, and fsync does not reach the medium, Sync
    reports success with nothing durable. *)
Lemma fallback_not_durable : match file_ops true false (Z.to_nat 70000) (new_PosixWritableFile (cstr "000005.log") 100) demo_os demo_ops with
  | Done (ss, f, w) => match posix_Sync true false (Z.to_nat 70000) f w with
      | Done (s2, _, w2) => (forallb ok ss, ok s2, durable w2 100, written w2 100) = (true, true, [], cstr "hello world")
      | _ => False
      end
  | _ => False
  end.
Proof. vm_compute. reflexivity. Qed.

Lemma permits_balanced_witness :
  match NewRandomAccessFile (mk_env ∅ (mk_limiter 1) (mk_limiter 1)) demo_os (cstr "000005.ldb") with
  | (s, None, e', _) => e' = mk_env ∅ (mk_limiter 1) (mk_limiter 1) /\ ok s = false
  | (s, Some f, e', _) => ok s = true /\ forall w', fst (destroy_file e' w' f) = mk_env ∅ (mk_limiter 1) (mk_limiter 1)
  end.
Proof. apply (permits_balanced (mk_env ∅ (mk_limiter 1) (mk_limiter 1)) demo_os (cstr "000005.ldb")); split; reflexivity. Defined.

(** [LockFile] opens the file before it looks into its table, and closes it again when the
    process has the lock: with that, by the rule of POSIX, the lock of the process is gone,
    while the first caller still holds its [FileLock]. *)
Lemma second_lock_loses_first :
  let name := cstr "LOCK" in
  let e := mk_env ∅ (mk_limiter 1) (mk_limiter 1) in
  match LockFile e demo_os name with
  | (s1, Some _, e1, w1) => match LockFile e1 w1 name with
      | (s2, lock2, e2, w2) => (ok s1, bool_decide (name ∈ os_locked w1), ok s2, bool_decide (lock2 = None), bool_decide (name ∈ locks_ e2), bool_decide (name ∈ os_locked w2)) =
          (true, true, false, true, true, false)
      end
  | _ => False
  end.
Proof. vm_compute. reflexivity. Qed.
