(* ===== verification/LdbEnv.v ===== *)
(** leveldb: the environment (include/leveldb/env.h, util/env.cc) and the CURRENT file
    (SetCurrentFile of db/filename.cc).

    [Env]: the operations, on the state of the system; files are handles.  [EnvLaws]: what
    every environment keeps, whatever fails; [GoodEnv]: nothing fails.  In a good environment
    a handle is a file of LdbStatus, so the logs of LdbLog run on it. *)

From stdpp Require Import gmap.
From S2P Require Import Prelude Leb128 LdbCoding LdbStatus LdbLog LdbIterator LdbFilename.
Open Scope Z_scope.

Class Env (W : Type) := {
  env_NewSequentialFile : W -> list byte -> Status * Z * W;
  env_NewWritableFile : W -> list byte -> Status * Z * W;
  env_NewAppendableFile : W -> list byte -> Status * Z * W;
  env_Read : W -> Z -> Z -> Status * list byte * W;
  env_Skip : W -> Z -> Z -> Status * W;
  env_Append : W -> Z -> list byte -> Status * W;
  env_Flush : W -> Z -> Status * W;
  env_Sync : W -> Z -> Status * W;
  env_Close : W -> Z -> Status * W;
  (** [delete] of a file object *)
  env_delete_sequential : W -> Z -> W;
  env_delete_writable : W -> Z -> W;
  env_DeleteFile : W -> list byte -> Status * W;
  env_RenameFile : W -> list byte -> list byte -> Status * W;
  env_GetFileSize : W -> list byte -> Status * Z * W;
}.

(** [names]: the file a name stands for; [bytes_of]: what a file holds; [left]: what a reader
    has before it. *)
Class EnvLaws (W : Type) `{Env W} := {
  names : W -> list byte -> option Z;
  bytes_of : W -> Z -> list byte;
  left : W -> Z -> list byte;
  NewWritableFile_law w name s h w' : env_NewWritableFile w name = (s, h, w') ->
    (forall m, m <> name -> names w' m = names w m) /\ (ok s = false -> forall g, bytes_of w' g = bytes_of w g) /\
    (ok s = true -> names w' name = Some h /\ bytes_of w' h = [] /\ (forall g, g <> h -> bytes_of w' g = bytes_of w g) /\ (forall m, m <> name -> names w m <> Some h));
  Append_law w h data s w' : env_Append w h data = (s, w') ->
    (forall m, names w' m = names w m) /\ (forall g, g <> h -> bytes_of w' g = bytes_of w g) /\
    (exists k, bytes_of w' h = bytes_of w h ++ take k data) /\ (ok s = true -> bytes_of w' h = bytes_of w h ++ data);
  Flush_law w h s w' : env_Flush w h = (s, w') -> (forall m, names w' m = names w m) /\ (forall g, bytes_of w' g = bytes_of w g);
  Sync_law w h s w' : env_Sync w h = (s, w') -> (forall m, names w' m = names w m) /\ (forall g, bytes_of w' g = bytes_of w g);
  Close_law w h s w' : env_Close w h = (s, w') -> (forall m, names w' m = names w m) /\ (forall g, bytes_of w' g = bytes_of w g);
  delete_writable_law w h : (forall m, names (env_delete_writable w h) m = names w m) /\ (forall g, bytes_of (env_delete_writable w h) g = bytes_of w g);
  DeleteFile_law w name s w' : env_DeleteFile w name = (s, w') ->
    (forall m, m <> name -> names w' m = names w m) /\ (forall g, bytes_of w' g = bytes_of w g) /\ (ok s = true -> names w' name = None);
  RenameFile_law w from to s w' : env_RenameFile w from to = (s, w') ->
    (forall m, m <> from -> m <> to -> names w' m = names w m) /\ (forall g, bytes_of w' g = bytes_of w g) /\
    (if ok s then names w' to = names w from /\ (from <> to -> names w' from = None) else names w' to = names w to /\ names w' from = names w from);
}.

(** The contents of a file. *)
Definition on_disk {W} `{EnvLaws W} (w : W) (name : list byte) : option (list byte) := bytes_of w <$> names w name.

(** * util/env.cc *)

Section EnvFunctions.
Context {W : Type} `{Env W}.

Definition DoWriteStringToFile (w : W) (data fname : list byte) (should_sync : bool) : Status * W :=
  let '(s, file, w) := env_NewWritableFile w fname in
  if negb (ok s) then (s, w)
  else
    let '(s, w) := env_Append w file data in
    let '(s, w) := (if ok s && should_sync then env_Sync w file else (s, w)) in
    let '(s, w) := (if ok s then env_Close w file else (s, w)) in
    let w := env_delete_writable w file in
    if negb (ok s) then (s, snd (env_DeleteFile w fname)) else (s, w).

Definition WriteStringToFile (w : W) (data fname : list byte) : Status * W := DoWriteStringToFile w data fname false.
Definition WriteStringToFileSync (w : W) (data fname : list byte) : Status * W := DoWriteStringToFile w data fname true.

Definition kBufferSize : Z := 8192.

Fixpoint read_file_loop (fuel : nat) (w : W) (file : Z) (data : list byte) : run (Status * list byte * W) :=
  match fuel with
  | O => OutOfFuel
  | S fuel =>
      let '(s, fragment, w) := env_Read w file kBufferSize in
      if negb (ok s) then Done (s, data, w)
      else
        let data := data ++ fragment in
        match fragment with [] => Done (s, data, w) | _ => read_file_loop fuel w file data end
  end.

Definition ReadFileToString (fuel : nat) (w : W) (fname : list byte) : run (Status * list byte * W) :=
  let '(s, file, w) := env_NewSequentialFile w fname in
  if negb (ok s) then Done (s, [], w)
  else
    '(s, data, w) ← read_file_loop fuel w file [];
    Done (s, data, env_delete_sequential w file).

(** db/filename.cc *)
Definition SetCurrentFile (w : W) (dbname : list byte) (descriptor_number : Z) : Status * W :=
  let manifest := DescriptorFileName dbname descriptor_number in
  let contents := drop (Z.to_nat (size dbname + 1)) manifest in
  let tmp := TempFileName dbname descriptor_number in
  let '(s, w) := WriteStringToFileSync w (contents ++ [x0a]) tmp in
  let '(s, w) := (if ok s then env_RenameFile w tmp (CurrentFileName dbname) else (s, w)) in
  if negb (ok s) then (s, snd (env_DeleteFile w tmp)) else (s, w).
End EnvFunctions.

(** * The CURRENT file is replaced as a whole *)

Section Current.
Context {W : Type} `{EnvLaws W}.
Implicit Types (w : W) (name : list byte).

(** Other files than [name] are as they were. *)
Definition others_kept name w w' : Prop := forall m, m <> name -> names w' m = names w m /\ forall i, names w m = Some i -> bytes_of w' i = bytes_of w i.

Lemma others_disk name w w' m : others_kept name w w' -> m <> name -> on_disk w' m = on_disk w m.
Proof. intros Ho Hm. destruct (Ho m Hm) as [En Eb]. unfold on_disk. rewrite En. destruct (names w m) as [i|] eqn:E; [|done]. cbn. by rewrite (Eb i). Qed.

Lemma others_trans name w1 w2 w3 : others_kept name w1 w2 -> others_kept name w2 w3 -> others_kept name w1 w3.
Proof.
  intros H1 H2 m Hm. destruct (H1 m Hm) as [E1 B1], (H2 m Hm) as [E2 B2]. split; [congruence|]. intros i Ei. rewrite B2 by congruence. by apply B1.
Qed.

Lemma others_same name w w' : (forall m, names w' m = names w m) -> (forall g, bytes_of w' g = bytes_of w g) -> others_kept name w w'.
Proof. intros Hn Hb m _. split; [apply Hn|]. intros i _. apply Hb. Qed.

Lemma others_delete name w : others_kept name w (snd (env_DeleteFile w name)).
Proof. destruct (env_DeleteFile w name) as [s w'] eqn:E. destruct (DeleteFile_law _ _ _ _ E) as (Hn & Hb & _). intros m Hm. split; [by apply Hn|]. intros i _. apply Hb. Qed.

(** Writing a file leaves the others alone, and has written it when it succeeds. *)
Lemma DoWriteStringToFile_ok w data fname sync s w' : DoWriteStringToFile w data fname sync = (s, w') ->
  others_kept fname w w' /\ (ok s = true -> exists c, names w' fname = Some c /\ bytes_of w' c = data /\ forall m, m <> fname -> names w m <> Some c).
Proof.
  unfold DoWriteStringToFile. destruct (env_NewWritableFile w fname) as [[s0 h] w0] eqn:E0. destruct (NewWritableFile_law _ _ _ _ _ E0) as (N0 & B0 & G0). destruct (ok s0) eqn:Es0; cbn [negb].
  2: { intros [= <- <-]. split; [|congruence]. intros m Hm. split; [by apply N0|]. intros i _. by apply B0. }
  destruct (G0 eq_refl) as (Nh & Bh & Bo & Fresh). assert (others_kept fname w w0) as K0.
  { intros m Hm. split; [by apply N0|]. intros i Ei. apply Bo. intros ->. by apply (Fresh m Hm). }
  destruct (env_Append w0 h data) as [s1 w1] eqn:E1. destruct (Append_law _ _ _ _ _ E1) as (N1 & B1 & _ & G1). assert (others_kept fname w w1) as K1.
  { apply (others_trans _ _ w0); [done|]. intros m Hm. split; [by apply N1|]. intros i Ei. apply B1. intros ->. rewrite (N0 m Hm) in Ei. by apply (Fresh m Hm). }
  destruct (if ok s1 && sync then env_Sync w1 h else (s1, w1)) as [s2 w2] eqn:E2. assert ((forall m, names w2 m = names w1 m) /\ (forall g, bytes_of w2 g = bytes_of w1 g) /\ (ok s2 = true -> ok s1 = true)) as (N2 & B2 & S2).
  { destruct (ok s1) eqn:Es1; cbn [andb] in E2; [|injection E2 as <- <-; by rewrite Es1]. destruct sync; [destruct (Sync_law _ _ _ _ E2); tauto|by injection E2 as <- <-]. }
  destruct (if ok s2 then env_Close w2 h else (s2, w2)) as [s3 w3] eqn:E3. assert ((forall m, names w3 m = names w2 m) /\ (forall g, bytes_of w3 g = bytes_of w2 g) /\ (ok s3 = true -> ok s2 = true)) as (N3 & B3 & S3).
  { destruct (ok s2) eqn:Es2; [destruct (Close_law _ _ _ _ E3); tauto|injection E3 as <- <-; by rewrite Es2]. }
  destruct (delete_writable_law w3 h) as (N4 & B4). set (w4 := env_delete_writable w3 h) in *.
  assert (others_kept fname w w4) as K4.
  { apply (others_trans _ _ w1); [done|]. apply others_same; intros x; [by rewrite N4, N3, N2|by rewrite B4, B3, B2]. }
  destruct (ok s3) eqn:Es3; cbn [negb]; intros [= <- <-]; [|split; [|congruence]; apply (others_trans _ _ w4); [done|apply others_delete]].
  split; [done|]. intros _. exists h. rewrite N4, N3, N2, N1, Nh. rewrite B4, B3, B2, (G1 (S2 (S3 eq_refl))), Bh. exact (conj eq_refl (conj eq_refl Fresh)).
Qed.

Lemma temp_name_eq dbname num : TempFileName dbname num = dbname ++ [x2f] ++ llu06 num ++ cstr ".dbtmp".
Proof. unfold TempFileName, MakeFileName. f_equal. apply take_ge. pose proof (length_llu06 num). rewrite !length_app. cbn -[llu06]. lia. Qed.

Lemma descriptor_name_eq dbname num : DescriptorFileName dbname num = dbname ++ [x2f] ++ cstr "MANIFEST-" ++ llu06 num.
Proof. unfold DescriptorFileName. f_equal. apply take_ge. pose proof (length_llu06 num). rewrite length_app. cbn -[llu06]. lia. Qed.

Lemma llu06_head num : 0 <= num < 2 ^ 64 -> exists b rest, llu06 num = b :: rest /\ is_digit b = true.
Proof.
  intros Hn. destruct (llu06_val num Hn) as (_ & Hf & Hne). destruct (llu06 num) as [|b rest]; [done|]. exists b, rest. split; [done|]. by apply List.Forall_cons_iff in Hf as [? _].
Qed.

(** A temporary file has a digit where CURRENT and manifests have a letter. *)
Lemma temp_not_named dbname num rest : 0 <= num < 2 ^ 64 -> (forall b r, rest = b :: r -> is_digit b = false) -> rest <> [] -> TempFileName dbname num <> dbname ++ [x2f] ++ rest.
Proof.
  intros Hn Hr Hne E. rewrite temp_name_eq in E. apply app_inv_head in E. injection E as E. destruct (llu06_head num Hn) as (b & r & Eb & Hb). rewrite Eb in E. destruct rest as [|c rest]; [done|].
  injection E as E _. specialize (Hr c rest eq_refl). congruence.
Qed.

Lemma temp_not_current dbname num : 0 <= num < 2 ^ 64 -> TempFileName dbname num <> CurrentFileName dbname.
Proof. intros Hn. apply (temp_not_named dbname num (cstr "CURRENT")); [done| |done]. by intros b r [= <- _]. Qed.

Lemma temp_not_descriptor dbname num num' : 0 <= num < 2 ^ 64 -> TempFileName dbname num <> DescriptorFileName dbname num'.
Proof. intros Hn. rewrite descriptor_name_eq. apply temp_not_named; [done| |done]. by intros b r [= <- _]. Qed.

(** The line that names a manifest. *)
Definition current_line (num : Z) : list byte := cstr "MANIFEST-" ++ llu06 num ++ [x0a].

(** What SetCurrentFile touches: its temporary file and CURRENT. *)
Lemma SetCurrentFile_ok w dbname num s w' : 0 <= num < 2 ^ 64 -> SetCurrentFile w dbname num = (s, w') ->
  (if ok s then exists c, names w' (CurrentFileName dbname) = Some c /\ bytes_of w' c = current_line num /\ (forall m, m <> TempFileName dbname num -> names w m <> Some c)
   else on_disk w' (CurrentFileName dbname) = on_disk w (CurrentFileName dbname)) /\
  (forall m, m <> CurrentFileName dbname -> m <> TempFileName dbname num -> names w' m = names w m /\ forall i, names w m = Some i -> bytes_of w' i = bytes_of w i).
Proof.
  intros Hn. unfold SetCurrentFile, WriteStringToFileSync. pose proof (temp_not_current dbname num Hn) as Hne.
  assert (drop (Z.to_nat (size dbname + 1)) (DescriptorFileName dbname num) ++ [x0a] = current_line num) as ->.
  { rewrite descriptor_name_eq, (app_assoc dbname), drop_app_length'; [unfold current_line; by rewrite app_assoc|]. rewrite length_app. unfold LdbCoding.size. cbn [length]. lia. }
  destruct (DoWriteStringToFile w (current_line num) (TempFileName dbname num) true) as [s1 w1] eqn:E1. destruct (DoWriteStringToFile_ok _ _ _ _ _ _ E1) as [K1 D1].
  assert (forall m, m <> CurrentFileName dbname -> m <> TempFileName dbname num -> names w1 m = names w m /\ forall i, names w m = Some i -> bytes_of w1 i = bytes_of w i) as O1 by (intros m _ Hm; by apply K1).
  destruct (ok s1) eqn:Es1.
  - specialize (D1 eq_refl). destruct (env_RenameFile w1 (TempFileName dbname num) (CurrentFileName dbname)) as [s2 w2] eqn:E2. destruct (RenameFile_law _ _ _ _ _ E2) as (N2 & B2 & R2).
    assert (forall m, m <> CurrentFileName dbname -> m <> TempFileName dbname num -> names w2 m = names w m /\ forall i, names w m = Some i -> bytes_of w2 i = bytes_of w i) as O2.
    { intros m Hm Hm'. destruct (O1 m Hm Hm') as [A1 A2]. split; [by rewrite N2|]. intros i Ei. by rewrite B2, A2. }
    destruct (ok s2) eqn:Es2; cbn [negb]; intros [= <- <-]; rewrite Es2.
    + split; [|done]. destruct R2 as [R2 _], D1 as (c & Nc & Bc & Fc). exists c. rewrite R2, B2. exact (conj Nc (conj Bc Fc)).
    + pose proof (others_delete (TempFileName dbname num) w2) as K3. split.
      * rewrite (others_disk _ _ _ _ K3) by done. destruct R2 as [R2 _]. transitivity (on_disk w1 (CurrentFileName dbname)); [|by apply (others_disk _ _ _ _ K1)].
        unfold on_disk. rewrite R2. destruct (names w1 (CurrentFileName dbname)) as [i|]; cbn; [by rewrite B2|reflexivity].
      * intros m Hm Hm'. destruct (O2 m Hm Hm') as [A1 A2], (K3 m Hm') as [A3 A4]. split; [congruence|]. intros i Ei. rewrite A4 by congruence. by apply A2.
  - rewrite Es1. cbn [negb]. intros [= <- <-]. rewrite Es1. pose proof (others_delete (TempFileName dbname num) w1) as K3. pose proof (others_trans _ _ _ _ K1 K3) as K.
    split; [by apply (others_disk _ _ _ _ K)|]. intros m _ Hm'. by apply K.
Qed.

(** C18: whatever fails, CURRENT is never missing or half written: it holds the line of the new
    manifest when SetCurrentFile succeeds, and is what it was when it fails; all files but
    CURRENT and the temporary file are as they were. *)
Theorem set_current_atomic w dbname num s w' : 0 <= num < 2 ^ 64 -> SetCurrentFile w dbname num = (s, w') ->
  on_disk w' (CurrentFileName dbname) = (if ok s then Some (current_line num) else on_disk w (CurrentFileName dbname)) /\
  (forall m, m <> CurrentFileName dbname -> m <> TempFileName dbname num -> on_disk w' m = on_disk w m).
Proof.
  intros Hn Hs. destruct (SetCurrentFile_ok w dbname num s w' Hn Hs) as [Hd Ho]. split.
  { destruct (ok s); [|done]. destruct Hd as (c & Nc & Bc & _). unfold on_disk. rewrite Nc. cbn. by rewrite Bc. }
  intros m Hm Hm'. destruct (Ho m Hm Hm') as [En Eb].
  unfold on_disk. rewrite En. destruct (names w m) as [i|] eqn:E; [|done]. cbn. by rewrite (Eb i).
Qed.
End Current.

(** * Good environments *)

Class GoodEnv (W : Type) `{EnvLaws W} := {
  NewWritableFile_good w name : fst (fst (env_NewWritableFile w name)) = OK;
  Append_good w h data : fst (env_Append w h data) = OK;
  Flush_good w h : fst (env_Flush w h) = OK;
  Sync_good w h : fst (env_Sync w h) = OK;
  Close_good w h : fst (env_Close w h) = OK;
  RenameFile_good w from to i : names w from = Some i -> fst (env_RenameFile w from to) = OK;
  NewSequentialFile_good w name i : names w name = Some i -> exists h w', env_NewSequentialFile w name = (OK, h, w') /\
    left w' h = bytes_of w i /\ (forall m, names w' m = names w m) /\ (forall g, bytes_of w' g = bytes_of w g);
  Read_good w h n : 0 <= n -> exists w', env_Read w h n = (OK, take (Z.to_nat n) (left w h), w') /\
    left w' h = drop (Z.to_nat n) (left w h) /\ (forall m, names w' m = names w m) /\ (forall g, bytes_of w' g = bytes_of w g);
  Skip_good w h n : 0 <= n -> exists w', env_Skip w h n = (OK, w') /\
    left w' h = drop (Z.to_nat n) (left w h) /\ (forall m, names w' m = names w m) /\ (forall g, bytes_of w' g = bytes_of w g);
  delete_sequential_good w h : (forall m, names (env_delete_sequential w h) m = names w m) /\ (forall g, bytes_of (env_delete_sequential w h) g = bytes_of w g);
}.

(** Files of LdbStatus: the system and a handle. *)
#[export] Instance env_writable {W} `{Env W} : WritableFile (W * Z) := {
  Append f data := let '(s, w) := env_Append (fst f) (snd f) data in (s, (w, snd f));
  Flush f := let '(s, w) := env_Flush (fst f) (snd f) in (s, (w, snd f));
}.

#[export, refine] Instance env_good_writable {W} `{GoodEnv W} : GoodWritable (W * Z) := { contents f := bytes_of (fst f) (snd f) }.
Proof.
  - intros [w h] data. cbn. pose proof (Append_good w h data). by destruct (env_Append w h data).
  - intros [w h] data. cbn. pose proof (Append_good w h data) as Hg. destruct (env_Append w h data) as [s w'] eqn:E. destruct (Append_law _ _ _ _ _ E) as (_ & _ & _ & Ho). cbn in *. apply Ho. by rewrite Hg.
  - intros [w h]. cbn. pose proof (Flush_good w h). by destruct (env_Flush w h).
  - intros [w h]. cbn. destruct (env_Flush w h) as [s w'] eqn:E. destruct (Flush_law _ _ _ _ E) as (_ & Hb). apply Hb.
Defined.

#[export] Instance env_sequential {W} `{Env W} : SequentialFile (W * Z) := {
  Read f n := let '(s, data, w) := env_Read (fst f) (snd f) n in (s, data, (w, snd f));
  Skip f n := let '(s, w) := env_Skip (fst f) (snd f) n in (s, (w, snd f));
}.

#[export, refine] Instance env_good_sequential {W} `{GoodEnv W} : GoodSequential (W * Z) := { remaining f := left (fst f) (snd f) }.
Proof.
  - intros [w h] n Hn. cbn. by destruct (Read_good w h n Hn) as (w' & -> & Hl & _).
  - intros [w h] n Hn. cbn. by destruct (Skip_good w h n Hn) as (w' & -> & Hl & _).
Defined.

Section Reading.
Context {W : Type} `{GoodEnv W}.
Implicit Types (w : W) (name : list byte).

(** What files hold did not change. *)
Definition same_disk w w' : Prop := (forall m, names w' m = names w m) /\ (forall g, bytes_of w' g = bytes_of w g).

Lemma same_disk_trans w1 w2 w3 : same_disk w1 w2 -> same_disk w2 w3 -> same_disk w1 w3.
Proof. intros [A B] [C D]. split; intros x; [by rewrite C|by rewrite D]. Qed.

Lemma same_disk_at w w' name : same_disk w w' -> on_disk w' name = on_disk w name.
Proof. intros [Hn Hb]. unfold on_disk. rewrite Hn. destruct (names w name); [|done]. cbn. by rewrite Hb. Qed.

Lemma read_file_loop_ok fuel : forall w h acc, (length (left w h) < fuel)%nat ->
  exists w', read_file_loop fuel w h acc = Done (OK, acc ++ left w h, w') /\ same_disk w w'.
Proof.
  induction fuel as [|fuel IH]; intros w h acc Hf; [lia|]. cbn [read_file_loop]. destruct (Read_good w h kBufferSize ltac:(done)) as (w1 & -> & Hl & Hs). cbn [ok OK negb].
  destruct (take (Z.to_nat kBufferSize) (left w h)) as [|b fragment] eqn:Ef.
  - exists w1. split; [|done]. assert (left w h = []) as -> by (destruct (left w h); [done|]; by destruct (Z.to_nat kBufferSize) eqn:E; [|cbn in Ef]). by rewrite app_nil_r.
  - destruct (IH w1 h (acc ++ b :: fragment)) as (w' & -> & Hs').
    + rewrite Hl, length_drop. apply (f_equal length) in Ef. rewrite length_take in Ef. cbn [length] in Ef. lia.
    + exists w'. split; [|by apply (same_disk_trans _ w1)]. rewrite Hl, <- Ef, <- app_assoc, take_drop. done.
Qed.

(** Reading a file gives what it holds. *)
Lemma ReadFileToString_ok fuel w name data : on_disk w name = Some data -> (length data < fuel)%nat ->
  exists w', ReadFileToString fuel w name = Done (OK, data, w') /\ same_disk w w'.
Proof.
  intros Hd Hf. unfold on_disk in Hd. destruct (names w name) as [i|] eqn:Ei; [|done]. injection Hd as <-. unfold ReadFileToString.
  destruct (NewSequentialFile_good w name i Ei) as (h & w1 & -> & Hl & Hs1). cbn [ok OK negb]. destruct (read_file_loop_ok fuel w1 h []) as (w2 & -> & Hs2); [by rewrite Hl|]. rewrite run_bind_done.
  eexists. split; [by rewrite Hl|]. apply (same_disk_trans _ w2); [by apply (same_disk_trans _ w1)|]. apply delete_sequential_good.
Qed.

Lemma DoWriteStringToFile_good w data name sync : fst (DoWriteStringToFile w data name sync) = OK.
Proof.
  unfold DoWriteStringToFile. pose proof (NewWritableFile_good w name) as G0. destruct (env_NewWritableFile w name) as [[s0 h] w0]. cbn in G0. subst s0. cbn [ok OK negb].
  pose proof (Append_good w0 h data) as G1. destruct (env_Append w0 h data) as [s1 w1]. cbn in G1. subst s1. cbn [ok OK andb].
  assert (exists w2, (if sync then env_Sync w1 h else (OK, w1)) = (OK, w2)) as [w2 ->] by (pose proof (Sync_good w1 h) as G2; destruct sync; [destruct (env_Sync w1 h); cbn in G2; subst; by eexists|by eexists]).
  cbn [ok OK]. pose proof (Close_good w2 h) as G3. destruct (env_Close w2 h) as [s3 w3]. cbn in G3. by subst s3.
Qed.

Lemma SetCurrentFile_good w dbname num : fst (SetCurrentFile w dbname num) = OK.
Proof.
  unfold SetCurrentFile, WriteStringToFileSync. set (line := drop _ _ ++ _). set (tmp := TempFileName dbname num).
  pose proof (DoWriteStringToFile_good w line tmp true) as G1. destruct (DoWriteStringToFile w line tmp true) as [s1 w1] eqn:E1. cbn in G1. subst s1. cbn [ok OK].
  destruct (DoWriteStringToFile_ok _ _ _ _ _ _ E1) as [_ Hd]. destruct (Hd eq_refl) as (c & Nc & _).
  pose proof (RenameFile_good w1 tmp (CurrentFileName dbname) c Nc) as G2. destruct (env_RenameFile w1 tmp (CurrentFileName dbname)) as [s2 w2]. cbn in G2. by subst s2.
Qed.

(** What is written is read back. *)
Theorem write_read_file fuel w name data sync : (length data < fuel)%nat ->
  exists w' w'', DoWriteStringToFile w data name sync = (OK, w') /\ ReadFileToString fuel w' name = Done (OK, data, w'').
Proof.
  intros Hf. pose proof (DoWriteStringToFile_good w data name sync) as G. destruct (DoWriteStringToFile w data name sync) as [s w'] eqn:E. cbn in G. subst s.
  destruct (DoWriteStringToFile_ok _ _ _ _ _ _ E) as [_ Hd]. destruct (Hd eq_refl) as (c & Nc & Bc & _).
  destruct (ReadFileToString_ok fuel w' name data) as (w'' & E2 & _); [unfold on_disk; rewrite Nc; cbn; by rewrite Bc|done|]. by exists w', w''.
Qed.
End Reading.

(** * An environment in memory *)

Record MemEnv := mk_mem { m_names : gmap (list byte) Z; m_bytes : gmap Z (list byte); m_left : gmap Z (list byte) }.

(** A file that no name stands for. *)
Definition unused {K} `{Countable K} (m : gmap K Z) : Z := 1 + map_fold (fun _ v a => Z.max v a) 0 m.

Lemma unused_above {K} `{Countable K} (m : gmap K Z) k v : m !! k = Some v -> v < unused m.
Proof.
  unfold unused. enough (forall k v, m !! k = Some v -> v <= map_fold (fun _ v a => Z.max v a) 0 m) as Hle by (intros E; specialize (Hle k v E); lia).
  refine (map_fold_weak_ind (fun (r : Z) (m : gmap K Z) => forall k v, m !! k = Some v -> v <= r) _ 0 _ _ m); [done|].
  intros i x m' r Hi IH k' v' [[<- <-]|[_ E]]%lookup_insert_Some; [lia|]. specialize (IH k' v' E). lia.
Qed.

#[export] Instance mem_env : Env MemEnv := {
  env_NewSequentialFile w name := match m_names w !! name with
    | Some i => let h := 1 + map_fold (fun h _ a => Z.max h a) 0 (m_left w) in (OK, h, mk_mem (m_names w) (m_bytes w) (<[h := default [] (m_bytes w !! i)]> (m_left w)))
    | None => (NotFound name (cstr "no such file"), 0, w)
    end;
  env_NewWritableFile w name := let h := unused (m_names w) in (OK, h, mk_mem (<[name := h]> (m_names w)) (<[h := []]> (m_bytes w)) (m_left w));
  env_NewAppendableFile w name := match m_names w !! name with
    | Some i => (OK, i, w)
    | None => let h := unused (m_names w) in (OK, h, mk_mem (<[name := h]> (m_names w)) (<[h := []]> (m_bytes w)) (m_left w))
    end;
  env_Read w h n := let l := default [] (m_left w !! h) in (OK, take (Z.to_nat n) l, mk_mem (m_names w) (m_bytes w) (<[h := drop (Z.to_nat n) l]> (m_left w)));
  env_Skip w h n := let l := default [] (m_left w !! h) in (OK, mk_mem (m_names w) (m_bytes w) (<[h := drop (Z.to_nat n) l]> (m_left w)));
  env_Append w h data := (OK, mk_mem (m_names w) (<[h := default [] (m_bytes w !! h) ++ data]> (m_bytes w)) (m_left w));
  env_Flush w _ := (OK, w); env_Sync w _ := (OK, w); env_Close w _ := (OK, w);
  env_delete_sequential w h := mk_mem (m_names w) (m_bytes w) (delete h (m_left w));
  env_delete_writable w _ := w;
  env_DeleteFile w name := match m_names w !! name with Some _ => (OK, mk_mem (delete name (m_names w)) (m_bytes w) (m_left w)) | None => (NotFound name (cstr "no such file"), w) end;
  env_RenameFile w from to := match m_names w !! from with
    | Some i => (OK, mk_mem (if decide (from = to) then m_names w else <[to := i]> (delete from (m_names w))) (m_bytes w) (m_left w))
    | None => (NotFound from (cstr "no such file"), w)
    end;
  env_GetFileSize w name := match m_names w !! name with Some i => (OK, size (default [] (m_bytes w !! i)), w) | None => (NotFound name (cstr "no such file"), 0, w) end;
}.

#[export, refine] Instance mem_laws : EnvLaws MemEnv := {
  names w name := m_names w !! name;
  bytes_of w i := default [] (m_bytes w !! i);
  left w h := default [] (m_left w !! h);
}.
Proof.
  - intros w name s h w' [= <- <- <-]. cbn. split; [intros m Hm; by rewrite lookup_insert_ne|]. split; [done|]. intros _. split; [by rewrite lookup_insert_eq|]. split; [by rewrite lookup_insert_eq|].
    split; [intros g Hg; by rewrite lookup_insert_ne|]. intros m _ E. apply unused_above in E. lia.
  - intros w h data s w' [= <- <-]. cbn. split; [done|]. rewrite lookup_insert_eq. split; [intros g Hg; by rewrite lookup_insert_ne|]. split; [|done]. exists (length data). by rewrite firstn_all.
  - by intros w h s w' [= <- <-].
  - by intros w h s w' [= <- <-].
  - by intros w h s w' [= <- <-].
  - done.
  - intros w name s w'. cbn. destruct (m_names w !! name) eqn:E; intros [= <- <-]; cbn; [|done]. split; [intros m Hm; by rewrite lookup_delete_ne|]. split; [done|]. intros _. by rewrite lookup_delete_eq.
  - intros w from to s w'. cbn. destruct (m_names w !! from) as [i|] eqn:E; intros [= <- <-]; cbn; [|done]. destruct (decide (from = to)) as [-> |Hne].
    + split; [done|]. split; [done|]. split; [done|]. intros Hc. by destruct Hc.
    + split; [intros m Hm Hm'; by rewrite lookup_insert_ne, lookup_delete_ne|]. split; [done|]. rewrite lookup_insert_eq. split; [done|]. intros _. rewrite lookup_insert_ne by done. by rewrite lookup_delete_eq.
Defined.

#[export, refine] Instance mem_good : GoodEnv MemEnv := {}.
Proof.
  - done.
  - done.
  - done.
  - done.
  - done.
  - intros w from to i E. cbn in *. by rewrite E.
  - intros w name i E. cbn in *. rewrite E. eexists _, _. split; [reflexivity|]. cbn. by rewrite lookup_insert_eq.
  - intros w h n Hn. cbn. eexists. split; [reflexivity|]. cbn. by rewrite lookup_insert_eq.
  - intros w h n Hn. cbn. eexists. split; [reflexivity|]. cbn. by rewrite lookup_insert_eq.
  - done.
Defined.

Definition demo_disk : MemEnv := mk_mem ∅ ∅ ∅.

Lemma set_current_atomic_witness :
  let '(s, w') := SetCurrentFile demo_disk (cstr "db") 5 in
  on_disk w' (CurrentFileName (cstr "db")) = (if ok s then Some (current_line 5) else on_disk demo_disk (CurrentFileName (cstr "db"))) /\
  (forall m, m <> CurrentFileName (cstr "db") -> m <> TempFileName (cstr "db") 5 -> on_disk w' m = on_disk demo_disk m).
Proof.
  exact (set_current_atomic demo_disk (cstr "db") 5 (fst (SetCurrentFile demo_disk (cstr "db") 5)) (snd (SetCurrentFile demo_disk (cstr "db") 5)) ltac:(lia) eq_refl).
Defined.

Lemma write_read_file_witness : exists w' w'', DoWriteStringToFile demo_disk (cstr "x") (cstr "f") true = (OK, w') /\ ReadFileToString 5 w' (cstr "f") = Done (OK, cstr "x", w'').
Proof. apply (write_read_file 5 demo_disk (cstr "f") (cstr "x") true). cbn. lia. Defined.
