(* ===== verification/LdbTableFormat.v ===== *)
(** leveldb: the format of table files (table/format.cc, table/format.h).

    Files are read through the class [RandomAccessFile]; the snappy library, which
    the port layer calls when it is configured, is the class [Snappy].

    [footer_roundtrip]: footers are read back.  [footer_not_appended]: but only
    when they are written to an empty string.
    [read_block_correct]: reading a block gives what was written.
    [read_block_checked]: with verification no block with a wrong checksum is
    returned, and nothing is read outside what the file returned, if the size in
    the handle leaves room for the trailer; [read_block_wraps]: when it does not,
    the block's type is read out of bounds. *)

From S2P Require Import Prelude Leb128 LdbCoding LdbCrc LdbStatus LdbIterator.
Open Scope Z_scope.

(** * Code outside the source *)

(** [RARead f offset n]: the status, the bytes, and whether they were copied to the
    caller's buffer. *)
Class RandomAccessFile (F : Type) := {
  RARead : F -> Z -> Z -> Status * list byte * bool;
}.

(** Reads inside the file succeed. *)
Class GoodRandomAccess (F : Type) `{RandomAccessFile F} := {
  ra_bytes : F -> list byte;
  RARead_eq f off n : 0 <= off -> 0 <= n -> off + n <= size (ra_bytes f) ->
    fst (RARead f off n) = (OK, take (Z.to_nat n) (drop (Z.to_nat off) (ra_bytes f)));
}.

#[export] Instance mem_random_access : RandomAccessFile (list byte) := {
  RARead f off n := (OK, take (Z.to_nat n) (drop (Z.to_nat off) f), true);
}.

#[export, refine] Instance mem_good_random_access : GoodRandomAccess (list byte) := { ra_bytes f := f }.
Proof. done. Defined.

Class Snappy := {
  snappy_compress : list byte -> option (list byte);
  snappy_length : list byte -> option Z;
  snappy_uncompress : list byte -> option (list byte);
}.

(** What was compressed is uncompressed to the same bytes, and uncompressing fills
    the buffer of the length that was announced. *)
Class SnappyLaws (S : Snappy) : Prop := {
  snappy_roundtrip x y : snappy_compress x = Some y ->
    snappy_length y = Some (size x) /\ snappy_uncompress y = Some x;
  snappy_size x y n : snappy_uncompress y = Some x -> snappy_length y = Some n -> size x = n;
}.

(** The port layer without the library: every function returns false. *)
Definition no_snappy : Snappy := {|
  snappy_compress _ := None; snappy_length _ := None; snappy_uncompress _ := None;
|}.

#[export] Instance no_snappy_laws : SnappyLaws no_snappy.
Proof. by split. Qed.

(** * BlockHandle and Footer *)

Definition kMaxEncodedLength : Z := 10 + 10.
Definition kEncodedLength : Z := 2 * kMaxEncodedLength + 8.
Definition kTableMagicNumber : Z := 0xdb4775248b80fb57.
Definition kBlockTrailerSize : Z := 5.

Record BlockHandle := mk_handle { offset_ : Z; size_ : Z }.

Definition new_BlockHandle : BlockHandle := mk_handle (2 ^ 64 - 1) (2 ^ 64 - 1).

Definition handle_EncodeTo (h : BlockHandle) (dst : list byte) : list byte :=
  PutVarint64 (PutVarint64 dst (offset_ h)) (size_ h).

(** The handle and what follows it; [None] is the status "bad block handle". *)
Definition handle_DecodeFrom (input : list byte) : option (BlockHandle * list byte) :=
  '(o, input) ← GetVarint64 input; '(n, input) ← GetVarint64 input; Some (mk_handle o n, input).

Definition bad_handle : Status := Corruption (cstr "bad block handle") [].

Record Footer := mk_footer { metaindex_handle_ : BlockHandle; index_handle_ : BlockHandle }.

(** [std::string::resize]. *)
Definition resize (s : list byte) (n : Z) : list byte :=
  take (Z.to_nat n) s ++ replicate (Z.to_nat (n - size s)) x00.

Definition footer_EncodeTo (f : Footer) (dst : list byte) : list byte :=
  let dst := handle_EncodeTo (metaindex_handle_ f) dst in
  let dst := handle_EncodeTo (index_handle_ f) dst in
  let dst := resize dst (2 * kMaxEncodedLength) in
  let dst := PutFixed32 dst (Z.land kTableMagicNumber 0xffffffff) in
  PutFixed32 dst (Z.shiftr kTableMagicNumber 32).

Definition footer_DecodeFrom (input : list byte) : run (Status * option Footer * list byte) :=
  lo ← read_at input (kEncodedLength - 8) 4;
  hi ← read_at input (kEncodedLength - 8 + 4) 4;
  let magic := Z.lor (u64 (Z.shiftl (DecodeFixed32 hi) 32)) (DecodeFixed32 lo) in
  if negb (magic =? kTableMagicNumber)
  then Done (Corruption (cstr "not an sstable (bad magic number)") [], None, input)
  else
    match handle_DecodeFrom input with
    | None => Done (bad_handle, None, input)
    | Some (m, rest) =>
        match handle_DecodeFrom rest with
        | None => Done (bad_handle, None, rest)
        | Some (i, _) => Done (OK, Some (mk_footer m i), drop (Z.to_nat kEncodedLength) input)
        end
    end.

(** * Blocks *)

Definition kNoCompression : Z := 0.
Definition kSnappyCompression : Z := 1.

Record BlockContents := mk_contents { bc_data : list byte; cachable : bool; heap_allocated : bool }.

Section Reading.
Context {S : Snappy} {F : Type} `{RandomAccessFile F}.

(** [data[n]] and the pointer [data + n + 1] are at signed offsets.  The buffer is
    assumed to be allocated. *)
Definition ReadBlock (file : F) (verify_checksums : bool) (handle : BlockHandle)
  : run (Status * BlockContents) :=
  let result := mk_contents [] false false in
  let n := size_ handle in
  let '(s, contents, in_buf) := RARead file (offset_ handle) (u64 (n + kBlockTrailerSize)) in
  if negb (ok s) then Done (s, result)
  else if negb (size contents =? u64 (n + kBlockTrailerSize))
  then Done (Corruption (cstr "truncated block read") [], result)
  else
    mismatch ←
      (if verify_checksums then
         stored ← read_at contents (sx 64 (n + 1)) 4;
         covered ← read_at contents 0 (u64 (n + 1));
         Done (negb (Value covered =? Unmask (DecodeFixed32 stored)))
       else Done false);
    if (mismatch : bool) then Done (Corruption (cstr "block checksum mismatch") [], result)
    else
      t ← read_at contents (sx 64 n) 1;
      let type := b2z (nth 0 t x00) in
      if type =? kNoCompression then
        Done (OK, mk_contents (take (Z.to_nat n) contents) in_buf in_buf)
      else if type =? kSnappyCompression then
        match snappy_length (take (Z.to_nat n) contents) with
        | None => Done (Corruption (cstr "corrupted compressed block contents") [], result)
        | Some ulength =>
            match snappy_uncompress (take (Z.to_nat n) contents) with
            | None => Done (Corruption (cstr "corrupted compressed block contents") [], result)
            | Some ubuf =>
                if size ubuf =? ulength then Done (OK, mk_contents ubuf true true) else OutOfBounds
            end
        end
      else Done (Corruption (cstr "bad block type") [], result).
End Reading.

(** * Handles and footers are read back *)

Definition handle_ok (h : BlockHandle) : Prop := 0 <= offset_ h < 2 ^ 64 /\ 0 <= size_ h < 2 ^ 64.

Definition handle_bytes (h : BlockHandle) : list byte :=
  EncodeVarint64 (offset_ h) ++ EncodeVarint64 (size_ h).

Lemma handle_EncodeTo_eq h dst : handle_EncodeTo h dst = dst ++ handle_bytes h.
Proof. unfold handle_EncodeTo, PutVarint64, handle_bytes. by rewrite <- app_assoc. Qed.

Lemma handle_parses h : handle_ok h -> parses handle_DecodeFrom h (handle_bytes h).
Proof.
  intros [Ho Hs]. destruct h as [o n]. unfold handle_bytes. cbn [offset_ size_] in *. read_chain.
Qed.

Lemma handle_decode h rest : handle_ok h -> handle_DecodeFrom (handle_bytes h ++ rest) = Some (h, rest).
Proof. intros Hh. apply (handle_parses h Hh). Qed.

Lemma handle_size h : handle_ok h -> 2 <= size (handle_bytes h) <= kMaxEncodedLength.
Proof.
  intros [Ho Hs]. unfold handle_bytes. rewrite size_app, !EncodeVarint64_eq by done. unfold size.
  pose proof (length_varint (offset_ h)). pose proof (length_varint (size_ h)). unfold kMaxEncodedLength. lia.
Qed.

Lemma size_EncodeFixed32 v : size (EncodeFixed32 v) = 4.
Proof. unfold size. by rewrite length_EncodeFixed32. Qed.

Lemma size_resize s n : 0 <= n -> size (resize s n) = n.
Proof.
  intros Hn. unfold resize. rewrite size_app, size_take by done. unfold size. rewrite length_replicate. lia.
Qed.

Lemma resize_pad s n : size s <= n -> resize s n = s ++ replicate (Z.to_nat (n - size s)) x00.
Proof. intros Hn. unfold resize. by rewrite take_ge by (unfold size in *; lia). Qed.

Definition magic_bytes : list byte :=
  EncodeFixed32 (Z.land kTableMagicNumber 0xffffffff) ++ EncodeFixed32 (Z.shiftr kTableMagicNumber 32).

Lemma footer_EncodeTo_eq f dst :
  footer_EncodeTo f dst =
  resize (dst ++ handle_bytes (metaindex_handle_ f) ++ handle_bytes (index_handle_ f)) (2 * kMaxEncodedLength) ++
  magic_bytes.
Proof.
  unfold footer_EncodeTo, PutFixed32, magic_bytes. rewrite !handle_EncodeTo_eq, <- !app_assoc. done.
Qed.

Lemma footer_decode f rest :
  handle_ok (metaindex_handle_ f) -> handle_ok (index_handle_ f) ->
  footer_DecodeFrom (footer_EncodeTo f [] ++ rest) = Done (OK, Some f, rest).
Proof.
  intros Hm Hi. pose proof (handle_size _ Hm). pose proof (handle_size _ Hi).
  assert (size (handle_bytes (metaindex_handle_ f) ++ handle_bytes (index_handle_ f)) <= 2 * kMaxEncodedLength) as Hs
    by (rewrite size_app; lia).
  assert (size (footer_EncodeTo f []) = kEncodedLength) as Hsz
    by (rewrite footer_EncodeTo_eq, size_app, size_resize by done; done).
  assert (drop (Z.to_nat kEncodedLength) (footer_EncodeTo f [] ++ rest) = rest) as Hrest
    by (rewrite <- Hsz; apply drop_size_app).
  unfold footer_DecodeFrom. rewrite Hrest. clear Hrest Hsz. rewrite footer_EncodeTo_eq. cbn [app].
  set (body := resize _ _). assert (size body = 40) as Hb by (by apply size_resize).
  unfold magic_bytes. rewrite <- !app_assoc.
  change (kEncodedLength - 8) with 40. rewrite <- Hb at 1.
  rewrite <- (size_EncodeFixed32 (Z.land kTableMagicNumber 0xffffffff)) at 1. rewrite read_at_app, run_bind_done.
  replace (40 + 4) with (size (body ++ EncodeFixed32 (Z.land kTableMagicNumber 0xffffffff)))
    by (rewrite size_app, size_EncodeFixed32; lia).
  rewrite (app_assoc body).
  rewrite <- (size_EncodeFixed32 (Z.shiftr kTableMagicNumber 32)) at 1. rewrite read_at_app, run_bind_done.
  rewrite <- (app_assoc body).
  change (negb _) with false. cbv iota. unfold body. rewrite resize_pad, <- !app_assoc by done.
  rewrite handle_decode by done. rewrite handle_decode by done. by destruct f.
Qed.

(** A footer written to an empty string takes [kEncodedLength] bytes and is read
    back, whatever follows it, with the rest of the input left. *)
Theorem footer_roundtrip f rest :
  handle_ok (metaindex_handle_ f) -> handle_ok (index_handle_ f) ->
  size (footer_EncodeTo f []) = kEncodedLength /\
  footer_DecodeFrom (footer_EncodeTo f [] ++ rest) = Done (OK, Some f, rest).
Proof.
  intros Hm Hi. split; [|by apply footer_decode].
  by rewrite footer_EncodeTo_eq, size_app, size_resize.
Qed.

Lemma footer_roundtrip_witness :
  let f := mk_footer (mk_handle 300 8) (mk_handle 0 70000) in
  size (footer_EncodeTo f []) = kEncodedLength /\
  footer_DecodeFrom (footer_EncodeTo f [] ++ [x01]) = Done (OK, Some f, [x01]).
Proof. apply footer_roundtrip; unfold handle_ok; cbn; lia. Defined.

(** [Footer::EncodeTo] does not append: it resizes the whole string, so its
    result takes [kEncodedLength] bytes whatever stood in the destination, and the
    size the code asserts is that of an empty destination only. *)
Theorem footer_not_appended f dst :
  size (footer_EncodeTo f dst) = kEncodedLength /\
  (size (footer_EncodeTo f dst) = size dst + kEncodedLength <-> dst = []).
Proof.
  assert (size (footer_EncodeTo f dst) = kEncodedLength) as ->
    by (by rewrite footer_EncodeTo_eq, size_app, size_resize).
  split; [done|]. split; [|by intros ->]. intros E. destruct dst; [done|].
  unfold size in E. cbn [length] in E. lia.
Qed.

(** * Blocks are read back *)

(** A block on disk: its contents, the type and the checksum of both. *)
Definition block_on_disk (payload : list byte) (type : Z) : list byte :=
  payload ++ [z2b type] ++ EncodeFixed32 (Mask (Value (payload ++ [z2b type]))).

Section ReadBack.
Context {S : Snappy} {laws : SnappyLaws S} {F : Type} `{GoodRandomAccess F}.

(** [payload], of type [type], stands for [raw]. *)
Definition stored_as (raw payload : list byte) (type : Z) : Prop :=
  (type = kNoCompression /\ payload = raw) \/
  (type = kSnappyCompression /\ snappy_compress raw = Some payload).

Lemma size_block_on_disk payload type : size (block_on_disk payload type) = size payload + kBlockTrailerSize.
Proof. unfold block_on_disk. rewrite !size_app, size_EncodeFixed32. unfold kBlockTrailerSize, size. cbn. lia. Qed.

(** The parts of a block on disk. *)
Lemma block_parts payload type :
  let bs := block_on_disk payload type in
  read_at bs (size payload) 1 = Done [z2b type] /\
  read_at bs (size payload + 1) 4 = Done (EncodeFixed32 (Mask (Value (payload ++ [z2b type])))) /\
  read_at bs 0 (size payload + 1) = Done (payload ++ [z2b type]) /\
  take (Z.to_nat (size payload)) bs = payload.
Proof.
  cbv zeta. unfold block_on_disk. set (crc := EncodeFixed32 _). split; [|split; [|split]].
  - apply (read_at_app payload [z2b type] crc).
  - assert (size payload + 1 = size (payload ++ [z2b type])) as -> by (by rewrite size_app).
    replace 4 with (size crc) by (by apply size_EncodeFixed32).
    pose proof (read_at_app (payload ++ [z2b type]) crc []) as E. by rewrite app_nil_r, <- app_assoc in E.
  - assert (size payload + 1 = size (payload ++ [z2b type])) as -> by (by rewrite size_app).
    pose proof (read_at_app [] (payload ++ [z2b type]) crc) as E. cbn [app] in E. by rewrite <- app_assoc in E.
  - apply take_size_app.
Qed.

Lemma ReadBlock_ok (file : F) verify h pre post raw payload type :
  ra_bytes file = pre ++ block_on_disk payload type ++ post -> stored_as raw payload type ->
  offset_ h = size pre -> size_ h = size payload -> size payload + kBlockTrailerSize < 2 ^ 63 ->
  exists cachable heap, ReadBlock file verify h = Done (OK, mk_contents raw cachable heap).
Proof.
  intros Eb Hst Ho Hn Hsz. pose proof (size_nonneg payload). unfold kBlockTrailerSize in Hsz.
  destruct (block_parts payload type) as (P1 & P2 & P3 & P4).
  pose proof (size_block_on_disk payload type) as Hd. unfold kBlockTrailerSize in Hd.
  unfold ReadBlock, kBlockTrailerSize. rewrite Ho, Hn, u64_small by lia.
  assert (fst (RARead file (size pre) (size payload + 5)) = (OK, block_on_disk payload type)) as Er.
  { rewrite RARead_eq; [|apply size_nonneg|lia|].
    - by rewrite Eb, drop_size_app, <- Hd, take_size_app.
    - rewrite Eb, !size_app, Hd. pose proof (size_nonneg post). lia. }
  destruct (RARead file (size pre) (size payload + 5)) as [[s bs] in_buf]. cbn [fst] in Er.
  injection Er as -> ->. cbn [ok OK negb]. rewrite Hd, Z.eqb_refl. cbn [negb].
  rewrite !sx_small, (u64_small (size payload + 1)) by lia. rewrite P2, P3, !run_bind_done.
  pose proof (DecodeFixed32_app (Mask (Value (payload ++ [z2b type]))) []) as Ec.
  rewrite app_nil_r in Ec. rewrite Ec, u32_small by apply Mask_bound.
  rewrite Unmask_Mask, Z.eqb_refl by apply Value_bound. cbn [negb].
  assert ((if verify then Done false else Done false) = Done false) as -> by (by destruct verify).
  rewrite run_bind_done, P1, run_bind_done, P4. cbn [nth].
  destruct Hst as [[-> ->]|[-> Hc]]; rewrite b2z_z2b_small by (unfold kNoCompression, kSnappyCompression; lia).
  - by eexists _, _.
  - change (kSnappyCompression =? kNoCompression) with false. rewrite Z.eqb_refl.
    destruct (snappy_roundtrip raw payload Hc) as [-> ->]. rewrite Z.eqb_refl. by eexists _, _.
Qed.

(** A block written with its trailer is read back by its handle, compressed or
    not, with or without verification of the checksum. *)
Theorem read_block_correct (file : F) verify h pre post raw payload type :
  ra_bytes file = pre ++ block_on_disk payload type ++ post -> stored_as raw payload type ->
  offset_ h = size pre -> size_ h = size payload -> size payload + kBlockTrailerSize < 2 ^ 63 ->
  exists cachable heap, ReadBlock file verify h = Done (OK, mk_contents raw cachable heap).
Proof. apply ReadBlock_ok. Qed.
End ReadBack.

Lemma read_block_correct_witness :
  exists cachable heap,
    ReadBlock (S := no_snappy) ([x07] ++ block_on_disk [x61; x62] 0 ++ [x08]) true (mk_handle 1 2)
    = Done (OK, mk_contents [x61; x62] cachable heap).
Proof.
  apply (read_block_correct (S := no_snappy) (laws := no_snappy_laws) ([x07] ++ block_on_disk [x61; x62] 0 ++ [x08])
    true (mk_handle 1 2) [x07] [x08] [x61; x62] [x61; x62] 0);
    [reflexivity | by left | reflexivity..].
Defined.

Section AnyFile.
Context {S : Snappy} {laws : SnappyLaws S} {F : Type} `{RandomAccessFile F}.

(** With verification a block is returned only if its checksum matches: whatever
    the file returns, reading a block ends, inside what was returned; when the
    status is OK, the bytes returned are some contents, a type and the masked
    CRC-32C of both, and the block is these contents, uncompressed if the type
    says so.  The size in the handle has to leave room for the trailer. *)
Theorem read_block_checked (file : F) h :
  0 <= size_ h -> size_ h + kBlockTrailerSize < 2 ^ 63 ->
  exists s r, ReadBlock file true h = Done (s, r) /\
    (ok s = true ->
     exists payload t crc,
       snd (fst (RARead file (offset_ h) (size_ h + kBlockTrailerSize))) = payload ++ [t] ++ crc /\
       size payload = size_ h /\ size crc = 4 /\
       Unmask (DecodeFixed32 crc) = Value (payload ++ [t]) /\
       (b2z t = kNoCompression /\ bc_data r = payload \/
        b2z t = kSnappyCompression /\ snappy_uncompress payload = Some (bc_data r))).
Proof.
  unfold kBlockTrailerSize. intros H0 Hsz. unfold ReadBlock, kBlockTrailerSize. rewrite u64_small by lia.
  destruct (RARead file (offset_ h) (size_ h + 5)) as [[s bs] in_buf]. cbn [fst snd].
  destruct (ok s) eqn:Es; cbn [negb]; [|by eexists _, _; split; [reflexivity|]; rewrite Es].
  destruct (Z.eqb_spec (size bs) (size_ h + 5)) as [Hbs|]; cbn [negb]; [|by eexists _, _; split; [reflexivity|]].
  assert (exists payload t crc, bs = payload ++ [t] ++ crc /\ size payload = size_ h /\ size crc = 4)
    as (payload & t & crc & -> & Hp & Hcrc).
  { exists (take (Z.to_nat (size_ h)) bs). destruct (drop (Z.to_nat (size_ h)) bs) as [|t crc] eqn:Ed.
    - pose proof (size_drop_Z (size_ h) bs H0) as Hd. rewrite Ed in Hd. unfold size at 1 in Hd. cbn in Hd. lia.
    - exists t, crc. cbn [app]. rewrite <- Ed, take_drop. split; [done|]. split; [rewrite size_take; lia|].
      pose proof (size_drop_Z (size_ h) bs H0) as Hd. rewrite Ed in Hd.
      unfold size in *. cbn [length] in Hd. lia. }
  rewrite !sx_small, (u64_small (size_ h + 1)) by lia. rewrite <- Hp.
  assert (size payload + 1 = size (payload ++ [t])) as E1 by (by rewrite size_app).
  pose proof (read_at_app (payload ++ [t]) crc []) as R1. rewrite app_nil_r, <- app_assoc, Hcrc in R1.
  pose proof (read_at_app [] (payload ++ [t]) crc) as R2. cbn [app] in R2. rewrite <- app_assoc in R2.
  pose proof (read_at_app payload [t] crc) as R3. change (size [t]) with 1 in R3. cbn [app] in *.
  rewrite E1, R1, run_bind_done. change (size []) with 0 in R2. rewrite R2, !run_bind_done.
  destruct (Z.eqb_spec (Value (payload ++ [t])) (Unmask (DecodeFixed32 crc))) as [Ec|]; cbn [negb];
    [|by eexists _, _; split; [reflexivity|]].
  rewrite R3, run_bind_done. cbn [nth]. rewrite take_size_app.
  destruct (Z.eqb_spec (b2z t) kNoCompression) as [Et|_].
  { eexists _, _. split; [reflexivity|]. intros _. exists payload, t, crc. by split_and!; [..|left]. }
  destruct (Z.eqb_spec (b2z t) kSnappyCompression) as [Et|_]; [|by eexists _, _; split; [reflexivity|]].
  destruct (snappy_length payload) as [n|] eqn:El; [|by eexists _, _; split; [reflexivity|]].
  destruct (snappy_uncompress payload) as [x|] eqn:Eu; [|by eexists _, _; split; [reflexivity|]].
  rewrite (snappy_size x payload n Eu El), Z.eqb_refl.
  eexists _, _. split; [reflexivity|]. intros _. exists payload, t, crc. by split_and!; [..|right].
Qed.
End AnyFile.

Lemma read_block_checked_witness :
  exists s r, ReadBlock (S := no_snappy) [x61; x00; x00; x00; x00; x00] true (mk_handle 0 1) = Done (s, r) /\
    ok s = false.
Proof.
  destruct (read_block_checked (S := no_snappy) (laws := no_snappy_laws) [x61; x00; x00; x00; x00; x00] (mk_handle 0 1))
    as (s & r & E & _); [discriminate | reflexivity |].
  exists s, r. split; [exact E|]. revert E. vm_compute. intros [= <- _]. reflexivity.
Defined.

(** The size in a handle is not checked: with a size of [2 ^ 64 - 5] the length to
    read wraps around to zero, a file that returns no bytes passes the test, and the type
    of the block is read before the buffer. *)
Theorem read_block_wraps {S : Snappy} :
  ReadBlock (F := list byte) [] false (mk_handle 0 (2 ^ 64 - 5)) = OutOfBounds.
Proof. reflexivity. Qed.
