(* ===== verification/LdbTableBuilder.v ===== *)
(** leveldb: writing tables (table/table_builder.cc).

    A table file is the data blocks, each with its trailer, the filter block, the
    metaindex block, the index block and the footer.  [table_bytes] is that layout as
    a function of the entries; [table_built]: the builder writes exactly it. *)

From S2P Require Import Prelude Leb128 LdbCoding LdbCrc LdbStatus LdbFormat LdbIterator LdbBlock.
From S2P Require Import LdbBloom LdbTableFormat.
Open Scope Z_scope.

(** The options a table uses, the comparator and the file apart; [filter_policy]: its
    name and its operations. *)
Record Options := mk_options {
  block_size : Z;
  block_restart_interval : Z;
  compression : Z;
  filter_policy : option (list byte * FilterPolicy);
  paranoid_checks : bool;
}.

Section Builder.
Context {comparator : Comparator} {S : Snappy} {F : Type} `{WritableFile F}.

(** [TableBuilder::Rep].  The index block's options are the builder's but for a
    restart interval of one; [filter_block] has the policy it was made with;
    [compressed_output] is empty between calls. *)
Record TableBuilder := mk_tb {
  tb_options : Options;
  tb_file : F;
  tb_offset : Z;
  tb_status : Status;
  tb_data_block : BlockBuilder;
  tb_index_block : BlockBuilder;
  tb_last_key : list byte;
  tb_num_entries : Z;
  tb_closed : bool;
  tb_filter_block : option (FilterPolicy * FilterBlockBuilder);
  tb_pending_index_entry : bool;
  tb_pending_handle : BlockHandle;
}.

Definition index_restart_interval : Z := 1.

Definition new_TableBuilder (options : Options) (file : F) : TableBuilder :=
  mk_tb options file 0 OK new_BlockBuilder new_BlockBuilder [] 0 false
    (match filter_policy options with
     | None => None
     | Some (_, policy) => Some (policy, StartBlock (policy := policy) new_FilterBlockBuilder 0)
     end) false new_BlockHandle.

Definition set_file_status (r : TableBuilder) (file : F) (s : Status) : TableBuilder :=
  mk_tb (tb_options r) file (tb_offset r) s (tb_data_block r) (tb_index_block r) (tb_last_key r)
    (tb_num_entries r) (tb_closed r) (tb_filter_block r) (tb_pending_index_entry r) (tb_pending_handle r).
Definition set_offset (r : TableBuilder) (offset : Z) : TableBuilder :=
  mk_tb (tb_options r) (tb_file r) offset (tb_status r) (tb_data_block r) (tb_index_block r) (tb_last_key r)
    (tb_num_entries r) (tb_closed r) (tb_filter_block r) (tb_pending_index_entry r) (tb_pending_handle r).
Definition set_data_block (r : TableBuilder) (b : BlockBuilder) : TableBuilder :=
  mk_tb (tb_options r) (tb_file r) (tb_offset r) (tb_status r) b (tb_index_block r) (tb_last_key r)
    (tb_num_entries r) (tb_closed r) (tb_filter_block r) (tb_pending_index_entry r) (tb_pending_handle r).
Definition set_filter_block (r : TableBuilder) (fb : option (FilterPolicy * FilterBlockBuilder)) : TableBuilder :=
  mk_tb (tb_options r) (tb_file r) (tb_offset r) (tb_status r) (tb_data_block r) (tb_index_block r) (tb_last_key r)
    (tb_num_entries r) (tb_closed r) fb (tb_pending_index_entry r) (tb_pending_handle r).
Definition set_pending (r : TableBuilder) (pending : bool) (handle : BlockHandle) : TableBuilder :=
  mk_tb (tb_options r) (tb_file r) (tb_offset r) (tb_status r) (tb_data_block r) (tb_index_block r) (tb_last_key r)
    (tb_num_entries r) (tb_closed r) (tb_filter_block r) pending handle.
Definition set_index_block (r : TableBuilder) (b : BlockBuilder) (last_key : list byte) : TableBuilder :=
  mk_tb (tb_options r) (tb_file r) (tb_offset r) (tb_status r) (tb_data_block r) b last_key
    (tb_num_entries r) (tb_closed r) (tb_filter_block r) (tb_pending_index_entry r) (tb_pending_handle r).
Definition set_entries (r : TableBuilder) (last_key : list byte) (num : Z) : TableBuilder :=
  mk_tb (tb_options r) (tb_file r) (tb_offset r) (tb_status r) (tb_data_block r) (tb_index_block r) last_key
    num (tb_closed r) (tb_filter_block r) (tb_pending_index_entry r) (tb_pending_handle r).
Definition set_closed (r : TableBuilder) : TableBuilder :=
  mk_tb (tb_options r) (tb_file r) (tb_offset r) (tb_status r) (tb_data_block r) (tb_index_block r) (tb_last_key r)
    (tb_num_entries r) true (tb_filter_block r) (tb_pending_index_entry r) (tb_pending_handle r).

Definition tb_ok (r : TableBuilder) : bool := ok (tb_status r).

(** The comparators are compared as pointers. *)
Definition ChangeOptions (r : TableBuilder) (options : Options) (same_comparator : bool)
  : Status * TableBuilder :=
  if negb same_comparator
  then (InvalidArgument (cstr "changing comparator while building table") [], r)
  else (OK, mk_tb options (tb_file r) (tb_offset r) (tb_status r) (tb_data_block r) (tb_index_block r)
              (tb_last_key r) (tb_num_entries r) (tb_closed r) (tb_filter_block r)
              (tb_pending_index_entry r) (tb_pending_handle r)).

Definition WriteRawBlock (r : TableBuilder) (block_contents : list byte) (type : Z)
  : BlockHandle * TableBuilder :=
  let handle := mk_handle (tb_offset r) (size block_contents) in
  let '(s, file) := Append (tb_file r) block_contents in
  let r := set_file_status r file s in
  if ok s then
    let crc := Value block_contents in
    let crc := Extend crc 0 [z2b type] in
    let trailer := [z2b type] ++ EncodeFixed32 (Mask crc) in
    let '(s, file) := Append (tb_file r) trailer in
    let r := set_file_status r file s in
    if ok s
    then (handle, set_offset r (u64 (tb_offset r + u64 (size block_contents + kBlockTrailerSize))))
    else (handle, r)
  else (handle, r).

(** What stands for the block on disk, and its type. *)
Definition compress_block (type : Z) (raw : list byte) : list byte * Z :=
  if type =? kNoCompression then (raw, type)
  else if type =? kSnappyCompression then
    match snappy_compress raw with
    | Some compressed =>
        if size compressed <? size raw - size raw / 8 then (compressed, type)
        else (raw, kNoCompression)
    | None => (raw, kNoCompression)
    end
  else ([], type).

(** The handle, the builder, and the block after its [Reset]. *)
Definition WriteBlock (r : TableBuilder) (block : BlockBuilder) : BlockHandle * TableBuilder * BlockBuilder :=
  let '(raw, block) := bb_Finish block in
  let '(block_contents, type) := compress_block (compression (tb_options r)) raw in
  let '(handle, r) := WriteRawBlock r block_contents type in
  (handle, r, bb_Reset block).

Definition tb_Flush (r : TableBuilder) : TableBuilder :=
  if negb (tb_ok r) then r
  else if bb_empty (tb_data_block r) then r
  else
    let '(handle, r, block) := WriteBlock r (tb_data_block r) in
    let r := set_pending (set_data_block r block) (tb_pending_index_entry r) handle in
    let r :=
      if tb_ok r then
        let r := set_pending r true (tb_pending_handle r) in
        let '(s, file) := Flush (tb_file r) in set_file_status r file s
      else r in
    match tb_filter_block r with
    | Some (policy, fb) => set_filter_block r (Some (policy, StartBlock (policy := policy) fb (tb_offset r)))
    | None => r
    end.

Definition tb_Add (r : TableBuilder) (key value : list byte) : TableBuilder :=
  if negb (tb_ok r) then r
  else
    let r :=
      if tb_pending_index_entry r then
        let last_key := FindShortestSeparator (tb_last_key r) key in
        let handle_encoding := handle_EncodeTo (tb_pending_handle r) [] in
        let r := set_index_block r
          (bb_Add index_restart_interval (tb_index_block r) last_key handle_encoding) last_key in
        set_pending r false (tb_pending_handle r)
      else r in
    let r :=
      match tb_filter_block r with
      | Some (policy, fb) => set_filter_block r (Some (policy, AddKey fb key))
      | None => r
      end in
    let r := set_entries r key (tb_num_entries r + 1) in
    let r := set_data_block r (bb_Add (block_restart_interval (tb_options r)) (tb_data_block r) key value) in
    if bb_CurrentSizeEstimate (tb_data_block r) >=? block_size (tb_options r) then tb_Flush r else r.

(** The four parts of [Finish] after the flush. *)
Definition finish_filter (r : TableBuilder) : BlockHandle * TableBuilder :=
  if tb_ok r then
    match tb_filter_block r with
    | Some (policy, fb) => WriteRawBlock r (Finish (policy := policy) fb) kNoCompression
    | None => (new_BlockHandle, r)
    end
  else (new_BlockHandle, r).

(** [filter_block_name]: [options.filter_policy->Name()], a null pointer when the
    options were changed to have no policy. *)
Definition finish_metaindex (r : TableBuilder) (filter_block_handle : BlockHandle)
  : run (BlockHandle * TableBuilder) :=
  if tb_ok r then
    meta_index_block ←
      match tb_filter_block r with
      | Some _ =>
          match filter_policy (tb_options r) with
          | Some (name, _) =>
              Done (bb_Add (block_restart_interval (tb_options r)) new_BlockBuilder
                      (cstr "filter." ++ name) (handle_EncodeTo filter_block_handle []))
          | None => OutOfBounds
          end
      | None => Done new_BlockBuilder
      end;
    let '(handle, r, _) := WriteBlock r meta_index_block in Done (handle, r)
  else Done (new_BlockHandle, r).

Definition finish_index (r : TableBuilder) : BlockHandle * TableBuilder :=
  if tb_ok r then
    let r :=
      if tb_pending_index_entry r then
        let last_key := FindShortSuccessor (tb_last_key r) in
        let handle_encoding := handle_EncodeTo (tb_pending_handle r) [] in
        let r := set_index_block r
          (bb_Add index_restart_interval (tb_index_block r) last_key handle_encoding) last_key in
        set_pending r false (tb_pending_handle r)
      else r in
    let '(handle, r, block) := WriteBlock r (tb_index_block r) in
    (handle, set_index_block r block (tb_last_key r))
  else (new_BlockHandle, r).

Definition finish_footer (r : TableBuilder) (metaindex index : BlockHandle) : TableBuilder :=
  if tb_ok r then
    let footer_encoding := footer_EncodeTo (mk_footer metaindex index) [] in
    let '(s, file) := Append (tb_file r) footer_encoding in
    let r := set_file_status r file s in
    if ok s then set_offset r (u64 (tb_offset r + size footer_encoding)) else r
  else r.

Definition tb_Finish (r : TableBuilder) : run (Status * TableBuilder) :=
  let r := set_closed (tb_Flush r) in
  let '(filter_block_handle, r) := finish_filter r in
  '(metaindex_block_handle, r) ← finish_metaindex r filter_block_handle;
  let '(index_block_handle, r) := finish_index r in
  let r := finish_footer r metaindex_block_handle index_block_handle in
  Done (tb_status r, r).

Definition tb_Abandon (r : TableBuilder) : TableBuilder := set_closed r.
Definition tb_NumEntries (r : TableBuilder) : Z := u64 (tb_num_entries r).
Definition tb_FileSize (r : TableBuilder) : Z := tb_offset r.
End Builder.
Arguments TableBuilder F : clear implicits.

(** * Reference: the layout of a table *)

Section Layout.
Context {comparator : Comparator} {S : Snappy} (o : Options).

#[local] Abbreviation kv := (list byte * list byte)%type.

Definition builder_of (b : list kv) : BlockBuilder := add_entries (block_restart_interval o) b new_BlockBuilder.
Definition raw_of (b : BlockBuilder) : list byte := fst (bb_Finish b).

(** The bytes on disk of a raw block, and the size in its handle. *)
Definition disk (raw : list byte) : list byte :=
  let '(payload, type) := compress_block (compression o) raw in block_on_disk payload type.
Definition handle_at (offset : Z) (raw : list byte) : BlockHandle :=
  mk_handle offset (size (fst (compress_block (compression o) raw))).

(** The entries of each data block: a block ends when its estimated size reaches
    [block_size]. *)
Fixpoint split_blocks (cur kvs : list kv) : list (list kv) :=
  match kvs with
  | [] => match cur with [] => [] | _ => [cur] end
  | e :: kvs =>
      if bb_CurrentSizeEstimate (builder_of (cur ++ [e])) >=? block_size o
      then (cur ++ [e]) :: split_blocks [] kvs else split_blocks (cur ++ [e]) kvs
  end.

Definition raw_block (b : list kv) : list byte := raw_of (builder_of b).
Definition data_bytes (blocks : list (list kv)) : list byte := concat (map (fun b => disk (raw_block b)) blocks).

Definition first_key (b : list kv) : list byte := match b with [] => [] | e :: _ => fst e end.
Definition last_key (b : list kv) : list byte := match list.last b with None => [] | Some e => fst e end.

(** The key of a block's index entry: between the block and the next key, or above
    the last block. *)
Definition separator (b : list kv) (next : option (list byte)) : list byte :=
  match next with
  | Some k => FindShortestSeparator (last_key b) k
  | None => FindShortSuccessor (last_key b)
  end.

(** The index entries of blocks from an offset on; [next]: the key after them. *)
Fixpoint index_entries (offset : Z) (blocks : list (list kv)) (next : option (list byte)) : list kv :=
  match blocks with
  | [] => []
  | b :: blocks =>
      (separator b (match blocks with [] => next | b' :: _ => Some (first_key b') end),
       handle_EncodeTo (handle_at offset (raw_block b)) []) ::
      index_entries (offset + size (disk (raw_block b))) blocks next
  end.

(** The keys of each block with its offset, and the end of the data. *)
Fixpoint filter_groups (offset : Z) (blocks : list (list kv)) (cur : list kv) : list (Z * list (list byte)) :=
  match blocks with
  | [] => [(offset, map fst cur)]
  | b :: blocks => (offset, map fst b) :: filter_groups (offset + size (disk (raw_block b))) blocks cur
  end.

Definition filter_builder (policy : FilterPolicy) (blocks : list (list kv)) (cur : list kv) : FilterBlockBuilder :=
  fold_left (add_block (policy := policy)) (filter_groups 0 blocks cur) new_FilterBlockBuilder.

Definition filter_bytes (blocks : list (list kv)) : list byte :=
  match filter_policy o with
  | None => []
  | Some (_, policy) => Finish (policy := policy) (filter_builder policy blocks [])
  end.

(** What precedes the metaindex block. *)
Definition body_bytes (blocks : list (list kv)) : list byte :=
  data_bytes blocks ++
  match filter_policy o with None => [] | Some _ => block_on_disk (filter_bytes blocks) kNoCompression end.

Definition meta_raw (blocks : list (list kv)) : list byte :=
  raw_of (builder_of (match filter_policy o with
    | None => []
    | Some (name, _) =>
        [(cstr "filter." ++ name,
          handle_EncodeTo (mk_handle (size (data_bytes blocks)) (size (filter_bytes blocks))) [])]
    end)).

Definition index_raw (blocks : list (list kv)) : list byte :=
  raw_of (add_entries index_restart_interval (index_entries 0 blocks None) new_BlockBuilder).

Definition meta_handle (blocks : list (list kv)) : BlockHandle :=
  handle_at (size (body_bytes blocks)) (meta_raw blocks).
Definition index_handle (blocks : list (list kv)) : BlockHandle :=
  handle_at (size (body_bytes blocks ++ disk (meta_raw blocks))) (index_raw blocks).

Definition blocks_bytes (blocks : list (list kv)) : list byte :=
  body_bytes blocks ++ disk (meta_raw blocks) ++ disk (index_raw blocks) ++
  footer_EncodeTo (mk_footer (meta_handle blocks) (index_handle blocks)) [].

Definition table_bytes (kvs : list kv) : list byte := blocks_bytes (split_blocks [] kvs).

(** ** Facts of the layout *)

Lemma data_bytes_snoc blocks b : data_bytes (blocks ++ [b]) = data_bytes blocks ++ disk (raw_block b).
Proof. unfold data_bytes. rewrite map_app, concat_app. cbn [map concat]. by rewrite app_nil_r. Qed.

Lemma last_key_snoc b e : last_key (b ++ [e]) = fst e.
Proof. unfold last_key. by rewrite list.last_snoc. Qed.

Lemma first_key_snoc b e : b <> [] -> first_key (b ++ [e]) = first_key b.
Proof. by destruct b. Qed.

Lemma index_entries_snoc offset blocks b next :
  index_entries offset (blocks ++ [b]) next =
  index_entries offset blocks (Some (first_key b)) ++
  [(separator b next, handle_EncodeTo (handle_at (offset + size (data_bytes blocks)) (raw_block b)) [])].
Proof.
  revert offset; induction blocks as [|b0 blocks IH]; intros offset; cbn [index_entries app].
  { unfold data_bytes. cbn. by rewrite Z.add_0_r. }
  rewrite IH. unfold data_bytes. cbn [map concat]. rewrite size_app, Z.add_assoc.
  by destruct blocks.
Qed.

Lemma filter_groups_snoc offset blocks b :
  filter_groups offset (blocks ++ [b]) [] =
  filter_groups offset blocks b ++ [(offset + size (data_bytes (blocks ++ [b])), [])].
Proof.
  revert offset; induction blocks as [|b0 blocks IH]; intros offset; cbn [filter_groups app].
  { unfold data_bytes. cbn. by rewrite app_nil_r. }
  rewrite IH. unfold data_bytes. cbn [map concat app]. rewrite size_app. by rewrite Z.add_assoc.
Qed.

Lemma filter_groups_cur offset blocks cur e :
  exists pre, filter_groups offset blocks cur = pre ++ [(offset + size (data_bytes blocks), map fst cur)] /\
    filter_groups offset blocks (cur ++ [e]) =
      pre ++ [(offset + size (data_bytes blocks), map fst cur ++ [fst e])].
Proof.
  revert offset; induction blocks as [|b0 blocks IH]; intros offset; cbn [filter_groups].
  { exists []. unfold data_bytes. cbn. by rewrite Z.add_0_r, map_app. }
  destruct (IH (offset + size (disk (raw_block b0)))) as (pre & -> & ->).
  exists ((offset, map fst b0) :: pre). unfold data_bytes. cbn [map concat app]. rewrite size_app.
  by rewrite Z.add_assoc.
Qed.

Lemma filter_builder_add policy blocks cur e :
  filter_builder policy blocks (cur ++ [e]) = AddKey (filter_builder policy blocks cur) (fst e).
Proof.
  unfold filter_builder. destruct (filter_groups_cur 0 blocks cur e) as (pre & -> & ->).
  rewrite !fold_left_app. cbn [fold_left]. unfold add_block. cbn [fst snd]. by rewrite fold_left_app.
Qed.

Lemma filter_builder_flush policy blocks b :
  filter_builder policy (blocks ++ [b]) [] =
  StartBlock (policy := policy) (filter_builder policy blocks b) (size (data_bytes (blocks ++ [b]))).
Proof. unfold filter_builder. rewrite filter_groups_snoc, fold_left_app. reflexivity. Qed.
End Layout.

(** * The builder writes the layout *)

(** The fields of a builder after assignments. *)
Ltac fields :=
  cbn [tb_options tb_file tb_offset tb_status tb_data_block tb_index_block tb_last_key tb_num_entries
    tb_closed tb_filter_block tb_pending_index_entry tb_pending_handle set_file_status set_offset set_data_block
    set_filter_block set_pending set_index_block set_entries set_closed].

(** [compression] is an enum of two values. *)
Definition known_compression (o : Options) : Prop :=
  compression o = kNoCompression \/ compression o = kSnappyCompression.

Lemma compress_stored {S : Snappy} o raw : known_compression o ->
  let '(payload, type) := compress_block (compression o) raw in stored_as raw payload type.
Proof.
  unfold compress_block. intros [-> | ->]; [by left|]. change (kSnappyCompression =? kNoCompression) with false.
  rewrite Z.eqb_refl. destruct (snappy_compress raw) as [y|] eqn:E; [|by left].
  destruct (_ <? _); [by right | by left].
Qed.

Section Written.
Context {comparator : Comparator} {S : Snappy} {F : Type} `{GoodWritable F}.
Context (o : Options) (known : known_compression o).
#[local] Abbreviation kv := (list byte * list byte)%type.
Implicit Type r : TableBuilder F.

(** After the entries of [done], flushed, and of [cur], in the data block. *)
Record tb_inv (blocks : list (list kv)) (cur : list kv) r : Prop := {
  ti_options : tb_options r = o;
  ti_file : contents (tb_file r) = data_bytes o blocks;
  ti_offset : tb_offset r = size (data_bytes o blocks);
  ti_status : tb_status r = OK;
  ti_data : tb_data_block r = builder_of o cur;
  ti_pending : tb_pending_index_entry r = match cur, blocks with [], _ :: _ => true | _, _ => false end;
  ti_index : match cur with
    | [] => match list.last blocks with
            | None => tb_index_block r = new_BlockBuilder
            | Some b => exists before, blocks = before ++ [b] /\ tb_last_key r = last_key b /\
                tb_pending_handle r = handle_at o (size (data_bytes o before)) (raw_block o b) /\
                tb_index_block r =
                  add_entries index_restart_interval (index_entries o 0 before (Some (first_key b))) new_BlockBuilder
            end
    | _ => tb_last_key r = last_key cur /\ tb_index_block r =
             add_entries index_restart_interval (index_entries o 0 blocks (Some (first_key cur))) new_BlockBuilder
    end;
  ti_filter : tb_filter_block r = match filter_policy o with
    | None => None | Some (_, policy) => Some (policy, filter_builder o policy blocks cur) end;
}.

Lemma new_tb_inv f : contents f = [] -> tb_inv [] [] (new_TableBuilder o f).
Proof.
  intros Hf. split; done.
Qed.

Lemma WriteRawBlock_ok r payload type :
  tb_offset r = size (contents (tb_file r)) ->
  0 <= type < 256 ->
  size (contents (tb_file r) ++ block_on_disk payload type) < 2 ^ 64 ->
  exists file, contents file = contents (tb_file r) ++ block_on_disk payload type /\
    WriteRawBlock r payload type =
    (mk_handle (tb_offset r) (size payload), set_offset (set_file_status r file OK) (size (contents file))).
Proof.
  intros Ho Ht Hs. rewrite size_app, size_block_on_disk in Hs. unfold WriteRawBlock.
  pose proof (size_nonneg payload). pose proof (size_nonneg (contents (tb_file r))).
  destruct (Append (tb_file r) payload) as [s1 f1] eqn:E1.
  pose proof (Append_ok (tb_file r) payload) as Ho1. pose proof (Append_contents (tb_file r) payload) as Hc1.
  rewrite E1 in Ho1, Hc1. cbn [fst snd] in Ho1, Hc1. subst s1. cbn [ok OK tb_file set_file_status].
  rewrite Extend_Value. set (trailer := [z2b type] ++ _).
  destruct (Append f1 trailer) as [s2 f2] eqn:E2.
  pose proof (Append_ok f1 trailer) as Ho2. pose proof (Append_contents f1 trailer) as Hc2.
  rewrite E2 in Ho2, Hc2. cbn [fst snd] in Ho2, Hc2. subst s2. cbn [ok OK].
  assert (contents f2 = contents (tb_file r) ++ block_on_disk payload type) as Ec.
  { rewrite Hc2, Hc1, <- app_assoc. done. }
  exists f2. split; [done|]. f_equal. unfold set_offset, set_file_status. cbn. f_equal.
  rewrite Ec, size_app, size_block_on_disk, Ho. unfold kBlockTrailerSize in *.
  rewrite (u64_small (size payload + 5)), u64_small by lia. lia.
Qed.

Lemma compress_type raw : 0 <= snd (compress_block (compression o) raw) < 256.
Proof.
  pose proof (compress_stored o raw known) as Hs. destruct (compress_block _ raw) as [payload type].
  destruct Hs as [[-> _]|[-> _]]; cbn; unfold kNoCompression, kSnappyCompression; lia.
Qed.

Lemma WriteBlock_ok r block :
  tb_options r = o -> tb_offset r = size (contents (tb_file r)) ->
  size (contents (tb_file r) ++ disk o (raw_of block)) < 2 ^ 64 ->
  exists file, contents file = contents (tb_file r) ++ disk o (raw_of block) /\
    WriteBlock r block =
    (handle_at o (tb_offset r) (raw_of block), set_offset (set_file_status r file OK) (size (contents file)),
     new_BlockBuilder).
Proof.
  intros Hopt Ho Hs. unfold WriteBlock. rewrite Hopt.
  change (bb_Finish block) with (raw_of block, snd (bb_Finish block)). cbv iota beta.
  unfold disk, handle_at in *. pose proof (compress_type (raw_of block)) as Ht.
  destruct (compress_block (compression o) (raw_of block)) as [payload type]. cbn [fst snd] in *.
  destruct (WriteRawBlock_ok r payload type Ho Ht Hs) as (file & Ec & ->).
  by exists file.
Qed.

Lemma add_nonempty interval b k v : bb_empty (bb_Add interval b k v) = false.
Proof.
  unfold bb_empty, empty, bb_Add. destruct (if bb_counter b <? interval then _ else _) as [[shared restarts] counter].
  cbn [bb_buffer]. unfold PutVarint32. rewrite !size_app.
  pose proof (size_nonneg (bb_buffer b)). pose proof (size_nonneg (drop shared k)). pose proof (size_nonneg v).
  assert (forall x, 1 <= size (EncodeVarint32 x)) as Hv.
  { intros x. unfold EncodeVarint32. repeat split_if; cbv; discriminate. }
  pose proof (Hv (u32 (Z.of_nat shared))). pose proof (Hv (u32 (size k - Z.of_nat shared))). pose proof (Hv (u32 (size v))).
  apply Z.eqb_neq. lia.
Qed.

Lemma builder_snoc cur e : builder_of o (cur ++ [e]) = bb_Add (block_restart_interval o) (builder_of o cur) (fst e) (snd e).
Proof. unfold builder_of, add_entries. by rewrite fold_left_app. Qed.

Lemma builder_nonempty cur : cur <> [] -> bb_empty (builder_of o cur) = false.
Proof.
  intros Hc. destruct cur as [|e cur _] using rev_ind; [done|]. rewrite builder_snoc. apply add_nonempty.
Qed.

Lemma Flush_inv blocks cur r :
  tb_inv blocks cur r -> cur <> [] -> size (data_bytes o (blocks ++ [cur])) < 2 ^ 64 ->
  tb_inv (blocks ++ [cur]) [] (tb_Flush r).
Proof.
  intros Hi Hc Hs. rewrite data_bytes_snoc in Hs. unfold tb_Flush, tb_ok. rewrite (ti_status _ _ _ Hi). cbn [ok OK negb].
  rewrite (ti_data _ _ _ Hi), builder_nonempty by done.
  destruct (WriteBlock_ok r (builder_of o cur)) as (file & Ef & ->).
  { apply Hi. } { by rewrite (ti_file _ _ _ Hi), (ti_offset _ _ _ Hi). } { by rewrite (ti_file _ _ _ Hi). }
  rewrite (ti_file _ _ _ Hi) in Ef. change (raw_of (builder_of o cur)) with (raw_block o cur) in *.
  rewrite <- data_bytes_snoc in Ef.
  cbn [set_pending set_data_block set_offset set_file_status tb_status ok OK tb_file].
  destruct (Flush file) as [s2 f2] eqn:E2.
  pose proof (Flush_ok file) as Ho2. pose proof (Flush_contents file) as Hc2.
  rewrite E2 in Ho2, Hc2. cbn [fst snd] in Ho2, Hc2. subst s2.
  pose proof (ti_index _ _ _ Hi) as Hix. destruct cur as [|e cur]; [done|]. set (b := e :: cur) in *.
  destruct Hix as [Hlk Hix]. fields. rewrite (ti_filter _ _ _ Hi).
  destruct (filter_policy o) as [[name policy]|] eqn:Ep; split;
    fields; try done; try apply Hi; try congruence; try (by destruct blocks);
    try (rewrite list.last_snoc; exists blocks; rewrite (ti_offset _ _ _ Hi); done);
    try (rewrite Ep; done).
  - by rewrite Ep, filter_builder_flush, Ef.
  - by rewrite (ti_filter _ _ _ Hi), Ep.
Qed.

Lemma Add_inv blocks cur r e :
  tb_inv blocks cur r ->
  ((bb_CurrentSizeEstimate (builder_of o (cur ++ [e])) >=? block_size o) = true ->
   size (data_bytes o (blocks ++ [cur ++ [e]])) < 2 ^ 64) ->
  if bb_CurrentSizeEstimate (builder_of o (cur ++ [e])) >=? block_size o
  then tb_inv (blocks ++ [cur ++ [e]]) [] (tb_Add r (fst e) (snd e))
  else tb_inv blocks (cur ++ [e]) (tb_Add r (fst e) (snd e)).
Proof.
  intros Hi Hs. unfold tb_Add, tb_ok. rewrite (ti_status _ _ _ Hi). cbn [ok OK negb].
  set (r1 := if tb_pending_index_entry r then _ else r).
  set (r2 := match tb_filter_block r1 with Some _ => _ | None => _ end).
  set (r3 := set_data_block _ _).
  assert (tb_inv blocks (cur ++ [e]) r3) as Hi3.
  { assert (tb_options r1 = o /\ tb_file r1 = tb_file r /\ tb_offset r1 = tb_offset r /\ tb_status r1 = OK /\
      tb_data_block r1 = builder_of o cur /\ tb_filter_block r1 = tb_filter_block r) as (E1 & E2 & E3 & E4 & E5 & E6).
    { unfold r1. destruct (tb_pending_index_entry r); cbn; split_and!; try done; apply Hi. }
    assert (tb_pending_index_entry r1 = false /\ tb_index_block r1 =
      add_entries index_restart_interval (index_entries o 0 blocks (Some (first_key (cur ++ [e])))) new_BlockBuilder)
      as [E7 E8].
    { pose proof (ti_pending _ _ _ Hi) as Hp. pose proof (ti_index _ _ _ Hi) as Hix. unfold r1. rewrite Hp.
      destruct cur as [|e0 cur].
      - destruct blocks as [|b blocks] using rev_ind; [by cbn in *|clear IHblocks].
        rewrite list.last_snoc in Hix. destruct Hix as (before & Eb & Hlk & Hh & Hix).
        apply app_inj_tail in Eb as [<- _]. 
        assert (match blocks ++ [b] with [] => false | _ :: _ => true end = true) as -> by (by destruct blocks).
        cbn [tb_pending_index_entry set_pending set_index_block tb_index_block]. split; [done|].
        rewrite Hix, Hlk, Hh, index_entries_snoc. unfold add_entries. rewrite fold_left_app. done.
      - rewrite first_key_snoc by done. split; [exact Hp|]. apply Hix. }
    assert (tb_options r2 = o /\ tb_file r2 = tb_file r /\ tb_offset r2 = tb_offset r /\ tb_status r2 = OK /\
      tb_data_block r2 = builder_of o cur /\ tb_pending_index_entry r2 = false /\ tb_index_block r2 = tb_index_block r1)
      as (G1 & G2 & G3 & G4 & G5 & G6 & G7).
    { unfold r2. destruct (tb_filter_block r1) as [[policy fb]|]; fields; split_and!; try done. }
    split; unfold r3; fields.
    - done.
    - rewrite G2. apply Hi.
    - rewrite G3. apply Hi.
    - done.
    - by rewrite G1, G5, builder_snoc.
    - rewrite G6. by destruct cur.
    - destruct (cur ++ [e]) as [|x y] eqn:Ec; [by destruct cur|]. rewrite <- Ec in E8 |- *.
      by rewrite last_key_snoc, G7, E8.
    - pose proof (ti_filter _ _ _ Hi) as Hfi. rewrite <- E6 in Hfi. unfold r2. rewrite Hfi.
      destruct (filter_policy o) as [[name policy]|]; [|exact Hfi].
      fields. by rewrite filter_builder_add. }
  rewrite (ti_options _ _ _ Hi3), (ti_data _ _ _ Hi3).
  destruct (_ >=? block_size o); [|done]. apply Flush_inv; [done|by destruct cur|auto].
Qed.

(** The last data block, when it has entries. *)
Definition last_block (cur : list kv) : list (list kv) := match cur with [] => [] | _ => [cur] end.

Lemma data_bytes_prefix blocks more : size (data_bytes o blocks) <= size (data_bytes o (blocks ++ more)).
Proof.
  unfold data_bytes. rewrite map_app, concat_app, size_app.
  pose proof (size_nonneg (concat (map (fun b => disk o (raw_block o b)) more))). lia.
Qed.

Lemma Add_all kvs : forall blocks cur r, tb_inv blocks cur r ->
  size (data_bytes o (blocks ++ split_blocks o cur kvs)) < 2 ^ 64 ->
  exists blocks' cur', blocks ++ split_blocks o cur kvs = blocks' ++ last_block cur' /\
    tb_inv blocks' cur' (fold_left (fun r e => tb_Add r (fst e) (snd e)) kvs r).
Proof.
  induction kvs as [|e kvs IH]; intros blocks cur r Hi Hs; cbn [fold_left].
  { by exists blocks, cur. }
  cbn [split_blocks] in *. pose proof (Add_inv blocks cur r e Hi) as Ha.
  destruct (bb_CurrentSizeEstimate (builder_of o (cur ++ [e])) >=? block_size o).
  - assert ((blocks ++ [cur ++ [e]]) ++ split_blocks o [] kvs = blocks ++ (cur ++ [e]) :: split_blocks o [] kvs)
      as Eb by by rewrite <- app_assoc.
    rewrite <- Eb in Hs |- *. apply IH; [|done]. apply Ha. intros _.
    eapply Z.le_lt_trans; [apply data_bytes_prefix|exact Hs].
  - apply IH; [|done]. by apply Ha.
Qed.

Lemma Flush_last blocks cur r :
  tb_inv blocks cur r -> size (data_bytes o (blocks ++ last_block cur)) < 2 ^ 64 ->
  tb_inv (blocks ++ last_block cur) [] (tb_Flush r).
Proof.
  intros Hi Hs. destruct cur as [|e cur]; [|by apply Flush_inv].
  cbn [last_block]. rewrite app_nil_r. unfold tb_Flush, tb_ok. rewrite (ti_status _ _ _ Hi), (ti_data _ _ _ Hi). exact Hi.
Qed.

(** A builder with its options whose file holds [bytes]. *)
Definition wrote (bytes : list byte) r : Prop :=
  tb_options r = o /\ contents (tb_file r) = bytes /\ tb_offset r = size bytes /\ tb_status r = OK.

Lemma wrote_raw bytes r payload type :
  wrote bytes r -> 0 <= type < 256 -> size (bytes ++ block_on_disk payload type) < 2 ^ 64 ->
  exists r', WriteRawBlock r payload type = (mk_handle (size bytes) (size payload), r') /\
    wrote (bytes ++ block_on_disk payload type) r' /\
    exists file n, r' = set_offset (set_file_status r file OK) n.
Proof.
  intros (E1 & E2 & E3 & E4) Ht Hs. destruct (WriteRawBlock_ok r payload type) as (file & Ec & ->); [congruence|done|congruence|].
  eexists. rewrite E3. split; [done|]. split; [|by eexists _, _]. unfold wrote. fields. rewrite <- E2, <- Ec. done.
Qed.

Lemma wrote_block bytes r block :
  wrote bytes r -> size (bytes ++ disk o (raw_of block)) < 2 ^ 64 ->
  exists r', WriteBlock r block = (handle_at o (size bytes) (raw_of block), r', new_BlockBuilder) /\
    wrote (bytes ++ disk o (raw_of block)) r' /\
    exists file n, r' = set_offset (set_file_status r file OK) n.
Proof.
  intros (E1 & E2 & E3 & E4) Hs. destruct (WriteBlock_ok r block) as (file & Ec & ->); [congruence|congruence|congruence|].
  eexists. rewrite E3. split; [done|]. split; [|by eexists _, _]. unfold wrote. fields. rewrite <- E2, <- Ec. done.
Qed.

(** The end of a table after its data blocks. *)
Lemma finish_filter_ok blocks r :
  tb_inv blocks [] r -> size (body_bytes o blocks) < 2 ^ 64 ->
  exists h r', finish_filter (set_closed r) = (h, r') /\ wrote (body_bytes o blocks) r' /\
    (filter_policy o <> None -> h = mk_handle (size (data_bytes o blocks)) (size (filter_bytes o blocks))) /\
    exists file n, r' = set_offset (set_file_status (set_closed r) file OK) n.
Proof.
  intros Hi Hs. unfold finish_filter, tb_ok. fields. rewrite (ti_status _ _ _ Hi), (ti_filter _ _ _ Hi). cbn [ok OK].
  assert (wrote (data_bytes o blocks) (set_closed r)) as Hw by (split_and!; apply Hi).
  unfold body_bytes, filter_bytes in *. destruct (filter_policy o) as [[name policy]|].
  - destruct (wrote_raw _ _ (Finish (filter_builder o policy blocks [])) kNoCompression Hw) as (r' & -> & Hw' & Hr');
      [unfold kNoCompression; lia|done|].
    by eexists _, r'.
  - eexists _, _. split; [done|]. rewrite app_nil_r. split; [done|]. split; [done|].
    exists (tb_file r), (tb_offset r). destruct r. pose proof (ti_status _ _ _ Hi) as Hst. cbn in Hst. by rewrite Hst.
Qed.

Lemma finish_metaindex_ok blocks r h :
  wrote (body_bytes o blocks) r -> tb_filter_block r = match filter_policy o with
    | None => None | Some (_, policy) => Some (policy, filter_builder o policy blocks []) end ->
  (filter_policy o <> None -> h = mk_handle (size (data_bytes o blocks)) (size (filter_bytes o blocks))) ->
  size (body_bytes o blocks ++ disk o (meta_raw o blocks)) < 2 ^ 64 ->
  exists r', finish_metaindex r h = Done (meta_handle o blocks, r') /\
    wrote (body_bytes o blocks ++ disk o (meta_raw o blocks)) r' /\
    exists file n, r' = set_offset (set_file_status r file OK) n.
Proof.
  intros Hw Hf Hh Hs. unfold finish_metaindex, tb_ok. rewrite Hf. destruct Hw as (E1 & Hw).
  rewrite E1. destruct Hw as (E2 & E3 & E4). rewrite E4. cbn [ok OK].
  assert (match match filter_policy o with
            | None => None | Some (_, policy) => Some (policy, filter_builder o policy blocks []) end with
    | Some _ => match filter_policy o with
      | Some (name, _) => Done (bb_Add (block_restart_interval o) new_BlockBuilder
                      (cstr "filter." ++ name) (handle_EncodeTo h []))
      | None => OutOfBounds end
    | None => Done new_BlockBuilder end = Done (builder_of o match filter_policy o with
    | None => []
    | Some (name, _) =>
        [(cstr "filter." ++ name,
          handle_EncodeTo (mk_handle (size (data_bytes o blocks)) (size (filter_bytes o blocks))) [])]
    end)) as ->.
  { destruct (filter_policy o) as [[name policy]|]; [|done]. rewrite Hh by done. done. }
  rewrite run_bind_done. edestruct (wrote_block (body_bytes o blocks) r) as (r' & Er & Hw' & Hr'); [done|exact Hs|].
  exists r'. rewrite Er. done.
Qed.

(** The index builder with the entry of the last block added. *)
Lemma finish_index_ok blocks r bytes :
  wrote bytes r ->
  (tb_pending_index_entry r = match blocks with [] => false | _ :: _ => true end /\
   match list.last blocks with
   | None => tb_index_block r = new_BlockBuilder
   | Some b => exists before, blocks = before ++ [b] /\ tb_last_key r = last_key b /\
       tb_pending_handle r = handle_at o (size (data_bytes o before)) (raw_block o b) /\
       tb_index_block r =
         add_entries index_restart_interval (index_entries o 0 before (Some (first_key b))) new_BlockBuilder
   end) ->
  size (bytes ++ disk o (index_raw o blocks)) < 2 ^ 64 ->
  exists r', finish_index r = (handle_at o (size bytes) (index_raw o blocks), r') /\
    wrote (bytes ++ disk o (index_raw o blocks)) r'.
Proof.
  intros Hw [Hp Hix] Hs. unfold finish_index, tb_ok.
  pose proof Hw as (E1 & E2 & E3 & E4). rewrite E4. cbn [ok OK].
  set (r1 := if tb_pending_index_entry r then _ else r).
  assert (wrote bytes r1 /\ tb_index_block r1 = add_entries index_restart_interval (index_entries o 0 blocks None) new_BlockBuilder)
    as [Hw1 Hix1].
  { unfold r1. rewrite Hp. destruct blocks as [|b blocks _] using rev_ind; [done|].
    rewrite list.last_snoc in Hix. destruct Hix as (before & Eb & Hlk & Hh & Hix).
    apply app_inj_tail in Eb as [<- _].
    assert (match blocks ++ [b] with [] => false | _ :: _ => true end = true) as -> by (by destruct blocks).
    split; [done|]. fields. rewrite Hix, Hlk, Hh, index_entries_snoc. unfold add_entries. by rewrite fold_left_app. }
  destruct (wrote_block bytes r1 (tb_index_block r1) Hw1) as (r' & -> & Hw' & _).
  { rewrite Hix1. exact Hs. }
  rewrite Hix1 in Hw' |- *. eexists. split; [reflexivity|]. exact Hw'.
Qed.

Lemma finish_footer_ok bytes r metaindex index :
  wrote bytes r -> size (bytes ++ footer_EncodeTo (mk_footer metaindex index) []) < 2 ^ 64 ->
  wrote (bytes ++ footer_EncodeTo (mk_footer metaindex index) []) (finish_footer r metaindex index).
Proof.
  intros (E1 & E2 & E3 & E4) Hs. unfold finish_footer, tb_ok. rewrite E4. cbn [ok OK].
  set (footer := footer_EncodeTo _ []) in *.
  destruct (Append (tb_file r) footer) as [s f] eqn:E.
  pose proof (Append_ok (tb_file r) footer) as Ho. pose proof (Append_contents (tb_file r) footer) as Hc.
  rewrite E in Ho, Hc. cbn [fst snd] in Ho, Hc. subst s. cbn [ok OK]. unfold wrote. fields.
  rewrite size_app in *. pose proof (size_nonneg bytes). pose proof (size_nonneg footer).
  rewrite E3, u64_small, Hc, E2 by lia. done.
Qed.

Lemma Finish_ok blocks cur r :
  tb_inv blocks cur r -> size (blocks_bytes o (blocks ++ last_block cur)) < 2 ^ 64 ->
  exists r', tb_Finish r = Done (OK, r') /\ wrote (blocks_bytes o (blocks ++ last_block cur)) r'.
Proof.
  intros Hi Hs. set (bs := blocks ++ last_block cur) in *.
  unfold blocks_bytes in *. rewrite (app_assoc (body_bytes o bs)), (app_assoc _ (disk o (index_raw o bs))) in *.
  assert (forall x y, size (x ++ y) < 2 ^ 64 -> size x < 2 ^ 64) as Hpre.
  { intros x y. rewrite size_app. pose proof (size_nonneg y). lia. }
  pose proof (Hpre _ _ Hs) as Hs3. pose proof (Hpre _ _ Hs3) as Hs2. pose proof (Hpre _ _ Hs2) as Hs1.
  assert (size (data_bytes o bs) < 2 ^ 64) as Hs0 by (eapply Hpre, Hs1).
  pose proof (Flush_last _ _ _ Hi Hs0) as Hf. fold bs in Hf. unfold tb_Finish.
  destruct (finish_filter_ok _ _ Hf Hs1) as (h & r1 & -> & Hw1 & Hh & f1 & n1 & ->).
  destruct (finish_metaindex_ok bs _ h Hw1 (ti_filter _ _ _ Hf) Hh Hs2) as (r2 & -> & Hw2 & f2 & n2 & ->).
  rewrite run_bind_done.
  destruct (finish_index_ok bs _ _ Hw2) as (r3 & E3 & Hw3); [|exact Hs3|].
  { split; [apply Hf|apply Hf]. }
  cbv iota beta. rewrite E3. fold (index_handle o bs).
  pose proof (finish_footer_ok _ _ (meta_handle o bs) (index_handle o bs) Hw3 Hs) as Hw4.
  eexists. split; [|exact Hw4]. by rewrite (proj2 (proj2 (proj2 Hw4))).
Qed.

Lemma build_ok kvs f :
  contents f = [] -> size (table_bytes o kvs) < 2 ^ 64 ->
  exists r, tb_Finish (fold_left (fun r e => tb_Add r (fst e) (snd e)) kvs (new_TableBuilder o f)) = Done (OK, r) /\
    wrote (table_bytes o kvs) r.
Proof.
  intros Hf Hs. unfold table_bytes in *.
  destruct (Add_all kvs [] [] (new_TableBuilder o f) (new_tb_inv f Hf)) as (blocks & cur & E & Hi).
  { unfold blocks_bytes, body_bytes in Hs. rewrite !size_app in Hs. cbn [app].
    eapply Z.le_lt_trans; [|exact Hs].
    repeat match goal with |- context[size ?x] => lazymatch goal with H : 0 <= size x |- _ => fail | _ => pose proof (size_nonneg x) end end. lia. }
  cbn [app] in E. rewrite E in *. by apply Finish_ok.
Qed.

(** C27: building a table.  On a file that is empty and accepts every write, adding the
    entries one by one and finishing gives OK; the file then holds exactly the layout
    [table_bytes] of the entries (data blocks cut where the size estimate reaches the
    block size, filter, metaindex, index with a separator and the handle of each block,
    footer), and [FileSize] is its length. *)
Theorem table_built (kvs : list kv) (f : F) :
  contents f = [] -> size (table_bytes o kvs) < 2 ^ 64 ->
  exists r, tb_Finish (fold_left (fun r e => tb_Add r (fst e) (snd e)) kvs (new_TableBuilder o f)) = Done (OK, r) /\
    contents (tb_file r) = table_bytes o kvs /\ tb_FileSize r = size (table_bytes o kvs).
Proof.
  intros Hf Hs. destruct (build_ok kvs f Hf Hs) as (r & -> & _ & Hc & Ho & _). by exists r.
Qed.
End Written.

Definition demo_policy : FilterPolicy := bloom_policy (new_BloomFilterPolicy 10).
Definition demo_options : Options :=
  mk_options 20 16 kNoCompression (Some (cstr "demo", demo_policy)) true.
Definition demo_entries : list (list byte * list byte) :=
  [([x61], [x01]); ([x61; x62], [x02; x03]); ([x64], []); ([x65; x65], [x04])].

Lemma table_built_witness :
  exists r, @tb_Finish BytewiseComparator no_snappy _ _
      (fold_left (fun r e => @tb_Add BytewiseComparator no_snappy _ _ r (fst e) (snd e)) demo_entries
        (new_TableBuilder demo_options [])) = Done (OK, r) /\
    contents (tb_file r) = @table_bytes BytewiseComparator no_snappy demo_options demo_entries /\
    tb_FileSize r = size (@table_bytes BytewiseComparator no_snappy demo_options demo_entries).
Proof.
  apply table_built; [by left | done | vm_compute; reflexivity].
Defined.

(** * Errors *)

Section Errors.
Context {comparator : Comparator} {S : Snappy} {F : Type} `{WritableFile F}.

(** After an error nothing more is written. *)
Lemma stopped (r : TableBuilder F) key value :
  tb_ok r = false ->
  tb_Add r key value = r /\ tb_Flush r = r /\ tb_Finish r = Done (tb_status r, set_closed r).
Proof.
  intros Hok. assert (tb_Flush r = r) as Hf by (unfold tb_Flush; by rewrite Hok).
  split; [unfold tb_Add; by rewrite Hok|]. split; [done|].
  assert (tb_ok (set_closed r) = false) as Hc by exact Hok.
  unfold tb_Finish, finish_filter. rewrite Hf, Hc. cbv iota beta. unfold finish_metaindex. rewrite Hc, run_bind_done.
  unfold finish_index. rewrite Hc. unfold finish_footer. by rewrite Hc.
Qed.

Lemma stopped_all kvs (r : TableBuilder F) :
  tb_ok r = false -> fold_left (fun r e => tb_Add r (fst e) (snd e)) kvs r = r.
Proof.
  intros Hok. induction kvs as [|e kvs IH]; [done|]. cbn [fold_left]. by rewrite (proj1 (stopped r _ _ Hok)).
Qed.

(** An error is final: once a write has failed, adding entries and flushing change
    nothing, and [Finish] writes nothing and returns the error. *)
Theorem table_error_final (r : TableBuilder F) kvs :
  tb_ok r = false ->
  fold_left (fun r e => tb_Add r (fst e) (snd e)) kvs r = r /\ tb_Flush r = r /\
  tb_Finish r = Done (tb_status r, set_closed r).
Proof.
  intros Hok. split; [by apply stopped_all|]. by apply (stopped r [] []).
Qed.
End Errors.

Lemma table_error_final_witness :
  let r := set_file_status (new_TableBuilder demo_options ([] : list byte)) [] (IOError (cstr "disk full") []) in
  fold_left (fun r e => @tb_Add BytewiseComparator no_snappy _ _ r (fst e) (snd e)) demo_entries r = r /\
  @tb_Flush no_snappy _ _ r = r /\
  @tb_Finish BytewiseComparator no_snappy _ _ r = Done (IOError (cstr "disk full") [], set_closed r).
Proof. cbv zeta. apply table_error_final. reflexivity. Defined.

Section Changed.
Context {comparator : Comparator} {S : Snappy} {F : Type} `{GoodWritable F}.
Implicit Type r : TableBuilder F.

(** A builder without error, with a filter block but no policy in its options. *)
Definition unnamed r : Prop :=
  tb_status r = OK /\ (tb_filter_block r <> None) /\ filter_policy (tb_options r) = None.

Lemma WriteRawBlock_unnamed r payload type : unnamed r -> unnamed (snd (WriteRawBlock r payload type)).
Proof.
  intros (E1 & E2 & E3). unfold WriteRawBlock.
  pose proof (Append_ok (tb_file r) payload) as Ho1. destruct (Append (tb_file r) payload) as [s1 f1].
  cbn [fst] in Ho1. subst s1. cbn [ok OK set_file_status tb_file].
  set (trailer := [z2b type] ++ _). pose proof (Append_ok f1 trailer) as Ho2.
  destruct (Append f1 trailer) as [s2 f2]. cbn [fst] in Ho2. subst s2. by split_and!.
Qed.

Lemma Flush_unnamed r : unnamed r -> unnamed (tb_Flush r).
Proof.
  intros Hu. unfold tb_Flush. destruct (negb (tb_ok r)); [done|]. destruct (bb_empty (tb_data_block r)); [done|].
  unfold WriteBlock. destruct (bb_Finish (tb_data_block r)) as [raw b].
  destruct (compress_block _ raw) as [payload type]. pose proof (WriteRawBlock_unnamed r payload type Hu) as Hw.
  destruct (WriteRawBlock r payload type) as [h r1]. cbn [snd] in Hw. destruct Hw as (E1 & E2 & E3).
  fields. unfold tb_ok. fields. rewrite E1. cbn [ok OK].
  pose proof (Flush_ok (tb_file r1)) as Ho. destruct (Flush (tb_file r1)) as [s f]. cbn [fst] in Ho. subst s.
  fields. unfold unnamed. by destruct (tb_filter_block r1) as [[policy fb]|].
Qed.

(** [ChangeOptions] checks the comparator only: dropping the filter policy is
    accepted while the builder keeps its filter block, and [Finish] then reads the name
    of a null policy. *)
Theorem change_options_null_policy r options :
  tb_status r = OK -> tb_filter_block r <> None -> filter_policy options = None ->
  fst (ChangeOptions r options true) = OK /\
  tb_Finish (snd (ChangeOptions r options true)) = OutOfBounds.
Proof.
  intros E1 E2 E3. split; [done|]. unfold ChangeOptions. cbn [negb snd]. set (r1 := mk_tb options _ _ _ _ _ _ _ _ _ _ _).
  assert (unnamed (set_closed (tb_Flush r1))) as Hu by (apply Flush_unnamed; by split_and!).
  unfold tb_Finish. set (r2 := set_closed _) in *. unfold finish_filter, tb_ok.
  rewrite (proj1 Hu). cbn [ok OK]. destruct (tb_filter_block r2) as [[policy fb]|] eqn:Ef; [|by destruct Hu as (_ & [] & _)].
  pose proof (WriteRawBlock_unnamed r2 (Finish fb) kNoCompression Hu) as Hw.
  destruct (WriteRawBlock r2 _ _) as [h r3]. cbn [snd] in Hw. destruct Hw as (G1 & G2 & G3).
  unfold finish_metaindex, tb_ok. rewrite G1, G3. cbn [ok OK]. by destruct (tb_filter_block r3).
Qed.
End Changed.

Lemma change_options_null_policy_witness :
  let r := new_TableBuilder demo_options ([] : list byte) in
  let options := mk_options 20 16 kNoCompression None true in
  fst (ChangeOptions r options true) = OK /\
  @tb_Finish BytewiseComparator no_snappy _ _ (snd (ChangeOptions r options true)) = OutOfBounds.
Proof. cbv zeta. by apply change_options_null_policy. Defined.
