(* ===== verification/LdbTable.v ===== *)
(** leveldb: reading tables (table/table.cc).

    A table is opened on a file of which a builder wrote [table_bytes]; its blocks are
    read through an optional block cache, the class [Cache] of LdbCache.

    [table_iterator_correct]: the iterator of the table is a cursor over the entries
    the builder was given.  [table_get_correct]: a lookup finds the entry of a key
    that is there, and passes on nothing but the first entry that is not below. *)

From Stdlib Require Import Sorting.Sorted.
From stdpp Require Import sorting.
From S2P Require Import Prelude Leb128 LdbCoding LdbCrc LdbStatus LdbFormat LdbIterator LdbTwoLevel LdbBlock.
From S2P Require Import LdbBloom LdbCache LdbTableFormat LdbTableBuilder.
Open Scope Z_scope.

(** * Tables *)

Record ReadOptions := mk_read_options { verify_checksums : bool; fill_cache : bool }.

Section Table.
Context {comparator : Comparator} {snappy : Snappy} {F C : Type} `{RandomAccessFile F} `{Cache C Block}.

(** [Table::Rep]; the cache, which the options point to, is passed to the operations. *)
Record Table := mk_table {
  t_options : Options;
  t_file : F;
  t_cache_id : Z;
  t_filter : option (FilterPolicy * FilterBlockReader);
  t_metaindex_handle : BlockHandle;
  t_index_block : Block;
}.

Definition ReadFilter (t : Table) (policy : FilterPolicy) (filter_handle_value : list byte) : run Table :=
  match handle_DecodeFrom filter_handle_value with
  | None => Done t
  | Some (filter_handle, _) =>
      '(s, block) ← ReadBlock (t_file t) (paranoid_checks (t_options t)) filter_handle;
      if negb (ok s) then Done t
      else Done (mk_table (t_options t) (t_file t) (t_cache_id t)
                   (Some (policy, new_FilterBlockReader (bc_data block)))
                   (t_metaindex_handle t) (t_index_block t))
  end.

(** The iterator over the metaindex compares bytewise. *)
Definition ReadMeta (t : Table) (footer : Footer) : run Table :=
  match filter_policy (t_options t) with
  | None => Done t
  | Some (name, policy) =>
      '(s, contents) ← ReadBlock (t_file t) (paranoid_checks (t_options t)) (metaindex_handle_ footer);
      if negb (ok s) then Done t
      else
        let bytewise := @block_iterator_iterator BytewiseComparator in
        let meta := new_Block (bc_data contents) in
        let filter_key := cstr "filter." ++ name in
        iter ← @Seek _ bytewise (blk_NewIterator meta) filter_key;
        if @Valid _ bytewise iter then
          k ← @key _ bytewise iter;
          if slice_eqb k filter_key then v ← @value _ bytewise iter; ReadFilter t policy v
          else Done t
        else Done t
  end.

(** The status, the table when it is OK, and the cache.  The footer decodes to a value
    exactly when its status is OK. *)
Definition Open (options : Options) (block_cache : option C) (file : F) (size : Z)
  : run (Status * option Table * option C) :=
  if size <? kEncodedLength
  then Done (Corruption (cstr "file is too short to be an sstable") [], None, block_cache)
  else
    let '(s, footer_input, _) := RARead file (size - kEncodedLength) kEncodedLength in
    if negb (ok s) then Done (s, None, block_cache)
    else
      '(s, decoded, _) ← footer_DecodeFrom footer_input;
      match decoded with
      | None => Done (s, None, block_cache)
      | Some footer =>
          '(s, index_block_contents) ← ReadBlock file (paranoid_checks options) (index_handle_ footer);
          if ok s then
            let '(id, block_cache) :=
              match block_cache with
              | Some cache => let '(id, cache) := cache_NewId cache in (id, Some cache)
              | None => (0, None)
              end in
            t ← ReadMeta (mk_table options file id None (metaindex_handle_ footer)
                            (new_Block (bc_data index_block_contents))) footer;
            Done (s, Some t, block_cache)
          else Done (s, None, block_cache)
      end.

Definition cache_key (cache_id offset : Z) : list byte := EncodeFixed64 cache_id ++ EncodeFixed64 offset.

(** The releases of blocks and of cache handles, which run with the destructor of the
    iterator, are not modelled: blocks are values. *)
Definition BlockReader (t : Table) (options : ReadOptions) (block_cache : option C) (index_value : list byte)
  : run (block_iterator * option C) :=
  match handle_DecodeFrom index_value with
  | None => Done (NoIter (NewErrorIterator bad_handle), block_cache)
  | Some (handle, _) =>
      match block_cache with
      | Some cache =>
          let cache_key := cache_key (t_cache_id t) (offset_ handle) in
          let '(cache_handle, cache) := cache_Lookup cache cache_key in
          match cache_handle with
          | Some block => Done (blk_NewIterator block, Some cache)
          | None =>
              '(s, contents) ← ReadBlock (t_file t) (verify_checksums options) handle;
              if ok s then
                let block := new_Block (bc_data contents) in
                let cache :=
                  if cachable contents && fill_cache options
                  then cache_Insert cache cache_key block (blk_size block) else cache in
                Done (blk_NewIterator block, Some cache)
              else Done (NoIter (NewErrorIterator s), Some cache)
          end
      | None =>
          '(s, contents) ← ReadBlock (t_file t) (verify_checksums options) handle;
          if ok s then Done (blk_NewIterator (new_Block (bc_data contents)), None)
          else Done (NoIter (NewErrorIterator s), None)
      end
  end.

(** The iterator over the table and its operations; [fuel] bounds the steps over empty
    blocks. *)
Definition TableIterator : Type := TwoLevelIterator block_iterator block_iterator (option C).

Definition NewIterator (t : Table) (block_cache : option C) : run TableIterator :=
  NewTwoLevelIterator (blk_NewIterator (t_index_block t)) block_cache.

Definition table_iterator (t : Table) (options : ReadOptions) (fuel : nat) : Iterator TableIterator :=
  two_level_iterator (BlockReader t options) fuel.

(** The status, what [handle_result] is called with, if it is, and the cache. *)
Definition InternalGet (t : Table) (options : ReadOptions) (block_cache : option C) (k : list byte)
  : run (Status * option (list byte * list byte) * option C) :=
  iiter ← Seek (blk_NewIterator (t_index_block t)) k;
  '(s, result, block_cache) ←
    (if Valid iiter then
       handle_value ← value iiter;
       let not_found :=
         match t_filter t with
         | Some (policy, filter) =>
             match handle_DecodeFrom handle_value with
             | Some (handle, _) => negb (block_KeyMayMatch (policy := policy) filter (offset_ handle) k)
             | None => false
             end
         | None => false
         end in
       if (not_found : bool) then Done (OK, None, block_cache)
       else
         index_value ← value iiter;
         '(block_iter, block_cache) ← BlockReader t options block_cache index_value;
         block_iter ← Seek block_iter k;
         result ←
           (if Valid block_iter
            then k' ← key block_iter; v' ← value block_iter; Done (Some (k', v'))
            else Done None);
         Done (status block_iter, result, block_cache)
     else Done (OK, None, block_cache));
  Done (if ok s then status iiter else s, result, block_cache).

Definition ApproximateOffsetOf (t : Table) (key : list byte) : run Z :=
  index_iter ← Seek (blk_NewIterator (t_index_block t)) key;
  if Valid index_iter then
    input ← value index_iter;
    match handle_DecodeFrom input with
    | Some (handle, _) => Done (offset_ handle)
    | None => Done (offset_ (t_metaindex_handle t))
    end
  else Done (offset_ (t_metaindex_handle t)).
End Table.
Arguments Table F : clear implicits.
Arguments TableIterator C : clear implicits.

(** * A table written by the builder *)

Lemma StronglySorted_lookup {A} (R : A -> A -> Prop) (l : list A) :
  (forall i j x y, (i < j)%nat -> l !! i = Some x -> l !! j = Some y -> R x y) -> StronglySorted R l.
Proof.
  induction l as [|x l IH]; intros Hl; [constructor|]. constructor.
  - apply IH. intros i j a b Hij Ha Hb. apply (Hl (S i) (S j)); [lia|done|done].
  - apply list.Forall_forall. intros y [j Hj]%list_elem_of_lookup. by apply (Hl 0%nat (S j)); [lia|..].
Qed.

Section Split.
Context {comparator : Comparator} {snappy : Snappy} (o : Options).
#[local] Abbreviation kv := (list byte * list byte)%type.
Implicit Types (b : list kv) (bs : list (list kv)).

Lemma split_blocks_concat kvs cur : concat (split_blocks o cur kvs) = cur ++ kvs.
Proof.
  revert cur; induction kvs as [|e kvs IH]; intros cur; cbn [split_blocks].
  { destruct cur as [|x cur]; [done|]. cbn [concat]. done. }
  destruct (_ >=? _); cbn [concat]; rewrite IH; [|by rewrite <- app_assoc].
  by rewrite <- app_assoc.
Qed.

Lemma split_blocks_nonempty kvs cur b : b ∈ split_blocks o cur kvs -> b <> [].
Proof.
  revert cur; induction kvs as [|e kvs IH]; intros cur; cbn [split_blocks].
  { destruct cur as [|x cur]; [by intros ?%not_elem_of_nil|]. by intros ->%list_elem_of_singleton. }
  destruct (_ >=? _); [|by apply IH]. rewrite elem_of_cons. intros [-> |Hb]; [by destruct cur|by apply (IH [])].
Qed.

Lemma length_index_entries bs offset next : length (index_entries o offset bs next) = length bs.
Proof. revert offset; induction bs as [|b bs IH]; intros offset; [done|]. cbn [index_entries length]. by rewrite IH. Qed.

(** The key after block [i]. *)
Definition next_key bs (next : option (list byte)) (i : nat) : option (list byte) :=
  match bs !! S i with Some b' => Some (first_key b') | None => next end.

Lemma index_lookup bs next i : forall offset s h,
  index_entries o offset bs next !! i = Some (s, h) ->
  exists b, bs !! i = Some b /\ s = separator b (next_key bs next i) /\
    h = handle_EncodeTo (handle_at o (offset + size (data_bytes o (take i bs))) (raw_block o b)) [].
Proof.
  revert bs; induction i as [|i IH]; intros [|b bs] offset s h; cbn [index_entries]; try done.
  - intros [= <- <-]. exists b. split; [done|]. change (size (data_bytes o (take 0 (b :: bs)))) with 0.
    rewrite Z.add_0_r. split; [|done]. unfold next_key. by destruct bs.
  - intros E. apply IH in E as (b' & Eb & Es & Eh). exists b'. split; [done|]. split.
    + rewrite Es. done.
    + rewrite Eh. do 2 f_equal. unfold data_bytes. cbn [take map concat]. rewrite size_app. lia.
Qed.

(** The block at an offset. *)
Fixpoint block_at (offset : Z) (bs : list (list kv)) (target : Z) : list kv :=
  match bs with
  | [] => []
  | b :: bs => if offset =? target then b else block_at (offset + size (disk o (raw_block o b))) bs target
  end.

Lemma size_disk raw : kBlockTrailerSize <= size (disk o raw).
Proof.
  unfold disk. destruct (compress_block _ raw) as [payload type]. rewrite size_block_on_disk.
  pose proof (size_nonneg payload). lia.
Qed.

Lemma block_at_eq bs i b : forall offset,
  bs !! i = Some b -> block_at offset bs (offset + size (data_bytes o (take i bs))) = b.
Proof.
  revert bs; induction i as [|i IH]; intros [|b0 bs] offset; try done; cbn [block_at take].
  - intros [= ->]. change (size (data_bytes o [])) with 0. by rewrite Z.add_0_r, Z.eqb_refl.
  - intros Eb. unfold data_bytes. cbn [map concat]. fold (data_bytes o (take i bs)). rewrite size_app.
    pose proof (size_disk (raw_block o b0)). pose proof (size_nonneg (data_bytes o (take i bs))).
    unfold kBlockTrailerSize in *.
    rewrite (proj2 (Z.eqb_neq _ _)) by lia. rewrite Z.add_assoc. by apply IH.
Qed.
End Split.

(** What is assumed of the entries and of the options a table is built with: the
    entries are sorted, the sizes fit the fields of the format, and the policy keeps
    its contract for that many keys. *)
Record table_fits {c : Comparator} {snappy : Snappy} (valid : list byte -> Prop) (o : Options)
    (kvs : list (list byte * list byte)) : Prop := {
  tf_compression : known_compression o;
  tf_interval : 1 <= block_restart_interval o < 2 ^ 31;
  tf_entries : Forall kv_fits kvs;
  tf_valid : Forall (fun kv => valid (fst kv)) kvs;
  tf_sorted : StronglySorted (fun a b => Compare (fst a) (fst b) < 0) kvs;
  tf_blocks : Forall (fun b => size (raw_block o b) < 2 ^ 32) (split_blocks o [] kvs);
  tf_index : size (index_raw o (split_blocks o [] kvs)) < 2 ^ 32;
  tf_separators : Forall kv_fits (index_entries o 0 (split_blocks o [] kvs) None);
  tf_meta : size (meta_raw o (split_blocks o [] kvs)) < 2 ^ 32;
  tf_filter : match filter_policy o with
    | None => True
    | Some (name, policy) =>
        size name < 2 ^ 31 /\ size (filter_bytes o (split_blocks o [] kvs)) < 2 ^ 32 /\
        exists limit, FilterPolicyLaws limit policy /\ Z.of_nat (length kvs) <= limit
    end;
  tf_file : size (table_bytes o kvs) < 2 ^ 63;
}.

Section Layout.
Context {c : Comparator} {valid : list byte -> Prop} {laws : ComparatorLaws valid c}.
Context {snappy : Snappy} {slaws : SnappyLaws snappy} {F : Type} `{GoodRandomAccess F}.
Context (o : Options) (kvs : list (list byte * list byte)) (file : F).
Context (fits : table_fits valid o kvs) (Hfile : ra_bytes file = table_bytes o kvs).

#[local] Abbreviation blocks := (split_blocks o [] kvs).
#[local] Abbreviation ix := (index_entries o 0 blocks None).
#[local] Abbreviation offset_of i := (size (data_bytes o (take i blocks))).

(** A block of the file, through its handle. *)
Lemma read_disk pre raw post verify :
  ra_bytes file = pre ++ disk o raw ++ post ->
  handle_ok (handle_at o (size pre) raw) /\
  exists cachable heap, ReadBlock file verify (handle_at o (size pre) raw) = Done (OK, mk_contents raw cachable heap).
Proof.
  intros E. pose proof (tf_file _ _ _ fits) as Hs. rewrite <- Hfile, E, !size_app in Hs.
  pose proof (size_nonneg pre). pose proof (size_nonneg post).
  pose proof (compress_stored o raw (tf_compression _ _ _ fits)) as Hst. unfold disk, handle_at in *.
  destruct (compress_block (compression o) raw) as [payload type].
  rewrite size_block_on_disk in Hs. pose proof (size_nonneg payload). unfold kBlockTrailerSize in Hs. cbn [fst] in *.
  split; [split; cbn; lia|].
  apply (ReadBlock_ok file verify _ pre post raw payload type); try done. unfold kBlockTrailerSize. lia.
Qed.

Lemma file_parts :
  ra_bytes file = body_bytes o blocks ++ disk o (meta_raw o blocks) ++ disk o (index_raw o blocks) ++
    footer_EncodeTo (mk_footer (meta_handle o blocks) (index_handle o blocks)) [].
Proof. exact Hfile. Qed.

Lemma block_in_file i b : blocks !! i = Some b ->
  exists post, ra_bytes file = data_bytes o (take i blocks) ++ disk o (raw_block o b) ++ post.
Proof.
  intros Hb. rewrite file_parts. unfold body_bytes.
  assert (data_bytes o blocks = data_bytes o (take i blocks) ++ disk o (raw_block o b) ++ data_bytes o (drop (S i) blocks)) as ->.
  { rewrite <- (take_drop_middle blocks i b Hb) at 1. unfold data_bytes. rewrite map_app, concat_app. done. }
  eexists. rewrite <- !app_assoc. reflexivity.
Qed.

Lemma read_block i b verify : blocks !! i = Some b ->
  handle_ok (handle_at o (offset_of i) (raw_block o b)) /\
  exists cachable heap, ReadBlock file verify (handle_at o (offset_of i) (raw_block o b)) =
    Done (OK, mk_contents (raw_block o b) cachable heap).
Proof. intros Hb. destruct (block_in_file i b Hb) as [post E]. by apply (read_disk _ _ post). Qed.

(** ** The entries of a handle *)

Definition block_of (h : list byte) : list (list byte * list byte) :=
  match handle_DecodeFrom h with Some (handle, _) => block_at o 0 blocks (offset_ handle) | None => [] end.

Lemma ix_block i s h : ix !! i = Some (s, h) ->
  exists b, blocks !! i = Some b /\ block_of h = b /\ s = separator b (next_key blocks None i) /\
    handle_DecodeFrom h = Some (handle_at o (offset_of i) (raw_block o b), []).
Proof.
  intros E. apply index_lookup in E as (b & Hb & -> & ->). exists b. split; [done|].
  destruct (read_block i b false Hb) as [Hok _]. rewrite Z.add_0_l, handle_EncodeTo_eq.
  assert (handle_DecodeFrom ([] ++ handle_bytes (handle_at o (offset_of i) (raw_block o b))) =
    Some (handle_at o (offset_of i) (raw_block o b), [])) as E.
  { pose proof (handle_decode _ [] Hok) as E. by rewrite app_nil_r in E. }
  split; [|done]. unfold block_of. rewrite E. cbn [handle_at offset_].
  pose proof (block_at_eq o blocks i b 0 Hb) as Eb. by rewrite Z.add_0_l in Eb.
Qed.

Lemma ix_entries : entries block_of (map snd ix) = kvs.
Proof.
  transitivity (concat blocks); [|apply split_blocks_concat]. unfold entries. f_equal.
  apply list_eq. intros i. rewrite map_map, list_lookup_fmap.
  destruct (ix !! i) as [[s h]|] eqn:E; cbn.
  - destruct (ix_block i s h E) as (b & Hb & Eb & _). by rewrite Eb.
  - apply lookup_ge_None in E. rewrite length_index_entries in E. symmetry. by apply lookup_ge_None.
Qed.

Lemma kvs_blocks : concat blocks = kvs.
Proof. apply (split_blocks_concat o kvs []). Qed.

Lemma kvs_split m b : blocks !! m = Some b -> concat (take m blocks) ++ b ++ concat (drop (S m) blocks) = kvs.
Proof.
  intros Hb. rewrite <- kvs_blocks at 3. rewrite <- (take_drop_middle blocks m b Hb) at 3. by rewrite concat_app.
Qed.

Lemma entry_in i b e : blocks !! i = Some b -> e ∈ b -> e ∈ kvs.
Proof.
  intros Hb He. rewrite <- kvs_blocks.
  apply list_elem_of_In, in_concat. exists b. split; apply list_elem_of_In; [|done]. by apply list_elem_of_lookup_2 in Hb.
Qed.

Lemma block_keys i b : blocks !! i = Some b -> Forall (fun kv => valid (fst kv)) b.
Proof.
  intros Hb. apply list.Forall_forall. intros e He. pose proof (tf_valid _ _ _ fits) as Hv.
  rewrite list.Forall_forall in Hv. apply Hv. by apply (entry_in i b).
Qed.

(** Earlier blocks have smaller keys. *)
Lemma blocks_sorted i b : blocks !! i = Some b ->
  StronglySorted (fun a b => Compare (fst a) (fst b) < 0) b /\
  forall i' b' e e', blocks !! i' = Some b' -> (i < i')%nat -> e ∈ b -> e' ∈ b' -> Compare (fst e) (fst e') < 0.
Proof.
  intros Hb. assert (StronglySorted (fun a b => Compare (fst a) (fst b) < 0) (concat blocks)) as Hs
    by (rewrite kvs_blocks; apply fits).
  rewrite <- (take_drop_middle blocks i b Hb), concat_app in Hs. cbn [concat] in Hs.
  apply StronglySorted_app in Hs as (_ & _ & Hs). apply StronglySorted_app in Hs as (Hlt & Hb' & _).
  split; [done|]. intros i' b' e e' Hi' Hlt' He He'. apply (Hlt e e'); [done|].
  apply list_elem_of_In, in_concat. exists b'. split; apply list_elem_of_In; [|done].
  apply list_elem_of_lookup. exists (i' - S i)%nat. rewrite lookup_drop. rewrite <- Hi'. f_equal. lia.
Qed.

(** ** The separators lie between the blocks *)

Lemma last_key_above i b : blocks !! i = Some b ->
  (exists e, e ∈ b /\ last_key b = fst e) /\ forall e, e ∈ b -> Compare (fst e) (last_key b) <= 0.
Proof.
  intros Hb. pose proof (split_blocks_nonempty o kvs [] b (list_elem_of_lookup_2 _ _ _ Hb)) as Hne.
  pose proof (block_keys i b Hb) as Hv. destruct (blocks_sorted i b Hb) as [Hs _].
  destruct b as [|e b _] using rev_ind; [done|]. rewrite last_key_snoc.
  split; [exists e; split; [set_solver|done]|]. intros e' He'. apply elem_of_app in He' as [He'|He'].
  - apply Z.lt_le_incl. apply (StronglySorted_app_1_elem_of _ _ _ _ _ Hs He'). set_solver.
  - apply list_elem_of_singleton in He' as ->. rewrite cmp_refl; [done|].
    apply List.Forall_app in Hv as [_ Hv]. by apply List.Forall_cons_iff in Hv as [Hv _].
Qed.

Lemma first_key_in i b : blocks !! i = Some b -> exists e, e ∈ b /\ first_key b = fst e.
Proof.
  intros Hb. pose proof (split_blocks_nonempty o kvs [] b (list_elem_of_lookup_2 _ _ _ Hb)) as Hne.
  destruct b as [|e b]; [done|]. exists e. split; [left|done].
Qed.

Lemma first_key_below i b e : blocks !! i = Some b -> e ∈ b -> Compare (first_key b) (fst e) <= 0.
Proof.
  intros Hb He. pose proof (block_keys i b Hb) as Hv. destruct (blocks_sorted i b Hb) as [Hs _].
  destruct b as [|e0 b]; [by apply not_elem_of_nil in He|]. cbn [first_key].
  apply elem_of_cons in He as [-> |He].
  - rewrite cmp_refl; [done|]. by apply List.Forall_cons_iff in Hv as [Hv _].
  - apply Z.lt_le_incl. inversion_clear Hs as [|? ? _ Ha]. rewrite list.Forall_forall in Ha. by apply Ha.
Qed.

Lemma key_valid i b e : blocks !! i = Some b -> e ∈ b -> valid (fst e).
Proof. intros Hb. pose proof (block_keys i b Hb) as Hv. rewrite list.Forall_forall in Hv. apply Hv. Qed.

Lemma separator_facts i b : blocks !! i = Some b ->
  let s := separator b (next_key blocks None i) in
  valid s /\ (forall e, e ∈ b -> Compare (fst e) s <= 0) /\
  (forall b', blocks !! S i = Some b' -> Compare s (first_key b') < 0).
Proof.
  intros Hb. destruct (last_key_above i b Hb) as [(l & Hl & El) Habove].
  assert (valid (last_key b)) as Hvl by (rewrite El; by apply (key_valid i b)).
  assert (forall s, valid s -> Compare (last_key b) s <= 0 -> forall e, e ∈ b -> Compare (fst e) s <= 0) as Hup.
  { intros s Hs Hle e He. apply (cmp_trans _ (last_key b)); [by apply (key_valid i b)|done|done|by apply Habove|done]. }
  unfold separator, next_key. destruct (blocks !! S i) as [b'|] eqn:Hb'; cbv zeta.
  - destruct (first_key_in (S i) b' Hb') as (f & Hf & Ef).
    assert (valid (first_key b')) as Hvf by (rewrite Ef; by apply (key_valid (S i) b')).
    assert (Compare (last_key b) (first_key b') < 0) as Hlt.
    { rewrite El, Ef. apply (proj2 (blocks_sorted i b Hb) (S i) b'); [done|lia|done|done]. }
    destruct (sep_between _ _ Hvl Hvf Hlt) as [Hs1 Hs2]. split; [by apply sep_valid|].
    split; [by apply Hup; [apply sep_valid|]|]. by intros b'' [= <-].
  - split; [by apply succ_valid|]. split; [|done]. apply Hup; [by apply succ_valid|by apply succ_above].
Qed.

Lemma separator_below i b i' b' e : blocks !! i = Some b -> blocks !! i' = Some b' -> (i < i')%nat -> e ∈ b' ->
  Compare (separator b (next_key blocks None i)) (fst e) < 0.
Proof.
  intros Hb Hb' Hlt He. destruct (separator_facts i b Hb) as (Hvs & _ & Hbelow).
  destruct (lookup_lt_is_Some_2 blocks (S i)) as [b1 Hb1]; [apply lookup_lt_Some in Hb'; lia|].
  destruct (first_key_in (S i) b1 Hb1) as (f & Hf & Ef).
  assert (valid (first_key b1)) as Hvf by (rewrite Ef; by apply (key_valid (S i) b1)).
  apply (cmp_trans_lt _ (first_key b1)); [done|done|by apply (key_valid i' b')|by apply Hbelow|].
  destruct (decide (i' = S i)) as [-> |Hne].
  - assert (b1 = b') as -> by congruence. by apply (first_key_below (S i)).
  - apply Z.lt_le_incl. rewrite Ef. apply (proj2 (blocks_sorted (S i) b1 Hb1) i' b'); [done|lia|done|done].
Qed.

(** ** Cursors on the blocks *)

Lemma table_block_open i b : blocks !! i = Some b ->
  any_pos valid b (length b) (blk_NewIterator (new_Block (raw_block o b))).
Proof.
  intros Hb. pose proof (list_elem_of_lookup_2 _ _ _ Hb) as Hin.
  destruct (block_cursor (valid := valid) (block_restart_interval o) b) as (pos & Hc & Hp).
  - apply fits.
  - apply list.Forall_forall. intros e He. pose proof (tf_entries _ _ _ fits) as Hf. rewrite list.Forall_forall in Hf.
    apply Hf. by apply (entry_in i b).
  - by apply (block_keys i).
  - by apply (blocks_sorted i).
  - pose proof (tf_blocks _ _ _ fits) as Hf. rewrite list.Forall_forall in Hf. by apply Hf.
  - by exists pos.
Qed.

Lemma ix_sorted : StronglySorted (fun a b => Compare (fst a) (fst b) < 0) ix.
Proof.
  apply StronglySorted_lookup. intros i j [s h] [s' h'] Hij Hi Hj.
  apply ix_block in Hi as (b & Hb & _ & -> & _). apply ix_block in Hj as (b' & Hb' & _ & -> & _). cbn [fst].
  destruct (separator_facts i b Hb) as (Hv & _ & _). destruct (separator_facts j b' Hb') as (Hv' & Habove & _).
  destruct (last_key_above j b' Hb') as [(e & He & _) _].
  apply (cmp_trans_lt _ (fst e)); [done|by apply (key_valid j b')|done|by apply (separator_below i b j b')|by apply Habove].
Qed.

Lemma ix_valid : Forall (fun kv => valid (fst kv)) ix.
Proof.
  apply list.Forall_forall. intros [s h] [i Hi]%list_elem_of_lookup.
  apply ix_block in Hi as (b & Hb & _ & -> & _). apply (separator_facts i b Hb).
Qed.

Lemma open_index : any_pos valid ix (length ix) (blk_NewIterator (new_Block (index_raw o blocks))).
Proof.
  destruct (block_cursor (valid := valid) index_restart_interval ix) as (pos & Hc & Hp).
  - unfold index_restart_interval. lia.
  - apply fits.
  - apply ix_valid.
  - apply ix_sorted.
  - apply fits.
  - by exists pos.
Qed.

(** ** Opened tables *)

(** The table that [Open] gives on the file; the filter may be missing. *)
Record opened (t : Table F) : Prop := {
  op_file : t_file t = file;
  op_index : t_index_block t = new_Block (index_raw o blocks);
  op_metaindex : t_metaindex_handle t = meta_handle o blocks;
  op_filter : t_filter t = None \/ exists name policy, filter_policy o = Some (name, policy) /\
    t_filter t = Some (policy, new_FilterBlockReader (filter_bytes o blocks));
}.

(** *** Opening *)

Lemma read_filter name policy verify : filter_policy o = Some (name, policy) ->
  let h := mk_handle (size (data_bytes o blocks)) (size (filter_bytes o blocks)) in
  handle_ok h /\
  exists cachable heap, ReadBlock file verify h = Done (OK, mk_contents (filter_bytes o blocks) cachable heap).
Proof.
  intros Ef h. pose proof (tf_file _ _ _ fits) as Hs. rewrite <- Hfile in Hs.
  pose proof file_parts as Eb. unfold body_bytes in Eb. rewrite Ef, <- !app_assoc in Eb.
  set (post := disk o (meta_raw o blocks) ++ _) in Eb. rewrite Eb, !size_app, size_block_on_disk in Hs.
  pose proof (size_nonneg (data_bytes o blocks)). pose proof (size_nonneg (filter_bytes o blocks)).
  pose proof (size_nonneg post). unfold kBlockTrailerSize in *. split; [split; cbn; lia|].
  apply (ReadBlock_ok file verify h (data_bytes o blocks) post (filter_bytes o blocks) (filter_bytes o blocks) kNoCompression);
    [exact Eb|by left|done|done|]. unfold kBlockTrailerSize. lia.
Qed.

#[local] Abbreviation meta_entries := (match filter_policy o with
  | None => []
  | Some (name, _) =>
      [(cstr "filter." ++ name,
        handle_EncodeTo (mk_handle (size (data_bytes o blocks)) (size (filter_bytes o blocks))) [])]
  end).

Lemma open_meta :
  @any_pos BytewiseComparator (fun _ => True) _ (@block_iterator_iterator BytewiseComparator) meta_entries
    (length meta_entries) (blk_NewIterator (new_Block (meta_raw o blocks))).
Proof.
  destruct (block_cursor (laws := bytewise_laws) (block_restart_interval o) meta_entries) as (pos & Hc & Hp).
  - apply fits.
  - pose proof (tf_filter _ _ _ fits) as Hf. destruct (filter_policy o) as [[name policy]|] eqn:Ep; [|constructor].
    destruct Hf as (Hn & _ & _). apply list.Forall_singleton. split; cbn [fst snd].
    + rewrite size_app. change (size (cstr "filter.")) with 7. lia.
    + destruct (read_filter name policy false Ep) as [Hok _]. rewrite handle_EncodeTo_eq.
      pose proof (handle_size _ Hok). unfold kMaxEncodedLength in *. cbn [app]. lia.
  - by apply list.Forall_forall.
  - destruct (filter_policy o) as [[name policy]|]; repeat constructor.
  - apply fits.
  - by exists pos.
Qed.

(** A policy is known by its name. *)
Definition same_policy (options : Options) : Prop :=
  forall name p p', filter_policy o = Some (name, p) -> filter_policy options = Some (name, p') -> p' = p.

Lemma ReadMeta_ok t :
  same_policy (t_options t) -> t_file t = file -> t_filter t = None ->
  exists filter, ReadMeta t (mk_footer (meta_handle o blocks) (index_handle o blocks)) =
      Done (mk_table (t_options t) file (t_cache_id t) filter (t_metaindex_handle t) (t_index_block t)) /\
    (filter = None \/ exists name policy, filter_policy o = Some (name, policy) /\
       filter = Some (policy, new_FilterBlockReader (filter_bytes o blocks))).
Proof.
  intros Hsame Hf Hnone. assert (mk_table (t_options t) file (t_cache_id t) None (t_metaindex_handle t) (t_index_block t) = t) as Et
    by (rewrite <- Hf, <- Hnone; by destruct t).
  assert (forall r, r = Done t -> exists filter, r =
      Done (mk_table (t_options t) file (t_cache_id t) filter (t_metaindex_handle t) (t_index_block t)) /\
    (filter = None \/ exists name policy, filter_policy o = Some (name, policy) /\
       filter = Some (policy, new_FilterBlockReader (filter_bytes o blocks)))) as Hskip.
  { intros r ->. exists None. rewrite Et. auto. }
  unfold ReadMeta. destruct (filter_policy (t_options t)) as [[name policy]|] eqn:Ep; [|by apply Hskip].
  rewrite Hf. cbn [metaindex_handle_].
  destruct (read_disk (body_bytes o blocks) (meta_raw o blocks) _ (paranoid_checks (t_options t)) file_parts)
    as [_ (ca & hp & Er)]. unfold meta_handle. rewrite Er, run_bind_done. cbn [ok OK negb bc_data].
  pose proof (@any_cursor BytewiseComparator (fun _ => True) _ (@block_iterator_iterator BytewiseComparator) meta_entries) as cur.
  set (filter_key := cstr "filter." ++ name).
  destruct (cu_seek cur _ _ filter_key open_meta I) as (it & m & -> & Hp & Hl).
  rewrite run_bind_done, (cu_valid cur m it Hp). destruct (Nat.ltb_spec m (length meta_entries)) as [Hm|]; [|by apply Hskip].
  destruct (filter_policy o) as [[name0 policy0]|] eqn:Ep0; [|cbn in Hm; lia].
  cbn [length] in Hm. assert (m = 0%nat) as -> by lia.
  destruct (cu_entry cur 0 it _ _ Hp eq_refl) as [-> ->]. rewrite run_bind_done.
  destruct (slice_eqb (cstr "filter." ++ name0) filter_key) eqn:Ek; [|by apply Hskip].
  apply slice_eqb_eq, app_inv_head in Ek as ->. assert (policy = policy0) as -> by (by apply (Hsame name)).
  destruct (read_filter name policy0 (paranoid_checks (t_options t)) Ep0) as [Hok (ca' & hp' & Er')].
  rewrite run_bind_done. unfold ReadFilter. rewrite handle_EncodeTo_eq. pose proof (handle_decode _ [] Hok) as Ed.
  rewrite app_nil_r in Ed. cbn [app]. rewrite Ed, Hf, Er', run_bind_done. cbn [ok OK negb bc_data].
  eexists. split; [reflexivity|]. right. by exists name, policy0.
Qed.

Context {C : Type} `{CacheLaws C Block}.

Lemma Open_ok options (block_cache : option C) :
  same_policy options ->
  exists t block_cache', Open options block_cache file (size (table_bytes o kvs)) = Done (OK, Some t, block_cache') /\
    opened t /\ t_options t = options /\
    match block_cache with
    | None => block_cache' = None
    | Some cache => block_cache' = Some (snd (cache_NewId cache)) /\ t_cache_id t = fst (cache_NewId cache)
    end.
Proof.
  intros Hsame. set (footer := mk_footer (meta_handle o blocks) (index_handle o blocks)).
  assert (handle_ok (meta_handle o blocks) /\ handle_ok (index_handle o blocks)) as [Hm Hi].
  { split; [by apply (read_disk _ _ _ false file_parts)|].
    apply (read_disk (body_bytes o blocks ++ disk o (meta_raw o blocks)) (index_raw o blocks)
      (footer_EncodeTo footer []) false). by rewrite file_parts, <- app_assoc. }
  assert (size (footer_EncodeTo footer []) = kEncodedLength) as Hfs.
  { rewrite footer_EncodeTo_eq, size_app, size_resize by done. done. }
  set (body := body_bytes o blocks ++ disk o (meta_raw o blocks) ++ disk o (index_raw o blocks)).
  assert (ra_bytes file = body ++ footer_EncodeTo footer []) as Eb by (unfold body; by rewrite file_parts, <- !app_assoc).
  assert (size (table_bytes o kvs) = size body + kEncodedLength) as Es by (by rewrite <- Hfile, Eb, size_app, Hfs).
  pose proof (size_nonneg body). unfold Open. rewrite Es, (proj2 (Z.ltb_ge (size body + kEncodedLength) kEncodedLength)) by lia.
  replace (size body + kEncodedLength - kEncodedLength) with (size body) by lia.
  assert (fst (RARead file (size body) kEncodedLength) = (OK, footer_EncodeTo footer [])) as Er.
  { rewrite RARead_eq; [|done|done|by rewrite Eb, size_app, Hfs].
    rewrite Eb, drop_size_app. f_equal. rewrite <- Hfs. apply take_ge. unfold size. lia. }
  destruct (RARead file (size body) kEncodedLength) as [[st bs] in_buf]. cbn [fst] in Er. injection Er as -> ->.
  cbn [ok OK negb]. pose proof (footer_decode footer [] Hm Hi) as Ed. rewrite app_nil_r in Ed. rewrite Ed, run_bind_done.
  destruct (read_disk (body_bytes o blocks ++ disk o (meta_raw o blocks)) (index_raw o blocks)
    (footer_EncodeTo footer []) (paranoid_checks options)) as [_ (ca & hp & Er)]; [by rewrite file_parts, <- app_assoc|].
  change (index_handle_ footer) with (handle_at o (size (body_bytes o blocks ++ disk o (meta_raw o blocks))) (index_raw o blocks)).
  rewrite Er, run_bind_done. cbn [ok OK bc_data].
  destruct (match block_cache with Some cache => _ | None => _ end) as [id block_cache'] eqn:Eid.
  destruct (ReadMeta_ok (mk_table options file id None (meta_handle o blocks) (new_Block (index_raw o blocks))))
    as (filter & Erm & Hfil); [done|done|done|].
  cbn [t_options t_file t_cache_id t_filter t_metaindex_handle t_index_block] in Erm. fold footer in Erm.
  change (metaindex_handle_ footer) with (meta_handle o blocks). rewrite Erm, run_bind_done. eexists _, _. split; [reflexivity|].
  split; [by split|]. split; [done|]. destruct block_cache as [cache|]; [|by injection Eid as <- <-].
  destruct (cache_NewId cache) as [i cc]. by injection Eid as <- <-.
Qed.

(** *** Blocks and the cache *)

(** What a cache holds under the keys of the table are its blocks. *)
Definition coherent (t : Table F) (block_cache : option C) : Prop :=
  forall cache i b block, block_cache = Some cache -> blocks !! i = Some b ->
    cached cache (cache_key (t_cache_id t) (offset_of i)) block -> block = new_Block (raw_block o b).

Lemma cache_key_inj id a b : 0 <= a < 2 ^ 64 -> 0 <= b < 2 ^ 64 -> cache_key id a = cache_key id b -> a = b.
Proof.
  intros Ha Hb E. unfold cache_key in E. apply app_inj_1 in E as [_ E]; [|by rewrite !length_EncodeFixed64].
  pose proof (DecodeFixed64_app a []) as Ea. pose proof (DecodeFixed64_app b []) as Eb.
  rewrite E in Ea. rewrite Ea, !u64_small in Eb by done. done.
Qed.

Lemma offset_inj i b i' b' : blocks !! i = Some b -> blocks !! i' = Some b' -> offset_of i = offset_of i' -> b = b'.
Proof.
  intros Hb Hb' E. pose proof (block_at_eq o blocks i b 0 Hb) as E1. pose proof (block_at_eq o blocks i' b' 0 Hb') as E2.
  rewrite E in E1. congruence.
Qed.

Lemma BlockReader_ok t options block_cache i s h :
  opened t -> coherent t block_cache -> ix !! i = Some (s, h) ->
  exists it block_cache', BlockReader t options block_cache h = Done (it, block_cache') /\
    coherent t block_cache' /\ any_pos valid (block_of h) (length (block_of h)) it.
Proof.
  intros Ht Hc E. apply ix_block in E as (b & Hb & -> & _ & Ed). pose proof (table_block_open i b Hb) as Hp.
  destruct (read_block i b (verify_checksums options) Hb) as [[Hoff _] (ca & hp & Er)].
  unfold BlockReader. rewrite Ed. cbn [handle_at offset_] in Hoff |- *. rewrite (op_file t Ht), Er.
  destruct block_cache as [cache|]; [|by eexists _, _].
  pose proof (Lookup_cached cache (cache_key (t_cache_id t) (offset_of i))) as Hl.
  pose proof (Lookup_keeps cache (cache_key (t_cache_id t) (offset_of i))) as Hk.
  destruct (cache_Lookup cache (cache_key (t_cache_id t) (offset_of i))) as [[block|] cache1]; cbn [fst snd] in *.
  - assert (block = new_Block (raw_block o b)) as -> by (apply (Hc cache i b block); auto).
    eexists _, _. split; [reflexivity|]. split; [|done]. intros cc i' b' blk [= <-] Hb' Hcd. eapply Hc; eauto.
  - rewrite run_bind_done. eexists _, _. split; [reflexivity|]. split; [|done]. intros cc i' b' blk [= <-] Hb' Hcd.
    cbn [cachable] in Hcd. destruct (ca && fill_cache options); [|by eapply Hc; eauto].
    apply Insert_cached in Hcd as [[Hkey ->]|Hcd]; [|by eapply Hc; eauto].
    apply cache_key_inj in Hkey; [|by apply (read_block i' b' false Hb')|done].
    by rewrite (offset_inj i b i' b' Hb Hb').
Qed.

Lemma table_cursor t options fuel block_cache :
  opened t -> coherent t block_cache -> (length blocks + 2 <= fuel)%nat ->
  exists it pos, NewIterator t block_cache = Done it /\ pos (length kvs) it /\
    @cursor c valid _ (table_iterator t options fuel) kvs pos.
Proof.
  intros Ht Hc Hfuel. unfold NewIterator. rewrite (op_index t Ht).
  assert (forall b s h, ix !! b = Some (s, h) -> cursor valid (block_of h) (any_pos (I := block_iterator) valid (block_of h))) as dcur
    by (intros; apply any_cursor).
  assert (forall a b s h, coherent t a -> ix !! b = Some (s, h) ->
    exists d a' j, BlockReader t options a h = Done (d, a') /\ coherent t a' /\ any_pos valid (block_of h) j d) as opens.
  { intros a b s h Ha E. destruct (BlockReader_ok t options a b s h Ht Ha E) as (d & a' & E1 & E2 & E3). eauto 10. }
  assert (length ix + 2 <= fuel)%nat as Hfuel' by (by rewrite length_index_entries).
  destruct (two_level_ok (BlockReader t options) fuel ix (any_pos (I := block_iterator) valid ix) (any_cursor valid ix) block_of
    (fun h => any_pos valid (block_of h)) (coherent t) dcur opens)
    with (it := blk_NewIterator (new_Block (index_raw o blocks))) (a := block_cache) as (it & pos & E & Hp & Hcur);
    try done.
  - intros i s h E. apply ix_block in E as (b & Hb & _ & -> & _). apply (separator_facts i b Hb).
  - intros i s h kv E Hkv. apply ix_block in E as (b & Hb & Eb & _). rewrite Eb in Hkv. by apply (key_valid i b).
  - intros i s h kv E Hkv. apply ix_block in E as (b & Hb & Eb & -> & _). rewrite Eb in Hkv.
    by apply (separator_facts i b Hb).
  - intros i s h i' s' h' kv E E' Hlt Hkv. apply ix_block in E as (b & Hb & _ & -> & _).
    apply ix_block in E' as (b' & Hb' & Eb' & _). rewrite Eb' in Hkv. by apply (separator_below i b i' b').
  - exact open_index.
  - rewrite ix_entries in Hp, Hcur. by exists it, pos.
Qed.

(** ** Lookups *)

Section Get.
Context (k : list byte) (Hk : valid k) (m : nat) (Hm : lower_bound k ix m).

(** The blocks before the index entry found are below the key, those after it above. *)
Lemma before_below i b e : blocks !! i = Some b -> (i < m)%nat -> e ∈ b -> Compare (fst e) k < 0.
Proof.
  intros Hb Hi He. destruct (lookup_lt_is_Some_2 ix i) as [[s h] E].
  { rewrite length_index_entries. by apply lookup_lt_Some in Hb. }
  pose proof (proj2 (proj2 Hm i _ E) Hi) as Hs. cbn [fst] in Hs. apply ix_block in E as (b' & Hb' & _ & -> & _).
  assert (b' = b) as -> by congruence. destruct (separator_facts i b Hb) as (Hv & Habove & _).
  apply (cmp_trans_lt_r _ (separator b (next_key blocks None i))); auto. by apply (key_valid i b).
Qed.

Lemma after_above i b e : blocks !! i = Some b -> (m < i)%nat -> e ∈ b -> 0 < Compare (fst e) k.
Proof.
  intros Hb Hi He. destruct (lookup_lt_is_Some_2 blocks m) as [bm Hbm]; [apply lookup_lt_Some in Hb; lia|].
  destruct (lookup_lt_is_Some_2 ix m) as [[s h] E].
  { rewrite length_index_entries. by apply lookup_lt_Some in Hbm. }
  pose proof (proj1 (proj2 Hm m _ E)) as Hs. cbn [fst] in Hs. apply ix_block in E as (b' & Hb' & _ & -> & _).
  assert (b' = bm) as -> by congruence. destruct (separator_facts m bm Hbm) as (Hv & _ & _).
  pose proof (key_valid i b e Hb He) as Hve. apply (cmp_lt_gt k (fst e)); [done|done|].
  apply (cmp_trans_lt_r _ (separator bm (next_key blocks None m))); [done|done|done| |by apply (separator_below m bm i b)].
  apply cmp_le_ge; [done|done|]. destruct (Z.lt_ge_cases (Compare (separator bm (next_key blocks None m)) k) 0); [|done].
  exfalso. by apply (Nat.lt_irrefl m), Hs.
Qed.

Lemma found_in v : (k, v) ∈ kvs -> exists b, blocks !! m = Some b /\ (k, v) ∈ b.
Proof.
  intros Hin. rewrite <- kvs_blocks in Hin. apply list_elem_of_In, in_concat in Hin as (b & Hb & Hkb).
  apply list_elem_of_In, list_elem_of_lookup in Hb as [i Hb]. apply list_elem_of_In in Hkb.
  destruct (Nat.lt_trichotomy i m) as [Hlt|[<- |Hgt]]; [| by exists b |].
  - pose proof (before_below i b _ Hb Hlt Hkb) as Hc. cbn in Hc. rewrite cmp_refl in Hc; [lia|done].
  - pose proof (after_above i b _ Hb Hgt Hkb) as Hc. cbn in Hc. rewrite cmp_refl in Hc; [lia|done].
Qed.

Lemma lower_bound_block b j : blocks !! m = Some b -> lower_bound k b j ->
  lower_bound k kvs (length (concat (take m blocks)) + j).
Proof.
  intros Hb Hj.
  cut (lower_bound k (concat (take m blocks) ++ b ++ concat (drop (S m) blocks)) (length (concat (take m blocks)) + j)).
  { by rewrite (kvs_split m b Hb). }
  assert (m < length blocks)%nat as Hlt by by apply lookup_lt_Some in Hb.
  apply lower_bound_app_r; [|apply lower_bound_app_l; [done|]]; apply list.Forall_forall; intros e He;
    apply list_elem_of_In, in_concat in He as (b' & Hb' & He); apply list_elem_of_In in He;
    apply list_elem_of_In, list_elem_of_lookup in Hb' as [i Hi].
  - pose proof (lookup_lt_Some _ _ _ Hi) as Hl. rewrite length_take in Hl.
    rewrite lookup_take_lt in Hi by lia. apply (before_below i b'); [done|lia|done].
  - rewrite lookup_drop in Hi. apply Z.lt_le_incl, (after_above _ b' e Hi); [lia|done].
Qed.

(** No key above the index: nothing is there. *)
Lemma lower_bound_all : m = length ix -> lower_bound k kvs (length kvs).
Proof.
  intros Hl. rewrite length_index_entries in Hl.
  cut (lower_bound k (concat blocks) (length (concat blocks))); [by rewrite kvs_blocks|].
  pose proof (lower_bound_split k (concat blocks) []) as Hs. rewrite app_nil_r in Hs. apply Hs; [|constructor].
  apply list.Forall_forall. intros e He. apply list_elem_of_In, in_concat in He as (b' & Hb' & He).
  apply list_elem_of_In in He. apply list_elem_of_In, list_elem_of_lookup in Hb' as [i Hi].
  apply (before_below i b'); [done|apply lookup_lt_Some in Hi; lia|done].
Qed.
End Get.

(** The filter matches the keys of a block at its offset. *)
Lemma filter_group i b : blocks !! i = Some b -> (offset_of i, map fst b) ∈ filter_groups o 0 blocks [].
Proof.
  assert (forall bs offset i, bs !! i = Some b ->
    (offset + size (data_bytes o (take i bs)), map fst b) ∈ filter_groups o offset bs []) as Hg.
  { clear. induction bs as [|b0 bs IH]; intros offset [|i] Hb; try done; cbn [filter_groups take].
    - injection Hb as ->. change (size (data_bytes o [])) with 0. rewrite Z.add_0_r. left.
    - right. unfold data_bytes. cbn [map concat]. fold (data_bytes o (take i bs)). rewrite size_app, Z.add_assoc. by apply IH. }
  intros Hb. apply (Hg blocks 0 i Hb).
Qed.

Lemma filter_groups_sorted : Sorted Z.le (0 :: map fst (filter_groups o 0 blocks [])).
Proof.
  clear. assert (forall bs offset, Sorted Z.le (map fst (filter_groups o offset bs [])) /\
    HdRel Z.le offset (map fst (filter_groups o offset bs []))) as Hs.
  { induction bs as [|b bs IH]; intros offset; cbn [filter_groups map fst]; [repeat constructor; lia|].
    destruct (IH (offset + size (disk o (raw_block o b)))) as [Hs Hh]. split; [|constructor; lia].
    constructor; [done|]. destruct Hh as [|x l Hx]; constructor. pose proof (size_nonneg (disk o (raw_block o b))). lia. }
  destruct (Hs blocks 0). by constructor.
Qed.

Lemma filter_groups_nkeys : nkeys (filter_groups o 0 blocks []) = Z.of_nat (length kvs).
Proof.
  assert (forall bs offset, nkeys (filter_groups o offset bs []) = Z.of_nat (length (concat bs))) as Hn;
    [clear|by rewrite Hn, kvs_blocks].
  induction bs as [|b bs IH]; intros offset; cbn [filter_groups nkeys concat]; [done|].
  rewrite IH, length_app, length_map. lia.
Qed.

Lemma filter_matches name policy i b k :
  filter_policy o = Some (name, policy) -> blocks !! i = Some b -> k ∈ map fst b ->
  block_KeyMayMatch (policy := policy) (new_FilterBlockReader (filter_bytes o blocks)) (offset_of i) k = true.
Proof.
  intros Ep Hb Hk. pose proof (tf_filter _ _ _ fits) as Hf. unfold filter_bytes in *. rewrite Ep in *.
  destruct Hf as (_ & Hs & limit & Hlaws & Hlim). unfold filter_builder in *.
  apply (filter_block_matches (limit := limit)) with (keys := map fst b); [apply filter_groups_sorted| |done|by apply filter_group|done].
  by rewrite filter_groups_nkeys.
Qed.

Lemma Get_ok t options block_cache k :
  opened t -> coherent t block_cache -> valid k ->
  exists result block_cache', InternalGet t options block_cache k = Done (OK, result, block_cache') /\
    coherent t block_cache' /\
    (forall v, (k, v) ∈ kvs -> result = Some (k, v)) /\
    (forall e, result = Some e -> exists i, lower_bound k kvs i /\ kvs !! i = Some e).
Proof.
  intros Ht Hc Hk. unfold InternalGet. rewrite (op_index t Ht).
  pose proof (any_cursor (I := block_iterator) valid ix) as icur.
  destruct (cu_seek icur _ _ k open_index Hk) as (iit & m & -> & Hp & Hm). rewrite run_bind_done.
  rewrite (cu_valid icur m iit Hp), (cu_status icur m iit Hp).
  destruct (Nat.ltb_spec m (length ix)) as [Hlt|Hge].
  2: { rewrite run_bind_done. cbn [ok OK]. eexists _, _. split; [reflexivity|]. split; [done|]. split; [|done].
    intros v Hin. destruct (found_in k Hk m Hm v Hin) as (b & Hb & _). apply lookup_lt_Some in Hb.
    rewrite length_index_entries in Hge. lia. }
  destruct (lookup_lt_is_Some_2 ix m Hlt) as [[s h] E]. pose proof (ix_block m s h E) as (b & Hb & Eb & _ & Ed).
  destruct (cu_entry icur m iit s h Hp E) as [_ ->]. rewrite run_bind_done, Ed. cbn [handle_at offset_].
  destruct (match t_filter t with Some _ => _ | None => false end) eqn:Enf.
  { rewrite run_bind_done. cbn [ok OK]. eexists _, _. split; [reflexivity|]. split; [done|]. split; [|done].
    intros v Hin. destruct (found_in k Hk m Hm v Hin) as (b' & Hb' & Hkb). assert (b' = b) as -> by congruence.
    exfalso. destruct (op_filter t Ht) as [Ef|(name & policy & Ep & Ef)]; rewrite Ef in Enf; [done|].
    rewrite (filter_matches name policy m b k Ep Hb) in Enf; [done|].
    apply list_elem_of_fmap. by exists (k, v). }
  rewrite run_bind_done. destruct (BlockReader_ok t options block_cache m s h Ht Hc E) as (it & cache' & -> & Hc' & Hpb).
  rewrite run_bind_done. rewrite Eb in Hpb.
  pose proof (any_cursor (I := block_iterator) valid b) as bcur.
  destruct (cu_seek bcur _ _ k Hpb Hk) as (bit & j & -> & Hpj & Hj). rewrite run_bind_done.
  rewrite (cu_valid bcur j bit Hpj), (cu_status bcur j bit Hpj).
  assert (forall v, (k, v) ∈ kvs -> b !! j = Some (k, v)) as Hexact.
  { intros v Hin. destruct (found_in k Hk m Hm v Hin) as (b' & Hb' & Hkb). assert (b' = b) as -> by congruence.
    apply lower_bound_exact; [apply (blocks_sorted m b Hb)|by apply cmp_refl|done|done]. }
  destruct (Nat.ltb_spec j (length b)) as [Hjl|Hjg].
  - destruct (lookup_lt_is_Some_2 b j Hjl) as [[k' v'] Ej]. destruct (cu_entry bcur j bit k' v' Hpj Ej) as [-> ->].
    rewrite !run_bind_done. cbn [ok OK]. eexists _, _. split; [reflexivity|]. split; [done|]. split.
    + intros v Hin. rewrite <- (Hexact v Hin). done.
    + intros e [= <-]. eexists. split; [by apply (lower_bound_block k Hk m Hm b j)|].
      rewrite <- (kvs_split m b Hb) at 2.
      rewrite lookup_app_r by lia. rewrite lookup_app_l by lia. rewrite <- Ej. f_equal. lia.
  - rewrite !run_bind_done. cbn [ok OK]. eexists _, _. split; [reflexivity|]. split; [done|]. split; [|done].
    intros v Hin. pose proof (Hexact v Hin) as Hl. apply lookup_lt_Some in Hl. lia.
Qed.

(** ** Approximate offsets *)

(** The start of block [i], or of the metaindex block. *)
Definition block_start (i : nat) : Z :=
  if (i <? length blocks)%nat then offset_of i else size (body_bytes o blocks).

Lemma Approximate_ok t k :
  opened t -> valid k -> exists m, lower_bound k ix m /\ ApproximateOffsetOf t k = Done (block_start m).
Proof.
  intros Ht Hk. unfold ApproximateOffsetOf. rewrite (op_index t Ht).
  pose proof (any_cursor (I := block_iterator) valid ix) as icur.
  destruct (cu_seek icur _ _ k open_index Hk) as (iit & m & -> & Hp & Hm). rewrite run_bind_done.
  exists m. split; [done|]. rewrite (cu_valid icur m iit Hp). unfold block_start.
  rewrite length_index_entries. destruct (Nat.ltb_spec m (length blocks)) as [Hlt|Hge].
  - destruct (lookup_lt_is_Some_2 ix m) as [[s h] E]; [by rewrite length_index_entries|].
    destruct (cu_entry icur m iit s h Hp E) as [_ ->]. rewrite run_bind_done.
    destruct (ix_block m s h E) as (b & _ & _ & _ & ->). done.
  - by rewrite (op_metaindex t Ht).
Qed.

Lemma block_start_mono i j : (i <= j)%nat -> 0 <= block_start i <= block_start j /\ block_start j <= size (table_bytes o kvs).
Proof.
  intros Hij.
  assert (forall i j, (i <= j)%nat -> size (data_bytes o (take i blocks)) <= size (data_bytes o (take j blocks))) as Hmono.
  { intros i' j' Hle. rewrite <- (take_drop i' (take j' blocks)), take_take, Nat.min_l by done. apply data_bytes_prefix. }
  assert (size (data_bytes o blocks) <= size (body_bytes o blocks)) as Hbody.
  { unfold body_bytes. rewrite size_app. pose proof (size_nonneg (match filter_policy o with None => []
      | Some _ => block_on_disk (filter_bytes o blocks) kNoCompression end)). lia. }
  assert (size (body_bytes o blocks) <= size (table_bytes o kvs)) as Hall.
  { rewrite <- Hfile, file_parts, size_app. pose proof (size_nonneg (disk o (meta_raw o blocks) ++
      disk o (index_raw o blocks) ++ footer_EncodeTo (mk_footer (meta_handle o blocks) (index_handle o blocks)) [])). lia. }
  pose proof (Hmono i j Hij). pose proof (Hmono i (length blocks)) as Hi. pose proof (Hmono j (length blocks)) as Hj.
  rewrite firstn_all in Hi, Hj. pose proof (size_nonneg (data_bytes o (take i blocks))).
  pose proof (size_nonneg (body_bytes o blocks)).
  unfold block_start. destruct (Nat.ltb_spec i (length blocks)), (Nat.ltb_spec j (length blocks)); lia.
Qed.
End Layout.

(** * Properties *)

Section Properties.
Context {c : Comparator} {valid : list byte -> Prop} {laws : ComparatorLaws valid c}.
Context {snappy : Snappy} {slaws : SnappyLaws snappy} {R : Type} `{GoodRandomAccess R} {C : Type} `{CacheLaws C Block}.
Context (o : Options) (kvs : list (list byte * list byte)).

(** C8: a table reads back as what was written.  After the entries, in increasing
    order, were added to a builder and the builder finished, opening a file with the
    bytes it wrote gives a table, and the iterator of the table is a cursor over the
    entries: it starts out of range, finds the first and the last, steps in both
    directions, seeks the first entry that is not below a key, and ends; with any
    comparator that keeps its contract, with or without compression, checksum
    verification, filter and block cache, and whatever blocks of the table the cache
    holds. *)
Theorem table_roundtrip {W : Type} `{GoodWritable W} (w : W) (file : R) options (block_cache : option C) read fuel :
  table_fits valid o kvs -> contents w = [] -> same_policy o options ->
  exists b, tb_Finish (fold_left (fun r e => tb_Add r (fst e) (snd e)) kvs (new_TableBuilder o w)) = Done (OK, b) /\
    (ra_bytes file = contents (tb_file b) ->
     exists t block_cache', Open options block_cache file (tb_FileSize b) = Done (OK, Some t, block_cache') /\
       forall cache, coherent o kvs t cache -> (length (split_blocks o [] kvs) + 2 <= fuel)%nat ->
       exists it pos, NewIterator t cache = Done it /\ pos (length kvs) it /\
         @cursor c valid _ (table_iterator t read fuel) kvs pos).
Proof.
  intros fits Hw Hsame. pose proof (tf_file _ _ _ fits) as Hs.
  assert (size (table_bytes o kvs) < 2 ^ 64) as Hs' by lia.
  destruct (build_ok o (tf_compression _ _ _ fits) kvs w Hw Hs') as (b & E & _ & Hc & Ho & _).
  exists b. split; [done|]. unfold tb_FileSize. rewrite Hc, Ho. intros Hfile.
  destruct (Open_ok o kvs file fits Hfile options block_cache Hsame) as (t & bc & E' & Ht & _).
  exists t, bc. split; [done|]. intros cache Hcoh Hfuel.
  by apply (table_cursor o kvs file fits Hfile t read fuel cache).
Qed.

(** C28: a lookup in an opened table ends with status OK; it passes the value of a key
    that is there to the callback, and never passes anything but the first entry that
    is not below the key; the filter hides no entry, and the cache keeps the blocks of
    the table. *)
Theorem table_get_correct (file : R) t options (block_cache : option C) k :
  table_fits valid o kvs -> ra_bytes file = table_bytes o kvs -> opened o kvs file t ->
  coherent o kvs t block_cache -> valid k ->
  exists result block_cache', InternalGet t options block_cache k = Done (OK, result, block_cache') /\
    coherent o kvs t block_cache' /\
    (forall v, (k, v) ∈ kvs -> result = Some (k, v)) /\
    (forall e, result = Some e -> exists i, lower_bound k kvs i /\ kvs !! i = Some e).
Proof. intros fits Hfile. by apply (Get_ok o kvs file fits Hfile). Qed.

(** The approximate offset of a key lies in the file and grows with the key; for a
    key that is there it is the start of its block. *)
Theorem approximate_offset_correct (file : R) t k k' :
  table_fits valid o kvs -> ra_bytes file = table_bytes o kvs -> opened o kvs file t ->
  valid k -> valid k' -> Compare k k' <= 0 ->
  exists n n', ApproximateOffsetOf t k = Done n /\ ApproximateOffsetOf t k' = Done n' /\
    0 <= n <= n' /\ n' <= size (table_bytes o kvs) /\
    forall v, (k, v) ∈ kvs -> exists i b, split_blocks o [] kvs !! i = Some b /\ (k, v) ∈ b /\
      n = size (data_bytes o (take i (split_blocks o [] kvs))).
Proof.
  intros fits Hfile Ht Hk Hk' Hle.
  destruct (Approximate_ok o kvs file fits Hfile t k Ht Hk) as (m & Hm & ->).
  destruct (Approximate_ok o kvs file fits Hfile t k' Ht Hk') as (m' & Hm' & ->).
  assert (m <= m')%nat as Hmm.
  { destruct (Nat.le_gt_cases m m') as [|Hgt]; [done|]. exfalso.
    destruct (lookup_lt_is_Some_2 (index_entries o 0 (split_blocks o [] kvs) None) m') as [e He];
      [destruct Hm; lia|].
    apply (Nat.lt_irrefl m'), (proj2 Hm' m' e He). apply (cmp_trans_lt _ k); [|done..|by apply (proj2 Hm m' e He)|done].
    pose proof (ix_valid o kvs file fits Hfile) as Hv. rewrite list.Forall_forall in Hv. apply Hv.
    by apply list_elem_of_lookup_2 in He. }
  destruct (block_start_mono o kvs file Hfile m m' Hmm) as [Hn Hn'].
  eexists _, _. split; [done|]. split; [done|]. split; [done|]. split; [done|]. intros v Hin.
  destruct (found_in o kvs file fits Hfile k Hk m Hm v Hin) as (b & Hb & Hkb). exists m, b.
  split; [done|]. split; [done|]. unfold block_start. apply lookup_lt_Some in Hb. by rewrite (proj2 (Nat.ltb_lt _ _)).
Qed.
End Properties.

(** ** Examples *)

Lemma demo_table_fits : @table_fits BytewiseComparator no_snappy (fun _ => True) demo_options demo_entries.
Proof.
  split.
  - by left.
  - cbn. lia.
  - repeat constructor.
  - repeat constructor.
  - repeat constructor.
  - repeat constructor.
  - vm_compute; reflexivity.
  - repeat constructor.
  - vm_compute; reflexivity.
  - cbn [filter_policy demo_options]. split; [reflexivity|]. split; [vm_compute; reflexivity|].
    exists 4. split; [|reflexivity]. apply bloom_laws; [apply new_bloom_k|vm_compute; discriminate|lia|reflexivity].
  - vm_compute; reflexivity.
Qed.

#[local] Abbreviation bw := BytewiseComparator.
#[local] Abbreviation demo_file := (@table_bytes bw no_snappy demo_options demo_entries).
#[local] Abbreviation demo_cache := (([], 0) : ListCache Block).

Lemma table_roundtrip_witness :
  exists b, tb_Finish (comparator := bw) (S := no_snappy)
      (fold_left (fun r e => tb_Add (comparator := bw) (S := no_snappy) r (fst e) (snd e)) demo_entries
        (new_TableBuilder demo_options ([] : list byte))) = Done (OK, b) /\
    exists t cache, Open (snappy := no_snappy) demo_options (Some demo_cache) (demo_file : list byte) (tb_FileSize b) =
        Done (OK, Some t, cache) /\
      exists it pos, NewIterator (comparator := bw) t (None : option (ListCache Block)) = Done it /\ pos 4%nat it /\
        @cursor bw (fun _ => True) _
          (table_iterator (comparator := bw) (snappy := no_snappy) t (mk_read_options true true) 10) demo_entries pos.
Proof.
  destruct (@table_roundtrip bw (fun _ => True) bytewise_laws no_snappy no_snappy_laws (list byte) _ mem_good_random_access
    (ListCache Block) _ list_cache_laws
    demo_options demo_entries (list byte) _ mem_good_writable [] demo_file demo_options (Some demo_cache) (mk_read_options true true) 10
    demo_table_fits eq_refl) as (b & E & Hb).
  - intros name p p' [= <- <-] [= <-]. reflexivity.
  - exists b. split; [exact E|]. destruct Hb as (t & cache & E' & Hit).
    { destruct (build_ok (comparator := bw) (S := no_snappy) demo_options ltac:(by left) demo_entries ([] : list byte) eq_refl)
        as (b' & E' & _ & Hc & _); [vm_compute; reflexivity|].
      assert (b' = b) as -> by (rewrite E' in E; by injection E). symmetry. exact Hc. }
    exists t, cache. split; [exact E'|]. apply Hit; [intros ? ? ? ? [=]|vm_compute; lia].
Defined.

Lemma empty_coherent {c : Comparator} {snappy : Snappy} {F : Type} o kvs (t : Table F) n :
  coherent o kvs t (Some (([], n) : ListCache Block)).
Proof. intros cache i b block [= <-] _ Hin. by apply not_elem_of_nil in Hin. Qed.

Lemma demo_opened : exists t cache,
  Open (snappy := no_snappy) demo_options (Some demo_cache) (demo_file : list byte) (size demo_file) = Done (OK, Some t, cache) /\
  @opened bw no_snappy (list byte) demo_options demo_entries demo_file t.
Proof.
  destruct (Open_ok (c := bw) (snappy := no_snappy) (slaws := no_snappy_laws) (H0 := mem_good_random_access) demo_options demo_entries (demo_file : list byte)
    demo_table_fits eq_refl demo_options (Some demo_cache)) as (t & cache & E & Ht & _).
  - intros name p p' [= <- <-] [= <-]. reflexivity.
  - exists t, cache. exact (conj E Ht).
Qed.

Lemma table_get_correct_witness : exists t cache,
  Open (snappy := no_snappy) demo_options (Some demo_cache) (demo_file : list byte) (size demo_file) = Done (OK, Some t, cache) /\
  exists cache', InternalGet (comparator := bw) (snappy := no_snappy) t (mk_read_options true true) (Some demo_cache) [x61; x62] =
    Done (OK, Some ([x61; x62], [x02; x03]), cache').
Proof.
  destruct demo_opened as (t & cache & Eo & Ht). exists t, cache. split; [exact Eo|].
  destruct (@table_get_correct bw (fun _ => True) bytewise_laws no_snappy no_snappy_laws (list byte) _ mem_good_random_access
    (ListCache Block) _ list_cache_laws demo_options demo_entries demo_file t (mk_read_options true true) (Some demo_cache)
    [x61; x62] demo_table_fits eq_refl Ht) as (r & cache' & E & _ & Hr & _).
  - apply (@empty_coherent bw no_snappy).
  - exact I.
  - exists cache'. rewrite E. rewrite (Hr [x02; x03]); [reflexivity|]. right. left.
Defined.

Lemma approximate_offset_correct_witness : exists t cache,
  Open (snappy := no_snappy) demo_options (Some demo_cache) (demo_file : list byte) (size demo_file) = Done (OK, Some t, cache) /\
  exists n n', ApproximateOffsetOf (comparator := bw) t [x61] = Done n /\
    ApproximateOffsetOf (comparator := bw) t [x64] = Done n' /\ n <= n'.
Proof.
  destruct demo_opened as (t & cache & Eo & Ht). exists t, cache. split; [exact Eo|].
  destruct (@approximate_offset_correct bw (fun _ => True) bytewise_laws no_snappy no_snappy_laws (list byte) _
    mem_good_random_access demo_options demo_entries demo_file t [x61] [x64]
    demo_table_fits eq_refl Ht I I) as (n & n' & E & E' & Hn & _); [vm_compute; discriminate|].
  exists n, n'. split; [exact E|]. split; [exact E'|]. lia.
Defined.
