(* ===== verification/LdbVersionEdit.v ===== *)
(** leveldb: version edits, the records of the manifest (db/version_edit.cc).

    [VersionEdit] is the record of the class; [EncodeTo] and [DecodeFrom] are its
    wire format.  An edit is a sequence of fields ([edit_field]): each tag of the
    format sets what one method of the class sets.

    [version_edit_roundtrip]: an edit built by the methods is read back.
    [version_edit_truncated]: a manifest record cut short is refused, except
    between two fields, and only whole fields take effect.
    [version_edit_decode_any]: whatever the bytes, [DecodeFrom] returns, with an
    edit that the methods could have built, its levels below [kNumLevels].
    [edit_reuse_accumulates]: [Clear] keeps the compaction pointers. *)

From Stdlib Require Import Sorting.Sorted.
From S2P Require Import Prelude Leb128 LdbCoding LdbStatus LdbFilename LdbFormat.
Open Scope Z_scope.

Definition kNumLevels : Z := 7.

Definition kComparator : Z := 1.
Definition kLogNumber : Z := 2.
Definition kNextFileNumber : Z := 3.
Definition kLastSequence : Z := 4.
Definition kCompactPointer : Z := 5.
Definition kDeletedFile : Z := 6.
Definition kNewFile : Z := 7.
Definition kPrevLogNumber : Z := 9.

(** An [InternalKey] is its string [rep_]. *)
Record FileMetaData := mk_meta {
  refs : Z;
  allowed_seeks : Z;
  number : Z;
  file_size : Z;
  smallest : list byte;
  largest : list byte;
}.

(** The constructor leaves [number] as it finds it. *)
Definition new_FileMetaData (uninit : Z) : FileMetaData := mk_meta 0 (Z.shiftl 1 30) uninit 0 [] [].

(** [std::set] of pairs: the strictly increasing list of its elements. *)
Definition DeletedFileSet := list (Z * Z).

Definition pair_ltb (a b : Z * Z) : bool :=
  (fst a <? fst b) || ((fst a =? fst b) && (snd a <? snd b)).

Fixpoint set_insert (x : Z * Z) (s : DeletedFileSet) : DeletedFileSet :=
  match s with
  | [] => [x]
  | y :: s' => if pair_ltb x y then x :: s else if pair_ltb y x then y :: set_insert x s' else s
  end.

Record VersionEdit := mk_edit {
  comparator_ : list byte;
  log_number_ : Z;
  prev_log_number_ : Z;
  next_file_number_ : Z;
  last_sequence_ : Z;
  has_comparator_ : bool;
  has_log_number_ : bool;
  has_prev_log_number_ : bool;
  has_next_file_number_ : bool;
  has_last_sequence_ : bool;
  compact_pointers_ : list (Z * list byte);
  deleted_files_ : DeletedFileSet;
  new_files_ : list (Z * FileMetaData);
}.

Definition edit_Clear (e : VersionEdit) : VersionEdit :=
  mk_edit [] 0 0 0 0 false false false false false (compact_pointers_ e) [] [].

(** The constructor clears an edit whose vectors are empty; the other members are
    all overwritten. *)
Definition new_VersionEdit : VersionEdit :=
  edit_Clear (mk_edit [] 0 0 0 0 false false false false false [] [] []).

Definition SetComparatorName (e : VersionEdit) (name : list byte) : VersionEdit :=
  mk_edit name (log_number_ e) (prev_log_number_ e) (next_file_number_ e) (last_sequence_ e)
    true (has_log_number_ e) (has_prev_log_number_ e) (has_next_file_number_ e)
    (has_last_sequence_ e) (compact_pointers_ e) (deleted_files_ e) (new_files_ e).

Definition SetLogNumber (e : VersionEdit) (num : Z) : VersionEdit :=
  mk_edit (comparator_ e) num (prev_log_number_ e) (next_file_number_ e) (last_sequence_ e)
    (has_comparator_ e) true (has_prev_log_number_ e) (has_next_file_number_ e)
    (has_last_sequence_ e) (compact_pointers_ e) (deleted_files_ e) (new_files_ e).

Definition SetPrevLogNumber (e : VersionEdit) (num : Z) : VersionEdit :=
  mk_edit (comparator_ e) (log_number_ e) num (next_file_number_ e) (last_sequence_ e)
    (has_comparator_ e) (has_log_number_ e) true (has_next_file_number_ e)
    (has_last_sequence_ e) (compact_pointers_ e) (deleted_files_ e) (new_files_ e).

Definition SetNextFile (e : VersionEdit) (num : Z) : VersionEdit :=
  mk_edit (comparator_ e) (log_number_ e) (prev_log_number_ e) num (last_sequence_ e)
    (has_comparator_ e) (has_log_number_ e) (has_prev_log_number_ e) true
    (has_last_sequence_ e) (compact_pointers_ e) (deleted_files_ e) (new_files_ e).

Definition SetLastSequence (e : VersionEdit) (seq : Z) : VersionEdit :=
  mk_edit (comparator_ e) (log_number_ e) (prev_log_number_ e) (next_file_number_ e) seq
    (has_comparator_ e) (has_log_number_ e) (has_prev_log_number_ e) (has_next_file_number_ e)
    true (compact_pointers_ e) (deleted_files_ e) (new_files_ e).

Definition SetCompactPointer (e : VersionEdit) (level : Z) (key : list byte) : VersionEdit :=
  mk_edit (comparator_ e) (log_number_ e) (prev_log_number_ e) (next_file_number_ e)
    (last_sequence_ e) (has_comparator_ e) (has_log_number_ e) (has_prev_log_number_ e)
    (has_next_file_number_ e) (has_last_sequence_ e)
    (compact_pointers_ e ++ [(level, key)]) (deleted_files_ e) (new_files_ e).

(** [deleted_files_.insert], as [DeleteFile] and the decoder call it. *)
Definition DeleteFile (e : VersionEdit) (level file : Z) : VersionEdit :=
  mk_edit (comparator_ e) (log_number_ e) (prev_log_number_ e) (next_file_number_ e)
    (last_sequence_ e) (has_comparator_ e) (has_log_number_ e) (has_prev_log_number_ e)
    (has_next_file_number_ e) (has_last_sequence_ e)
    (compact_pointers_ e) (set_insert (level, file) (deleted_files_ e)) (new_files_ e).

(** [new_files_.push_back]. *)
Definition push_new_file (e : VersionEdit) (level : Z) (f : FileMetaData) : VersionEdit :=
  mk_edit (comparator_ e) (log_number_ e) (prev_log_number_ e) (next_file_number_ e)
    (last_sequence_ e) (has_comparator_ e) (has_log_number_ e) (has_prev_log_number_ e)
    (has_next_file_number_ e) (has_last_sequence_ e)
    (compact_pointers_ e) (deleted_files_ e) (new_files_ e ++ [(level, f)]).

Definition set_file (f : FileMetaData) (num fsize : Z) (small large : list byte) : FileMetaData :=
  mk_meta (refs f) (allowed_seeks f) num fsize small large.

Definition AddFile (e : VersionEdit) (level file fsize : Z) (small large : list byte) : VersionEdit :=
  push_new_file e level (set_file (new_FileMetaData 0) file fsize small large).

(** ** EncodeTo *)

Definition encode_pointer (dst : list byte) (p : Z * list byte) : list byte :=
  let dst := PutVarint32 dst kCompactPointer in
  let dst := PutVarint32 dst (u32 (fst p)) in
  PutLengthPrefixedSlice dst (snd p).

Definition encode_deleted (dst : list byte) (p : Z * Z) : list byte :=
  let dst := PutVarint32 dst kDeletedFile in
  let dst := PutVarint32 dst (u32 (fst p)) in
  PutVarint64 dst (snd p).

Definition encode_new (dst : list byte) (p : Z * FileMetaData) : list byte :=
  let f := snd p in
  let dst := PutVarint32 dst kNewFile in
  let dst := PutVarint32 dst (u32 (fst p)) in
  let dst := PutVarint64 dst (number f) in
  let dst := PutVarint64 dst (file_size f) in
  let dst := PutLengthPrefixedSlice dst (smallest f) in
  PutLengthPrefixedSlice dst (largest f).

Definition EncodeTo (e : VersionEdit) (dst : list byte) : list byte :=
  let dst := if has_comparator_ e
    then PutLengthPrefixedSlice (PutVarint32 dst kComparator) (comparator_ e) else dst in
  let dst := if has_log_number_ e
    then PutVarint64 (PutVarint32 dst kLogNumber) (log_number_ e) else dst in
  let dst := if has_prev_log_number_ e
    then PutVarint64 (PutVarint32 dst kPrevLogNumber) (prev_log_number_ e) else dst in
  let dst := if has_next_file_number_ e
    then PutVarint64 (PutVarint32 dst kNextFileNumber) (next_file_number_ e) else dst in
  let dst := if has_last_sequence_ e
    then PutVarint64 (PutVarint32 dst kLastSequence) (last_sequence_ e) else dst in
  let dst := fold_left encode_pointer (compact_pointers_ e) dst in
  let dst := fold_left encode_deleted (deleted_files_ e) dst in
  fold_left encode_new (new_files_ e) dst.

(** ** DecodeFrom *)

Definition GetInternalKey (input : list byte) : option (list byte * list byte) :=
  match GetLengthPrefixedSlice input with
  | Some (str, input) => Some (str, input)
  | None => None
  end.

Definition GetLevel (input : list byte) : option (Z * list byte) :=
  match GetVarint32 input with
  | Some (v, input) => if v <? kNumLevels then Some (v, input) else None
  | None => None
  end.

(** One round of the switch: the edit and the rest of the input, or the message. *)
Definition decode_field (e : VersionEdit) (tag : Z) (input : list byte)
    : (VersionEdit * list byte) + list byte :=
  if tag =? kComparator then
    match GetLengthPrefixedSlice input with
    | Some (str, input) => inl (SetComparatorName e str, input)
    | None => inr (cstr "comparator name")
    end
  else if tag =? kLogNumber then
    match GetVarint64 input with
    | Some (v, input) => inl (SetLogNumber e v, input)
    | None => inr (cstr "log number")
    end
  else if tag =? kPrevLogNumber then
    match GetVarint64 input with
    | Some (v, input) => inl (SetPrevLogNumber e v, input)
    | None => inr (cstr "previous log number")
    end
  else if tag =? kNextFileNumber then
    match GetVarint64 input with
    | Some (v, input) => inl (SetNextFile e v, input)
    | None => inr (cstr "next file number")
    end
  else if tag =? kLastSequence then
    match GetVarint64 input with
    | Some (v, input) => inl (SetLastSequence e v, input)
    | None => inr (cstr "last sequence number")
    end
  else if tag =? kCompactPointer then
    match ('(level, input) ← GetLevel input; '(key, input) ← GetInternalKey input;
           Some (level, key, input)) with
    | Some (level, key, input) => inl (SetCompactPointer e level key, input)
    | None => inr (cstr "compaction pointer")
    end
  else if tag =? kDeletedFile then
    match ('(level, input) ← GetLevel input; '(num, input) ← GetVarint64 input;
           Some (level, num, input)) with
    | Some (level, num, input) => inl (DeleteFile e level num, input)
    | None => inr (cstr "deleted file")
    end
  else if tag =? kNewFile then
    match ('(level, input) ← GetLevel input; '(num, input) ← GetVarint64 input;
           '(fsize, input) ← GetVarint64 input; '(small, input) ← GetInternalKey input;
           '(large, input) ← GetInternalKey input; Some (level, num, fsize, small, large, input)) with
    | Some (level, num, fsize, small, large, input) =>
        inl (push_new_file e level (set_file (new_FileMetaData 0) num fsize small large), input)
    | None => inr (cstr "new-file entry")
    end
  else inr (cstr "unknown tag").

(** The loop, with the check after it.  Each round takes a byte at least; [None]:
    out of fuel. *)
Fixpoint decode_edit_loop (fuel : nat) (e : VersionEdit) (input : list byte)
    : option (VersionEdit * option (list byte)) :=
  match fuel with
  | O => None
  | S fuel =>
      match GetVarint32 input with
      | Some (tag, input) =>
          match decode_field e tag input with
          | inl (e, input) => decode_edit_loop fuel e input
          | inr msg => Some (e, Some msg)
          end
      | None => Some (e, if empty input then None else Some (cstr "invalid tag"))
      end
  end.

Definition edit_DecodeFrom (e : VersionEdit) (src : list byte) : option (VersionEdit * Status) :=
  match decode_edit_loop (S (length src)) (edit_Clear e) src with
  | Some (e, msg) =>
      Some (e, match msg with None => OK | Some msg => Corruption (cstr "VersionEdit") msg end)
  | None => None
  end.

(** ** DebugString *)

Definition debug_pointer (r : list byte) (p : Z * list byte) : list byte :=
  let r := r ++ x0a :: cstr "  CompactPointer: " in
  let r := AppendNumberTo r (u64 (fst p)) in
  let r := r ++ cstr " " in
  r ++ InternalKey_DebugString (snd p).

Definition debug_deleted (r : list byte) (p : Z * Z) : list byte :=
  let r := r ++ x0a :: cstr "  DeleteFile: " in
  let r := AppendNumberTo r (u64 (fst p)) in
  let r := r ++ cstr " " in
  AppendNumberTo r (snd p).

Definition debug_new (r : list byte) (p : Z * FileMetaData) : list byte :=
  let f := snd p in
  let r := r ++ x0a :: cstr "  AddFile: " in
  let r := AppendNumberTo r (u64 (fst p)) in
  let r := r ++ cstr " " in
  let r := AppendNumberTo r (number f) in
  let r := r ++ cstr " " in
  let r := AppendNumberTo r (file_size f) in
  let r := r ++ cstr " " in
  let r := r ++ InternalKey_DebugString (smallest f) in
  let r := r ++ cstr " .. " in
  r ++ InternalKey_DebugString (largest f).

Definition edit_DebugString (e : VersionEdit) : list byte :=
  let r := cstr "VersionEdit {" in
  let r := if has_comparator_ e then r ++ (x0a :: cstr "  Comparator: ") ++ comparator_ e else r in
  let r := if has_log_number_ e
    then AppendNumberTo (r ++ x0a :: cstr "  LogNumber: ") (log_number_ e) else r in
  let r := if has_prev_log_number_ e
    then AppendNumberTo (r ++ x0a :: cstr "  PrevLogNumber: ") (prev_log_number_ e) else r in
  let r := if has_next_file_number_ e
    then AppendNumberTo (r ++ x0a :: cstr "  NextFile: ") (next_file_number_ e) else r in
  let r := if has_last_sequence_ e
    then AppendNumberTo (r ++ x0a :: cstr "  LastSeq: ") (last_sequence_ e) else r in
  let r := fold_left debug_pointer (compact_pointers_ e) r in
  let r := fold_left debug_deleted (deleted_files_ e) r in
  let r := fold_left debug_new (new_files_ e) r in
  r ++ x0a :: cstr "}" ++ [x0a].

(** * Reference: an edit as a sequence of fields *)

Inductive edit_field :=
  | FComparator (name : list byte)
  | FLogNumber (num : Z)
  | FPrevLogNumber (num : Z)
  | FNextFile (num : Z)
  | FLastSequence (seq : Z)
  | FCompactPointer (level : Z) (key : list byte)
  | FDeletedFile (level file : Z)
  | FNewFile (level file fsize : Z) (small large : list byte).

Definition level_ok (level : Z) : Prop := 0 <= level < kNumLevels.
Definition number_ok (num : Z) : Prop := 0 <= num < 2 ^ 64.
Definition bytes_ok (s : list byte) : Prop := size s < 2 ^ 32.

Definition field_ok (f : edit_field) : Prop :=
  match f with
  | FComparator name => bytes_ok name
  | FLogNumber num | FPrevLogNumber num | FNextFile num | FLastSequence num => number_ok num
  | FCompactPointer level key => level_ok level /\ bytes_ok key
  | FDeletedFile level file => level_ok level /\ number_ok file
  | FNewFile level file fsize small large =>
      level_ok level /\ number_ok file /\ number_ok fsize /\ bytes_ok small /\ bytes_ok large
  end.

(** The method of the class that makes the field. *)
Definition apply_field (e : VersionEdit) (f : edit_field) : VersionEdit :=
  match f with
  | FComparator name => SetComparatorName e name
  | FLogNumber num => SetLogNumber e num
  | FPrevLogNumber num => SetPrevLogNumber e num
  | FNextFile num => SetNextFile e num
  | FLastSequence seq => SetLastSequence e seq
  | FCompactPointer level key => SetCompactPointer e level key
  | FDeletedFile level file => DeleteFile e level file
  | FNewFile level file fsize small large => AddFile e level file fsize small large
  end.

Definition field_tag (f : edit_field) : Z :=
  match f with
  | FComparator _ => kComparator
  | FLogNumber _ => kLogNumber
  | FPrevLogNumber _ => kPrevLogNumber
  | FNextFile _ => kNextFileNumber
  | FLastSequence _ => kLastSequence
  | FCompactPointer _ _ => kCompactPointer
  | FDeletedFile _ _ => kDeletedFile
  | FNewFile _ _ _ _ _ => kNewFile
  end.

Definition prefixed (s : list byte) : list byte := EncodeVarint32 (size s) ++ s.

Definition field_body (f : edit_field) : list byte :=
  match f with
  | FComparator name => prefixed name
  | FLogNumber num | FPrevLogNumber num | FNextFile num | FLastSequence num => EncodeVarint64 num
  | FCompactPointer level key => EncodeVarint32 level ++ prefixed key
  | FDeletedFile level file => EncodeVarint32 level ++ EncodeVarint64 file
  | FNewFile level file fsize small large =>
      EncodeVarint32 level ++ EncodeVarint64 file ++ EncodeVarint64 fsize ++
      prefixed small ++ prefixed large
  end.

Definition field_bytes (f : edit_field) : list byte := EncodeVarint32 (field_tag f) ++ field_body f.
Definition fields_bytes (fs : list edit_field) : list byte := concat (map field_bytes fs).

(** The fields of an edit, in the order [EncodeTo] writes them. *)
Definition edit_fields (e : VersionEdit) : list edit_field :=
  (if has_comparator_ e then [FComparator (comparator_ e)] else []) ++
  (if has_log_number_ e then [FLogNumber (log_number_ e)] else []) ++
  (if has_prev_log_number_ e then [FPrevLogNumber (prev_log_number_ e)] else []) ++
  (if has_next_file_number_ e then [FNextFile (next_file_number_ e)] else []) ++
  (if has_last_sequence_ e then [FLastSequence (last_sequence_ e)] else []) ++
  map (fun p => FCompactPointer (fst p) (snd p)) (compact_pointers_ e) ++
  map (fun p => FDeletedFile (fst p) (snd p)) (deleted_files_ e) ++
  map (fun p => FNewFile (fst p) (number (snd p)) (file_size (snd p))
                  (smallest (snd p)) (largest (snd p))) (new_files_ e).

(** * EncodeTo writes the fields *)

Lemma level_u32 level : level_ok level -> u32 level = level.
Proof. unfold level_ok, kNumLevels. intros H. apply u32_small. lia. Qed.

Lemma fold_encode {A} (enc : list byte -> A -> list byte) (field : A -> edit_field) xs dst :
  (forall dst x, field_ok (field x) -> enc dst x = dst ++ field_bytes (field x)) ->
  Forall field_ok (map field xs) ->
  fold_left enc xs dst = dst ++ fields_bytes (map field xs).
Proof.
  intros He. revert dst; induction xs as [|x xs IH]; intros dst Ho; cbn [fold_left map] in *.
  { by rewrite app_nil_r. }
  apply List.Forall_cons_iff in Ho as [Hx Ho]. rewrite IH, He by done.
  unfold fields_bytes. cbn [map concat]. by rewrite <- app_assoc.
Qed.

Lemma encode_pointer_eq dst p :
  field_ok (FCompactPointer (fst p) (snd p)) ->
  encode_pointer dst p = dst ++ field_bytes (FCompactPointer (fst p) (snd p)).
Proof.
  intros [Hl Hk]. unfold encode_pointer, PutVarint32. rewrite level_u32, put_prefixed by done.
  unfold field_bytes. cbn [field_body field_tag]. by rewrite <- !app_assoc.
Qed.

Lemma encode_deleted_eq dst p :
  field_ok (FDeletedFile (fst p) (snd p)) ->
  encode_deleted dst p = dst ++ field_bytes (FDeletedFile (fst p) (snd p)).
Proof.
  intros [Hl Hk]. unfold encode_deleted, PutVarint32, PutVarint64. rewrite level_u32 by done.
  unfold field_bytes. cbn [field_body field_tag]. by rewrite <- !app_assoc.
Qed.

Definition new_field (p : Z * FileMetaData) : edit_field :=
  FNewFile (fst p) (number (snd p)) (file_size (snd p)) (smallest (snd p)) (largest (snd p)).

Lemma encode_new_eq dst p :
  field_ok (new_field p) -> encode_new dst p = dst ++ field_bytes (new_field p).
Proof.
  intros (Hl & Hn & Hf & Hs & Hg). unfold encode_new, PutVarint32, PutVarint64.
  rewrite level_u32, !put_prefixed by done.
  unfold field_bytes. cbn [new_field field_body field_tag]. unfold prefixed. by rewrite <- !app_assoc.
Qed.

Lemma fields_bytes_app fs fs' : fields_bytes (fs ++ fs') = fields_bytes fs ++ fields_bytes fs'.
Proof. unfold fields_bytes. by rewrite map_app, concat_app. Qed.

(** An optional number of the edit. *)
Lemma encode_number (b : bool) dst (tag num : Z) f :
  field_tag f = tag -> field_body f = EncodeVarint64 num ->
  (if b then PutVarint64 (PutVarint32 dst tag) num else dst)
  = dst ++ fields_bytes (if b then [f] else []).
Proof.
  intros <- E. destruct b; [|by rewrite app_nil_r].
  unfold fields_bytes, field_bytes, PutVarint32, PutVarint64. cbn [map concat].
  by rewrite app_nil_r, E, <- app_assoc.
Qed.

Lemma EncodeTo_fields e dst :
  Forall field_ok (edit_fields e) -> EncodeTo e dst = dst ++ fields_bytes (edit_fields e).
Proof.
  intros Ho. unfold edit_fields in *. rewrite !List.Forall_app in Ho.
  destruct Ho as (Hc & _ & _ & _ & _ & Hp & Hd & Hn). unfold EncodeTo.
  rewrite (fold_encode encode_new new_field) by (done || apply encode_new_eq).
  rewrite (fold_encode encode_deleted (fun p => FDeletedFile (fst p) (snd p)))
    by (done || apply encode_deleted_eq).
  rewrite (fold_encode encode_pointer (fun p => FCompactPointer (fst p) (snd p)))
    by (done || apply encode_pointer_eq).
  rewrite (encode_number (has_log_number_ e) _ _ _ (FLogNumber (log_number_ e))) by done.
  rewrite (encode_number (has_prev_log_number_ e) _ _ _ (FPrevLogNumber (prev_log_number_ e))) by done.
  rewrite (encode_number (has_next_file_number_ e) _ _ _ (FNextFile (next_file_number_ e))) by done.
  rewrite (encode_number (has_last_sequence_ e) _ _ _ (FLastSequence (last_sequence_ e))) by done.
  rewrite !fields_bytes_app, !app_assoc. repeat f_equal.
  destruct (has_comparator_ e); [|by rewrite app_nil_r].
  apply List.Forall_inv in Hc. unfold PutVarint32. rewrite put_prefixed by done.
  unfold fields_bytes, field_bytes, prefixed. cbn [map concat field_tag field_body].
  by rewrite app_nil_r, <- !app_assoc.
Qed.

(** * DecodeFrom reads the fields *)

Definition accepted (r : (VersionEdit * list byte) + list byte) : option (VersionEdit * list byte) :=
  match r with inl x => Some x | inr _ => None end.

Lemma parses_level level : level_ok level -> parses GetLevel level (EncodeVarint32 level).
Proof.
  intros Hl. assert (0 <= level < 2 ^ 32) as Hw by (unfold level_ok, kNumLevels in Hl; lia).
  destruct (parses_varint32 level Hw) as [H C]. unfold GetLevel. split.
  - intros rest. rewrite H. unfold level_ok in Hl. by rewrite (proj2 (Z.ltb_lt _ _)) by lia.
  - intros p q E Hq. by rewrite (C p q).
Qed.

Lemma parses_key s : bytes_ok s -> parses GetInternalKey s (prefixed s).
Proof. intros Hs. apply parses_map with (f := id). by apply parses_slice. Qed.

#[local] Hint Resolve parses_level parses_key : core.

(** The reader of a case of the switch, and the method that takes what it read. *)
Ltac field_reader f rd :=
  apply (parses_ext (fun i => match rd i with Some (a, i) => Some (f a, i) | None => None end));
  [let i := fresh "i" in intros i; cbn -[mbind]; repeat case_match; simplify_eq; done|].

Lemma field_parses e f :
  field_ok f ->
  parses (fun i => accepted (decode_field e (field_tag f) i)) (apply_field e f) (field_body f).
Proof.
  intros Ho. destruct f; cbn [field_tag field_body apply_field field_ok] in *.
  - field_reader (SetComparatorName e) GetLengthPrefixedSlice.
    apply (parses_map _ _ _ (SetComparatorName e)). by auto.
  - field_reader (SetLogNumber e) GetVarint64. apply (parses_map _ _ _ (SetLogNumber e)). by auto.
  - field_reader (SetPrevLogNumber e) GetVarint64. apply (parses_map _ _ _ (SetPrevLogNumber e)). by auto.
  - field_reader (SetNextFile e) GetVarint64. apply (parses_map _ _ _ (SetNextFile e)). by auto.
  - field_reader (SetLastSequence e) GetVarint64. apply (parses_map _ _ _ (SetLastSequence e)). by auto.
  - destruct Ho as [Hl Hk].
    apply (parses_ext (fun i => match ('(level, input) ← GetLevel i; '(key, input) ← GetInternalKey input;
           Some (level, key, input)) with
      | Some (a, i) => Some (SetCompactPointer e a.1 a.2, i) | None => None end)).
    { intros i. cbn -[mbind]. by destruct (GetLevel i ≫= _) as [[[]]|]. }
    apply (parses_map _ (level, key) _ (fun a => SetCompactPointer e a.1 a.2)). read_chain.
  - destruct Ho as [Hl Hk].
    apply (parses_ext (fun i => match ('(level, input) ← GetLevel i; '(num, input) ← GetVarint64 input;
           Some (level, num, input)) with
      | Some (a, i) => Some (DeleteFile e a.1 a.2, i) | None => None end)).
    { intros i. cbn -[mbind]. by destruct (GetLevel i ≫= _) as [[[]]|]. }
    apply (parses_map _ (level, file) _ (fun a => DeleteFile e a.1 a.2)). read_chain.
  - destruct Ho as (Hl & Hn & Hf & Hs & Hg).
    apply (parses_ext (fun i => match ('(level, input) ← GetLevel i; '(num, input) ← GetVarint64 input;
           '(fsize, input) ← GetVarint64 input; '(small, input) ← GetInternalKey input;
           '(large, input) ← GetInternalKey input; Some (level, num, fsize, small, large, input)) with
      | Some (a, i) => Some (let '(l, n, f, s, g) := a in AddFile e l n f s g, i) | None => None end)).
    { intros i. cbn -[mbind]. by destruct (GetLevel i ≫= _) as [[[[[[]]]]]|]. }
    apply (parses_map _ (level, file, fsize, small, large) _
      (fun a => let '(l, n, f, s, g) := a in AddFile e l n f s g)). read_chain.
Qed.

Lemma tag_bound f : 0 <= field_tag f < 2 ^ 32.
Proof. by destruct f. Qed.

Lemma field_bytes_length f : (1 <= length (field_bytes f))%nat.
Proof. unfold field_bytes. rewrite length_app. pose proof (length_EncodeVarint32 _ (tag_bound f)). lia. Qed.

Lemma decode_one fuel e f rest :
  field_ok f ->
  decode_edit_loop (S fuel) e (field_bytes f ++ rest) = decode_edit_loop fuel (apply_field e f) rest.
Proof.
  intros Ho. cbn [decode_edit_loop]. unfold field_bytes. rewrite <- app_assoc, GetVarint32_app by apply tag_bound.
  pose proof (proj1 (field_parses e f Ho) rest) as E. cbv beta in E.
  destruct (decode_field e (field_tag f) (field_body f ++ rest)) as [[e' i]|]; [|done].
  by injection E as -> ->.
Qed.

(** A field cut short: no effect, and a message. *)
Lemma decode_cut_field fuel e f p q :
  field_ok f -> field_bytes f = p ++ q -> q <> [] -> p <> [] ->
  exists msg, decode_edit_loop (S fuel) e p = Some (e, Some msg).
Proof.
  intros Ho E Hq Hp. cbn [decode_edit_loop]. unfold field_bytes in E.
  apply app_eq_inv in E as [(r & E1 & E2)|(r & -> & E2)].
  - destruct r as [|b r].
    + rewrite app_nil_r in E1. subst p. cbn [app] in E2. subst q.
      rewrite <- (app_nil_r (EncodeVarint32 _)), GetVarint32_app by apply tag_bound.
      pose proof (proj2 (field_parses e f Ho) [] _ eq_refl Hq) as E. cbv beta in E.
      destruct (decode_field e (field_tag f) []) as [|msg]; [done | by exists msg].
    + rewrite (proj2 (parses_varint32 _ (tag_bound f)) p (b :: r)) by done.
      destruct p; [done|]. by eexists.
  - rewrite GetVarint32_app by apply tag_bound.
    pose proof (proj2 (field_parses e f Ho) r q E2 Hq) as E. cbv beta in E.
    destruct (decode_field e (field_tag f) r) as [|msg]; [done | by exists msg].
Qed.

(** The loop over any prefix of the bytes of some fields. *)
Lemma decode_prefix fuel e fs p q :
  Forall field_ok fs -> fields_bytes fs = p ++ q -> (length p < fuel)%nat ->
  exists k msg, (k <= length fs)%nat /\
    decode_edit_loop fuel e p = Some (fold_left apply_field (take k fs) e, msg) /\
    (msg = None <-> p = fields_bytes (take k fs)) /\ (q = [] -> k = length fs /\ msg = None).
Proof.
  revert fuel e p; induction fs as [|f fs IH]; intros fuel e p Ho E Hf; (destruct fuel as [|fuel]; [lia|]).
  { destruct p, q; try done. exists O, None. by split. }
  apply List.Forall_cons_iff in Ho as [Hof Ho]. unfold fields_bytes in E. cbn [map concat] in E.
  assert (forall r, p = field_bytes f ++ r -> fields_bytes fs = r ++ q ->
    exists k msg, (k <= length (f :: fs))%nat /\
      decode_edit_loop (S fuel) e p = Some (fold_left apply_field (take k (f :: fs)) e, msg) /\
      (msg = None <-> p = fields_bytes (take k (f :: fs))) /\
      (q = [] -> k = length (f :: fs) /\ msg = None)) as Whole.
  { intros r -> E2. rewrite length_app in Hf. pose proof (field_bytes_length f).
    destruct (IH fuel (apply_field e f) r Ho E2 ltac:(lia)) as (k & msg & Hk & El & Hm & Hq).
    exists (S k), msg. rewrite decode_one by done. cbn [take length fold_left]. rewrite El.
    unfold fields_bytes in *. cbn [map concat]. repeat split; try done; try lia.
    - intros Hn. by rewrite <- (proj1 Hm Hn).
    - intros Ea%app_inv_head. by apply Hm.
    - destruct (Hq ltac:(done)) as [-> _]. done.
    - by destruct (Hq ltac:(done)). }
  apply app_eq_inv in E as [(r & E1 & E2)|(r & Ep & E2)]; [|by apply (Whole r)].
  destruct r as [|x r].
  { rewrite app_nil_r in E1. cbn [app] in E2. subst q. apply (Whole []); [by rewrite app_nil_r | done]. }
  destruct p as [|b p].
  { exists O, None. repeat split; try done; [lia | by subst q..]. }
  destruct (decode_cut_field fuel e f (b :: p) (x :: r)) as (msg & El); [done..|].
  exists O, (Some msg). repeat split; try done; [lia | by subst q..].
Qed.

(** Whatever the bytes. *)
Lemma GetLevel_bound input level rest :
  GetLevel input = Some (level, rest) -> level_ok level /\ size rest < size input.
Proof.
  unfold GetLevel. destruct (GetVarint32 input) as [[v i]|] eqn:E; [|done].
  apply GetVarint32_bound in E. destruct (Z.ltb_spec v kNumLevels); [|done].
  intros [= <- <-]. unfold level_ok. lia.
Qed.

Lemma GetInternalKey_bound input key rest :
  GetInternalKey input = Some (key, rest) -> bytes_ok key /\ size rest < size input.
Proof.
  unfold GetInternalKey. destruct (GetLengthPrefixedSlice input) as [[s i]|] eqn:E; [|done].
  apply GetLengthPrefixedSlice_bound in E. by intros [= <- <-].
Qed.

(** Takes a chain of readers apart. *)
Ltac read_bounds :=
  repeat match goal with
  | H : context[mbind _ (?g ?i)] |- _ =>
      let E := fresh "E" in
      destruct (g i) as [[]|] eqn:E; cbn [mbind option_bind] in H; [|discriminate H]
  | H : GetLevel _ = Some _ |- _ => apply GetLevel_bound in H as []
  | H : GetInternalKey _ = Some _ |- _ => apply GetInternalKey_bound in H as []
  | H : GetVarint64 _ = Some _ |- _ => apply GetVarint64_bound in H as []
  | H : GetLengthPrefixedSlice _ = Some _ |- _ => apply GetLengthPrefixedSlice_bound in H as []
  end.

Lemma decode_field_any e tag input e' rest :
  decode_field e tag input = inl (e', rest) ->
  exists f, field_ok f /\ e' = apply_field e f /\ size rest < size input.
Proof.
  unfold decode_field. repeat case_match; intros [= <- <-]; simplify_eq; read_bounds; simplify_eq.
  - by exists (FComparator l).
  - by exists (FLogNumber z).
  - by exists (FPrevLogNumber z).
  - by exists (FNextFile z).
  - by exists (FLastSequence z).
  - eexists (FCompactPointer _ _). split; [done|]. split; [done|lia].
  - eexists (FDeletedFile _ _). split; [done|]. split; [done|lia].
  - eexists (FNewFile _ _ _ _ _). split; [|split; [done|lia]]. done.
Qed.

Lemma decode_any fuel e input :
  (length input < fuel)%nat ->
  exists fs msg, Forall field_ok fs /\ decode_edit_loop fuel e input = Some (fold_left apply_field fs e, msg).
Proof.
  revert e input; induction fuel as [|fuel IH]; intros e input Hf; [lia|]. cbn [decode_edit_loop].
  destruct (GetVarint32 input) as [[tag i]|] eqn:E; [|by exists [], (if empty input then None else Some (cstr "invalid tag"))].
  apply GetVarint32_bound in E as [_ Hi].
  destruct (decode_field e tag i) as [[e' r]|msg] eqn:Ed; [|by exists [], (Some msg)].
  apply decode_field_any in Ed as (f & Ho & -> & Hr).
  destruct (IH (apply_field e f) r) as (fs & msg & Hos & ->); [unfold size in *; lia|].
  exists (f :: fs), msg. split; [by constructor | done].
Qed.

(** * The edits that the methods build *)

Definition set_sorted (s : DeletedFileSet) : Prop := StronglySorted (fun a b => pair_ltb a b = true) s.

Lemma pair_ltb_spec a b :
  pair_ltb a b = true <-> a.1 < b.1 \/ (a.1 = b.1 /\ a.2 < b.2).
Proof. unfold pair_ltb. rewrite orb_true_iff, andb_true_iff, Z.eqb_eq, !Z.ltb_lt. done. Qed.

Lemma set_insert_elem x s y : y ∈ set_insert x s -> y = x \/ y ∈ s.
Proof.
  induction s as [|z s IH]; cbn [set_insert]; [rewrite list_elem_of_singleton; by left|].
  destruct (pair_ltb x z), (pair_ltb z x); rewrite !elem_of_cons; tauto.
Qed.

Lemma set_insert_sorted x s : set_sorted s -> set_sorted (set_insert x s).
Proof.
  unfold set_sorted. induction 1 as [|z s Hs IH Hz]; cbn [set_insert]; [by repeat constructor|].
  destruct (pair_ltb x z) eqn:E; [|destruct (pair_ltb z x) eqn:E'].
  - constructor; [by constructor|]. constructor; [done|].
    eapply list.Forall_impl; [exact Hz|]. intros w Hw.
    apply pair_ltb_spec in E, Hw. apply pair_ltb_spec. lia.
  - constructor; [done|]. apply list.Forall_forall. intros w Hw%set_insert_elem.
    destruct Hw as [->|Hw]; [done|]. by apply (proj1 (list.Forall_forall _ _) Hz).
  - by constructor.
Qed.

Lemma set_sorted_app_l s s' : set_sorted (s ++ s') -> set_sorted s.
Proof.
  unfold set_sorted. induction s as [|z s IH]; cbn [app]; intros Hs; [constructor|].
  apply StronglySorted_inv in Hs as [Hs Hz]. constructor; [by apply IH|].
  by apply List.Forall_app in Hz as [Hz _].
Qed.

(** Inserting a greater element appends it. *)
Lemma set_insert_last s x : set_sorted (s ++ [x]) -> set_insert x s = s ++ [x].
Proof.
  unfold set_sorted. induction s as [|z s IH]; cbn [set_insert app]; intros Hs; [done|].
  apply StronglySorted_inv in Hs as [Hs Hz]. rewrite IH by done.
  assert (pair_ltb z x = true) as E by (apply (proj1 (list.Forall_forall _ _) Hz); set_solver).
  rewrite E. destruct (pair_ltb x z) eqn:E'; [|done]. apply pair_ltb_spec in E, E'. lia.
Qed.

(** What the methods keep: a number that is not set is zero, the set is ordered, a
    new file has its initial counts, and every field is in its range. *)
Record edit_inv (e : VersionEdit) : Prop := {
  inv_comparator : has_comparator_ e = false -> comparator_ e = [];
  inv_log : has_log_number_ e = false -> log_number_ e = 0;
  inv_prev_log : has_prev_log_number_ e = false -> prev_log_number_ e = 0;
  inv_next_file : has_next_file_number_ e = false -> next_file_number_ e = 0;
  inv_last_sequence : has_last_sequence_ e = false -> last_sequence_ e = 0;
  inv_deleted : set_sorted (deleted_files_ e);
  inv_new : Forall (fun p => refs p.2 = 0 /\ allowed_seeks p.2 = 2 ^ 30) (new_files_ e);
  inv_fields : Forall field_ok (edit_fields e);
}.

Lemma new_VersionEdit_inv : edit_inv new_VersionEdit.
Proof. split; try done; constructor. Qed.

Lemma edit_fields_ok e :
  Forall field_ok (edit_fields e) <->
  ((has_comparator_ e = true -> bytes_ok (comparator_ e)) /\
   (has_log_number_ e = true -> number_ok (log_number_ e)) /\
   (has_prev_log_number_ e = true -> number_ok (prev_log_number_ e)) /\
   (has_next_file_number_ e = true -> number_ok (next_file_number_ e)) /\
   (has_last_sequence_ e = true -> number_ok (last_sequence_ e))) /\
  Forall (fun p => field_ok (FCompactPointer p.1 p.2)) (compact_pointers_ e) /\
  Forall (fun p => field_ok (FDeletedFile p.1 p.2)) (deleted_files_ e) /\
  Forall (fun p => field_ok (new_field p)) (new_files_ e).
Proof.
  assert (forall (b : bool) f, Forall field_ok (if b then [f] else []) <-> (b = true -> field_ok f)) as H1.
  { intros [] f; [rewrite list.Forall_singleton; tauto | split; [done | constructor]]. }
  unfold edit_fields. rewrite !List.Forall_app, !H1, !list.Forall_fmap. cbn [field_ok]. tauto.
Qed.

Lemma apply_field_inv e f : edit_inv e -> field_ok f -> edit_inv (apply_field e f).
Proof.
  intros [] Ho. rewrite edit_fields_ok in inv_fields0. destruct inv_fields0 as (Hn & Hp & Hd & Hf).
  split; destruct f; try done;
    try (rewrite edit_fields_ok; split;
      [destruct Hn as (? & ? & ? & ? & ?); split_and!; done|]; split_and!);
    cbn [apply_field SetComparatorName SetLogNumber SetPrevLogNumber SetNextFile SetLastSequence
      SetCompactPointer DeleteFile AddFile push_new_file compact_pointers_ deleted_files_ new_files_];
    try done; try (apply List.Forall_app; split; [done | apply list.Forall_singleton; done]).
  - by apply set_insert_sorted.
  - apply list.Forall_forall. intros p [->|Hx]%set_insert_elem; [done|].
    by apply (proj1 (list.Forall_forall _ _) Hd).
Qed.

Lemma apply_fields_inv fs e :
  edit_inv e -> Forall field_ok fs -> edit_inv (fold_left apply_field fs e).
Proof.
  revert e; induction fs as [|f fs IH]; intros e He Hos; [done|].
  apply List.Forall_cons_iff in Hos as [Ho Hos]. cbn [fold_left]. apply IH; [|done].
  by apply apply_field_inv.
Qed.

(** Pointers [cp] kept from an earlier use of the object. *)
Definition with_pointers (cp : list (Z * list byte)) (e : VersionEdit) : VersionEdit :=
  mk_edit (comparator_ e) (log_number_ e) (prev_log_number_ e) (next_file_number_ e)
    (last_sequence_ e) (has_comparator_ e) (has_log_number_ e) (has_prev_log_number_ e)
    (has_next_file_number_ e) (has_last_sequence_ e)
    (cp ++ compact_pointers_ e) (deleted_files_ e) (new_files_ e).

Lemma apply_with_pointers cp e f :
  apply_field (with_pointers cp e) f = with_pointers cp (apply_field e f).
Proof. destruct f; try done. unfold with_pointers. cbn. by rewrite app_assoc. Qed.

Lemma fold_with_pointers cp fs e :
  fold_left apply_field fs (with_pointers cp e) = with_pointers cp (fold_left apply_field fs e).
Proof.
  revert e; induction fs as [|f fs IH]; intros e; [done|]. cbn [fold_left].
  by rewrite apply_with_pointers.
Qed.

Lemma edit_Clear_pointers e : edit_Clear e = with_pointers (compact_pointers_ e) new_VersionEdit.
Proof. unfold with_pointers. cbn. by rewrite app_nil_r. Qed.

(** ** The fields of an edit rebuild it *)

Lemma rebuild_pointers ps e :
  fold_left apply_field (map (fun p => FCompactPointer p.1 p.2) ps) e
  = mk_edit (comparator_ e) (log_number_ e) (prev_log_number_ e) (next_file_number_ e)
      (last_sequence_ e) (has_comparator_ e) (has_log_number_ e) (has_prev_log_number_ e)
      (has_next_file_number_ e) (has_last_sequence_ e)
      (compact_pointers_ e ++ ps) (deleted_files_ e) (new_files_ e).
Proof.
  revert e; induction ps as [|[l k] ps IH]; intros e; cbn [map fold_left].
  { rewrite app_nil_r. by destruct e. }
  rewrite IH. cbn. by rewrite <- app_assoc.
Qed.

Lemma rebuild_deleted ds e :
  set_sorted (deleted_files_ e ++ ds) ->
  fold_left apply_field (map (fun p => FDeletedFile p.1 p.2) ds) e
  = mk_edit (comparator_ e) (log_number_ e) (prev_log_number_ e) (next_file_number_ e)
      (last_sequence_ e) (has_comparator_ e) (has_log_number_ e) (has_prev_log_number_ e)
      (has_next_file_number_ e) (has_last_sequence_ e)
      (compact_pointers_ e) (deleted_files_ e ++ ds) (new_files_ e).
Proof.
  revert e; induction ds as [|[l n] ds IH]; intros e Hs; cbn [map fold_left].
  { rewrite app_nil_r. by destruct e. }
  assert (set_insert (l, n) (deleted_files_ e) = deleted_files_ e ++ [(l, n)]) as E.
  { apply set_insert_last.
    apply (set_sorted_app_l _ ds). by rewrite <- app_assoc. }
  rewrite IH; cbn [apply_field DeleteFile fst snd deleted_files_]; rewrite E, <- app_assoc; done.
Qed.

Lemma rebuild_new ns e :
  Forall (fun p => refs p.2 = 0 /\ allowed_seeks p.2 = 2 ^ 30) ns ->
  fold_left apply_field (map new_field ns) e
  = mk_edit (comparator_ e) (log_number_ e) (prev_log_number_ e) (next_file_number_ e)
      (last_sequence_ e) (has_comparator_ e) (has_log_number_ e) (has_prev_log_number_ e)
      (has_next_file_number_ e) (has_last_sequence_ e)
      (compact_pointers_ e) (deleted_files_ e) (new_files_ e ++ ns).
Proof.
  revert e; induction ns as [|[l [r a num fs sm lg]] ns IH]; intros e Hn; cbn [map fold_left].
  { rewrite app_nil_r. by destruct e. }
  apply List.Forall_cons_iff in Hn as [[Hr Ha] Hn]. cbn in Hr, Ha. subst r a.
  rewrite IH by done. cbn. by rewrite <- app_assoc.
Qed.

(** The five optional members. *)
Lemma rebuild_scalars c ln pl nf ls (hc hl hp hn hs : bool) :
  (hc = false -> c = []) -> (hl = false -> ln = 0) -> (hp = false -> pl = 0) ->
  (hn = false -> nf = 0) -> (hs = false -> ls = 0) ->
  fold_left apply_field ((if hc then [FComparator c] else []) ++ (if hl then [FLogNumber ln] else []) ++
    (if hp then [FPrevLogNumber pl] else []) ++ (if hn then [FNextFile nf] else []) ++
    (if hs then [FLastSequence ls] else [])) new_VersionEdit
  = mk_edit c ln pl nf ls hc hl hp hn hs [] [] [].
Proof.
  intros Hc Hl Hp Hn Hs. destruct hc; [|rewrite Hc by done]; clear Hc;
    (destruct hl; [|rewrite Hl by done]); clear Hl; (destruct hp; [|rewrite Hp by done]); clear Hp;
    (destruct hn; [|rewrite Hn by done]); clear Hn; (destruct hs; [|rewrite Hs by done]); reflexivity.
Qed.

Lemma edit_fields_split e :
  edit_fields e =
  ((if has_comparator_ e then [FComparator (comparator_ e)] else []) ++
   (if has_log_number_ e then [FLogNumber (log_number_ e)] else []) ++
   (if has_prev_log_number_ e then [FPrevLogNumber (prev_log_number_ e)] else []) ++
   (if has_next_file_number_ e then [FNextFile (next_file_number_ e)] else []) ++
   (if has_last_sequence_ e then [FLastSequence (last_sequence_ e)] else [])) ++
  map (fun p => FCompactPointer p.1 p.2) (compact_pointers_ e) ++
  map (fun p => FDeletedFile p.1 p.2) (deleted_files_ e) ++ map new_field (new_files_ e).
Proof. unfold edit_fields. by rewrite <- !app_assoc. Qed.

Lemma rebuild e : edit_inv e -> fold_left apply_field (edit_fields e) new_VersionEdit = e.
Proof.
  intros []. rewrite edit_fields_split, fold_left_app, rebuild_scalars by done.
  rewrite !fold_left_app, rebuild_pointers, rebuild_deleted, rebuild_new by done.
  by destruct e.
Qed.

Lemma with_no_pointers e : with_pointers [] e = e.
Proof. by destruct e. Qed.

Lemma IsCorruption_Corruption msg msg2 : IsCorruption (Corruption msg msg2) = true.
Proof. reflexivity. Qed.

Lemma DecodeFrom_fields e0 fs :
  Forall field_ok fs ->
  edit_DecodeFrom e0 (fields_bytes fs)
  = Some (with_pointers (compact_pointers_ e0) (fold_left apply_field fs new_VersionEdit), OK).
Proof.
  intros Ho. unfold edit_DecodeFrom.
  destruct (decode_prefix (S (length (fields_bytes fs))) (edit_Clear e0) fs (fields_bytes fs) [])
    as (k & msg & _ & -> & _ & Hk); [done | by rewrite app_nil_r | lia |].
  destruct (Hk eq_refl) as [-> ->]. by rewrite firstn_all, edit_Clear_pointers, fold_with_pointers.
Qed.

Lemma DecodeFrom_EncodeTo e0 e :
  edit_inv e ->
  edit_DecodeFrom e0 (EncodeTo e []) = Some (with_pointers (compact_pointers_ e0) e, OK).
Proof.
  intros He. pose proof (inv_fields e He) as Hf. rewrite EncodeTo_fields by done.
  cbn [app]. rewrite DecodeFrom_fields by done. by rewrite rebuild.
Qed.

(** C32: version edits round trip: whatever calls of the methods build an edit
    (levels below [kNumLevels], 64-bit numbers, keys and names of fewer than
    [2 ^ 32] bytes), decoding what [EncodeTo] appends, into an edit without
    compaction pointers, succeeds and gives the edit. *)
Theorem version_edit_roundtrip fs e0 dst :
  Forall field_ok fs -> compact_pointers_ e0 = [] ->
  let e := fold_left apply_field fs new_VersionEdit in
  EncodeTo e dst = dst ++ EncodeTo e [] /\ edit_DecodeFrom e0 (EncodeTo e []) = Some (e, OK).
Proof.
  intros Hf Hp. cbv zeta. pose proof (apply_fields_inv fs _ new_VersionEdit_inv Hf) as He.
  split; [by rewrite !EncodeTo_fields by apply He|].
  by rewrite DecodeFrom_EncodeTo, Hp, with_no_pointers.
Qed.

Lemma version_edit_roundtrip_witness :
  let e := AddFile (DeleteFile (SetLogNumber new_VersionEdit 300) 1 7) 2 9 100 [x61] [x62] in
  EncodeTo e [x00] = [x00] ++ EncodeTo e [] /\ edit_DecodeFrom new_VersionEdit (EncodeTo e []) = Some (e, OK).
Proof.
  apply (version_edit_roundtrip [FLogNumber 300; FDeletedFile 1 7; FNewFile 2 9 100 [x61] [x62]]
    new_VersionEdit [x00]); [|reflexivity].
  repeat constructor; cbn; unfold level_ok, number_ok, bytes_ok, kNumLevels, size; cbn; lia.
Defined.

(** An edit cut short takes effect field by field: decoding a proper prefix of
    what [EncodeTo] wrote gives the edit of the fields that are complete in it, and
    succeeds exactly when the prefix ends between two fields. *)
Theorem version_edit_truncated fs p q :
  Forall field_ok fs ->
  EncodeTo (fold_left apply_field fs new_VersionEdit) [] = p ++ q ->
  let whole := edit_fields (fold_left apply_field fs new_VersionEdit) in
  exists k st, (k <= length whole)%nat /\
    edit_DecodeFrom new_VersionEdit p = Some (fold_left apply_field (take k whole) new_VersionEdit, st) /\
    (ok st = true <-> p = fields_bytes (take k whole)).
Proof.
  intros Hf E. cbv zeta. pose proof (apply_fields_inv fs _ new_VersionEdit_inv Hf) as He.
  pose proof (inv_fields _ He) as Hw. rewrite EncodeTo_fields in E by done. cbn [app] in E.
  destruct (decode_prefix (S (length p)) new_VersionEdit _ p q Hw E ltac:(lia))
    as (k & msg & Hk & Ed & Hm & _).
  exists k, (match msg with None => OK | Some m => Corruption (cstr "VersionEdit") m end).
  split; [done|]. unfold edit_DecodeFrom. change (edit_Clear new_VersionEdit) with new_VersionEdit.
  rewrite Ed. split; [done|]. rewrite <- Hm. by destruct msg.
Qed.

Lemma version_edit_truncated_witness :
  exists k st, (k <= 2)%nat /\
    edit_DecodeFrom new_VersionEdit [x02; xac; x02; x09]
    = Some (fold_left apply_field (take k [FLogNumber 300; FPrevLogNumber 5]) new_VersionEdit, st) /\
    (ok st = true <->
     [x02; xac; x02; x09] = fields_bytes (take k [FLogNumber 300; FPrevLogNumber 5])).
Proof.
  apply (version_edit_truncated [FLogNumber 300; FPrevLogNumber 5] [x02; xac; x02; x09] [x05]);
    [|reflexivity].
  repeat constructor; cbn; unfold number_ok; lia.
Defined.

(** Whatever the bytes, decoding returns: the status is OK or a corruption,
    and the edit is one the methods can build, with its levels in range and its
    set ordered; so the edit survives being encoded and decoded. *)
Theorem version_edit_decode_any e0 src :
  compact_pointers_ e0 = [] ->
  exists e st,
    edit_DecodeFrom e0 src = Some (e, st) /\ (ok st = true \/ IsCorruption st = true) /\
    edit_inv e /\ edit_DecodeFrom e0 (EncodeTo e []) = Some (e, OK).
Proof.
  intros Hp. destruct (decode_any (S (length src)) (edit_Clear e0) src ltac:(lia))
    as (fs & msg & Hf & E).
  rewrite edit_Clear_pointers, Hp, with_no_pointers in E.
  pose proof (apply_fields_inv fs _ new_VersionEdit_inv Hf) as He.
  eexists _, _. unfold edit_DecodeFrom at 1.
  rewrite edit_Clear_pointers, Hp, with_no_pointers, E. split; [done|].
  split; [destruct msg; [right; reflexivity | by left]|]. split; [done|].
  by rewrite DecodeFrom_EncodeTo, Hp, with_no_pointers.
Qed.

Lemma version_edit_decode_any_witness :
  exists e st,
    edit_DecodeFrom new_VersionEdit [x06; x07] = Some (e, st) /\
    (ok st = true \/ IsCorruption st = true) /\
    edit_inv e /\ edit_DecodeFrom new_VersionEdit (EncodeTo e []) = Some (e, OK).
Proof. apply (version_edit_decode_any new_VersionEdit [x06; x07]). reflexivity. Defined.

(** Decoding into an edit that has been used keeps its compaction pointers in
    front of those decoded: [Clear] resets every other member. *)
Theorem edit_reuse_accumulates fs e0 :
  Forall field_ok fs ->
  let e := fold_left apply_field fs new_VersionEdit in
  edit_DecodeFrom e0 (EncodeTo e []) = Some (with_pointers (compact_pointers_ e0) e, OK).
Proof.
  intros Hf. apply DecodeFrom_EncodeTo, apply_fields_inv; [apply new_VersionEdit_inv | done].
Qed.

Lemma edit_reuse_accumulates_witness :
  edit_DecodeFrom (SetCompactPointer new_VersionEdit 1 [x61])
    (EncodeTo (SetCompactPointer new_VersionEdit 2 [x62]) [])
  = Some (SetCompactPointer (SetCompactPointer new_VersionEdit 1 [x61]) 2 [x62], OK).
Proof.
  apply (edit_reuse_accumulates [FCompactPointer 2 [x62]] (SetCompactPointer new_VersionEdit 1 [x61])).
  repeat constructor; cbn; unfold kNumLevels, size; cbn; lia.
Defined.
