(* ===== verification/LdbDbIter.v ===== *)
(** leveldb: the iterator of the database (db/db_iter.cc), that shows the newest
    visible version of every user key.

    [user_view]: the entries a snapshot shows, as a reference.  [db_iter_correct]:
    over a cursor on the internal entries the iterator is a cursor over them, through
    any changes of direction.  [sampling_terminates]: the loop that draws random
    numbers for the compaction samples ends.  [db_iter_short_key]: on a damaged key
    of less than eight bytes a change of direction reads out of bounds. *)

From Stdlib Require Import Sorting.Sorted.
From S2P Require Import Prelude Leb128 LdbCoding LdbStatus LdbFormat LdbSkiplist LdbIterator LdbMerger.
Open Scope Z_scope.

(** * The iterator *)

Inductive Direction := kForward | kReverse.

Definition kReadBytesPeriod : Z := 1048576.

Section DBIter.
Context {user_comparator : Comparator} {I : Type} `{Iterator I}.

(** [db_]: the keys it was told to record by [RecordReadSample]. *)
Record DBIter := mk_dbiter {
  db_ : list (list byte);
  dbi_iter : I;
  sequence_ : Z;
  dbi_status : Status;
  saved_key_ : list byte;
  saved_value_ : list byte;
  direction_ : Direction;
  dbi_valid : bool;
  dbi_rnd : Random;
  bytes_until_read_sampling_ : Z;
}.

Definition RandomCompactionPeriod (rnd : Random) : Z * Random := Uniform rnd (2 * kReadBytesPeriod).

Definition NewDBIterator (internal_iter : I) (s seed : Z) : DBIter :=
  let '(period, rnd) := RandomCompactionPeriod (new_Random seed) in
  mk_dbiter [] internal_iter s OK [] [] kForward false rnd period.

Definition set_iter (it : DBIter) (i : I) : DBIter :=
  mk_dbiter (db_ it) i (sequence_ it) (dbi_status it) (saved_key_ it) (saved_value_ it) (direction_ it)
    (dbi_valid it) (dbi_rnd it) (bytes_until_read_sampling_ it).
Definition set_dbi_status (it : DBIter) (s : Status) : DBIter :=
  mk_dbiter (db_ it) (dbi_iter it) (sequence_ it) s (saved_key_ it) (saved_value_ it) (direction_ it)
    (dbi_valid it) (dbi_rnd it) (bytes_until_read_sampling_ it).
Definition set_saved (it : DBIter) (k v : list byte) : DBIter :=
  mk_dbiter (db_ it) (dbi_iter it) (sequence_ it) (dbi_status it) k v (direction_ it)
    (dbi_valid it) (dbi_rnd it) (bytes_until_read_sampling_ it).
Definition set_saved_key (it : DBIter) (k : list byte) : DBIter := set_saved it k (saved_value_ it).
Definition set_direction (it : DBIter) (d : Direction) : DBIter :=
  mk_dbiter (db_ it) (dbi_iter it) (sequence_ it) (dbi_status it) (saved_key_ it) (saved_value_ it) d
    (dbi_valid it) (dbi_rnd it) (bytes_until_read_sampling_ it).
Definition set_dbi_valid (it : DBIter) (b : bool) : DBIter :=
  mk_dbiter (db_ it) (dbi_iter it) (sequence_ it) (dbi_status it) (saved_key_ it) (saved_value_ it)
    (direction_ it) b (dbi_rnd it) (bytes_until_read_sampling_ it).
Definition set_sampling (it : DBIter) (db : list (list byte)) (rnd : Random) (n : Z) : DBIter :=
  mk_dbiter db (dbi_iter it) (sequence_ it) (dbi_status it) (saved_key_ it) (saved_value_ it)
    (direction_ it) (dbi_valid it) rnd n.

(** The memory the string keeps is not modelled. *)
Definition ClearSavedValue (it : DBIter) : DBIter := set_saved it (saved_key_ it) [].

(** [ExtractUserKey] of the key of the internal iterator: [size() - 8] wraps around on
    less than eight bytes. *)
Definition iter_user_key (it : DBIter) : run (list byte) :=
  k ← key (dbi_iter it); if size k <? 8 then OutOfBounds else Done (ExtractUserKey k).

Fixpoint sample_loop (fuel : nat) (k : list byte) (bytes_read : Z) (it : DBIter) : run DBIter :=
  match fuel with
  | O => OutOfFuel
  | S fuel =>
      if bytes_until_read_sampling_ it <? bytes_read then
        let '(period, rnd) := RandomCompactionPeriod (dbi_rnd it) in
        sample_loop fuel k bytes_read
          (set_sampling it (db_ it ++ [k]) rnd (u64 (bytes_until_read_sampling_ it + period)))
      else Done it
  end.

(** Two draws are not both zero. *)
Definition sample_fuel (bytes_read : Z) : nat := S (2 * Z.to_nat bytes_read).

Definition ParseKey (it : DBIter) : run (option ParsedInternalKey * DBIter) :=
  k ← key (dbi_iter it);
  v ← value (dbi_iter it);
  let bytes_read := u64 (size k + size v) in
  it ← sample_loop (sample_fuel bytes_read) k bytes_read it;
  let it := set_sampling it (db_ it) (dbi_rnd it) (bytes_until_read_sampling_ it - bytes_read) in
  match ParseInternalKey k with
  | None => Done (None, set_dbi_status it (Corruption (cstr "corrupted internal key in DBIter") []))
  | Some ikey => Done (Some ikey, it)
  end.

(** [ParseKey(&ikey) && ikey.sequence <= sequence_]. *)
Definition seen (ikey : option ParsedInternalKey) (it : DBIter) : option ParsedInternalKey :=
  match ikey with
  | Some k => if sequence k <=? sequence_ it then Some k else None
  | None => None
  end.

(** [skip] points to [saved_key_] in every call. *)
Fixpoint FindNextUserEntry (fuel : nat) (skipping : bool) (it : DBIter) : run DBIter :=
  match fuel with
  | O => OutOfFuel
  | S fuel =>
      '(ikey, it) ← ParseKey it;
      let '(found, skipping, it) :=
        match seen ikey it with
        | Some ikey =>
            if vtype ikey =? kTypeDeletion then (false, true, set_saved_key it (user_key ikey))
            else if vtype ikey =? kTypeValue then
              if skipping && (Compare (user_key ikey) (saved_key_ it) <=? 0) then (false, skipping, it)
              else (true, skipping, set_saved_key (set_dbi_valid it true) [])
            else (false, skipping, it)
        | None => (false, skipping, it)
        end in
      if (found : bool) then Done it
      else
        i ← Next (dbi_iter it);
        let it := set_iter it i in
        if Valid i then FindNextUserEntry fuel skipping it
        else Done (set_dbi_valid (set_saved_key it []) false)
  end.

(** The loop and the [value_type] it leaves with. *)
Fixpoint find_prev_loop (fuel : nat) (value_type : Z) (it : DBIter) : run (Z * DBIter) :=
  match fuel with
  | O => OutOfFuel
  | S fuel =>
      '(ikey, it) ← ParseKey it;
      let step value_type it :=
        i ← Prev (dbi_iter it);
        let it := set_iter it i in
        if Valid i then find_prev_loop fuel value_type it else Done (value_type, it) in
      match seen ikey it with
      | Some ikey =>
          if negb (value_type =? kTypeDeletion) && (Compare (user_key ikey) (saved_key_ it) <? 0)
          then Done (value_type, it)
          else
            if vtype ikey =? kTypeDeletion then step (vtype ikey) (ClearSavedValue (set_saved_key it []))
            else
              raw_value ← value (dbi_iter it);
              k ← iter_user_key it;
              step (vtype ikey) (set_saved it k raw_value)
      | None => step value_type it
      end
  end.

Definition FindPrevUserEntry (fuel : nat) (it : DBIter) : run DBIter :=
  '(value_type, it) ←
    (if Valid (dbi_iter it) then find_prev_loop fuel kTypeDeletion it else Done (kTypeDeletion, it));
  if value_type =? kTypeDeletion
  then Done (set_direction (ClearSavedValue (set_saved_key (set_dbi_valid it false) [])) kForward)
  else Done (set_dbi_valid it true).

(** The loops turn at most once for each entry of the internal iterator. *)
Context (fuel : nat).

Definition dbi_Next (it : DBIter) : run DBIter :=
  match direction_ it with
  | kReverse =>
      let it := set_direction it kForward in
      i ← (if negb (Valid (dbi_iter it)) then SeekToFirst (dbi_iter it) else Next (dbi_iter it));
      let it := set_iter it i in
      if negb (Valid i) then Done (set_saved_key (set_dbi_valid it false) [])
      else FindNextUserEntry fuel true it
  | kForward =>
      k ← iter_user_key it;
      FindNextUserEntry fuel true (set_saved_key it k)
  end.

(** Backwards until the key changes: whether there is a smaller one. *)
Fixpoint prev_key_loop (fuel : nat) (it : DBIter) : run (bool * DBIter) :=
  match fuel with
  | O => OutOfFuel
  | S fuel =>
      i ← Prev (dbi_iter it);
      let it := set_iter it i in
      if negb (Valid i) then Done (false, ClearSavedValue (set_saved_key (set_dbi_valid it false) []))
      else
        k ← iter_user_key it;
        if Compare k (saved_key_ it) <? 0 then Done (true, it) else prev_key_loop fuel it
  end.

Definition dbi_Prev (it : DBIter) : run DBIter :=
  match direction_ it with
  | kForward =>
      k ← iter_user_key it;
      '(smaller, it) ← prev_key_loop fuel (set_saved_key it k);
      if (smaller : bool) then FindPrevUserEntry fuel (set_direction it kReverse) else Done it
  | kReverse => FindPrevUserEntry fuel it
  end.

(** The start of the seeks forward. *)
Definition from_here (it : DBIter) (i : I) : run DBIter :=
  let it := set_iter it i in
  if Valid i then FindNextUserEntry fuel false it else Done (set_dbi_valid it false).

Definition dbi_Seek (it : DBIter) (target : list byte) : run DBIter :=
  let it := ClearSavedValue (set_direction it kForward) in
  let it := set_saved_key it (AppendInternalKey [] (mk_key target (sequence_ it) kValueTypeForSeek)) in
  i ← Seek (dbi_iter it) (saved_key_ it); from_here it i.

Definition dbi_SeekToFirst (it : DBIter) : run DBIter :=
  let it := ClearSavedValue (set_direction it kForward) in
  i ← SeekToFirst (dbi_iter it); from_here it i.

Definition dbi_SeekToLast (it : DBIter) : run DBIter :=
  let it := ClearSavedValue (set_direction it kReverse) in
  i ← SeekToLast (dbi_iter it); FindPrevUserEntry fuel (set_iter it i).

Definition db_iterator : Iterator DBIter := {|
  Valid := dbi_valid;
  SeekToFirst := dbi_SeekToFirst;
  SeekToLast := dbi_SeekToLast;
  Seek := dbi_Seek;
  Next := dbi_Next;
  Prev := dbi_Prev;
  key it := match direction_ it with kForward => iter_user_key it | kReverse => Done (saved_key_ it) end;
  value it := match direction_ it with kForward => value (dbi_iter it) | kReverse => Done (saved_value_ it) end;
  status it := if ok (dbi_status it) then status (dbi_iter it) else dbi_status it;
|}.
End DBIter.
Arguments DBIter I : clear implicits.

(** * Samples *)

Lemma new_Random_ok seed : 1 <= new_Random seed < 2 ^ 31 - 1.
Proof.
  unfold new_Random. assert (0 <= Z.land seed 0x7fffffff < 2 ^ 31) as Hb.
  { change 0x7fffffff with (Z.ones 31). rewrite Z.land_ones by lia. by apply Z.mod_pos_bound. }
  destruct (Z.eqb_spec (Z.land seed 0x7fffffff) 0); [done|].
  destruct (Z.eqb_spec (Z.land seed 0x7fffffff) 2147483647); [done|]. cbn [orb]. lia.
Qed.

(** A draw of zero is followed by one that is not. *)
Lemma Uniform_progress rnd :
  1 <= rnd < 2 ^ 31 - 1 -> rnd mod (2 * kReadBytesPeriod) = 0 -> rnd_Next rnd mod (2 * kReadBytesPeriod) <> 0.
Proof.
  intros Hr H0. destruct (rnd_Next_eq rnd Hr) as [-> _].
  assert (exists a, 1 <= a <= 1023 /\ rnd = a * 2097152) as (a & Ha & ->).
  { exists (rnd / 2097152). change (2 * kReadBytesPeriod) with 2097152 in H0.
    pose proof (Z.div_mod rnd 2097152 ltac:(lia)). lia. }
  assert (forallb (fun i => negb (Z.of_nat i * 2097152 * 16807 mod (2 ^ 31 - 1) mod (2 * kReadBytesPeriod) =? 0))
    (seq 1 1023) = true) as Hall by (vm_compute; reflexivity).
  rewrite forallb_forall in Hall. specialize (Hall (Z.to_nat a)). rewrite Z2Nat.id in Hall by lia.
  apply Z.eqb_neq, negb_true_iff, Hall, in_seq. lia.
Qed.

Section Sampling.
Context {user_comparator : Comparator} {I : Type} `{Iterator I}.
Implicit Type it : DBIter I.

Definition sampling_ok it : Prop :=
  1 <= dbi_rnd it < 2 ^ 31 - 1 /\ 0 <= bytes_until_read_sampling_ it < 2 * kReadBytesPeriod.

(** [it'] is [it] after some samples. *)
Definition sampled it it' : Prop :=
  it' = set_sampling it (db_ it') (dbi_rnd it') (bytes_until_read_sampling_ it').

Lemma sample_loop_ok k bytes_read : forall fuel it,
  bytes_read < 2 ^ 63 -> 1 <= dbi_rnd it < 2 ^ 31 - 1 ->
  0 <= bytes_until_read_sampling_ it < Z.max 0 bytes_read + 2 * kReadBytesPeriod ->
  (0 < fuel)%nat ->
  2 * (bytes_read - bytes_until_read_sampling_ it) + 1 <= Z.of_nat fuel \/
  2 * (bytes_read - bytes_until_read_sampling_ it) <= Z.of_nat fuel /\ dbi_rnd it mod (2 * kReadBytesPeriod) = 0 ->
  exists it', sample_loop fuel k bytes_read it = Done it' /\ sampled it it' /\
    1 <= dbi_rnd it' < 2 ^ 31 - 1 /\ bytes_read <= bytes_until_read_sampling_ it' /\
    0 <= bytes_until_read_sampling_ it' < Z.max 0 bytes_read + 2 * kReadBytesPeriod.
Proof.
  induction fuel as [|fuel IH]; intros it Hbr Hr Hb Hf Hfuel; [lia|]. cbn [sample_loop].
  destruct (Z.ltb_spec (bytes_until_read_sampling_ it) bytes_read) as [Hlt|Hge].
  2: { exists it. split; [done|]. split; [by destruct it|]. lia. }
  pose proof (Uniform_progress (dbi_rnd it) Hr) as Hprog. destruct (rnd_Next_eq _ Hr) as [_ Hr'].
  unfold RandomCompactionPeriod, Uniform. set (rnd := rnd_Next (dbi_rnd it)) in *.
  change (u32 (2 * kReadBytesPeriod)) with (2 * kReadBytesPeriod).
  pose proof (Z.mod_pos_bound rnd (2 * kReadBytesPeriod) ltac:(done)) as Hp. set (p := rnd mod _) in *.
  assert (2 * kReadBytesPeriod = 2 ^ 21) as EK by done.
  rewrite u64_small by lia.
  destruct (IH (set_sampling it (db_ it ++ [k]) rnd (bytes_until_read_sampling_ it + p))) as (it' & E & Hs & Hrest);
    [done|done|cbn; lia|lia|cbn; destruct (Z.eq_dec p 0); [right; split; [lia|done]|left; lia]|].
  exists it'. split; [done|]. split; [|done]. unfold sampled in *. by rewrite Hs.
Qed.

Lemma ParseKey_ok it k v :
  key (dbi_iter it) = Done k -> value (dbi_iter it) = Done v -> size k + size v < 2 ^ 63 -> sampling_ok it ->
  exists it', sampled it it' /\ sampling_ok it' /\
    ParseKey it = Done (ParseInternalKey k, match ParseInternalKey k with
      | Some _ => it'
      | None => set_dbi_status it' (Corruption (cstr "corrupted internal key in DBIter") []) end).
Proof.
  intros Hk Hv Hs [Hr Hb]. unfold ParseKey. rewrite Hk, run_bind_done, Hv, run_bind_done.
  pose proof (size_nonneg k). pose proof (size_nonneg v). rewrite u64_small by lia.
  destruct (sample_loop_ok k (size k + size v) (sample_fuel (size k + size v)) it) as (it' & -> & Hsam & Hr' & Hge & Hb').
  - done.
  - done.
  - lia.
  - unfold sample_fuel. lia.
  - left. unfold sample_fuel. lia.
  - rewrite run_bind_done. set (it2 := set_sampling it' _ _ _). exists it2. split; [|split].
    + unfold sampled in *. unfold it2. cbn. by rewrite Hsam.
    + split; cbn; lia.
    + by destruct (ParseInternalKey k).
Qed.
End Sampling.

(** * What a snapshot shows *)

Section View.
Context {user_comparator : Comparator} (s : Z) (kvs : list (list byte * list byte)).

Definition ikey_at (p : nat) : ParsedInternalKey :=
  match kvs !! p with
  | Some (k, _) => default (mk_key [] 0 0) (ParseInternalKey k)
  | None => mk_key [] 0 0
  end.
Definition value_at (p : nat) : list byte := match kvs !! p with Some (_, v) => v | None => [] end.

(** Not newer than the snapshot. *)
Definition visible_at (p : nat) : bool :=
  match kvs !! p with
  | Some (k, _) => match ParseInternalKey k with Some ik => sequence ik <=? s | None => false end
  | None => false
  end.

Definition same_key (p q : nat) : bool := Compare (user_key (ikey_at p)) (user_key (ikey_at q)) =? 0.

(** A value, and the first visible entry of its user key: the newest. *)
Definition yields (p : nat) : bool :=
  visible_at p && (vtype (ikey_at p) =? kTypeValue) && negb (existsb (fun q => visible_at q && same_key q p) (seq 0 p)).

Definition user_entry (p : nat) : list byte * list byte := (user_key (ikey_at p), value_at p).

Definition user_view : list (list byte * list byte) := map user_entry (List.filter yields (seq 0 (length kvs))).

(** The entries of the view before position [p]. *)
Definition rank (p : nat) : nat := length (List.filter yields (seq 0 p)).

Lemma rank_S p : rank (S p) = (rank p + if yields p then 1 else 0)%nat.
Proof.
  unfold rank. rewrite seq_S, List.filter_app, length_app. cbn [List.filter plus]. by destruct (yields p).
Qed.

Lemma rank_none a b : (a <= b)%nat -> (forall q, (a <= q < b)%nat -> yields q = false) -> rank b = rank a.
Proof.
  intros Hab Hn. induction b as [|b IH]; [by assert (a = 0)%nat as -> by lia|].
  destruct (decide (a = S b)) as [-> |Hne]; [done|]. rewrite rank_S, Hn, Nat.add_0_r by lia. apply IH; [lia|].
  intros q Hq. apply Hn. lia.
Qed.

Lemma visible_lt p : visible_at p = true -> (p < length kvs)%nat.
Proof.
  unfold visible_at. destruct (kvs !! p) eqn:E; [|done]. intros _. by apply lookup_lt_Some in E.
Qed.

Lemma yields_visible p : yields p = true -> visible_at p = true /\ vtype (ikey_at p) = kTypeValue.
Proof. unfold yields. rewrite !andb_true_iff, Z.eqb_eq. tauto. Qed.

Lemma yields_first p q : yields p = true -> (q < p)%nat -> visible_at q = true -> same_key q p = false.
Proof.
  unfold yields. rewrite !andb_true_iff, negb_true_iff. intros [_ He] Hq Hv. apply not_true_is_false. intros Hs.
  assert (existsb (fun q => visible_at q && same_key q p) (seq 0 p) = true) as Ht; [|by rewrite He in Ht].
  apply existsb_exists. exists q. rewrite Hv, Hs. split; [|done]. apply in_seq. lia.
Qed.

Lemma yields_intro p : visible_at p = true -> vtype (ikey_at p) = kTypeValue ->
  (forall q, (q < p)%nat -> visible_at q = true -> same_key q p = false) -> yields p = true.
Proof.
  intros Hv Ht Hf. unfold yields. rewrite Hv, Ht. cbn [andb kTypeValue Z.eqb Pos.eqb]. apply negb_true_iff, not_true_is_false.
  intros (q & Hq%in_seq & Hq')%existsb_exists. apply andb_true_iff in Hq' as [Hvq Hs]. rewrite Hf in Hs; [done|lia|done].
Qed.

Lemma length_user_view : length user_view = rank (length kvs).
Proof. unfold user_view, rank. by rewrite length_map. Qed.

Lemma user_view_rank p : yields p = true -> user_view !! rank p = Some (user_entry p).
Proof.
  intros Hy. pose proof (visible_lt p (proj1 (yields_visible p Hy))) as Hp. unfold user_view.
  rewrite list_lookup_fmap. replace (length kvs) with (p + S (length kvs - S p))%nat by lia.
  rewrite seq_app, List.filter_app, lookup_app_r by (unfold rank; lia). unfold rank. rewrite Nat.sub_diag.
  cbn [seq List.filter plus]. by rewrite Hy.
Qed.

Lemma rank_lt p : yields p = true -> (rank p < length user_view)%nat.
Proof. intros Hy. apply user_view_rank, lookup_lt_Some in Hy. done. Qed.

Lemma user_view_inv j : (j < length user_view)%nat -> exists p, yields p = true /\ j = rank p.
Proof.
  rewrite length_user_view. generalize (length kvs) as n. induction n as [|n IH]; [cbn; lia|]. rewrite rank_S.
  destruct (yields n) eqn:E; [|rewrite Nat.add_0_r; apply IH].
  intros Hj. destruct (decide (j = rank n)) as [-> |]; [by exists n|]. apply IH. lia.
Qed.

Lemma rank_mono p q : (p <= q)%nat -> (rank p <= rank q)%nat.
Proof. induction 1 as [|q _ IH]; [done|]. rewrite rank_S. lia. Qed.

Lemma rank_inj_lt p q : yields q = true -> (rank q < rank p)%nat <-> (q < p)%nat.
Proof.
  intros Hy. split; intros Hl.
  - destruct (Nat.le_gt_cases p q) as [Hle|]; [|done]. apply rank_mono in Hle. lia.
  - pose proof (rank_mono (S q) p Hl) as Hm. rewrite rank_S, Hy in Hm. lia.
Qed.
End View.

(** * The iterator follows the view *)

Section Correct.
Context {u : Comparator} {uvalid : list byte -> Prop} {laws : ComparatorLaws uvalid u}.
Context (s : Z) (s_bound : 0 <= s < 2 ^ 56) (kvs : list (list byte * list byte)).

(** The internal keys are well formed, in order, and entries are not huge. *)
Definition entry_ok (kv : list byte * list byte) : Prop :=
  (exists ik, ParseInternalKey (fst kv) = Some ik) /\ uvalid (ExtractUserKey (fst kv)) /\
  size (fst kv) + size (snd kv) < 2 ^ 63.

Context (entries_ok : Forall entry_ok kvs).
Context (sorted : StronglySorted (fun a b => internal_compare u (fst a) (fst b) < 0) kvs).

#[local] Abbreviation n := (length kvs).
#[local] Abbreviation ukey p := (user_key (ikey_at kvs p)).
#[local] Abbreviation visible := (visible_at s kvs).
#[local] Abbreviation same := (same_key kvs).
#[local] Abbreviation yield := (yields s kvs).
#[local] Abbreviation rk := (rank s kvs).
#[local] Abbreviation view := (user_view s kvs).

Lemma entry_facts p : (p < n)%nat -> exists k v,
  kvs !! p = Some (k, v) /\ ParseInternalKey k = Some (ikey_at kvs p) /\ value_at kvs p = v /\
  ukey p = ExtractUserKey k /\ uvalid (ukey p) /\ 8 <= size k /\ size k + size v < 2 ^ 63.
Proof.
  intros Hp. destruct (lookup_lt_is_Some_2 kvs p Hp) as [[k v] E]. exists k, v. split; [done|].
  pose proof entries_ok as Hok. rewrite list.Forall_forall in Hok.
  destruct (Hok (k, v) (list_elem_of_lookup_2 _ _ _ E)) as ((ik & Ek) & Hv & Hs). cbn [fst snd] in *.
  unfold ikey_at, value_at. rewrite E, Ek. cbn [default]. split; [done|]. split; [done|].
  revert Ek. unfold ParseInternalKey. destruct (Z.ltb_spec (size k) 8); [done|].
  destruct (_ <=? kTypeValue); [|done]. intros [= <-]. cbn [user_key default from_option]. by split_and!.
Qed.

Lemma type_cases p : (p < n)%nat -> vtype (ikey_at kvs p) = kTypeDeletion \/ vtype (ikey_at kvs p) = kTypeValue.
Proof.
  intros Hp. destruct (entry_facts p Hp) as (k & v & _ & Ek & _). revert Ek. unfold ParseInternalKey.
  destruct (size k <? 8); [done|]. destruct (Z.leb_spec (Z.land (key_tag k) 0xff) kTypeValue) as [Hle|]; [|done].
  intros [= <-]. cbn [vtype]. assert (0 <= Z.land (key_tag k) 255) by (apply Z.land_nonneg; lia).
  unfold kTypeDeletion, kTypeValue in *. lia.
Qed.

Lemma ukey_valid p : (p < n)%nat -> uvalid (ukey p).
Proof. intros Hp. by destruct (entry_facts p Hp) as (? & ? & ? & ? & ? & ? & ? & ?). Qed.

Lemma ukey_sorted_strict p q k v k' v' : (p < q)%nat -> kvs !! p = Some (k, v) -> kvs !! q = Some (k', v') ->
  internal_compare u k k' < 0.
Proof.
  intros Hpq E E'. pose proof sorted as Hs. rewrite <- (take_drop_middle kvs p (k, v) E) in Hs.
  assert (forall l, StronglySorted (fun a b => internal_compare u (fst a) (fst b) < 0) (l ++ (k, v) :: drop (S p) kvs) ->
    Forall (fun x => internal_compare u k (fst x) < 0) (drop (S p) kvs)) as Hall.
  { induction l as [|x l IH]; intros Hl; inversion_clear Hl; auto. }
  specialize (Hall _ Hs). rewrite list.Forall_forall in Hall. apply (Hall (k', v')).
  apply list_elem_of_lookup. exists (q - S p)%nat. rewrite lookup_drop, <- E'. f_equal. lia.
Qed.

Lemma ukey_sorted p q : (p <= q)%nat -> (q < n)%nat -> Compare (ukey p) (ukey q) <= 0.
Proof.
  intros Hpq Hq. destruct (decide (p = q)) as [-> |Hne]; [rewrite cmp_refl; [done|by apply ukey_valid]|].
  destruct (entry_facts p ltac:(lia)) as (k & v & E & _ & _ & -> & _).
  destruct (entry_facts q Hq) as (k' & v' & E' & _ & _ & -> & _).
  pose proof (ukey_sorted_strict p q k v k' v' ltac:(lia) E E') as Hlt. apply icmp_lt in Hlt. lia.
Qed.

Lemma same_sym p q : (p < n)%nat -> (q < n)%nat -> same p q = same q p.
Proof.
  intros Hp Hq. unfold same_key. pose proof (cmp_eq_sym _ _ (ukey_valid p Hp) (ukey_valid q Hq)) as Hs.
  destruct (Z.eqb_spec (Compare (ukey p) (ukey q)) 0), (Z.eqb_spec (Compare (ukey q) (ukey p)) 0); tauto.
Qed.

(** Later entries: either of the same key or of a larger one. *)
Lemma same_or_less p q : (p <= q)%nat -> (q < n)%nat -> same p q = true \/ Compare (ukey p) (ukey q) < 0.
Proof.
  intros Hpq Hq. pose proof (ukey_sorted p q Hpq Hq) as Hle. unfold same_key.
  destruct (Z.eqb_spec (Compare (ukey p) (ukey q)) 0); [by left|right; lia].
Qed.

Lemma same_le p q k : (p < n)%nat -> (q < n)%nat -> uvalid k -> same p q = true ->
  Compare (ukey p) k <= 0 <-> Compare (ukey q) k <= 0.
Proof.
  intros Hp Hq Hk Hs%Z.eqb_eq. pose proof (proj1 (cmp_eq_sym _ _ (ukey_valid p Hp) (ukey_valid q Hq)) Hs).
  split; intros Hle.
  - apply (cmp_trans _ (ukey p)); auto using ukey_valid. lia.
  - apply (cmp_trans _ (ukey q)); auto using ukey_valid. lia.
Qed.

(** An entry between two of the same key is of that key. *)
Lemma same_between p q r : (p <= q <= r)%nat -> (r < n)%nat -> same p r = true -> same p q = true /\ same q r = true.
Proof.
  intros Hpq Hr Hs%Z.eqb_eq. pose proof (ukey_sorted p q ltac:(lia) ltac:(lia)) as G1.
  pose proof (ukey_sorted q r ltac:(lia) ltac:(lia)) as G2.
  pose proof (ukey_valid p ltac:(lia)). pose proof (ukey_valid q ltac:(lia)). pose proof (ukey_valid r Hr).
  pose proof (proj1 (cmp_eq_sym _ _ (ukey_valid p ltac:(lia)) (ukey_valid r Hr)) Hs) as Hs'.
  assert (Compare (ukey q) (ukey p) <= 0) as G3 by (apply (cmp_trans _ (ukey r)); auto; lia).
  assert (Compare (ukey r) (ukey q) <= 0) as G4 by (apply (cmp_trans _ (ukey p)); auto; lia).
  pose proof (cmp_antisym (ukey p) (ukey q) ltac:(done) ltac:(done)).
  pose proof (cmp_antisym (ukey q) (ukey r) ltac:(done) ltac:(done)).
  unfold same_key. rewrite !Z.eqb_eq. lia.
Qed.

(** ** Forward *)

(** Before entry [p] is looked at, looking for the first one from [t] on that yields:
    [skip] is the key to skip, if there is one. *)
Record looking (t p : nat) (skip : option (list byte)) : Prop := {
  lo_none q : (t <= q < p)%nat -> yield q = false;
  lo_valid k : skip = Some k -> uvalid k;
  lo_skip q : (p <= q)%nat -> visible q = true ->
    (exists k, skip = Some k /\ Compare (ukey q) k <= 0) <->
    (q < t)%nat \/ exists q', (q' < Nat.max p t)%nat /\ visible q' = true /\ same q' q = true;
  lo_value q : (p <= q < t)%nat -> visible q = true -> vtype (ikey_at kvs q) = kTypeValue;
}.

Lemma looking_invisible t p skip : looking t p skip -> visible p = false -> looking t (S p) skip.
Proof.
  intros [Hn Hk Hs Hv] Hp. split; [|done| |].
  - intros q Hq. destruct (decide (q = p)) as [-> |]; [|apply Hn; lia].
    apply not_true_is_false. intros Hy%yields_visible. destruct Hy. congruence.
  - intros q Hq Hvq. rewrite Hs by (done || lia). split; intros [Hlt|(q' & Hq' & Hv' & Hsame)]; auto; right; exists q'.
    + split; [lia|done].
    + split; [|done]. destruct (decide (q' = p)) as [-> |]; [congruence|lia].
  - intros q Hq. apply Hv. lia.
Qed.

Lemma looking_deleted t p skip : looking t p skip -> visible p = true -> vtype (ikey_at kvs p) = kTypeDeletion ->
  looking t (S p) (Some (ukey p)).
Proof.
  intros [Hn Hk Hs Hv] Hp Ht. pose proof (visible_lt s kvs p Hp) as Hpn.
  assert (t <= p)%nat as Htp. { destruct (Nat.le_gt_cases t p); [done|]. rewrite Hv in Ht; [done|lia|done]. }
  split.
  - intros q Hq. destruct (decide (q = p)) as [-> |]; [|apply Hn; lia].
    apply not_true_is_false. intros [_ Hy]%yields_visible. by rewrite Ht in Hy.
  - intros k [= <-]. by apply ukey_valid.
  - intros q Hq Hvq. pose proof (visible_lt s kvs q Hvq) as Hqn. split.
    + intros (k & [= <-] & Hle). right. exists p. split; [lia|]. split; [done|].
      destruct (same_or_less p q ltac:(lia) Hqn) as [|Hlt]; [done|].
      pose proof (cmp_antisym _ _ (ukey_valid p Hpn) (ukey_valid q Hqn)). lia.
    + intros [Hlt|(q' & Hq' & Hv' & Hsame)]; [lia|]. exists (ukey p). split; [done|].
      destruct (same_between q' p q ltac:(lia) Hqn Hsame) as [_ Hpq].
      rewrite same_sym in Hpq by lia. apply Z.eqb_eq in Hpq. lia.
  - intros q Hq. lia.
Qed.

Lemma looking_hidden t p skip k : looking t p skip -> visible p = true -> skip = Some k -> Compare (ukey p) k <= 0 ->
  looking t (S p) skip.
Proof.
  intros [Hn Hk Hs Hv] Hp Hskip Hle. pose proof (visible_lt s kvs p Hp) as Hpn.
  pose proof (proj1 (Hs p ltac:(lia) Hp) (ex_intro _ k (conj Hskip Hle))) as Hhid. split; [|done| |].
  - intros q Hq. destruct (decide (q = p)) as [-> |]; [|apply Hn; lia].
    destruct Hhid as [|(q' & Hq' & Hv' & Hsame)]; [lia|].
    apply not_true_is_false. intros Hy. rewrite (yields_first s kvs p q' Hy) in Hsame; [done|lia|done].
  - intros q Hq Hvq. pose proof (visible_lt s kvs q Hvq) as Hqn. rewrite Hs by (done || lia).
    split; intros [Hlt|(q' & Hq' & Hv' & Hsame)]; auto.
    + right. exists q'. split; [lia|done].
    + destruct (decide (q' < Nat.max p t)%nat); [right; by exists q'|].
      assert (q' = p) as -> by lia. apply (Hs q ltac:(lia) Hvq). exists k. split; [done|].
      by apply (same_le p q k Hpn Hqn (Hk k Hskip) Hsame).
  - intros q Hq. apply Hv. lia.
Qed.

Lemma looking_found t p skip : looking t p skip -> visible p = true -> vtype (ikey_at kvs p) = kTypeValue ->
  (forall k, skip = Some k -> 0 < Compare (ukey p) k) -> yield p = true /\ rk p = rk t.
Proof.
  intros [Hn Hk Hs Hv] Hp Ht Hnot. pose proof (Hs p ltac:(lia) Hp) as Hi.
  assert (~ ((p < t)%nat \/ exists q', (q' < Nat.max p t)%nat /\ visible q' = true /\ same q' p = true)) as Hno.
  { intros Hh. apply Hi in Hh as (k & Hk' & Hle). specialize (Hnot k Hk'). lia. }
  assert (t <= p)%nat as Htp by (apply Nat.nlt_ge; tauto). split; [|by apply rank_none].
  apply yields_intro; [done|done|]. intros q Hq Hvq. apply not_true_is_false. intros Hsame.
  apply Hno. right. exists q. split; [lia|done].
Qed.

Lemma looking_end t skip : looking t n skip -> (t <= n)%nat -> rk t = length view.
Proof. intros Hl Ht. rewrite length_user_view. symmetry. apply rank_none; [done|]. intros q Hq. by apply (lo_none _ _ _ Hl). Qed.

(** From an entry that yields, or one of its key before it. *)
Lemma looking_after c p : yield c = true -> (p <= c)%nat -> (forall q, (p <= q < c)%nat -> visible q = false) ->
  looking (S c) p (Some (ukey c)).
Proof.
  intros Hy Hpc Hno. destruct (yields_visible s kvs c Hy) as [Hvc Htc]. pose proof (visible_lt s kvs c Hvc) as Hcn. split.
  - intros q Hq. lia.
  - intros k [= <-]. by apply ukey_valid.
  - intros q Hq Hvq. pose proof (visible_lt s kvs q Hvq) as Hqn. split.
    + intros (k & [= <-] & Hle). destruct (Nat.lt_ge_cases q (S c)); [by left|right]. exists c. split; [lia|].
      split; [done|]. destruct (same_or_less c q ltac:(lia) Hqn) as [|Hlt]; [done|].
      pose proof (cmp_antisym _ _ (ukey_valid c Hcn) (ukey_valid q Hqn)). lia.
    + intros Hh. exists (ukey c). split; [done|]. destruct (Nat.le_gt_cases q c) as [Hle|Hgt]; [by apply ukey_sorted|].
      destruct Hh as [|(q' & Hq' & Hv' & Hsame)]; [lia|].
      destruct (same_between q' c q ltac:(lia) Hqn Hsame) as [_ Hcq].
      rewrite same_sym in Hcq by lia. apply Z.eqb_eq in Hcq. lia.
  - intros q Hq Hvq. destruct (decide (q = c)) as [-> |]; [done|]. rewrite Hno in Hvq; [done|lia].
Qed.

(** ** Backward *)

(** The entries from [r] up to [b] were looked at, from the last; [cand] is the one
    that may yield. *)
Record backing (b r : nat) (cand : option nat) : Prop := {
  ba_none q : (r <= q < b)%nat -> yield q = true -> cand = Some q;
  ba_cand c : cand = Some c -> (r <= c < b)%nat /\ visible c = true /\ vtype (ikey_at kvs c) = kTypeValue /\
    forall q, (r <= q < c)%nat -> visible q = false;
}.

Lemma backing_invisible b p cand : backing b (S p) cand -> visible p = false -> backing b p cand.
Proof.
  intros [Hn Hc] Hp. split.
  - intros q Hq Hy. destruct (decide (q = p)) as [-> |]; [|apply Hn; [lia|done]].
    apply yields_visible in Hy as [Hy _]. by rewrite Hp in Hy.
  - intros c Ec. destruct (Hc c Ec) as (H1 & H2 & H3 & H4). split; [lia|]. split; [done|]. split; [done|].
    intros q Hq. destruct (decide (q = p)) as [-> |]; [done|]. apply H4. lia.
Qed.

(** An entry of the candidate's key, or when there is no candidate. *)
Lemma backing_step b p cand : backing b (S p) cand -> visible p = true -> (p < b)%nat ->
  (forall c, cand = Some c -> 0 <= Compare (ukey p) (ukey c)) ->
  backing b p (if vtype (ikey_at kvs p) =? kTypeDeletion then None else Some p).
Proof.
  intros [Hn Hc] Hp Hpb Hsame. assert (forall q, (S p <= q < b)%nat -> yield q = false) as Hno.
  { intros q Hq. apply not_true_is_false. intros Hy. specialize (Hsame q (Hn q Hq Hy)).
    pose proof (visible_lt s kvs q (proj1 (yields_visible s kvs q Hy))) as Hqn.
    destruct (same_or_less p q ltac:(lia) Hqn) as [Hs|]; [|lia].
    rewrite (yields_first s kvs q p Hy) in Hs; [done|lia|done]. }
  split.
  - intros q Hq Hy. destruct (decide (q = p)) as [-> |]; [|rewrite Hno in Hy; [done|lia]].
    apply yields_visible in Hy as [_ ->]. done.
  - intros c. destruct (Z.eqb_spec (vtype (ikey_at kvs p)) kTypeDeletion) as [|Hd]; [done|]. intros [= <-].
    split; [lia|]. split; [done|]. split; [|lia]. by destruct (type_cases p (visible_lt s kvs p Hp)).
Qed.

Lemma backing_found b p c : backing b (S p) (Some c) -> visible p = true -> Compare (ukey p) (ukey c) < 0 ->
  yield c = true /\ S (rk c) = rk b.
Proof.
  intros [Hn Hc] Hp Hlt. destruct (Hc c eq_refl) as (Hcb & Hvc & Htc & Hno).
  pose proof (visible_lt s kvs c Hvc) as Hcn.
  assert (yield c = true) as Hy.
  { apply yields_intro; [done|done|]. intros q Hq Hvq. apply not_true_is_false. intros Hs.
    destruct (Nat.le_gt_cases (S p) q); [rewrite Hno in Hvq; [done|lia]|].
    destruct (same_between q p c ltac:(lia) Hcn Hs) as [_ Hs'%Z.eqb_eq]. lia. }
  split; [done|]. rewrite (rank_none s kvs (S c) b), rank_S, Hy by (try lia; intros q Hq; apply not_true_is_false;
    intros Hyq; assert (Some c = Some q) as [=] by (apply Hn; [lia|done]); lia). lia.
Qed.

Lemma backing_end b cand : backing b 0 cand ->
  match cand with Some c => yield c = true /\ S (rk c) = rk b | None => rk b = 0%nat end.
Proof.
  intros [Hn Hc]. destruct cand as [c|].
  - destruct (Hc c eq_refl) as (Hcb & Hvc & Htc & Hno).
    assert (yield c = true) as Hy by (apply yields_intro; [done|done|]; intros q Hq Hvq; rewrite Hno in Hvq; [done|lia]).
    split; [done|]. rewrite (rank_none s kvs (S c) b), rank_S, Hy by (try lia; intros q Hq; apply not_true_is_false;
      intros Hyq; assert (Some c = Some q) as [=] by (apply Hn; [lia|done]); lia). lia.
  - rewrite (rank_none s kvs 0 b); [done|lia|]. intros q Hq. apply not_true_is_false. intros Hy.
    by specialize (Hn q Hq Hy).
Qed.

Lemma yield_lt p : yield p = true -> (p < n)%nat.
Proof. intros Hy. by apply (visible_lt s), yields_visible. Qed.

(** ** What the view is *)

Lemma tag_parts k ik : ParseInternalKey k = Some ik -> key_tag k = sequence ik * 256 + vtype ik /\ 0 <= vtype ik <= 1.
Proof.
  unfold ParseInternalKey. destruct (size k <? 8); [done|].
  destruct (Z.leb_spec (Z.land (key_tag k) 0xff) kTypeValue) as [Hc|]; [|done]. intros [= <-]. cbn [sequence vtype].
  rewrite land_255 in *. rewrite Z.shiftr_div_pow2 by lia. change (2 ^ 8) with 256. unfold kTypeValue in Hc.
  pose proof (Z.div_mod (key_tag k) 256). pose proof (Z.mod_pos_bound (key_tag k) 256). lia.
Qed.

Lemma tag_sorted p q k v k' v' : (p < q)%nat -> kvs !! p = Some (k, v) -> kvs !! q = Some (k', v') ->
  same p q = true -> key_tag k' < key_tag k.
Proof.
  intros Hpq E E' Hs%Z.eqb_eq. pose proof (lookup_lt_Some _ _ _ E') as Hq.
  destruct (entry_facts p ltac:(lia)) as (k1 & v1 & E1 & _ & _ & Eu & _).
  destruct (entry_facts q Hq) as (k2 & v2 & E2 & _ & _ & Eu' & _).
  assert (k1 = k) as -> by congruence. assert (k2 = k') as -> by congruence.
  pose proof (ukey_sorted_strict p q k v k' v' Hpq E E') as Hlt. apply icmp_lt in Hlt.
  rewrite Eu, Eu' in Hs. lia.
Qed.

(** Newest among the visible entries of its key. *)
Lemma yield_newest p k v : kvs !! p = Some (k, v) -> yield p = true <->
  sequence (ikey_at kvs p) <= s /\ vtype (ikey_at kvs p) = kTypeValue /\
  forall k' v' ik', (k', v') ∈ kvs -> ParseInternalKey k' = Some ik' -> sequence ik' <= s ->
    Compare (user_key ik') (ukey p) = 0 -> sequence ik' <= sequence (ikey_at kvs p).
Proof.
  intros E. pose proof (lookup_lt_Some _ _ _ E) as Hp.
  destruct (entry_facts p Hp) as (k0 & v0 & E0 & Ek & _). assert (k0 = k) as -> by congruence.
  destruct (tag_parts k _ Ek) as [Etag Hty].
  assert (visible p = true <-> sequence (ikey_at kvs p) <= s) as Hvis.
  { unfold visible_at. rewrite E, Ek. apply Z.leb_le. }
  split.
  - intros Hy. destruct (yields_visible s kvs p Hy) as [Hv Ht]. split; [by apply Hvis|]. split; [done|].
    intros k' v' ik' [q E']%list_elem_of_lookup Ek' Hs Hc. pose proof (lookup_lt_Some _ _ _ E') as Hq.
    destruct (tag_parts k' ik' Ek') as [Etag' Hty'].
    destruct (entry_facts q Hq) as (k1 & v1 & E1 & Ek1 & _). assert (k1 = k') as -> by congruence.
    assert (ik' = ikey_at kvs q) as -> by congruence.
    assert (same q p = true) as Hsame by by apply Z.eqb_eq.
    destruct (Nat.lt_trichotomy q p) as [Hlt|[-> |Hgt]]; [|done|].
    + rewrite (yields_first s kvs p q Hy) in Hsame; [done|lia|]. unfold visible_at. rewrite E', Ek1. by apply Z.leb_le.
    + rewrite same_sym in Hsame by done. pose proof (tag_sorted p q k v k' v' Hgt E E' Hsame). lia.
  - intros (Hs & Ht & Hmax). apply yields_intro; [by apply Hvis|done|]. intros q Hq Hvq. apply not_true_is_false. intros Hsame.
    destruct (entry_facts q ltac:(lia)) as (k1 & v1 & E1 & Ek1 & _).
    pose proof (tag_sorted q p k1 v1 k v Hq E1 E Hsame) as Hlt. destruct (tag_parts k1 _ Ek1) as [Etag1 Hty1].
    assert (sequence (ikey_at kvs q) <= sequence (ikey_at kvs p)) as Hle.
    { apply (Hmax k1 v1); [by apply list_elem_of_lookup_2 in E1|done| |by apply Z.eqb_eq].
      unfold visible_at in Hvq. rewrite E1, Ek1 in Hvq. by apply Z.leb_le. }
    unfold kTypeValue in Ht. lia.
Qed.

Lemma view_elem uk v : (uk, v) ∈ view <-> exists p, yield p = true /\ user_entry kvs p = (uk, v).
Proof.
  rewrite list_elem_of_lookup. split.
  - intros [j Hj]. pose proof (lookup_lt_Some _ _ _ Hj) as Hlt. apply user_view_inv in Hlt as (p & Hy & ->).
    rewrite (user_view_rank s kvs p Hy) in Hj. exists p. split; [done|congruence].
  - intros (p & Hy & E). exists (rk p). by rewrite (user_view_rank s kvs p Hy), E.
Qed.

(** C1: the view of a snapshot holds the newest versions: a user key is in it, with a
    value, when among the entries of that key that are not newer than the snapshot the
    newest one is that value; so neither hidden versions, nor deleted keys, nor newer
    entries show. *)
Theorem user_view_newest uk v :
  (uk, v) ∈ view <-> exists k ik, (k, v) ∈ kvs /\ ParseInternalKey k = Some ik /\ user_key ik = uk /\
    sequence ik <= s /\ vtype ik = kTypeValue /\
    forall k' v' ik', (k', v') ∈ kvs -> ParseInternalKey k' = Some ik' -> sequence ik' <= s ->
      Compare (user_key ik') uk = 0 -> sequence ik' <= sequence ik.
Proof.
  rewrite view_elem. split.
  - intros (p & Hy & E). destruct (entry_facts p (yield_lt p Hy)) as (k & v' & Ekv & Ek & Ev & _).
    unfold user_entry in E. injection E as <- <-. rewrite Ev. exists k, (ikey_at kvs p).
    split; [by apply list_elem_of_lookup_2 in Ekv|]. split; [done|]. split; [done|]. by apply (yield_newest p k v').
  - intros (k & ik & [p E]%list_elem_of_lookup & Ek & <- & Hrest). exists p.
    destruct (entry_facts p (lookup_lt_Some _ _ _ E)) as (k1 & v1 & E1 & Ek1 & Ev1 & _).
    assert (k1 = k) as -> by congruence. assert (v1 = v) as -> by congruence. assert (ik = ikey_at kvs p) as -> by congruence.
    split; [by apply (yield_newest p k v)|]. unfold user_entry. by rewrite Ev1.
Qed.

(** ** The operations *)

Context {I : Type} `{Iterator I} (ipos : nat -> I -> Prop).
Context (icur : @cursor (InternalKeyComparator u) (ivalid (valid := uvalid)) I _ kvs ipos).
Implicit Type it : DBIter I.

Record good it : Prop := {
  go_sequence : sequence_ it = s;
  go_status : dbi_status it = OK;
  go_sampling : sampling_ok it;
}.

Definition at_forward (p : nat) it : Prop :=
  dbi_valid it = true /\ direction_ it = kForward /\ yield p = true /\ ipos p (dbi_iter it).

(** The internal iterator is before entry [p], at an entry of a smaller key, or out of
    range; nothing is visible between. *)
Definition before_key (p i : nat) : Prop :=
  i = n /\ (forall q, (q < p)%nat -> visible q = false) \/
  (i < p)%nat /\ (forall q, (i < q < p)%nat -> visible q = false).

Definition at_reverse (p : nat) it : Prop :=
  dbi_valid it = true /\ direction_ it = kReverse /\ yield p = true /\
  saved_key_ it = ukey p /\ saved_value_ it = value_at kvs p /\
  exists i, ipos i (dbi_iter it) /\ before_key p i.

Definition at_none it : Prop := dbi_valid it = false /\ exists i, ipos i (dbi_iter it).

Definition db_pos (j : nat) it : Prop :=
  good it /\
  ((exists p, j = rk p /\ (at_forward p it \/ at_reverse p it)) \/ (j = length view /\ at_none it)).

(** What [ParseKey] leaves as it is. *)
Lemma parse_at p it : good it -> ipos p (dbi_iter it) -> (p < n)%nat ->
  exists it', ParseKey it = Done (Some (ikey_at kvs p), it') /\ good it' /\ dbi_iter it' = dbi_iter it /\
    saved_key_ it' = saved_key_ it /\ saved_value_ it' = saved_value_ it /\
    direction_ it' = direction_ it /\ dbi_valid it' = dbi_valid it.
Proof.
  intros [Hseq Hst Hsam] Hp Hpn. destruct (entry_facts p Hpn) as (k & v & E & Ek & _ & _ & _ & _ & Hs).
  destruct (cu_entry icur p _ k v Hp E) as [Hk Hv].
  destruct (ParseKey_ok it k v Hk Hv Hs Hsam) as (it' & Hsampled & Hok & EP). rewrite Ek in EP.
  exists it'. split; [done|]. rewrite Hsampled. cbn. split; [|done].
  rewrite Hsampled in Hok. by split.
Qed.

Lemma seen_at p it : good it -> (p < n)%nat ->
  seen (Some (ikey_at kvs p)) it = if visible p then Some (ikey_at kvs p) else None.
Proof.
  intros Hg Hp. destruct (entry_facts p Hp) as (k & v & E & Ek & _). unfold seen, visible_at. rewrite E, Ek.
  by rewrite (go_sequence _ Hg).
Qed.

Lemma iter_next_at p i : ipos p i -> (p < n)%nat ->
  exists i', Next i = Done i' /\ ipos (S p) i' /\ Valid i' = (S p <? n)%nat.
Proof.
  intros Hp Hpn. destruct (cu_next icur p i Hp Hpn) as (i' & E & Hp'). exists i'. split; [done|]. split; [done|].
  by apply (cu_valid icur).
Qed.

Lemma find_next_ok t : (t <= n)%nat -> forall fuel p (skipping : bool) it,
  good it -> direction_ it = kForward -> ipos p (dbi_iter it) -> (p < n)%nat -> (n - p <= fuel)%nat ->
  looking t p (if skipping then Some (saved_key_ it) else None) ->
  exists it', FindNextUserEntry fuel skipping it = Done it' /\ db_pos (rk t) it'.
Proof.
  intros Ht. induction fuel as [|fuel IH]; intros p skipping it Hg Hd Hp Hpn Hfuel Hl; [lia|].
  cbn [FindNextUserEntry].
  destruct (parse_at p it Hg Hp Hpn) as (it1 & -> & Hg1 & Ei & Ek & Ev & Ed & Eb). rewrite run_bind_done.
  rewrite (seen_at p it1 Hg1 Hpn). rewrite <- Ei in Hp. rewrite <- Ek in Hl. rewrite <- Ed in Hd.
  clear it Hg Ei Ek Ev Ed Eb.
  assert (forall (skipping : bool) it, good it -> direction_ it = kForward -> ipos p (dbi_iter it) ->
    looking t (S p) (if skipping then Some (saved_key_ it) else None) ->
    exists it', ((i ← Next (dbi_iter it); if Valid i then FindNextUserEntry fuel skipping (set_iter it i)
      else Done (set_dbi_valid (set_saved_key (set_iter it i) []) false)) : run (DBIter I)) = Done it' /\ db_pos (rk t) it') as step.
  { clear skipping it1 Hg1 Hd Hp Hl. intros skipping it Hg Hd Hp Hl.
    destruct (iter_next_at p _ Hp Hpn) as (i & -> & Hp' & Hv). rewrite run_bind_done, Hv.
    destruct (Nat.ltb_spec (S p) n) as [Hlt|Hge].
    - apply (IH (S p)); [by destruct Hg|done|done|done|lia|done].
    - assert (S p = n) as En by lia. rewrite En in Hl, Hp'. eexists. split; [reflexivity|]. split; [by destruct Hg|].
      right. split; [by apply (looking_end t _ Hl)|]. split; [done|]. by exists n. }
  destruct (visible p) eqn:Hvis.
  2: { apply step; [done|done|done|by apply looking_invisible]. }
  destruct (type_cases p Hpn) as [Et|Et]; rewrite Et.
  - change (kTypeDeletion =? kTypeDeletion) with true. cbv iota.
    apply (step true); [by destruct Hg1|done|done|]. by apply looking_deleted with (if skipping then Some (saved_key_ it1) else None).
  - change (kTypeValue =? kTypeDeletion) with false. change (kTypeValue =? kTypeValue) with true. cbv iota.
    destruct (skipping && (Compare (ukey p) (saved_key_ it1) <=? 0)) eqn:Eh; cbv iota.
    + apply andb_true_iff in Eh as [-> Hle%Z.leb_le]. apply step; [done|done|done|].
      by apply (looking_hidden t p _ (saved_key_ it1)).
    + eexists. split; [reflexivity|]. split; [by destruct Hg1|]. left. exists p.
      destruct (looking_found t p _ Hl Hvis Et) as [Hy Hr].
      { intros k. destruct skipping; [|done]. intros [= <-]. cbn in Eh. apply Z.leb_gt in Eh. lia. }
      split; [done|]. left. by split_and!.
Qed.

Lemma key_at p it : ipos p (dbi_iter it) -> (p < n)%nat ->
  iter_user_key it = Done (ukey p) /\ value (dbi_iter it) = Done (value_at kvs p).
Proof.
  intros Hp Hpn. destruct (entry_facts p Hpn) as (k & v & E & _ & -> & -> & _ & H8 & _).
  destruct (cu_entry icur p _ k v Hp E) as [Hk Hv]. unfold iter_user_key. rewrite Hk, run_bind_done.
  by rewrite (proj2 (Z.ltb_ge (size k) 8)) by lia.
Qed.

Lemma prev_at p i : ipos p i -> (p < n)%nat ->
  exists i', Prev i = Done i' /\
    match p with O => ipos n i' /\ Valid i' = false | S j => ipos j i' /\ Valid i' = true end.
Proof.
  intros Hp Hpn. destruct (cu_prev icur p i Hp Hpn) as (i' & E & Hp'). exists i'. split; [done|].
  rewrite (cu_valid icur _ _ Hp'). destruct p as [|j]; (split; [done|]).
  - apply Nat.ltb_irrefl.
  - apply Nat.ltb_lt. lia.
Qed.

(** What the loop backward keeps of the candidate. *)
Definition keeps (value_type : Z) it (cand : option nat) : Prop :=
  match cand with
  | None => value_type = kTypeDeletion
  | Some c => value_type = kTypeValue /\ saved_key_ it = ukey c /\ saved_value_ it = value_at kvs c
  end.

Definition backed (b : nat) it (cand : option nat) : Prop :=
  exists i, ipos i (dbi_iter it) /\
    match cand with None => rk b = 0%nat | Some c => yield c = true /\ S (rk c) = rk b /\ before_key c i end.

Lemma find_prev_loop_ok b : forall fuel p value_type it cand,
  good it -> direction_ it = kReverse -> ipos p (dbi_iter it) -> (p < n)%nat -> (p < b)%nat -> (p < fuel)%nat ->
  backing b (S p) cand -> keeps value_type it cand ->
  exists value_type' it' cand', find_prev_loop fuel value_type it = Done (value_type', it') /\
    good it' /\ direction_ it' = kReverse /\ keeps value_type' it' cand' /\ backed b it' cand'.
Proof.
  induction fuel as [|fuel IH]; intros p value_type it cand Hg Hd Hp Hpn Hpb Hfuel Hb Hk; [lia|]. cbn [find_prev_loop].
  destruct (parse_at p it Hg Hp Hpn) as (it1 & -> & Hg1 & Ei & Ek & Ev & Ed & _). rewrite run_bind_done.
  rewrite (seen_at p it1 Hg1 Hpn). rewrite <- Ei in Hp. rewrite <- Ed in Hd.
  assert (keeps value_type it1 cand) as Hk1 by (destruct cand; [|done]; unfold keeps in *; by rewrite Ek, Ev).
  clear it Hg Ei Ek Ev Ed Hk.
  assert (forall value_type it cand, good it -> direction_ it = kReverse -> ipos p (dbi_iter it) ->
    backing b p cand -> keeps value_type it cand ->
    exists value_type' it' cand', ((i ← Prev (dbi_iter it);
      if Valid i then find_prev_loop fuel value_type (set_iter it i) else Done (value_type, set_iter it i))
        : run (Z * DBIter I)) = Done (value_type', it') /\
      good it' /\ direction_ it' = kReverse /\ keeps value_type' it' cand' /\ backed b it' cand') as step.
  { clear value_type it1 cand Hg1 Hd Hp Hb Hk1. intros value_type it cand Hg Hd Hp Hb Hk.
    destruct (prev_at p _ Hp Hpn) as (i & -> & Hi). rewrite run_bind_done. destruct p as [|p].
    - destruct Hi as [Hi ->]. exists value_type, (set_iter it i), cand. split; [done|]. split; [by destruct Hg|].
      split; [done|]. split; [by destruct cand|]. exists n. split; [done|].
      pose proof (backing_end b cand Hb) as He. destruct cand as [c|]; [|done]. destruct He as [Hy Hr].
      split; [done|]. split; [done|]. left. split; [done|]. intros q Hq. apply (ba_cand _ _ _ Hb c eq_refl). lia.
    - destruct Hi as [Hi ->]. apply (IH p _ _ cand); [by destruct Hg|done|done|lia|lia|lia|done|by destruct cand]. }
  destruct (visible p) eqn:Hvis.
  2: { apply (step _ _ cand); [done|done|done|by apply backing_invisible|done]. }
  destruct (negb (value_type =? kTypeDeletion) && (Compare (ukey p) (saved_key_ it1) <? 0)) eqn:Ebr.
  - apply andb_true_iff in Ebr as [Hvt Hlt%Z.ltb_lt]. exists value_type, it1, cand. split; [done|]. split; [done|].
    split; [done|]. split; [done|]. exists p. split; [done|]. destruct cand as [c|]; [|cbn in Hk1; by rewrite Hk1 in Hvt].
    destruct Hk1 as (_ & Hsk & _). rewrite Hsk in Hlt.
    destruct (backing_found b p c Hb Hvis Hlt) as [Hy Hr]. split; [done|]. split; [done|]. right.
    destruct (ba_cand _ _ _ Hb c eq_refl) as (Hc & _ & _ & Hno). split; [lia|]. intros q Hq. apply Hno. lia.
  - assert (backing b p (if vtype (ikey_at kvs p) =? kTypeDeletion then None else Some p)) as Hb'.
    { apply (backing_step b p cand); [done|done|done|]. intros c ->. destruct Hk1 as (-> & Hsk & _).
      rewrite Hsk in Ebr. cbn in Ebr. by apply Z.ltb_ge in Ebr. }
    destruct (key_at p it1 Hp Hpn) as [Eu Ev].
    destruct (type_cases p Hpn) as [Et|Et]; rewrite Et in Hb' |- *.
    + change (kTypeDeletion =? kTypeDeletion) with true in *. cbv iota.
      apply (step _ _ None); [by destruct Hg1|done|done|done|done].
    + change (kTypeValue =? kTypeDeletion) with false in *. cbv iota. rewrite Ev, run_bind_done, Eu, run_bind_done.
      apply (step _ _ (Some p)); [by destruct Hg1|done|done|done|done].
Qed.

(** The view position before that of [b]. *)
Definition pred_rank (b : nat) : nat := match rk b with O => length view | S j => j end.

Lemma find_prev_ok b fuel it i :
  good it -> direction_ it = kReverse -> ipos i (dbi_iter it) -> (n < fuel)%nat ->
  (i = n /\ rk b = 0%nat \/ (i < n)%nat /\ (i < b)%nat /\ backing b (S i) None) ->
  exists it', FindPrevUserEntry fuel it = Done it' /\ db_pos (pred_rank b) it'.
Proof.
  intros Hg Hd Hi Hfuel Hcase. unfold FindPrevUserEntry. rewrite (cu_valid icur i _ Hi).
  assert (forall it cand value_type, good it -> direction_ it = kReverse -> keeps value_type it cand -> backed b it cand ->
    exists it', (if value_type =? kTypeDeletion
      then Done (set_direction (ClearSavedValue (set_saved_key (set_dbi_valid it false) [])) kForward)
      else Done (set_dbi_valid it true)) = Done it' /\ db_pos (pred_rank b) it') as finish.
  { clear. intros it cand value_type Hg Hd Hk (i & Hi & Hb). unfold pred_rank. destruct cand as [c|].
    - destruct Hk as (-> & Hsk & Hsv), Hb as (Hy & Hr & Hbef). rewrite <- Hr.
      change (kTypeValue =? kTypeDeletion) with false. cbv iota. eexists. split; [reflexivity|].
      split; [by destruct Hg|]. left. exists c. split; [done|]. right. split_and!; try done. by exists i.
    - rewrite Hk, Hb. rewrite Z.eqb_refl. eexists. split; [reflexivity|]. split; [by destruct Hg|].
      right. split; [done|]. split; [done|]. by exists i. }
  destruct Hcase as [[-> Hr]|(Hin & Hib & Hb)].
  - rewrite Nat.ltb_irrefl, run_bind_done. apply (finish it None); [done|done|done|]. exists n. done.
  - rewrite (proj2 (Nat.ltb_lt i n) Hin).
    destruct (find_prev_loop_ok b fuel i kTypeDeletion it None Hg Hd Hi Hin Hib ltac:(lia) Hb eq_refl)
      as (vt & it' & cand & -> & Hg' & Hd' & Hk & Hbk). rewrite run_bind_done. by apply (finish it' cand).
Qed.

Lemma prev_key_loop_ok c : yield c = true -> forall fuel p it,
  good it -> saved_key_ it = ukey c -> ipos p (dbi_iter it) -> (p <= c)%nat -> (p < fuel)%nat ->
  (forall q, (p <= q < c)%nat -> same q c = true) ->
  exists smaller it', prev_key_loop fuel it = Done (smaller, it') /\ good it' /\
    if (smaller : bool)
    then exists i, (i < c)%nat /\ ipos i (dbi_iter it') /\ forall q, (i < q < c)%nat -> same q c = true
    else dbi_valid it' = false /\ rk c = 0%nat /\ exists i, ipos i (dbi_iter it').
Proof.
  intros Hy. pose proof (yield_lt c Hy) as Hcn. induction fuel as [|fuel IH]; intros p it Hg Hs Hp Hpc Hfuel Hsame; [lia|].
  cbn [prev_key_loop]. destruct (prev_at p _ Hp ltac:(lia)) as (i & -> & Hi). rewrite run_bind_done. destruct p as [|p].
  - destruct Hi as [Hi ->]. cbn [negb]. eexists _, _. split; [reflexivity|]. split; [by destruct Hg|].
    split; [done|]. split; [|by exists n]. rewrite (rank_none s kvs 0 c); [done|lia|].
    intros q Hq. apply not_true_is_false. intros Hyq. pose proof (Hsame q ltac:(lia)) as Hsq.
    rewrite (yields_first s kvs c q Hy) in Hsq; [done|lia|by apply yields_visible].
  - destruct Hi as [Hi ->]. cbn [negb]. destruct (key_at p (set_iter it i) Hi ltac:(lia)) as [-> _]. rewrite run_bind_done.
    cbn [saved_key_ set_iter]. rewrite Hs. destruct (Z.ltb_spec (Compare (ukey p) (ukey c)) 0) as [Hlt|Hge].
    + eexists _, _. split; [reflexivity|]. split; [by destruct Hg|]. exists p. split; [lia|]. split; [done|].
      intros q Hq. apply Hsame. lia.
    + apply (IH p); [by destruct Hg|done|done|lia|lia|]. intros q Hq. destruct (decide (q = p)) as [-> |]; [|apply Hsame; lia].
      destruct (same_or_less p c ltac:(lia) Hcn); [done|lia].
Qed.

Lemma backing_same c i : yield c = true -> (forall q, (i < q < c)%nat -> same q c = true) -> backing c (S i) None.
Proof.
  intros Hy Hs. split; [|done]. intros q Hq Hyq. pose proof (Hs q ltac:(lia)) as Hsq.
  rewrite (yields_first s kvs c q Hy) in Hsq; [done|lia|by apply yields_visible].
Qed.

Lemma backing_before c i : (forall q, (i < q < c)%nat -> visible q = false) -> backing c (S i) None.
Proof.
  intros Hno. split; [|done]. intros q Hq Hyq. apply yields_visible in Hyq as [Hv _]. rewrite Hno in Hv; [done|lia].
Qed.

(** ** Seeking *)

Definition seek_key (target : list byte) : list byte := AppendInternalKey [] (mk_key target s kValueTypeForSeek).

Lemma seek_key_facts target : ExtractUserKey (seek_key target) = target /\ 8 <= size (seek_key target) /\
  key_tag (seek_key target) = s * 256 + 1.
Proof.
  unfold seek_key. rewrite append_internal_key. cbn [user_key sequence vtype].
  destruct (pack_value s kValueTypeForSeek s_bound ltac:(by split)) as [Hp Hb].
  rewrite extract_app, tag_app, size_fixed64, u64_small, Hp by exact Hb. pose proof (size_nonneg target).
  unfold kValueTypeForSeek, kTypeValue in *. split; [done|lia].
Qed.

(** A visible entry is below the key sought when its user key is. *)
Lemma below_seek_key target p k v : kvs !! p = Some (k, v) -> visible p = true ->
  internal_compare u k (seek_key target) < 0 <-> Compare (ukey p) target < 0.
Proof.
  intros E Hv. destruct (entry_facts p (visible_lt s kvs p Hv)) as (k' & v' & E' & Ek & _ & Eu & _ & H8 & _).
  assert (k' = k) as -> by congruence. destruct (seek_key_facts target) as (Et & _ & Etag).
  rewrite icmp_lt, Et, Etag, <- Eu. assert (key_tag k <= s * 256 + 1) as Hle; [|lia].
  unfold visible_at in Hv. rewrite E, Ek in Hv. apply Z.leb_le in Hv. revert Ek Hv. generalize (ikey_at kvs p) as ik.
  unfold ParseInternalKey. intros ik. destruct (size k <? 8); [done|].
  destruct (Z.leb_spec (Z.land (key_tag k) 0xff) kTypeValue) as [Hc|]; [|done]. intros [= <-]. cbn [sequence].
  rewrite land_255 in Hc. rewrite Z.shiftr_div_pow2 by lia. change (2 ^ 8) with 256. unfold kTypeValue in Hc.
  pose proof (Z.div_mod (key_tag k) 256). lia.
Qed.

Lemma looking_seek target m : uvalid target -> @lower_bound (InternalKeyComparator u) (seek_key target) kvs m ->
  looking m m None.
Proof.
  intros Ht [Hm Hl]. split; [lia|done| |lia]. intros q Hq Hvq. pose proof (visible_lt s kvs q Hvq) as Hqn.
  split; [by intros (k & [=] & _)|]. intros [|(q' & Hq' & Hv' & Hs)]; [lia|]. exfalso.
  destruct (entry_facts q Hqn) as (k & v & E & _). destruct (entry_facts q' ltac:(lia)) as (k' & v' & E' & _).
  pose proof (proj2 (Hl q' _ E') ltac:(lia)) as Hlt. cbn [Compare InternalKeyComparator fst] in Hlt.
  apply (below_seek_key target q' k' v' E' Hv') in Hlt.
  assert (~ Compare (ukey q) target < 0) as Hge.
  { intros Hc. apply (below_seek_key target q k v E Hvq) in Hc. apply (Hl q _ E) in Hc. lia. }
  apply Z.eqb_eq in Hs. apply Hge. pose proof (ukey_valid q Hqn). pose proof (ukey_valid q' ltac:(lia)).
  pose proof (cmp_eq_sym (ukey q') (ukey q) ltac:(done) ltac:(done)).
  apply (cmp_trans_lt_r _ (ukey q')); [done..|lia|done].
Qed.

Lemma view_lower_bound target m : @lower_bound (InternalKeyComparator u) (seek_key target) kvs m ->
  lower_bound target view (rk m).
Proof.
  intros [Hm Hl]. split.
  { rewrite length_user_view. by apply rank_mono. }
  intros j kv Hj. pose proof (lookup_lt_Some _ _ _ Hj) as Hlt. apply user_view_inv in Hlt as (p & Hy & ->).
  rewrite (user_view_rank s kvs p Hy) in Hj. injection Hj as <-. cbn [fst user_entry].
  rewrite rank_inj_lt by done. destruct (yields_visible s kvs p Hy) as [Hv _].
  destruct (entry_facts p (yield_lt p Hy)) as (k & v & E & _).
  rewrite <- (below_seek_key target p k v E Hv). by apply (Hl p (k, v)).
Qed.

(** ** The cursor *)

Context (fuel : nat) (fuel_enough : (n < fuel)%nat).

Lemma db_pos_iter j it : db_pos j it -> good it /\ exists i, ipos i (dbi_iter it).
Proof.
  intros [Hg [(p & _ & [(_ & _ & _ & Hi)|(_ & _ & _ & _ & _ & i & Hi & _)])|(_ & _ & Hi)]]; split; eauto.
Qed.

Lemma from_here_ok t it i : good it -> direction_ it = kForward -> ipos t i -> looking t t None ->
  exists it', from_here fuel it i = Done it' /\ db_pos (rk t) it'.
Proof.
  intros Hg Hd Hi Hl. unfold from_here. rewrite (cu_valid icur t i Hi).
  pose proof (cu_bound icur t i Hi) as Ht. destruct (Nat.ltb_spec t n) as [Hlt|Hge].
  - apply (find_next_ok t Ht fuel t false); [by destruct Hg|done|done|done|lia|done].
  - assert (t = n) as -> by lia. eexists. split; [reflexivity|]. split; [by destruct Hg|]. right.
    split; [by apply (looking_end n None)|]. split; [done|]. by exists n.
Qed.

Lemma dbi_Next_ok j it : db_pos j it -> (j < length view)%nat -> exists it', dbi_Next fuel it = Done it' /\ db_pos (S j) it'.
Proof.
  intros [Hg [(p & -> & Hat)|[-> _]]] Hj; [|lia].
  assert (yield p = true) as Hy by (destruct Hat as [(_ & _ & ? & _)|(_ & _ & ? & _)]; done).
  pose proof (yield_lt p Hy) as Hpn. replace (S (rk p)) with (rk (S p)) by (rewrite rank_S, Hy; lia).
  unfold dbi_Next. destruct Hat as [(_ & Hd & _ & Hi)|(_ & Hd & _ & Hk & _ & i & Hi & Hb)]; rewrite Hd.
  - destruct (key_at p it Hi Hpn) as [-> _]. rewrite run_bind_done.
    apply (find_next_ok (S p) ltac:(lia) fuel p true); [by destruct Hg|done|done|done|lia|].
    apply looking_after; [done|lia|lia].
  - cbn [dbi_iter set_direction]. rewrite (cu_valid icur i _ Hi).
    assert (exists i' q, (if negb (i <? n)%nat then SeekToFirst (dbi_iter it) else Next (dbi_iter it)) = Done i' /\
      ipos q i' /\ (q <= p)%nat /\ forall r, (q <= r < p)%nat -> visible r = false) as (i' & q & -> & Hi' & Hqp & Hno).
    { destruct Hb as [[-> Hno]|[Hip Hno]].
      - rewrite Nat.ltb_irrefl. cbn [negb]. destruct (cu_first icur n _ Hi) as (i' & E & Hi'). exists i', 0%nat.
        split; [done|]. split; [done|]. split; [lia|]. intros r Hr. apply Hno. lia.
      - rewrite (proj2 (Nat.ltb_lt i n)) by lia. cbn [negb]. destruct (iter_next_at i _ Hi ltac:(lia)) as (i' & E & Hi' & _).
        exists i', (S i). split; [done|]. split; [done|]. split; [lia|]. intros r Hr. apply Hno. lia. }
    rewrite run_bind_done, (cu_valid icur q i' Hi'), (proj2 (Nat.ltb_lt q n)) by lia. cbn [negb].
    apply (find_next_ok (S p) ltac:(lia) fuel q true); [by destruct Hg|done|done|lia|lia|].
    cbn [saved_key_ set_iter set_direction]. rewrite Hk. by apply looking_after.
Qed.

Lemma dbi_Prev_ok j it : db_pos j it -> (j < length view)%nat ->
  exists it', dbi_Prev fuel it = Done it' /\ db_pos (match j with O => length view | S j => j end) it'.
Proof.
  intros [Hg [(p & -> & Hat)|[-> _]]] Hj; [|lia]. fold (pred_rank p).
  assert (yield p = true) as Hy by (destruct Hat as [(_ & _ & ? & _)|(_ & _ & ? & _)]; done).
  pose proof (yield_lt p Hy) as Hpn.
  unfold dbi_Prev. destruct Hat as [(_ & Hd & _ & Hi)|(_ & Hd & _ & Hk & _ & i & Hi & Hb)]; rewrite Hd.
  - destruct (key_at p it Hi Hpn) as [-> _]. rewrite run_bind_done.
    destruct (prev_key_loop_ok p Hy fuel p (set_saved_key it (ukey p))) as (sm & it1 & -> & Hg1 & Hsm);
      [by destruct Hg|done|done|done|lia|lia|]. rewrite run_bind_done. destruct sm.
    + destruct Hsm as (i & Hip & Hi' & Hsame).
      apply (find_prev_ok p fuel _ i); [by destruct Hg1|done|done|done|]. right.
      split; [lia|]. split; [lia|]. by apply backing_same.
    + destruct Hsm as (Hv & Hr & Hi'). exists it1. split; [done|]. split; [done|]. right.
      unfold pred_rank. by rewrite Hr.
  - apply (find_prev_ok p fuel it i); [done|done|done|done|]. destruct Hb as [[-> Hno]|[Hip Hno]].
    + left. split; [done|]. rewrite (rank_none s kvs 0 p); [done|lia|]. intros q Hq. apply not_true_is_false.
      intros Hyq%yields_visible. rewrite Hno in Hyq; [by destruct Hyq|lia].
    + right. split; [lia|]. split; [done|]. by apply backing_before.
Qed.

Lemma db_cursor : @cursor u uvalid (DBIter I) (db_iterator fuel) view db_pos.
Proof.
  split; cbn [Valid SeekToFirst SeekToLast Seek Next Prev key value status db_iterator].
  - intros j it [_ [(p & -> & Hat)|[-> _]]]; [|done].
    apply Nat.lt_le_incl, rank_lt. destruct Hat as [(_ & _ & ? & _)|(_ & _ & ? & _)]; done.
  - intros j it [_ [(p & -> & Hat)|[-> [-> _]]]]; [|by rewrite Nat.ltb_irrefl].
    assert (yield p = true /\ dbi_valid it = true) as [Hy ->] by (destruct Hat as [(? & _ & ? & _)|(? & _ & ? & _)]; done).
    symmetry. by apply Nat.ltb_lt, rank_lt.
  - intros j it Hp. destruct (db_pos_iter j it Hp) as [Hg (i & Hi)]. rewrite (go_status _ Hg). by apply (cu_status icur i).
  - intros j it k v [_ [(p & -> & Hat)|[-> _]]] Hkv; [|apply lookup_lt_Some in Hkv; lia].
    destruct Hat as [(_ & -> & Hy & Hi)|(_ & -> & Hy & -> & -> & _)];
      rewrite (user_view_rank s kvs p Hy) in Hkv; injection Hkv as <- <-; [|done].
    by apply key_at, yield_lt.
  - intros j it Hp. destruct (db_pos_iter j it Hp) as [Hg (i & Hi)]. unfold dbi_SeekToFirst.
    destruct (cu_first icur i _ Hi) as (i' & E & Hi'). cbn [dbi_iter ClearSavedValue set_saved set_direction]. rewrite E, run_bind_done.
    apply (from_here_ok 0); [by destruct Hg|done|done|]. split; [lia|done| |lia].
    intros q _ _. split; [by intros (k & [=] & _)|]. intros [|(q' & ? & _)]; lia.
  - intros j it Hp. destruct (db_pos_iter j it Hp) as [Hg (i & Hi)]. unfold dbi_SeekToLast.
    destruct (cu_last icur i _ Hi) as (i' & E & Hi'). cbn [dbi_iter ClearSavedValue set_saved set_direction]. rewrite E, run_bind_done.
    assert (pred (length view) = pred_rank n) as ->.
    { unfold pred_rank. rewrite length_user_view. by destruct (rk n). }
    apply (find_prev_ok n fuel _ (pred n)); [by destruct Hg|done|done|done|].
    destruct (decide (n = 0%nat)) as [E0|Hne].
    + left. rewrite E0. done.
    + right. split; [lia|]. split; [lia|]. split; [lia|done].
  - intros j it. apply dbi_Next_ok.
  - intros j it. apply dbi_Prev_ok.
  - intros j it target Hp Ht. destruct (db_pos_iter j it Hp) as [Hg (i & Hi)]. unfold dbi_Seek.
    cbn [saved_key_ set_saved_key set_saved dbi_iter ClearSavedValue set_direction sequence_].
    rewrite (go_sequence _ Hg). fold (seek_key target). destruct (seek_key_facts target) as (Eu & H8 & _).
    destruct (cu_seek icur i _ (seek_key target) Hi) as (i' & m & E & Hi' & Hl); [by split; [|rewrite Eu]|].
    rewrite E, run_bind_done. destruct (from_here_ok m (set_saved_key (ClearSavedValue (set_direction it kForward))
      (seek_key target)) i') as (it' & E' & Hp'); [by destruct Hg|done|done|by apply (looking_seek target)|].
    exists it', (rk m). split; [done|]. split; [done|]. by apply view_lower_bound.
Qed.

Lemma NewDBIterator_pos i seed : ipos n i -> db_pos (length view) (NewDBIterator i s seed).
Proof.
  intros Hi. unfold NewDBIterator, RandomCompactionPeriod, Uniform. split; [|right; split; [done|]; split; [done|]; by exists n].
  split; [done|done|]. destruct (rnd_Next_eq (new_Random seed) (new_Random_ok seed)) as [_ Hr]. split; [done|].
  cbn [bytes_until_read_sampling_]. apply Z.mod_pos_bound. done.
Qed.

(** The iterator of the database: over a cursor on the internal entries it starts out
    of range and is a cursor over the view of its snapshot, which it steps through in both
    directions and seeks in, through any changes of direction. *)
Theorem db_iter_correct i seed : ipos n i ->
  exists pos, pos (length view) (NewDBIterator i s seed) /\ @cursor u uvalid (DBIter I) (db_iterator fuel) view pos.
Proof. intros Hi. exists db_pos. split; [by apply NewDBIterator_pos|apply db_cursor]. Qed.
End Correct.

(** * Composition with the merging iterator *)

Section Database.
Context {u : Comparator} {uvalid : list byte -> Prop} {laws : ComparatorLaws uvalid u}.
Context {I : Type} `{Iterator I}.
#[local] Abbreviation icomparator := (InternalKeyComparator u).
#[local] Abbreviation ientry_lt := (fun a b => internal_compare u (fst a) (fst b) < 0).

Lemma database_iterator_ok (ls : list (list (list byte * list byte))) kvs s fuel seed
    (cpos : nat -> nat -> I -> Prop) (its : list I) :
  0 <= s < 2 ^ 56 -> Forall (entry_ok (uvalid := uvalid)) kvs -> StronglySorted ientry_lt kvs ->
  kvs ≡ₚ concat ls -> (forall i l, ls !! i = Some l -> StronglySorted ientry_lt l) ->
  (forall i l, ls !! i = Some l -> @cursor icomparator (ivalid (valid := uvalid)) I _ l (cpos i)) ->
  length its = length ls -> (forall i l it, ls !! i = Some l -> its !! i = Some it -> cpos i (length l) it) ->
  (length kvs < fuel)%nat ->
  exists r pos, NewMergingIterator its = Done r /\
    pos (length (user_view s kvs)) (NewDBIterator r s seed) /\
    @cursor u uvalid _ (@db_iterator u _ (@merged_iterator_iterator icomparator I _) fuel) (user_view s kvs) pos.
Proof.
  intros Hs Hok Hsort Hperm Hls Hcur Hlen Hend Hfuel.
  assert (Forall (fun kv => ivalid (valid := uvalid) (fst kv)) kvs) as Hval.
  { eapply list.Forall_impl; [exact Hok|]. intros [k v] ((ik & Ek) & Hv & _). cbn [fst] in *. split; [|done].
    unfold ParseInternalKey in Ek. destruct (Z.ltb_spec (size k) 8); [done|lia]. }
  destruct (NewMergingIterator_ok (c := icomparator) (valid := ivalid (valid := uvalid)) ls kvs cpos Hcur Hperm Hsort Hls
    Hval its Hlen Hend) as (r & pos & E & Hp & Hc).
  exists r, (db_pos (u := u) s kvs pos). split; [done|]. split.
  - by apply NewDBIterator_pos.
  - by apply db_cursor.
Qed.
(** C7: reading the database.  When the memtables and the tables each have a cursor over
    their entries, and no two entries have the same internal key, the iterator made of
    them (the merging iterator, and on it the iterator of the database) is a cursor over
    the view of the snapshot in the union of their entries. *)
Theorem database_iterator_correct (ls : list (list (list byte * list byte))) kvs s fuel seed
    (cpos : nat -> nat -> I -> Prop) (its : list I) :
  0 <= s < 2 ^ 56 -> Forall (entry_ok (uvalid := uvalid)) kvs -> StronglySorted ientry_lt kvs ->
  kvs ≡ₚ concat ls -> (forall i l, ls !! i = Some l -> StronglySorted ientry_lt l) ->
  (forall i l, ls !! i = Some l -> @cursor icomparator (ivalid (valid := uvalid)) I _ l (cpos i)) ->
  length its = length ls -> (forall i l it, ls !! i = Some l -> its !! i = Some it -> cpos i (length l) it) ->
  (length kvs < fuel)%nat ->
  exists r pos, NewMergingIterator its = Done r /\
    pos (length (user_view s kvs)) (NewDBIterator r s seed) /\
    @cursor u uvalid _ (@db_iterator u _ (@merged_iterator_iterator icomparator I _) fuel) (user_view s kvs) pos.
Proof. apply database_iterator_ok. Qed.
End Database.

(** * Damaged keys *)

(** A change of direction does not check keys: when the entry before the current one
    has a damaged key of less than eight bytes, [Prev] reads outside it. *)
Theorem db_iter_short_key {u : Comparator} {I : Type} `{Iterator I} fuel (it : DBIter I) uk i k :
  direction_ it = kForward -> iter_user_key it = Done uk ->
  Prev (dbi_iter it) = Done i -> Valid i = true -> key i = Done k -> size k < 8 ->
  dbi_Prev (S fuel) it = OutOfBounds.
Proof.
  intros Hd Hk Hp Hv Hkey Hs. unfold dbi_Prev. rewrite Hd, Hk, run_bind_done.
  cbn [prev_key_loop dbi_iter set_saved_key set_saved]. rewrite Hp, run_bind_done, Hv. cbn [negb].
  unfold iter_user_key. cbn [dbi_iter set_iter]. rewrite Hkey, run_bind_done.
  by rewrite (proj2 (Z.ltb_lt (size k) 8)).
Qed.

(** * Examples *)

#[local] Abbreviation bw := BytewiseComparator.
#[local] Abbreviation ibw := (InternalKeyComparator BytewiseComparator).

Definition ientry (uk : list byte) (seq t : Z) (v : list byte) : list byte * list byte :=
  (AppendInternalKey [] (mk_key uk seq t), v).

Definition demo_memtable : list (list byte * list byte) :=
  [ientry [x61] 5 1 [x05]; ientry [x62] 4 0 []; ientry [x63] 9 1 [x09]].
Definition demo_level : list (list byte * list byte) :=
  [ientry [x61] 2 1 [x02]; ientry [x62] 3 1 [x03]; ientry [x63] 1 1 [x01]].
Definition demo_internal : list (list byte * list byte) :=
  [ientry [x61] 5 1 [x05]; ientry [x61] 2 1 [x02]; ientry [x62] 4 0 []; ientry [x62] 3 1 [x03];
   ientry [x63] 9 1 [x09]; ientry [x63] 1 1 [x01]].

Example demo_view : @user_view bw 4 demo_internal = [([x61], [x02]); ([x63], [x01])].
Proof. reflexivity. Qed.

Lemma demo_internal_ok : Forall (entry_ok (uvalid := fun _ => True)) demo_internal.
Proof. repeat (constructor; [split; [eexists; reflexivity|split; [done|reflexivity]]|]). constructor. Qed.

Lemma demo_internal_sorted : StronglySorted (fun a b => internal_compare bw (fst a) (fst b) < 0) demo_internal.
Proof. repeat (constructor; [|repeat (constructor; [reflexivity|]); constructor]). constructor. Qed.

Lemma demo_list_cursor l : Forall (fun kv => ivalid (valid := fun _ => True) (fst kv)) l ->
  StronglySorted (fun a b => internal_compare bw (fst a) (fst b) < 0) l ->
  @cursor ibw (ivalid (valid := fun _ => True)) _ (@list_iterator ibw) l (fun i it => (i <= length l)%nat /\ it = mk_list_iter l i).
Proof. intros Hv Hs. by apply (list_cursor (laws := internal_laws)). Qed.

Lemma user_view_newest_witness :
  ([x61], [x02]) ∈ @user_view bw 4 demo_internal /\ exists k ik, (k, [x02]) ∈ demo_internal /\ ParseInternalKey k = Some ik /\
    user_key ik = [x61] /\ sequence ik <= 4.
Proof.
  assert (([x61], [x02]) ∈ @user_view bw 4 demo_internal) as Hin by (rewrite demo_view; left).
  split; [exact Hin|].
  apply (@user_view_newest bw (fun _ => True) bytewise_laws 4 ltac:(lia) demo_internal demo_internal_ok
    demo_internal_sorted) in Hin
    as (k & ik & H1 & H2 & H3 & H4 & _).
  exists k, ik. auto.
Defined.

Lemma db_iter_correct_witness :
  exists pos, pos 2%nat (NewDBIterator (mk_list_iter demo_internal 6) 4 301) /\
    @cursor bw (fun _ => True) _ (@db_iterator bw _ (@list_iterator ibw) 7) [([x61], [x02]); ([x63], [x01])] pos.
Proof.
  apply (@db_iter_correct bw (fun _ => True) bytewise_laws 4 ltac:(lia) demo_internal demo_internal_ok demo_internal_sorted
    _ (@list_iterator ibw) (fun i it => (i <= 6)%nat /\ it = mk_list_iter demo_internal i)).
  - apply demo_list_cursor; [|apply demo_internal_sorted]. repeat (constructor; [split; [vm_compute; discriminate|done]|]). constructor.
  - vm_compute; lia.
  - done.
Defined.

Lemma database_iterator_correct_witness :
  exists r pos, @NewMergingIterator _ (@list_iterator ibw) [mk_list_iter demo_memtable 3; mk_list_iter demo_level 3] = Done r /\
    pos 2%nat (NewDBIterator r 4 301) /\
    @cursor bw (fun _ => True) _ (@db_iterator bw _ (@merged_iterator_iterator ibw _ (@list_iterator ibw)) 7)
      [([x61], [x02]); ([x63], [x01])] pos.
Proof.
  apply (@database_iterator_correct bw (fun _ => True) bytewise_laws _ (@list_iterator ibw) [demo_memtable; demo_level]
    demo_internal 4 7 301 (fun i j it => let l := if decide (i = 0%nat) then demo_memtable else demo_level in
      (j <= length l)%nat /\ it = mk_list_iter l j)
    [mk_list_iter demo_memtable 3; mk_list_iter demo_level 3]).
  - lia.
  - apply demo_internal_ok.
  - apply demo_internal_sorted.
  - apply Permutation_skip, (Permutation_cons_app [_; _]), Permutation_skip, (Permutation_cons_app [_]). reflexivity.
  - intros [|[|i]] l [= <-]; repeat (constructor; [|repeat (constructor; [reflexivity|]); constructor]); constructor.
  - intros [|[|i]] l [= <-]; apply demo_list_cursor;
      try (repeat (constructor; [split; [vm_compute; discriminate|done]|]); constructor);
      repeat (constructor; [|repeat (constructor; [reflexivity|]); constructor]); constructor.
  - reflexivity.
  - intros [|[|i]] l it [= <-] [= <-]; split; done || (cbn; lia).
  - cbn; lia.
Defined.
