(* ===== verification/LdbVersion.v ===== *)
(** leveldb: versions, the files of each level (db/version_set.cc).

    [find_file_correct], [overlap_correct]: the searches among the files of a level.
    [overlapping_inputs_correct]: the files a compaction starts from; at level 0 the
    range grows until no other file reaches out of it, and the restarts end. *)

From Stdlib Require Import Sorting.Sorted.
From stdpp Require Import sorting.
From S2P Require Import Prelude Leb128 LdbCoding LdbStatus LdbFilename LdbFormat LdbIterator LdbTwoLevel LdbTable.
From S2P Require Import LdbVersionEdit.
Open Scope Z_scope.

(** * Sizes *)

Definition TargetFileSize (max_file_size : Z) : Z := max_file_size.
Definition MaxGrandParentOverlapBytes (max_file_size : Z) : Z := s64 (10 * TargetFileSize max_file_size).
Definition ExpandedCompactionByteSizeLimit (max_file_size : Z) : Z := s64 (25 * TargetFileSize max_file_size).
Definition MaxFileSizeForLevel (max_file_size level : Z) : Z := TargetFileSize max_file_size.

Definition TotalFileSize (files : list FileMetaData) : Z :=
  fold_left (fun sum f => s64 (sum + file_size f)) files 0.

(** * Searches among files *)

Section Files.
Context {user_comparator : Comparator}.
Implicit Types (f : FileMetaData) (files : list FileMetaData).

#[local] Abbreviation icmp := (internal_compare user_comparator).

(** [files[i]]: out of bounds past the end. *)
Definition file_at files (i : Z) : run FileMetaData :=
  match files !! Z.to_nat i with Some f => Done f | None => OutOfBounds end.

Fixpoint find_file_loop (fuel : nat) files (key : list byte) (left right : Z) : run Z :=
  match fuel with
  | O => OutOfFuel
  | S fuel =>
      if left <? right then
        let mid := u32 (left + right) / 2 in
        f ← file_at files mid;
        if icmp (largest f) key <? 0
        then find_file_loop fuel files key (u32 (mid + 1)) right
        else find_file_loop fuel files key left mid
      else Done right
  end.

Definition num_files files : Z := Z.of_nat (length files).

Definition FindFile files (key : list byte) : run Z :=
  find_file_loop (S (length files)) files key 0 (u32 (num_files files)).

(** A null pointer is [None]. *)
Definition AfterFile (user_key : option (list byte)) f : bool :=
  match user_key with
  | Some k => Compare k (ExtractUserKey (largest f)) >? 0
  | None => false
  end.

Definition BeforeFile (user_key : option (list byte)) f : bool :=
  match user_key with
  | Some k => Compare k (ExtractUserKey (smallest f)) <? 0
  | None => false
  end.

Definition SomeFileOverlapsRange (disjoint_sorted_files : bool) files
    (smallest_user_key largest_user_key : option (list byte)) : run bool :=
  if negb disjoint_sorted_files
  then Done (existsb (fun f => negb (AfterFile smallest_user_key f || BeforeFile largest_user_key f)) files)
  else
    index ←
      match smallest_user_key with
      | Some k => FindFile files (AppendInternalKey [] (mk_key k kMaxSequenceNumber kValueTypeForSeek))
      | None => Done 0
      end;
    if index >=? num_files files then Done false
    else f ← file_at files index; Done (negb (BeforeFile largest_user_key f)).

(** ** Version::LevelFileNumIterator *)

Record LevelFileNumIterator := mk_lfn { flist_ : list FileMetaData; index_ : Z }.

Definition new_LevelFileNumIterator files : LevelFileNumIterator := mk_lfn files (u32 (num_files files)).

Definition file_value f : list byte := EncodeFixed64 (number f) ++ EncodeFixed64 (file_size f).

Definition lfn_Valid (it : LevelFileNumIterator) : bool := index_ it <? num_files (flist_ it).

#[export] Instance level_file_num_iterator : Iterator LevelFileNumIterator := {
  Valid := lfn_Valid;
  SeekToFirst it := Done (mk_lfn (flist_ it) 0);
  SeekToLast it := Done (mk_lfn (flist_ it)
    (match flist_ it with [] => 0 | _ => u32 (num_files (flist_ it) - 1) end));
  Seek it target := i ← FindFile (flist_ it) target; Done (mk_lfn (flist_ it) i);
  Next it := Done (mk_lfn (flist_ it) (u32 (index_ it + 1)));
  Prev it := Done (mk_lfn (flist_ it)
    (if index_ it =? 0 then u32 (num_files (flist_ it)) else u32 (index_ it - 1)));
  key it := f ← file_at (flist_ it) (index_ it); Done (largest f);
  value it := f ← file_at (flist_ it) (index_ it); Done (file_value f);
  status it := OK;
}.

(** ** Overlaps *)

(** The loop of [GetOverlappingInputs] from file [i] on. *)
Fixpoint overlapping_loop (fuel : nat) (level0 : bool) files (i : nat) (user_begin user_end : option (list byte))
    (inputs : list FileMetaData) : run (list FileMetaData) :=
  match fuel with
  | O => OutOfFuel
  | S fuel =>
      match files !! i with
      | None => Done inputs
      | Some f =>
          let file_start := ExtractUserKey (smallest f) in
          let file_limit := ExtractUserKey (largest f) in
          let i := S i in
          if match user_begin with Some b => Compare file_limit b <? 0 | None => false end
          then overlapping_loop fuel level0 files i user_begin user_end inputs
          else if match user_end with Some e => Compare file_start e >? 0 | None => false end
          then overlapping_loop fuel level0 files i user_begin user_end inputs
          else
            let inputs := inputs ++ [f] in
            if level0 then
              if match user_begin with Some b => Compare file_start b <? 0 | None => false end
              then overlapping_loop fuel level0 files 0 (Some file_start) user_end []
              else if match user_end with Some e => Compare file_limit e >? 0 | None => false end
              then overlapping_loop fuel level0 files 0 user_begin (Some file_limit) []
              else overlapping_loop fuel level0 files i user_begin user_end inputs
            else overlapping_loop fuel level0 files i user_begin user_end inputs
      end
  end.

(** Every restart widens the range at one end to the end of another file, so there are
    at most as many as ends of files. *)
Definition overlapping_fuel files : nat := (S (2 * length files) * S (length files))%nat.

(** [begin] and [end_] are internal keys. *)
Definition GetOverlappingInputs (level0 : bool) files (begin end_ : option (list byte)) : run (list FileMetaData) :=
  overlapping_loop (overlapping_fuel files) level0 files 0 (ExtractUserKey <$> begin) (ExtractUserKey <$> end_) [].
End Files.

(** * The searches *)

Lemma filter_length_lt {A} (p q : A -> bool) (l : list A) :
  (forall x, x ∈ l -> p x = true -> q x = true) -> (exists x, x ∈ l /\ q x = true /\ p x = false) ->
  (length (List.filter p l) < length (List.filter q l))%nat.
Proof.
  intros Hpq (x & Hx & Hq & Hp). apply list_elem_of_split in Hx as (l1 & l2 & ->).
  assert (forall l', (forall x, x ∈ l' -> p x = true -> q x = true) ->
    (length (List.filter p l') <= length (List.filter q l'))%nat) as Hle.
  { induction l' as [|y l' IH]; intros H; [done|]. cbn. pose proof (H y ltac:(left)).
    specialize (IH (fun z Hz => H z ltac:(by right))). destruct (p y), (q y); cbn; lia. }
  rewrite !List.filter_app, !length_app. cbn. rewrite Hq, Hp. cbn.
  pose proof (Hle l1 ltac:(intros; apply Hpq; [set_solver|done])).
  pose proof (Hle l2 ltac:(intros; apply Hpq; [set_solver|done])). lia.
Qed.

Lemma StronglySorted_at {A} (R : A -> A -> Prop) (l : list A) i j x y :
  StronglySorted R l -> l !! i = Some x -> l !! j = Some y -> (i < j)%nat -> R x y.
Proof.
  intros Hs Hi Hj Hlt. rewrite <- (take_drop_middle l i x Hi) in Hs. apply StronglySorted_app in Hs as (_ & _ & Hs).
  inversion_clear Hs as [|? ? _ Hall]. rewrite list.Forall_forall in Hall. apply Hall.
  apply list_elem_of_lookup. exists (j - S i)%nat. rewrite lookup_drop, <- Hj. f_equal. lia.
Qed.

Section Search.
Context {u : Comparator} {uvalid : list byte -> Prop} {laws : ComparatorLaws uvalid u}.
Implicit Types (f g : FileMetaData) (files : list FileMetaData).

#[local] Abbreviation icomparator := (InternalKeyComparator u).
#[local] Abbreviation icmp := (internal_compare u).
#[local] Abbreviation ivalid := (ivalid (valid := uvalid)).
#[local] Abbreviation start f := (ExtractUserKey (smallest f)).
#[local] Abbreviation limit f := (ExtractUserKey (largest f)).

(** The range of a file is one. *)
Definition file_ok f : Prop := ivalid (smallest f) /\ ivalid (largest f) /\ icmp (smallest f) (largest f) <= 0.

Lemma file_range f : file_ok f -> uvalid (start f) /\ uvalid (limit f) /\ Compare (start f) (limit f) <= 0.
Proof. intros ([_ Hs] & [_ Hl] & Hle). split; [done|]. split; [done|]. apply icmp_le in Hle. lia. Qed.

Definition file_entry f : list byte * list byte := (largest f, file_value f).

(** The largest keys do not decrease. *)
Definition limits_sorted files : Prop := StronglySorted (fun f g => icmp (largest f) (largest g) <= 0) files.

Lemma limits_lookup files i j f g :
  Forall file_ok files -> limits_sorted files -> files !! i = Some f -> files !! j = Some g -> (i <= j)%nat ->
  icmp (largest f) (largest g) <= 0.
Proof.
  intros Hok Hs Hi Hj Hle. destruct (decide (i = j)) as [-> |Hne].
  - assert (f = g) as -> by congruence. rewrite list.Forall_forall in Hok.
    destruct (Hok g (list_elem_of_lookup_2 _ _ _ Hj)) as (_ & Hv & _).
    pose proof (cmp_refl (c := icomparator) _ Hv) as Hr. cbn [Compare InternalKeyComparator] in Hr. lia.
  - apply (StronglySorted_at _ _ i j f g Hs); [done..|lia].
Qed.

Lemma find_file_loop_ok files key : ivalid key -> Forall file_ok files -> limits_sorted files ->
  num_files files < 2 ^ 31 -> forall fuel left right,
  0 <= left <= right -> right <= num_files files -> right - left < Z.of_nat fuel ->
  (forall j f, files !! j = Some f -> Z.of_nat j < left -> icmp (largest f) key < 0) ->
  (forall j f, files !! j = Some f -> right <= Z.of_nat j -> 0 <= icmp (largest f) key) ->
  exists i, find_file_loop fuel files key left right = Done (Z.of_nat i) /\ @lower_bound icomparator key (map file_entry files) i.
Proof.
  intros Hk Hok Hs Hn. induction fuel as [|fuel IH]; intros left right Hlr Hr Hf Hbelow Habove; [lia|].
  cbn [find_file_loop]. destruct (Z.ltb_spec left right) as [Hlt|Hge].
  - rewrite (u32_small (left + right)) by lia.
    assert (left <= (left + right) / 2 < right) as Hmid by (split; [apply Z.div_le_lower_bound|apply Z.div_lt_upper_bound]; lia).
    set (mid := (left + right) / 2) in *. unfold file_at.
    destruct (lookup_lt_is_Some_2 files (Z.to_nat mid)) as [f Ef]; [unfold num_files in *; lia|]. rewrite Ef, run_bind_done.
    assert (forall j g, files !! j = Some g -> ivalid (largest g)) as Hvalid.
    { intros j g Hg. rewrite list.Forall_forall in Hok. by destruct (Hok g (list_elem_of_lookup_2 _ _ _ Hg)) as (_ & ? & _). }
    destruct (Z.ltb_spec (icmp (largest f) key) 0) as [Hc|Hc].
    + rewrite (u32_small (mid + 1)) by lia. apply IH; [lia|done|lia| |done].
      intros j g Hg Hj. apply (cmp_trans_lt_r (c := icomparator) _ (largest f)); eauto.
      apply (limits_lookup files j (Z.to_nat mid)); [done..|lia].
    + apply IH; [lia|lia|lia|done|]. intros j g Hg Hj.
      apply (cmp_le_ge (c := icomparator) key (largest g)); [done|eauto|].
      apply (cmp_trans (c := icomparator) _ (largest f)); eauto.
      * apply (cmp_le_ge (c := icomparator) key (largest f)); eauto.
      * apply (limits_lookup files (Z.to_nat mid) j); [done..|lia].
  - exists (Z.to_nat right). rewrite Z2Nat.id by lia. split; [done|]. split.
    + rewrite length_map. unfold num_files in *. lia.
    + intros j kv Hj. apply list_lookup_fmap_Some in Hj as (f & -> & Ef). cbn [fst file_entry Compare InternalKeyComparator].
      pose proof (Hbelow j f Ef). pose proof (Habove j f Ef). split; lia.
Qed.

Lemma FindFile_ok files key : ivalid key -> Forall file_ok files -> limits_sorted files -> num_files files < 2 ^ 31 ->
  exists i, FindFile files key = Done (Z.of_nat i) /\ @lower_bound icomparator key (map file_entry files) i.
Proof.
  intros Hk Hok Hs Hn. assert (0 <= num_files files) by (unfold num_files; lia).
  unfold FindFile. rewrite u32_small by lia.
  apply find_file_loop_ok; try done; try lia; [unfold num_files; lia|].
  intros j f Hj Hge. apply lookup_lt_Some in Hj. unfold num_files in Hge. lia.
Qed.

(** [FindFile] is the search it is documented to be: among files sorted by their
    largest keys it gives the first whose largest key is not below the key, or the
    number of files; the indices do not wrap around and stay in the vector. *)
Theorem find_file_correct files key : ivalid key -> Forall file_ok files -> limits_sorted files -> num_files files < 2 ^ 31 ->
  exists i, FindFile files key = Done (Z.of_nat i) /\ (i <= length files)%nat /\
    forall j f, files !! j = Some f -> icmp (largest f) key < 0 <-> (j < i)%nat.
Proof.
  intros Hk Hok Hs Hn. destruct (FindFile_ok files key Hk Hok Hs Hn) as (i & E & Hi & Hl). exists i. split; [done|].
  rewrite length_map in Hi. split; [done|]. intros j f Hj. apply (Hl j (file_entry f)).
  rewrite list_lookup_fmap, Hj. done.
Qed.

(** ** Overlap of a range *)

(** The user keys of [f] meet the range. *)
Definition overlaps (b e : option (list byte)) f : bool :=
  negb (match b with Some b => Compare (limit f) b <? 0 | None => false end) &&
  negb (match e with Some e => Compare (start f) e >? 0 | None => false end).

Definition bound_ok (b : option (list byte)) : Prop := forall k, b = Some k -> uvalid k.

Lemma after_before b e f : bound_ok b -> bound_ok e -> file_ok f ->
  negb (AfterFile b f || BeforeFile e f) = overlaps b e f.
Proof.
  intros Hb He Hf. apply file_range in Hf as (Hs & Hl & _). unfold AfterFile, BeforeFile, overlaps. rewrite negb_orb.
  f_equal; f_equal.
  - destruct b as [b|]; [|done]. pose proof (cmp_lt_gt (limit f) b Hl (Hb b eq_refl)).
    destruct (Z.gtb_spec (Compare b (limit f)) 0), (Z.ltb_spec (Compare (limit f) b) 0); lia.
  - destruct e as [e|]; [|done]. pose proof (cmp_lt_gt e (start f) (He e eq_refl) Hs).
    destruct (Z.ltb_spec (Compare e (start f)) 0), (Z.gtb_spec (Compare (start f) e) 0); lia.
Qed.

(** Files in order that do not overlap. *)
Definition disjoint files : Prop := StronglySorted (fun f g => icmp (largest f) (smallest g) < 0) files.

Lemma disjoint_limits files : Forall file_ok files -> disjoint files -> limits_sorted files.
Proof.
  intros Hok Hd. induction Hd as [|f files Hd IH Hall]; [constructor|]. apply List.Forall_cons_iff in Hok as [Hf Hok].
  constructor; [by apply IH|]. apply list.Forall_forall. intros g Hg.
  rewrite list.Forall_forall in Hall, Hok. destruct (Hok g Hg) as (Hvs & Hvl & Hle), Hf as (_ & Hvf & _).
  apply (cmp_trans (c := icomparator) _ (smallest g)); [done..| |done]. apply Z.lt_le_incl, (Hall g Hg).
Qed.

Lemma small_key_facts k : ExtractUserKey (AppendInternalKey [] (mk_key k kMaxSequenceNumber kValueTypeForSeek)) = k /\
  8 <= size (AppendInternalKey [] (mk_key k kMaxSequenceNumber kValueTypeForSeek)) /\
  key_tag (AppendInternalKey [] (mk_key k kMaxSequenceNumber kValueTypeForSeek)) = 2 ^ 64 - 255.
Proof.
  rewrite append_internal_key. cbn [user_key sequence vtype]. rewrite extract_app, tag_app, size_fixed64.
  pose proof (size_nonneg k). split; [done|]. split; [lia|reflexivity].
Qed.

(** The tags of keys in files are at most that of the earliest key of a user key. *)
Definition tag_ok f : Prop := key_tag (largest f) <= 2 ^ 64 - 255.

Lemma SomeFileOverlapsRange_ok sorted_files files b e :
  Forall file_ok files -> Forall tag_ok files -> bound_ok b -> bound_ok e -> num_files files < 2 ^ 31 ->
  (sorted_files = true -> disjoint files) -> (forall x y, b = Some x -> e = Some y -> Compare x y <= 0) ->
  SomeFileOverlapsRange sorted_files files b e = Done (existsb (overlaps b e) files).
Proof.
  intros Hok Htag Hb He Hn Hd Hbe. unfold SomeFileOverlapsRange.
  assert (forall f, f ∈ files -> negb (AfterFile b f || BeforeFile e f) = overlaps b e f) as Hov.
  { intros f Hf. rewrite list.Forall_forall in Hok. apply after_before; auto. }
  destruct sorted_files; cbn [negb].
  2: { f_equal. clear -Hov. induction files as [|f files IH]; [done|]. cbn [existsb]. f_equal; [apply Hov; left|].
    apply IH. intros g Hg. apply Hov. by right. }
  specialize (Hd eq_refl). pose proof (disjoint_limits files Hok Hd) as Hls.
  assert (exists i, match b with
      | Some k => FindFile files (AppendInternalKey [] (mk_key k kMaxSequenceNumber kValueTypeForSeek))
      | None => Done 0
      end = Done (Z.of_nat i) /\ (i <= length files)%nat /\
      forall j f, files !! j = Some f -> (j < i)%nat <-> AfterFile b f = true) as (i & -> & Hi & Hbelow).
  { destruct b as [k|]; [|exists 0%nat; split; [done|]; split; [lia|]; intros; split; [lia|done]].
    destruct (small_key_facts k) as (Eu & H8 & Etag). specialize (Hb k eq_refl).
    destruct (FindFile_ok files (AppendInternalKey [] (mk_key k kMaxSequenceNumber kValueTypeForSeek)))
      as (i & -> & Hi & Hl); [by split; [|rewrite Eu]|done|done|done|].
    rewrite length_map in Hi. exists i. split; [done|]. split; [done|]. intros j f Hj.
    pose proof (Hl j (file_entry f)) as Hlj. rewrite list_lookup_fmap, Hj in Hlj. rewrite <- Hlj by done.
    cbn [fst file_entry Compare InternalKeyComparator]. rewrite icmp_lt, Eu, Etag.
    pose proof (list_elem_of_lookup_2 _ _ _ Hj) as Hin. rewrite list.Forall_forall in Hok, Htag.
    pose proof (Htag f Hin) as Ht. unfold tag_ok in Ht. destruct (file_range f (Hok f Hin)) as (_ & Hvl & _).
    pose proof (cmp_lt_gt (limit f) k Hvl Hb). unfold AfterFile.
    destruct (Z.gtb_spec (Compare k (limit f)) 0); lia. }
  rewrite run_bind_done. destruct (Z.geb_spec (Z.of_nat i) (num_files files)) as [Hge|Hlt].
  - f_equal. symmetry. apply not_true_is_false. intros (f & Hf & Ho)%existsb_exists.
    apply list_elem_of_In, list_elem_of_lookup in Hf as [j Hj]. rewrite <- Hov in Ho by (by apply list_elem_of_lookup_2 in Hj).
    rewrite (proj1 (Hbelow j f Hj)) in Ho; [done|]. apply lookup_lt_Some in Hj. unfold num_files in Hge. lia.
  - unfold file_at. rewrite Nat2Z.id.
    destruct (lookup_lt_is_Some_2 files i) as [f Ef]; [unfold num_files in Hlt; lia|]. rewrite Ef, run_bind_done. f_equal.
    pose proof (list_elem_of_lookup_2 _ _ _ Ef) as Hin.
    assert (AfterFile b f = false) as Hna by (apply not_true_is_false; rewrite <- (Hbelow i f Ef); lia).
    destruct (BeforeFile e f) eqn:Hbf; cbn [negb]; symmetry.
    + apply not_true_is_false. intros (g & Hg & Ho)%existsb_exists.
      apply list_elem_of_In in Hg. rewrite <- Hov in Ho by done. apply list_elem_of_lookup in Hg as [j Hj].
      destruct (Nat.lt_ge_cases j i) as [Hji|Hij]; [by rewrite (proj1 (Hbelow j g Hj) Hji) in Ho|].
      assert (BeforeFile e g = true) as Hbg; [|rewrite Hbg, orb_true_r in Ho; done].
      unfold BeforeFile in *. destruct e as [e|]; [|done]. apply Z.ltb_lt in Hbf. apply Z.ltb_lt.
      destruct (decide (i = j)) as [<- |Hne]; [by assert (f = g) as <- by congruence|].
      rewrite list.Forall_forall in Hok. destruct (file_range f (Hok f Hin)) as (Hvs & Hvl & Hle).
      destruct (Hok g (list_elem_of_lookup_2 _ _ _ Hj)) as ((_ & Hvg) & _).
      apply (cmp_trans_lt _ (start f)); auto. apply (cmp_trans _ (limit f)); auto.
      pose proof (StronglySorted_at _ _ i j f g Hd Ef Hj ltac:(lia)) as Hc. apply icmp_lt in Hc. lia.
    + apply existsb_exists. exists f. split; [by apply list_elem_of_In|]. by rewrite <- Hov, Hna, Hbf.
Qed.

(** A range of user keys overlaps some file exactly when the test says so, whether the
    files are all examined or, for disjoint sorted files, searched; null bounds are
    infinite.  [tag_ok]: the largest keys have real types. *)
Theorem overlap_correct sorted_files files b e :
  Forall file_ok files -> Forall tag_ok files -> bound_ok b -> bound_ok e -> num_files files < 2 ^ 31 ->
  (sorted_files = true -> disjoint files) -> (forall x y, b = Some x -> e = Some y -> Compare x y <= 0) ->
  SomeFileOverlapsRange sorted_files files b e = Done (existsb (overlaps b e) files).
Proof. apply SomeFileOverlapsRange_ok. Qed.

(** ** The files a compaction starts from *)

Definition le_bound (a b : option (list byte)) : Prop :=
  match a, b with Some x, Some y => Compare x y <= 0 | None, None => True | _, _ => False end.

(** The range [B, E] contains [b, e]; infinite ends are the same. *)
Definition wider (B E b e : option (list byte)) : Prop := le_bound B b /\ le_bound e E.

Definition starts_before (b : option (list byte)) f : bool :=
  match b with Some b => Compare (start f) b <? 0 | None => false end.
Definition ends_after (e : option (list byte)) f : bool :=
  match e with Some e => Compare (limit f) e >? 0 | None => false end.

(** No file that meets the range reaches out of it. *)
Definition closed files (b e : option (list byte)) : Prop :=
  forall f, f ∈ files -> overlaps b e f = true -> starts_before b f = false /\ ends_after e f = false.

Lemma le_bound_refl b : bound_ok b -> le_bound b b.
Proof. intros Hb. destruct b as [b|]; [|done]. cbn. rewrite cmp_refl; [done|]. by apply Hb. Qed.

Lemma le_bound_trans a b d : bound_ok a -> bound_ok b -> bound_ok d -> le_bound a b -> le_bound b d -> le_bound a d.
Proof.
  intros Ha Hb Hd. destruct a as [a|], b as [b|], d as [d|]; try done. cbn.
  apply cmp_trans; auto.
Qed.

(** The files that could still move an end of the range. *)
Definition growth files (b e : option (list byte)) : nat :=
  (length (List.filter (starts_before b) files) + length (List.filter (ends_after e) files))%nat.

Lemma growth_bound files b e : (growth files b e <= 2 * length files)%nat.
Proof.
  unfold growth. pose proof (filter_length_le (starts_before b) files).
  pose proof (filter_length_le (ends_after e) files). lia.
Qed.

Lemma starts_before_mono B b f : bound_ok B -> bound_ok b -> file_ok f ->
  le_bound B b -> starts_before B f = true -> starts_before b f = true.
Proof.
  intros HB Hb Hf Hle. apply file_range in Hf as (Hs & _). destruct B as [B|], b as [b|]; try done. cbn in *.
  intros Hlt%Z.ltb_lt. apply Z.ltb_lt. apply (cmp_trans_lt _ B); auto.
Qed.

Lemma ends_after_mono E e f : bound_ok E -> bound_ok e -> file_ok f ->
  le_bound e E -> ends_after E f = true -> ends_after e f = true.
Proof.
  intros HE He Hf Hle. apply file_range in Hf as (_ & Hl & _). destruct E as [E|], e as [e|]; try done. cbn in *.
  rewrite !Z.gtb_lt. intros Hlt. apply cmp_lt_gt; auto. apply (cmp_trans_lt_r _ E); auto. apply cmp_lt_gt; auto.
Qed.

Lemma overlaps_mono B E b e f : bound_ok B -> bound_ok E -> bound_ok b -> bound_ok e -> file_ok f ->
  wider B E b e -> overlaps b e f = true -> overlaps B E f = true.
Proof.
  intros HB HE Hb He Hf [H1 H2] [Ho1 Ho2]%andb_prop. apply file_range in Hf as (Hs & Hl & _). apply andb_true_intro. split.
  - destruct B as [B|], b as [b|]; try done. apply negb_true_iff, Z.ltb_ge. apply negb_true_iff, Z.ltb_ge in Ho1.
    apply cmp_le_ge; auto. apply (cmp_trans _ b); auto. apply cmp_le_ge; auto.
  - destruct E as [E|], e as [e|]; try done. apply negb_true_iff. rewrite Z.gtb_ltb. apply Z.ltb_ge. apply negb_true_iff in Ho2.
    rewrite Z.gtb_ltb in Ho2. apply Z.ltb_ge in Ho2. apply (cmp_trans _ e); auto.
Qed.

(** A restart at an end of [f]. *)
Lemma growth_start files b e f : Forall file_ok files -> f ∈ files -> bound_ok b -> starts_before b f = true ->
  (growth files (Some (start f)) e < growth files b e)%nat.
Proof.
  intros Hok Hf Hb Hst. unfold growth. rewrite list.Forall_forall in Hok.
  destruct (file_range f (Hok f Hf)) as (Hs & _). apply Nat.add_lt_mono_r, filter_length_lt.
  - intros g Hg. apply starts_before_mono; auto; [by intros k [= <-]|].
    destruct b as [b|]; [|done]. cbn in *. apply Z.ltb_lt in Hst. lia.
  - exists f. split; [done|]. split; [done|]. cbn. rewrite cmp_refl by done. done.
Qed.

Lemma growth_end files b e f : Forall file_ok files -> f ∈ files -> bound_ok e -> ends_after e f = true ->
  (growth files b (Some (limit f)) < growth files b e)%nat.
Proof.
  intros Hok Hf He Hst. unfold growth. rewrite list.Forall_forall in Hok.
  destruct (file_range f (Hok f Hf)) as (_ & Hl & _). apply Nat.add_lt_mono_l, filter_length_lt.
  - intros g Hg. apply ends_after_mono; auto; [by intros k [= <-]|].
    destruct e as [e|]; [|done]. cbn in *. rewrite Z.gtb_lt in Hst. apply cmp_le_ge; auto. lia.
  - exists f. split; [done|]. split; [done|]. cbn. rewrite cmp_refl by done. done.
Qed.

(** The tests of the loop are [overlaps]. *)
Lemma overlapping_step fuel level0 files i b e inputs f : files !! i = Some f ->
  overlapping_loop (S fuel) level0 files i b e inputs =
  if overlaps b e f then
    if level0 && starts_before b f then overlapping_loop fuel level0 files 0 (Some (start f)) e []
    else if level0 && ends_after e f then overlapping_loop fuel level0 files 0 b (Some (limit f)) []
    else overlapping_loop fuel level0 files (S i) b e (inputs ++ [f])
  else overlapping_loop fuel level0 files (S i) b e inputs.
Proof.
  intros Ef. cbn [overlapping_loop]. rewrite Ef. unfold overlaps, starts_before, ends_after.
  destruct (match b with Some b => Compare (limit f) b <? 0 | None => false end); [done|].
  destruct (match e with Some e => Compare (start f) e >? 0 | None => false end); [done|].
  cbn [negb andb]. by destruct level0.
Qed.

Lemma filter_take_S {A} (p : A -> bool) (l : list A) i x : l !! i = Some x ->
  List.filter p (take (S i) l) = List.filter p (take i l) ++ (if p x then [x] else []).
Proof. intros Hx. rewrite (take_S_r l i x Hx), List.filter_app. done. Qed.

(** What the loop has of the files before [i]. *)
Lemma overlapping_sorted files b e : forall fuel i,
  (length files - i < fuel)%nat -> (i <= length files)%nat ->
  overlapping_loop fuel false files i b e (List.filter (overlaps b e) (take i files)) = Done (List.filter (overlaps b e) files).
Proof.
  induction fuel as [|fuel IH]; intros i Hf Hi; [lia|]. destruct (files !! i) as [f|] eqn:Ef.
  - rewrite (overlapping_step _ _ _ _ _ _ _ f Ef). cbn [andb]. pose proof (lookup_lt_Some _ _ _ Ef).
    pose proof (filter_take_S (overlaps b e) files i f Ef) as Ht.
    destruct (overlaps b e f); rewrite ?app_nil_r in Ht; rewrite <- Ht; apply IH; lia.
  - cbn [overlapping_loop]. rewrite Ef. apply lookup_ge_None in Ef. rewrite firstn_all2 by lia. done.
Qed.

Lemma overlapping_level0 files : Forall file_ok files -> forall fuel i b e, bound_ok b -> bound_ok e ->
  (growth files b e * S (length files) + (length files - i) < fuel)%nat -> (i <= length files)%nat ->
  closed (take i files) b e ->
  exists b' e', overlapping_loop fuel true files i b e (List.filter (overlaps b e) (take i files)) =
      Done (List.filter (overlaps b' e') files) /\
    bound_ok b' /\ bound_ok e' /\ wider b' e' b e /\ closed files b' e' /\
    forall B E, bound_ok B -> bound_ok E -> wider B E b e -> closed files B E -> wider B E b' e'.
Proof.
  intros Hok. induction fuel as [|fuel IH]; intros i b e Hb He Hf Hi Hc; [lia|]. destruct (files !! i) as [f|] eqn:Ef.
  2: { cbn [overlapping_loop]. rewrite Ef. apply lookup_ge_None in Ef. rewrite firstn_all2 in * by lia.
    exists b, e. split; [done|]. split; [done|]. split; [done|]. split; [split; by apply le_bound_refl|done]. }
  rewrite (overlapping_step _ _ _ _ _ _ _ f Ef). pose proof (lookup_lt_Some _ _ _ Ef) as Hlt. cbn [andb].
  pose proof (list_elem_of_lookup_2 _ _ _ Ef) as Hin. pose proof Hok as Hok'. rewrite list.Forall_forall in Hok'.
  destruct (file_range f (Hok' f Hin)) as (Hs & Hl & _).
  pose proof (filter_take_S (overlaps b e) files i f Ef) as Ht.
  destruct (overlaps b e f) eqn:Eo; [destruct (starts_before b f) eqn:Es; [|destruct (ends_after e f) eqn:Ee]|].
  - pose proof (growth_start files b e f Hok Hin Hb Es).
    assert (bound_ok (Some (start f))) as Hb' by (by intros k [= <-]).
    assert (le_bound (Some (start f)) b) as Hle.
    { destruct b as [b|]; [|done]. cbn in Es |- *. apply Z.ltb_lt in Es. lia. }
    destruct (IH 0%nat (Some (start f)) e Hb' He) as (b' & e' & E & Hbo & Heo & [Hw1 Hw2] & Hcl & Hmin); [nia|lia|by intros g []%not_elem_of_nil|].
    exists b', e'. split; [exact E|]. split; [done|]. split; [done|].
    split; [split; [by apply (le_bound_trans _ (Some (start f)))|done]|]. split; [done|].
    intros B E' HB HE Hw HcB. apply Hmin; [done..| |done]. split; [|apply Hw].
    destruct (HcB f Hin) as [Hns _]; [by apply (overlaps_mono B E' b e); auto|].
    destruct Hw as [Hw _]. destruct B as [B|], b as [b|]; try done. cbn in Hns |- *. apply Z.ltb_ge in Hns. apply cmp_le_ge; auto.
  - pose proof (growth_end files b e f Hok Hin He Ee).
    assert (bound_ok (Some (limit f))) as He' by (by intros k [= <-]).
    assert (le_bound e (Some (limit f))) as Hle.
    { destruct e as [e|]; [|done]. cbn in Ee |- *. rewrite Z.gtb_lt in Ee. apply cmp_le_ge; auto. lia. }
    destruct (IH 0%nat b (Some (limit f)) Hb He') as (b' & e' & E & Hbo & Heo & [Hw1 Hw2] & Hcl & Hmin); [nia|lia|by intros g []%not_elem_of_nil|].
    exists b', e'. split; [exact E|]. split; [done|]. split; [done|].
    split; [split; [done|by apply (le_bound_trans _ (Some (limit f)))]|]. split; [done|].
    intros B E' HB HE Hw HcB. apply Hmin; [done..| |done]. split; [apply Hw|].
    destruct (HcB f Hin) as [_ Hns]; [by apply (overlaps_mono B E' b e); auto|].
    destruct Hw as [_ Hw]. destruct E' as [E'|], e as [e|]; try done. cbn in Hns |- *. rewrite Z.gtb_ltb in Hns. by apply Z.ltb_ge in Hns.
  - rewrite <- Ht. apply IH; [done..|lia|lia|]. rewrite (take_S_r files i f Ef). intros g [Hg|Hg]%elem_of_app; [by apply Hc|].
    apply list_elem_of_singleton in Hg as ->. done.
  - rewrite app_nil_r in Ht. rewrite <- Ht. apply IH; [done..|lia|lia|].
    rewrite (take_S_r files i f Ef). intros g [Hg|Hg]%elem_of_app; [by apply Hc|].
    apply list_elem_of_singleton in Hg as ->. congruence.
Qed.

Lemma extract_bound_ok (b : option (list byte)) : (forall k, b = Some k -> ivalid k) -> bound_ok (ExtractUserKey <$> b).
Proof. intros Hb k Hk. destruct b as [x|]; [|done]. injection Hk as <-. by apply (Hb x). Qed.

Lemma GetOverlappingInputs_ok level0 files b e :
  Forall file_ok files -> (forall k, b = Some k -> ivalid k) -> (forall k, e = Some k -> ivalid k) ->
  exists b' e', GetOverlappingInputs level0 files b e = Done (List.filter (overlaps b' e') files) /\
    bound_ok b' /\ bound_ok e' /\ wider b' e' (ExtractUserKey <$> b) (ExtractUserKey <$> e) /\
    if level0 then closed files b' e' /\
      forall B E, bound_ok B -> bound_ok E -> wider B E (ExtractUserKey <$> b) (ExtractUserKey <$> e) ->
        closed files B E -> wider B E b' e'
    else b' = ExtractUserKey <$> b /\ e' = ExtractUserKey <$> e.
Proof.
  intros Hok Hb%extract_bound_ok He%extract_bound_ok. unfold GetOverlappingInputs.
  set (b0 := ExtractUserKey <$> b) in *. set (e0 := ExtractUserKey <$> e) in *. destruct level0.
  - pose proof (growth_bound files b0 e0) as Hg.
    destruct (overlapping_level0 files Hok (overlapping_fuel files) 0 b0 e0 Hb He) as (b' & e' & E & Hb' & He' & Hw & Hc);
      [unfold overlapping_fuel; nia|lia|by intros g []%not_elem_of_nil|].
    exists b', e'. done.
  - exists b0, e0. split; [|split; [done|]; split; [done|]; split; [split; by apply le_bound_refl|done]].
    apply (overlapping_sorted files b0 e0 (overlapping_fuel files) 0); unfold overlapping_fuel; nia.
Qed.

(** The files a compaction starts from. Above level 0 they are those that meet the
    range of user keys.  At level 0 the search restarts, each time an overlapping file
    reaches out of the range; it ends, and gives the files that meet the least range
    around the given one out of which no file reaches. *)
Theorem overlapping_inputs_correct level0 files b e :
  Forall file_ok files -> (forall k, b = Some k -> ivalid k) -> (forall k, e = Some k -> ivalid k) ->
  exists b' e', GetOverlappingInputs level0 files b e = Done (List.filter (overlaps b' e') files) /\
    wider b' e' (ExtractUserKey <$> b) (ExtractUserKey <$> e) /\
    if level0 then closed files b' e' /\
      forall B E, bound_ok B -> bound_ok E -> wider B E (ExtractUserKey <$> b) (ExtractUserKey <$> e) ->
        closed files B E -> wider B E b' e'
    else b' = ExtractUserKey <$> b /\ e' = ExtractUserKey <$> e.
Proof.
  intros Hok Hb He. destruct (GetOverlappingInputs_ok level0 files b e Hok Hb He) as (b' & e' & E & _ & _ & Hr). by exists b', e'.
Qed.
End Search.

(** * Witnesses *)

#[local] Abbreviation bw := BytewiseComparator.

Definition demo_ikey (k : list byte) (s : Z) : list byte := AppendInternalKey [] (mk_key k s kTypeValue).
Definition demo_file (n : Z) (a b : list byte) : FileMetaData := mk_meta 1 100 n 1000 (demo_ikey a 9) (demo_ikey b 3).

Lemma demo_ikey_valid k s : @ivalid (fun _ => True) (demo_ikey k s).
Proof. split; [|done]. unfold demo_ikey. rewrite append_internal_key, size_fixed64. pose proof (size_nonneg k). cbn [user_key]. lia. Qed.

Lemma demo_file_ok n a b : internal_compare bw (demo_ikey a 9) (demo_ikey b 3) <= 0 -> @file_ok bw (fun _ => True) (demo_file n a b).
Proof. intros H. split; [apply demo_ikey_valid|]. split; [apply demo_ikey_valid|done]. Qed.

Definition demo_files : list FileMetaData :=
  [demo_file 7 [x61] [x63]; demo_file 5 [x65] [x67]; demo_file 9 [x68] [x6a]].

Lemma demo_files_ok : Forall (@file_ok bw (fun _ => True)) demo_files.
Proof. repeat constructor; try done; vm_compute; discriminate. Qed.

Lemma demo_files_disjoint : @disjoint bw demo_files.
Proof. repeat constructor. Qed.

Lemma find_file_correct_witness : exists i, @FindFile bw demo_files (demo_ikey [x65] 3) = Done (Z.of_nat i) /\ (i <= 3)%nat /\
  forall j f, demo_files !! j = Some f -> internal_compare bw (largest f) (demo_ikey [x65] 3) < 0 <-> (j < i)%nat.
Proof.
  apply (@find_file_correct bw (fun _ => True) bytewise_laws); [apply demo_ikey_valid|exact demo_files_ok| |done].
  apply (disjoint_limits (laws := bytewise_laws)); [exact demo_files_ok|exact demo_files_disjoint].
Defined.

Lemma overlap_correct_witness :
  @SomeFileOverlapsRange bw true demo_files (Some [x63; x61]) (Some [x64]) = Done false /\
  @SomeFileOverlapsRange bw true demo_files (Some [x63; x61]) None = Done true.
Proof.
  split.
  - rewrite (@overlap_correct bw (fun _ => True) bytewise_laws true demo_files (Some [x63; x61]) (Some [x64]));
      [reflexivity|exact demo_files_ok| |by intros k _..|done|intros _; exact demo_files_disjoint|].
    + repeat constructor; vm_compute; discriminate.
    + intros x y [= <-] [= <-]. vm_compute. discriminate.
  - rewrite (@overlap_correct bw (fun _ => True) bytewise_laws true demo_files (Some [x63; x61]) None);
      [reflexivity|exact demo_files_ok| |by intros k _..|done|intros _; exact demo_files_disjoint|done].
    repeat constructor; vm_compute; discriminate.
Defined.

(** At level 0 the range [i, i] grows to [c, j]. *)
Definition demo_level0 : list FileMetaData :=
  [demo_file 7 [x61] [x62]; demo_file 5 [x63] [x67]; demo_file 9 [x66] [x6a]].

Example demo_overlapping : @GetOverlappingInputs bw true demo_level0 (Some (demo_ikey [x69] 9)) (Some (demo_ikey [x69] 9)) =
  Done [demo_file 5 [x63] [x67]; demo_file 9 [x66] [x6a]].
Proof. reflexivity. Qed.

Lemma overlapping_inputs_correct_witness : exists b' e',
  @GetOverlappingInputs bw true demo_level0 (Some (demo_ikey [x69] 9)) (Some (demo_ikey [x69] 9)) =
    Done (List.filter (@overlaps bw b' e') demo_level0) /\ @closed bw demo_level0 b' e'.
Proof.
  destruct (@overlapping_inputs_correct bw (fun _ => True) bytewise_laws true demo_level0
    (Some (demo_ikey [x69] 9)) (Some (demo_ikey [x69] 9))) as (b' & e' & E & _ & Hc & _).
  - repeat constructor; try done; vm_compute; discriminate.
  - intros k [= <-]. apply demo_ikey_valid.
  - intros k [= <-]. apply demo_ikey_valid.
  - by exists b', e'.
Defined.
