(* ===== verification/LdbVersionRead.v ===== *)
(** leveldb: reading a version, the files of all levels (db/version_set.cc, class Version).

    Tables are read through the class [TableCache], with the contract [TableCacheLaws].
    [version_iterators_correct]: the iterators of a version (a table each at level 0, a
    two-level iterator over the files of each other level) are cursors that together
    have its entries.  [version_get_correct]: a lookup finds what the view of the
    snapshot shows.  [pick_level_correct]: where the table of a memtable goes. *)

From Stdlib Require Import Sorting.Sorted SpecFloat.
From stdpp Require Import sorting.
From S2P Require Import Prelude Leb128 LdbCoding LdbStatus LdbFilename LdbFormat LdbIterator LdbTwoLevel LdbMerger LdbTable.
From S2P Require Import LdbVersionEdit LdbDbIter LdbVersion.
Open Scope Z_scope.

(** * The table cache *)

(** Of a file number and size: an iterator; the entry a lookup passes to its callback. *)
Class TableCache (T I : Type) := {
  cache_NewIterator : T -> ReadOptions -> Z -> Z -> run (I * T);
  cache_Get : T -> ReadOptions -> Z -> Z -> list byte -> run (Status * option (list byte * list byte) * T);
}.

(** An error iterator or another. *)
#[export] Instance sum_iterator {A B} `{Iterator A} `{Iterator B} : Iterator (A + B) := {
  Valid it := match it with inl a => Valid a | inr b => Valid b end;
  SeekToFirst it := match it with inl a => a ← SeekToFirst a; Done (inl a) | inr b => b ← SeekToFirst b; Done (inr b) end;
  SeekToLast it := match it with inl a => a ← SeekToLast a; Done (inl a) | inr b => b ← SeekToLast b; Done (inr b) end;
  Seek it k := match it with inl a => a ← Seek a k; Done (inl a) | inr b => b ← Seek b k; Done (inr b) end;
  Next it := match it with inl a => a ← Next a; Done (inl a) | inr b => b ← Next b; Done (inr b) end;
  Prev it := match it with inl a => a ← Prev a; Done (inl a) | inr b => b ← Prev b; Done (inr b) end;
  key it := match it with inl a => key a | inr b => key b end;
  value it := match it with inl a => value a | inr b => value b end;
  status it := match it with inl a => status a | inr b => status b end;
}.

Lemma inl_embeds {A B} `{Iterator A} `{Iterator B} : embeds (J := A + B) inl.
Proof. by split. Qed.
Lemma inr_embeds {A B} `{Iterator A} `{Iterator B} : embeds (J := A + B) inr.
Proof. by split. Qed.

(** * Versions *)

Definition kMaxMemCompactLevel : Z := 2.

(** The list of versions and the reference counts are with the version set. *)
Record Version := mk_version {
  files_ : list (list FileMetaData);
  file_to_compact_ : option FileMetaData;
  file_to_compact_level_ : Z;
  compaction_score_ : spec_float;
  compaction_level_ : Z;
}.

Definition minus_one : spec_float := S754_finite true 4503599627370496 (-52).

Definition new_Version : Version := mk_version (replicate (Z.to_nat kNumLevels) []) None (-1) minus_one (-1).

Definition level_files (v : Version) (level : Z) : list FileMetaData := default [] (files_ v !! Z.to_nat level).

Record GetStats := mk_stats { seek_file : option FileMetaData; seek_file_level : Z }.

Inductive SaverState := kNotFound | kFound | kDeleted | kCorrupt.

(** [user_key] and the value the pointer leads to. *)
Record Saver := mk_saver { saver_state : SaverState; saver_user_key : list byte; saver_value : list byte }.

Definition set_state (s : Saver) (state : SaverState) : Saver := mk_saver state (saver_user_key s) (saver_value s).

Definition NewestFirst (a b : FileMetaData) : bool := number a >? number b.

(** [std::sort] with [NewestFirst], for files of different numbers. *)
Definition not_older (a b : FileMetaData) : Prop := number b <= number a.
#[export] Instance not_older_dec : RelDecision not_older.
Proof. intros a b. unfold not_older. apply _. Defined.
Definition sort_newest (files : list FileMetaData) : list FileMetaData := merge_sort not_older files.

Section Read.
Context {user_comparator : Comparator} {T I : Type} `{Iterator I} `{TableCache T I}.
Implicit Types (f : FileMetaData) (files : list FileMetaData) (v : Version).

Definition GetFileIterator (options : ReadOptions) (cache : T) (file_value : list byte) : run ((EmptyIterator + I) * T) :=
  if negb (size file_value =? 16)
  then Done (inl (NewErrorIterator (Corruption (cstr "FileReader invoked with unexpected value") [])), cache)
  else
    '(it, cache) ← cache_NewIterator cache options (DecodeFixed64 file_value) (DecodeFixed64 (drop 8 file_value));
    Done (inr it, cache).

Definition ConcatenatingIterator : Type := TwoLevelIterator LevelFileNumIterator (EmptyIterator + I) T.

Definition NewConcatenatingIterator v (cache : T) (level : Z) : run ConcatenatingIterator :=
  NewTwoLevelIterator (new_LevelFileNumIterator (level_files v level)) cache.

Definition concatenating_iterator (options : ReadOptions) (fuel : nat) : Iterator ConcatenatingIterator :=
  two_level_iterator (GetFileIterator options) fuel.

Fixpoint table_iterators (options : ReadOptions) files (cache : T) : run (list (I + ConcatenatingIterator) * T) :=
  match files with
  | [] => Done ([], cache)
  | f :: files =>
      '(it, cache) ← cache_NewIterator cache options (number f) (file_size f);
      '(its, cache) ← table_iterators options files cache;
      Done (inl it :: its, cache)
  end.

(** The loop over the levels from [level] on. *)
Fixpoint level_iterators (n : nat) v (level : Z) (cache : T) : run (list (I + ConcatenatingIterator)) :=
  match n with
  | O => Done []
  | S n =>
      match level_files v level with
      | [] => level_iterators n v (level + 1) cache
      | _ =>
          it ← NewConcatenatingIterator v cache level;
          its ← level_iterators n v (level + 1) cache;
          Done (inr it :: its)
      end
  end.

Definition AddIterators (options : ReadOptions) v (cache : T) (iters : list (I + ConcatenatingIterator))
    : run (list (I + ConcatenatingIterator) * T) :=
  '(its0, cache) ← table_iterators options (level_files v 0) cache;
  its ← level_iterators (Z.to_nat (kNumLevels - 1)) v 1 cache;
  Done (iters ++ its0 ++ its, cache).

(** ** Lookups *)

Definition SaveValue (s : Saver) (ikey value : list byte) : Saver :=
  match ParseInternalKey ikey with
  | None => set_state s kCorrupt
  | Some parsed_key =>
      if Compare (user_key parsed_key) (saver_user_key s) =? 0 then
        if vtype parsed_key =? kTypeValue then mk_saver kFound (saver_user_key s) value else set_state s kDeleted
      else s
  end.

(** The files of a level to search for a key, in order. *)
Definition search_files level files (user_key internal_key : list byte) : run (list FileMetaData) :=
  if level =? 0 then
    Done (sort_newest (List.filter (fun f => (Compare user_key (ExtractUserKey (smallest f)) >=? 0) &&
                                             (Compare user_key (ExtractUserKey (largest f)) <=? 0)) files))
  else
    index ← FindFile files internal_key;
    if index >=? num_files files then Done []
    else
      f ← file_at files index;
      if Compare user_key (ExtractUserKey (smallest f)) <? 0 then Done [] else Done [f].

(** [func] on the files of a level, until it says false. *)
Fixpoint each_file {S : Type} (func : S -> Z -> FileMetaData -> bool * S) level files (arg : S) : bool * S :=
  match files with
  | [] => (true, arg)
  | f :: files => let '(go, arg) := func arg level f in if go then each_file func level files arg else (false, arg)
  end.

Fixpoint each_level {S : Type} (func : S -> Z -> FileMetaData -> bool * S) (n : nat) v level
    (user_key internal_key : list byte) (arg : S) : run S :=
  match n with
  | O => Done arg
  | S n =>
      files ← search_files level (level_files v level) user_key internal_key;
      let '(go, arg) := each_file func level files arg in
      if (go : bool) then each_level func n v (level + 1) user_key internal_key arg else Done arg
  end.

Definition ForEachOverlapping {S : Type} (func : S -> Z -> FileMetaData -> bool * S) v
    (user_key internal_key : list byte) (arg : S) : run S :=
  each_level func (Z.to_nat kNumLevels) v 0 user_key internal_key arg.

(** The variables of [Get]. *)
Record get_state := mk_get {
  gs_value : list byte;
  gs_stats : GetStats;
  last_file_read : option FileMetaData;
  last_file_read_level : Z;
  gs_cache : T;
}.

(** One turn of the inner loop: the status that it returns, if it does. *)
Definition get_file (options : ReadOptions) (user_key ikey : list byte) level f (st : get_state)
    : run (option Status * get_state) :=
  let stats :=
    match last_file_read st, seek_file (gs_stats st) with
    | Some g, None => mk_stats (Some g) (last_file_read_level st)
    | _, _ => gs_stats st
    end in
  '(s, result, cache) ← cache_Get (gs_cache st) options (number f) (file_size f) ikey;
  let saver := mk_saver kNotFound user_key (gs_value st) in
  let saver := match result with Some (k, v) => SaveValue saver k v | None => saver end in
  let st := mk_get (saver_value saver) stats (Some f) level cache in
  Done (if negb (ok s) then Some s
        else match saver_state saver with
             | kNotFound => None
             | kFound => Some s
             | kDeleted => Some (NotFound [] [])
             | kCorrupt => Some (Corruption (cstr "corrupted key for ") user_key)
             end, st).

Fixpoint get_files (options : ReadOptions) (user_key ikey : list byte) level files (st : get_state)
    : run (option Status * get_state) :=
  match files with
  | [] => Done (None, st)
  | f :: files =>
      '(r, st) ← get_file options user_key ikey level f st;
      match r with
      | Some s => Done (Some s, st)
      | None => get_files options user_key ikey level files st
      end
  end.

Fixpoint get_levels (options : ReadOptions) (n : nat) v level (user_key ikey : list byte) (st : get_state)
    : run (Status * get_state) :=
  match n with
  | O => Done (NotFound [] [], st)
  | S n =>
      files ← search_files level (level_files v level) user_key ikey;
      '(r, st) ← get_files options user_key ikey level files st;
      match r with
      | Some s => Done (s, st)
      | None => get_levels options n v (level + 1) user_key ikey st
      end
  end.

(** The status, the value, the statistics. *)
Definition Get (options : ReadOptions) v (k : LookupKey) (value : list byte) (cache : T)
    : run (Status * list byte * GetStats * T) :=
  '(s, st) ← get_levels options (Z.to_nat kNumLevels) v 0 (lookup_user_key k) (internal_key k)
    (mk_get value (mk_stats None (-1)) None (-1) cache);
  Done (s, gs_value st, gs_stats st, gs_cache st).

(** ** Statistics *)

Definition set_seeks f n : FileMetaData := mk_meta (refs f) n (number f) (file_size f) (smallest f) (largest f).

(** The statistics point to an object of the version, here the file of its number. *)
Definition current_file v f : FileMetaData :=
  default f (List.find (fun g => number g =? number f) (concat (files_ v))).

Definition charge_seek (n : Z) f : FileMetaData :=
  if number f =? n then set_seeks f (s32 (allowed_seeks f - 1)) else f.

Definition UpdateStats v (stats : GetStats) : bool * Version :=
  match seek_file stats with
  | None => (false, v)
  | Some f =>
      let f := charge_seek (number f) (current_file v f) in
      let v := mk_version (map (map (charge_seek (number f))) (files_ v))
                 (charge_seek (number f) <$> file_to_compact_ v) (file_to_compact_level_ v)
                 (compaction_score_ v) (compaction_level_ v) in
      if (allowed_seeks f <=? 0) && (match file_to_compact_ v with None => true | Some _ => false end)
      then (true, mk_version (files_ v) (Some f) (seek_file_level stats) (compaction_score_ v) (compaction_level_ v))
      else (false, v)
  end.

(** The local [State] of [RecordReadSample], and its [Match]. *)
Record State := mk_sample { sample_stats : GetStats; matches : Z }.

Definition Match (state : State) level f : bool * State :=
  let m := s32 (matches state + 1) in
  (m <? 2, mk_sample (if m =? 1 then mk_stats (Some f) level else sample_stats state) m).

(** The statistics are not initialised. *)
Definition RecordReadSample v (stats : GetStats) (internal_key : list byte) : run (bool * Version) :=
  match ParseInternalKey internal_key with
  | None => Done (false, v)
  | Some ikey =>
      state ← ForEachOverlapping Match v (user_key ikey) internal_key (mk_sample stats 0);
      Done (if matches state >=? 2 then UpdateStats v (sample_stats state) else (false, v))
  end.

(** ** Where a memtable goes *)

Definition OverlapInLevel v level (smallest_user_key largest_user_key : option (list byte)) : run bool :=
  SomeFileOverlapsRange (level >? 0) (level_files v level) smallest_user_key largest_user_key.

(** The loop, from [level] on. *)
Fixpoint pick_level_loop (n : nat) (max_file_size : Z) v level (smallest_user_key largest_user_key : list byte) : run Z :=
  match n with
  | O => Done level
  | S n =>
      let start := AppendInternalKey [] (mk_key smallest_user_key kMaxSequenceNumber kValueTypeForSeek) in
      let limit := AppendInternalKey [] (mk_key largest_user_key 0 0) in
      next ← OverlapInLevel v (level + 1) (Some smallest_user_key) (Some largest_user_key);
      if (next : bool) then Done level
      else
        stop ←
          (if level + 2 <? kNumLevels then
             overlaps ← GetOverlappingInputs (level + 2 =? 0) (level_files v (level + 2)) (Some start) (Some limit);
             Done (TotalFileSize overlaps >? MaxGrandParentOverlapBytes max_file_size)
           else Done false);
        if (stop : bool) then Done level
        else pick_level_loop n max_file_size v (level + 1) smallest_user_key largest_user_key
  end.

Definition PickLevelForMemTableOutput (max_file_size : Z) v (smallest_user_key largest_user_key : list byte) : run Z :=
  overlap0 ← OverlapInLevel v 0 (Some smallest_user_key) (Some largest_user_key);
  if (overlap0 : bool) then Done 0
  else pick_level_loop (Z.to_nat kMaxMemCompactLevel) max_file_size v 0 smallest_user_key largest_user_key.
End Read.
Arguments get_state T : clear implicits.
Arguments ConcatenatingIterator T I : clear implicits.

Definition file_DebugString (f : FileMetaData) : list byte :=
  AppendNumberTo (AppendNumberTo (cstr " ") (number f) ++ cstr ":") (file_size f) ++
  cstr "[" ++ InternalKey_DebugString (smallest f) ++ cstr " .. " ++ InternalKey_DebugString (largest f) ++ cstr "]
".

Definition Version_DebugString (v : Version) : list byte :=
  concat (imap (fun level files =>
    AppendNumberTo (cstr "--- level ") (Z.of_nat level) ++ cstr " ---
" ++ concat (map file_DebugString files)) (files_ v)).

(** * The contract of the table cache *)

Section Contract.
Context {u : Comparator} {uvalid : list byte -> Prop}.

#[local] Abbreviation icomparator := (InternalKeyComparator u).
#[local] Abbreviation same_user a b := (Compare (ExtractUserKey a) (ExtractUserKey b) = 0).

(** [contents n sz]: the entries of the table of number [n] and size [sz].  A lookup
    passes the first entry that is not below the key, if it has the user key looked for;
    otherwise that or nothing. *)
Class TableCacheLaws (T I : Type) `{Iterator I} `{TableCache T I}
    (contents : Z -> Z -> option (list (list byte * list byte))) (inv : T -> Prop) : Prop := {
  tc_iterator t o n sz kvs : inv t -> contents n sz = Some kvs ->
    exists it t', cache_NewIterator t o n sz = Done (it, t') /\ inv t' /\
      @any_pos icomparator (ivalid (valid := uvalid)) I _ kvs (length kvs) it;
  tc_get t o n sz kvs k : inv t -> contents n sz = Some kvs -> ivalid (valid := uvalid) k ->
    exists r t', cache_Get t o n sz k = Done (OK, r, t') /\ inv t' /\
      (forall i e, @lower_bound icomparator k kvs i -> kvs !! i = Some e -> same_user (fst e) k -> r = Some e) /\
      (forall e, r = Some e -> exists i, @lower_bound icomparator k kvs i /\ kvs !! i = Some e);
}.
End Contract.
Arguments TableCacheLaws {u} uvalid T I {_ _} contents inv.

(** * Well formed versions *)

Section Correct.
Context {u : Comparator} {uvalid : list byte -> Prop} {laws : ComparatorLaws uvalid u}.
Context {T I : Type} `{Iterator I} {cache : TableCache T I}.
Context (contents : Z -> Z -> option (list (list byte * list byte))) (inv : T -> Prop).
Context {tc_laws : TableCacheLaws (u := u) uvalid T I contents inv}.
Implicit Types (f g : FileMetaData) (files : list FileMetaData) (v : Version) (e : list byte * list byte).

#[local] Abbreviation icomparator := (InternalKeyComparator u).
#[local] Abbreviation icmp := (internal_compare u).
#[local] Abbreviation ivalid := (ivalid (valid := uvalid)).
#[local] Abbreviation same_user a b := (Compare (ExtractUserKey a) (ExtractUserKey b) = 0).
#[local] Abbreviation ientry_lt := (fun a b => icmp (fst a) (fst b) < 0).

(** The entries of a file. *)
Definition ents f : list (list byte * list byte) := default [] (contents (number f) (file_size f)).

(** The table is there, its entries are well formed, in order, in the range of the
    file, and the last one ends it. *)
Record file_good f : Prop := {
  fg_table : contents (number f) (file_size f) = Some (ents f);
  fg_number : 0 <= number f < 2 ^ 64;
  fg_size : 0 <= file_size f < 2 ^ 64;
  fg_range : file_ok (uvalid := uvalid) f;
  fg_entries : Forall (entry_ok (uvalid := uvalid)) (ents f);
  fg_sorted : StronglySorted ientry_lt (ents f);
  fg_bounds e : e ∈ ents f -> icmp (smallest f) (fst e) <= 0 /\ icmp (fst e) (largest f) <= 0;
  fg_last : exists val, (largest f, val) ∈ ents f;
}.

(** The entries of [f] hide those of [g]. *)
Definition newer f g : Prop := forall e e', e ∈ ents f -> e' ∈ ents g -> same_user (fst e) (fst e') -> icmp (fst e) (fst e') < 0.

Record version_good v : Prop := {
  vg_levels : length (files_ v) = Z.to_nat kNumLevels;
  vg_files level f : f ∈ level_files v level -> file_good f;
  vg_count level : num_files (level_files v level) < 2 ^ 31;
  vg_disjoint level : 0 < level -> disjoint (u := u) (level_files v level);
  vg_numbers : NoDup (map number (level_files v 0));
  vg_level0 f g : f ∈ level_files v 0 -> g ∈ level_files v 0 -> number g < number f -> newer f g;
  vg_newer i j f g : 0 <= i < j -> f ∈ level_files v i -> g ∈ level_files v j -> newer f g;
}.

(** All entries of a version. *)
Definition entries_of files : list (list byte * list byte) := concat (map ents files).
Definition version_entries v : list (list byte * list byte) := concat (map entries_of (files_ v)).

Lemma elem_of_entries_of e files : e ∈ entries_of files <-> exists f, f ∈ files /\ e ∈ ents f.
Proof.
  unfold entries_of. rewrite list_elem_of_In, in_concat. split.
  - intros (l & (f & <- & Hf)%in_map_iff & He). exists f. rewrite !list_elem_of_In. done.
  - intros (f & Hf & He). exists (ents f). split; [by apply in_map, list_elem_of_In|by apply list_elem_of_In].
Qed.

Lemma entry_ivalid e : entry_ok (uvalid := uvalid) e -> ivalid (fst e).
Proof.
  intros ((ik & Ek) & Hv & _). split; [|done]. unfold ParseInternalKey in Ek. destruct (Z.ltb_spec (size (fst e)) 8); [done|assumption].
Qed.

Lemma ents_ivalid f e : file_good f -> e ∈ ents f -> ivalid (fst e).
Proof. intros Hf He. apply entry_ivalid. pose proof (fg_entries f Hf) as Hall. rewrite list.Forall_forall in Hall. auto. Qed.

(** ** The newest visible entry *)

Section Lookup.
Context (k : list byte) (Hk : ivalid k).

(** Of the user key of [k], and not newer. *)
Definition shows e : Prop := same_user (fst e) k /\ 0 <= icmp (fst e) k.

Definition is_newest (P : list byte * list byte -> Prop) (r : option (list byte * list byte)) : Prop :=
  match r with
  | None => forall e, P e -> ~ shows e
  | Some e => P e /\ shows e /\ forall e', P e' -> shows e' -> icmp (fst e) (fst e') <= 0
  end.

Lemma shows_same e e' : ivalid (fst e) -> ivalid (fst e') -> shows e -> shows e' -> same_user (fst e) (fst e').
Proof.
  intros [_ He] [_ He'] [H1 _] [H2 _]. destruct Hk as [_ Hk']. apply Z.le_antisymm.
  - apply (cmp_trans _ (ExtractUserKey k)); auto; [lia|]. apply cmp_le_ge; auto. lia.
  - apply cmp_le_ge; auto. apply (cmp_trans _ (ExtractUserKey k)); auto; [lia|]. apply cmp_le_ge; auto. lia.
Qed.

(** The first entry not below [k] is the newest that shows, if any shows. *)
Lemma lower_bound_shows f i : file_good f -> @lower_bound icomparator k (ents f) i ->
  is_newest (fun e => e ∈ ents f)
    (match ents f !! i with Some e => if Compare (ExtractUserKey (fst e)) (ExtractUserKey k) =? 0 then Some e else None | None => None end).
Proof.
  intros Hf [Hi Hl].
  assert (forall e, e ∈ ents f -> shows e -> exists e0, ents f !! i = Some e0 /\ shows e0 /\ icmp (fst e0) (fst e) <= 0) as Hfind.
  { intros e He [Hu Hge]. pose proof He as [j Hj]%list_elem_of_lookup.
    assert (i <= j)%nat as Hij by (pose proof (Hl j e Hj) as Hlj; cbn in Hlj; lia).
    destruct (lookup_lt_is_Some_2 (ents f) i) as [e0 E0]; [apply lookup_lt_Some in Hj; lia|].
    pose proof (Hl i e0 E0) as Hl0. cbn in Hl0. assert (0 <= icmp (fst e0) k) as Hge0 by lia.
    pose proof (ents_ivalid f e0 Hf (list_elem_of_lookup_2 _ _ _ E0)) as Hv0. pose proof (ents_ivalid f e Hf He) as Hv.
    assert (icmp (fst e0) (fst e) <= 0) as Hle.
    { destruct (decide (i = j)) as [<- |Hne].
      - assert (e0 = e) as -> by congruence. pose proof (cmp_refl (c := icomparator) _ Hv) as Hr. cbn in Hr. lia.
      - apply Z.lt_le_incl. pose proof (StronglySorted_at _ _ i j e0 e (fg_sorted f Hf) E0 Hj ltac:(lia)) as Hlt. done. }
    exists e0. split; [done|]. split; [|done]. split; [|done].
    apply (cmp_le_ge (c := icomparator) k (fst e0)) in Hge0; [|done..]. apply icmp_le in Hge0, Hle.
    destruct Hk as [_ Hk'], Hv0 as [_ Hv0], Hv as [_ Hv].
    assert (Compare (ExtractUserKey k) (ExtractUserKey (fst e0)) <= 0) as G1 by lia.
    assert (Compare (ExtractUserKey (fst e0)) (ExtractUserKey k) <= 0) as G2 by (apply (cmp_trans _ (ExtractUserKey (fst e))); auto; lia).
    apply cmp_le_ge in G1; auto. lia. }
  destruct (ents f !! i) as [e0|] eqn:E0.
  2: { intros e He Hs. by destruct (Hfind e He Hs) as (? & ? & _). }
  destruct (Z.eqb_spec (Compare (ExtractUserKey (fst e0)) (ExtractUserKey k)) 0) as [Hu|Hu].
  - split; [by apply list_elem_of_lookup_2 in E0|]. split.
    + split; [done|]. pose proof (Hl i e0 E0) as Hl0. cbn in Hl0. lia.
    + intros e He Hs. destruct (Hfind e He Hs) as (e1 & [= <-] & _ & Hle). done.
  - intros e He Hs. destruct (Hfind e He Hs) as (e1 & [= <-] & [Hu' _] & _). done.
Qed.

Lemma is_newest_ext (P Q : list byte * list byte -> Prop) r : (forall e, P e <-> Q e) -> is_newest P r -> is_newest Q r.
Proof.
  intros HPQ. destruct r as [e|]; cbn.
  - intros (HP & Hs & Hall). split; [by apply HPQ|]. split; [done|]. intros e' He'. by apply Hall, HPQ.
  - intros Hall e He. by apply Hall, HPQ.
Qed.

(** The entries of [P] hide those of [Q]. *)
Lemma is_newest_or (P Q : list byte * list byte -> Prop) r :
  (forall e e', P e -> Q e' -> shows e -> shows e' -> icmp (fst e) (fst e') <= 0) ->
  is_newest P r -> (r = None -> forall r', is_newest Q r' -> is_newest (fun e => P e \/ Q e) r') /\
    (r <> None -> is_newest (fun e => P e \/ Q e) r).
Proof.
  intros Hhide HP. split.
  - intros ->. intros [e|]; cbn in *.
    + intros (HQ & Hs & Hall). split; [by right|]. split; [done|]. intros e' [He'|He'] Hs'; [by destruct (HP e' He')|by apply Hall].
    + intros Hall e [He|He]; auto.
  - destruct r as [e|]; [|done]. intros _. destruct HP as (HP & Hs & Hall). split; [by left|]. split; [done|].
    intros e' [He'|He'] Hs'; [by apply Hall|by apply Hhide].
Qed.

(** ** The search *)

(** What a found entry answers. *)
Definition answer (r : option (list byte * list byte)) : option Status :=
  (fun e => match ParseInternalKey (fst e) with
            | Some ik => if vtype ik =? kTypeValue then OK else NotFound [] []
            | None => Corruption (cstr "corrupted key for ") (ExtractUserKey k)
            end) <$> r.
Definition answer_value (r : option (list byte * list byte)) (value : list byte) : list byte :=
  match r with
  | Some e => match ParseInternalKey (fst e) with
              | Some ik => if vtype ik =? kTypeValue then snd e else value
              | None => value
              end
  | None => value
  end.

Lemma parse_user k' ik : ParseInternalKey k' = Some ik -> user_key ik = ExtractUserKey k'.
Proof. unfold ParseInternalKey. destruct (_ <? 8); [done|]. destruct (_ <=? _); [|done]. by intros [= <-]. Qed.

Lemma get_file_ok o level f st : file_good f -> inv (gs_cache st) ->
  exists r st', get_file o (ExtractUserKey k) k level f st = Done (answer r, st') /\ inv (gs_cache st') /\
    is_newest (fun e => e ∈ ents f) r /\ gs_value st' = answer_value r (gs_value st).
Proof.
  intros Hf Hinv.
  assert (exists i, @lower_bound icomparator k (ents f) i) as [i Hi].
  { exists (@count_below icomparator k (ents f)).
    apply (count_below_bound (c := icomparator) (valid := ivalid)); [done| |apply (fg_sorted f Hf)].
    apply list.Forall_forall. intros e. by apply ents_ivalid. }
  pose proof (lower_bound_shows f i Hf Hi) as Hnew.
  destruct (tc_get (gs_cache st) o (number f) (file_size f) (ents f) k Hinv (fg_table f Hf) Hk) as (r & t' & E & Hinv' & Hr1 & Hr2).
  unfold get_file. rewrite E, run_bind_done. cbn [ok OK negb].
  destruct (ents f !! i) as [e|] eqn:Ei.
  2: { assert (r = None) as ->.
    { destruct r as [e|]; [|done]. destruct (Hr2 e eq_refl) as (i' & Hi' & Ee).
      assert (i = i') as <- by (by apply (lower_bound_unique (c := icomparator) k (ents f))). congruence. }
    by eexists None, _. }
  pose proof (list_elem_of_lookup_2 _ _ _ Ei) as He. pose proof (fg_entries f Hf) as Hok. rewrite list.Forall_forall in Hok.
  destruct (Hok e He) as ((ik & Ek) & _). pose proof (parse_user _ _ Ek) as Eu.
  destruct (Z.eqb_spec (Compare (ExtractUserKey (fst e)) (ExtractUserKey k)) 0) as [Hu|Hu].
  - rewrite (Hr1 i e Hi Ei Hu). destruct e as [k' v']. cbn [fst] in *. exists (Some (k', v')). unfold SaveValue. rewrite Ek.
    cbn [saver_user_key]. rewrite Eu, Hu. cbn [Z.eqb answer answer_value fmap option_fmap option_map fst snd]. rewrite Ek.
    destruct (vtype ik =? kTypeValue); eexists; (split; [reflexivity|]); by split.
  - destruct r as [e'|]; [|by eexists None, _]. destruct (Hr2 e' eq_refl) as (i' & Hi' & Ee).
    assert (i = i') as <- by (by apply (lower_bound_unique (c := icomparator) k (ents f))). assert (e' = e) as -> by congruence.
    destruct e as [k' v']. cbn [fst] in *. unfold SaveValue. rewrite Ek. cbn [saver_user_key]. rewrite Eu.
    rewrite (proj2 (Z.eqb_neq _ _) Hu). by eexists None, _.
Qed.

(** Files tried in order, each hiding those after it. *)
Lemma hides f g e e' : file_good f -> file_good g -> newer f g ->
  e ∈ ents f -> e' ∈ ents g -> shows e -> shows e' -> icmp (fst e) (fst e') <= 0.
Proof.
  intros Hf Hg Hn He He' Hs Hs'. apply Z.lt_le_incl, Hn; [done|done|].
  apply shows_same; [by apply (ents_ivalid f)|by apply (ents_ivalid g)|done|done].
Qed.

Lemma get_files_ok o level files : Forall file_good files -> StronglySorted newer files -> forall st, inv (gs_cache st) ->
  exists r st', get_files o (ExtractUserKey k) k level files st = Done (answer r, st') /\ inv (gs_cache st') /\
    is_newest (fun e => e ∈ entries_of files) r /\ gs_value st' = answer_value r (gs_value st).
Proof.
  intros Hok Hs. induction Hs as [|f files Hs IH Hall]; intros st Hinv.
  - eexists None, st. split; [reflexivity|]. split; [done|]. split; [|done]. by intros e He%not_elem_of_nil.
  - apply List.Forall_cons_iff in Hok as [Hf Hok]. cbn [get_files].
    destruct (get_file_ok o level f st Hf Hinv) as (r & st1 & -> & Hinv1 & Hnew & Hv). rewrite run_bind_done.
    destruct (is_newest_or (fun e => e ∈ ents f) (fun e => e ∈ entries_of files) r) as [Hnone Hsome]; [|done|].
    { intros e e' He (g & Hg & He')%elem_of_entries_of. rewrite list.Forall_forall in Hall, Hok. apply (hides f g); auto. }
    assert (forall r, is_newest (fun e => e ∈ ents f \/ e ∈ entries_of files) r -> is_newest (fun e => e ∈ entries_of (f :: files)) r) as Hcons.
    { intros r'. apply is_newest_ext. intros e. unfold entries_of. cbn [map concat]. by rewrite elem_of_app. }
    destruct r as [e|].
    + exists (Some e), st1. cbn [answer fmap option_fmap option_map]. split; [reflexivity|]. split; [done|]. split; [by apply Hcons, Hsome|done].
    + cbn [answer fmap option_fmap option_map]. destruct (IH Hok st1 Hinv1) as (r & st2 & -> & Hinv2 & Hnew2 & Hv2).
      exists r, st2. split; [done|]. split; [done|]. split; [by apply Hcons, Hnone|]. by rewrite Hv2, Hv.
Qed.

(** ** The files searched at a level *)

Lemma NoDup_newest files : StronglySorted not_older files -> NoDup (map number files) ->
  StronglySorted (fun f g => number g < number f) files.
Proof.
  intros Hs. induction Hs as [|f files Hs IH Hall]; intros Hnd; [constructor|].
  apply list.NoDup_cons in Hnd as [Hnot Hnd]. constructor; [by apply IH|]. apply list.Forall_forall. intros g Hg.
  rewrite list.Forall_forall in Hall. pose proof (Hall g Hg) as Hle. unfold not_older in Hle.
  assert (number f <> number g) as Hne; [|lia]. intros E. apply Hnot. rewrite E. by apply list_elem_of_fmap_2.
Qed.

Lemma StronglySorted_weaken {A} (R R' : A -> A -> Prop) (l : list A) :
  (forall x y, x ∈ l -> y ∈ l -> R x y -> R' x y) -> StronglySorted R l -> StronglySorted R' l.
Proof.
  intros HR Hs. induction Hs as [|x l Hs IH Hall]; [constructor|]. constructor.
  - apply IH. intros y z Hy Hz. apply HR; by right.
  - apply list.Forall_forall. intros y Hy. rewrite list.Forall_forall in Hall. apply HR; [left|by right|by apply Hall].
Qed.

Definition in_range f : bool :=
  (Compare (ExtractUserKey k) (ExtractUserKey (smallest f)) >=? 0) && (Compare (ExtractUserKey k) (ExtractUserKey (largest f)) <=? 0).

(** What shows is in the range of its file. *)
Lemma shows_in_range f e : file_good f -> e ∈ ents f -> shows e -> in_range f = true.
Proof.
  intros Hf He [Hu _]. destruct (ents_ivalid f e Hf He) as [_ Hve], Hk as [_ Hvk], (file_range f (fg_range f Hf)) as (Hvs & Hvl & _).
  destruct (fg_bounds f Hf e He) as [Hs Hl]. apply icmp_le in Hs, Hl.
  assert (Compare (ExtractUserKey k) (ExtractUserKey (fst e)) <= 0) as G1 by (apply cmp_le_ge; auto; lia).
  apply andb_true_intro. split.
  - rewrite Z.geb_leb. apply Z.leb_le, cmp_le_ge; auto. apply (cmp_trans _ (ExtractUserKey (fst e))); auto; lia.
  - apply Z.leb_le. apply (cmp_trans _ (ExtractUserKey (fst e))); auto; lia.
Qed.

Lemma sort_newest_perm files : sort_newest files ≡ₚ files.
Proof. apply merge_sort_Permutation. Qed.

Lemma sort_newest_sorted files : StronglySorted not_older (sort_newest files).
Proof.
  apply StronglySorted_merge_sort.
  - intros a b d. unfold not_older. lia.
  - intros a b. unfold not_older. lia.
Qed.

(** The searched files, and that what the others have does not matter. *)
Definition searched files (fs : list FileMetaData) : Prop :=
  Forall file_good fs /\ StronglySorted newer fs /\
  forall r, is_newest (fun e => e ∈ entries_of fs) r -> is_newest (fun e => e ∈ entries_of files) r.

Lemma search_level0 files : Forall file_good files -> NoDup (map number files) ->
  (forall f g, f ∈ files -> g ∈ files -> number g < number f -> newer f g) ->
  searched files (sort_newest (List.filter in_range files)).
Proof.
  intros Hok Hnd Hnew.
  assert (forall f, f ∈ sort_newest (List.filter in_range files) <-> f ∈ files /\ in_range f = true) as Hin.
  { intros f. rewrite sort_newest_perm, !list_elem_of_In. apply filter_In. }
  assert (NoDup (map number (sort_newest (List.filter in_range files)))) as Hnd'.
  { rewrite (sort_newest_perm (List.filter in_range files)). clear -Hnd. induction files as [|f files IH]; [done|].
    cbn [map] in Hnd. apply list.NoDup_cons in Hnd as [Hnot Hnd]. cbn [List.filter]. destruct (in_range f); [|by apply IH].
    cbn [map]. apply list.NoDup_cons. split; [|by apply IH]. intros (g & E & Hg)%list_elem_of_fmap. apply Hnot.
    apply list_elem_of_fmap. exists g. split; [done|]. apply list_elem_of_In. by apply list_elem_of_In, filter_In in Hg as []. }
  split; [|split].
  - apply list.Forall_forall. intros f [Hf _]%Hin. rewrite list.Forall_forall in Hok. auto.
  - eapply StronglySorted_weaken, NoDup_newest; [|apply sort_newest_sorted|done].
    intros f g [Hf _]%Hin [Hg _]%Hin Hlt. by apply Hnew.
  - assert (forall e, e ∈ entries_of files -> shows e -> e ∈ entries_of (sort_newest (List.filter in_range files))) as Hall.
    { intros e (f & Hf & He)%elem_of_entries_of Hs. apply elem_of_entries_of. exists f. split; [|done]. apply Hin. split; [done|].
      rewrite list.Forall_forall in Hok. apply (shows_in_range f e); [by apply Hok|done|done]. }
    intros [e|]; cbn.
    + intros (He & Hs & Hle). split.
      * apply elem_of_entries_of in He as (f & [Hf _]%Hin & He). apply elem_of_entries_of. by exists f.
      * split; [done|]. auto.
    + intros Hn e He Hs. apply (Hn e); auto.
Qed.

(** A level whose files are disjoint, searched at [i]. *)
Section Level.
Context files (Hok : Forall file_good files) (Hd : disjoint (u := u) files).
Context (i : nat) (Hl : @lower_bound icomparator k (map file_entry files) i).

Lemma good_at j f : files !! j = Some f -> file_good f.
Proof. intros Hj. pose proof Hok as Hall. rewrite list.Forall_forall in Hall. apply Hall. by apply list_elem_of_lookup_2 in Hj. Qed.

Lemma limit_below j f : files !! j = Some f -> icmp (largest f) k < 0 <-> (j < i)%nat.
Proof. intros Hj. apply (proj2 Hl j (file_entry f)). by rewrite list_lookup_fmap, Hj. Qed.

Lemma before_hidden j f e : files !! j = Some f -> e ∈ ents f -> (j < i)%nat -> ~ shows e.
Proof.
  intros Hj He Hc%(limit_below j f Hj) [_ Hge]. pose proof (good_at j f Hj) as Hf.
  destruct (fg_bounds f Hf e He) as [_ Hle]. destruct (fg_range f Hf) as (_ & Hvl & _).
  pose proof (cmp_trans_lt_r (c := icomparator) (fst e) (largest f) k (ents_ivalid f e Hf He) Hvl Hk Hle Hc) as Hlt. cbn in Hlt. lia.
Qed.

Lemma level_above f j g e : files !! i = Some f -> files !! j = Some g -> e ∈ ents g -> (i < j)%nat -> icmp (largest f) (fst e) < 0.
Proof.
  intros Ef Hj He Hij. pose proof (StronglySorted_at _ _ i j f g Hd Ef Hj Hij) as Hc. cbn in Hc.
  pose proof (good_at j g Hj) as Hg. destruct (fg_bounds g Hg e He) as [Hle _].
  destruct (fg_range g Hg) as (Hvg & _), (fg_range f (good_at i f Ef)) as (_ & Hvl & _).
  apply (cmp_trans_lt (c := icomparator) _ (smallest g)); auto. by apply (ents_ivalid g).
Qed.

(** No file is searched. *)
Lemma searched_none : (forall f, files !! i = Some f -> Compare (ExtractUserKey k) (ExtractUserKey (smallest f)) < 0) -> searched files [].
Proof.
  intros Hnone. split; [constructor|]. split; [constructor|]. intros [e|]; [by intros [He%not_elem_of_nil _]|].
  intros _ e (g & Hg & He)%elem_of_entries_of Hs. apply list_elem_of_lookup in Hg as [j Hj].
  destruct (Nat.lt_ge_cases j i) as [Hji|Hij]; [by apply (before_hidden j g e Hj He)|].
  destruct (lookup_lt_is_Some_2 files i) as [f Ef]; [apply lookup_lt_Some in Hj; lia|]. specialize (Hnone f Ef).
  pose proof (good_at j g Hj) as Hg. pose proof (ents_ivalid g e Hg He) as Hve.
  destruct (fg_range f (good_at i f Ef)) as (Hvs & Hvl & Hsl).
  assert (icmp (smallest f) (fst e) <= 0) as Hle.
  { destruct (decide (i = j)) as [<- |Hne]; [assert (g = f) as -> by congruence; by apply (fg_bounds f)|].
    apply (cmp_trans (c := icomparator) _ (largest f)); auto. apply Z.lt_le_incl, (level_above f j g e); [done|done|done|lia]. }
  apply icmp_le in Hle. destruct Hs as [Hu _], Hve as [_ Hve], Hk as [_ Hvk], Hvs as [_ Hvs].
  apply cmp_lt_gt in Hnone; auto.
  assert (Compare (ExtractUserKey (smallest f)) (ExtractUserKey k) <= 0); [|lia].
  apply (cmp_trans _ (ExtractUserKey (fst e))); auto; lia.
Qed.

(** What shows in the level is in [f], or its last entry shows. *)
Lemma shows_here f val e : files !! i = Some f -> e ∈ entries_of files -> shows e ->
  e ∈ ents f \/ icmp (largest f) (fst e) < 0 /\ shows (largest f, val).
Proof.
  intros Ef (g & Hg & He)%elem_of_entries_of Hs. apply list_elem_of_lookup in Hg as [j Hj].
  destruct (Nat.lt_trichotomy j i) as [Hji|[-> |Hij]];
    [by destruct (before_hidden j g e Hj He)|left; by assert (g = f) as -> by congruence|].
  right. pose proof (level_above f j g e Ef Hj He Hij) as Hlt. split; [done|].
  assert (0 <= icmp (largest f) k) as Hlk by (pose proof (limit_below i f Ef); lia). split; [|done]. cbn [fst].
  destruct (fg_range f (good_at i f Ef)) as (_ & Hvl & _).
  pose proof (ents_ivalid g e (good_at j g Hj) He) as [_ Hve]. apply (cmp_le_ge (c := icomparator) k (largest f)) in Hlk; [|done..].
  destruct Hs as [Hu _], Hk as [_ Hvk], Hvl as [_ Hvl]. apply icmp_le in Hlk. apply icmp_lt in Hlt.
  assert (Compare (ExtractUserKey (largest f)) (ExtractUserKey k) <= 0) as G1 by (apply (cmp_trans _ (ExtractUserKey (fst e))); auto; lia).
  assert (Compare (ExtractUserKey k) (ExtractUserKey (largest f)) <= 0) as G2 by lia. apply cmp_le_ge in G2; auto. lia.
Qed.

Lemma searched_one f : files !! i = Some f -> searched files [f].
Proof.
  intros Ef. pose proof (good_at i f Ef) as Hf. split; [by constructor|]. split; [repeat constructor|].
  intros r. unfold entries_of at 1. cbn [map concat]. rewrite app_nil_r. intros Hr.
  destruct (fg_last f Hf) as [val Hlast], (fg_range f Hf) as (_ & Hvl & _).
  destruct r as [e|]; cbn in Hr |- *.
  - destruct Hr as (He & Hs & Hmin). split; [apply elem_of_entries_of; exists f; by apply list_elem_of_lookup_2 in Ef|].
    split; [done|]. intros e' He' Hs'.
    destruct (shows_here f val e' Ef He' Hs') as [|[Hlt Hsl]]; [auto|]. pose proof (Hmin _ Hlast Hsl) as Hle. cbn [fst] in Hle.
    apply elem_of_entries_of in He' as (g & [j Hj]%list_elem_of_lookup & He').
    apply (cmp_trans (c := icomparator) _ (largest f)); auto; [by apply (ents_ivalid f)|by apply (ents_ivalid g), He'; apply (good_at j)|].
    by apply Z.lt_le_incl.
  - intros e He Hs. destruct (shows_here f val e Ef He Hs) as [Hin|[_ Hsl]]; [by apply (Hr e)|by apply (Hr _ Hlast)].
Qed.
End Level.

Lemma search_files_ok level files : Forall file_good files -> num_files files < 2 ^ 31 ->
  (level = 0 -> NoDup (map number files) /\ forall f g, f ∈ files -> g ∈ files -> number g < number f -> newer f g) ->
  (level <> 0 -> disjoint (u := u) files) ->
  exists fs, search_files level files (ExtractUserKey k) k = Done fs /\ searched files fs.
Proof.
  intros Hok Hn H0 Hd. unfold search_files. destruct (Z.eqb_spec level 0) as [E|Hne].
  - destruct (H0 E) as [Hnd Hnew]. eexists. split; [reflexivity|]. by apply search_level0.
  - specialize (Hd Hne). assert (Forall (file_ok (uvalid := uvalid)) files) as Hfo by (eapply list.Forall_impl; [exact Hok|apply fg_range]).
    destruct (FindFile_ok files k Hk Hfo (disjoint_limits files Hfo Hd) Hn) as (i & -> & Hl). rewrite run_bind_done.
    destruct (Z.geb_spec (Z.of_nat i) (num_files files)) as [Hge|Hlt].
    + exists []. split; [done|]. apply (searched_none files Hok Hd i Hl). intros f Ef%lookup_lt_Some. unfold num_files in Hge. lia.
    + unfold file_at. rewrite Nat2Z.id. destruct (lookup_lt_is_Some_2 files i) as [f Ef]; [unfold num_files in Hlt; lia|].
      rewrite Ef, run_bind_done.
      destruct (Z.ltb_spec (Compare (ExtractUserKey k) (ExtractUserKey (smallest f))) 0) as [Hc|Hc].
      * exists []. split; [done|]. apply (searched_none files Hok Hd i Hl). intros g Eg. by assert (g = f) as -> by congruence.
      * exists [f]. split; [done|]. by apply (searched_one files Hok Hd i Hl).
Qed.

(** ** All levels *)

Definition in_levels v (level : Z) (n : nat) e : Prop :=
  exists l, level <= l < level + Z.of_nat n /\ e ∈ entries_of (level_files v l).

Lemma in_levels_S v level n e : in_levels v level (S n) e <-> e ∈ entries_of (level_files v level) \/ in_levels v (level + 1) n e.
Proof.
  unfold in_levels. split.
  - intros (l & Hl & He). destruct (decide (l = level)) as [-> |Hne]; [by left|]. right. exists l. split; [lia|done].
  - intros [He|(l & Hl & He)]; [exists level|exists l]; (split; [lia|done]).
Qed.

Lemma level_hides v level n e e' : version_good v -> 0 <= level ->
  e ∈ entries_of (level_files v level) -> in_levels v (level + 1) n e' -> shows e -> shows e' -> icmp (fst e) (fst e') <= 0.
Proof.
  intros Hv Hlev (f & Hf & He)%elem_of_entries_of (l & Hl & (g & Hg & He')%elem_of_entries_of).
  apply (hides f g); [by apply (vg_files v Hv level)|by apply (vg_files v Hv l)| |done|done].
  apply (vg_newer v Hv level l); [lia|done|done].
Qed.

Lemma search_level_ok v level : version_good v -> 0 <= level ->
  exists fs, search_files level (level_files v level) (ExtractUserKey k) k = Done fs /\ searched (level_files v level) fs.
Proof.
  intros Hv Hlev. apply search_files_ok.
  - apply list.Forall_forall. intros f. apply (vg_files v Hv).
  - apply (vg_count v Hv).
  - intros ->. split; [apply (vg_numbers v Hv)|apply (vg_level0 v Hv)].
  - intros Hne. apply (vg_disjoint v Hv). lia.
Qed.

Lemma get_levels_ok o v n : version_good v -> forall level st, 0 <= level -> inv (gs_cache st) ->
  exists r st', get_levels o n v level (ExtractUserKey k) k st = Done (default (NotFound [] []) (answer r), st') /\
    inv (gs_cache st') /\ is_newest (in_levels v level n) r /\ gs_value st' = answer_value r (gs_value st).
Proof.
  intros Hv. induction n as [|n IH]; intros level st Hlev Hinv.
  - exists None, st. split; [done|]. split; [done|]. split; [|done]. intros e (l & Hl & _). lia.
  - cbn [get_levels]. destruct (search_level_ok v level Hv Hlev) as (fs & -> & Hfs & Hs & Hsearch). rewrite run_bind_done.
    destruct (get_files_ok o level fs Hfs Hs st Hinv) as (r & st1 & -> & Hinv1 & Hnew%Hsearch & Hval). rewrite run_bind_done.
    destruct (is_newest_or (fun e => e ∈ entries_of (level_files v level)) (in_levels v (level + 1) n) r) as [Hnone Hsome]; [|done|].
    { intros e e' He He'. by apply (level_hides v level n). }
    assert (forall r', is_newest (fun e => e ∈ entries_of (level_files v level) \/ in_levels v (level + 1) n e) r' ->
      is_newest (in_levels v level (S n)) r') as Hcons.
    { intros r'. apply is_newest_ext. intros e. by rewrite in_levels_S. }
    destruct r as [e|].
    + exists (Some e), st1. cbn [answer fmap option_fmap option_map default from_option]. split; [reflexivity|].
      split; [done|]. split; [by apply Hcons, Hsome|done].
    + cbn [answer fmap option_fmap option_map]. destruct (IH (level + 1) st1 ltac:(lia) Hinv1) as (r & st2 & -> & Hinv2 & Hnew2 & Hval2).
      exists r, st2. split; [done|]. split; [done|]. split; [by apply Hcons, Hnone|]. by rewrite Hval2, Hval.
Qed.

Lemma in_all_levels v e : length (files_ v) = Z.to_nat kNumLevels ->
  in_levels v 0 (Z.to_nat kNumLevels) e <-> e ∈ version_entries v.
Proof.
  intros Hlen. unfold in_levels, version_entries, level_files. rewrite list_elem_of_In, in_concat. split.
  - intros (l & Hl & He). destruct (files_ v !! Z.to_nat l) as [files|] eqn:E; [|by apply not_elem_of_nil in He].
    exists (entries_of files). split; [|by apply list_elem_of_In]. apply in_map, list_elem_of_In. by apply list_elem_of_lookup_2 in E.
  - intros (es & (files & <- & Hin)%in_map_iff & He). apply list_elem_of_In, list_elem_of_lookup in Hin as [j Hj].
    exists (Z.of_nat j). pose proof (lookup_lt_Some _ _ _ Hj). split; [lia|]. rewrite Nat2Z.id, Hj. by apply list_elem_of_In.
Qed.
End Lookup.

(** What [shows] means for a snapshot. *)
Lemma shows_visible uk seq e ik : uvalid uk -> 0 <= seq < 2 ^ 56 -> entry_ok (uvalid := uvalid) e -> ParseInternalKey (fst e) = Some ik ->
  shows (AppendInternalKey [] (mk_key uk seq kValueTypeForSeek)) e <-> Compare (user_key ik) uk = 0 /\ sequence ik <= seq.
Proof.
  intros Huk Hseq He Ek. pose proof (entry_ivalid e He) as Hv. unfold shows. rewrite append_internal_key. cbn [user_key sequence vtype].
  rewrite extract_app, <- (parse_user _ _ Ek). destruct (pack_value seq kValueTypeForSeek Hseq) as [Hpack Hb]; [done|].
  destruct (tag_parts (fst e) ik Ek) as [Htag Hty].
  assert (ivalid (uk ++ EncodeFixed64 (PackSequenceAndType seq kValueTypeForSeek))) as Hvk.
  { split; [rewrite size_fixed64; pose proof (size_nonneg uk); lia|by rewrite extract_app]. }
  pose proof (cmp_le_ge (c := icomparator) _ (fst e) Hvk Hv) as Hle. cbn [Compare InternalKeyComparator] in Hle.
  set (tag := PackSequenceAndType seq kValueTypeForSeek) in *. rewrite icmp_le, extract_app, tag_app, u64_small, Htag, <- (parse_user _ _ Ek) in Hle by lia.
  assert (uvalid (user_key ik)) as Hvu by (rewrite (parse_user _ _ Ek); apply Hv).
  pose proof (cmp_eq_sym (user_key ik) uk Hvu Huk). change kValueTypeForSeek with 1 in *. split.
  - intros [H1 H2]. apply Hle in H2. split; [done|]. lia.
  - intros [H1 H2]. split; [done|]. apply Hle. lia.
Qed.

Lemma cmp_eq_trans a b d : uvalid a -> uvalid b -> uvalid d -> Compare a b = 0 -> Compare b d = 0 -> Compare a d = 0.
Proof.
  intros Ha Hb Hd H1 H2. apply Z.le_antisymm; [apply (cmp_trans _ b); auto; lia|].
  apply cmp_le_ge; auto. apply cmp_eq_sym in H1, H2; auto. apply (cmp_trans _ b); auto; lia.
Qed.

(** The newest entry that shows is what the view has of its user key. *)
Lemma newest_in_view uk seq kvs : uvalid uk -> 0 <= seq < 2 ^ 56 -> Forall (entry_ok (uvalid := uvalid)) kvs -> StronglySorted ientry_lt kvs ->
  forall r val, is_newest (AppendInternalKey [] (mk_key uk seq kValueTypeForSeek)) (fun e => e ∈ kvs) r ->
  let s := default (NotFound [] []) (answer (AppendInternalKey [] (mk_key uk seq kValueTypeForSeek)) r) in
  let val' := answer_value r val in
  (s = OK /\ exists uk', Compare uk' uk = 0 /\ (uk', val') ∈ user_view seq kvs) \/
  (s = NotFound [] [] /\ val' = val /\ forall uk' w', (uk', w') ∈ user_view seq kvs -> Compare uk' uk <> 0).
Proof.
  intros Huk Hseq Hok Hsort r val Hnew. cbv zeta. pose proof Hok as Hall. rewrite list.Forall_forall in Hall.
  pose proof (fun uk' w' => user_view_newest seq Hseq kvs Hok Hsort uk' w') as Hview.
  destruct r as [[k0 v0]|]; cbn in Hnew.
  2: { right. split; [done|]. split; [done|]. intros uk' w' (k1 & ik & Hin & Ek & <- & Hs & _)%Hview Hu.
    apply (Hnew (k1, w') Hin), (shows_visible uk seq (k1, w') ik Huk Hseq (Hall _ Hin) Ek). done. }
  destruct Hnew as (Hin & Hs0 & Hmin). destruct (Hall _ Hin) as ((ik & Ek) & Hv0 & _). cbn [fst] in Ek, Hv0.
  cbn [answer answer_value fmap option_fmap option_map default from_option fst snd]. rewrite Ek.
  pose proof (proj1 (shows_visible uk seq (k0, v0) ik Huk Hseq (Hall _ Hin) Ek) Hs0) as [Hu Hle].
  destruct (tag_parts k0 ik Ek) as [Htag Hty].
  assert (forall k' w' ik', (k', w') ∈ kvs -> ParseInternalKey k' = Some ik' -> sequence ik' <= seq -> Compare (user_key ik') uk = 0 ->
    sequence ik' < sequence ik \/ sequence ik' = sequence ik /\ vtype ik' <= vtype ik) as Hnewest.
  { intros k' w' ik' Hin' Ek' Hs' Hu'. destruct (tag_parts k' ik' Ek') as [Htag' Hty'].
    assert (shows (AppendInternalKey [] (mk_key uk seq kValueTypeForSeek)) (k', w')) as Hs1 by (by apply (shows_visible uk seq _ ik' Huk Hseq (Hall _ Hin') Ek')).
    pose proof (Hmin _ Hin' Hs1) as Hc. cbn [fst] in Hc. apply icmp_le in Hc.
    assert (Compare (ExtractUserKey k0) (ExtractUserKey k') = 0) as Hsame.
    { apply (shows_same (AppendInternalKey [] (mk_key uk seq kValueTypeForSeek))) with (e := (k0, v0)) (e' := (k', w')); auto using entry_ivalid.
      rewrite append_internal_key. cbn [user_key]. split; [rewrite size_fixed64; pose proof (size_nonneg uk); lia|by rewrite extract_app]. }
    lia. }
  pose proof (parse_user _ _ Ek) as Euk. destruct (Z.eqb_spec (vtype ik) kTypeValue) as [Ht|Ht].
  - left. split; [done|]. exists (user_key ik). split; [done|]. apply Hview. exists k0, ik. split; [done|]. split; [done|]. split; [done|].
    split; [done|]. split; [done|]. intros k' w' ik' Hin' Ek' Hs' Hu'.
    assert (Compare (user_key ik') uk = 0) as Hu''.
    { apply (cmp_eq_trans _ (user_key ik)); [|rewrite Euk|..]; auto. rewrite (parse_user _ _ Ek'). by apply (entry_ivalid _ (Hall _ Hin')). }
    pose proof (Hnewest k' w' ik' Hin' Ek' Hs' Hu''). lia.
  - right. split; [done|]. split; [done|]. intros uk' w' (k1 & ik1 & Hin1 & Ek1 & <- & Hs1 & Ht1 & Hmax1)%Hview Hu1.
    pose proof (Hnewest k1 w' ik1 Hin1 Ek1 Hs1 Hu1) as Hn1.
    assert (sequence ik <= sequence ik1) as Hge.
    { apply (Hmax1 k0 v0 ik); auto. assert (uvalid (user_key ik1)) as Hv1 by (rewrite (parse_user _ _ Ek1); by apply (entry_ivalid _ (Hall _ Hin1))).
      apply (cmp_eq_trans _ uk); [by rewrite Euk|done|done|done|]. by apply cmp_eq_sym. }
    destruct (tag_parts k1 ik1 Ek1). unfold kTypeValue in *. lia.
Qed.

(** C5: a lookup in a version agrees with the view of the snapshot.  The version's files
    are tables in order and in range, those above level 0 disjoint; files of lower levels,
    and at level 0 those of higher numbers, have the newer entries of a user key.  Then the
    lookup ends with status OK and the value the view shows for the key, or with NotFound
    and the value untouched when the view has none, because there is no visible entry or
    the newest is a deletion. *)
Theorem version_get_correct o v uk seq val t kvs : version_good v -> inv t -> uvalid uk -> 0 <= seq < 2 ^ 56 -> size uk + 8 < 2 ^ 32 ->
  kvs ≡ₚ version_entries v -> StronglySorted ientry_lt kvs ->
  exists s val' stats t', Get o v (new_LookupKey uk seq) val t = Done (s, val', stats, t') /\ inv t' /\
    ((s = OK /\ exists uk', Compare uk' uk = 0 /\ (uk', val') ∈ user_view seq kvs) \/
     (s = NotFound [] [] /\ val' = val /\ forall uk' w', (uk', w') ∈ user_view seq kvs -> Compare uk' uk <> 0)).
Proof.
  intros Hv Hinv Huk Hseq Hsize Hperm Hsort. destruct (lookup_key_views uk seq Hsize) as (Ek & _ & Eu & _).
  set (k := AppendInternalKey [] (mk_key uk seq kValueTypeForSeek)) in *.
  assert (ExtractUserKey k = uk) as Euk by (unfold k; rewrite append_internal_key; apply extract_app).
  assert (ivalid k) as Hk.
  { split; [|by rewrite Euk]. unfold k. rewrite append_internal_key, size_fixed64. cbn [user_key]. pose proof (size_nonneg uk). lia. }
  destruct (get_levels_ok k Hk o v (Z.to_nat kNumLevels) Hv 0 (mk_get val (mk_stats None (-1)) None (-1) t) ltac:(lia) Hinv)
    as (r & st & E & Hinv' & Hnew & Hval).
  unfold Get. rewrite Ek, Eu. rewrite Euk in E. rewrite E.
  rewrite run_bind_done. cbn [gs_value] in Hval. rewrite Hval.
  assert (forall e, in_levels v 0 (Z.to_nat kNumLevels) e <-> e ∈ kvs) as Hin.
  { intros e. rewrite in_all_levels by apply (vg_levels v Hv). by rewrite Hperm. }
  apply (is_newest_ext k _ _ r Hin) in Hnew.
  assert (Forall (entry_ok (uvalid := uvalid)) kvs) as Hok.
  { apply list.Forall_forall. intros e (l & _ & (f & Hf & He)%elem_of_entries_of)%Hin.
    pose proof (fg_entries f (vg_files v Hv l f Hf)) as Hall. rewrite list.Forall_forall in Hall. auto. }
  eexists _, _, _, _. split; [reflexivity|]. split; [done|].
  by apply (newest_in_view uk seq kvs Huk Hseq Hok Hsort r val).
Qed.

(** ** Iterators *)

Definition lfn_pos files (i : nat) (it : LevelFileNumIterator) : Prop :=
  (i <= length files)%nat /\ it = mk_lfn files (Z.of_nat i).

(** The index of a level. *)
Lemma lfn_cursor files : Forall (file_ok (uvalid := uvalid)) files -> limits_sorted (u := u) files -> num_files files < 2 ^ 31 ->
  @cursor icomparator ivalid _ (level_file_num_iterator (user_comparator := u)) (map file_entry files) (lfn_pos files).
Proof.
  intros Hok Hs Hn. unfold num_files in Hn.
  split; cbn [Valid SeekToFirst SeekToLast Seek Next Prev key value status level_file_num_iterator]; rewrite ?length_map.
  - by intros i it [].
  - intros i it [Hi ->]. unfold lfn_Valid, num_files. cbn [index_ flist_].
    destruct (Z.ltb_spec (Z.of_nat i) (Z.of_nat (length files))), (Nat.ltb_spec i (length files)); lia.
  - by intros.
  - intros i it key' val [Hi ->] E. apply list_lookup_fmap_Some in E as (f & [= -> ->] & Ef). unfold file_at. cbn [index_ flist_].
    by rewrite Nat2Z.id, Ef.
  - intros i it [Hi ->]. eexists. split; [reflexivity|]. split; [lia|done].
  - intros i it [Hi ->]. eexists. split; [reflexivity|]. cbn [flist_]. split; [lia|]. f_equal.
    destruct files as [|f files]; [done|]. unfold num_files. rewrite u32_small by (cbn in *; lia). cbn [length] in *. lia.
  - intros i it [Hi ->] Hlt. eexists. split; [reflexivity|]. cbn [flist_ index_]. split; [lia|]. f_equal.
    rewrite u32_small by lia. lia.
  - intros i it [Hi ->] Hlt. eexists. split; [reflexivity|]. cbn [flist_ index_]. unfold num_files. destruct i as [|i].
    + split; [done|]. cbn [Z.of_nat Z.eqb]. by rewrite u32_small by lia.
    + split; [lia|]. f_equal. destruct (Z.eqb_spec (Z.of_nat (S i)) 0); [lia|]. rewrite u32_small; lia.
  - intros i it target [Hi ->] Ht. cbn [flist_]. destruct (FindFile_ok files target Ht Hok Hs Hn) as (j & -> & Hl).
    rewrite run_bind_done. eexists _, j. split; [reflexivity|]. split; [|done]. destruct Hl as [Hl _]. rewrite length_map in Hl. by split.
Qed.

Definition value_entries (h : list byte) : list (list byte * list byte) :=
  default [] (contents (DecodeFixed64 h) (DecodeFixed64 (drop 8 h))).

Lemma file_value_facts f : file_good f -> size (file_value f) = 16 /\ DecodeFixed64 (file_value f) = number f /\
  DecodeFixed64 (drop 8 (file_value f)) = file_size f /\ value_entries (file_value f) = ents f.
Proof.
  intros Hf. pose proof (fg_number f Hf). pose proof (fg_size f Hf). unfold value_entries, ents, file_value.
  assert (drop 8 (EncodeFixed64 (number f) ++ EncodeFixed64 (file_size f)) = EncodeFixed64 (file_size f)) as ->.
  { rewrite <- (length_EncodeFixed64 (number f)). apply drop_app_length. }
  pose proof (DecodeFixed64_app (file_size f) []) as E. rewrite app_nil_r in E. rewrite DecodeFixed64_app, E, !u64_small by lia.
  split; [|done]. unfold size. by rewrite length_app, !length_EncodeFixed64.
Qed.

(** The block function opens the table of a file. *)
Lemma GetFileIterator_ok o t f : file_good f -> inv t ->
  exists d t', GetFileIterator o t (file_value f) = Done (d, t') /\ inv t' /\
    @any_pos icomparator ivalid (EmptyIterator + I) _ (ents f) (length (ents f)) d.
Proof.
  intros Hf Hinv. destruct (file_value_facts f Hf) as (Hs & En & Es & _). unfold GetFileIterator. rewrite Hs, En, Es. cbn [Z.eqb negb].
  destruct (tc_iterator t o _ _ _ Hinv (fg_table f Hf)) as (it & t' & -> & Hinv' & pos & Hc & Hp).
  eexists _, t'. split; [reflexivity|]. split; [done|]. exists (emb_pos inr pos). split; [|by exists it].
  apply embed_cursor; [apply inr_embeds|done].
Qed.

Lemma concat_cursor o t files fuel : inv t -> Forall file_good files -> disjoint (u := u) files -> num_files files < 2 ^ 31 ->
  (length files + 2 <= fuel)%nat ->
  exists it, NewTwoLevelIterator (I := LevelFileNumIterator) (new_LevelFileNumIterator files) t = Done it /\
    @any_pos icomparator ivalid _ (concatenating_iterator o fuel) (entries_of files) (length (entries_of files)) it.
Proof.
  intros Hinv Hok Hd Hn Hfuel. assert (Forall (file_ok (uvalid := uvalid)) files) as Hfo by (eapply list.Forall_impl; [exact Hok|apply fg_range]).
  assert (forall b s h, map file_entry files !! b = Some (s, h) -> exists f, files !! b = Some f /\ s = largest f /\
    value_entries h = ents f /\ h = file_value f /\ file_good f) as Hix.
  { intros b s h (f & [= -> ->] & Ef)%list_lookup_fmap_Some. exists f. rewrite list.Forall_forall in Hok.
    pose proof (Hok f (list_elem_of_lookup_2 _ _ _ Ef)) as Hf. split; [done|]. split; [done|]. split; [by apply file_value_facts|done]. }
  assert (entries value_entries (map snd (map file_entry files)) = entries_of files) as Eall.
  { unfold entries, entries_of. f_equal. rewrite !map_map. apply map_ext_in. intros f Hf. cbn. rewrite list.Forall_forall in Hok.
    apply (file_value_facts f). by apply Hok, list_elem_of_In. }
  rewrite <- Eall.
  destruct (two_level_ok (c := icomparator) (valid := ivalid) (GetFileIterator o) fuel (map file_entry files) (lfn_pos files)
    (lfn_cursor files Hfo (disjoint_limits files Hfo Hd) Hn) value_entries
    (fun h => @any_pos icomparator ivalid (EmptyIterator + I) _ (value_entries h)) inv) with
    (it := new_LevelFileNumIterator files) (a := t) as (it & pos & E & Hp & Hcur).
  - intros b s h _. apply any_cursor.
  - intros a b s h Ha E. destruct (Hix b s h E) as (f & _ & _ & -> & -> & Hf).
    destruct (GetFileIterator_ok o a f Hf Ha) as (d & a' & E1 & E2 & E3). eauto 10.
  - intros b s h E. destruct (Hix b s h E) as (f & _ & -> & _ & _ & Hf). by destruct (fg_range f Hf) as (_ & ? & _).
  - intros b s h kv E Hkv. destruct (Hix b s h E) as (f & _ & _ & Ee & _ & Hf). rewrite Ee in Hkv. by apply (ents_ivalid f).
  - intros b s h kv E Hkv. destruct (Hix b s h E) as (f & _ & -> & Ee & _ & Hf). rewrite Ee in Hkv. by apply (fg_bounds f Hf).
  - intros b s h b' s' h' kv E E' Hlt Hkv. destruct (Hix b s h E) as (f & Ef & -> & _ & _ & Hf).
    destruct (Hix b' s' h' E') as (g & Eg & _ & Ee & _ & Hg). rewrite Ee in Hkv.
    pose proof (StronglySorted_at _ _ b b' f g Hd Ef Eg Hlt) as Hc. destruct (fg_bounds g Hg kv Hkv) as [Hle _].
    destruct (fg_range g Hg) as (Hvg & _), (fg_range f Hf) as (_ & Hvl & _).
    apply (cmp_trans_lt (c := icomparator) _ (smallest g)); auto. by apply (ents_ivalid g).
  - by rewrite length_map.
  - rewrite length_map. split; [lia|]. unfold new_LevelFileNumIterator, num_files in *. by rewrite u32_small by lia.
  - done.
  - exists it. split; [exact E|]. exists pos. split; [exact Hcur|exact Hp].
Qed.

Lemma entries_sorted files : Forall file_good files -> disjoint (u := u) files -> StronglySorted ientry_lt (entries_of files).
Proof.
  intros Hok Hd. induction Hd as [|f files Hd IH Hall]; [constructor|]. apply List.Forall_cons_iff in Hok as [Hf Hok].
  unfold entries_of. cbn [map concat]. apply StronglySorted_app. split; [|split; [apply (fg_sorted f Hf)|by apply IH]].
  intros e e' He (g & Hg & He')%elem_of_entries_of. rewrite list.Forall_forall in Hall, Hok.
  destruct (fg_bounds f Hf e He) as [_ Hle], (fg_bounds g (Hok g Hg) e' He') as [Hge _].
  destruct (fg_range f Hf) as (_ & Hvl & _), (fg_range g (Hok g Hg)) as (Hvs & _).
  apply (cmp_trans_lt_r (c := icomparator) _ (largest f)); auto; [by apply (ents_ivalid f)|by apply (ents_ivalid g); auto|].
  apply (cmp_trans_lt (c := icomparator) _ (smallest g)); [done|done|apply (ents_ivalid g); auto|by apply (Hall g)|done].
Qed.

Section Children.
Context (o : ReadOptions) (fuel : nat).

#[local] Abbreviation child := (I + ConcatenatingIterator T I)%type.
#[local] Abbreviation child_iterator := (@sum_iterator I (ConcatenatingIterator T I) _ (concatenating_iterator o fuel)).

(** A child at the end of its entries, which are in order. *)
Definition child_over (it : child) (l : list (list byte * list byte)) : Prop :=
  @any_pos icomparator ivalid child child_iterator l (length l) it /\ StronglySorted ientry_lt l.

Lemma table_iterators_ok files : Forall file_good files -> forall t, inv t ->
  exists its t', table_iterators o files t = Done (its, t') /\ inv t' /\ Forall2 child_over its (map ents files).
Proof.
  intros Hok. induction Hok as [|f files Hf Hok IH]; intros t Hinv.
  - exists [], t. split; [done|]. split; [done|constructor].
  - cbn [table_iterators map]. destruct (tc_iterator t o _ _ _ Hinv (fg_table f Hf)) as (it & t1 & -> & Hinv1 & pos & Hc & Hp).
    rewrite run_bind_done. destruct (IH t1 Hinv1) as (its & t2 & -> & Hinv2 & Hall). rewrite run_bind_done.
    eexists _, t2. split; [reflexivity|]. split; [done|]. constructor; [|done]. split; [|apply (fg_sorted f Hf)].
    exists (emb_pos inl pos). split; [|by exists it].
    apply (@embed_cursor icomparator ivalid I child _ child_iterator inl); [by split|done].
Qed.

Lemma level_iterators_ok v : version_good v -> (forall level, (length (level_files v level) + 2 <= fuel)%nat) ->
  forall n level t, 0 < level -> inv t ->
  exists its ls, level_iterators n v level t = Done its /\ Forall2 child_over its ls /\
    concat ls = concat (map (fun i => entries_of (level_files v (level + Z.of_nat i))) (seq 0 n)).
Proof.
  intros Hv Hfuel. induction n as [|n IH]; intros level t Hlev Hinv.
  - exists [], []. split; [done|]. split; [constructor|done].
  - destruct (IH (level + 1) t ltac:(lia) Hinv) as (its & ls & E & Hall & Ec). cbn [level_iterators].
    assert (concat ls = concat (map (fun i => entries_of (level_files v (level + Z.of_nat i))) (seq 1 n))) as Ec'.
    { rewrite Ec, <- (seq_shift n 0), map_map. f_equal. apply map_ext. intros i. do 2 f_equal. lia. }
    cbn [seq map concat]. rewrite Z.add_0_r, <- Ec'. destruct (level_files v level) as [|f files] eqn:El; [by exists its, ls|].
    rewrite <- El in *. assert (Forall file_good (level_files v level)) as Hok.
    { apply list.Forall_forall. intros g. apply (vg_files v Hv). }
    destruct (concat_cursor o t (level_files v level) fuel Hinv Hok (vg_disjoint v Hv level Hlev) (vg_count v Hv level) (Hfuel level))
      as (it & Eit & pos & Hc & Hp).
    unfold NewConcatenatingIterator. rewrite Eit, run_bind_done, E, run_bind_done.
    exists (inr it :: its), (entries_of (level_files v level) :: ls). split; [done|]. split; [|done]. constructor; [|done].
    split; [|apply entries_sorted; [done|by apply (vg_disjoint v Hv)]]. exists (emb_pos inr pos). split; [|by exists it].
    apply (@embed_cursor icomparator ivalid _ child (concatenating_iterator o fuel) child_iterator inr); [by split|done].
Qed.

Lemma version_entries_levels v : version_good v ->
  version_entries v = entries_of (level_files v 0) ++
    concat (map (fun i => entries_of (level_files v (1 + Z.of_nat i))) (seq 0 (Z.to_nat (kNumLevels - 1)))).
Proof.
  intros Hv. pose proof (vg_levels v Hv) as Hlen. unfold version_entries, level_files.
  destruct (files_ v) as [|l0 [|l1 [|l2 [|l3 [|l4 [|l5 [|l6 [|]]]]]]]]; try discriminate Hlen. reflexivity.
Qed.

Lemma AddIterators_ok v t : version_good v -> inv t -> (forall level, (length (level_files v level) + 2 <= fuel)%nat) ->
  exists its t' ls, AddIterators o v t [] = Done (its, t') /\ inv t' /\ Forall2 child_over its ls /\ version_entries v = concat ls.
Proof.
  intros Hv Hinv Hfuel. unfold AddIterators. assert (Forall file_good (level_files v 0)) as Hok.
  { apply list.Forall_forall. intros g. apply (vg_files v Hv). }
  destruct (table_iterators_ok (level_files v 0) Hok t Hinv) as (its0 & t1 & -> & Hinv1 & Hall0). rewrite run_bind_done.
  destruct (level_iterators_ok v Hv Hfuel (Z.to_nat (kNumLevels - 1)) 1 t1 ltac:(lia) Hinv1) as (its & ls & -> & Hall & Ec).
  rewrite run_bind_done. eexists _, t1, (map ents (level_files v 0) ++ ls). split; [reflexivity|]. split; [done|].
  split; [exact (List.Forall2_app Hall0 Hall)|]. rewrite version_entries_levels by done. rewrite concat_app, Ec. done.
Qed.

(** C6: reading a version.  Its iterators, merged and read as a snapshot, are one cursor
    over the view of the snapshot in all its entries: the tables of level 0 and the
    two-level iterators over the files of the other levels leave nothing out, and show
    nothing twice. *)
Theorem version_iterator_correct v t kvs s fuel' seed : version_good v -> inv t ->
  (forall level, (length (level_files v level) + 2 <= fuel)%nat) ->
  0 <= s < 2 ^ 56 -> kvs ≡ₚ version_entries v -> StronglySorted ientry_lt kvs -> (length kvs < fuel')%nat ->
  exists its t' r pos, AddIterators o v t [] = Done (its, t') /\ inv t' /\
    @NewMergingIterator child child_iterator its = Done r /\
    pos (length (user_view s kvs)) (NewDBIterator r s seed) /\
    @cursor u uvalid _ (@db_iterator u _ (@merged_iterator_iterator icomparator child child_iterator) fuel') (user_view s kvs) pos.
Proof.
  intros Hv Hinv Hfuel Hs Hperm Hsort Hfuel'.
  destruct (AddIterators_ok v t Hv Hinv Hfuel) as (its & t' & ls & E & Hinv' & Hall & Ec).
  assert (forall i l, ls !! i = Some l -> StronglySorted ientry_lt l) as Hls.
  { intros i l Hi. destruct (Forall2_lookup_r _ _ _ _ _ Hall Hi) as (it & _ & _ & Hl). done. }
  destruct (@database_iterator_ok u uvalid laws child child_iterator ls kvs s fuel' seed
    (fun i => match ls !! i with Some l => @any_pos icomparator ivalid child child_iterator l | None => fun _ _ => False end) its)
    as (r & pos & Er & Hp & Hc); [done| |done|by rewrite Hperm, Ec|done| | | |done|].
  - apply list.Forall_forall. intros e He. rewrite Hperm in He.
    apply (in_all_levels v e (vg_levels v Hv)) in He as (l & _ & (f & Hf & He)%elem_of_entries_of).
    pose proof (fg_entries f (vg_files v Hv l f Hf)) as Hok. rewrite list.Forall_forall in Hok. auto.
  - intros i l Hi. rewrite Hi. apply (@any_cursor icomparator ivalid child child_iterator).
  - by apply Forall2_length in Hall.
  - intros i l it Hi Hit. rewrite Hi. by apply (Forall2_lookup_lr _ _ _ _ _ _ Hall Hit Hi).
  - exists its, t', r, pos. done.
Qed.
End Children.

(** ** Where a memtable goes *)

Lemma fg_tag f : file_good f -> tag_ok f.
Proof.
  intros Hf. destruct (fg_last f Hf) as [val Hin]. pose proof (fg_entries f Hf) as Hok. rewrite list.Forall_forall in Hok.
  destruct (Hok _ Hin) as ((ik & Ek) & _). destruct (tag_parts _ _ Ek) as [Htag Hty]. cbn [fst] in *.
  pose proof (key_tag_bound (largest f)). unfold tag_ok. lia.
Qed.

Section Pick.
Context v (Hv : version_good v) (a b : list byte) (Ha : uvalid a) (Hb : uvalid b) (Hab : Compare a b <= 0).

(** No file of the level meets the range. *)
Definition clear_level (level : Z) : Prop := forall f, f ∈ level_files v level -> overlaps (u := u) (Some a) (Some b) f = false.

Lemma OverlapInLevel_ok level : 0 <= level -> exists r : bool, OverlapInLevel v level (Some a) (Some b) = Done r /\ (r = false -> clear_level level).
Proof.
  intros Hlev. assert (Forall file_good (level_files v level)) as Hok by (apply list.Forall_forall; intros f; apply (vg_files v Hv)).
  unfold OverlapInLevel. rewrite (SomeFileOverlapsRange_ok (uvalid := uvalid)).
  - eexists. split; [reflexivity|]. intros Hex f Hf. apply not_true_is_false. intros Ht.
    rewrite (proj2 (existsb_exists _ _)) in Hex; [done|]. exists f. split; [by apply list_elem_of_In|done].
  - eapply list.Forall_impl; [exact Hok|apply fg_range].
  - eapply list.Forall_impl; [exact Hok|apply fg_tag].
  - by intros k [= <-].
  - by intros k [= <-].
  - apply (vg_count v Hv).
  - intros Hl%Z.gtb_lt. by apply (vg_disjoint v Hv).
  - by intros x y [= <-] [= <-].
Qed.

Lemma pick_level_ok max_file_size n : forall level, 0 <= level -> (forall l, 0 <= l <= level -> clear_level l) ->
  exists level', pick_level_loop n max_file_size v level a b = Done level' /\ level <= level' <= level + Z.of_nat n /\
    forall l, 0 <= l <= level' -> clear_level l.
Proof.
  induction n as [|n IH]; intros level Hlev Hclear; cbn [pick_level_loop]; [exists level; split; [done|]; split; [lia|done]|].
  destruct (OverlapInLevel_ok (level + 1) ltac:(lia)) as (r & -> & Hr). rewrite run_bind_done.
  destruct r; [exists level; split; [done|]; split; [lia|done]|].
  assert (exists stop : bool, (if level + 2 <? kNumLevels then
      overlaps ← GetOverlappingInputs (level + 2 =? 0) (level_files v (level + 2))
        (Some (AppendInternalKey [] (mk_key a kMaxSequenceNumber kValueTypeForSeek))) (Some (AppendInternalKey [] (mk_key b 0 0)));
      Done (TotalFileSize overlaps >? MaxGrandParentOverlapBytes max_file_size)
    else Done false) = Done stop) as (stop & ->).
  { destruct (level + 2 <? kNumLevels); [|by eexists].
    destruct (GetOverlappingInputs_ok (uvalid := uvalid) (level + 2 =? 0) (level_files v (level + 2))
      (Some (AppendInternalKey [] (mk_key a kMaxSequenceNumber kValueTypeForSeek))) (Some (AppendInternalKey [] (mk_key b 0 0))))
      as (b' & e' & -> & _); [| | |by eexists].
    - apply list.Forall_forall. intros f Hf. apply fg_range. by apply (vg_files v Hv (level + 2)).
    - intros k [= <-]. rewrite append_internal_key. cbn [user_key]. split; [rewrite size_fixed64; pose proof (size_nonneg a); lia|by rewrite extract_app].
    - intros k [= <-]. rewrite append_internal_key. cbn [user_key]. split; [rewrite size_fixed64; pose proof (size_nonneg b); lia|by rewrite extract_app]. }
  rewrite run_bind_done. destruct stop; [exists level; split; [done|]; split; [lia|done]|].
  destruct (IH (level + 1)) as (level' & E & Hb' & Hc); [lia| |].
  - intros l Hl. destruct (decide (l = level + 1)) as [-> |Hne]; [by apply Hr|]. apply Hclear. lia.
  - exists level'. split; [exact E|]. split; [lia|done].
Qed.

(** Where the table of a memtable goes: a level of 0 to 2 of the version, whatever the
    sizes of the files; above level 0 only when no file of that level or of a lower one
    has user keys in its range, so that the levels stay disjoint and in order of age. *)
Theorem pick_level_correct max_file_size :
  exists level, PickLevelForMemTableOutput max_file_size v a b = Done level /\ 0 <= level <= kMaxMemCompactLevel /\
    (0 < level -> forall l, 0 <= l <= level -> clear_level l).
Proof.
  unfold PickLevelForMemTableOutput. destruct (OverlapInLevel_ok 0 ltac:(lia)) as (r & -> & Hr). rewrite run_bind_done.
  destruct r; [exists 0; split; [done|]; split; [done|lia]|].
  destruct (pick_level_ok max_file_size (Z.to_nat kMaxMemCompactLevel) 0 ltac:(lia)) as (level & E & Hb' & Hc).
  - intros l Hl. assert (l = 0) as -> by lia. by apply Hr.
  - exists level. split; [exact E|]. change (Z.of_nat (Z.to_nat kMaxMemCompactLevel)) with kMaxMemCompactLevel in Hb'. by split.
Qed.
End Pick.
End Correct.

(** * A table cache that has the tables in memory *)

Section ListCache.
Context {u : Comparator} {uvalid : list byte -> Prop} {laws : ComparatorLaws uvalid u}.
Context (contents : Z -> Z -> option (list (list byte * list byte))).

#[local] Abbreviation icomparator := (InternalKeyComparator u).

Definition list_table_cache : TableCache unit ListIterator := {|
  cache_NewIterator _ _ n sz :=
    match contents n sz with Some kvs => Done (mk_list_iter kvs (length kvs), tt) | None => OutOfBounds end;
  cache_Get _ _ n sz k :=
    match contents n sz with Some kvs => Done (OK, kvs !! @count_below icomparator k kvs, tt) | None => OutOfBounds end;
|}.

Lemma list_table_cache_laws :
  (forall n sz kvs, contents n sz = Some kvs -> Forall (fun kv => ivalid (valid := uvalid) (fst kv)) kvs /\
    StronglySorted (fun a b => internal_compare u (fst a) (fst b) < 0) kvs) ->
  @TableCacheLaws u uvalid unit ListIterator (@list_iterator icomparator) list_table_cache contents (fun _ => True).
Proof.
  intros Hgood. split.
  - intros t o n sz kvs _ E. cbn [cache_NewIterator list_table_cache]. rewrite E. destruct (Hgood n sz kvs E) as [Hv Hs].
    eexists _, tt. split; [reflexivity|]. split; [done|]. eexists. split; [by apply (list_cursor (c := icomparator))|]. by split.
  - intros t o n sz kvs k _ E Hk. cbn [cache_Get list_table_cache]. rewrite E. destruct (Hgood n sz kvs E) as [Hv Hs].
    pose proof (count_below_bound (c := icomparator) k kvs Hk Hv Hs) as Hl.
    eexists _, tt. split; [reflexivity|]. split; [done|]. split.
    + intros i e Hi Ee _. by rewrite <- (lower_bound_unique (c := icomparator) k kvs i _ Hi Hl).
    + intros e Ee. by eexists.
Qed.
End ListCache.

(** * Examples *)

#[local] Abbreviation bw := BytewiseComparator.

Definition del_ikey (k : list byte) (s : Z) : list byte := AppendInternalKey [] (mk_key k s kTypeDeletion).

(** Two overlapping files at level 0, and two at level 1. *)
Definition demo_contents (n sz : Z) : option (list (list byte * list byte)) :=
  if n =? 7 then Some [(demo_ikey [x61] 12, [x01]); (del_ikey [x62] 11, [])]
  else if n =? 5 then Some [(demo_ikey [x61] 9, [x02]); (demo_ikey [x63] 8, [x03])]
  else if n =? 3 then Some [(demo_ikey [x62] 2, [x04])]
  else if n =? 2 then Some [(demo_ikey [x64] 1, [x05])]
  else None.

Definition demo_version : Version := mk_version
  ([[mk_meta 1 100 7 50 (demo_ikey [x61] 12) (del_ikey [x62] 11); mk_meta 1 100 5 60 (demo_ikey [x61] 9) (demo_ikey [x63] 8)];
    [mk_meta 1 100 3 40 (demo_ikey [x62] 2) (demo_ikey [x62] 2); mk_meta 1 100 2 40 (demo_ikey [x64] 1) (demo_ikey [x64] 1)]]
   ++ replicate 5 []) None (-1) minus_one (-1).

(** All its entries, in order. *)
Definition demo_merged : list (list byte * list byte) :=
  [(demo_ikey [x61] 12, [x01]); (demo_ikey [x61] 9, [x02]); (del_ikey [x62] 11, []); (demo_ikey [x62] 2, [x04]);
   (demo_ikey [x63] 8, [x03]); (demo_ikey [x64] 1, [x05])].

Lemma demo_parse t k s : 0 <= t <= 1 -> 0 <= s < 2 ^ 56 -> exists ik, ParseInternalKey (AppendInternalKey [] (mk_key k s t)) = Some ik.
Proof. intros Ht Hs. destruct (internal_key_exact (mk_key k s t) [] Hs Ht) as [E _]. by eexists. Qed.

Lemma demo_table_cache_laws : @TableCacheLaws bw (fun _ => True) unit ListIterator (@list_iterator (InternalKeyComparator bw))
  (list_table_cache (u := bw) demo_contents) demo_contents (fun _ => True).
Proof.
  apply (list_table_cache_laws (laws := bytewise_laws)). intros n sz kvs. unfold demo_contents.
  repeat case_match; intros [= <-]; (split; [repeat constructor; cbn; done|repeat constructor]).
Qed.

Example demo_get : map (fun '(k, s) =>
    match @Get bw unit ListIterator (list_table_cache (u := bw) demo_contents) (mk_read_options true true)
      demo_version (new_LookupKey k s) [] tt with
    | Done (s, v, stats, _) => (ok s, v, number <$> seek_file stats)
    | _ => (false, [], None)
    end) [([x61], 20); ([x61], 10); ([x62], 20); ([x62], 5); ([x64], 20)] =
  [(true, [x01], None); (true, [x02], Some 7); (false, [], None); (true, [x04], Some 7); (true, [x05], None)].
Proof. reflexivity. Qed.

#[local] Abbreviation good := (file_good (u := bw) (uvalid := fun _ => True) demo_contents).

Lemma demo_entry_ok t k s v : 0 <= t <= 1 -> 0 <= s < 2 ^ 56 -> size k + 8 + size v < 2 ^ 63 ->
  entry_ok (uvalid := fun _ => True) (AppendInternalKey [] (mk_key k s t), v).
Proof.
  intros Ht Hs Hsz. split; [by apply demo_parse|]. split; [done|]. cbn [fst snd]. rewrite append_internal_key, size_fixed64. done.
Qed.

Ltac demo_file :=
  split; [reflexivity|done|done|repeat split; vm_compute; discriminate| | | |];
    [ repeat constructor; apply demo_entry_ok; done
    | repeat constructor
    | intros e He; apply list_elem_of_In in He; cbn in He; repeat destruct He as [<-|He]; try done; split; vm_compute; discriminate
    | eexists; apply list_elem_of_In; cbn; tauto ].

Lemma demo_files_good level f : f ∈ level_files demo_version level -> good f.
Proof.
  unfold level_files, demo_version. cbn [files_]. destruct (Z.to_nat level) as [|[|[|[|[|[|[|]]]]]]]; cbn;
    intros Hf; apply list_elem_of_In in Hf; cbn in Hf; repeat destruct Hf as [<-|Hf]; try done.
  all: demo_file.
Qed.

Lemma demo_levels level : level_files demo_version level =
  match Z.to_nat level with 0%nat => nth 0 (files_ demo_version) [] | 1%nat => nth 1 (files_ demo_version) [] | _ => [] end.
Proof. unfold level_files. by destruct (Z.to_nat level) as [|[|[|[|[|[|[|]]]]]]]. Qed.

Ltac cases_in H := apply list_elem_of_In in H; cbn in H; repeat destruct H as [<-|H]; try done.

Lemma demo_version_good : version_good (u := bw) (uvalid := fun _ => True) demo_contents demo_version.
Proof.
  split.
  - reflexivity.
  - apply demo_files_good.
  - intros level. rewrite demo_levels. by destruct (Z.to_nat level) as [|[|]].
  - intros level Hl. rewrite demo_levels. destruct (Z.to_nat level) as [|[|]] eqn:E; [lia|repeat constructor|constructor].
  - apply (bool_decide_unpack (NoDup [7; 5])). reflexivity.
  - intros f g Hf Hg Hlt e e' He He' Hu. rewrite demo_levels in Hf, Hg. cases_in Hf; cases_in Hg; cases_in He; cases_in He';
      vm_compute in Hu; try discriminate Hu; reflexivity.
  - intros i j f g Hij Hf Hg e e' He He' Hu. rewrite demo_levels in Hf, Hg.
    destruct (Z.to_nat i) as [|[|]] eqn:Ei, (Z.to_nat j) as [|[|]] eqn:Ej; try lia; cbn in Hf, Hg;
      cases_in Hf; cases_in Hg; cases_in He; cases_in He'; vm_compute in Hu; try discriminate Hu; reflexivity.
Qed.

Lemma demo_merged_perm : demo_merged ≡ₚ version_entries demo_contents demo_version.
Proof.
  apply (bool_decide_unpack (demo_merged ≡ₚ version_entries demo_contents demo_version)). vm_compute. reflexivity.
Qed.

Lemma demo_merged_sorted : StronglySorted (fun a b => internal_compare bw (fst a) (fst b) < 0) demo_merged.
Proof. repeat constructor. Qed.

(** The newest version of b is a deletion; the view at 10 has an older one of a. *)
Lemma version_get_correct_witness :
  (exists s val stats t', @Get bw unit ListIterator (list_table_cache (u := bw) demo_contents) (mk_read_options true true)
    demo_version (new_LookupKey [x61] 10) [] tt = Done (s, val, stats, t') /\ s = OK /\ val = [x02]) /\
  ([x61], [x02]) ∈ user_view (user_comparator := bw) 10 demo_merged.
Proof.
  destruct (version_get_correct (u := bw) (laws := bytewise_laws) (cache := list_table_cache (u := bw) demo_contents)
    demo_contents (fun _ => True) (tc_laws := demo_table_cache_laws) (mk_read_options true true) demo_version [x61] 10 [] tt demo_merged
    demo_version_good I I) as (s & val & stats & t' & E & _ & Hr); [lia|reflexivity|exact demo_merged_perm|exact demo_merged_sorted|].
  assert (s = OK /\ val = [x02]) as [-> ->].
  { pose proof E as E'. vm_compute in E'. injection E' as <- <- <- <-. done. }
  split; [by exists OK, [x02], stats, t'|]. destruct Hr as [[_ (uk & Hu & Hin)]|[Hs _]]; [|discriminate Hs].
  assert (uk = [x61]) as -> by (by apply slice_compare_0). exact Hin.
Defined.

Lemma version_iterator_correct_witness : exists its t' r pos,
  @AddIterators bw unit ListIterator (list_table_cache (u := bw) demo_contents) (mk_read_options true true) demo_version tt [] = Done (its, t') /\
  pos 4%nat (NewDBIterator r 10 301) /\
  @cursor bw (fun _ => True) _ (@db_iterator bw _ (@merged_iterator_iterator (InternalKeyComparator bw) _
    (@sum_iterator ListIterator (ConcatenatingIterator unit ListIterator) (@list_iterator (InternalKeyComparator bw))
      (@concatenating_iterator bw unit ListIterator (@list_iterator (InternalKeyComparator bw)) (list_table_cache (u := bw) demo_contents) (mk_read_options true true) 5))) 7)
    (user_view (user_comparator := bw) 10 demo_merged) pos.
Proof.
  destruct (version_iterator_correct (u := bw) (laws := bytewise_laws) (cache := list_table_cache (u := bw) demo_contents)
    demo_contents (fun _ => True) (tc_laws := demo_table_cache_laws) (mk_read_options true true) 5 demo_version tt demo_merged 10 7 301
    demo_version_good I) as (its & t' & r & pos & E & _ & _ & Hp & Hc).
  - intros level. rewrite demo_levels. destruct (Z.to_nat level) as [|[|]]; cbn; lia.
  - lia.
  - exact demo_merged_perm.
  - exact demo_merged_sorted.
  - cbn. lia.
  - exists its, t', r, pos. split; [exact E|]. split; [exact Hp|exact Hc].
Defined.

Lemma pick_level_correct_witness :
  (exists level, @PickLevelForMemTableOutput bw 2097152 demo_version [x65] [x66] = Done level /\ 0 <= level <= 2) /\
  @PickLevelForMemTableOutput bw 2097152 demo_version [x65] [x66] = Done 2.
Proof.
  split; [|reflexivity].
  destruct (pick_level_correct (u := bw) (laws := bytewise_laws) demo_contents demo_version demo_version_good [x65] [x66] I I
    ltac:(vm_compute; discriminate) 2097152) as (level & E & Hb & _).
  by exists level.
Defined.
