(* ===== verification/LdbBuilder.v ===== *)
(** leveldb: the builder of versions (db/version_set.cc, class VersionSet::Builder).

    [Apply] gathers the deleted and the added files of edits for each level, [SaveTo]
    merges them with the files of the base version.  [live_after]: the same a level and
    an edit at a time, as a reference.  [save_to_correct]: the new version has the live
    files of each level, in order.  [save_to_disjoint]: a level whose live files do not
    overlap is disjoint in the new version, so the assertions hold. *)

From Stdlib Require Import Sorting.Sorted.
From stdpp Require Import sorting.
From S2P Require Import Prelude Leb128 LdbCoding LdbStatus LdbFormat LdbVersionEdit LdbVersion LdbVersionRead.
Open Scope Z_scope.

Section Builder.
Context {user_comparator : Comparator}.
Implicit Types (f g : FileMetaData) (files : list FileMetaData).

#[local] Abbreviation icmp := (internal_compare user_comparator).

Definition BySmallestKey (f1 f2 : FileMetaData) : bool :=
  let r := icmp (smallest f1) (smallest f2) in
  if negb (r =? 0) then r <? 0 else number f1 <? number f2.

(** [std::set]: the increasing list of its elements. *)
Definition FileSet := list FileMetaData.

Fixpoint file_insert f (s : FileSet) : FileSet :=
  match s with
  | [] => [f]
  | g :: s' => if BySmallestKey f g then f :: s else if BySmallestKey g f then g :: file_insert f s' else s
  end.

Record LevelState := mk_level { deleted_files : gset Z; added_files : FileSet }.

Record Builder := mk_builder { base_ : Version; levels_ : list LevelState }.

Definition new_Builder (base : Version) : Builder :=
  mk_builder base (replicate (Z.to_nat kNumLevels) (mk_level ∅ [])).

Definition on_level (level : Z) (op : LevelState -> LevelState) (levels : list LevelState) : list LevelState :=
  alter op (Z.to_nat level) levels.

(** ** Apply *)

(** The seeks a file may cost before it is compacted. *)
Definition file_seeks (size : Z) : Z := let n := s32 (size / 16384) in if n <? 100 then 100 else n.

Definition new_meta f : FileMetaData := mk_meta 1 (file_seeks (file_size f)) (number f) (file_size f) (smallest f) (largest f).

Definition delete_file (levels : list LevelState) (p : Z * Z) : list LevelState :=
  on_level (fst p) (fun s => mk_level ({[snd p]} ∪ deleted_files s) (added_files s)) levels.

Definition add_file (levels : list LevelState) (p : Z * FileMetaData) : list LevelState :=
  on_level (fst p) (fun s => mk_level (deleted_files s ∖ {[number (snd p)]}) (file_insert (new_meta (snd p)) (added_files s))) levels.

Definition set_pointer (pointers : list (list byte)) (p : Z * list byte) : list (list byte) :=
  <[Z.to_nat (fst p) := snd p]> pointers.

(** [pointers]: the [compact_pointer_] of the version set. *)
Definition Apply (b : Builder) (pointers : list (list byte)) (edit : VersionEdit) : Builder * list (list byte) :=
  let pointers := fold_left set_pointer (compact_pointers_ edit) pointers in
  let levels := fold_left delete_file (deleted_files_ edit) (levels_ b) in
  let levels := fold_left add_file (new_files_ edit) levels in
  (mk_builder (base_ b) levels, pointers).

(** ** SaveTo *)

(** The reference count of the file is not modelled: files are values. *)
Definition MaybeAddFile (deleted : gset Z) files f : list FileMetaData :=
  if bool_decide (number f ∈ deleted) then files else files ++ [f].

(** [std::upper_bound] on a sorted range: the elements that are not above [f]. *)
Fixpoint upper_bound f files : nat :=
  match files with
  | [] => 0
  | g :: files => if BySmallestKey f g then 0 else S (upper_bound f files)
  end.

Fixpoint save_loop (deleted : gset Z) (added base out : list FileMetaData) : list FileMetaData :=
  match added with
  | [] => fold_left (MaybeAddFile deleted) base out
  | f :: added =>
      let bpos := upper_bound f base in
      let out := fold_left (MaybeAddFile deleted) (take bpos base) out in
      save_loop deleted added (drop bpos base) (MaybeAddFile deleted out f)
  end.

Definition save_level (s : LevelState) (base_files out : list FileMetaData) : list FileMetaData :=
  save_loop (deleted_files s) (added_files s) base_files out.

Definition SaveTo (b : Builder) (v : Version) : Version :=
  mk_version (imap (fun level out => save_level (default (mk_level ∅ []) (levels_ b !! level)) (level_files (base_ b) (Z.of_nat level)) out) (files_ v))
    (file_to_compact_ v) (file_to_compact_level_ v) (compaction_score_ v) (compaction_level_ v).
End Builder.

(** * The reference *)

Section Correct.
Context {u : Comparator} {uvalid : list byte -> Prop} {laws : ComparatorLaws uvalid u}.
Implicit Types (f g : FileMetaData) (files : list FileMetaData).

#[local] Abbreviation icomparator := (InternalKeyComparator u).
#[local] Abbreviation icmp := (internal_compare u).
#[local] Abbreviation ivalid := (ivalid (valid := uvalid)).
#[local] Abbreviation bsk := (BySmallestKey (user_comparator := u)).

(** The files an edit adds to a level, as it keeps them. *)
Definition added_to (level : Z) (e : VersionEdit) : list FileMetaData :=
  map (fun p => new_meta (snd p)) (List.filter (fun p => Z.to_nat (fst p) =? Z.to_nat level)%nat (new_files_ e)).

Definition deleted_at (level : Z) (e : VersionEdit) f : bool :=
  existsb (fun p => (Z.to_nat (fst p) =? Z.to_nat level)%nat && (snd p =? number f)) (deleted_files_ e).

(** The live files of a level after one more edit. *)
Definition live_after (level : Z) (live : list FileMetaData) (e : VersionEdit) : list FileMetaData :=
  List.filter (fun f => negb (deleted_at level e f)) live ++ added_to level e.

(** The files an edit adds are new to their level. *)
Fixpoint fresh (level : Z) (numbers : list Z) (edits : list VersionEdit) : Prop :=
  match edits with
  | [] => True
  | e :: edits =>
      NoDup (numbers ++ map number (added_to level e)) /\ fresh level (numbers ++ map number (added_to level e)) edits
  end.

(** ** The order of files *)

Definition key_ok f : Prop := ivalid (smallest f).

(** Not above. *)
Definition ordered (f g : FileMetaData) : Prop := bsk g f = false.

Lemma bsk_lt f g : bsk f g = true <-> icmp (smallest f) (smallest g) < 0 \/ icmp (smallest f) (smallest g) = 0 /\ number f < number g.
Proof.
  unfold BySmallestKey. destruct (Z.eqb_spec (icmp (smallest f) (smallest g)) 0) as [E|Hne]; cbn [negb]; rewrite Z.ltb_lt; lia.
Qed.

Lemma icmp_anti a b : ivalid a -> ivalid b -> Z.sgn (icmp a b) = - Z.sgn (icmp b a).
Proof. apply (cmp_antisym (c := icomparator)). Qed.

Lemma ordered_le f g : key_ok f -> key_ok g ->
  ordered f g <-> icmp (smallest f) (smallest g) < 0 \/ icmp (smallest f) (smallest g) = 0 /\ number f <= number g.
Proof.
  intros Hf Hg. unfold ordered. rewrite <- not_true_iff_false, bsk_lt. pose proof (icmp_anti _ _ Hf Hg). lia.
Qed.

Lemma bsk_ordered f g : key_ok f -> key_ok g -> bsk f g = true -> ordered f g.
Proof. intros Hf Hg. rewrite bsk_lt, ordered_le by done. lia. Qed.

Lemma ordered_trans f g h : key_ok f -> key_ok g -> key_ok h -> ordered f g -> ordered g h -> ordered f h.
Proof.
  intros Hf Hg Hh. rewrite !ordered_le by done. intros H1 H2.
  pose proof (icmp_trans _ _ _ Hf Hg Hh) as Ht. pose proof (cmp_trans_lt_r (c := icomparator) _ _ _ Hf Hg Hh) as Ht'.
  cbn [Compare InternalKeyComparator] in Ht'.
  assert (icmp (smallest f) (smallest h) <= 0) by (apply Ht; lia).
  destruct (Z.eq_dec (icmp (smallest f) (smallest h)) 0) as [E|]; [|lia]. right. split; [done|].
  destruct (Z.eq_dec (icmp (smallest f) (smallest g)) 0); [|destruct Ht as [_ Ht]; lia].
  destruct (Z.eq_dec (icmp (smallest g) (smallest h)) 0); [lia|]. specialize (Ht' ltac:(lia) ltac:(lia)). lia.
Qed.

(** ** Sets of files *)

Lemma file_insert_elem f s g : g ∈ file_insert (user_comparator := u) f s -> g = f \/ g ∈ s.
Proof.
  induction s as [|h s IH]; cbn [file_insert]; [rewrite list_elem_of_singleton; tauto|].
  destruct (bsk f h); [rewrite elem_of_cons; tauto|]. destruct (bsk h f); [|tauto].
  rewrite !elem_of_cons. intros [->|Hg]; [tauto|]. destruct (IH Hg); tauto.
Qed.

(** A file of another number is inserted. *)
Lemma file_insert_perm f s : key_ok f -> Forall key_ok s -> (forall g, g ∈ s -> number g <> number f) ->
  file_insert (user_comparator := u) f s ≡ₚ f :: s.
Proof.
  intros Hf Hs. induction Hs as [|h s Hh Hs IH]; intros Hn; cbn [file_insert]; [done|].
  destruct (bsk f h) eqn:E1; [done|]. destruct (bsk h f) eqn:E2.
  - rewrite IH; [constructor|]. intros g Hg. apply Hn. by right.
  - exfalso. pose proof (Hn h ltac:(left)) as Hne. apply (ordered_le h f) in E1; [|done..]. apply (ordered_le f h) in E2; [|done..].
    pose proof (icmp_anti _ _ Hf Hh). lia.
Qed.

Lemma file_insert_sorted f s : key_ok f -> Forall key_ok s -> StronglySorted ordered s ->
  StronglySorted ordered (file_insert (user_comparator := u) f s).
Proof.
  intros Hf Hs. induction Hs as [|h s Hh Hs IH]; intros Hsort; cbn [file_insert]; [by repeat constructor|].
  apply StronglySorted_inv in Hsort as [Hsort Hall]. destruct (bsk f h) eqn:E1.
  - constructor; [by constructor|]. apply bsk_ordered in E1; [|done..]. constructor; [done|].
    rewrite list.Forall_forall in *. intros g Hg. apply (ordered_trans f h g); auto.
  - destruct (bsk h f) eqn:E2; [|by constructor]. constructor; [by apply IH|].
    apply list.Forall_forall. intros g [->|Hg]%file_insert_elem; [by apply bsk_ordered|]. rewrite list.Forall_forall in Hall. auto.
Qed.

(** ** SaveTo merges *)

Definition kept (deleted : gset Z) f : bool := bool_decide (number f ∉ deleted).

Lemma maybe_add_all deleted base : forall out,
  fold_left (MaybeAddFile deleted) base out = out ++ List.filter (kept deleted) base.
Proof.
  induction base as [|f base IH]; intros out; cbn [fold_left List.filter]; [by rewrite app_nil_r|].
  rewrite IH. unfold MaybeAddFile, kept. destruct (bool_decide_reflect (number f ∈ deleted)).
  - by rewrite (bool_decide_eq_false_2 (number f ∉ deleted)) by tauto.
  - rewrite (bool_decide_eq_true_2 (number f ∉ deleted)) by done. by rewrite <- app_assoc.
Qed.

(** The list the loop filters. *)
Fixpoint merged (added base : list FileMetaData) : list FileMetaData :=
  match added with
  | [] => base
  | f :: added => let n := upper_bound (user_comparator := u) f base in take n base ++ f :: merged added (drop n base)
  end.

Lemma save_loop_merged deleted added : forall base out,
  save_loop (user_comparator := u) deleted added base out = out ++ List.filter (kept deleted) (merged added base).
Proof.
  induction added as [|f added IH]; intros base out; cbn [save_loop merged].
  - apply maybe_add_all.
  - change (MaybeAddFile deleted ?o f) with (fold_left (MaybeAddFile deleted) [f] o).
    rewrite IH, !maybe_add_all, List.filter_app. cbn [List.filter]. destruct (kept deleted f); by rewrite <- !app_assoc.
Qed.

Lemma merged_perm added : forall base, merged added base ≡ₚ base ++ added.
Proof.
  induction added as [|f added IH]; intros base; cbn [merged]; [by rewrite app_nil_r|].
  set (n := upper_bound f base). rewrite IH, <- !Permutation_middle, app_assoc, take_drop. done.
Qed.

Lemma upper_bound_below f base : Forall (fun g => ordered g f) (take (upper_bound (user_comparator := u) f base) base).
Proof.
  induction base as [|g base IH]; cbn [upper_bound take]; [constructor|]. destruct (bsk f g) eqn:E; [constructor|]. by constructor.
Qed.

Lemma upper_bound_above f base : key_ok f -> Forall key_ok base -> StronglySorted ordered base ->
  Forall (ordered f) (drop (upper_bound (user_comparator := u) f base) base).
Proof.
  intros Hf Hb. induction Hb as [|g base Hg Hb IH]; intros Hs; cbn [upper_bound drop]; [constructor|].
  apply StronglySorted_inv in Hs as [Hs Hall]. destruct (bsk f g) eqn:E; [|by apply IH].
  apply bsk_ordered in E; [|done..]. constructor; [done|]. rewrite list.Forall_forall in *. intros h Hh. apply (ordered_trans f g h); auto.
Qed.

Lemma merged_sorted added : Forall key_ok added -> StronglySorted ordered added ->
  forall base, Forall key_ok base -> StronglySorted ordered base -> StronglySorted ordered (merged added base).
Proof.
  intros Ha. induction Ha as [|f added Hf Ha IH]; intros Hsa base Hb Hsb; cbn [merged]; [done|].
  apply StronglySorted_inv in Hsa as [Hsa Halla]. set (n := upper_bound f base).
  pose proof (upper_bound_below f base) as Hbelow. pose proof (upper_bound_above f base Hf Hb Hsb) as Habove. fold n in Hbelow, Habove.
  pose proof Hsb as Hsb'. rewrite <- (take_drop n base) in Hsb'. apply StronglySorted_app in Hsb' as (Hcross & Hs1 & Hs2).
  pose proof Hb as Hb'. rewrite <- (take_drop n base) in Hb'. apply List.Forall_app in Hb' as [Hb1 Hb2].
  assert (Forall (ordered f) (merged added (drop n base))) as Hrest.
  { rewrite merged_perm. apply List.Forall_app. split; done. }
  apply StronglySorted_app. split; [|split; [done|constructor; [by apply IH|done]]].
  intros g h Hg Hh. rewrite list.Forall_forall in Hbelow, Hrest, Hb1, Hb2, Ha. pose proof (Hbelow g Hg) as Hgf.
  apply elem_of_cons in Hh as [->|Hh]; [done|]. pose proof (Hrest h Hh) as Hfh.
  rewrite merged_perm in Hh. assert (key_ok h) by (apply elem_of_app in Hh as [Hh|Hh]; auto). apply (ordered_trans g f h); auto.
Qed.

(** ** Apply, a level at a time *)

Definition at_level (n : nat) {P : Type} (op : Z * P -> LevelState -> LevelState) (ps : list (Z * P)) (s : LevelState) : LevelState :=
  fold_left (fun s p => if (Z.to_nat (fst p) =? n)%nat then op p s else s) ps s.

Lemma fold_levels {P : Type} (op : Z * P -> LevelState -> LevelState) (ps : list (Z * P)) n : forall levels,
  fold_left (fun ls p => on_level (fst p) (op p) ls) ps levels !! n = at_level n op ps <$> levels !! n.
Proof.
  induction ps as [|p ps IH]; intros levels; cbn [fold_left]; [by destruct (levels !! n)|].
  rewrite IH. unfold on_level. destruct (Nat.eqb_spec (Z.to_nat (fst p)) n) as [<- |Hne].
  - rewrite list_lookup_alter, decide_True by done. destruct (levels !! Z.to_nat (fst p)); [|done]. cbn. f_equal. unfold at_level.
    cbn [fold_left]. by rewrite Nat.eqb_refl.
  - rewrite list_lookup_alter_ne by done. destruct (levels !! n); [|done]. cbn. f_equal. unfold at_level. cbn [fold_left].
    by rewrite (proj2 (Nat.eqb_neq _ _) Hne).
Qed.

Definition delete_op (p : Z * Z) (s : LevelState) : LevelState := mk_level ({[snd p]} ∪ deleted_files s) (added_files s).
Definition add_op (p : Z * FileMetaData) (s : LevelState) : LevelState :=
  mk_level (deleted_files s ∖ {[number (snd p)]}) (file_insert (user_comparator := u) (new_meta (snd p)) (added_files s)).

Definition level_apply (level : Z) (e : VersionEdit) (s : LevelState) : LevelState :=
  at_level (Z.to_nat level) add_op (new_files_ e) (at_level (Z.to_nat level) delete_op (deleted_files_ e) s).

Lemma Apply_level (b : Builder) pointers e level :
  levels_ (fst (Apply (user_comparator := u) b pointers e)) !! Z.to_nat level = level_apply level e <$> levels_ b !! Z.to_nat level.
Proof.
  unfold Apply. cbn [fst levels_]. unfold level_apply.
  rewrite (fold_levels add_op (new_files_ e) (Z.to_nat level)), (fold_levels delete_op (deleted_files_ e) (Z.to_nat level)).
  by destruct (levels_ b !! Z.to_nat level).
Qed.

Lemma at_level_delete n ps : forall s, added_files (at_level n delete_op ps s) = added_files s /\
  forall f, kept (deleted_files (at_level n delete_op ps s)) f =
    negb (existsb (fun p => (Z.to_nat (fst p) =? n)%nat && (snd p =? number f)) ps) && kept (deleted_files s) f.
Proof.
  induction ps as [|p ps IH]; intros s; [done|]. unfold at_level in *. cbn [fold_left existsb].
  destruct (IH (if (Z.to_nat (fst p) =? n)%nat then delete_op p s else s)) as [-> Hk]. split; [by destruct (_ =? n)%nat|].
  intros f. rewrite Hk. destruct (Z.to_nat (fst p) =? n)%nat; cbn [andb orb]; [|done].
  unfold kept. cbn [deleted_files delete_op]. destruct (Z.eqb_spec (snd p) (number f)) as [E|E]; cbn [orb negb andb].
  - rewrite bool_decide_eq_false_2 by set_solver. by rewrite andb_false_r.
  - f_equal. apply bool_decide_ext. set_solver.
Qed.

(** What the additions do, when their numbers are new. *)
Lemma at_level_add n ps : forall s,
  let news := map (fun p => new_meta (snd p)) (List.filter (fun p => Z.to_nat (fst p) =? n)%nat ps) in
  Forall key_ok (added_files s) -> Forall key_ok news -> StronglySorted ordered (added_files s) ->
  NoDup (map number (added_files s) ++ map number news) ->
  Forall key_ok (added_files (at_level n add_op ps s)) /\ StronglySorted ordered (added_files (at_level n add_op ps s)) /\
  added_files (at_level n add_op ps s) ≡ₚ added_files s ++ news /\
  deleted_files (at_level n add_op ps s) = deleted_files s ∖ list_to_set (map number news).
Proof.
  induction ps as [|p ps IH]; intros s news Hk Hkn Hs Hnd; subst news.
  - cbn in *. rewrite app_nil_r. split; [done|]. split; [done|]. split; [done|]. set_solver.
  - unfold at_level in *. cbn [fold_left List.filter] in *. destruct (Z.to_nat (fst p) =? n)%nat eqn:En; [|by apply IH].
    cbn [map] in *. set (f := new_meta (snd p)) in *. apply List.Forall_cons_iff in Hkn as [Hkf Hkn].
    assert (forall g, g ∈ added_files s -> number g <> number f) as Hnew.
    { intros g Hg E. apply list.NoDup_app in Hnd as (_ & Hd & _). apply (Hd (number g)).
      - by apply list_elem_of_fmap_2.
      - rewrite E. left. }
    pose proof (file_insert_perm f (added_files s) Hkf Hk Hnew) as Hperm.
    destruct (IH (add_op p s)) as (G1 & G2 & G3 & G4).
    + cbn [add_op added_files]. fold f. rewrite Hperm. by constructor.
    + done.
    + by apply file_insert_sorted.
    + cbn [add_op added_files]. fold f. rewrite Hperm. cbn [map]. rewrite <- Permutation_middle in Hnd. done.
    + split; [done|]. split; [done|]. split.
      * rewrite G3. cbn [add_op added_files]. fold f. rewrite Hperm. by rewrite <- Permutation_middle.
      * rewrite G4. cbn [add_op deleted_files]. fold f. change (number (snd p)) with (number f).
        apply set_eq. intros x. cbn [map list_to_set]. rewrite !elem_of_difference, elem_of_union, elem_of_singleton. tauto.
Qed.

(** What the state of a level knows. *)
Record level_inv (base live : list FileMetaData) (numbers : list Z) (s : LevelState) : Prop := {
  li_keys : Forall key_ok (added_files s);
  li_sorted : StronglySorted ordered (added_files s);
  li_live : List.filter (kept (deleted_files s)) (base ++ added_files s) ≡ₚ live;
  li_numbers : map number (base ++ added_files s) ≡ₚ numbers;
  li_nodup : NoDup numbers;
}.

Lemma filter_perm {A} (p : A -> bool) (l l' : list A) : l ≡ₚ l' -> List.filter p l ≡ₚ List.filter p l'.
Proof.
  intros Hp. induction Hp as [|x l l' _ IH|x y l|l l' l'' _ IH1 _ IH2]; cbn [List.filter]; [done| | |by rewrite IH1].
  - destruct (p x); by rewrite ?IH.
  - destruct (p x), (p y); try done. constructor.
Qed.

Lemma filter_filter {A} (p q : A -> bool) (l : list A) : List.filter p (List.filter q l) = List.filter (fun x => q x && p x) l.
Proof.
  induction l as [|x l IH]; [done|]. cbn [List.filter]. destruct (q x); cbn [List.filter andb]; [|done]. by rewrite IH.
Qed.

Lemma filter_true {A} (p : A -> bool) (l : list A) : (forall x, x ∈ l -> p x = true) -> List.filter p l = l.
Proof.
  intros Hp. induction l as [|x l IH]; [done|]. cbn [List.filter]. rewrite (Hp x) by left. f_equal. apply IH. intros y Hy. apply Hp. by right.
Qed.

Lemma level_apply_ok level base live numbers e s : level_inv base live numbers s ->
  Forall key_ok (added_to level e) -> NoDup (numbers ++ map number (added_to level e)) ->
  level_inv base (live_after level live e) (numbers ++ map number (added_to level e)) (level_apply level e s).
Proof.
  intros [Hk Hs Hl Hn _] Hkn Hnd. unfold level_apply.
  set (s1 := at_level (Z.to_nat level) delete_op (deleted_files_ e) s).
  destruct (at_level_delete (Z.to_nat level) (deleted_files_ e) s) as [Eadd Hkept]. fold s1 in Eadd, Hkept.
  assert (forall f g, f ∈ base ++ added_files s -> g ∈ added_to level e -> number f <> number g) as Hnew.
  { intros f g Hf Hg E. apply list.NoDup_app in Hnd as (_ & Hd & _). apply (Hd (number f)).
    - rewrite <- Hn. by apply list_elem_of_fmap_2.
    - rewrite E. by apply list_elem_of_fmap_2. }
  destruct (at_level_add (Z.to_nat level) (new_files_ e) s1) as (G1 & G2 & G3 & G4); fold (added_to level e) in *.
  - by rewrite Eadd.
  - done.
  - by rewrite Eadd.
  - rewrite Eadd. rewrite <- Hn, map_app, <- app_assoc in Hnd. by apply list.NoDup_app in Hnd as (_ & _ & Hnd).
  - set (s2 := at_level (Z.to_nat level) add_op (new_files_ e) s1) in *. rewrite Eadd in G3. split; [done|done| | |done].
    + rewrite (filter_perm _ _ (base ++ added_files s ++ added_to level e)) by (by rewrite G3).
      rewrite app_assoc, List.filter_app. unfold live_after. apply Permutation_app.
      * rewrite <- (filter_perm _ _ _ Hl), filter_filter. apply Permutation_refl'. apply filter_ext_in. intros f Hf%list_elem_of_In.
        unfold deleted_at. rewrite andb_comm, <- (Hkept f). unfold kept. rewrite G4. apply bool_decide_ext.
        assert (number f ∉ map number (added_to level e)) as Hnot; [|rewrite not_elem_of_difference, elem_of_list_to_set; tauto].
        intros (g & E & Hg)%list_elem_of_fmap. by apply (Hnew f g).
      * rewrite filter_true; [done|]. intros f Hf. unfold kept. rewrite G4. apply bool_decide_eq_true_2.
        rewrite not_elem_of_difference, elem_of_list_to_set. right. by apply list_elem_of_fmap_2.
    + rewrite !map_app, (Permutation_map number G3), map_app, app_assoc, <- map_app, Hn. done.
Qed.

Lemma sorted_filter {A} (R : A -> A -> Prop) (p : A -> bool) (l : list A) : StronglySorted R l -> StronglySorted R (List.filter p l).
Proof.
  intros Hs. induction Hs as [|x l Hs IH Hall]; [constructor|]. cbn [List.filter]. destruct (p x); [|done]. constructor; [done|].
  apply list.Forall_forall. intros y [Hy _]%list_elem_of_In%filter_In. rewrite list.Forall_forall in Hall. by apply Hall, list_elem_of_In.
Qed.

(** Any number of edits. *)
Definition apply_all (b : Builder) (pointers : list (list byte)) (edits : list VersionEdit) : Builder * list (list byte) :=
  fold_left (fun '(b, pointers) e => Apply (user_comparator := u) b pointers e) edits (b, pointers).

Lemma apply_all_cons b pointers e edits :
  apply_all b pointers (e :: edits) = apply_all (fst (Apply (user_comparator := u) b pointers e)) (snd (Apply (user_comparator := u) b pointers e)) edits.
Proof. unfold apply_all. cbn [fold_left]. by destruct (Apply b pointers e). Qed.

Lemma apply_all_ok level edits : Forall (fun e => Forall key_ok (added_to level e)) edits -> forall b pointers live numbers s,
  levels_ b !! Z.to_nat level = Some s -> level_inv (level_files (base_ b) level) live numbers s -> fresh level numbers edits ->
  exists s' numbers', levels_ (fst (apply_all b pointers edits)) !! Z.to_nat level = Some s' /\
    base_ (fst (apply_all b pointers edits)) = base_ b /\
    level_inv (level_files (base_ b) level) (fold_left (live_after level) edits live) numbers' s'.
Proof.
  intros Hk. induction Hk as [|e edits He Hk IH]; intros b pointers live numbers s Hs Hinv Hf; [by exists s, numbers|].
  destruct Hf as [Hnd Hf]. rewrite apply_all_cons. pose proof (Apply_level b pointers e level) as Hlev. rewrite Hs in Hlev.
  cbn [fmap option_fmap option_map] in Hlev.
  apply (IH _ (snd (Apply b pointers e)) (live_after level live e) (numbers ++ map number (added_to level e)) _ Hlev); [|done].
  by apply level_apply_ok.
Qed.

Lemma filter_NoDup (p : FileMetaData -> bool) files : NoDup (map number files) -> NoDup (map number (List.filter p files)).
Proof.
  induction files as [|f files IH]; [done|]. cbn [map List.filter]. intros [Hnot Hnd]%list.NoDup_cons.
  destruct (p f); [|by apply IH]. cbn [map]. apply list.NoDup_cons. split; [|by apply IH].
  intros (g & E & [Hg _]%list_elem_of_In%filter_In)%list_elem_of_fmap. apply Hnot, list_elem_of_fmap. exists g.
  split; [done|]. by apply list_elem_of_In.
Qed.

Lemma SaveTo_ok (base : Version) pointers edits level : 0 <= level < kNumLevels ->
  Forall key_ok (level_files base level) -> StronglySorted ordered (level_files base level) ->
  Forall (fun e => Forall key_ok (added_to level e)) edits -> NoDup (map number (level_files base level)) ->
  fresh level (map number (level_files base level)) edits ->
  let files := level_files (SaveTo (user_comparator := u) (fst (apply_all (new_Builder base) pointers edits)) new_Version) level in
  files ≡ₚ fold_left (live_after level) edits (level_files base level) /\ StronglySorted ordered files /\ NoDup (map number files).
Proof.
  intros Hlev Hkb Hsb Hke Hnd Hfresh files.
  destruct (apply_all_ok level edits Hke (new_Builder base) pointers (level_files base level) (map number (level_files base level)) (mk_level ∅ []))
    as (s & numbers & Es & Eb & [Hk Hs Hl Hn Hnd']).
  - unfold new_Builder. cbn [levels_]. apply lookup_replicate. unfold kNumLevels in *. split; [done|lia].
  - cbn [base_ new_Builder]. split; [constructor|constructor| | |done]; cbn [added_files deleted_files]; rewrite app_nil_r; [|done].
    rewrite filter_true; [done|]. intros f _. apply bool_decide_eq_true_2. apply not_elem_of_empty.
  - done.
  - cbn [base_ new_Builder] in Eb, Hl. assert (files = List.filter (kept (deleted_files s)) (merged (added_files s) (level_files base level))) as ->.
    { unfold files, level_files at 1. cbn [SaveTo files_]. rewrite list_lookup_imap.
      assert (files_ new_Version !! Z.to_nat level = Some []) as -> by (apply lookup_replicate; unfold kNumLevels in *; split; [done|lia]).
      cbn [fmap option_fmap option_map default from_option]. rewrite Es, Eb, Z2Nat.id by lia.
      unfold save_level. by rewrite save_loop_merged. }
    split; [|split].
    + rewrite <- Hl. apply filter_perm, merged_perm.
    + apply sorted_filter, merged_sorted; done.
    + rewrite (filter_perm _ _ _ (merged_perm _ _)). apply filter_NoDup. by rewrite Hn.
Qed.

(** C12: the builder. After any edits that each add files of new numbers to a level, the new
    version has at that level the files that an edit at a time leaves: those of the base
    version and those added that no later edit deletes; and they are in order. *)
Theorem save_to_correct (base : Version) pointers edits level : 0 <= level < kNumLevels ->
  Forall key_ok (level_files base level) -> StronglySorted ordered (level_files base level) ->
  Forall (fun e => Forall key_ok (added_to level e)) edits -> NoDup (map number (level_files base level)) ->
  fresh level (map number (level_files base level)) edits ->
  let files := level_files (SaveTo (user_comparator := u) (fst (apply_all (new_Builder base) pointers edits)) new_Version) level in
  files ≡ₚ fold_left (live_after level) edits (level_files base level) /\ StronglySorted ordered files.
Proof. intros H1 H2 H3 H4 H5 H6. cbv zeta. destruct (SaveTo_ok base pointers edits level) as (G1 & G2 & _); auto. Qed.

(** Files in order that do not overlap are disjoint. *)
Lemma sorted_disjoint files : Forall (file_ok (uvalid := uvalid)) files -> StronglySorted ordered files -> NoDup (map number files) ->
  (forall f g, f ∈ files -> g ∈ files -> number f <> number g -> icmp (largest f) (smallest g) < 0 \/ icmp (largest g) (smallest f) < 0) ->
  disjoint (u := u) files.
Proof.
  intros Hok Hs. induction Hs as [|f files Hs IH Hall]; intros Hnd Hdis; [constructor|].
  apply List.Forall_cons_iff in Hok as [(Hvs & Hvl & Hle) Hok]. cbn [map] in Hnd. apply list.NoDup_cons in Hnd as [Hnot Hnd].
  constructor; [apply IH; [done|done|]; intros g h Hg Hh; apply Hdis; by right|].
  apply list.Forall_forall. intros g Hg. rewrite list.Forall_forall in Hall, Hok. destruct (Hok g Hg) as (Hvs' & Hvl' & Hle').
  destruct (Hdis f g) as [|Hlt]; [left|by right| |done|].
  - intros E. apply Hnot. rewrite E. by apply list_elem_of_fmap_2.
  - pose proof (Hall g Hg) as Ho. apply ordered_le in Ho; [|done..]. exfalso.
    pose proof (cmp_trans_lt_r (c := icomparator) _ _ _ Hvs' Hvl' Hvs Hle' Hlt) as Hc. cbn in Hc.
    pose proof (icmp_anti _ _ Hvs Hvs'). lia.
Qed.

(** Levels stay disjoint: when no two live files of a level overlap, the new version
    has them one after the other, which is what its debug builds assert. *)
Theorem save_to_disjoint (base : Version) pointers edits level : 0 <= level < kNumLevels ->
  Forall key_ok (level_files base level) -> StronglySorted ordered (level_files base level) ->
  Forall (fun e => Forall key_ok (added_to level e)) edits -> NoDup (map number (level_files base level)) ->
  fresh level (map number (level_files base level)) edits ->
  let live := fold_left (live_after level) edits (level_files base level) in
  Forall (file_ok (uvalid := uvalid)) live ->
  (forall f g, f ∈ live -> g ∈ live -> number f <> number g -> icmp (largest f) (smallest g) < 0 \/ icmp (largest g) (smallest f) < 0) ->
  disjoint (u := u) (level_files (SaveTo (user_comparator := u) (fst (apply_all (new_Builder base) pointers edits)) new_Version) level).
Proof.
  intros Hlev Hkb Hsb Hke Hnd Hfresh live Hok Hdis.
  destruct (SaveTo_ok base pointers edits level Hlev Hkb Hsb Hke Hnd Hfresh) as (Hperm & Hs & Hnd').
  apply sorted_disjoint; [by rewrite Hperm|done|done|]. intros f g. rewrite Hperm. apply Hdis.
Qed.
End Correct.

(** * Examples *)

#[local] Abbreviation bw := BytewiseComparator.
#[local] Abbreviation bw_key_ok := (key_ok (uvalid := fun _ => True)).

(** A compaction to level 1, then a file that goes there, and is deleted again, and another. *)
Definition demo_edits : list VersionEdit :=
  [AddFile (DeleteFile (DeleteFile new_VersionEdit 0 7) 1 3) 1 9 50 (demo_ikey [x62] 11) (demo_ikey [x63] 4);
   AddFile new_VersionEdit 1 10 50 (demo_ikey [x7a] 5) (demo_ikey [x7a] 3);
   AddFile (DeleteFile new_VersionEdit 1 10) 1 12 20000000 (demo_ikey [x61] 5) (demo_ikey [x61] 3)].

Example demo_saved :
  map (map number) (files_ (SaveTo (user_comparator := bw) (fst (apply_all (u := bw) (new_Builder demo_version) (replicate 7 []) demo_edits)) new_Version)) =
  [[5]; [12; 9; 2]; []; []; []; []; []].
Proof. reflexivity. Qed.

Lemma demo_edits_ok : Forall (fun e => Forall bw_key_ok (added_to 1 e)) demo_edits.
Proof. repeat constructor; apply demo_ikey_valid. Qed.

Lemma demo_edits_fresh : fresh 1 (map number (level_files demo_version 1)) demo_edits.
Proof.
  split; [apply (bool_decide_unpack (NoDup [3; 2; 9])); reflexivity|].
  split; [apply (bool_decide_unpack (NoDup [3; 2; 9; 10])); reflexivity|].
  split; [apply (bool_decide_unpack (NoDup [3; 2; 9; 10; 12])); reflexivity|done].
Qed.

Lemma demo_base_ok : Forall bw_key_ok (level_files demo_version 1) /\ StronglySorted (ordered (u := bw)) (level_files demo_version 1) /\
  NoDup (map number (level_files demo_version 1)).
Proof.
  split; [repeat constructor; apply demo_ikey_valid|]. split; [repeat constructor|].
  apply (bool_decide_unpack (NoDup [3; 2])). reflexivity.
Qed.

Lemma save_to_correct_witness :
  let files := level_files (SaveTo (user_comparator := bw) (fst (apply_all (u := bw) (new_Builder demo_version) (replicate 7 []) demo_edits)) new_Version) 1 in
  files ≡ₚ fold_left (live_after 1) demo_edits (level_files demo_version 1) /\ StronglySorted (ordered (u := bw)) files.
Proof.
  destruct demo_base_ok as (Hk & Hs & Hn).
  apply (save_to_correct (u := bw) (laws := bytewise_laws) demo_version (replicate 7 []) demo_edits 1 ltac:(done) Hk Hs demo_edits_ok Hn demo_edits_fresh).
Defined.

Lemma save_to_disjoint_witness :
  disjoint (u := bw) (level_files (SaveTo (user_comparator := bw) (fst (apply_all (u := bw) (new_Builder demo_version) (replicate 7 []) demo_edits)) new_Version) 1).
Proof.
  destruct demo_base_ok as (Hk & Hs & Hn).
  apply (save_to_disjoint (u := bw) (laws := bytewise_laws) demo_version (replicate 7 []) demo_edits 1 ltac:(done) Hk Hs demo_edits_ok Hn demo_edits_fresh).
  - repeat constructor; try done; vm_compute; discriminate.
  - intros f g Hf Hg Hne. apply list_elem_of_In in Hf, Hg. cbn in Hf, Hg.
    repeat destruct Hf as [<-|Hf]; try done; repeat destruct Hg as [<-|Hg]; try done; (left; reflexivity) || (right; reflexivity).
Defined.
