(* ===== verification/LdbCompaction.v ===== *)
(** leveldb: which files a compaction has (db/version_set.cc, class Compaction and the
    methods of VersionSet that make one).

    [add_boundary_correct]: the search for boundary files ends, and no file of the level
    goes on with the user key at which the inputs stop.  [pick_compaction_correct],
    [compact_range_correct]: the inputs can leave their level, and those of the next level
    are the ones in their range.
    [is_base_level_correct]: along keys in order, the test says that no deeper file has
    the user key. *)

From Stdlib Require Import Sorting.Sorted SpecFloat.
From stdpp Require Import sorting.
From S2P Require Import Prelude Leb128 LdbCoding LdbStatus LdbFormat LdbIterator LdbTwoLevel LdbMerger LdbTable.
From S2P Require Import LdbVersionEdit LdbDbIter LdbVersion LdbVersionRead LdbBuilder.
Open Scope Z_scope.

(** * Scores *)

(** Doubles. *)
Definition prec : Z := 53.
Definition emax : Z := 1024.
Definition double (n : Z) : spec_float := binary_normalize prec emax n 0 false.

Definition kL0_CompactionTrigger : Z := 4.

Fixpoint max_bytes_loop (n : nat) (result : spec_float) : spec_float :=
  match n with O => result | S n => max_bytes_loop n (SFmul prec emax result (double 10)) end.

(** The loop turns [level - 1] times. *)
Definition MaxBytesForLevel (level : Z) : spec_float :=
  max_bytes_loop (Z.to_nat (level - 1)) (SFmul prec emax (double 10) (double 1048576)).

Definition level_score (v : Version) (level : Z) : spec_float :=
  if level =? 0 then SFdiv prec emax (double (num_files (level_files v level))) (double kL0_CompactionTrigger)
  else SFdiv prec emax (double (u64 (TotalFileSize (level_files v level)))) (MaxBytesForLevel level).

Definition better (v : Version) (best : Z * spec_float) (level : Z) : Z * spec_float :=
  let score := level_score v level in if SFltb (snd best) score then (level, score) else best.

Definition Finalize (v : Version) : Version :=
  let '(best_level, best_score) := fold_left (better v) (seqZ 0 (kNumLevels - 1)) (-1, minus_one) in
  mk_version (files_ v) (file_to_compact_ v) (file_to_compact_level_ v) best_score best_level.

(** * Compactions *)

Record Compaction := mk_compaction {
  level_ : Z;
  max_output_file_size_ : Z;
  input_version_ : Version;
  edit_ : VersionEdit;
  inputs_0 : list FileMetaData;
  inputs_1 : list FileMetaData;
  grandparents_ : list FileMetaData;
  grandparent_index_ : Z;
  seen_key_ : bool;
  overlapped_bytes_ : Z;
  level_ptrs_ : list Z;
}.

(** [input_version_] is set after the constructor, by each caller. *)
Definition new_Compaction (max_file_size level : Z) (v : Version) : Compaction :=
  mk_compaction level (MaxFileSizeForLevel max_file_size level) v new_VersionEdit [] [] [] 0 false 0 (replicate (Z.to_nat kNumLevels) 0).

Definition set_inputs (c : Compaction) (i0 i1 : list FileMetaData) : Compaction :=
  mk_compaction (level_ c) (max_output_file_size_ c) (input_version_ c) (edit_ c) i0 i1 (grandparents_ c)
    (grandparent_index_ c) (seen_key_ c) (overlapped_bytes_ c) (level_ptrs_ c).

Section Compaction.
Context {user_comparator : Comparator}.
Implicit Types (f : FileMetaData) (files : list FileMetaData) (v : Version).

#[local] Abbreviation icmp := (internal_compare user_comparator).

Definition wider_range (range : list byte * list byte) f : list byte * list byte :=
  (if icmp (smallest f) (fst range) <? 0 then smallest f else fst range,
   if icmp (largest f) (snd range) >? 0 then largest f else snd range).

Definition GetRange files : list byte * list byte :=
  match files with
  | [] => ([], [])
  | f :: files => fold_left wider_range files (smallest f, largest f)
  end.

Definition GetRange2 (inputs1 inputs2 : list FileMetaData) : list byte * list byte := GetRange (inputs1 ++ inputs2).

Definition larger_key (largest_key : list byte) f : list byte :=
  if icmp (largest f) largest_key >? 0 then largest f else largest_key.

Definition FindLargestKey files : option (list byte) :=
  match files with [] => None | f :: files => Some (fold_left larger_key files (largest f)) end.

Definition smaller_boundary (largest_key : list byte) (best : option FileMetaData) f : option FileMetaData :=
  if (icmp (smallest f) largest_key >? 0) && (Compare (ExtractUserKey (smallest f)) (ExtractUserKey largest_key) =? 0) then
    match best with
    | None => Some f
    | Some b => if icmp (smallest f) (smallest b) <? 0 then Some f else Some b
    end
  else best.

Definition FindSmallestBoundaryFile (level_files : list FileMetaData) (largest_key : list byte) : option FileMetaData :=
  fold_left (smaller_boundary largest_key) level_files None.

Fixpoint boundary_loop (fuel : nat) (level_files : list FileMetaData) (largest_key : list byte) (compaction_files : list FileMetaData)
    : run (list FileMetaData) :=
  match fuel with
  | O => OutOfFuel
  | S fuel =>
      match FindSmallestBoundaryFile level_files largest_key with
      | Some f => boundary_loop fuel level_files (largest f) (compaction_files ++ [f])
      | None => Done compaction_files
      end
  end.

(** Every file is found at most once. *)
Definition AddBoundaryInputs (level_files compaction_files : list FileMetaData) : run (list FileMetaData) :=
  match FindLargestKey compaction_files with
  | None => Done compaction_files
  | Some largest_key => boundary_loop (S (length level_files)) level_files largest_key compaction_files
  end.

Definition level_inputs v level (range : list byte * list byte) : run (list FileMetaData) :=
  GetOverlappingInputs (level =? 0) (level_files v level) (Some (fst range)) (Some (snd range)).

(** Growing the inputs of the level: the ranges of the level and of all, and both inputs. *)
Definition expand_inputs (max_file_size : Z) v level (range all : list byte * list byte) (inputs0 inputs1 : list FileMetaData)
    : run ((list byte * list byte) * (list byte * list byte) * list FileMetaData * list FileMetaData) :=
  expanded0 ← level_inputs v level all;
  expanded0 ← AddBoundaryInputs (level_files v level) expanded0;
  if (num_files inputs0 <? num_files expanded0) &&
     (s64 (TotalFileSize inputs1 + TotalFileSize expanded0) <? ExpandedCompactionByteSizeLimit max_file_size)
  then
    let new_range := GetRange expanded0 in
    expanded1 ← level_inputs v (level + 1) new_range;
    if num_files expanded1 =? num_files inputs1
    then Done (new_range, GetRange2 expanded0 expanded1, expanded0, expanded1)
    else Done (range, all, inputs0, inputs1)
  else Done (range, all, inputs0, inputs1).

(** The current version is the input version of [c]; with the new [compact_pointer_]. *)
Definition SetupOtherInputs (max_file_size : Z) (c : Compaction) (compact_pointer : list (list byte))
    : run (Compaction * list (list byte)) :=
  let level := level_ c in
  let v := input_version_ c in
  inputs0 ← AddBoundaryInputs (level_files v level) (inputs_0 c);
  let range := GetRange inputs0 in
  inputs1 ← level_inputs v (level + 1) range;
  let all := GetRange2 inputs0 inputs1 in
  '(range, all, inputs0, inputs1) ←
    (match inputs1 with
     | [] => Done (range, all, inputs0, inputs1)
     | _ => expand_inputs max_file_size v level range all inputs0 inputs1
     end);
  grandparents ← (if level + 2 <? kNumLevels then level_inputs v (level + 2) all else Done (grandparents_ c));
  Done (mk_compaction level (max_output_file_size_ c) v (SetCompactPointer (edit_ c) level (snd range)) inputs0 inputs1 grandparents
          (grandparent_index_ c) (seen_key_ c) (overlapped_bytes_ c) (level_ptrs_ c),
        <[Z.to_nat level := snd range]> compact_pointer).

(** The first file after the compaction pointer, or the first file. *)
Definition first_input v level (pointer : list byte) : run FileMetaData :=
  match List.find (fun f => match pointer with [] => true | _ => icmp (largest f) pointer >? 0 end) (level_files v level) with
  | Some f => Done f
  | None => file_at (level_files v level) 0
  end.

Definition PickCompaction (max_file_size : Z) v (compact_pointer : list (list byte)) : run (option Compaction * list (list byte)) :=
  let setup level f :=
    let c := new_Compaction max_file_size level v in
    inputs0 ← (if level =? 0 then level_inputs v 0 (GetRange [f]) else Done [f]);
    '(c, compact_pointer) ← SetupOtherInputs max_file_size (set_inputs c inputs0 []) compact_pointer;
    Done (Some c, compact_pointer) in
  if SFleb (double 1) (compaction_score_ v) then
    let level := compaction_level_ v in
    f ← first_input v level (default [] (compact_pointer !! Z.to_nat level));
    setup level f
  else
    match file_to_compact_ v with
    | Some f => setup (file_to_compact_level_ v) f
    | None => Done (None, compact_pointer)
    end.

(** The files until their sizes reach the limit. *)
Fixpoint cut_inputs (limit total : Z) files : list FileMetaData :=
  match files with
  | [] => []
  | f :: files =>
      let total := u64 (total + file_size f) in
      if total >=? limit then [f] else f :: cut_inputs limit total files
  end.

Definition CompactRange (max_file_size : Z) v (compact_pointer : list (list byte)) level (begin end_ : option (list byte))
    : run (option Compaction * list (list byte)) :=
  inputs ← GetOverlappingInputs (level =? 0) (level_files v level) begin end_;
  match inputs with
  | [] => Done (None, compact_pointer)
  | _ =>
      let inputs := if level >? 0 then cut_inputs (MaxFileSizeForLevel max_file_size level) 0 inputs else inputs in
      '(c, compact_pointer) ← SetupOtherInputs max_file_size (set_inputs (new_Compaction max_file_size level v) inputs []) compact_pointer;
      Done (Some c, compact_pointer)
  end.

Definition IsTrivialMove (max_file_size : Z) (c : Compaction) : bool :=
  (num_files (inputs_0 c) =? 1) && (num_files (inputs_1 c) =? 0) &&
  (TotalFileSize (grandparents_ c) <=? MaxGrandParentOverlapBytes max_file_size).

Definition AddInputDeletions (c : Compaction) (edit : VersionEdit) : VersionEdit :=
  let edit := fold_left (fun e f => DeleteFile e (level_ c) (number f)) (inputs_0 c) edit in
  fold_left (fun e f => DeleteFile e (level_ c + 1) (number f)) (inputs_1 c) edit.

(** The inner loop: whether the key falls in the range of a file, and the new pointer. *)
Fixpoint base_level_loop (fuel : nat) files (user_key : list byte) (ptr : Z) : run (bool * Z) :=
  match fuel with
  | O => OutOfFuel
  | S fuel =>
      if ptr <? num_files files then
        f ← file_at files ptr;
        if Compare user_key (ExtractUserKey (largest f)) <=? 0
        then Done (Compare user_key (ExtractUserKey (smallest f)) >=? 0, ptr)
        else base_level_loop fuel files user_key (u64 (ptr + 1))
      else Done (false, ptr)
  end.

(** The outer loop, from level [lvl] on. *)
Fixpoint base_levels (n : nat) v (lvl : Z) (user_key : list byte) (ptrs : list Z) : run (bool * list Z) :=
  match n with
  | O => Done (true, ptrs)
  | S n =>
      let files := level_files v lvl in
      '(falls, ptr) ← base_level_loop (S (length files)) files user_key (default 0 (ptrs !! Z.to_nat lvl));
      let ptrs := <[Z.to_nat lvl := ptr]> ptrs in
      if (falls : bool) then Done (false, ptrs) else base_levels n v (lvl + 1) user_key ptrs
  end.

Definition set_ptrs (c : Compaction) (ptrs : list Z) : Compaction :=
  mk_compaction (level_ c) (max_output_file_size_ c) (input_version_ c) (edit_ c) (inputs_0 c) (inputs_1 c) (grandparents_ c)
    (grandparent_index_ c) (seen_key_ c) (overlapped_bytes_ c) ptrs.

Definition IsBaseLevelForKey (c : Compaction) (user_key : list byte) : run (bool * Compaction) :=
  '(base, ptrs) ← base_levels (Z.to_nat (kNumLevels - (level_ c + 2))) (input_version_ c) (level_ c + 2) user_key (level_ptrs_ c);
  Done (base, set_ptrs c ptrs).

Fixpoint stop_loop (fuel : nat) (grandparents : list FileMetaData) (internal_key : list byte) (seen : bool) (index bytes : Z) : run (Z * Z) :=
  match fuel with
  | O => OutOfFuel
  | S fuel =>
      if index <? num_files grandparents then
        f ← file_at grandparents index;
        if icmp internal_key (largest f) >? 0
        then stop_loop fuel grandparents internal_key seen (u64 (index + 1)) (if seen then s64 (bytes + file_size f) else bytes)
        else Done (index, bytes)
      else Done (index, bytes)
  end.

Definition ShouldStopBefore (max_file_size : Z) (c : Compaction) (internal_key : list byte) : run (bool * Compaction) :=
  '(index, bytes) ← stop_loop (S (length (grandparents_ c))) (grandparents_ c) internal_key (seen_key_ c)
    (grandparent_index_ c) (overlapped_bytes_ c);
  let stop := bytes >? MaxGrandParentOverlapBytes max_file_size in
  Done (stop, mk_compaction (level_ c) (max_output_file_size_ c) (input_version_ c) (edit_ c) (inputs_0 c) (inputs_1 c) (grandparents_ c)
    index true (if stop then 0 else bytes) (level_ptrs_ c)).

(** ** The iterator over the inputs *)

Context {T I : Type} `{Iterator I} `{TableCache T I}.

Definition level_input (options : ReadOptions) (lvl : Z) files (cache : T) : run (list (I + ConcatenatingIterator T I) * T) :=
  match files with
  | [] => Done ([], cache)
  | _ =>
      if lvl =? 0 then table_iterators options files cache
      else it ← NewTwoLevelIterator (new_LevelFileNumIterator files) cache; Done ([inr it], cache)
  end.

Definition MakeInputIterator (paranoid_checks : bool) (fuel : nat) (c : Compaction) (cache : T)
    : run (merged_iterator (I + ConcatenatingIterator T I) * T) :=
  let options := mk_read_options paranoid_checks false in
  '(list0, cache) ← level_input options (level_ c) (inputs_0 c) cache;
  '(list1, cache) ← level_input options (level_ c + 1) (inputs_1 c) cache;
  it ← @NewMergingIterator _ (@sum_iterator I (ConcatenatingIterator T I) _ (concatenating_iterator options fuel)) (list0 ++ list1);
  Done (it, cache).
End Compaction.


(** * Boundary files *)

Section Correct.
Context {u : Comparator} {uvalid : list byte -> Prop} {laws : ComparatorLaws uvalid u}.
Implicit Types (f g : FileMetaData) (files : list FileMetaData) (v : Version).

#[local] Abbreviation icomparator := (InternalKeyComparator u).
#[local] Abbreviation icmp := (internal_compare u).
#[local] Abbreviation ivalid := (ivalid (valid := uvalid)).
#[local] Abbreviation start f := (ExtractUserKey (smallest f)).
#[local] Abbreviation limit f := (ExtractUserKey (largest f)).
#[local] Abbreviation okf := (file_ok (u := u) (uvalid := uvalid)).

(** [f] goes on with the user key of [k]. *)
Definition boundary (k : list byte) f : bool := (icmp (smallest f) k >? 0) && (Compare (start f) (ExtractUserKey k) =? 0).

Lemma smaller_boundary_eq k best f : smaller_boundary (user_comparator := u) k best f =
  if boundary k f then match best with None => Some f | Some b => if icmp (smallest f) (smallest b) <? 0 then Some f else Some b end else best.
Proof. reflexivity. Qed.

Lemma boundary_fold k files : forall best, match fold_left (smaller_boundary (user_comparator := u) k) files best with
  | Some f => (f ∈ files /\ boundary k f = true) \/ best = Some f
  | None => best = None /\ forall f, f ∈ files -> boundary k f = false
  end.
Proof.
  induction files as [|f files IH]; intros best; cbn [fold_left]; [destruct best; [by right|split; [done|by intros f ?%not_elem_of_nil]]|].
  rewrite smaller_boundary_eq. destruct (boundary k f) eqn:E.
  - destruct best as [b|]; [destruct (icmp (smallest f) (smallest b) <? 0)|];
      match goal with |- context [fold_left _ files ?B] => specialize (IH B) end; destruct (fold_left _ files _) as [r|] eqn:Er;
      try (by destruct IH as [? _]); destruct IH as [[Hr Hb]|[= ->]]; try (left; split; [by right|done]);
      try (left; split; [left|done]); by right.
  - specialize (IH best). destruct (fold_left _ files best) as [r|].
    + destruct IH as [[Hr Hb]|]; [left; split; [by right|done]|by right].
    + destruct IH as [-> Hall]. split; [done|]. intros g [->|Hg]%elem_of_cons; [done|auto].
Qed.

Lemma boundary_some k files f : FindSmallestBoundaryFile (user_comparator := u) files k = Some f -> f ∈ files /\ boundary k f = true.
Proof. intros E. pose proof (boundary_fold k files None) as Hb. unfold FindSmallestBoundaryFile in E. rewrite E in Hb. by destruct Hb as [|]. Qed.

Lemma boundary_none k files : FindSmallestBoundaryFile (user_comparator := u) files k = None -> forall f, f ∈ files -> boundary k f = false.
Proof. intros E. pose proof (boundary_fold k files None) as Hb. unfold FindSmallestBoundaryFile in E. rewrite E in Hb. by destruct Hb as [_ Hb]. Qed.

Lemma boundary_gt k f : boundary k f = true -> 0 < icmp (smallest f) k.
Proof. intros [Hg _]%andb_prop. by apply Z.gtb_lt in Hg. Qed.

Lemma boundary_above k f : ivalid k -> okf f -> boundary k f = true -> icmp k (largest f) < 0.
Proof.
  intros Hk (Hs & Hl & Hle) Hb%boundary_gt. apply (cmp_trans_lt (c := icomparator) k (smallest f) (largest f)); [done..| |done].
  by apply (cmp_lt_gt (c := icomparator) k (smallest f)).
Qed.

(** The files that start after [k]. *)
Definition later (k : list byte) f : bool := icmp (smallest f) k >? 0.

(** The search ends: the end of a found file is not below its start. *)
Lemma boundary_loop_ok files : Forall okf files -> forall fuel k inputs, ivalid k -> (length (List.filter (later k) files) < fuel)%nat ->
  exists added k', boundary_loop (user_comparator := u) fuel files k inputs = Done (inputs ++ added) /\ (forall f, f ∈ added -> f ∈ files) /\
    ivalid k' /\ icmp k k' <= 0 /\ (forall f, f ∈ added -> icmp (largest f) k' <= 0) /\
    (k' = k /\ added = [] \/ exists f, f ∈ added /\ largest f = k') /\
    forall f, f ∈ files -> boundary k' f = false.
Proof.
  intros Hok. induction fuel as [|fuel IH]; intros k inputs Hk Hf; [lia|]. cbn [boundary_loop].
  destruct (FindSmallestBoundaryFile files k) as [f|] eqn:E.
  - apply boundary_some in E as [Hin Hb]. pose proof Hok as Hok'. rewrite list.Forall_forall in Hok'. pose proof (Hok' f Hin) as Hff.
    pose proof (boundary_above k f Hk Hff Hb) as Hlt. destruct Hff as (Hvs & Hvl & Hle).
    destruct (IH (largest f) (inputs ++ [f]) Hvl) as (added & k' & -> & Hsub & Hvk' & Hkk' & Hall & Hlast & Hnone).
    + enough (length (List.filter (later (largest f)) files) < length (List.filter (later k) files))%nat by lia. apply filter_length_lt.
      * intros g Hg Hl%Z.gtb_lt. apply Z.gtb_lt. destruct (Hok' g Hg) as (Hvg & _).
        apply (cmp_lt_gt (c := icomparator) k (smallest g)); [done..|].
        apply (cmp_trans_lt (c := icomparator) k (largest f)); [done..|]. apply Z.lt_le_incl.
        by apply (cmp_lt_gt (c := icomparator) (largest f) (smallest g)).
      * exists f. split; [done|]. split; [by apply Z.gtb_lt, boundary_gt|]. unfold later. rewrite Z.gtb_ltb. apply Z.ltb_ge. done.
    + exists (f :: added), k'. rewrite <- app_assoc. split; [done|]. split; [by intros g [->|Hg]%elem_of_cons; [|apply Hsub]|]. split; [done|].
      split; [by apply (cmp_trans (c := icomparator) k (largest f)); auto; apply Z.lt_le_incl|].
      split; [by intros g [->|Hg]%elem_of_cons; [|apply Hall]|]. split; [|done]. right.
      destruct Hlast as [[-> ->]|(g & Hg & <-)]; [exists f; split; [left|done]|exists g; split; [by right|done]].
  - exists [], k. rewrite app_nil_r. split; [done|]. split; [by intros f ?%not_elem_of_nil|]. split; [done|].
    pose proof (cmp_refl (c := icomparator) k Hk) as Hr. cbn in Hr. split; [lia|]. split; [by intros f ?%not_elem_of_nil|].
    split; [by left|]. by apply boundary_none.
Qed.

(** [k] is the largest key of [files]. *)
Definition largest_of files (k : list byte) : Prop := (exists f, f ∈ files /\ largest f = k) /\ forall f, f ∈ files -> icmp (largest f) k <= 0.

Lemma larger_fold files : Forall okf files -> forall k, ivalid k ->
  let k' := fold_left (larger_key (user_comparator := u)) files k in
  ivalid k' /\ icmp k k' <= 0 /\ (forall f, f ∈ files -> icmp (largest f) k' <= 0) /\ (k' = k \/ exists f, f ∈ files /\ largest f = k').
Proof.
  intros Hok. induction Hok as [|f files (Hvs & Hvl & Hle) Hok IH]; intros k Hk; cbn [fold_left].
  - pose proof (cmp_refl (c := icomparator) k Hk) as Hr. cbn in Hr. split; [done|]. split; [lia|]. split; [by intros f ?%not_elem_of_nil|by left].
  - assert (ivalid (larger_key k f) /\ icmp k (larger_key k f) <= 0 /\ icmp (largest f) (larger_key k f) <= 0 /\
      (larger_key k f = k \/ larger_key k f = largest f)) as (G1 & G2 & G3 & G4).
    { unfold larger_key. pose proof (cmp_refl (c := icomparator) k Hk) as Hr. pose proof (cmp_refl (c := icomparator) _ Hvl) as Hr'. cbn in Hr, Hr'.
      destruct (Z.gtb_spec (icmp (largest f) k) 0) as [Hgt|Hngt].
      - split; [done|]. split; [|split; [lia|by right]]. apply Z.lt_le_incl. by apply (cmp_lt_gt (c := icomparator) k (largest f)).
      - split; [done|]. split; [lia|]. split; [lia|by left]. }
    destruct (IH (larger_key k f) G1) as (I1 & I2 & I3 & I4). split; [done|].
    split; [by apply (cmp_trans (c := icomparator) k (larger_key k f))|]. split.
    + intros g [->|Hg]%elem_of_cons; [by apply (cmp_trans (c := icomparator) _ (larger_key k f))|auto].
    + destruct I4 as [->|(g & Hg & <-)]; [|right; exists g; split; [by right|done]].
      destruct G4 as [->| ->]; [by left|right; exists f; split; [left|done]].
Qed.

Lemma FindLargestKey_ok files : Forall okf files -> files <> [] ->
  exists k, FindLargestKey (user_comparator := u) files = Some k /\ ivalid k /\ largest_of files k.
Proof.
  intros Hok Hne. destruct files as [|f files]; [done|]. apply List.Forall_cons_iff in Hok as [(Hvs & Hvl & Hle) Hok].
  cbn [FindLargestKey]. destruct (larger_fold files Hok (largest f) Hvl) as (G1 & G2 & G3 & G4). eexists. split; [reflexivity|].
  split; [done|]. split.
  - destruct G4 as [->|(g & Hg & <-)]; [exists f; split; [left|done]|exists g; split; [by right|done]].
  - intros g [->|Hg]%elem_of_cons; auto.
Qed.

Lemma AddBoundaryInputs_ok level_files files : Forall okf level_files -> Forall okf files -> files <> [] ->
  exists added k, AddBoundaryInputs (user_comparator := u) level_files files = Done (files ++ added) /\ (forall f, f ∈ added -> f ∈ level_files) /\
    ivalid k /\ largest_of (files ++ added) k /\ forall f, f ∈ level_files -> boundary k f = false.
Proof.
  intros Hokl Hok Hne. unfold AddBoundaryInputs. destruct (FindLargestKey_ok files Hok Hne) as (k & -> & Hk & [(f & Hf & Ef) Hmax]).
  destruct (boundary_loop_ok level_files Hokl (S (length level_files)) k files Hk) as (added & k' & -> & Hsub & Hk' & Hle & Hall & Hlast & Hnone).
  { pose proof (filter_length_le (later k) level_files). lia. }
  exists added, k'. split; [done|]. split; [done|]. split; [done|]. split; [|done]. split.
  - destruct Hlast as [[-> ->]|(g & Hg & <-)]; [exists f; rewrite app_nil_r; done|exists g; rewrite elem_of_app; auto].
  - rewrite list.Forall_forall in Hok. intros g [Hg|Hg]%elem_of_app; [|auto]. destruct (Hok g Hg) as (_ & Hvg & _).
    apply (cmp_trans (c := icomparator) _ k); [done..|by apply Hmax|done].
Qed.

(** The search for boundary files ends, adds only files of the level, and leaves no
    file of the level that goes on with the user key at which the largest input ends. *)
Theorem add_boundary_correct level_files files : Forall okf level_files -> Forall okf files -> files <> [] ->
  exists added k, AddBoundaryInputs (user_comparator := u) level_files files = Done (files ++ added) /\ (forall f, f ∈ added -> f ∈ level_files) /\
    largest_of (files ++ added) k /\
    forall f, f ∈ level_files -> 0 < icmp (smallest f) k -> Compare (start f) (ExtractUserKey k) <> 0.
Proof.
  intros Hokl Hok Hne. destruct (AddBoundaryInputs_ok level_files files Hokl Hok Hne) as (added & k & E & Hsub & _ & Hmax & Hnone).
  exists added, k. split; [done|]. split; [done|]. split; [done|]. intros f Hf Hgt Heq. specialize (Hnone f Hf). unfold boundary in Hnone.
  rewrite (proj2 (Z.gtb_lt _ _) Hgt), Heq in Hnone. done.
Qed.

(** The boundary file that is found is the first. *)
Lemma boundary_least k files : Forall okf files -> forall best, (forall b, best = Some b -> ivalid (smallest b)) ->
  match fold_left (smaller_boundary (user_comparator := u) k) files best with
  | Some f => ivalid (smallest f) /\ (forall g, g ∈ files -> boundary k g = true -> icmp (smallest f) (smallest g) <= 0) /\
      forall b, best = Some b -> icmp (smallest f) (smallest b) <= 0
  | None => True
  end.
Proof.
  intros Hok. induction Hok as [|f files (Hvs & _) Hok IH]; intros best Hbest; cbn [fold_left].
  - destruct best as [b|]; [|done]. specialize (Hbest b eq_refl). pose proof (cmp_refl (c := icomparator) _ Hbest) as Hr. cbn in Hr.
    split; [done|]. split; [by intros g ?%not_elem_of_nil|]. intros b' [= <-]. lia.
  - rewrite smaller_boundary_eq. pose proof (cmp_refl (c := icomparator) _ Hvs) as Hr. cbn in Hr.
    set (best' := if boundary k f then _ else best).
    assert ((forall b, best' = Some b -> ivalid (smallest b)) /\ (boundary k f = true -> exists b, best' = Some b /\ icmp (smallest b) (smallest f) <= 0) /\
      forall b, best = Some b -> exists b', best' = Some b' /\ icmp (smallest b') (smallest b) <= 0) as (G1 & G2 & G3).
    { unfold best'. destruct (boundary k f).
      - destruct best as [b|]; [specialize (Hbest b eq_refl); pose proof (cmp_refl (c := icomparator) _ Hbest) as Hr'; cbn in Hr';
          destruct (Z.ltb_spec (icmp (smallest f) (smallest b)) 0) as [Hlt|Hge]|].
        + split; [by intros b' [= <-]|]. split; [intros _; exists f; split; [done|lia]|]. intros b' [= <-]. exists f. split; [done|lia].
        + split; [by intros b' [= <-]|]. split; [intros _; exists b; split; [done|]|intros b' [= <-]; exists b; split; [done|lia]].
          by apply (cmp_le_ge (c := icomparator) (smallest b)).
        + split; [by intros b' [= <-]|]. split; [intros _; exists f; split; [done|lia]|done].
      - split; [done|]. split; [done|]. intros b Eb. exists b. split; [done|]. specialize (Hbest b Eb).
        pose proof (cmp_refl (c := icomparator) _ Hbest) as Hr'. cbn in Hr'. lia. }
    specialize (IH best' G1). destruct (fold_left _ files best') as [r|]; [|done]. destruct IH as (I0 & I1 & I2). split; [done|]. split.
    + intros g [->|Hg]%elem_of_cons Hb; [|auto]. destruct (G2 Hb) as (b & Eb & Hle).
      apply (cmp_trans (c := icomparator) _ (smallest b)); auto. by apply (I2 b).
    + intros b Eb. destruct (G3 b Eb) as (b' & Eb' & Hle). apply (cmp_trans (c := icomparator) _ (smallest b')); auto. by apply (I2 b').
Qed.

Lemma disjoint_app files files' : disjoint (u := u) (files ++ files') <->
  (forall f g, f ∈ files -> g ∈ files' -> icmp (largest f) (smallest g) < 0) /\ disjoint (u := u) files /\ disjoint (u := u) files'.
Proof.
  unfold disjoint. rewrite StronglySorted_app. done.
Qed.

(** The files of a disjoint level before and after inputs that are a run of them. *)
Lemma boundary_run pre files post : Forall okf (pre ++ files ++ post) -> disjoint (u := u) (pre ++ files ++ post) ->
  forall k, ivalid k -> largest_of files k ->
  match FindSmallestBoundaryFile (user_comparator := u) (pre ++ files ++ post) k with
  | Some f => exists post', post = f :: post' /\ boundary k f = true
  | None => forall g, g ∈ post -> Compare (ExtractUserKey k) (start g) < 0
  end.
Proof.
  intros Hok Hd k Hk [(l & Hl & El) Hmax]. pose proof Hok as Hok'. rewrite list.Forall_forall in Hok'.
  apply disjoint_app in Hd as (Hpre & _ & Hd). apply disjoint_app in Hd as (Hpost & _ & Hd).
  assert (forall g, g ∈ post -> ivalid (smallest g) /\ icmp k (smallest g) < 0) as Hafter.
  { intros g Hg. destruct (Hok' g) as (Hvg & _); [rewrite !elem_of_app; tauto|]. split; [done|]. rewrite <- El. by apply Hpost. }
  assert (forall g, g ∈ pre ++ files -> boundary k g = false) as Hbefore.
  { intros g Hg. assert (okf g) as (Hvs & Hvl & Hle) by (apply Hok'; rewrite !elem_of_app in *; tauto).
    apply not_true_is_false. intros Hb%boundary_gt.
    assert (icmp (largest g) k <= 0) as Hgk.
    { apply elem_of_app in Hg as [Hg|Hg]; [|by apply Hmax].
      destruct (Hok' l) as (Hvl' & Hvll & Hle'); [rewrite !elem_of_app; tauto|].
      rewrite <- El. apply (cmp_trans (c := icomparator) _ (smallest l)); auto. apply Z.lt_le_incl, Hpre; [done|]. rewrite elem_of_app. tauto. }
    pose proof (cmp_trans (c := icomparator) _ _ k Hvs Hvl Hk Hle Hgk) as Hc. cbn in Hc. lia. }
  pose proof (boundary_least k (pre ++ files ++ post) Hok None ltac:(done)) as Hleast.
  destruct (FindSmallestBoundaryFile (pre ++ files ++ post) k) as [f|] eqn:E.
  - pose proof E as E'. unfold FindSmallestBoundaryFile in E'. rewrite E' in Hleast. apply boundary_some in E as [Hin Hb].
    rewrite app_assoc, elem_of_app in Hin. destruct Hin as [Hin|Hin]; [by rewrite Hbefore in Hb|].
    destruct post as [|h post]; [by apply not_elem_of_nil in Hin|]. exists post. split; [|done]. f_equal.
    apply elem_of_cons in Hin as [->|Hin]; [done|]. exfalso. destruct Hleast as (Hvf & Hleast & _).
    destruct (Hafter h ltac:(left)) as [Hvh Hkh]. pose proof (Hok' h ltac:(rewrite !elem_of_app; right; right; left)) as (_ & Hvlh & Hleh).
    inversion_clear Hd as [|? ? _ Hall]. rewrite list.Forall_forall in Hall. pose proof (Hall f Hin) as Hhf. cbn in Hhf.
    pose proof (cmp_trans_lt_r (c := icomparator) _ _ _ Hvh Hvlh Hvf Hleh Hhf) as Hlt. cbn in Hlt.
    assert (boundary k h = true) as Hbh.
    { apply andb_true_intro. split; [apply Z.gtb_lt; by apply (cmp_lt_gt (c := icomparator) k)|]. apply Z.eqb_eq.
      apply andb_prop in Hb as [_ Hu%Z.eqb_eq]. destruct Hk as [_ Hvk], Hvh as [_ Hvh], Hvf as [_ Hvf]. apply icmp_lt in Hkh, Hlt.
      apply Z.le_antisymm; [apply (cmp_trans _ (start f)); auto; lia|]. apply cmp_le_ge; auto. lia. }
    pose proof (Hleast h ltac:(rewrite !elem_of_app; right; right; left) Hbh) as Hc.
    pose proof (cmp_lt_gt (c := icomparator) _ _ Hvh Hvf) as Hanti. cbn in Hanti. lia.
  - intros g Hg. pose proof (boundary_none k _ E g) as Hb. destruct (Hafter g Hg) as [Hvg Hkg]. specialize (Hb ltac:(rewrite !elem_of_app; tauto)).
    unfold boundary in Hb. rewrite (proj2 (Z.gtb_lt _ _)) in Hb by (by apply (cmp_lt_gt (c := icomparator) k)). cbn [andb] in Hb.
    apply Z.eqb_neq in Hb. apply icmp_lt in Hkg. destruct Hk as [_ Hvk], Hvg as [_ Hvg]. pose proof (cmp_antisym (ExtractUserKey k) (start g) Hvk Hvg). lia.
Qed.

Lemma boundary_loop_run pre fuel : forall files post k, Forall okf (pre ++ files ++ post) -> disjoint (u := u) (pre ++ files ++ post) ->
  ivalid k -> largest_of files k -> (length post < fuel)%nat ->
  exists added post', boundary_loop (user_comparator := u) fuel (pre ++ files ++ post) k files = Done (files ++ added) /\ post = added ++ post' /\
    forall f g, f ∈ files ++ added -> g ∈ post' -> Compare (limit f) (start g) < 0.
Proof.
  induction fuel as [|fuel IH]; intros files post k Hok Hd Hk Hmax Hf; [lia|]. cbn [boundary_loop].
  pose proof (boundary_run pre files post Hok Hd k Hk Hmax) as Hrun.
  destruct (FindSmallestBoundaryFile (pre ++ files ++ post) k) as [f|].
  - destruct Hrun as (post' & -> & Hb). assert (pre ++ files ++ f :: post' = pre ++ (files ++ [f]) ++ post') as Eapp by (by rewrite <- app_assoc).
    rewrite Eapp in *. assert (okf f) as Hff by (rewrite list.Forall_forall in Hok; apply Hok; rewrite !elem_of_app; right; left; right; left).
    pose proof (boundary_above k f Hk Hff Hb) as Hlt. destruct Hff as (Hvs & Hvl & Hle).
    destruct (IH (files ++ [f]) post' (largest f) Hok Hd Hvl) as (added & post'' & -> & -> & Hend).
    + destruct Hmax as [_ Hmax]. split; [exists f; split; [rewrite elem_of_app; right; left|done]|].
      intros g [Hg|Hg]%elem_of_app; [|apply list_elem_of_singleton in Hg as ->; pose proof (cmp_refl (c := icomparator) _ Hvl) as Hr; cbn in Hr; lia].
      assert (okf g) as (_ & Hvg & _) by (rewrite list.Forall_forall in Hok; apply Hok; rewrite !elem_of_app; tauto).
      apply (cmp_trans (c := icomparator) _ k); [done|done|done|by apply Hmax|by apply Z.lt_le_incl].
    + cbn in Hf. lia.
    + exists (f :: added), post''. rewrite <- app_assoc in Hend |- *. done.
  - exists [], post. rewrite app_nil_r. split; [done|]. split; [done|]. intros f g Hf' Hg. specialize (Hrun g Hg). destruct Hmax as [_ Hmax].
    pose proof (Hmax f Hf') as Hle. apply icmp_le in Hle. rewrite list.Forall_forall in Hok.
    destruct (Hok f) as (_ & [_ Hvf] & _); [rewrite !elem_of_app; tauto|]. destruct (Hok g) as ([_ Hvg] & _); [rewrite !elem_of_app; tauto|].
    destruct Hk as [_ Hvk]. apply (cmp_trans_lt_r _ (ExtractUserKey k)); auto. lia.
Qed.

Lemma AddBoundaryInputs_run pre files post : Forall okf (pre ++ files ++ post) -> disjoint (u := u) (pre ++ files ++ post) -> files <> [] ->
  exists added post', AddBoundaryInputs (user_comparator := u) (pre ++ files ++ post) files = Done (files ++ added) /\ post = added ++ post' /\
    forall f g, f ∈ files ++ added -> g ∈ post' -> Compare (limit f) (start g) < 0.
Proof.
  intros Hok Hd Hne. assert (Forall okf files) as Hokf by (rewrite !List.Forall_app in Hok; tauto).
  unfold AddBoundaryInputs. destruct (FindLargestKey_ok files Hokf Hne) as (k & -> & Hk & Hmax).
  apply boundary_loop_run; [done..|]. rewrite !length_app. lia.
Qed.

(** ** Ranges *)

(** [range] is the least around the files. *)
Definition range_of files (range : list byte * list byte) : Prop :=
  ivalid (fst range) /\ ivalid (snd range) /\
  (forall f, f ∈ files -> icmp (fst range) (smallest f) <= 0 /\ icmp (largest f) (snd range) <= 0) /\
  (exists f, f ∈ files /\ smallest f = fst range) /\ exists f, f ∈ files /\ largest f = snd range.

Lemma wider_range_ok files f range : Forall okf files -> okf f -> range_of files range -> range_of (files ++ [f]) (wider_range (user_comparator := u) range f).
Proof.
  intros Hok (Hvs & Hvl & Hle) (Ha & Hb & Hall & (g & Hg & Eg) & (h & Hh & Eh)). destruct range as [a b]. unfold wider_range. cbn [fst snd] in *.
  assert (forall x, ivalid x -> icmp x x <= 0) as Hrefl by (intros x Hx; pose proof (cmp_refl (c := icomparator) x Hx) as Hr; cbn in Hr; lia).
  set (a' := if icmp (smallest f) a <? 0 then smallest f else a). set (b' := if icmp (largest f) b >? 0 then largest f else b).
  assert (ivalid a' /\ icmp a' a <= 0 /\ icmp a' (smallest f) <= 0 /\ exists g, g ∈ files ++ [f] /\ smallest g = a') as (A1 & A2 & A3 & A4).
  { unfold a'. destruct (Z.ltb_spec (icmp (smallest f) a) 0) as [Hlt|Hge].
    - split; [done|]. split; [lia|]. split; [auto|]. exists f. rewrite elem_of_app. split; [right; left|done].
    - split; [done|]. split; [auto|]. split; [by apply (cmp_le_ge (c := icomparator) a)|]. exists g. by rewrite elem_of_app; auto. }
  assert (ivalid b' /\ icmp b b' <= 0 /\ icmp (largest f) b' <= 0 /\ exists g, g ∈ files ++ [f] /\ largest g = b') as (B1 & B2 & B3 & B4).
  { unfold b'. destruct (Z.gtb_spec (icmp (largest f) b) 0) as [Hgt|Hng].
    - split; [done|]. split; [apply Z.lt_le_incl; by apply (cmp_lt_gt (c := icomparator) b)|]. split; [auto|].
      exists f. rewrite elem_of_app. split; [right; left|done].
    - split; [done|]. split; [auto|]. split; [lia|]. exists h. by rewrite elem_of_app; auto. }
  split; [done|]. split; [done|]. split; [|by split].
  intros x [Hx|Hx]%elem_of_app; [|apply list_elem_of_singleton in Hx as ->; by split].
  rewrite list.Forall_forall in Hok. destruct (Hok x Hx) as (Hvx & Hvx' & _), (Hall x Hx) as [H1 H2].
  split; [by apply (cmp_trans (c := icomparator) _ a)|by apply (cmp_trans (c := icomparator) _ b)].
Qed.

Lemma GetRange_ok files : Forall okf files -> files <> [] -> range_of files (GetRange (user_comparator := u) files).
Proof.
  intros Hok Hne. destruct files as [|f files]; [done|]. apply List.Forall_cons_iff in Hok as [Hf Hok]. cbn [GetRange].
  assert (range_of [f] (smallest f, largest f)) as Hone.
  { destruct Hf as (Hvs & Hvl & Hle). split; [done|]. split; [done|]. cbn [fst snd].
    assert (forall x, ivalid x -> icmp x x <= 0) as Hrefl by (intros x Hx; pose proof (cmp_refl (c := icomparator) x Hx) as Hr; cbn in Hr; lia).
    split; [intros x ->%list_elem_of_singleton; auto|]. split; exists f; by rewrite list_elem_of_singleton. }
  change (f :: files) with ([f] ++ files). assert (Forall okf [f]) as Hok1 by (by constructor). clear Hf Hne. revert Hok1 Hone.
  generalize [f], (smallest f, largest f) as range.
  induction Hok as [|g files Hg Hok IH]; intros before range Hb Hr; cbn [fold_left]; [by rewrite app_nil_r|].
  change (g :: files) with ([g] ++ files). rewrite app_assoc. apply IH; [apply List.Forall_app; split; [done|by constructor]|by apply wider_range_ok].
Qed.

(** A file is in the user keys of the range of the files it belongs to. *)
Lemma range_overlaps files range f : Forall okf files -> range_of files range -> f ∈ files ->
  overlaps (u := u) (Some (ExtractUserKey (fst range))) (Some (ExtractUserKey (snd range))) f = true.
Proof.
  intros Hok ([_ Ha] & [_ Hb] & Hall & _) Hf. rewrite list.Forall_forall in Hok. destruct (file_range f (Hok f Hf)) as (Hs & Hl & Hle).
  destruct (Hall f Hf) as [H1 H2]. apply icmp_le in H1, H2. unfold overlaps. apply andb_true_intro. split; apply negb_true_iff.
  - apply Z.ltb_ge, cmp_le_ge; auto. apply (cmp_trans _ (start f)); auto; lia.
  - rewrite Z.gtb_ltb. apply Z.ltb_ge. apply (cmp_trans _ (limit f)); auto; lia.
Qed.

(** ** Runs of files *)

Lemma filter_none {A} (p : A -> bool) (l : list A) : (forall x, x ∈ l -> p x = false) -> List.filter p l = [].
Proof. induction l as [|x l IH]; intros Hp; [done|]. cbn [List.filter]. rewrite Hp by left. apply IH. intros y Hy. apply Hp. by right. Qed.

(** A filter that holds from some file on, and another that holds up to some file. *)
Lemma filter_run {A} (R : A -> A -> Prop) (q r : A -> bool) (l : list A) : StronglySorted R l ->
  (forall x y, x ∈ l -> y ∈ l -> R x y -> q x = true -> q y = true) -> (forall x y, x ∈ l -> y ∈ l -> R x y -> r y = true -> r x = true) ->
  exists pre post, l = pre ++ List.filter (fun x => q x && r x) l ++ post.
Proof.
  intros Hs Hq Hr. induction Hs as [|x l Hs IH Hall]; [by exists [], []|]. rewrite list.Forall_forall in Hall.
  destruct IH as (pre & post & El); [intros; eapply Hq; eauto; by right|intros; eapply Hr; eauto; by right|].
  cbn [List.filter]. destruct (q x && r x) eqn:E.
  - apply andb_prop in E as [Eq Er]. exists [], (List.filter (fun y => negb (r y)) l). cbn [app]. f_equal.
    assert (forall l', (forall y, y ∈ l' -> y ∈ l) -> StronglySorted R l' -> l' = List.filter (fun y => q y && r y) l' ++ List.filter (fun y => negb (r y)) l') as Hsplit; [|by apply Hsplit].
    clear pre post El. induction l' as [|y l' IH]; intros Hsub Hs'; [done|]. apply StronglySorted_inv in Hs' as [Hs' Hall'].
    cbn [List.filter]. assert (q y = true) as -> by (apply (Hq x); [left|right; apply Hsub; left|apply Hall, Hsub; left|done]).
    destruct (r y) eqn:Ery; cbn [andb negb].
    + cbn [app]. f_equal. apply IH; [|done]. intros z Hz. apply Hsub. by right.
    + assert (forall z, z ∈ l' -> r z = false) as Hnone.
      { intros z Hz. apply not_true_is_false. intros Hz'. rewrite list.Forall_forall in Hall'.
        rewrite (Hr y z) in Ery; [done|right; apply Hsub; left|right; apply Hsub; by right|by apply Hall'|done]. }
      rewrite filter_none, (filter_true _ l'); [done| |]; intros z Hz; rewrite Hnone by done; [done|by rewrite andb_false_r].
  - exists (x :: pre), post. cbn [app]. by f_equal.
Qed.

(** ** Inputs that may leave their level *)

(** The user keys of the files do not meet. *)
Definition apart f g : Prop := Compare (limit f) (start g) < 0 \/ Compare (limit g) (start f) < 0.

(** At level 0, all files that meet an input are inputs.  At another level the inputs are a
    run, and the file after it has none of their user keys. *)
Definition sealed (level : Z) files (inputs : list FileMetaData) : Prop :=
  if level =? 0 then exists p, inputs = List.filter p files /\ forall f g, f ∈ files -> g ∈ files -> p f = true -> p g = false -> apart f g
  else exists pre post, files = pre ++ inputs ++ post /\ forall f g, f ∈ inputs -> g ∈ post -> Compare (limit f) (start g) < 0.

(** Before the boundary files are added. *)
Definition selected (level : Z) files (inputs : list FileMetaData) : Prop :=
  if level =? 0 then sealed level files inputs else exists pre post, files = pre ++ inputs ++ post.

Lemma sealed_sub level files inputs f : sealed level files inputs -> f ∈ inputs -> f ∈ files.
Proof.
  unfold sealed. destruct (level =? 0).
  - intros (p & -> & _) Hf. apply list_elem_of_In in Hf. apply filter_In in Hf as [Hf _]. by apply list_elem_of_In.
  - intros (pre & post & -> & _) Hf. rewrite !elem_of_app. tauto.
Qed.

Lemma selected_sub level files inputs f : selected level files inputs -> f ∈ inputs -> f ∈ files.
Proof.
  unfold selected. destruct (level =? 0) eqn:E; [apply sealed_sub|]. intros (pre & post & ->) Hf. rewrite !elem_of_app. tauto.
Qed.

(** A version of files in range, disjoint above level 0. *)
Definition files_good (level : Z) files : Prop := Forall okf files /\ (level <> 0 -> disjoint (u := u) files).

Lemma disjoint_order files f g : Forall okf files -> f ∈ files -> g ∈ files -> icmp (largest f) (smallest g) < 0 ->
  Compare (limit f) (limit g) <= 0 /\ Compare (start f) (start g) <= 0 /\ Compare (limit f) (start g) <= 0.
Proof.
  intros Hok Hf Hg Hlt. rewrite list.Forall_forall in Hok. destruct (file_range f (Hok f Hf)) as (Hs & Hl & Hle).
  destruct (file_range g (Hok g Hg)) as (Hs' & Hl' & Hle'). apply icmp_lt in Hlt.
  assert (Compare (limit f) (start g) <= 0) as Hfg by lia.
  split; [by apply (cmp_trans _ (start g))|]. split; [by apply (cmp_trans _ (limit f))|done].
Qed.

(** What GetOverlappingInputs gives. *)
Lemma overlapping_selected level files b e inputs : files_good level files -> bound_ok (uvalid := uvalid) b -> bound_ok (uvalid := uvalid) e ->
  (level = 0 -> closed (u := u) files b e) -> inputs = List.filter (overlaps (u := u) b e) files -> selected level files inputs.
Proof.
  intros [Hok Hd] Hb He Hc ->. pose proof Hok as Hok'. rewrite list.Forall_forall in Hok'.
  unfold selected, sealed. destruct (Z.eqb_spec level 0) as [E|Hne].
  - exists (overlaps b e). split; [done|]. intros f g Hf Hg Hof Hog. destruct (Hc E f Hf Hof) as [Hb1 He1].
    destruct (file_range f (Hok' f Hf)) as (Hs & Hl & _), (file_range g (Hok' g Hg)) as (Hs' & Hl' & _).
    apply andb_false_iff in Hog as [Hog%negb_false_iff|Hog%negb_false_iff].
    + right. destruct b as [b|]; [|done]. apply Z.ltb_lt in Hog. cbn in Hb1. apply Z.ltb_ge in Hb1.
      apply (cmp_trans_lt _ b); auto. apply cmp_le_ge; auto.
    + left. destruct e as [e|]; [|done]. rewrite Z.gtb_lt in Hog. cbn in He1. rewrite Z.gtb_ltb in He1. apply Z.ltb_ge in He1.
      apply (cmp_trans_lt_r _ e); auto. apply cmp_lt_gt; auto.
  - destruct (filter_run _ (fun f => negb (match b with Some b => Compare (limit f) b <? 0 | None => false end))
      (fun f => negb (match e with Some e => Compare (start f) e >? 0 | None => false end)) files (Hd Hne)) as (pre & post & E); [| |by exists pre, post].
    + intros f g Hf Hg Hlt. destruct (disjoint_order files f g Hok Hf Hg Hlt) as (Hll & _). destruct b as [b|]; [|done].
      rewrite !negb_true_iff, !Z.ltb_ge. destruct (file_range f (Hok' f Hf)) as (_ & Hl & _), (file_range g (Hok' g Hg)) as (_ & Hl' & _).
      intros Hge. apply cmp_le_ge; auto. apply (cmp_trans _ (limit f)); auto. apply cmp_le_ge; auto.
    + intros f g Hf Hg Hlt. destruct (disjoint_order files f g Hok Hf Hg Hlt) as (_ & Hss & _). destruct e as [e|]; [|done].
      rewrite !negb_true_iff, !Z.gtb_ltb, !Z.ltb_ge. destruct (file_range f (Hok' f Hf)) as (Hs & _), (file_range g (Hok' g Hg)) as (Hs' & _).
      intros Hle. apply (cmp_trans _ (start g)); auto.
Qed.

(** At level 0 there are no boundary files to add. *)
Lemma AddBoundaryInputs_sealed level files inputs : files_good level files -> selected level files inputs -> inputs <> [] ->
  exists added, AddBoundaryInputs (user_comparator := u) files inputs = Done (inputs ++ added) /\ sealed level files (inputs ++ added).
Proof.
  intros [Hok Hd] Hsel Hne. unfold selected in Hsel. destruct (Z.eqb_spec level 0) as [E|Hne0].
  - assert (Forall okf inputs) as Hoki.
    { rewrite list.Forall_forall in *. intros f Hf. by apply Hok, (sealed_sub level files inputs). }
    destruct (AddBoundaryInputs_ok files inputs Hok Hoki Hne) as (added & k & Ea & Hsub & Hk & Hmax & Hnone).
    assert (added = []) as ->; [|rewrite app_nil_r in *; exists []; by rewrite app_nil_r].
    destruct (FindLargestKey_ok inputs Hoki Hne) as (k0 & Ek0 & Hk0 & Hmax0).
    unfold AddBoundaryInputs in Ea. rewrite Ek0 in Ea. cbn [boundary_loop] in Ea.
    destruct (FindSmallestBoundaryFile files k0) as [f|] eqn:Ef.
    2: { injection Ea as Ea. destruct added; [done|]. apply (f_equal length) in Ea. rewrite length_app in Ea. cbn in Ea. lia. }
    exfalso. apply boundary_some in Ef as [Hf Hb]. pose proof (boundary_gt k0 f Hb) as Hgt. apply andb_prop in Hb as [_ Hu%Z.eqb_eq].
    destruct Hmax0 as [(l & Hl & El) Hall]. pose proof Hok as Hok'. rewrite list.Forall_forall in Hok'. rewrite list.Forall_forall in Hoki.
    destruct (file_range f (Hok' f Hf)) as (Hs & Hlim & Hle), (file_range l (Hoki l Hl)) as (Hs' & Hlim' & Hle').
    pose proof (sealed_sub level files inputs l Hsel Hl) as Hlf. unfold sealed in Hsel. rewrite E in Hsel.
    destruct Hsel as (p & -> & Hap). assert (p l = true) as Hpl by (apply list_elem_of_In in Hl; by apply filter_In in Hl as [_ Hl]).
    rewrite <- El in Hu. destruct (p f) eqn:Epf.
    + assert (f ∈ List.filter p files) as Hin by (apply list_elem_of_In, filter_In; split; [by apply list_elem_of_In|done]).
      pose proof (Hall f Hin) as Hfk. destruct (Hok' f Hf) as (Hvs & Hvl & Hsl).
      pose proof (cmp_trans (c := icomparator) _ _ k0 Hvs Hvl Hk0 Hsl Hfk) as Hc. cbn in Hc. lia.
    + pose proof (cmp_eq_sym _ _ Hs Hlim') as Hsym. destruct (Hap l f Hlf Hf Hpl Epf) as [Hc|Hc]; [lia|].
      assert (Compare (limit f) (limit f) < 0) as Hbad; [|rewrite cmp_refl in Hbad by done; lia].
      apply (cmp_trans_lt _ (start l)); auto. apply (cmp_trans _ (limit l)); auto. apply (cmp_trans _ (start f)); auto. lia.
  - destruct Hsel as (pre & post & ->). destruct (AddBoundaryInputs_run pre inputs post Hok (Hd Hne0) Hne) as (added & post' & Ea & -> & Hend).
    exists added. split; [done|]. unfold sealed. rewrite (proj2 (Z.eqb_neq _ _) Hne0). exists pre, post'. by rewrite <- app_assoc.
Qed.

(** ** The other inputs *)

Definition range_overlaps_of (range : list byte * list byte) f : bool :=
  overlaps (u := u) (Some (ExtractUserKey (fst range))) (Some (ExtractUserKey (snd range))) f.

Lemma level_inputs_ok v level range : files_good level (level_files v level) -> ivalid (fst range) -> ivalid (snd range) ->
  exists inputs, level_inputs (user_comparator := u) v level range = Done inputs /\ selected level (level_files v level) inputs /\
    (level <> 0 -> inputs = List.filter (range_overlaps_of range) (level_files v level)) /\
    forall f, f ∈ level_files v level -> range_overlaps_of range f = true -> f ∈ inputs.
Proof.
  intros Hg Ha Hb. unfold level_inputs. destruct (GetOverlappingInputs_ok (uvalid := uvalid) (level =? 0) (level_files v level)
    (Some (fst range)) (Some (snd range))) as (b' & e' & -> & Hb' & He' & Hw & Hr); [apply Hg|by intros k [= <-]|by intros k [= <-]|].
  eexists. split; [reflexivity|]. split; [|split].
  - apply (overlapping_selected level _ b' e'); [done|done|done| |done]. intros ->. apply Hr.
  - intros Hne. rewrite (proj2 (Z.eqb_neq _ _) Hne) in Hr. by destruct Hr as [-> ->].
  - intros f Hf Ho. apply list_elem_of_In, filter_In. split; [by apply list_elem_of_In|].
    destruct Hg as [Hok _]. rewrite list.Forall_forall in Hok.
    apply (overlaps_mono (uvalid := uvalid) b' e' (Some (ExtractUserKey (fst range))) (Some (ExtractUserKey (snd range)))); auto.
    + intros k [= <-]. apply Ha.
    + intros k [= <-]. apply Hb.
Qed.

Section Setup.
Context (max_file_size : Z) v (level : Z) (Hlev : 0 <= level).
Context (Hgood : forall l, 0 <= l -> files_good l (level_files v l)).

Lemma level_ok f : f ∈ level_files v level -> okf f.
Proof. destruct (Hgood level Hlev) as [Hok _]. rewrite list.Forall_forall in Hok. apply Hok. Qed.

Lemma sub_ok inputs : (forall f, f ∈ inputs -> f ∈ level_files v level) -> Forall okf inputs.
Proof. intros Hsub. apply list.Forall_forall. intros f Hf. by apply level_ok, Hsub. Qed.

(** The inputs so far: sealed, and those of the next level in their range. *)
Definition inputs_ok (inputs0 inputs1 : list FileMetaData) : Prop :=
  inputs0 <> [] /\ sealed level (level_files v level) inputs0 /\
  inputs1 = List.filter (range_overlaps_of (GetRange (user_comparator := u) inputs0)) (level_files v (level + 1)).

Lemma inputs1_sub inputs0 inputs1 f : inputs_ok inputs0 inputs1 -> f ∈ inputs1 -> okf f.
Proof.
  intros (_ & _ & ->) Hf%list_elem_of_In%filter_In. destruct Hf as [Hf _]. apply list_elem_of_In in Hf.
  destruct (Hgood (level + 1) ltac:(lia)) as [Hok _]. rewrite list.Forall_forall in Hok. auto.
Qed.

Lemma range2_ok inputs0 inputs1 : inputs_ok inputs0 inputs1 -> Forall okf (inputs0 ++ inputs1) /\
  range_of (inputs0 ++ inputs1) (GetRange2 (user_comparator := u) inputs0 inputs1).
Proof.
  intros Hin. pose proof Hin as (Hne & Hs & _). assert (Forall okf (inputs0 ++ inputs1)) as Hok.
  { apply List.Forall_app. split; [apply sub_ok; intros f; by apply (sealed_sub level (level_files v level))|apply list.Forall_forall; intros f; by apply (inputs1_sub inputs0)]. }
  split; [done|]. apply GetRange_ok; [done|]. by destruct inputs0.
Qed.

Lemma next_inputs inputs0 : inputs0 <> [] -> sealed level (level_files v level) inputs0 ->
  exists inputs1, level_inputs (user_comparator := u) v (level + 1) (GetRange (user_comparator := u) inputs0) = Done inputs1 /\ inputs_ok inputs0 inputs1.
Proof.
  intros Hne Hs. assert (Forall okf inputs0) as Hok by (apply sub_ok; intros f; by apply (sealed_sub level (level_files v level))).
  destruct (GetRange_ok inputs0 Hok Hne) as (Ha & Hb & _).
  destruct (level_inputs_ok v (level + 1) (GetRange (user_comparator := u) inputs0) (Hgood (level + 1) ltac:(lia)) Ha Hb) as (inputs1 & -> & _ & Hf & _).
  exists inputs1. split; [done|]. split; [done|]. split; [done|]. apply Hf. lia.
Qed.

(** What growing them keeps. *)
Lemma expand_inputs_ok inputs0 inputs1 range : inputs_ok inputs0 inputs1 ->
  exists range' all' inputs0' inputs1', expand_inputs (user_comparator := u) max_file_size v level range (GetRange2 (user_comparator := u) inputs0 inputs1) inputs0 inputs1
      = Done (range', all', inputs0', inputs1') /\
    inputs_ok inputs0' inputs1' /\ all' = GetRange2 (user_comparator := u) inputs0' inputs1' /\
    (range = GetRange (user_comparator := u) inputs0 -> range' = GetRange (user_comparator := u) inputs0') /\ forall f, f ∈ inputs0 -> f ∈ inputs0'.
Proof.
  intros Hin. pose proof Hin as (Hne & Hs & _). destruct (range2_ok inputs0 inputs1 Hin) as (Hok & Hr).
  assert (forall f, f ∈ inputs0 -> f ∈ level_files v level) as Hsub by (intros f; by apply (sealed_sub level (level_files v level))).
  pose proof Hr as (Ha & Hb & _). unfold expand_inputs.
  destruct (level_inputs_ok v level _ (Hgood level Hlev) Ha Hb) as (expanded0 & -> & Hsel & _ & Hall). rewrite run_bind_done.
  assert (forall f, f ∈ inputs0 -> f ∈ expanded0) as Hincl.
  { intros f Hf. apply Hall; [auto|]. apply (range_overlaps (inputs0 ++ inputs1)); [done|done|]. rewrite elem_of_app. auto. }
  assert (expanded0 <> []) as Hne'.
  { destruct inputs0 as [|f inputs0]; [done|]. intros E. specialize (Hincl f ltac:(left)). rewrite E in Hincl. by apply not_elem_of_nil in Hincl. }
  destruct (AddBoundaryInputs_sealed level _ expanded0 (Hgood level Hlev) Hsel Hne') as (added & -> & Hsealed). rewrite run_bind_done.
  destruct (_ && _); [|by exists range, (GetRange2 inputs0 inputs1), inputs0, inputs1].
  destruct (next_inputs (expanded0 ++ added)) as (expanded1 & -> & Hin'); [by destruct expanded0|done|]. rewrite run_bind_done.
  destruct (num_files expanded1 =? num_files inputs1); [|by exists range, (GetRange2 inputs0 inputs1), inputs0, inputs1].
  eexists _, _, _, _. split; [reflexivity|]. split; [done|]. split; [done|]. split; [done|]. intros f Hf. rewrite elem_of_app. auto.
Qed.

Lemma SetupOtherInputs_ok c pointers : level_ c = level -> input_version_ c = v -> inputs_0 c <> [] ->
  selected level (level_files v level) (inputs_0 c) ->
  exists c' range, SetupOtherInputs (user_comparator := u) max_file_size c pointers = Done (c', <[Z.to_nat level := snd range]> pointers) /\
    level_ c' = level /\ input_version_ c' = v /\ edit_ c' = SetCompactPointer (edit_ c) level (snd range) /\
    range = GetRange (user_comparator := u) (inputs_0 c') /\ inputs_ok (inputs_0 c') (inputs_1 c') /\
    (forall f, f ∈ inputs_0 c -> f ∈ inputs_0 c') /\ level_ptrs_ c' = level_ptrs_ c.
Proof.
  intros El Ev Hne Hsel. unfold SetupOtherInputs. rewrite El, Ev.
  destruct (AddBoundaryInputs_sealed level _ (inputs_0 c) (Hgood level Hlev) Hsel Hne) as (added & -> & Hsealed). rewrite run_bind_done.
  set (i0 := inputs_0 c ++ added) in *. assert (i0 <> []) as Hne0 by (unfold i0; by destruct (inputs_0 c)).
  destruct (next_inputs i0 Hne0 Hsealed) as (i1 & -> & Hin). rewrite run_bind_done.
  assert (exists range' all' i0' i1', match i1 with
      | [] => Done (GetRange i0, GetRange2 i0 i1, i0, i1)
      | _ => expand_inputs (user_comparator := u) max_file_size v level (GetRange i0) (GetRange2 i0 i1) i0 i1
      end = Done (range', all', i0', i1') /\ inputs_ok i0' i1' /\ all' = GetRange2 (user_comparator := u) i0' i1' /\
      range' = GetRange (user_comparator := u) i0' /\ forall f, f ∈ i0 -> f ∈ i0') as (range' & all' & i0' & i1' & -> & Hin' & -> & -> & Hincl).
  { destruct (expand_inputs_ok i0 i1 (GetRange (user_comparator := u) i0) Hin) as (range' & all' & i0' & i1' & E & Hin' & Eall & Er & Hincl).
    destruct i1 as [|f i1]; [by exists (GetRange i0), (GetRange2 i0 []), i0, []|]. exists range', all', i0', i1'.
    split; [exact E|]. split; [done|]. split; [done|]. split; [by apply Er|done]. }
  rewrite run_bind_done. destruct (range2_ok i0' i1' Hin') as (_ & Ha & Hb & _).
  assert (exists gp, (if level + 2 <? kNumLevels then level_inputs v (level + 2) (GetRange2 i0' i1') else Done (grandparents_ c)) = Done gp) as (gp & ->).
  { destruct (level + 2 <? kNumLevels); [|by eexists].
    destruct (level_inputs_ok v (level + 2) _ (Hgood (level + 2) ltac:(lia)) Ha Hb) as (gp & -> & _). by exists gp. }
  rewrite run_bind_done. eexists _, _. split; [reflexivity|]. cbn [level_ input_version_ edit_ inputs_0 inputs_1 level_ptrs_].
  split; [done|]. split; [done|]. split; [done|]. split; [done|]. split; [done|]. split; [|done].
  intros f Hf. apply Hincl. unfold i0. rewrite elem_of_app. auto.
Qed.

(** What every compaction is made of. *)
Definition compaction_ok (c : Compaction) : Prop :=
  level_ c = level /\ input_version_ c = v /\ inputs_ok (inputs_0 c) (inputs_1 c) /\ level_ptrs_ c = replicate (Z.to_nat kNumLevels) 0.

Lemma setup_new inputs pointers : inputs <> [] -> selected level (level_files v level) inputs ->
  exists c pointers', SetupOtherInputs (user_comparator := u) max_file_size (set_inputs (new_Compaction max_file_size level v) inputs []) pointers = Done (c, pointers') /\
    compaction_ok c /\ forall f, f ∈ inputs -> f ∈ inputs_0 c.
Proof.
  intros Hne Hsel. destruct (SetupOtherInputs_ok (set_inputs (new_Compaction max_file_size level v) inputs []) pointers)
    as (c & range & E & El & Ev & _ & _ & Hin & Hsub & Ep); [done..|].
  exists c, (<[Z.to_nat level := snd range]> pointers). split; [done|]. split; [|done].
  split; [done|]. split; [done|]. by split.
Qed.

(** The inputs that one file of the level leads to. *)
Lemma pick_file f pointers : f ∈ level_files v level ->
  exists c pointers', (inputs0 ← (if level =? 0 then level_inputs (user_comparator := u) v 0 (GetRange (user_comparator := u) [f]) else Done [f]);
      '(c, compact_pointer) ← SetupOtherInputs (user_comparator := u) max_file_size (set_inputs (new_Compaction max_file_size level v) inputs0 []) pointers;
      Done (Some c, compact_pointer)) = Done (Some c, pointers') /\ compaction_ok c /\ f ∈ inputs_0 c.
Proof.
  intros Hf. assert (Forall okf [f]) as Hok by (constructor; [by apply level_ok|constructor]).
  pose proof (GetRange_ok [f] Hok ltac:(done)) as Hr. pose proof Hr as (Ha & Hb & _).
  assert (exists inputs, (if level =? 0 then level_inputs v 0 (GetRange [f]) else Done [f]) = Done inputs /\ f ∈ inputs /\
    selected level (level_files v level) inputs) as (inputs & -> & Hin & Hsel).
  { destruct (Z.eqb_spec level 0) as [E|Hne].
    - destruct (level_inputs_ok v 0 (GetRange (user_comparator := u) [f]) (Hgood 0 ltac:(lia)) Ha Hb) as (inputs & -> & Hsel & _ & Hall).
      exists inputs. split; [done|]. rewrite E in *. split; [|done]. apply Hall; [done|]. apply (range_overlaps [f]); [done|done|left].
    - exists [f]. split; [done|]. split; [left|]. unfold selected. rewrite (proj2 (Z.eqb_neq _ _) Hne).
      apply list_elem_of_split in Hf as (pre & post & ->). by exists pre, post. }
  rewrite run_bind_done. destruct (setup_new inputs pointers) as (c & pointers' & -> & Hc & Hsub); [|done|].
  - intros ->. by apply not_elem_of_nil in Hin.
  - exists c, pointers'. split; [done|]. split; [done|]. auto.
Qed.

Lemma first_input_ok pointer : level_files v level <> [] ->
  exists f, first_input (user_comparator := u) v level pointer = Done f /\ f ∈ level_files v level.
Proof.
  intros Hne. unfold first_input. destruct (List.find _ _) as [f|] eqn:E.
  - apply find_some in E as [Hf _]. exists f. by rewrite list_elem_of_In.
  - destruct (level_files v level) as [|f files]; [done|]. exists f. split; [done|left].
Qed.

Lemma cut_inputs_take limit files : forall total, exists n, cut_inputs limit total files = take n files /\ (files <> [] -> (0 < n)%nat).
Proof.
  induction files as [|f files IH]; intros total; cbn [cut_inputs]; [by exists 0%nat|].
  destruct (_ >=? limit); [exists 1%nat; split; [done|lia]|]. destruct (IH (u64 (total + file_size f))) as (n & -> & _).
  exists (S n). split; [done|lia].
Qed.

Lemma selected_take n inputs : level <> 0 -> selected level (level_files v level) inputs -> selected level (level_files v level) (take n inputs).
Proof.
  unfold selected. intros Hne. rewrite (proj2 (Z.eqb_neq _ _) Hne). intros (pre & post & ->).
  exists pre, (drop n inputs ++ post). by rewrite (app_assoc (take n inputs)), take_drop.
Qed.
End Setup.

(** C24: the compactions that are picked. When some level scores, or a file was sought too
    often, there is one: its inputs at its level can leave it (at level 0 they are all the
    files that meet an input; at another level they are a run, with no user key in common
    with the file after it), and its inputs at the next level are exactly those in the range
    of their user keys; both after the inputs were grown. *)
Theorem pick_compaction_correct max_file_size v pointers : (forall l, 0 <= l -> files_good l (level_files v l)) ->
  (SFleb (double 1) (compaction_score_ v) = true -> 0 <= compaction_level_ v /\ level_files v (compaction_level_ v) <> []) ->
  (forall f, file_to_compact_ v = Some f -> 0 <= file_to_compact_level_ v /\ f ∈ level_files v (file_to_compact_level_ v)) ->
  exists r pointers', PickCompaction (user_comparator := u) max_file_size v pointers = Done (r, pointers') /\
    match r with
    | Some c => 0 <= level_ c /\ compaction_ok v (level_ c) c
    | None => SFleb (double 1) (compaction_score_ v) = false /\ file_to_compact_ v = None
    end.
Proof.
  intros Hgood Hscore Hseek. unfold PickCompaction. destruct (SFleb (double 1) (compaction_score_ v)).
  - destruct (Hscore eq_refl) as [Hlev Hne].
    destruct (first_input_ok v (compaction_level_ v) (default [] (pointers !! Z.to_nat (compaction_level_ v))) Hne) as (f & -> & Hf). rewrite run_bind_done.
    destruct (pick_file max_file_size v (compaction_level_ v) Hlev Hgood f pointers Hf) as (c & pointers' & E & Hc & _).
    exists (Some c), pointers'. split; [exact E|]. pose proof Hc as (-> & _). done.
  - destruct (file_to_compact_ v) as [f|]; [|by exists None, pointers]. destruct (Hseek f eq_refl) as [Hlev Hf].
    destruct (pick_file max_file_size v (file_to_compact_level_ v) Hlev Hgood f pointers Hf) as (c & pointers' & E & Hc & _).
    exists (Some c), pointers'. split; [exact E|]. pose proof Hc as (-> & _). done.
Qed.

(** C3: the compaction of a range has inputs of the same kind; there is none only when no
    file of the level meets the range. *)
Theorem compact_range_correct max_file_size v pointers level b e : (forall l, 0 <= l -> files_good l (level_files v l)) -> 0 <= level ->
  (forall k, b = Some k -> ivalid k) -> (forall k, e = Some k -> ivalid k) ->
  exists r pointers', CompactRange (user_comparator := u) max_file_size v pointers level b e = Done (r, pointers') /\
    match r with
    | Some c => compaction_ok v level c
    | None => forall f, f ∈ level_files v level -> overlaps (u := u) (ExtractUserKey <$> b) (ExtractUserKey <$> e) f = false
    end.
Proof.
  intros Hgood Hlev Hb He. unfold CompactRange. pose proof (Hgood level Hlev) as Hg.
  destruct (GetOverlappingInputs_ok (uvalid := uvalid) (level =? 0) (level_files v level) b e) as (b' & e' & -> & Hb' & He' & Hw & Hr); [apply Hg|done|done|].
  rewrite run_bind_done. assert (selected level (level_files v level) (List.filter (overlaps b' e') (level_files v level))) as Hsel.
  { apply (overlapping_selected level _ b' e'); [done|done|done| |done]. intros ->. apply Hr. }
  destruct (List.filter (overlaps b' e') (level_files v level)) as [|f inputs] eqn:Ei.
  - exists None, pointers. split; [done|]. intros f Hf. apply not_true_is_false. intros Ho.
    assert (f ∈ List.filter (overlaps b' e') (level_files v level)) as Hin; [|by rewrite Ei in Hin; apply not_elem_of_nil in Hin].
    apply list_elem_of_In, filter_In. split; [by apply list_elem_of_In|]. destruct Hg as [Hok _]. rewrite list.Forall_forall in Hok.
    apply (overlaps_mono (uvalid := uvalid) b' e' (ExtractUserKey <$> b) (ExtractUserKey <$> e)); auto using extract_bound_ok.
  - set (cut := if level >? 0 then cut_inputs (MaxFileSizeForLevel max_file_size level) 0 (f :: inputs) else f :: inputs).
    assert (cut <> [] /\ selected level (level_files v level) cut) as [Hne Hcut].
    { unfold cut. destruct (Z.gtb_spec level 0) as [Hgt|]; [|done].
      destruct (cut_inputs_take (MaxFileSizeForLevel max_file_size level) (f :: inputs) 0) as (n & -> & Hn).
      split; [|apply selected_take; [lia|done]]. specialize (Hn ltac:(done)). by destruct n; [lia|]. }
    destruct (setup_new max_file_size v level Hlev Hgood cut pointers Hne Hcut) as (c & pointers' & -> & Hc & _). rewrite run_bind_done.
    by exists (Some c), pointers'.
Qed.

(** ** Deeper levels *)

(** The user key falls in the range of the file. *)
Definition falls_in (k : list byte) f : bool := (Compare k (limit f) <=? 0) && (Compare k (start f) >=? 0).

(** The files before the pointer end before the user key. *)
Definition ptr_ok (k : list byte) files (ptr : Z) : Prop :=
  0 <= ptr <= num_files files /\ forall j f, files !! j = Some f -> Z.of_nat j < ptr -> Compare (limit f) k < 0.

Lemma ptr_ok_mono k k' files ptr : Forall okf files -> uvalid k -> uvalid k' -> Compare k k' <= 0 -> ptr_ok k files ptr -> ptr_ok k' files ptr.
Proof.
  intros Hok Hk Hk' Hle [Hb Hall]. split; [done|]. intros j f Hj Hlt. rewrite list.Forall_forall in Hok.
  destruct (file_range f (Hok f (list_elem_of_lookup_2 _ _ _ Hj))) as (_ & Hl & _). apply (cmp_trans_lt _ k); eauto.
Qed.

Lemma base_level_loop_ok files k : Forall okf files -> disjoint (u := u) files -> num_files files < 2 ^ 31 -> uvalid k ->
  forall fuel ptr, ptr_ok k files ptr -> num_files files - ptr < Z.of_nat fuel ->
  exists ptr', base_level_loop (user_comparator := u) fuel files k ptr = Done (existsb (falls_in k) files, ptr') /\ ptr_ok k files ptr'.
Proof.
  intros Hok Hd Hn Hk. pose proof Hok as Hok'. rewrite list.Forall_forall in Hok'.
  assert (forall j f, files !! j = Some f -> uvalid (start f) /\ uvalid (limit f) /\ Compare (start f) (limit f) <= 0) as Hrange.
  { intros j f Hj. apply file_range, Hok'. by apply list_elem_of_lookup_2 in Hj. }
  assert (forall f, Compare (limit f) k < 0 -> (exists j, files !! j = Some f) -> falls_in k f = false) as Hbelow.
  { intros f Hlt (j & Hj). destruct (Hrange j f Hj) as (_ & Hl & _). apply andb_false_intro1, Z.leb_gt. by apply cmp_lt_gt in Hlt. }
  induction fuel as [|fuel IH]; intros ptr [Hb Hall] Hf; [lia|]. cbn [base_level_loop].
  destruct (Z.ltb_spec ptr (num_files files)) as [Hlt|Hge].
  - unfold file_at. destruct (lookup_lt_is_Some_2 files (Z.to_nat ptr)) as [f Ef]; [unfold num_files in *; lia|]. rewrite Ef, run_bind_done.
    destruct (Hrange _ _ Ef) as (Hs & Hl & Hsl). destruct (Z.leb_spec (Compare k (limit f)) 0) as [Hle|Hgt].
    + exists ptr. split; [|done]. do 2 f_equal. destruct (Z.geb_spec (Compare k (start f)) 0) as [Hge|Hlt'].
      * symmetry. apply existsb_exists. exists f. split; [apply list_elem_of_In; by apply list_elem_of_lookup_2 in Ef|].
        unfold falls_in. rewrite (proj2 (Z.leb_le _ _) Hle). cbn [andb]. rewrite Z.geb_leb. by apply Z.leb_le.
      * symmetry. apply not_true_is_false. intros (g & Hg & Hin)%existsb_exists. apply list_elem_of_In, list_elem_of_lookup in Hg as [j Hj].
        destruct (Z.lt_ge_cases (Z.of_nat j) ptr) as [Hjp|Hjp]; [rewrite Hbelow in Hin; [done|by apply (Hall j)|by exists j]|].
        apply andb_prop in Hin as [_ Hge]. rewrite Z.geb_leb in Hge. apply Z.leb_le in Hge.
        destruct (decide (j = Z.to_nat ptr)) as [-> |Hne]; [assert (g = f) as -> by congruence; lia|].
        pose proof (StronglySorted_at _ _ (Z.to_nat ptr) j f g Hd Ef Hj ltac:(lia)) as Hfg. cbn in Hfg.
        destruct (disjoint_order files f g Hok (list_elem_of_lookup_2 _ _ _ Ef) (list_elem_of_lookup_2 _ _ _ Hj) Hfg) as (_ & Hss & _).
        destruct (Hrange j g Hj) as (Hsg & _). pose proof (cmp_trans_lt k (start f) (start g) Hk Hs Hsg Hlt' Hss). lia.
    + assert (Compare (limit f) k < 0) as Hfk by (by apply cmp_lt_gt).
      rewrite u64_small by (unfold num_files in *; lia). apply IH; [|lia]. split; [lia|].
      intros j g Hj Hjp. destruct (decide (j = Z.to_nat ptr)) as [-> |Hne]; [by assert (g = f) as -> by congruence|]. apply (Hall j); [done|lia].
  - exists ptr. split; [|done]. do 2 f_equal. symmetry. apply not_true_is_false. intros (g & Hg & Hin)%existsb_exists.
    apply list_elem_of_In, list_elem_of_lookup in Hg as [j Hj]. rewrite Hbelow in Hin; [done| |by exists j].
    apply (Hall j); [done|]. apply lookup_lt_Some in Hj. unfold num_files in Hge. lia.
Qed.

Section Base.
Context v (Hgood : forall l, 0 <= l -> files_good l (level_files v l)) (Hcount : forall l, num_files (level_files v l) < 2 ^ 31).

Definition ptrs_ok (level : Z) (k : list byte) (ptrs : list Z) : Prop :=
  forall lvl, level <= lvl < kNumLevels -> exists ptr, ptrs !! Z.to_nat lvl = Some ptr /\ ptr_ok k (level_files v lvl) ptr.

Lemma base_levels_ok k : uvalid k -> forall n lvl level ptrs, 0 < level <= lvl -> lvl + Z.of_nat n = kNumLevels -> ptrs_ok level k ptrs ->
  exists base ptrs', base_levels (user_comparator := u) n v lvl k ptrs = Done (base, ptrs') /\ ptrs_ok level k ptrs' /\
    (base = true <-> forall l f, lvl <= l < kNumLevels -> f ∈ level_files v l -> falls_in k f = false).
Proof.
  intros Hk. induction n as [|n IH]; intros lvl level ptrs Hlev Hn Hp; cbn [base_levels].
  - exists true, ptrs. split; [done|]. split; [done|]. split; [intros _ l f Hl; lia|done].
  - destruct (Hp lvl ltac:(lia)) as (ptr & Ep & Hptr). rewrite Ep. change (default 0 (Some ptr)) with ptr. destruct (Hgood lvl ltac:(lia)) as [Hok Hd].
    destruct (base_level_loop_ok (level_files v lvl) k Hok (Hd ltac:(lia)) (Hcount lvl) Hk (S (length (level_files v lvl))) ptr Hptr) as (ptr' & -> & Hptr').
    { destruct Hptr. unfold num_files in *. lia. }
    rewrite run_bind_done. assert (ptrs_ok level k (<[Z.to_nat lvl := ptr']> ptrs)) as Hp'.
    { intros l Hl. destruct (decide (l = lvl)) as [-> |Hne].
      - exists ptr'. split; [|done]. apply list_lookup_insert_eq. by apply lookup_lt_Some in Ep.
      - destruct (Hp l Hl) as (q & Eq & Hq). exists q. rewrite list_lookup_insert_ne by lia. done. }
    destruct (existsb (falls_in k) (level_files v lvl)) eqn:Ex.
    + eexists false, _. split; [done|]. split; [done|]. split; [done|]. intros Hall. apply existsb_exists in Ex as (f & Hf & Hin).
      apply list_elem_of_In in Hf. by rewrite (Hall lvl f ltac:(lia) Hf) in Hin.
    + destruct (IH (lvl + 1) level (<[Z.to_nat lvl := ptr']> ptrs) ltac:(lia) ltac:(lia) Hp') as (base & ptrs' & -> & Hp'' & Hiff).
      exists base, ptrs'. split; [done|]. split; [done|]. rewrite Hiff. split; intros Hall l f Hl Hf.
      * destruct (decide (l = lvl)) as [-> |Hne]; [|apply (Hall l); [lia|done]]. apply not_true_is_false. intros Hin.
        rewrite (proj2 (existsb_exists _ _)) in Ex; [done|]. exists f. by rewrite <- list_elem_of_In.
      * apply (Hall l); [lia|done].
Qed.

(** The state of [IsBaseLevelForKey] after user keys up to [k]. *)
Definition base_state (c : Compaction) (k : list byte) : Prop :=
  input_version_ c = v /\ 0 <= level_ c /\ level_ c + 2 <= kNumLevels /\ ptrs_ok (level_ c + 2) k (level_ptrs_ c).

Lemma base_state_new c k : input_version_ c = v -> level_ptrs_ c = replicate (Z.to_nat kNumLevels) 0 ->
  0 <= level_ c -> level_ c + 2 <= kNumLevels -> base_state c k.
Proof.
  intros Ev Ep H0 H1. split; [done|]. split; [done|]. split; [done|]. intros lvl Hl. exists 0. rewrite Ep.
  split; [apply lookup_replicate; unfold kNumLevels in *; split; [done|lia]|]. split; [unfold num_files; lia|]. intros; lia.
Qed.

Lemma IsBaseLevelForKey_ok c k0 k : base_state c k0 -> uvalid k0 -> uvalid k -> Compare k0 k <= 0 ->
  exists base c', IsBaseLevelForKey (user_comparator := u) c k = Done (base, c') /\ base_state c' k /\ level_ c' = level_ c /\
    (base = true <-> forall l f, level_ c + 2 <= l < kNumLevels -> f ∈ level_files v l -> falls_in k f = false).
Proof.
  intros (Ev & H0 & H1 & Hp) Hk0 Hk Hle. unfold IsBaseLevelForKey. rewrite Ev.
  destruct (base_levels_ok k Hk (Z.to_nat (kNumLevels - (level_ c + 2))) (level_ c + 2) (level_ c + 2) (level_ptrs_ c)) as (base & ptrs & -> & Hp' & Hiff); [lia|lia| |].
  - intros lvl Hl. destruct (Hp lvl Hl) as (ptr & Eptr & Hptr). exists ptr. split; [done|].
    destruct (Hgood lvl ltac:(lia)) as [Hok _]. by apply (ptr_ok_mono k0).
  - rewrite run_bind_done. eexists base, _. split; [reflexivity|]. split; [by split|]. by split.
Qed.

(** C25: the test for deeper data is right for keys that come in order, as in the loop of a
    compaction: it says yes just when no file of the levels below the output has the user
    key in its range, though it never looks back at the files it passed. *)
Theorem is_base_level_correct c k0 k : base_state c k0 -> uvalid k0 -> uvalid k -> Compare k0 k <= 0 ->
  exists base c', IsBaseLevelForKey (user_comparator := u) c k = Done (base, c') /\ base_state c' k /\
    (base = true <-> forall l f, level_ c + 2 <= l < kNumLevels -> f ∈ level_files v l -> falls_in k f = false).
Proof.
  intros Hs Hk0 Hk Hle. destruct (IsBaseLevelForKey_ok c k0 k Hs Hk0 Hk Hle) as (base & c' & E & Hs' & _ & Hiff). by exists base, c'.
Qed.
End Base.
End Correct.

(** * Examples *)

#[local] Abbreviation bw := BytewiseComparator.
#[local] Abbreviation bwf := (file_ok (u := bw) (uvalid := fun _ => True)).

Example demo_scores : map (fun n => SFleb (double 1) (level_score (mk_version ([replicate n (demo_file 1 [] [])] ++ replicate 6 []) None 0 minus_one 0) 0)) [3; 4; 5]%nat
  = [false; true; true].
Proof. reflexivity. Qed.

(** Entries of b are in two files. *)
Definition demo_level1 : list FileMetaData :=
  [mk_meta 1 100 3 40 (demo_ikey [x61] 9) (demo_ikey [x62] 5); mk_meta 1 100 2 40 (demo_ikey [x62] 4) (demo_ikey [x62] 2);
   mk_meta 1 100 1 40 (demo_ikey [x63] 9) (demo_ikey [x64] 3)].
Definition demo_level2 : list FileMetaData :=
  [mk_meta 1 100 12 40 (demo_ikey [x61] 1) (demo_ikey [x62] 1); mk_meta 1 100 11 40 (demo_ikey [x66] 1) (demo_ikey [x67] 1)].

Definition demo_level3 : list FileMetaData := [mk_meta 1 100 13 40 (demo_ikey [x63] 0) (demo_ikey [x64] 0)].

Definition demo_tree : Version :=
  mk_version ([[]; demo_level1; demo_level2; demo_level3] ++ replicate 3 []) None (-1) (double 1) 1.

Ltac demo_range := split; [apply demo_ikey_valid|split; [apply demo_ikey_valid|vm_compute; discriminate]].

Lemma demo_level1_ok : Forall bwf demo_level1.
Proof. repeat (constructor; [demo_range|]). constructor. Qed.

Lemma demo_tree_good l : 0 <= l -> files_good (u := bw) (uvalid := fun _ => True) l (level_files demo_tree l).
Proof.
  intros Hl. unfold level_files, demo_tree. cbn [files_]. destruct (Z.to_nat l) as [|[|[|[|[|[|[|]]]]]]] eqn:E; cbn; (split; [|intros Hne; repeat constructor]);
    repeat (constructor; [demo_range|]); constructor.
Qed.

Example demo_pick : (fun r => match r with Done (Some c, p) => (map number (inputs_0 c), map number (inputs_1 c), map number (grandparents_ c)) | _ => ([], [], []) end)
  (PickCompaction (user_comparator := bw) 2097152 demo_tree (replicate 7 [])) = ([3; 2], [12], []).
Proof. reflexivity. Qed.

Lemma add_boundary_correct_witness : exists added k,
  AddBoundaryInputs (user_comparator := bw) demo_level1 (take 1 demo_level1) = Done (take 1 demo_level1 ++ added) /\
  largest_of (u := bw) (take 1 demo_level1 ++ added) k /\ map number (take 1 demo_level1 ++ added) = [3; 2].
Proof.
  destruct (add_boundary_correct (u := bw) (laws := bytewise_laws) demo_level1 (take 1 demo_level1)) as (added & k & E & _ & Hk & _).
  - exact demo_level1_ok.
  - repeat (constructor; [demo_range|]). constructor.
  - done.
  - exists added, k. split; [exact E|]. split; [exact Hk|]. vm_compute in E. injection E as <-. reflexivity.
Defined.

Lemma pick_compaction_correct_witness : exists c pointers',
  PickCompaction (user_comparator := bw) 2097152 demo_tree (replicate 7 []) = Done (Some c, pointers') /\
  compaction_ok (u := bw) demo_tree 1 c.
Proof.
  destruct (pick_compaction_correct (u := bw) (laws := bytewise_laws) 2097152 demo_tree (replicate 7 []) demo_tree_good) as (r & pointers' & E & Hr).
  - done.
  - done.
  - destruct r as [c|]; [|by destruct Hr]. exists c, pointers'. split; [exact E|].
    assert (level_ c = 1) as El by (pose proof E as E'; vm_compute in E'; by injection E' as <- <-). destruct Hr as [_ Hr]. rewrite El in Hr. exact Hr.
Defined.

Lemma compact_range_correct_witness : exists c pointers',
  CompactRange (user_comparator := bw) 2097152 demo_tree (replicate 7 []) 1 None None = Done (Some c, pointers') /\ compaction_ok (u := bw) demo_tree 1 c.
Proof.
  destruct (compact_range_correct (u := bw) (laws := bytewise_laws) 2097152 demo_tree (replicate 7 []) 1 None None demo_tree_good) as (r & pointers' & E & Hr); [done..|].
  destruct r as [c|]; [exists c, pointers'; split; [exact E|exact Hr]|]. pose proof E as E'. vm_compute in E'. discriminate E'.
Defined.

(** b is not below level 2, c is. *)
Lemma is_base_level_correct_witness : let c := new_Compaction 2097152 1 demo_tree in
  exists c', IsBaseLevelForKey (user_comparator := bw) c [x62] = Done (true, c') /\
    exists c'', IsBaseLevelForKey (user_comparator := bw) c' [x63] = Done (false, c'').
Proof.
  cbv zeta. assert (forall l, num_files (level_files demo_tree l) < 2 ^ 31) as Hn.
  { intros l. unfold level_files, demo_tree. cbn [files_]. by destruct (Z.to_nat l) as [|[|[|[|[|[|[|]]]]]]]. }
  destruct (is_base_level_correct (u := bw) (laws := bytewise_laws) demo_tree demo_tree_good Hn (new_Compaction 2097152 1 demo_tree) [] [x62])
    as (base & c' & E & Hs & _); [by apply base_state_new|done|done|vm_compute; discriminate|].
  destruct (is_base_level_correct (u := bw) (laws := bytewise_laws) demo_tree demo_tree_good Hn c' [x62] [x63])
    as (base' & c'' & E' & _); [exact Hs|done|done|vm_compute; discriminate|].
  assert (match IsBaseLevelForKey (user_comparator := bw) (new_Compaction 2097152 1 demo_tree) [x62] with
    | Done (b, c) => match IsBaseLevelForKey (user_comparator := bw) c [x63] with Done (b', _) => (b, b') | _ => (false, false) end
    | _ => (false, false) end = (true, false)) as Ev by (vm_compute; reflexivity).
  rewrite E, E' in Ev. injection Ev as -> ->. exists c'. split; [exact E|]. by exists c''.
Defined.
