(* ===== verification/LdbDoCompaction.v ===== *)
(** leveldb: the work of a compaction (db/db_impl.cc, DBImpl::DoCompactionWork and the
    functions it calls).

    The loop reads the merged inputs, drops what no snapshot needs and writes the rest to
    new tables.  Files and builders are the class [CompactionEnv], with the contract
    [CompactionEnvLaws].  [compaction_keeps_views]: the work ends; when it succeeds the new
    tables have what is not dropped, and no view of a snapshot that is still in use changes
    when they replace the inputs, if no file of the next level goes on with the user key at
    which its inputs stop.  [compaction_resurrects]: otherwise a deleted key comes back,
    and the code does not prevent it. *)

From Stdlib Require Import Sorting.Sorted SpecFloat.
From stdpp Require Import sorting.
From S2P Require Import Prelude Leb128 LdbCoding LdbStatus LdbFormat LdbIterator LdbTwoLevel LdbMerger LdbTable.
From S2P Require Import LdbVersionEdit LdbDbIter LdbVersion LdbVersionRead LdbBuilder LdbCompaction.
Open Scope Z_scope.

(** * Files and builders *)

(** [E]: the database, as far as outputs need it; [B]: an open file with its builder. *)
Class CompactionEnv (E B : Type) := {
  env_NewFileNumber : E -> Z * E;
  env_Open : E -> Z -> Status * option B * E;
  b_Add : B -> list byte -> list byte -> B;
  b_NumEntries : B -> Z;
  b_FileSize : B -> Z;
  b_Finish : B -> Status * B;
  b_Abandon : B -> B;
  env_Close : E -> B -> Status * E;
  env_Verify : E -> Z -> Z -> Status * E;
}.

Record Output := mk_output { out_number : Z; out_file_size : Z; out_smallest : list byte; out_largest : list byte }.

Section Work.
Context {user_comparator : Comparator} {E B : Type} `{CompactionEnv E B}.

(** [builder] stands for the builder and the file. *)
Record CompactionState := mk_cstate {
  compaction : Compaction;
  smallest_snapshot : Z;
  outputs : list Output;
  builder : option B;
  total_bytes : Z;
}.

Definition new_CompactionState (c : Compaction) : CompactionState := mk_cstate c 0 [] None 0.

Definition set_compaction (s : CompactionState) (c : Compaction) : CompactionState :=
  mk_cstate c (smallest_snapshot s) (outputs s) (builder s) (total_bytes s).
Definition set_outputs (s : CompactionState) (outs : list Output) (b : option B) : CompactionState :=
  mk_cstate (compaction s) (smallest_snapshot s) outs b (total_bytes s).

(** On [current_output()]. *)
Definition on_current (op : Output -> Output) (outs : list Output) : list Output :=
  match list.last outs with Some out => removelast outs ++ [op out] | None => outs end.

Definition OpenCompactionOutputFile (env : E) (s : CompactionState) : Status * E * CompactionState :=
  let '(file_number, env) := env_NewFileNumber env in
  let outs := outputs s ++ [mk_output file_number 0 [] []] in
  let '(st, b, env) := env_Open env file_number in
  (st, env, set_outputs s outs (if ok st then b else builder s)).

(** [input_status]: that of the input iterator. *)
Definition FinishCompactionOutputFile (env : E) (s : CompactionState) (input_status : Status) : Status * E * CompactionState :=
  match builder s with
  | None => (input_status, env, s)
  | Some b =>
      let output_number := match list.last (outputs s) with Some out => out_number out | None => 0 end in
      let current_entries := b_NumEntries b in
      let '(st, b) := if ok input_status then b_Finish b else (input_status, b_Abandon b) in
      let current_bytes := b_FileSize b in
      let outs := on_current (fun out => mk_output (out_number out) current_bytes (out_smallest out) (out_largest out)) (outputs s) in
      let s := mk_cstate (compaction s) (smallest_snapshot s) outs None (u64 (total_bytes s + current_bytes)) in
      let '(st, env) := if ok st then env_Close env b else (st, env) in
      let '(st, env) := if ok st && (current_entries >? 0) then env_Verify env output_number current_bytes else (st, env) in
      (st, env, s)
  end.

(** ** Which entries are dropped *)

Record KeyState := mk_keys { current_user_key : list byte; has_current_user_key : bool; last_sequence_for_key : Z }.

Definition new_KeyState : KeyState := mk_keys [] false kMaxSequenceNumber.

(** Whether the entry of [key] is dropped. *)
Definition drop_entry (snapshot : Z) (c : Compaction) (ks : KeyState) (key : list byte) : run (bool * KeyState * Compaction) :=
  match ParseInternalKey key with
  | None => Done (false, mk_keys [] false kMaxSequenceNumber, c)
  | Some ikey =>
      let ks :=
        if negb (has_current_user_key ks) || negb (Compare (user_key ikey) (current_user_key ks) =? 0)
        then mk_keys (user_key ikey) true kMaxSequenceNumber else ks in
      '(drop, c) ←
        (if last_sequence_for_key ks <=? snapshot then Done (true, c)
         else if (vtype ikey =? kTypeDeletion) && (sequence ikey <=? snapshot)
         then IsBaseLevelForKey c (user_key ikey)
         else Done (false, c));
      Done (drop, mk_keys (current_user_key ks) (has_current_user_key ks) (sequence ikey), c)
  end.

(** ** The loop *)

(** An entry that is kept: the status, and a file closed when it is big enough. *)
Definition write_entry (env : E) (s : CompactionState) (key value : list byte) (input_status : Status) : Status * E * CompactionState :=
  let '(st, env, s) := match builder s with None => OpenCompactionOutputFile env s | Some _ => (OK, env, s) end in
  match ok st, builder s with
  | true, Some b =>
      let outs := if b_NumEntries b =? 0
        then on_current (fun out => mk_output (out_number out) (out_file_size out) key (out_largest out)) (outputs s) else outputs s in
      let outs := on_current (fun out => mk_output (out_number out) (out_file_size out) (out_smallest out) key) outs in
      let b := b_Add b key value in
      let s := set_outputs s outs (Some b) in
      if b_FileSize b >=? max_output_file_size_ (compaction s) then FinishCompactionOutputFile env s input_status else (st, env, s)
  | _, _ => (st, env, s)
  end.

Context {I : Type} `{Iterator I} (max_file_size : Z).

(** One turn: the status to leave with, or [OK]. *)
Definition compact_step (env : E) (s : CompactionState) (ks : KeyState) (input : I) : run (Status * E * CompactionState * KeyState) :=
  key ← key input;
  '(stop, c) ← ShouldStopBefore max_file_size (compaction s) key;
  let s := set_compaction s c in
  let '(st, env, s) :=
    if (stop : bool) && (match builder s with Some _ => true | None => false end)
    then FinishCompactionOutputFile env s (status input) else (OK, env, s) in
  if negb (ok st) then Done (st, env, s, ks)
  else
    '(drop, ks, c) ← drop_entry (smallest_snapshot s) (compaction s) ks key;
    let s := set_compaction s c in
    if (drop : bool) then Done (OK, env, s, ks)
    else
      value ← value input;
      let '(st, env, s) := write_entry env s key value (status input) in
      Done (st, env, s, ks).

(** [shutting_down n]: what the flag says before turn [n].  The compaction of an immutable
    memtable that may come between is not modelled. *)
Fixpoint compact_loop (fuel : nat) (shutting_down : nat -> bool) (n : nat) (env : E) (s : CompactionState) (ks : KeyState) (input : I)
    : run (Status * E * CompactionState * I) :=
  match fuel with
  | O => OutOfFuel
  | S fuel =>
      if Valid input && negb (shutting_down n) then
        '(st, env, s, ks) ← compact_step env s ks input;
        if negb (ok st) then Done (st, env, s, input)
        else
          input ← Next input;
          compact_loop fuel shutting_down (S n) env s ks input
      else Done (if shutting_down n then IOError (cstr "Deleting DB during compaction") [] else OK, env, s, input)
  end.

(** From the input iterator to the outputs; [snapshot]: that of the oldest snapshot, or the
    last sequence number. *)
Definition compaction_work (fuel : nat) (shutting_down : nat -> bool) (env : E) (s : CompactionState) (snapshot : Z) (input : I)
    : run (Status * E * CompactionState) :=
  let s := mk_cstate (compaction s) snapshot (outputs s) (builder s) (total_bytes s) in
  input ← SeekToFirst input;
  '(st, env, s, input) ← compact_loop fuel shutting_down 0 env s new_KeyState input;
  let '(st, env, s) :=
    if ok st && (match builder s with Some _ => true | None => false end)
    then FinishCompactionOutputFile env s (status input) else (st, env, s) in
  Done (if ok st then status input else st, env, s).

(** The edit that [InstallCompactionResults] logs. *)
Definition compaction_edit (s : CompactionState) : VersionEdit :=
  let c := compaction s in
  fold_left (fun e out => AddFile e (level_ c + 1) (out_number out) (out_file_size out) (out_smallest out) (out_largest out))
    (outputs s) (AddInputDeletions c (edit_ c)).
End Work.
Arguments CompactionState B : clear implicits.

(** * What is kept *)

Section Kept.
Context {u : Comparator} {uvalid : list byte -> Prop} {laws : ComparatorLaws uvalid u}.
Context (v : Version) (level snapshot : Z).
Implicit Types (f : FileMetaData) (e : list byte * list byte) (kvs : list (list byte * list byte)).

#[local] Abbreviation icomparator := (InternalKeyComparator u).
#[local] Abbreviation icmp := (internal_compare u).
#[local] Abbreviation ivalid := (ivalid (valid := uvalid)).
#[local] Abbreviation ientry_lt := (fun a b => icmp (fst a) (fst b) < 0).

(** The parsed key of a well formed entry. *)
Definition ikey e : ParsedInternalKey := default (mk_key [] 0 0) (ParseInternalKey (fst e)).

Definition same_key e e' : bool := Compare (user_key (ikey e)) (user_key (ikey e')) =? 0.

(** A level below the output has a file with the user key in its range. *)
Definition deeper (k : list byte) : bool :=
  existsb (fun l => existsb (falls_in (u := u) k) (level_files v l)) (seqZ (level + 2) (kNumLevels - (level + 2))).

(** Hidden by the entry before; an obsolete deletion. *)
Definition hidden (prev : option (list byte * list byte)) e : bool :=
  match prev with Some e0 => same_key e e0 && (sequence (ikey e0) <=? snapshot) | None => false end.
Definition obsolete e : bool :=
  (vtype (ikey e) =? kTypeDeletion) && (sequence (ikey e) <=? snapshot) && negb (deeper (user_key (ikey e))).
Definition dropped (prev : option (list byte * list byte)) e : bool := hidden prev e || obsolete e.

Fixpoint kept_entries (prev : option (list byte * list byte)) kvs : list (list byte * list byte) :=
  match kvs with
  | [] => []
  | e :: kvs => if dropped prev e then kept_entries (Some e) kvs else e :: kept_entries (Some e) kvs
  end.

(** ** The views of the snapshots in use do not change *)

Lemma ikey_parse e ik : ParseInternalKey (fst e) = Some ik -> ikey e = ik.
Proof. unfold ikey. by intros ->. Qed.

Lemma entry_ikey e : entry_ok (uvalid := uvalid) e -> ParseInternalKey (fst e) = Some (ikey e) /\ uvalid (user_key (ikey e)) /\
  user_key (ikey e) = ExtractUserKey (fst e) /\ key_tag (fst e) = sequence (ikey e) * 256 + vtype (ikey e) /\ 0 <= vtype (ikey e) <= 1.
Proof.
  intros ((ik & Ek) & Hv & _). rewrite (ikey_parse e ik Ek). pose proof (parse_user _ _ Ek) as Eu. destruct (tag_parts _ _ Ek).
  split; [done|]. split; [by rewrite Eu|]. by split.
Qed.

(** What the view at [s] sees of an entry. *)
Definition sees (s : Z) uk e : Prop := Compare (user_key (ikey e)) uk = 0 /\ sequence (ikey e) <= s.

(** The newest entry of a user key that [s] sees, among those of [P]. *)
Definition newest_seen (s : Z) uk (P : list byte * list byte -> Prop) e : Prop :=
  P e /\ sees s uk e /\ forall e', P e' -> sees s uk e' -> sequence (ikey e') <= sequence (ikey e).

Lemma kept_sub prev kvs e : e ∈ kept_entries prev kvs -> e ∈ kvs.
Proof.
  revert prev. induction kvs as [|x kvs IH]; intros prev; cbn [kept_entries]; [done|]. destruct (dropped prev x).
  - intros He. right. by apply (IH (Some x)).
  - intros [->|He]%elem_of_cons; [left|right; by apply (IH (Some x))].
Qed.

Lemma kept_sorted prev kvs : StronglySorted ientry_lt kvs -> StronglySorted ientry_lt (kept_entries prev kvs).
Proof.
  intros Hs. revert prev. induction Hs as [|x kvs Hs IH Hall]; intros prev; cbn [kept_entries]; [constructor|].
  destruct (dropped prev x); [apply IH|]. constructor; [apply IH|]. apply list.Forall_forall. intros y Hy%kept_sub.
  rewrite list.Forall_forall in Hall. auto.
Qed.

(** An entry that is dropped, and why. *)
Lemma kept_or_dropped kvs : Forall (entry_ok (uvalid := uvalid)) kvs -> StronglySorted ientry_lt kvs -> forall prev,
  (forall e0, prev = Some e0 -> entry_ok (uvalid := uvalid) e0 /\ Forall (fun e => icmp (fst e0) (fst e) < 0) kvs) ->
  forall e, e ∈ kvs -> e ∈ kept_entries prev kvs \/ obsolete e = true \/
    exists e0, (prev = Some e0 \/ e0 ∈ kvs) /\ same_key e e0 = true /\ sequence (ikey e0) <= snapshot /\ key_tag (fst e) < key_tag (fst e0).
Proof.
  intros Hok Hs. induction Hs as [|x kvs Hs IH Hall]; intros prev Hprev e He; [by apply not_elem_of_nil in He|].
  apply List.Forall_cons_iff in Hok as [Hx Hok]. cbn [kept_entries].
  apply elem_of_cons in He as [->|He].
  - destruct (dropped prev x) eqn:Ed; [|left; left]. right. apply orb_prop in Ed as [Ed|Ed]; [|by left]. right.
    destruct prev as [e0|]; [|done]. apply andb_prop in Ed as [Hsame Hle%Z.leb_le]. exists e0. split; [by left|]. split; [done|]. split; [done|].
    destruct (Hprev e0 eq_refl) as [Hok0 Hlt]. apply List.Forall_cons_iff in Hlt as [Hlt _]. apply icmp_lt in Hlt.
    destruct (entry_ikey x Hx) as (_ & Hvx & Eux & _), (entry_ikey e0 Hok0) as (_ & Hv0 & Eu0 & _).
    apply Z.eqb_eq in Hsame. rewrite <- Eux, <- Eu0 in Hlt. apply cmp_eq_sym in Hsame; [|done..]. lia.
  - destruct (IH Hok (Some x)) with (e := e) as [Hin|[Hobs|(e0 & Hin0 & Hrest)]].
    + intros e0 [= <-]. by split.
    + done.
    + left. destruct (dropped prev x); [done|by right].
    + by right; left.
    + right. right. exists e0. split; [|done]. right. destruct Hin0 as [[= <-]|]; [left|by right].
Qed.

(** After an entry that is old enough, older entries of its user key are not kept. *)
Lemma hidden_after kvs : Forall (entry_ok (uvalid := uvalid)) kvs -> StronglySorted ientry_lt kvs -> forall x e,
  entry_ok (uvalid := uvalid) x -> Forall (fun y => icmp (fst x) (fst y) < 0) kvs -> sequence (ikey x) <= snapshot ->
  e ∈ kvs -> same_key e x = true -> e ∉ kept_entries (Some x) kvs.
Proof.
  intros Hok Hs. induction Hs as [|y kvs Hs IH Hall]; intros x e Hx Hxs Hsnap He Hsame; [by apply not_elem_of_nil in He|].
  apply List.Forall_cons_iff in Hok as [Hy Hok]. apply List.Forall_cons_iff in Hxs as [Hxy Hxs].
  pose proof Hall as Hall'. rewrite list.Forall_forall in Hall'. cbn [kept_entries].
  destruct (entry_ikey x Hx) as (_ & Hvx & Eux & Etx & Htx), (entry_ikey y Hy) as (_ & Hvy & Euy & Ety & Hty).
  apply icmp_lt in Hxy. rewrite <- Eux, <- Euy in Hxy.
  apply elem_of_cons in He as [->|He].
  - assert (dropped (Some x) y = true) as ->.
    { unfold dropped, hidden. by rewrite Hsame, (proj2 (Z.leb_le _ _) Hsnap). }
    intros Hin%kept_sub. pose proof (Hall' y Hin) as Hlt. cbn in Hlt.
    pose proof (cmp_refl (c := icomparator) (fst y) (entry_ivalid y Hy)) as Hr. cbn in Hr. lia.
  - assert (entry_ok (uvalid := uvalid) e) as Hoke by (rewrite list.Forall_forall in Hok; auto).
    destruct (entry_ikey e Hoke) as (_ & Hve & Eue & Ete & Hte).
    pose proof (Hall' e He) as Hye. cbn in Hye. apply icmp_lt in Hye. rewrite <- Euy, <- Eue in Hye.
    apply Z.eqb_eq in Hsame. pose proof (proj1 (cmp_eq_sym _ _ Hve Hvx) Hsame) as Hsame'.
    assert (Compare (user_key (ikey y)) (user_key (ikey x)) = 0) as Hyx.
    { apply Z.le_antisymm; [apply (cmp_trans _ (user_key (ikey e))); auto; lia|]. apply cmp_le_ge; auto. lia. }
    assert (Compare (user_key (ikey e)) (user_key (ikey y)) = 0) as Hey.
    { apply (cmp_eq_trans (uvalid := uvalid) _ (user_key (ikey x))); auto. by apply cmp_eq_sym. }
    assert (e ∉ kept_entries (Some y) kvs) as Hnot.
    { apply IH; [done|done|done| |done|by apply Z.eqb_eq]. apply cmp_eq_sym in Hyx; auto. lia. }
    destruct (dropped (Some x) y); [done|]. intros [->|Hin]%elem_of_cons; [|done].
    pose proof (Hall' y He) as Hlt. cbn in Hlt. pose proof (cmp_refl (c := icomparator) (fst y) (entry_ivalid y Hy)) as Hr. cbn in Hr. lia.
Qed.

Lemma not_kept kvs : Forall (entry_ok (uvalid := uvalid)) kvs -> StronglySorted ientry_lt kvs -> forall prev m e,
  m ∈ kvs -> e ∈ kvs -> same_key e m = true -> key_tag (fst e) < key_tag (fst m) -> sequence (ikey m) <= snapshot ->
  e ∉ kept_entries prev kvs.
Proof.
  intros Hok Hs. induction Hs as [|x kvs Hs IH Hall]; intros prev m e Hm He Hsame Htag Hsnap; [by apply not_elem_of_nil in He|].
  apply List.Forall_cons_iff in Hok as [Hx Hok]. pose proof Hall as Hall'. rewrite list.Forall_forall in Hall', Hok. cbn [kept_entries].
  pose proof (cmp_refl (c := icomparator) (fst x) (entry_ivalid x Hx)) as Hr. cbn in Hr.
  apply elem_of_cons in Hm as [->|Hm]; apply elem_of_cons in He as [->|He].
  - lia.
  - assert (e ∉ kept_entries (Some x) kvs) as Hnot by (apply hidden_after; auto; by apply list.Forall_forall).
    destruct (dropped prev x); [done|]. intros [->|Hin]%elem_of_cons; [|done]. pose proof (Hall' x He) as Hlt. cbn in Hlt. lia.
  - exfalso. pose proof (Hall' m Hm) as Hlt. cbn in Hlt. apply icmp_lt in Hlt. apply Z.eqb_eq in Hsame.
    destruct (entry_ikey x Hx) as (_ & _ & Eux & _), (entry_ikey m (Hok m Hm)) as (_ & _ & Eum & _). rewrite <- Eux, <- Eum in Hlt. lia.
  - assert (e ∉ kept_entries (Some x) kvs) as Hnot by (apply (IH (proj2 (list.Forall_forall _ _) Hok) (Some x) m e); auto).
    destruct (dropped prev x); [done|]. intros [->|Hin]%elem_of_cons; [|done]. pose proof (Hall' x He) as Hlt. cbn in Hlt. lia.
Qed.

Lemma exists_max {A} (f : A -> Z) (p : A -> bool) (l : list A) x : x ∈ l -> p x = true ->
  exists m, m ∈ l /\ p m = true /\ forall y, y ∈ l -> p y = true -> f y <= f m.
Proof.
  revert x. induction l as [|a l IH]; intros x Hx Hp; [by apply not_elem_of_nil in Hx|].
  destruct (existsb p l) eqn:Ex.
  - apply existsb_exists in Ex as (b & Hb & Hpb). apply list_elem_of_In in Hb. destruct (IH b Hb Hpb) as (m & Hm & Hpm & Hmax).
    destruct (p a) eqn:Epa, (Z.le_ge_cases (f a) (f m)) as [Hle|Hge].
    1,3,4: exists m; split; [by right|split; [done|intros y [->|Hy]%elem_of_cons Hpy; [first [lia|congruence]|auto]]].
    exists a. split; [left|]. split; [done|]. intros y [->|Hy]%elem_of_cons Hpy; [lia|]. specialize (Hmax y Hy Hpy). lia.
  - assert (forall y, y ∈ l -> p y = false) as Hnone.
    { intros y Hy. apply not_true_is_false. intros Hpy. rewrite (proj2 (existsb_exists _ _)) in Ex; [done|]. exists y. by rewrite <- list_elem_of_In. }
    apply elem_of_cons in Hx as [->|Hx]; [|by rewrite Hnone in Hp]. exists a. split; [left|]. split; [done|].
    intros y [->|Hy]%elem_of_cons Hpy; [lia|]. by rewrite Hnone in Hpy.
Qed.

Section Views.
Context (inputs others : list (list byte * list byte)).
Context (inputs_ok : Forall (entry_ok (uvalid := uvalid)) inputs) (others_ok : Forall (entry_ok (uvalid := uvalid)) others).
Context (inputs_sorted : StronglySorted ientry_lt inputs).

(** The rest of the database has newer entries of a user key, or a file below the output has
    the user key in its range. *)
Definition safe : Prop := forall e o, e ∈ inputs -> o ∈ others -> Compare (user_key (ikey o)) (user_key (ikey e)) = 0 ->
  key_tag (fst e) < key_tag (fst o) \/ deeper (user_key (ikey e)) = true.

Context (rest_safe : safe) (s : Z) (s_snapshot : snapshot <= s).

#[local] Abbreviation kept := (kept_entries None inputs).
#[local] Abbreviation before := (fun e => e ∈ inputs ++ others).
#[local] Abbreviation after := (fun e => e ∈ kept ++ others).

Lemma all_entries_ok e : e ∈ inputs ++ others -> entry_ok (uvalid := uvalid) e.
Proof. rewrite list.Forall_forall in inputs_ok, others_ok. intros [He|He]%elem_of_app; auto. Qed.

Lemma after_subset e : e ∈ kept ++ others -> e ∈ inputs ++ others.
Proof. rewrite !elem_of_app. intros [He%kept_sub|He]; auto. Qed.

Lemma sees_same uk e e' : uvalid uk -> before e -> before e' -> sees s uk e -> sees s uk e' -> Compare (user_key (ikey e)) (user_key (ikey e')) = 0.
Proof.
  intros Huk He He' [H1 _] [H2 _]. destruct (entry_ikey e (all_entries_ok e He)) as (_ & Hv & _), (entry_ikey e' (all_entries_ok e' He')) as (_ & Hv' & _).
  apply (cmp_eq_trans (uvalid := uvalid) _ uk); auto. by apply cmp_eq_sym.
Qed.

Lemma sees_also uk e e0 : uvalid uk -> before e -> before e0 -> sees s uk e -> same_key e e0 = true -> sequence (ikey e0) <= snapshot -> sees s uk e0.
Proof.
  intros Huk He He0 [H1 _] Hsame%Z.eqb_eq Hle. destruct (entry_ikey e (all_entries_ok e He)) as (_ & Hv & _), (entry_ikey e0 (all_entries_ok e0 He0)) as (_ & Hv0 & _).
  split; [|lia]. apply (cmp_eq_trans (uvalid := uvalid) _ (user_key (ikey e))); auto. by apply cmp_eq_sym.
Qed.

Lemma newest_kept uk e : uvalid uk -> newest_seen s uk before e -> vtype (ikey e) = kTypeValue -> newest_seen s uk after e.
Proof.
  intros Huk (He & Hs & Hmax) Ht. split; [|split; [done|]]; [|intros e' He'; by apply Hmax, after_subset].
  pose proof He as Hb. apply elem_of_app in He as [He|He]; apply elem_of_app; [|by right]. left.
  destruct (kept_or_dropped inputs inputs_ok inputs_sorted None ltac:(done) e He) as [|[Hobs|(e0 & [?|He0] & Hsame & Hle & Htag)]]; [done| |done|].
  - apply andb_prop in Hobs as [[Hd%Z.eqb_eq _]%andb_prop _]. rewrite Ht in Hd. done.
  - exfalso. assert (e0 ∈ inputs ++ others) as Hb0 by (rewrite elem_of_app; by left).
    pose proof (Hmax e0 Hb0 (sees_also uk e e0 Huk Hb Hb0 Hs Hsame Hle)) as Hseq.
    destruct (entry_ikey e (all_entries_ok e Hb)) as (_ & _ & _ & Ete & _), (entry_ikey e0 (all_entries_ok e0 Hb0)) as (_ & _ & _ & Et0 & Hty0).
    unfold kTypeValue in Ht. lia.
Qed.

(** The newest entry that [s] sees, if it is dropped, is an obsolete deletion, and nothing
    older stays. *)
Lemma newest_after uk e : uvalid uk -> newest_seen s uk after e -> vtype (ikey e) = kTypeValue -> newest_seen s uk before e.
Proof.
  intros Huk (He & Hs & Hmax) Ht. pose proof (after_subset e He) as Hb. split; [done|]. split; [done|].
  set (p := fun e => (Compare (user_key (ikey e)) uk =? 0) && (sequence (ikey e) <=? s)).
  assert (forall x, p x = true <-> sees s uk x) as Hp.
  { intros x. unfold p, sees. by rewrite andb_true_iff, Z.eqb_eq, Z.leb_le. }
  destruct (exists_max (fun x => key_tag (fst x)) p (inputs ++ others) e Hb (proj2 (Hp e) Hs)) as (m & Hm & Hsm%Hp & Hmaxm).
  assert (forall x, before x -> sees s uk x -> sequence (ikey x) <= sequence (ikey m)) as Hseqm.
  { intros x Hx Hsx. pose proof (Hmaxm x Hx (proj2 (Hp x) Hsx)) as Hle.
    destruct (entry_ikey x (all_entries_ok x Hx)) as (_ & _ & _ & Etx & Htx), (entry_ikey m (all_entries_ok m Hm)) as (_ & _ & _ & Etm & Htm). lia. }
  destruct (decide (m ∈ kept ++ others)) as [Hin|Hnot]; [intros x Hx Hsx; specialize (Hmax m Hin Hsm); specialize (Hseqm x Hx Hsx); lia|].
  exfalso. rewrite elem_of_app in Hnot. pose proof Hm as Hmi. apply elem_of_app in Hmi as [Hmi|]; [|tauto].
  destruct (entry_ikey m (all_entries_ok m Hm)) as (_ & Hvm & Eum & Etm & Htm), (entry_ikey e (all_entries_ok e Hb)) as (_ & Hve & Eue & Ete & Hte).
  pose proof (sees_same uk e m Huk Hb Hm Hs Hsm) as Hsame.
  destruct (kept_or_dropped inputs inputs_ok inputs_sorted None ltac:(done) m Hmi) as [|[Hobs|(e0 & [?|He0] & Hsame0 & Hle0 & Htag0)]]; [tauto| |done|].
  2: { assert (e0 ∈ inputs ++ others) as Hb0 by (rewrite elem_of_app; by left).
    pose proof (Hmaxm e0 Hb0 (proj2 (Hp e0) (sees_also uk m e0 Huk Hm Hb0 Hsm Hsame0 Hle0))). lia. }
  apply andb_prop in Hobs as [[Hdel%Z.eqb_eq Hlm%Z.leb_le]%andb_prop Hdeep%negb_true_iff].
  pose proof (Hmaxm e Hb (proj2 (Hp e) Hs)) as Htag. assert (key_tag (fst e) < key_tag (fst m)) as Hlt.
  { unfold kTypeDeletion, kTypeValue in *. lia. }
  apply elem_of_app in He as [He|He].
  - pose proof (kept_sub _ _ _ He) as Hei. revert He.
    apply (not_kept inputs inputs_ok inputs_sorted None m e); [done|done|by apply Z.eqb_eq|done|done].
  - destruct (rest_safe m e Hmi He Hsame) as [Hc|Hc]; [lia|congruence].
Qed.

End Views.

(** With the entries of the inputs and of the rest of the database. *)
Lemma kept_views inputs others kvs kvs' s : Forall (entry_ok (uvalid := uvalid)) kvs ->
  StronglySorted ientry_lt inputs -> StronglySorted ientry_lt kvs -> StronglySorted ientry_lt kvs' ->
  kvs ≡ₚ inputs ++ others -> kvs' ≡ₚ kept_entries None inputs ++ others -> safe inputs others ->
  0 <= s < 2 ^ 56 -> snapshot <= s ->
  forall uk val, (uk, val) ∈ user_view s kvs' <-> (uk, val) ∈ user_view s kvs.
Proof.
  intros Hok Hsi Hsort Hsort' Hperm Hperm' Hsafe Hs Hsnap uk val.
  assert (Forall (entry_ok (uvalid := uvalid)) inputs /\ Forall (entry_ok (uvalid := uvalid)) others) as [Hoki Hoko] by (rewrite Hperm in Hok; by apply List.Forall_app).
  assert (Forall (entry_ok (uvalid := uvalid)) kvs') as Hok'.
  { rewrite Hperm'. apply List.Forall_app. split; [|done]. rewrite list.Forall_forall in *. intros e He%kept_sub. auto. }
  assert (forall l, Forall (entry_ok (uvalid := uvalid)) l -> StronglySorted ientry_lt l ->
    (uk, val) ∈ user_view s l <-> exists e, newest_seen s uk (fun x => x ∈ l) e /\ user_key (ikey e) = uk /\ snd e = val /\ vtype (ikey e) = kTypeValue) as Hview.
  { intros l Hl Hsl. rewrite (user_view_newest s Hs l Hl Hsl uk val). pose proof Hl as Hl'. rewrite list.Forall_forall in Hl'. split.
    - intros (k & ik & Hin & Ek & Eu & Hle & Ht & Hmax). destruct (entry_ikey (k, val) (Hl' _ Hin)) as (Ek' & Hv & _). pose proof (ikey_parse (k, val) ik Ek) as Ei.
      exists (k, val). rewrite Ei. split; [|done]. split; [done|]. rewrite Ei. split; [split; rewrite Ei; [rewrite <- Eu; apply cmp_refl; by rewrite Ei in Hv|done]|].
      intros [k' w] Hin' [Hu' Hs']. destruct (entry_ikey (k', w) (Hl' _ Hin')) as (Ek1 & _). by apply (Hmax k' w (ikey (k', w))).
    - intros ([k w] & (Hin & [Hu Hle] & Hmax) & Eu & Ew & Ht). cbn [snd] in Ew. subst w. destruct (entry_ikey (k, val) (Hl' _ Hin)) as (Ek & _).
      exists k, (ikey (k, val)). split; [done|]. split; [done|]. split; [done|]. split; [done|]. split; [done|].
      intros k' w' ik' Hin' Ek' Hs' Hu'. pose proof (ikey_parse (k', w') ik' Ek') as Ei. rewrite <- Ei. apply Hmax; [done|]. by split; rewrite Ei. }
  assert (forall (l l' : list (list byte * list byte)) e, l ≡ₚ l' -> newest_seen s uk (fun x => x ∈ l) e <-> newest_seen s uk (fun x => x ∈ l') e) as Hp.
  { intros l l' e Hll. unfold newest_seen. rewrite Hll. split; intros (H1 & H2 & H3); (split; [done|]; split; [done|]; intros e'; [rewrite <- Hll || rewrite Hll]; auto). }
  rewrite (Hview kvs' Hok' Hsort'), (Hview kvs Hok Hsort). split; intros (e & Hn & Eu & Ev & Ht); exists e; (split; [|done]).
  - apply (Hp kvs _ e Hperm). apply (Hp kvs' _ e Hperm') in Hn. apply newest_after; auto. destruct Hn as (He & _).
    rewrite <- Eu. apply (entry_ikey e). apply (all_entries_ok inputs others Hoki Hoko). by apply after_subset.
  - apply (Hp kvs' _ e Hperm'). apply (Hp kvs _ e Hperm) in Hn. apply newest_kept; auto. destruct Hn as (He & _).
    rewrite <- Eu. apply (entry_ikey e). by apply (all_entries_ok inputs others Hoki Hoko).
Qed.
End Kept.

(** ** The inputs of a compaction of a version *)

#[export] Instance FileMetaData_eq_dec : EqDecision FileMetaData.
Proof. solve_decision. Defined.

Section Whole.
Context {u : Comparator} {uvalid : list byte -> Prop} {laws : ComparatorLaws uvalid u}.
Context (contents : Z -> Z -> option (list (list byte * list byte))).
Context (v : Version) (v_good : version_good (u := u) (uvalid := uvalid) contents v).
Context (level : Z) (Hlev : 0 <= level) (Hlev' : level + 2 <= kNumLevels) (c : Compaction) (c_ok : compaction_ok (u := u) v level c).
Implicit Types (f g : FileMetaData) (e o : list byte * list byte).

#[local] Abbreviation icomparator := (InternalKeyComparator u).
#[local] Abbreviation icmp := (internal_compare u).
#[local] Abbreviation ivalid := (ivalid (valid := uvalid)).
#[local] Abbreviation ientry_lt := (fun a b => icmp (fst a) (fst b) < 0).
#[local] Abbreviation ents := (ents contents).
#[local] Abbreviation same_user a b := (Compare (ExtractUserKey a) (ExtractUserKey b) = 0).
#[local] Abbreviation start f := (ExtractUserKey (smallest f)).
#[local] Abbreviation limit f := (ExtractUserKey (largest f)).

(** The files of a level that are not inputs. *)
Definition is_input (l : Z) f : bool :=
  (l =? level_ c) && bool_decide (f ∈ inputs_0 c) || (l =? level_ c + 1) && bool_decide (f ∈ inputs_1 c).
Definition rest_files (l : Z) : list FileMetaData := List.filter (fun f => negb (is_input l f)) (level_files v l).

Definition input_entries : list (list byte * list byte) := entries_of contents (inputs_0 c ++ inputs_1 c).
Definition rest_entries : list (list byte * list byte) := concat (map (fun l => entries_of contents (rest_files l)) (seqZ 0 kNumLevels)).

Lemma good_file l f : f ∈ level_files v l -> file_good (u := u) (uvalid := uvalid) contents f.
Proof. apply (vg_files _ v v_good). Qed.

Lemma user_in_range f e : file_good (u := u) (uvalid := uvalid) contents f -> e ∈ ents f ->
  uvalid (ExtractUserKey (fst e)) /\ uvalid (start f) /\ uvalid (limit f) /\
  Compare (start f) (ExtractUserKey (fst e)) <= 0 /\ Compare (ExtractUserKey (fst e)) (limit f) <= 0.
Proof.
  intros Hf He. destruct (fg_bounds _ f Hf e He) as [H1 H2]. apply icmp_le in H1, H2.
  destruct (file_range f (fg_range _ f Hf)) as (Hs & Hl & _), (ents_ivalid (uvalid := uvalid) contents f e Hf He) as [_ Hv].
  split; [done|]. split; [done|]. split; [done|]. lia.
Qed.

Lemma apart_differ f g e o : file_good (u := u) (uvalid := uvalid) contents f -> file_good (u := u) (uvalid := uvalid) contents g -> e ∈ ents f -> o ∈ ents g ->
  Compare (limit f) (start g) < 0 -> Compare (ExtractUserKey (fst e)) (ExtractUserKey (fst o)) < 0.
Proof.
  intros Hf Hg He Ho Hlt. destruct (user_in_range f e Hf He) as (Hve & _ & Hl & _ & H2), (user_in_range g o Hg Ho) as (Hvo & Hs & _ & H3 & _).
  apply (cmp_trans_lt_r _ (limit f)); auto. apply (cmp_trans_lt _ (start g)); auto.
Qed.

Lemma same_user_tag e o : uvalid (ExtractUserKey (fst e)) -> uvalid (ExtractUserKey (fst o)) -> same_user (fst o) (fst e) ->
  icmp (fst o) (fst e) < 0 -> key_tag (fst e) < key_tag (fst o).
Proof. intros He Ho Hs Hlt. apply icmp_lt in Hlt. lia. Qed.

(** An entry of a file that the inputs of its level leave is newer. *)
Lemma sealed_newer l inputs f g e o : 0 <= l -> sealed (u := u) l (level_files v l) inputs -> f ∈ inputs -> g ∈ level_files v l -> g ∉ inputs ->
  e ∈ ents f -> o ∈ ents g -> same_user (fst o) (fst e) -> key_tag (fst e) < key_tag (fst o).
Proof.
  intros Hl Hsealed Hf Hg Hng He Ho Hsame. pose proof (sealed_sub l _ inputs f Hsealed Hf) as Hfl.
  pose proof (good_file l f Hfl) as Gf. pose proof (good_file l g Hg) as Gg.
  destruct (user_in_range f e Gf He) as (Hve & _), (user_in_range g o Gg Ho) as (Hvo & _).
  pose proof (cmp_eq_sym _ _ Hvo Hve) as Hsym. unfold sealed in Hsealed. destruct (Z.eqb_spec l 0) as [E0|Hne].
  - destruct Hsealed as (p & -> & Hap). assert (p f = true) as Hpf by (by apply list_elem_of_In, filter_In in Hf as [_ ?]).
    assert (p g = false) as Hpg by (apply not_true_is_false; intros Hp; apply Hng, list_elem_of_In, filter_In; by rewrite <- list_elem_of_In).
    exfalso. destruct (Hap f g Hfl Hg Hpf Hpg) as [Hlt|Hlt]; [pose proof (apart_differ f g e o Gf Gg He Ho Hlt)|pose proof (apart_differ g f o e Gg Gf Ho He Hlt)]; lia.
  - destruct Hsealed as (pre & post & El & Hend). pose proof Hg as Hg'. rewrite El, !elem_of_app in Hg'. destruct Hg' as [Hg'|[Hg'|Hg']]; [|done|].
    + pose proof (vg_disjoint _ v v_good l ltac:(lia)) as Hd. rewrite El in Hd. apply disjoint_app in Hd as (Hd & _).
      specialize (Hd g f Hg' ltac:(rewrite elem_of_app; by left)). destruct (fg_bounds _ f Gf e He) as [H1 _], (fg_bounds _ g Gg o Ho) as [_ H2].
      destruct (fg_range _ f Gf) as (Hvs & _), (fg_range _ g Gg) as (_ & Hvl & _).
      pose proof (ents_ivalid (uvalid := uvalid) contents f e Gf He) as Hie. pose proof (ents_ivalid (uvalid := uvalid) contents g o Gg Ho) as Hio.
      pose proof (cmp_trans_lt_r (c := icomparator) _ _ _ Hio Hvl Hvs H2 Hd) as H3.
      pose proof (cmp_trans_lt (c := icomparator) _ _ _ Hio Hvs Hie H3 H1) as H4. apply icmp_lt in H4. lia.
    + pose proof (apart_differ f g e o Gf Gg He Ho (Hend f g Hf Hg')). lia.
Qed.

Lemma upper_newer i j f g e o : 0 <= i < j -> g ∈ level_files v i -> f ∈ level_files v j -> e ∈ ents f -> o ∈ ents g -> same_user (fst o) (fst e) ->
  key_tag (fst e) < key_tag (fst o).
Proof. intros Hij Hg Hf He Ho Hs. pose proof (vg_newer _ v v_good i j g f Hij Hg Hf o e Ho He Hs) as Hlt. apply icmp_lt in Hlt. lia. Qed.

Lemma deeper_entry l g o e : level + 2 <= l < kNumLevels -> g ∈ level_files v l -> o ∈ ents g -> uvalid (ExtractUserKey (fst e)) ->
  same_user (fst o) (fst e) -> deeper (u := u) v level (ExtractUserKey (fst e)) = true.
Proof.
  intros Hl Hg Ho Hve Hs. destruct (user_in_range g o (good_file l g Hg) Ho) as (Hvo & Hs1 & Hs2 & H1 & H2).
  apply existsb_exists. exists l. split; [apply list_elem_of_In, elem_of_seqZ; lia|]. apply existsb_exists. exists g.
  split; [by apply list_elem_of_In|]. unfold falls_in. apply andb_true_intro. pose proof (proj1 (cmp_eq_sym _ _ Hvo Hve) Hs) as Hs'. split.
  - apply Z.leb_le. apply (cmp_trans _ (ExtractUserKey (fst o))); auto. lia.
  - apply Z.geb_le, cmp_le_ge; auto. apply (cmp_trans _ (ExtractUserKey (fst o))); auto. lia.
Qed.

(** What is not in the range of the inputs has other user keys. *)
Lemma not_in_range f g e o : f ∈ inputs_0 c -> g ∈ level_files v (level + 1) -> g ∉ inputs_1 c -> e ∈ ents f -> o ∈ ents g ->
  ~ same_user (fst o) (fst e).
Proof.
  destruct c_ok as (_ & _ & (Hne & Hsealed & E1) & _). intros Hf Hg Hng He Ho Hsame.
  assert (forall h, h ∈ inputs_0 c -> h ∈ level_files v level) as Hsub by (intros h; by apply (sealed_sub level)).
  assert (Forall (file_ok (u := u) (uvalid := uvalid)) (inputs_0 c)) as Hok by (apply list.Forall_forall; intros h Hh; by apply (fg_range contents), (good_file level), Hsub).
  destruct (GetRange_ok (inputs_0 c) Hok Hne) as ([_ Ha] & [_ Hb] & Hall & _). destruct (Hall f Hf) as [H1 H2]. apply icmp_le in H1, H2.
  destruct (user_in_range f e (good_file level f (Hsub f Hf)) He) as (Hve & Hs & Hl & H3 & H4), (user_in_range g o (good_file _ g Hg) Ho) as (Hvo & Hs' & Hl' & H5 & H6).
  apply Hng. rewrite E1. apply list_elem_of_In, filter_In. split; [by apply list_elem_of_In|]. pose proof (proj1 (cmp_eq_sym _ _ Hvo Hve) Hsame) as Hsame'.
  assert (forall a b d, uvalid a -> uvalid b -> uvalid d -> Compare a b <= 0 -> Compare b d <= 0 -> Compare a d <= 0) as Ht by (intros a b d; apply cmp_trans).
  unfold range_overlaps_of, overlaps. apply andb_true_intro. split; apply negb_true_iff.
  - apply Z.ltb_ge, cmp_le_ge; auto. apply (Ht _ (ExtractUserKey (fst e))); auto; [apply (Ht _ (start f)); auto; lia|]. apply (Ht _ (ExtractUserKey (fst o))); auto. lia.
  - rewrite Z.gtb_ltb. apply Z.ltb_ge. apply (Ht _ (ExtractUserKey (fst e))); auto; [apply (Ht _ (ExtractUserKey (fst o))); auto; lia|]. apply (Ht _ (limit f)); auto; lia.
Qed.

(** ** The hypothesis on the rest *)

Context (mem : list (list byte * list byte)) (mem_ok : Forall (entry_ok (uvalid := uvalid)) mem).
Context (mem_newer : forall e m, e ∈ version_entries contents v -> m ∈ mem -> same_user (fst m) (fst e) -> key_tag (fst e) < key_tag (fst m)).
Context (next_sealed : sealed (u := u) (level + 1) (level_files v (level + 1)) (inputs_1 c)).

Lemma is_input_level l f : is_input l f = true <-> l = level /\ f ∈ inputs_0 c \/ l = level + 1 /\ f ∈ inputs_1 c.
Proof.
  destruct c_ok as (El & _). unfold is_input. rewrite El, orb_true_iff, !andb_true_iff, !Z.eqb_eq, !bool_decide_eq_true. done.
Qed.

Lemma elem_of_rest o : o ∈ rest_entries <-> exists l g, 0 <= l < kNumLevels /\ g ∈ level_files v l /\ is_input l g = false /\ o ∈ ents g.
Proof.
  unfold rest_entries. rewrite list_elem_of_In, in_concat. split.
  - intros (es & (l & <- & Hl)%in_map_iff & Ho). apply list_elem_of_In, elem_of_seqZ in Hl. apply list_elem_of_In, elem_of_entries_of in Ho as (g & Hg & Ho).
    apply list_elem_of_In, filter_In in Hg as [Hg Hn%negb_true_iff]. apply list_elem_of_In in Hg. exists l, g. split; [lia|done].
  - intros (l & g & Hl & Hg & Hn & Ho). exists (entries_of contents (rest_files l)). split; [apply in_map_iff; exists l; split; [done|]; apply list_elem_of_In, elem_of_seqZ; lia|].
    apply list_elem_of_In, elem_of_entries_of. exists g. split; [|done]. apply list_elem_of_In, filter_In. split; [by apply list_elem_of_In|by rewrite Hn].
Qed.

Lemma elem_of_inputs e : e ∈ input_entries <-> exists f, (f ∈ inputs_0 c \/ f ∈ inputs_1 c) /\ e ∈ ents f.
Proof. unfold input_entries. rewrite elem_of_entries_of. by setoid_rewrite elem_of_app. Qed.

Lemma input_sub0 f : f ∈ inputs_0 c -> f ∈ level_files v level.
Proof. destruct c_ok as (_ & _ & (_ & Hs & _) & _). by apply (sealed_sub level). Qed.

Lemma input_sub1 f : f ∈ inputs_1 c -> f ∈ level_files v (level + 1).
Proof. by apply (sealed_sub (level + 1)). Qed.

Lemma input_newer e o : e ∈ input_entries -> o ∈ rest_entries -> uvalid (ExtractUserKey (fst e)) -> same_user (fst o) (fst e) ->
  key_tag (fst e) < key_tag (fst o) \/ deeper (u := u) v level (ExtractUserKey (fst e)) = true.
Proof.
  rewrite elem_of_inputs, elem_of_rest. intros (f & Hf & He) (l & g & Hl & Hg & Hn & Ho) Hv Hs.
  pose proof Hn as Hn'. rewrite <- not_true_iff_false, is_input_level in Hn'. destruct c_ok as (_ & _ & (_ & Hsealed & _) & _).
  destruct (Z.le_gt_cases (level + 2) l) as [Hdeep|Hup]; [right; apply (deeper_entry l g o e); [lia|done..]|]. left.
  destruct Hf as [Hf|Hf].
  - destruct (decide (l = level + 1)) as [->|Hne1]; [exfalso; apply (not_in_range f g e o); tauto|].
    destruct (decide (l = level)) as [->|Hne0]; [apply (sealed_newer level (inputs_0 c) f g); tauto|].
    apply (upper_newer l level f g); [lia|done|by apply input_sub0|done..].
  - destruct (decide (l = level + 1)) as [->|Hne1]; [apply (sealed_newer (level + 1) (inputs_1 c) f g); try tauto; lia|].
    apply (upper_newer l (level + 1) f g); [lia|done|by apply input_sub1|done..].
Qed.

Lemma input_entry_ok e : e ∈ input_entries -> entry_ok (uvalid := uvalid) e /\ e ∈ version_entries contents v.
Proof.
  rewrite elem_of_inputs. intros (f & Hf & He). assert (exists l, 0 <= l < kNumLevels /\ f ∈ level_files v l) as (l & Hl & Hfl).
  { destruct Hf as [Hf|Hf]; [exists level; split; [lia|by apply input_sub0]|exists (level + 1); split; [lia|by apply input_sub1]]. }
  pose proof (fg_entries _ f (good_file l f Hfl)) as Hall. rewrite list.Forall_forall in Hall. split; [auto|].
  apply (in_all_levels contents v e (vg_levels _ v v_good)). exists l. split; [unfold kNumLevels in *; lia|]. apply elem_of_entries_of. by exists f.
Qed.

Lemma rest_entry_ok o : o ∈ rest_entries -> entry_ok (uvalid := uvalid) o.
Proof.
  rewrite elem_of_rest. intros (l & g & _ & Hg & _ & Ho). pose proof (fg_entries _ g (good_file l g Hg)) as Hall. rewrite list.Forall_forall in Hall. auto.
Qed.

Lemma inputs_safe inputs : inputs ≡ₚ input_entries -> safe (u := u) v level inputs (mem ++ rest_entries).
Proof.
  intros Hperm e o He Ho. rewrite Hperm in He. destruct (input_entry_ok e He) as [Hoke Hin]. destruct (entry_ikey e Hoke) as (_ & Hve & Eu & _).
  assert (entry_ok (uvalid := uvalid) o) as Hoko.
  { apply elem_of_app in Ho as [Ho|Ho]; [rewrite list.Forall_forall in mem_ok; auto|by apply rest_entry_ok]. }
  destruct (entry_ikey o Hoko) as (_ & _ & Eu' & _). rewrite Eu, Eu' in *. intros Hs.
  apply elem_of_app in Ho as [Ho|Ho]; [left; by apply mem_newer|by apply input_newer].
Qed.

(** ** All entries of the version *)

Lemma filter_member p files : List.filter (fun f => bool_decide (f ∈ List.filter p files)) files = List.filter p files.
Proof.
  apply filter_ext_in. intros f Hf. apply eq_true_iff_eq. rewrite bool_decide_eq_true, list_elem_of_In, filter_In. tauto.
Qed.

Lemma run_member pre inputs post : NoDup (pre ++ inputs ++ post) -> List.filter (fun f => bool_decide (f ∈ inputs)) (pre ++ inputs ++ post) = inputs.
Proof.
  intros (_ & H1 & H2)%list.NoDup_app. apply list.NoDup_app in H2 as (_ & H2 & _). rewrite !List.filter_app.
  rewrite (filter_none _ pre), (filter_true _ inputs), (filter_none _ post); [by rewrite app_nil_r|..]; intros f Hf.
  - apply bool_decide_eq_false_2. intros Hi. by apply (H2 f).
  - by apply bool_decide_eq_true_2.
  - apply bool_decide_eq_false_2. intros Hi. apply (H1 f Hf). rewrite elem_of_app. by left.
Qed.

Lemma disjoint_nodup files : Forall (file_ok (u := u) (uvalid := uvalid)) files -> disjoint (u := u) files -> NoDup files.
Proof.
  intros Hok Hd. induction Hd as [|f files Hd IH Hall]; [constructor|]. apply List.Forall_cons_iff in Hok as [(Hs & Hl & Hle) Hok].
  apply list.NoDup_cons. split; [|by apply IH]. intros Hin. rewrite list.Forall_forall in Hall. pose proof (Hall f Hin) as Hlt. cbn in Hlt.
  pose proof (cmp_trans_lt (c := icomparator) _ _ _ Hl Hs Hl Hlt Hle) as Hbad. pose proof (cmp_refl (c := icomparator) _ Hl) as Hr. cbn in Hbad, Hr. lia.
Qed.

Lemma sealed_member l inputs : 0 <= l -> sealed (u := u) l (level_files v l) inputs ->
  List.filter (fun f => bool_decide (f ∈ inputs)) (level_files v l) = inputs.
Proof.
  intros Hl. unfold sealed. destruct (Z.eqb_spec l 0) as [E0|Hne].
  - intros (p & -> & _). apply filter_member.
  - intros (pre & post & E1 & _). rewrite E1. apply run_member. rewrite <- E1. apply disjoint_nodup; [|apply (vg_disjoint _ v v_good); lia].
    apply list.Forall_forall. intros f Hf. by apply (fg_range contents), (good_file l).
Qed.

Lemma entries_of_app l l' : entries_of contents (l ++ l') = entries_of contents l ++ entries_of contents l'.
Proof. unfold entries_of. by rewrite map_app, concat_app. Qed.

Lemma entries_of_perm l l' : l ≡ₚ l' -> entries_of contents l ≡ₚ entries_of contents l'.
Proof. intros Hp. unfold entries_of. by rewrite Hp. Qed.

Lemma filter_split {A} (p : A -> bool) (l : list A) : l ≡ₚ List.filter p l ++ List.filter (fun x => negb (p x)) l.
Proof.
  induction l as [|x l IH]; [done|]. cbn [List.filter]. destruct (p x); cbn [negb app]; [by constructor|]. rewrite <- Permutation_middle. by constructor.
Qed.

Lemma concat_partition {A} (p q r : Z -> list A) ls : (forall l, l ∈ ls -> p l ≡ₚ q l ++ r l) -> concat (map p ls) ≡ₚ concat (map q ls) ++ concat (map r ls).
Proof.
  induction ls as [|l ls IH]; intros Hp; [done|]. cbn [map concat]. rewrite (Hp l) by left. rewrite IH by (intros; apply Hp; by right). solve_Permutation.
Qed.

Lemma concat_none {A} (q : Z -> list A) ls : (forall l, l ∈ ls -> q l = []) -> concat (map q ls) = [].
Proof. induction ls as [|l ls IH]; intros Hq; [done|]. cbn [map concat]. rewrite (Hq l) by left. apply IH. intros l' Hl'. apply Hq. by right. Qed.

Lemma version_split : version_entries contents v ≡ₚ input_entries ++ rest_entries.
Proof.
  assert (version_entries contents v = concat (map (fun l => entries_of contents (level_files v l)) (seqZ 0 kNumLevels))) as ->.
  { pose proof (vg_levels _ v v_good) as Hlen. unfold version_entries, level_files.
    destruct (files_ v) as [|l0 [|l1 [|l2 [|l3 [|l4 [|l5 [|l6 [|]]]]]]]]; try discriminate Hlen. reflexivity. }
  rewrite (concat_partition _ (fun l => entries_of contents (List.filter (is_input l) (level_files v l))) (fun l => entries_of contents (rest_files l)))
    by (intros l _; rewrite <- entries_of_app; apply entries_of_perm, filter_split).
  apply Permutation_app; [|done].
  assert (seqZ 0 kNumLevels = seqZ 0 level ++ [level; level + 1] ++ seqZ (level + 2) (kNumLevels - (level + 2))) as ->.
  { remember (kNumLevels - (level + 2)) as n eqn:En. assert (kNumLevels = level + (2 + n)) as -> by lia.
    rewrite (seqZ_app 0 level (2 + n)), (seqZ_app _ 2 n) by lia. f_equal. replace (0 + level) with level by lia.
    f_equal. rewrite (seqZ_cons level 2), (seqZ_cons (Z.succ level)) by lia. cbn. by rewrite Z.add_1_r. }
  assert (forall l, l <> level -> l <> level + 1 -> entries_of contents (List.filter (is_input l) (level_files v l)) = []) as Hnone.
  { intros l H0 H1. rewrite filter_none; [done|]. intros f _. apply not_true_is_false. rewrite is_input_level. lia. }
  destruct c_ok as (_ & _ & (_ & Hsealed & _) & _).
  rewrite map_app, concat_app, (concat_none _ (seqZ 0 level)) by (intros l Hl%elem_of_seqZ; apply Hnone; lia).
  rewrite map_app, concat_app, (concat_none _ (seqZ (level + 2) _)) by (intros l Hl%elem_of_seqZ; apply Hnone; lia).
  cbn [map concat app]. rewrite !app_nil_r. unfold input_entries. rewrite entries_of_app. apply Permutation_refl'. f_equal; f_equal.
  - rewrite <- (sealed_member level (inputs_0 c) Hlev Hsealed). apply filter_ext. intros f. apply eq_true_iff_eq. rewrite is_input_level, bool_decide_eq_true. intuition lia.
  - rewrite <- (sealed_member (level + 1) (inputs_1 c) ltac:(lia) next_sealed). apply filter_ext. intros f. apply eq_true_iff_eq. rewrite is_input_level, bool_decide_eq_true. intuition lia.
Qed.

(** When the inputs, merged, are replaced by what is kept of them. *)
Lemma kept_version_views snapshot inputs kvs kvs' s : StronglySorted ientry_lt inputs -> inputs ≡ₚ input_entries ->
  StronglySorted ientry_lt kvs -> kvs ≡ₚ mem ++ version_entries contents v ->
  StronglySorted ientry_lt kvs' -> kvs' ≡ₚ mem ++ rest_entries ++ kept_entries (u := u) v level snapshot None inputs ->
  0 <= s < 2 ^ 56 -> snapshot <= s ->
  forall uk val, (uk, val) ∈ user_view s kvs' <-> (uk, val) ∈ user_view s kvs.
Proof.
  intros Hsi Hpi Hsort Hperm Hsort' Hperm' Hs Hsnap. apply (kept_views v level snapshot inputs (mem ++ rest_entries)); [|done|done|done| | | |done|done].
  - rewrite Hperm, version_split. rewrite !List.Forall_app. split; [done|]. split; apply list.Forall_forall; [intros e He; by apply input_entry_ok|apply rest_entry_ok].
  - rewrite Hperm, version_split, Hpi. solve_Permutation.
  - rewrite Hperm'. solve_Permutation.
  - by apply inputs_safe.
Qed.
End Whole.

(** * What is written *)

Section Contract.
Context {u : Comparator}.

(** [written b]: the entries added to the file [b] of number [b_number b]; [file env n]: the
    entries of the finished table of number [n]; [next env]: the next number. *)
Class CompactionEnvLaws (E B : Type) `{CompactionEnv E B} (written : B -> list (list byte * list byte)) (b_number : B -> Z)
    (file : E -> Z -> option (list (list byte * list byte))) (next : E -> Z) : Prop := {
  el_new env : exists env', env_NewFileNumber env = (next env, env') /\ next env' = next env + 1 /\ forall m, file env' m = file env m;
  el_open env n st b env' : env_Open env n = (st, b, env') -> next env' = next env /\ (forall m, m <> n -> file env' m = file env m) /\
    (st = OK -> exists b', b = Some b' /\ written b' = [] /\ b_number b' = n);
  el_add b k v : written (b_Add b k v) = written b ++ [(k, v)] /\ b_number (b_Add b k v) = b_number b;
  el_entries b : b_NumEntries b = Z.of_nat (length (written b));
  el_finish b : written (snd (b_Finish b)) = written b /\ b_number (snd (b_Finish b)) = b_number b;
  el_close env b st env' : env_Close env b = (st, env') -> next env' = next env /\ (forall m, m <> b_number b -> file env' m = file env m) /\
    (st = OK -> StronglySorted (fun x y => internal_compare u (fst x) (fst y) < 0) (written b) -> written b <> [] ->
      file env' (b_number b) = Some (written b));
  el_verify env n sz st env' : env_Verify env n sz = (st, env') -> next env' = next env /\ forall m, file env' m = file env m;
}.
End Contract.
Arguments CompactionEnvLaws {u} E B {_} written b_number file next.

Section Loop.
Context {u : Comparator} {uvalid : list byte -> Prop} {laws : ComparatorLaws uvalid u}.
Context {E B : Type} {cenv : CompactionEnv E B}.
Context (written : B -> list (list byte * list byte)) (b_number : B -> Z) (file : E -> Z -> option (list (list byte * list byte))) (next : E -> Z).
Context {elaws : CompactionEnvLaws (u := u) E B written b_number file next}.
Implicit Types (e : list byte * list byte) (kvs l : list (list byte * list byte)) (s : CompactionState B) (env : E).

#[local] Abbreviation icomparator := (InternalKeyComparator u).
#[local] Abbreviation icmp := (internal_compare u).
#[local] Abbreviation ivalid := (ivalid (valid := uvalid)).
#[local] Abbreviation ientry_lt := (fun a b => icmp (fst a) (fst b) < 0).

(** The range of an output is that of its entries. *)
Definition spans (out : Output) l : Prop :=
  exists e e', head l = Some e /\ list.last l = Some e' /\ out_smallest out = fst e /\ out_largest out = fst e'.

(** Finished outputs, of the entries [ls], and the open one, of the entries [cur]. *)
Record outputs_ok env s (ls : list (list (list byte * list byte))) (cur : list (list byte * list byte)) : Prop := {
  ok_done : exists done rest, outputs s = done ++ rest /\
    Forall2 (fun out l => file env (out_number out) = Some l /\ spans out l) done ls /\
    match builder s with
    | Some b => exists out, rest = [out] /\ written b = cur /\ b_number b = out_number out /\ spans out cur
    | None => rest = [] /\ cur = []
    end;
  ok_numbers : NoDup (map out_number (outputs s)) /\ Forall (fun out => out_number out < next env) (outputs s);
}.

Lemma on_current_snoc op outs out : on_current op (outs ++ [out]) = outs ++ [op out].
Proof. unfold on_current. rewrite list.last_snoc. by rewrite removelast_last. Qed.

(** Files of other numbers stay. *)
Lemma done_stay env env' done ls : (forall out, out ∈ done -> file env' (out_number out) = file env (out_number out)) ->
  Forall2 (fun out l => file env (out_number out) = Some l /\ spans out l) done ls ->
  Forall2 (fun out l => file env' (out_number out) = Some l /\ spans out l) done ls.
Proof.
  intros Hsame Hall. induction Hall as [|out l done ls [Hf Hs] Hall IH]; [constructor|]. constructor.
  - split; [|done]. rewrite Hsame by left. done.
  - apply IH. intros out' Hout'. apply Hsame. by right.
Qed.

Lemma not_in_done done out : NoDup (map out_number (done ++ [out])) -> forall out', out' ∈ done -> out_number out' <> out_number out.
Proof.
  rewrite map_app. intros (_ & Hd & _)%list.NoDup_app out' Hin Heq. apply (Hd (out_number out')).
  - by apply list_elem_of_fmap_2.
  - rewrite Heq. left.
Qed.

(** Closing a file keeps the rest, and when it succeeds the file has its entries. *)
Lemma finish_ok env s ls cur ist : outputs_ok env s ls cur -> StronglySorted ientry_lt cur -> (builder s <> None -> cur <> []) ->
  exists st env' s', FinishCompactionOutputFile env s ist = (st, env', s') /\
    compaction s' = compaction s /\ smallest_snapshot s' = smallest_snapshot s /\
    (st = OK -> outputs_ok env' s' (ls ++ match builder s with Some _ => [cur] | None => [] end) [] /\ builder s' = None /\ (builder s <> None -> ist = OK)).
Proof.
  intros [(done & rest & Eo & Hall & Hb) [Hnd Hlt]] Hsort Hne. unfold FinishCompactionOutputFile.
  destruct (builder s) as [b|] eqn:Eb.
  2: { destruct Hb as [-> ->]. rewrite !app_nil_r in *. exists ist, env, s. split; [done|]. split; [done|]. split; [done|]. intros _.
    split; [|done]. split; [exists done, []; rewrite Eb, !app_nil_r; done|done]. }
  destruct Hb as (out & -> & Hw & Hn & Hsp). specialize (Hne ltac:(done)).
  destruct (if ok ist then b_Finish b else (ist, b_Abandon b)) as [st1 b1] eqn:E1.
  destruct (if ok st1 then env_Close env b1 else (st1, env)) as [st2 env2] eqn:E2.
  destruct (if ok st2 && (b_NumEntries b >? 0) then env_Verify env2 _ _ else (st2, env2)) as [st3 env3] eqn:E3.
  eexists st3, env3, _. split; [reflexivity|]. cbn [compaction smallest_snapshot outputs builder]. split; [done|]. split; [done|]. intros ->.
  assert (ok st2 = true) as Ok2.
  { destruct (ok st2) eqn:Eok; [done|]. cbn [andb] in E3. injection E3 as E4 _. by rewrite E4 in Eok. }
  assert (st2 = OK) as -> by (by destruct st2). clear Ok2.
  assert (ok st1 = true) as Ok1.
  { destruct (ok st1) eqn:Eok; [done|]. injection E2 as E4 _. by rewrite E4 in Eok. }
  assert (st1 = OK) as -> by (by destruct st1). clear Ok1.
  assert (ist = OK) as ->.
  { destruct (ok ist) eqn:Eok; [by destruct ist|]. injection E1 as E4 _. by rewrite E4 in Eok. }
  cbn [ok OK] in E1, E2. pose proof (el_finish b) as [Hw1 Hn1]. rewrite E1 in Hw1, Hn1. cbn [snd] in Hw1, Hn1.
  destruct (el_close env b1 OK env2 E2) as (Hnext & Hother & Hfile). rewrite Hw1, Hw, Hn1, Hn in *. specialize (Hfile eq_refl Hsort Hne).
  assert (next env3 = next env2 /\ forall m, file env3 m = file env2 m) as [Hnext3 Hfile3].
  { cbn [ok OK andb] in E3. destruct (_ >? 0); [by apply el_verify in E3|]. by injection E3 as <-. }
  rewrite Eo, on_current_snoc in *.
  split; [|done]. split; cbn [outputs builder].
  - eexists (done ++ [_]), []. rewrite app_nil_r. split; [reflexivity|]. split; [|done]. apply List.Forall2_app.
    + apply (done_stay env); [|done]. intros out' Hin. rewrite Hfile3. apply Hother. by apply (not_in_done done).
    + constructor; [|constructor]. cbn [out_number]. by rewrite Hfile3, Hfile.
  - rewrite !map_app in *. cbn [map out_number] in *. split; [done|]. rewrite Hnext3, Hnext. apply List.Forall_app in Hlt as [Hlt1 Hlt2].
    apply List.Forall_app. split; [done|]. by inversion_clear Hlt2; constructor.
Qed.

(** A new file: an output without entries yet. *)
Lemma open_ok env s ls : outputs_ok env s ls [] -> builder s = None ->
  exists st env' s', OpenCompactionOutputFile env s = (st, env', s') /\ compaction s' = compaction s /\ smallest_snapshot s' = smallest_snapshot s /\
    (st = OK -> exists done b, outputs s' = done ++ [mk_output (next env) 0 [] []] /\ builder s' = Some b /\ written b = [] /\ b_number b = next env /\
      Forall2 (fun out l => file env' (out_number out) = Some l /\ spans out l) done ls /\
      NoDup (map out_number (outputs s')) /\ Forall (fun out => out_number out < next env') (outputs s')).
Proof.
  intros [(done & rest & Eo & Hall & Hb) [Hnd Hlt]] Eb. rewrite Eb in Hb. destruct Hb as [-> _]. rewrite app_nil_r in Eo.
  unfold OpenCompactionOutputFile. destruct (el_new (u := u) env) as (env1 & -> & Hn1 & Hf1). destruct (env_Open env1 (next env)) as [[st b] env2] eqn:E2.
  destruct (el_open (u := u) env1 (next env) st b env2 E2) as (Hn2 & Hf2 & Hopen).
  eexists st, env2, _. split; [reflexivity|]. split; [done|]. split; [done|]. intros ->. destruct (Hopen eq_refl) as (b' & -> & Hw & Hnum).
  cbn [outputs builder set_outputs ok OK]. rewrite Eo in *. exists done, b'. split; [done|]. split; [done|]. split; [done|]. split; [done|].
  rewrite list.Forall_forall in Hlt. split; [|split].
  - apply (done_stay env); [|done]. intros out Hin. rewrite Hf2, Hf1; [done|]. specialize (Hlt out Hin). lia.
  - rewrite map_app. apply list.NoDup_app. split; [done|]. split; [|apply NoDup_singleton].
    intros n (out & -> & Hin)%list_elem_of_fmap Hn%list_elem_of_singleton. specialize (Hlt out Hin). cbn in Hn. lia.
  - apply list.Forall_forall. intros out [Hin|Hin]%elem_of_app; [specialize (Hlt out Hin); lia|].
    apply list_elem_of_singleton in Hin as ->. cbn. lia.
Qed.

Lemma spans_snoc out n cur k w : cur <> [] -> spans out cur -> spans (mk_output n (out_file_size out) (out_smallest out) k) (cur ++ [(k, w)]).
Proof.
  intros Hne (e & e' & Hh & Hl & Es & El). exists e, (k, w). split; [by destruct cur|]. split; [by rewrite list.last_snoc|]. done.
Qed.

(** Adding an entry to the open file. *)
Lemma write_entry_ok env s ls cur k w ist : outputs_ok env s ls cur -> (builder s <> None -> cur <> []) -> StronglySorted ientry_lt (cur ++ [(k, w)]) ->
  exists st env' s', write_entry env s k w ist = (st, env', s') /\ compaction s' = compaction s /\ smallest_snapshot s' = smallest_snapshot s /\
    (st = OK -> exists ls' cur', outputs_ok env' s' ls' cur' /\ concat ls' ++ cur' = concat ls ++ cur ++ [(k, w)] /\ (builder s' <> None -> cur' <> [])).
Proof.
  intros Hok Hne Hsort. unfold write_entry.
  assert (exists st env1 s1, match builder s with None => OpenCompactionOutputFile env s | Some _ => (OK, env, s) end = (st, env1, s1) /\
    compaction s1 = compaction s /\ smallest_snapshot s1 = smallest_snapshot s /\
    (st = OK -> exists done out b, outputs s1 = done ++ [out] /\ builder s1 = Some b /\ written b = cur /\ b_number b = out_number out /\
      Forall2 (fun out l => file env1 (out_number out) = Some l /\ spans out l) done ls /\ (cur <> [] -> spans out cur) /\
      NoDup (map out_number (outputs s1)) /\ Forall (fun out => out_number out < next env1) (outputs s1))) as (st & env1 & s1 & -> & Ec1 & Es1 & Hopen).
  { destruct (builder s) as [b|] eqn:Eb.
    - exists OK, env, s. split; [done|]. split; [done|]. split; [done|]. intros _. destruct Hok as [(done & rest & Eo & Hall & Hb) [Hnd Hlt]].
      rewrite Eb in Hb. destruct Hb as (out & -> & Hw & Hn & Hsp). exists done, out, b. rewrite Eo in *. done.
    - assert (cur = []) as ->. { destruct Hok as [(done & rest & _ & _ & Hb) _]. rewrite Eb in Hb. by destruct Hb. }
      destruct (open_ok env s ls Hok Eb) as (st & env1 & s1 & -> & Ec1 & Es1 & Hopen). exists st, env1, s1. split; [done|]. split; [done|]. split; [done|].
      intros Est. destruct (Hopen Est) as (done & b & Eo & Eb1 & Hw & Hn & Hall & Hnd & Hlt). exists done, (mk_output (next env) 0 [] []), b. done. }
  destruct (ok st) eqn:Eok; [|exists st, env1, s1; split; [by destruct (builder s1)|]; split; [done|]; split; [done|]; intros ->; done].
  assert (st = OK) as -> by (by destruct st). destruct (Hopen eq_refl) as (done & out & b & Eo & -> & Hw & Hn & Hall & Hsp & Hnd & Hlt).
  rewrite Eo in *. set (outs := if b_NumEntries b =? 0 then _ else _).
  set (out' := mk_output (out_number out) (out_file_size out) (if b_NumEntries b =? 0 then k else out_smallest out) k).
  assert (on_current (fun out => mk_output (out_number out) (out_file_size out) (out_smallest out) k) outs = done ++ [out']) as ->.
  { unfold outs, out'. destruct (b_NumEntries b =? 0); by rewrite !on_current_snoc. }
  assert (spans out' (cur ++ [(k, w)])) as Hsp'.
  { unfold out'. rewrite (el_entries (u := u)), Hw. destruct cur as [|e cur]; [by exists (k, w), (k, w)|]. cbn [length].
    rewrite (proj2 (Z.eqb_neq _ _)) by lia. apply spans_snoc; [done|by apply Hsp]. }
  destruct (el_add (u := u) b k w) as [Hwa Hna]. rewrite Hw in Hwa. rewrite Hn in Hna.
  set (s2 := set_outputs s1 (done ++ [out']) (Some (b_Add b k w))).
  assert (outputs_ok env1 s2 ls (cur ++ [(k, w)])) as Hok2.
  { split; cbn [s2 outputs builder set_outputs].
    - exists done, [out']. split; [done|]. split; [done|]. exists out'. done.
    - rewrite map_app in *. cbn [map out_number out'] in *. split; [done|]. apply List.Forall_app in Hlt as [Hlt1 Hlt2].
      apply List.Forall_app. split; [done|]. by inversion_clear Hlt2; constructor. }
  destruct (b_FileSize _ >=? _).
  - destruct (finish_ok env1 s2 ls (cur ++ [(k, w)]) ist Hok2 Hsort) as (st & env' & s' & -> & Ec & Es & Hfin); [by destruct cur|].
    exists st, env', s'. split; [done|]. cbn [s2 compaction smallest_snapshot set_outputs] in Ec, Es. split; [congruence|]. split; [congruence|]. intros Est.
    destruct (Hfin Est) as (Hok3 & Eb3 & _). cbn [s2 builder set_outputs] in Hok3. exists (ls ++ [cur ++ [(k, w)]]), []. split; [done|].
    split; [by rewrite concat_app, app_nil_r; cbn; rewrite app_nil_r|]. by rewrite Eb3.
  - exists OK, env1, s2. split; [done|]. cbn [s2 compaction smallest_snapshot set_outputs]. split; [done|]. split; [done|]. intros _.
    exists ls, (cur ++ [(k, w)]). split; [done|]. split; [done|]. by destruct cur.
Qed.


(** ** The state between entries *)

Section Run.
Context (v : Version) (Hgood : forall lvl, 0 <= lvl -> files_good (u := u) (uvalid := uvalid) lvl (level_files v lvl)).
Context (Hcount : forall lvl, num_files (level_files v lvl) < 2 ^ 31).
Context (level snapshot max_file_size : Z) (Hsnap : snapshot < kMaxSequenceNumber).
Implicit Types (c : Compaction) (ks : KeyState).

#[local] Abbreviation eok := (entry_ok (uvalid := uvalid)).
#[local] Abbreviation kept := (kept_entries (u := u) v level snapshot).

(** After the entry [prev]. *)
Definition keys_for (prev : option (list byte * list byte)) ks : Prop :=
  match prev with
  | None => has_current_user_key ks = false
  | Some e0 => eok e0 /\ has_current_user_key ks = true /\ uvalid (current_user_key ks) /\
      Compare (current_user_key ks) (user_key (ikey e0)) = 0 /\ last_sequence_for_key ks = sequence (ikey e0)
  end.

(** Before the entries [kvs]. *)
Definition comp_for c kvs : Prop :=
  level_ c = level /\ (forall e, e ∈ kvs -> base_state (u := u) v c (user_key (ikey e))) /\ 0 <= grandparent_index_ c /\ num_files (grandparents_ c) < 2 ^ 31.

Lemma base_state_mono c k k' : base_state (u := u) v c k -> uvalid k -> uvalid k' -> Compare k k' <= 0 -> base_state (u := u) v c k'.
Proof.
  intros (Ev & H0 & H1 & Hp) Hk Hk' Hle. split; [done|]. split; [done|]. split; [done|]. intros lvl Hl. destruct (Hp lvl Hl) as (ptr & Ep & Hptr).
  exists ptr. split; [done|]. destruct (Hgood lvl ltac:(lia)) as [Hok _]. by apply (ptr_ok_mono (uvalid := uvalid) k).
Qed.

Lemma base_level_fields c k base c' : IsBaseLevelForKey (user_comparator := u) c k = Done (base, c') -> exists ptrs, c' = set_ptrs c ptrs.
Proof.
  unfold IsBaseLevelForKey. destruct (base_levels _ _ _ _ _) as [[b ptrs]| |]; [|done..]. rewrite run_bind_done. intros [= _ <-]. by exists ptrs.
Qed.

Lemma deeper_false k : deeper (u := u) v level k = false <-> forall lvl f, level + 2 <= lvl < kNumLevels -> f ∈ level_files v lvl -> falls_in (u := u) k f = false.
Proof.
  unfold deeper. rewrite <- not_true_iff_false, existsb_exists. split.
  - intros Hn lvl f Hl Hf. apply not_true_is_false. intros Hin. apply Hn. exists lvl. split; [apply list_elem_of_In, elem_of_seqZ; lia|].
    apply existsb_exists. exists f. by rewrite <- list_elem_of_In.
  - intros Hall (lvl & Hl & (f & Hf & Hin)%existsb_exists). apply list_elem_of_In, elem_of_seqZ in Hl. apply list_elem_of_In in Hf.
    rewrite (Hall lvl f) in Hin; [done|lia|done].
Qed.

Lemma sorted_users e kvs : eok e -> Forall eok kvs -> StronglySorted ientry_lt (e :: kvs) -> forall e', e' ∈ kvs ->
  Compare (user_key (ikey e)) (user_key (ikey e')) <= 0.
Proof.
  intros He Hok [_ Hall]%StronglySorted_inv e' Hin. rewrite list.Forall_forall in Hok, Hall. pose proof (Hall e' Hin) as Hlt. cbn in Hlt.
  destruct (entry_ikey e He) as (_ & _ & Eu & _), (entry_ikey e' (Hok e' Hin)) as (_ & _ & Eu' & _). apply icmp_lt in Hlt. rewrite Eu, Eu'. lia.
Qed.

(** The decision of the code is [dropped]. *)
Lemma drop_entry_ok prev e kvs c ks : eok e -> Forall eok kvs -> StronglySorted ientry_lt (e :: kvs) -> keys_for prev ks -> comp_for c (e :: kvs) ->
  exists ks' c', drop_entry (user_comparator := u) snapshot c ks (fst e) = Done (dropped (u := u) v level snapshot prev e, ks', c') /\
    keys_for (Some e) ks' /\ comp_for c' kvs.
Proof.
  intros He Hok Hs Hks (El & Hbase & Hidx & Hgp). destruct (entry_ikey e He) as (Ep & Hv & _).
  pose proof (sorted_users e kvs He Hok Hs) as Hle. unfold drop_entry. rewrite Ep.
  set (ks1 := if negb (has_current_user_key ks) || _ then _ else ks).
  assert ((last_sequence_for_key ks1 <=? snapshot) = hidden (u := u) snapshot prev e /\ has_current_user_key ks1 = true /\
    uvalid (current_user_key ks1) /\ Compare (current_user_key ks1) (user_key (ikey e)) = 0) as (E1 & E2 & E3 & E4).
  { unfold ks1. destruct prev as [e0|]; cbn [keys_for] in Hks.
    - destruct Hks as (He0 & Eh & Hvc & Ec & Els). destruct (entry_ikey e0 He0) as (_ & Hv0 & _). rewrite Eh. cbn [negb orb hidden]. unfold same_key.
      assert ((Compare (user_key (ikey e)) (current_user_key ks) =? 0) = (Compare (user_key (ikey e)) (user_key (ikey e0)) =? 0)) as Heq.
      { apply eq_true_iff_eq. rewrite !Z.eqb_eq. split; intros Hz; [apply (cmp_eq_trans (uvalid := uvalid) _ (current_user_key ks)); auto|].
        apply (cmp_eq_trans (uvalid := uvalid) _ (user_key (ikey e0))); auto. by apply cmp_eq_sym. }
      rewrite <- Heq. destruct (Z.eqb_spec (Compare (user_key (ikey e)) (current_user_key ks)) 0) as [Hz|Hz]; cbn [negb andb].
      + rewrite Els. split; [done|]. split; [done|]. split; [done|by apply cmp_eq_sym].
      + cbn [last_sequence_for_key has_current_user_key current_user_key]. split; [by apply Z.leb_gt|]. split; [done|]. split; [done|by apply cmp_refl].
    - rewrite Hks. cbn [negb orb hidden last_sequence_for_key has_current_user_key current_user_key].
      split; [by apply Z.leb_gt|]. split; [done|]. split; [done|by apply cmp_refl]. }
  clearbody ks1. rewrite E1. unfold dropped, obsolete. destruct (hidden snapshot prev e); cbn [orb].
  { rewrite run_bind_done. eexists _, c. split; [reflexivity|]. split; [exact (conj He (conj E2 (conj E3 (conj E4 eq_refl))))|]. split; [done|]. split; [|done]. intros e' He'. apply Hbase. by right. }
  destruct ((vtype (ikey e) =? kTypeDeletion) && (sequence (ikey e) <=? snapshot)); cbn [andb].
  - destruct (IsBaseLevelForKey_ok v Hgood Hcount c (user_key (ikey e)) (user_key (ikey e))) as (base & c' & Eb & Hs' & El' & Hiff); [apply Hbase; left|done|done|rewrite cmp_refl; [lia|done]|].
    rewrite Eb, run_bind_done. apply base_level_fields in Eb as (ptrs & ->). rewrite El in Hiff.
    assert (base = negb (deeper (u := u) v level (user_key (ikey e)))) as ->.
    { apply eq_true_iff_eq. rewrite negb_true_iff, deeper_false. done. }
    eexists _, _. split; [reflexivity|]. split; [exact (conj He (conj E2 (conj E3 (conj E4 eq_refl))))|]. split; [done|]. split; [|done].
    intros e' He'. apply (base_state_mono _ (user_key (ikey e))); [done|done| |by apply Hle].
    rewrite list.Forall_forall in Hok. by destruct (entry_ikey e' (Hok e' He')) as (_ & Hv' & _).
  - rewrite run_bind_done. eexists _, c. split; [reflexivity|]. split; [exact (conj He (conj E2 (conj E3 (conj E4 eq_refl))))|]. split; [done|]. split; [|done]. intros e' He'. apply Hbase. by right.
Qed.

Lemma stop_loop_ok files k seen : num_files files < 2 ^ 31 -> forall fuel index bytes, 0 <= index -> Z.max 0 (num_files files - index) < Z.of_nat fuel ->
  exists index' bytes', stop_loop (user_comparator := u) fuel files k seen index bytes = Done (index', bytes') /\ 0 <= index'.
Proof.
  intros Hn. induction fuel as [|fuel IH]; intros index bytes Hi Hf; cbn [stop_loop].
  - lia.
  - destruct (Z.ltb_spec index (num_files files)) as [Hlt|]; [|by exists index, bytes].
    unfold file_at. destruct (lookup_lt_is_Some_2 files (Z.to_nat index)) as [f ->]; [unfold num_files in *; lia|]. rewrite run_bind_done.
    destruct (_ >? 0); [|by exists index, bytes]. rewrite u64_small by lia. apply IH; lia.
Qed.

Lemma ShouldStopBefore_ok c k kvs : comp_for c kvs ->
  exists stop c', ShouldStopBefore (user_comparator := u) max_file_size c k = Done (stop, c') /\ comp_for c' kvs.
Proof.
  intros (El & Hbase & Hidx & Hgp). unfold ShouldStopBefore.
  destruct (stop_loop_ok (grandparents_ c) k (seen_key_ c) Hgp (S (length (grandparents_ c))) (grandparent_index_ c) (overlapped_bytes_ c) Hidx) as (i & b & -> & Hi).
  { unfold num_files. lia. }
  rewrite run_bind_done. eexists _, _. split; [reflexivity|]. split; [done|]. split; [exact Hbase|]. split; [exact Hi|exact Hgp].
Qed.

Lemma sorted_middle kvs e kvs' : StronglySorted ientry_lt (kvs ++ e :: kvs') -> StronglySorted ientry_lt (kvs ++ kvs') /\
  StronglySorted ientry_lt ((kvs ++ [e]) ++ kvs').
Proof.
  intros Hs. split; [|by rewrite <- app_assoc]. apply StronglySorted_app in Hs as (Hx & H1 & H2). apply StronglySorted_app.
  apply StronglySorted_inv in H2 as [H2 _]. split; [|done]. intros x y Hx' Hy. apply Hx; [done|by right].
Qed.

Lemma sorted_prefix l1 l2 l3 : StronglySorted ientry_lt ((l1 ++ l2) ++ l3) -> StronglySorted ientry_lt l2.
Proof. rewrite <- app_assoc, !StronglySorted_app. tauto. Qed.

Context {I : Type} `{Iterator I} (kvs : list (list byte * list byte)) (pos : nat -> I -> Prop).
Context (input_cursor : @cursor icomparator ivalid I _ kvs pos).
Context (kvs_ok : Forall eok kvs) (kvs_sorted : StronglySorted ientry_lt kvs).

(** The outputs so far have the entries [acc]. *)
Definition written_ok env s acc : Prop :=
  exists ls cur, outputs_ok env s ls cur /\ concat ls ++ cur = acc /\ (builder s <> None -> cur <> []).

(** Before the entries [rest], the last one being [prev]. *)
Record loop_ok env s ks prev acc rest : Prop := {
  lo_written : written_ok env s acc;
  lo_sorted : StronglySorted ientry_lt (acc ++ rest);
  lo_keys : keys_for prev ks;
  lo_comp : comp_for (compaction s) rest;
  lo_snapshot : smallest_snapshot s = snapshot;
}.

Lemma outputs_ok_compaction env s c ls cur : outputs_ok env s ls cur -> outputs_ok env (set_compaction s c) ls cur.
Proof. intros [Hd Hn]. by split. Qed.

(** Closing the open file. *)
Lemma finish_written env s ist acc rest : written_ok env s acc -> StronglySorted ientry_lt (acc ++ rest) ->
  exists st env' s', FinishCompactionOutputFile env s ist = (st, env', s') /\ compaction s' = compaction s /\ smallest_snapshot s' = smallest_snapshot s /\
    (st = OK -> written_ok env' s' acc /\ builder s' = None).
Proof.
  intros (ls & cur & Hok & <- & Hne) Hs. apply sorted_prefix in Hs.
  destruct (finish_ok env s ls cur ist Hok Hs Hne) as (st & env' & s' & E1 & Ec & Es & Hfin). exists st, env', s'. split; [done|]. split; [done|]. split; [done|].
  intros Est. destruct (Hfin Est) as (Hok' & Eb & _). split; [|done]. eexists _, []. split; [exact Hok'|]. split; [|by rewrite Eb].
  rewrite app_nil_r, concat_app. f_equal. destruct (builder s) eqn:Ebs; cbn; [by rewrite app_nil_r|].
  destruct Hok as [(done & r & _ & _ & Hb) _]. rewrite Ebs in Hb. by destruct Hb as [_ ->].
Qed.

Lemma write_written env s k w ist acc rest : written_ok env s acc -> StronglySorted ientry_lt (acc ++ (k, w) :: rest) ->
  exists st env' s', write_entry env s k w ist = (st, env', s') /\ compaction s' = compaction s /\ smallest_snapshot s' = smallest_snapshot s /\
    (st = OK -> written_ok env' s' (acc ++ [(k, w)])).
Proof.
  intros (ls & cur & Hok & <- & Hne) Hs. apply sorted_middle in Hs as [_ Hs]. rewrite <- (app_assoc (concat ls)) in Hs. apply sorted_prefix in Hs.
  destruct (write_entry_ok env s ls cur k w ist Hok Hne Hs) as (st & env' & s' & E1 & Ec & Es & Hw). exists st, env', s'. split; [done|]. split; [done|]. split; [done|].
  intros Est. destruct (Hw Est) as (ls' & cur' & Hok' & Ecat & Hne'). exists ls', cur'. split; [done|]. split; [|done]. by rewrite Ecat, app_assoc.
Qed.

(** One turn. *)
Lemma compact_step_ok env s ks prev acc i input e rest : pos i input -> kvs !! i = Some e -> Forall eok (e :: rest) -> StronglySorted ientry_lt (e :: rest) ->
  loop_ok env s ks prev acc (e :: rest) ->
  exists st env' s' ks', compact_step (user_comparator := u) max_file_size env s ks input = Done (st, env', s', ks') /\
    (st = OK -> loop_ok env' s' ks' (Some e) (acc ++ (if dropped (u := u) v level snapshot prev e then [] else [e])) rest).
Proof.
  intros Hpos Hi Hok Hs [Hw Hsort Hks Hc Hsn]. destruct e as [k w]. destruct (cu_entry input_cursor i input k w Hpos Hi) as [Ek Ew].
  apply List.Forall_cons_iff in Hok as [He Hok]. unfold compact_step. rewrite Ek, run_bind_done.
  destruct (ShouldStopBefore_ok (compaction s) k _ Hc) as (stop & c1 & -> & Hc1). rewrite run_bind_done.
  assert (exists st env1 s1, (if stop && match builder (set_compaction s c1) with Some _ => true | None => false end
      then FinishCompactionOutputFile env (set_compaction s c1) (status input) else (OK, env, set_compaction s c1)) = (st, env1, s1) /\
    compaction s1 = c1 /\ smallest_snapshot s1 = snapshot /\ (st = OK -> written_ok env1 s1 acc)) as (st1 & env1 & s1 & -> & Ec1 & Es1 & Hw1).
  { assert (written_ok env (set_compaction s c1) acc) as Hw'.
    { destruct Hw as (ls & cur & Ho & Ecat & Hne). exists ls, cur. by split; [apply outputs_ok_compaction|]. }
    destruct (stop && _); [|by eexists _, _, _].
    destruct (finish_written env (set_compaction s c1) (status input) acc _ Hw' Hsort) as (st & env1 & s1 & E1 & Ec & Es & Hf).
    exists st, env1, s1. split; [done|]. split; [done|]. split; [by rewrite Es|]. intros Est. by apply Hf. }
  destruct (ok st1) eqn:Eok; cbn [negb]; [|eexists _, _, _, _; split; [reflexivity|]; intros ->; done].
  assert (st1 = OK) as -> by (by destruct st1). specialize (Hw1 eq_refl).
  destruct (drop_entry_ok prev (k, w) rest c1 ks He Hok Hs Hks Hc1) as (ks2 & c2 & Ed & Hks2 & Hc2). cbn [fst] in Ed. rewrite Es1, Ec1, Ed, run_bind_done.
  assert (written_ok env1 (set_compaction s1 c2) acc) as Hw2.
  { destruct Hw1 as (ls & cur & Ho & Ecat & Hne). exists ls, cur. by split; [apply outputs_ok_compaction|]. }
  apply sorted_middle in Hsort as Hsorts. destruct Hsorts as [Hs1 Hs2].
  destruct (dropped v level snapshot prev (k, w)).
  - eexists _, _, _, _. split; [reflexivity|]. intros _. rewrite app_nil_r. by split.
  - rewrite Ew, run_bind_done.
    destruct (write_written env1 (set_compaction s1 c2) k w (status input) acc rest Hw2 Hsort) as (st & env' & s' & -> & Ec & Es & Hw').
    eexists _, _, _, _. split; [reflexivity|]. intros Est. split; [by apply Hw'|done|done|by rewrite Ec|by rewrite Es].
Qed.

Lemma compact_loop_ok shutting_down rest : forall fuel n env s ks prev acc i input, pos i input -> drop i kvs = rest -> (length rest < fuel)%nat ->
  loop_ok env s ks prev acc rest ->
  exists st env' s' input', compact_loop (user_comparator := u) max_file_size fuel shutting_down n env s ks input = Done (st, env', s', input') /\
    status input' = OK /\ (st = OK -> written_ok env' s' (acc ++ kept prev rest) /\ StronglySorted ientry_lt ((acc ++ kept prev rest) ++ [])).
Proof.
  induction rest as [|e rest IH]; intros [|fuel] n env s ks prev acc i input Hpos Edrop Hf Hl; cbn [length] in Hf; [lia| |lia|]; cbn [compact_loop kept_entries].
  - rewrite (cu_valid input_cursor i input Hpos). assert (length kvs <= i)%nat as Hge.
    { apply (f_equal length) in Edrop. rewrite length_drop in Edrop. cbn in Edrop. lia. }
    rewrite (proj2 (Nat.ltb_ge _ _) Hge). cbn [andb]. eexists _, _, _, _. split; [reflexivity|]. split; [by apply (cu_status input_cursor i)|].
    destruct Hl as [Hw Hsort]. rewrite !app_nil_r in *. intros _. by split.
  - assert (kvs !! i = Some e) as Hi by (rewrite <- (Nat.add_0_r i), <- lookup_drop, Edrop; done).
    assert (drop (S i) kvs = rest) as Edrop' by (by apply (drop_S _ e) in Hi; rewrite Edrop in Hi; injection Hi as <-).
    assert (Forall eok (e :: rest)) as Hok by (rewrite <- Edrop; by apply Forall_drop).
    assert (StronglySorted ientry_lt (e :: rest)) as Hs by (rewrite <- Edrop; rewrite <- (take_drop i kvs) in kvs_sorted; by apply StronglySorted_app in kvs_sorted as (_ & _ & ?)).
    rewrite (cu_valid input_cursor i input Hpos). pose proof (lookup_lt_Some _ _ _ Hi) as Hlt. rewrite (proj2 (Nat.ltb_lt _ _) Hlt). cbn [andb].
    destruct (shutting_down n); cbn [negb].
    { eexists _, _, _, _. split; [reflexivity|]. split; [by apply (cu_status input_cursor i)|done]. }
    destruct (compact_step_ok env s ks prev acc i input e rest Hpos Hi Hok Hs Hl) as (st & env1 & s1 & ks1 & -> & Hstep). rewrite run_bind_done.
    destruct (ok st) eqn:Eok; cbn [negb]; [|eexists _, _, _, _; split; [reflexivity|]; split; [by apply (cu_status input_cursor i)|intros ->; done]].
    assert (st = OK) as -> by (by destruct st).
    destruct (cu_next input_cursor i input Hpos Hlt) as (input' & -> & Hpos'). rewrite run_bind_done.
    destruct (IH fuel (S n) env1 s1 ks1 (Some e) _ (S i) input' Hpos' Edrop' ltac:(lia) (Hstep eq_refl)) as (st & env' & s' & input'' & -> & Est & Hfin).
    exists st, env', s', input''. split; [done|]. split; [done|]. intros E1. specialize (Hfin E1). rewrite <- !app_assoc in Hfin. rewrite <- !app_assoc.
    by destruct (dropped v level snapshot prev e).
Qed.

(** The work ends, and when it succeeds the finished tables have what is kept, in order. *)
Lemma compaction_outputs shutting_down env c input i : pos i input -> level_ c = level ->
  input_version_ c = v -> level_ptrs_ c = replicate (Z.to_nat kNumLevels) 0 -> 0 <= level -> level + 2 <= kNumLevels ->
  grandparent_index_ c = 0 -> num_files (grandparents_ c) < 2 ^ 31 ->
  exists st env' s', compaction_work (user_comparator := u) max_file_size (S (length kvs)) shutting_down env (new_CompactionState c) snapshot input = Done (st, env', s') /\
    (st = OK -> exists ls, concat ls = kept_entries (u := u) v level snapshot None kvs /\
      Forall2 (fun out l => file env' (out_number out) = Some l /\ spans out l) (outputs s') ls /\ NoDup (map out_number (outputs s'))).
Proof.
  intros Hpos El Ev Ep H0 H1 Ei Hg. unfold compaction_work. cbn [new_CompactionState compaction outputs builder total_bytes].
  destruct (cu_first input_cursor i input Hpos) as (input0 & -> & Hpos0). rewrite run_bind_done.
  destruct (compact_loop_ok shutting_down kvs (S (length kvs)) 0 env (mk_cstate c snapshot [] None 0) new_KeyState None [] 0 input0)
    as (st & env1 & s1 & input1 & -> & Eist & Hfin); [done|by rewrite drop_0|lia| |].
  - split; [|done|done| |done].
    + exists [], []. split; [|by split]. split; [exists [], []; by repeat constructor|split; constructor].
    + split; [done|]. split; [intros e _; cbn [compaction]; apply base_state_new; rewrite ?El; done|]. cbn [compaction]. by rewrite Ei.
  - rewrite run_bind_done. cbn [app] in Hfin.
    destruct (ok st) eqn:Eok; cbn [andb]; [|eexists st, _, _; rewrite Eok; split; [reflexivity|intros ->; done]].
    assert (st = OK) as -> by (by destruct st). destruct (Hfin eq_refl) as [Hw Hsort].
    assert (forall env s, written_ok env s (kept None kvs) -> builder s = None ->
      exists ls, concat ls = kept None kvs /\ Forall2 (fun out l => file env (out_number out) = Some l /\ spans out l) (outputs s) ls /\ NoDup (map out_number (outputs s))) as Hend.
    { intros env2 s2 (ls & cur & [(d & r & Eo & Hall & Hb) [Hnd _]] & Ecat & _) Eb. rewrite Eb in Hb. destruct Hb as [-> ->]. exists ls. rewrite app_nil_r in *. rewrite Eo in *. done. }
    destruct (builder s1) as [b|] eqn:Eb.
    + destruct (finish_written env1 s1 (status input1) _ _ Hw Hsort) as (st & env2 & s2 & -> & _ & _ & Hf).
      eexists _, _, _. split; [reflexivity|]. destruct (ok st) eqn:Eok2; [|intros ->; done]. assert (st = OK) as -> by (by destruct st). intros _.
      destruct (Hf eq_refl) as [Hw2 Eb2]. by apply Hend.
    + eexists _, _, _. split; [reflexivity|]. intros _. by apply Hend.
Qed.
End Run.
End Loop.

Section Final.
Context {u : Comparator} {uvalid : list byte -> Prop} {laws : ComparatorLaws uvalid u}.
Context (contents : Z -> Z -> option (list (list byte * list byte))).
Context (v : Version) (v_good : version_good (u := u) (uvalid := uvalid) contents v).

#[local] Abbreviation icomparator := (InternalKeyComparator u).
#[local] Abbreviation ientry_lt := (fun a b => internal_compare u (fst a) (fst b) < 0).

Lemma good_levels l : 0 <= l -> files_good (u := u) (uvalid := uvalid) l (level_files v l).
Proof.
  intros Hl. split; [|intros Hne; apply (vg_disjoint _ v v_good); lia]. apply list.Forall_forall. intros f Hf.
  by apply (fg_range contents), (vg_files _ v v_good l).
Qed.

(** C1: a compaction writes what it keeps and changes no view of a snapshot that may still
    be read.  The database is a version, and newer entries [mem] in memory; the compaction
    is as it is picked, and its inputs at the next level do not stop amid the entries of a
    user key.  Then the work on the merged inputs ends, after as many turns as there are
    entries, whatever the files answer and whenever the database shuts down.  If it reports
    success, the finished tables, of different numbers and with their ranges, have the
    entries that are kept, in order; and when they take the place of the inputs, every
    snapshot from the oldest in use on shows the same values as before. *)
Theorem compaction_keeps_views {E B I : Type} {cenv : CompactionEnv E B} {iter : Iterator I}
    (written : B -> list (list byte * list byte)) b_number (file : E -> Z -> option (list (list byte * list byte))) next
    (elaws : @CompactionEnvLaws u E B cenv written b_number file next)
    (level snapshot max_file_size : Z) c mem inputs pos i (input : I) shutting_down env :
  0 <= level -> level + 2 <= kNumLevels -> snapshot < kMaxSequenceNumber ->
  compaction_ok (u := u) v level c -> grandparent_index_ c = 0 -> num_files (grandparents_ c) < 2 ^ 31 ->
  sealed (u := u) (level + 1) (level_files v (level + 1)) (inputs_1 c) ->
  Forall (entry_ok (uvalid := uvalid)) mem ->
  (forall e m, e ∈ version_entries contents v -> m ∈ mem -> Compare (ExtractUserKey (fst m)) (ExtractUserKey (fst e)) = 0 -> key_tag (fst e) < key_tag (fst m)) ->
  StronglySorted ientry_lt inputs -> inputs ≡ₚ input_entries contents c ->
  @cursor icomparator (ivalid (valid := uvalid)) I _ inputs pos -> pos i input ->
  exists st env' s', compaction_work (user_comparator := u) max_file_size (S (length inputs)) shutting_down env (new_CompactionState c) snapshot input = Done (st, env', s') /\
    (st = OK -> exists ls, concat ls = kept_entries (u := u) v level snapshot None inputs /\
      Forall2 (fun out l => file env' (out_number out) = Some l /\ spans out l) (outputs s') ls /\ NoDup (map out_number (outputs s')) /\
      forall kvs kvs' s, StronglySorted ientry_lt kvs -> kvs ≡ₚ mem ++ version_entries contents v ->
        StronglySorted ientry_lt kvs' -> kvs' ≡ₚ mem ++ rest_entries contents v c ++ concat ls -> 0 <= s < 2 ^ 56 -> snapshot <= s ->
        forall uk val, (uk, val) ∈ user_view s kvs' <-> (uk, val) ∈ user_view s kvs).
Proof.
  intros Hlev Hlev' Hsnap Hc Hgi Hgp Hnext Hmem Hnewer Hsi Hpi Hcur Hpos. pose proof Hc as (El & Ev & _ & Eptr).
  assert (Forall (entry_ok (uvalid := uvalid)) inputs) as Hoki.
  { rewrite Hpi. apply list.Forall_forall. intros e He. by apply (input_entry_ok contents v v_good level Hlev Hlev' c Hc Hnext). }
  destruct (compaction_outputs written b_number file next v good_levels (vg_count _ v v_good) level snapshot max_file_size Hsnap inputs pos Hcur Hoki Hsi
    shutting_down env c input i Hpos El Ev Eptr Hlev Hlev' Hgi Hgp) as (st & env' & s' & E1 & Hout).
  exists st, env', s'. split; [done|]. intros Est. destruct (Hout Est) as (ls & Ecat & Hall & Hnd). exists ls. split; [done|]. split; [done|]. split; [done|].
  rewrite Ecat. intros kvs kvs' s Hs1 Hp1 Hs2 Hp2 Hs Hle. by apply (kept_version_views contents v v_good level Hlev Hlev' c Hc mem Hmem Hnewer Hnext snapshot inputs).
Qed.
End Final.

(** * Examples *)

#[local] Abbreviation bw := BytewiseComparator.
#[local] Abbreviation bw_lt := (fun a b => internal_compare bw (fst a) (fst b) < 0).
#[local] Abbreviation table := (list (list byte * list byte)).

(** Files in memory: the next number and the finished tables. *)
Definition mem_files : CompactionEnv (Z * gmap Z table) (Z * table) := {|
  env_NewFileNumber env := (fst env, (fst env + 1, snd env));
  env_Open env n := (OK, Some (n, []), env);
  b_Add b k v := (fst b, snd b ++ [(k, v)]);
  b_NumEntries b := Z.of_nat (length (snd b));
  b_FileSize b := 20 * Z.of_nat (length (snd b));
  b_Finish b := (OK, b);
  b_Abandon b := b;
  env_Close env b := (OK, (fst env, <[fst b := snd b]> (snd env)));
  env_Verify env n sz := (OK, env);
|}.

Lemma mem_files_laws : @CompactionEnvLaws bw _ _ mem_files snd fst (fun env n => snd env !! n) fst.
Proof.
  split; cbn.
  - intros env. by eexists.
  - intros env n st b env' [= <- <- <-]. split; [done|]. split; [done|]. intros _. by exists (n, []).
  - done.
  - done.
  - done.
  - intros env b st env' [= <- <-]. split; [done|]. split; [intros m Hm; by apply lookup_insert_ne|]. intros _ _ _. apply lookup_insert_eq.
  - by intros env n sz st env' [= <- <-].
Qed.

(** A compaction of a version by hand. *)
Definition compact_level (v : Version) (level : Z) : Compaction :=
  match CompactRange (user_comparator := bw) 2097152 v (replicate 7 []) level None None with
  | Done (Some c, _) => c
  | _ => new_Compaction 2097152 level v
  end.

Lemma compact_level_ok contents v level : version_good (u := bw) (uvalid := fun _ => True) contents v -> 0 <= level < kNumLevels ->
  compaction_ok (u := bw) v level (compact_level v level) \/ compact_level v level = new_Compaction 2097152 level v.
Proof.
  intros Hv Hl. destruct (compact_range_correct (u := bw) (laws := bytewise_laws) 2097152 v (replicate 7 []) level None None) as (r & p & E & Hr); [|lia|done..|].
  - intros l Hl0. split; [|intros Hne; apply (vg_disjoint _ v Hv); lia]. apply list.Forall_forall. intros f Hf. by apply (fg_range contents), (vg_files _ v Hv l).
  - unfold compact_level. rewrite E. destruct r as [c|]; [by left|by right].
Qed.

(** Level 0 of the version of LdbVersionRead.v: a, b and c; the file of d is not an input. *)
Definition demo_c : Compaction := compact_level demo_version 0.

Example demo_c_inputs : (map number (inputs_0 demo_c), map number (inputs_1 demo_c)) = ([7; 5], [3]).
Proof. reflexivity. Qed.

Lemma demo_c_ok : compaction_ok (u := bw) demo_version 0 demo_c.
Proof.
  destruct (compact_level_ok demo_contents demo_version 0 demo_version_good) as [H|H]; [done|exact H|]. apply (f_equal inputs_0) in H. vm_compute in H. discriminate H.
Qed.

Lemma demo_next_sealed : sealed (u := bw) 1 (level_files demo_version 1) (inputs_1 demo_c).
Proof.
  exists [], (drop 1 (level_files demo_version 1)). split; [vm_compute; reflexivity|]. intros f g Hf Hg. apply list_elem_of_In in Hf, Hg. vm_compute in Hf, Hg.
  destruct Hf as [<-|[]], Hg as [<-|[]]. vm_compute. reflexivity.
Qed.

Definition demo_inputs : table := take 5 demo_merged.
Definition demo_mem : table := [(demo_ikey [x64] 30, [x06])].

(** The deletion of b is gone, with what it hid. *)
Example demo_kept : kept_entries (u := bw) demo_version 0 20 None demo_inputs = [(demo_ikey [x61] 12, [x01]); (demo_ikey [x63] 8, [x03])].
Proof. vm_compute. reflexivity. Qed.

Definition demo_before : table := take 5 demo_merged ++ demo_mem ++ drop 5 demo_merged.
Definition demo_after : table := [(demo_ikey [x61] 12, [x01]); (demo_ikey [x63] 8, [x03]); (demo_ikey [x64] 30, [x06]); (demo_ikey [x64] 1, [x05])].

Lemma compaction_keeps_views_witness : exists env' s' ls,
  @compaction_work bw _ _ mem_files _ (@list_iterator (InternalKeyComparator bw)) 2097152 6 (fun _ => false) (10, ∅) (new_CompactionState demo_c) 20
    (mk_list_iter demo_inputs 5) = Done (OK, env', s') /\
  concat ls = [(demo_ikey [x61] 12, [x01]); (demo_ikey [x63] 8, [x03])] /\
  Forall2 (fun out l => snd env' !! out_number out = Some l /\ spans out l) (outputs s') ls /\ map out_number (outputs s') = [10] /\
  ([x63], [x03]) ∈ user_view (user_comparator := bw) 20 demo_before.
Proof.
  destruct (compaction_keeps_views (u := bw) (laws := bytewise_laws) (cenv := mem_files) (iter := @list_iterator (InternalKeyComparator bw)) demo_contents demo_version demo_version_good snd fst (fun env n => snd env !! n) fst mem_files_laws
    0 20 2097152 demo_c demo_mem demo_inputs (fun i it => (i <= length demo_inputs)%nat /\ it = mk_list_iter demo_inputs i) 5 (mk_list_iter demo_inputs 5)
    (fun _ => false) (10, ∅)) as (st & env' & s' & E & Hr); [done|done|done|exact demo_c_ok|reflexivity|reflexivity|exact demo_next_sealed| | | | | | |].
  - repeat constructor; apply demo_entry_ok; done.
  - intros e m He Hm. rewrite <- demo_merged_perm in He. apply list_elem_of_In in He, Hm. cbn in He, Hm. destruct Hm as [<-|[]].
    repeat destruct He as [<-|He]; try done; vm_compute; done.
  - repeat constructor.
  - apply (bool_decide_unpack (demo_inputs ≡ₚ input_entries demo_contents demo_c)). vm_compute. reflexivity.
  - apply (list_cursor (c := InternalKeyComparator bw)); [repeat constructor; vm_compute; discriminate|repeat constructor].
  - split; [cbn; lia|reflexivity].
  - assert (match @compaction_work bw _ _ mem_files _ (@list_iterator (InternalKeyComparator bw)) 2097152 6 (fun _ => false) (10, ∅) (new_CompactionState demo_c) 20
      (mk_list_iter demo_inputs 5) with Done (st, _, s') => (st, map out_number (outputs s')) | _ => (OK, []) end = (OK, [10])) as Ev by (vm_compute; reflexivity).
    change (S (length demo_inputs)) with 6%nat in E. rewrite E in Ev. injection Ev as -> Hn. destruct (Hr eq_refl) as (ls & Hc & Hall & _ & Hview).
    assert (concat ls = [(demo_ikey [x61] 12, [x01]); (demo_ikey [x63] 8, [x03])]) as Hc' by (rewrite Hc; vm_compute; reflexivity).
    exists env', s', ls. split; [exact E|]. split; [exact Hc'|]. split; [exact Hall|]. split; [exact Hn|].
    rewrite Hc' in Hview. apply (Hview demo_before demo_after 20).
    + repeat constructor.
    + apply (bool_decide_unpack (demo_before ≡ₚ demo_mem ++ version_entries demo_contents demo_version)). vm_compute. reflexivity.
    + repeat constructor.
    + apply (bool_decide_unpack (demo_after ≡ₚ demo_mem ++ rest_entries demo_contents demo_version demo_c ++ [(demo_ikey [x61] 12, [x01]); (demo_ikey [x63] 8, [x03])])).
      vm_compute. reflexivity.
    + split; [discriminate|reflexivity].
    + apply Z.le_refl.
    + apply list_elem_of_In. vm_compute. right. left. reflexivity.
Defined.

(** ** A deletion that is dropped too soon *)

(** Level 1 has a file of a; at level 2 the deletion of b ends a file, and the value it
    deletes begins the next. *)
Definition split_contents (n sz : Z) : option table :=
  if n =? 3 then Some [(demo_ikey [x61] 9, [x01])]
  else if n =? 2 then Some [(demo_ikey [x61] 5, [x02]); (del_ikey [x62] 4, [])]
  else if n =? 1 then Some [(demo_ikey [x62] 3, [x03])]
  else None.

Definition split_version : Version := mk_version
  ([[]; [mk_meta 1 100 3 40 (demo_ikey [x61] 9) (demo_ikey [x61] 9)];
    [mk_meta 1 100 2 40 (demo_ikey [x61] 5) (del_ikey [x62] 4); mk_meta 1 100 1 40 (demo_ikey [x62] 3) (demo_ikey [x62] 3)]]
   ++ replicate 4 []) None (-1) minus_one (-1).

Lemma split_files_good level f : f ∈ level_files split_version level -> file_good (u := bw) (uvalid := fun _ => True) split_contents f.
Proof.
  unfold level_files, split_version. cbn [files_]. destruct (Z.to_nat level) as [|[|[|[|[|[|[|]]]]]]]; cbn;
    intros Hf; apply list_elem_of_In in Hf; cbn in Hf; repeat destruct Hf as [<-|Hf]; try done.
  all: demo_file.
Qed.

Lemma split_levels level : level_files split_version level = nth (Z.to_nat level) (files_ split_version) [].
Proof. unfold level_files. by destruct (Z.to_nat level) as [|[|[|[|[|[|[|[|]]]]]]]]. Qed.

Lemma split_version_good : version_good (u := bw) (uvalid := fun _ => True) split_contents split_version.
Proof.
  split.
  - reflexivity.
  - apply split_files_good.
  - intros level. rewrite split_levels. by destruct (Z.to_nat level) as [|[|[|[|[|[|[|[|]]]]]]]].
  - intros level Hl. rewrite split_levels. destruct (Z.to_nat level) as [|[|[|[|[|[|[|[|]]]]]]]] eqn:E; [lia|repeat constructor..].
  - constructor.
  - intros f g Hf. rewrite split_levels in Hf. cases_in Hf.
  - intros i j f g Hij Hf Hg e e' He He' Hu. rewrite split_levels in Hf, Hg.
    destruct (Z.to_nat i) as [|[|[|[|[|[|[|[|]]]]]]]] eqn:Ei; cases_in Hf; destruct (Z.to_nat j) as [|[|[|[|[|[|[|[|]]]]]]]] eqn:Ej; cases_in Hg; try lia;
      cases_in He; cases_in He'; vm_compute in Hu; try discriminate Hu; reflexivity.
Qed.

(** The inputs of level 2 end amid the entries of b: boundary files are searched for at the
    level of the compaction only.  The version and the compaction are as they should be, b
    is not in the database before the compaction, and it is there after it. *)
Example compaction_resurrects : let c := compact_level split_version 1 in
  compaction_ok (u := bw) split_version 1 c /\ map number (inputs_0 c) = [3] /\ map number (inputs_1 c) = [2] /\
  let inputs := [(demo_ikey [x61] 9, [x01]); (demo_ikey [x61] 5, [x02]); (del_ikey [x62] 4, [])] in
  let before := inputs ++ [(demo_ikey [x62] 3, [x03])] in
  let after := kept_entries (u := bw) split_version 1 20 None inputs ++ rest_entries split_contents split_version c in
  inputs ≡ₚ input_entries split_contents c /\ before ≡ₚ version_entries split_contents split_version /\
  StronglySorted bw_lt before /\ StronglySorted bw_lt after /\
  user_view (user_comparator := bw) 20 before = [([x61], [x01])] /\
  user_view (user_comparator := bw) 20 after = [([x61], [x01]); ([x62], [x03])].
Proof.
  cbv zeta. split.
  { destruct (compact_level_ok split_contents split_version 1 split_version_good) as [H|H]; [done|exact H|]. apply (f_equal inputs_0) in H. vm_compute in H. discriminate H. }
  split; [reflexivity|]. split; [reflexivity|].
  split; [apply (bool_decide_unpack (_ ≡ₚ _)); vm_compute; reflexivity|]. split; [apply (bool_decide_unpack (_ ≡ₚ _)); vm_compute; reflexivity|].
  split; [repeat constructor|]. split; [vm_compute; repeat constructor|]. split; vm_compute; reflexivity.
Qed.
