(* ===== verification/LdbVersionSet.v ===== *)
(** leveldb: the version set: its numbers, the live versions, the manifest
    (db/version_set.cc, class VersionSet). *)

From Stdlib Require Import Sorting.Sorted SpecFloat.
From stdpp Require Import sorting gmap pretty.
From S2P Require Import Prelude Leb128 LdbCoding LdbStatus LdbFilename LdbFormat LdbIterator LdbLog LdbEnv.
From S2P Require Import LdbTableBuilder LdbTable LdbVersionEdit LdbVersion LdbVersionRead LdbBuilder LdbCompaction.
Open Scope Z_scope.

(** A version that something refers to, at its address. *)
Record VersionNode := mk_node { v_id : Z; v_refs : Z; v_version : Version }.

(** [versions_]: the list that [dummy_versions_] heads; the current version is the last.
    [descriptor_log_]: the handle of the manifest and the offset of its writer in a block. *)
Record VersionSet := mk_vs {
  dbname_ : list byte;
  vs_next_file_number : Z;
  vs_manifest_file_number : Z;
  vs_last_sequence : Z;
  vs_log_number : Z;
  vs_prev_log_number : Z;
  descriptor_log_ : option (Z * Z);
  versions_ : list VersionNode;
  next_id_ : Z;
  compact_pointer_ : list (list byte);
}.

Definition set_next_file (vs : VersionSet) (n : Z) : VersionSet :=
  mk_vs (dbname_ vs) n (vs_manifest_file_number vs) (vs_last_sequence vs) (vs_log_number vs) (vs_prev_log_number vs) (descriptor_log_ vs) (versions_ vs) (next_id_ vs) (compact_pointer_ vs).
Definition set_manifest_number (vs : VersionSet) (n : Z) : VersionSet :=
  mk_vs (dbname_ vs) (vs_next_file_number vs) n (vs_last_sequence vs) (vs_log_number vs) (vs_prev_log_number vs) (descriptor_log_ vs) (versions_ vs) (next_id_ vs) (compact_pointer_ vs).
Definition set_log_numbers (vs : VersionSet) (n p : Z) : VersionSet :=
  mk_vs (dbname_ vs) (vs_next_file_number vs) (vs_manifest_file_number vs) (vs_last_sequence vs) n p (descriptor_log_ vs) (versions_ vs) (next_id_ vs) (compact_pointer_ vs).
Definition set_descriptor (vs : VersionSet) (l : option (Z * Z)) : VersionSet :=
  mk_vs (dbname_ vs) (vs_next_file_number vs) (vs_manifest_file_number vs) (vs_last_sequence vs) (vs_log_number vs) (vs_prev_log_number vs) l (versions_ vs) (next_id_ vs) (compact_pointer_ vs).
Definition set_versions (vs : VersionSet) (l : list VersionNode) (n : Z) : VersionSet :=
  mk_vs (dbname_ vs) (vs_next_file_number vs) (vs_manifest_file_number vs) (vs_last_sequence vs) (vs_log_number vs) (vs_prev_log_number vs) (descriptor_log_ vs) l n (compact_pointer_ vs).
Definition set_pointers (vs : VersionSet) (l : list (list byte)) : VersionSet :=
  mk_vs (dbname_ vs) (vs_next_file_number vs) (vs_manifest_file_number vs) (vs_last_sequence vs) (vs_log_number vs) (vs_prev_log_number vs) (descriptor_log_ vs) (versions_ vs) (next_id_ vs) l.

(** * Numbers *)

Definition NewFileNumber (vs : VersionSet) : Z * VersionSet := (vs_next_file_number vs, set_next_file vs (u64 (vs_next_file_number vs + 1))).

Definition ReuseFileNumber (vs : VersionSet) (file_number : Z) : VersionSet :=
  if vs_next_file_number vs =? u64 (file_number + 1) then set_next_file vs file_number else vs.

Definition MarkFileNumberUsed (vs : VersionSet) (number : Z) : VersionSet :=
  if vs_next_file_number vs <=? number then set_next_file vs (u64 (number + 1)) else vs.

Definition LastSequence (vs : VersionSet) : Z := vs_last_sequence vs.
Definition vs_SetLastSequence (vs : VersionSet) (s : Z) : VersionSet :=
  mk_vs (dbname_ vs) (vs_next_file_number vs) (vs_manifest_file_number vs) s (vs_log_number vs) (vs_prev_log_number vs) (descriptor_log_ vs) (versions_ vs) (next_id_ vs) (compact_pointer_ vs).

(** * Versions *)

Definition current_ (vs : VersionSet) : option VersionNode := list.last (versions_ vs).
Definition current (vs : VersionSet) : Version := match current_ vs with Some n => v_version n | None => new_Version end.

Definition Ref (vs : VersionSet) (id : Z) : VersionSet :=
  set_versions vs (map (fun n => if v_id n =? id then mk_node id (v_refs n + 1) (v_version n) else n) (versions_ vs)) (next_id_ vs).

(** A version to which nothing refers any more is deleted, and leaves the list. *)
Definition Unref (vs : VersionSet) (id : Z) : VersionSet :=
  set_versions vs (List.filter (fun n => negb (v_refs n =? 0)) (map (fun n => if v_id n =? id then mk_node id (v_refs n - 1) (v_version n) else n) (versions_ vs))) (next_id_ vs).

Definition AppendVersion (vs : VersionSet) (v : Version) : VersionSet :=
  let vs := match current_ vs with Some n => Unref vs (v_id n) | None => vs end in
  set_versions vs (versions_ vs ++ [mk_node (next_id_ vs) 1 v]) (next_id_ vs + 1).

Definition delete_VersionSet (vs : VersionSet) : VersionSet := match current_ vs with Some n => Unref vs (v_id n) | None => vs end.

Definition new_VersionSet (dbname : list byte) : VersionSet :=
  AppendVersion (mk_vs dbname 2 0 0 0 0 None [] 0 (replicate (Z.to_nat kNumLevels) [])) new_Version.

Definition NeedsCompaction (vs : VersionSet) : bool :=
  SFleb (double 1) (compaction_score_ (current vs)) || match file_to_compact_ (current vs) with Some _ => true | None => false end.

Definition NumLevelFiles (vs : VersionSet) (level : Z) : Z := s32 (Z.of_nat (length (level_files (current vs) level))).
Definition NumLevelBytes (vs : VersionSet) (level : Z) : Z := TotalFileSize (level_files (current vs) level).

(** [snprintf] into 100 bytes. *)
Definition LevelSummary (vs : VersionSet) : list byte :=
  take 99 (cstr "files[ " ++ concat (map (fun level => cstr (pretty (NumLevelFiles vs level)) ++ cstr " ") (seqZ 0 kNumLevels)) ++ cstr "]").

Definition version_numbers (v : Version) : gset Z := list_to_set (map number (concat (take (Z.to_nat kNumLevels) (files_ v)))).

Definition AddLiveFiles (vs : VersionSet) (live : gset Z) : gset Z :=
  fold_left (fun live n => live ∪ version_numbers (v_version n)) (versions_ vs) live.

Section VersionSet.
Context {user_comparator : Comparator} (comparator_name : list byte).
(** The members of the options. *)
Context (reuse_logs : bool) (max_file_size : Z).
Context {W : Type} `{Env W}.

#[local] Abbreviation icmp := (internal_compare user_comparator).

(** ** Sizes *)

Fixpoint overlap_sums (level : Z) (files : list FileMetaData) (next : list FileMetaData) (result : Z) : run Z :=
  match files with
  | [] => Done result
  | f :: files =>
      overlaps ← GetOverlappingInputs (user_comparator := user_comparator) (level + 1 =? 0) next (Some (smallest f)) (Some (largest f));
      let sum := TotalFileSize overlaps in
      overlap_sums level files next (if sum >? result then sum else result)
  end.

Fixpoint overlap_levels (vs : VersionSet) (levels : list Z) (result : Z) : run Z :=
  match levels with
  | [] => Done result
  | level :: levels =>
      result ← overlap_sums level (level_files (current vs) level) (level_files (current vs) (level + 1)) result;
      overlap_levels vs levels result
  end.

Definition MaxNextLevelOverlappingBytes (vs : VersionSet) : run Z := overlap_levels vs (seqZ 1 (kNumLevels - 2)) 0.

(** The offset of a key within a table: what its iterator and the table give. *)
Fixpoint offset_files (table_offset : FileMetaData -> list byte -> run Z) (level : Z) (files : list FileMetaData) (ikey : list byte) (result : Z) : run Z :=
  match files with
  | [] => Done result
  | f :: files =>
      if icmp (largest f) ikey <=? 0 then offset_files table_offset level files ikey (u64 (result + file_size f))
      else if icmp (smallest f) ikey >? 0 then
        if level >? 0 then Done result else offset_files table_offset level files ikey result
      else
        n ← table_offset f ikey;
        offset_files table_offset level files ikey (u64 (result + n))
  end.

Fixpoint offset_levels (table_offset : FileMetaData -> list byte -> run Z) (v : Version) (levels : list Z) (ikey : list byte) (result : Z) : run Z :=
  match levels with
  | [] => Done result
  | level :: levels =>
      result ← offset_files table_offset level (level_files v level) ikey result;
      offset_levels table_offset v levels ikey result
  end.

Definition vs_ApproximateOffsetOf (table_offset : FileMetaData -> list byte -> run Z) (v : Version) (ikey : list byte) : run Z :=
  offset_levels table_offset v (seqZ 0 kNumLevels) ikey 0.

(** ** The manifest *)

(** [AddRecord] of the writer of the manifest. *)
Definition log_AddRecord (w : W) (log : Z * Z) (record : list byte) : Status * (Z * Z) * W :=
  let '(s, wr) := AddRecord (mk_writer (w, fst log) (snd log) InitTypeCrc) record in (s, (fst log, block_offset wr), fst (dest wr)).

Definition snapshot_pointers (vs : VersionSet) (edit : VersionEdit) : VersionEdit :=
  fold_left (fun edit level => let p := default [] (compact_pointer_ vs !! Z.to_nat level) in match p with [] => edit | _ => SetCompactPointer edit level p end)
    (seqZ 0 kNumLevels) edit.

Definition snapshot_level (vs : VersionSet) (edit : VersionEdit) (level : Z) : VersionEdit :=
  fold_left (fun edit f => AddFile edit level (number f) (file_size f) (smallest f) (largest f)) (level_files (current vs) level) edit.

Definition snapshot_edit (vs : VersionSet) : VersionEdit :=
  fold_left (snapshot_level vs) (seqZ 0 kNumLevels) (snapshot_pointers vs (SetComparatorName new_VersionEdit comparator_name)).

Definition WriteSnapshot (vs : VersionSet) (w : W) (log : Z * Z) : Status * (Z * Z) * W := log_AddRecord w log (EncodeTo (snapshot_edit vs) []).

(** The edit as it is logged. *)
Definition complete_edit (vs : VersionSet) (edit : VersionEdit) : VersionEdit :=
  let edit := if has_log_number_ edit then edit else SetLogNumber edit (vs_log_number vs) in
  let edit := if has_prev_log_number_ edit then edit else SetPrevLogNumber edit (vs_prev_log_number vs) in
  SetLastSequence (SetNextFile edit (vs_next_file_number vs)) (vs_last_sequence vs).

(** The mutex is given up while the manifest is written: what other threads do to the numbers
    in between is not part of this definition. *)
Definition LogAndApply (vs : VersionSet) (w : W) (edit : VersionEdit) : Status * VersionEdit * VersionSet * W :=
  let edit := complete_edit vs edit in
  let '(b, pointers) := Apply (user_comparator := user_comparator) (new_Builder (current vs)) (compact_pointer_ vs) edit in
  let vs := set_pointers vs pointers in
  let v := Finalize (SaveTo (user_comparator := user_comparator) b new_Version) in
  let '(s, vs, edit, w, new_manifest_file) := (match descriptor_log_ vs with
    | Some _ => (OK, vs, edit, w, None)
    | None =>
        let new_manifest_file := DescriptorFileName (dbname_ vs) (vs_manifest_file_number vs) in
        let edit := SetNextFile edit (vs_next_file_number vs) in
        let '(s, h, w) := env_NewWritableFile w new_manifest_file in
        if ok s then
          let '(s, log, w) := WriteSnapshot vs w (h, 0) in
          (s, set_descriptor vs (Some log), edit, w, Some new_manifest_file)
        else (s, vs, edit, w, Some new_manifest_file)
    end) in
  let '(s, vs, w) := (match descriptor_log_ vs with
    | Some log =>
        if ok s then
          let '(s, log, w) := log_AddRecord w log (EncodeTo edit []) in
          let '(s, w) := (if ok s then env_Sync w (fst log) else (s, w)) in
          (s, set_descriptor vs (Some log), w)
        else (s, vs, w)
    | None => (s, vs, w)
    end) in
  let '(s, w) := (match new_manifest_file with Some _ => if ok s then SetCurrentFile w (dbname_ vs) (vs_manifest_file_number vs) else (s, w) | None => (s, w) end) in
  if ok s then (s, edit, set_log_numbers (AppendVersion vs v) (LdbVersionEdit.log_number_ edit) (LdbVersionEdit.prev_log_number_ edit), w)
  else
    match new_manifest_file with
    | Some name =>
        let w := match descriptor_log_ vs with Some log => env_delete_writable w (fst log) | None => w end in
        (s, edit, set_descriptor vs None, snd (env_DeleteFile w name))
    | None => (s, edit, vs, w)
    end.

(** ** Recovery *)

(** The local variables of [Recover]; a number that was not seen is [None]. *)
Record RecoverState := mk_rs {
  rs_status : Status;
  rs_builder : Builder;
  rs_pointers : list (list byte);
  rs_log_number : option Z;
  rs_prev_log_number : option Z;
  rs_next_file : option Z;
  rs_last_sequence : option Z;
}.

Definition set_if {A} (has : bool) (x : A) (old : option A) : option A := if has then Some x else old.

(** One record of the manifest. *)
Definition recover_record (st : RecoverState) (record : list byte) : run RecoverState :=
  match edit_DecodeFrom new_VersionEdit record with
  | None => OutOfFuel
  | Some (edit, s) =>
      let s := if ok s && has_comparator_ edit && negb (slice_eqb (comparator_ edit) comparator_name)
        then InvalidArgument (comparator_ edit ++ cstr " does not match existing comparator ") comparator_name else s in
      let '(b, pointers) := (if ok s then Apply (user_comparator := user_comparator) (rs_builder st) (rs_pointers st) edit else (rs_builder st, rs_pointers st)) in
      Done (mk_rs s b pointers
        (set_if (has_log_number_ edit) (log_number_ edit) (rs_log_number st))
        (set_if (has_prev_log_number_ edit) (prev_log_number_ edit) (rs_prev_log_number st))
        (set_if (has_next_file_number_ edit) (next_file_number_ edit) (rs_next_file st))
        (set_if (has_last_sequence_ edit) (last_sequence_ edit) (rs_last_sequence st)))
  end.

(** The reporter keeps the first status it is given. *)
Definition reported (st : RecoverState) (rs : list (Z * Status)) : RecoverState :=
  match rs with
  | (_, s) :: _ => if ok (rs_status st) then mk_rs s (rs_builder st) (rs_pointers st) (rs_log_number st) (rs_prev_log_number st) (rs_next_file st) (rs_last_sequence st) else st
  | [] => st
  end.

(** [rf]: the fuel of [ReadRecord]. *)
Fixpoint recover_loop (fuel rf : nat) (reader : Reader (W * Z)) (scratch : list byte) (st : RecoverState) : run (RecoverState * Reader (W * Z)) :=
  match fuel with
  | O => OutOfFuel
  | S fuel =>
      match ReadRecord rf reader scratch with
      | None => OutOfFuel
      | Some (record, scratch, reader') =>
          let st := reported st (drop (length (reports reader)) (reports reader')) in
          match record with
          | Some record => if ok (rs_status st) then st ← recover_record st record; recover_loop fuel rf reader' scratch st else Done (st, reader')
          | None => Done (st, reader')
          end
      end
  end.

Definition ReuseManifest (vs : VersionSet) (w : W) (dscname dscbase : list byte) : bool * VersionSet * W :=
  if negb reuse_logs then (false, vs, w)
  else
    match ParseFileName dscbase with
    | Some (manifest_number, kDescriptorFile) =>
        let '(s, manifest_size, w) := env_GetFileSize w dscname in
        if negb (ok s) || (manifest_size >=? TargetFileSize max_file_size) then (false, vs, w)
        else
          let '(r, h, w) := env_NewAppendableFile w dscname in
          if negb (ok r) then (false, vs, w)
          else (true, set_manifest_number (set_descriptor vs (Some (h, block_offset (new_Writer_at tt manifest_size)))) manifest_number, w)
    | _ => (false, vs, w)
    end.

(** The end of [Recover], with what the loop found. *)
Definition finish_recover (vs : VersionSet) (w : W) (st : RecoverState) (dscname current : list byte) : Status * bool * VersionSet * W :=
  if negb (ok (rs_status st)) then (rs_status st, false, vs, w)
  else
    let s := match rs_next_file st, rs_log_number st, rs_last_sequence st with
      | None, _, _ => Corruption (cstr "no meta-nextfile entry in descriptor") []
      | _, None, _ => Corruption (cstr "no meta-lognumber entry in descriptor") []
      | _, _, None => Corruption (cstr "no last-sequence-number entry in descriptor") []
      | _, _, _ => OK
      end in
    let log_number := default 0 (rs_log_number st) in
    let prev_log_number := default 0 (rs_prev_log_number st) in
    let next_file := default 0 (rs_next_file st) in
    let vs := MarkFileNumberUsed (MarkFileNumberUsed vs prev_log_number) log_number in
    if negb (ok s) then (s, false, vs, w)
    else
      let v := Finalize (SaveTo (user_comparator := user_comparator) (rs_builder st) new_Version) in
      let vs := AppendVersion vs v in
      let vs := vs_SetLastSequence (set_log_numbers (set_next_file (set_manifest_number vs next_file) (u64 (next_file + 1))) log_number prev_log_number) (default 0 (rs_last_sequence st)) in
      let '(reused, vs, w) := ReuseManifest vs w dscname current in
      (OK, negb reused, vs, w).

(** The status and whether a new manifest must be written. *)
Definition Recover (fuel rf : nat) (vs : VersionSet) (w : W) : run (Status * bool * VersionSet * W) :=
  '(s, current, w) ← ReadFileToString fuel w (CurrentFileName (dbname_ vs));
  if negb (ok s) then Done (s, false, vs, w)
  else
    match list.last current with
    | Some x0a =>
        let current_name := removelast current in
        let dscname := dbname_ vs ++ cstr "/" ++ current_name in
        let '(s, h, w) := env_NewSequentialFile w dscname in
        if negb (ok s) then
          Done (if IsNotFound s then Corruption (cstr "CURRENT points to a non-existent file") (ToString s) else s, false, vs, w)
        else
          '(st, reader) ← recover_loop fuel rf (new_Reader (w, h) true true 0) [] (mk_rs OK (new_Builder (LdbVersionSet.current vs)) (compact_pointer_ vs) None None None None);
          let w := env_delete_sequential (fst (file reader)) h in
          Done (finish_recover (set_pointers vs (rs_pointers st)) w st dscname current_name)
    | _ => Done (Corruption (cstr "CURRENT file does not end with newline") [], false, vs, w)
    end.
End VersionSet.

(** * References to versions *)

(** The versions that readers and compactions refer to, besides the set itself. *)
Definition Holders := list (Z * Version).

Inductive ref_step : VersionSet * Holders -> VersionSet * Holders -> Prop :=
| step_append vs hs v : ref_step (vs, hs) (AppendVersion vs v, hs)
| step_ref vs hs n : current_ vs = Some n -> ref_step (vs, hs) (Ref vs (v_id n), (v_id n, v_version n) :: hs)
| step_unref vs hs1 hs2 id v : ref_step (vs, hs1 ++ (id, v) :: hs2) (Unref vs id, hs1 ++ hs2).

Inductive ref_reach (start : VersionSet * Holders) : VersionSet * Holders -> Prop :=
| reach_start : ref_reach start start
| reach_step s s' : ref_reach start s -> ref_step s s' -> ref_reach start s'.

Definition held (id : Z) (hs : Holders) : Z := Z.of_nat (length (List.filter (fun p => fst p =? id) hs)).

Lemma held_cons id p hs : held id (p :: hs) = (if fst p =? id then 1 else 0) + held id hs.
Proof. unfold held. cbn [List.filter]. destruct (fst p =? id); cbn [length]; lia. Qed.

Lemma held_app id hs hs' : held id (hs ++ hs') = held id hs + held id hs'.
Proof. unfold held. rewrite List.filter_app, length_app. lia. Qed.

Lemma held_none id hs : (forall p, p ∈ hs -> fst p <> id) -> held id hs = 0.
Proof.
  intros Hn. induction hs as [|p hs IH]; [done|]. rewrite held_cons, IH by (intros q Hq; apply Hn; by right). destruct (Z.eqb_spec (fst p) id) as [E|]; [|done]. by destruct (Hn p ltac:(left)).
Qed.

Lemma held_pos id v hs : (id, v) ∈ hs -> 0 < held id hs.
Proof. intros Hin. apply list_elem_of_split in Hin as (l1 & l2 & ->). rewrite held_app, held_cons. cbn [fst]. rewrite Z.eqb_refl. unfold held. lia. Qed.

(** Counts are exact: the older versions, then the current one. *)
Record refs_ok (vs : VersionSet) (hs : Holders) : Prop := {
  ro_split : exists ns n, versions_ vs = ns ++ [n] /\ Forall (fun m => v_refs m = held (v_id m) hs /\ v_refs m <> 0) ns /\ v_refs n = held (v_id n) hs + 1;
  ro_ids : NoDup (map v_id (versions_ vs));
  ro_next : Forall (fun m => v_id m < next_id_ vs) (versions_ vs);
  ro_held : forall id v, (id, v) ∈ hs -> exists m, m ∈ versions_ vs /\ v_id m = id /\ v_version m = v;
}.

(** A map that changes no identity and no version, and a filter. *)
Lemma renew_ids (g : VersionNode -> VersionNode) (p : VersionNode -> bool) ns : (forall m, v_id (g m) = v_id m) -> NoDup (map v_id ns) -> NoDup (map v_id (List.filter p (map g ns))).
Proof.
  intros Hg. induction ns as [|m ns IH]; cbn [map List.filter]; [done|]. intros [Hnot Hnd]%list.NoDup_cons. specialize (IH Hnd). destruct (p (g m)); [|done]. cbn [map]. apply list.NoDup_cons. split; [|done].
  rewrite Hg. intros (m' & E & Hm')%list_elem_of_fmap. apply list_elem_of_In, filter_In in Hm' as [Hm' _]. apply in_map_iff in Hm' as (m2 & <- & Hm2). apply Hnot. rewrite E, Hg. apply list_elem_of_fmap. exists m2. split; [done|]. by apply list_elem_of_In.
Qed.

Lemma unref_others id ns : Forall (fun m => v_id m <> id /\ v_refs m <> 0) ns ->
  List.filter (fun n => negb (v_refs n =? 0)) (map (fun n => if v_id n =? id then mk_node id (v_refs n - 1) (v_version n) else n) ns) = ns.
Proof.
  intros Hns. induction Hns as [|m ns [Hm Hm0] _ IH]; [done|]. cbn [map List.filter]. rewrite (proj2 (Z.eqb_neq _ _) Hm), (proj2 (Z.eqb_neq _ _) Hm0). cbn [negb]. by rewrite IH.
Qed.

Lemma Unref_current ns n hs vs : versions_ vs = ns ++ [n] -> NoDup (map v_id (ns ++ [n])) -> Forall (fun m => v_refs m = held (v_id m) hs /\ v_refs m <> 0) ns -> v_refs n = held (v_id n) hs + 1 ->
  versions_ (Unref vs (v_id n)) = ns ++ (if held (v_id n) hs =? 0 then [] else [mk_node (v_id n) (held (v_id n) hs) (v_version n)]).
Proof.
  intros Ev Hnd Hns Hn. unfold Unref. cbn [versions_ set_versions]. rewrite Ev. rewrite map_app, List.filter_app. cbn [map List.filter]. rewrite Z.eqb_refl. cbn [v_refs]. replace (v_refs n - 1) with (held (v_id n) hs) by lia. f_equal.
  - apply unref_others. rewrite map_app in Hnd. apply list.NoDup_app in Hnd as (_ & Hdis & _). rewrite list.Forall_forall in *. intros m Hm. split; [|by apply Hns].
    intros E. apply (Hdis (v_id m)); [by apply list_elem_of_fmap_2|]. rewrite E. left.
  - by destruct (held (v_id n) hs =? 0).
Qed.

Lemma refs_ok_append vs hs v : refs_ok vs hs -> refs_ok (AppendVersion vs v) hs.
Proof.
  intros [(ns & n & Ev & Hns & Hn) Hid Hnext Hheld]. assert (current_ vs = Some n) as Ec by (unfold current_; rewrite Ev; apply list.last_snoc).
  unfold AppendVersion. rewrite Ec. pose proof Hid as Hid'. rewrite Ev in Hid'. pose proof (Unref_current ns n hs vs Ev Hid' Hns Hn) as Eu.
  change (next_id_ (Unref vs (v_id n))) with (next_id_ vs). rewrite Eu. set (old := if held (v_id n) hs =? 0 then [] else _). rewrite Ev in Hnext. apply List.Forall_app in Hnext as [Hx1 Hx2]. apply List.Forall_cons_iff in Hx2 as [Hx2 _].
  assert (Forall (fun m => v_id m < next_id_ vs) (ns ++ old)) as Hx by (apply List.Forall_app; split; [done|subst old; destruct (_ =? 0); repeat constructor; done]).
  assert (forall id v, (id, v) ∈ hs -> id < next_id_ vs) as Hlt.
  { intros id x Hin. destruct (Hheld id x Hin) as (m & Hm & <- & _). rewrite Ev in Hm. apply list.elem_of_app in Hm as [Hm| ->%list_elem_of_singleton]; [|done]. by apply (proj1 (list.Forall_forall _ _) Hx1). }
  split; cbn [versions_ set_versions next_id_].
  - exists (ns ++ old), (mk_node (next_id_ vs) 1 v). split; [done|]. split.
    + apply List.Forall_app. split; [done|]. subst old. destruct (Z.eqb_spec (held (v_id n) hs) 0); repeat constructor; done.
    + cbn [v_refs v_id]. rewrite held_none; [done|]. intros [id x] Hp. cbn. specialize (Hlt id x Hp). lia.
  - rewrite map_app. cbn [map v_id]. apply list.NoDup_app. split.
    + rewrite map_app in Hid' |- *. subst old. destruct (_ =? 0); cbn [map v_id] in *; [rewrite app_nil_r; by apply list.NoDup_app in Hid' as [? _]|done].
    + split; [|apply list.NoDup_singleton]. intros x (m & -> & Hm)%list_elem_of_fmap E%list_elem_of_singleton. pose proof (proj1 (list.Forall_forall _ _) Hx m Hm). cbn in *. lia.
  - apply List.Forall_app. split; [eapply list.Forall_impl; [exact Hx|]; cbn; lia|]. repeat constructor. cbn. lia.
  - intros id x Hin. destruct (Hheld id x Hin) as (m & Hm & E1 & E2). rewrite Ev in Hm. apply list.elem_of_app in Hm as [Hm| ->%list_elem_of_singleton].
    + exists m. split; [|done]. rewrite !list.elem_of_app. tauto.
    + exists (mk_node (v_id n) (held (v_id n) hs) (v_version n)). split; [|done]. rewrite !list.elem_of_app. left. right. subst old. pose proof (held_pos id x hs Hin). rewrite E1. rewrite (proj2 (Z.eqb_neq _ 0)) by lia. rewrite <- E1. left.
Qed.

Lemma map_ids (g : VersionNode -> VersionNode) ns : (forall m, v_id (g m) = v_id m) -> map v_id (map g ns) = map v_id ns.
Proof. intros Hg. rewrite map_map. by apply map_ext. Qed.

Lemma refs_ok_ref vs hs n : refs_ok vs hs -> current_ vs = Some n -> refs_ok (Ref vs (v_id n)) ((v_id n, v_version n) :: hs).
Proof.
  intros [(ns & n' & Ev & Hns & Hn) Hid Hnext Hheld] Ec. assert (n' = n) as -> by (unfold current_ in Ec; rewrite Ev, list.last_snoc in Ec; congruence).
  unfold Ref. set (g := fun m => if v_id m =? v_id n then mk_node (v_id n) (v_refs m + 1) (v_version m) else m).
  assert (forall m, v_id (g m) = v_id m /\ v_version (g m) = v_version m) as Hg by (intros m; unfold g; destruct (Z.eqb_spec (v_id m) (v_id n)); done).
  assert (forall m, v_refs (g m) = v_refs m + (if v_id n =? v_id m then 1 else 0)) as Hr by (intros m; unfold g; rewrite (Z.eqb_sym (v_id n)); destruct (Z.eqb_spec (v_id m) (v_id n)); cbn; lia).
  assert (forall m, held (v_id m) ((v_id n, v_version n) :: hs) = (if v_id n =? v_id m then 1 else 0) + held (v_id m) hs) as Hh by (intros m; by rewrite held_cons).
  split; cbn [versions_ set_versions next_id_].
  - exists (map g ns), (g n). rewrite Ev, map_app. split; [done|]. split.
    + apply list.Forall_fmap. eapply list.Forall_impl; [exact Hns|]. cbn. intros m [E1 E2]. destruct (Hg m) as [-> _]. rewrite Hr, Hh. assert (0 <= held (v_id m) hs) by (unfold held; lia). destruct (_ =? _); lia.
    + destruct (Hg n) as [-> _]. rewrite Hr, Hh, Hn. lia.
  - rewrite map_ids; [done|]. intros m. by apply Hg.
  - apply list.Forall_fmap. eapply list.Forall_impl; [exact Hnext|]. cbn. intros m Hm. by destruct (Hg m) as [-> _].
  - intros id v [[= -> ->]|Hin]%elem_of_cons.
    + exists (g n). split; [|by apply Hg]. rewrite Ev. apply list_elem_of_fmap_2. apply list.elem_of_app. right. left.
    + destruct (Hheld id v Hin) as (m & Hm & <- & <-). exists (g m). split; [by apply list_elem_of_fmap_2|apply Hg].
Qed.

Lemma held_remove id p hs1 hs2 : held id (hs1 ++ p :: hs2) = held id (hs1 ++ hs2) + (if fst p =? id then 1 else 0).
Proof. rewrite !held_app, held_cons. lia. Qed.

Lemma refs_ok_unref vs hs1 hs2 id v : refs_ok vs (hs1 ++ (id, v) :: hs2) -> refs_ok (Unref vs id) (hs1 ++ hs2).
Proof.
  intros [(ns & n & Ev & Hns & Hn) Hid Hnext Hheld]. unfold Unref. set (g := fun m => if v_id m =? id then mk_node id (v_refs m - 1) (v_version m) else m). set (p := fun m => negb (v_refs m =? 0)).
  assert (forall m, v_id (g m) = v_id m /\ v_version (g m) = v_version m) as Hg by (intros m; unfold g; destruct (Z.eqb_spec (v_id m) id); done).
  assert (forall m, v_refs (g m) = v_refs m - (if id =? v_id m then 1 else 0)) as Hr by (intros m; unfold g; rewrite (Z.eqb_sym id); destruct (Z.eqb_spec (v_id m) id); cbn; lia).
  assert (forall m, held (v_id m) (hs1 ++ (id, v) :: hs2) = held (v_id m) (hs1 ++ hs2) + (if id =? v_id m then 1 else 0)) as Hh by (intros m; by rewrite held_remove).
  assert (forall i, 0 <= held i (hs1 ++ hs2)) as Hpos by (intros i; unfold held; lia).
  assert (p (g n) = true) as Hpn by (unfold p; rewrite Hr, Hn, Hh; destruct (Z.eqb_spec (held (v_id n) (hs1 ++ hs2) + (if id =? v_id n then 1 else 0) + 1 - (if id =? v_id n then 1 else 0)) 0); [specialize (Hpos (v_id n)); lia|done]).
  split; cbn [versions_ set_versions next_id_].
  - exists (List.filter p (map g ns)), (g n). rewrite Ev, map_app, List.filter_app. cbn [map List.filter]. rewrite Hpn. split; [done|]. split.
    + apply list.Forall_forall. intros m' [Hm' Hp']%list_elem_of_In%filter_In. apply in_map_iff in Hm' as (m & <- & Hm%list_elem_of_In). destruct (proj1 (list.Forall_forall _ _) Hns m Hm) as [E1 _]. destruct (Hg m) as [-> _].
      split; [rewrite Hr, E1, Hh; lia|]. unfold p in Hp'. by destruct (Z.eqb_spec (v_refs (g m)) 0).
    + destruct (Hg n) as [-> _]. rewrite Hr, Hn, Hh. lia.
  - apply renew_ids; [|done]. intros m. by apply Hg.
  - apply list.Forall_forall. intros m' [Hm' _]%list_elem_of_In%filter_In. apply in_map_iff in Hm' as (m & <- & Hm%list_elem_of_In). destruct (Hg m) as [-> _]. by apply (proj1 (list.Forall_forall _ _) Hnext).
  - intros i x Hin. destruct (Hheld i x) as (m & Hm & <- & <-); [rewrite list.elem_of_app in *; destruct Hin; [by left|right; by right]|]. exists (g m). split; [|apply Hg].
    apply list_elem_of_In, filter_In. split; [by apply in_map, list_elem_of_In|]. rewrite Ev in Hm. apply list.elem_of_app in Hm as [Hm| ->%list_elem_of_singleton]; [|done].
    destruct (proj1 (list.Forall_forall _ _) Hns m Hm) as [E1 _]. pose proof (held_pos _ _ _ Hin) as Hh'. unfold p. rewrite Hr, E1, Hh. destruct (Z.eqb_spec (held (v_id m) (hs1 ++ hs2) + (if id =? v_id m then 1 else 0) - (if id =? v_id m then 1 else 0)) 0); [lia|done].
Qed.

Lemma refs_ok_new dbname : refs_ok (new_VersionSet dbname) [].
Proof. split; [exists [], (mk_node 0 1 new_Version); done|apply list.NoDup_singleton|by repeat constructor|]. intros id v Hin. by apply list.elem_of_nil in Hin. Qed.

Lemma refs_ok_reach dbname s : ref_reach (new_VersionSet dbname, []) s -> refs_ok (fst s) (snd s).
Proof.
  intros Hr. induction Hr as [|s s' _ IH Hs]; [apply refs_ok_new|]. destruct Hs; cbn [fst snd] in *; [by apply refs_ok_append|by apply refs_ok_ref|by apply (refs_ok_unref _ _ _ _ v)].
Qed.

Lemma AddLiveFiles_elem vs live x : x ∈ AddLiveFiles vs live <-> x ∈ live \/ exists n, n ∈ versions_ vs /\ x ∈ version_numbers (v_version n).
Proof.
  unfold AddLiveFiles. revert live. induction (versions_ vs) as [|n ns IH]; intros live; cbn [fold_left].
  - split; [by left|]. intros [?|(n & Hn & _)]; [done|]. by apply list.elem_of_nil in Hn.
  - rewrite IH, elem_of_union. split.
    + intros [[?|?]|(m & Hm & Hx)]; [by left|right; exists n; split; [left|done]|right; exists m; split; [by right|done]].
    + intros [?|(m & [->|Hm]%elem_of_cons & Hx)]; [tauto|tauto|right; by exists m].
Qed.

(** C16: however versions are installed, referred to and let go, AddLiveFiles has the files of the
    current version and of every version that something still refers to; when nothing does,
    deleting the set deletes every version, as its assertion says. *)
Theorem live_files_held dbname vs hs live : ref_reach (new_VersionSet dbname, []) (vs, hs) ->
  version_numbers (current vs) ⊆ AddLiveFiles vs live /\ (forall id v, (id, v) ∈ hs -> version_numbers v ⊆ AddLiveFiles vs live) /\
  (hs = [] -> versions_ (delete_VersionSet vs) = []).
Proof.
  intros Hr. destruct (refs_ok_reach _ _ Hr) as [(ns & n & Ev & Hns & Hn) Hid _ Hheld]. cbn [fst snd] in *. split; [|split].
  - intros x Hx. apply AddLiveFiles_elem. right. exists n. rewrite Ev. split; [apply list.elem_of_app; right; left|]. unfold current, current_ in Hx. by rewrite Ev, list.last_snoc in Hx.
  - intros id v Hin x Hx. apply AddLiveFiles_elem. right. destruct (Hheld id v Hin) as (m & Hm & _ & <-). by exists m.
  - intros ->. unfold delete_VersionSet, current_. rewrite Ev, list.last_snoc. rewrite Ev in Hid. rewrite (Unref_current ns n [] vs Ev Hid Hns Hn). destruct ns as [|m ns]; [done|].
    apply List.Forall_cons_iff in Hns as [[E Hne] _]. by cbn in E.
Qed.

Definition one_file_version : Version := mk_version ([mk_meta 1 100 7 40 [] []] :: replicate 6 []) None (-1) minus_one (-1).

Lemma live_files_held_witness : let vs := AppendVersion (Ref (AppendVersion (new_VersionSet []) one_file_version) 1) new_Version in
  version_numbers (current vs) ⊆ AddLiveFiles vs ∅ /\ (forall id v, (id, v) ∈ [(1, one_file_version)] -> version_numbers v ⊆ AddLiveFiles vs ∅) /\
  ([(1, one_file_version)] = [] -> versions_ (delete_VersionSet vs) = []).
Proof.
  apply (live_files_held []). eapply reach_step; [|apply step_append]. eapply reach_step; [eapply reach_step; [apply reach_start|apply (step_append _ _ one_file_version)]|].
  exact (step_ref (AppendVersion (new_VersionSet []) one_file_version) [] (mk_node 1 1 one_file_version) eq_refl).
Defined.
