(* ===== verification/LdbManifest.v ===== *)
(** leveldb: what Recover reads from the manifest that LogAndApply wrote (db/version_set.cc). *)

From Stdlib Require Import Sorting.Sorted SpecFloat.
From stdpp Require Import sorting gmap.
From S2P Require Import Prelude Leb128 LdbCoding LdbStatus LdbFilename LdbFormat LdbIterator LdbLog LdbEnv.
From S2P Require Import LdbTableBuilder LdbTable LdbVersionEdit LdbVersion LdbVersionRead LdbBuilder LdbCompaction LdbVersionSet.
Open Scope Z_scope.

(** * The log appends to its own file *)

Section Log.
Context {W : Type} `{GoodEnv W}.
Implicit Types (w : W) (f : W * Z).

Definition only_appends f f' : Prop := snd f' = snd f /\ (forall m, names (fst f') m = names (fst f) m) /\ (forall g, g <> snd f -> bytes_of (fst f') g = bytes_of (fst f) g).

Lemma only_refl f : only_appends f f.
Proof. done. Qed.

Lemma only_trans f g h : only_appends f g -> only_appends g h -> only_appends f h.
Proof. intros (A1 & A2 & A3) (B1 & B2 & B3). split; [congruence|]. split; [intros m; by rewrite B2|]. intros i Hi. rewrite B3 by congruence. by apply A3. Qed.

Lemma only_Append f d : only_appends f (snd (Append f d)).
Proof. destruct f as [w h]. cbn. destruct (env_Append w h d) as [s w'] eqn:E. destruct (Append_law _ _ _ _ _ E) as (Hn & Hb & _). done. Qed.

Lemma only_Flush f : only_appends f (snd (Flush f)).
Proof. destruct f as [w h]. cbn. destruct (env_Flush w h) as [s w'] eqn:E. destruct (Flush_law _ _ _ _ E) as (Hn & Hb). split; [done|]. split; [done|]. intros g _. apply Hb. Qed.

Lemma only_Emit (w : Writer (W * Z)) t p : only_appends (dest w) (dest (snd (EmitPhysicalRecord w t p))).
Proof.
  unfold EmitPhysicalRecord. set (buf := _ ++ [_; _; _]). pose proof (only_Append (dest w) buf) as K1. destruct (Append (dest w) buf) as [s1 f1]. cbn [snd] in K1.
  destruct (ok s1); cbn [snd dest set_block_offset set_dest]; [|done]. pose proof (only_Append f1 p) as K2. destruct (Append f1 p) as [s2 f2]. cbn [snd] in K2.
  destruct (ok s2); cbn [snd dest set_block_offset set_dest]; [|by apply (only_trans _ f1)]. pose proof (only_Flush f2) as K3. destruct (Flush f2) as [s3 f3]. cbn [snd] in K3.
  cbn [snd dest set_block_offset set_dest]. apply (only_trans _ f1); [done|]. by apply (only_trans _ f2).
Qed.

Lemma only_loop fuel : forall (w : Writer (W * Z)) begin ptr, only_appends (dest w) (dest (snd (add_record_loop fuel w begin ptr))).
Proof.
  induction fuel as [|fuel IH]; intros w begin ptr; [done|]. cbn [add_record_loop].
  match goal with |- context [if kBlockSize - block_offset w <? kHeaderSize then ?a else w] => set (w1 := if kBlockSize - block_offset w <? kHeaderSize then a else w) end.
  assert (only_appends (dest w) (dest w1)) as K1.
  { subst w1. destruct (_ <? _); [|done]. cbn [dest set_block_offset]. destruct (_ >? 0); [|done]. apply only_Append. }
  set (t := fragment_type _ _). set (p := take _ ptr). pose proof (only_Emit w1 t p) as K2. destruct (EmitPhysicalRecord w1 t p) as [s2 w2]. cbn [snd] in K2.
  assert (only_appends (dest w) (dest w2)) as K3 by by apply (only_trans _ (dest w1)).
  destruct (ok s2 && _); [|done]. apply (only_trans _ (dest w2)); [done|]. apply IH.
Qed.

(** A record of the manifest: its bytes at the end of the file, the rest as it was. *)
Lemma log_AddRecord_ok w h off data : in_block off ->
  exists w', log_AddRecord w (h, off) data = (OK, (h, snd (record_bytes off data)), w') /\
    (forall m, names w' m = names w m) /\ (forall g, g <> h -> bytes_of w' g = bytes_of w g) /\
    bytes_of w' h = bytes_of w h ++ fst (record_bytes off data) /\ in_block (snd (record_bytes off data)).
Proof.
  intros Ho. unfold log_AddRecord. cbn [fst snd]. set (wr := mk_writer (w, h) off InitTypeCrc). destruct (record_bytes off data) as [bs o] eqn:Eb. cbn [fst snd].
  destruct (AddRecord_eq wr data bs o eq_refl Ho Eb) as (wr' & E & (Hc & Hoff & _) & Hin). pose proof (only_loop (length data + 2) wr true data) as (O1 & O2 & O3).
  change (add_record_loop (length data + 2) wr true data) with (AddRecord wr data) in *. rewrite E in *. cbn [snd] in *. exists (fst (dest wr')). rewrite Hoff. split; [done|].
  split; [done|]. split; [done|]. split; [|done]. change (contents (dest wr')) with (bytes_of (fst (dest wr')) (snd (dest wr'))) in Hc. rewrite O1 in Hc. done.
Qed.

Lemma log_bytes_snoc rs r : forall o, log_bytes o (rs ++ [r]) =
  (fst (log_bytes o rs) ++ fst (record_bytes (snd (log_bytes o rs)) r), snd (record_bytes (snd (log_bytes o rs)) r)).
Proof.
  induction rs as [|d rs IH]; intros o.
  - cbn [app log_bytes fst snd]. destruct (record_bytes o r). cbn [fst snd]. by rewrite app_nil_r.
  - cbn [app]. rewrite !log_bytes_cons, IH. cbn [fst snd]. by rewrite app_assoc.
Qed.
End Log.

(** * Files, as the manifest keeps them *)

Section Files.
Context {u : Comparator} {uvalid : list byte -> Prop} {laws : ComparatorLaws uvalid u}.
Implicit Types (f g : FileMetaData) (files : list FileMetaData) (e : VersionEdit) (es : list VersionEdit).

#[local] Abbreviation key_ok := (key_ok (uvalid := uvalid)).
#[local] Abbreviation ordered := (ordered (u := u)).

Lemma added_new_meta level e : map new_meta (added_to level e) = added_to level e.
Proof. unfold added_to. rewrite map_map. by apply map_ext. Qed.

Lemma live_after_meta level files e : map new_meta (live_after level files e) = live_after level (map new_meta files) e.
Proof.
  unfold live_after. rewrite map_app, added_new_meta. f_equal. induction files as [|f files IH]; [done|]. cbn [map List.filter].
  change (deleted_at level e (new_meta f)) with (deleted_at level e f). destruct (negb (deleted_at level e f)); cbn [map]; by rewrite IH.
Qed.

Lemma live_after_perm level files files' e : files ≡ₚ files' -> live_after level files e ≡ₚ live_after level files' e.
Proof. intros Hp. unfold live_after. by rewrite (filter_perm _ _ _ Hp). Qed.

(** Every file that was ever added to a level. *)
Definition ever_added level es : list Z := concat (map (fun e => map number (added_to level e)) es).

Lemma fresh_snoc level es e : forall numbers, fresh level numbers (es ++ [e]) <->
  fresh level numbers es /\ NoDup ((numbers ++ ever_added level es) ++ map number (added_to level e)).
Proof.
  induction es as [|e' es IH]; intros numbers; cbn [app fresh ever_added map concat]; [rewrite app_nil_r; tauto|].
  rewrite IH. unfold ever_added. rewrite <- !app_assoc. tauto.
Qed.

Lemma live_numbers level es : forall files n, n ∈ map number (fold_left (live_after level) es files) -> n ∈ map number files ++ ever_added level es.
Proof.
  induction es as [|e es IH]; intros files n; cbn [fold_left ever_added map concat]; [by rewrite app_nil_r|]. intros Hn%IH. rewrite app_assoc.
  rewrite list.elem_of_app in Hn |- *. destruct Hn as [Hn|Hn]; [left|by right]. unfold live_after in Hn. rewrite map_app, list.elem_of_app in Hn. rewrite list.elem_of_app. destruct Hn as [Hn|Hn]; [left|by right].
  apply list_elem_of_fmap in Hn as (f & -> & Hf). apply list_elem_of_In, filter_In in Hf as [Hf _]. apply list_elem_of_fmap. exists f. split; [done|]. by apply list_elem_of_In.
Qed.

Lemma number_new_meta files : map number (map new_meta files) = map number files.
Proof. rewrite map_map. by apply map_ext. Qed.

Lemma sorted_new_meta files : StronglySorted ordered files -> StronglySorted ordered (map new_meta files).
Proof.
  intros Hs. induction Hs as [|f files Hs IH Hall]; [constructor|]. cbn [map]. constructor; [done|]. apply list.Forall_fmap. eapply list.Forall_impl; [exact Hall|]. done.
Qed.

(** The order decides where each file is. *)
Lemma sorted_unique files files' : Forall key_ok files -> StronglySorted ordered files -> StronglySorted ordered files' ->
  NoDup (map number files) -> files ≡ₚ files' -> files = files'.
Proof.
  intros Hk Hs Hs' Hnd Hp. apply (StronglySorted_unique_strong ordered); [|done..]. intros f g Hf Hg Hfg Hgf. rewrite <- Hp in Hg.
  assert (key_ok f) as Kf by by apply (proj1 (list.Forall_forall _ _) Hk). assert (key_ok g) as Kg by by apply (proj1 (list.Forall_forall _ _) Hk).
  apply (ordered_le f g) in Hfg; [|done..]. apply (ordered_le g f) in Hgf; [|done..]. pose proof (icmp_anti _ _ Kf Kg). assert (number f = number g) as E by lia.
  apply list_elem_of_lookup in Hf as [i Hi]. apply list_elem_of_lookup in Hg as [j Hj]. assert (i = j) as <- by (apply (NoDup_lookup (map number files) i j (number f)); [done|..]; change (map number files) with (number <$> files); rewrite list_lookup_fmap, ?Hi, ?Hj; cbn; congruence). congruence.
Qed.

(** One more edit on a version. *)
Lemma next_level (base : Version) pointers e level : 0 <= level < kNumLevels ->
  Forall key_ok (level_files base level) -> StronglySorted ordered (level_files base level) -> Forall key_ok (added_to level e) ->
  NoDup (map number (level_files base level) ++ map number (added_to level e)) ->
  let files := level_files (SaveTo (user_comparator := u) (fst (Apply (user_comparator := u) (new_Builder base) pointers e)) new_Version) level in
  files ≡ₚ live_after level (level_files base level) e /\ StronglySorted ordered files /\ NoDup (map number files).
Proof.
  intros Hl Hk Hs Hn Hnd. cbv zeta. destruct (SaveTo_ok (u := u) base pointers [e] level Hl Hk Hs) as (G1 & G2 & G3); [by repeat constructor|by apply list.NoDup_app in Hnd as [? _]|done|].
  unfold apply_all in *. cbn [fold_left] in *. by destruct (Apply (new_Builder base) pointers e).
Qed.
End Files.

(** * Compaction pointers *)

Definition pointers_after (pointers : list (list byte)) (e : VersionEdit) : list (list byte) := fold_left set_pointer (compact_pointers_ e) pointers.

Lemma snd_apply_all {u : Comparator} (es : list VersionEdit) : forall (b : Builder) pointers, snd (apply_all (u := u) b pointers es) = fold_left pointers_after es pointers.
Proof. induction es as [|e es IH]; intros b pointers; [done|]. rewrite apply_all_cons, IH. done. Qed.

(** The last pointer given for an index. *)
Definition last_pointer (ps : list (Z * list byte)) (i : nat) (old : option (list byte)) : option (list byte) :=
  fold_left (fun o p => if (Z.to_nat (fst p) =? i)%nat then Some (snd p) else o) ps old.

Lemma fold_pointers_lookup ps i : forall l, (i < length l)%nat -> fold_left set_pointer ps l !! i = last_pointer ps i (l !! i).
Proof.
  induction ps as [|p ps IH]; intros l Hi; [done|]. cbn [fold_left last_pointer]. unfold last_pointer in IH. rewrite IH by (unfold set_pointer; by rewrite length_insert). f_equal. unfold set_pointer.
  destruct (Nat.eqb_spec (Z.to_nat (fst p)) i) as [-> |Hne]; [by rewrite list_lookup_insert_eq|by rewrite list_lookup_insert_ne].
Qed.

Lemma fold_pointers_length ps : forall l, length (fold_left set_pointer ps l) = length l.
Proof. induction ps as [|p ps IH]; intros l; [done|]. cbn [fold_left]. rewrite IH. apply length_insert. Qed.

Lemma last_pointer_some ps i : (exists x, forall o, last_pointer ps i o = Some x) \/ (forall o, last_pointer ps i o = o).
Proof.
  induction ps as [|p ps IH]; [by right|]. unfold last_pointer in *. cbn [fold_left]. destruct IH as [[x Hx]|Hid]; [left; by exists x|].
  destruct (Z.to_nat (fst p) =? i)%nat; [left; exists (snd p)|right]; intros o; by rewrite Hid.
Qed.

(** An edit applied twice: a snapshot has the pointers of the first edit already. *)
Lemma pointers_after_twice pointers e : pointers_after (pointers_after pointers e) e = pointers_after pointers e.
Proof.
  unfold pointers_after. apply list_eq. intros i. destruct (decide (i < length pointers)%nat) as [Hi|Hi].
  - rewrite fold_pointers_lookup by by rewrite fold_pointers_length. rewrite fold_pointers_lookup by done. destruct (last_pointer_some (compact_pointers_ e) i) as [[x Hx]|Hid]; [by rewrite !Hx|by rewrite !Hid].
  - rewrite !lookup_ge_None_2; [done|rewrite fold_pointers_length; lia|rewrite !fold_pointers_length; lia].
Qed.

Lemma pointers_after_length pointers e : length (pointers_after pointers e) = length pointers.
Proof. apply fold_pointers_length. Qed.

(** * The snapshot *)

Section Snapshot.
Context {u : Comparator} {uvalid : list byte -> Prop} {laws : ComparatorLaws uvalid u} (comparator_name : list byte).
Implicit Types (vs : VersionSet) (e : VersionEdit) (f : FileMetaData).

Definition snapshot_pointer_fields vs (levels : list Z) : list edit_field :=
  concat (map (fun level => match default [] (compact_pointer_ vs !! Z.to_nat level) with [] => [] | p => [FCompactPointer level p] end) levels).
Definition snapshot_file_fields vs (levels : list Z) : list edit_field :=
  concat (map (fun level => map (fun f => FNewFile level (number f) (file_size f) (smallest f) (largest f)) (level_files (current vs) level)) levels).

Lemma snapshot_pointers_fields vs e : snapshot_pointers vs e = fold_left apply_field (snapshot_pointer_fields vs (seqZ 0 kNumLevels)) e.
Proof.
  unfold snapshot_pointers, snapshot_pointer_fields. generalize (seqZ 0 kNumLevels) as levels. intros levels. revert e. induction levels as [|level levels IH]; intros e; [done|].
  cbn [fold_left map concat]. rewrite fold_left_app, IH. by destruct (default [] _).
Qed.

Lemma snapshot_level_fields vs level : forall e, snapshot_level vs e level = fold_left apply_field (map (fun f => FNewFile level (number f) (file_size f) (smallest f) (largest f)) (level_files (current vs) level)) e.
Proof. unfold snapshot_level. induction (level_files (current vs) level) as [|f files IH]; intros e; [done|]. cbn [map fold_left]. by rewrite IH. Qed.

Lemma snapshot_edit_fields vs : snapshot_edit comparator_name vs =
  fold_left apply_field (FComparator comparator_name :: snapshot_pointer_fields vs (seqZ 0 kNumLevels) ++ snapshot_file_fields vs (seqZ 0 kNumLevels)) new_VersionEdit.
Proof.
  unfold snapshot_edit. cbn [fold_left]. rewrite fold_left_app, <- snapshot_pointers_fields. unfold snapshot_file_fields. change (apply_field new_VersionEdit (FComparator comparator_name)) with (SetComparatorName new_VersionEdit comparator_name).
  generalize (snapshot_pointers vs (SetComparatorName new_VersionEdit comparator_name)) as e. generalize (seqZ 0 kNumLevels) as levels. intros levels. induction levels as [|level levels IH]; intros e; [done|].
  cbn [fold_left map concat]. rewrite fold_left_app, IH. by rewrite snapshot_level_fields.
Qed.

(** What can be written: fields of the width of the format. *)
Definition file_fits f : Prop := number_ok (number f) /\ number_ok (file_size f) /\ bytes_ok (smallest f) /\ bytes_ok (largest f).

Record snapshot_fits vs : Prop := {
  sf_name : bytes_ok comparator_name;
  sf_pointers : Forall bytes_ok (compact_pointer_ vs);
  sf_length : length (compact_pointer_ vs) = Z.to_nat kNumLevels;
  sf_files : forall level, LdbVersionEdit.level_ok level -> Forall file_fits (level_files (current vs) level);
}.

Lemma levels_ok : Forall LdbVersionEdit.level_ok (seqZ 0 kNumLevels).
Proof. apply list.Forall_forall. intros x Hx%elem_of_seqZ. unfold LdbVersionEdit.level_ok. lia. Qed.

Lemma snapshot_edit_inv vs : snapshot_fits vs -> edit_inv (snapshot_edit comparator_name vs).
Proof.
  intros [Hn Hp Hlen Hf]. rewrite snapshot_edit_fields. apply apply_fields_inv; [apply new_VersionEdit_inv|]. constructor; [done|]. pose proof levels_ok as Hl. apply List.Forall_app. split.
  - unfold snapshot_pointer_fields. induction Hl as [|level levels Hl _ IH]; [constructor|]. cbn [map concat]. apply List.Forall_app. split; [|done].
    destruct (compact_pointer_ vs !! Z.to_nat level) as [p|] eqn:E; [|constructor]. cbn. destruct p as [|b p]; [constructor|]. constructor; [|constructor]. split; [done|]. by apply (proj1 (list.Forall_lookup _ _) Hp _ _ E).
  - unfold snapshot_file_fields. induction Hl as [|level levels Hl _ IH]; [constructor|]. cbn [map concat]. apply List.Forall_app. split; [|done].
    apply list.Forall_fmap. eapply list.Forall_impl; [apply (Hf level Hl)|]. intros f (A & B & C & D). cbn. done.
Qed.

Lemma field_pointers fs : forall e, compact_pointers_ (fold_left apply_field fs e) = compact_pointers_ e ++ concat (map (fun x => match x with FCompactPointer level p => [(level, p)] | _ => [] end) fs).
Proof. induction fs as [|f fs IH]; intros e; cbn [fold_left map concat]; [by rewrite app_nil_r|]. rewrite IH. destruct f; cbn [apply_field SetComparatorName SetLogNumber SetPrevLogNumber SetNextFile SetLastSequence SetCompactPointer DeleteFile AddFile push_new_file compact_pointers_ app]; try done. by rewrite <- app_assoc. Qed.

Lemma field_files fs : forall e, new_files_ (fold_left apply_field fs e) = new_files_ e ++ concat (map (fun x => match x with FNewFile level n s a b => [(level, set_file (new_FileMetaData 0) n s a b)] | _ => [] end) fs).
Proof. induction fs as [|f fs IH]; intros e; cbn [fold_left map concat]; [by rewrite app_nil_r|]. rewrite IH. destruct f; cbn [apply_field SetComparatorName SetLogNumber SetPrevLogNumber SetNextFile SetLastSequence SetCompactPointer DeleteFile AddFile push_new_file new_files_ app]; try done. by rewrite <- app_assoc. Qed.

Lemma snapshot_comparator vs : has_comparator_ (snapshot_edit comparator_name vs) = true /\ comparator_ (snapshot_edit comparator_name vs) = comparator_name /\
  deleted_files_ (snapshot_edit comparator_name vs) = [].
Proof.
  assert (forall fs e, Forall (fun x => match x with FCompactPointer _ _ | FNewFile _ _ _ _ _ => True | _ => False end) fs ->
    has_comparator_ (fold_left apply_field fs e) = has_comparator_ e /\ comparator_ (fold_left apply_field fs e) = comparator_ e /\ deleted_files_ (fold_left apply_field fs e) = deleted_files_ e) as Hk.
  { induction fs as [|x fs IH]; intros e Hf; [done|]. apply List.Forall_cons_iff in Hf as [Hx Hf]. cbn [fold_left]. destruct (IH (apply_field e x) Hf) as (-> & -> & ->). by destruct x. }
  rewrite snapshot_edit_fields. cbn [fold_left]. match goal with |- context [fold_left apply_field ?fs ?e] => destruct (Hk fs e) as (-> & -> & ->) end; [|done].
  apply List.Forall_app. split.
  - unfold snapshot_pointer_fields. induction (seqZ 0 kNumLevels) as [|level levels IH]; [constructor|]. cbn [map concat]. apply List.Forall_app. split; [|done]. destruct (default [] _); repeat constructor.
  - unfold snapshot_file_fields. induction (seqZ 0 kNumLevels) as [|level levels IH]; [constructor|]. cbn [map concat]. apply List.Forall_app. split; [|done]. apply list.Forall_fmap, list.Forall_true. done.
Qed.

(** The pointers of a snapshot are those of the set. *)
Lemma snapshot_pointers_after vs : length (compact_pointer_ vs) = Z.to_nat kNumLevels ->
  pointers_after (replicate (Z.to_nat kNumLevels) []) (snapshot_edit comparator_name vs) = compact_pointer_ vs.
Proof.
  intros Hl. unfold pointers_after. rewrite snapshot_edit_fields. cbn [fold_left]. rewrite fold_left_app, field_pointers, field_pointers.
  assert (concat (map (fun x => match x with FCompactPointer level p => [(level, p)] | _ => [] end) (snapshot_file_fields vs (seqZ 0 kNumLevels))) = []) as ->.
  { unfold snapshot_file_fields. induction (seqZ 0 kNumLevels) as [|level levels IH]; [done|]. cbn [map concat]. rewrite map_app, concat_app, IH, app_nil_r. by induction (level_files (current vs) level). }
  rewrite app_nil_r. unfold snapshot_pointer_fields. change (seqZ 0 kNumLevels) with [0; 1; 2; 3; 4; 5; 6]. change (Z.to_nat kNumLevels) with 7%nat in *.
  destruct (compact_pointer_ vs) as [|p0 [|p1 [|p2 [|p3 [|p4 [|p5 [|p6 [|? ?]]]]]]]]; try done.
  destruct p0, p1, p2, p3, p4, p5, p6; reflexivity.
Qed.

Lemma added_block level l (files : list FileMetaData) : List.filter (fun p : Z * FileMetaData => Z.to_nat (fst p) =? Z.to_nat level)%nat
    (map (fun f => (l, set_file (new_FileMetaData 0) (number f) (file_size f) (smallest f) (largest f))) files) =
  if (Z.to_nat l =? Z.to_nat level)%nat then map (fun f => (l, set_file (new_FileMetaData 0) (number f) (file_size f) (smallest f) (largest f))) files else [].
Proof. induction files as [|f files IH]; [by destruct (_ =? _)%nat|]. cbn [map List.filter fst]. rewrite IH. by destruct (_ =? _)%nat. Qed.

(** The files of a snapshot are those of the version. *)
Lemma snapshot_added vs level : LdbVersionEdit.level_ok level -> added_to level (snapshot_edit comparator_name vs) = map new_meta (level_files (current vs) level).
Proof.
  intros Hlev. unfold added_to. rewrite snapshot_edit_fields. cbn [fold_left]. rewrite fold_left_app, field_files, field_files.
  assert (concat (map (fun x => match x with FNewFile level n s a b => [(level, set_file (new_FileMetaData 0) n s a b)] | _ => [] end) (snapshot_pointer_fields vs (seqZ 0 kNumLevels))) = []) as ->.
  { unfold snapshot_pointer_fields. induction (seqZ 0 kNumLevels) as [|l levels IH]; [done|]. cbn [map concat]. rewrite map_app, concat_app, IH, app_nil_r. by destruct (default [] _). }
  rewrite app_nil_r. cbn [new_files_ apply_field SetComparatorName new_VersionEdit edit_Clear app].
  enough (forall levels, NoDup levels -> Forall LdbVersionEdit.level_ok levels -> map (fun p => new_meta (snd p)) (List.filter (fun p : Z * FileMetaData => Z.to_nat (fst p) =? Z.to_nat level)%nat
    (concat (map (fun x => match x with FNewFile level n s a b => [(level, set_file (new_FileMetaData 0) n s a b)] | _ => [] end) (snapshot_file_fields vs levels)))) =
    if bool_decide (level ∈ levels) then map new_meta (level_files (current vs) level) else []) as He.
  { rewrite He; [|apply NoDup_seqZ|apply levels_ok]. rewrite bool_decide_eq_true_2; [done|]. apply elem_of_seqZ. unfold LdbVersionEdit.level_ok in Hlev. lia. }
  intros levels Hnd Hok. induction Hok as [|l levels Hl Hok IH]; [done|]. apply list.NoDup_cons in Hnd as [Hnot Hnd]. specialize (IH Hnd).
  unfold snapshot_file_fields in *. cbn [map concat]. rewrite map_app, concat_app, List.filter_app, map_app, IH, map_map.
  replace (concat (map _ (level_files (current vs) l))) with (map (fun f => (l, set_file (new_FileMetaData 0) (number f) (file_size f) (smallest f) (largest f))) (level_files (current vs) l)) by (induction (level_files (current vs) l) as [|f files IHf]; [done|]; cbn [map concat app]; by rewrite IHf).
  rewrite added_block. unfold LdbVersionEdit.level_ok in *. destruct (Nat.eqb_spec (Z.to_nat l) (Z.to_nat level)) as [E|E].
  - assert (l = level) as -> by lia. rewrite (bool_decide_eq_false_2 (level ∈ levels)) by done. rewrite bool_decide_eq_true_2 by by left. rewrite map_map, app_nil_r. by apply map_ext.
  - cbn [map app]. destruct (bool_decide_reflect (level ∈ levels)) as [Hin|Hin]; [by rewrite bool_decide_eq_true_2 by by right|]. rewrite bool_decide_eq_false_2; [done|]. intros [->|?]%elem_of_cons; [by apply E|done].
Qed.
End Snapshot.

(** * What the edits of a manifest say *)

Definition record (e : VersionEdit) : list byte := EncodeTo e [].

Section Edits.
Context {u : Comparator} {uvalid : list byte -> Prop} {laws : ComparatorLaws uvalid u} (comparator_name : list byte).
Implicit Types (vs : VersionSet) (e : VersionEdit) (es : list VersionEdit).

#[local] Abbreviation key_ok := (key_ok (uvalid := uvalid)).
#[local] Abbreviation ordered := (ordered (u := u)).
#[local] Abbreviation lvl_ok := LdbVersionEdit.level_ok.

Record edit_fits e : Prop := {
  ef_inv : edit_inv e;
  ef_name : has_comparator_ e = true -> comparator_ e = comparator_name;
  ef_keys : forall level, lvl_ok level -> Forall key_ok (added_to level e);
}.

Record version_fits (v : Version) : Prop := {
  vf_keys : forall level, lvl_ok level -> Forall key_ok (level_files v level);
  vf_sorted : forall level, lvl_ok level -> StronglySorted ordered (level_files v level);
  vf_numbers : forall level, lvl_ok level -> NoDup (map number (level_files v level));
}.

Record numbers_fit vs : Prop := {
  nf_next : number_ok (vs_next_file_number vs);
  nf_sequence : number_ok (vs_last_sequence vs);
  nf_log : number_ok (vs_log_number vs);
  nf_prev : number_ok (vs_prev_log_number vs);
}.

(** The edits lead to the current version and the pointers. *)
Record agrees vs es : Prop := {
  ag_version : version_fits (current vs);
  ag_files : forall level, lvl_ok level -> map new_meta (level_files (current vs) level) ≡ₚ fold_left (live_after level) es [];
  ag_pointers : compact_pointer_ vs = fold_left pointers_after es (replicate (Z.to_nat kNumLevels) []);
}.

(** The edit has the numbers of the set. *)
Record last_edit vs e : Prop := {
  le_has : has_log_number_ e = true /\ has_prev_log_number_ e = true /\ has_next_file_number_ e = true /\ has_last_sequence_ e = true;
  le_log : log_number_ e = vs_log_number vs;
  le_prev : prev_log_number_ e = vs_prev_log_number vs;
  le_next : next_file_number_ e = vs_next_file_number vs;
  le_sequence : last_sequence_ e = vs_last_sequence vs;
}.

Lemma complete_edit_eq vs e : compact_pointers_ (complete_edit vs e) = compact_pointers_ e /\ deleted_files_ (complete_edit vs e) = deleted_files_ e /\
  new_files_ (complete_edit vs e) = new_files_ e /\ has_comparator_ (complete_edit vs e) = has_comparator_ e /\ comparator_ (complete_edit vs e) = comparator_ e.
Proof. unfold complete_edit. destruct (has_log_number_ e); cbn [has_prev_log_number_ SetLogNumber]; by destruct (has_prev_log_number_ e). Qed.

Lemma complete_edit_added vs e level : added_to level (complete_edit vs e) = added_to level e.
Proof. unfold added_to. by destruct (complete_edit_eq vs e) as (_ & _ & -> & _). Qed.

Lemma complete_edit_numbers vs e : let e' := complete_edit vs e in
  (has_log_number_ e' = true /\ has_prev_log_number_ e' = true /\ has_next_file_number_ e' = true /\ has_last_sequence_ e' = true) /\
  next_file_number_ e' = vs_next_file_number vs /\ last_sequence_ e' = vs_last_sequence vs.
Proof.
  unfold complete_edit. destruct (has_log_number_ e) eqn:E1; cbn [has_prev_log_number_ SetLogNumber]; destruct (has_prev_log_number_ e) eqn:E2; cbn; by rewrite ?E1, ?E2.
Qed.

Lemma complete_edit_fits vs e : numbers_fit vs -> edit_fits e -> edit_fits (complete_edit vs e).
Proof.
  intros [Hn Hs Hl Hp] [Hi Hc Hk]. destruct (complete_edit_eq vs e) as (_ & _ & _ & E1 & E2). split; [|by rewrite E1, E2|intros level Hlev; rewrite complete_edit_added; by apply Hk].
  unfold complete_edit. set (e1 := if has_log_number_ e then e else _). assert (edit_inv e1) as H1 by (subst e1; destruct (has_log_number_ e); [done|by apply (apply_field_inv e (FLogNumber (vs_log_number vs)))]).
  set (e2 := if has_prev_log_number_ e1 then e1 else _). assert (edit_inv e2) as H2 by (subst e2; destruct (has_prev_log_number_ e1); [done|by apply (apply_field_inv e1 (FPrevLogNumber (vs_prev_log_number vs)))]).
  apply (apply_field_inv (SetNextFile e2 (vs_next_file_number vs)) (FLastSequence (vs_last_sequence vs))); [|done]. by apply (apply_field_inv e2 (FNextFile (vs_next_file_number vs))).
Qed.

Lemma current_append vs v : current (AppendVersion vs v) = v.
Proof. unfold AppendVersion, current, current_. cbn [versions_ set_versions]. by rewrite list.last_snoc. Qed.

(** The version that LogAndApply makes. *)
Definition next_version vs e : Version := Finalize (SaveTo (user_comparator := u) (fst (Apply (user_comparator := u) (new_Builder (current vs)) (compact_pointer_ vs) e)) new_Version).

Lemma Finalize_files v level : level_files (Finalize v) level = level_files v level.
Proof. unfold Finalize. by destruct (fold_left _ _ _). Qed.

(** The files of the next version: what the edit leaves of the files of the current one. *)
Lemma next_version_ok vs e : version_fits (current vs) -> edit_fits e ->
  (forall level, lvl_ok level -> NoDup (map number (level_files (current vs) level) ++ map number (added_to level e))) ->
  version_fits (next_version vs e) /\ forall level, lvl_ok level -> level_files (next_version vs e) level ≡ₚ live_after level (level_files (current vs) level) e.
Proof.
  intros [Hk Hs Hn] [_ _ Hke] Hf. assert (forall level, lvl_ok level -> let files := level_files (next_version vs e) level in
    files ≡ₚ live_after level (level_files (current vs) level) e /\ StronglySorted ordered files /\ NoDup (map number files)) as Hl.
  { intros level Hlev. cbv zeta. unfold next_version. rewrite Finalize_files. apply (next_level (u := u)); auto. }
  split; [|intros level Hlev; apply (Hl level Hlev)]. split; intros level Hlev; destruct (Hl level Hlev) as (G1 & G2 & G3); [|done|done].
  rewrite G1. unfold live_after. apply List.Forall_app. split; [|by apply Hke]. apply list.Forall_forall. intros f [Hf' _]%list_elem_of_In%filter_In. apply (proj1 (list.Forall_forall _ _) (Hk level Hlev)). by apply list_elem_of_In.
Qed.

Lemma agrees_next vs es e : agrees vs es -> edit_fits e -> (forall level, lvl_ok level -> fresh level [] (es ++ [e])) ->
  forall vs', current vs' = next_version vs e -> compact_pointer_ vs' = pointers_after (compact_pointer_ vs) e -> agrees vs' (es ++ [e]).
Proof.
  intros [Hv Hf Hp] He Hfr vs' Ec Ep. destruct (next_version_ok vs e Hv He) as [Hv' Hf'].
  { intros level Hlev. specialize (Hfr level Hlev). apply fresh_snoc in Hfr as [_ Hnd]. cbn [app] in Hnd. apply list.NoDup_app in Hnd as (_ & Hdis & Hadd). apply list.NoDup_app. split; [by apply (vf_numbers _ Hv)|]. split; [|done].
    intros n Hin Hin'. apply (Hdis n); [|done]. rewrite <- number_new_meta, (Hf level Hlev) in Hin. by apply live_numbers in Hin. }
  split; [by rewrite Ec| |].
  - intros level Hlev. rewrite Ec, (Hf' level Hlev), live_after_meta, fold_left_app. cbn [fold_left]. by apply live_after_perm, Hf.
  - rewrite fold_left_app. cbn [fold_left]. by rewrite <- Hp.
Qed.

(** A snapshot agrees with the set it is of. *)
Lemma agrees_snapshot vs : version_fits (current vs) -> length (compact_pointer_ vs) = Z.to_nat kNumLevels -> agrees vs [snapshot_edit comparator_name vs].
Proof.
  intros Hv Hl. split; [done| |].
  - intros level Hlev. cbn [fold_left]. unfold live_after. cbn [List.filter app]. by rewrite snapshot_added.
  - cbn [fold_left]. by rewrite snapshot_pointers_after.
Qed.

Lemma snapshot_edit_fits vs : snapshot_fits comparator_name vs -> version_fits (current vs) -> edit_fits (snapshot_edit comparator_name vs).
Proof.
  intros Hs [Hk _ _]. split; [by apply snapshot_edit_inv|intros _; apply snapshot_comparator|]. intros level Hlev. rewrite snapshot_added by done. apply list.Forall_fmap. eapply list.Forall_impl; [by apply Hk|]. done.
Qed.

Lemma fresh_ext level es es' : Forall2 (fun e e' => added_to level e = added_to level e') es es' -> forall numbers, fresh level numbers es -> fresh level numbers es'.
Proof. intros Hf. induction Hf as [|e e' es es' E _ IH]; intros numbers; [done|]. cbn [fresh]. rewrite E. intros [? ?]. split; [done|]. by apply IH. Qed.

Lemma added_refl level es : Forall2 (fun e e' => added_to level e = added_to level e') es es.
Proof. induction es; by constructor. Qed.

Lemma fresh_app level es es' : forall numbers, fresh level numbers (es ++ es') -> fresh level numbers es.
Proof. induction es as [|e es IH]; intros numbers; [done|]. cbn [app fresh]. intros [? ?]. split; [done|]. by apply IH. Qed.
End Edits.

(** * Writing the manifest *)

Section Writing.
Context {u : Comparator} {uvalid : list byte -> Prop} {laws : ComparatorLaws uvalid u} (comparator_name : list byte).
Context {W : Type} `{GoodEnv W}.
Implicit Types (w : W) (vs : VersionSet) (e : VersionEdit) (es : list VersionEdit).

#[local] Abbreviation lvl_ok := LdbVersionEdit.level_ok.
#[local] Abbreviation edit_fits := (edit_fits (uvalid := uvalid) comparator_name).
#[local] Abbreviation version_fits := (version_fits (u := u) (uvalid := uvalid)).
#[local] Abbreviation agrees := (agrees (u := u) (uvalid := uvalid)).
#[local] Abbreviation next_version := (next_version (u := u)).

Definition manifest_name vs : list byte := DescriptorFileName (dbname_ vs) (vs_manifest_file_number vs).

(** The file of the handle [h] has the records of the edits. *)
Definition manifest_at w (name : list byte) (h off : Z) es : Prop :=
  names w name = Some h /\ in_block off /\ log_bytes 0 (map record es) = (bytes_of w h, off).

Lemma manifest_add w name h off es e : manifest_at w name h off es ->
  exists off' w', log_AddRecord w (h, off) (record e) = (OK, (h, off'), w') /\ manifest_at w' name h off' (es ++ [e]) /\
    (forall m, names w' m = names w m) /\ (forall g, g <> h -> bytes_of w' g = bytes_of w g).
Proof.
  intros (Hn & Hin & Hb). destruct (log_AddRecord_ok w h off (record e) Hin) as (w' & E & N & B & Bh & Hin'). eexists _, w'. split; [exact E|]. split; [|done].
  split; [by rewrite N|]. split; [done|]. rewrite map_app. cbn [map]. by rewrite log_bytes_snoc, Hb, Bh.
Qed.

Lemma manifest_sync w name h off es : manifest_at w name h off es -> exists w', env_Sync w h = (OK, w') /\ manifest_at w' name h off es /\ same_disk w w'.
Proof.
  intros (Hn & Hin & Hb). pose proof (Sync_good w h) as G. destruct (env_Sync w h) as [s w'] eqn:E. cbn in G. subst s. destruct (Sync_law _ _ _ _ E) as [N B]. exists w'. split; [done|].
  split; [|done]. split; [by rewrite N|]. split; [done|]. by rewrite B.
Qed.

(** What the set and the disk keep between calls of LogAndApply. *)
Record logged vs w es : Prop := {
  lg_log : exists h off c, descriptor_log_ vs = Some (h, off) /\ manifest_at w (manifest_name vs) h off es /\
    names w (CurrentFileName (dbname_ vs)) = Some c /\ c <> h /\ bytes_of w c = current_line (vs_manifest_file_number vs);
  lg_edits : Forall edit_fits es;
  lg_agrees : agrees vs es;
  lg_numbers : numbers_fit vs;
  lg_fresh : forall level, lvl_ok level -> fresh level [] es;
}.

Definition same_names vs vs' : Prop := dbname_ vs' = dbname_ vs /\ vs_manifest_file_number vs' = vs_manifest_file_number vs.

(** The set after the edit is installed. *)
Definition installed vs e log : VersionSet :=
  let pointers := pointers_after (compact_pointer_ vs) e in
  set_log_numbers (AppendVersion (set_descriptor (set_pointers vs pointers) (Some log)) (next_version vs e)) (log_number_ e) (prev_log_number_ e).

Lemma installed_names vs e log : same_names vs (installed vs e log) /\ descriptor_log_ (installed vs e log) = Some log /\ compact_pointer_ (installed vs e log) = pointers_after (compact_pointer_ vs) e /\
  current (installed vs e log) = next_version vs e /\ vs_next_file_number (installed vs e log) = vs_next_file_number vs /\ vs_last_sequence (installed vs e log) = vs_last_sequence vs.
Proof.
  unfold installed. set (X := set_descriptor _ _). assert (current (AppendVersion X (next_version vs e)) = next_version vs e) as Ec by apply current_append.
  assert (forall Y v, dbname_ (AppendVersion Y v) = dbname_ Y /\ vs_manifest_file_number (AppendVersion Y v) = vs_manifest_file_number Y /\ descriptor_log_ (AppendVersion Y v) = descriptor_log_ Y /\
    compact_pointer_ (AppendVersion Y v) = compact_pointer_ Y /\ vs_next_file_number (AppendVersion Y v) = vs_next_file_number Y /\ vs_last_sequence (AppendVersion Y v) = vs_last_sequence Y) as Ha by (intros Y v; unfold AppendVersion; by destruct (current_ Y)).
  destruct (Ha X (next_version vs e)) as (A1 & A2 & A3 & A4 & A5 & A6). unfold same_names. cbn [set_log_numbers dbname_ vs_manifest_file_number descriptor_log_ compact_pointer_ vs_next_file_number vs_last_sequence]. rewrite A1, A2, A3, A4, A5, A6. done.
Qed.

Lemma installed_last vs e log : last_edit (installed vs (complete_edit vs e) log) (complete_edit vs e).
Proof.
  destruct (installed_names vs (complete_edit vs e) log) as (_ & _ & _ & _ & En & Es). destruct (complete_edit_numbers vs e) as (H1' & H2' & H3').
  by split; rewrite ?En, ?Es.
Qed.

Lemma last_numbers vs e : last_edit vs e -> edit_inv e -> numbers_fit vs.
Proof.
  intros [(h1 & h2 & h3 & h4) L1 L2 L3 L4] He. pose proof (inv_fields e He) as Hf. apply edit_fields_ok in Hf as ((_ & F1 & F2 & F3 & F4) & _). split; [rewrite <- L3|rewrite <- L4|rewrite <- L1|rewrite <- L2]; auto.
Qed.

(** A later call of LogAndApply. *)
Lemma LogAndApply_next vs w es e : logged vs w es -> edit_fits e -> (forall level, lvl_ok level -> fresh level [] (es ++ [e])) ->
  exists vs' w', LogAndApply (user_comparator := u) comparator_name vs w e = (OK, complete_edit vs e, vs', w') /\ logged vs' w' (es ++ [complete_edit vs e]) /\ last_edit vs' (complete_edit vs e) /\ same_names vs vs'.
Proof.
  intros [(h & off & c & Elog & Hm & Nc & Hne & Bc) Hes Hag Hnum _] He Hfr. set (e' := complete_edit vs e). assert (edit_fits e') as He' by by apply complete_edit_fits.
  assert (forall level, lvl_ok level -> fresh level [] (es ++ [e'])) as Hfr' by (intros level Hlev; apply fresh_snoc; specialize (Hfr level Hlev); apply fresh_snoc in Hfr; unfold e'; by rewrite complete_edit_added).
  destruct (manifest_add w _ h off es e' Hm) as (off' & w1 & E1 & Hm1 & N1 & B1). destruct (manifest_sync w1 _ h off' _ Hm1) as (w2 & E2 & Hm2 & N2 & B2).
  exists (installed vs e' (h, off')), w2. destruct (installed_names vs e' (h, off')) as ((I1 & I2) & I3 & I4 & I5 & I6 & I7). split.
  { unfold LogAndApply. fold e'. unfold Apply at 1. cbv zeta. cbn [descriptor_log_ set_pointers]. rewrite Elog. cbn [ok OK]. fold (record e'). cbn [descriptor_log_ set_pointers]. rewrite Elog. rewrite E1. cbn [ok OK fst]. rewrite E2. cbn [ok OK]. done. }
  split; [|split; [apply installed_last|done]]. split.
  - exists h, off', c. split; [done|]. unfold manifest_name. rewrite I1, I2. split; [done|]. split; [by rewrite N2, N1|]. split; [done|]. by rewrite B2, B1.
  - apply List.Forall_app. split; [done|]. by constructor.
  - by apply (agrees_next comparator_name vs es e' Hag He').
  - apply (last_numbers _ e'); [apply installed_last|apply He'].
  - done.
Qed.

Lemma pointers_after_fit (pointers : list (list byte)) e : edit_inv e -> Forall bytes_ok pointers -> Forall bytes_ok (pointers_after pointers e).
Proof.
  intros He. pose proof (inv_fields e He) as Hf. apply edit_fields_ok in Hf as (_ & Hp & _). unfold pointers_after. revert pointers. induction Hp as [|p ps [_ Hb] _ IH]; intros pointers Hall; [done|].
  cbn [fold_left]. apply IH. by apply list.Forall_insert.
Qed.

Lemma descriptor_not_current dbname num : DescriptorFileName dbname num <> CurrentFileName dbname.
Proof. rewrite descriptor_name_eq. unfold CurrentFileName. intros E. by apply app_inv_head in E. Qed.

(** The manifest, then CURRENT. *)
Lemma manifest_current w dbname num h off es : number_ok num -> manifest_at w (DescriptorFileName dbname num) h off es ->
  exists w' c, SetCurrentFile w dbname num = (OK, w') /\ manifest_at w' (DescriptorFileName dbname num) h off es /\
    names w' (CurrentFileName dbname) = Some c /\ c <> h /\ bytes_of w' c = current_line num.
Proof.
  intros Hn (Nm & Hin & Hb). pose proof (SetCurrentFile_good w dbname num) as G. destruct (SetCurrentFile w dbname num) as [s w'] eqn:E. cbn in G. subst s.
  destruct (SetCurrentFile_ok w dbname num OK w' Hn E) as [(c & Nc & Bc & Fc) Ho]. cbn [ok OK] in *. exists w', c.
  pose proof (temp_not_descriptor dbname num num Hn) as Hne. destruct (Ho (DescriptorFileName dbname num) (descriptor_not_current dbname num) ltac:(done)) as [En Eb]. specialize (Eb h Nm).
  split; [done|]. split; [split; [by rewrite En|]; split; [done|by rewrite Eb]|]. split; [done|]. split; [|done]. intros ->. by apply (Fc (DescriptorFileName dbname num)).
Qed.

(** What a set that has no manifest yet must be. *)
Record opened vs : Prop := {
  op_descriptor : descriptor_log_ vs = None;
  op_number : number_ok (vs_manifest_file_number vs);
  op_numbers : numbers_fit vs;
  op_version : version_fits (current vs);
  op_snapshot : snapshot_fits comparator_name vs;
}.

(** The first call of LogAndApply: a new manifest, with a snapshot. *)
Definition first_snapshot vs e : VersionEdit := snapshot_edit comparator_name (set_pointers vs (pointers_after (compact_pointer_ vs) e)).

Lemma first_snapshot_added vs e level : lvl_ok level -> added_to level (first_snapshot vs e) = map new_meta (level_files (current vs) level).
Proof. intros Hlev. unfold first_snapshot. by rewrite snapshot_added. Qed.

Lemma LogAndApply_first vs w e : opened vs -> edit_fits e -> (forall level, lvl_ok level -> fresh level (map number (level_files (current vs) level)) [e]) ->
  exists vs' w', LogAndApply (user_comparator := u) comparator_name vs w e = (OK, complete_edit vs e, vs', w') /\ logged vs' w' [first_snapshot vs (complete_edit vs e); complete_edit vs e] /\
    last_edit vs' (complete_edit vs e) /\ same_names vs vs'.
Proof.
  intros [Hdesc Hnum Hfit Hver Hsnap] He Hfr. set (e' := complete_edit vs e). assert (edit_fits e') as He' by by apply complete_edit_fits.
  set (vsP := set_pointers vs (pointers_after (compact_pointer_ vs) e')). set (snap := first_snapshot vs e').
  assert (snapshot_fits comparator_name vsP) as HsnapP by (destruct Hsnap as [S1 S2 S3 S4]; split; [done|apply pointers_after_fit; [apply He'|done]|unfold vsP; cbn [compact_pointer_ set_pointers]; by rewrite pointers_after_length|done]).
  assert (edit_fits snap) as Hes by by apply (snapshot_edit_fits (u := u) comparator_name vsP).
  assert (agrees vsP [snap]) as Hag by (apply agrees_snapshot; [done|apply HsnapP]).
  assert (forall level, lvl_ok level -> fresh level [] [snap; e']) as Hfr'.
  { intros level Hlev. cbn [fresh]. unfold snap. rewrite first_snapshot_added, number_new_meta by done. cbn [app]. unfold e'. rewrite complete_edit_added. split; [by apply (vf_numbers _ Hver)|apply (Hfr level Hlev)]. }
  set (name := manifest_name vs). pose proof (NewWritableFile_good w name) as G0. destruct (env_NewWritableFile w name) as [[s0 h] w0] eqn:E0. cbn in G0. subst s0.
  destruct (NewWritableFile_law _ _ _ _ _ E0) as (_ & _ & G0). destruct (G0 eq_refl) as (Nh & Bh & _). assert (manifest_at w0 name h 0 []) as Hm0 by (split; [done|]; split; [done|]; cbn; by rewrite Bh).
  destruct (manifest_add w0 name h 0 [] snap Hm0) as (off1 & w1 & E1 & Hm1 & _). destruct (manifest_add w1 name h off1 [snap] e' Hm1) as (off2 & w2 & E2 & Hm2 & _).
  destruct (manifest_sync w2 name h off2 _ Hm2) as (w3 & E3 & Hm3 & _). destruct (manifest_current w3 (dbname_ vs) (vs_manifest_file_number vs) h off2 _ Hnum Hm3) as (w4 & c & E4 & Hm4 & Nc & Hne & Bc).
  exists (installed vs e' (h, off2)), w4. destruct (installed_names vs e' (h, off2)) as ((I1 & I2) & I3 & I4 & I5 & I6 & I7). split.
  { unfold LogAndApply. fold e'. unfold Apply at 1. cbv zeta. cbn [descriptor_log_ set_pointers]. rewrite Hdesc. change (DescriptorFileName (dbname_ (set_pointers vs ?p)) _) with name. rewrite E0. cbn [ok OK].
    unfold WriteSnapshot. fold (pointers_after (compact_pointer_ vs) e'). change (EncodeTo (snapshot_edit comparator_name _) []) with (record snap). rewrite E1. cbn [descriptor_log_ set_descriptor ok OK].
    replace (SetNextFile e' _) with e' by (symmetry; unfold e', complete_edit; by destruct (has_prev_log_number_ _)). fold (record e'). rewrite E2. cbn [ok OK fst]. rewrite E3. cbn [ok OK dbname_ vs_manifest_file_number set_descriptor set_pointers]. rewrite E4. cbn [ok OK]. done. }
  split; [|split; [apply installed_last|done]]. split.
  - exists h, off2, c. split; [done|]. unfold manifest_name. by rewrite I1, I2.
  - constructor; [done|]. constructor; [done|constructor].
  - apply (agrees_next comparator_name vsP [snap] e' Hag He' Hfr').
    + by rewrite I5.
    + rewrite I4. unfold vsP. cbn [compact_pointer_ set_pointers]. by rewrite pointers_after_twice.
  - apply (last_numbers _ e'); [apply installed_last|apply He'].
  - done.
Qed.

(** ** Any number of edits *)

(** The numbers that are used before an edit, and the edit. *)
Record LogStep := mk_step { st_used : Z; st_sequence : Z; st_edit : VersionEdit }.

Definition before_step vs (s : LogStep) : VersionSet := vs_SetLastSequence (MarkFileNumberUsed vs (st_used s)) (st_sequence s).

Fixpoint log_all vs w (steps : list LogStep) : Status * list VersionEdit * VersionSet * W :=
  match steps with
  | [] => (OK, [], vs, w)
  | s :: steps =>
      let '(st, e, vs, w) := LogAndApply (user_comparator := u) comparator_name (before_step vs s) w (st_edit s) in
      if ok st then let '(st, es, vs, w) := log_all vs w steps in (st, e :: es, vs, w) else (st, [e], vs, w)
  end.

Definition step_fits (s : LogStep) : Prop := edit_fits (st_edit s) /\ number_ok (st_sequence s).

Lemma before_step_eq vs s : number_ok (st_sequence s) -> numbers_fit vs -> numbers_fit (before_step vs s) /\ same_names vs (before_step vs s) /\ current (before_step vs s) = current vs /\
  compact_pointer_ (before_step vs s) = compact_pointer_ vs /\ descriptor_log_ (before_step vs s) = descriptor_log_ vs.
Proof.
  intros Hs [Hn _ Hl Hp]. unfold before_step, MarkFileNumberUsed. destruct (_ <=? _); (split; [split; try done|done]). cbn. unfold number_ok. pose proof (u64_bound (st_used s + 1)). lia.
Qed.

Lemma logged_before vs w es s : number_ok (st_sequence s) -> logged vs w es -> logged (before_step vs s) w es.
Proof.
  intros Hs [(h & off & c & A) Hes [Hv Hf Hp] Hn Hfr]. destruct (before_step_eq vs s Hs Hn) as (N & (S1 & S2) & E1 & E2 & E3). split; [|done| |done|done].
  - exists h, off, c. unfold manifest_name. by rewrite E3, S1, S2.
  - split; [by rewrite E1|intros level Hlev; rewrite E1; by apply Hf|by rewrite E2].
Qed.

(** The state after some edits: the manifest has them, the last one the numbers. *)
Definition logged_last vs w es e : Prop := logged vs w (es ++ [e]) /\ last_edit vs e.

Lemma log_all_next steps : Forall step_fits steps -> forall vs w es e, logged_last vs w es e -> (forall level, lvl_ok level -> fresh level [] ((es ++ [e]) ++ map st_edit steps)) ->
  exists es' vs' w' es2 e2, log_all vs w steps = (OK, es', vs', w') /\ length es' = length steps /\ (es ++ [e]) ++ es' = es2 ++ [e2] /\ logged_last vs' w' es2 e2 /\ same_names vs vs'.
Proof.
  intros Hs. induction Hs as [|s steps [He Hseq] Hs IH]; intros vs w es e [Hlog Hlast] Hfr.
  { exists [], vs, w, es, e. by rewrite app_nil_r. }
  pose proof (logged_before vs w _ s Hseq Hlog) as Hlog'. destruct (LogAndApply_next (before_step vs s) w _ (st_edit s) Hlog' He) as (vs1 & w1 & E1 & L1 & La1 & N1).
  { intros level Hlev. specialize (Hfr level Hlev). cbn [map] in Hfr. rewrite cons_middle, app_assoc in Hfr. by apply fresh_app in Hfr. }
  destruct (before_step_eq vs s Hseq (lg_numbers _ _ _ Hlog)) as (_ & N0 & _). set (e' := complete_edit (before_step vs s) (st_edit s)) in *.
  destruct (IH vs1 w1 (es ++ [e]) e') as (es' & vs' & w' & es2 & e2 & E2 & Hlen & Ees & L2 & N2).
  - done.
  - intros level Hlev. specialize (Hfr level Hlev). cbn [map] in Hfr. rewrite cons_middle, app_assoc in Hfr. refine (fresh_ext level _ _ _ _ Hfr).
    apply List.Forall2_app; [|apply added_refl]. apply List.Forall2_app; [|constructor; [|constructor]]. 2: { unfold e'. by rewrite complete_edit_added. }
    apply added_refl.
  - exists (e' :: es'), vs', w', es2, e2. cbn [log_all]. rewrite E1. cbn [ok OK]. rewrite E2. split; [done|]. split; [cbn; lia|]. split; [by rewrite cons_middle, app_assoc|]. split; [done|].
    destruct N0 as [A1 A2], N1 as [B1 B2], N2 as [C1 C2]. split; congruence.
Qed.
End Writing.

(** * Reading the manifest *)

Section Recovery.
Context {u : Comparator} {uvalid : list byte -> Prop} {laws : ComparatorLaws uvalid u} (comparator_name : list byte).
Context (reuse_logs : bool) (max_file_size : Z).
Context {W : Type} `{GoodEnv W}.
Implicit Types (w : W) (vs : VersionSet) (e : VersionEdit) (es : list VersionEdit).

#[local] Abbreviation lvl_ok := LdbVersionEdit.level_ok.
#[local] Abbreviation edit_fits := (edit_fits (uvalid := uvalid) comparator_name).
#[local] Abbreviation agrees := (agrees (u := u) (uvalid := uvalid)).

Definition rec_edit (st : RecoverState) e : RecoverState :=
  mk_rs OK (fst (Apply (user_comparator := u) (rs_builder st) (rs_pointers st) e)) (snd (Apply (user_comparator := u) (rs_builder st) (rs_pointers st) e))
    (set_if (has_log_number_ e) (log_number_ e) (rs_log_number st)) (set_if (has_prev_log_number_ e) (prev_log_number_ e) (rs_prev_log_number st))
    (set_if (has_next_file_number_ e) (next_file_number_ e) (rs_next_file st)) (set_if (has_last_sequence_ e) (last_sequence_ e) (rs_last_sequence st)).

Lemma recover_record_ok st e : edit_fits e -> recover_record (user_comparator := u) comparator_name st (record e) = Done (rec_edit st e).
Proof.
  intros [Hi Hn _]. unfold recover_record, record. rewrite DecodeFrom_EncodeTo by done. change (compact_pointers_ new_VersionEdit) with (@nil (Z * list byte)). rewrite with_no_pointers.
  assert (ok OK && has_comparator_ e && negb (slice_eqb (comparator_ e) comparator_name) = false) as ->.
  { destruct (has_comparator_ e) eqn:E; [|done]. rewrite (Hn eq_refl). by rewrite (proj2 (slice_eqb_eq comparator_name comparator_name)). }
  cbn [ok OK]. unfold rec_edit. by destruct (Apply (rs_builder st) (rs_pointers st) e).
Qed.

Lemma recover_loop_ok rf es : forall fuel (r : Reader (W * Z)) o S q scr st, reading_at r o S -> fst (log_bytes o (map record es)) = S ++ q -> Forall edit_fits es ->
  Forall (fun e => (length (record e) + 2 <= rf)%nat) es -> (2 <= rf)%nat -> (length es < fuel)%nat -> rs_status st = OK ->
  exists k r', (k <= length es)%nat /\ recover_loop (user_comparator := u) comparator_name fuel rf r scr st = Done (fold_left rec_edit (take k es) st, r') /\
    (k < length es -> length S < length (fst (log_bytes o (map record (take (Datatypes.S k) es)))))%nat.
Proof.
  induction es as [|e es IH]; intros fuel r o S q scr st Ha E Hf Hrf H2' Hfuel Hst.
  - destruct S as [|? ?]; [|done]. destruct fuel as [|fuel]; [lia|]. destruct (read_prefix_end rf r o scr Ha H2') as (scr' & r' & Er & Hr). exists O, r'. split; [done|]. split; [|cbn; lia].
    cbn [recover_loop]. rewrite Er, Hr, drop_all. done.
  - apply List.Forall_cons_iff in Hf as [He Hf]. apply List.Forall_cons_iff in Hrf as [Hre Hrf]. destruct fuel as [|fuel]; [cbn in Hfuel; lia|]. cbn [length] in Hfuel.
    cbn [map] in E. cbn [recover_loop]. destruct (read_prefix_step rf _ _ r o S q scr Ha E Hre) as [(scr' & r1 & S1 & Er & -> & Ha1 & E1 & Hr)|(scr' & r1 & Er & Hr & Hlen)]; rewrite Er, Hr, drop_all; cbn [reported].
    + rewrite Hst. cbn [ok OK]. rewrite recover_record_ok by done. rewrite run_bind_done. destruct (IH fuel r1 _ S1 q scr' (rec_edit st e) Ha1 E1 Hf Hrf H2' ltac:(lia) eq_refl) as (k & r' & Hk & El & Hlen).
      exists (Datatypes.S k), r'. split; [cbn; lia|]. split; [exact El|]. intros Hk'. change (take (Datatypes.S (Datatypes.S k)) (e :: es)) with (e :: take (Datatypes.S k) es). cbn [map]. rewrite log_bytes_cons. cbn [fst]. rewrite !length_app. cbn [length] in Hk'. lia.
    + exists O, r1. split; [lia|]. split; [done|]. intros _. cbn [take map]. rewrite log_bytes_cons. cbn [fst]. rewrite length_app. lia.
Qed.

Lemma rec_edits es : forall st, rs_builder (fold_left rec_edit es st) = fst (apply_all (u := u) (rs_builder st) (rs_pointers st) es) /\ rs_pointers (fold_left rec_edit es st) = fold_left pointers_after es (rs_pointers st).
Proof.
  induction es as [|e es IH]; intros st; [done|]. cbn [fold_left]. rewrite apply_all_cons. destruct (IH (rec_edit st e)) as [-> ->]. done.
Qed.

Lemma ReuseManifest_same vs w dscname dscbase : let '(_, vs', _) := ReuseManifest reuse_logs max_file_size vs w dscname dscbase in
  versions_ vs' = versions_ vs /\ vs_next_file_number vs' = vs_next_file_number vs /\ vs_last_sequence vs' = vs_last_sequence vs /\ vs_log_number vs' = vs_log_number vs /\
  vs_prev_log_number vs' = vs_prev_log_number vs /\ compact_pointer_ vs' = compact_pointer_ vs.
Proof.
  unfold ReuseManifest. destruct reuse_logs; cbn [negb]; [|done]. destruct (ParseFileName dscbase) as [[n []]|]; try done. destruct (env_GetFileSize w dscname) as [[s m] w1]. destruct (_ || _); [done|].
  destruct (env_NewAppendableFile w1 dscname) as [[r h] w2]. by destruct (negb (ok r)).
Qed.

(** The set that was recovered, beside the one that wrote the manifest. *)
Record recovered_as vs2 vs : Prop := {
  ra_files : forall level, lvl_ok level -> level_files (current vs2) level = map new_meta (level_files (current vs) level);
  ra_pointers : compact_pointer_ vs2 = compact_pointer_ vs;
  ra_next : vs_next_file_number vs2 = u64 (vs_next_file_number vs + 1);
  ra_sequence : vs_last_sequence vs2 = vs_last_sequence vs;
  ra_log : vs_log_number vs2 = vs_log_number vs;
  ra_prev : vs_prev_log_number vs2 = vs_prev_log_number vs;
}.

Lemma finish_recover_ok vs w es e vs0 st0 dscname name : agrees vs (es ++ [e]) -> last_edit vs e -> Forall edit_fits (es ++ [e]) -> (forall level, lvl_ok level -> fresh level [] (es ++ [e])) ->
  rs_builder st0 = new_Builder new_Version -> rs_pointers st0 = replicate (Z.to_nat kNumLevels) [] -> let st := fold_left rec_edit (es ++ [e]) st0 in
  exists save vs2 w2, finish_recover (user_comparator := u) reuse_logs max_file_size (set_pointers vs0 (rs_pointers st)) w st dscname name = (OK, save, vs2, w2) /\ recovered_as vs2 vs.
Proof.
  intros [Hv Hf Hp] [(b1 & b2 & b3 & b4) L1 L2 L3 L4] Hes Hfr Eb Ep st. destruct (rec_edits (es ++ [e]) st0) as [Sb Sp]. fold st in Sb, Sp. rewrite Eb, Ep in Sb. rewrite Ep in Sp.
  assert (rs_status st = OK /\ rs_log_number st = Some (vs_log_number vs) /\ rs_prev_log_number st = Some (vs_prev_log_number vs) /\ rs_next_file st = Some (vs_next_file_number vs) /\ rs_last_sequence st = Some (vs_last_sequence vs)) as (N0 & N1 & N2 & N3 & N4).
  { unfold st. rewrite fold_left_app. cbn [fold_left rec_edit rs_status rs_log_number rs_prev_log_number rs_next_file rs_last_sequence]. rewrite b1, b2, b3, b4, L1, L2, L3, L4. done. }
  unfold finish_recover. rewrite N0, N1, N2, N3, N4. cbn [ok OK negb default from_option id]. set (v := Finalize _). set (X := vs_SetLastSequence _ _).
  pose proof (ReuseManifest_same X w dscname name) as HR. destruct (ReuseManifest reuse_logs max_file_size X w dscname name) as [[reused vs2] w2]. destruct HR as (R1 & R2 & R3 & R4 & R5 & R6).
  exists (negb reused), vs2, w2. split; [done|]. assert (current vs2 = v) as Ec.
  { unfold current, current_. rewrite R1. unfold X. cbn [versions_ vs_SetLastSequence set_log_numbers set_next_file set_manifest_number]. unfold AppendVersion. cbn [versions_ set_versions]. by rewrite list.last_snoc. }
  split; [|rewrite R6|by rewrite R2|by rewrite R3|by rewrite R4|by rewrite R5].
  - intros level Hlev. rewrite Ec. unfold v. rewrite Finalize_files, Sb.
    assert (level_files new_Version level = []) as E0 by (unfold level_files, new_Version; cbn [files_]; destruct (replicate _ _ !! _) as [x|] eqn:E; [by apply lookup_replicate in E as [-> _]|done]).
    destruct (SaveTo_ok (u := u) new_Version (replicate (Z.to_nat kNumLevels) []) (es ++ [e]) level Hlev) as (G1 & G2 & G3); rewrite ?E0; [constructor|constructor|eapply list.Forall_impl; [exact Hes|]; intros x Hx; by apply Hx|constructor|by apply Hfr|].
    rewrite E0, <- Hf in G1 by done. apply (sorted_unique (u := u)); [|done| |done|done].
    + rewrite G1. apply list.Forall_fmap. eapply list.Forall_impl; [by apply (vf_keys _ Hv)|]. done.
    + apply sorted_new_meta. by apply (vf_sorted _ Hv).
  - rewrite Hp, <- Sp. unfold X. unfold AppendVersion, MarkFileNumberUsed. destruct (_ <=? _), (_ <=? _); by destruct (current_ _).
Qed.

#[local] Abbreviation step_fits := (step_fits (uvalid := uvalid) comparator_name).
#[local] Abbreviation log_all := (log_all (u := u) comparator_name).
#[local] Abbreviation opened := (opened (u := u) (uvalid := uvalid) comparator_name).
#[local] Abbreviation logged_last := (logged_last (u := u) (uvalid := uvalid) comparator_name).

Lemma log_all_first vs w s steps : opened vs -> Forall step_fits (s :: steps) -> (forall level, lvl_ok level -> fresh level (map number (level_files (current vs) level)) (map st_edit (s :: steps))) ->
  let snap := first_snapshot comparator_name (before_step vs s) (complete_edit (before_step vs s) (st_edit s)) in
  exists es vs' w' es2 e2, log_all vs w (s :: steps) = (OK, es, vs', w') /\ length es = length (s :: steps) /\ snap :: es = es2 ++ [e2] /\ logged_last vs' w' es2 e2 /\ same_names vs vs'.
Proof.
  intros [O1 O2 O3 O4 O5] Hs Hfr snap. apply List.Forall_cons_iff in Hs as [[He Hseq] Hs]. destruct (before_step_eq vs s Hseq O3) as (N & (S1 & S2) & E1 & E2 & E3).
  destruct (LogAndApply_first (u := u) (uvalid := uvalid) comparator_name (before_step vs s) w (st_edit s)) as (vs1 & w1 & El & L1 & La1 & [B1 B2]).
  - split; [by rewrite E3|by rewrite S2|done|by rewrite E1|]. destruct O5 as [P1 P2 P3 P4]. split; [done|by rewrite E2|by rewrite E2|intros level Hlev; rewrite E1; by apply P4].
  - done.
  - intros level Hlev. rewrite E1. specialize (Hfr level Hlev). cbn [map] in Hfr. destruct Hfr as [Hfr _]. by split.
  - set (e' := complete_edit (before_step vs s) (st_edit s)) in *. destruct (log_all_next (u := u) (uvalid := uvalid) comparator_name steps Hs vs1 w1 [snap] e') as (es & vs' & w' & es2 & e2 & En & Hlen & Ees & L2 & [C1 C2]).
    + by split.
    + intros level Hlev. specialize (Hfr level Hlev). cbn [map app fresh] in *. assert (added_to level e' = added_to level (st_edit s)) as Ee by apply complete_edit_added. unfold snap. rewrite Ee.
      rewrite (first_snapshot_added comparator_name (before_step vs s) _ level Hlev), number_new_meta, E1. split; [by apply (vf_numbers _ O4)|]. done.
    + exists (e' :: es), vs', w', es2, e2. cbn [LdbManifest.log_all]. rewrite El. cbn [ok OK]. rewrite En. split; [done|]. split; [cbn; lia|]. split; [exact Ees|]. split; [done|]. split; congruence.
Qed.

Lemma log_all_take steps : forall vs w es vs' w' k, log_all vs w steps = (OK, es, vs', w') -> exists vs2 w2, log_all vs w (take k steps) = (OK, take k es, vs2, w2).
Proof.
  induction steps as [|s steps IH]; intros vs w es vs' w' k E; cbn [LdbManifest.log_all] in E.
  { injection E as <- <- <-. exists vs, w. by rewrite !take_nil. }
  destruct k as [|k]; [by exists vs, w|]. change (take (Datatypes.S k) (s :: steps)) with (s :: take k steps). cbn [LdbManifest.log_all].
  destruct (LogAndApply _ (before_step vs s) w (st_edit s)) as [[[st e] vs1] w1]. destruct (ok st) eqn:Es; [|injection E as -> <- <- <-; done].
  destruct (log_all vs1 w1 steps) as [[[st2 es2] vs2] w2] eqn:E2. injection E as -> <- <- <-. destruct (IH vs1 w1 es2 vs2 w2 k E2) as (vs3 & w3 & ->). by exists vs3, w3.
Qed.

Lemma log_bytes_block_end rs : fst (log_bytes kBlockSize rs) = fst (log_bytes 0 rs).
Proof. destruct rs as [|r rs]; [done|]. rewrite !log_bytes_cons, record_bytes_block_end. done. Qed.

Lemma enough_fuel es : exists F, Forall (fun e => (length (record e) + 2 <= F)%nat) es.
Proof.
  induction es as [|e es [F IH]]; [by exists O|]. exists (Nat.max (length (record e) + 2) F). constructor; [lia|]. eapply list.Forall_impl; [exact IH|]. cbn. intros x Hx. lia.
Qed.

Lemma current_line_parts num : list.last (current_line num) = Some x0a /\ removelast (current_line num) = cstr "MANIFEST-" ++ llu06 num.
Proof. unfold current_line. rewrite app_assoc. split; [apply list.last_snoc|apply removelast_last]. Qed.

(** What Recover reads: the records that the bytes of the manifest have. *)
Lemma Recover_reads w vs num i es q : on_disk w (CurrentFileName (dbname_ vs)) = Some (current_line num) -> names w (DescriptorFileName (dbname_ vs) num) = Some i ->
  fst (log_bytes 0 (map record es)) = bytes_of w i ++ q -> Forall edit_fits es ->
  exists F, forall fuel rf, (F <= fuel)%nat -> (F <= rf)%nat -> exists k w1 dscname name, (k <= length es)%nat /\
    (k < length es -> length (bytes_of w i) < length (fst (log_bytes 0 (map record (take (Datatypes.S k) es)))))%nat /\
    let st := fold_left rec_edit (take k es) (mk_rs OK (new_Builder (current vs)) (compact_pointer_ vs) None None None None) in
    Recover (user_comparator := u) comparator_name reuse_logs max_file_size fuel rf vs w =
    Done (finish_recover (user_comparator := u) reuse_logs max_file_size (set_pointers vs (rs_pointers st)) w1 st dscname name).
Proof.
  intros Hc Hi Hb Hf. destruct (enough_fuel es) as [F HF]. exists (Nat.max (S (length (current_line num))) (Nat.max (S (length es)) (Nat.max 2 F))). intros fuel rf Hfuel Hrf.
  destruct (ReadFileToString_ok fuel w _ _ Hc ltac:(lia)) as (w1 & Er & [Sn Sb]). destruct (current_line_parts num) as [El Erm].
  destruct (NewSequentialFile_good w1 (DescriptorFileName (dbname_ vs) num) i ltac:(by rewrite Sn)) as (h & w2 & Eo & Hl & _).
  pose proof (new_reading_at (w2, h) true true) as Ha. change (remaining (w2, h)) with (left w2 h) in Ha. rewrite Hl, Sb in Ha.
  destruct (recover_loop_ok rf es fuel _ _ _ q [] (mk_rs OK (new_Builder (current vs)) (compact_pointer_ vs) None None None None) Ha) as (k & r' & Hk & Ek & Hlen); [by rewrite log_bytes_block_end|done|eapply list.Forall_impl; [exact HF|]; cbn; intros x Hx; lia|lia|lia|done|].
  eexists k, _, _, _. split; [done|]. split; [intros Hlt; specialize (Hlen Hlt); by rewrite log_bytes_block_end in Hlen|]. cbv zeta.
  unfold Recover. rewrite Er, run_bind_done. cbn [ok OK negb]. rewrite El, Erm.
  replace (dbname_ vs ++ cstr "/" ++ cstr "MANIFEST-" ++ llu06 num) with (DescriptorFileName (dbname_ vs) num) by apply descriptor_name_eq.
  rewrite Eo. cbn [ok OK negb]. rewrite Ek, run_bind_done. reflexivity.
Qed.

Definition vs_after vs w (steps : list LogStep) : VersionSet := snd (fst (log_all vs w steps)).
Definition disk_after vs w (steps : list LogStep) : W := snd (log_all vs w steps).

Lemma logged_disk vs w es e : logged_last vs w es e -> exists h off, names w (manifest_name vs) = Some h /\ log_bytes 0 (map record (es ++ [e])) = (bytes_of w h, off) /\
  on_disk w (manifest_name vs) = Some (bytes_of w h) /\ on_disk w (CurrentFileName (dbname_ vs)) = Some (current_line (vs_manifest_file_number vs)).
Proof.
  intros [[(h & off & c & _ & (Nh & _ & Eb) & Nc & _ & Bc) _ _ _ _] _]. exists h, off. unfold on_disk. rewrite Nh, Nc. cbn. by rewrite Bc.
Qed.

(** C13: edits of a manifest: LogAndApply succeeds for each of them, and after a crash that leaves
    CURRENT and a manifest that has at least the first [j] edits, cut anywhere after them,
    Recover of a new version set gives the versions, the compaction pointers and the numbers
    of the set after [k >= j] of the edits: none of those [j] is lost, none is applied in part. *)
Theorem manifest_recovers vs w steps : opened vs -> Forall step_fits steps -> (forall level, lvl_ok level -> fresh level (map number (level_files (current vs) level)) (map st_edit steps)) ->
  fst (fst (fst (log_all vs w steps))) = OK /\
  forall j w2 whole synced seen q r, (1 <= j <= length steps)%nat ->
  on_disk (disk_after vs w steps) (manifest_name vs) = Some whole -> on_disk (disk_after vs w (take j steps)) (manifest_name vs) = Some synced ->
  on_disk w2 (manifest_name vs) = Some seen -> whole = seen ++ q -> seen = synced ++ r ->
  on_disk w2 (CurrentFileName (dbname_ vs)) = on_disk (disk_after vs w steps) (CurrentFileName (dbname_ vs)) ->
  exists F, forall fuel rf, (F <= fuel)%nat -> (F <= rf)%nat -> exists k save vs2 w3, (j <= k <= length steps)%nat /\
    Recover (user_comparator := u) comparator_name reuse_logs max_file_size fuel rf (new_VersionSet (dbname_ vs)) w2 = Done (OK, save, vs2, w3) /\
    recovered_as vs2 (vs_after vs w (take k steps)).
Proof.
  intros Ho Hs Hfr. destruct steps as [|s steps]; [split; [done|]; intros j w2 whole synced seen q r Hj; cbn in Hj; lia|].
  destruct (log_all_first vs w s steps Ho Hs Hfr) as (es & vsn & wn & es2 & e2 & En & Hlen & Ees & Ln & [Nd Nm]). set (snap := first_snapshot comparator_name _ _) in *.
  (* after the first [k] edits *)
  assert (forall k, (1 <= k)%nat -> exists vsk wk esk ek, log_all vs w (take k (s :: steps)) = (OK, take k es, vsk, wk) /\ snap :: take k es = esk ++ [ek] /\ logged_last vsk wk esk ek /\ same_names vs vsk) as Hk.
  { intros [|k] Hk; [lia|]. change (take (S k) (s :: steps)) with (s :: take k steps).
    destruct (log_all_first vs w s (take k steps) Ho) as (es' & vsk & wk & esk & ek & E' & _ & Ees' & Lk & Nk).
    - change (s :: take k steps) with (take (S k) (s :: steps)). by apply list.Forall_take.
    - intros level Hlev. specialize (Hfr level Hlev). rewrite <- (take_drop (S k) (s :: steps)), map_app in Hfr. by apply fresh_app in Hfr.
    - fold snap in Ees'. destruct (log_all_take _ _ _ _ _ _ (S k) En) as (v' & w' & E''). change (take (S k) (s :: steps)) with (s :: take k steps) in E''.
      rewrite E' in E''. injection E'' as -> -> ->. exists v', w', esk, ek. done. }
  split; [by rewrite En|]. intros j w2 whole synced seen q r Hj Hw Hsy HS EW ES Hcur. unfold disk_after in *. rewrite En in *. cbn [snd] in *.
  destruct (logged_disk _ _ _ _ Ln) as (h & off & Nh & Eb & Dw & Dc). unfold manifest_name in *. rewrite Nd, Nm in *. rewrite Dw in Hw. injection Hw as Ew. rewrite Dc in Hcur.
  destruct (Hk j ltac:(lia)) as (vsj & wj & esj & ej & Ej & Esj & Lj & [Jd Jm]). rewrite Ej in Hsy. cbn [snd] in Hsy. destruct (logged_disk _ _ _ _ Lj) as (hj & offj & Nhj & Ebj & Dwj & _). unfold manifest_name in *. rewrite Jd, Jm, Hsy in *. injection Dwj as Esy.
  unfold on_disk in HS. destruct (names w2 _) as [i|] eqn:Ni; [|done]. injection HS as HS.
  destruct (Recover_reads w2 (new_VersionSet (dbname_ vs)) (vs_manifest_file_number vs) i (snap :: es) q) as [F HF]; [done|done|rewrite Ees, Eb; cbn [fst]; by rewrite HS, Ew|rewrite Ees; apply Ln|].
  exists F. intros fuel rf Hf Hr. destruct (HF fuel rf Hf Hr) as (k & w1 & dscname & name & Hkl & Hcut & Erec). rewrite Erec. clear HF Erec. cbn [length] in Hkl. rewrite Hlen in Hkl.
  assert (j < k)%nat as Hjk.
  { destruct (Nat.lt_ge_cases j k) as [?|Hge]; [done|]. exfalso. cbn [length] in Hcut. specialize (Hcut ltac:(rewrite Hlen; lia)).
    pose proof (log_bytes_take_le 0 (S k) (map record (snap :: take j es))) as Hle. assert (fst (log_bytes 0 (map record (snap :: take j es))) = bytes_of wj hj) as Hbj by by rewrite Esj, Ebj. rewrite Hbj in Hle. rewrite <- Esy in Hle.
    rewrite firstn_map in Hle. change (take (S k) (snap :: take j es)) with (snap :: take k (take j es)) in Hle. rewrite take_take, Nat.min_l in Hle by lia.
    change (take (S k) (snap :: es)) with (snap :: take k es) in Hcut. rewrite HS, ES, length_app in Hcut. lia. }
  destruct k as [|k]; [lia|]. destruct (Hk k ltac:(lia)) as (vsk & wk & esk & ek & Ek & Esk & Lk & _). change (take (S k) (snap :: es)) with (snap :: take k es). rewrite Esk.
  destruct Lk as [[_ Fk Ak _ Frk] Lk].
  destruct (finish_recover_ok vsk w1 esk ek (new_VersionSet (dbname_ vs)) (mk_rs OK (new_Builder (current (new_VersionSet (dbname_ vs)))) (compact_pointer_ (new_VersionSet (dbname_ vs))) None None None None) dscname name Ak Lk Fk Frk eq_refl eq_refl) as (save & vs2 & w3 & Efin & Hrec).
  exists k, save, vs2, w3. split; [cbn [length] in *; lia|]. split; [by rewrite Efin|]. unfold vs_after. by rewrite Ek.
Qed.
End Recovery.

(** * An example *)

#[local] Abbreviation bw := BytewiseComparator.
#[local] Abbreviation bw_all := (fun _ : list byte => True).

Definition demo_steps : list LogStep := match demo_edits with [e1; e2; e3] => [mk_step 9 11 e1; mk_step 10 11 e2; mk_step 12 13 e3] | _ => [] end.
Definition demo_set : VersionSet := new_VersionSet (cstr "db").
Definition demo_name : list byte := cstr "bytewise".

(** The manifest of a system, cut. *)
Definition cut_manifest (n : nat) (w : MemEnv) : MemEnv :=
  match m_names w !! manifest_name demo_set with
  | Some i => mk_mem (m_names w) (alter (take n) i (m_bytes w)) (m_left w)
  | None => w
  end.

Definition demo_log (k : nat) : list byte := default [] (on_disk (disk_after (u := bw) demo_name demo_set demo_disk (take k demo_steps)) (manifest_name demo_set)).

Lemma demo_steps_fit : Forall (step_fits (uvalid := bw_all) demo_name) demo_steps.
Proof.
  repeat constructor; try done.
  all: try (intros level Hl; assert (level = 0 \/ level = 1 \/ level = 2 \/ level = 3 \/ level = 4 \/ level = 5 \/ level = 6) as Hc by (unfold LdbVersionEdit.level_ok, kNumLevels in Hl; lia); destruct_or! Hc; subst level; repeat constructor; apply demo_ikey_valid).
Qed.

Lemma seven_levels (P : Z -> Prop) : P 0 -> P 1 -> P 2 -> P 3 -> P 4 -> P 5 -> P 6 -> forall level, LdbVersionEdit.level_ok level -> P level.
Proof.
  intros H0 H1 H2 H3 H4 H5 H6 level Hl. assert (level = 0 \/ level = 1 \/ level = 2 \/ level = 3 \/ level = 4 \/ level = 5 \/ level = 6) as Hc by (unfold LdbVersionEdit.level_ok, kNumLevels in Hl; lia).
  by destruct_or! Hc; subst level.
Qed.

Lemma demo_set_opened : opened (u := bw) (uvalid := bw_all) demo_name demo_set.
Proof.
  split; [done|done|split; done| |].
  - split; apply seven_levels; constructor.
  - split; [done|repeat constructor|done|apply seven_levels; constructor].
Qed.

Lemma demo_steps_fresh : forall level, LdbVersionEdit.level_ok level -> fresh level (map number (level_files (current demo_set) level)) (map st_edit demo_steps).
Proof.
  apply seven_levels; (split; [|split; [|split; [|done]]]); apply (bool_decide_unpack _); vm_compute; reflexivity.
Qed.

Lemma manifest_recovers_witness : exists F, forall fuel rf, (F <= fuel)%nat -> (F <= rf)%nat -> exists k save vs2 w3, (1 <= k <= 3)%nat /\
  Recover (user_comparator := bw) demo_name true 2097152 fuel rf demo_set (cut_manifest 120 (disk_after (u := bw) demo_name demo_set demo_disk demo_steps)) = Done (OK, save, vs2, w3) /\
  recovered_as vs2 (vs_after (u := bw) demo_name demo_set demo_disk (take k demo_steps)).
Proof.
  destruct (manifest_recovers (u := bw) (uvalid := bw_all) (laws := bytewise_laws) demo_name true 2097152 demo_set demo_disk demo_steps demo_set_opened demo_steps_fit demo_steps_fresh) as [_ Hrec].
  apply (Hrec 1%nat (cut_manifest 120 (disk_after (u := bw) demo_name demo_set demo_disk demo_steps)) (demo_log 3) (demo_log 1) (take 120 (demo_log 3)) (drop 120 (demo_log 3)) (drop (length (demo_log 1)) (take 120 (demo_log 3)))).
  - cbn; lia.
  - vm_compute. reflexivity.
  - vm_compute. reflexivity.
  - vm_compute. reflexivity.
  - by rewrite take_drop.
  - vm_compute. reflexivity.
  - vm_compute. reflexivity.
Defined.
