(* ===== verification/LdbDbWrite.v ===== *)
(** leveldb: writes to the database (db/db_impl.cc: DBImpl::Write, BuildBatchGroup,
    MakeRoomForWrite).

    Several threads write: each adds itself to a queue, and the one at the front writes the
    batches of a group of them to the log and to the memtable.  The mutex is given up while
    it waits and while it writes, so the code is a relation of steps between which other
    threads, and the background work, take theirs. *)

From stdpp Require Import gmap.
From S2P Require Import Prelude Leb128 LdbCoding LdbStatus LdbFilename LdbFormat LdbLog LdbBatch LdbSkiplist LdbMemtable LdbIterator LdbEnv.
From S2P Require Import LdbVersionEdit LdbVersion LdbVersionRead LdbVersionSet LdbManifest.
Open Scope Z_scope.

Definition kL0_SlowdownWritesTrigger : Z := 8.
Definition kL0_StopWritesTrigger : Z := 12.

(** DBImpl::Writer *)
Record Writer := mk_writer_of { wr_batch : option WriteBatch; wr_sync : bool; wr_done : bool; wr_status : Status }.

(** Where a thread stands in Write. *)
Inductive write_pc :=
  | Waiting
  | Room (force allow_delay : bool)
  | Roomed (s : Status)
  | Logging (tmp : bool) (last_writer last_sequence : Z)
  | Inserting (s : Status) (sync_error tmp : bool) (last_writer last_sequence : Z)
  | Inserted (s : Status) (sync_error tmp : bool) (last_writer last_sequence : Z)
  | Returned (s : Status).

(** The members of DBImpl that writes use.  [log_]: the handle of the log file and the
    offset of its writer in a block. *)
Record DB (W : Type) := mk_db {
  db_versions : VersionSet;
  mem_ : MemTable;
  imm_ : option MemTable;
  has_imm_ : bool;
  log_ : Z * Z;
  logfile_number_ : Z;
  bg_error_ : Status;
  shutting_down_ : bool;
  manual_compaction_ : bool;
  background_compaction_scheduled_ : bool;
  tmp_batch_ : WriteBatch;
  writers_ : list Z;
  db_writers : gmap Z Writer;
  db_threads : gmap Z write_pc;
  db_env : W;
}.
Arguments mk_db {W}. Arguments db_versions {W}. Arguments mem_ {W}. Arguments imm_ {W}. Arguments has_imm_ {W}. Arguments log_ {W}. Arguments logfile_number_ {W}. Arguments bg_error_ {W}.
Arguments shutting_down_ {W}. Arguments manual_compaction_ {W}. Arguments background_compaction_scheduled_ {W}. Arguments tmp_batch_ {W}. Arguments writers_ {W}. Arguments db_writers {W}. Arguments db_threads {W}. Arguments db_env {W}.

Section Setters.
Context {W : Type}.
Implicit Types (d : DB W).

Definition with_versions d x := mk_db x (mem_ d) (imm_ d) (has_imm_ d) (log_ d) (logfile_number_ d) (bg_error_ d) (shutting_down_ d) (manual_compaction_ d) (background_compaction_scheduled_ d) (tmp_batch_ d) (writers_ d) (db_writers d) (db_threads d) (db_env d).
Definition with_mem d x := mk_db (db_versions d) x (imm_ d) (has_imm_ d) (log_ d) (logfile_number_ d) (bg_error_ d) (shutting_down_ d) (manual_compaction_ d) (background_compaction_scheduled_ d) (tmp_batch_ d) (writers_ d) (db_writers d) (db_threads d) (db_env d).
Definition with_imm d x b := mk_db (db_versions d) (mem_ d) x b (log_ d) (logfile_number_ d) (bg_error_ d) (shutting_down_ d) (manual_compaction_ d) (background_compaction_scheduled_ d) (tmp_batch_ d) (writers_ d) (db_writers d) (db_threads d) (db_env d).
Definition with_log d x (w : W) := mk_db (db_versions d) (mem_ d) (imm_ d) (has_imm_ d) x (logfile_number_ d) (bg_error_ d) (shutting_down_ d) (manual_compaction_ d) (background_compaction_scheduled_ d) (tmp_batch_ d) (writers_ d) (db_writers d) (db_threads d) w.
Definition with_log_number d x := mk_db (db_versions d) (mem_ d) (imm_ d) (has_imm_ d) (log_ d) x (bg_error_ d) (shutting_down_ d) (manual_compaction_ d) (background_compaction_scheduled_ d) (tmp_batch_ d) (writers_ d) (db_writers d) (db_threads d) (db_env d).
Definition with_error d x := mk_db (db_versions d) (mem_ d) (imm_ d) (has_imm_ d) (log_ d) (logfile_number_ d) x (shutting_down_ d) (manual_compaction_ d) (background_compaction_scheduled_ d) (tmp_batch_ d) (writers_ d) (db_writers d) (db_threads d) (db_env d).
Definition with_scheduled d x := mk_db (db_versions d) (mem_ d) (imm_ d) (has_imm_ d) (log_ d) (logfile_number_ d) (bg_error_ d) (shutting_down_ d) (manual_compaction_ d) x (tmp_batch_ d) (writers_ d) (db_writers d) (db_threads d) (db_env d).
Definition with_tmp d x := mk_db (db_versions d) (mem_ d) (imm_ d) (has_imm_ d) (log_ d) (logfile_number_ d) (bg_error_ d) (shutting_down_ d) (manual_compaction_ d) (background_compaction_scheduled_ d) x (writers_ d) (db_writers d) (db_threads d) (db_env d).
Definition with_queue d x ws := mk_db (db_versions d) (mem_ d) (imm_ d) (has_imm_ d) (log_ d) (logfile_number_ d) (bg_error_ d) (shutting_down_ d) (manual_compaction_ d) (background_compaction_scheduled_ d) (tmp_batch_ d) x ws (db_threads d) (db_env d).
Definition set_pc d (id : Z) (pc : write_pc) := mk_db (db_versions d) (mem_ d) (imm_ d) (has_imm_ d) (log_ d) (logfile_number_ d) (bg_error_ d) (shutting_down_ d) (manual_compaction_ d) (background_compaction_scheduled_ d) (tmp_batch_ d) (writers_ d) (db_writers d) (<[id := pc]> (db_threads d)) (db_env d).
End Setters.

Section Write.
Context {user_comparator : Comparator}.
Context {W : Type} `{Env W}.
(** [ApproximateMemoryUsage] of a memtable: what its arena has taken. *)
Context (memory_usage : MemTable -> Z) (write_buffer_size : Z).
Implicit Types (d : DB W) (id : Z).

Definition RecordBackgroundError d (s : Status) : DB W := if ok (bg_error_ d) then with_error d s else d.

Definition MaybeScheduleCompaction d : DB W :=
  if background_compaction_scheduled_ d then d
  else if shutting_down_ d then d
  else if negb (ok (bg_error_ d)) then d
  else if (match imm_ d with None => true | Some _ => false end) && negb (manual_compaction_ d) && negb (NeedsCompaction (db_versions d)) then d
  else with_scheduled d true.

(** ** MakeRoomForWrite *)

(** One turn of the loop: it ends with a status, or gives up the mutex, or goes on. *)
Inductive room_turn := RoomEnd (s : Status) (d : DB W) | RoomDelay | RoomWait | RoomAgain (d : DB W).

Definition room (d : DB W) (force allow_delay : bool) : room_turn :=
  if negb (ok (bg_error_ d)) then RoomEnd (bg_error_ d) d
  else if allow_delay && (NumLevelFiles (db_versions d) 0 >=? kL0_SlowdownWritesTrigger) then RoomDelay
  else if negb force && (memory_usage (mem_ d) <=? write_buffer_size) then RoomEnd OK d
  else match imm_ d with
  | Some _ => RoomWait
  | None =>
      if NumLevelFiles (db_versions d) 0 >=? kL0_StopWritesTrigger then RoomWait
      else
        let '(new_log_number, versions) := NewFileNumber (db_versions d) in
        let '(s, lfile, w) := env_NewWritableFile (db_env d) (LogFileName (dbname_ versions) new_log_number) in
        if negb (ok s) then RoomEnd s (with_versions (with_log d (log_ d) w) (ReuseFileNumber versions new_log_number))
        else
          let d := with_versions d versions in
          let d := with_log d (lfile, 0) (env_delete_writable w (fst (log_ d))) in
          let d := with_log_number d new_log_number in
          let d := with_imm d (Some (mem_ d)) true in
          let d := with_mem d (mem_Ref new_MemTable) in
          RoomAgain (MaybeScheduleCompaction d)
  end.

(** ** BuildBatchGroup *)

(** [group]: what [tmp_batch_] holds when the group has several batches. *)
Fixpoint group_loop (writers : gmap Z Writer) (first_batch tmp_batch : WriteBatch) (first_sync : bool) (max_size : Z)
    (ids : list Z) (size : Z) (group : option WriteBatch) (last_writer : Z) : option WriteBatch * Z :=
  match ids with
  | [] => (group, last_writer)
  | id :: ids =>
      match writers !! id with
      | None => (group, last_writer)
      | Some w =>
          if wr_sync w && negb first_sync then (group, last_writer)
          else
            match wr_batch w with
            | None => group_loop writers first_batch tmp_batch first_sync max_size ids size group id
            | Some b =>
                let size := u64 (size + ByteSize b) in
                if size >? max_size then (group, last_writer)
                else
                  let result := match group with None => LdbBatch.Append tmp_batch first_batch | Some g => g end in
                  group_loop writers first_batch tmp_batch first_sync max_size ids size (Some (LdbBatch.Append result b)) id
            end
      end
  end.

Definition group_max (size : Z) : Z := if size <=? Z.shiftl 128 10 then size + Z.shiftl 128 10 else Z.shiftl 1 20.

(** Whether the group is in [tmp_batch_], and what is there then; the last writer. *)
Definition BuildBatchGroup d (first : Z) (w : Writer) (first_batch : WriteBatch) : bool * DB W * Z :=
  let size := ByteSize first_batch in
  let '(group, last_writer) := group_loop (db_writers d) first_batch (tmp_batch_ d) (wr_sync w) (group_max size) (tail (writers_ d)) size None first in
  match group with Some g => (true, with_tmp d g, last_writer) | None => (false, d, last_writer) end.

(** ** Write *)

(** The batch that is written: the temporary one, or the caller's own. *)
Definition updates d id (tmp : bool) : WriteBatch :=
  if tmp then tmp_batch_ d else match db_writers d !! id with Some w => default [] (wr_batch w) | None => [] end.

Definition set_updates d id (tmp : bool) (b : WriteBatch) : DB W :=
  if tmp then with_tmp d b
  else with_queue d (writers_ d) (alter (fun w => mk_writer_of (Some b) (wr_sync w) (wr_done w) (wr_status w)) id (db_writers d)).

Definition finish_writer (s : Status) (w : Writer) : Writer := mk_writer_of (wr_batch w) (wr_sync w) true s.

(** The loop that takes the group off the queue; an empty queue has no front. *)
Fixpoint pop_group (id last_writer : Z) (s : Status) (queue : list Z) (writers : gmap Z Writer) : run (list Z * gmap Z Writer) :=
  match queue with
  | [] => OutOfBounds
  | ready :: queue =>
      let writers := if ready =? id then writers else alter (finish_writer s) ready writers in
      if ready =? last_writer then Done (queue, writers) else pop_group id last_writer s queue writers
  end.

(** The end of Write: the writers of the group leave the queue; the signals wake those that
    are done and the new front, which look at the queue whenever they run. *)
Definition finish_write d id (s : Status) (last_writer : Z) : run (DB W) :=
  '(queue, writers) ← pop_group id last_writer s (writers_ d) (db_writers d);
  Done (set_pc (with_queue d queue writers) id (Returned s)).

Definition write_enter d id (batch : option WriteBatch) (sync : bool) : DB W :=
  set_pc (with_queue d (writers_ d ++ [id]) (<[id := mk_writer_of batch sync false OK]> (db_writers d))) id Waiting.

(** With the room made: the group and its sequence numbers. *)
Definition write_group d id (w : Writer) (s : Status) : run (DB W) :=
  match wr_batch w with
  | Some b =>
      if ok s then
        let last_sequence := LastSequence (db_versions d) in
        let '(tmp, d, last_writer) := BuildBatchGroup d id w b in
        let d := set_updates d id tmp (SetSequence (updates d id tmp) (u64 (last_sequence + 1))) in
        Done (set_pc d id (Logging tmp last_writer (u64 (last_sequence + Count (updates d id tmp)))))
      else finish_write d id s id
  | None => finish_write d id s id
  end.

(** Without the mutex: the log, then the memtable. *)
Definition write_log d id (w : Writer) (tmp : bool) (last_writer last_sequence : Z) : DB W :=
  let '(s, log, env) := log_AddRecord (db_env d) (log_ d) (Contents (updates d id tmp)) in
  let d := with_log d log env in
  let '(s, sync_error, d) :=
    if ok s && wr_sync w then
      let '(s, env) := env_Sync (db_env d) (fst (log_ d)) in (s, negb (ok s), with_log d (log_ d) env)
    else (s, false, d) in
  set_pc d id (Inserting s sync_error tmp last_writer last_sequence).

Definition write_insert d id (s : Status) (sync_error tmp : bool) (last_writer last_sequence : Z) : run (DB W) :=
  if ok s then
    match InsertInto (user_comparator := user_comparator) (updates d id tmp) (mem_ d) with
    | (s, Some mem) => Done (set_pc (with_mem d mem) id (Inserted s sync_error tmp last_writer last_sequence))
    | (_, None) => OutOfBounds
    end
  else Done (set_pc d id (Inserted s sync_error tmp last_writer last_sequence)).

(** With the mutex again. *)
Definition write_end d id (s : Status) (sync_error tmp : bool) (last_writer last_sequence : Z) : run (DB W) :=
  let d := if sync_error then RecordBackgroundError d s else d in
  let d := if tmp then with_tmp d Clear else d in
  let d := with_versions d (vs_SetLastSequence (db_versions d) last_sequence) in
  finish_write d id s last_writer.
End Write.

(** * Threads *)

(** A batch that the methods of WriteBatch made, with its operations; a null batch. *)
Definition batch_of {valid : list byte -> Prop} (b : option WriteBatch) (ops : option (list batch_op)) : Prop :=
  match b, ops with
  | Some b, Some ops => (exists seq, b = batch_rep seq ops) /\ Forall (op_fits (valid := valid)) ops /\ Z.of_nat (length ops) < 2 ^ 31 /\ size b < 2 ^ 63
  | None, None => True
  | _, _ => False
  end.

Section Steps.
Context {user_comparator : Comparator} {valid : list byte -> Prop}.
Context {W : Type} `{EnvLaws W}.
Context (memory_usage : MemTable -> Z) (write_buffer_size : Z).
Implicit Types (d : DB W) (id : Z).

(** What the background work may do: it takes the immutable memtable away, installs versions
    and reports errors; it leaves to the writers what is theirs. *)
Record background d d' : Prop := {
  bk_sequence : vs_last_sequence (db_versions d') = vs_last_sequence (db_versions d);
  bk_mem : mem_ d' = mem_ d;
  bk_imm : imm_ d' = imm_ d \/ imm_ d' = None;
  bk_log : log_ d' = log_ d;
  bk_log_number : logfile_number_ d' = logfile_number_ d;
  bk_tmp : tmp_batch_ d' = tmp_batch_ d;
  bk_queue : writers_ d' = writers_ d;
  bk_writers : db_writers d' = db_writers d;
  bk_threads : db_threads d' = db_threads d;
  bk_bytes : bytes_of (db_env d') (fst (log_ d)) = bytes_of (db_env d) (fst (log_ d));
}.

(** A step, and the call of Write that it begins. *)
Inductive write_step : DB W -> list (Z * option (list batch_op)) -> DB W -> Prop :=
  | step_enter d id batch ops sync : db_threads d !! id = None -> batch_of (valid := valid) batch ops ->
      write_step d [(id, ops)] (write_enter d id batch sync)
  | step_done d id w : db_threads d !! id = Some Waiting -> db_writers d !! id = Some w -> wr_done w = true ->
      write_step d [] (set_pc d id (Returned (wr_status w)))
  | step_front d id w : db_threads d !! id = Some Waiting -> db_writers d !! id = Some w -> wr_done w = false -> head (writers_ d) = Some id ->
      let force := match wr_batch w with None => true | Some _ => false end in
      write_step d [] (set_pc d id (Room force (negb force)))
  | step_room_end d id force delay s d' : db_threads d !! id = Some (Room force delay) -> room memory_usage write_buffer_size d force delay = RoomEnd s d' ->
      write_step d [] (set_pc d' id (Roomed s))
  | step_room_delay d id force delay : db_threads d !! id = Some (Room force delay) -> room memory_usage write_buffer_size d force delay = RoomDelay ->
      write_step d [] (set_pc d id (Room force false))
  | step_room_wait d id force delay : db_threads d !! id = Some (Room force delay) -> room memory_usage write_buffer_size d force delay = RoomWait ->
      write_step d [] d
  | step_room_again d id force delay d' : db_threads d !! id = Some (Room force delay) -> room memory_usage write_buffer_size d force delay = RoomAgain d' ->
      write_step d [] (set_pc d' id (Room false delay))
  | step_group d id w s d' : db_threads d !! id = Some (Roomed s) -> db_writers d !! id = Some w -> write_group d id w s = Done d' -> write_step d [] d'
  | step_log d id w tmp last_writer last_sequence : db_threads d !! id = Some (Logging tmp last_writer last_sequence) -> db_writers d !! id = Some w ->
      write_step d [] (write_log d id w tmp last_writer last_sequence)
  | step_insert d id s e tmp last_writer last_sequence d' : db_threads d !! id = Some (Inserting s e tmp last_writer last_sequence) ->
      write_insert (user_comparator := user_comparator) d id s e tmp last_writer last_sequence = Done d' -> write_step d [] d'
  | step_end d id s e tmp last_writer last_sequence d' : db_threads d !! id = Some (Inserted s e tmp last_writer last_sequence) ->
      write_end d id s e tmp last_writer last_sequence = Done d' -> write_step d [] d'
  | step_background d d' : background d d' -> write_step d [] d'.

(** The calls of Write, in the order in which they enter the queue. *)
Inductive write_run (start : DB W) : list (Z * option (list batch_op)) -> DB W -> Prop :=
  | run_start : write_run start [] start
  | run_step calls d new d' : write_run start calls d -> write_step d new d' -> write_run start (calls ++ new) d'.
End Steps.

(** * Groups *)

Section Groups.
Context {c : Comparator} {valid : list byte -> Prop} {laws : ComparatorLaws valid c}.
Implicit Types (writers : gmap Z Writer) (calls : list (Z * option (list batch_op))) (ops : list batch_op).

#[local] Abbreviation batch_of := (batch_of (valid := valid)).

(** The operations of some calls. *)
Definition call_ops calls : list batch_op := concat (map (fun p => default [] (snd p)) calls).

Lemma call_ops_app calls calls' : call_ops (calls ++ calls') = call_ops calls ++ call_ops calls'.
Proof. unfold call_ops. by rewrite map_app, concat_app. Qed.

(** The writers hold the batches of the calls. *)
Definition holds_calls writers calls : Prop := Forall (fun p => exists w, writers !! fst p = Some w /\ batch_of (wr_batch w) (snd p)) calls.

Lemma ops_size seq ops : Z.of_nat (length ops) <= size (batch_rep seq ops).
Proof. rewrite size_batch_rep. pose proof (length_concat_ops ops). unfold size. lia. Qed.

Lemma group_max_bound n : 0 <= n -> group_max n <= 2 ^ 20.
Proof. unfold group_max. change (Z.shiftl 128 10) with 131072. change (Z.shiftl 1 20) with 1048576. destruct (Z.leb_spec n 131072); lia. Qed.

Lemma last_member_cons (x d : Z) l : List.last (x :: l) d = List.last l x.
Proof. revert x d. induction l as [|y l IH]; intros x d; [done|]. change (List.last (x :: y :: l) d) with (List.last (y :: l) d). by rewrite !IH. Qed.

(** What the loop has gathered when it stands before a writer. *)
Record gathered (first_batch : WriteBatch) (ops0 ops : list batch_op) (n : Z) (group : option WriteBatch) : Prop := {
  ga_size : 0 <= n < 2 ^ 63;
  ga_ops : Z.of_nat (length ops) <= n;
  ga_none : group = None -> ops = ops0;
  ga_some g : group = Some g -> exists seq, g = batch_rep seq ops;
  ga_fits : Forall (op_fits (valid := valid)) ops;
  ga_count : Z.of_nat (length ops) < 2 ^ 31;
}.

Lemma group_loop_ok writers first_batch ops0 sync max_size : (exists seq, first_batch = batch_rep seq ops0) -> Z.of_nat (length ops0) < 2 ^ 31 -> max_size <= 2 ^ 20 -> forall calls n group lastw ops,
  holds_calls writers calls -> gathered first_batch ops0 ops n group ->
  exists grp rest group' lastw', calls = grp ++ rest /\ group_loop writers first_batch Clear sync max_size (map fst calls) n group lastw = (group', lastw') /\
    lastw' = List.last (map fst grp) lastw /\ (exists n', gathered first_batch ops0 (ops ++ call_ops grp) n' group').
Proof.
  intros [seq0 E0] H0 Hmax calls. induction calls as [|[id o] calls IH]; intros n group lastw ops Hc Hg.
  { exists [], [], group, lastw. split; [done|]. split; [done|]. split; [done|]. exists n. by rewrite app_nil_r. }
  apply List.Forall_cons_iff in Hc as [(w & Ew & Hb) Hc]. cbn [fst snd] in *. cbn [map group_loop fst]. rewrite Ew.
  assert (exists grp rest group' lastw', (id, o) :: calls = grp ++ rest /\ (group, lastw) = (group', lastw') /\ lastw' = List.last (map fst grp) lastw /\ (exists n', gathered first_batch ops0 (ops ++ call_ops grp) n' group')) as Hstop.
  { exists [], ((id, o) :: calls), group, lastw. split; [done|]. split; [done|]. split; [done|]. exists n. by rewrite app_nil_r. }
  destruct (wr_sync w && negb sync); [exact Hstop|]. destruct (wr_batch w) as [b|], o as [opsb|]; try done.
  - destruct Hb as ((seqb & ->) & Hfit & Hcount & Hsize). destruct Hg as [G1 G2 G3 G4 G5 G6]. pose proof (size_nonneg (batch_rep seqb opsb)). unfold ByteSize. rewrite u64_small by lia.
    destruct (Z.gtb_spec (n + size (batch_rep seqb opsb)) max_size) as [|Hle]; [exact Hstop|]. pose proof (ops_size seqb opsb).
    set (result := match group with None => LdbBatch.Append Clear first_batch | Some g => g end).
    assert (exists seq, result = batch_rep seq ops) as [seq Er].
    { unfold result. destruct group as [g|]; [by apply G4|]. exists 0. rewrite G3 by done. rewrite E0. change Clear with (batch_rep 0 []). rewrite Append_rep; [done|cbn; lia]. }
    rewrite Er, Append_rep by lia. destruct (IH (n + size (batch_rep seqb opsb)) (Some (batch_rep seq (ops ++ opsb))) id (ops ++ opsb) Hc) as (grp & rest & group' & lastw' & -> & Eg & El & n' & Hn').
    + split; [lia|rewrite length_app; lia|done|intros g [= <-]; by exists seq|by apply List.Forall_app|rewrite length_app; lia].
    + exists ((id, Some opsb) :: grp), rest, group', lastw'. split; [done|]. split; [exact Eg|]. split; [rewrite El; cbn [map fst]; by rewrite last_member_cons|]. exists n'. unfold call_ops in *. cbn [map concat snd default from_option]. by rewrite app_assoc.
  - destruct (IH n group id ops Hc Hg) as (grp & rest & group' & lastw' & -> & Eg & El & n' & Hn'). exists ((id, None) :: grp), rest, group', lastw'. split; [done|]. split; [exact Eg|].
    split; [rewrite El; cbn [map fst]; by rewrite last_member_cons|]. exists n'. exact Hn'.
Qed.

(** The group leaves the queue: all of it but the leader is done. *)
Lemma pop_group_ok id lastw s ids : forall rest writers, NoDup ids -> ids <> [] -> List.last ids id = lastw ->
  exists writers', pop_group id lastw s (ids ++ rest) writers = Done (rest, writers') /\
    forall i, writers' !! i = if bool_decide (i ∈ ids /\ i <> id) then finish_writer s <$> writers !! i else writers !! i.
Proof.
  induction ids as [|i ids IH]; intros rest writers Hnd Hne Hl; [done|]. apply list.NoDup_cons in Hnd as [Hnot Hnd]. cbn [app pop_group].
  set (writers1 := if i =? id then writers else alter (finish_writer s) i writers).
  assert (forall j, writers1 !! j = if bool_decide (j = i /\ j <> id) then finish_writer s <$> writers !! j else writers !! j) as H1.
  { intros j. unfold writers1. destruct (Z.eqb_spec i id) as [Ei|Hi]; destruct (bool_decide_reflect (j = i /\ j <> id)) as [[Hj Hj']|Hj]; subst; try tauto; [by rewrite lookup_alter_eq|].
    destruct (decide (j = i)) as [->|Hji]; [tauto|by rewrite lookup_alter_ne]. }
  destruct ids as [|i2 ids].
  - cbn [List.last] in Hl. subst lastw. rewrite Z.eqb_refl. exists writers1. split; [done|]. intros j. rewrite H1.
    destruct (bool_decide_reflect (j = i /\ j <> id)) as [N1|N1], (bool_decide_reflect (j ∈ [i] /\ j <> id)) as [N2|N2]; try done; exfalso; rewrite list_elem_of_singleton in N2; tauto.
  - assert (i <> lastw) as Hil.
    { intros ->. apply Hnot. rewrite <- Hl. clear. cbn [List.last]. revert i2. induction ids as [|x ids IHx]; intros i2; [left|]. right. apply IHx. }
    rewrite (proj2 (Z.eqb_neq _ _) Hil). destruct (IH rest writers1 Hnd ltac:(done) Hl) as (writers' & E & Hw). exists writers'. split; [exact E|]. intros j. rewrite Hw, H1.
    pose proof (elem_of_cons (i2 :: ids) j i) as Hc. destruct (decide (j = i)) as [Ej|Ej].
    + assert (j ∉ i2 :: ids) by by rewrite Ej. rewrite (bool_decide_eq_false_2 (j ∈ i2 :: ids /\ j <> id)) by tauto. destruct (bool_decide_reflect (j = i /\ j <> id)), (bool_decide_reflect (j ∈ i :: i2 :: ids /\ j <> id)); tauto.
    + rewrite (bool_decide_eq_false_2 (j = i /\ j <> id)) by tauto. destruct (bool_decide_reflect (j ∈ i2 :: ids /\ j <> id)), (bool_decide_reflect (j ∈ i :: i2 :: ids /\ j <> id)); tauto.
Qed.
End Groups.

(** * What the log and the memtable hold *)

(** The records of groups whose sequence numbers start at [sq], and their entries, newest
    first. *)
Fixpoint records (sq : Z) (gs : list (list batch_op)) : list (list byte) :=
  match gs with [] => [] | g :: gs => batch_rep sq g :: records (sq + Z.of_nat (length g)) gs end.

Fixpoint group_entries (sq : Z) (gs : list (list batch_op)) : list mem_entry :=
  match gs with [] => [] | g :: gs => group_entries (sq + Z.of_nat (length g)) gs ++ rev (batch_entries sq g) end.

Lemma records_snoc gs g : forall sq, records sq (gs ++ [g]) = records sq gs ++ [batch_rep (sq + Z.of_nat (length (concat gs))) g].
Proof.
  induction gs as [|x gs IH]; intros sq; cbn [app records concat length]; [by rewrite Z.add_0_r|]. by rewrite IH, length_app, Nat2Z.inj_add, Z.add_assoc.
Qed.

Lemma group_entries_snoc gs g : forall sq, group_entries sq (gs ++ [g]) = rev (batch_entries (sq + Z.of_nat (length (concat gs))) g) ++ group_entries sq gs.
Proof.
  induction gs as [|x gs IH]; intros sq; cbn [app group_entries concat length]; [by rewrite Z.add_0_r, app_nil_r|]. by rewrite IH, length_app, <- app_assoc, Nat2Z.inj_add, Z.add_assoc.
Qed.

Lemma batch_entries_below ops : forall sq, Forall (fun e => e_seq e < sq + Z.of_nat (length ops)) (batch_entries sq ops).
Proof.
  induction ops as [|op ops IH]; intros sq; cbn [batch_entries length]; [constructor|]. constructor; [destruct op; cbn; lia|]. eapply list.Forall_impl; [apply IH|]. cbn. intros e He. lia.
Qed.

Lemma group_entries_below gs : forall sq, Forall (fun e => e_seq e < sq + Z.of_nat (length (concat gs))) (group_entries sq gs).
Proof.
  induction gs as [|g gs IH]; intros sq; cbn [group_entries concat]; [constructor|]. rewrite length_app. apply List.Forall_app. split.
  - eapply list.Forall_impl; [apply IH|]. cbn. intros e He. lia.
  - apply List.Forall_rev. eapply list.Forall_impl; [apply batch_entries_below|]. cbn. intros e He. lia.
Qed.

Section Invariant.
Context {c : Comparator} {valid : list byte -> Prop} {laws : ComparatorLaws valid c}.
Context {W : Type} `{GoodEnv W}.
Context (memory_usage : MemTable -> Z) (write_buffer_size : Z).
Implicit Types (d : DB W) (id : Z) (calls pending grp : list (Z * option (list batch_op))).

#[local] Abbreviation batch_of := (batch_of (valid := valid)).
#[local] Abbreviation holds_calls := (holds_calls (valid := valid)).
#[local] Abbreviation op_fits := (op_fits (valid := valid)).
#[local] Abbreviation mem_holds := (mem_holds (c := c) (valid := valid)).

Definition log_has d (sq : Z) (gs : list (list batch_op)) : Prop :=
  in_block (snd (log_ d)) /\ log_bytes 0 (records sq gs) = (bytes_of (db_env d) (fst (log_ d)), snd (log_ d)).
Definition mem_has d (sq : Z) (gs : list (list batch_op)) : Prop := mem_holds (mem_ d) (group_entries sq gs).

(** The group that a leader is writing. *)
Definition group_ready d id (tmp : bool) (lw ls sq : Z) (gops : list batch_op) pending : Prop :=
  (exists grp rest, pending = grp ++ rest /\ grp <> [] /\ lw = List.last (map fst grp) id /\ gops = call_ops grp) /\
  updates d id tmp = batch_rep sq gops /\ ls = sq + Z.of_nat (length gops) - 1 /\
  Forall op_fits gops /\ Z.of_nat (length gops) < 2 ^ 31 /\ (tmp = false -> tmp_batch_ d = Clear).

Definition idle d sq cur : Prop := log_has d sq cur /\ mem_has d sq cur /\ tmp_batch_ d = Clear.

(** By where the writer at the front stands. *)
Definition phase d (sq : Z) (cur : list (list batch_op)) pending : Prop :=
  match head (writers_ d) with
  | None => idle d sq cur
  | Some id =>
      let next := sq + Z.of_nat (length (concat cur)) in
      match db_threads d !! id with
      | Some (Logging tmp lw ls) => exists gops, group_ready d id tmp lw ls next gops pending /\ log_has d sq cur /\ mem_has d sq cur
      | Some (Inserting s e tmp lw ls) => s = OK /\ e = false /\ exists gops, group_ready d id tmp lw ls next gops pending /\ log_has d sq (cur ++ [gops]) /\ mem_has d sq cur
      | Some (Inserted s e tmp lw ls) => s = OK /\ e = false /\ exists gops, group_ready d id tmp lw ls next gops pending /\ log_has d sq (cur ++ [gops]) /\ mem_has d sq (cur ++ [gops])
      | _ => idle d sq cur
      end
  end.

(** The operations of the calls that succeeded, in the order of the queue. *)
Definition done_ops (popped : list (Z * option (list batch_op) * Status)) : list batch_op :=
  call_ops (map fst (List.filter (fun p => ok (snd p)) popped)).

Lemma done_ops_app popped popped' : done_ops (popped ++ popped') = done_ops popped ++ done_ops popped'.
Proof. unfold done_ops. by rewrite List.filter_app, map_app, call_ops_app. Qed.

Definition pc_ok d (popped : list (Z * option (list batch_op) * Status)) id (pc : write_pc) : Prop :=
  match pc with
  | Waiting => True
  | Returned s => exists ops, (id, ops, s) ∈ popped
  | _ => head (writers_ d) = Some id
  end.

Record write_inv (s0 : Z) calls d popped pending (sq : Z) (old cur : list (list batch_op)) : Prop := {
  wi_calls : calls = map fst popped ++ pending;
  wi_queue : map fst pending = writers_ d;
  wi_ids : NoDup (map fst calls);
  wi_threads : forall id, db_threads d !! id = None <-> id ∉ map fst calls;
  wi_writers : holds_calls (db_writers d) calls;
  wi_done : forall id w, db_writers d !! id = Some w -> wr_done w = true -> exists ops, (id, ops, wr_status w) ∈ popped;
  wi_pc : forall id pc, db_threads d !! id = Some pc -> pc_ok d popped id pc;
  wi_ops : concat old ++ concat cur = done_ops popped;
  wi_first : sq = s0 + 1 + Z.of_nat (length (concat old));
  wi_last : vs_last_sequence (db_versions d) + 1 = sq + Z.of_nat (length (concat cur));
  wi_phase : phase d sq cur pending;
}.

(** Not between the making of a group and the end of Write. *)
Definition quiet (pc : write_pc) : Prop := match pc with Logging _ _ _ | Inserting _ _ _ _ _ | Inserted _ _ _ _ _ => False | _ => True end.

Lemma phase_idle d sq cur pending id pc : phase d sq cur pending -> head (writers_ d) = Some id -> db_threads d !! id = Some pc -> quiet pc -> idle d sq cur.
Proof. unfold phase. intros Hp E1 E2 Hq. rewrite E1, E2 in Hp. by destruct pc. Qed.

Lemma idle_phase d sq cur pending : idle d sq cur -> (forall id pc, head (writers_ d) = Some id -> db_threads d !! id = Some pc -> quiet pc) -> phase d sq cur pending.
Proof.
  intros Hi Hq. unfold phase. destruct (head (writers_ d)) as [id|]; [|done]. specialize (Hq id). destruct (db_threads d !! id) as [pc|]; [|done]. specialize (Hq pc eq_refl eq_refl). by destruct pc.
Qed.

(** A thread moves between quiet places. *)
Lemma phase_set_pc d sq cur pending id pc0 pc1 : phase d sq cur pending -> db_threads d !! id = Some pc0 -> quiet pc0 -> quiet pc1 -> phase (set_pc d id pc1) sq cur pending.
Proof.
  intros Hp E0 H0' H1'. destruct (decide (head (writers_ d) = Some id)) as [Eh|Hne].
  - pose proof (phase_idle d sq cur pending id pc0 Hp Eh E0 H0') as Hi. apply idle_phase; [exact Hi|]. cbn [writers_ db_threads set_pc]. intros i pc Ei. rewrite Eh in Ei. injection Ei as <-. rewrite lookup_insert_eq. intros [= <-]. done.
  - unfold phase in *. cbn [writers_ db_threads set_pc]. destruct (head (writers_ d)) as [i|]; [|exact Hp]. rewrite lookup_insert_ne by congruence. exact Hp.
Qed.

Lemma inv_set_pc s0 calls d popped pending sq old cur id pc0 pc1 : write_inv s0 calls d popped pending sq old cur -> db_threads d !! id = Some pc0 -> quiet pc0 -> quiet pc1 -> pc_ok d popped id pc1 ->
  write_inv s0 calls (set_pc d id pc1) popped pending sq old cur.
Proof.
  intros [I1 I2 I3 I4 I5 I6 I7 I8 I9 I10 I11] E0 H0' H1' Hpc. split; try done.
  - intros i. cbn [db_threads set_pc]. rewrite <- I4. destruct (decide (i = id)) as [->|Hne]; [rewrite lookup_insert_eq, E0; done|by rewrite lookup_insert_ne].
  - intros i pc. cbn [db_threads set_pc]. destruct (decide (i = id)) as [->|Hne]; [rewrite lookup_insert_eq; by intros [= <-]|rewrite lookup_insert_ne by done; apply I7].
  - by apply (phase_set_pc _ _ _ _ _ pc0).
Qed.

(** A phase looks at the log, the memtable, the queue, the batches and the threads. *)
Record same_view d d' : Prop := {
  sv_log : log_ d' = log_ d;
  sv_mem : mem_ d' = mem_ d;
  sv_tmp : tmp_batch_ d' = tmp_batch_ d;
  sv_bytes : bytes_of (db_env d') (fst (log_ d)) = bytes_of (db_env d) (fst (log_ d));
  sv_head : head (writers_ d') = head (writers_ d);
  sv_thread : forall id, head (writers_ d) = Some id -> db_threads d' !! id = db_threads d !! id;
  sv_writer : forall id, head (writers_ d) = Some id -> db_writers d' !! id = db_writers d !! id;
}.

Lemma phase_view d d' sq cur pending more : same_view d d' -> phase d sq cur pending -> phase d' sq cur (pending ++ more).
Proof.
  intros [V1 V2 V3 V4 V5 V6 V7] Hp. unfold phase in *. rewrite V5.
  assert (forall gs, log_has d sq gs -> log_has d' sq gs) as Hl by (intros gs [A B]; unfold log_has; rewrite V1, V4; done).
  assert (forall gs, mem_has d sq gs -> mem_has d' sq gs) as Hm by (intros gs; unfold mem_has; by rewrite V2).
  assert (idle d sq cur -> idle d' sq cur) as Hi by (intros (A & B & C); split; [auto|split; [auto|by rewrite V3]]).
  destruct (head (writers_ d)) as [id|]; [|auto]. rewrite (V6 id eq_refl). specialize (V7 id eq_refl).
  assert (forall tmp lw ls sq gops, group_ready d id tmp lw ls sq gops pending -> group_ready d' id tmp lw ls sq gops (pending ++ more)) as Hg.
  { intros tmp lw ls sq' gops ((grp & rest & -> & A) & B & C). split; [exists grp, (rest ++ more); by rewrite <- app_assoc|]. unfold updates in *. rewrite V3, V7. done. }
  destruct (db_threads d !! id) as [[]|]; auto.
  - destruct Hp as (gops & A & B & C). exists gops. auto.
  - destruct Hp as (A & B & gops & C & D & E). split; [done|]. split; [done|]. exists gops. auto.
  - destruct Hp as (A & B & gops & C & D & E). split; [done|]. split; [done|]. exists gops. auto.
Qed.

Lemma inv_enter s0 calls d popped pending sq old cur id batch ops sync : write_inv s0 calls d popped pending sq old cur -> db_threads d !! id = None -> batch_of batch ops ->
  write_inv s0 (calls ++ [(id, ops)]) (write_enter d id batch sync) popped (pending ++ [(id, ops)]) sq old cur.
Proof.
  intros [I1 I2 I3 I4 I5 I6 I7 I8 I9 I10 I11] Hid Hb. pose proof (proj1 (I4 id) Hid) as Hnew.
  assert (forall x, x ∈ map fst calls -> x <> id) as Hne by (intros x Hx ->; done). assert (forall x, x ∈ writers_ d -> x <> id) as Hq.
  { intros x Hx. apply Hne. rewrite I1, map_app, list.elem_of_app, I2. by right. }
  split; try done.
  - by rewrite I1, app_assoc.
  - cbn [writers_ write_enter set_pc with_queue]. by rewrite map_app, I2.
  - rewrite map_app. cbn [map fst]. apply list.NoDup_app. split; [done|]. split; [|apply list.NoDup_singleton]. intros x Hx ->%list_elem_of_singleton. by apply (Hne id).
  - intros i. cbn [db_threads write_enter set_pc]. rewrite map_app, list.not_elem_of_app. cbn [map fst]. rewrite list_elem_of_singleton. destruct (decide (i = id)) as [->|Hi]; [rewrite lookup_insert_eq; split; [done|tauto]|rewrite lookup_insert_ne by done; cbn [db_threads with_queue]; rewrite I4; tauto].
  - apply List.Forall_app. split.
    + unfold LdbDbWrite.holds_calls in *. rewrite list.Forall_forall in *. intros p Hp. destruct (I5 p Hp) as (w & Ew & A). exists w. split; [|done]. cbn [db_writers write_enter set_pc with_queue]. rewrite lookup_insert_ne; [done|]. intros E. apply (Hne (fst p)); [by apply list_elem_of_fmap_2|done].
    + repeat constructor. cbn [fst snd]. eexists. split; [apply lookup_insert_eq|done].
  - intros i w. cbn [db_writers write_enter set_pc with_queue]. destruct (decide (i = id)) as [->|Hi]; [rewrite lookup_insert_eq; by intros [= <-]|rewrite lookup_insert_ne by done; apply I6].
  - intros i pc. cbn [db_threads write_enter set_pc with_queue]. destruct (decide (i = id)) as [->|Hi]; [rewrite lookup_insert_eq; by intros [= <-]|rewrite lookup_insert_ne by done]. intros Ei. specialize (I7 i pc Ei).
    destruct pc; cbn [pc_ok writers_ write_enter set_pc with_queue] in *; try done; by destruct (writers_ d).
  - destruct (writers_ d) as [|x ws] eqn:Ew.
    + apply idle_phase.
      * unfold phase in I11. rewrite Ew in I11. cbn in I11. exact I11.
      * cbn [writers_ write_enter set_pc with_queue db_threads]. rewrite Ew. intros i pc [= <-]. rewrite lookup_insert_eq. by intros [= <-].
    + apply (phase_view d); [|done]. split; cbn [log_ mem_ tmp_batch_ db_env writers_ write_enter set_pc with_queue db_threads db_writers]; try done.
      * by rewrite Ew.
      * rewrite Ew. intros i [= <-]. rewrite lookup_insert_ne; [done|]. intros ->. apply (Hq x); [left|done].
      * rewrite Ew. intros i [= <-]. rewrite lookup_insert_ne; [done|]. intros ->. apply (Hq x); [left|done].
Qed.

Lemma inv_background s0 calls d d' popped pending sq old cur : write_inv s0 calls d popped pending sq old cur -> background d d' -> write_inv s0 calls d' popped pending sq old cur.
Proof.
  intros [I1 I2 I3 I4 I5 I6 I7 I8 I9 I10 I11] [B1 B2 B3 B4 B5 B6 B7 B8 B9 B10]. split; try done.
  - by rewrite B7.
  - by rewrite B9.
  - by rewrite B8.
  - by rewrite B8.
  - intros i pc. rewrite B9. intros Ei. specialize (I7 i pc Ei). by destruct pc; cbn [pc_ok] in *; rewrite ?B7.
  - by rewrite B1.
  - rewrite <- (app_nil_r pending). apply (phase_view d); [|done]. split; try done; by rewrite ?B7, ?B8, ?B9.
Qed.

Lemma MaybeScheduleCompaction_cases d : MaybeScheduleCompaction d = d \/ MaybeScheduleCompaction d = with_scheduled d true.
Proof.
  unfold MaybeScheduleCompaction. destruct (background_compaction_scheduled_ d); [by left|]. destruct (shutting_down_ d); [by left|]. destruct (negb (ok (bg_error_ d))); [by left|]. destruct (_ && _ && _); [by left|by right].
Qed.

(** Making room: the versions change but for the sequence, or the log and the memtable are new
    and empty. *)
Lemma room_ok d force delay sq cur : idle d sq cur -> match room memory_usage write_buffer_size d force delay with
  | RoomEnd s d' => d' = d
  | RoomAgain d' => writers_ d' = writers_ d /\ db_writers d' = db_writers d /\ db_threads d' = db_threads d /\ vs_last_sequence (db_versions d') = vs_last_sequence (db_versions d) /\
      forall sq', idle d' sq' []
  | _ => True
  end.
Proof.
  intros (Hl & Hm & Ht). unfold room. destruct (negb (ok (bg_error_ d))); [done|]. destruct (delay && _); [done|]. destruct (negb force && _); [done|]. destruct (imm_ d); [done|]. destruct (_ >=? kL0_StopWritesTrigger); [done|].
  cbn [NewFileNumber]. set (versions := set_next_file _ _). pose proof (NewWritableFile_good (db_env d) (LogFileName (dbname_ versions) (vs_next_file_number (db_versions d)))) as G.
  destruct (env_NewWritableFile (db_env d) _) as [[s h] w] eqn:E. cbn in G. subst s. cbn [ok OK negb]. destruct (NewWritableFile_law _ _ _ _ _ E) as (_ & _ & G). destruct (G eq_refl) as (_ & Bh & _).
  set (X := with_mem _ _). assert (forall sq', idle X sq' []) as HX.
  { intros sq'. split; [|split; [|done]].
    - unfold log_has. cbn. split; [done|]. f_equal. destruct (delete_writable_law w (fst (log_ d))) as [_ ->]. done.
    - unfold mem_has. destruct (new_MemTable_holds (c := c) (valid := valid)) as (ks & A & B & C'). exists ks. done. }
  by destruct (MaybeScheduleCompaction_cases X) as [-> | ->].
Qed.

Lemma inv_room_end s0 calls d popped pending sq old cur id force delay s d' : write_inv s0 calls d popped pending sq old cur -> db_threads d !! id = Some (Room force delay) ->
  room memory_usage write_buffer_size d force delay = RoomEnd s d' -> write_inv s0 calls (set_pc d' id (Roomed s)) popped pending sq old cur.
Proof.
  intros Hi Et Er. pose proof (wi_pc _ _ _ _ _ _ _ _ Hi id _ Et) as Hh. pose proof (room_ok d force delay sq cur (phase_idle _ _ _ _ _ _ (wi_phase _ _ _ _ _ _ _ _ Hi) Hh Et I)) as Hr. rewrite Er in Hr. subst d'.
  by apply (inv_set_pc _ _ _ _ _ _ _ _ _ (Room force delay)).
Qed.

Lemma inv_room_again s0 calls d popped pending sq old cur id force delay d' : write_inv s0 calls d popped pending sq old cur -> db_threads d !! id = Some (Room force delay) ->
  room memory_usage write_buffer_size d force delay = RoomAgain d' -> exists sq', write_inv s0 calls (set_pc d' id (Room false delay)) popped pending sq' (old ++ cur) [].
Proof.
  intros Hi Et Er. pose proof (wi_pc _ _ _ _ _ _ _ _ Hi id _ Et) as Hh. pose proof (room_ok d force delay sq cur (phase_idle _ _ _ _ _ _ (wi_phase _ _ _ _ _ _ _ _ Hi) Hh Et I)) as Hr. rewrite Er in Hr. destruct Hr as (R1 & R2 & R3 & R4 & R5).
  destruct Hi as [I1 I2 I3 I4 I5 I6 I7 I8 I9 I10 I11]. set (sq' := sq + Z.of_nat (length (concat cur))). exists sq'. apply (inv_set_pc _ _ _ _ _ _ _ _ _ (Room force delay)); [|by rewrite R3|done|done|cbn [pc_ok]; by rewrite R1].
  split; try done.
  - by rewrite R1.
  - by rewrite R3.
  - by rewrite R2.
  - by rewrite R2.
  - intros i pc. rewrite R3. intros Ei. specialize (I7 i pc Ei). by destruct pc; cbn [pc_ok] in *; rewrite ?R1.
  - rewrite concat_app. cbn [concat]. by rewrite app_nil_r.
  - unfold sq'. rewrite concat_app, length_app. lia.
  - rewrite R4. unfold sq'. cbn. lia.
  - apply idle_phase; [done|]. rewrite R1, R3. intros i pc Ei. rewrite Hh in Ei. injection Ei as <-. rewrite Et. by intros [= <-].
Qed.

Lemma done_ops_group popped grp s : done_ops (popped ++ map (fun p => (p, s)) grp) = done_ops popped ++ (if ok s then call_ops grp else []).
Proof.
  rewrite done_ops_app. f_equal. unfold done_ops. destruct (ok s) eqn:Es.
  - f_equal. induction grp as [|p grp IH]; [done|]. cbn [map List.filter snd]. rewrite Es. cbn [map fst]. by rewrite IH.
  - induction grp as [|p grp IH]; [done|]. cbn [map List.filter snd]. by rewrite Es.
Qed.

(** The end of Write: the group has its status. *)
Lemma inv_finish s0 calls d popped grp rest sq old cur id s sq' old' cur' pc : write_inv s0 calls d popped (grp ++ rest) sq old cur -> grp <> [] -> head (writers_ d) = Some id -> db_threads d !! id = Some pc ->
  forall d1, writers_ d1 = writers_ d -> db_writers d1 = db_writers d -> db_threads d1 = db_threads d ->
  concat old' ++ concat cur' = done_ops popped ++ (if ok s then call_ops grp else []) -> sq' = s0 + 1 + Z.of_nat (length (concat old')) ->
  vs_last_sequence (db_versions d1) + 1 = sq' + Z.of_nat (length (concat cur')) -> idle d1 sq' cur' ->
  exists d', finish_write d1 id s (List.last (map fst grp) id) = Done d' /\ write_inv s0 calls d' (popped ++ map (fun p => (p, s)) grp) rest sq' old' cur'.
Proof.
  intros [I1 I2 I3 I4 I5 I6 I7 I8 I9 I10 I11] Hne Hh Et d1 Q1 Q2 Q3 Hops Hsq Hlast Hidle. rewrite map_app in I2.
  assert (NoDup (map fst grp ++ map fst rest)) as Hnd by (rewrite I1, !map_app in I3; by apply list.NoDup_app in I3 as (_ & _ & ?)).
  destruct (pop_group_ok id _ s (map fst grp) (map fst rest) (db_writers d) (proj1 (proj1 (list.NoDup_app _ _) Hnd)) ltac:(by destruct grp) eq_refl) as (writers' & Ep & Hw).
  unfold finish_write. rewrite Q1, Q2, <- I2, Ep, run_bind_done. eexists. split; [reflexivity|].
  assert (id ∈ map fst grp) as Hin by (rewrite <- I2 in Hh; destruct grp as [|p grp]; [done|]; cbn in Hh |- *; injection Hh as <-; left).
  assert (forall i ops st, (i, ops, st) ∈ popped -> (i, ops, st) ∈ popped ++ map (fun p => (p, s)) grp) as Hmono by (intros; apply list.elem_of_app; by left).
  assert (forall i, i ∈ map fst grp -> exists ops, (i, ops, s) ∈ popped ++ map (fun p => (p, s)) grp) as Hgrp.
  { intros i (p & -> & Hp)%list_elem_of_fmap. exists (snd p). apply list.elem_of_app. right. apply list_elem_of_fmap. exists p. by destruct p. }
  split; cbn [writers_ db_threads db_writers set_pc with_queue log_ mem_]; try done.
  - rewrite map_app, map_map. cbn [fst]. rewrite map_id, <- app_assoc. done.
  - intros i. rewrite Q3, <- I4. destruct (decide (i = id)) as [->|Hi]; [rewrite lookup_insert_eq, Et; done|by rewrite lookup_insert_ne].
  - unfold LdbDbWrite.holds_calls in *. rewrite list.Forall_forall in *. intros p Hp. destruct (I5 p Hp) as (w & Ew & A). rewrite Hw, Ew. destruct (bool_decide _); [exists (finish_writer s w)|exists w]; done.
  - intros i w. rewrite Hw. destruct (bool_decide_reflect (i ∈ map fst grp /\ i <> id)) as [[Hi _]|_].
    + destruct (db_writers d !! i) as [w0|]; [|done]. intros [= <-] _. cbn. by apply Hgrp.
    + intros Ew Hdone. destruct (I6 i w Ew Hdone) as (ops & Hp). exists ops. by apply Hmono.
  - intros i pci. rewrite Q3. destruct (decide (i = id)) as [->|Hi]; [rewrite lookup_insert_eq; intros [= <-]; cbn [pc_ok]; by apply Hgrp|rewrite lookup_insert_ne by done]. intros Ei. specialize (I7 i pci Ei).
    destruct pci; cbn [pc_ok] in *; try done; try congruence. destruct I7 as (ops & Hp). exists ops. by apply Hmono.
  - by rewrite done_ops_group.
  - apply idle_phase; [exact Hidle|]. cbn [writers_ db_threads set_pc with_queue]. rewrite Q3. intros i pci Ei. destruct (decide (i = id)) as [->|Hi]; [rewrite lookup_insert_eq; by intros [= <-]|rewrite lookup_insert_ne by done].
    intros Epc. specialize (I7 i pci Epc). destruct pci; cbn [pc_ok quiet] in *; try done; congruence.
Qed.

(** The leader goes on to its next place. *)
Lemma inv_lead s0 calls d popped pending sq old cur id pc d' pc' : write_inv s0 calls d popped pending sq old cur -> head (writers_ d) = Some id -> db_threads d !! id = Some pc ->
  writers_ d' = writers_ d -> db_threads d' = <[id := pc']> (db_threads d) -> vs_last_sequence (db_versions d') = vs_last_sequence (db_versions d) ->
  match pc' with Waiting | Returned _ => False | _ => True end -> holds_calls (db_writers d') calls ->
  (forall i w', db_writers d' !! i = Some w' -> exists w, db_writers d !! i = Some w /\ wr_done w = wr_done w' /\ wr_status w = wr_status w') -> phase d' sq cur pending ->
  write_inv s0 calls d' popped pending sq old cur.
Proof.
  intros [I1 I2 I3 I4 I5 I6 I7 I8 I9 I10 I11] Hh Et Q1 Q2 Q3 Hpc Hc Hw Hp. split; try done.
  - by rewrite Q1.
  - intros i. rewrite Q2, <- I4. destruct (decide (i = id)) as [->|Hi]; [rewrite lookup_insert_eq, Et; done|by rewrite lookup_insert_ne].
  - intros i w' Ew' Hd. destruct (Hw i w' Ew') as (w & Ew & E1 & <-). apply (I6 i w Ew). congruence.
  - intros i pci. rewrite Q2. destruct (decide (i = id)) as [->|Hi]; [rewrite lookup_insert_eq; intros [= <-]; destruct pc'; cbn [pc_ok]; rewrite ?Q1; done|rewrite lookup_insert_ne by done].
    intros Ei. specialize (I7 i pci Ei). destruct pci; cbn [pc_ok] in *; by rewrite ?Q1.
  - by rewrite Q3.
Qed.

Lemma done_ops_length popped : (length (done_ops popped) <= length (call_ops (map fst popped)))%nat.
Proof.
  induction popped as [|p popped IH]; [done|]. unfold done_ops in *. cbn [List.filter map]. unfold call_ops in *. cbn [map concat]. rewrite length_app. destruct (ok (snd p)); cbn [map concat]; rewrite ?length_app; lia.
Qed.

(** All the numbers are below the bound on the calls. *)
Lemma inv_bound s0 calls d popped grp rest sq old cur : write_inv s0 calls d popped (grp ++ rest) sq old cur ->
  vs_last_sequence (db_versions d) + Z.of_nat (length (call_ops grp)) <= s0 + Z.of_nat (length (call_ops calls)) /\ s0 <= vs_last_sequence (db_versions d).
Proof.
  intros [I1 I2 I3 I4 I5 I6 I7 I8 I9 I10 I11]. pose proof (done_ops_length popped) as Hl. rewrite <- I8, length_app in Hl. rewrite I1, !call_ops_app, !length_app. lia.
Qed.

Lemma call_unique calls id o o' : NoDup (map fst calls) -> (id, o) ∈ calls -> (id, o') ∈ calls -> o = o'.
Proof.
  intros Hnd [i Hi]%list_elem_of_lookup [j Hj]%list_elem_of_lookup. assert (i = j) as <-; [|congruence].
  apply (NoDup_lookup (map fst calls) i j id); [done|..]; change (map fst calls) with (fst <$> calls); rewrite list_lookup_fmap, ?Hi, ?Hj; done.
Qed.

Lemma inv_group s0 calls d popped pending sq old cur id w s d' : write_inv s0 calls d popped pending sq old cur -> 0 <= s0 -> s0 + Z.of_nat (length (call_ops calls)) < 2 ^ 56 ->
  db_threads d !! id = Some (Roomed s) -> db_writers d !! id = Some w -> write_group d id w s = Done d' ->
  exists popped' pending' sq' old' cur', write_inv s0 calls d' popped' pending' sq' old' cur'.
Proof.
  intros Hi Hs0 Hbound Et Ew Eg. pose proof (wi_pc _ _ _ _ _ _ _ _ Hi id _ Et) as Hh. cbn [pc_ok] in Hh. pose proof (phase_idle _ _ _ _ _ _ (wi_phase _ _ _ _ _ _ _ _ Hi) Hh Et I) as Hidle.
  pose proof (wi_queue _ _ _ _ _ _ _ _ Hi) as Hq. destruct pending as [|[id' ops] pending]; [rewrite <- Hq in Hh; done|]. assert (id' = id) as -> by (rewrite <- Hq in Hh; cbn in Hh; congruence).
  assert (exists w', db_writers d !! id = Some w' /\ batch_of (wr_batch w') ops) as (w' & Ew' & Hb).
  { pose proof (wi_writers _ _ _ _ _ _ _ _ Hi) as Hc. unfold LdbDbWrite.holds_calls in Hc. rewrite list.Forall_forall in Hc. apply (Hc (id, ops)). rewrite (wi_calls _ _ _ _ _ _ _ _ Hi). apply list.elem_of_app. right. left. }
  rewrite Ew in Ew'. injection Ew' as <-.
  assert (finish_write d id s id = Done d' -> (ok s = true -> wr_batch w = None) -> exists popped' pending' sq' old' cur', write_inv s0 calls d' popped' pending' sq' old' cur') as Hfin.
  { intros Ef Hn. destruct (inv_finish s0 calls d popped [(id, ops)] pending sq old cur id s sq old cur (Roomed s) Hi ltac:(done) Hh Et d eq_refl eq_refl eq_refl) as (d2 & E2 & Hi2).
    - rewrite (wi_ops _ _ _ _ _ _ _ _ Hi). destruct (ok s); [|by rewrite app_nil_r]. rewrite (Hn eq_refl) in Hb. destruct ops; [done|]. by rewrite app_nil_r.
    - apply (wi_first _ _ _ _ _ _ _ _ Hi).
    - apply (wi_last _ _ _ _ _ _ _ _ Hi).
    - done.
    - cbn [map fst List.last] in E2. rewrite Ef in E2. injection E2 as <-. by eexists _, _, _, _, _. }
  unfold write_group in Eg. destruct (wr_batch w) as [b|] eqn:Eb; [|by apply Hfin]. destruct (ok s) eqn:Es; [|by apply Hfin]. clear Hfin.
  destruct ops as [ops0|]; [|done]. destruct Hb as ((seqb & E0) & Hfit & Hcount & Hsize). unfold BuildBatchGroup in Eg. rewrite <- Hq in Eg. cbn [map fst tail] in Eg. destruct Hidle as (Hlog & Hmem & Htmp). rewrite Htmp in Eg.
  assert (holds_calls (db_writers d) pending) as Hcp.
  { pose proof (wi_writers _ _ _ _ _ _ _ _ Hi) as Hc. rewrite (wi_calls _ _ _ _ _ _ _ _ Hi) in Hc. apply List.Forall_app in Hc as [_ Hc]. by apply List.Forall_cons_iff in Hc as [_ Hc]. }
  destruct (group_loop_ok (db_writers d) b ops0 (wr_sync w) (group_max (ByteSize b)) ltac:(by exists seqb) Hcount (group_max_bound _ ltac:(apply size_nonneg)) pending (ByteSize b) None id ops0 Hcp) as (grp & rest & group & lastw & -> & El & Elast & n' & Hga).
  { split; [split; [apply size_nonneg|exact Hsize]|rewrite E0; apply ops_size|done|done|done|done]. }
  rewrite El in Eg. clear El Hcp. set (gops := ops0 ++ call_ops grp) in *. assert (gops = call_ops ((id, Some ops0) :: grp)) as Egops by done.
  assert (lastw = List.last (map fst ((id, Some ops0) :: grp)) id) as Elw by (cbn [map fst]; by rewrite last_member_cons).
  destruct (inv_bound s0 calls d popped ((id, Some ops0) :: grp) rest sq old cur Hi) as [Hb1 Hb2]. rewrite <- Egops in Hb1. pose proof (wi_last _ _ _ _ _ _ _ _ Hi) as Hlast.
  set (last := vs_last_sequence (db_versions d)) in *. assert (u64 (last + 1) = sq + Z.of_nat (length (concat cur))) as Eseq by (rewrite u64_small; lia).
  destruct Hga as [G1 G2 G3 G4 G5 G6]. assert (group_ready' : forall d1 tmp, updates d1 id tmp = batch_rep (u64 (last + 1)) gops -> (tmp = false -> tmp_batch_ d1 = Clear) -> log_ d1 = log_ d -> mem_ d1 = mem_ d -> db_env d1 = db_env d -> writers_ d1 = writers_ d ->
    forall ls, ls = u64 (last + Count (updates d1 id tmp)) -> phase (set_pc d1 id (Logging tmp lastw ls)) sq cur ((id, Some ops0) :: grp ++ rest)).
  { intros d1 tmp Hup Htmp1 Q1 Q2 Q3 Q4 ls ->. unfold phase. cbn [writers_ db_threads set_pc]. rewrite Q4, Hh, lookup_insert_eq. exists gops. split; [|split].
    - split; [by exists ((id, Some ops0) :: grp), rest|]. rewrite Eseq in Hup. split; [exact Hup|]. split; [rewrite Hup, Count_rep, u64_small by lia; lia|]. done.
    - unfold log_has in *. cbn. by rewrite Q1, Q3.
    - unfold mem_has in *. cbn. by rewrite Q2. }
  exists popped, ((id, Some ops0) :: grp ++ rest), sq, old, cur. destruct group as [g|].
  - destruct (G4 g eq_refl) as [sg Eg'].
    change (updates (with_tmp d g) id true) with g in Eg. cbn [set_updates] in Eg. rewrite Eg', SetSequence_rep in Eg. injection Eg as <-.
    apply (inv_lead s0 calls d popped _ sq old cur id (Roomed s) _ (Logging true lastw (u64 (last + Count (batch_rep (u64 (last + 1)) gops)))) Hi Hh Et); [done|done|done|done|apply Hi|intros i w' Ei; by exists w'|].
    by apply group_ready'.
  - assert (gops = ops0) as Eg0 by by apply G3. assert (updates d id false = b) as Eu by (unfold updates; by rewrite Ew, Eb). rewrite Eu, E0, <- Eg0, SetSequence_rep in Eg. injection Eg as <-.
    set (d1 := set_updates d id false (batch_rep (u64 (last + 1)) gops)).
    assert (updates d1 id false = batch_rep (u64 (last + 1)) gops) as Hup by (unfold updates, d1; cbn [set_updates db_writers with_queue]; rewrite lookup_alter_eq, Ew; done).
    apply (inv_lead s0 calls d popped _ sq old cur id (Roomed s) _ (Logging false lastw (u64 (last + Count (updates d1 id false)))) Hi Hh Et); [done|done|done|done| | |].
    + pose proof (wi_writers _ _ _ _ _ _ _ _ Hi) as Hc. unfold LdbDbWrite.holds_calls in Hc |- *. rewrite list.Forall_forall in Hc |- *. intros [i o] Hp. destruct (Hc _ Hp) as (wp & Ewp & Hbp). cbn [fst snd] in *. cbn [db_writers set_pc set_updates with_queue d1].
      destruct (decide (i = id)) as [->|Hne]; [|exists wp; by rewrite lookup_alter_ne]. rewrite lookup_alter_eq, Ew. eexists. split; [done|]. cbn [wr_batch].
      assert (o = Some ops0) as ->.
      { apply (call_unique calls id); [apply (wi_ids _ _ _ _ _ _ _ _ Hi)|done|]. rewrite (wi_calls _ _ _ _ _ _ _ _ Hi). apply list.elem_of_app. right. left. }
      rewrite <- Eg0. cbn [LdbDbWrite.batch_of]. split; [by eexists|]. split; [done|]. split; [done|]. rewrite size_batch_rep. rewrite E0, size_batch_rep, <- Eg0 in Hsize. done.
    + intros i w'. cbn [db_writers set_pc set_updates with_queue d1]. destruct (decide (i = id)) as [->|Hne]; [rewrite lookup_alter_eq, Ew; cbn; intros [= <-]; by exists w|rewrite lookup_alter_ne by done; intros Ei; by exists w'].
    + by apply group_ready'.
Qed.

Lemma inv_log s0 calls d popped pending sq old cur id w tmp lw ls : write_inv s0 calls d popped pending sq old cur -> db_threads d !! id = Some (Logging tmp lw ls) -> db_writers d !! id = Some w ->
  write_inv s0 calls (write_log d id w tmp lw ls) popped pending sq old cur.
Proof.
  intros Hi Et Ew. pose proof (wi_pc _ _ _ _ _ _ _ _ Hi id _ Et) as Hh. cbn [pc_ok] in Hh. pose proof (wi_phase _ _ _ _ _ _ _ _ Hi) as Hp. unfold phase in Hp. rewrite Hh, Et in Hp. destruct Hp as (gops & Hg & [Hin Hlog] & Hmem).
  pose proof Hg as (_ & Hup & _). unfold write_log. rewrite Hup. unfold Contents. destruct (log_ d) as [h off] eqn:El. cbn [fst snd] in *.
  destruct (log_AddRecord_ok (db_env d) h off (batch_rep (sq + Z.of_nat (length (concat cur))) gops) Hin) as (w1 & -> & N1 & B1 & Bh & Hin1). set (off1 := snd (record_bytes off _)) in *.
  assert (exists w2, (if ok OK && wr_sync w then let '(s, env) := env_Sync (db_env (with_log d (h, off1) w1)) (fst (log_ (with_log d (h, off1) w1))) in (s, negb (ok s), with_log (with_log d (h, off1) w1) (log_ (with_log d (h, off1) w1)) env) else (OK, false, with_log d (h, off1) w1))
    = (OK, false, with_log d (h, off1) w2) /\ bytes_of w2 h = bytes_of w1 h) as (w2 & -> & B2).
  { cbn [ok OK andb db_env with_log log_ fst]. destruct (wr_sync w); [|by exists w1]. pose proof (Sync_good w1 h) as G. destruct (env_Sync w1 h) as [s w2] eqn:E. cbn in G. subst s. destruct (Sync_law _ _ _ _ E) as [_ B]. by exists w2. }
  apply (inv_lead s0 calls d popped _ sq old cur id (Logging tmp lw ls) _ (Inserting OK false tmp lw ls) Hi Hh Et); [done|done|done|done|apply Hi|intros i w' Ei; by exists w'|].
  unfold phase. cbn [writers_ db_threads set_pc with_log]. rewrite Hh, lookup_insert_eq. split; [done|]. split; [done|]. exists gops. split; [exact Hg|]. split; [|exact Hmem].
  split; [done|]. cbn [log_ set_pc with_log db_env fst snd]. by rewrite records_snoc, log_bytes_snoc, Hlog, B2, Bh.
Qed.

Lemma inv_insert s0 calls d popped pending sq old cur id s e tmp lw ls : write_inv s0 calls d popped pending sq old cur -> 0 <= s0 -> s0 + Z.of_nat (length (call_ops calls)) < 2 ^ 56 ->
  db_threads d !! id = Some (Inserting s e tmp lw ls) -> exists d', write_insert (user_comparator := c) d id s e tmp lw ls = Done d' /\ write_inv s0 calls d' popped pending sq old cur.
Proof.
  intros Hi Hs0 Hbound Et. pose proof (wi_pc _ _ _ _ _ _ _ _ Hi id _ Et) as Hh. cbn [pc_ok] in Hh. pose proof (wi_phase _ _ _ _ _ _ _ _ Hi) as Hp. unfold phase in Hp. rewrite Hh, Et in Hp. destruct Hp as (-> & -> & gops & Hg & Hlog & Hmem).
  pose proof Hg as ((grp & rest & Epend & _ & _ & Egops) & Hup & _ & Hfit & Hcount & _). unfold write_insert. cbn [ok OK]. rewrite Hup. set (next := sq + Z.of_nat (length (concat cur))) in *.
  rewrite Epend in Hi. destruct (inv_bound s0 calls d popped grp rest sq old cur Hi) as [Hb1 Hb2]. rewrite <- Epend in Hi. pose proof (wi_last _ _ _ _ _ _ _ _ Hi) as Hlast. fold next in Hlast. rewrite <- Egops in Hb1.
  destruct (InsertInto_ok (c := c) (valid := valid) (mem_ d) (group_entries sq cur) gops next Hmem) as (mem' & Em & Hm'); [lia|lia|done|done|apply group_entries_below|].
  assert (SetSequence (fold_left batch_add gops new_WriteBatch) next = batch_rep next gops) as Er.
  { rewrite batch_built, SetSequence_rep; [done| |done]. eapply list.Forall_impl; [exact Hfit|]. intros op. apply op_fits_ok. }
  rewrite Er in Em. rewrite Em. eexists. split; [reflexivity|].
  apply (inv_lead s0 calls d popped _ sq old cur id (Inserting OK false tmp lw ls) _ (Inserted OK false tmp lw ls) Hi Hh Et); [done|done|done|done|apply Hi|intros i w' Ei'; by exists w'|].
  unfold phase. cbn [writers_ db_threads set_pc with_mem]. rewrite Hh, lookup_insert_eq. split; [done|]. split; [done|]. exists gops. split; [exact Hg|]. split; [exact Hlog|].
  unfold mem_has. cbn [mem_ set_pc with_mem]. by rewrite group_entries_snoc.
Qed.

Lemma inv_end s0 calls d popped pending sq old cur id s e tmp lw ls : write_inv s0 calls d popped pending sq old cur ->
  db_threads d !! id = Some (Inserted s e tmp lw ls) -> exists d' popped' pending' cur', write_end d id s e tmp lw ls = Done d' /\ write_inv s0 calls d' popped' pending' sq old cur'.
Proof.
  intros Hi Et. pose proof (wi_pc _ _ _ _ _ _ _ _ Hi id _ Et) as Hh. cbn [pc_ok] in Hh. pose proof (wi_phase _ _ _ _ _ _ _ _ Hi) as Hp. unfold phase in Hp. rewrite Hh, Et in Hp. destruct Hp as (-> & -> & gops & Hg & Hlog & Hmem).
  destruct Hg as ((grp & rest & -> & Hne & -> & ->) & Hup & -> & Hfit & Hcount & Htmp). unfold write_end. set (d1 := with_versions _ _).
  destruct (inv_finish s0 calls d popped grp rest sq old cur id OK sq old (cur ++ [call_ops grp]) _ Hi Hne Hh Et d1) as (d2 & E2 & Hi2).
  - unfold d1. by destruct tmp.
  - unfold d1. by destruct tmp.
  - unfold d1. by destruct tmp.
  - cbn [ok OK]. rewrite concat_app, app_assoc, (wi_ops _ _ _ _ _ _ _ _ Hi). cbn [concat]. by rewrite app_nil_r.
  - apply (wi_first _ _ _ _ _ _ _ _ Hi).
  - unfold d1. cbn [db_versions with_versions vs_SetLastSequence vs_last_sequence]. rewrite concat_app, length_app. cbn [concat]. rewrite app_nil_r. lia.
  - unfold d1, idle, log_has, mem_has. destruct tmp; [done|]. split; [exact Hlog|]. split; [exact Hmem|]. by apply Htmp.
  - by eexists _, _, _, _.
Qed.

(** The making of a group does not run off the queue. *)
Lemma write_group_total d id w s : head (writers_ d) = Some id -> exists d', write_group d id w s = Done d'.
Proof.
  intros Hh. assert (exists d', finish_write d id s id = Done d') as Hf.
  { unfold finish_write. destruct (writers_ d) as [|x ws]; [done|]. injection Hh as ->. cbn [pop_group]. rewrite Z.eqb_refl, run_bind_done. by eexists. }
  unfold write_group. destruct (wr_batch w); [|done]. destruct (ok s); [|done]. destruct (BuildBatchGroup d id w w0) as [[tmp d1] lw]. by eexists.
Qed.

(** The code does not leave the queue, and no insertion goes wrong. *)
Definition no_fault d : Prop := forall id w pc, db_threads d !! id = Some pc -> db_writers d !! id = Some w ->
  match pc with
  | Roomed s => exists d', write_group d id w s = Done d'
  | Inserting s e tmp lw ls => exists d', write_insert (user_comparator := c) d id s e tmp lw ls = Done d'
  | Inserted s e tmp lw ls => exists d', write_end d id s e tmp lw ls = Done d'
  | _ => True
  end.

(** Every step keeps the invariant. *)
Lemma inv_step s0 calls d new d' : 0 <= s0 -> s0 + Z.of_nat (length (call_ops (calls ++ new))) < 2 ^ 56 -> write_step (user_comparator := c) (valid := valid) memory_usage write_buffer_size d new d' ->
  (exists popped pending sq old cur, write_inv s0 calls d popped pending sq old cur) -> exists popped pending sq old cur, write_inv s0 (calls ++ new) d' popped pending sq old cur.
Proof.
  intros Hs0 Hb Hs (popped & pending & sq & old & cur & Hi). destruct Hs as [d id batch ops sync Hid Hbat|d id w Et Ew Hd|d id w Et Ew Hd Hh force|d id force delay s d' Et Er|d id force delay Et Er|d id force delay Et Er|d id force delay d' Et Er|d id w s d' Et Ew Eg|d id w tmp lw ls Et Ew|d id s e tmp lw ls d' Et Ei|d id s e tmp lw ls d' Et Ee|d d' Hbk];
    rewrite ?app_nil_r in *.
  - exists popped, (pending ++ [(id, ops)]), sq, old, cur. by apply inv_enter.
  - exists popped, pending, sq, old, cur. apply (inv_set_pc _ _ _ _ _ _ _ _ _ Waiting); try done. cbn [pc_ok]. by apply (wi_done _ _ _ _ _ _ _ _ Hi id).
  - exists popped, pending, sq, old, cur. by apply (inv_set_pc _ _ _ _ _ _ _ _ _ Waiting).
  - exists popped, pending, sq, old, cur. by apply (inv_room_end _ _ d _ _ _ _ _ _ force delay).
  - exists popped, pending, sq, old, cur. apply (inv_set_pc _ _ _ _ _ _ _ _ _ (Room force delay)); try done. apply (wi_pc _ _ _ _ _ _ _ _ Hi id _ Et).
  - by exists popped, pending, sq, old, cur.
  - destruct (inv_room_again _ _ _ _ _ _ _ _ _ _ _ _ Hi Et Er) as [sq' Hi']. by exists popped, pending, sq', (old ++ cur), [].
  - by apply (inv_group s0 calls d popped pending sq old cur id w s).
  - exists popped, pending, sq, old, cur. by apply inv_log.
  - exists popped, pending, sq, old, cur. destruct (inv_insert s0 calls d _ _ _ _ _ id s e tmp lw ls Hi Hs0 Hb Et) as (d2 & E2 & Hi2). congruence.
  - destruct (inv_end _ _ _ _ _ _ _ _ _ _ _ _ _ _ Hi Et) as (d2 & p' & q' & c' & E2 & Hi'). exists p', q', sq, old, c'. congruence.
  - exists popped, pending, sq, old, cur. by apply (inv_background _ _ d).
Qed.

(** A database that no thread has written to since it was opened with an empty log. *)
Record fresh_db d : Prop := {
  fd_log : snd (log_ d) = 0 /\ bytes_of (db_env d) (fst (log_ d)) = [];
  fd_mem : mem_holds (mem_ d) [];
  fd_tmp : tmp_batch_ d = Clear;
  fd_queue : writers_ d = [] /\ db_writers d = ∅ /\ db_threads d = ∅;
}.

Lemma inv_fresh d : fresh_db d -> write_inv (vs_last_sequence (db_versions d)) [] d [] [] (vs_last_sequence (db_versions d) + 1) [] [].
Proof.
  intros [[L1 L2] Hm Ht (Q1 & Q2 & Q3)]. split; rewrite ?Q1, ?Q2, ?Q3; try done.
  - constructor.
  - intros id. rewrite lookup_empty. split; [intros _ Hin; by apply list.elem_of_nil in Hin|done].
  - constructor.
  - cbn. lia.
  - cbn. lia.
  - unfold phase. rewrite Q1. cbn. split; [|done]. unfold log_has. rewrite L1, L2. done.
Qed.

Lemma inv_run start calls d : fresh_db start -> 0 <= vs_last_sequence (db_versions start) -> write_run (user_comparator := c) (valid := valid) memory_usage write_buffer_size start calls d ->
  vs_last_sequence (db_versions start) + Z.of_nat (length (call_ops calls)) < 2 ^ 56 -> exists popped pending sq old cur, write_inv (vs_last_sequence (db_versions start)) calls d popped pending sq old cur.
Proof.
  intros Hf Hs0 Hr. induction Hr as [|calls d new d' Hr IH Hs]; intros Hb; [by eexists _, _, _, _, _; apply inv_fresh|].
  apply (inv_step _ _ d); [done|done|done|]. apply IH. rewrite call_ops_app, length_app in Hb. lia.
Qed.

(** No writer is between the making of its group and the end of Write. *)
Definition settled d : Prop := forall id pc, db_threads d !! id = Some pc -> quiet pc.

(** C2: writes.  In an environment where operations on files succeed, and
    however threads and the background work interleave, writes take effect in the order in
    which they enter the queue, each at most once: the calls that have left the queue are the
    first, with the status that they return; while none is being written, the last sequence
    number counts the operations of those that succeeded, the log file has, group by group,
    the records of the last of them with their sequence numbers, and the memtable has exactly
    their entries; older ones went to the memtables before.  No step faults. *)
Theorem writes_in_order start calls d : fresh_db start -> 0 <= vs_last_sequence (db_versions start) -> write_run (user_comparator := c) (valid := valid) memory_usage write_buffer_size start calls d ->
  vs_last_sequence (db_versions start) + Z.of_nat (length (call_ops calls)) < 2 ^ 56 ->
  exists popped pending, calls = map fst popped ++ pending /\ map fst pending = writers_ d /\
    (forall id s, db_threads d !! id = Some (Returned s) -> exists ops, (id, ops, s) ∈ popped) /\ no_fault d /\
    (settled d -> exists old cur, concat old ++ concat cur = done_ops popped /\
      vs_last_sequence (db_versions d) = vs_last_sequence (db_versions start) + Z.of_nat (length (done_ops popped)) /\
      let sq := vs_last_sequence (db_versions start) + 1 + Z.of_nat (length (concat old)) in
      bytes_of (db_env d) (fst (log_ d)) = fst (log_bytes 0 (records sq cur)) /\ mem_holds (mem_ d) (group_entries sq cur)).
Proof.
  intros Hf Hs0 Hr Hb. destruct (inv_run start calls d Hf Hs0 Hr Hb) as (popped & pending & sq & old & cur & Hi). exists popped, pending.
  split; [apply (wi_calls _ _ _ _ _ _ _ _ Hi)|]. split; [apply (wi_queue _ _ _ _ _ _ _ _ Hi)|]. split; [intros id s Et; apply (wi_pc _ _ _ _ _ _ _ _ Hi id _ Et)|].
  split. { intros id w [] Et Ew; try done; [apply write_group_total, (wi_pc _ _ _ _ _ _ _ _ Hi id _ Et)|destruct (inv_insert _ _ _ _ _ _ _ _ _ _ _ _ _ _ Hi Hs0 Hb Et) as (d' & E & _); by exists d'|destruct (inv_end _ _ _ _ _ _ _ _ _ _ _ _ _ _ Hi Et) as (d' & _ & _ & _ & E & _); by exists d']. }
  intros Hset. exists old, cur. pose proof (wi_first _ _ _ _ _ _ _ _ Hi) as Hsq. pose proof (wi_last _ _ _ _ _ _ _ _ Hi) as Hlast. split; [apply (wi_ops _ _ _ _ _ _ _ _ Hi)|].
  split; [rewrite <- (wi_ops _ _ _ _ _ _ _ _ Hi), length_app; lia|]. cbv zeta. rewrite <- Hsq.
  assert (idle d sq cur) as ([_ Hl] & Hm & _).
  { pose proof (wi_phase _ _ _ _ _ _ _ _ Hi) as Hp. unfold phase in Hp. destruct (head (writers_ d)) as [id|]; [|done]. destruct (db_threads d !! id) as [pc|] eqn:Et; [|done]. specialize (Hset id pc Et). by destruct pc. }
  by rewrite Hl.
Qed.
End Invariant.

(** * An example *)

#[local] Abbreviation bw := BytewiseComparator.
#[local] Abbreviation bw_all := (fun _ : list byte => True).

(** A database that was just opened: its log is the file of the handle 1. *)
Definition write_start : DB MemEnv :=
  mk_db (vs_SetLastSequence (new_VersionSet (cstr "db")) 4) (mem_Ref new_MemTable) None false (1, 0) 3 OK false false false Clear [] ∅ ∅
    (LdbEnv.mk_mem {[LogFileName (cstr "db") 3 := 1]} {[1 := []]} ∅).

Definition write_ops : list batch_op := [OpPut [x61] [x01]; OpDelete [x62]].
Definition write_batch : WriteBatch := batch_rep 0 write_ops.
Definition one_writer : Writer := mk_writer_of (Some write_batch) true false OK.

Definition done_or {A} (a : A) (r : run A) : A := match r with Done a => a | _ => a end.

(** The places of a thread that finds nobody else. *)
Definition write_1 : DB MemEnv := write_enter write_start 7 (Some write_batch) true.
Definition write_2 : DB MemEnv := set_pc write_1 7 (Room false true).
Definition write_3 : DB MemEnv := set_pc write_2 7 (Roomed OK).
Definition write_4 : DB MemEnv := done_or write_3 (write_group write_3 7 one_writer OK).
Definition numbered_writer : Writer := mk_writer_of (Some (batch_rep 5 write_ops)) true false OK.
Definition write_5 : DB MemEnv := write_log write_4 7 numbered_writer false 7 6.
Definition write_6 : DB MemEnv := done_or write_5 (write_insert (user_comparator := bw) write_5 7 OK false false 7 6).
Definition write_7 : DB MemEnv := done_or write_6 (write_end write_6 7 OK false false 7 6).

Lemma write_start_fresh : fresh_db (c := bw) (valid := bw_all) write_start.
Proof. split; [done|apply (new_MemTable_holds (c := bw) (valid := bw_all))|done|done]. Qed.

Lemma write_7_run : write_run (user_comparator := bw) (valid := bw_all) (fun _ => 0) 4194304 write_start [(7, Some write_ops)] write_7.
Proof.
  change [(7, Some write_ops)] with ([] ++ [(7, Some write_ops)] ++ [] ++ [] ++ [] ++ [] ++ [] ++ []). rewrite !app_assoc.
  eapply run_step; [|apply (step_end _ _ write_6 7 OK false false 7 6); vm_compute; reflexivity].
  eapply run_step; [|apply (step_insert _ _ write_5 7 OK false false 7 6); vm_compute; reflexivity].
  eapply run_step; [|apply (step_log _ _ write_4 7 numbered_writer false 7 6); vm_compute; reflexivity].
  eapply run_step; [|apply (step_group _ _ write_3 7 one_writer OK); vm_compute; reflexivity].
  eapply run_step; [|apply (step_room_end _ _ write_2 7 false true OK write_2); vm_compute; reflexivity].
  eapply run_step; [|apply (step_front _ _ write_1 7 one_writer); vm_compute; reflexivity].
  eapply run_step; [apply run_start|apply step_enter; [reflexivity|]]. split; [by exists 0|]. split; [repeat constructor|split; vm_compute; reflexivity].
Qed.

Lemma writes_in_order_witness : exists popped pending, [(7, Some write_ops)] = map fst popped ++ pending /\ map fst pending = writers_ write_7 /\
  (forall id s, db_threads write_7 !! id = Some (Returned s) -> exists ops, (id, ops, s) ∈ popped) /\ no_fault (c := bw) write_7 /\
  (settled write_7 -> exists old cur, concat old ++ concat cur = done_ops popped /\
    vs_last_sequence (db_versions write_7) = vs_last_sequence (db_versions write_start) + Z.of_nat (length (done_ops popped)) /\
    let sq := vs_last_sequence (db_versions write_start) + 1 + Z.of_nat (length (concat old)) in
    bytes_of (db_env write_7) (fst (log_ write_7)) = fst (log_bytes 0 (records sq cur)) /\ mem_holds (c := bw) (valid := bw_all) (mem_ write_7) (group_entries sq cur)).
Proof.
  apply (writes_in_order (c := bw) (valid := bw_all) (laws := bytewise_laws) (fun _ => 0) 4194304 write_start _ write_7 write_start_fresh); [vm_compute; discriminate|exact write_7_run|vm_compute; reflexivity].
Defined.
