(* ===== verification/LdbBuildTable.v ===== *)
(** leveldb: a table from an iterator (db/builder.cc), and the iterator of a memtable
    (class MemTableIterator of db/memtable.cc).

    [build_table_correct]: the file that BuildTable leaves is the reference layout of the
    entries, and nothing else changes. *)

From Stdlib Require Import Sorting.Sorted.
From stdpp Require Import sorting gmap.
From S2P Require Import Prelude Leb128 LdbBatch LdbCoding LdbStatus LdbFilename LdbFormat LdbSkiplist LdbMemtable LdbIterator LdbLog LdbEnv LdbBlock LdbBloom.
From S2P Require Import LdbTableFormat LdbTableBuilder LdbVersionEdit LdbManifest.
Open Scope Z_scope.

(** * The iterator of a memtable *)

Section MemIterator.
Context {user_comparator : Comparator}.

Definition MemTableIterator : Type := MemTable * sl_Iterator.

Definition moved (t : MemTable) (it : option sl_Iterator) : run MemTableIterator := match it with Some it => Done (t, it) | None => OutOfBounds end.
Definition read (x : option (list byte)) : run (list byte) := match x with Some x => Done x | None => OutOfBounds end.

Definition mem_NewIterator (t : MemTable) : MemTableIterator := (t, new_Iterator).

#[export] Instance mem_iterator : Iterator MemTableIterator := {
  Valid it := iter_Valid (snd it);
  SeekToFirst it := moved (fst it) (iter_SeekToFirst (mem_table (fst it)));
  SeekToLast it := moved (fst it) (iter_SeekToLast (mem_table (fst it)));
  Seek it k := moved (fst it) (mem_iter_Seek (user_comparator := user_comparator) (fst it) k);
  Next it := moved (fst it) (iter_Next (mem_table (fst it)) (snd it));
  Prev it := moved (fst it) (mem_iter_Prev (user_comparator := user_comparator) (fst it) (snd it));
  key it := read (mem_iter_key (fst it) (snd it));
  value it := read (mem_iter_value (fst it) (snd it));
  status _ := OK;
}.
End MemIterator.

(** An entry as the key and the value of an iterator. *)
Definition entry_pair (e : mem_entry) : list byte * list byte := (entry_ikey e, e_value e).

Section MemCursor.
Context {c : Comparator} {valid : list byte -> Prop} {laws : ComparatorLaws valid c}.
Implicit Types (t : MemTable) (es : list mem_entry).

(** Targets that fit a length of 32 bits. *)
Definition target_ok (k : list byte) : Prop := ivalid (valid := valid) k /\ size k < 2 ^ 32.

Definition mem_at t es (pos : nat -> sl_Iterator) (i : nat) (it : MemTableIterator) : Prop := (i <= length es)%nat /\ it = (t, pos i).

Lemma entry_ikey_valid e : entry_ok (valid := valid) e -> ivalid (valid := valid) (entry_ikey e).
Proof. intros He. destruct (entry_tag e He) as (_ & Eu & Es). split; [pose proof (size_nonneg (e_key e)); lia|]. rewrite Eu. apply He. Qed.

(** A target splits the entries. *)
Lemma mem_split es target : Forall (entry_ok (valid := valid)) es -> StronglySorted (fun a b => internal_compare c (entry_ikey a) (entry_ikey b) < 0) es -> ivalid (valid := valid) target ->
  exists ea eb, es = ea ++ eb /\ Forall (fun e => internal_compare c (entry_ikey e) target < 0) ea /\ Forall (fun e => 0 <= internal_compare c (entry_ikey e) target) eb.
Proof.
  intros Hok Hs Ht. induction Hs as [|e es Hs IH Hall]; [by exists [], []|]. apply List.Forall_cons_iff in Hok as [He Hok]. destruct (IH Hok) as (ea & eb & -> & Ha & Hb).
  destruct (Z.lt_ge_cases (internal_compare c (entry_ikey e) target) 0) as [Hlt|Hge]; [exists (e :: ea), eb; split; [done|]; split; [by constructor|done]|].
  exists [], (e :: ea ++ eb). split; [done|]. split; [constructor|]. constructor; [done|]. rewrite list.Forall_forall in Hall, Hok |- *. intros x Hx. destruct (Z.lt_ge_cases (internal_compare c (entry_ikey x) target) 0) as [Hlt|]; [|done].
  pose proof (@cmp_trans_lt _ _ (internal_laws (laws := laws)) (entry_ikey e) (entry_ikey x) target (entry_ikey_valid e He) (entry_ikey_valid x (Hok x Hx)) Ht (Hall x Hx)) as Htr.
  cbn [Compare InternalKeyComparator] in Htr. lia.
Qed.

#[local] Ltac simpl_iter := cbn [Valid SeekToFirst SeekToLast Seek Next Prev key value status mem_iterator fst snd moved read].

(** The iterator of a memtable is a cursor over its entries. *)
Lemma mem_iterator_cursor t es pos : Forall (entry_ok (valid := valid)) es -> mem_cursor (c := c) (valid := valid) t es pos ->
  @cursor (InternalKeyComparator c) target_ok MemTableIterator (mem_iterator (user_comparator := c)) (map entry_pair es) (mem_at t es pos).
Proof.
  intros Hok Hm.
  split; rewrite ?length_map.
  - by intros i it [Hi _].
  - intros i it [Hi ->]. apply (mc_valid _ _ _ Hm).
  - done.
  - intros i it k v [Hi ->] E. change (map entry_pair es) with (entry_pair <$> es) in E. rewrite list_lookup_fmap in E. destruct (es !! i) as [e|] eqn:Ee; [|done]. injection E as <- <-.
    simpl_iter. by rewrite (mc_key _ _ _ Hm), (mc_value _ _ _ Hm), Ee.
  - intros i it [Hi ->]. exists (t, pos 0%nat). simpl_iter. rewrite (mc_first _ _ _ Hm). split; [done|]. split; [lia|done].
  - intros i it [Hi ->]. simpl_iter. rewrite (mc_last _ _ _ Hm). eexists. split; [reflexivity|]. destruct es as [|e es'] eqn:Ees; cbn [length pred]; [|split; [cbn; lia|done]].
    split; [done|]. pose proof (mc_valid _ _ _ Hm 0%nat) as Hv0. cbn in Hv0. by destruct (pos 0%nat).
  - intros i it [Hi ->] Hlt. simpl_iter. rewrite (mc_next _ _ _ Hm) by done. eexists. split; [reflexivity|]. split; [lia|done].
  - intros i it [Hi ->] Hlt. simpl_iter. rewrite (mc_prev _ _ _ Hm) by done. eexists. split; [reflexivity|]. destruct i as [|i]; [|split; [lia|done]].
    split; [done|]. pose proof (mc_valid _ _ _ Hm (length es)) as Hv0. rewrite Nat.ltb_irrefl in Hv0. by destruct (pos (length es)).
  - intros i it target [Hi ->] [Ht Hsz]. simpl_iter. destruct (mem_split es target Hok (mc_sorted _ _ _ Hm) Ht) as (ea & eb & Ees & Ha & Hb).
    assert (length ea <= length es)%nat as Hle by (rewrite Ees, length_app; lia).
    rewrite (mc_seek _ _ _ Hm target ea eb Ht Hsz Ees Ha Hb). eexists _, (length ea). split; [reflexivity|]. split; [done|]. split; [by rewrite length_map|]. intros j [k v] Ej. change (map entry_pair es) with (entry_pair <$> es) in Ej. rewrite list_lookup_fmap in Ej. destruct (es !! j) as [e|] eqn:Ee; [|done]. injection Ej as <- <-. cbn [fst Compare InternalKeyComparator].
    rewrite Ees in Ee. apply lookup_app_Some in Ee as [Ee|[Hlen Ee]].
    + split; [intros _; by apply lookup_lt_Some in Ee|intros _]. by apply (proj1 (list.Forall_lookup _ _) Ha j).
    + pose proof (proj1 (list.Forall_lookup _ _) Hb _ e Ee) as Hge. change (0 <= internal_compare c (entry_ikey e) target) in Hge. split; lia.
Qed.
End MemCursor.

(** * The builder writes to its own file *)

Section OwnFile.
Context {comparator : Comparator} {snappy : Snappy} {F : Type} `{WritableFile F}.
(** What appending and flushing keep of a file, the builder keeps. *)
Context (R : F -> F -> Prop) (R_refl : forall f, R f f) (R_trans : forall f g h, R f g -> R g h -> R f h).
Context (R_Append : forall f d, R f (snd (Append f d))) (R_Flush : forall f, R f (snd (Flush f))).
Implicit Types (r : TableBuilder F).

Definition own r r' : Prop := R (tb_file r) (tb_file r').

Lemma own_trans r1 r2 r3 : own r1 r2 -> own r2 r3 -> own r1 r3.
Proof. apply R_trans. Qed.

Lemma own_same r r' : tb_file r' = tb_file r -> own r r'.
Proof. unfold own. by intros ->. Qed.

Lemma own_WriteRawBlock r block_contents type : own r (snd (WriteRawBlock r block_contents type)).
Proof.
  unfold own, WriteRawBlock. pose proof (R_Append (tb_file r) block_contents) as K1. destruct (Append (tb_file r) block_contents) as [s1 f1]. cbn [snd] in K1. destruct (ok s1); [|exact K1].
  set (trailer := _ ++ EncodeFixed32 _). cbn [tb_file set_file_status]. pose proof (R_Append f1 trailer) as K2. destruct (Append f1 trailer) as [s2 f2]. cbn [snd] in K2.
  destruct (ok s2); cbn [snd tb_file set_offset set_file_status]; by apply (R_trans _ f1).
Qed.

Lemma own_WriteBlock r block : own r (snd (fst (WriteBlock r block))).
Proof.
  unfold WriteBlock. destruct (bb_Finish block) as [raw b]. destruct (compress_block _ raw) as [contents type]. pose proof (own_WriteRawBlock r contents type) as K. by destruct (WriteRawBlock r contents type).
Qed.

Lemma own_Flush r : own r (tb_Flush r).
Proof.
  unfold tb_Flush. destruct (negb (tb_ok r)); [by apply own_same|]. destruct (bb_empty (tb_data_block r)); [by apply own_same|]. pose proof (own_WriteBlock r (tb_data_block r)) as K. destruct (WriteBlock r (tb_data_block r)) as [[h r1] b]. cbn [fst snd] in K.
  set (r2 := set_pending (set_data_block r1 b) _ h). assert (own r r2) as K2 by done. set (r3 := if tb_ok r2 then _ else r2). assert (own r r3) as K3.
  { subst r3. destruct (tb_ok r2); [|exact K2]. cbn [tb_file set_pending]. pose proof (R_Flush (tb_file r2)) as Kf. destruct (Flush (tb_file r2)) as [s f]. cbn [snd] in Kf. exact (R_trans _ _ _ K2 Kf). }
  by destruct (tb_filter_block r3) as [[policy fb]|].
Qed.

Lemma own_Add r key value : own r (tb_Add r key value).
Proof.
  unfold tb_Add. destruct (negb (tb_ok r)); [by apply own_same|]. set (r1 := if tb_pending_index_entry r then _ else r). assert (tb_file r1 = tb_file r) as E1 by by (subst r1; destruct (tb_pending_index_entry r)).
  set (r2 := match tb_filter_block r1 with Some _ => _ | None => r1 end). assert (tb_file r2 = tb_file r1) as E2 by (subst r2; by destruct (tb_filter_block r1) as [[policy fb]|]).
  set (r3 := set_data_block _ _). assert (own r r3) as K by (unfold own; cbn [tb_file set_data_block set_entries r3]; rewrite E2, E1; apply R_refl).
  destruct (_ >=? _); [|exact K]. apply (own_trans _ r3); [exact K|apply own_Flush].
Qed.

Lemma own_fold kvs : forall r, own r (fold_left (fun r e => tb_Add r (fst e) (snd e)) kvs r).
Proof. induction kvs as [|e kvs IH]; intros r; [apply R_refl|]. cbn [fold_left]. apply (own_trans _ (tb_Add r (fst e) (snd e))); [apply own_Add|apply IH]. Qed.

Lemma own_Finish r s r' : tb_Finish r = Done (s, r') -> own r r'.
Proof.
  unfold tb_Finish. set (r1 := set_closed (tb_Flush r)). assert (own r r1) as K1 by apply own_Flush.
  destruct (finish_filter r1) as [h2 r2] eqn:E2. assert (own r r2) as K2.
  { apply (own_trans _ r1); [done|]. unfold finish_filter in E2. destruct (tb_ok r1); [|injection E2 as _ <-; apply R_refl]. destruct (tb_filter_block r1) as [[policy fb]|]; [|injection E2 as _ <-; apply R_refl].
    pose proof (own_WriteRawBlock r1 (Finish (policy := policy) fb) kNoCompression) as K. by rewrite E2 in K. }
  destruct (finish_metaindex r2 h2) as [[h3 r3]| |] eqn:E3; [|done..]. rewrite run_bind_done. assert (own r r3) as K3.
  { apply (own_trans _ r2); [done|]. unfold finish_metaindex in E3. destruct (tb_ok r2); [|injection E3 as _ <-; apply R_refl].
    assert (exists b, (let '(h, r, _) := WriteBlock r2 b in Done (h, r)) = Done (h3, r3)) as [b Eb].
    { destruct (tb_filter_block r2); [|by eexists]. destruct (filter_policy (tb_options r2)) as [[name policy]|]; [by eexists|done]. }
    pose proof (own_WriteBlock r2 b) as K. destruct (WriteBlock r2 b) as [[h4 r4] b4]. by injection Eb as _ <-. }
  destruct (finish_index r3) as [h5 r5] eqn:E5. assert (own r r5) as K5.
  { apply (own_trans _ r3); [done|]. unfold finish_index in E5. destruct (tb_ok r3); [|injection E5 as _ <-; apply R_refl]. set (r4 := if tb_pending_index_entry r3 then _ else r3) in E5. assert (tb_file r4 = tb_file r3) as E4 by by (subst r4; destruct (tb_pending_index_entry r3)).
    pose proof (own_WriteBlock r4 (tb_index_block r4)) as K. unfold own in K |- *. rewrite E4 in K. destruct (WriteBlock r4 (tb_index_block r4)) as [[h6 r6] b6]. by injection E5 as _ <-. }
  intros [= _ <-]. apply (own_trans _ r5); [done|]. unfold own, finish_footer. destruct (tb_ok r5); [|apply R_refl]. set (f := footer_EncodeTo _ _). pose proof (R_Append (tb_file r5) f) as K. destruct (Append (tb_file r5) f) as [s6 f6]. cbn [snd] in K. by destruct (ok s6).
Qed.
End OwnFile.

(** * BuildTable *)

Section Build.
Context {comparator : Comparator} {snappy : Snappy} {W : Type} `{Env W} {I : Type} `{Iterator I}.
(** [usable]: the status of the iterator that the table cache makes for the file of a number
    and a size. *)
Context (usable : W -> Z -> Z -> Status * W) (options : Options).

Definition set_meta_size (m : FileMetaData) (n : Z) : FileMetaData := mk_meta (refs m) (allowed_seeks m) (number m) n (smallest m) (largest m).
Definition set_smallest (m : FileMetaData) (k : list byte) : FileMetaData := mk_meta (refs m) (allowed_seeks m) (number m) (file_size m) k (largest m).
Definition set_largest (m : FileMetaData) (k : list byte) : FileMetaData := mk_meta (refs m) (allowed_seeks m) (number m) (file_size m) (smallest m) k.

Fixpoint build_loop (fuel : nat) (it : I) (b : TableBuilder (W * Z)) (meta : FileMetaData) : run (I * TableBuilder (W * Z) * FileMetaData) :=
  match fuel with
  | O => OutOfFuel
  | S fuel =>
      if Valid it then
        k ← key it;
        v ← value it;
        let b := tb_Add b k v in
        it ← Next it;
        build_loop fuel it b (set_largest meta k)
      else Done (it, b, meta)
  end.

Definition BuildTable (fuel : nat) (dbname : list byte) (w : W) (it : I) (meta : FileMetaData) : run (Status * I * FileMetaData * W) :=
  let meta := set_meta_size meta 0 in
  it ← SeekToFirst it;
  let fname := TableFileName dbname (number meta) in
  let end_ := fun s it meta w =>
    let s := if ok (status it) then s else status it in
    let w := if ok s && (file_size meta >? 0) then w else snd (env_DeleteFile w fname) in
    Done (s, it, meta, w) in
  if Valid it then
    let '(s, file, w) := env_NewWritableFile w fname in
    if negb (ok s) then Done (s, it, meta, w)
    else
      k ← key it;
      '(it, b, meta) ← build_loop fuel it (new_TableBuilder options (w, file)) (set_smallest meta k);
      '(s, b) ← tb_Finish b;
      let meta := if ok s then set_meta_size meta (tb_FileSize b) else meta in
      let w := fst (tb_file b) in
      let '(s, w) := (if ok s then env_Sync w file else (s, w)) in
      let '(s, w) := (if ok s then env_Close w file else (s, w)) in
      let w := env_delete_writable w file in
      let '(s, w) := (if ok s then usable w (number meta) (file_size meta) else (s, w)) in
      end_ s it meta w
  else end_ OK it meta w.
End Build.

Lemma table_bytes_positive {comparator : Comparator} {snappy : Snappy} o kvs : 0 < size (table_bytes o kvs).
Proof.
  unfold table_bytes, blocks_bytes. rewrite !size_app, footer_EncodeTo_eq, size_app. set (g := resize _ _). assert (size magic_bytes = 8) by done.
  repeat match goal with |- context[size ?x] => lazymatch goal with H : 0 <= size x |- _ => fail | _ => pose proof (size_nonneg x) end end. lia.
Qed.

Section BuildCorrect.
Context {comparator : Comparator} {snappy : Snappy} {W : Type} `{GoodEnv W} {I : Type} `{Iterator I}.
Context (usable : W -> Z -> Z -> Status * W) (options : Options) (dbname : list byte).
Context {valid : list byte -> Prop} (kvs : list (list byte * list byte)) (pos : nat -> I -> Prop) (cur : @cursor comparator valid I _ kvs pos).
Context (known : known_compression options) (size_ok : size (table_bytes options kvs) < 2 ^ 64).
(** The table cache can read a table that the builder wrote, and changes no file. *)
Context (usable_ok : forall w n sz, on_disk w (TableFileName dbname n) = Some (table_bytes options kvs) -> sz = size (table_bytes options kvs) ->
  exists w', usable w n sz = (OK, w') /\ same_disk w w').

Definition key_at (i : nat) : list byte := match kvs !! i with Some e => fst e | None => [] end.

Lemma build_loop_ok fuel : forall i it b meta, pos i it -> (length kvs - i < fuel)%nat ->
  exists it', build_loop fuel it b meta = Done (it', fold_left (fun r e => tb_Add r (fst e) (snd e)) (drop i kvs) b, if (i <? length kvs)%nat then set_largest meta (key_at (pred (length kvs))) else meta) /\ pos (length kvs) it'.
Proof.
  induction fuel as [|fuel IH]; intros i it b meta Hp Hf; [lia|]. cbn [build_loop]. rewrite (cu_valid cur i it Hp). pose proof (cu_bound cur i it Hp) as Hi.
  destruct (Nat.ltb_spec i (length kvs)) as [Hlt|Hge].
  - destruct (lookup_lt_is_Some_2 kvs i Hlt) as [[k v] Ek]. destruct (cu_entry cur i it k v Hp Ek) as [-> ->]. rewrite !run_bind_done. destruct (cu_next cur i it Hp Hlt) as (it1 & -> & Hp1). rewrite run_bind_done.
    destruct (IH (S i) it1 (tb_Add b k v) (set_largest meta k) Hp1 ltac:(lia)) as (it' & -> & Hp'). exists it'. split; [|done]. rewrite (drop_S kvs (k, v) i Ek). cbn [fold_left fst snd].
    destruct (Nat.ltb_spec (S i) (length kvs)) as [Hlt'|Hge']; [done|]. assert (pred (length kvs) = i) as -> by lia. unfold key_at. by rewrite Ek.
  - assert (i = length kvs) as -> by lia. exists it. by rewrite drop_all.
Qed.

(** In a good environment BuildTable leaves the table of the entries under the name of the
    number, with its size and its first and last keys in the meta data, and changes no other
    file; with no entries there is no table and the size is zero. *)
Lemma BuildTable_ok fuel w it i meta : pos i it -> (length kvs < fuel)%nat ->
  exists it' meta' w', BuildTable usable options fuel dbname w it meta = Done (OK, it', meta', w') /\ number meta' = number meta /\
    (forall name, name <> TableFileName dbname (number meta) -> on_disk w' name = on_disk w name) /\
    (if (0 <? length kvs)%nat then
      file_size meta' = size (table_bytes options kvs) /\ smallest meta' = key_at 0 /\ largest meta' = key_at (pred (length kvs)) /\ on_disk w' (TableFileName dbname (number meta)) = Some (table_bytes options kvs)
     else file_size meta' = 0).
Proof.
  intros Hp Hf. unfold BuildTable. destruct (cu_first cur i it Hp) as (it0 & -> & Hp0). rewrite run_bind_done. rewrite (cu_valid cur 0 it0 Hp0). change (number (set_meta_size meta 0)) with (number meta). set (fname := TableFileName dbname (number meta)).
  destruct (Nat.ltb_spec 0 (length kvs)) as [Hlt|Hge].
  2: { rewrite (cu_status cur 0 it0 Hp0). cbn [ok OK andb file_size set_meta_size]. change (0 >? 0) with false. destruct (env_DeleteFile w fname) as [s w'] eqn:E. destruct (DeleteFile_law _ _ _ _ E) as (Hn & Hb & _).
    eexists it0, _, w'. split; [reflexivity|]. split; [done|]. split; [|done]. intros name Hne. unfold on_disk. rewrite Hn by done. destruct (names w name); [|done]. cbn. by rewrite Hb. }
  pose proof (NewWritableFile_good w fname) as G. destruct (env_NewWritableFile w fname) as [[s h] w1] eqn:E. cbn in G. subst s. destruct (NewWritableFile_law _ _ _ _ _ E) as (Hn1 & _ & G). destruct (G eq_refl) as (Nh & Bh & Bo & Hfresh). cbn [ok OK negb].
  destruct (lookup_lt_is_Some_2 kvs 0 Hlt) as [[k0 v0] E0]. destruct (cu_entry cur 0 it0 k0 v0 Hp0 E0) as [-> _]. rewrite run_bind_done.
  destruct (build_loop_ok fuel 0 it0 (new_TableBuilder options (w1, h)) (set_smallest (set_meta_size meta 0) k0) Hp0 ltac:(lia)) as (it1 & -> & Hp1). rewrite run_bind_done. rewrite drop_0, (proj2 (Nat.ltb_lt 0 (length kvs))) by done.
  assert (contents (w1, h) = []) as Bc by exact Bh. destruct (build_ok options known kvs (w1, h) Bc size_ok) as (b & Eb & _ & Hc & Hs & _). rewrite Eb, run_bind_done. cbn [ok OK].
  pose proof (own_fold only_appends only_refl only_trans only_Append only_Flush kvs (new_TableBuilder options (w1, h))) as K1. pose proof (own_Finish only_appends only_refl only_trans only_Append only_Flush _ _ _ Eb) as K2. pose proof (only_trans _ _ _ K1 K2) as K. unfold own in K. change (tb_file (new_TableBuilder options (w1, h))) with (w1, h) in K. clear K1 K2.
  destruct (tb_file b) as [w2 h2] eqn:Ef. destruct K as (K1 & K2 & K3). cbn [fst snd] in *. subst h2. change (contents (w2, h)) with (bytes_of w2 h) in Hc.
  pose proof (Sync_good w2 h) as G2. destruct (env_Sync w2 h) as [s w3] eqn:E3. cbn in G2. subst s. destruct (Sync_law _ _ _ _ E3) as [Sn Sb]. cbn [ok OK].
  pose proof (Close_good w3 h) as G3. destruct (env_Close w3 h) as [s w4] eqn:E4. cbn in G3. subst s. destruct (Close_law _ _ _ _ E4) as [Cn Cb]. cbn [ok OK].
  destruct (delete_writable_law w4 h) as [Dn Db]. set (w5 := env_delete_writable w4 h) in *. set (meta1 := set_meta_size _ (tb_FileSize b)).
  assert (on_disk w5 fname = Some (table_bytes options kvs)) as Hd5 by (unfold on_disk; rewrite Dn, Cn, Sn, K2, Nh; cbn; by rewrite Db, Cb, Sb, Hc).
  destruct (usable_ok w5 (number meta1) (file_size meta1) Hd5 Hs) as (w6 & -> & Hsame). cbn [ok OK].
  rewrite (cu_status cur _ it1 Hp1). cbn [ok OK andb]. change (file_size meta1) with (tb_FileSize b). unfold tb_FileSize in *. rewrite Hs.
  rewrite (proj2 (Z.gtb_lt _ _) (table_bytes_positive options kvs)).
  eexists it1, meta1, w6. split; [reflexivity|]. split; [done|]. split.
  - intros name Hne. rewrite (same_disk_at w5 w6 name Hsame). unfold on_disk. rewrite Dn, Cn, Sn, K2, Hn1 by done. destruct (names w name) as [g|] eqn:Eg; [|done]. cbn. rewrite Db, Cb, Sb. f_equal.
    assert (g <> h) as Hgh by (intros ->; by apply (Hfresh name)). rewrite K3, Bo; done.
  - split; [done|]. split; [by unfold key_at; rewrite E0|]. split; [done|]. by rewrite (same_disk_at w5 w6 fname Hsame).
Qed.
End BuildCorrect.

(** * The table of a memtable *)

Section Memtables.
Context {c : Comparator} {valid : list byte -> Prop} {laws : ComparatorLaws valid c} {snappy : Snappy} {W : Type} `{GoodEnv W}.
Context (usable : W -> Z -> Z -> Status * W) (options : Options) (known : known_compression options) (dbname : list byte).

(** The layout of a table whose keys are internal. *)
Definition level_bytes (es : list mem_entry) : list byte := table_bytes (comparator := InternalKeyComparator c) options (map entry_pair es).

(** The table cache can read a table that the builder wrote, and changes no file. *)
Definition cache_reads : Prop := forall es w n sz, on_disk w (TableFileName dbname n) = Some (level_bytes es) -> sz = size (level_bytes es) ->
  exists w', usable w n sz = (OK, w') /\ same_disk w w'.

(** In the order of the internal keys. *)
Definition in_order (es : list mem_entry) : Prop := StronglySorted (fun a b => internal_compare c (entry_ikey a) (entry_ikey b) < 0) es.

(** A table of entries, and what its meta data says. *)
Definition table_of (w : W) (meta : FileMetaData) (es : list mem_entry) : Prop :=
  on_disk w (TableFileName dbname (number meta)) = Some (level_bytes es) /\ file_size meta = size (level_bytes es) /\
  (exists e, es !! 0%nat = Some e /\ smallest meta = entry_ikey e) /\ (exists e, es !! pred (length es) = Some e /\ largest meta = entry_ikey e).

Lemma mem_built fuel t ents w meta : cache_reads -> mem_holds (c := c) (valid := valid) t ents -> (length ents < fuel)%nat ->
  exists es, es ≡ₚ ents /\ in_order es /\ (size (level_bytes es) < 2 ^ 64 ->
    exists it' meta' w', BuildTable (comparator := InternalKeyComparator c) (H0 := mem_iterator (user_comparator := c)) usable options fuel dbname w (mem_NewIterator t) meta = Done (OK, it', meta', w') /\
      number meta' = number meta /\ (forall name, name <> TableFileName dbname (number meta) -> on_disk w' name = on_disk w name) /\
      match ents with [] => file_size meta' = 0 | _ => table_of w' meta' es /\ 0 < file_size meta' end).
Proof.
  intros Hu Hm Hf. destruct (memtable_iterator t ents Hm) as (es & pos & Hp & Hc). exists es. split; [done|]. split; [apply Hc|]. intros Hsz.
  assert (Forall (entry_ok (valid := valid)) es) as Hok by (destruct Hm as (ks & _ & _ & Hok); by rewrite Hp).
  pose proof (mem_iterator_cursor t es pos Hok Hc) as cur.
  assert (mem_at t es pos (length es) (mem_NewIterator t)) as Hat.
  { split; [done|]. unfold mem_NewIterator. f_equal. pose proof (mc_valid _ _ _ Hc (length es)) as Hv. rewrite Nat.ltb_irrefl in Hv. by destruct (pos (length es)). }
  assert (length ents = length es) as El by (by rewrite Hp).
  destruct (BuildTable_ok usable options dbname (map entry_pair es) (mem_at t es pos) cur known Hsz (Hu es) fuel w (mem_NewIterator t) (length es) meta Hat) as (it' & meta' & w' & E & En & Eo & Hr); [rewrite length_map; lia|].
  exists it', meta', w'. split; [exact E|]. split; [done|]. split; [done|]. rewrite length_map in Hr.
  destruct ents as [|e0 ents]; [by rewrite <- El in Hr|]. rewrite <- El in Hr. destruct Hr as (Hfs & Hs & Hl & Hd). split; [|rewrite Hfs; apply table_bytes_positive].
  split; [by rewrite En|]. split; [done|]. unfold key_at in Hs, Hl. change (map entry_pair es) with (entry_pair <$> es) in Hs, Hl. rewrite list_lookup_fmap in Hs, Hl. cbn in El.
  destruct (lookup_lt_is_Some_2 es 0%nat ltac:(lia)) as [e1 E1]. destruct (lookup_lt_is_Some_2 es (pred (length es)) ltac:(lia)) as [e2 E2]. rewrite E1 in Hs. rewrite <- El in E2. cbn [pred length] in *. rewrite E2 in Hl. cbn in Hs, Hl. rewrite <- El. split; [by exists e1|by exists e2].
Qed.

(** C15: a table from a memtable.  In an environment where operations on files succeed,
    BuildTable over the iterator of a memtable returns OK, and the file of the number holds the
    reference layout of exactly the memtable's entries, in the order of their internal keys; the
    meta data have that file's size and its first and last internal key, and the other files
    hold what they held.  A memtable without entries gives no file: the size is zero. *)
Theorem build_table_correct fuel t ents w meta : cache_reads -> mem_holds (c := c) (valid := valid) t ents -> (length ents < fuel)%nat ->
  exists es, es ≡ₚ ents /\ in_order es /\ (size (level_bytes es) < 2 ^ 64 ->
    exists it' meta' w', BuildTable (comparator := InternalKeyComparator c) (H0 := mem_iterator (user_comparator := c)) usable options fuel dbname w (mem_NewIterator t) meta = Done (OK, it', meta', w') /\
      number meta' = number meta /\ (forall name, name <> TableFileName dbname (number meta) -> on_disk w' name = on_disk w name) /\
      match ents with [] => file_size meta' = 0 | _ => table_of w' meta' es /\ 0 < file_size meta' end).
Proof. apply mem_built. Qed.
End Memtables.

(** * A concrete table *)

Definition demo_usable (w : MemEnv) (n sz : Z) : Status * MemEnv := (OK, w).
Definition demo_puts : list batch_op := [OpPut [x62] [x02]; OpPut [x61] [x01]].

Lemma demo_cache_reads : cache_reads (c := BytewiseComparator) (snappy := no_snappy) demo_usable demo_options (cstr "db").
Proof. intros es w n sz _ _. exists w. by split. Qed.

Lemma demo_puts_fit : Forall (op_fits (valid := fun _ => True)) demo_puts.
Proof. unfold demo_puts. repeat constructor. Qed.

Lemma build_table_correct_witness :
  exists t it' meta' w', InsertInto (user_comparator := BytewiseComparator) (SetSequence (fold_left batch_add demo_puts new_WriteBatch) 10) new_MemTable = (OK, Some t) /\
    BuildTable (comparator := InternalKeyComparator BytewiseComparator) (snappy := no_snappy) (H0 := mem_iterator (user_comparator := BytewiseComparator)) demo_usable demo_options 3 (cstr "db") demo_disk (mem_NewIterator t) (mk_meta 0 (2 ^ 30) 5 0 [] []) = Done (OK, it', meta', w') /\
    table_of (c := BytewiseComparator) (snappy := no_snappy) demo_options (cstr "db") w' meta' [mk_entry 11 1 [x61] [x01]; mk_entry 10 1 [x62] [x02]].
Proof.
  destruct (InsertInto_ok (c := BytewiseComparator) (valid := fun _ => True) new_MemTable [] demo_puts 10) as (t & E & Ht); [apply new_MemTable_holds | lia | cbn; lia | cbn; lia | apply demo_puts_fit | constructor |].
  exists t. destruct (build_table_correct (c := BytewiseComparator) (valid := fun _ => True) (snappy := no_snappy) demo_usable demo_options ltac:(by left) (cstr "db") 3 t _ demo_disk (mk_meta 0 (2 ^ 30) 5 0 [] []) demo_cache_reads Ht ltac:(cbn; lia)) as (es & Hp & Hs & Hr).
  assert (es = [mk_entry 11 1 [x61] [x01]; mk_entry 10 1 [x62] [x02]]) as ->.
  { symmetry in Hp; apply Permutation_length_2_inv in Hp as [Hp|Hp]; [done|]. subst es. unfold in_order in Hs. apply StronglySorted_inv in Hs as [_ Hs]. apply List.Forall_cons_iff in Hs as [Hs _]. exfalso. by vm_compute in Hs. }
  destruct Hr as (it' & meta' & w' & Eb & _ & _ & Ht' & _); [by vm_compute|]. exists it', meta', w'. split; [exact E|]. split; [exact Eb|exact Ht'].
Defined.
