(* ===== verification/LdbDbRecover.v ===== *)
(** leveldb: the log files that an opened database reads back (db/db_impl.cc:
    DBImpl::RecoverLogFile, WriteLevel0Table, MaybeIgnoreError).

    While the log is read, tables are written through the same environment, so the reader's
    file is a handle in it.  [recover_log_correct]: from a log that was cut anywhere, the
    entries of the groups that are whole are those of the tables and of the memtable. *)

From Stdlib Require Import Sorting.Sorted.
From stdpp Require Import sorting gmap.
From S2P Require Import Prelude Leb128 LdbBatch LdbCoding LdbStatus LdbFilename LdbFormat LdbSkiplist LdbMemtable LdbIterator LdbLog LdbEnv LdbBlock LdbBloom.
From S2P Require Import LdbTableFormat LdbTableBuilder LdbVersionEdit LdbVersion LdbVersionRead LdbVersionSet LdbManifest LdbBuildTable LdbDbWrite.
Open Scope Z_scope.

(** * The code *)

(** The members of DBImpl that opening uses; [mem_] and [log_] are null before. *)
Record Opening := mk_opening {
  op_versions : VersionSet;
  pending_outputs_ : gset Z;
  op_mem : option MemTable;
  op_log : option (Z * Z);
  op_logfile_number : Z;
}.

Definition set_op_versions (o : Opening) (vs : VersionSet) : Opening := mk_opening vs (pending_outputs_ o) (op_mem o) (op_log o) (op_logfile_number o).
Definition set_pending_outputs (o : Opening) (p : gset Z) : Opening := mk_opening (op_versions o) p (op_mem o) (op_log o) (op_logfile_number o).

Section Recovery.
Context {c : Comparator} {snappy : Snappy} {W : Type} `{Env W}.
Context (usable : W -> Z -> Z -> Status * W) (options : Options) (max_file_size : Z).
Context (paranoid_checks reuse_logs : bool) (write_buffer_size : Z) (memory_usage : MemTable -> Z).

Definition MaybeIgnoreError (s : Status) : Status := if ok s || paranoid_checks then s else OK.

(** [base]: the version whose levels are looked at for the place of the table. *)
Definition WriteLevel0Table (fuel : nat) (o : Opening) (w : W) (mem : MemTable) (edit : VersionEdit) (base : option Version) : run (Status * Opening * W * VersionEdit) :=
  let '(n, versions) := NewFileNumber (op_versions o) in
  let o := set_pending_outputs (set_op_versions o versions) ({[n]} ∪ pending_outputs_ o) in
  '(s, _, meta, w) ← BuildTable (comparator := InternalKeyComparator c) (H0 := mem_iterator (user_comparator := c)) usable options fuel (dbname_ versions) w (mem_NewIterator mem) (new_FileMetaData n);
  let o := set_pending_outputs o (pending_outputs_ o ∖ {[n]}) in
  if ok s && (file_size meta >? 0) then
    level ← match base with
      | Some base => PickLevelForMemTableOutput (user_comparator := c) max_file_size base (ExtractUserKey (smallest meta)) (ExtractUserKey (largest meta))
      | None => Done 0
      end;
    Done (s, o, w, AddFile edit level (number meta) (file_size meta) (smallest meta) (largest meta))
  else Done (s, o, w, edit).

(** The reporter keeps the first status, if the checks are paranoid. *)
Definition log_reported (status : Status) (rs : list (Z * Status)) : Status :=
  match rs with
  | (_, s) :: _ => if paranoid_checks && ok status then s else status
  | [] => status
  end.

(** The variables of the loop. *)
Record Replay := mk_replay {
  rp_status : Status;
  rp_mem : option MemTable;
  rp_compactions : Z;
  rp_save_manifest : bool;
  rp_edit : VersionEdit;
  rp_max_sequence : Z;
  rp_opening : Opening;
}.

(** One record: the batch goes to the memtable, which may go to a table. *)
Definition replay_record (bfuel : nat) (st : Replay) (record : list byte) (w : W) : run (Replay * W) :=
  let batch := SetContents [] record in
  let mem := default (mem_Ref new_MemTable) (rp_mem st) in
  match InsertInto (user_comparator := c) batch mem with
  | (_, None) => OutOfBounds
  | (s, Some mem) =>
      let s := MaybeIgnoreError s in
      if negb (ok s) then Done (mk_replay s (Some mem) (rp_compactions st) (rp_save_manifest st) (rp_edit st) (rp_max_sequence st) (rp_opening st), w)
      else
        let last_seq := u64 (Sequence batch + Count batch - 1) in
        let max_sequence := if last_seq >? rp_max_sequence st then last_seq else rp_max_sequence st in
        if memory_usage mem >? write_buffer_size then
          '(s, o, w, edit) ← WriteLevel0Table bfuel (rp_opening st) w mem (rp_edit st) None;
          Done (mk_replay s None (rp_compactions st + 1) true edit max_sequence o, w)
        else Done (mk_replay s (Some mem) (rp_compactions st) (rp_save_manifest st) (rp_edit st) max_sequence (rp_opening st), w)
  end.

Definition with_status (st : Replay) (s : Status) : Replay := mk_replay s (rp_mem st) (rp_compactions st) (rp_save_manifest st) (rp_edit st) (rp_max_sequence st) (rp_opening st).

(** [rf]: the fuel of [ReadRecord]. *)
Fixpoint replay_loop (fuel rf bfuel : nat) (reader : Reader (W * Z)) (scratch : list byte) (st : Replay) : run (Replay * Reader (W * Z)) :=
  match fuel with
  | O => OutOfFuel
  | S fuel =>
      match ReadRecord rf reader scratch with
      | None => OutOfFuel
      | Some (record, scratch, reader') =>
          let st := with_status st (log_reported (rp_status st) (drop (length (reports reader)) (reports reader'))) in
          match record with
          | None => Done (st, reader')
          | Some record =>
              if negb (ok (rp_status st)) then Done (st, reader')
              else if size record <? 12 then
                replay_loop fuel rf bfuel reader' scratch (with_status st (log_reported (rp_status st) [(size record, Corruption (cstr "log record too small") [])]))
              else
                '(st, w) ← replay_record bfuel st record (fst (file reader'));
                let reader' := LdbLog.set_file reader' (w, snd (file reader')) in
                if negb (ok (rp_status st)) then Done (st, reader') else replay_loop fuel rf bfuel reader' scratch st
          end
      end
  end.

(** Whether the log goes on being used: then the memtable stays. *)
Definition reuse_log (fname : list byte) (log_number : Z) (last_log : bool) (st : Replay) (w : W) : Replay * W :=
  if ok (rp_status st) && reuse_logs && last_log && (rp_compactions st =? 0) then
    let '(s, lfile_size, w) := env_GetFileSize w fname in
    if ok s then
      let '(s, logfile, w) := env_NewAppendableFile w fname in
      if ok s then
        let o := rp_opening st in
        let log := (logfile, block_offset (new_Writer_at (w, logfile) lfile_size)) in
        (mk_replay (rp_status st) None (rp_compactions st) (rp_save_manifest st) (rp_edit st) (rp_max_sequence st)
          (mk_opening (op_versions o) (pending_outputs_ o) (Some (default (mem_Ref new_MemTable) (rp_mem st))) (Some log) log_number), w)
      else (st, w)
    else (st, w)
  else (st, w).

(** The memtable that is left goes to a table. *)
Definition flush_replay (bfuel : nat) (st : Replay) (w : W) : run (Replay * W) :=
  match rp_mem st with
  | Some mem =>
      if ok (rp_status st) then
        '(s, o, w, edit) ← WriteLevel0Table bfuel (rp_opening st) w mem (rp_edit st) None;
        Done (mk_replay s None (rp_compactions st) true edit (rp_max_sequence st) o, w)
      else Done (mk_replay (rp_status st) None (rp_compactions st) (rp_save_manifest st) (rp_edit st) (rp_max_sequence st) (rp_opening st), w)
  | None => Done (st, w)
  end.

(** The status, whether a new manifest must be written, the edit and the largest sequence
    number are those of the result. *)
Definition RecoverLogFile (fuel rf bfuel : nat) (log_number : Z) (last_log save_manifest : bool) (edit : VersionEdit) (max_sequence : Z) (o : Opening) (w : W) : run (Replay * W) :=
  let fname := LogFileName (dbname_ (op_versions o)) log_number in
  let '(s, h, w) := env_NewSequentialFile w fname in
  if negb (ok s) then Done (mk_replay (MaybeIgnoreError s) None 0 save_manifest edit max_sequence o, w)
  else
    '(st, reader) ← replay_loop fuel rf bfuel (new_Reader (w, h) true true 0) [] (mk_replay OK None 0 save_manifest edit max_sequence o);
    let w := env_delete_sequential (fst (file reader)) h in
    let '(st, w) := reuse_log fname log_number last_log st w in
    flush_replay bfuel st w.
End Recovery.

(** * Reading leaves the files as they are *)

Section ReadFrame.
Context {F : Type} `{SequentialFile F}.
(** What reading keeps of a file, the reader keeps. *)
Context (R : F -> F -> Prop) (R_refl : forall f, R f f) (R_trans : forall f g h, R f g -> R g h -> R f h).
Context (R_Read : forall f, R f (snd (Read f kBlockSize))) (R_Skip : forall f n, 0 < n -> R f (snd (Skip f n))).
Implicit Types (r : Reader F).

Lemma report_file r n s : file (ReportDrop r n s) = file r.
Proof. unfold ReportDrop. by destruct (_ && _). Qed.

Lemma corruption_file r n s : file (ReportCorruption r n s) = file r.
Proof. apply report_file. Qed.

Lemma physical_frame fuel : forall r result, R (file r) (file (snd (read_physical_loop fuel r result))).
Proof.
  induction fuel as [|fuel IH]; intros r result; [apply R_refl|]. cbn [read_physical_loop]. destruct (size (buffer r) <? kHeaderSize).
  - destruct (negb (eof r)); [|apply R_refl]. cbn [file set_buffer]. pose proof (R_Read (file r)) as K. destruct (Read (file r) kBlockSize) as [[s bs] f]. cbn [snd] in K.
    destruct (negb (ok s)); [cbn [snd]; cbn [file set_eof]; rewrite report_file; exact K|].
    destruct (_ <? kBlockSize); refine (R_trans _ _ _ K _); match goal with |- context[read_physical_loop fuel ?r2 result] => exact (IH r2 result) end.
  - repeat match goal with |- context[if ?b then _ else _] => destruct b end; cbn [snd]; rewrite ?corruption_file; apply R_refl.
Qed.

Lemma record_frame fuel : forall r st x, read_record_loop fuel r st = Some x -> R (file r) (file (snd x)).
Proof.
  induction fuel as [|fuel IH]; intros r st x; [done|]. cbn [read_record_loop]. unfold ReadPhysicalRecord. pose proof (physical_frame 2 r (rr_fragment st)) as K. destruct (read_physical_loop 2 r (rr_fragment st)) as [[t f] r1]. cbn [snd] in K.
  assert (forall r2 st2, file r2 = file r1 -> read_record_loop fuel r2 st2 = Some x -> R (file r) (file (snd x))) as Hgo by (intros r2 st2 E2 E; apply IH in E; rewrite E2 in E; by apply (R_trans _ (file r1))).
  assert (forall y z r2, file r2 = file r1 -> Some (y, z, r2) = Some x -> R (file r) (file (snd x))) as Hend by (intros y z r2 E2 [= <-]; cbn [snd]; by rewrite E2).
  repeat match goal with |- context[if ?b then _ else _] => destruct b end; intros E; (eapply Hgo; [|exact E]) || (eapply Hend; [|exact E]); cbn [file set_resyncing set_last_record_offset]; rewrite ?corruption_file; done.
Qed.

Lemma read_frame fuel r scr x : ReadRecord fuel r scr = Some x -> R (file r) (file (snd x)).
Proof.
  unfold ReadRecord. destruct (_ <? _); [|apply record_frame]. unfold SkipToInitialBlock. set (loc := if initial_offset r mod kBlockSize >? kBlockSize - 6 then _ else _).
  destruct (Z.gtb_spec loc 0) as [Hl|]; [|apply (record_frame fuel (set_end_of_buffer_offset r loc))]. cbn [file set_end_of_buffer_offset]. pose proof (R_Skip (file r) loc Hl) as K. destruct (Skip (file r) loc) as [s f]. cbn [snd] in K.
  destruct (ok s); cbn [negb]; [intros E%record_frame; by apply (R_trans _ f)|]. intros [= <-]. cbn [snd]. by rewrite report_file.
Qed.
End ReadFrame.

(** * Readers of other files *)

(** [reads w g i]: the sequential file [g] is one on the file [i]. *)
Class Readers (W : Type) := reads : W -> Z -> Z -> Prop.

(** Those that read a file are where they were. *)
Definition keeps {W} `{EnvLaws W} `{Readers W} (w w' : W) (i : Z) : Prop := forall g, reads w g i -> reads w' g i /\ left w' g = left w g.

(** What is written to a file, and what is done to names, is nothing to a reader of another. *)
Class ReaderLaws (W : Type) `{GoodEnv W} `{!Readers W} := {
  open_reads w name i h w' : names w name = Some i -> env_NewSequentialFile w name = (OK, h, w') -> reads w' h i;
  Read_reads w g n i : reads w g i -> reads (snd (env_Read w g n)) g i;
  Skip_reads w g n i : reads w g i -> reads (snd (env_Skip w g n)) g i;
  NewWritableFile_keeps w name s h w' i : env_NewWritableFile w name = (s, h, w') -> h <> i -> keeps w w' i;
  Append_keeps w h data i : h <> i -> keeps w (snd (env_Append w h data)) i;
  Flush_keeps w h i : h <> i -> keeps w (snd (env_Flush w h)) i;
  Sync_keeps w h i : h <> i -> keeps w (snd (env_Sync w h)) i;
  Close_keeps w h i : h <> i -> keeps w (snd (env_Close w h)) i;
  delete_writable_keeps w h i : h <> i -> keeps w (env_delete_writable w h) i;
  DeleteFile_keeps w name i : keeps w (snd (env_DeleteFile w name)) i;
  GetFileSize_good w name i : names w name = Some i -> exists w', env_GetFileSize w name = (OK, size (bytes_of w i), w') /\ same_disk w w';
  NewAppendableFile_good w name i : names w name = Some i -> exists w', env_NewAppendableFile w name = (OK, i, w') /\ same_disk w w';
}.

Section Keeps.
Context {W : Type} `{ReaderLaws W}.
Implicit Types (w : W).

Lemma keeps_refl w i : keeps w w i.
Proof. by intros g Hg. Qed.

Lemma keeps_trans w1 w2 w3 i : keeps w1 w2 i -> keeps w2 w3 i -> keeps w1 w3 i.
Proof. intros K1 K2 g Hg. destruct (K1 g Hg) as [R2 E2]. destruct (K2 g R2) as [R3 E3]. split; [done|congruence]. Qed.

(** A file that is written, for the readers of another. *)
Definition aside i (f f' : W * Z) : Prop := only_appends f f' /\ (snd f <> i -> keeps (fst f) (fst f') i).

Lemma aside_refl i f : aside i f f.
Proof. split; [apply only_refl|intros _; apply keeps_refl]. Qed.

Lemma aside_trans i f g h : aside i f g -> aside i g h -> aside i f h.
Proof. intros [O1 K1] [O2 K2]. split; [by apply (only_trans _ g)|]. intros Hi. apply (keeps_trans _ (fst g)); [by apply K1|]. apply K2. by rewrite (proj1 O1). Qed.

Lemma aside_Append i f d : aside i f (snd (Append f d)).
Proof. split; [apply only_Append|]. destruct f as [w h]. cbn. intros Hi. pose proof (Append_keeps w h d i Hi) as K. by destruct (env_Append w h d). Qed.

Lemma aside_Flush i f : aside i f (snd (Flush f)).
Proof. split; [apply only_Flush|]. destruct f as [w h]. cbn. intros Hi. pose proof (Flush_keeps w h i Hi) as K. by destruct (env_Flush w h). Qed.
End Keeps.

Section BuildKeeps.
Context {comparator : Comparator} {snappy : Snappy} {W : Type} `{ReaderLaws W} {I : Type} `{Iterator I}.
Context (usable : W -> Z -> Z -> Status * W) (options : Options) (dbname : list byte).

(** What the table cache does, it does to no name and to no reader. *)
Definition cache_aside : Prop := forall w n sz i, keeps w (snd (usable w n sz)) i /\ forall m, names (snd (usable w n sz)) m = names w m.

Lemma loop_aside i fuel : forall (it : I) (b : TableBuilder (W * Z)) meta it' b' meta', build_loop fuel it b meta = Done (it', b', meta') -> aside i (tb_file b) (tb_file b').
Proof.
  induction fuel as [|fuel IH]; intros it b meta it' b' meta'; [done|]. cbn [build_loop]. destruct (Valid it); [|intros [= _ <- _]; apply aside_refl].
  destruct (key it) as [k| |]; [|done..]. rewrite run_bind_done. destruct (value it) as [v| |]; [|done..]. rewrite run_bind_done. destruct (Next it) as [it1| |]; [|done..]. rewrite run_bind_done. intros E.
  apply IH in E. refine (aside_trans _ _ _ _ _ E). exact (own_Add (aside i) (aside_refl i) (aside_trans i) (aside_Append i) (aside_Flush i) b k v).
Qed.

Lemma build_keeps fuel w it meta s it' meta' w' log i : cache_aside -> BuildTable usable options fuel dbname w it meta = Done (s, it', meta', w') ->
  names w log = Some i -> log <> TableFileName dbname (number meta) -> keeps w w' i /\ names w' log = Some i.
Proof.
  intros Hu E Hlog Hne. unfold BuildTable in E. destruct (SeekToFirst it) as [it0| |]; [|done..]. rewrite run_bind_done in E. change (number (set_meta_size meta 0)) with (number meta) in E. set (fname := TableFileName dbname (number meta)) in *.
  assert (forall (a : W) b, keeps w a i /\ names a log = Some i -> keeps w (if (b : bool) then a else snd (env_DeleteFile a fname)) i /\ names (if b then a else snd (env_DeleteFile a fname)) log = Some i) as Hend.
  { intros a [] [Ka Na]; [done|]. pose proof (DeleteFile_keeps a fname i) as K. destruct (env_DeleteFile a fname) as [s1 a1] eqn:Ea. destruct (DeleteFile_law _ _ _ _ Ea) as (Hn & _). cbn [snd] in *. split; [by apply (keeps_trans _ a)|]. by rewrite Hn. }
  destruct (Valid it0); [|injection E as <- <- <- <-; apply Hend; split; [apply keeps_refl|done]].
  pose proof (NewWritableFile_good w fname) as G. destruct (env_NewWritableFile w fname) as [[s1 h] w1] eqn:E1. cbn in G. subst s1. destruct (NewWritableFile_law _ _ _ _ _ E1) as (Hn1 & _ & G). destruct (G eq_refl) as (_ & _ & _ & Hfresh). cbn [ok OK negb] in E.
  assert (h <> i) as Hhi by (intros ->; by apply (Hfresh log)). assert (keeps w w1 i) as K1 by by apply (NewWritableFile_keeps w fname OK h). assert (names w1 log = Some i) as N1 by by rewrite Hn1.
  destruct (key it0) as [k| |]; [|done..]. rewrite run_bind_done in E. destruct (build_loop _ _ _ _) as [[[it1 b1] meta1]| |] eqn:El; [|done..]. rewrite run_bind_done in E.
  destruct (tb_Finish b1) as [[s2 b2]| |] eqn:Ef; [|done..]. rewrite run_bind_done in E.
  assert (aside i (w1, h) (tb_file b2)) as [(O1 & O2 & _) K2].
  { apply (aside_trans i _ (tb_file b1)); [apply (loop_aside i _ _ _ _ _ _ _ El)|]. exact (own_Finish (aside i) (aside_refl i) (aside_trans i) (aside_Append i) (aside_Flush i) b1 s2 b2 Ef). }
  specialize (K2 Hhi). set (meta2 := if ok s2 then _ else meta1) in E. cbn [fst snd] in *. set (w2 := fst (tb_file b2)) in *. assert (keeps w w2 i /\ names w2 log = Some i) as A2 by (split; [by apply (keeps_trans _ w1)|by rewrite O2]). clearbody w2 meta2. clear K2 O1 O2 K1 N1.
  assert (forall a a', keeps w a i /\ names a log = Some i -> keeps a a' i -> (forall m, names a' m = names a m) -> keeps w a' i /\ names a' log = Some i) as Hstep by (intros a a' [Ka Na] K N; split; [by apply (keeps_trans _ a)|by rewrite N]).
  set (r3 := if ok s2 then env_Sync w2 h else (s2, w2)) in E. assert (keeps w (snd r3) i /\ names (snd r3) log = Some i) as A3.
  { subst r3. destruct (ok s2); [|exact A2]. apply (Hstep w2); [done|by apply Sync_keeps|]. destruct (env_Sync w2 h) as [s3 w3] eqn:E3. apply (Sync_law _ _ _ _ E3). }
  destruct r3 as [s3 w3]. cbn [snd] in A3. set (r4 := if ok s3 then env_Close w3 h else (s3, w3)) in E. assert (keeps w (snd r4) i /\ names (snd r4) log = Some i) as A4.
  { subst r4. destruct (ok s3); [|exact A3]. apply (Hstep w3); [done|by apply Close_keeps|]. destruct (env_Close w3 h) as [s4 w4] eqn:E4. apply (Close_law _ _ _ _ E4). }
  destruct r4 as [s4 w4]. cbn [snd] in A4. assert (keeps w (env_delete_writable w4 h) i /\ names (env_delete_writable w4 h) log = Some i) as A5 by (apply (Hstep w4); [done|by apply delete_writable_keeps|apply delete_writable_law]).
  set (w5 := env_delete_writable w4 h) in *. set (r6 := if ok s4 then usable w5 (number meta2) (file_size meta2) else (s4, w5)) in E. assert (keeps w (snd r6) i /\ names (snd r6) log = Some i) as A6.
  { subst r6. destruct (ok s4); [|exact A5]. destruct (Hu w5 (number meta2) (file_size meta2) i) as [Ku Nu]. by apply (Hstep w5). }
  destruct r6 as [s6 w6]. injection E as _ _ _ <-. by apply Hend.
Qed.
End BuildKeeps.

(** * Names of tables and logs *)

Lemma table_names_differ dbname n m : 0 <= n < 2 ^ 64 -> 0 <= m < 2 ^ 64 -> n <> m -> TableFileName dbname n <> TableFileName dbname m.
Proof.
  intros Hn Hm Hne E. destruct (filename_roundtrip n Hn) as (_ & Tn & _). destruct (filename_roundtrip m Hm) as (_ & Tm & _).
  destruct (Tn dbname) as (b1 & E1 & P1). destruct (Tm dbname) as (b2 & E2 & P2). rewrite E1, E2 in E. do 2 apply app_inv_head in E. congruence.
Qed.

Lemma log_not_table dbname n m : 0 <= n < 2 ^ 64 -> 0 <= m < 2 ^ 64 -> LogFileName dbname n <> TableFileName dbname m.
Proof.
  intros Hn Hm E. destruct (filename_roundtrip n Hn) as (Tn & _). destruct (filename_roundtrip m Hm) as (_ & Tm & _).
  destruct (Tn dbname) as (b1 & E1 & P1). destruct (Tm dbname) as (b2 & E2 & P2). rewrite E1, E2 in E. do 2 apply app_inv_head in E. congruence.
Qed.

(** * What is recovered *)

Section Correct.
Context {c : Comparator} {valid : list byte -> Prop} {laws : ComparatorLaws valid c} {snappy : Snappy} {W : Type} `{ReaderLaws W}.
Context (usable : W -> Z -> Z -> Status * W) (options : Options) (known : known_compression options) (max_file_size : Z).
Context (paranoid_checks reuse_logs : bool) (write_buffer_size : Z) (memory_usage : MemTable -> Z) (dbname : list byte).
Context (reads_tables : cache_reads (c := c) usable options dbname) (reads_aside : cache_aside usable).
Implicit Types (w : W) (o : Opening) (st : Replay) (edit : VersionEdit) (metas : list FileMetaData) (es : list mem_entry) (ess : list (list mem_entry)).

#[local] Abbreviation mem_holds := (mem_holds (c := c) (valid := valid)).
#[local] Abbreviation level_bytes := (level_bytes (c := c) options).
#[local] Abbreviation in_order := (in_order (c := c)).
#[local] Abbreviation table_of := (table_of (c := c) options dbname).
#[local] Abbreviation op_fits := (op_fits (valid := valid)).

(** A level-0 table in an edit. *)
Definition add_table edit (m : FileMetaData) : VersionEdit := AddFile edit 0 (number m) (file_size m) (smallest m) (largest m).

(** The tables that some entries make fit in a file. *)
Definition tables_fit (all : list mem_entry) : Prop := forall es rest, es ++ rest ≡ₚ all -> in_order es -> size (level_bytes es) < 2 ^ 64.

Lemma tables_fit_app new old : tables_fit (new ++ old) -> tables_fit old.
Proof. intros Hf es rest Hp Ho. apply (Hf es (rest ++ new)); [|done]. rewrite app_assoc, Hp. apply Permutation_app_comm. Qed.

Lemma table_of_disk w w' m es : on_disk w' (TableFileName dbname (number m)) = on_disk w (TableFileName dbname (number m)) -> table_of w m es -> table_of w' m es.
Proof. intros Ed [E R]. split; [by rewrite Ed|exact R]. Qed.

Lemma WriteLevel0Table_ok bfuel o w mem ents edit log i : dbname_ (op_versions o) = dbname -> mem_holds mem ents -> (length ents < bfuel)%nat -> tables_fit ents ->
  let n := vs_next_file_number (op_versions o) in
  names w log = Some i -> log <> TableFileName dbname n ->
  exists metas ess o' w', WriteLevel0Table (c := c) usable options max_file_size bfuel o w mem edit None = Done (OK, o', w', fold_left add_table metas edit) /\
    op_versions o' = set_next_file (op_versions o) (u64 (n + 1)) /\ op_mem o' = op_mem o /\ op_log o' = op_log o /\ op_logfile_number o' = op_logfile_number o /\
    keeps w w' i /\ names w' log = Some i /\ (forall name, name <> TableFileName dbname n -> on_disk w' name = on_disk w name) /\
    Forall2 (table_of w') metas ess /\ Forall in_order ess /\ concat ess ≡ₚ ents /\ Forall (fun m => number m = n) metas.
Proof.
  intros Hdb Hm Hfuel Hfit n Hlog Hne. destruct (mem_built usable options known dbname bfuel mem ents w (new_FileMetaData n) reads_tables Hm Hfuel) as (es & Hp & Ho & Hb).
  destruct Hb as (it' & meta & w' & E & En & Hd & Ht); [apply (Hfit es []); [by rewrite app_nil_r|done]|]. change (number (new_FileMetaData n)) with n in *.
  destruct (build_keeps usable options dbname _ _ _ _ _ _ _ _ log i reads_aside E Hlog Hne) as [Hk Hn].
  unfold WriteLevel0Table. cbn [NewFileNumber]. unfold NewFileNumber. fold n. change (dbname_ (set_next_file (op_versions o) (u64 (n + 1)))) with (dbname_ (op_versions o)). rewrite Hdb, E, run_bind_done. cbn [ok OK andb].
  destruct ents as [|e0 ents].
  - rewrite Ht. change (0 >? 0) with false. cbv iota. exists [], []. eexists _, w'. split; [reflexivity|]. do 4 (split; [done|]). split; [done|]. split; [done|]. split; [done|]. split; [constructor|]. split; [constructor|]. done.
  - destruct Ht as [Ht Hpos]. rewrite (proj2 (Z.gtb_lt _ _)) by done. rewrite run_bind_done. exists [meta], [es]. eexists _, w'. split; [reflexivity|]. do 4 (split; [done|]). split; [done|]. split; [done|]. split; [done|].
    split; [by constructor|]. split; [by constructor|]. split; [cbn [concat]; by rewrite app_nil_r|]. by constructor.
Qed.

(** The loop has gone through [k] groups, with the entries [all]. *)
Record replayed (o0 : Opening) edit0 w0 (k : nat) (all : list mem_entry) st w metas ess (cur : list mem_entry) : Prop := {
  rd_status : rp_status st = OK;
  rd_edit : rp_edit st = fold_left add_table metas edit0;
  rd_tables : Forall2 (table_of w) metas ess;
  rd_order : Forall in_order ess;
  rd_all : concat ess ++ cur ≡ₚ all;
  rd_cur : match rp_mem st with None => cur = [] | Some m => mem_holds m cur end;
  rd_numbers : Forall (fun m => vs_next_file_number (op_versions o0) <= number m < vs_next_file_number (op_versions (rp_opening st))) metas;
  rd_next : vs_next_file_number (op_versions (rp_opening st)) = vs_next_file_number (op_versions o0) + rp_compactions st;
  rd_compactions : 0 <= rp_compactions st <= Z.of_nat k;
  rd_dbname : dbname_ (op_versions (rp_opening st)) = dbname;
  rd_saved : metas <> [] -> rp_save_manifest st = true;
  rd_rest : op_mem (rp_opening st) = op_mem o0 /\ op_log (rp_opening st) = op_log o0 /\ op_logfile_number (rp_opening st) = op_logfile_number o0;
  rd_disk name : (forall n, vs_next_file_number (op_versions o0) <= n < 2 ^ 64 -> name <> TableFileName dbname n) -> on_disk w name = on_disk w0 name;
}.

Lemma replayed_disk o0 edit0 w0 k all st w w' metas ess cur : same_disk w w' -> replayed o0 edit0 w0 k all st w metas ess cur -> replayed o0 edit0 w0 k all st w' metas ess cur.
Proof.
  intros Hs []. split; try done.
  - apply (list.Forall2_impl (table_of w)); [done|]. intros m es. apply table_of_disk. by apply same_disk_at.
  - intros name Hname. rewrite (same_disk_at w w' name Hs). by apply rd_disk0.
Qed.

(** A table more: the memtable of the loop is written. *)
Lemma table_more bfuel o0 edit0 w0 k all st w metas ess cur mem log i : replayed o0 edit0 w0 k all st w metas ess cur -> mem_holds mem cur ->
  (length all < bfuel)%nat -> tables_fit all -> 0 <= vs_next_file_number (op_versions o0) -> vs_next_file_number (op_versions o0) + Z.of_nat k + 1 < 2 ^ 64 ->
  names w log = Some i -> (forall n, 0 <= n < 2 ^ 64 -> log <> TableFileName dbname n) ->
  exists o' w' edit' metas' ess', WriteLevel0Table (c := c) usable options max_file_size bfuel (rp_opening st) w mem (rp_edit st) None = Done (OK, o', w', edit') /\
    keeps w w' i /\ names w' log = Some i /\
    forall max, replayed o0 edit0 w0 (S k) all (mk_replay OK None (rp_compactions st + 1) true edit' max o') w' metas' ess' [].
Proof.
  intros [] Hm Hfuel Hfit Hn0 Hn Hlog Hne. set (n := vs_next_file_number (op_versions (rp_opening st))) in *.
  assert (length all = length (concat ess) + length cur)%nat as Hlen by (by rewrite <- rd_all0, length_app).
  destruct (WriteLevel0Table_ok bfuel (rp_opening st) w mem cur (rp_edit st) log i) as (ms & es & o' & w' & E & Ev & Em & El & Ef & Hk & Hn' & Hd & Ht & Ho & Hp & Hnum); [done|done|lia| |done|apply Hne; fold n; lia|].
  { intros es rest Hp. apply (Hfit es (rest ++ concat ess)). rewrite app_assoc, Hp, <- rd_all0. apply Permutation_app_comm. }
  fold n in Ev, Hd, Hnum. rewrite u64_small in Ev by lia.
  exists o', w', (fold_left add_table ms (rp_edit st)), (metas ++ ms), (ess ++ es). split; [exact E|]. split; [done|]. split; [done|]. intros max. split; cbn [rp_status rp_mem rp_compactions rp_save_manifest rp_edit rp_opening]; try done.
  - by rewrite fold_left_app, <- rd_edit0.
  - apply Forall2_app; [|done]. clear - rd_tables0 rd_numbers0 Hd rd_next0 Hn0 Hn rd_compactions0. induction rd_tables0 as [|m e metas ess Hm _ IH]; [constructor|]. apply List.Forall_cons_iff in rd_numbers0 as [Hnm Hrest]. constructor; [|by apply IH].
    apply (table_of_disk w); [|done]. apply Hd. apply table_names_differ; lia.
  - by apply Forall_app_2.
  - rewrite concat_app, app_nil_r, Hp. exact rd_all0.
  - rewrite Ev. cbn [vs_next_file_number set_next_file]. apply Forall_app_2; (eapply list.Forall_impl; [eassumption|]); cbn; intros m; lia.
  - rewrite Ev. cbn [vs_next_file_number set_next_file]. lia.
  - lia.
  - by rewrite Ev.
  - by rewrite Em, El, Ef.
  - intros name Hname. rewrite Hd; [by apply rd_disk0|]. apply Hname. lia.
Qed.

(** A group of operations with its first sequence number. *)
Definition group_fits (sq : Z) (g : list batch_op) : Prop := 1 <= sq /\ sq + Z.of_nat (length g) <= 2 ^ 56 /\ Z.of_nat (length g) < 2 ^ 31 /\ Forall op_fits g.

Lemma InsertInto_group mem cur sq g : mem_holds mem cur -> group_fits sq g -> Forall (fun e => e_seq e < sq) cur ->
  exists mem', InsertInto (user_comparator := c) (batch_rep sq g) mem = (OK, Some mem') /\ mem_holds mem' (rev (batch_entries sq g) ++ cur).
Proof.
  intros Hm (Hs & Hn & Hc & Hf) Hlt. destruct (InsertInto_ok (c := c) (valid := valid) mem cur g sq Hm) as (mem' & Em & Hm'); [lia|lia|done|done|done|]. exists mem'. split; [|done].
  rewrite <- Em. rewrite batch_built, SetSequence_rep; [done| |done]. eapply list.Forall_impl; [exact Hf|]. intros op. apply op_fits_ok.
Qed.

Lemma replay_record_ok bfuel o0 edit0 w0 k all st w metas ess cur sq g log i : replayed o0 edit0 w0 k all st w metas ess cur -> group_fits sq g -> Forall (fun e => e_seq e < sq) all ->
  let all' := rev (batch_entries sq g) ++ all in
  (length all' < bfuel)%nat -> tables_fit all' -> 0 <= vs_next_file_number (op_versions o0) -> vs_next_file_number (op_versions o0) + Z.of_nat k + 1 < 2 ^ 64 ->
  names w log = Some i -> (forall n, 0 <= n < 2 ^ 64 -> log <> TableFileName dbname n) ->
  exists st' w' metas' ess' cur', replay_record (c := c) usable options max_file_size paranoid_checks write_buffer_size memory_usage bfuel st (batch_rep sq g) w = Done (st', w') /\
    keeps w w' i /\ names w' log = Some i /\ rp_max_sequence st' = Z.max (rp_max_sequence st) (sq + Z.of_nat (length g) - 1) /\ replayed o0 edit0 w0 (S k) all' st' w' metas' ess' cur'.
Proof.
  intros Hr Hg Hlt all' Hfuel Hfit Hn0 Hn Hlog Hne. assert (Hall := rd_all _ _ _ _ _ _ _ _ _ _ Hr). unfold replay_record. change (SetContents [] (batch_rep sq g)) with (batch_rep sq g).
  assert (mem_holds (default (mem_Ref new_MemTable) (rp_mem st)) cur) as Hm by (pose proof (rd_cur _ _ _ _ _ _ _ _ _ _ Hr) as Hc; destruct (rp_mem st); [exact Hc|subst cur; apply (new_MemTable_holds (c := c) (valid := valid))]).
  assert (Forall (fun e => e_seq e < sq) cur) as Hltc by (rewrite <- Hall in Hlt; by apply List.Forall_app in Hlt as [_ Hlt]).
  destruct (InsertInto_group _ cur sq g Hm Hg Hltc) as (mem & -> & Hm'). unfold MaybeIgnoreError. cbn [ok OK orb negb].
  destruct Hg as (Hs1 & Hs2 & Hs3 & Hs4). rewrite Sequence_rep, Count_rep, (u64_small sq), u64_small by lia. set (last := sq + Z.of_nat (length g) - 1).
  assert ((if last >? rp_max_sequence st then last else rp_max_sequence st) = Z.max (rp_max_sequence st) last) as -> by (destruct (Z.gtb_spec last (rp_max_sequence st)); lia).
  set (max := Z.max _ last). destruct Hr as [].
  assert (replayed o0 edit0 w0 (S k) all' (mk_replay OK (Some mem) (rp_compactions st) (rp_save_manifest st) (rp_edit st) max (rp_opening st)) w metas ess (rev (batch_entries sq g) ++ cur)) as Hr'.
  { split; cbn [rp_status rp_mem rp_compactions rp_save_manifest rp_edit rp_opening]; try done; [|lia]. unfold all'. rewrite <- Hall, !app_assoc. by rewrite (Permutation_app_comm (concat ess) (rev _)). }
  destruct (memory_usage mem >? write_buffer_size); [|eexists _, w, metas, ess, _; split; [reflexivity|]; split; [apply keeps_refl|]; split; [done|]; split; [done|]; exact Hr'].
  assert (replayed o0 edit0 w0 k all' (mk_replay OK (Some mem) (rp_compactions st) (rp_save_manifest st) (rp_edit st) max (rp_opening st)) w metas ess (rev (batch_entries sq g) ++ cur)) as Hr2 by (destruct Hr'; split; done).
  destruct (table_more bfuel _ _ _ k _ _ _ _ _ _ mem log i Hr2 Hm' Hfuel Hfit Hn0 Hn Hlog Hne) as (o' & w' & edit' & metas' & ess' & E & Hk & Hn' & Hr3). cbn [rp_opening rp_edit] in E. rewrite E, run_bind_done.
  eexists _, w', metas', ess', []. split; [reflexivity|]. split; [done|]. split; [done|]. split; [done|]. apply Hr3.
Qed.

(** A reader in the environment: its file is one on [i], and names keep their files. *)
Definition reading (f f' : W * Z) : Prop := same_disk (fst f) (fst f') /\ snd f' = snd f /\ forall i, reads (fst f) (snd f) i -> reads (fst f') (snd f') i.

Lemma reading_record rf (r : Reader (W * Z)) scr x : ReadRecord rf r scr = Some x -> reading (file r) (file (snd x)).
Proof.
  apply (read_frame reading).
  - by intros f.
  - intros f g h (A1 & A2 & A3) (B1 & B2 & B3). split; [by apply (same_disk_trans _ (fst g))|]. split; [congruence|]. intros i Hi. by apply B3, A3.
  - intros [w h]. cbn. destruct (Read_good w h kBlockSize ltac:(done)) as (w' & E & _ & Hs). rewrite E. cbn. split; [exact Hs|]. split; [done|]. intros i Hi. pose proof (Read_reads w h kBlockSize i Hi) as K. by rewrite E in K.
  - intros [w h] n Hn. cbn. destruct (Skip_good w h n ltac:(lia)) as (w' & E & _ & Hs). rewrite E. cbn. split; [exact Hs|]. split; [done|]. intros i Hi. pose proof (Skip_reads w h n i Hi) as K. by rewrite E in K.
Qed.

Lemma reading_at_keeps (r : Reader (W * Z)) off S w' i : reading_at r off S -> keeps (fst (file r)) w' i -> reads (fst (file r)) (snd (file r)) i -> reading_at (LdbLog.set_file r (w', snd (file r))) off S.
Proof. intros [] K Hi. split; try done. cbn [file LdbLog.set_file]. change (remaining (w', snd (file r))) with (left w' (snd (file r))). rewrite (proj2 (K _ Hi)). done. Qed.

(** The groups of a log: consecutive sequence numbers from [sq] on. *)
Definition groups_fit (sq : Z) (gs : list (list batch_op)) : Prop :=
  1 <= sq /\ sq + Z.of_nat (length (concat gs)) <= 2 ^ 56 /\ Forall (fun g => Z.of_nat (length g) < 2 ^ 31 /\ Forall op_fits g) gs.

Lemma groups_fit_cons sq g gs : groups_fit sq (g :: gs) -> group_fits sq g /\ groups_fit (sq + Z.of_nat (length g)) gs.
Proof.
  intros (Hs & Hn & Hf). apply List.Forall_cons_iff in Hf as [[Hc Hg] Hf]. cbn [concat] in Hn. rewrite length_app in Hn.
  split; [split; [done|]; split; [lia|done]|split; [lia|]; split; [lia|done]].
Qed.

Lemma group_entries_app gs gs' : forall sq, group_entries sq (gs ++ gs') = group_entries (sq + Z.of_nat (length (concat gs))) gs' ++ group_entries sq gs.
Proof.
  induction gs as [|g gs IH]; intros sq; cbn [app group_entries concat length]; [by rewrite Z.add_0_r, app_nil_r|]. by rewrite IH, length_app, app_assoc, Nat2Z.inj_add, Z.add_assoc.
Qed.

(** The largest sequence number after some groups. *)
Definition max_after (max sq : Z) (gs : list (list batch_op)) : Z := match gs with [] => max | _ => Z.max max (sq + Z.of_nat (length (concat gs)) - 1) end.

Lemma max_after_cons max sq g gs : max_after (Z.max max (sq + Z.of_nat (length g) - 1)) (sq + Z.of_nat (length g)) gs = max_after max sq (g :: gs).
Proof. unfold max_after. cbn [concat]. rewrite length_app. destruct gs as [|g' gs]; cbn [concat length]; lia. Qed.

Lemma group_size sq g : (size (batch_rep sq g) <? 12) = false.
Proof. apply Z.ltb_ge. rewrite size_batch_rep. pose proof (size_nonneg (concat (map op_bytes g))). lia. Qed.

Lemma replay_loop_ok rf bfuel o0 edit0 w0 log i gs : forall fuel (r : Reader (W * Z)) off S q scr st sq k all metas ess cur,
  reading_at r off S -> fst (log_bytes off (records sq gs)) = S ++ q -> groups_fit sq gs ->
  Forall (fun d => (length d + 2 <= rf)%nat) (records sq gs) -> (2 <= rf)%nat -> (length gs < fuel)%nat ->
  (length (group_entries sq gs ++ all) < bfuel)%nat -> tables_fit (group_entries sq gs ++ all) ->
  0 <= vs_next_file_number (op_versions o0) -> vs_next_file_number (op_versions o0) + Z.of_nat (k + length gs) + 1 < 2 ^ 64 ->
  reads (fst (file r)) (snd (file r)) i -> names (fst (file r)) log = Some i -> (forall n, 0 <= n < 2 ^ 64 -> log <> TableFileName dbname n) ->
  replayed o0 edit0 w0 k all st (fst (file r)) metas ess cur -> Forall (fun e => e_seq e < sq) all ->
  exists m r' st' metas' ess' cur', (m <= length gs)%nat /\ (length (fst (log_bytes off (records sq (take m gs)))) <= length S)%nat /\
    (m < length gs -> length S < length (fst (log_bytes off (records sq (take (Datatypes.S m) gs)))))%nat /\
    replay_loop (c := c) usable options max_file_size paranoid_checks write_buffer_size memory_usage fuel rf bfuel r scr st = Done (st', r') /\
    names (fst (file r')) log = Some i /\ rp_max_sequence st' = max_after (rp_max_sequence st) sq (take m gs) /\
    replayed o0 edit0 w0 (k + m) (group_entries sq (take m gs) ++ all) st' (fst (file r')) metas' ess' cur'.
Proof.
  induction gs as [|g gs IH]; intros fuel r off S q scr st sq k all metas ess cur Ha E Hg Hrf H2' Hfuel Hb Hfit Hn0 Hn Hrd Hlog Hne Hr Hlt.
  - destruct S as [|? ?]; [|done]. destruct fuel as [|fuel]; [lia|]. destruct (read_prefix_end rf r off scr Ha H2') as (scr' & r' & Er & Hrep).
    destruct (reading_record _ _ _ _ Er) as (Hsame & Hh & _). cbn [snd] in *. exists O, r'. eexists _, metas, ess, cur. split; [done|]. split; [cbn; lia|]. split; [cbn; lia|].
    cbn [replay_loop]. rewrite Er, Hrep, drop_all. cbn [log_reported]. split; [reflexivity|]. split; [by rewrite (proj1 Hsame)|]. split; [done|]. rewrite Nat.add_0_r. apply (replayed_disk _ _ _ _ _ _ _ _ _ _ _ Hsame). by destruct Hr.
  - destruct (groups_fit_cons _ _ _ Hg) as [Hg1 Hg2]. cbn [records] in E, Hrf. apply List.Forall_cons_iff in Hrf as [Hre Hrf]. destruct fuel as [|fuel]; [cbn in Hfuel; lia|]. cbn [length] in Hfuel, Hn.
    cbn [replay_loop]. destruct (read_prefix_step rf _ _ r off S q scr Ha E Hre) as [(scr' & r1 & S1 & Er & -> & Ha1 & E1 & Hrep)|(scr' & r1 & Er & Hrep & Hlen)]; rewrite Er, Hrep, drop_all; cbn [log_reported].
    + cbn [with_status rp_status]. rewrite (rd_status _ _ _ _ _ _ _ _ _ _ Hr). cbn [ok OK negb]. rewrite group_size.
      destruct (reading_record _ _ _ _ Er) as (Hsame & Hh & Hrd1). cbn [snd] in *.
      assert (replayed o0 edit0 w0 k all (with_status st OK) (fst (file r1)) metas ess cur) as Hr1 by (apply (replayed_disk _ _ _ _ _ _ _ _ _ _ _ Hsame); destruct Hr; by split).
      cbn [group_entries] in Hb, Hfit. rewrite <- app_assoc in Hb, Hfit.
      destruct (replay_record_ok bfuel _ _ _ _ _ _ _ _ _ _ sq g log i Hr1 Hg1 Hlt) as (st1 & w1 & metas1 & ess1 & cur1 & E2 & Hk & Hn1 & Hmax & Hr2); [rewrite length_app in Hb; lia|by apply tables_fit_app in Hfit|done|lia|by rewrite (proj1 Hsame)|done|].
      rewrite E2, run_bind_done. rewrite (rd_status _ _ _ _ _ _ _ _ _ _ Hr2). cbn [ok OK negb].
      destruct (IH fuel (LdbLog.set_file r1 (w1, snd (file r1))) (snd (record_bytes off (batch_rep sq g))) S1 q scr' st1 (sq + Z.of_nat (length g)) (Datatypes.S k) (rev (batch_entries sq g) ++ all) metas1 ess1 cur1) as (m & r' & st' & metas' & ess' & cur' & Hm & Hwhole & Hcut & El & Hn' & Hmax' & Hr'); try done.
      * apply (reading_at_keeps r1 _ S1 w1 i Ha1 Hk). by apply Hrd1.
      * lia.
      * cbn [Nat.add]. lia.
      * cbn [file LdbLog.set_file fst snd]. apply Hk. by apply Hrd1.
      * apply List.Forall_app. split; [apply List.Forall_rev, batch_entries_below|]. eapply list.Forall_impl; [exact Hlt|]. cbn. intros e He. lia.
      * exists (Datatypes.S m), r', st', metas', ess', cur'. split; [cbn [length]; lia|]. split; [cbn [take records]; rewrite log_bytes_cons; cbn [fst]; rewrite !length_app; lia|]. split.
        { intros Hm'. cbn [length] in Hm'. specialize (Hcut ltac:(lia)). change (take (Datatypes.S (Datatypes.S m)) (g :: gs)) with (g :: take (Datatypes.S m) gs). cbn [records]. rewrite log_bytes_cons. cbn [fst]. rewrite !length_app. lia. }
        split; [exact El|]. split; [done|]. cbn [take]. split; [rewrite Hmax', Hmax; apply max_after_cons|]. cbn [group_entries]. rewrite <- app_assoc. by rewrite Nat.add_succ_r.
    + exists O, r1. eexists _, metas, ess, cur. destruct (reading_record _ _ _ _ Er) as (Hsame & Hh & _). cbn [snd] in *. split; [lia|]. split; [cbn; lia|]. split; [intros _; cbn [take records]; rewrite log_bytes_cons; cbn [fst]; rewrite length_app; lia|].
      split; [reflexivity|]. split; [by rewrite (proj1 Hsame)|]. split; [done|]. rewrite Nat.add_0_r. apply (replayed_disk _ _ _ _ _ _ _ _ _ _ _ Hsame). by destruct Hr.
Qed.

Lemma s32_block n : s32 (n mod kBlockSize) = n mod kBlockSize.
Proof. unfold s32. apply sx_small; [lia|]. pose proof (Z.mod_pos_bound n kBlockSize ltac:(done)). change kBlockSize with 32768 in *. lia. Qed.

(** What goes on being written to, if the log is used again: its file, from its end on. *)
Definition reused w st (log_number : Z) (S : list byte) : Prop :=
  exists h, op_log (rp_opening st) = Some (h, size S mod kBlockSize) /\ bytes_of w h = S /\ op_logfile_number (rp_opening st) = log_number.

(** After the last record: the memtable stays, or goes to a table. *)
Lemma replay_end bfuel o0 edit0 w0 k all st w metas ess cur log i log_number last_log S : replayed o0 edit0 w0 k all st w metas ess cur -> op_mem o0 = None ->
  (length all < bfuel)%nat -> tables_fit all -> 0 <= vs_next_file_number (op_versions o0) -> vs_next_file_number (op_versions o0) + Z.of_nat k + 1 < 2 ^ 64 ->
  names w log = Some i -> bytes_of w i = S -> (forall n, 0 <= n < 2 ^ 64 -> log <> TableFileName dbname n) ->
  exists st' w' metas' ess' left_, (let '(st, w) := reuse_log reuse_logs log log_number last_log st w in
      flush_replay (c := c) usable options max_file_size bfuel st w) = Done (st', w') /\
    rp_max_sequence st' = rp_max_sequence st /\ rp_status st' = OK /\ rp_edit st' = fold_left add_table metas' edit0 /\
    Forall2 (table_of w') metas' ess' /\ Forall in_order ess' /\ concat ess' ++ left_ ≡ₚ all /\
    match op_mem (rp_opening st') with Some m => reuse_logs = true /\ last_log = true /\ mem_holds m left_ /\ metas' = [] /\ reused w' st' log_number S | None => left_ = [] end /\
    (metas' <> [] -> rp_save_manifest st' = true) /\
    (forall name, (forall n, vs_next_file_number (op_versions o0) <= n < 2 ^ 64 -> name <> TableFileName dbname n) -> on_disk w' name = on_disk w0 name).
Proof.
  intros Hr Ho Hfuel Hfit Hn0 Hn Hlog HS Hne.
  assert (forall w1, same_disk w w1 -> exists st' w' metas' ess' left_, flush_replay (c := c) usable options max_file_size bfuel st w1 = Done (st', w') /\
    rp_max_sequence st' = rp_max_sequence st /\ rp_status st' = OK /\ rp_edit st' = fold_left add_table metas' edit0 /\
    Forall2 (table_of w') metas' ess' /\ Forall in_order ess' /\ concat ess' ++ left_ ≡ₚ all /\
    match op_mem (rp_opening st') with Some m => reuse_logs = true /\ last_log = true /\ mem_holds m left_ /\ metas' = [] /\ reused w' st' log_number S | None => left_ = [] end /\
    (metas' <> [] -> rp_save_manifest st' = true) /\
    (forall name, (forall n, vs_next_file_number (op_versions o0) <= n < 2 ^ 64 -> name <> TableFileName dbname n) -> on_disk w' name = on_disk w0 name)) as Hflush.
  { intros w1 Hs. apply (replayed_disk _ _ _ _ _ _ _ _ _ _ _ Hs) in Hr. assert (Hc := rd_cur _ _ _ _ _ _ _ _ _ _ Hr). assert (Hst := rd_status _ _ _ _ _ _ _ _ _ _ Hr).
    unfold flush_replay. destruct (rp_mem st) as [mem|].
    - rewrite Hst. cbn [ok OK]. destruct (table_more bfuel _ _ _ _ _ _ _ _ _ _ mem log i Hr Hc Hfuel Hfit Hn0 Hn ltac:(by rewrite (proj1 Hs)) Hne) as (o' & w' & edit' & metas' & ess' & E & _ & _ & Hr').
      rewrite E, run_bind_done. eexists _, w', metas', ess', []. split; [reflexivity|]. split; [done|]. destruct (Hr' (rp_max_sequence st)) as [? ? ? ? ? ? ? ? ? ? ? (Rm & _) ?]. cbn [rp_opening rp_save_manifest rp_edit rp_compactions] in *. rewrite Rm, Ho. done.
    - subst cur. destruct Hr as [? ? ? ? ? ? ? ? ? ? ? (Rm & _) ?]. exists st, w1, metas, ess, []. rewrite Rm, Ho. done. }
  unfold reuse_log. destruct (_ && (rp_compactions st =? 0)) eqn:Ereuse; [|by apply Hflush].
  destruct (GetFileSize_good w log i Hlog) as (w1 & -> & Hs1). cbn [ok OK]. destruct (NewAppendableFile_good w1 log i ltac:(by rewrite (proj1 Hs1))) as (w2 & -> & Hs2). cbn [ok OK].
  pose proof (same_disk_trans _ _ _ Hs1 Hs2) as Hs. apply (replayed_disk _ _ _ _ _ _ _ _ _ _ _ Hs) in Hr. destruct Hr. apply andb_true_iff in Ereuse as [[[_ Er1]%andb_true_iff Er2]%andb_true_iff Ec%Z.eqb_eq].
  assert (metas = []) as ->. { rewrite Ec, Z.add_0_r in rd_next0. destruct metas as [|m metas]; [done|]. apply List.Forall_cons_iff in rd_numbers0 as [Hm _]. lia. }
  apply Forall2_nil_inv_l in rd_tables0 as ->. cbn [concat app] in rd_all0. unfold flush_replay. cbn [rp_mem]. eexists _, w2, [], [], cur. split; [reflexivity|]. cbn [rp_max_sequence rp_status rp_edit rp_opening op_mem rp_save_manifest]. do 3 (split; [done|]). split; [done|]. split; [done|]. split; [done|].
  split; [|done]. split; [done|]. split; [done|]. split. { destruct (rp_mem st); [exact rd_cur0|subst cur; apply (new_MemTable_holds (c := c) (valid := valid))]. }
  split; [done|]. exists i. cbn [op_log op_logfile_number rp_opening]. split; [rewrite <- HS; cbn [new_Writer_at block_offset]; by rewrite s32_block|]. split; [by rewrite (proj2 Hs)|done].
Qed.

(** C14: recovery of a log file.  In an environment where operations on files succeed, let the log
    file of a number be what the writes of groups of operations left there, cut anywhere.
    Then RecoverLogFile returns OK, and for the [k] groups whose records are whole the level-0
    tables that it adds to the edit, with the memtable that it keeps if the log goes on being
    used, have exactly the entries of those groups, each once, with their sequence numbers; the
    largest of these is reported, a new manifest is asked for if there is a table, and no file
    changes whose name is not that of a new table. *)
Theorem recover_log_correct fuel rf bfuel log_number last_log save edit max o w sq gs S q :
  let n := vs_next_file_number (op_versions o) in let log := LogFileName dbname log_number in
  dbname_ (op_versions o) = dbname -> op_mem o = None -> 0 <= log_number < 2 ^ 64 -> 0 <= n -> n + Z.of_nat (length gs) + 1 < 2 ^ 64 ->
  on_disk w log = Some S -> fst (log_bytes 0 (records sq gs)) = S ++ q -> groups_fit sq gs -> tables_fit (group_entries sq gs) ->
  (length gs < fuel)%nat -> Forall (fun d => (length d + 2 <= rf)%nat) (records sq gs) -> (2 <= rf)%nat -> (length (group_entries sq gs) < bfuel)%nat ->
  exists k st w' metas ess left_, (k <= length gs)%nat /\ (length (fst (log_bytes 0 (records sq (take k gs)))) <= length S)%nat /\ (k < length gs -> length S < length (fst (log_bytes 0 (records sq (take (Datatypes.S k) gs)))))%nat /\
    RecoverLogFile (c := c) usable options max_file_size paranoid_checks reuse_logs write_buffer_size memory_usage fuel rf bfuel log_number last_log save edit max o w = Done (st, w') /\
    rp_status st = OK /\ rp_max_sequence st = max_after max sq (take k gs) /\ rp_edit st = fold_left add_table metas edit /\
    Forall2 (table_of w') metas ess /\ Forall in_order ess /\ concat ess ++ left_ ≡ₚ group_entries sq (take k gs) /\
    match op_mem (rp_opening st) with Some m => reuse_logs = true /\ last_log = true /\ mem_holds m left_ /\ metas = [] /\ reused w' st log_number S | None => left_ = [] end /\
    (metas <> [] -> rp_save_manifest st = true) /\
    (forall name, (forall n', n <= n' < 2 ^ 64 -> name <> TableFileName dbname n') -> on_disk w' name = on_disk w name).
Proof.
  intros n log Hdb Ho Hln Hn0 Hn Hd E Hg Hfit Hfuel Hrf H2' Hb. unfold on_disk in Hd. destruct (names w log) as [i|] eqn:Hlog; [|done]. injection Hd as HS.
  assert (forall m, 0 <= m < 2 ^ 64 -> log <> TableFileName dbname m) as Hne by (intros m Hm; by apply log_not_table).
  unfold RecoverLogFile. rewrite Hdb. fold log. destruct (NewSequentialFile_good w log i Hlog) as (h & w1 & Eo & Hl & Hs1). pose proof (open_reads _ _ _ _ _ Hlog Eo) as Hrd. rewrite Eo. cbn [ok OK negb].
  pose proof (new_reading_at (w1, h) true true) as Ha. change (remaining (w1, h)) with (left w1 h) in Ha. rewrite Hl, HS in Ha.
  destruct (replay_loop_ok rf bfuel o edit w log i gs fuel (new_Reader (w1, h) true true 0) kBlockSize S q [] (mk_replay OK None 0 save edit max o) sq 0 [] [] [] []) as (k & r' & st & metas & ess & cur & Hk & Hwhole & Hcut & El & Hlog' & Hmax & Hr); try done.
  - by rewrite log_bytes_block_end.
  - by rewrite app_nil_r.
  - by rewrite app_nil_r.
  - by rewrite (proj1 Hs1).
  - apply (replayed_disk _ _ _ _ _ _ w w1 _ _ _ Hs1). split; cbn; try done. lia.
  - rewrite app_nil_r in Hr. cbn [Nat.add] in Hr. rewrite El, run_bind_done. rewrite log_bytes_block_end in Hcut, Hwhole.
    assert (same_disk (fst (file r')) (env_delete_sequential (fst (file r')) h)) as Hs2 by apply delete_sequential_good. apply (replayed_disk _ _ _ _ _ _ _ _ _ _ _ Hs2) in Hr.
    assert (group_entries sq gs = group_entries (sq + Z.of_nat (length (concat (take k gs)))) (drop k gs) ++ group_entries sq (take k gs)) as Eall by (rewrite <- group_entries_app, take_drop; done).
    rewrite Eall in Hfit, Hb. rewrite length_app in Hb. apply tables_fit_app in Hfit.
    destruct (replay_end bfuel _ _ _ _ _ _ _ _ _ _ log i log_number last_log S Hr Ho) as (st' & w' & metas' & ess' & left_ & Er & Hmax' & Hst' & He' & Ht' & Ho' & Hp' & Hm' & Hsv' & Hd'); try done; [lia|lia|by rewrite (proj1 Hs2)| |].
    + pose proof (rd_disk _ _ _ _ _ _ _ _ _ _ Hr log) as Hdl. unfold on_disk in Hdl. rewrite (proj1 Hs2), Hlog', Hlog in Hdl. specialize (Hdl ltac:(intros m Hm; apply Hne; lia)). injection Hdl as Hdl. by rewrite Hdl, HS.
    + exists k, st', w', metas', ess', left_. split; [done|]. split; [done|]. split; [done|]. rewrite Er. do 2 (split; [done|]). split; [by rewrite Hmax', Hmax|]. repeat (split; [done|]). done.
Qed.
End Correct.

(** * An environment in memory *)

#[export] Instance mem_readers : Readers MemEnv := fun _ _ _ => True.

#[export, refine] Instance mem_reader_laws : ReaderLaws MemEnv := {}.
Proof.
  - done.
  - done.
  - done.
  - by intros w name s h w' i [= <- <- <-] _ g.
  - done.
  - done.
  - done.
  - done.
  - done.
  - intros w name i g Hg. cbn. by destruct (m_names w !! name).
  - intros w name i E. cbn in *. rewrite E. by exists w.
  - intros w name i E. cbn in *. rewrite E. by exists w.
Defined.

(** Two groups were written; of the record of the second the last byte is missing. *)
Definition demo_groups : list (list batch_op) := [[OpPut [x61] [x01]]; [OpDelete [x61]]].
Definition demo_log : list byte := fst (log_bytes 0 (records 5 demo_groups)).
Definition demo_cut : list byte := removelast demo_log.
Definition demo_opening : Opening := mk_opening (set_next_file (new_VersionSet (cstr "db")) 4) ∅ None None 0.
Definition demo_crashed : MemEnv := LdbEnv.mk_mem {[LogFileName (cstr "db") 3 := 1]} {[1 := demo_cut]} ∅.

Lemma demo_cache_aside : cache_aside demo_usable.
Proof. intros w n sz i. split; [apply keeps_refl|done]. Qed.

Lemma demo_tables_fit : tables_fit (c := BytewiseComparator) (snappy := no_snappy) demo_options (group_entries 5 demo_groups).
Proof.
  intros es rest Hp _. symmetry in Hp. change (group_entries 5 demo_groups) with [mk_entry 6 0 [x61] []; mk_entry 5 1 [x61] [x01]] in Hp.
  apply Permutation_length_2_inv in Hp as [Hp|Hp]; (destruct es as [|x [|y [|z es]]]; cbn [app] in Hp; simplify_eq; vm_compute; reflexivity).
Qed.

(** The first group is recovered to a table of the number 4. *)
Lemma recover_log_correct_witness : exists st w' m,
  RecoverLogFile (c := BytewiseComparator) (snappy := no_snappy) demo_usable demo_options 2097152 true false 4194304 (fun _ => 0) 3 100 3 3 true false new_VersionEdit 0 demo_opening demo_crashed = Done (st, w') /\
  rp_max_sequence st = 5 /\ rp_edit st = add_table new_VersionEdit m /\
  table_of (c := BytewiseComparator) (snappy := no_snappy) demo_options (cstr "db") w' m [mk_entry 5 1 [x61] [x01]].
Proof.
  destruct (recover_log_correct (c := BytewiseComparator) (valid := fun _ => True) (snappy := no_snappy) demo_usable demo_options ltac:(by left) 2097152 true false 4194304 (fun _ => 0) (cstr "db") demo_cache_reads demo_cache_aside
    3 100 3 3 true false new_VersionEdit 0 demo_opening demo_crashed 5 demo_groups demo_cut (drop (length demo_cut) demo_log)) as (k & st & w' & metas & ess & left_ & Hk & Hwhole & Hcut & E & Hst & Hmax & He & Ht & Ho & Hp & Hm & _).
  - reflexivity.
  - reflexivity.
  - lia.
  - vm_compute. discriminate.
  - vm_compute. reflexivity.
  - vm_compute. reflexivity.
  - vm_compute. reflexivity.
  - split; [lia|]. split; [vm_compute; discriminate|]. repeat constructor.
  - apply demo_tables_fit.
  - cbn. lia.
  - repeat constructor; vm_compute; lia.
  - lia.
  - cbn. lia.
  - assert (k = 1%nat) as ->.
    { destruct k as [|[|[|k]]]; [|done| |cbn in Hk; lia]; exfalso; [specialize (Hcut ltac:(cbn; lia)); revert Hcut|revert Hwhole]; vm_compute; lia. }
    change (group_entries 5 (take 1 demo_groups)) with [mk_entry 5 1 [x61] [x01]] in Hp. change (max_after 0 5 (take 1 demo_groups)) with 5 in Hmax.
    assert (left_ = []) as -> by (destruct (op_mem (rp_opening st)); [by destruct Hm|done]). rewrite app_nil_r in Hp. symmetry in Hp. apply Permutation_singleton_l in Hp.
    destruct Ht as [|m es metas ess Ht Hts]; [done|]. pose proof Ht as (_ & _ & (e & Ee & _) & _). destruct es as [|e' es]; [done|]. cbn [concat app] in Hp. injection Hp as <- Hp. symmetry in Hp. apply app_nil in Hp as [-> Hp].
    destruct Hts as [|m' es metas ess Ht' _]; [|destruct Ht' as (_ & _ & (e1 & Ee1 & _) & _); destruct es as [|e2 es]; [discriminate Ee1|discriminate Hp]]. exists st, w', m. split; [exact E|]. split; [exact Hmax|]. split; [exact He|exact Ht].
Defined.
